(* ===== verification/_CoqProject ===== *)
-Q . S2P
Prelude.v
Endian.v
Along.v
MsgBuffer.v
Crc16.v
ObjectPool.v
RepeatTimer.v
Queue.v
ThreadPool.v
IocPool.v
Connection.v
Wire.v
Proto.v
Framing.v
Server.v
Writing.v
Client.v
Application.v
LogLine.v
RingBuffer.v
QueueBuffer.v
LogBuffer.v
Logger.v
Field.v
Mysql.v
LinkPool.v
Utf8.v
JsonLexer.v
JsonStrings.v
JsonNumbers.v
FieldFloat.v
Rounding.v
Grisu.v
GrisuDigits.v
GrisuText.v
JsonParser.v
JsonGrammar.v
JsonAccept.v
JsonDump.v
JsonEscape.v
JsonRoundtrip.v
JsonTyped.v
Config.v
Scheduler.v
EventLoop.v
Wakeups.v
Strand.v
StrandTable.v
TimerQueue.v
TimerService.v
TimerClient.v
SocketOps.v
StreamSocket.v
Reactor.v
ReactorRun.v
SocketService.v
ReactorReads.v
Inbound.v
InboundLive.v
Delivery.v
Chain.v
DescriptorPool.v
ReactorTable.v
SignalSet.v
SignalSpec.v
SignalRefine.v
SignalServices.v
SignalCalls.v
SignalClient.v
