(* ===== verification/Prelude.v ===== *)
(** * Sparrow: a verification library for the sparrow network frame

    The program is a C++ server frame: asio connections that carry
    length-prefixed, checksummed messages, a pool of workers that decodes and
    answers them, an asynchronous logger, a pool of database links, and a JSON
    configuration read at the start.  This library models its own code and the
    parts of the JSON library it reads its configuration with, one file per
    part, and proves what makes each part correct or how it fails.

    ** How the parts interact

    [main] reads the configuration (JsonLexer, JsonParser, Config), starts the
    logger (LogLine, RingBuffer, QueueBuffer, LogBuffer, Logger) and the application
    (Application), which owns a server (Server), a client (Client) and a thread
    pool (ThreadPool, over the blocking queues of Queue).  Server and client own
    connections (Connection, Framing, Writing) that run on the event loops of
    IocPool with timers of RepeatTimer; a connection collects bytes in message
    buffers (MsgBuffer) that come from an object pool (ObjectPool).  A complete
    frame goes to a worker, which checks it (Crc16) and decodes it (Wire, Proto)
    into a request; the answer is encoded into a buffer and written back.  The
    database layer (Field, FieldFloat, Mysql, LinkPool) stands beside that path.

    ** Files and sources

    - Prelude, Endian, Along: faults, the state-and-fault monad [M], integers at their
      width, bytes, vectors, triples; byte order; relations that hold along a computation.
    - MsgBuffer: net/msgbuffer.{h,cpp}.  ObjectPool: net/objectpool.h.
      RepeatTimer: net/repeattimer.h.  IocPool: net/iocpool.{h,cpp}.
    - Connection, Framing, Writing: net/connection.{h,cpp}, net/constant.h; the
      read loop is compared with a stream parser, the write path with the bytes
      on the wire.  Server, Client: net/server.{h,cpp}, net/client.{h,cpp}.
    - Crc16, Wire, Proto: src/protocol/proto.{h,cpp} with the stream operators of
      the buffer behind the classes [WirePut] and [WireGet].
    - Application: src/application.{h,cpp} and main.cpp's business logic.
    - Queue, ThreadPool: util/queue.h, util/threadpool.{h,cpp}.
    - LogLine, RingBuffer, QueueBuffer, LogBuffer, Logger: util/nanolog.hpp; in LogBuffer,
      [BufferBase] is a class at the accesses to shared memory, with the two buffers as instances.
    - Field, FieldFloat, Mysql, LinkPool: dao/; the floating-point columns are in FieldFloat; [Link] is the class of what can be pooled.
    - JsonLexer, JsonParser, JsonDump, Grisu: json/nlohmann_json.hpp's lexer,
      parser, serializer and [to_chars].  JsonStrings, JsonNumbers and JsonGrammar compare them with the
      JSON grammar, JsonAccept parse with accept; JsonEscape, JsonRoundtrip and
      JsonTyped are about what is written, read back, and read at all; Utf8 holds
      code points and their bytes.  Rounding says which decimals the lexer reads
      as which number, GrisuDigits that the digits of Grisu2 are one of them, and
      GrisuText that their text is.
    - Scheduler, EventLoop, Wakeups: asio/detail/impl/scheduler.ipp and
      posix_event.hpp, the queue behind [io_context] and the threads that run it:
      the definitions, what is delivered and counted, and who is woken.
    - Strand, StrandTable: asio/detail/strand_service, one implementation and the table
      of them.  TimerQueue: timer_queue.hpp, with the
      clock's arithmetic of chrono_time_traits.hpp: the order in which the
      completions of a connection run, and the timers of an event loop.
      TimerService, TimerClient: deadline_timer_service.hpp with the reactor's
      functions for timers, and the repeating timer on top of it.
    - SocketOps, Reactor, ReactorRun: epoll_reactor.ipp for one registered socket, and what its
      operations do (socket_ops.ipp, reactive_socket_*_op.hpp).  The operating system is the
      class [Kernel], its documentation [KernelLaws]; StreamSocket has instances.
    - DescriptorPool, ReactorTable: object_pool.hpp, and epoll_reactor.ipp for all descriptors: the states of
      which each is a Reactor, epoll's set (class [Epoll]), the dispatch of events, forks, shutting down.
    - SocketService: reactive_socket_service_base and the functions of socket_ops.ipp it takes to
      open, set up and close a socket (class [SocketCalls]).  ReactorReads, Inbound, InboundLive, Delivery: a
      server connection with this socket in the place of its posted reads and writes, from the
      accept on, with the messages that are written on it and the ticks of its timer; what is true of it at
      any time, and that it gets on.
    - Chain, SignalSet, SignalSpec, SignalRefine, SignalServices, SignalCalls:
      signal_set_service.ipp, whose registrations and services are linked lists; the
      specification has lists in their place ([represents]).  SignalClient: the application's use of it.
    - Config: main.cpp's [from_file] and the settings the program takes out of
      cfg/chameleon.cfg.

    State is a record per class with the members' names; an operation is a
    function in [M] over that record, or a step relation where threads share it.
    Faults are the exits from defined behaviour the program can take.  Where
    several threads run, a schedule lists whose access or critical section comes
    next, and a theorem is about every schedule.  Operations posted to asio or
    to the operating system and not yet completed are part of the state, and
    what they answer is an argument.

    ** What is shown

    - End to end: [Application.server_receives_requests],
      [Server.server_read_loop_frames], [Writing.message_written] and
      [Application.deliver_request_answered] follow a message from the wire to
      the answer; [Application.corrupt_frame_closes] and the Crc16 theorems are
      about damage on the way.
    - The same from the socket on: [Inbound.frames_from_socket] in every interleaving of the event loop,
      the network, writers and the idle timer, any of which may close the connection, and [InboundLive.arrived_frames_handled], that what arrives is handled;
      [Delivery.requests_delivered] goes on to the requests that are decoded.
    - Round trips of the formats: [Wire.fields_roundtrip], the Proto theorems,
      [LogLine.log_line_roundtrip], [JsonRoundtrip.dump_parse],
      [GrisuText.to_chars_roundtrip].
    - The JSON text of the configuration: [JsonGrammar.parse_exact] (what the parser accepts,
      against the grammar of RFC 8259), the theorems on strings and numbers it rests on,
      [JsonTyped.parse_typed], [Config.config_read] and [Config.config_errors].
    - Refinement of simple specifications by concurrent code: the Queue,
      RingBuffer, QueueBuffer and Logger theorems.
    - The event loop: [EventLoop.scheduler_delivers],
      [EventLoop.scheduler_keeps_running] (with the guard the program holds for
      each loop), [Wakeups.scheduler_no_lost_wakeup], [Strand.strand_serial],
      [TimerQueue.timers_refine], [TimerService.service_refines] and
      [TimerClient.repeat_timer_on_service], which carries the theorems on
      RepeatTimer down to the queue.
    - The sockets: [ReactorRun.no_readiness_lost] and [ReactorRun.performed_in_order], for
      every sequence of calls of users and threads and whatever the network does;
      [SocketService.socket_lifecycle] for opening and closing, [ReactorTable.reactor_table_safe] for
      the states of all descriptors.
    - Signals: [SignalCalls.signals_refine], [SignalCalls.no_wait_beside_signal],
      [SignalCalls.signal_reaches_sets], and for the application [SignalClient.signals_all_handled].
    - Lifetimes: [Writing.released_once], [ObjectPool.pool_exclusive],
      [RepeatTimer.timer_stopped_silent], [ThreadPool.pool_stop_joins],
      [LinkPool.link_pool_count].
    - Failures, stated as theorems of what the code does: overrun rings, blind
      idle checks, interleaved writes, the handler of a write that the kernel has split, the
      race of the queue buffer under the logger, refused answers, doubly freed handles.

    ** Bounds and fuel

    [connect_at] has fuel 3 because the retry counter stops it by then; the fuel
    of the log line's reader and of the loops over a text is the length of what
    is left to read, which every turn shortens; the loops over linked registrations and
    services have as much as there are of them; [QueueBuffer.finish] lets a push
    run 9 accesses, more than it has; [JsonParser.fuel_for] counts the calls and
    turns of the parser by the tokens they read; in Grisu a significand shifts at most 63
    times, a digit is lowered at most 10 times and at most 20 digits follow the
    point, and running out of that is a fault; a waiting read is handled after at most four turns of the
    event loop for each byte that has arrived, and four more.  Each is shown to be enough where a result
    depends on it.

    ** Not modelled

    Console output, log statements of the components (LOG_INFO and the like) and
    asio but for its scheduler, strands, timers, signal sets, the reactor and a socket: outside
    Inbound, TimerClient and SignalClient a socket, a timer and
    an event loop appear as the posted operations of the components that use them, and
    the reactor as what the scheduler requires of its task.  Of the reactor and the socket service,
    synchronous calls, out-of-band data and scattered buffers are left out.  A handler of a
    strand returns; one that throws leaves the event loop, which is not modelled.  The MySQL client library is a
    parameter.  Of the JSON library only what reading the configuration uses is
    modelled, with its writer.  Singleton and tag types have no behaviour. *)

From Stdlib Require Import ZArith Lia Strings.Byte.
From stdpp Require Import base list numbers.

#[global] Open Scope Z_scope.

(** ** Faults and results

    C++ operations of the program that leave the defined behaviour, or throw,
    end in a [fault]; everything else is an [Ok]. *)
Inductive fault :=
  | OutOfBounds   (** an access outside the storage it addresses *)
  | LengthError   (** [std::length_error] of a vector that is asked to grow too much *)
  | NullDeref     (** a null or past-the-end pointer is dereferenced *)
  | UseAfterFree  (** an object is used after its destruction *)
  | BadConversion (** a floating-point value is converted to an integer type without it *)
  | SignedOverflow (** the result of signed arithmetic does not fit its type *)
  | BadShift      (** a shift by a negative distance or by the width of the type *)
  | AssertionFailed
  | OutOfFuel.    (** a loop has not ended within the turns the model gives it *)

Inductive result (A : Type) :=
  | Ok (a : A)
  | Fault (f : fault).
Arguments Ok {A} a.
Arguments Fault {A} f.

Definition is_ok {A} (r : result A) : bool :=
  match r with Ok _ => true | Fault _ => false end.

#[global] Instance result_ret : MRet result := λ A, Ok.
#[global] Instance result_bind : MBind result := λ A B k m,
  match m with Ok a => k a | Fault f => Fault f end.

Definition assert_that (b : bool) : result unit := if b then Ok tt else Fault AssertionFailed.

(** The state monad with faults all the stateful components are written in. *)
Definition M (S A : Type) : Type := S → result (A * S).

#[global] Instance M_ret {S} : MRet (M S) := λ A a s, Ok (a, s).
#[global] Instance M_bind {S} : MBind (M S) := λ A B k m s,
  match m s with
  | Ok (a, s') => k a s'
  | Fault f => Fault f
  end.

Definition raise {S A} (f : fault) : M S A := λ _, Fault f.
Definition gets {S A} (f : S → A) : M S A := λ s, Ok (f s, s).
Definition modify {S} (f : S → S) : M S unit := λ s, Ok (tt, f s).
Definition lift {S A} (r : result A) : M S A := λ s,
  match r with Ok a => Ok (a, s) | Fault f => Fault f end.
Definition when {S} (c : bool) (m : M S unit) : M S unit :=
  if c then m else mret tt.

Section MonadLaws.
Context {S A B : Type}.
Implicit Types (m : M S A) (k : A → M S B) (s : S).

Lemma bind_ok m k s a s' : m s = Ok (a, s') → (m ≫= k) s = k a s'.
Proof. intros H. unfold mbind, M_bind. by rewrite H. Qed.

Lemma bind_fault m k s f : m s = Fault f → (m ≫= k) s = Fault f.
Proof. intros H. unfold mbind, M_bind. by rewrite H. Qed.

Lemma bind_inv m k s b s'' :
  (m ≫= k) s = Ok (b, s'') → ∃ a s', m s = Ok (a, s') ∧ k a s' = Ok (b, s'').
Proof.
  unfold mbind, M_bind. destruct (m s) as [[a s']|f] eqn:E; [eauto|done].
Qed.
End MonadLaws.

(** ** Machine integers

    [size_t] and [uint64_t] are 64 bits wide, [int] 32: every integer is a [Z]
    and every operation that can wrap says so. *)
Definition u8 (z : Z) : Z := z mod 2 ^ 8.
Definition u16 (z : Z) : Z := z mod 2 ^ 16.
Definition u32 (z : Z) : Z := z mod 2 ^ 32.
Definition u64 (z : Z) : Z := z mod 2 ^ 64.
Definition i32 (z : Z) : Z := (z + 2 ^ 31) mod 2 ^ 32 - 2 ^ 31.

Definition in_u (w : Z) (z : Z) : Prop := 0 ≤ z < 2 ^ w.

Lemma u64_small z : in_u 64 z → u64 z = z.
Proof. apply Z.mod_small. Qed.
Lemma u32_small z : in_u 32 z → u32 z = z.
Proof. apply Z.mod_small. Qed.
Lemma u16_small z : in_u 16 z → u16 z = z.
Proof. apply Z.mod_small. Qed.
Lemma u8_small z : in_u 8 z → u8 z = z.
Proof. apply Z.mod_small. Qed.
Lemma i32_small z : - 2 ^ 31 ≤ z < 2 ^ 31 → i32 z = z.
Proof. intros H. unfold i32. rewrite Z.mod_small; lia. Qed.

Lemma u64_range z : in_u 64 (u64 z).
Proof. apply Z.mod_pos_bound. lia. Qed.
Lemma u32_range z : in_u 32 (u32 z).
Proof. apply Z.mod_pos_bound. lia. Qed.
Lemma u16_range z : in_u 16 (u16 z).
Proof. apply Z.mod_pos_bound. lia. Qed.
Lemma u8_range z : in_u 8 (u8 z).
Proof. apply Z.mod_pos_bound. lia. Qed.

(** ** Bytes *)

#[global] Instance byte_eq_dec : EqDecision byte := Byte.byte_eq_dec.

(** The value of a byte as an [unsigned char], and as a (signed) [char]. *)
Definition byteZ (b : byte) : Z := Z.of_N (Byte.to_N b).
Definition charZ (b : byte) : Z := if byteZ b <? 128 then byteZ b else byteZ b - 256.

Definition Zbyte (z : Z) : byte :=
  match Byte.of_N (Z.to_N (u8 z)) with
  | Some b => b
  | None => x00
  end.

Lemma byteZ_range b : in_u 8 (byteZ b).
Proof.
  unfold in_u, byteZ. split; [lia|].
  pose proof (Byte.to_N_bounded b). lia.
Qed.

Lemma byteZ_Zbyte z : byteZ (Zbyte z) = u8 z.
Proof.
  unfold byteZ, Zbyte. pose proof (u8_range z) as [H0 H1].
  destruct (Byte.of_N (Z.to_N (u8 z))) as [b|] eqn:E.
  - apply Byte.to_of_N in E. rewrite E. lia.
  - apply Byte.of_N_None_iff in E. lia.
Qed.

Lemma Zbyte_byteZ b : Zbyte (byteZ b) = b.
Proof.
  unfold Zbyte. rewrite u8_small by apply byteZ_range.
  unfold byteZ. rewrite N2Z.id. by rewrite Byte.of_to_N.
Qed.

Lemma byteZ_inj b1 b2 : byteZ b1 = byteZ b2 → b1 = b2.
Proof. intros H. rewrite <- (Zbyte_byteZ b1), H. apply Zbyte_byteZ. Qed.

(** ** Lists addressed by [Z] offsets *)

Definition zlen {A} (l : list A) : Z := Z.of_nat (length l).
Definition ztake {A} (n : Z) (l : list A) : list A := take (Z.to_nat n) l.
Definition zdrop {A} (n : Z) (l : list A) : list A := drop (Z.to_nat n) l.
Definition zreplicate {A} (n : Z) (x : A) : list A := replicate (Z.to_nat n) x.

Section ZLists.
Context {A : Type}.
Implicit Types (l k : list A) (x : A) (n i : Z).

Lemma zlen_nonneg l : 0 ≤ zlen l.
Proof. unfold zlen. lia. Qed.
Lemma zlen_nil : zlen (@nil A) = 0.
Proof. done. Qed.
Lemma zlen_cons x l : zlen (x :: l) = 1 + zlen l.
Proof. unfold zlen. simpl. lia. Qed.
Lemma zlen_app l k : zlen (l ++ k) = zlen l + zlen k.
Proof. unfold zlen. rewrite length_app. lia. Qed.
Lemma zlen_replicate n x : 0 ≤ n → zlen (zreplicate n x) = n.
Proof. intros. unfold zlen, zreplicate. rewrite length_replicate. lia. Qed.
Lemma zlen_take n l : zlen (ztake n l) = Z.max 0 (Z.min n (zlen l)).
Proof. unfold zlen, ztake. rewrite length_take. lia. Qed.
Lemma zlen_drop n l : zlen (zdrop n l) = zlen l - Z.max 0 (Z.min n (zlen l)).
Proof. unfold zlen, zdrop. rewrite length_drop. lia. Qed.

Lemma zlen_0_inv l : zlen l = 0 → l = [].
Proof. unfold zlen. destruct l; simpl; [done|lia]. Qed.

Lemma ztake_app l k : ztake (zlen l) (l ++ k) = l.
Proof. unfold ztake, zlen. rewrite Nat2Z.id. apply take_app_length. Qed.
Lemma zdrop_app l k : zdrop (zlen l) (l ++ k) = k.
Proof. unfold zdrop, zlen. rewrite Nat2Z.id. apply drop_app_length. Qed.
Lemma ztake_app_le n l k : n ≤ zlen l → ztake n (l ++ k) = ztake n l.
Proof. unfold ztake, zlen. intros. apply take_app_le. lia. Qed.
Lemma zdrop_app_le n l k : n ≤ zlen l → zdrop n (l ++ k) = zdrop n l ++ k.
Proof. unfold zdrop, zlen. intros. apply drop_app_le. lia. Qed.
Lemma ztake_ge n l : zlen l ≤ n → ztake n l = l.
Proof. unfold ztake, zlen. intros. apply take_ge. lia. Qed.
Lemma zdrop_ge n l : zlen l ≤ n → zdrop n l = [].
Proof. unfold zdrop, zlen. intros. apply drop_ge. lia. Qed.
Lemma ztake_0 l : ztake 0 l = [].
Proof. done. Qed.
Lemma zdrop_0 l : zdrop 0 l = l.
Proof. done. Qed.
Lemma ztake_zdrop n l : ztake n l ++ zdrop n l = l.
Proof. apply take_drop. Qed.

Lemma zdrop_zdrop n i l : 0 ≤ n → 0 ≤ i → zdrop n (zdrop i l) = zdrop (i + n) l.
Proof.
  intros. unfold zdrop. rewrite drop_drop. f_equal. lia.
Qed.

(** Splitting a list at an offset inside it. *)
Lemma zsplit n l : 0 ≤ n ≤ zlen l → ∃ l1 l2, l = l1 ++ l2 ∧ zlen l1 = n.
Proof.
  intros. exists (ztake n l), (zdrop n l). rewrite ztake_zdrop.
  split; [done|]. rewrite zlen_take. lia.
Qed.

Lemma insert_here l k x y : <[length l := y]> (l ++ x :: k) = l ++ y :: k.
Proof. pose proof (insert_app_r l (x :: k) 0 y) as H. by rewrite Nat.add_0_r in H. Qed.

Lemma lookup_app_head l k : (l ++ k) !! length l = head k.
Proof. rewrite lookup_app_r, Nat.sub_diag by done. by destruct k. Qed.

Lemma app_inj_zlen l1 l2 k1 k2 :
  l1 ++ l2 = k1 ++ k2 → zlen l1 = zlen k1 → l1 = k1 ∧ l2 = k2.
Proof. intros H Hl. apply app_inj_1; [unfold zlen in Hl; lia|done]. Qed.
End ZLists.

(** Sums of a measure over a list. *)
Definition zsum {A} (f : A → Z) (l : list A) : Z := foldr (λ x n, f x + n) 0 l.
#[global] Arguments zsum : simpl never.

Section Sums.
Context {A : Type}.
Implicit Type f : A → Z.

Lemma zsum_nil f : zsum f [] = 0.
Proof. done. Qed.
Lemma zsum_cons f x l : zsum f (x :: l) = f x + zsum f l.
Proof. done. Qed.
Lemma zsum_app f l k : zsum f (l ++ k) = zsum f l + zsum f k.
Proof. induction l as [|x l IH]; [done|]. rewrite <- app_comm_cons, !zsum_cons. lia. Qed.
Lemma zsum_map {B} (g : A → B) (h : B → Z) l : zsum h (map g l) = zsum (λ x, h (g x)) l.
Proof. induction l as [|x l IH]; [done|]. cbn [map]. unfold zsum in *; cbn; by rewrite IH. Qed.
Lemma zsum_insert f l i x y : l !! i = Some x → zsum f (<[i := y]> l) = zsum f l - f x + f y.
Proof.
  revert i. induction l as [|z l IH]; intros [|i] H; try done.
  - injection H as ->. change (<[0%nat := y]> (x :: l)) with (y :: l). rewrite !zsum_cons. lia.
  - change (<[S i := y]> (z :: l)) with (z :: <[i := y]> l). rewrite !zsum_cons, IH by done. lia.
Qed.
Lemma zsum_nonneg f l : Forall (λ x, 0 ≤ f x) l → 0 ≤ zsum f l.
Proof. induction 1; [done|]. rewrite zsum_cons. lia. Qed.
Lemma zsum_zero f l : (∀ x, f x = 0) → zsum f l = 0.
Proof. intros H. induction l as [|x l IH]; [done|]. rewrite zsum_cons, H. exact IH. Qed.
Lemma zsum_ge f l i x : Forall (λ x, 0 ≤ f x) l → l !! i = Some x → f x ≤ zsum f l.
Proof.
  intros H. revert i. induction H as [|y l Hy H IH]; intros [|i] Hi; try done; rewrite zsum_cons.
  - injection Hi as ->. pose proof (zsum_nonneg f l H). lia.
  - specialize (IH _ Hi). lia.
Qed.
End Sums.

#[global] Instance zsum_perm {A} (f : A → Z) : Proper ((≡ₚ) ==> (=)) (zsum f).
Proof. induction 1; rewrite ?zsum_cons; lia. Qed.

(** A list is known, but for its order, by the sums over it. *)
Lemma perm_of_zsum `{EqDecision A} (l k : list A) : (∀ f, zsum f l = zsum f k) → l ≡ₚ k.
Proof.
  revert k. induction l as [|x l IH]; intros k H.
  - specialize (H (λ _, 1)). destruct k as [|y k]; [done|]. rewrite zsum_nil, zsum_cons in H.
    assert (0 ≤ zsum (λ _, 1) k) by (by apply zsum_nonneg, Forall_true). lia.
  - assert (Hx : x ∈ k).
    { destruct (decide (x ∈ k)) as [|Hx]; [done|]. specialize (H (λ y, if decide (y = x) then 1 else 0)).
      rewrite zsum_cons, decide_True in H by done.
      assert (0 ≤ zsum (λ y, if decide (y = x) then 1 else 0) l)
        by (apply zsum_nonneg, Forall_true; intros; by case_decide).
      enough (zsum (λ y, if decide (y = x) then 1 else 0) k = 0) by lia. clear -Hx.
      induction k as [|y k IH]; [done|]. apply not_elem_of_cons in Hx as [Hy Hx].
      rewrite zsum_cons, IH, decide_False by done. done. }
    apply elem_of_Permutation in Hx as [k' Hk]. rewrite Hk. f_equiv. apply IH. intros f. specialize (H f).
    rewrite Hk, !zsum_cons in H. lia.
Qed.

Lemma Exists_lookup {A} (P : A → Prop) l : Exists P l ↔ ∃ i x, l !! i = Some x ∧ P x.
Proof.
  split.
  - induction 1 as [x l Hx|x l _ (i & z & Hi & Hz)]; [by exists 0%nat, x|by exists (S i), z].
  - intros (i & x & Hi & Hx). revert i Hi. induction l as [|z l IH]; intros [|i] Hi; try done.
    + injection Hi as ->. by left.
    + right. by eapply IH.
Qed.

(** Sums over lists that are written out. *)
Create Rewrite HintDb zsum.
#[global] Hint Rewrite @zsum_nil @zsum_cons @zsum_app : zsum.
Ltac zsums := autorewrite with zsum in *.

Create Rewrite HintDb zlist.
#[global] Hint Rewrite @zlen_nil @zlen_cons @zlen_app @zlen_take @zlen_drop : zlist.

(** Linear arithmetic after normalising list lengths. *)
Ltac zlen_nonneg_all :=
  repeat match goal with
  | |- context [zlen ?l] =>
      lazymatch goal with
      | _ : 0 ≤ zlen l |- _ => fail
      | _ => pose proof (zlen_nonneg l)
      end
  | _ : context [zlen ?l] |- _ =>
      lazymatch goal with
      | _ : 0 ≤ zlen l |- _ => fail
      | _ => pose proof (zlen_nonneg l)
      end
  end.
Ltac zl := autorewrite with zlist in *; zlen_nonneg_all; lia.

(** Decides the integer comparisons of a guard that the context settles. *)
Ltac zguard :=
  repeat (match goal with
  | |- context [?a <=? ?b] =>
      first [ rewrite (proj2 (Z.leb_le a b)) by zl
            | rewrite (proj2 (Z.leb_gt a b)) by zl ]
  | |- context [?a <? ?b] =>
      first [ rewrite (proj2 (Z.ltb_lt a b)) by zl
            | rewrite (proj2 (Z.ltb_ge a b)) by zl ]
  | |- context [?a >=? ?b] => rewrite (Z.geb_leb a b)
  | |- context [?a >? ?b] => rewrite (Z.gtb_ltb a b)
  | |- context [?a =? ?b] =>
      first [ rewrite (proj2 (Z.eqb_eq a b)) by zl
            | rewrite (proj2 (Z.eqb_neq a b)) by zl ]
  end; cbn [andb orb negb]).

(** [mgo H] runs one monadic step whose outcome is [H]. *)
Ltac mgo H := erewrite bind_ok by (exact H).

(** ** Contiguous storage: a [std::vector<char>] accessed through raw pointers *)

Definition vread (v : list byte) (i n : Z) : result (list byte) :=
  if (0 <=? i) && (0 <=? n) && (i + n <=? zlen v)
  then Ok (ztake n (zdrop i v)) else Fault OutOfBounds.

Definition vwrite (v : list byte) (i : Z) (bs : list byte) : result (list byte) :=
  if (0 <=? i) && (i + zlen bs <=? zlen v)
  then Ok (ztake i v ++ bs ++ zdrop (i + zlen bs) v) else Fault OutOfBounds.

(** [std::vector<char>::max_size()] *)
Definition vec_max : Z := 2 ^ 63 - 1.

Definition vresize (v : list byte) (n : Z) : result (list byte) :=
  if n <=? vec_max
  then Ok (ztake n v ++ zreplicate (n - zlen v) x00) else Fault LengthError.

Lemma vread_app pre xs rest : vread (pre ++ xs ++ rest) (zlen pre) (zlen xs) = Ok xs.
Proof.
  unfold vread. zguard. by rewrite zdrop_app, ztake_app.
Qed.

Lemma vwrite_app pre xs ys rest :
  zlen xs = zlen ys → vwrite (pre ++ xs ++ rest) (zlen pre) ys = Ok (pre ++ ys ++ rest).
Proof.
  intros Hl. unfold vwrite. zguard. rewrite ztake_app. repeat f_equal.
  rewrite <- Hl, <- zlen_app, app_assoc. apply zdrop_app.
Qed.

Lemma vread_fault v i n : 0 ≤ n → zlen v < i + n → vread v i n = Fault OutOfBounds.
Proof.
  intros. unfold vread. destruct (Z.leb_spec (i + n) (zlen v)); [lia|].
  by rewrite andb_false_r.
Qed.

Lemma vwrite_fault v i bs : zlen v < i + zlen bs → vwrite v i bs = Fault OutOfBounds.
Proof.
  intros. unfold vwrite. destruct (Z.leb_spec (i + zlen bs) (zlen v)); [lia|].
  by rewrite andb_false_r.
Qed.

Lemma vresize_grow v n :
  zlen v ≤ n ≤ vec_max → vresize v n = Ok (v ++ zreplicate (n - zlen v) x00).
Proof.
  intros. unfold vresize. destruct (Z.leb_spec n vec_max); [|lia].
  by rewrite ztake_ge by lia.
Qed.

(** ** Total-correctness triples

    [⦃ P ⦄ m ⦃ Q ⦄]: from every state that satisfies [P] the operation returns,
    without a fault, a value and a state that satisfy [Q]. *)
Declare Scope triple_scope.
#[global] Open Scope triple_scope.

Definition triple {S A} (P : S → Prop) (m : M S A) (Q : A → S → Prop) : Prop :=
  ∀ s, P s → ∃ a s', m s = Ok (a, s') ∧ Q a s'.
Notation "⦃ P ⦄ m ⦃ Q ⦄" := (triple P m Q)
  (at level 20, m at level 90, format "⦃  P  ⦄  m  ⦃  Q  ⦄") : triple_scope.

Section Triples.
Context {S A B : Type}.
Implicit Types (P : S → Prop).

Lemma triple_ret P (a : A) : ⦃ P ⦄ (mret a : M S A) ⦃ λ a' s, a' = a ∧ P s ⦄.
Proof. intros s Hs. by exists a, s. Qed.

Lemma triple_bind P (m : M S A) (Q : A → S → Prop) (k : A → M S B) R :
  ⦃ P ⦄ m ⦃ Q ⦄ → (∀ a, ⦃ Q a ⦄ k a ⦃ R ⦄) → ⦃ P ⦄ m ≫= k ⦃ R ⦄.
Proof.
  intros Hm Hk s Hs. destruct (Hm s Hs) as (a & s' & E & HQ).
  destruct (Hk a s' HQ) as (b & s'' & E' & HR).
  exists b, s''. split; [|done]. by rewrite (bind_ok _ _ _ _ _ E).
Qed.

(** A step that determines its result. *)
Lemma triple_bind_eq P (m : M S A) a Q (k : A → M S B) R :
  ⦃ P ⦄ m ⦃ λ a' s, a' = a ∧ Q s ⦄ → ⦃ Q ⦄ k a ⦃ R ⦄ → ⦃ P ⦄ m ≫= k ⦃ R ⦄.
Proof.
  intros Hm Hk. eapply triple_bind; [exact Hm|].
  intros a' s [-> Hs]. by apply Hk.
Qed.

Lemma triple_conseq P P' (m : M S A) (Q Q' : A → S → Prop) :
  ⦃ P ⦄ m ⦃ Q ⦄ → (∀ s, P' s → P s) → (∀ a s, Q a s → Q' a s) → ⦃ P' ⦄ m ⦃ Q' ⦄.
Proof.
  intros Hm HP HQ s Hs. destruct (Hm s (HP s Hs)) as (a & s' & E & H).
  exists a, s'. auto.
Qed.

Lemma triple_run P (m : M S A) Q s a s' :
  ⦃ P ⦄ m ⦃ Q ⦄ → P s → m s = Ok (a, s') → Q a s'.
Proof.
  intros Hm Hs E. destruct (Hm s Hs) as (a1 & s1 & E1 & H). congruence.
Qed.
End Triples.
