(* ===== verification/Endian.v ===== *)
(** * Integers in memory and on the wire

    The representation of fixed-width integers as bytes: little endian in the
    memory of the host the program is built for (x86 under Linux and Windows),
    big endian on the wire.  [htons], [htonl], [ntohs] and [ntohl] are the
    standard byte-order functions the message buffer calls. *)

From Stdlib Require Import ZArith Lia Strings.Byte.
From stdpp Require Import base list numbers.
From S2P Require Import Prelude.

(** The [n] bytes of [v] in host memory, least significant first. *)
Fixpoint le_bytes (n : nat) (v : Z) : list byte :=
  match n with
  | O => []
  | S n' => Zbyte v :: le_bytes n' (v / 256)
  end.

(** The integer that host memory [l] holds. *)
Fixpoint le_value (l : list byte) : Z :=
  match l with
  | [] => 0
  | b :: l' => byteZ b + 256 * le_value l'
  end.

Definition be_bytes (n : nat) (v : Z) : list byte := reverse (le_bytes n v).
Definition be_value (l : list byte) : Z := le_value (reverse l).

(** Byte order conversions: the same function in both directions. *)
Definition bswap (n : nat) (v : Z) : Z := le_value (be_bytes n v).
Definition htons : Z → Z := bswap 2.
Definition htonl : Z → Z := bswap 4.
Definition ntohs : Z → Z := bswap 2.
Definition ntohl : Z → Z := bswap 4.

Lemma length_le_bytes n v : length (le_bytes n v) = n.
Proof. revert v. induction n; intros v; simpl; [done|]. by rewrite IHn. Qed.

Lemma length_be_bytes n v : length (be_bytes n v) = n.
Proof. unfold be_bytes. by rewrite length_reverse, length_le_bytes. Qed.

Lemma zlen_le_bytes n v : zlen (le_bytes n v) = Z.of_nat n.
Proof. unfold zlen. by rewrite length_le_bytes. Qed.

Lemma zlen_be_bytes n v : zlen (be_bytes n v) = Z.of_nat n.
Proof. unfold zlen. by rewrite length_be_bytes. Qed.

Lemma le_value_range l : in_u (8 * zlen l) (le_value l).
Proof.
  induction l as [|b l IH]; unfold in_u in *; simpl; [done|].
  pose proof (byteZ_range b) as Hb. unfold in_u in Hb.
  rewrite zlen_cons, Z.mul_add_distr_l, Z.pow_add_r by zl. lia.
Qed.

Lemma le_value_bytes n v : le_value (le_bytes n v) = v mod 2 ^ (8 * Z.of_nat n).
Proof.
  revert v. induction n as [|n IH]; intros v.
  - simpl. by rewrite Z.mod_1_r.
  - cbn [le_bytes le_value]. rewrite IH, byteZ_Zbyte. unfold u8.
    replace (8 * Z.of_nat (S n)) with (8 + 8 * Z.of_nat n) by lia.
    rewrite Z.pow_add_r by lia. change (2 ^ 8) with 256.
    rewrite Z.rem_mul_r by lia. lia.
Qed.

Lemma le_bytes_value l : le_bytes (length l) (le_value l) = l.
Proof.
  induction l as [|b l IH]; simpl; [done|].
  pose proof (byteZ_range b) as [Hb0 Hb1]. f_equal.
  - apply byteZ_inj. rewrite byteZ_Zbyte. unfold u8. change (2 ^ 8) with 256 in *.
    rewrite Z.mul_comm, Z.mod_add by lia. apply Z.mod_small. lia.
  - rewrite Z.mul_comm, Z.div_add by lia. rewrite Z.div_small by lia. apply IH.
Qed.

Lemma le_value_inj l k : length l = length k → le_value l = le_value k → l = k.
Proof.
  intros Hl Hv. rewrite <- (le_bytes_value l), <- (le_bytes_value k). by rewrite Hl, Hv.
Qed.

(** What a conversion stores is the big-endian image of its argument... *)
Lemma host_bytes_bswap n v : le_bytes n (bswap n v) = be_bytes n v.
Proof.
  unfold bswap. rewrite <- (length_be_bytes n v) at 1. apply le_bytes_value.
Qed.

(** ... and what it loads from a big-endian image is the integer. *)
Lemma bswap_host_value n v :
  in_u (8 * Z.of_nat n) v → bswap n (le_value (be_bytes n v)) = v.
Proof.
  intros Hv. unfold bswap at 1, be_bytes at 1.
  rewrite <- (length_be_bytes n v) at 1. rewrite le_bytes_value.
  unfold be_bytes. rewrite reverse_involutive, le_value_bytes.
  by apply Z.mod_small.
Qed.

Lemma bswap_be_value l : bswap (length l) (le_value l) = be_value l.
Proof. unfold bswap, be_bytes, be_value. by rewrite le_bytes_value. Qed.

Lemma be_value_range l : in_u (8 * zlen l) (be_value l).
Proof.
  unfold be_value. pose proof (le_value_range (reverse l)) as H.
  unfold zlen in *. by rewrite length_reverse in H.
Qed.

Lemma be_value_bytes n v : in_u (8 * Z.of_nat n) v → be_value (be_bytes n v) = v.
Proof.
  intros Hv. unfold be_value, be_bytes. rewrite reverse_involutive, le_value_bytes.
  by apply Z.mod_small.
Qed.

Lemma be_bytes_value l : be_bytes (length l) (be_value l) = l.
Proof.
  unfold be_bytes, be_value. rewrite <- length_reverse, le_bytes_value.
  apply reverse_involutive.
Qed.

Lemma be_value_inj l k : length l = length k → be_value l = be_value k → l = k.
Proof.
  intros Hl Hv. rewrite <- (be_bytes_value l), <- (be_bytes_value k). by rewrite Hl, Hv.
Qed.

#[global] Hint Rewrite zlen_le_bytes zlen_be_bytes : zlist.
