(* ===== verification/Along.v ===== *)
(** * Relations along a computation

    [along R m]: whatever [m] does to the state when it returns is in [R].  For a preorder
    this follows from the parts of [m]; the tactic [along] takes it apart. *)

From Stdlib Require Import ZArith.
From stdpp Require Import base relations.
From S2P Require Import Prelude.

Definition along {S A} (R : relation S) (m : M S A) : Prop := ∀ s a s', m s = Ok (a, s') → R s s'.

Section Along.
Context {S : Type} (R : relation S) `{!PreOrder R}.
Implicit Types A B : Type.

Lemma along_ret {A} (a : A) : along R (mret a).
Proof. intros s b s' [= _ <-]. reflexivity. Qed.

Lemma along_bind {A B} (m : M S A) (k : A → M S B) : along R m → (∀ a, along R (k a)) → along R (m ≫= k).
Proof. intros Hm Hk s b s' (a & s1 & E1 & E2)%bind_inv. etrans; [by eapply Hm|by eapply Hk]. Qed.

Lemma along_gets {A} (f : S → A) : along R (gets f).
Proof. intros s b s' [= _ <-]. reflexivity. Qed.

Lemma along_raise {A} f : along R (@raise S A f).
Proof. by intros s b s'. Qed.

Lemma along_modify (f : S → S) : (∀ s, R s (f s)) → along R (modify f).
Proof. intros H s b s' [= _ <-]. apply H. Qed.

Lemma along_when c (m : M S unit) : along R m → along R (when c m).
Proof. destruct c; [done|]. intros _. apply along_ret. Qed.

(** Knowing more about the result of the first part. *)
Lemma along_bind_post {A B} (P : A → Prop) (m : M S A) (k : A → M S B) :
  along R m → (∀ s a s', m s = Ok (a, s') → P a) → (∀ a, P a → along R (k a)) → along R (m ≫= k).
Proof. intros Hm HP Hk s b s' (a & s1 & E1 & E2)%bind_inv. etrans; [by eapply Hm|eapply Hk; [by eapply HP|done]]. Qed.

(** A branch on what has just been read may depend on the state. *)
Lemma along_gets_bind {A B} (f : S → A) (k : A → M S B) : (∀ s b s', k (f s) s = Ok (b, s') → R s s') → along R (gets f ≫= k).
Proof. intros H s b s' E. by apply (H s b s'). Qed.
End Along.

(** Takes a computation apart; what is left are the modifications. *)
Ltac along_cases := repeat first [progress cbn beta iota | lazymatch goal with
  | |- along _ (mbind _ _) => refine (along_bind _ _ _ _ _); [|intros ?]
  | |- along _ (when _ _) => refine (along_when _ _ _ _)
  | |- along _ (mret _) => refine (along_ret _ _)
  | |- along _ (gets _) => refine (along_gets _ _)
  | |- along _ (raise _) => refine (along_raise _ _)
  | |- along _ (match ?x with _ => _ end) => destruct x
  end].
Ltac along := along_cases; try (refine (along_modify _ _ _); intros ?; by repeat split).
