(* ===== verification/MsgBuffer.v ===== *)
(** * The message buffer (net/msgbuffer.h, net/msgbuffer.cpp)

    A growing byte vector with a read position [m_head] and a write position
    [m_tail].  The operations are translated one by one, over the vector of the
    source and with its 64-bit positions; an access outside the vector is a
    fault.  [rep] and [holds] abstract a buffer to the bytes already consumed
    and the bytes still to be read, and every operation the program uses gets
    a triple over that abstraction. *)

From Stdlib Require Import ZArith Lia Strings.Byte.
From stdpp Require Import base list numbers.
From S2P Require Import Prelude.
From S2P Require Import Endian.

Inductive BufferStat := none | valid | invalid.

#[global] Instance BufferStat_eq_dec : EqDecision BufferStat.
Proof. solve_decision. Defined.

Record MsgBuffer := mkMsgBuffer {
  m_buffer : list byte;
  m_packlen : Z;
  m_head : Z;
  m_tail : Z;
  m_indicator : BufferStat
}.

Definition m_default_buffer_size : Z := 1024.

(** Constructors.  The members a constructor leaves uninitialised are
    parameters. *)
Definition MsgBuffer_make (size : Z) : MsgBuffer :=
  mkMsgBuffer (zreplicate size x00) 0 0 0 none.

Definition MsgBuffer_move (junk : BufferStat) (buffer : MsgBuffer) : MsgBuffer * MsgBuffer :=
  (mkMsgBuffer (m_buffer buffer) (m_packlen buffer) (m_head buffer) (m_tail buffer) junk,
   mkMsgBuffer [] (m_packlen buffer) (m_head buffer) (m_tail buffer) (m_indicator buffer)).

Definition MsgBuffer_chars (junk_packlen : Z) (junk : BufferStat) (p : list byte) : MsgBuffer :=
  mkMsgBuffer p junk_packlen 0 (zlen p) junk.

(** Field updates. *)
Definition set_buffer (v : list byte) (b : MsgBuffer) : MsgBuffer :=
  mkMsgBuffer v (m_packlen b) (m_head b) (m_tail b) (m_indicator b).
Definition set_head (h : Z) (b : MsgBuffer) : MsgBuffer :=
  mkMsgBuffer (m_buffer b) (m_packlen b) h (m_tail b) (m_indicator b).
Definition set_tail (t : Z) (b : MsgBuffer) : MsgBuffer :=
  mkMsgBuffer (m_buffer b) (m_packlen b) (m_head b) t (m_indicator b).

Abbreviation MB := (M MsgBuffer).

Definition size (b : MsgBuffer) : Z := zlen (m_buffer b).
(** Pointers into the vector are offsets. *)
Definition data (b : MsgBuffer) : Z := m_tail b.
Definition memory (b : MsgBuffer) : Z := m_head b.
Definition surplus (b : MsgBuffer) : Z := u64 (size b - m_tail b).
Definition available (b : MsgBuffer) : Z := u64 (m_tail b - m_head b).
Definition empty (b : MsgBuffer) : bool := m_head b =? m_tail b.

Definition commit (n : Z) : MB unit := modify (λ b, set_tail (u64 (m_tail b + n)) b).
Definition consume (n : Z) : MB unit := modify (λ b, set_head (u64 (m_head b + n)) b).
Definition vomit (n : Z) : MB unit :=
  modify (λ b, if n >? m_head b then b else set_head (m_head b - n) b).
Definition seek (n : Z) : MB unit :=
  modify (λ b, set_tail (u64 (m_tail b + n)) (set_head (u64 (m_head b + n)) b)).

Definition set_packlen (n : Z) : MB unit :=
  modify (λ b, mkMsgBuffer (m_buffer b) n (m_head b) (m_tail b) (m_indicator b)).
Definition update_packlen (n : Z) : MB unit :=
  modify (λ b, mkMsgBuffer (m_buffer b) (u64 (m_packlen b + n)) (m_head b) (m_tail b) (m_indicator b)).
Definition set_indicator (i : BufferStat) : MB unit :=
  modify (λ b, mkMsgBuffer (m_buffer b) (m_packlen b) (m_head b) (m_tail b) i).

(** Raw accesses to the vector. *)
Definition read_at (i n : Z) : MB (list byte) := λ b,
  match vread (m_buffer b) i n with Ok bs => Ok (bs, b) | Fault f => Fault f end.
Definition write_at (i : Z) (bs : list byte) : MB unit := λ b,
  match vwrite (m_buffer b) i bs with Ok v => Ok (tt, set_buffer v b) | Fault f => Fault f end.
Definition resize (n : Z) : MB unit := λ b,
  match vresize (m_buffer b) n with Ok v => Ok (tt, set_buffer v b) | Fault f => Fault f end.

Definition clear : MB unit :=
  modify (λ b, mkMsgBuffer (m_buffer b) 0 0 0 none);;
  resize m_default_buffer_size;;
  modify (λ b, set_buffer (zreplicate (size b) x00) b).

(** Growth: at least to [size() + n], and at least to twice the size. *)
Definition adjust (n : Z) : MB unit :=
  b ← gets id;
  if u64 (size b - m_tail b) >=? n then mret tt
  else
    let length :=
      if u64 (size b * 2) >=? u64 (size b + n) then u64 (size b * 2) else u64 (size b + n) in
    resize length.

(** [append(const char *buf, size_t size)]: [buf] points to [zlen buf] bytes. *)
Definition append (buf : list byte) : MB unit :=
  if zlen buf =? 0 then mret tt
  else
    adjust (zlen buf);;
    p ← gets data;
    write_at p buf;;
    commit (zlen buf).

(** [append(const MsgBuffer &msg)], for [msg] another buffer than [this]. *)
Definition append_msg (msg : MsgBuffer) : MB unit :=
  n ← gets available;
  adjust n;;
  bs ← lift (vread (m_buffer msg) (m_head msg) (m_tail msg - m_head msg));
  p ← gets data;
  write_at p bs;;
  modify (λ b, set_tail (u64 (m_tail b + available msg)) b).

(** [operator <<] on integers and strings. *)
Definition shl_u8 (v : Z) : MB unit := append (le_bytes 1 v).
Definition shl_u16 (v : Z) : MB unit := append (le_bytes 2 (htons v)).
Definition shl_u32 (v : Z) : MB unit := append (le_bytes 4 (htonl v)).
Definition shl_string (s : list byte) : MB unit := append (s ++ [x00]).

(** [get(buf, n)]: the bytes copied to [buf], if any. *)
Definition get (n : Z) : MB (option (list byte)) :=
  av ← gets available;
  if n >? av then mret None
  else
    p ← gets memory;
    bs ← read_at p n;
    mret (Some bs).

(** [fetch(offset, count, handler)]: the bytes [handler] is called with, or
    [None] when the guard returns without calling it. *)
Definition fetch (offset count : Z) : MB (option (list byte)) :=
  b ← gets id;
  let length := u64 (offset + count) in
  if (offset >? m_tail b) || (length >? size b) then mret None
  else
    bs ← read_at (memory b + offset) count;
    mret (Some bs).

(** [reset(offset, count, handler)]: [handler] rewrites the bytes in place. *)
Definition reset_with (offset count : Z) (handler : list byte → list byte) : MB unit :=
  b ← gets id;
  let length := u64 (offset + count) in
  if (offset >? m_tail b) || (length >? size b) then mret tt
  else
    bs ← read_at (memory b + offset) count;
    write_at (memory b + offset) (handler bs).

(** [operator >>]: the argument is the old value of the variable, the result
    its new value.  The read position moves whether or not [fetch] read. *)
Definition shr_u8 (v : Z) : MB Z :=
  r ← fetch 0 1;
  consume 1;;
  mret (match r with Some bs => le_value bs | None => v end).
Definition shr_u16 (v : Z) : MB Z :=
  r ← fetch 0 2;
  consume 2;;
  mret (match r with Some bs => ntohs (le_value bs) | None => v end).
Definition shr_u32 (v : Z) : MB Z :=
  r ← fetch 0 4;
  consume 4;;
  mret (match r with Some bs => ntohl (le_value bs) | None => v end).

(** [strlen]: the number of bytes before the first NUL; running off the vector
    is a fault. *)
Fixpoint strlen (l : list byte) : result Z :=
  match l with
  | [] => Fault OutOfBounds
  | b :: l' =>
      if bool_decide (b = x00) then Ok 0
      else match strlen l' with Ok n => Ok (1 + n) | Fault f => Fault f end
  end.

Definition shr_string (s : list byte) : MB (list byte) :=
  b ← gets id;
  length ← lift (strlen (zdrop (memory b) (m_buffer b)));
  bs ← read_at (memory b) length;
  consume (length + 1);;
  mret (s ++ bs).

(** [peek] reads at the read position without any check. *)
Definition peek_u8 : MB Z :=
  p ← gets memory; bs ← read_at p 1; mret (le_value bs).
Definition peek_u16 : MB Z :=
  p ← gets memory; bs ← read_at p 2; mret (ntohs (le_value bs)).
Definition peek_u32 : MB Z :=
  p ← gets memory; bs ← read_at p 4; mret (ntohl (le_value bs)).

(** [reset(offset, v)] overwrites bytes past the read position. *)
Definition reset_bytes (offset : Z) (buf : list byte) : MB unit :=
  if zlen buf =? 0 then mret tt
  else p ← gets memory; write_at (p + offset) buf.
Definition reset_u8 (offset v : Z) : MB unit :=
  p ← gets memory; write_at (p + offset) (le_bytes 1 v).
Definition reset_u16 (offset v : Z) : MB unit :=
  p ← gets memory; write_at (p + offset) (le_bytes 2 (htons v)).
Definition reset_u32 (offset v : Z) : MB unit :=
  p ← gets memory; write_at (p + offset) (le_bytes 4 (htonl v)).
Definition reset_string (offset : Z) (s : list byte) : MB unit :=
  p ← gets memory; write_at (p + offset) (s ++ [x00]).

(** [reset_code(msg)]: the unread bytes of [msg] overwrite this buffer's. *)
Definition reset_code (msg : MsgBuffer) : MB unit :=
  bs ← lift (vread (m_buffer msg) (m_head msg) (m_tail msg - m_head msg));
  p ← gets memory;
  write_at p bs.

(** ** Abstraction

    [rep b pre cur slack mt]: the vector of [b] holds the consumed bytes [pre],
    the unread bytes [cur] and the unused bytes [slack]; [mt] is the package
    length and the indicator.  [holds] forgets the unused bytes. *)
Definition meta (b : MsgBuffer) : Z * BufferStat := (m_packlen b, m_indicator b).

Record rep (mt : Z * BufferStat) (pre cur slack : list byte) (b : MsgBuffer) : Prop := mkRep {
  rep_buffer : m_buffer b = pre ++ cur ++ slack;
  rep_head : m_head b = zlen pre;
  rep_tail : m_tail b = zlen pre + zlen cur;
  rep_meta : meta b = mt;
  rep_max : zlen (pre ++ cur ++ slack) ≤ vec_max
}.

Definition holds (mt : Z * BufferStat) (pre cur : list byte) (b : MsgBuffer) : Prop :=
  ∃ slack, rep mt pre cur slack b.

(** The positions are ordered and inside the vector. *)
Definition wf (b : MsgBuffer) : Prop :=
  0 ≤ m_head b ≤ m_tail b ∧ m_tail b ≤ size b ∧ size b ≤ vec_max.

(** The unread bytes. *)
Definition contents (b : MsgBuffer) : list byte :=
  ztake (m_tail b - m_head b) (zdrop (m_head b) (m_buffer b)).

(** Room for [n] more bytes without a [length_error]. *)
Definition room (n : Z) (pre cur : list byte) : Prop :=
  0 ≤ n ∧ 2 * (zlen pre + zlen cur + n) ≤ vec_max.

Lemma rep_wf mt pre cur slack b : rep mt pre cur slack b → wf b.
Proof. intros [E1 E2 E3 _ E5]. unfold wf, size. rewrite E1, E2, E3. zl. Qed.

Lemma wf_holds b : wf b ↔ ∃ pre cur, holds (meta b) pre cur b.
Proof.
  split.
  - intros (H1 & H2 & H3). unfold size in *.
    destruct (zsplit (m_head b) (m_buffer b)) as (pre & l & E & Hp); [zl|].
    destruct (zsplit (m_tail b - m_head b) l) as (cur & slack & -> & Hc);
      [rewrite E in H2; zl|].
    exists pre, cur, slack. rewrite E in *. constructor; auto; zl.
  - intros (pre & cur & slack & H). by eapply rep_wf.
Qed.

Lemma rep_contents mt pre cur slack b : rep mt pre cur slack b → contents b = cur.
Proof.
  intros [E1 E2 E3 _ _]. unfold contents. rewrite E1, E2, E3, zdrop_app.
  replace (zlen pre + zlen cur - zlen pre) with (zlen cur) by lia. apply ztake_app.
Qed.

Lemma holds_contents mt pre cur b : holds mt pre cur b → contents b = cur.
Proof. intros [sl H]. by eapply rep_contents. Qed.

Lemma holds_available mt pre cur b : holds mt pre cur b → available b = zlen cur.
Proof.
  intros [sl [E1 E2 E3 _ E5]]. unfold available. rewrite E2, E3.
  unfold vec_max in E5. rewrite u64_small; [lia|]. unfold in_u. zl.
Qed.

Lemma rep_size mt pre cur slack b :
  rep mt pre cur slack b → size b = zlen pre + zlen cur + zlen slack.
Proof. intros [E1 _ _ _ _]. unfold size. rewrite E1. zl. Qed.

(** A buffer is determined by its abstraction. *)
Lemma rep_eq mt pre cur slack b :
  rep mt pre cur slack b →
  b = mkMsgBuffer (pre ++ cur ++ slack) mt.1 (zlen pre) (zlen pre + zlen cur) mt.2.
Proof. destruct b. intros [? ? ? E _]; simpl in *. unfold meta in E. simpl in E. by subst. Qed.

Lemma make_rep n :
  0 ≤ n ≤ vec_max → rep (0, none) [] [] (zreplicate n x00) (MsgBuffer_make n).
Proof. intros. constructor; auto; simpl. rewrite zlen_replicate; lia. Qed.

(** Unfolds an abstraction to a concrete buffer. *)
Ltac rep_intro :=
  intros ? [?slack ?Hrep];
  let E := fresh "E" in
  pose proof (rep_eq _ _ _ _ _ Hrep) as E; pose proof (rep_max _ _ _ _ _ Hrep); subst.

Ltac meta_eta := unfold meta; simpl; symmetry; apply surjective_pairing.

Section Specs.
Context (mt : Z * BufferStat).
Implicit Types (pre cur slack bs : list byte).

Lemma adjust_rep pre cur n :
  room n pre cur →
  ⦃ holds mt pre cur ⦄ adjust n
  ⦃ λ _ b, ∃ slack, rep mt pre cur slack b ∧ n ≤ zlen slack ⦄.
Proof.
  unfold room, vec_max. intros [Hn Hr]. rep_intro. unfold vec_max in *.
  unfold adjust, gets, mbind, M_bind, id; simpl. unfold size; simpl.
  rewrite (u64_small (_ - _)) by (unfold in_u; zl).
  destruct (Z.geb_spec (zlen (pre ++ cur ++ slack) - (zlen pre + zlen cur)) n).
  - eexists tt, _. split; [done|]. exists slack. split; [done|zl].
  - rewrite !u64_small by (unfold in_u; zl).
    set (v := pre ++ cur ++ slack) in *.
    set (len := if zlen v * 2 >=? zlen v + n then zlen v * 2 else zlen v + n).
    assert (Hlen : zlen v + n ≤ len ∧ len ≤ 2 * (zlen pre + zlen cur + n)).
    { unfold len, v in *. destruct (Z.geb_spec (zlen (pre ++ cur ++ slack) * 2)
        (zlen (pre ++ cur ++ slack) + n)); zl. }
    unfold resize; cbn [m_buffer].
    rewrite vresize_grow by (unfold vec_max; zl).
    eexists tt, _. split; [done|].
    exists (slack ++ zreplicate (len - zlen v) x00). split.
    + constructor; simpl; auto.
      * unfold v. by rewrite <- !app_assoc.
      * meta_eta.
      * unfold v in *. autorewrite with zlist in *. rewrite zlen_replicate by lia.
        unfold vec_max. zl.
    + rewrite zlen_app, zlen_replicate by zl. unfold v in *. zl.
Qed.

(** Appending adds exactly the given bytes to the unread ones. *)
Lemma append_holds pre cur bs :
  room (zlen bs) pre cur →
  ⦃ holds mt pre cur ⦄ append bs ⦃ λ _, holds mt pre (cur ++ bs) ⦄.
Proof.
  intros Hroom. unfold append. destruct (Z.eqb_spec (zlen bs) 0) as [H0|H0].
  - apply zlen_0_inv in H0 as ->. rewrite app_nil_r.
    eapply triple_conseq; [apply triple_ret|done|]. by intros a s [_ H].
  - eapply triple_bind; [by apply adjust_rep|]. intros [] b (slack & Hrep & Hn).
    destruct (zsplit (zlen bs) slack) as (s1 & s2 & -> & Hs1); [zl|].
    pose proof (rep_max _ _ _ _ _ Hrep) as Hm. unfold vec_max in Hm.
    rewrite (rep_eq _ _ _ _ _ Hrep).
    unfold mbind, M_bind, gets, data, write_at; cbn [m_tail m_buffer].
    rewrite app_assoc, <- zlen_app, vwrite_app by lia.
    unfold commit, modify. eexists tt, _. split; [done|].
    exists s2. constructor; simpl; auto.
    + by rewrite <- !app_assoc.
    + rewrite u64_small; [zl|]. unfold in_u. zl.
    + meta_eta.
    + unfold vec_max. zl.
Qed.

(** Reading bytes that are there. *)
Lemma fetch_holds pre cur1 mid cur2 :
  ⦃ holds mt pre (cur1 ++ mid ++ cur2) ⦄ fetch (zlen cur1) (zlen mid)
  ⦃ λ r b, r = Some mid ∧ holds mt pre (cur1 ++ mid ++ cur2) b ⦄.
Proof.
  rep_intro. unfold vec_max in *. unfold fetch, gets, mbind, M_bind, id, size; cbn [m_tail m_buffer].
  rewrite u64_small by (unfold in_u; zl). zguard.
  unfold read_at, memory; cbn [m_buffer m_head].
  replace (pre ++ (cur1 ++ mid ++ cur2) ++ slack)
    with ((pre ++ cur1) ++ mid ++ (cur2 ++ slack)) by by rewrite <- !app_assoc.
  rewrite <- zlen_app, vread_app. eexists _, _. split; [done|]. split; [done|].
  exists slack. by rewrite <- !app_assoc in *.
Qed.

Lemma consume_holds pre bs cur :
  ⦃ holds mt pre (bs ++ cur) ⦄ consume (zlen bs) ⦃ λ _, holds mt (pre ++ bs) cur ⦄.
Proof.
  rep_intro. unfold vec_max in *. eexists tt, _. split; [done|]. exists slack.
  constructor; simpl; auto.
  - by rewrite <- !app_assoc.
  - rewrite u64_small; [zl|]. unfold in_u. zl.
  - zl.
  - meta_eta.
  - unfold vec_max. zl.
Qed.

Lemma vomit_holds pre bs cur :
  ⦃ holds mt (pre ++ bs) cur ⦄ vomit (zlen bs) ⦃ λ _, holds mt pre (bs ++ cur) ⦄.
Proof.
  rep_intro. eexists tt, _. unfold vomit, modify; cbn [m_head]. zguard.
  split; [done|]. exists slack. constructor; simpl; auto.
  - by rewrite <- !app_assoc.
  - zl.
  - zl.
  - meta_eta.
  - by rewrite <- !app_assoc in *.
Qed.

(** Skipping space ahead of the first write. *)
Lemma seek_rep pre gap slack :
  ⦃ rep mt pre [] (gap ++ slack) ⦄ seek (zlen gap) ⦃ λ _, rep mt (pre ++ gap) [] slack ⦄.
Proof.
  intros b Hrep. pose proof (rep_max _ _ _ _ _ Hrep) as Hm. unfold vec_max in Hm.
  rewrite (rep_eq _ _ _ _ _ Hrep). eexists tt, _. split; [done|].
  constructor; simpl; auto.
  - by rewrite <- !app_assoc.
  - rewrite u64_small; [zl|]. unfold in_u. zl.
  - rewrite u64_small; [zl|]. unfold in_u. zl.
  - meta_eta.
  - unfold vec_max. zl.
Qed.

(** Overwriting bytes that are there. *)
Lemma write_holds pre cur1 old new cur2 :
  zlen old = zlen new →
  ⦃ holds mt pre (cur1 ++ old ++ cur2) ⦄
    (p ← gets memory; write_at (p + zlen cur1) new)
  ⦃ λ _, holds mt pre (cur1 ++ new ++ cur2) ⦄.
Proof.
  intros Hl. rep_intro. unfold mbind, M_bind, gets, memory, write_at; cbn [m_head m_buffer].
  replace (pre ++ (cur1 ++ old ++ cur2) ++ slack)
    with ((pre ++ cur1) ++ old ++ (cur2 ++ slack)) by by rewrite <- !app_assoc.
  rewrite <- zlen_app, vwrite_app by done. eexists tt, _. split; [done|].
  exists slack. constructor; simpl; auto.
  - by rewrite <- !app_assoc.
  - zl.
  - meta_eta.
  - unfold vec_max in *. zl.
Qed.

Lemma reset_bytes_holds pre cur1 old new cur2 :
  zlen old = zlen new →
  ⦃ holds mt pre (cur1 ++ old ++ cur2) ⦄ reset_bytes (zlen cur1) new
  ⦃ λ _, holds mt pre (cur1 ++ new ++ cur2) ⦄.
Proof.
  intros Hl. unfold reset_bytes. destruct (Z.eqb_spec (zlen new) 0) as [H0|H0].
  - apply zlen_0_inv in H0 as ->. rewrite zlen_nil in Hl.
    apply zlen_0_inv in Hl as ->.
    eapply triple_conseq; [apply triple_ret|done|]. by intros a s [_ H].
  - by apply write_holds.
Qed.

Lemma reset_u32_holds pre cur1 old cur2 v :
  zlen old = 4 →
  ⦃ holds mt pre (cur1 ++ old ++ cur2) ⦄ reset_u32 (zlen cur1) v
  ⦃ λ _, holds mt pre (cur1 ++ be_bytes 4 v ++ cur2) ⦄.
Proof.
  intros Hl. unfold reset_u32, htonl. rewrite host_bytes_bswap.
  apply write_holds. by rewrite zlen_be_bytes.
Qed.
(** Observers. *)
Lemma gets_holds {A} (f : MsgBuffer → A) pre cur (a : A) :
  (∀ b, holds mt pre cur b → f b = a) →
  ⦃ holds mt pre cur ⦄ gets f ⦃ λ r b, r = a ∧ holds mt pre cur b ⦄.
Proof. intros Hf b Hb. exists a, b. unfold gets. by rewrite (Hf b Hb). Qed.

Lemma packlen_holds pre cur :
  ⦃ holds mt pre cur ⦄ gets m_packlen ⦃ λ r b, r = mt.1 ∧ holds mt pre cur b ⦄.
Proof. apply gets_holds. intros b [sl []]. by subst. Qed.

Lemma available_holds pre cur :
  ⦃ holds mt pre cur ⦄ gets available ⦃ λ r b, r = zlen cur ∧ holds mt pre cur b ⦄.
Proof. apply gets_holds. intros b. apply holds_available. Qed.

Lemma memory_holds pre cur :
  ⦃ holds mt pre cur ⦄ gets memory ⦃ λ r b, r = zlen pre ∧ holds mt pre cur b ⦄.
Proof. apply gets_holds. by intros b [sl []]. Qed.

Lemma read_front_holds pre w cur :
  ⦃ holds mt pre (w ++ cur) ⦄ read_at (zlen pre) (zlen w)
  ⦃ λ r b, r = w ∧ holds mt pre (w ++ cur) b ⦄.
Proof.
  intros b Hb. exists w, b. split; [|done]. destruct Hb as [sl Hrep].
  rewrite (rep_eq _ _ _ _ _ Hrep). unfold read_at; cbn [m_buffer].
  by rewrite <- app_assoc, vread_app.
Qed.

Lemma read_mid_holds pre cur1 mid cur2 :
  ⦃ holds mt pre (cur1 ++ mid ++ cur2) ⦄ read_at (zlen pre + zlen cur1) (zlen mid)
  ⦃ λ r b, r = mid ∧ holds mt pre (cur1 ++ mid ++ cur2) b ⦄.
Proof.
  intros b Hb. exists mid, b. split; [|done]. destruct Hb as [sl Hrep].
  rewrite (rep_eq _ _ _ _ _ Hrep). unfold read_at; cbn [m_buffer].
  replace (pre ++ (cur1 ++ mid ++ cur2) ++ sl) with ((pre ++ cur1) ++ mid ++ cur2 ++ sl)
    by (by rewrite <- !app_assoc).
  by rewrite <- zlen_app, vread_app.
Qed.

Lemma set_packlen_holds n pre cur :
  ⦃ holds mt pre cur ⦄ set_packlen n ⦃ λ _, holds (n, mt.2) pre cur ⦄.
Proof.
  rep_intro. eexists tt, _. split; [done|]. exists slack. by constructor.
Qed.

Lemma set_indicator_holds i pre cur :
  ⦃ holds mt pre cur ⦄ set_indicator i ⦃ λ _, holds (mt.1, i) pre cur ⦄.
Proof.
  rep_intro. eexists tt, _. split; [done|]. exists slack. by constructor.
Qed.

(** The kernel, or a copy, fills unused bytes; [commit] makes them unread. *)
Lemma write_slack_rep pre cur s1 s2 new :
  zlen s1 = zlen new →
  ⦃ rep mt pre cur (s1 ++ s2) ⦄ write_at (zlen pre + zlen cur) new
  ⦃ λ _, rep mt pre cur (new ++ s2) ⦄.
Proof.
  intros Hl b Hrep. pose proof (rep_max _ _ _ _ _ Hrep) as Hm.
  rewrite (rep_eq _ _ _ _ _ Hrep). unfold write_at; cbn [m_buffer].
  rewrite app_assoc, <- zlen_app, vwrite_app by done.
  eexists tt, _. split; [done|]. constructor; simpl; auto.
  - by rewrite <- app_assoc.
  - zl.
  - meta_eta.
  - zl.
Qed.

Lemma commit_rep pre cur new slack :
  ⦃ rep mt pre cur (new ++ slack) ⦄ commit (zlen new) ⦃ λ _, rep mt pre (cur ++ new) slack ⦄.
Proof.
  intros b Hrep. pose proof (rep_max _ _ _ _ _ Hrep) as Hm. unfold vec_max in Hm.
  rewrite (rep_eq _ _ _ _ _ Hrep). eexists tt, _. split; [done|].
  constructor; simpl; auto.
  - by rewrite <- !app_assoc.
  - rewrite u64_small; [zl|]. unfold in_u. zl.
  - meta_eta.
  - unfold vec_max. zl.
Qed.
End Specs.

(** ** Behaviour outside the abstraction: what the guards let through *)

(** [clear] always yields a fresh default buffer. *)
Lemma clear_fresh b : clear b = Ok (tt, MsgBuffer_make m_default_buffer_size).
Proof.
  unfold clear, modify, resize, mbind, M_bind; cbn [m_buffer].
  unfold vresize, m_default_buffer_size, vec_max. zguard.
  unfold set_buffer, size, MsgBuffer_make; simpl. repeat f_equal.
  autorewrite with zlist. unfold zreplicate at 1. unfold zlen at 2. rewrite length_replicate.
  unfold zlen. lia.
Qed.

(** When [fetch] calls its handler and the bytes lie outside the vector. *)
Lemma fetch_fault b offset count :
  wf b → 0 ≤ offset ≤ m_tail b → 0 ≤ count → offset + count ≤ size b →
  size b < m_head b + offset + count →
  fetch offset count b = Fault OutOfBounds.
Proof.
  unfold wf, vec_max, size. intros (Hh & Ht & Hs) Ho Hc Hl Hout.
  unfold fetch, gets, mbind, M_bind, id, size, read_at, memory; cbn.
  rewrite u64_small by (unfold in_u; lia). zguard.
  by rewrite vread_fault by lia.
Qed.

(** The bytes at the read position when the vector holds at least [n] of them,
    unread or not. *)
Lemma fetch_stale b n :
  wf b → 0 ≤ n → m_head b + n ≤ size b →
  fetch 0 n b = Ok (Some (ztake n (zdrop (m_head b) (m_buffer b))), b).
Proof.
  unfold wf, vec_max, size. intros (Hh & Ht & Hs) Hn Hl.
  unfold fetch, gets, mbind, M_bind, id, size, read_at, memory, vread; cbn.
  rewrite u64_small by (unfold in_u; lia). zguard. by rewrite Z.add_0_r.
Qed.

Lemma strlen_app s l : x00 ∉ s → strlen (s ++ x00 :: l) = Ok (zlen s).
Proof.
  induction s as [|b s IH]; intros Hs; simpl.
  - done.
  - apply not_elem_of_cons in Hs as [Hb Hs].
    rewrite bool_decide_eq_false_2 by congruence.
    rewrite IH by done. by rewrite zlen_cons.
Qed.

Lemma strlen_fault l : x00 ∉ l → strlen l = Fault OutOfBounds.
Proof.
  induction l as [|b l IH]; intros Hl; simpl; [done|].
  apply not_elem_of_cons in Hl as [Hb Hl].
  rewrite bool_decide_eq_false_2 by congruence. by rewrite IH.
Qed.

Section StreamOperators.
Context (mt : Z * BufferStat).
Implicit Types (pre cur bs s : list byte).

Lemma shl_u8_holds pre cur v :
  room 1 pre cur →
  ⦃ holds mt pre cur ⦄ shl_u8 v ⦃ λ _, holds mt pre (cur ++ be_bytes 1 v) ⦄.
Proof. intros H. apply append_holds. by rewrite zlen_be_bytes. Qed.

Lemma shl_u16_holds pre cur v :
  room 2 pre cur →
  ⦃ holds mt pre cur ⦄ shl_u16 v ⦃ λ _, holds mt pre (cur ++ be_bytes 2 v) ⦄.
Proof.
  intros H. unfold shl_u16, htons. rewrite host_bytes_bswap.
  apply append_holds. by rewrite zlen_be_bytes.
Qed.

Lemma shl_u32_holds pre cur v :
  room 4 pre cur →
  ⦃ holds mt pre cur ⦄ shl_u32 v ⦃ λ _, holds mt pre (cur ++ be_bytes 4 v) ⦄.
Proof.
  intros H. unfold shl_u32, htonl. rewrite host_bytes_bswap.
  apply append_holds. by rewrite zlen_be_bytes.
Qed.

Lemma shl_string_holds pre cur s :
  room (zlen s + 1) pre cur →
  ⦃ holds mt pre cur ⦄ shl_string s ⦃ λ _, holds mt pre (cur ++ s ++ [x00]) ⦄.
Proof. intros H. apply append_holds. by autorewrite with zlist. Qed.

(** Reading [bs] off the front, [f] being the conversion of the operator. *)
Lemma shr_fetch_holds pre bs cur (f : list byte → Z) v :
  ⦃ holds mt pre (bs ++ cur) ⦄
    (r ← fetch 0 (zlen bs); consume (zlen bs);;
     mret (match r with Some bs => f bs | None => v end) : MB Z)
  ⦃ λ a b, a = f bs ∧ holds mt (pre ++ bs) cur b ⦄.
Proof.
  eapply triple_bind_eq; [exact (fetch_holds mt pre [] bs cur)|].
  eapply triple_bind; [exact (consume_holds mt pre bs cur)|].
  intros []. apply triple_ret.
Qed.

Lemma shr_u8_holds pre cur v old :
  in_u 8 v →
  ⦃ holds mt pre (be_bytes 1 v ++ cur) ⦄ shr_u8 old
  ⦃ λ a b, a = v ∧ holds mt (pre ++ be_bytes 1 v) cur b ⦄.
Proof.
  intros Hv. pose proof (shr_fetch_holds pre (be_bytes 1 v) cur le_value old) as H.
  eapply triple_conseq; [exact H|done|]. intros a b [-> Hb]. split; [|done].
  change (be_bytes 1 v) with (le_bytes 1 v). rewrite le_value_bytes.
  by apply Z.mod_small.
Qed.

Lemma shr_u16_holds pre cur v old :
  in_u 16 v →
  ⦃ holds mt pre (be_bytes 2 v ++ cur) ⦄ shr_u16 old
  ⦃ λ a b, a = v ∧ holds mt (pre ++ be_bytes 2 v) cur b ⦄.
Proof.
  intros Hv.
  pose proof (shr_fetch_holds pre (be_bytes 2 v) cur (λ bs, ntohs (le_value bs)) old) as H.
  eapply triple_conseq; [exact H|done|]. intros a b [-> Hb]. split; [|done].
  by apply bswap_host_value.
Qed.

Lemma shr_u32_holds pre cur v old :
  in_u 32 v →
  ⦃ holds mt pre (be_bytes 4 v ++ cur) ⦄ shr_u32 old
  ⦃ λ a b, a = v ∧ holds mt (pre ++ be_bytes 4 v) cur b ⦄.
Proof.
  intros Hv.
  pose proof (shr_fetch_holds pre (be_bytes 4 v) cur (λ bs, ntohl (le_value bs)) old) as H.
  eapply triple_conseq; [exact H|done|]. intros a b [-> Hb]. split; [|done].
  by apply bswap_host_value.
Qed.

(** A string stops at its first NUL, and is added to the old value. *)
Lemma shr_string_holds pre cur s old :
  x00 ∉ s →
  ⦃ holds mt pre ((s ++ [x00]) ++ cur) ⦄ shr_string old
  ⦃ λ a b, a = old ++ s ∧ holds mt (pre ++ s ++ [x00]) cur b ⦄.
Proof.
  intros Hs b Hb. destruct Hb as [slack Hrep].
  pose proof (consume_holds mt pre (s ++ [x00]) cur b (ex_intro _ slack Hrep))
    as ([] & b' & Ec & Hb').
  exists (old ++ s), b'. split; [|done].
  pose proof (rep_eq _ _ _ _ _ Hrep) as E. rewrite E in *.
  unfold shr_string, gets, mbind, M_bind, id, lift, memory, read_at; cbn [m_head m_buffer].
  rewrite zdrop_app. rewrite <- !app_assoc; simpl app.
  rewrite strlen_app by done. cbn [m_buffer]. rewrite vread_app.
  rewrite zlen_app in Ec. change (zlen [x00]) with 1 in Ec.
  rewrite <- !app_assoc in Ec; simpl app in Ec. by rewrite Ec.
Qed.

(** Looking at the front without moving. *)
Lemma peek_u32_holds pre cur v :
  in_u 32 v →
  ⦃ holds mt pre (be_bytes 4 v ++ cur) ⦄ peek_u32
  ⦃ λ a b, a = v ∧ holds mt pre (be_bytes 4 v ++ cur) b ⦄.
Proof.
  intros Hv. rep_intro. exists v, (mkMsgBuffer (pre ++ (be_bytes 4 v ++ cur) ++ slack)
    mt.1 (zlen pre) (zlen pre + zlen (be_bytes 4 v ++ cur)) mt.2).
  split; [|split; [done|by exists slack]].
  unfold peek_u32, gets, mbind, M_bind, memory, read_at; cbn [m_head m_buffer].
  rewrite <- app_assoc.
  pose proof (vread_app pre (be_bytes 4 v) (cur ++ slack)) as E.
  change (zlen (be_bytes 4 v)) with 4 in E. rewrite E. unfold mret, M_ret, ntohl. do 2 f_equal.
  rewrite bswap_host_value; done.
Qed.
End StreamOperators.

(** ** Properties *)

Lemma wf_room_holds b n :
  wf b → 0 ≤ n → 2 * (m_tail b + n) ≤ vec_max →
  ∃ pre cur, holds (meta b) pre cur b ∧ room n pre cur ∧
    pre = ztake (m_head b) (m_buffer b) ∧ cur = contents b.
Proof.
  intros Hwf Hn Hr. apply wf_holds in Hwf as (pre & cur & sl & Hrep).
  exists pre, cur. pose proof (rep_contents _ _ _ _ _ Hrep) as Hc.
  destruct Hrep as [E1 E2 E3 E4 E5]. split; [|split; [|split; [|done]]].
  - by exists sl.
  - split; [done|]. lia.
  - by rewrite E1, E2, ztake_app.
Qed.

(** C14: on every well-formed buffer with room, [append] succeeds and the buffer
    refines a byte queue: the unread bytes gain exactly the appended bytes at
    their end, the bytes already consumed, the read position, the package
    length and the indicator stay, and the buffer stays well formed. *)
Theorem append_refines_queue (b : MsgBuffer) (bs : list byte) :
  wf b → 2 * (m_tail b + zlen bs) ≤ vec_max →
  ∃ b', append bs b = Ok (tt, b') ∧ wf b' ∧
    contents b' = contents b ++ bs ∧
    ztake (m_head b') (m_buffer b') = ztake (m_head b) (m_buffer b) ∧
    m_head b' = m_head b ∧ meta b' = meta b.
Proof.
  intros Hwf Hroom.
  destruct (wf_room_holds b (zlen bs) Hwf (zlen_nonneg bs) Hroom)
    as (pre & cur & Hb & Hr & Hpre & Hcur).
  destruct (append_holds (meta b) pre cur bs Hr b Hb) as ([] & b' & E & sl & Hrep).
  exists b'. split; [done|]. split; [by eapply rep_wf|].
  rewrite (rep_contents _ _ _ _ _ Hrep), <- Hcur. destruct Hrep as [E1 E2 E3 E4 E5].
  destruct Hb as [sl0 [F1 F2 F3 F4 F5]].
  rewrite E2, F2, E1, F1, !ztake_app. by rewrite E4.
Qed.

Lemma append_refines_queue_witness :
  wf (MsgBuffer_make 4) ∧
  ∃ b', append [x01; x02; x03; x04; x05] (MsgBuffer_make 4) = Ok (tt, b') ∧ wf b' ∧
    contents b' = contents (MsgBuffer_make 4) ++ [x01; x02; x03; x04; x05] ∧
    ztake (m_head b') (m_buffer b') =
      ztake (m_head (MsgBuffer_make 4)) (m_buffer (MsgBuffer_make 4)) ∧
    m_head b' = m_head (MsgBuffer_make 4) ∧ meta b' = meta (MsgBuffer_make 4).
Proof.
  assert (H : wf (MsgBuffer_make 4)) by (by vm_compute).
  split; [exact H|]. apply (append_refines_queue _ _ H). by vm_compute.
Defined.

Lemma wf_available b : wf b → available b = m_tail b - m_head b.
Proof.
  unfold wf, vec_max, available. intros (H1 & H2 & H3). apply u64_small. unfold in_u. lia.
Qed.

Lemma wf_surplus b : wf b → surplus b = size b - m_tail b.
Proof.
  unfold wf, vec_max, surplus. intros (H1 & H2 & H3). apply u64_small. unfold in_u. lia.
Qed.

Lemma wf_read_contents b :
  wf b → vread (m_buffer b) (m_head b) (m_tail b - m_head b) = Ok (contents b).
Proof. unfold wf, size. intros (H1 & H2 & H3). unfold vread. by zguard. Qed.

Lemma wf_zlen_contents b : wf b → zlen (contents b) = m_tail b - m_head b.
Proof. unfold wf, size, contents. intros (H1 & H2 & H3). rewrite zlen_take, zlen_drop. lia. Qed.

(** [append(const MsgBuffer &msg)] makes room for the unread bytes of the
    target instead of those of [msg].  When they are enough for [msg] it appends
    the unread bytes of [msg]; when the target already has room for its own and
    [msg] holds more than that room, it writes past the end of the vector. *)
Theorem append_msg_safe_or_overflow (b msg : MsgBuffer) :
  wf b → wf msg → 2 * (m_tail b + available b) ≤ vec_max →
  (available msg ≤ Z.max (surplus b) (available b) →
    ∃ b', append_msg msg b = Ok (tt, b') ∧ contents b' = contents b ++ contents msg) ∧
  (available b ≤ surplus b → surplus b < available msg →
    append_msg msg b = Fault OutOfBounds).
Proof.
  intros Hb Hm Hr. pose proof (wf_available b Hb) as Ha. pose proof (wf_surplus b Hb) as Hs.
  pose proof (wf_available msg Hm) as Hma. pose proof (wf_zlen_contents msg Hm) as Hmc.
  pose proof Hb as (H1 & H2 & H3). unfold vec_max in *. split.
  - intros Hle.
    destruct (wf_room_holds b (available b) Hb) as (pre & cur & Hbh & Hrm & _ & Hcur);
      [lia|by unfold vec_max|].
    assert (Hadj : ∃ b1 slack, adjust (available b) b = Ok (tt, b1) ∧
                     rep (meta b) pre cur slack b1 ∧ available msg ≤ zlen slack).
    { destruct (Z.le_gt_cases (available b) (surplus b)).
      - exists b. destruct Hbh as [sl Hrep]. exists sl. split; [|split; [done|]].
        + unfold adjust, gets, mbind, M_bind, id. fold (surplus b). by zguard.
        + pose proof (rep_size _ _ _ _ _ Hrep). destruct Hrep. lia.
      - destruct (adjust_rep (meta b) pre cur (available b) Hrm b Hbh) as ([] & b1 & E & sl & Hrep & Hsl).
        exists b1, sl. split; [done|]. split; [done|]. lia. }
    destruct Hadj as (b1 & slack & E & Hrep & Hsl).
    unfold append_msg. rewrite (bind_ok (gets available) _ b (available b) b) by done.
    rewrite (bind_ok _ _ _ _ _ E).
    unfold lift, gets, mbind, M_bind, data, write_at. rewrite (wf_read_contents msg Hm).
    destruct (zsplit (available msg) slack) as (s1 & s2 & -> & Hs1); [destruct Hm; lia|].
    pose proof (rep_max _ _ _ _ _ Hrep) as Hmax. unfold vec_max in Hmax.
    rewrite (rep_eq _ _ _ _ _ Hrep). cbn [m_tail m_buffer].
    rewrite app_assoc, <- zlen_app, vwrite_app by lia.
    eexists. split; [done|]. unfold contents at 1; cbn. rewrite u64_small by (unfold in_u; zl).
    rewrite <- !app_assoc, zdrop_app, Hcur, app_assoc.
    replace (_ - zlen pre) with (zlen (contents b ++ contents msg)) by zl. apply ztake_app.
  - intros Hle Hgt. unfold append_msg, adjust, gets, mbind, M_bind, id. cbn beta iota.
    fold (surplus b). zguard. unfold mret, M_ret, lift. rewrite (wf_read_contents msg Hm).
    unfold data, write_at. rewrite vwrite_fault; [done|]. unfold size in *. lia.
Qed.

Lemma append_msg_safe_or_overflow_witness :
  append_msg (MsgBuffer_chars 0 none (zreplicate 5 x41)) (MsgBuffer_make 4) = Fault OutOfBounds.
Proof.
  apply (append_msg_safe_or_overflow (MsgBuffer_make 4) (MsgBuffer_chars 0 none (zreplicate 5 x41)));
    by vm_compute.
Defined.

(** [fetch] is memory safe exactly when its guard rejects the request or the
    bytes past the read position lie in the vector: the guard compares
    [offset + count] with the size of the vector and ignores the read position. *)
Theorem fetch_safe_iff (b : MsgBuffer) (offset count : Z) :
  wf b → 0 ≤ offset → 0 ≤ count → offset + count < 2 ^ 64 →
  is_ok (fetch offset count b) = true ↔
    (m_tail b < offset ∨ size b < offset + count) ∨ m_head b + offset + count ≤ size b.
Proof.
  intros (H1 & H2 & H3) Ho Hc Hw. unfold vec_max in *.
  unfold fetch, gets, mbind, M_bind, id. cbn beta iota zeta. rewrite u64_small by (unfold in_u; lia).
  rewrite !Z.gtb_ltb. destruct (Z.ltb_spec (m_tail b) offset); [simpl; split; [auto|done]|].
  destruct (Z.ltb_spec (size b) (offset + count)); [simpl; split; [auto|done]|].
  simpl. unfold read_at, memory, vread, size in *.
  destruct (Z.le_gt_cases (m_head b + offset + count) (zlen (m_buffer b))) as [Hle|Hgt].
  - zguard. simpl. split; [auto|done].
  - rewrite (proj2 (Z.leb_gt (m_head b + offset + count) _)) by lia.
    rewrite andb_false_r. simpl. split; [done|lia].
Qed.

Lemma fetch_safe_iff_witness :
  is_ok (fetch 0 4 (mkMsgBuffer (zreplicate 8 x00) 0 6 8 none)) = true ↔
    (8 < 0 ∨ 8 < 0 + 4) ∨ 6 + 0 + 4 ≤ 8.
Proof.
  apply (fetch_safe_iff (mkMsgBuffer (zreplicate 8 x00) 0 6 8 none) 0 4); try lia.
  by vm_compute.
Defined.

(** Reading a 32-bit integer from fewer than four unread bytes neither
    fails nor stops: the read position passes the write position, so the buffer
    is no longer well formed and the count of available bytes wraps around. *)
Theorem shr_u32_underflow (b : MsgBuffer) (old : Z) :
  wf b → available b < 4 → m_head b + 4 ≤ size b →
  ∃ v b', shr_u32 old b = Ok (v, b') ∧ ¬ wf b' ∧
    available b' = 2 ^ 64 - (4 - available b).
Proof.
  intros Hb Ha Hs. pose proof (wf_available b Hb) as Hav. pose proof Hb as (H1 & H2 & H3).
  unfold vec_max in *. unfold shr_u32.
  rewrite (bind_ok _ _ _ _ _ (fetch_stale b 4 Hb ltac:(lia) Hs)).
  eexists _, _. split; [done|]. rewrite Hav. unfold wf, available; simpl.
  rewrite (u64_small (m_head b + 4)) by (unfold in_u; lia). split; [lia|].
  unfold u64.
  replace (m_tail b - (m_head b + 4))
    with (2 ^ 64 - (4 - (m_tail b - m_head b)) + (-1) * 2 ^ 64) by lia.
  rewrite Z.mod_add by lia. apply Z.mod_small. lia.
Qed.

Lemma shr_u32_underflow_witness :
  ∃ v b', shr_u32 7 (MsgBuffer_make 8) = Ok (v, b') ∧ ¬ wf b' ∧
    available b' = 2 ^ 64 - (4 - available (MsgBuffer_make 8)).
Proof. apply (shr_u32_underflow (MsgBuffer_make 8) 7); by vm_compute. Defined.

(** Growing keeps the unread bytes and the positions, provides the room
    asked for, and either keeps the capacity or at least doubles it. *)
Theorem adjust_capacity (b : MsgBuffer) (n : Z) :
  wf b → 0 ≤ n → 2 * (m_tail b + n) ≤ vec_max →
  ∃ b', adjust n b = Ok (tt, b') ∧ wf b' ∧ contents b' = contents b ∧
    m_head b' = m_head b ∧ m_tail b' = m_tail b ∧ n ≤ surplus b' ∧
    (size b' = size b ∨ 2 * size b ≤ size b').
Proof.
  intros Hb Hn Hr. pose proof (wf_surplus b Hb) as Hs. pose proof Hb as (H1 & H2 & H3).
  unfold vec_max in *.
  destruct (wf_room_holds b n Hb Hn Hr) as (pre & cur & Hbh & Hrm & _ & Hcur).
  destruct (adjust_rep (meta b) pre cur n Hrm b Hbh) as ([] & b1 & E & sl & Hrep & Hsl).
  exists b1. split; [done|]. split; [by eapply rep_wf|].
  split; [by rewrite (rep_contents _ _ _ _ _ Hrep)|].
  destruct Hbh as [sl0 Hrep0].
  split; [by rewrite (rep_head _ _ _ _ _ Hrep), (rep_head _ _ _ _ _ Hrep0)|].
  split; [by rewrite (rep_tail _ _ _ _ _ Hrep), (rep_tail _ _ _ _ _ Hrep0)|].
  split.
  { rewrite wf_surplus by by eapply rep_wf.
    rewrite (rep_size _ _ _ _ _ Hrep), (rep_tail _ _ _ _ _ Hrep). lia. }
  unfold adjust, gets, mbind, M_bind, id in E. cbn beta iota zeta in E.
  fold (surplus b) in E. rewrite Hs in E.
  destruct (Z.geb_spec (size b - m_tail b) n); [by left; injection E as <-|right].
  rewrite !u64_small in E by (unfold in_u; lia). revert E.
  unfold resize, vresize. destruct (_ <=? vec_max); [|done]. intros [= <-]. simpl.
  unfold size in *; simpl. rewrite zlen_app, zlen_take.
  destruct (Z.geb_spec (zlen (m_buffer b) * 2) (zlen (m_buffer b) + n));
    rewrite zlen_replicate; lia.
Qed.

Lemma adjust_capacity_witness :
  ∃ b', adjust 5 (MsgBuffer_make 4) = Ok (tt, b') ∧ wf b' ∧
    contents b' = contents (MsgBuffer_make 4) ∧
    m_head b' = m_head (MsgBuffer_make 4) ∧ m_tail b' = m_tail (MsgBuffer_make 4) ∧
    5 ≤ surplus b' ∧
    (size b' = size (MsgBuffer_make 4) ∨ 2 * size (MsgBuffer_make 4) ≤ size b').
Proof. apply (adjust_capacity (MsgBuffer_make 4) 5); [by vm_compute|lia|by vm_compute]. Defined.
