(* ===== verification/Crc16.v ===== *)
(** * The frame checksum (Request::crc16 of src/protocol/proto.cpp)

    The table-driven loop of the source, its equivalence with the bitwise
    definition of the CRC with polynomial [x^16 + x^12 + x^5 + 1] and a zero
    initial value, and the facts a frame check relies on: the residue of a
    message followed by its checksum is zero, and corrupting a message within
    two adjacent bytes always changes its checksum. *)

From Stdlib Require Import ZArith Lia Strings.Byte.
From stdpp Require Import base list numbers.
From S2P Require Import Prelude.
From S2P Require Import Endian.

(** ** The code *)

Definition crc16table : list Z :=
  [
   0x0000; 0x1021; 0x2042; 0x3063; 0x4084; 0x50a5; 0x60c6; 0x70e7;
   0x8108; 0x9129; 0xa14a; 0xb16b; 0xc18c; 0xd1ad; 0xe1ce; 0xf1ef;
   0x1231; 0x0210; 0x3273; 0x2252; 0x52b5; 0x4294; 0x72f7; 0x62d6;
   0x9339; 0x8318; 0xb37b; 0xa35a; 0xd3bd; 0xc39c; 0xf3ff; 0xe3de;
   0x2462; 0x3443; 0x0420; 0x1401; 0x64e6; 0x74c7; 0x44a4; 0x5485;
   0xa56a; 0xb54b; 0x8528; 0x9509; 0xe5ee; 0xf5cf; 0xc5ac; 0xd58d;
   0x3653; 0x2672; 0x1611; 0x0630; 0x76d7; 0x66f6; 0x5695; 0x46b4;
   0xb75b; 0xa77a; 0x9719; 0x8738; 0xf7df; 0xe7fe; 0xd79d; 0xc7bc;
   0x48c4; 0x58e5; 0x6886; 0x78a7; 0x0840; 0x1861; 0x2802; 0x3823;
   0xc9cc; 0xd9ed; 0xe98e; 0xf9af; 0x8948; 0x9969; 0xa90a; 0xb92b;
   0x5af5; 0x4ad4; 0x7ab7; 0x6a96; 0x1a71; 0x0a50; 0x3a33; 0x2a12;
   0xdbfd; 0xcbdc; 0xfbbf; 0xeb9e; 0x9b79; 0x8b58; 0xbb3b; 0xab1a;
   0x6ca6; 0x7c87; 0x4ce4; 0x5cc5; 0x2c22; 0x3c03; 0x0c60; 0x1c41;
   0xedae; 0xfd8f; 0xcdec; 0xddcd; 0xad2a; 0xbd0b; 0x8d68; 0x9d49;
   0x7e97; 0x6eb6; 0x5ed5; 0x4ef4; 0x3e13; 0x2e32; 0x1e51; 0x0e70;
   0xff9f; 0xefbe; 0xdfdd; 0xcffc; 0xbf1b; 0xaf3a; 0x9f59; 0x8f78;
   0x9188; 0x81a9; 0xb1ca; 0xa1eb; 0xd10c; 0xc12d; 0xf14e; 0xe16f;
   0x1080; 0x00a1; 0x30c2; 0x20e3; 0x5004; 0x4025; 0x7046; 0x6067;
   0x83b9; 0x9398; 0xa3fb; 0xb3da; 0xc33d; 0xd31c; 0xe37f; 0xf35e;
   0x02b1; 0x1290; 0x22f3; 0x32d2; 0x4235; 0x5214; 0x6277; 0x7256;
   0xb5ea; 0xa5cb; 0x95a8; 0x8589; 0xf56e; 0xe54f; 0xd52c; 0xc50d;
   0x34e2; 0x24c3; 0x14a0; 0x0481; 0x7466; 0x6447; 0x5424; 0x4405;
   0xa7db; 0xb7fa; 0x8799; 0x97b8; 0xe75f; 0xf77e; 0xc71d; 0xd73c;
   0x26d3; 0x36f2; 0x0691; 0x16b0; 0x6657; 0x7676; 0x4615; 0x5634;
   0xd94c; 0xc96d; 0xf90e; 0xe92f; 0x99c8; 0x89e9; 0xb98a; 0xa9ab;
   0x5844; 0x4865; 0x7806; 0x6827; 0x18c0; 0x08e1; 0x3882; 0x28a3;
   0xcb7d; 0xdb5c; 0xeb3f; 0xfb1e; 0x8bf9; 0x9bd8; 0xabbb; 0xbb9a;
   0x4a75; 0x5a54; 0x6a37; 0x7a16; 0x0af1; 0x1ad0; 0x2ab3; 0x3a92;
   0xfd2e; 0xed0f; 0xdd6c; 0xcd4d; 0xbdaa; 0xad8b; 0x9de8; 0x8dc9;
   0x7c26; 0x6c07; 0x5c64; 0x4c45; 0x3ca2; 0x2c83; 0x1ce0; 0x0cc1;
   0xef1f; 0xff3e; 0xcf5d; 0xdf7c; 0xaf9b; 0xbfba; 0x8fd9; 0x9ff8;
   0x6e17; 0x7e36; 0x4e55; 0x5e74; 0x2e93; 0x3eb2; 0x0ed1; 0x1ef0].

(** One iteration: [crc = (crc << 8) ^ crc16table[((crc >> 8) ^ *data++) & 0x00FF]]
    with [crc] an [uint16_t] and [*data] a [char], promoted to [int]. *)
Definition crc16_step (crc : Z) (c : byte) : Z :=
  u16 (Z.lxor (Z.shiftl crc 8)
        (nth (Z.to_nat (Z.land (Z.lxor (Z.shiftr crc 8) (charZ c)) 0x00FF)) crc16table 0)).

Definition crc16_from (crc : Z) (data : list byte) : Z := foldl crc16_step crc data.

(** [crc16(data, len)] on the [len] bytes at [data]. *)
Definition crc16 (data : list byte) : Z := crc16_from 0 data.

(** ** The reference definition *)

Definition crc_poly : Z := 0x1021.

(** Shift one zero bit in, and reduce. *)
Definition crc_bit (c : Z) : Z :=
  let s := u16 (Z.shiftl c 1) in
  if Z.testbit c 15 then Z.lxor s crc_poly else s.

Definition crc_byte (c : Z) (b : byte) : Z :=
  Nat.iter 8 crc_bit (Z.lxor c (Z.shiftl (byteZ b) 8)).

Definition crc_bitwise (data : list byte) : Z := foldl crc_byte 0 data.

(** ** The step and the reference agree *)

Lemma in_u16_testbit c : in_u 16 c ↔ 0 ≤ c ∧ ∀ i, 16 ≤ i → Z.testbit c i = false.
Proof.
  split.
  - intros [H0 H1]. split; [done|]. intros i Hi.
    rewrite <- (Z.mod_small c (2 ^ 16)) by lia. apply Z.mod_pow2_bits_high. lia.
  - intros [H0 Hb]. split; [done|].
    destruct (Z.eq_dec c 0) as [->|Hc]; [lia|].
    apply Z.log2_lt_pow2; [lia|].
    destruct (Z.lt_ge_cases (Z.log2 c) 16) as [|Hge]; [done|].
    pose proof (Z.bit_log2 c ltac:(lia)) as Hl. by rewrite Hb in Hl.
Qed.

Lemma lxor_in_u16 a b : in_u 16 a → in_u 16 b → in_u 16 (Z.lxor a b).
Proof.
  rewrite !in_u16_testbit. intros [Ha Ha'] [Hb Hb']. split.
  - apply Z.lxor_nonneg. lia.
  - intros i Hi. by rewrite Z.lxor_spec, Ha', Hb'.
Qed.

Lemma u16_testbit c i : 0 ≤ i → Z.testbit (u16 c) i = (i <? 16) && Z.testbit c i.
Proof.
  intros. unfold u16. destruct (Z.ltb_spec i 16).
  - by rewrite Z.mod_pow2_bits_low by lia.
  - by rewrite Z.mod_pow2_bits_high by lia.
Qed.

Lemma u16_lxor a b : u16 (Z.lxor a b) = Z.lxor (u16 a) (u16 b).
Proof.
  apply Z.bits_inj'. intros i Hi.
  rewrite Z.lxor_spec, !u16_testbit, Z.lxor_spec by lia. by destruct (i <? 16).
Qed.

Lemma lxor_cancel a b c : Z.lxor a (Z.lxor b c) = Z.lxor (Z.lxor a b) c.
Proof. by rewrite Z.lxor_assoc. Qed.

Lemma crc_bit_range c : in_u 16 (crc_bit c).
Proof.
  unfold crc_bit. destruct (Z.testbit c 15); [apply lxor_in_u16|]; try apply u16_range.
  by unfold in_u, crc_poly.
Qed.

(** Reduction is linear over exclusive or. *)
Lemma crc_bit_lxor a b : crc_bit (Z.lxor a b) = Z.lxor (crc_bit a) (crc_bit b).
Proof.
  unfold crc_bit. rewrite Z.lxor_spec, Z.shiftl_lxor, u16_lxor.
  set (x := u16 (Z.shiftl a 1)). set (y := u16 (Z.shiftl b 1)).
  destruct (Z.testbit a 15), (Z.testbit b 15); simpl.
  - rewrite (Z.lxor_comm y), <- Z.lxor_assoc, (Z.lxor_assoc x), Z.lxor_nilpotent.
    by rewrite Z.lxor_0_r.
  - by rewrite !Z.lxor_assoc, (Z.lxor_comm crc_poly).
  - by rewrite Z.lxor_assoc.
  - done.
Qed.

Lemma iter_crc_bit_lxor n a b :
  Nat.iter n crc_bit (Z.lxor a b) = Z.lxor (Nat.iter n crc_bit a) (Nat.iter n crc_bit b).
Proof. induction n as [|n IH]; simpl; [done|]. by rewrite IH, crc_bit_lxor. Qed.

Definition seqZ256 : list Z := map Z.of_nat (seq 0 256).

(** A property of every byte value is checked by evaluation. *)
Lemma seqZ256_forall (f : Z → bool) i : in_u 8 i → forallb f seqZ256 = true → f i = true.
Proof.
  intros [H0 H1] Hf. eapply forallb_forall in Hf; [exact Hf|].
  apply in_map_iff. exists (Z.to_nat i). split; [lia|]. apply in_seq. lia.
Qed.

Lemma crc16table_spec i :
  in_u 8 i → nth (Z.to_nat i) crc16table 0 = Nat.iter 8 crc_bit (Z.shiftl i 8).
Proof.
  intros Hi. apply seqZ256_forall with
    (f := λ i, nth (Z.to_nat i) crc16table 0 =? Nat.iter 8 crc_bit (Z.shiftl i 8)) in Hi;
    [by apply Z.eqb_eq|by vm_compute].
Qed.

Lemma crc_low_byte i : in_u 8 i → Nat.iter 8 crc_bit i = Z.shiftl i 8.
Proof.
  intros Hi. apply seqZ256_forall with
    (f := λ i, Nat.iter 8 crc_bit i =? Z.shiftl i 8) in Hi;
    [by apply Z.eqb_eq|by vm_compute].
Qed.

Lemma charZ_byteZ c : Z.land (charZ c) 0xFF = byteZ c.
Proof.
  change 0xFF with (Z.ones 8). rewrite Z.land_ones by lia.
  pose proof (byteZ_range c) as [H0 H1]. unfold charZ.
  destruct (Z.ltb_spec (byteZ c) 128).
  - apply Z.mod_small. lia.
  - replace (byteZ c - 256) with (byteZ c + (-1) * 2 ^ 8) by lia.
    rewrite Z.mod_add by lia. apply Z.mod_small. lia.
Qed.

(** The two halves of a 16-bit value. *)
Lemma crc_halves c : in_u 16 c →
  ∃ h l, in_u 8 h ∧ in_u 8 l ∧ c = Z.lxor (Z.shiftl h 8) l ∧ Z.shiftr c 8 = h ∧
         u16 (Z.shiftl c 8) = Z.shiftl l 8.
Proof.
  intros [H0 H1]. exists (Z.shiftr c 8), (Z.land c 0xFF).
  change 0xFF with (Z.ones 8). rewrite Z.land_ones by lia.
  rewrite Z.shiftr_div_pow2 by lia. unfold in_u.
  split; [|split; [|split; [|split]]].
  - split; [apply Z.div_pos; lia|]. apply Z.div_lt_upper_bound; lia.
  - apply Z.mod_pos_bound. lia.
  - rewrite <- Z.shiftr_div_pow2, <- Z.land_ones by lia.
    apply Z.bits_inj'. intros i Hi. rewrite Z.lxor_spec, Z.land_spec, Z.testbit_ones_nonneg by lia.
    destruct (Z.ltb_spec i 8).
    + rewrite Z.shiftl_spec_low by lia. by rewrite andb_true_r, xorb_false_l.
    + rewrite Z.shiftl_spec_high, Z.shiftr_spec by lia.
      rewrite andb_false_r, xorb_false_r. f_equal. lia.
  - done.
  - unfold u16. rewrite !Z.shiftl_mul_pow2 by lia.
    change (2 ^ 16) with (2 ^ 8 * 2 ^ 8). by rewrite Z.mul_mod_distr_r by lia.
Qed.

Lemma crc_byte_range c b : in_u 16 (crc_byte c b).
Proof. unfold crc_byte. simpl. apply crc_bit_range. Qed.

Lemma lxor_in_u8 a b : in_u 8 a → in_u 8 b → in_u 8 (Z.lxor a b).
Proof.
  intros Ha Hb. assert (H : Z.land (Z.lxor a b) (Z.ones 8) = Z.lxor a b).
  { apply Z.bits_inj'. intros i Hi. rewrite Z.land_spec, Z.testbit_ones_nonneg by lia.
    destruct (Z.ltb_spec i 8); [by rewrite andb_true_r|].
    rewrite andb_false_r, Z.lxor_spec.
    rewrite <- (Z.mod_small a (2 ^ 8)), <- (Z.mod_small b (2 ^ 8)) by done.
    by rewrite !Z.mod_pow2_bits_high by lia. }
  rewrite Z.land_ones in H by lia. rewrite <- H. apply Z.mod_pos_bound. lia.
Qed.

(** One table look-up does what eight single-bit steps do. *)
Lemma crc16_step_byte c b : in_u 16 c → crc16_step c b = crc_byte c b.
Proof.
  intros Hc. destruct (crc_halves c Hc) as (h & l & Hh & Hl & E & Es & Eu).
  unfold crc16_step, crc_byte. rewrite Es.
  assert (Ei : Z.land (Z.lxor h (charZ b)) 0xFF = Z.lxor h (byteZ b)).
  { rewrite <- (charZ_byteZ b). apply Z.bits_inj'. intros i Hi.
    rewrite !Z.land_spec, !Z.lxor_spec, Z.land_spec.
    change 0xFF with (Z.ones 8). rewrite Z.testbit_ones_nonneg by lia.
    destruct (Z.ltb_spec i 8); [by rewrite !andb_true_r|]. rewrite !andb_false_r.
    rewrite <- (Z.mod_small h (2 ^ 8)) by done. by rewrite Z.mod_pow2_bits_high by lia. }
  rewrite Ei. rewrite crc16table_spec by (apply lxor_in_u8; [done|apply byteZ_range]).
  rewrite u16_lxor, Eu. rewrite (u16_small (Nat.iter _ _ _)) by apply crc_bit_range.
  rewrite E, <- (crc_low_byte l Hl).
  rewrite <- iter_crc_bit_lxor. f_equal. rewrite Z.shiftl_lxor.
  rewrite (Z.lxor_comm (Z.shiftl h 8) l), <- !Z.lxor_assoc. f_equal.
Qed.

Lemma crc16_from_range c data : in_u 16 c → in_u 16 (crc16_from c data).
Proof.
  revert c. induction data as [|b data IH]; intros c Hc; simpl; [done|].
  apply IH. apply u16_range.
Qed.

Lemma crc16_range data : in_u 16 (crc16 data).
Proof. by apply crc16_from_range. Qed.

Lemma crc16_from_app c d1 d2 : crc16_from c (d1 ++ d2) = crc16_from (crc16_from c d1) d2.
Proof. apply foldl_app. Qed.

(** ** Injectivity: no error pattern of two adjacent bytes goes unnoticed *)

Lemma crc_bit_inj a b : in_u 16 a → in_u 16 b → crc_bit a = crc_bit b → a = b.
Proof.
  intros Ha Hb E.
  assert (Hbit : ∀ c i, in_u 16 c → 0 ≤ i →
    Z.testbit (crc_bit c) i =
      xorb ((i <? 16) && (0 <? i) && Z.testbit c (i - 1)) (Z.testbit c 15 && Z.testbit crc_poly i)).
  { intros c i Hc Hi. unfold crc_bit.
    assert (Hs : Z.testbit (u16 (Z.shiftl c 1)) i = (i <? 16) && (0 <? i) && Z.testbit c (i - 1)).
    { rewrite u16_testbit by done. destruct (Z.ltb_spec 0 i).
      - rewrite Z.shiftl_spec_high by lia. by rewrite andb_true_r.
      - rewrite Z.shiftl_spec_low by lia. by rewrite !andb_false_r. }
    destruct (Z.testbit c 15); [rewrite Z.lxor_spec|rewrite andb_false_l, xorb_false_r]; by rewrite Hs. }
  assert (Htop : Z.testbit a 15 = Z.testbit b 15).
  { assert (E0 : Z.testbit (crc_bit a) 0 = Z.testbit (crc_bit b) 0) by by rewrite E.
    rewrite (Hbit a), (Hbit b) in E0 by (done || lia). change (Z.testbit crc_poly 0) with true in E0.
    cbn [Z.ltb Z.compare andb] in E0. rewrite !andb_true_r, !xorb_false_l in E0.
    by destruct (Z.testbit a 15), (Z.testbit b 15). }
  apply Z.bits_inj'. intros i Hi. destruct (Z.lt_ge_cases i 15) as [Hlt|Hge].
  - pose proof (f_equal (λ z, Z.testbit z (i + 1)) E) as Ei. cbv beta in Ei.
    rewrite (Hbit a), (Hbit b), Htop in Ei by (done || lia).
    rewrite (proj2 (Z.ltb_lt _ _)), (proj2 (Z.ltb_lt 0 _)) in Ei by lia.
    replace (i + 1 - 1) with i in Ei by lia. cbn [andb] in Ei.
    by destruct (Z.testbit a i), (Z.testbit b i), (Z.testbit b 15), (Z.testbit crc_poly (i + 1)).
  - destruct (Z.eq_dec i 15) as [->|Hne]; [done|].
    apply in_u16_testbit in Ha as [_ Ha]. apply in_u16_testbit in Hb as [_ Hb].
    by rewrite Ha, Hb by lia.
Qed.

Lemma iter_crc_bit_range n a : in_u 16 a → in_u 16 (Nat.iter n crc_bit a).
Proof. intros Ha. destruct n; simpl; [done|]. apply crc_bit_range. Qed.

Lemma iter_crc_bit_inj n a b :
  in_u 16 a → in_u 16 b → Nat.iter n crc_bit a = Nat.iter n crc_bit b → a = b.
Proof.
  intros Ha Hb. induction n as [|n IH]; simpl; [done|]. intros E.
  apply IH. apply crc_bit_inj; [by apply iter_crc_bit_range..|done].
Qed.

Lemma lxor_inj_l a b c : Z.lxor a b = Z.lxor a c → b = c.
Proof.
  intros E. apply (f_equal (Z.lxor a)) in E. by rewrite !lxor_cancel, Z.lxor_nilpotent in E.
Qed.

Lemma lxor_inj_r a b c : Z.lxor b a = Z.lxor c a → b = c.
Proof. rewrite !(Z.lxor_comm _ a). apply lxor_inj_l. Qed.

Lemma shiftl8_in_u16 a : in_u 8 a → in_u 16 (Z.shiftl a 8).
Proof. unfold in_u. rewrite Z.shiftl_mul_pow2 by lia. lia. Qed.

Lemma in_u8_u16 a : in_u 8 a → in_u 16 a.
Proof. unfold in_u. lia. Qed.

#[local] Hint Resolve byteZ_range shiftl8_in_u16 in_u8_u16 lxor_in_u16 crc_byte_range crc_bit_range : core.

(** Injective in the state and in the byte. *)
Lemma crc_byte_inj_state b c1 c2 :
  in_u 16 c1 → in_u 16 c2 → crc_byte c1 b = crc_byte c2 b → c1 = c2.
Proof.
  intros H1 H2 E. apply iter_crc_bit_inj in E; [|auto..]. by apply lxor_inj_r in E.
Qed.

Lemma crc_from_inj_state data c1 c2 :
  in_u 16 c1 → in_u 16 c2 → crc16_from c1 data = crc16_from c2 data → c1 = c2.
Proof.
  revert c1 c2. induction data as [|b data IH]; intros c1 c2 H1 H2; simpl; [done|].
  rewrite !crc16_step_byte by done. intros E.
  apply (crc_byte_inj_state b); [done..|]. apply IH; [auto..|exact E].
Qed.

(** Two bytes at once: sixteen bit steps from a state that mixes both in. *)
Lemma crc_two_bytes c a b :
  in_u 16 c →
  crc16_from c [a; b] =
    Nat.iter 16 crc_bit (Z.lxor c (Z.lxor (Z.shiftl (byteZ a) 8) (byteZ b))).
Proof.
  intros Hc. change (crc16_from c [a; b]) with (crc16_step (crc16_step c a) b).
  rewrite (crc16_step_byte c) by done. rewrite crc16_step_byte by apply crc_byte_range.
  unfold crc_byte at 1.
  rewrite <- (crc_low_byte (byteZ b)) by auto. unfold crc_byte.
  rewrite <- iter_crc_bit_lxor, <- Nat.iter_add. by rewrite !Z.lxor_assoc.
Qed.

(** The low byte of a two-byte mix. *)
Lemma land_low_byte h l :
  in_u 8 l → Z.land (Z.lxor (Z.shiftl h 8) l) (Z.ones 8) = l.
Proof.
  intros Hl. apply Z.bits_inj'. intros i Hi.
  rewrite Z.land_spec, Z.lxor_spec, Z.testbit_ones_nonneg by lia.
  destruct (Z.ltb_spec i 8).
  - rewrite Z.shiftl_spec_low by lia. by rewrite andb_true_r, xorb_false_l.
  - rewrite andb_false_r. symmetry.
    rewrite <- (Z.mod_small l (2 ^ 8)) by done. by apply Z.mod_pow2_bits_high.
Qed.

Lemma two_bytes_inj a b a' b' :
  Z.lxor (Z.shiftl (byteZ a) 8) (byteZ b) = Z.lxor (Z.shiftl (byteZ a') 8) (byteZ b') →
  a = a' ∧ b = b'.
Proof.
  intros E.
  assert (Hb : byteZ b = byteZ b').
  { rewrite <- (land_low_byte (byteZ a) (byteZ b)), E by auto. by apply land_low_byte. }
  split; apply byteZ_inj; [|done]. rewrite Hb in E. apply lxor_inj_r in E.
  rewrite !Z.shiftl_mul_pow2 in E by lia. lia.
Qed.

Lemma crc_window_inj c x y :
  in_u 16 c → length x = length y → (length x ≤ 2)%nat →
  crc16_from c x = crc16_from c y → x = y.
Proof.
  intros Hc Hl Hx E.
  destruct x as [|x1 [|x2 [|]]], y as [|y1 [|y2 [|]]]; simpl in Hl, Hx; try lia.
  - done.
  - unfold crc16_from in E; simpl in E. rewrite !crc16_step_byte in E by done.
    apply iter_crc_bit_inj in E; [|auto..]. apply lxor_inj_l in E.
    rewrite !Z.shiftl_mul_pow2 in E by lia. f_equal. apply byteZ_inj. lia.
  - rewrite !crc_two_bytes in E by done.
    apply iter_crc_bit_inj in E; [|auto 10..]. apply lxor_inj_l in E.
    apply two_bytes_inj in E as [-> ->]. done.
Qed.

(** Feeding the checksum back, most significant byte first, empties the state. *)
Lemma crc16_from_residue c : in_u 16 c → crc16_from c (be_bytes 2 c) = 0.
Proof.
  intros Hc. destruct (crc_halves c Hc) as (h & l & Hh & Hl & E & Es & Eu).
  assert (Eb : be_bytes 2 c = [Zbyte h; Zbyte l]).
  { change (be_bytes 2 c) with [Zbyte (c / 2 ^ 8); Zbyte c].
    rewrite <- Z.shiftr_div_pow2, Es by lia.
    do 2 f_equal. apply byteZ_inj. rewrite !byteZ_Zbyte, (u8_small l) by done.
    rewrite E. unfold u8. rewrite <- Z.land_ones by lia. by apply land_low_byte. }
  rewrite Eb, crc_two_bytes by done. rewrite !byteZ_Zbyte, !u8_small by done.
  rewrite <- E, Z.lxor_nilpotent. by vm_compute.
Qed.

Lemma crc16_window pre x y post :
  length x = length y → (length x ≤ 2)%nat → x ≠ y →
  crc16 (pre ++ x ++ post) ≠ crc16 (pre ++ y ++ post).
Proof.
  intros Hl Hx Hne E. apply Hne. unfold crc16 in E. rewrite !crc16_from_app in E.
  pose proof (crc16_range pre) as Hp.
  apply crc_from_inj_state in E; [|by apply crc16_from_range..].
  by eapply crc_window_inj.
Qed.

(** ** Properties *)

(** C13: the table-driven checksum is the bitwise CRC-16 with polynomial 0x1021
    and initial value 0, on every message. *)
Theorem crc16_is_bitwise (data : list byte) : crc16 data = crc_bitwise data.
Proof.
  unfold crc16, crc_bitwise, crc16_from.
  assert (H : ∀ c, in_u 16 c → foldl crc16_step c data = foldl crc_byte c data);
    [|by apply H].
  induction data as [|b data IH]; intros c Hc; simpl; [done|].
  rewrite crc16_step_byte by done. by apply IH.
Qed.

(** The checksum of a message followed by its own checksum, in network
    order, is zero. *)
Theorem crc16_residue (data : list byte) :
  crc16 (data ++ be_bytes 2 (crc16 data)) = 0.
Proof. unfold crc16 at 1. rewrite crc16_from_app. apply crc16_from_residue, crc16_range. Qed.

(** C35: two messages that differ only inside a window of at most two adjacent
    bytes have different checksums. *)
Theorem crc16_detects_window (pre x y post : list byte) :
  length x = length y → (length x ≤ 2)%nat → x ≠ y →
  crc16 (pre ++ x ++ post) ≠ crc16 (pre ++ y ++ post).
Proof. apply crc16_window. Qed.

Lemma crc16_detects_window_witness :
  crc16 ([x31; x32] ++ [x33; x34] ++ [x35]) ≠ crc16 ([x31; x32] ++ [x34; x33] ++ [x35]).
Proof. apply (crc16_detects_window [x31; x32] [x33; x34] [x34; x33] [x35]); simpl; [lia..|done]. Defined.
