(* ===== verification/ObjectPool.v ===== *)
(** * Object pools (net/objectpool.h)

    A free list behind a mutex, and a factory for when it is empty.  Each
    operation runs under the lock, so a concurrent execution is a sequence of
    whole operations; [pool_step] is that sequence for clients that give back
    only what they hold. *)

From Stdlib Require Import ZArith Lia.
From stdpp Require Import base list numbers.
From S2P Require Import Prelude.

(** [m_construct] returns a new object on every call: the [n]-th call returns
    [m_construct n]. *)
Record ObjectPool (T : Type) := mkObjectPool {
  m_free_list : list T;
  m_construct : nat → T;
  m_constructed : nat
}.
Arguments mkObjectPool {T} _ _ _.
Arguments m_free_list {T} _.
Arguments m_construct {T} _ _.
Arguments m_constructed {T} _.

Section ObjectPool.
Context {T : Type}.
  Implicit Types (p : ObjectPool T) (obj : T).

(** The constructor calls the factory [sz] times. *)
Definition ObjectPool_make (creator : nat → T) (sz : nat) : ObjectPool T :=
  mkObjectPool (map creator (seq 0 sz)) creator sz.

(** [get(proc)]: the object [proc] is called with, under the lock. *)
Definition pool_get : M (ObjectPool T) T := λ p,
  match m_free_list p with
  | node :: rest => Ok (node, mkObjectPool rest (m_construct p) (m_constructed p))
  | [] => Ok (m_construct p (m_constructed p),
              mkObjectPool [] (m_construct p) (S (m_constructed p)))
  end.

(** [free(obj)] pushes a copy of the pointer. *)
Definition pool_free (obj : T) : M (ObjectPool T) unit :=
  modify (λ p, mkObjectPool (m_free_list p ++ [obj]) (m_construct p) (m_constructed p)).

(** The destructor. *)
Definition pool_clear : M (ObjectPool T) unit :=
  modify (λ p, mkObjectPool [] (m_construct p) (m_constructed p)).

(** A pool together with the objects its clients hold. *)
Inductive pool_step : ObjectPool T * list T → ObjectPool T * list T → Prop :=
  | step_get p p' x out :
      pool_get p = Ok (x, p') → pool_step (p, out) (p', x :: out)
  | step_free p p' x out1 out2 :
      pool_free x p = Ok (tt, p') →
      pool_step (p, out1 ++ x :: out2) (p', out1 ++ out2).

Inductive pool_steps : ObjectPool T * list T → ObjectPool T * list T → Prop :=
  | steps_refl s : pool_steps s s
  | steps_trans s1 s2 s3 : pool_step s1 s2 → pool_steps s2 s3 → pool_steps s1 s3.

(** Every constructed object is free or held, exactly once. *)
Definition pool_inv (s : ObjectPool T * list T) : Prop :=
  m_free_list s.1 ++ s.2 ≡ₚ map (m_construct s.1) (seq 0 (m_constructed s.1)).

Lemma pool_get_inv p x p' out :
  pool_inv (p, out) → pool_get p = Ok (x, p') → pool_inv (p', x :: out).
Proof.
  unfold pool_inv, pool_get; simpl. destruct (m_free_list p) as [|y rest] eqn:E.
  - intros H [= <- <-]. cbn [fst snd m_free_list m_construct m_constructed].
    rewrite seq_S, map_app, <- H; simpl. by rewrite Permutation_cons_append.
  - intros H [= <- <-]. simpl. rewrite <- H. simpl. by rewrite Permutation_middle.
Qed.

Lemma pool_free_inv p x out1 out2 p' :
  pool_inv (p, out1 ++ x :: out2) → pool_free x p = Ok (tt, p') → pool_inv (p', out1 ++ out2).
Proof.
  unfold pool_inv, pool_free, modify; simpl. intros H [= <-]. simpl. rewrite <- H.
  rewrite <- app_assoc. simpl.
  apply Permutation_app_head, Permutation_middle.
Qed.

Lemma pool_step_inv s s' : pool_step s s' → pool_inv s → pool_inv s'.
Proof.
  destruct 1; intros Hi; [by eapply pool_get_inv|by eapply pool_free_inv].
Qed.

Lemma pool_steps_inv s s' : pool_steps s s' → pool_inv s → pool_inv s'.
Proof. induction 1; eauto using pool_step_inv. Qed.

Lemma pool_step_construct s s' : pool_step s s' → m_construct s'.1 = m_construct s.1.
Proof.
  destruct 1 as [p p' x out E|p p' x o1 o2 E]; simpl; revert E.
  - unfold pool_get. destruct (m_free_list p); by intros [= <- <-].
  - by intros [= <-].
Qed.

Lemma pool_steps_construct s s' : pool_steps s s' → m_construct s'.1 = m_construct s.1.
Proof. induction 1 as [|s1 s2 s3 H _ IH]; [done|]. by rewrite IH, (pool_step_construct _ _ H). Qed.

End ObjectPool.

(** ** Properties *)

(** C38: when the factory returns distinct objects, no schedule of [get] and
    [free] calls by clients that free only what they hold ever hands one object
    to two holders or keeps a held object in the free list, and no constructed
    object is lost. *)
Theorem pool_exclusive {T} (creator : nat → T) (sz : nat) (p : ObjectPool T) (out : list T) :
  (∀ i j, creator i = creator j → i = j) →
  pool_steps (ObjectPool_make creator sz, []) (p, out) →
  NoDup (m_free_list p ++ out) ∧
  (length (m_free_list p) + length out)%nat = m_constructed p.
Proof.
  intros Hinj Hsteps.
  assert (Hi : pool_inv (p, out)).
  { eapply pool_steps_inv; [exact Hsteps|]. unfold pool_inv, ObjectPool_make; simpl.
    by rewrite app_nil_r. }
  apply pool_steps_construct in Hsteps. simpl in Hsteps.
  unfold pool_inv in Hi; simpl in Hi. rewrite Hsteps in Hi. split.
  - rewrite Hi. apply NoDup_fmap_2_strong; [|apply NoDup_seq].
    intros i j _ _. apply Hinj.
  - apply Permutation_length in Hi. rewrite length_app, length_map, length_seq in Hi. lia.
Qed.

Lemma pool_exclusive_witness :
  NoDup (m_free_list (mkObjectPool [2; 0]%nat (λ n, n) 3) ++ [1]%nat) ∧
  (length (m_free_list (mkObjectPool [2; 0]%nat (λ n, n) 3)) + length [1%nat])%nat =
    m_constructed (mkObjectPool [2; 0]%nat (λ n, n) 3).
Proof.
  apply (pool_exclusive (λ n : nat, n) 3); [done|].
  eapply steps_trans; [by apply (step_get _ (mkObjectPool [1; 2]%nat (λ n, n) 3) 0%nat)|].
  eapply steps_trans; [by apply (step_get _ (mkObjectPool [2]%nat (λ n, n) 3) 1%nat)|].
  eapply steps_trans; [|apply steps_refl].
  by apply (step_free _ (mkObjectPool [2; 0]%nat (λ n, n) 3) 0%nat [1%nat] []).
Defined.

(** A client that frees one object twice makes the pool hand it out twice. *)
Theorem pool_double_free {T} (creator : nat → T) (x : T) :
  ∃ p1 p2 p3 p4,
    pool_free x (ObjectPool_make creator 0) = Ok (tt, p1) ∧ pool_free x p1 = Ok (tt, p2) ∧
    pool_get p2 = Ok (x, p3) ∧ pool_get p3 = Ok (x, p4).
Proof. by eexists _, _, _, _. Qed.
