(* ===== verification/RepeatTimer.v ===== *)
(** * The repeating timer (net/repeattimer.h)

    The waits posted on the asio timer are part of the state: an asynchronous
    wait is armed, then due when its time passes or aborted when the timer is
    re-armed, and its callback runs later.  [timer_step] lets time, the
    callbacks and the client calls happen in any order. *)

From Stdlib Require Import ZArith Lia.
From stdpp Require Import base list numbers.
From S2P Require Import Prelude.

Inductive wait_state := Armed | Due | Aborted.

#[global] Instance wait_state_eq_dec : EqDecision wait_state.
Proof. solve_decision. Defined.

(** A posted wait with the period its callback captured. *)
Record wait := mkWait { w_time : Z; w_state : wait_state }.

Section RepeatTimer.
Context {H : Type}.

(** [m_handler] is null until set; [t_calls] records the handlers called. *)
Record RepeatTimer := mkRepeatTimer {
  m_running : bool;
  m_handler : option H;
  m_timeout : Z;
  t_waits : list wait;
  t_calls : list H
}.

Definition RepeatTimer_make (timeout : Z) (handler : option H) : RepeatTimer :=
  mkRepeatTimer false handler timeout [] [].

Definition abort_wait (w : wait) : wait :=
  match w_state w with Armed => mkWait (w_time w) Aborted | _ => w end.

(** [expired(time_ms)]: setting the expiry aborts the armed waits. *)
Definition expired (time_ms : Z) : M RepeatTimer unit :=
  modify (λ t,
    if m_running t
    then mkRepeatTimer (m_running t) (m_handler t) (m_timeout t)
           (map abort_wait (t_waits t) ++ [mkWait time_ms Armed]) (t_calls t)
    else t).

(** The callback of a wait; calling a null handler throws. *)
Definition on_wait (time_ms : Z) (aborted : bool) : M RepeatTimer unit :=
  t ← gets id;
  if aborted || negb (m_running t) then mret tt
  else
    match m_handler t with
    | None => raise NullDeref
    | Some h =>
        modify (λ t, mkRepeatTimer (m_running t) (m_handler t) (m_timeout t)
                       (t_waits t) (t_calls t ++ [h]));;
        expired time_ms
    end.

Definition timer_start : M RepeatTimer unit :=
  modify (λ t, mkRepeatTimer true (m_handler t) (m_timeout t) (t_waits t) (t_calls t));;
  timeout ← gets m_timeout;
  expired timeout.

Definition timer_stop : M RepeatTimer unit :=
  modify (λ t, mkRepeatTimer false (m_handler t) (m_timeout t) (t_waits t) (t_calls t)).

Definition set_timeout (timeout : Z) : M RepeatTimer unit :=
  modify (λ t, mkRepeatTimer (m_running t) (m_handler t) timeout (t_waits t) (t_calls t)).

Definition set_handler (handler : H) : M RepeatTimer unit :=
  modify (λ t, match m_handler t with
               | None => mkRepeatTimer (m_running t) (Some handler) (m_timeout t)
                           (t_waits t) (t_calls t)
               | Some _ => t
               end).

Definition set_waits (ws : list wait) (t : RepeatTimer) : RepeatTimer :=
  mkRepeatTimer (m_running t) (m_handler t) (m_timeout t) ws (t_calls t).

(** Client calls other than [start], and everything the event loop does. *)
Inductive idle_step : RepeatTimer → RepeatTimer → Prop :=
  | idle_stop t t' : timer_stop t = Ok (tt, t') → idle_step t t'
  | idle_set_timeout n t t' : set_timeout n t = Ok (tt, t') → idle_step t t'
  | idle_set_handler h t t' : set_handler h t = Ok (tt, t') → idle_step t t'
  | idle_elapse t ws1 w ws2 :
      t_waits t = ws1 ++ w :: ws2 → w_state w = Armed →
      idle_step t (set_waits (ws1 ++ mkWait (w_time w) Due :: ws2) t)
  | idle_dispatch t ws1 w ws2 t' :
      t_waits t = ws1 ++ w :: ws2 → w_state w ≠ Armed →
      on_wait (w_time w) (bool_decide (w_state w = Aborted)) (set_waits (ws1 ++ ws2) t) = Ok (tt, t') →
      idle_step t t'.

Inductive timer_step : RepeatTimer → RepeatTimer → Prop :=
  | step_idle t t' : idle_step t t' → timer_step t t'
  | step_start t t' : timer_start t = Ok (tt, t') → timer_step t t'.

Inductive steps (R : RepeatTimer → RepeatTimer → Prop) : RepeatTimer → RepeatTimer → Prop :=
  | steps_nil t : steps R t t
  | steps_cons t1 t2 t3 : R t1 t2 → steps R t2 t3 → steps R t1 t3.

Lemma steps_invariant (R : RepeatTimer → RepeatTimer → Prop) (I : RepeatTimer → Prop) t t' :
  (∀ t1 t2, R t1 t2 → I t1 → I t2) → steps R t t' → I t → I t'.
Proof. intros HI. induction 1; eauto. Qed.

Definition is_armed (w : wait) : bool := bool_decide (w_state w = Armed).
Definition armed (ws : list wait) : Z := zlen (List.filter is_armed ws).

Lemma armed_app ws1 ws2 : armed (ws1 ++ ws2) = armed ws1 + armed ws2.
Proof. unfold armed. by rewrite List.filter_app, zlen_app. Qed.

Lemma armed_cons w ws : armed (w :: ws) = (if is_armed w then 1 else 0) + armed ws.
Proof. unfold armed. simpl. destruct (is_armed w); [by rewrite zlen_cons|done]. Qed.

Lemma armed_abort ws : armed (map abort_wait ws) = 0.
Proof.
  induction ws as [|[tm []] ws IH]; [done|..]; simpl; rewrite armed_cons, IH; done.
Qed.

Lemma armed_nonneg ws : 0 ≤ armed ws.
Proof. apply zlen_nonneg. Qed.

Lemma expired_armed n t t' :
  expired n t = Ok (tt, t') → armed (t_waits t) ≤ 1 → armed (t_waits t') ≤ 1.
Proof.
  intros [= <-]. destruct (m_running t); [simpl|done].
  rewrite armed_app, armed_abort. done.
Qed.

Lemma timer_step_armed t t' :
  timer_step t t' → armed (t_waits t) ≤ 1 → armed (t_waits t') ≤ 1.
Proof.
  intros [? ? Hi|? ? E]; [destruct Hi as [? ? E|? ? ? E|? ? ? E|? ws1 w ws2 E Hw|? ws1 w ws2 ? E Hw Ed]|].
  - by injection E as <-.
  - by injection E as <-.
  - injection E as <-. by destruct (m_handler _).
  - rewrite E. simpl. rewrite !armed_app, !armed_cons.
    unfold is_armed. rewrite Hw. simpl. lia.
  - intros Ha. assert (Ha' : armed (ws1 ++ ws2) ≤ 1).
    { rewrite E in Ha. rewrite armed_app, armed_cons in Ha. rewrite armed_app.
      destruct (is_armed w); lia. }
    revert Ed. unfold on_wait, gets, mbind, M_bind, id; simpl.
    destruct (_ || _); [by intros [= <-]|]. destruct (m_handler _); [|discriminate].
    intros Ed. by apply expired_armed in Ed.
  - unfold timer_start, gets, mbind, M_bind, modify in E.
    intros Ha. exact (expired_armed _ _ _ E Ha).
Qed.

Lemma idle_step_stopped t t' :
  idle_step t t' → m_running t = false → m_running t' = false ∧ t_calls t' = t_calls t.
Proof.
  intros Hi Hr. destruct Hi as [? ? E|? ? ? E|? ? ? E|? ws1 w ws2 E Hw|? ws1 w ws2 ? E Hw Ed].
  - by injection E as <-.
  - by injection E as <-.
  - injection E as <-. by destruct (m_handler _).
  - done.
  - revert Ed. unfold on_wait, gets, mbind, M_bind, id; simpl. rewrite Hr, orb_true_r.
    by intros [= <-].
Qed.
End RepeatTimer.
Arguments RepeatTimer : clear implicits.

(** ** Properties *)

(** In every state a timer reaches, whatever the order of client calls,
    expiries and callbacks, at most one of its waits is armed. *)
Theorem timer_single_armed {H} (n : Z) (h : option H) (t : RepeatTimer H) :
  steps timer_step (RepeatTimer_make n h) t → armed (t_waits t) ≤ 1.
Proof.
  intros Hs. eapply (steps_invariant _ (λ t, armed (t_waits t) ≤ 1)); [|exact Hs|done].
  apply timer_step_armed.
Qed.

Lemma timer_single_armed_witness :
  armed (t_waits (mkRepeatTimer true (Some tt) 10 [mkWait 10 Aborted; mkWait 10 Armed] [])) ≤ 1.
Proof.
  apply (timer_single_armed 10 (Some tt)).
  eapply steps_cons; [by apply step_start|].
  eapply steps_cons; [by apply step_start|]. apply steps_nil.
Defined.

(** Once [stop] has returned and until [start] is called again, no schedule
    of expiries, callbacks and other calls invokes the handler. *)
Theorem timer_stopped_silent {H} (t0 t1 t2 : RepeatTimer H) :
  timer_stop t0 = Ok (tt, t1) → steps idle_step t1 t2 →
  t_calls t2 = t_calls t0 ∧ m_running t2 = false.
Proof.
  intros [= E] Hs.
  assert (HI : m_running t2 = false ∧ t_calls t2 = t_calls t1).
  { eapply (steps_invariant _ (λ t, m_running t = false ∧ t_calls t = t_calls t1)); [|exact Hs|by subst].
    intros ta tb Hst [Hr Hc]. destruct (idle_step_stopped _ _ Hst Hr). split; congruence. }
  destruct HI as [Hr Hc]. by rewrite Hc, <- E.
Qed.

Lemma timer_stopped_silent_witness :
  let t0 := mkRepeatTimer true (Some tt) 10 [mkWait 10 Due] [tt] in
  t_calls (mkRepeatTimer false (Some tt) 10 [] [tt]) = t_calls t0 ∧
  m_running (mkRepeatTimer false (Some tt) 10 [] [tt]) = false.
Proof.
  eapply (timer_stopped_silent (mkRepeatTimer true (Some tt) 10 [mkWait 10 Due] [tt])); [done|].
  eapply steps_cons; [|apply steps_nil].
  by apply (idle_dispatch _ [] (mkWait 10 Due) []).
Defined.
