(* ===== verification/Queue.v ===== *)
(** * The bounded blocking queue (util/queue.h)

    The critical sections of [add], [dequeue] and [stop] are functions on the
    queue.  [qstep] interleaves the threads that call them: a thread that finds
    its condition false sleeps on a condition variable, [notify_one] wakes one
    sleeper if there is one, [notify_all] all of them, and a sleeper may wake
    spuriously.  Results: the queue is a bounded FIFO, no wake-up is lost, and
    nobody sleeps after [stop]. *)

From Stdlib Require Import ZArith Lia.
From stdpp Require Import base list numbers.
From S2P Require Import Prelude.

Record Queue (T : Type) := mkQueue {
  m_queue : list T;
  m_maxsize : Z;
  m_stop : bool
}.
Arguments mkQueue {T} _ _ _.
Arguments m_queue {T} _.
Arguments m_maxsize {T} _.
Arguments m_stop {T} _.

(** What a call finds when it holds the lock and tests its condition. *)
Inductive attempt (R : Type) :=
  | Blocks            (** the condition is false: wait *)
  | Leaves            (** the queue is stopped: return *)
  | Enters (r : R).   (** the critical section runs *)
Arguments Blocks {R}.
Arguments Leaves {R}.
Arguments Enters {R} r.

Section Queue.
Context {T : Type}.
Implicit Types (q : Queue T) (value v : T).

Definition Queue_make (maxsize : Z) : Queue T := mkQueue [] maxsize false.

Definition notfull q : bool := zlen (m_queue q) <? m_maxsize q.
Definition notempty q : bool := negb (bool_decide (length (m_queue q) = 0%nat)).

(** [add] and both [enqueue]s, up to the release of the lock. *)
Definition add_locked value q : attempt (Queue T) :=
  if notfull q || m_stop q then
    if m_stop q then Leaves
    else Enters (mkQueue (m_queue q ++ [value]) (m_maxsize q) (m_stop q))
  else Blocks.

(** [dequeue(T&)]: the front of the queue and the rest. *)
Definition dequeue_locked q : attempt (T * Queue T) :=
  if notempty q || m_stop q then
    if m_stop q then Leaves
    else
      match m_queue q with
      | value :: rest => Enters (value, mkQueue rest (m_maxsize q) (m_stop q))
      | [] => Blocks (* [notempty] holds here *)
      end
  else Blocks.

Definition queue_size q : Z := zlen (m_queue q).
Definition full q : bool := zlen (m_queue q) >=? m_maxsize q.
Definition queue_empty q : bool := bool_decide (length (m_queue q) = 0%nat).

Definition stop_locked q : Queue T := mkQueue (m_queue q) (m_maxsize q) true.

(** ** Threads *)

Inductive thread :=
  | Idle
  | Adding (v : T)     (** in [add], about to take the lock and test *)
  | AddSleeps (v : T)  (** waiting on [m_not_full_cv] *)
  | AddNotifies        (** has added, about to call [m_not_empty_cv.notify_one] *)
  | Dequeuing
  | DeqSleeps          (** waiting on [m_not_empty_cv] *)
  | DeqNotifies        (** has taken, about to call [m_not_full_cv.notify_one] *)
  | Stopping
  | StopNotifiesEmpty  (** about to call [m_not_empty_cv.notify_all] *)
  | StopNotifiesFull.  (** about to call [m_not_full_cv.notify_all] *)

Definition wake_deq (t : thread) : thread := match t with DeqSleeps => Dequeuing | _ => t end.
Definition wake_add (t : thread) : thread := match t with AddSleeps v => Adding v | _ => t end.

(** Which threads are where, for counting. *)
Definition is_adding t := match t with Adding _ => true | _ => false end.
Definition is_add_sleeps t := match t with AddSleeps _ => true | _ => false end.
Definition is_add_notifies t := match t with AddNotifies => true | _ => false end.
Definition is_dequeuing t := match t with Dequeuing => true | _ => false end.
Definition is_deq_sleeps t := match t with DeqSleeps => true | _ => false end.
Definition is_deq_notifies t := match t with DeqNotifies => true | _ => false end.
Definition is_stop_notifies t :=
  match t with StopNotifiesEmpty | StopNotifiesFull => true | _ => false end.
Definition is_stop_notifies_empty t := match t with StopNotifiesEmpty => true | _ => false end.

(** ** Interleavings *)

Inductive label :=
  | Put (v : T)
  | Took (v : T)
  | Dropped (v : T)   (** [add] returned without adding *)
  | TookNothing       (** [dequeue] returned without taking *)
  | Stop.

Record qsys := mkSys { sys_queue : Queue T; sys_threads : list thread }.

(** Thread [i] goes from [t] to [t']. *)
Definition moves (ts : list thread) (i : nat) (t t' : thread) (ts' : list thread) : Prop :=
  ts !! i = Some t ∧ ts' = <[i := t']> ts.

(** [notify_one]: one of the threads that satisfy [sleeps] wakes, if any. *)
Inductive notify_one (sleeps : thread → bool) (wake : thread → thread) :
    list thread → list thread → Prop :=
  | notify_some ts j t :
      ts !! j = Some t → sleeps t = true → notify_one sleeps wake ts (<[j := wake t]> ts)
  | notify_nobody ts : (∀ t, t ∈ ts → sleeps t = false) → notify_one sleeps wake ts ts.

Inductive qstep : qsys → list label → qsys → Prop :=
  | call_add q ts i v ts' :
      moves ts i Idle (Adding v) ts' → qstep (mkSys q ts) [] (mkSys q ts')
  | call_dequeue q ts i ts' :
      moves ts i Idle Dequeuing ts' → qstep (mkSys q ts) [] (mkSys q ts')
  | call_stop q ts i ts' :
      moves ts i Idle Stopping ts' → qstep (mkSys q ts) [] (mkSys q ts')
  | add_blocks q ts i v ts' :
      add_locked v q = Blocks → moves ts i (Adding v) (AddSleeps v) ts' →
      qstep (mkSys q ts) [] (mkSys q ts')
  | add_leaves q ts i v ts' :
      add_locked v q = Leaves → moves ts i (Adding v) Idle ts' →
      qstep (mkSys q ts) [Dropped v] (mkSys q ts')
  | add_enters q q' ts i v ts' :
      add_locked v q = Enters q' → moves ts i (Adding v) AddNotifies ts' →
      qstep (mkSys q ts) [Put v] (mkSys q' ts')
  | add_notifies q ts i ts' ts'' :
      moves ts i AddNotifies Idle ts' → notify_one is_deq_sleeps wake_deq ts' ts'' →
      qstep (mkSys q ts) [] (mkSys q ts'')
  | deq_blocks q ts i ts' :
      dequeue_locked q = Blocks → moves ts i Dequeuing DeqSleeps ts' →
      qstep (mkSys q ts) [] (mkSys q ts')
  | deq_leaves q ts i ts' :
      dequeue_locked q = Leaves → moves ts i Dequeuing Idle ts' →
      qstep (mkSys q ts) [TookNothing] (mkSys q ts')
  | deq_enters q q' ts i v ts' :
      dequeue_locked q = Enters (v, q') → moves ts i Dequeuing DeqNotifies ts' →
      qstep (mkSys q ts) [Took v] (mkSys q' ts')
  | deq_notifies q ts i ts' ts'' :
      moves ts i DeqNotifies Idle ts' → notify_one is_add_sleeps wake_add ts' ts'' →
      qstep (mkSys q ts) [] (mkSys q ts'')
  | stop_sets q ts i ts' :
      moves ts i Stopping StopNotifiesEmpty ts' →
      qstep (mkSys q ts) [Stop] (mkSys (stop_locked q) ts')
  | stop_notifies_empty q ts i ts' :
      moves ts i StopNotifiesEmpty StopNotifiesFull ts' →
      qstep (mkSys q ts) [] (mkSys q (map wake_deq ts'))
  | stop_notifies_full q ts i ts' :
      moves ts i StopNotifiesFull Idle ts' →
      qstep (mkSys q ts) [] (mkSys q (map wake_add ts'))
  | spurious_deq q ts i ts' :
      moves ts i DeqSleeps Dequeuing ts' → qstep (mkSys q ts) [] (mkSys q ts')
  | spurious_add q ts i v ts' :
      moves ts i (AddSleeps v) (Adding v) ts' → qstep (mkSys q ts) [] (mkSys q ts').

Inductive qsteps (s : qsys) : list label → qsys → Prop :=
  | qsteps_nil : qsteps s [] s
  | qsteps_snoc tr s1 l s2 : qsteps s tr s1 → qstep s1 l s2 → qsteps s (tr ++ l) s2.

(** [n] threads that have called nothing yet. *)
Definition qinit (maxsize : Z) (n : nat) : qsys :=
  mkSys (Queue_make maxsize) (replicate n Idle).

(** ** The values a trace puts and takes *)

Definition puts_of (tr : list label) : list T :=
  omap (λ l, match l with Put v => Some v | _ => None end) tr.
Definition takes_of (tr : list label) : list T :=
  omap (λ l, match l with Took v => Some v | _ => None end) tr.

(** The abstract bounded queue: a list of values and a flag; after [Stop]
    nothing goes in or out. *)
Inductive spec_step (max : Z) : list T * bool → label → list T * bool → Prop :=
  | spec_put l v : zlen l < max → spec_step max (l, false) (Put v) (l ++ [v], false)
  | spec_take l v : spec_step max (v :: l, false) (Took v) (l, false)
  | spec_dropped l v : spec_step max (l, true) (Dropped v) (l, true)
  | spec_nothing l : spec_step max (l, true) TookNothing (l, true)
  | spec_stop l b : spec_step max (l, b) Stop (l, true).

Inductive spec_steps (max : Z) (s : list T * bool) : list label → list T * bool → Prop :=
  | spec_nil : spec_steps max s [] s
  | spec_snoc tr s1 l s2 :
      spec_steps max s tr s1 → spec_step max s1 l s2 → spec_steps max s (tr ++ [l]) s2.

End Queue.
Arguments thread : clear implicits.
Arguments label : clear implicits.
Arguments qsys : clear implicits.

(** ** Counting threads *)

Section Counting.
Context {T : Type}.
Implicit Types (ts : list (thread T)) (f : thread T → bool).

Definition one (b : bool) : Z := if b then 1 else 0.

Definition cnt f ts : Z := foldr (λ t n, one (f t) + n) 0 ts.

Lemma cnt_nonneg f ts : 0 ≤ cnt f ts.
Proof. induction ts as [|t ts IH]; simpl; [lia|]. unfold one. destruct (f t); lia. Qed.

Lemma cnt_insert f ts i t t' :
  ts !! i = Some t → cnt f (<[i := t']> ts) = cnt f ts - one (f t) + one (f t').
Proof.
  revert i. induction ts as [|u ts IH]; intros [|i]; simpl; [done..| |].
  - intros [= ->]. lia.
  - intros H. rewrite (IH _ H). lia.
Qed.

Lemma cnt_moves f ts i t t' ts' :
  moves ts i t t' ts' → cnt f ts' = cnt f ts - one (f t) + one (f t').
Proof. intros [H ->]. by apply cnt_insert. Qed.

Lemma cnt_pos f ts i t : ts !! i = Some t → f t = true → 1 ≤ cnt f ts.
Proof.
  revert i. induction ts as [|u ts IH]; intros [|i]; simpl; [done..| |].
  - intros [= ->] ->. pose proof (cnt_nonneg f ts). simpl. lia.
  - intros H1 H2. pose proof (IH _ H1 H2). unfold one. destruct (f u); lia.
Qed.

Lemma cnt_none f ts : (∀ t, t ∈ ts → f t = false) → cnt f ts = 0.
Proof.
  induction ts as [|u ts IH]; intros H; simpl; [done|].
  rewrite (H u) by left. rewrite IH; [done|]. intros t Ht. apply H. by right.
Qed.

Lemma cnt_map f (g : thread T → thread T) ts : cnt f (map g ts) = cnt (f ∘ g) ts.
Proof. induction ts as [|u ts IH]; simpl; [done|]. by rewrite IH. Qed.

Lemma cnt_ext f f' ts : (∀ t, f t = f' t) → cnt f ts = cnt f' ts.
Proof. intros H. induction ts as [|u ts IH]; simpl; [done|]. by rewrite IH, H. Qed.

Lemma cnt_add f f' f'' ts :
  (∀ t, one (f t) = one (f' t) + one (f'' t)) → cnt f ts = cnt f' ts + cnt f'' ts.
Proof. intros H. induction ts as [|u ts IH]; simpl; [done|]. rewrite IH, H. lia. Qed.

Lemma cnt_replicate f n : f Idle = false → cnt f (replicate n Idle) = 0.
Proof. intros H. apply cnt_none. intros t Ht. by apply elem_of_replicate in Ht as [-> _]. Qed.

(** What [notify_one] on either condition variable does to the counts. *)
Lemma notify_deq_cnt ts ts' :
  notify_one is_deq_sleeps wake_deq ts ts' →
  (cnt is_deq_sleeps ts = 0 ∧ ts' = ts) ∨
  (cnt is_deq_sleeps ts' = cnt is_deq_sleeps ts - 1 ∧
   ∀ f, f DeqSleeps = false →
     cnt f ts' = cnt f ts + one (f Dequeuing)).
Proof.
  destruct 1 as [ts j t H Ht|ts H]; [right|left; split; [by apply cnt_none|done]].
  destruct t; try done. split; [|intros f Hf]; rewrite (cnt_insert _ _ _ _ _ H); simpl; [lia|].
  rewrite Hf. simpl. lia.
Qed.

Lemma notify_add_cnt ts ts' :
  notify_one is_add_sleeps wake_add ts ts' →
  (cnt is_add_sleeps ts = 0 ∧ ts' = ts) ∨
  (cnt is_add_sleeps ts' = cnt is_add_sleeps ts - 1 ∧
   ∀ f, (∀ v, f (AddSleeps v) = false) → (∀ v w, f (Adding v) = f (Adding w)) →
     ∃ v, cnt f ts' = cnt f ts + one (f (Adding v))).
Proof.
  destruct 1 as [ts j t H Ht|ts H]; [right|left; split; [by apply cnt_none|done]].
  destruct t as [| |v| | | | | | |]; try done.
  split; [|intros f Hf Hw; exists v]; rewrite (cnt_insert _ _ _ _ _ H); simpl; [lia|].
  rewrite Hf. simpl. lia.
Qed.
End Counting.

(** ** The invariant *)

Section Invariant.
Context {T : Type}.
Implicit Types (s : qsys T).

(** While the queue runs, the items are covered by threads about to take or to
    wake a taker, unless nobody sleeps; likewise the free places.  Once it is
    stopped, a wake-up of all sleepers is still to come. *)
Definition covered (s : qsys T) : Prop :=
  let q := sys_queue s in
  let n f := cnt f (sys_threads s) in
  if m_stop q then
    (n is_deq_sleeps = 0 ∨ 1 ≤ n is_stop_notifies_empty) ∧
    (n is_add_sleeps = 0 ∨ 1 ≤ n is_stop_notifies)
  else
    (n is_deq_sleeps = 0 ∨ zlen (m_queue q) ≤ n is_dequeuing + n is_add_notifies) ∧
    (n is_add_sleeps = 0 ∨ m_maxsize q - zlen (m_queue q) ≤ n is_adding + n is_deq_notifies).

Lemma add_locked_enters v (q q' : Queue T) :
  add_locked v q = Enters q' →
  m_stop q = false ∧ zlen (m_queue q) < m_maxsize q ∧ m_queue q' = m_queue q ++ [v] ∧
  m_maxsize q' = m_maxsize q ∧ m_stop q' = false.
Proof.
  unfold add_locked, notfull. destruct (m_stop q); [by rewrite orb_true_r|].
  rewrite orb_false_r. destruct (Z.ltb_spec (zlen (m_queue q)) (m_maxsize q)); [|done].
  by intros [= <-].
Qed.

Lemma add_locked_blocks v (q : Queue T) :
  add_locked v q = Blocks → m_stop q = false ∧ m_maxsize q ≤ zlen (m_queue q).
Proof.
  unfold add_locked, notfull. destruct (m_stop q); [by rewrite orb_true_r|].
  rewrite orb_false_r. by destruct (Z.ltb_spec (zlen (m_queue q)) (m_maxsize q)).
Qed.

Lemma add_locked_leaves v (q : Queue T) : add_locked v q = Leaves → m_stop q = true.
Proof.
  unfold add_locked. destruct (m_stop q); [done|]. by destruct (notfull q).
Qed.

Lemma dequeue_locked_enters v (q q' : Queue T) :
  dequeue_locked q = Enters (v, q') →
  m_stop q = false ∧ m_queue q = v :: m_queue q' ∧ m_maxsize q' = m_maxsize q ∧
  m_stop q' = false.
Proof.
  unfold dequeue_locked. destruct (m_stop q); [by rewrite orb_true_r|].
  destruct (notempty q); [|done]. simpl. destruct (m_queue q); [done|]. by intros [= <- <-].
Qed.

Lemma dequeue_locked_blocks (q : Queue T) :
  dequeue_locked q = Blocks → m_stop q = false ∧ m_queue q = [].
Proof.
  unfold dequeue_locked, notempty. destruct (m_stop q); [by rewrite orb_true_r|].
  by destruct (m_queue q).
Qed.

Lemma dequeue_locked_leaves (q : Queue T) : dequeue_locked q = Leaves → m_stop q = true.
Proof.
  unfold dequeue_locked. destruct (m_stop q); [done|].
  destruct (notempty q); [|done]. simpl. by destruct (m_queue q).
Qed.

End Invariant.

(** Adds what a thread's move does to every count of [covered]. *)
Tactic Notation "count_move" hyp(H) uconstr(f) :=
  pose proof (cnt_moves f _ _ _ _ _ H);
  match type of H with moves ?ts _ _ _ ?ts' => pose proof (cnt_nonneg f ts); pose proof (cnt_nonneg f ts') end.
Ltac count_moves H :=
  count_move H is_deq_sleeps; count_move H is_add_sleeps;
  count_move H is_dequeuing; count_move H is_adding;
  count_move H is_add_notifies; count_move H is_deq_notifies;
  count_move H is_stop_notifies; count_move H is_stop_notifies_empty; simpl in *.

Section InvariantSteps.
Context {T : Type}.
Implicit Types (s : qsys T) (ts : list (thread T)).

Lemma covered_notify_deq (q : Queue T) ts i ts' ts'' :
  moves ts i AddNotifies Idle ts' → notify_one is_deq_sleeps wake_deq ts' ts'' →
  covered (mkSys q ts) → covered (mkSys q ts'').
Proof.
  intros Hm Hn Hc. count_moves Hm. pose proof (cnt_nonneg is_deq_sleeps ts'').
  apply notify_deq_cnt in Hn as [[Hz ->]|[Hs Ho]]; unfold covered in *; simpl in *;
    [destruct (m_stop q); lia|].
  rewrite Hs, !Ho by done. simpl. destruct (m_stop q); lia.
Qed.

Lemma covered_notify_add (q : Queue T) ts i ts' ts'' :
  moves ts i DeqNotifies Idle ts' → notify_one is_add_sleeps wake_add ts' ts'' →
  covered (mkSys q ts) → covered (mkSys q ts'').
Proof.
  intros Hm Hn Hc. count_moves Hm. pose proof (cnt_nonneg is_add_sleeps ts'').
  apply notify_add_cnt in Hn as [[Hz ->]|[Hs Ho]]; unfold covered in *; simpl in *;
    [destruct (m_stop q); lia|].
  destruct (Ho is_deq_sleeps) as [? ->]; [done..|].
  destruct (Ho is_dequeuing) as [? ->]; [done..|].
  destruct (Ho is_add_notifies) as [? ->]; [done..|].
  destruct (Ho is_adding) as [? ->]; [done..|].
  destruct (Ho is_deq_notifies) as [? ->]; [done..|].
  destruct (Ho is_stop_notifies) as [? ->]; [done..|].
  destruct (Ho is_stop_notifies_empty) as [? ->]; [done..|].
  rewrite Hs. simpl. destruct (m_stop q); lia.
Qed.

(** [notify_all] leaves no sleeper and moves nobody else. *)
Lemma cnt_wake_deq ts :
  cnt is_deq_sleeps (map wake_deq ts) = 0 ∧
  cnt is_dequeuing (map wake_deq ts) = cnt is_dequeuing ts + cnt is_deq_sleeps ts ∧
  ∀ f, f Dequeuing = f DeqSleeps → cnt f (map wake_deq ts) = cnt f ts.
Proof.
  rewrite !cnt_map. split; [|split].
  - rewrite (cnt_ext _ (λ _, false)); [by apply cnt_none|by intros []].
  - apply cnt_add. by intros [].
  - intros f Hf. rewrite cnt_map. apply cnt_ext. by intros [].
Qed.

Lemma cnt_wake_add ts :
  cnt is_add_sleeps (map wake_add ts) = 0 ∧
  cnt is_adding (map wake_add ts) = cnt is_adding ts + cnt is_add_sleeps ts ∧
  ∀ f, (∀ v, f (Adding v) = f (AddSleeps v)) → cnt f (map wake_add ts) = cnt f ts.
Proof.
  rewrite !cnt_map. split; [|split].
  - rewrite (cnt_ext _ (λ _, false)); [by apply cnt_none|by intros []].
  - apply cnt_add. by intros [].
  - intros f Hf. rewrite cnt_map. apply cnt_ext. intros []; simpl; auto.
Qed.

(** Only a thread in [stop] announces a stop. *)
Lemma covered_wake_deq (q : Queue T) ts i ts' :
  moves ts i StopNotifiesEmpty StopNotifiesFull ts' →
  covered (mkSys q ts) → covered (mkSys q (map wake_deq ts')).
Proof.
  intros Hm Hc. count_moves Hm. destruct (cnt_wake_deq ts') as (E1 & E2 & E3).
  pose proof (cnt_nonneg is_deq_sleeps ts).
  unfold covered in *; simpl in *. rewrite E1, E2, !E3 by done. destruct (m_stop q); lia.
Qed.

Lemma covered_wake_add (q : Queue T) ts i ts' :
  moves ts i StopNotifiesFull Idle ts' →
  covered (mkSys q ts) → covered (mkSys q (map wake_add ts')).
Proof.
  intros Hm Hc. count_moves Hm. destruct (cnt_wake_add ts') as (E1 & E2 & E3).
  pose proof (cnt_nonneg is_add_sleeps ts).
  unfold covered in *; simpl in *. rewrite E1, E2, !E3 by done. destruct (m_stop q); lia.
Qed.

Lemma covered_enters_add (q q' : Queue T) ts i v ts' :
  add_locked v q = Enters q' → moves ts i (Adding v) AddNotifies ts' →
  covered (mkSys q ts) → covered (mkSys q' ts').
Proof.
  intros E Hm Hc. count_moves Hm. apply add_locked_enters in E as (E1 & _ & E3 & E4 & E5).
  unfold covered in *; simpl in *. rewrite E1 in Hc.
  rewrite E5, E3, E4, zlen_app. change (zlen [v]) with 1. lia.
Qed.

Lemma covered_enters_deq (q q' : Queue T) ts i v ts' :
  dequeue_locked q = Enters (v, q') → moves ts i Dequeuing DeqNotifies ts' →
  covered (mkSys q ts) → covered (mkSys q' ts').
Proof.
  intros E Hm Hc. count_moves Hm. apply dequeue_locked_enters in E as (E1 & E2 & E3 & E4).
  unfold covered in *; simpl in *. rewrite E1, E2, zlen_cons in Hc. rewrite E4, E3. lia.
Qed.

Lemma covered_step s l s' : qstep s l s' → covered s → covered s'.
Proof.
  destruct 1 as
    [q ts i v ts' Hm|q ts i ts' Hm|q ts i ts' Hm|q ts i v ts' E Hm|q ts i v ts' E Hm
    |q q' ts i v ts' E Hm|q ts i ts' ts'' Hm Hn|q ts i ts' E Hm|q ts i ts' E Hm
    |q q' ts i v ts' E Hm|q ts i ts' ts'' Hm Hn|q ts i ts' Hm|q ts i ts' Hm|q ts i ts' Hm
    |q ts i ts' Hm|q ts i v ts' Hm];
    eauto using covered_notify_deq, covered_notify_add, covered_wake_deq, covered_wake_add,
      covered_enters_add, covered_enters_deq;
    count_moves Hm; unfold covered; simpl.
  all: try (apply add_locked_blocks in E as [E E']); try (apply add_locked_leaves in E);
    try (apply dequeue_locked_blocks in E as [E E']); try (apply dequeue_locked_leaves in E).
  all: try rewrite E; try rewrite E'; try destruct (m_stop q); intros;
    try change (zlen (@nil T)) with 0 in *; lia.
Qed.
End InvariantSteps.

(** ** Refinement of the abstract queue *)

Section Refinement.
Context {T : Type}.
Implicit Types (s : qsys T) (tr l : list (label T)).

Definition queue_abs s : list T * bool := (m_queue (sys_queue s), m_stop (sys_queue s)).

Lemma covered_init max n : covered (qinit (T := T) max n).
Proof. unfold covered; simpl. rewrite !cnt_replicate by done. auto. Qed.

Lemma covered_reachable max n tr s : qsteps (qinit max n) tr s → covered s.
Proof. induction 1; eauto using covered_init, covered_step. Qed.

(** Every step is silent or one step of the abstract queue. *)
Lemma qstep_spec s l s' :
  qstep s l s' →
  m_maxsize (sys_queue s') = m_maxsize (sys_queue s) ∧
  ((l = [] ∧ queue_abs s' = queue_abs s) ∨
   ∃ e, l = [e] ∧ spec_step (m_maxsize (sys_queue s)) (queue_abs s) e (queue_abs s')).
Proof.
  destruct 1 as
    [ | | |?|q ts i v ts' E Hm|q q' ts i v ts' E Hm|? ? ? ? ? ? Hn|?|q ts i ts' E Hm
    |q q' ts i v ts' E Hm|? ? ? ? ? ? Hn|q ts i ts' Hm| | | |]; simpl; try by (split; [done|by left]).
  - split; [done|]. right. eexists; split; [done|]. unfold queue_abs; simpl.
    rewrite (add_locked_leaves _ _ E). constructor.
  - apply add_locked_enters in E as (E1 & E2 & E3 & E4 & E5). split; [done|]. right.
    eexists; split; [done|]. unfold queue_abs; simpl. rewrite E1, E3, E5. by constructor.
  - split; [done|]. right. eexists; split; [done|]. unfold queue_abs; simpl.
    rewrite (dequeue_locked_leaves _ E). constructor.
  - apply dequeue_locked_enters in E as (E1 & E2 & E3 & E4). split; [done|]. right.
    eexists; split; [done|]. unfold queue_abs; simpl. rewrite E1, E2, E4. by constructor.
  - split; [done|]. right. eexists; split; [done|]. unfold queue_abs; simpl. constructor.
Qed.

Lemma qsteps_spec max n tr s :
  qsteps (qinit max n) tr s →
  m_maxsize (sys_queue s) = max ∧ spec_steps max ([], false) tr (queue_abs s).
Proof.
  induction 1 as [|tr s1 l s2 _ [IH1 IH2] Hs]; [split; [done|constructor]|].
  apply qstep_spec in Hs as [E [[-> Ea]|(e & -> & Hst)]]; split; try congruence.
  - rewrite app_nil_r. by rewrite Ea.
  - rewrite IH1 in Hst. by econstructor.
Qed.

Lemma puts_of_app tr l : puts_of (tr ++ l) = puts_of tr ++ puts_of l.
Proof. apply omap_app. Qed.
Lemma takes_of_app tr l : takes_of (tr ++ l) = takes_of tr ++ takes_of l.
Proof. apply omap_app. Qed.

(** The abstract queue is a bounded FIFO. *)
Lemma spec_fifo max tr q :
  0 ≤ max → spec_steps max ([], false) tr q →
  takes_of tr ++ q.1 = puts_of tr ∧ zlen q.1 ≤ max.
Proof.
  intros H0. induction 1 as [|tr q l q' _ [IH1 IH2] Hs]; [done|].
  rewrite puts_of_app, takes_of_app, <- IH1.
  destruct Hs; cbn -[zlen] in *; rewrite ?app_nil_r, ?zlen_app, ?zlen_cons in *.
  - split; [by rewrite app_assoc|]. change (zlen (@nil T)) with 0. lia.
  - split; [by rewrite <- app_assoc|]. lia.
  - done.
  - done.
  - done.
Qed.
End Refinement.

(** ** Properties *)

(** C18: under every interleaving of any number of threads, the calls of the
    queue, in the order in which they held the lock, are an execution of the
    abstract bounded queue; so what has been taken, followed by the contents, is
    what has been put, in order, and the bound is kept. *)
Theorem queue_refines_fifo {T} (max : Z) (n : nat) (tr : list (label T)) (s : qsys T) :
  0 ≤ max → qsteps (qinit max n) tr s →
  spec_steps max ([], false) tr (m_queue (sys_queue s), m_stop (sys_queue s)) ∧
  takes_of tr ++ m_queue (sys_queue s) = puts_of tr ∧
  zlen (m_queue (sys_queue s)) ≤ max.
Proof.
  intros H0 Hs. apply qsteps_spec in Hs as [_ Hs]. split; [done|].
  exact (spec_fifo _ _ _ H0 Hs).
Qed.

(** One thread adds two values, another takes one. *)
Definition sample_run_end : qsys nat := mkSys (mkQueue [8]%nat 2 false) [AddNotifies; DeqNotifies].

Lemma sample_run :
  qsteps (qinit 2 2) [Put 7; Put 8; Took 7]%nat sample_run_end.
Proof.
  change [Put 7; Put 8; Took 7]%nat with
    ((((((([] ++ []) ++ [Put 7]) ++ []) ++ []) ++ [Put 8]) ++ []) ++ [Took 7])%nat.
  apply (qsteps_snoc _ _ (mkSys (mkQueue [7; 8]%nat 2 false) [AddNotifies; Dequeuing]));
    [|by eapply (deq_enters _ _ _ 1)].
  apply (qsteps_snoc _ _ (mkSys (mkQueue [7; 8]%nat 2 false) [AddNotifies; Idle]));
    [|by eapply (call_dequeue _ _ 1)].
  apply (qsteps_snoc _ _ (mkSys (mkQueue [7]%nat 2 false) [Adding 8%nat; Idle]));
    [|by eapply (add_enters _ _ _ 0)].
  apply (qsteps_snoc _ _ (mkSys (mkQueue [7]%nat 2 false) [Idle; Idle]));
    [|by eapply (call_add _ _ 0)].
  apply (qsteps_snoc _ _ (mkSys (mkQueue [7]%nat 2 false) [AddNotifies; Idle])).
  - apply (qsteps_snoc _ _ (mkSys (mkQueue [] 2 false) [Adding 7%nat; Idle]));
      [|by eapply (add_enters _ _ _ 0)].
    apply (qsteps_snoc _ _ (qinit 2 2)); [constructor|by eapply (call_add _ _ 0)].
  - eapply (add_notifies _ _ 0); [by split|]. apply notify_nobody.
    intros t Ht. by repeat (apply elem_of_cons in Ht as [->|Ht]; [done|]); apply elem_of_nil in Ht.
Qed.

Lemma queue_refines_fifo_witness :
  spec_steps 2 ([], false) [Put 7; Put 8; Took 7]%nat ([8]%nat, false) ∧
  takes_of [Put 7; Put 8; Took 7]%nat ++ [8]%nat = puts_of [Put 7; Put 8; Took 7]%nat ∧
  zlen [8]%nat ≤ 2.
Proof. apply (queue_refines_fifo 2 2 _ sample_run_end); [lia|apply sample_run]. Defined.

(** C19: no wake-up is lost.  When every thread is outside the calls or asleep,
    nobody sleeps on a stopped queue, a sleeping taker means the queue is
    empty, a sleeping adder that it is full, and they never sleep together. *)
Theorem queue_no_lost_wakeup {T} (max : Z) (n : nat) (tr : list (label T)) (s : qsys T) :
  0 < max → qsteps (qinit max n) tr s →
  (∀ t, t ∈ sys_threads s → t = Idle ∨ t = DeqSleeps ∨ ∃ v, t = AddSleeps v) →
  (m_stop (sys_queue s) = true → ∀ t, t ∈ sys_threads s → t = Idle) ∧
  (m_stop (sys_queue s) = false →
    (DeqSleeps ∈ sys_threads s → m_queue (sys_queue s) = []) ∧
    (∀ v, AddSleeps v ∈ sys_threads s → zlen (m_queue (sys_queue s)) = max) ∧
    (∀ v, ¬ (DeqSleeps ∈ sys_threads s ∧ AddSleeps v ∈ sys_threads s))).
Proof.
  intros H0 Hs Hq. pose proof (covered_reachable _ _ _ _ Hs) as Hc.
  apply qsteps_spec in Hs as [Hmax Hs]. apply spec_fifo in Hs as [_ Hle]; [|lia].
  assert (Hz : ∀ f, f Idle = false → f DeqSleeps = false → (∀ v, f (AddSleeps v) = false) →
             cnt f (sys_threads s) = 0).
  { intros f F1 F2 F3. apply cnt_none. intros t Ht. by destruct (Hq t Ht) as [-> | [-> | [v ->]]]. }
  assert (Hd : DeqSleeps ∈ sys_threads s → 1 ≤ cnt is_deq_sleeps (sys_threads s)).
  { intros [i Hi]%list_elem_of_lookup. by eapply cnt_pos. }
  assert (Ha : ∀ v, AddSleeps v ∈ sys_threads s → 1 ≤ cnt is_add_sleeps (sys_threads s)).
  { intros v [i Hi]%list_elem_of_lookup. by eapply cnt_pos. }
  unfold covered in Hc. simpl in Hle.
  rewrite (Hz is_stop_notifies_empty), (Hz is_stop_notifies), (Hz is_dequeuing),
    (Hz is_add_notifies), (Hz is_adding), (Hz is_deq_notifies) in Hc by done.
  split; intros Est; rewrite Est in Hc.
  - intros t Ht. destruct (Hq t Ht) as [-> | [-> | [v ->]]]; [done|specialize (Hd Ht)|specialize (Ha v Ht)]; lia.
  - assert (Hd' : DeqSleeps ∈ sys_threads s → m_queue (sys_queue s) = []).
    { intros H. specialize (Hd H). apply zlen_0_inv. pose proof (zlen_nonneg (m_queue (sys_queue s))). lia. }
    assert (Ha' : ∀ v, AddSleeps v ∈ sys_threads s → zlen (m_queue (sys_queue s)) = max).
    { intros v H. specialize (Ha v H). lia. }
    split; [done|]. split; [done|]. intros v [H1 H2].
    specialize (Ha' v H2). rewrite (Hd' H1) in Ha'. change (zlen (@nil T)) with 0 in Ha'. lia.
Qed.

Lemma queue_no_lost_wakeup_witness :
  let s : qsys nat := mkSys (Queue_make 1) [Idle; DeqSleeps] in
  (m_stop (sys_queue s) = true → ∀ t, t ∈ sys_threads s → t = Idle) ∧
  (m_stop (sys_queue s) = false →
    (DeqSleeps ∈ sys_threads s → m_queue (sys_queue s) = []) ∧
    (∀ v, AddSleeps v ∈ sys_threads s → zlen (m_queue (sys_queue s)) = 1) ∧
    (∀ v, ¬ (DeqSleeps ∈ sys_threads s ∧ AddSleeps v ∈ sys_threads s))).
Proof.
  apply (queue_no_lost_wakeup 1 2 (([] ++ []) ++ [])); [lia| |].
  - apply (qsteps_snoc _ _ (mkSys (Queue_make 1) [Idle; Dequeuing])); [|by eapply (deq_blocks _ _ 1)].
    apply (qsteps_snoc _ _ (qinit 1 2)); [constructor|by eapply (call_dequeue _ _ 1)].
  - simpl. intros t Ht. apply elem_of_cons in Ht as [->|Ht]; [by left|].
    apply elem_of_cons in Ht as [->|Ht]; [by right; left|by apply elem_of_nil in Ht].
Defined.
