(* ===== verification/ThreadPool.v ===== *)
(** * The thread pool (util/threadpool.h, util/threadpool.cpp)

    One queue and one worker thread per index.  A call of the queue is one
    atomic step here, as Queue.v justifies: it enters, leaves because the queue
    is stopped, or blocks, and then the step is not enabled.  [stop] is a state
    machine of its own, interleaved with the workers and with other threads
    adding tasks. *)

From Stdlib Require Import ZArith Lia.
From stdpp Require Import base list numbers.
From S2P Require Import Prelude.
From S2P Require Import Queue.

(** [std::function<void()>]: empty, or a task to call. *)
Abbreviation Task := option (only parsing).

Inductive worker (A : Type) :=
  | Testing           (** at the head of [while(m_running)] *)
  | Waiting           (** in [dequeue], with an empty task *)
  | Running (a : A)   (** in [task()] *)
  | Exited.
Arguments Testing {A}.
Arguments Waiting {A}.
Arguments Running {A} a.
Arguments Exited {A}.

(** How far the only run of [stop_threadpool] has got. *)
Inductive stop_progress :=
  | NotStopped
  | StopsQueue (i : nat)
  | Joins (i : nat)
  | Joined.

Record ThreadPool (A : Type) := mkThreadPool {
  m_queues : list (Queue (Task A));
  m_workers : list (worker A);
  m_thread_nums : Z;
  m_running : bool;
  m_flag : stop_progress
}.
Arguments mkThreadPool {A} _ _ _ _ _.
Arguments m_queues {A} _.
Arguments m_workers {A} _.
Arguments m_thread_nums {A} _.
Arguments m_running {A} _.
Arguments m_flag {A} _.

Section ThreadPool.
Context {A : Type}.
Implicit Types (p : ThreadPool A) (q : Queue (Task A)) (a : A) (task : Task A).

Definition ThreadPool_make (thread_nums queue_size : Z) : ThreadPool A :=
  mkThreadPool (replicate (Z.to_nat thread_nums) (Queue_make queue_size))
    (replicate (Z.to_nat thread_nums) Testing) thread_nums true NotStopped.

(** ** Adding a task *)

(** The queue a task goes to.  [u] is the bound of the thread's distribution,
    set by its first use, [draw] the random engine. *)
Definition add_target (draw : Z → Z) (u : option Z) (thread_nums index : Z) : Z * option Z :=
  if (index <? 0) || (index >=? thread_nums) then
    let bound := default (u32 (u64 (thread_nums - 1))) u in
    (draw bound, Some bound)
  else (index, u).

(** [add_task(task, index)]: [enqueue] into the chosen queue. *)
Definition add_task (draw : Z → Z) (u : option Z) (task : Task A) (index : Z) p :
    result (attempt (ThreadPool A) * option Z) :=
  let '(pos, u') := add_target draw u (m_thread_nums p) index in
  match m_queues p !! Z.to_nat pos with
  | None => Fault OutOfBounds
  | Some q =>
      Ok (match add_locked task q with
          | Blocks => Blocks
          | Leaves => Leaves
          | Enters q' =>
              Enters (mkThreadPool (<[Z.to_nat pos := q']> (m_queues p)) (m_workers p)
                        (m_thread_nums p) (m_running p) (m_flag p))
          end, u')
  end.

(** ** Workers *)

Definition set_worker (i : nat) (w : worker A) p : ThreadPool A :=
  mkThreadPool (m_queues p) (<[i := w]> (m_workers p)) (m_thread_nums p) (m_running p) (m_flag p).
Definition set_queue (i : nat) q p : ThreadPool A :=
  mkThreadPool (<[i := q]> (m_queues p)) (m_workers p) (m_thread_nums p) (m_running p) (m_flag p).
Definition set_flag (f : stop_progress) p : ThreadPool A :=
  mkThreadPool (m_queues p) (m_workers p) (m_thread_nums p) (m_running p) f.

(** One step of the loop of worker [i]: the task it begins, if any, and the
    pool; [None] when it blocks in [dequeue] or has left the loop. *)
Definition worker_step (i : nat) p : option (option A * ThreadPool A) :=
  w ← m_workers p !! i;
  q ← m_queues p !! i;
  match w with
  | Testing => Some (None, set_worker i (if m_running p then Waiting else Exited) p)
  | Waiting =>
      match dequeue_locked q with
      | Blocks => None
      | Leaves => Some (None, set_worker i Testing p)
      | Enters (Some a, q') => Some (Some a, set_worker i (Running a) (set_queue i q' p))
      | Enters (None, q') => Some (None, set_worker i Testing (set_queue i q' p))
      end
  | Running a => Some (None, set_worker i Testing p)
  | Exited => None
  end.

(** ** Stopping *)

(** The next step of [stop_threadpool]; [join] waits for the worker. *)
Definition stop_step p : option (ThreadPool A) :=
  match m_flag p with
  | NotStopped | Joined => None
  | StopsQueue i =>
      match m_queues p !! i with
      | Some q => Some (set_flag (StopsQueue (S i)) (set_queue i (stop_locked q) p))
      | None => Some (mkThreadPool (m_queues p) (m_workers p) (m_thread_nums p) false (Joins 0))
      end
  | Joins i =>
      match m_workers p !! i with
      | Some Exited => Some (set_flag (Joins (S i)) p)
      | Some _ => None
      | None => Some (set_flag Joined p)
      end
  end.

(** [stop] runs [stop_threadpool] once. *)
Definition pool_stop p : ThreadPool A :=
  match m_flag p with NotStopped => set_flag (StopsQueue 0) p | _ => p end.

(** ** Executions *)

Inductive pool_event :=
  | Added (i : nat) (task : Task A)
  | Began (i : nat) (a : A).

Inductive internal_step p : list pool_event → ThreadPool A → Prop :=
  | by_worker i o p' :
      worker_step i p = Some (o, p') →
      internal_step p (match o with Some a => [Began i a] | None => [] end) p'
  | by_stopper p' : stop_step p = Some p' → internal_step p [] p'.

Inductive tpstep p : list pool_event → ThreadPool A → Prop :=
  | step_internal tr p' : internal_step p tr p' → tpstep p tr p'
  | step_add draw u task index pos u' u'' p' :
      add_target draw u (m_thread_nums p) index = (pos, u') →
      add_task draw u task index p = Ok (Enters p', u'') →
      tpstep p [Added (Z.to_nat pos) task] p'
  | step_stop : tpstep p [] (pool_stop p).

Inductive tpsteps p : list pool_event → ThreadPool A → Prop :=
  | tpsteps_nil : tpsteps p [] p
  | tpsteps_snoc tr p1 l p2 : tpsteps p tr p1 → tpstep p1 l p2 → tpsteps p (tr ++ l) p2.

(** The non-empty tasks a trace adds to queue [i], and those its worker begins. *)
Definition added_to (i : nat) (tr : list pool_event) : list A :=
  omap (λ e, match e with
             | Added j task => if decide (i = j) then task else None
             | Began _ _ => None
             end) tr.
Definition began_by (i : nat) (tr : list pool_event) : list A :=
  omap (λ e, match e with
             | Began j a => if decide (i = j) then Some a else None
             | Added _ _ => None
             end) tr.
Definition queued (i : nat) p : list A :=
  match m_queues p !! i with Some q => omap id (m_queue q) | None => [] end.

End ThreadPool.
Arguments pool_event : clear implicits.

(** ** The order of the tasks *)

Section Order.
Context {A : Type}.
Implicit Types (p : ThreadPool A) (q : Queue (Task A)).

Lemma began_by_app i (tr l : list (pool_event A)) : began_by i (tr ++ l) = began_by i tr ++ began_by i l.
Proof. apply omap_app. Qed.
Lemma added_to_app i (tr l : list (pool_event A)) : added_to i (tr ++ l) = added_to i tr ++ added_to i l.
Proof. apply omap_app. Qed.

Lemma queued_set_queue i j q' p :
  is_Some (m_queues p !! j) →
  queued i (set_queue j q' p) = if decide (i = j) then omap id (m_queue q') else queued i p.
Proof.
  intros Hj. unfold queued, set_queue; simpl. destruct (decide (i = j)) as [->|Hne].
  - rewrite list_lookup_insert_eq; [done|]. by apply lookup_lt_is_Some.
  - by rewrite list_lookup_insert_ne by auto.
Qed.

Lemma queued_lookup i q p : m_queues p !! i = Some q → queued i p = omap id (m_queue q).
Proof. intros H. unfold queued. by rewrite H. Qed.

(** What leaves a queue is begun, what enters it is added, both at the right
    end. *)
Definition keeps_order p (l : list (pool_event A)) p' : Prop :=
  ∀ i, began_by i l ++ queued i p' = queued i p ++ added_to i l.

Lemma keeps_order_silent p p' : (∀ i, queued i p' = queued i p) → keeps_order p [] p'.
Proof. intros H i. simpl. by rewrite H, app_nil_r. Qed.

Lemma queued_same_contents j q q' p :
  m_queues p !! j = Some q → omap id (m_queue q') = omap id (m_queue q) →
  ∀ i, queued i (set_queue j q' p) = queued i p.
Proof.
  intros Hq H i. rewrite queued_set_queue by eauto. destruct (decide (i = j)) as [->|]; [|done].
  by rewrite (queued_lookup _ _ _ Hq).
Qed.

Lemma worker_step_order j o p p' :
  worker_step j p = Some (o, p') →
  keeps_order p (match o with Some a => [Began j a] | None => [] end) p'.
Proof.
  unfold worker_step. destruct (m_workers p !! j) as [w|]; [simpl|done].
  destruct (m_queues p !! j) as [q|] eqn:Eq; [simpl|done].
  destruct w as [| |a|]; [by intros [= <- <-]; apply keeps_order_silent| |
                          by intros [= <- <-]; apply keeps_order_silent|done].
  destruct (dequeue_locked q) as [| |[[a|] q']] eqn:Ed; [done|..]; intros [= <- <-].
  - by apply keeps_order_silent.
  - apply dequeue_locked_enters in Ed as (_ & E & _). intros i. simpl.
    change (queued i (set_worker j (Running a) (set_queue j q' p))) with (queued i (set_queue j q' p)).
    rewrite queued_set_queue by eauto. rewrite app_nil_r.
    destruct (decide (i = j)) as [->|]; [|done]. by rewrite (queued_lookup _ _ _ Eq), E.
  - apply keeps_order_silent. apply dequeue_locked_enters in Ed as (_ & E & _).
    intros i. exact (queued_same_contents j q q' p Eq ltac:(by rewrite E) i).
Qed.

Lemma stop_step_order p p' : stop_step p = Some p' → keeps_order p [] p'.
Proof.
  unfold stop_step. intros H. apply keeps_order_silent.
  destruct (m_flag p) as [|j|j|]; [done| | |done].
  - destruct (m_queues p !! j) as [q|] eqn:Eq; injection H as <-; [|done].
    by apply (queued_same_contents j q).
  - destruct (m_workers p !! j) as [[]|]; try done; by injection H as <-.
Qed.

Lemma tpstep_order p l p' : tpstep p l p' → keeps_order p l p'.
Proof.
  destruct 1 as [tr p' [j o p'' H|p'' H]|draw u task index pos u' u'' p' Ht H|].
  - by apply worker_step_order.
  - by apply stop_step_order.
  - unfold add_task in H. rewrite Ht in H. set (j := Z.to_nat pos) in *.
    destruct (m_queues p !! j) as [q|] eqn:Eq; [|done].
    destruct (add_locked task q) as [| |q'] eqn:Ea; try done. injection H as <- _.
    apply add_locked_enters in Ea as (_ & _ & E & _). intros i. simpl.
    change (queued i _) with (queued i (set_queue j q' p)) at 1.
    rewrite queued_set_queue by eauto. destruct (decide (i = j)) as [->|]; simpl.
    + rewrite E, omap_app, (queued_lookup _ _ _ Eq). simpl. by destruct task.
    + by rewrite app_nil_r.
  - apply keeps_order_silent. intros i. unfold pool_stop. by destruct (m_flag p).
Qed.
End Order.

(** ** Stopping ends *)

Section Stopping.
Context {A : Type}.
Implicit Types (p : ThreadPool A) (q : Queue (Task A)).

(** What each phase of [stop_threadpool] has achieved. *)
Definition stopped_below p (n : nat) : Prop :=
  ∀ i q, (i < n)%nat → m_queues p !! i = Some q → m_stop q = true.

Definition stop_inv p : Prop :=
  length (m_queues p) = length (m_workers p) ∧
  match m_flag p with
  | NotStopped => True
  | StopsQueue i => stopped_below p i
  | Joins i =>
      m_running p = false ∧ stopped_below p (length (m_queues p)) ∧
      ∀ j w, (j < i)%nat → m_workers p !! j = Some w → w = Exited
  | Joined =>
      m_running p = false ∧ stopped_below p (length (m_queues p)) ∧
      ∀ j w, m_workers p !! j = Some w → w = Exited
  end.

Lemma stopped_below_insert p i q' n :
  (∀ q, m_queues p !! i = Some q → m_stop q = true → m_stop q' = true) →
  stopped_below p n → stopped_below (set_queue i q' p) n.
Proof.
  intros Hq Hs j q Hj. unfold set_queue; simpl. rewrite list_lookup_insert_Some.
  intros [(-> & -> & Hlt)|[Hne E]]; [|eauto].
  apply lookup_lt_is_Some in Hlt as [q0 E0]. eauto.
Qed.

(** Steps that keep a stopped queue stopped, a worker that has left out of the
    loop, and the phase. *)
Lemma stop_inv_mono p p' :
  stop_inv p → m_flag p' = m_flag p → m_running p' = m_running p →
  length (m_queues p') = length (m_queues p) → length (m_workers p') = length (m_workers p) →
  (∀ n, stopped_below p n → stopped_below p' n) →
  (∀ j, m_workers p !! j = Some Exited → m_workers p' !! j = Some Exited) →
  stop_inv p'.
Proof.
  unfold stop_inv. intros [Hl Hi] Ef Er Eq Ew Hs Hw. rewrite Ef, Er, Eq, Ew. split; [done|].
  assert (Hex : ∀ j w, m_workers p' !! j = Some w →
                  (∀ w0, m_workers p !! j = Some w0 → w0 = Exited) → w = Exited).
  { intros j w E H. apply lookup_lt_Some in E as Hlt. rewrite Ew in Hlt.
    apply lookup_lt_is_Some in Hlt as [w0 E0]. rewrite (H w0 E0) in E0.
    rewrite (Hw j E0) in E. congruence. }
  destruct (m_flag p) as [|i|i|]; [done|by auto| |];
    destruct Hi as (H1 & H2 & H3); repeat split; eauto.
Qed.

Lemma set_worker_inv j w w0 p :
  m_workers p !! j = Some w0 → w0 ≠ Exited → stop_inv p → stop_inv (set_worker j w p).
Proof.
  intros Hj Hw0 Hi. apply (stop_inv_mono p); simpl; rewrite ?length_insert; auto.
  intros i E. rewrite list_lookup_insert_ne; [done|]. congruence.
Qed.

Lemma set_queue_inv j q q' p :
  m_queues p !! j = Some q → m_stop q' = m_stop q → stop_inv p → stop_inv (set_queue j q' p).
Proof.
  intros Hj Hq Hi. apply (stop_inv_mono p); simpl; rewrite ?length_insert; auto.
  intros n Hs. apply stopped_below_insert; [|done]. congruence.
Qed.

Lemma worker_step_inv j o p p' : worker_step j p = Some (o, p') → stop_inv p → stop_inv p'.
Proof.
  unfold worker_step. destruct (m_workers p !! j) as [w|] eqn:Ew; [simpl|done].
  destruct (m_queues p !! j) as [q|] eqn:Eq; [simpl|done].
  destruct w as [| |a|];
    [by intros [= <- <-]; eapply set_worker_inv| |by intros [= <- <-]; eapply set_worker_inv|done].
  destruct (dequeue_locked q) as [| |[[a|] q']] eqn:Ed; [done|..]; intros [= <- <-] Hi;
    [by eapply set_worker_inv|..];
    apply dequeue_locked_enters in Ed as (Ed & _ & _ & Eq');
    (eapply set_worker_inv; [done|done|eapply set_queue_inv; [done|congruence|done]]).
Qed.

Lemma stop_step_inv p p' : stop_step p = Some p' → stop_inv p → stop_inv p'.
Proof.
  unfold stop_step, stop_inv. intros H [Hl Hi].
  destruct (m_flag p) as [|j|j|] eqn:Ef; [done| | |done].
  - destruct (m_queues p !! j) as [q|] eqn:Eq; injection H as <-; simpl; rewrite ?length_insert.
    + split; [done|]. intros i q0 Hij. simpl. rewrite list_lookup_insert_Some.
      intros [(-> & <- & _)|[Hne E]]; [done|]. apply (Hi i); [lia|done].
    + split; [done|]. split; [done|]. split; [|intros; lia].
      intros i q0 _ E. apply (Hi i); [|done]. simpl in E. apply lookup_lt_Some in E.
      apply lookup_ge_None in Eq. lia.
  - destruct Hi as (H1 & H2 & H3). destruct (m_workers p !! j) as [w|] eqn:Ew.
    + destruct w; try done. injection H as <-; simpl. repeat split; auto.
      intros i w Hij E. destruct (decide (i = j)) as [->|]; [congruence|]. apply (H3 i); [lia|done].
    + injection H as <-; simpl. repeat split; auto. intros i w E. apply (H3 i); [|done].
      simpl in E. apply lookup_lt_Some in E. apply lookup_ge_None in Ew. lia.
Qed.

Lemma tpstep_inv p l p' : tpstep p l p' → stop_inv p → stop_inv p'.
Proof.
  destruct 1 as [tr p' [j o p'' H|p'' H]|draw u task index pos u' u'' p' Ht H|].
  - by eapply worker_step_inv.
  - by eapply stop_step_inv.
  - unfold add_task in H. rewrite Ht in H. destruct (m_queues p !! _) as [q|] eqn:Eq; [|done].
    destruct (add_locked task q) as [| |q'] eqn:Ea; try done. injection H as <- _.
    apply add_locked_enters in Ea as (E1 & _ & _ & _ & E2). intros Hi.
    apply (set_queue_inv (Z.to_nat pos) q q' p Eq); [congruence|done].
  - unfold pool_stop. intros [Hl Hi]. destruct (m_flag p) eqn:Ef; unfold stop_inv; rewrite ?Ef; try done.
    simpl. split; [done|]. intros i q Hlt. lia.
Qed.

Lemma make_inv n sz : stop_inv (ThreadPool_make (A := A) n sz).
Proof. unfold stop_inv, ThreadPool_make; simpl. by rewrite !length_replicate. Qed.

Lemma tpsteps_inv n sz tr p : tpsteps (ThreadPool_make n sz) tr p → stop_inv p.
Proof. induction 1; eauto using make_inv, tpstep_inv. Qed.

(** *** A measure for the joining phase *)

Definition weight (w : worker A) : nat :=
  match w with Running _ | Waiting => 2 | Testing => 1 | Exited => 0 end.
Definition weights (ws : list (worker A)) : nat := foldr (λ w n, (weight w + n)%nat) 0%nat ws.

Definition remaining p : nat :=
  match m_flag p with
  | Joins i => (weights (m_workers p) + S (length (m_workers p) - i))%nat
  | _ => weights (m_workers p)
  end.

Lemma weights_insert ws i w w' :
  ws !! i = Some w → (weights (<[i := w']> ws) + weight w = weights ws + weight w')%nat.
Proof.
  revert i. induction ws as [|x ws IH]; intros [|i]; simpl; [done..| |].
  - intros [= ->]. lia.
  - intros H. specialize (IH _ H). lia.
Qed.

Lemma weights_bound ws : (weights ws ≤ 2 * length ws)%nat.
Proof. induction ws as [|[] ws IH]; simpl; lia. Qed.

Definition joining p : bool :=
  match m_flag p with Joins _ | Joined => true | _ => false end.

Lemma stop_inv_joining p :
  stop_inv p → joining p = true →
  m_running p = false ∧ stopped_below p (length (m_queues p)) ∧
  length (m_queues p) = length (m_workers p).
Proof. unfold stop_inv, joining. intros [Hl Hi]. by destruct (m_flag p); [| |destruct Hi as (? & ? & _)..]. Qed.

Lemma dequeue_locked_stopped q : m_stop q = true → dequeue_locked q = Leaves.
Proof. unfold dequeue_locked. intros ->. by rewrite orb_true_r. Qed.

(** While the pool joins, each step makes progress and begins no task. *)
Lemma joining_progress p l p' :
  stop_inv p → joining p = true → internal_step p l p' →
  l = [] ∧ joining p' = true ∧ (remaining p' < remaining p)%nat.
Proof.
  intros Hi Hj Hst. destruct (stop_inv_joining p Hi Hj) as (Hr & Hs & Hl).
  destruct Hst as [j o p' H|p' H].
  - unfold worker_step in H. destruct (m_workers p !! j) as [w|] eqn:Ew; [simpl in H|done].
    destruct (m_queues p !! j) as [q|] eqn:Eq; [simpl in H|done].
    rewrite dequeue_locked_stopped, Hr in H by (eapply Hs; [by eapply lookup_lt_Some|done]).
    assert (Hw : ∀ w', (weight w' < weight w)%nat → (remaining (set_worker j w' p) < remaining p)%nat).
    { intros w' Hlt. pose proof (weights_insert _ _ _ w' Ew). unfold remaining, set_worker; simpl.
      rewrite length_insert. destruct (m_flag p); lia. }
    destruct w; try done; injection H as <- <-; repeat split; try done; apply Hw; simpl; lia.
  - split; [done|]. unfold stop_step in H. unfold joining in *. unfold remaining.
    destruct (m_flag p) as [|i|i|] eqn:Ef; try done.
    destruct (m_workers p !! i) as [w|] eqn:Ew.
    + destruct w; try done. injection H as <-. simpl. split; [done|].
      apply lookup_lt_Some in Ew. lia.
    + injection H as <-. simpl. split; [done|]. lia.
Qed.

(** ... and some step is possible until all is joined. *)
Lemma joining_enabled p i :
  stop_inv p → m_flag p = Joins i → ∃ l p', internal_step p l p'.
Proof.
  intros Hi Hf. destruct (stop_inv_joining p Hi) as (Hr & Hs & Hl); [by unfold joining; rewrite Hf|].
  destruct (m_workers p !! i) as [w|] eqn:Ew.
  - destruct (decide (weight w = 0%nat)) as [Hw|Hw].
    + exists [], (set_flag (Joins (S i)) p). apply by_stopper. unfold stop_step. rewrite Hf, Ew.
      by destruct w.
    + assert (Hq : is_Some (m_queues p !! i)).
      { apply lookup_lt_is_Some. rewrite Hl. by eapply lookup_lt_Some. }
      destruct Hq as [q Eq]. assert (Ed : dequeue_locked q = Leaves).
      { apply dequeue_locked_stopped. eapply Hs; [by eapply lookup_lt_Some|done]. }
      assert (Hw' : ∃ o p', worker_step i p = Some (o, p')).
      { unfold worker_step. rewrite Ew, Eq. simpl. rewrite Ed. destruct w; [eauto..|done]. }
      destruct Hw' as (o & p' & E). do 2 eexists. by eapply by_worker.
  - exists [], (set_flag Joined p). apply by_stopper. unfold stop_step. by rewrite Hf, Ew.
Qed.
End Stopping.

(** [n] steps of the pool's own threads. *)
Inductive internal_run {A} (p : ThreadPool A) : nat → list (pool_event A) → ThreadPool A → Prop :=
  | run_nil : internal_run p 0 [] p
  | run_snoc n tr p1 l p2 :
      internal_run p n tr p1 → internal_step p1 l p2 → internal_run p (S n) (tr ++ l) p2.

Lemma internal_run_joining {A} (p : ThreadPool A) n tr p' :
  stop_inv p → joining p = true → internal_run p n tr p' →
  tr = [] ∧ stop_inv p' ∧ joining p' = true ∧ (n + remaining p' ≤ remaining p)%nat.
Proof.
  intros Hi Hj. induction 1 as [|n tr p1 l p2 _ (-> & H1 & H2 & H3) Hst]; [done|].
  destruct (joining_progress _ _ _ H1 H2 Hst) as (-> & H4 & H5). split; [done|]. split; [|split; [done|lia]].
  eapply tpstep_inv; [by apply step_internal|done].
Qed.

(** ** Properties *)

(** In every execution, whatever threads add and whenever the pool is
    stopped, the tasks worker [i] has begun followed by those still queued for
    it are exactly the non-empty tasks added to its queue, in order: none is
    lost, repeated, reordered or run by another worker. *)
Theorem pool_tasks_in_order {A} (n size : Z) (tr : list (pool_event A)) (p : ThreadPool A) :
  tpsteps (ThreadPool_make n size) tr p →
  ∀ i, began_by i tr ++ queued i p = added_to i tr.
Proof.
  induction 1 as [|tr p1 l p2 _ IH Hs]; intros i.
  - simpl. unfold queued, ThreadPool_make; simpl. destruct (_ !! i) as [q|] eqn:E; [|done].
    by apply lookup_replicate in E as [-> _].
  - rewrite began_by_app, added_to_app, <- app_assoc, (tpstep_order _ _ _ Hs i).
    by rewrite app_assoc, IH.
Qed.

Lemma pool_tasks_in_order_witness :
  let p := mkThreadPool [mkQueue [Some 8%nat] 5 false] [Running 7%nat] 1 true NotStopped in
  let tr := ((([] ++ [Added 0 (Some 7%nat)]) ++ [Added 0 (Some 8%nat)]) ++ []) ++ [Began 0 7%nat] in
  began_by 0 tr ++ queued 0 p = added_to 0 tr.
Proof.
  refine (pool_tasks_in_order 1 5 _ _ _ 0%nat).
  apply (tpsteps_snoc _ _ (mkThreadPool [mkQueue [Some 7; Some 8]%nat 5 false] [Waiting] 1 true NotStopped));
    [|by apply step_internal, (by_worker _ 0 (Some 7%nat))].
  apply (tpsteps_snoc _ _ (mkThreadPool [mkQueue [Some 7; Some 8]%nat 5 false] [Testing] 1 true NotStopped));
    [|by apply step_internal, (by_worker _ 0 None)].
  apply (tpsteps_snoc _ _ (mkThreadPool [mkQueue [Some 7]%nat 5 false] [Testing] 1 true NotStopped));
    [|by apply (step_add _ id None (Some 8%nat) (-1) 0 (Some 0) (Some 0))].
  apply (tpsteps_snoc _ _ (ThreadPool_make 1 5)); [constructor|].
  by apply (step_add _ id None (Some 7%nat) 0 0 None None).
Defined.

(** C36: once [stop] has told every queue and cleared [m_running], the joins
    return: the threads of the pool can take at most three steps per worker and
    one more, begin no further task, and cannot come to rest before every
    worker has left its loop and [stop] has returned. *)
Theorem pool_stop_joins {A} (n size : Z) (tr : list (pool_event A)) (p : ThreadPool A) (i : nat) :
  tpsteps (ThreadPool_make n size) tr p → m_flag p = Joins i →
  ∀ m l p', internal_run p m l p' →
  l = [] ∧ (m ≤ 3 * length (m_workers p) + 1)%nat ∧
  ((¬ ∃ l' p'', internal_step p' l' p'') →
   m_flag p' = Joined ∧ Forall (λ w, w = Exited) (m_workers p')).
Proof.
  intros Hs Hf m l p' Hrun. apply tpsteps_inv in Hs.
  assert (Hj : joining p = true) by (unfold joining; by rewrite Hf).
  destruct (internal_run_joining _ _ _ _ Hs Hj Hrun) as (-> & Hi & Hj' & Hm).
  split; [done|]. split.
  - unfold remaining in Hm at 2. rewrite Hf in Hm. pose proof (weights_bound (m_workers p)). lia.
  - intros Hend. unfold joining in Hj'. destruct (m_flag p') as [|k|k|] eqn:Ef; try done.
    + by destruct Hend; eapply joining_enabled.
    + split; [done|]. destruct Hi as [_ Hi]. rewrite Ef in Hi. destruct Hi as (_ & _ & Hx).
      apply Forall_lookup. eauto.
Qed.

Lemma pool_stop_joins_witness :
  let p := mkThreadPool [mkQueue [] 5 true] [Testing] 1 false (Joins 0) : ThreadPool nat in
  let p' := set_worker 0 Exited p in
  ([] : list (pool_event nat)) ++ [] = [] ∧ (1 ≤ 3 * length (m_workers p) + 1)%nat ∧
  ((¬ ∃ l' p'', internal_step p' l' p'') →
   m_flag p' = Joined ∧ Forall (λ w, w = Exited) (m_workers p')).
Proof.
  refine (pool_stop_joins 1 5 ((([] ++ []) ++ []) ++ [])
    (mkThreadPool [mkQueue [] 5 true] [Testing] 1 false (Joins 0)) 0 _ eq_refl 1 ([] ++ []) _ _).
  - apply (tpsteps_snoc _ _ (mkThreadPool [mkQueue [] 5 true] [Testing] 1 true (StopsQueue 1)));
      [|by apply step_internal, by_stopper].
    apply (tpsteps_snoc _ _ (mkThreadPool [mkQueue [] 5 false] [Testing] 1 true (StopsQueue 0)));
      [|by apply step_internal, by_stopper].
    apply (tpsteps_snoc _ _ (ThreadPool_make 1 5));
      [apply tpsteps_nil|apply (step_stop (ThreadPool_make 1 5))].
  - eapply run_snoc; [apply run_nil|]. by apply (by_worker _ 0 None).
Defined.

(** A thread that adds to one pool only never indexes past its queues, for
    any index and any draw within the bound, as long as the pool has between
    one and [2^32] threads; a pool without threads faults on every task. *)
Theorem add_task_in_bounds {A} (draw : Z → Z) (u : option Z) (task : option A) (index : Z)
    (p : ThreadPool A) :
  (∀ b, 0 ≤ b → 0 ≤ draw b ≤ b) → u = None ∨ u = Some (m_thread_nums p - 1) →
  zlen (m_queues p) = m_thread_nums p →
  (0 < m_thread_nums p ≤ 2 ^ 32 → is_ok (add_task draw u task index p) = true) ∧
  (m_thread_nums p = 0 → add_task draw u task index p = Fault OutOfBounds).
Proof.
  intros Hd Hu Hl. unfold zlen in Hl. split; intros Hn; unfold add_task, add_target.
  - assert (Hb : default (u32 (u64 (m_thread_nums p - 1))) u = m_thread_nums p - 1).
    { destruct Hu as [-> | ->]; [simpl|done].
      rewrite u64_small, u32_small by (unfold in_u; lia). done. }
    rewrite Hb. pose proof (Hd (m_thread_nums p - 1)).
    destruct ((index <? 0) || (index >=? m_thread_nums p)) eqn:E.
    + destruct (m_queues p !! _) eqn:Eq; [done|]. apply lookup_ge_None in Eq. lia.
    + apply orb_false_elim in E as [E1%Z.ltb_ge E2]. rewrite Z.geb_leb in E2.
      apply Z.leb_gt in E2. destruct (m_queues p !! _) eqn:Eq; [done|].
      apply lookup_ge_None in Eq. lia.
  - destruct (m_queues p); [|simpl in Hl; lia]. by destruct (_ || _).
Qed.

Lemma add_task_in_bounds_witness :
  let p := ThreadPool_make 3 10000 : ThreadPool nat in
  (0 < m_thread_nums p ≤ 2 ^ 32 →
   is_ok (add_task (λ b, b `div` 2) None (Some 7%nat) (2 ^ 64 - 1) p) = true) ∧
  (m_thread_nums p = 0 →
   add_task (λ b, b `div` 2) None (Some 7%nat) (2 ^ 64 - 1) p = Fault OutOfBounds).
Proof.
  apply (add_task_in_bounds (λ b, b `div` 2)); [|by left|done].
  intros b Hb. split; [by apply Z.div_pos|apply Z.div_le_upper_bound; lia].
Defined.
