(* ===== verification/IocPool.v ===== *)
(** * The pool of event loops (net/iocpool.h, net/iocpool.cpp)

    [get_iocontext] is given twice: as one call, and as the four accesses to the
    shared position it makes, which callers on several threads interleave.
    [stop] and the threads that run the loops are interleaved in the same
    way. *)

From Stdlib Require Import ZArith Lia.
From stdpp Require Import base list numbers.
From S2P Require Import Prelude.

(** An [io_context] behind its [unique_ptr], and the thread that runs it. *)
Inductive ioc_state := Open | IocStopped | Destroyed.
Inductive ioc_thread := NotBegun | InRun | Returned.

#[global] Instance ioc_state_eq_dec : EqDecision ioc_state.
Proof. solve_decision. Defined.
#[global] Instance ioc_thread_eq_dec : EqDecision ioc_thread.
Proof. solve_decision. Defined.

Record IocPool := mkIocPool {
  m_iocs : list ioc_state;
  m_threads : list ioc_thread;
  m_ioc_pos : Z
}.

Definition IocPool_make (size : Z) : IocPool :=
  mkIocPool (replicate (Z.to_nat size) Open) (replicate (Z.to_nat size) NotBegun) 0.

Definition set_pos (n : Z) (p : IocPool) : IocPool := mkIocPool (m_iocs p) (m_threads p) n.
Definition set_ioc (i : nat) (c : ioc_state) (p : IocPool) : IocPool :=
  mkIocPool (<[i := c]> (m_iocs p)) (m_threads p) (m_ioc_pos p).
Definition set_thread (i : nat) (t : ioc_thread) (p : IocPool) : IocPool :=
  mkIocPool (m_iocs p) (<[i := t]> (m_threads p)) (m_ioc_pos p).

(** ** [get_iocontext] *)

(** The loop a caller gets is named by its index. *)
Definition ioc_at (pos : Z) : M IocPool Z := λ p,
  if pos <? zlen (m_iocs p) then Ok (pos, p) else Fault OutOfBounds.

Definition get_iocontext : M IocPool Z :=
  pos ← gets m_ioc_pos;
  ioc ← ioc_at pos;
  modify (λ p, set_pos (u64 (m_ioc_pos p + 1)) p);;
  p ← gets id;
  (if m_ioc_pos p >=? zlen (m_iocs p) then modify (set_pos 0) else mret tt);;
  mret ioc.

(** Where a thread is in [get_iocontext]. *)
Inductive getter :=
  | GetBegins
  | GetIncrements (ioc : Z)
  | GetTests (ioc : Z)
  | GetResets (ioc : Z)
  | GetReturns (ioc : Z).

Definition getter_step (g : getter) : M IocPool getter :=
  match g with
  | GetBegins => pos ← gets m_ioc_pos; ioc ← ioc_at pos; mret (GetIncrements ioc)
  | GetIncrements ioc => modify (λ p, set_pos (u64 (m_ioc_pos p + 1)) p);; mret (GetTests ioc)
  | GetTests ioc =>
      p ← gets id;
      mret (if m_ioc_pos p >=? zlen (m_iocs p) then GetResets ioc else GetReturns ioc)
  | GetResets ioc => modify (set_pos 0);; mret (GetReturns ioc)
  | GetReturns ioc => mret (GetReturns ioc)
  end.

(** A schedule names the caller that takes the next step. *)
Fixpoint getters_run (schedule : list nat) (gs : list getter) : M IocPool (list getter) :=
  match schedule with
  | [] => mret gs
  | i :: rest =>
      match gs !! i with
      | None => getters_run rest gs
      | Some g => g' ← getter_step g; getters_run rest (<[i := g']> gs)
      end
  end.

(** Calls one after the other. *)
Fixpoint get_many (k : nat) : M IocPool (list Z) :=
  match k with
  | O => mret []
  | S k' => ioc ← get_iocontext; rest ← get_many k'; mret (ioc :: rest)
  end.

(** ** [stop] and the threads of the loops *)

(** Thread [i]: calls [run] through the pointer it captured by reference, is in
    [run], returns when its loop is stopped. *)
Definition thread_step (i : nat) : M IocPool unit := λ p,
  match m_threads p !! i, m_iocs p !! i with
  | Some NotBegun, Some Destroyed | Some NotBegun, None => Fault NullDeref
  | Some NotBegun, Some _ => Ok (tt, set_thread i InRun p)
  | Some InRun, Some Destroyed | Some InRun, None => Fault UseAfterFree
  | Some InRun, Some IocStopped => Ok (tt, set_thread i Returned p)
  | _, _ => Ok (tt, p)
  end.

(** [ioc->stop()] and [ioc.reset()] of every loop, then the joins. *)
Inductive stopper :=
  | StopsIoc (i : nat)
  | ResetsIoc (i : nat)
  | JoinsThread (i : nat)
  | StopDone.

Definition stopper_step (s : stopper) : M IocPool stopper :=
  p ← gets id;
  match s with
  | StopsIoc i =>
      match m_iocs p !! i with
      | Some _ => modify (set_ioc i IocStopped);; mret (ResetsIoc i)
      | None => mret (JoinsThread 0)
      end
  | ResetsIoc i => modify (set_ioc i Destroyed);; mret (StopsIoc (S i))
  | JoinsThread i =>
      match m_threads p !! i with
      | Some Returned => mret (JoinsThread (S i))
      | Some _ => mret (JoinsThread i)
      | None =>
          modify (λ p, mkIocPool [] [] (m_ioc_pos p));;
          mret StopDone
      end
  | StopDone => mret StopDone
  end.

Inductive actor := TheStopper | TheThread (i : nat).

Fixpoint stop_run (schedule : list actor) (s : stopper) : M IocPool stopper :=
  match schedule with
  | [] => mret s
  | TheStopper :: rest => s' ← stopper_step s; stop_run rest s'
  | TheThread i :: rest => thread_step i;; stop_run rest s
  end.

(** ** Facts *)

Definition pos_ok (p : IocPool) : Prop :=
  0 ≤ m_ioc_pos p < zlen (m_iocs p) ∧ in_u 64 (zlen (m_iocs p)).

Lemma get_iocontext_ok p :
  pos_ok p →
  get_iocontext p = Ok (m_ioc_pos p, set_pos ((m_ioc_pos p + 1) mod zlen (m_iocs p)) p).
Proof.
  intros [[H1 H2] [_ H3]].
  unfold get_iocontext, gets, modify, mbind, M_bind, ioc_at, id. zguard. simpl.
  rewrite u64_small by (unfold in_u; lia).
  destruct (Z.leb_spec (zlen (m_iocs p)) (m_ioc_pos p + 1)) as [Hge|Hlt]; unfold mret, M_ret; simpl.
  - replace (m_ioc_pos p + 1) with (zlen (m_iocs p)) by lia. by rewrite Z.mod_same by lia.
  - by rewrite Z.mod_small by lia.
Qed.

Lemma pos_ok_next p : pos_ok p → pos_ok (set_pos ((m_ioc_pos p + 1) mod zlen (m_iocs p)) p).
Proof.
  intros [H1 H2]. split; [|done]. simpl. apply Z.mod_pos_bound. lia.
Qed.

Lemma get_many_ok k p :
  pos_ok p →
  ∃ p', get_many k p = Ok (map (λ j, (m_ioc_pos p + Z.of_nat j) mod zlen (m_iocs p)) (seq 0 k), p').
Proof.
  revert p. induction k as [|k IH]; intros p Hp; [by eexists|].
  destruct (IH _ (pos_ok_next p Hp)) as [p' E]. exists p'. simpl get_many.
  rewrite (bind_ok _ _ _ _ _ (get_iocontext_ok p Hp)), (bind_ok _ _ _ _ _ E).
  unfold mret, M_ret. destruct Hp as [Hp _]. cbn [seq map]. do 2 f_equal. f_equal.
  - rewrite Z.add_0_r. by rewrite Z.mod_small by lia.
  - rewrite <- (seq_shift k 0), List.map_map. apply List.map_ext. intros j. simpl.
    rewrite Zplus_mod_idemp_l. f_equal. lia.
Qed.

Lemma make_iocs_len n : 0 ≤ n → zlen (m_iocs (IocPool_make n)) = n.
Proof. intros H. unfold zlen, IocPool_make; simpl. rewrite length_replicate. lia. Qed.

Lemma getters_run_step i rest gs g g' p p' :
  gs !! i = Some g → getter_step g p = Ok (g', p') →
  getters_run (i :: rest) gs p = getters_run rest (<[i := g']> gs) p'.
Proof. intros Hg E. simpl. rewrite Hg. by rewrite (bind_ok _ _ _ _ _ E). Qed.

Lemma getters_run_fault i rest gs g p f :
  gs !! i = Some g → getter_step g p = Fault f → getters_run (i :: rest) gs p = Fault f.
Proof. intros Hg E. simpl. rewrite Hg. by apply bind_fault. Qed.

(** ** Properties *)

(** A pool of [n] loops deals them out in turn, the [j]-th call getting loop
    [j mod n], as long as the calls do not overlap. *)
Theorem get_iocontext_round_robin (n : Z) (k : nat) :
  0 < n < 2 ^ 64 →
  ∃ p', get_many k (IocPool_make n) = Ok (map (λ j, Z.of_nat j mod n) (seq 0 k), p').
Proof.
  intros Hn. destruct (get_many_ok k (IocPool_make n)) as [p' E].
  { unfold pos_ok, in_u. rewrite make_iocs_len by lia. simpl. lia. }
  exists p'. rewrite E. rewrite make_iocs_len by lia. do 2 f_equal.
Qed.

Lemma get_iocontext_round_robin_witness :
  ∃ p', get_many 5 (IocPool_make 2) = Ok (map (λ j, Z.of_nat j mod 2) (seq 0 5), p').
Proof. apply (get_iocontext_round_robin 2 5). lia. Defined.

(** Calls that overlap can index past the loops: after one caller has
    incremented the position past the last loop and before it resets it,
    another one reads it.  For every pool a schedule of two callers faults. *)
Theorem get_iocontext_race (n : Z) :
  0 < n < 2 ^ 64 →
  let p := set_pos (n - 1) (IocPool_make n) in
  (∃ ioc p', getters_run [0; 0; 0; 0]%nat [GetBegins] p = Ok ([GetReturns ioc], p')) ∧
  getters_run [0; 0; 1]%nat [GetBegins; GetBegins] p = Fault OutOfBounds.
Proof.
  intros Hn. cbv zeta. set (p := set_pos (n - 1) (IocPool_make n)).
  assert (El : ∀ k, zlen (m_iocs (set_pos k p)) = n) by (intros; apply (make_iocs_len n); lia).
  assert (S1 : getter_step GetBegins p = Ok (GetIncrements (n - 1), p)).
  { unfold getter_step, gets, mbind, M_bind, ioc_at. specialize (El (n - 1)).
    change (zlen (m_iocs p)) with (zlen (m_iocs (set_pos (n - 1) p))). cbn [m_ioc_pos p set_pos] in *.
    by zguard. }
  assert (S2 : ∀ ioc, getter_step (GetIncrements ioc) p = Ok (GetTests ioc, set_pos n p)).
  { intros ioc. unfold getter_step, modify, mbind, M_bind, mret, M_ret. cbn [m_ioc_pos p set_pos].
    replace (u64 (n - 1 + 1)) with n; [done|]. rewrite u64_small; unfold in_u; lia. }
  assert (S3 : ∀ ioc, getter_step (GetTests ioc) (set_pos n p) = Ok (GetResets ioc, set_pos n p)).
  { intros ioc. unfold getter_step, gets, mbind, M_bind, mret, M_ret, id. rewrite El.
    cbn [m_ioc_pos set_pos]. by replace (n >=? n) with true by lia. }
  split.
  - exists (n - 1), (set_pos 0 (set_pos n p)).
    erewrite getters_run_step; [|done|apply S1]. erewrite getters_run_step; [|done|apply S2].
    by erewrite getters_run_step; [|done|apply S3].
  - erewrite getters_run_step; [|done|apply S1]. erewrite getters_run_step; [|done|apply S2].
    apply (getters_run_fault _ _ _ GetBegins); [done|]. unfold getter_step, gets, mbind, M_bind, ioc_at.
    rewrite El. cbn [m_ioc_pos set_pos]. by zguard.
Qed.

Lemma get_iocontext_race_witness :
  let p := set_pos (2 - 1) (IocPool_make 2) in
  (∃ ioc p', getters_run [0; 0; 0; 0]%nat [GetBegins] p = Ok ([GetReturns ioc], p')) ∧
  getters_run [0; 0; 1]%nat [GetBegins; GetBegins] p = Fault OutOfBounds.
Proof. apply (get_iocontext_race 2). lia. Defined.

(** [stop] destroys a loop before it joins the thread that is in it: with
    thread 0 in [run], the schedule that stops and resets loop 0 before the
    thread has returned makes the thread use the destroyed loop; if the thread
    has not begun, it calls [run] through a null pointer. *)
Theorem ioc_stop_race (n : Z) :
  0 < n →
  stop_run [TheThread 0; TheStopper; TheStopper; TheThread 0] (StopsIoc 0) (IocPool_make n) =
    Fault UseAfterFree ∧
  stop_run [TheStopper; TheStopper; TheThread 0] (StopsIoc 0) (IocPool_make n) = Fault NullDeref.
Proof.
  intros Hn. unfold IocPool_make. destruct (Z.to_nat n) as [|k] eqn:E; [lia|]. done.
Qed.

Lemma ioc_stop_race_witness :
  stop_run [TheThread 0; TheStopper; TheStopper; TheThread 0] (StopsIoc 0) (IocPool_make 2) =
    Fault UseAfterFree ∧
  stop_run [TheStopper; TheStopper; TheThread 0] (StopsIoc 0) (IocPool_make 2) = Fault NullDeref.
Proof. apply (ioc_stop_race 2). lia. Defined.
