(* ===== verification/Connection.v ===== *)
(** * Connections (net/connection.h, net/connection.cpp, net/constant.h)

    A connection with its socket: the reads and writes posted on the socket and
    not yet completed are part of the state, and [on_read] and [on_write] are
    their completions.  What a connection tells its owner (a frame to process,
    a message written, its release) is a list of events.  Logging has no effect
    on the state and is left out. *)

From Stdlib Require Import ZArith Lia Strings.Byte.
From stdpp Require Import base list numbers.
From S2P Require Import Prelude.
From S2P Require Import Endian.
From S2P Require Import MsgBuffer.
From S2P Require Import ObjectPool.
From S2P Require Import RepeatTimer.

(** ** Constants and enumerations *)

Definition g_head_magic_num : list byte := [xf7; xba; xa1; xc9].
Definition g_proto_head_len : Z := 12.
Definition m_package_len_max : Z := 2 * 1024 * 1024.

Inductive PackageStat := NEED_HEAD | NEED_BODY | WHOLE | INCORRECT.

#[global] Instance PackageStat_eq_dec : EqDecision PackageStat.
Proof. solve_decision. Defined.

(** [std::error_code]: success, the two codes the handlers retry on, others. *)
Inductive error_code := ec_ok | ec_interrupted | ec_try_again | ec_other (v : Z).

(** ** The frame check: [PackageCheck::operator()] *)

Definition PackageCheck : MB PackageStat :=
  packlen ← gets m_packlen;
  early ←
    (if packlen =? 0 then
       av ← gets available;
       if av <? g_proto_head_len then mret (Some NEED_HEAD)
       else
         p ← gets memory;
         w ← read_at p 4;
         if negb (le_value w =? le_value g_head_magic_num) then mret (Some INCORRECT)
         else
           consume 4;;
           n ← peek_u32;
           set_packlen (u32 (n + 2));;
           vomit 4;;
           mret None
     else mret None);
  match early with
  | Some r => mret r
  | None =>
      packlen ← gets m_packlen;
      if (packlen >? m_package_len_max) || (packlen <? g_proto_head_len + 2)
      then mret INCORRECT
      else
        av ← gets available;
        if av <? packlen then mret NEED_BODY else mret WHOLE
  end.

(** ** State *)

(** What the two owners of connections do on a timer tick. *)
Inductive TimeHandler := ClientKeepAlive | ServerIdleCheck.

(** A read posted on the socket: where in the receive buffer, how many bytes. *)
Record read_op := mkRead { rd_pos : Z; rd_len : Z }.

(** A write posted on the socket, with what its closure has of the write handler: its own copy, or a
    reference to the copy of a closure that is destroyed when it has run. *)
Inductive handler_ref := Owned | Borrowed.
Record posted_write := mkWrite { wr_buffer : MsgBuffer; wr_handler : handler_ref }.

Record Socket := mkSocket {
  is_open : bool;
  s_reads : list read_op;
  s_writes : list posted_write;
  s_sent : list byte           (** the bytes put on the wire *)
}.

Record ConnInfo := mkConnInfo {
  m_remote_ip : list byte;
  m_remote_port : Z;
  m_local_ip : list byte;
  m_local_port : Z;
  m_uuid : Z
}.

Record ConnStats := mkConnStats {
  m_send_bytes : Z;
  m_recv_bytes : Z;
  m_last_recv_time : Z;
  m_last_send_time : Z
}.

Inductive conn_event :=
  | AddTask (frame : MsgBuffer)   (** a task on the worker pool owns the buffer *)
  | Written (total : Z)           (** a message has been written completely *)
  | Released (uuid : Z).          (** the owner erased the connection *)

Record Connection := mkConnection {
  m_recv_buffer : option MsgBuffer;
  m_send_buffer_list : list MsgBuffer;
  m_socket : Socket;
  m_repeat_timer : RepeatTimer TimeHandler;
  m_msg_pool : ObjectPool MsgBuffer;
  m_holder : bool;              (** the owner is alive *)
  m_info : ConnInfo;
  m_stats : ConnStats;
  c_events : list conn_event
}.

Abbreviation MC := (M Connection).

Definition set_recv_buffer (r : option MsgBuffer) (c : Connection) : Connection :=
  mkConnection r (m_send_buffer_list c) (m_socket c) (m_repeat_timer c) (m_msg_pool c)
    (m_holder c) (m_info c) (m_stats c) (c_events c).
Definition set_send_buffer_list (l : list MsgBuffer) (c : Connection) : Connection :=
  mkConnection (m_recv_buffer c) l (m_socket c) (m_repeat_timer c) (m_msg_pool c)
    (m_holder c) (m_info c) (m_stats c) (c_events c).
Definition set_socket (s : Socket) (c : Connection) : Connection :=
  mkConnection (m_recv_buffer c) (m_send_buffer_list c) s (m_repeat_timer c) (m_msg_pool c)
    (m_holder c) (m_info c) (m_stats c) (c_events c).
Definition set_timer (t : RepeatTimer TimeHandler) (c : Connection) : Connection :=
  mkConnection (m_recv_buffer c) (m_send_buffer_list c) (m_socket c) t (m_msg_pool c)
    (m_holder c) (m_info c) (m_stats c) (c_events c).
Definition set_pool (p : ObjectPool MsgBuffer) (c : Connection) : Connection :=
  mkConnection (m_recv_buffer c) (m_send_buffer_list c) (m_socket c) (m_repeat_timer c) p
    (m_holder c) (m_info c) (m_stats c) (c_events c).
Definition set_info (i : ConnInfo) (c : Connection) : Connection :=
  mkConnection (m_recv_buffer c) (m_send_buffer_list c) (m_socket c) (m_repeat_timer c)
    (m_msg_pool c) (m_holder c) i (m_stats c) (c_events c).
Definition set_stats (s : ConnStats) (c : Connection) : Connection :=
  mkConnection (m_recv_buffer c) (m_send_buffer_list c) (m_socket c) (m_repeat_timer c)
    (m_msg_pool c) (m_holder c) (m_info c) s (c_events c).
Definition emit (e : conn_event) : MC unit :=
  modify (λ c, mkConnection (m_recv_buffer c) (m_send_buffer_list c) (m_socket c)
    (m_repeat_timer c) (m_msg_pool c) (m_holder c) (m_info c) (m_stats c) (c_events c ++ [e])).

(** Operations on the buffer behind [m_recv_buffer]. *)
Definition with_recv {A} (m : MB A) : MC A := λ c,
  match m_recv_buffer c with
  | None => Fault NullDeref
  | Some b =>
      match m b with
      | Ok (a, b') => Ok (a, set_recv_buffer (Some b') c)
      | Fault f => Fault f
      end
  end.

(** Operations on a buffer held by value, and on the pool and the timer. *)
Definition on_buffer {A} (m : MB A) (b : MsgBuffer) : MC (A * MsgBuffer) := lift (m b).
Definition with_pool {A} (m : M (ObjectPool MsgBuffer) A) : MC A := λ c,
  match m (m_msg_pool c) with
  | Ok (a, p) => Ok (a, set_pool p c)
  | Fault f => Fault f
  end.
Definition with_timer {A} (m : M (RepeatTimer TimeHandler) A) : MC A := λ c,
  match m (m_repeat_timer c) with
  | Ok (a, t) => Ok (a, set_timer t c)
  | Fault f => Fault f
  end.

(** ** Construction, information, counters *)

(** The buffers a connection uses come from its own pool. *)
Definition new_buffer (_ : nat) : MsgBuffer := MsgBuffer_make m_default_buffer_size.

(** [Connection(ioc, holder, handler, msg_pool_num)] and a connected socket;
    the constructor leaves the information and the times uninitialised. *)
Definition Connection_make (msg_pool_num : nat) (handler : option TimeHandler)
    (junk_info : ConnInfo) (junk_recv_time junk_send_time : Z) : Connection :=
  mkConnection None [] (mkSocket true [] [] []) (RepeatTimer_make 10000 handler)
    (ObjectPool_make new_buffer msg_pool_num) true junk_info
    (mkConnStats 0 0 junk_recv_time junk_send_time) [].

(** [set_conn_info] with what the socket reports. *)
Definition set_conn_info (remote_ip local_ip : list byte) (remote_port local_port handle : Z) : MC unit :=
  modify (set_info (mkConnInfo remote_ip remote_port local_ip local_port handle)).

Definition get_last_recvtime (c : Connection) : Z := m_last_recv_time (m_stats c).
Definition get_last_sendtime (c : Connection) : Z := m_last_send_time (m_stats c).
Definition get_recv_bytes (c : Connection) : Z := m_recv_bytes (m_stats c).
Definition get_send_bytes (c : Connection) : Z := m_send_bytes (m_stats c).

Definition set_last_sendtime (time : Z) : MC unit :=
  modify (λ c, let s := m_stats c in
    set_stats (mkConnStats (m_send_bytes s) (m_recv_bytes s) (m_last_recv_time s) time) c).
Definition set_sendbytes (bytes : Z) : MC unit :=
  modify (λ c, let s := m_stats c in
    set_stats (mkConnStats (u64 (m_send_bytes s + bytes)) (m_recv_bytes s) (m_last_recv_time s)
                 (m_last_send_time s)) c).
(** Both write the members of the sending side. *)
Definition set_last_recvtime (time : Z) : MC unit :=
  modify (λ c, let s := m_stats c in
    set_stats (mkConnStats (m_send_bytes s) (m_recv_bytes s) (m_last_recv_time s) time) c).
Definition set_recvbytes (bytes : Z) : MC unit :=
  modify (λ c, let s := m_stats c in
    set_stats (mkConnStats (u64 (m_send_bytes s + bytes)) (m_recv_bytes s) (m_last_recv_time s)
                 (m_last_send_time s)) c).

(** ** Buffers of the pool *)

Definition use : MC MsgBuffer := with_pool pool_get.
Definition free (buffer : MsgBuffer) : MC unit := with_pool (pool_free buffer).
Definition recycle (buffer : MsgBuffer) : MC unit :=
  r ← on_buffer clear buffer;
  free r.2.

(** ** Closing *)

Definition close : MC unit :=
  c ← gets id;
  if negb (is_open (m_socket c)) then mret tt
  else
    modify (set_socket (mkSocket false (s_reads (m_socket c)) (s_writes (m_socket c))
                          (s_sent (m_socket c))));;
    if m_holder c then emit (Released (m_uuid (m_info c))) else mret tt.

Definition Connection_destroy : MC unit :=
  with_timer timer_stop;;
  close.

(** ** Reading *)

(** The read posted by [async_read] and again at the end of [handle_read]. *)
Definition async_read (expect_size : Z) : MC unit :=
  c ← gets id;
  match m_recv_buffer c with
  | None => b ← use; modify (set_recv_buffer (Some b))
  | Some _ => mret tt
  end;;
  with_recv (adjust expect_size);;
  pos ← with_recv (gets data);
  modify (λ c, let s := m_socket c in
    set_socket (mkSocket (is_open s) (s_reads s ++ [mkRead pos expect_size]) (s_writes s)
                  (s_sent s)) c).

Section Handlers.
  (** The handlers the owner of the connection passes. *)
Context (read_handler : Z → MC unit) (write_handler : Z → MC unit).

(** [handle_read] first computes a pair: whether to read on, and how much, as
    an [int]. *)
Definition read_outcome (expect_size : Z) (ec : error_code) (bytes_transferred : Z) : MC (bool * Z) :=
  match ec with
  | ec_interrupted | ec_try_again => mret (true, i32 expect_size)
  | ec_other _ => close;; mret (false, -1)
  | ec_ok =>
      with_recv (commit bytes_transferred);;
      check_result ← with_recv PackageCheck;
      match check_result with
      | INCORRECT => close;; mret (false, -1)
      | WHOLE =>
          with_recv (set_indicator valid);;
          read_handler bytes_transferred;;
          mret (true, g_proto_head_len)
      | NEED_HEAD =>
          av ← with_recv (gets available);
          mret (true, i32 (u64 (g_proto_head_len - av)))
      | NEED_BODY =>
          packlen ← with_recv (gets m_packlen);
          av ← with_recv (gets available);
          mret (true, i32 (u64 (packlen - av)))
      end
  end.

Definition handle_read (expect_size : Z) (ec : error_code) (bytes_transferred : Z) : MC unit :=
  ret ← read_outcome expect_size ec bytes_transferred;
  if (ret : bool * Z).1 then async_read (u64 ret.2) else mret tt.

(** Completion of the oldest posted read: the kernel has stored [chunk]. *)
Definition on_read (ec : error_code) (chunk : list byte) : MC unit :=
  c ← gets id;
  match s_reads (m_socket c) with
  | [] => mret tt
  | r :: rest =>
      let s := m_socket c in
      modify (set_socket (mkSocket (is_open s) rest (s_writes s) (s_sent s)));;
      with_recv (write_at (rd_pos r) chunk);;
      handle_read (rd_len r) ec (zlen chunk)
  end.

(** ** Writing *)

Definition start_write (d : MsgBuffer) : MC unit :=
  modify (λ c, let s := m_socket c in
    set_socket (mkSocket (is_open s) (s_reads s) (s_writes s ++ [mkWrite d Owned]) (s_sent s)) c).

(** The closure [async_write] posts on the strand. *)
Definition async_write (d : MsgBuffer) : MC unit :=
  c ← gets id;
  if bool_decide (m_indicator d = invalid) || negb (is_open (m_socket c)) then
    recycle d;;
    close
  else
    match m_send_buffer_list c with
    | [] => start_write d
    | _ => modify (set_send_buffer_list (m_send_buffer_list c ++ [d]))
    end.

Definition ec_closes (ec : error_code) : bool :=
  match ec with ec_other _ => true | _ => false end.

(** [handle_write] starts a write for every queued buffer.  Its closures capture [&handler], and the caller's
    [handler] is a member of the closure that is being run. *)
Definition handle_write (ec : error_code) (bytes_transferred : Z) : MC unit :=
  when (ec_closes ec || (bytes_transferred =? 0)) close;;
  modify (λ c, let s := m_socket c in
    set_send_buffer_list []
      (set_socket (mkSocket (is_open s) (s_reads s)
                     (s_writes s ++ map (λ d, mkWrite d Borrowed) (m_send_buffer_list c)) (s_sent s)) c)).

(** [handler(...)] in a closure: through a borrowed reference it is called after its destruction. *)
Definition call_handler (r : handler_ref) (total : Z) : MC unit :=
  match r with
  | Owned => write_handler total
  | Borrowed => raise UseAfterFree
  end.

(** Completion of the [k]th of the posted writes: [n] bytes of it were sent. *)
Definition on_nth_write (k : nat) (ec : error_code) (n : Z) : MC unit :=
  c ← gets id;
  match s_writes (m_socket c) !! k with
  | None => mret tt
  | Some w =>
      let s := m_socket c in
      modify (set_socket (mkSocket (is_open s) (s_reads s) (delete k (s_writes s))
                            (s_sent s ++ ztake n (contents (wr_buffer w)))));;
      match ec with
      | ec_ok =>
          r ← on_buffer (consume n;; update_packlen n) (wr_buffer w);
          let d' := r.2 in
          if negb (MsgBuffer.empty d')
          then modify (λ c, set_send_buffer_list (d' :: m_send_buffer_list c) c)
          else call_handler (wr_handler w) (m_packlen d');; recycle d'
      | _ => mret tt
      end;;
      handle_write ec n
  end.

(** The oldest. *)
Definition on_write (ec : error_code) (n : Z) : MC unit := on_nth_write 0 ec n.

End Handlers.

(** ** Timers *)

Definition async_timeout (h : TimeHandler) : MC unit :=
  with_timer (set_handler h);;
  with_timer timer_start.
