(* ===== verification/Wire.v ===== *)
(** * The wire interface

    What the message buffer promises to the message types: writing a value
    appends its wire image to the unread bytes, and reading consumes a wire
    image and returns the value it is the image of.  [WirePut] and [WireGet]
    state it per pair of stream operators; the instances are discharged by the
    buffer's triples, and message bodies are proved against the classes only. *)

From Stdlib Require Import ZArith Lia Strings.Byte.
From stdpp Require Import base list numbers.
From S2P Require Import Prelude.
From S2P Require Import Endian.
From S2P Require Import MsgBuffer.

(** [puts m i]: [m] appends [i]. *)
Definition puts (m : MB unit) (i : list byte) : Prop :=
  ∀ mt pre cur, room (zlen i) pre cur →
    ⦃ holds mt pre cur ⦄ m ⦃ λ _, holds mt pre (cur ++ i) ⦄.

(** [reads m i a]: [m] consumes [i] and returns [a]. *)
Definition reads {A} (m : MB A) (i : list byte) (a : A) : Prop :=
  ∀ mt pre cur,
    ⦃ holds mt pre (i ++ cur) ⦄ m ⦃ λ r b, r = a ∧ holds mt (pre ++ i) cur b ⦄.

Class WirePut {A} (put : A → MB unit) (image : A → list byte) : Prop :=
  wire_put : ∀ a, puts (put a) (image a).

(** [init] is the value of a freshly initialised variable, [ok] the values the
    image determines. *)
Class WireGet {A} (get : A → MB A) (image : A → list byte) (ok : A → Prop) (init : A) : Prop :=
  wire_get : ∀ a, ok a → reads (get init) (image a) a.

(** The images of the field types. *)
Definition image_u8 (v : Z) : list byte := be_bytes 1 v.
Definition image_u16 (v : Z) : list byte := be_bytes 2 v.
Definition image_u32 (v : Z) : list byte := be_bytes 4 v.
Definition image_string (s : list byte) : list byte := s ++ [x00].

#[global] Arguments image_u8 : simpl never.
#[global] Arguments image_u16 : simpl never.
#[global] Arguments image_u32 : simpl never.
#[global] Arguments image_string : simpl never.

(** A string that can be told from its terminated image. *)
Definition no_nul (s : list byte) : Prop := x00 ∉ s.

#[global] Instance no_nul_dec s : Decision (no_nul s).
Proof. unfold no_nul. apply _. Defined.

#[export] Instance put_u8 : WirePut shl_u8 image_u8.
Proof. intros a mt pre cur H. by apply shl_u8_holds. Qed.
#[export] Instance put_u16 : WirePut shl_u16 image_u16.
Proof. intros a mt pre cur H. by apply shl_u16_holds. Qed.
#[export] Instance put_u32 : WirePut shl_u32 image_u32.
Proof. intros a mt pre cur H. by apply shl_u32_holds. Qed.
#[export] Instance put_string : WirePut shl_string image_string.
Proof.
  intros a mt pre cur H. apply shl_string_holds. unfold image_string in H.
  by autorewrite with zlist in H.
Qed.

#[export] Instance get_u8 : WireGet shr_u8 image_u8 (in_u 8) 0.
Proof. intros a Ha mt pre cur. by apply shr_u8_holds. Qed.
#[export] Instance get_u16 : WireGet shr_u16 image_u16 (in_u 16) 0.
Proof. intros a Ha mt pre cur. by apply shr_u16_holds. Qed.
#[export] Instance get_u32 : WireGet shr_u32 image_u32 (in_u 32) 0.
Proof. intros a Ha mt pre cur. by apply shr_u32_holds. Qed.
#[export] Instance get_string : WireGet shr_string image_string no_nul [].
Proof. intros a Ha mt pre cur. by apply shr_string_holds. Qed.

(** ** Sequences *)

Lemma puts_seq m1 m2 i1 i2 : puts m1 i1 → puts m2 i2 → puts (m1;; m2) (i1 ++ i2).
Proof.
  intros H1 H2 mt pre cur [Hn Hr]. eapply triple_bind; [apply H1; split; zl|].
  intros []. rewrite app_assoc. apply H2. split; zl.
Qed.

Lemma reads_bind {A B} (m : MB A) (k : A → MB B) i1 i2 a b :
  reads m i1 a → reads (k a) i2 b → reads (m ≫= k) (i1 ++ i2) b.
Proof.
  intros H1 H2 mt pre cur. rewrite <- app_assoc.
  eapply triple_bind_eq; [apply H1|]. rewrite app_assoc. apply H2.
Qed.

Lemma reads_map {A B} (m : MB A) (f : A → B) i a :
  reads m i a → reads (x ← m; mret (f x)) i (f a).
Proof. intros H mt pre cur. eapply triple_bind_eq; [apply H|]. apply triple_ret. Qed.

(** A composite written then read back. *)
Lemma put_get {A} put get image ok (init : A) `{!WirePut put image, !WireGet get image ok init} :
  ∀ a mt pre, ok a → room (zlen (image a)) pre [] →
    ⦃ holds mt pre [] ⦄ (put a;; get init)
    ⦃ λ r b, r = a ∧ holds mt (pre ++ image a) [] b ⦄.
Proof.
  intros a mt pre Ha Hr. eapply triple_bind; [by apply wire_put|]. intros [].
  simpl. rewrite <- (app_nil_r (image a)) at 1. by apply wire_get.
Qed.

(** Decomposes a composite writer or reader along its fields. *)
Ltac wire_puts :=
  repeat (apply puts_seq; [apply wire_put|]); apply wire_put.
Ltac wire_reads :=
  cbv beta;
  lazymatch goal with
  | |- reads (_ ≫= _) (_ ++ _) _ =>
      eapply reads_bind; [apply wire_get; solve [tauto|eauto]|]; wire_reads
  | |- reads _ _ _ =>
      first [ eapply reads_map; apply wire_get; solve [tauto|eauto]
            | apply wire_get; solve [tauto|eauto] ]
  end.

(** ** Arbitrary sequences of fields *)

Inductive field :=
  | F8 (v : Z)
  | F16 (v : Z)
  | F32 (v : Z)
  | FStr (s : list byte).

Definition write_field (f : field) : MB unit :=
  match f with
  | F8 v => shl_u8 v
  | F16 v => shl_u16 v
  | F32 v => shl_u32 v
  | FStr s => shl_string s
  end.

(** Reads a field of the shape of [f] into a fresh variable. *)
Definition read_like (f : field) : MB field :=
  match f with
  | F8 _ => v ← shr_u8 0; mret (F8 v)
  | F16 _ => v ← shr_u16 0; mret (F16 v)
  | F32 _ => v ← shr_u32 0; mret (F32 v)
  | FStr _ => s ← shr_string []; mret (FStr s)
  end.

Fixpoint write_fields (fs : list field) : MB unit :=
  match fs with
  | [] => mret tt
  | f :: fs' => write_field f;; write_fields fs'
  end.

Fixpoint read_like_all (fs : list field) : MB (list field) :=
  match fs with
  | [] => mret []
  | f :: fs' => x ← read_like f; xs ← read_like_all fs'; mret (x :: xs)
  end.

Definition image_field (f : field) : list byte :=
  match f with
  | F8 v => image_u8 v
  | F16 v => image_u16 v
  | F32 v => image_u32 v
  | FStr s => image_string s
  end.

Definition ok_field (f : field) : Prop :=
  match f with
  | F8 v => in_u 8 v
  | F16 v => in_u 16 v
  | F32 v => in_u 32 v
  | FStr s => no_nul s
  end.

Definition image_fields (fs : list field) : list byte := concat (map image_field fs).

Lemma write_fields_puts fs : puts (write_fields fs) (image_fields fs).
Proof.
  induction fs as [|f fs IH]; simpl.
  - intros mt pre cur _. rewrite app_nil_r.
    eapply triple_conseq; [apply triple_ret|done|]. by intros a s [_ H].
  - apply puts_seq; [|exact IH]. destruct f; cbn [write_field image_field]; apply wire_put.
Qed.

Lemma read_like_reads f : ok_field f → reads (read_like f) (image_field f) f.
Proof.
  destruct f; cbn [read_like image_field ok_field]; intros H; eapply reads_map; by apply wire_get.
Qed.

Lemma read_like_all_reads fs :
  Forall ok_field fs → reads (read_like_all fs) (image_fields fs) fs.
Proof.
  induction 1 as [|f fs Hf Hfs IH]; simpl.
  - intros mt pre cur. rewrite app_nil_r. apply triple_ret.
  - eapply reads_bind; [by apply read_like_reads|]. by eapply reads_map.
Qed.

(** ** Properties *)

(** C12: any sequence of well-typed integers and NUL-free strings that is written
    to a well-formed buffer without unread bytes is read back, in order and
    unchanged, by the matching read operators, and leaves no byte unread. *)
Theorem fields_roundtrip (b : MsgBuffer) (fs : list field) :
  wf b → contents b = [] → Forall ok_field fs →
  2 * (m_tail b + zlen (image_fields fs)) ≤ vec_max →
  ∃ b', (write_fields fs;; read_like_all fs) b = Ok (fs, b') ∧ wf b' ∧ contents b' = [].
Proof.
  intros Hwf Hc Hok Hr.
  destruct (wf_room_holds b (zlen (image_fields fs)) Hwf (zlen_nonneg _) Hr)
    as (pre & cur & Hb & Hroom & _ & Hcur).
  rewrite Hc in Hcur. subst cur.
  assert (HT : ⦃ holds (meta b) pre [] ⦄ (write_fields fs;; read_like_all fs)
                ⦃ λ r b', r = fs ∧ holds (meta b) (pre ++ image_fields fs) [] b' ⦄).
  { eapply triple_bind; [by apply write_fields_puts|]. intros []. simpl.
    rewrite <- (app_nil_r (image_fields fs)) at 1. by apply read_like_all_reads. }
  destruct (HT b Hb) as (r & b' & E & -> & Hb'). exists b'. split; [done|].
  split; [apply wf_holds|by eapply holds_contents].
  pose proof Hb' as [sl Hrep]. rewrite (rep_meta _ _ _ _ _ Hrep). by eexists _, _.
Qed.

Lemma fields_roundtrip_witness :
  ∃ b', (write_fields [F32 0x01020304; FStr [x61; x62]; F8 255; F16 0xABCD];;
         read_like_all [F32 0x01020304; FStr [x61; x62]; F8 255; F16 0xABCD])
          (MsgBuffer_make 2) = Ok ([F32 0x01020304; FStr [x61; x62]; F8 255; F16 0xABCD], b') ∧
        wf b' ∧ contents b' = [].
Proof.
  apply (fields_roundtrip (MsgBuffer_make 2)); [by vm_compute|by vm_compute| |by vm_compute].
  repeat constructor; try (by vm_compute). unfold no_nul.
  apply (bool_decide_unpack _). by vm_compute.
Defined.
