(* ===== verification/Proto.v ===== *)
(** * The message types (src/protocol/proto.h, src/protocol/proto.cpp)

    The header, the message bodies with their [encode] and [decode], and the
    [Request] and [Response] hierarchies as tagged unions with their virtual
    operations by case.  Strings are lists of bytes and may hold any byte. *)

From Stdlib Require Import ZArith Lia Strings.Byte.
From stdpp Require Import base list numbers.
From S2P Require Import Prelude.
From S2P Require Import Endian.
From S2P Require Import MsgBuffer.
From S2P Require Import Wire.

Module CmdType.
Definition BIND_CMD : Z := 0x00000001.
Definition BIND_CMD_RSP : Z := 0x80000001.
Definition ACT_CMD : Z := 0x00000002.
Definition ACT_CMD_RSP : Z := 0x80000002.
Definition DELIVER_MSG_CMD : Z := 0x0000003.
Definition DELIVER_MSG_CMD_RSP : Z := 0x8000003.
Definition AUDIT_TOKEN_CMD : Z := 0x00000004.
Definition AUDIT_RSP_TOKEN_CMD : Z := 0x80000004.
Definition AUDIT_RESULT_TOKEN_CMD : Z := 0x00000005.
End CmdType.

(** ** The header *)

Record Head := mkHead { m_len : Z; m_cmd : Z }.
Definition Head_init : Head := mkHead 0 0.
Definition sizeof_Head : Z := 8.

Definition Head_encode (h : Head) : MB unit := shl_u32 (m_len h);; shl_u32 (m_cmd h).
Definition Head_decode (h : Head) : MB Head :=
  len ← shr_u32 (m_len h);
  cmd ← shr_u32 (m_cmd h);
  mret (mkHead len cmd).
Definition Head_reset (h : Head) : MB unit := reset_u32 0 (m_len h);; reset_u32 4 (m_cmd h).

(** ** Bodies *)

Record DeliverRespBody := mkDeliverRespBody {
  r_status : Z;
  r_msg_id : list byte;
  r_msg_type : Z;
  r_svc_type : Z;
  r_token_id : list byte;
  r_session_id : list byte;
  r_kernel_id : list byte;
  r_detail : list byte;
  r_inspect_id : list byte;
  r_esStatisticsParam : list byte;
  r_text_is_sync : Z
}.
Definition DeliverRespBody_init : DeliverRespBody :=
  mkDeliverRespBody 0 [] 0 0 [] [] [] [] [] [] 0.

Definition DeliverRespBody_encode (b : DeliverRespBody) : MB unit :=
  shl_u32 (r_status b);;
  shl_string (r_msg_id b);;
  shl_u8 (r_msg_type b);;
  shl_u32 (r_svc_type b);;
  shl_string (r_token_id b);;
  shl_string (r_session_id b);;
  shl_string (r_kernel_id b);;
  shl_string (r_detail b);;
  shl_string (r_inspect_id b);;
  shl_string (r_esStatisticsParam b);;
  shl_u32 (r_text_is_sync b).

Record DeliverBody := mkDeliverBody {
  d_agent_id : list byte;
  d_msg_id : list byte;
  d_token_id : list byte;
  d_svc_type : Z;
  d_content_type : Z;
  d_timestamp : list byte;
  d_from : list byte;
  d_counts : Z;
  d_to : list byte;
  d_hash : list byte;
  d_content_length : Z;
  d_content_text : list byte;
  d_content_url : list byte;
  d_remark : list byte;
  d_file_name : list byte;
  d_is_review : Z;
  d_session_id : list byte;
  d_kernel_id : list byte;
  d_text_is_sync : Z
}.
Definition DeliverBody_init : DeliverBody :=
  mkDeliverBody [] [] [] 0 0 [] [] 0 [] [] 0 [] [] [] [] 0 [] [] 0.

Definition DeliverBody_decode (d : DeliverBody) : MB DeliverBody :=
  agent_id ← shr_string (d_agent_id d);
  msg_id ← shr_string (d_msg_id d);
  token_id ← shr_string (d_token_id d);
  svc_type ← shr_u32 (d_svc_type d);
  content_type ← shr_u8 (d_content_type d);
  timestamp ← shr_string (d_timestamp d);
  from ← shr_string (d_from d);
  counts ← shr_u32 (d_counts d);
  to ← shr_string (d_to d);
  hash ← shr_string (d_hash d);
  content_length ← shr_u32 (d_content_length d);
  content_text ← shr_string (d_content_text d);
  content_url ← shr_string (d_content_url d);
  remark ← shr_string (d_remark d);
  file_name ← shr_string (d_file_name d);
  is_review ← shr_u8 (d_is_review d);
  session_id ← shr_string (d_session_id d);
  kernel_id ← shr_string (d_kernel_id d);
  text_is_sync ← shr_u32 (d_text_is_sync d);
  mret (mkDeliverBody agent_id msg_id token_id svc_type content_type timestamp from
          counts to hash content_length content_text content_url remark file_name
          is_review session_id kernel_id text_is_sync).

Record AuditBody := mkAuditBody {
  a_msg_id : list byte;
  a_from : list byte;
  a_mo_time : list byte;
  a_svc_type : Z;
  a_to : list byte;
  a_chat_id : list byte;
  a_hash : list byte;
  a_msg_type : Z;
  a_content_len : Z;
  a_content : list byte;
  a_audit_type : Z;
  a_policy_id : list byte;
  a_policy_type : list byte;
  a_file_path : list byte;
  a_session_id : list byte;
  a_sys_id : list byte;
  a_to_counts : Z;
  a_token_id : list byte;
  a_content_url : list byte;
  a_remark : list byte;
  a_file_name : list byte;
  a_hp_id : list byte;
  a_report_type : Z;
  a_cmd : Z;
  a_is_review : Z
}.
Definition AuditBody_init : AuditBody :=
  mkAuditBody [] [] [] 0 [] [] [] 0 0 [] 0 [] [] [] [] [] 0 [] [] [] [] [] 0 0 0.

Definition AuditBody_encode (b : AuditBody) : MB unit :=
  shl_string (a_msg_id b);;
  shl_string (a_from b);;
  shl_string (a_to b);;
  shl_u8 (a_msg_type b);;
  shl_u32 (a_svc_type b);;
  shl_u32 (a_content_len b);;
  shl_string (a_content b);;
  shl_string (a_hash b);;
  shl_u8 (a_audit_type b);;
  shl_string (a_policy_id b);;
  shl_string (a_policy_type b);;
  shl_string (a_mo_time b);;
  shl_string (a_file_path b);;
  shl_string (a_session_id b);;
  shl_string (a_hp_id b);;
  shl_string (a_sys_id b);;
  shl_u32 (a_to_counts b);;
  shl_string (a_token_id b);;
  shl_string (a_content_url b);;
  shl_string (a_remark b);;
  shl_string (a_file_name b);;
  shl_u8 (a_report_type b);;
  shl_u32 (a_cmd b);;
  shl_u8 (a_is_review b).

(** [BindBody], also [BindRespBody]. *)
Record BindBody := mkBindBody { b_uid : list byte }.
Definition BindBody_init : BindBody := mkBindBody [].
Definition BindBody_encode (b : BindBody) : MB unit := shl_string (b_uid b).
Definition BindBody_decode (b : BindBody) : MB BindBody :=
  uid ← shr_string (b_uid b); mret (mkBindBody uid).

(** ** Requests: [Request] and its three subclasses

    The owner is the connection a weak pointer designates. *)
Definition owner : Type := option nat.

Inductive Request :=
  | RequestAct (h : Head) (c : owner)
  | RequestBind (h : Head) (c : owner) (body : BindBody)
  | RequestDeliver (h : Head) (c : owner) (body : DeliverBody).

Definition Request_head (r : Request) : Head :=
  match r with RequestAct h _ | RequestBind h _ _ | RequestDeliver h _ _ => h end.
Definition Request_owner (r : Request) : owner :=
  match r with RequestAct _ c | RequestBind _ c _ | RequestDeliver _ c _ => c end.
Definition Request_set_head (h : Head) (r : Request) : Request :=
  match r with
  | RequestAct _ c => RequestAct h c
  | RequestBind _ c b => RequestBind h c b
  | RequestDeliver _ c b => RequestDeliver h c b
  end.

Definition decode_head (r : Request) : MB Request :=
  h ← Head_decode (Request_head r); mret (Request_set_head h r).

Definition decode_body (r : Request) : MB Request :=
  match r with
  | RequestAct _ _ => mret r
  | RequestBind h c b => b' ← BindBody_decode b; mret (RequestBind h c b')
  | RequestDeliver h c b => b' ← DeliverBody_decode b; mret (RequestDeliver h c b')
  end.

(** [parse] of the subclasses; [RequestAct] has no body. *)
Definition parse (r : Request) : MB (bool * Request) :=
  r1 ← decode_head r;
  r2 ← decode_body r1;
  mret (true, r2).

(** ** Responses: [Response] and its subclasses *)

Inductive Response :=
  | ResponseAct (h : Head) (c : owner)
  | ResponseBind (h : Head) (c : owner) (body : BindBody)
  | ResponseDeliver (h : Head) (c : owner) (body : DeliverRespBody)
  | RequestAudit (h : Head) (c : owner) (body : AuditBody).

Definition Response_head (r : Response) : Head :=
  match r with
  | ResponseAct h _ | ResponseBind h _ _ | ResponseDeliver h _ _ | RequestAudit h _ _ => h
  end.
Definition Response_owner (r : Response) : owner :=
  match r with
  | ResponseAct _ c | ResponseBind _ c _ | ResponseDeliver _ c _ | RequestAudit _ c _ => c
  end.
Definition Response_set_head (h : Head) (r : Response) : Response :=
  match r with
  | ResponseAct _ c => ResponseAct h c
  | ResponseBind _ c b => ResponseBind h c b
  | ResponseDeliver _ c b => ResponseDeliver h c b
  | RequestAudit _ c b => RequestAudit h c b
  end.

Definition encode_head (r : Response) : MB unit := Head_encode (Response_head r).
Definition reset_head (r : Response) : MB unit := Head_reset (Response_head r).

Definition encode_body (r : Response) : MB unit :=
  match r with
  | ResponseAct _ _ => mret tt
  | ResponseBind _ _ b => BindBody_encode b
  | ResponseDeliver _ _ b => DeliverRespBody_encode b
  | RequestAudit _ _ b => AuditBody_encode b
  end.

(** [makeup] of [ResponseBind], [ResponseDeliver] and [RequestAudit]: the body
    first, then the header into the space skipped for it. *)
Definition makeup_body (r : Response) : MB (bool * Response) :=
  seek sizeof_Head;;
  encode_body r;;
  av ← gets available;
  let r' := Response_set_head (mkHead (u32 (av + sizeof_Head)) (m_cmd (Response_head r))) r in
  vomit sizeof_Head;;
  reset_head r';;
  mret (true, r').

Definition makeup (r : Response) : MB (bool * Response) :=
  match r with
  | ResponseAct _ _ => encode_head r;; mret (true, r)
  | _ => makeup_body r
  end.

(** ** Wire images *)

Definition image_Head (h : Head) : list byte := image_u32 (m_len h) ++ image_u32 (m_cmd h).
Definition ok_Head (h : Head) : Prop := in_u 32 (m_len h) ∧ in_u 32 (m_cmd h).

Definition image_BindBody (b : BindBody) : list byte := image_string (b_uid b).
Definition ok_BindBody (b : BindBody) : Prop := no_nul (b_uid b).

Definition image_DeliverRespBody (b : DeliverRespBody) : list byte :=
  image_u32 (r_status b) ++ image_string (r_msg_id b) ++ image_u8 (r_msg_type b) ++
  image_u32 (r_svc_type b) ++ image_string (r_token_id b) ++ image_string (r_session_id b) ++
  image_string (r_kernel_id b) ++ image_string (r_detail b) ++ image_string (r_inspect_id b) ++
  image_string (r_esStatisticsParam b) ++ image_u32 (r_text_is_sync b).

Definition image_DeliverBody (d : DeliverBody) : list byte :=
  image_string (d_agent_id d) ++ image_string (d_msg_id d) ++ image_string (d_token_id d) ++
  image_u32 (d_svc_type d) ++ image_u8 (d_content_type d) ++ image_string (d_timestamp d) ++
  image_string (d_from d) ++ image_u32 (d_counts d) ++ image_string (d_to d) ++
  image_string (d_hash d) ++ image_u32 (d_content_length d) ++ image_string (d_content_text d) ++
  image_string (d_content_url d) ++ image_string (d_remark d) ++ image_string (d_file_name d) ++
  image_u8 (d_is_review d) ++ image_string (d_session_id d) ++ image_string (d_kernel_id d) ++
  image_u32 (d_text_is_sync d).

(** The values the declared C++ types hold, with strings free of NUL. *)
Definition ok_DeliverBody (d : DeliverBody) : Prop :=
  no_nul (d_agent_id d) ∧ no_nul (d_msg_id d) ∧ no_nul (d_token_id d) ∧
  in_u 32 (d_svc_type d) ∧ in_u 8 (d_content_type d) ∧ no_nul (d_timestamp d) ∧
  no_nul (d_from d) ∧ in_u 32 (d_counts d) ∧ no_nul (d_to d) ∧ no_nul (d_hash d) ∧
  in_u 32 (d_content_length d) ∧ no_nul (d_content_text d) ∧ no_nul (d_content_url d) ∧
  no_nul (d_remark d) ∧ no_nul (d_file_name d) ∧ in_u 8 (d_is_review d) ∧
  no_nul (d_session_id d) ∧ no_nul (d_kernel_id d) ∧ in_u 32 (d_text_is_sync d).

Definition image_AuditBody (b : AuditBody) : list byte :=
  image_string (a_msg_id b) ++ image_string (a_from b) ++ image_string (a_to b) ++
  image_u8 (a_msg_type b) ++ image_u32 (a_svc_type b) ++ image_u32 (a_content_len b) ++
  image_string (a_content b) ++ image_string (a_hash b) ++ image_u8 (a_audit_type b) ++
  image_string (a_policy_id b) ++ image_string (a_policy_type b) ++ image_string (a_mo_time b) ++
  image_string (a_file_path b) ++ image_string (a_session_id b) ++ image_string (a_hp_id b) ++
  image_string (a_sys_id b) ++ image_u32 (a_to_counts b) ++ image_string (a_token_id b) ++
  image_string (a_content_url b) ++ image_string (a_remark b) ++ image_string (a_file_name b) ++
  image_u8 (a_report_type b) ++ image_u32 (a_cmd b) ++ image_u8 (a_is_review b).

Definition image_body (r : Response) : list byte :=
  match r with
  | ResponseAct _ _ => []
  | ResponseBind _ _ b => image_BindBody b
  | ResponseDeliver _ _ b => image_DeliverRespBody b
  | RequestAudit _ _ b => image_AuditBody b
  end.

(** ** The codecs meet the wire interface *)

#[export] Instance put_Head : WirePut Head_encode image_Head.
Proof. intros h. unfold Head_encode, image_Head. wire_puts. Qed.
#[export] Instance put_BindBody : WirePut BindBody_encode image_BindBody.
Proof. intros h. unfold BindBody_encode, image_BindBody. wire_puts. Qed.
#[export] Instance put_DeliverRespBody : WirePut DeliverRespBody_encode image_DeliverRespBody.
Proof. intros h. unfold DeliverRespBody_encode, image_DeliverRespBody. wire_puts. Qed.
#[export] Instance put_AuditBody : WirePut AuditBody_encode image_AuditBody.
Proof. intros h. unfold AuditBody_encode, image_AuditBody. wire_puts. Qed.

#[export] Instance get_Head : WireGet Head_decode image_Head ok_Head Head_init.
Proof.
  intros [len cmd] [Hl Hc]. simpl in *. unfold Head_decode, image_Head; cbn. wire_reads.
Qed.
#[export] Instance get_BindBody : WireGet BindBody_decode image_BindBody ok_BindBody BindBody_init.
Proof. intros [uid] H. unfold ok_BindBody, BindBody_decode, image_BindBody in *; cbn in *. wire_reads. Qed.
#[export] Instance get_DeliverBody :
  WireGet DeliverBody_decode image_DeliverBody ok_DeliverBody DeliverBody_init.
Proof.
  intros []. unfold ok_DeliverBody, DeliverBody_decode, image_DeliverBody; cbn.
  intros H. destruct_and! H. wire_reads.
Qed.

(** ** Making up a response *)

Lemma encode_body_puts r : puts (encode_body r) (image_body r).
Proof.
  destruct r; simpl; [|apply wire_put..].
  intros mt pre cur _. rewrite app_nil_r.
  eapply triple_conseq; [apply triple_ret|done|]. by intros a s [_ H].
Qed.

(** The header a made-up response carries: [ResponseAct] writes the one it has,
    the others compute the length. *)
Definition made_head (r : Response) : Head :=
  match r with
  | ResponseAct h _ => h
  | _ => mkHead (zlen (image_body r) + sizeof_Head) (m_cmd (Response_head r))
  end.

Definition image_Response (r : Response) : list byte := image_Head (made_head r) ++ image_body r.

Lemma Head_reset_holds mt pre old cur h :
  zlen old = sizeof_Head →
  ⦃ holds mt pre (old ++ cur) ⦄ Head_reset h ⦃ λ _, holds mt pre (image_Head h ++ cur) ⦄.
Proof.
  intros Hold. destruct (zsplit 4 old) as (o1 & o2 & -> & Ho1);
    [unfold sizeof_Head in Hold; lia|].
  assert (Ho2 : zlen o2 = 4) by (unfold sizeof_Head in Hold; zl).
  unfold Head_reset, image_Head. rewrite <- !app_assoc.
  eapply triple_bind; [exact (reset_u32_holds mt pre [] o1 (o2 ++ cur) (m_len h) Ho1)|].
  intros []. exact (reset_u32_holds mt pre (be_bytes 4 (m_len h)) o2 cur (m_cmd h) Ho2).
Qed.

Lemma makeup_body_holds mt pre gap slack r :
  zlen gap = sizeof_Head →
  in_u 32 (zlen (image_body r) + sizeof_Head) →
  room (zlen (image_body r)) (pre ++ gap) [] →
  ⦃ rep mt pre [] (gap ++ slack) ⦄ makeup_body r
  ⦃ λ res b,
      let h := mkHead (zlen (image_body r) + sizeof_Head) (m_cmd (Response_head r)) in
      res = (true, Response_set_head h r) ∧ holds mt pre (image_Head h ++ image_body r) b ⦄.
Proof.
  intros Hgap Hlen Hroom. unfold makeup_body.
  pose proof (seek_rep mt pre gap slack) as Hseek.
  pose proof (vomit_holds mt pre gap (image_body r)) as Hvomit.
  rewrite Hgap in Hseek, Hvomit.
  eapply triple_bind; [exact Hseek|]. intros [].
  eapply triple_bind with (Q := λ _, holds mt (pre ++ gap) (image_body r)).
  { eapply triple_conseq; [exact (encode_body_puts r mt (pre ++ gap) [] Hroom)| |done].
    intros s Hs. by exists slack. }
  intros []. eapply triple_bind_eq with
    (a := zlen (image_body r)) (Q := holds mt (pre ++ gap) (image_body r)).
  { intros b Hb. exists (zlen (image_body r)), b. split; [|done].
    unfold gets. by rewrite (holds_available _ _ _ _ Hb). }
  cbv zeta. rewrite u32_small by exact Hlen.
  eapply triple_bind; [exact Hvomit|]. intros []. unfold reset_head.
  set (h := mkHead _ _).
  replace (Response_head (Response_set_head h r)) with h by (by destruct r).
  eapply triple_bind; [by apply Head_reset_holds|]. intros []. apply triple_ret.
Qed.

Lemma makeup_holds mt pre gap slack r :
  zlen gap = sizeof_Head →
  in_u 32 (zlen (image_body r) + sizeof_Head) →
  room (zlen (image_body r) + sizeof_Head) pre [] →
  ⦃ rep mt pre [] (gap ++ slack) ⦄ makeup r
  ⦃ λ res b,
      res = (true, Response_set_head (made_head r) r) ∧ holds mt pre (image_Response r) b ⦄.
Proof.
  intros Hgap Hlen [Hr0 Hroom]. unfold image_Response. destruct r as [h c|h c b|h c b|h c b].
  - unfold makeup. eapply triple_bind with (Q := λ _, holds mt pre (image_Head h)).
    + eapply triple_conseq; [apply (wire_put (put := Head_encode) h mt pre [])| |done].
      * split; [zl|]. unfold image_Head, image_u32. simpl in *. unfold sizeof_Head in *. zl.
      * intros s Hs. by eexists.
    + intros []. cbn. rewrite app_nil_r. apply triple_ret.
  - eapply makeup_body_holds; [done..|]. split; zl.
  - eapply makeup_body_holds; [done..|]. split; zl.
  - eapply makeup_body_holds; [done..|]. split; zl.
Qed.

(** ** Properties *)

(** [DeliverBody::decode] inverts the wire image: from a buffer whose unread
    bytes start with the nineteen fields of a well-typed body it returns that
    body and consumes exactly those bytes. *)
Theorem DeliverBody_decode_image (b : MsgBuffer) (d : DeliverBody) (rest : list byte) :
  wf b → ok_DeliverBody d → contents b = image_DeliverBody d ++ rest →
  ∃ b', DeliverBody_decode DeliverBody_init b = Ok (d, b') ∧ wf b' ∧ contents b' = rest.
Proof.
  intros Hwf Hd Hc. apply wf_holds in Hwf as (pre & cur & Hb).
  rewrite (holds_contents _ _ _ _ Hb) in Hc. subst cur.
  destruct (wire_get (get := DeliverBody_decode) d Hd _ _ _ b Hb) as (r & b' & E & -> & Hb').
  exists b'. split; [done|]. split; [|by eapply holds_contents].
  destruct Hb' as [sl Hb']. by eapply rep_wf.
Qed.

Definition sample_DeliverBody : DeliverBody :=
  mkDeliverBody [x61] [x62; x63] [] 7 1 [x31] [] 0xFFFFFFFF [] [] 2 [x68; x69] [] [] [] 255 [] [x6b] 1.

Lemma DeliverBody_decode_image_witness :
  ∃ b', DeliverBody_decode DeliverBody_init
          (MsgBuffer_chars 0 none (image_DeliverBody sample_DeliverBody ++ [x7a]))
        = Ok (sample_DeliverBody, b') ∧ wf b' ∧ contents b' = [x7a].
Proof.
  apply DeliverBody_decode_image; [by vm_compute| |by vm_compute].
  repeat split; try (by vm_compute); apply (bool_decide_unpack _); by vm_compute.
Defined.

(** A bind response made up by [ResponseBind::makeup] in a fresh buffer is
    parsed by [RequestBind::parse]: the body is returned, with the command of
    the response and a length that counts the header and the body. *)
Theorem bind_makeup_parse (h h' : Head) (c c' : owner) (body : BindBody) :
  no_nul (b_uid body) → in_u 32 (m_cmd h) → zlen (b_uid body) < 2 ^ 31 →
  ∃ r' b,
    (r ← makeup (ResponseBind h c body); parse (RequestBind h' c' BindBody_init))
      (MsgBuffer_make m_default_buffer_size) = Ok ((true, r'), b) ∧
    r' = RequestBind (mkHead (zlen (b_uid body) + 1 + sizeof_Head) (m_cmd h)) c' body ∧
    contents b = [].
Proof.
  intros Hs Hcmd Hl. pose proof (zlen_nonneg (b_uid body)) as Hl0.
  set (r := ResponseBind h c body).
  assert (Himg : zlen (image_body r) = zlen (b_uid body) + 1).
  { unfold r; simpl. unfold image_BindBody, image_string. by rewrite zlen_app. }
  assert (HT : ⦃ rep (0, none) [] [] (zreplicate 1024 x00) ⦄
    (r ← makeup r; parse (RequestBind h' c' BindBody_init))
    ⦃ λ p b, p = (true, RequestBind (mkHead (zlen (b_uid body) + 1 + sizeof_Head) (m_cmd h)) c' body) ∧
      holds (0, none) (image_Response r) [] b ⦄).
  { eapply triple_bind_eq.
    - apply (makeup_holds (0, none) [] (zreplicate 8 x00) (zreplicate 1016 x00)); [done| |];
        rewrite Himg; unfold room, in_u, sizeof_Head, vec_max;
        change (zlen (@nil byte)) with 0; lia.
    - unfold image_Response. rewrite <- (app_nil_r (image_Head _ ++ _)) at 1. rewrite <- app_assoc.
      unfold parse, decode_head.
      assert (Hh : ok_Head (made_head r)).
      { split; simpl; [|done]. change (image_BindBody body) with (image_body r).
        rewrite Himg. unfold in_u, sizeof_Head. lia. }
      assert (Hreads : reads (Head_decode h') (image_Head (made_head r)) (made_head r)).
      { intros mt pre cur. destruct Hh as [H1 H2]. unfold Head_decode, image_Head.
        eapply reads_bind; [by intros ???; apply shr_u32_holds|].
        eapply reads_map with (f := λ x, mkHead (m_len (made_head r)) x).
        by intros ???; apply shr_u32_holds. }
      eapply triple_bind_eq; [eapply reads_map with (i := image_Head (made_head r)); apply Hreads|].
      eapply triple_bind_eq.
      + simpl. eapply reads_map with (i := image_BindBody body).
        by apply (wire_get (get := BindBody_decode)).
      + change (image_BindBody body) with (image_body r). simpl app.
        eapply triple_conseq; [apply triple_ret|done|]. intros a s [-> H]. split; [|done].
        unfold made_head, r. simpl. change (image_BindBody body) with (image_body r).
        by rewrite Himg. }
  destruct (HT (MsgBuffer_make m_default_buffer_size)) as (p & b & E & -> & Hb).
  { apply make_rep. unfold vec_max, m_default_buffer_size. lia. }
  eexists _, b. split; [exact E|]. split; [done|]. by eapply holds_contents.
Qed.

Lemma bind_makeup_parse_witness :
  ∃ r' b,
    (r ← makeup (ResponseBind (mkHead 0 CmdType.BIND_CMD_RSP) None (mkBindBody [x75; x31]));
     parse (RequestBind Head_init (Some 3%nat) BindBody_init))
      (MsgBuffer_make m_default_buffer_size) = Ok ((true, r'), b) ∧
    r' = RequestBind (mkHead (zlen [x75; x31] + 1 + sizeof_Head) CmdType.BIND_CMD_RSP) (Some 3%nat)
           (mkBindBody [x75; x31]) ∧
    contents b = [].
Proof.
  apply (bind_makeup_parse (mkHead 0 CmdType.BIND_CMD_RSP) Head_init None (Some 3%nat)
           (mkBindBody [x75; x31])); [|by vm_compute..].
  apply (bool_decide_unpack _). by vm_compute.
Defined.
