(* ===== verification/Framing.v ===== *)
(** * Framing: the read loop of a connection against a stream parser

    [classify] is what a byte string accumulated so far is to the frame check,
    and [split_frames] the reference parser of a whole stream.  The main result:
    however the kernel cuts the stream into reads, the read loop delivers
    exactly the frames of the stream, one buffer each, never faults, and never
    asks for a byte of the next frame. *)

From Stdlib Require Import ZArith Lia Strings.Byte.
From stdpp Require Import base list numbers.
From S2P Require Import Prelude.
From S2P Require Import Endian.
From S2P Require Import MsgBuffer.
From S2P Require Import ObjectPool.
From S2P Require Import RepeatTimer.
From S2P Require Import Connection.

(** ** The reference parser *)

(** The length of the frame that starts with [s]: the length field and the
    checksum behind the bytes it counts. *)
Definition frame_len (s : list byte) : Z := u32 (be_value (ztake 4 (zdrop 4 s)) + 2).

Definition classify (s : list byte) : PackageStat :=
  if zlen s <? g_proto_head_len then NEED_HEAD
  else if bool_decide (ztake 4 s ≠ g_head_magic_num) then INCORRECT
  else if (frame_len s >? m_package_len_max) || (frame_len s <? g_proto_head_len + 2) then INCORRECT
  else if zlen s <? frame_len s then NEED_BODY
  else WHOLE.

(** The package length the check leaves in the buffer. *)
Definition checked_packlen (s : list byte) : Z :=
  if zlen s <? g_proto_head_len then 0
  else if bool_decide (ztake 4 s ≠ g_head_magic_num) then 0
  else frame_len s.

(** How many bytes are missing for the next decision. *)
Definition needed (s : list byte) : Z :=
  match classify s with
  | NEED_HEAD => g_proto_head_len - zlen s
  | NEED_BODY => frame_len s - zlen s
  | _ => 0
  end.

(** A complete frame and nothing more. *)
Definition is_frame (f : list byte) : Prop := classify f = WHOLE ∧ zlen f = frame_len f.

Fixpoint split_frames_fuel (fuel : nat) (s : list byte) : list (list byte) * list byte :=
  match fuel with
  | O => ([], s)
  | S fuel' =>
      match classify s with
      | WHOLE =>
          let '(fs, rest) := split_frames_fuel fuel' (zdrop (frame_len s) s) in
          (ztake (frame_len s) s :: fs, rest)
      | _ => ([], s)
      end
  end.

(** Every frame takes at least one byte, so the length of the stream is fuel
    enough. *)
Definition split_frames (s : list byte) : list (list byte) * list byte :=
  split_frames_fuel (length s) s.

(** ** The frame check computes [classify] *)

Lemma frame_len_range s : in_u 32 (frame_len s).
Proof. apply u32_range. Qed.

Lemma classify_whole s :
  classify s = WHOLE →
  g_proto_head_len + 2 ≤ frame_len s ∧ frame_len s ≤ m_package_len_max ∧
  frame_len s ≤ zlen s ∧ ztake 4 s = g_head_magic_num.
Proof.
  unfold classify. destruct (_ <? _); [done|]. case_bool_decide as Hm; [done|].
  rewrite Z.gtb_ltb.
  destruct (Z.ltb_spec m_package_len_max (frame_len s)); [done|].
  destruct (Z.ltb_spec (frame_len s) (g_proto_head_len + 2)); [done|]. simpl.
  destruct (Z.ltb_spec (zlen s) (frame_len s)); [done|]. intros _.
  split; [done|]. split; [done|]. split; [done|].
  by destruct (decide (ztake 4 s = g_head_magic_num)).
Qed.

Lemma classify_need_body s :
  classify s = NEED_BODY →
  g_proto_head_len ≤ zlen s < frame_len s ∧ frame_len s ≤ m_package_len_max ∧
  g_proto_head_len + 2 ≤ frame_len s ∧ ztake 4 s = g_head_magic_num.
Proof.
  unfold classify. destruct (Z.ltb_spec (zlen s) g_proto_head_len); [done|].
  case_bool_decide as Hm; [done|]. rewrite Z.gtb_ltb.
  destruct (Z.ltb_spec m_package_len_max (frame_len s)); [done|].
  destruct (Z.ltb_spec (frame_len s) (g_proto_head_len + 2)); [done|]. simpl.
  destruct (Z.ltb_spec (zlen s) (frame_len s)); [|done]. intros _.
  split; [lia|]. split; [done|]. split; [done|].
  by destruct (decide (ztake 4 s = g_head_magic_num)).
Qed.

Lemma classify_need_head s : classify s = NEED_HEAD ↔ zlen s < g_proto_head_len.
Proof.
  unfold classify. destruct (Z.ltb_spec (zlen s) g_proto_head_len); [done|].
  split; [|lia]. repeat (case_bool_decide || case_match); done.
Qed.

(** The header of a string is decided by its first eight bytes. *)
Lemma header_app s t :
  8 ≤ zlen s → frame_len (s ++ t) = frame_len s ∧ ztake 4 (s ++ t) = ztake 4 s.
Proof.
  intros H. split.
  - unfold frame_len. rewrite zdrop_app_le by lia. rewrite ztake_app_le; [done|].
    rewrite zlen_drop. lia.
  - apply ztake_app_le. lia.
Qed.

Lemma checked_packlen_head s : classify s = NEED_HEAD → checked_packlen s = 0.
Proof.
  rewrite classify_need_head. unfold checked_packlen. intros. by zguard.
Qed.

Lemma checked_packlen_magic s :
  g_proto_head_len ≤ zlen s → ztake 4 s = g_head_magic_num → checked_packlen s = frame_len s.
Proof.
  intros. unfold checked_packlen. zguard. by rewrite bool_decide_eq_false_2 by auto.
Qed.

(** The value the magic number is compared as is the number itself. *)
Lemma magic_value w :
  zlen w = 4 → (le_value w =? le_value g_head_magic_num) = bool_decide (w = g_head_magic_num).
Proof.
  intros Hw. case_bool_decide as H; [by subst|]. apply Z.eqb_neq. intros E. apply H.
  apply le_value_inj; [|done]. unfold zlen in Hw. unfold g_head_magic_num. simpl. lia.
Qed.

(** The second half of the check, once the package length is known. *)
Definition check_len (mt : Z * BufferStat) (s : list byte) : PackageStat :=
  if (mt.1 >? m_package_len_max) || (mt.1 <? g_proto_head_len + 2) then INCORRECT
  else if zlen s <? mt.1 then NEED_BODY else WHOLE.

Lemma check_len_holds mt pre s :
  ⦃ holds mt pre s ⦄
    (packlen ← gets m_packlen;
     if (packlen >? m_package_len_max) || (packlen <? g_proto_head_len + 2)
     then mret INCORRECT
     else av ← gets available; if av <? packlen then mret NEED_BODY else mret WHOLE : MB PackageStat)
  ⦃ λ r b, r = check_len mt s ∧ holds mt pre s b ⦄.
Proof.
  eapply triple_bind_eq; [apply packlen_holds|]. unfold check_len.
  destruct (_ || _); [apply triple_ret|].
  eapply triple_bind_eq; [apply available_holds|]. destruct (_ <? _); apply triple_ret.
Qed.

Lemma classify_check_len s i :
  g_proto_head_len ≤ zlen s → ztake 4 s = g_head_magic_num →
  classify s = check_len (frame_len s, i) s.
Proof.
  intros Hl Hm. unfold classify, check_len. zguard. by rewrite bool_decide_eq_false_2 by auto.
Qed.

Lemma PackageCheck_holds pk i pre s :
  (pk = 0 ∨ (pk = frame_len s ∧ g_proto_head_len ≤ zlen s ∧ ztake 4 s = g_head_magic_num)) →
  ⦃ holds (pk, i) pre s ⦄ PackageCheck
  ⦃ λ r b, r = classify s ∧ holds (checked_packlen s, i) pre s b ⦄.
Proof.
  intros Hpk. unfold PackageCheck. eapply triple_bind_eq; [apply packlen_holds|].
  cbn [fst]. destruct (Z.eqb_spec pk 0) as [->|Hne].
  2: { destruct Hpk as [|(-> & Hl & Hm)]; [done|].
       eapply triple_bind_eq; [apply triple_ret|].
       rewrite (classify_check_len s i), checked_packlen_magic by done. apply check_len_holds. }
  clear Hpk. destruct (Z.lt_ge_cases (zlen s) g_proto_head_len) as [Hl|Hl].
  { eapply triple_bind_eq.
    - eapply triple_bind_eq; [apply available_holds|]. zguard. apply triple_ret.
    - apply classify_need_head in Hl. rewrite Hl, checked_packlen_head by done. apply triple_ret. }
  unfold g_proto_head_len in Hl.
  destruct (zsplit 4 s) as (w & s' & -> & Hw); [lia|].
  destruct (zsplit 4 s') as (lf & s'' & -> & Hlf); [zl|].
  assert (Hw4 : ztake 4 (w ++ lf ++ s'') = w) by (rewrite <- Hw; apply ztake_app).
  assert (Hfl : frame_len (w ++ lf ++ s'') = u32 (be_value lf + 2)).
  { unfold frame_len. replace (zdrop 4 _) with (lf ++ s'') by (rewrite <- Hw; by rewrite zdrop_app).
    replace (ztake 4 _) with lf by (rewrite <- Hlf; by rewrite ztake_app). done. }
  destruct (decide (w = g_head_magic_num)) as [Hmagic|Hmagic].
  - (* the number matches: the length is read and checked *)
    eapply triple_bind_eq with (Q := holds (frame_len (w ++ lf ++ s''), i) pre (w ++ lf ++ s'')).
    + eapply triple_bind_eq; [apply available_holds|]. unfold g_proto_head_len. zguard.
      eapply triple_bind_eq; [apply memory_holds|]. cbv beta. rewrite <- Hw at 1.
      eapply triple_bind_eq; [apply read_front_holds|]. rewrite magic_value by done.
      rewrite bool_decide_eq_true_2 by done. cbn [negb].
      rewrite <- Hw at 1. eapply triple_bind; [apply consume_holds|]. intros [].
      assert (Hlv : lf = be_bytes 4 (be_value lf)).
      { rewrite <- (be_bytes_value lf) at 1. f_equal. unfold zlen in Hlf. lia. }
      assert (Hlr : in_u 32 (be_value lf)).
      { pose proof (be_value_range lf) as Hr. by rewrite Hlf in Hr. }
      pose proof (peek_u32_holds (0, i) (pre ++ w) s'' (be_value lf) Hlr) as Hpeek.
      rewrite <- Hlv in Hpeek.
      eapply triple_bind_eq; [exact Hpeek|].
      eapply triple_bind; [apply set_packlen_holds|]. intros [].
      rewrite <- Hw at 1.
      eapply triple_bind; [apply vomit_holds|]. intros []. rewrite Hfl. apply triple_ret.
    + rewrite (classify_check_len _ i), checked_packlen_magic
        by (unfold g_proto_head_len; congruence || done). apply check_len_holds.
  - eapply triple_bind_eq with (a := Some INCORRECT).
    + eapply triple_bind_eq; [apply available_holds|]. unfold g_proto_head_len. zguard.
      eapply triple_bind_eq; [apply memory_holds|]. cbv beta. rewrite <- Hw at 1.
      eapply triple_bind_eq; [apply read_front_holds|]. rewrite magic_value by done.
      rewrite bool_decide_eq_false_2 by done. cbn [negb]. apply triple_ret.
    + unfold classify, checked_packlen, g_proto_head_len. rewrite Hw4. zguard.
      rewrite bool_decide_eq_true_2 by done. apply triple_ret.
Qed.

(** ** Buffers, events and the pool along the read loop *)

Definition task_of (e : conn_event) : option MsgBuffer :=
  match e with AddTask b => Some b | _ => None end.

(** The frames handed to the worker pool so far. *)
Definition tasks (c : Connection) : list MsgBuffer := omap task_of (c_events c).

(** A buffer that holds exactly the frame [f], checked and marked valid. *)
Definition frame_buffer (b : MsgBuffer) (f : list byte) : Prop :=
  is_frame f ∧ holds (frame_len f, valid) [] f b.

(** The pool of a connection only ever holds cleared buffers. *)
Definition pool_fresh (p : ObjectPool MsgBuffer) : Prop :=
  Forall (λ b, b = MsgBuffer_make m_default_buffer_size) (m_free_list p) ∧
  m_construct p = new_buffer.

Lemma pool_get_fresh p :
  pool_fresh p →
  ∃ p', pool_get p = Ok (MsgBuffer_make m_default_buffer_size, p') ∧ pool_fresh p'.
Proof.
  unfold pool_fresh, pool_get. intros [Hf Hc]. destruct (m_free_list p) as [|b rest].
  - rewrite Hc. eexists. split; [done|]. split; [constructor|done].
  - apply Forall_cons_1 in Hf as [-> Hf]. by eexists.
Qed.

Lemma recycle_fresh d c :
  pool_fresh (m_msg_pool c) →
  ∃ c', recycle d c = Ok (tt, c') ∧ pool_fresh (m_msg_pool c') ∧
    m_recv_buffer c' = m_recv_buffer c ∧ m_send_buffer_list c' = m_send_buffer_list c ∧
    m_socket c' = m_socket c ∧ m_stats c' = m_stats c ∧ c_events c' = c_events c ∧
    m_info c' = m_info c ∧ m_holder c' = m_holder c ∧ m_repeat_timer c' = m_repeat_timer c.
Proof.
  intros [Hf Hc]. unfold recycle, on_buffer. rewrite clear_fresh.
  eexists. split; [done|]. simpl. split; [|done]. split; [|done]. simpl.
  apply Forall_app. split; [done|by repeat constructor].
Qed.

(** A read that is under way when something else closes the connection is completed all the same: what
    the loop does is stated for an open socket and for a closed one, as [opened] says. *)
Section Opened.
Context (opened : bool).

(** The state of a connection whose read loop waits for [n] bytes behind [cur]. *)
Record reading (mt : Z * BufferStat) (cur : list byte) (n : Z) (out : list MsgBuffer)
    (c : Connection) : Prop := mkReading {
  reading_buffer : ∃ b slack,
    m_recv_buffer c = Some b ∧ rep mt [] cur slack b ∧ n ≤ zlen slack;
  reading_reads : s_reads (m_socket c) = [mkRead (zlen cur) n];
  reading_open : is_open (m_socket c) = opened;
  reading_pool : pool_fresh (m_msg_pool c);
  reading_tasks : tasks c = out
}.

(** The same before the next read is posted. *)
Record between (mt : Z * BufferStat) (cur : list byte) (out : list MsgBuffer)
    (c : Connection) : Prop := mkBetween {
  between_buffer : ∃ b, m_recv_buffer c = Some b ∧ holds mt [] cur b;
  between_reads : s_reads (m_socket c) = [];
  between_open : is_open (m_socket c) = opened;
  between_pool : pool_fresh (m_msg_pool c);
  between_tasks : tasks c = out
}.

(** The read loop has ended: no read is posted and the socket is closed. *)
Record stopped (out : list MsgBuffer) (c : Connection) : Prop := mkStopped {
  stopped_reads : s_reads (m_socket c) = [];
  stopped_closed : is_open (m_socket c) = false;
  stopped_tasks : tasks c = out
}.

Lemma with_recv_ok {A} (m : MB A) c b a b' :
  m_recv_buffer c = Some b → m b = Ok (a, b') →
  with_recv m c = Ok (a, set_recv_buffer (Some b') c).
Proof. intros H1 H2. unfold with_recv. by rewrite H1, H2. Qed.

Lemma with_recv_between {A} (m : MB A) mt cur out a mt' :
  ⦃ holds mt [] cur ⦄ m ⦃ λ r b, r = a ∧ holds mt' [] cur b ⦄ →
  ⦃ between mt cur out ⦄ with_recv m ⦃ λ r c, r = a ∧ between mt' cur out c ⦄.
Proof.
  intros Hm c [(b & E & Hb) H2 H3 H4 H5].
  destruct (Hm b Hb) as (r & b' & Em & -> & Hb').
  exists a. eexists. split; [by eapply with_recv_ok|]. split; [done|].
  constructor; simpl; auto. by exists b'.
Qed.

Lemma async_read_between mt cur n out :
  room n [] cur → in_u 64 n →
  ⦃ between mt cur out ⦄ async_read n ⦃ λ _, reading mt cur n out ⦄.
Proof.
  intros Hr Hn c [(b & E & Hb) H2 H3 H4 H5].
  destruct (adjust_rep mt [] cur n Hr b Hb) as ([] & b' & Ea & slack & Hrep & Hsl).
  unfold async_read. rewrite (bind_ok (gets id) _ c c c) by done. rewrite E.
  rewrite (bind_ok (mret tt) _ c tt c) by done.
  rewrite (bind_ok _ _ _ _ _ (with_recv_ok _ _ _ _ _ E Ea)).
  rewrite (bind_ok _ _ _ _ _
    (with_recv_ok (gets data) (set_recv_buffer (Some b') c) b' (data b') b' eq_refl eq_refl)).
  eexists tt, _. split; [done|]. constructor; simpl; auto.
  - by exists b', slack.
  - unfold data. rewrite H2, (rep_tail _ _ _ _ _ Hrep). done.
Qed.

(** Reading starts over on a fresh buffer when the previous one was handed on. *)
Lemma async_read_fresh n c out :
  room n [] [] → in_u 64 n → m_recv_buffer c = None → s_reads (m_socket c) = [] →
  is_open (m_socket c) = opened → pool_fresh (m_msg_pool c) → tasks c = out →
  ∃ c', async_read n c = Ok (tt, c') ∧ reading (0, none) [] n out c'.
Proof.
  intros Hr Hn E H2 H3 H4 H5. destruct (pool_get_fresh _ H4) as (p' & Eg & Hp').
  set (b0 := MsgBuffer_make m_default_buffer_size) in *.
  set (c1 := set_recv_buffer (Some b0) (set_pool p' c)).
  assert (Hbt : between (0, none) [] out c1).
  { constructor; simpl; auto. exists b0. split; [done|].
    eexists. apply make_rep. unfold vec_max, m_default_buffer_size. lia. }
  destruct (async_read_between _ _ _ _ Hr Hn c1 Hbt) as ([] & c' & Ea & Hc').
  exists c'. split; [|done]. rewrite <- Ea.
  unfold async_read, gets, mbind, M_bind, id. rewrite E. cbn beta iota.
  unfold use, with_pool. rewrite Eg. done.
Qed.

Lemma close_between mt cur out c :
  between mt cur out c → ∃ c', close c = Ok (tt, c') ∧ stopped out c'.
Proof.
  intros [_ H2 H3 H4 H5]. unfold close, gets, mbind, M_bind, id. rewrite H3. destruct opened; simpl; [|by exists c].
  destruct (m_holder c); eexists; (split; [done|]); constructor; simpl; auto.
  unfold tasks in *; simpl. by rewrite omap_app, H5, app_nil_r.
Qed.

(** ** One completion *)

(** What the owner's read handler does with a whole frame: it takes the receive
    buffer away and queues it for a worker, and leaves the socket and the pool
    alone.  The servers and clients of the program are instances. *)
Class FrameHandler (h : Z → MC unit) : Prop :=
  takes_frame : ∀ n c b, m_recv_buffer c = Some b →
    ∃ c', h n c = Ok (tt, c') ∧ m_recv_buffer c' = None ∧ m_socket c' = m_socket c ∧
      m_msg_pool c' = m_msg_pool c ∧ c_events c' = c_events c ++ [AddTask b].

(** A string the read loop waits on. *)
Definition partial (s : list byte) : Prop := classify s = NEED_HEAD ∨ classify s = NEED_BODY.

Definition waiting (s : list byte) (out : list MsgBuffer) (c : Connection) : Prop :=
  partial s ∧ reading (checked_packlen s, none) s (needed s) out c.

Lemma partial_packlen s t :
  partial s →
  checked_packlen s = 0 ∨
    (checked_packlen s = frame_len (s ++ t) ∧ g_proto_head_len ≤ zlen (s ++ t) ∧
     ztake 4 (s ++ t) = g_head_magic_num).
Proof.
  intros [H|H]; [left; by apply checked_packlen_head|right].
  apply classify_need_body in H as ([Hl _] & _ & _ & Hm). unfold g_proto_head_len in *.
  destruct (header_app s t) as [-> ->]; [lia|].
  rewrite checked_packlen_magic by done. split; [done|]. split; [zl|done].
Qed.

Lemma needed_bounds s :
  partial s → 1 ≤ needed s ∧ zlen s + needed s ≤ m_package_len_max.
Proof.
  unfold partial, needed, m_package_len_max. intros [H|H]; rewrite H.
  - apply classify_need_head in H. unfold g_proto_head_len in *. zl.
  - apply classify_need_body in H as (? & ? & ? & _). unfold m_package_len_max in *. lia.
Qed.

Lemma needed_whole s t :
  partial s → zlen t ≤ needed s → classify (s ++ t) = WHOLE → is_frame (s ++ t).
Proof.
  intros Hp Ht Hw. split; [done|]. apply classify_whole in Hw as (H1 & H2 & H3 & _).
  unfold needed, partial, g_proto_head_len in *. destruct Hp as [H|H]; rewrite H in Ht.
  - apply classify_need_head in H. unfold g_proto_head_len in *. zl.
  - apply classify_need_body in H as ([Hl ?] & _). unfold g_proto_head_len in *.
    destruct (header_app s t) as [E _]; [lia|]. rewrite E in *. zl.
Qed.

(** The size of the next read, through the [int] it is stored in. *)
Lemma needed_int s : partial s → u64 (i32 (u64 (needed s))) = needed s.
Proof.
  intros Hp. pose proof (needed_bounds s Hp). pose proof (zlen_nonneg s).
  unfold m_package_len_max in *.
  rewrite (u64_small (needed s)) by (unfold in_u; lia).
  rewrite i32_small by lia. apply u64_small. unfold in_u. lia.
Qed.

Lemma needed_room s : partial s → room (needed s) [] s ∧ in_u 64 (needed s).
Proof.
  intros Hp. pose proof (needed_bounds s Hp). pose proof (zlen_nonneg s).
  unfold m_package_len_max, room, in_u, vec_max in *. change (zlen (@nil byte)) with 0. lia.
Qed.

(** The tail of [handle_read] when it reads on. *)
Lemma read_on_partial s out :
  partial s →
  ⦃ between (checked_packlen s, none) s out ⦄ async_read (u64 (i32 (u64 (needed s))))
  ⦃ λ _, waiting s out ⦄.
Proof.
  intros Hp. rewrite needed_int by done. destruct (needed_room s Hp) as [Hr Hn].
  eapply triple_conseq; [by apply async_read_between|done|]. by intros [] c Hc.
Qed.

(** The kernel's bytes have arrived behind [cur] and are not yet committed. *)
Record loaded (mt : Z * BufferStat) (cur chunk : list byte) (out : list MsgBuffer)
    (c : Connection) : Prop := mkLoaded {
  loaded_buffer : ∃ b slack, m_recv_buffer c = Some b ∧ rep mt [] cur (chunk ++ slack) b;
  loaded_reads : s_reads (m_socket c) = [];
  loaded_open : is_open (m_socket c) = opened;
  loaded_pool : pool_fresh (m_msg_pool c);
  loaded_tasks : tasks c = out
}.

(** A frame has been handed on and no receive buffer is in place. *)
Record handed (out : list MsgBuffer) (c : Connection) : Prop := mkHanded {
  handed_buffer : m_recv_buffer c = None;
  handed_reads : s_reads (m_socket c) = [];
  handed_open : is_open (m_socket c) = opened;
  handed_pool : pool_fresh (m_msg_pool c);
  handed_tasks : tasks c = out
}.

Lemma on_read_loaded h mt cur n out chunk c :
  reading mt cur n out c → zlen chunk ≤ n →
  ∃ c1, loaded mt cur chunk out c1 ∧
    ∀ ec, on_read h ec chunk c = handle_read h n ec (zlen chunk) c1.
Proof.
  intros [(b & slack & E & Hrep & Hsl) H2 H3 H4 H5] Hchunk.
  destruct (zsplit (zlen chunk) slack) as (s1 & s2 & -> & Hs1); [zl|].
  destruct (write_slack_rep mt [] cur s1 s2 chunk Hs1 b Hrep) as ([] & b1 & Ew & Hrep1).
  set (s := m_socket c) in *.
  set (c0 := set_socket (mkSocket (is_open s) [] (s_writes s) (s_sent s)) c).
  exists (set_recv_buffer (Some b1) c0). split.
  - constructor; simpl; auto. by exists b1, s2.
  - intros ec. unfold on_read. rewrite (bind_ok (gets id) _ c c c) by done.
    fold s. rewrite H2. cbn beta iota zeta. rewrite (bind_ok (modify _) _ c tt c0) by done.
    assert (E0 : m_recv_buffer c0 = Some b) by done.
    by rewrite (bind_ok _ _ _ _ _ (with_recv_ok _ _ _ _ _ E0 Ew)).
Qed.

Lemma commit_loaded mt cur chunk out :
  ⦃ loaded mt cur chunk out ⦄ with_recv (commit (zlen chunk))
  ⦃ λ r c, r = tt ∧ between mt (cur ++ chunk) out c ⦄.
Proof.
  intros c [(b & slack & E & Hrep) H2 H3 H4 H5].
  destruct (commit_rep mt [] cur chunk slack b Hrep) as ([] & b' & Ec & Hrep').
  eexists tt, _. split; [by eapply with_recv_ok|]. split; [done|].
  constructor; simpl; auto. exists b'. split; [done|by eexists].
Qed.

Lemma PackageCheck_between s chunk out :
  partial s →
  ⦃ between (checked_packlen s, none) (s ++ chunk) out ⦄ with_recv PackageCheck
  ⦃ λ r c, r = classify (s ++ chunk) ∧
      between (checked_packlen (s ++ chunk), none) (s ++ chunk) out c ⦄.
Proof. intros Hp. apply with_recv_between, PackageCheck_holds. by apply partial_packlen. Qed.

Lemma close_between_triple mt cur out :
  ⦃ between mt cur out ⦄ (close;; mret (false, -1)) ⦃ λ r c, r = (false, -1) ∧ stopped out c ⦄.
Proof.
  intros c Hc. destruct (close_between _ _ _ _ Hc) as (c' & E & Hs).
  exists (false, -1), c'. split; [by rewrite (bind_ok _ _ _ _ _ E)|done].
Qed.

Section ReadLoop.
Context (h : Z → MC unit) `{!FrameHandler h}.

Lemma handler_between f n out :
  is_frame f →
  ⦃ between (frame_len f, none) f out ⦄ (with_recv (set_indicator valid);; h n)
  ⦃ λ _ c, ∃ b, frame_buffer b f ∧ handed (out ++ [b]) c ⦄.
Proof.
  intros Hf. eapply triple_bind.
  { apply (with_recv_between _ _ _ _ tt (frame_len f, valid)).
    eapply triple_conseq; [apply set_indicator_holds|done|]. by intros [] b Hb. }
  intros [] c [_ [(b & E & Hb) H2 H3 H4 H5]].
  destruct (takes_frame n c b E) as (c' & Eh & K1 & K2 & K3 & K4).
  exists tt, c'. split; [done|]. exists b. split; [by split|].
  constructor; [done|by rewrite K2..|by rewrite K3|].
  unfold tasks. rewrite K4, omap_app. simpl. by rewrite <- H5.
Qed.

Lemma read_outcome_ok s chunk n out :
  partial s → zlen chunk ≤ needed s →
  ⦃ loaded (checked_packlen s, none) s chunk out ⦄ read_outcome h n ec_ok (zlen chunk)
  ⦃ λ ret c,
    let s' := s ++ chunk in
    (partial s' ∧ ret = (true, i32 (u64 (needed s'))) ∧
       between (checked_packlen s', none) s' out c) ∨
    (is_frame s' ∧ ret = (true, g_proto_head_len) ∧
       ∃ b, frame_buffer b s' ∧ handed (out ++ [b]) c) ∨
    (classify s' = INCORRECT ∧ ret = (false, -1) ∧ stopped out c) ⦄.
Proof.
  intros Hp Hn. unfold read_outcome.
  eapply triple_bind_eq; [apply commit_loaded|].
  eapply triple_bind_eq; [by apply PackageCheck_between|]. cbv zeta. set (s' := s ++ chunk).
  destruct (classify s') eqn:Ecl.
  - eapply triple_bind_eq; [apply with_recv_between, available_holds|].
    eapply triple_conseq; [apply triple_ret|done|]. intros a c [-> Hc]. left.
    split; [by left|]. unfold needed. by rewrite Ecl.
  - eapply triple_bind_eq; [apply with_recv_between, packlen_holds|].
    eapply triple_bind_eq; [apply with_recv_between, available_holds|].
    eapply triple_conseq; [apply triple_ret|done|]. intros a c [-> Hc]. left.
    split; [by right|]. unfold needed. rewrite Ecl. cbn [fst].
    apply classify_need_body in Ecl as ([? _] & _ & _ & ?).
    by rewrite checked_packlen_magic in * by done.
  - assert (Hf : is_frame s') by by apply needed_whole.
    pose proof (classify_whole s' Ecl) as (? & _ & ? & ?).
    rewrite checked_packlen_magic by (unfold g_proto_head_len in *; lia || done).
    intros c Hc. destruct (handler_between s' (zlen chunk) out Hf c Hc) as ([] & c' & E & Hh).
    exists (true, g_proto_head_len), c'. split; [|by right; left].
    revert E. unfold mbind, M_bind. destruct (with_recv (set_indicator valid) c) as [[[] c1]|]; [|done].
    by intros ->.
  - eapply triple_conseq; [apply close_between_triple|done|]. intros a c [-> Hc]. by right; right.
Qed.

(** A chunk of the expected size or less: the loop waits for more, or has
    handed on a frame and waits for the next head, or has stopped. *)
Lemma on_read_chunk s chunk out c :
  waiting s out c → zlen chunk ≤ needed s →
  ∃ c', on_read h ec_ok chunk c = Ok (tt, c') ∧
    let s' := s ++ chunk in
    (partial s' ∧ waiting s' out c') ∨
    (is_frame s' ∧ ∃ b, frame_buffer b s' ∧ waiting [] (out ++ [b]) c') ∨
    (classify s' = INCORRECT ∧ stopped out c').
Proof.
  intros [Hp Hr] Hn. destruct (on_read_loaded h _ _ _ _ chunk c Hr Hn) as (c1 & Hl & E).
  destruct (read_outcome_ok s chunk (needed s) out Hp Hn c1 Hl) as (ret & c2 & Eo & Hcases).
  rewrite E. unfold handle_read. rewrite (bind_ok _ _ _ _ _ Eo).
  destruct Hcases as [(Hp' & -> & Hb)|[(Hf & -> & b & Hb & Hh)|(Hi & -> & Hs)]]; cbn [fst snd].
  - destruct (read_on_partial _ _ Hp' c2 Hb) as ([] & c' & Ea & Hw). exists c'. auto.
  - destruct Hh as [K1 K2 K3 K4 K5].
    destruct (async_read_fresh (u64 g_proto_head_len) c2 (out ++ [b])) as (c' & Ea & Hw); auto;
      [by unfold room, vec_max; vm_compute|by vm_compute|].
    exists c'. split; [done|]. right; left. split; [done|]. exists b. split; [done|].
    split; [by left|done].
  - exists c2. auto.
Qed.

(** A retryable error posts the same read again, any other one ends the loop. *)
Lemma on_read_retry s out ec c :
  waiting s out c → ec = ec_interrupted ∨ ec = ec_try_again →
  ∃ c', on_read h ec [] c = Ok (tt, c') ∧ waiting s out c'.
Proof.
  intros [Hp Hr] Hec. pose proof (needed_bounds s Hp).
  destruct (on_read_loaded h _ _ _ _ [] c Hr) as (c1 & [(b & sl & Eb & Hrep) K2 K3 K4 K5] & E);
    [change (zlen (@nil byte)) with 0; lia|].
  assert (Hb : between (checked_packlen s, none) s out c1).
  { constructor; auto. exists b. split; [done|by eexists]. }
  destruct (read_on_partial _ _ Hp c1 Hb) as ([] & c' & Ea & Hw). exists c'. split; [|done].
  rewrite E. unfold handle_read, read_outcome. rewrite <- Ea. 
  rewrite (u64_small (needed s)) by apply (needed_room s Hp).
  by destruct Hec as [-> | ->].
Qed.

Lemma on_read_broken s out v c :
  waiting s out c → ∃ c', on_read h (ec_other v) [] c = Ok (tt, c') ∧ stopped out c'.
Proof.
  intros [Hp Hr]. pose proof (needed_bounds s Hp).
  destruct (on_read_loaded h _ _ _ _ [] c Hr) as (c1 & [(b & sl & Eb & Hrep) K2 K3 K4 K5] & E);
    [change (zlen (@nil byte)) with 0; lia|].
  assert (Hb : between (checked_packlen s, none) s out c1).
  { constructor; auto. exists b. split; [done|by eexists]. }
  destruct (close_between _ _ _ _ Hb) as (c' & Ec & Hs). exists c'. split; [|done].
  rewrite E. unfold handle_read, read_outcome, mbind, M_bind. by rewrite Ec.
Qed.
End ReadLoop.
End Opened.

(** ** Whole executions of the read loop *)

(** [runs h c0 s c]: from [c0], completions of the posted reads, with bytes or
    with errors, lead to [c]; [s] is all the bytes received. *)
Inductive runs (h : Z → MC unit) (c0 : Connection) : list byte → Connection → Prop :=
  | runs_start : runs h c0 [] c0
  | runs_bytes s c r rest chunk c' :
      runs h c0 s c → s_reads (m_socket c) = r :: rest → 1 ≤ zlen chunk ≤ rd_len r →
      on_read h ec_ok chunk c = Ok (tt, c') → runs h c0 (s ++ chunk) c'
  | runs_retry s c r rest ec c' :
      runs h c0 s c → s_reads (m_socket c) = r :: rest →
      ec = ec_interrupted ∨ ec = ec_try_again →
      on_read h ec [] c = Ok (tt, c') → runs h c0 s c'
  | runs_broken s c r rest v c' :
      runs h c0 s c → s_reads (m_socket c) = r :: rest →
      on_read h (ec_other v) [] c = Ok (tt, c') → runs h c0 s c'.

Lemma is_frame_app f t : is_frame f → classify (f ++ t) = WHOLE ∧ frame_len (f ++ t) = zlen f.
Proof.
  intros [Hw Hl]. apply classify_whole in Hw as (H1 & H2 & H3 & Hm). unfold g_proto_head_len in *.
  destruct (header_app f t) as [E1 E2]; [lia|]. rewrite E1. split; [|done].
  unfold classify, g_proto_head_len. rewrite E1, E2. zguard. by rewrite bool_decide_eq_false_2 by auto.
Qed.

Lemma split_frames_concat fs rest :
  Forall is_frame fs → classify rest ≠ WHOLE → split_frames (concat fs ++ rest) = (fs, rest).
Proof.
  intros Hfs Hrest. unfold split_frames.
  assert (H : ∀ fuel, (length (concat fs ++ rest) ≤ fuel)%nat →
            split_frames_fuel fuel (concat fs ++ rest) = (fs, rest)); [|by apply H].
  induction Hfs as [|f fs Hf Hfs IH]; intros fuel Hfuel; simpl in *.
  - destruct fuel; simpl; [done|]. by destruct (classify rest).
  - rewrite <- app_assoc in *. destruct (is_frame_app f (concat fs ++ rest) Hf) as [Ew El].
    assert (Hpos : 14 ≤ zlen f).
    { destruct Hf as [Hw Hl]. apply classify_whole in Hw. unfold g_proto_head_len in Hw. lia. }
    rewrite length_app in Hfuel. unfold zlen in Hpos. destruct fuel as [|fuel]; [lia|]. simpl.
    rewrite Ew, El, zdrop_app, ztake_app, IH by lia. done.
Qed.

(** What holds after any prefix of an execution. *)
Definition run_inv (s : list byte) (c : Connection) : Prop :=
  ∃ fs rest, Forall is_frame fs ∧ Forall2 frame_buffer (tasks c) fs ∧
    s = concat fs ++ rest ∧ classify rest ≠ WHOLE ∧
    (waiting true rest (tasks c) c ∨ stopped (tasks c) c).

Lemma waiting_not_whole o s out c : waiting o s out c → classify s ≠ WHOLE.
Proof. by intros [[-> | ->] _]. Qed.

Lemma waiting_tasks o s out c : waiting o s out c → out = tasks c.
Proof. by intros [_ []]. Qed.

Lemma waiting_read o s out c r rest :
  waiting o s out c → s_reads (m_socket c) = r :: rest → r = mkRead (zlen s) (needed s).
Proof. intros [_ [_ H _ _ _]] E. congruence. Qed.

Lemma stopped_no_read out c r rest : stopped out c → s_reads (m_socket c) = r :: rest → False.
Proof. intros [H _ _] E. congruence. Qed.

Section Runs.
Context (h : Z → MC unit) `{!FrameHandler h}.

Lemma runs_inv c0 s c : waiting true [] (tasks c0) c0 → tasks c0 = [] → runs h c0 s c → run_inv s c.
Proof.
  intros H0 Ht. induction 1 as [|s c r rs chunk c' Hr IH Er Hc E|s c r rs ec c' Hr IH Er Hec E
                                |s c r rs v c' Hr IH Er E].
  - exists [], []. rewrite Ht in *. repeat split; auto.
  - destruct IH as (fs & rest & Hfs & Hout & -> & Hnw & [Hw|Hs]);
      [|by destruct (stopped_no_read _ _ _ _ Hs Er)].
    rewrite (waiting_read _ _ _ _ _ _ Hw Er) in Hc. simpl in Hc.
    destruct (on_read_chunk true h rest chunk (tasks c) c Hw) as (c1 & E1 & Hcases); [lia|].
    rewrite E in E1. injection E1 as <-. rewrite <- app_assoc.
    destruct Hcases as [[Hp Hw']|[(Hf & b & Hb & Hw')|(Hi & Hs')]].
    + exists fs, (rest ++ chunk). rewrite <- (waiting_tasks _ _ _ _ Hw') in *.
      repeat split; eauto using waiting_not_whole.
    + exists (fs ++ [rest ++ chunk]), []. rewrite <- (waiting_tasks _ _ _ _ Hw').
      split; [by apply Forall_app; auto|]. split; [by apply Forall2_app; auto|].
      split; [rewrite concat_app; simpl; by rewrite !app_nil_r|]. split; [done|auto].
    + exists fs, (rest ++ chunk). rewrite (stopped_tasks _ _ Hs') in *.
      repeat split; auto. by rewrite Hi.
  - destruct IH as (fs & rest & Hfs & Hout & -> & Hnw & [Hw|Hs]);
      [|by destruct (stopped_no_read _ _ _ _ Hs Er)].
    destruct (on_read_retry true h rest (tasks c) ec c Hw Hec) as (c1 & E1 & Hw').
    rewrite E in E1. injection E1 as <-.
    exists fs, rest. rewrite <- (waiting_tasks _ _ _ _ Hw') in *. repeat split; auto.
  - destruct IH as (fs & rest & Hfs & Hout & -> & Hnw & [Hw|Hs]);
      [|by destruct (stopped_no_read _ _ _ _ Hs Er)].
    destruct (on_read_broken true h rest (tasks c) v c Hw) as (c1 & E1 & Hs').
    rewrite E in E1. injection E1 as <-.
    exists fs, rest. rewrite (stopped_tasks _ _ Hs') in *. repeat split; auto.
Qed.
End Runs.

(** A connection that starts reading. *)
Lemma start_waiting n th ji t1 t2 :
  ∃ c0, async_read g_proto_head_len (Connection_make n th ji t1 t2) = Ok (tt, c0) ∧
    waiting true [] (tasks c0) c0 ∧ tasks c0 = [].
Proof.
  destruct (async_read_fresh true g_proto_head_len (Connection_make n th ji t1 t2) []) as (c0 & E & Hr);
    try done.
  - split; [|done]. simpl. induction (seq 0 n); simpl; by constructor.
  - exists c0. split; [done|]. rewrite (reading_tasks _ _ _ _ _ _ Hr). split; [|done].
    split; [by left|done].
Qed.

(** ** Properties *)

(** The frame check agrees with the reference classification on every
    buffer it can meet: with no package length recorded yet, or with the one it
    recorded from the same header.  It consumes nothing and records the package
    length it computed. *)
Theorem PackageCheck_classifies (b : MsgBuffer) (s : list byte) :
  wf b → contents b = s →
  m_packlen b = 0 ∨
    (m_packlen b = frame_len s ∧ g_proto_head_len ≤ zlen s ∧ ztake 4 s = g_head_magic_num) →
  ∃ b', PackageCheck b = Ok (classify s, b') ∧
    contents b' = s ∧ m_packlen b' = checked_packlen s ∧ m_indicator b' = m_indicator b.
Proof.
  intros Hwf Hc Hpk. apply wf_holds in Hwf as (pre & cur & Hb).
  rewrite (holds_contents _ _ _ _ Hb) in Hc. subst cur. unfold meta in Hb.
  destruct (PackageCheck_holds _ _ _ _ Hpk b Hb) as (r & b' & E & -> & Hb').
  exists b'. split; [done|]. split; [by eapply holds_contents|].
  destruct Hb' as [sl [_ _ _ Hm _]]. by injection Hm.
Qed.

Definition sample_head : list byte := g_head_magic_num ++ be_bytes 4 20 ++ be_bytes 4 1.

Lemma PackageCheck_classifies_witness :
  ∃ b', PackageCheck (MsgBuffer_chars 0 none sample_head) = Ok (classify sample_head, b') ∧
    contents b' = sample_head ∧ m_packlen b' = checked_packlen sample_head ∧
    m_indicator b' = none.
Proof.
  apply (PackageCheck_classifies (MsgBuffer_chars 0 none sample_head));
    [by vm_compute|by vm_compute|by left].
Defined.

(** The whole read loop, for any owner that takes whole frames. *)
Lemma read_loop_frames (h : Z → MC unit) (n : nat) (th : option TimeHandler)
    (ji : ConnInfo) (t1 t2 : Z) (c0 : Connection) (s : list byte) (c : Connection) :
  FrameHandler h →
  async_read g_proto_head_len (Connection_make n th ji t1 t2) = Ok (tt, c0) →
  runs h c0 s c →
  Forall2 frame_buffer (tasks c) (split_frames s).1 ∧
  (is_open (m_socket c) = true →
    let rest := (split_frames s).2 in
    s_reads (m_socket c) = [mkRead (zlen rest) (needed rest)] ∧ 1 ≤ needed rest ∧
    ∀ ec chunk, zlen chunk ≤ needed rest → ec = ec_ok ∨ chunk = [] →
      is_ok (on_read h ec chunk c) = true).
Proof.
  intros Hh Hstart Hruns.
  destruct (start_waiting n th ji t1 t2) as (c1 & E & Hw0 & Ht0).
  rewrite Hstart in E. injection E as <-.
  destruct (runs_inv h c0 s c Hw0 Ht0 Hruns) as (fs & rest & Hfs & Hout & -> & Hnw & Hcase).
  rewrite split_frames_concat by done. cbn [fst snd]. split; [done|].
  intros Hopen. destruct Hcase as [Hw|Hs]; [|by rewrite (stopped_closed _ _ Hs) in Hopen].
  pose proof Hw as [Hp [_ Hreads _ _ _]]. split; [done|].
  split; [by apply needed_bounds|].
  intros ec chunk Hchunk [-> | ->].
  - destruct (on_read_chunk true h _ _ _ _ Hw Hchunk) as (c' & -> & _). done.
  - destruct ec as [| | |v].
    + destruct (on_read_chunk true h _ [] _ _ Hw Hchunk) as (c' & -> & _). done.
    + destruct (on_read_retry true h _ _ ec_interrupted _ Hw) as (c' & -> & _); auto.
    + destruct (on_read_retry true h _ _ ec_try_again _ Hw) as (c' & -> & _); auto.
    + destruct (on_read_broken true h _ _ v _ Hw) as (c' & -> & _). done.
Qed.
