(* ===== verification/Server.v ===== *)
(** * The server (net/server.h, net/server.cpp)

    First what the server does on a connection: the handlers it passes, its
    idle check.  Then the server itself: [start], the accepts posted on its
    acceptors, the connections it manages per thread, its destruction.  What the
    operating system answers is an argument.  The first property instantiates
    the read loop of Framing.v. *)

From Stdlib Require Import ZArith Lia Strings.Byte.
From stdpp Require Import base list numbers gmap.
From S2P Require Import Prelude.
From S2P Require Import Endian.
From S2P Require Import MsgBuffer.
From S2P Require Import ObjectPool.
From S2P Require Import RepeatTimer.
From S2P Require Import IocPool.
From S2P Require Import Connection.
From S2P Require Import Framing.

(** ** Handlers on a connection *)

(** [add_task] with the buffer moved out of the connection. *)
Definition queue_frame : MC unit :=
  c ← gets id;
  match m_recv_buffer c with
  | None => raise NullDeref
  | Some buffer => modify (set_recv_buffer None);; emit (AddTask buffer)
  end.

Definition Server_handle_read (now : Z) (bytes_transferred : Z) : MC unit :=
  av ← with_recv (gets available);
  set_recvbytes av;;
  set_last_recvtime now;;
  queue_frame.

Definition Server_handle_write (now : Z) (bytes_transferred : Z) : MC unit :=
  set_sendbytes bytes_transferred;;
  set_last_sendtime now.

Definition Server_async_read (expect_size : Z) : MC unit := async_read expect_size.

Definition Server_async_write (msg : MsgBuffer) : MC unit := async_write msg.

Definition Server_async_timeout : MC unit := async_timeout ServerIdleCheck.

(** [handle_timeout]; [timeout_counts] is a [uint8_t] of the calling thread. *)
Definition Server_handle_timeout (now : Z) (timeout_counts : Z) : MC Z :=
  c ← gets id;
  if u64 (now - get_last_recvtime c) >? 10 then
    let timeout_counts := u8 (timeout_counts + 1) in
    when (timeout_counts >? 10) close;;
    mret timeout_counts
  else mret 0.

(** ** The server *)

(** A connection the server created: the loop it runs on, whether its socket is
    connected, the handle of the socket. *)
Record session := mkSession { ss_loop : Z; ss_uuid : option Z }.

Record acceptor := mkAcceptor { ac_port : Z; ac_pending : list nat }.

(** [m_conn_manager] is a variable of each thread; the loops are the threads. *)
Record Server := mkServer {
  m_ports : list Z;
  m_conn_worker_num : Z;
  m_run : bool;
  m_acceptor : list acceptor;
  m_ioc_pool : option IocPool;
  m_acceptor_thread : bool;
  m_conn_manager : gmap (Z * Z) nat;
  sv_sessions : list session;     (** every connection made, by number *)
  sv_reading : list nat;          (** connections a read was posted on *)
  sv_posted : list nat;           (** registrations posted to the loops *)
  m_acceptor_ioc_work : bool      (** keeps [run] of the acceptor loop from returning *)
}.

Abbreviation MS := (M Server).

Definition Server_make (ports : list Z) (conn_worker_num : Z) : Server :=
  mkServer ports conn_worker_num false [] None false ∅ [] [] [] true.

Definition set_acceptors (l : list acceptor) (s : Server) : Server :=
  mkServer (m_ports s) (m_conn_worker_num s) (m_run s) l (m_ioc_pool s) (m_acceptor_thread s)
    (m_conn_manager s) (sv_sessions s) (sv_reading s) (sv_posted s) (m_acceptor_ioc_work s).
Definition set_ioc_pool (p : IocPool) (s : Server) : Server :=
  mkServer (m_ports s) (m_conn_worker_num s) (m_run s) (m_acceptor s) (Some p) (m_acceptor_thread s)
    (m_conn_manager s) (sv_sessions s) (sv_reading s) (sv_posted s) (m_acceptor_ioc_work s).
Definition set_manager (m : gmap (Z * Z) nat) (s : Server) : Server :=
  mkServer (m_ports s) (m_conn_worker_num s) (m_run s) (m_acceptor s) (m_ioc_pool s)
    (m_acceptor_thread s) m (sv_sessions s) (sv_reading s) (sv_posted s) (m_acceptor_ioc_work s).
Definition set_sessions (l : list session) (s : Server) : Server :=
  mkServer (m_ports s) (m_conn_worker_num s) (m_run s) (m_acceptor s) (m_ioc_pool s)
    (m_acceptor_thread s) (m_conn_manager s) l (sv_reading s) (sv_posted s) (m_acceptor_ioc_work s).
Definition set_reading (l : list nat) (s : Server) : Server :=
  mkServer (m_ports s) (m_conn_worker_num s) (m_run s) (m_acceptor s) (m_ioc_pool s)
    (m_acceptor_thread s) (m_conn_manager s) (sv_sessions s) l (sv_posted s) (m_acceptor_ioc_work s).
Definition set_posted (l : list nat) (s : Server) : Server :=
  mkServer (m_ports s) (m_conn_worker_num s) (m_run s) (m_acceptor s) (m_ioc_pool s)
    (m_acceptor_thread s) (m_conn_manager s) (sv_sessions s) (sv_reading s) l (m_acceptor_ioc_work s).
Definition set_run (run thread : bool) (s : Server) : Server :=
  mkServer (m_ports s) (m_conn_worker_num s) run (m_acceptor s) (m_ioc_pool s) thread
    (m_conn_manager s) (sv_sessions s) (sv_reading s) (sv_posted s) (m_acceptor_ioc_work s).

(** ** Accepting *)

(** [std::make_shared<Connection>(m_ioc_pool->get_iocontext(), ...)]. *)
Definition new_session : MS nat := λ s,
  match m_ioc_pool s with
  | None => Fault NullDeref
  | Some p =>
      match get_iocontext p with
      | Fault f => Fault f
      | Ok (loop, p') =>
          Ok (length (sv_sessions s),
              set_sessions (sv_sessions s ++ [mkSession loop None]) (set_ioc_pool p' s))
      end
  end.

(** The [for] loop of [async_accept]: one more accept on every acceptor. *)
Fixpoint arm_acceptors (l : list acceptor) : MS (list acceptor) :=
  match l with
  | [] => mret []
  | a :: rest =>
      newconn ← new_session;
      rest' ← arm_acceptors rest;
      mret (mkAcceptor (ac_port a) (ac_pending a ++ [newconn]) :: rest')
  end.

Definition async_accept : MS unit :=
  s ← gets id;
  l ← arm_acceptors (m_acceptor s);
  modify (set_acceptors l).

(** [handle_accept]: [handle] is what [native_handle] returns. *)
Definition handle_accept (conn : nat) (handle : Z) : MS unit :=
  modify (λ s, set_sessions (alter (λ ss, mkSession (ss_loop ss) (Some handle)) conn (sv_sessions s)) s);;
  modify (λ s, set_posted (sv_posted s ++ [conn]) s);;
  modify (λ s, set_reading (sv_reading s ++ [conn]) s).

(** The completion of the oldest accept on acceptor [i]: an error, or a socket
    with its handle. *)
Definition on_accept (i : nat) (accepted : option Z) : MS unit :=
  s ← gets id;
  match m_acceptor s !! i with
  | Some (mkAcceptor port (conn :: rest)) =>
      modify (set_acceptors (<[i := mkAcceptor port rest]> (m_acceptor s)));;
      match accepted with
      | None => mret tt
      | Some handle => async_accept;; handle_accept conn handle
      end
  | _ => mret tt
  end.

(** The loop of a connection runs the registration posted to it. *)
Definition register_conn (conn : nat) : MS unit :=
  modify (λ s, match sv_sessions s !! conn with
               | Some (mkSession loop (Some uuid)) =>
                   set_manager (<[(loop, uuid) := conn]> (m_conn_manager s)) s
               | _ => s
               end).

(** [release] on a thread erases from that thread's map. *)
Definition Server_release (thread id : Z) : MS unit :=
  modify (λ s, set_manager (delete (thread, id) (m_conn_manager s)) s).

(** ** Starting and stopping *)

(** [start] for the ports, with what [bind] and [set_option] answer; the result
    is whether the function ran to its end. *)
Fixpoint open_ports (answers : Z → bool) (ports : list Z) : MS bool :=
  match ports with
  | [] => mret true
  | port :: rest =>
      modify (λ s, set_acceptors (m_acceptor s ++ [mkAcceptor port []]) s);;
      if answers port then open_ports answers rest else mret false
  end.

Definition Server_start (answers : Z → bool) : MS unit :=
  s ← gets id;
  modify (set_ioc_pool (IocPool_make (m_conn_worker_num s)));;
  modify (set_run true (m_acceptor_thread s));;
  opened ← open_ports answers (m_ports s);
  if opened : bool then
    modify (set_run true true);;
    async_accept
  else mret tt.

(** The destructor dereferences both pools and the acceptor thread and joins
    it; the result is whether the join returns.  [io_context::run] returns when
    the loop is stopped, which nothing does, or has no work left. *)
Definition Server_destroy : MS bool :=
  s ← gets id;
  match m_ioc_pool s with
  | None => raise NullDeref
  | Some _ =>
      if m_acceptor_thread s then mret (negb (m_acceptor_ioc_work s)) else raise NullDeref
  end.

Definition pending (s : Server) : Z := foldr (λ a n, zlen (ac_pending a) + n) 0 (m_acceptor s).

(** ** The handlers on a connection *)

Lemma queue_frame_ok c b :
  m_recv_buffer c = Some b →
  ∃ c', queue_frame c = Ok (tt, c') ∧ m_recv_buffer c' = None ∧ m_socket c' = m_socket c ∧
    m_msg_pool c' = m_msg_pool c ∧ c_events c' = c_events c ++ [AddTask b] ∧
    m_stats c' = m_stats c ∧ m_holder c' = m_holder c ∧ m_info c' = m_info c.
Proof.
  intros E. eexists. unfold queue_frame, gets, mbind, M_bind, id. rewrite E. split; [reflexivity|done].
Qed.

Lemma Server_handle_read_eq now n c b :
  m_recv_buffer c = Some b →
  ∃ c', Server_handle_read now n c = Ok (tt, c') ∧ m_recv_buffer c' = None ∧
    m_socket c' = m_socket c ∧ m_msg_pool c' = m_msg_pool c ∧
    c_events c' = c_events c ++ [AddTask b] ∧
    m_stats c' = mkConnStats (u64 (get_send_bytes c + available b)) (get_recv_bytes c)
                   (get_last_recvtime c) now ∧
    m_holder c' = m_holder c ∧ m_info c' = m_info c.
Proof.
  intros E. unfold Server_handle_read, with_recv, gets, mbind, M_bind, id. rewrite E. cbn iota beta.
  set (c1 := set_recv_buffer (Some b) c).
  destruct (queue_frame_ok
    (set_stats (mkConnStats (u64 (get_send_bytes c1 + available b)) (get_recv_bytes c1)
                  (get_last_recvtime c1) now) c1) b eq_refl) as (c' & Eq & H).
  exists c'. split; [exact Eq|]. exact H.
Qed.

#[global] Instance Server_handler now : FrameHandler (Server_handle_read now).
Proof.
  intros n c b E. destruct (Server_handle_read_eq now n c b E) as (c' & H1 & H2 & H3 & H4 & H5 & _).
  by exists c'.
Qed.

(** ** Traffic and idle ticks *)

(** A frame received on the connection, or a tick of its timer. *)
Inductive traffic :=
  | FrameAt (now : Z) (frame : MsgBuffer)
  | TickAt (now : Z).

Definition serve (e : traffic) (counts : Z) : MC Z :=
  match e with
  | FrameAt now frame =>
      modify (set_recv_buffer (Some frame));;
      Server_handle_read now (available frame);;
      mret counts
  | TickAt now => Server_handle_timeout now counts
  end.

Fixpoint serve_all (es : list traffic) (counts : Z) : MC Z :=
  match es with
  | [] => mret counts
  | e :: rest => counts' ← serve e counts; serve_all rest counts'
  end.

Definition is_tick (e : traffic) : bool := match e with TickAt _ => true | _ => false end.
Definition ticks (es : list traffic) : Z := zlen (List.filter is_tick es).

(** Every tick comes more than ten seconds after [t]. *)
Definition stale (t : Z) (es : list traffic) : Prop :=
  Forall (λ e, match e with TickAt now => u64 (now - t) > 10 | FrameAt _ _ => True end) es.

Lemma close_open c :
  is_open (m_socket c) = true →
  ∃ c', close c = Ok (tt, c') ∧ is_open (m_socket c') = false ∧ m_stats c' = m_stats c ∧
    c_events c' = c_events c ++ (if m_holder c then [Released (m_uuid (m_info c))] else []).
Proof.
  intros Ho. unfold close, gets, mbind, M_bind, id. rewrite Ho. simpl.
  destruct (m_holder c); eexists; (split; [reflexivity|]); simpl; repeat split; by rewrite ?app_nil_r.
Qed.

Lemma close_closed c : is_open (m_socket c) = false → close c = Ok (tt, c).
Proof. intros Ho. unfold close, gets, mbind, M_bind, id. by rewrite Ho. Qed.

(** One event, on a connection last heard of at [t] as far as it knows. *)
Lemma serve_step e c t counts :
  get_last_recvtime c = t → stale t [e] → 0 ≤ counts → counts + ticks [e] ≤ 255 →
  ∃ c', serve e counts c = Ok (counts + ticks [e], c') ∧ get_last_recvtime c' = t ∧
    is_open (m_socket c') =
      is_open (m_socket c) && negb (is_tick e && (counts + 1 >? 10)).
Proof.
  intros Ht Hs Hc Hb. apply Forall_inv in Hs. destruct e as [now b|now]; simpl.
  - destruct (Server_handle_read_eq now (available b) (set_recv_buffer (Some b) c) b eq_refl)
      as (c' & E & _ & Hk & _ & _ & Hst & _).
    exists c'. unfold modify, mbind, M_bind. rewrite E, Z.add_0_r. split; [done|].
    rewrite Hk. unfold get_last_recvtime. rewrite Hst. simpl. by rewrite andb_true_r.
  - unfold Server_handle_timeout, gets, mbind, M_bind, id. rewrite Ht. zguard.
    change (ticks [TickAt now]) with 1 in *.
    rewrite u8_small by (unfold in_u; lia). unfold when.
    destruct (10 <? counts + 1); simpl.
    + destruct (is_open (m_socket c)) eqn:Ho.
      * destruct (close_open c Ho) as (c' & E & Hcl & Hst & _). exists c'. rewrite E. split; [done|].
        split; [|done]. unfold get_last_recvtime in *. by rewrite Hst.
      * by rewrite (close_closed c Ho); exists c.
    + exists c. by rewrite andb_true_r.
Qed.

Lemma ticks_cons e es : ticks (e :: es) = ticks [e] + ticks es.
Proof. unfold ticks. simpl. destruct (is_tick e); [by rewrite !zlen_cons|done]. Qed.

Lemma ticks_nonneg es : 0 ≤ ticks es.
Proof. apply zlen_nonneg. Qed.

Lemma serve_all_run es c t counts :
  get_last_recvtime c = t → stale t es → 0 ≤ counts → counts + ticks es ≤ 255 →
  ∃ c', serve_all es counts c = Ok (counts + ticks es, c') ∧ get_last_recvtime c' = t ∧
    (is_open (m_socket c') = true ↔
       is_open (m_socket c) = true ∧ (counts + ticks es ≤ 10 ∨ ticks es = 0)).
Proof.
  revert c counts. induction es as [|e es IH]; intros c counts Ht Hs H0 Hb.
  - exists c. change (ticks []) with 0 in *. rewrite Z.add_0_r. split; [done|]. split; [done|]. tauto.
  - rewrite ticks_cons in *. apply Forall_cons in Hs as [He Hs].
    pose proof (ticks_nonneg es). pose proof (ticks_nonneg [e]).
    destruct (serve_step e c t counts Ht) as (c1 & E1 & Ht1 & Ho1); [by constructor|lia..|].
    destruct (IH c1 (counts + ticks [e]) Ht1 Hs) as (c' & E & Ht' & Ho'); [lia..|].
    exists c'. simpl serve_all. rewrite (bind_ok _ _ _ _ _ E1), E.
    rewrite Z.add_assoc. split; [done|]. split; [done|]. rewrite Ho', Ho1, andb_true_iff.
    destruct e as [now b|now];
      [change (ticks [FrameAt now b]) with 0 in *|change (ticks [TickAt now]) with 1 in *];
      simpl; rewrite ?negb_true_iff, ?Z.gtb_ltb, ?Z.ltb_ge; intuition lia.
Qed.

(** ** Accounting for the accepts *)

(** The pool deals out loops without fault. *)
Definition loops_ok (s : Server) : Prop := ∃ p, m_ioc_pool s = Some p ∧ pos_ok p.

(** What accepting leaves alone. *)
Definition fixed (s : Server) : bool * bool := (m_acceptor_thread s, m_acceptor_ioc_work s).

Definition pending_in (l : list acceptor) : Z := foldr (λ a n, zlen (ac_pending a) + n) 0 l.

Lemma new_session_ok s :
  loops_ok s →
  ∃ s', new_session s = Ok (length (sv_sessions s), s') ∧ loops_ok s' ∧
    m_acceptor s' = m_acceptor s ∧ fixed s' = fixed s.
Proof.
  intros (p & Ep & Hp). unfold new_session. rewrite Ep, (get_iocontext_ok p Hp).
  eexists. split; [done|]. split; [|done]. eexists. split; [done|]. by apply pos_ok_next.
Qed.

Lemma arm_acceptors_ok l s :
  loops_ok s →
  ∃ l' s', arm_acceptors l s = Ok (l', s') ∧ loops_ok s' ∧ m_acceptor s' = m_acceptor s ∧
    fixed s' = fixed s ∧
    length l' = length l ∧ pending_in l' = pending_in l + zlen l.
Proof.
  revert s. induction l as [|a l IH]; intros s Hs; [by exists [], s|].
  destruct (new_session_ok s Hs) as (s1 & E1 & H1 & A1 & T1).
  destruct (IH s1 H1) as (l' & s2 & E2 & H2 & A2 & T2 & L2 & P2).
  eexists _, s2. simpl arm_acceptors.
  rewrite (bind_ok _ _ _ _ _ E1), (bind_ok _ _ _ _ _ E2). split; [done|].
  split; [done|]. split; [congruence|]. split; [congruence|]. simpl. split; [by rewrite L2|].
  rewrite P2, zlen_app, !zlen_cons. change (zlen (@nil nat)) with 0. lia.
Qed.

Lemma async_accept_ok s :
  loops_ok s →
  ∃ s', async_accept s = Ok (tt, s') ∧ loops_ok s' ∧ fixed s' = fixed s ∧
    length (m_acceptor s') = length (m_acceptor s) ∧
    pending s' = pending s + zlen (m_acceptor s).
Proof.
  intros Hs. destruct (arm_acceptors_ok (m_acceptor s) s Hs) as (l & s1 & E & H & _ & T & L & P).
  eexists. unfold async_accept. rewrite (bind_ok (gets id) _ s s s) by done.
  rewrite (bind_ok _ _ _ _ _ E). split; [done|]. done.
Qed.

Lemma pending_insert l i a a' :
  l !! i = Some a →
  pending_in (<[i := a']> l) = pending_in l - zlen (ac_pending a) + zlen (ac_pending a').
Proof.
  revert i. induction l as [|b l IH]; intros [|i]; simpl; [done..| |].
  - intros [= ->]. lia.
  - intros H. rewrite (IH _ H). lia.
Qed.

(** Completions of posted accepts; [oks] and [errs] count the answers. *)
Inductive accepting (s0 : Server) : Z → Z → Server → Prop :=
  | accepting_nil : accepting s0 0 0 s0
  | accepting_ok oks errs s i port conn rest handle s' :
      accepting s0 oks errs s → m_acceptor s !! i = Some (mkAcceptor port (conn :: rest)) →
      on_accept i (Some handle) s = Ok (tt, s') → accepting s0 (oks + 1) errs s'
  | accepting_err oks errs s i port conn rest s' :
      accepting s0 oks errs s → m_acceptor s !! i = Some (mkAcceptor port (conn :: rest)) →
      on_accept i None s = Ok (tt, s') → accepting s0 oks (errs + 1) s'.

Lemma on_accept_ok s i port conn rest answer :
  loops_ok s → m_acceptor s !! i = Some (mkAcceptor port (conn :: rest)) →
  ∃ s', on_accept i answer s = Ok (tt, s') ∧ loops_ok s' ∧
    length (m_acceptor s') = length (m_acceptor s) ∧
    pending s' = pending s - 1 + match answer with Some _ => zlen (m_acceptor s) | None => 0 end.
Proof.
  intros Hl Hi. unfold on_accept. rewrite (bind_ok (gets id) _ s s s) by done. rewrite Hi.
  set (s1 := set_acceptors (<[i := mkAcceptor port rest]> (m_acceptor s)) s).
  rewrite (bind_ok (modify _) _ s tt s1) by done.
  assert (Hp : pending s1 = pending s - 1).
  { unfold pending. change (pending_in (m_acceptor s1) = pending_in (m_acceptor s) - 1).
    unfold s1; simpl. rewrite (pending_insert _ _ _ _ Hi). simpl. rewrite zlen_cons. lia. }
  assert (Hlen : length (m_acceptor s1) = length (m_acceptor s)).
  { unfold s1; simpl. by rewrite length_insert. }
  destruct answer as [handle|].
  - destruct (async_accept_ok s1 Hl) as (s2 & E2 & H2 & _ & L2 & P2).
    rewrite (bind_ok _ _ _ _ _ E2). eexists. split; [done|]. split; [exact H2|].
    split; [simpl; congruence|]. change (pending _) with (pending s2) at 1.
    rewrite P2, Hp. unfold zlen. rewrite Hlen. done.
  - exists s1. split; [done|]. split; [done|]. split; [done|]. lia.
Qed.

Lemma accepting_count s0 oks errs s :
  loops_ok s0 → accepting s0 oks errs s →
  loops_ok s ∧ length (m_acceptor s) = length (m_acceptor s0) ∧
  pending s = pending s0 + oks * (zlen (m_acceptor s0) - 1) - errs.
Proof.
  intros H0. induction 1 as [|oks errs s i port conn rest handle s' _ (H1 & L1 & P1) Hi E
                              |oks errs s i port conn rest s' _ (H1 & L1 & P1) Hi E].
  - split; [done|]. split; [done|]. lia.
  - destruct (on_accept_ok s i port conn rest (Some handle) H1 Hi) as (s1 & E1 & H2 & L2 & P2).
    rewrite E in E1. injection E1 as <-. split; [done|]. split; [congruence|].
    rewrite P2, P1. unfold zlen. rewrite L1. lia.
  - destruct (on_accept_ok s i port conn rest None H1 Hi) as (s1 & E1 & H2 & L2 & P2).
    rewrite E in E1. injection E1 as <-. split; [done|]. split; [congruence|]. lia.
Qed.

(** ** Starting *)

Lemma open_ports_ok answers ports s :
  ∃ b s', open_ports answers ports s = Ok (b, s') ∧ b = forallb answers ports ∧
    m_ioc_pool s' = m_ioc_pool s ∧ fixed s' = fixed s ∧
    pending s' = pending s ∧ (b = true → zlen (m_acceptor s') = zlen (m_acceptor s) + zlen ports).
Proof.
  revert s. induction ports as [|port ports IH]; intros s.
  - exists true, s. repeat split; try done. change (zlen (@nil Z)) with 0. lia.
  - simpl. set (s1 := set_acceptors (m_acceptor s ++ [mkAcceptor port []]) s).
    assert (Hp : pending s1 = pending s).
    { unfold pending, s1; simpl. by rewrite foldr_app. }
    rewrite (bind_ok (modify _) _ s tt s1) by done.
    destruct (answers port); simpl; [|by exists false, s1].
    destruct (IH s1) as (b & s' & E & H1 & H2 & H3 & H4 & H5). exists b, s'.
    split; [done|]. split; [done|]. split; [done|]. split; [done|]. split; [lia|].
    intros Hb. rewrite (H5 Hb). unfold s1; simpl. rewrite zlen_app, !zlen_cons.
    change (zlen (@nil acceptor)) with 0. lia.
Qed.

Lemma make_loops_ok n : 0 < n < 2 ^ 64 → pos_ok (IocPool_make n).
Proof.
  intros Hn. unfold pos_ok, in_u. rewrite make_iocs_len by lia. simpl. lia.
Qed.

Lemma Server_start_ok answers ports n :
  0 < n < 2 ^ 64 →
  ∃ s', Server_start answers (Server_make ports n) = Ok (tt, s') ∧ loops_ok s' ∧
    fixed s' = (forallb answers ports, true) ∧
    if forallb answers ports
    then zlen (m_acceptor s') = zlen ports ∧ pending s' = zlen ports
    else pending s' = 0.
Proof.
  intros Hn. set (s0 := set_run true false (set_ioc_pool (IocPool_make n) (Server_make ports n))).
  assert (Hl0 : loops_ok s0) by (exists (IocPool_make n); split; [done|by apply make_loops_ok]).
  destruct (open_ports_ok answers ports s0) as (b & s1 & E1 & -> & I1 & T1 & P1 & L1).
  assert (E : Server_start answers (Server_make ports n) =
            (if forallb answers ports then modify (set_run true true);; async_accept else mret tt) s1).
  { unfold Server_start. rewrite (bind_ok (gets id) _ _ (Server_make ports n) (Server_make ports n)) by done.
    cbn [m_conn_worker_num Server_make m_ports].
    rewrite (bind_ok (modify _) _ _ tt (set_ioc_pool (IocPool_make n) (Server_make ports n))) by done.
    rewrite (bind_ok (modify _) _ _ tt s0) by done. by rewrite (bind_ok _ _ _ _ _ E1). }
  rewrite E. assert (Hl1 : loops_ok s1) by (unfold loops_ok; rewrite I1; exact Hl0).
  destruct (forallb answers ports).
  - rewrite (bind_ok (modify _) _ s1 tt (set_run true true s1)) by done.
    destruct (async_accept_ok (set_run true true s1) Hl1) as (s2 & E2 & H2 & T2 & L2 & P2).
    exists s2. split; [done|]. split; [done|]. split; [by unfold fixed in *; simpl in *; congruence|].
    specialize (L1 eq_refl). unfold zlen in *. change (m_acceptor (set_run true true s1)) with (m_acceptor s1) in *.
    change (pending (set_run true true s1)) with (pending s1) in P2.
    change (m_acceptor s0) with (@nil acceptor) in L1. change (pending s0) with 0 in P1. simpl in L1. lia.
  - exists s1. split; [done|]. split; [done|]. split; [done|]. by rewrite P1.
Qed.

(** ** Properties *)

(** C2: a server connection delivers exactly the frames of the byte stream.
    However the kernel cuts the stream [s] into reads, and whatever retryable
    errors come in between, the worker pool is handed one valid buffer per frame
    of [s], in order and with exactly its bytes; while the socket is open exactly
    one read is posted, it asks for at least one byte and for none behind the
    current frame, and no completion of it faults. *)
Theorem server_read_loop_frames (now : Z) (n : nat) (th : option TimeHandler)
    (ji : ConnInfo) (t1 t2 : Z) (c0 : Connection) (s : list byte) (c : Connection) :
  Server_async_read g_proto_head_len (Connection_make n th ji t1 t2) = Ok (tt, c0) →
  runs (Server_handle_read now) c0 s c →
  Forall2 frame_buffer (tasks c) (split_frames s).1 ∧
  (is_open (m_socket c) = true →
    let rest := (split_frames s).2 in
    s_reads (m_socket c) = [mkRead (zlen rest) (needed rest)] ∧ 1 ≤ needed rest ∧
    ∀ ec chunk, zlen chunk ≤ needed rest → ec = ec_ok ∨ chunk = [] →
      is_ok (on_read (Server_handle_read now) ec chunk c) = true).
Proof. apply read_loop_frames, _. Qed.

(** A frame of fifteen bytes, received in two pieces. *)
Definition sample_frame : list byte :=
  g_head_magic_num ++ be_bytes 4 13 ++ be_bytes 4 5 ++ [x01; xaa; xbb].

Definition conn_result (r : result (unit * Connection)) : Connection :=
  match r with
  | Ok (_, c) => c
  | Fault _ => Connection_make 0 None (mkConnInfo [] 0 [] 0 0) 0 0
  end.

Definition sample_start : Connection :=
  conn_result (Server_async_read g_proto_head_len
    (Connection_make 1 None (mkConnInfo [] 0 [] 0 7) 0 0)).
Definition sample_mid : Connection :=
  conn_result (on_read (Server_handle_read 5) ec_ok (ztake 12 sample_frame) sample_start).
Definition sample_end : Connection :=
  conn_result (on_read (Server_handle_read 5) ec_ok (zdrop 12 sample_frame) sample_mid).

Lemma server_read_loop_frames_witness :
  Forall2 frame_buffer (tasks sample_end)
    (split_frames (([] ++ ztake 12 sample_frame) ++ zdrop 12 sample_frame)).1 ∧
  (is_open (m_socket sample_end) = true →
    let rest := (split_frames (([] ++ ztake 12 sample_frame) ++ zdrop 12 sample_frame)).2 in
    s_reads (m_socket sample_end) = [mkRead (zlen rest) (needed rest)] ∧ 1 ≤ needed rest ∧
    ∀ ec chunk, zlen chunk ≤ needed rest → ec = ec_ok ∨ chunk = [] →
      is_ok (on_read (Server_handle_read 5) ec chunk sample_end) = true).
Proof.
  apply (server_read_loop_frames 5 1 None (mkConnInfo [] 0 [] 0 7) 0 0 sample_start);
    [by vm_compute|].
  apply (runs_bytes _ _ _ sample_mid (mkRead 12 3) []);
    [|by vm_compute|by vm_compute|by vm_compute].
  apply (runs_bytes _ _ _ sample_start (mkRead 0 12) []);
    [apply runs_start|by vm_compute|by vm_compute|by vm_compute].
Defined.

(** The idle check does not see the traffic.  [set_last_recvtime] and
    [set_recvbytes] write the counters of the sending side, so whatever frames
    arrive between the ticks of its timer, a connection whose receive time was
    [t] at the beginning is closed by the eleventh tick that comes more than ten
    seconds after [t], and not before. *)
Theorem server_idle_check_blind (es : list traffic) (c : Connection) (t : Z) :
  get_last_recvtime c = t → stale t es → is_open (m_socket c) = true → ticks es ≤ 255 →
  ∃ c', serve_all es 0 c = Ok (ticks es, c') ∧ get_last_recvtime c' = t ∧
    (is_open (m_socket c') = true ↔ ticks es ≤ 10).
Proof.
  intros Ht Hs Ho Hb. destruct (serve_all_run es c t 0 Ht Hs) as (c' & E & Ht' & Ho'); [lia|done|].
  exists c'. split; [done|]. split; [done|]. rewrite Ho', Ho. pose proof (ticks_nonneg es).
  intuition lia.
Qed.

Lemma server_idle_check_blind_witness :
  let c := Connection_make 1 None (mkConnInfo [] 0 [] 0 7) 100 0 in
  let es := concat (replicate 11
              [FrameAt 120 (MsgBuffer_chars 15 valid sample_frame); TickAt 121]) in
  ∃ c', serve_all es 0 c = Ok (ticks es, c') ∧ get_last_recvtime c' = 100 ∧
    (is_open (m_socket c') = true ↔ ticks es ≤ 10).
Proof.
  apply (server_idle_check_blind _ _ 100); [done| |done|by vm_compute].
  repeat (apply Forall_cons; split; [by vm_compute|]). apply Forall_nil; done.
Defined.

(** When every port can be bound, [start] posts one accept per acceptor, and
    after [oks] accepted connections and [errs] failed accepts there are
    [n + oks * (n - 1) - errs] accepts posted on the [n] acceptors: every accepted
    connection arms all of them again, and a failed accept is never replaced, so
    a server with one port stops accepting after the first error. *)
Theorem server_accepts (answers : Z → bool) (ports : list Z) (k oks errs : Z) (s0 s : Server) :
  0 < k < 2 ^ 64 → forallb answers ports = true →
  Server_start answers (Server_make ports k) = Ok (tt, s0) →
  accepting s0 oks errs s →
  pending s = zlen ports + oks * (zlen ports - 1) - errs ∧
  zlen (m_acceptor s) = zlen ports.
Proof.
  intros Hk Ha Hs Hacc.
  destruct (Server_start_ok answers ports k Hk) as (s1 & E & Hl & _ & Hif).
  rewrite Hs in E. injection E as <-. rewrite Ha in Hif. destruct Hif as [L P].
  destruct (accepting_count s0 oks errs s Hl Hacc) as (_ & L' & P').
  split; [rewrite P', P, L; lia|]. unfold zlen in *. by rewrite L'.
Qed.

Definition server_result (r : result (unit * Server)) : Server :=
  match r with Ok (_, s) => s | Fault _ => Server_make [] 0 end.
Definition sample_server : Server :=
  server_result (Server_start (λ _, true) (Server_make [80; 81] 2)).

Lemma server_accepts_witness :
  let s := server_result (on_accept 0 (Some 9) sample_server) in
  pending s = zlen [80; 81] + (0 + 1) * (zlen [80; 81] - 1) - 0 ∧
  zlen (m_acceptor s) = zlen [80; 81].
Proof.
  apply (server_accepts (λ _, true) [80; 81] 2 (0 + 1) 0 sample_server);
    [lia|done|by vm_compute|].
  eapply (accepting_ok _ _ _ sample_server 0); [apply accepting_nil|by vm_compute|by vm_compute].
Defined.

(** [start] never faults on a server with event loops, and it is all or
    nothing: if some port cannot be bound it returns with no accept posted on
    any port and no acceptor thread.  In neither case does the destructor end:
    it joins a thread whose loop always has work, or dereferences the null
    thread. *)
Theorem server_start_destroy (answers : Z → bool) (ports : list Z) (k : Z) :
  0 < k < 2 ^ 64 →
  ∃ s, Server_start answers (Server_make ports k) = Ok (tt, s) ∧
    if forallb answers ports
    then pending s = zlen ports ∧ Server_destroy s = Ok (false, s)
    else pending s = 0 ∧ Server_destroy s = Fault NullDeref.
Proof.
  intros Hk. destruct (Server_start_ok answers ports k Hk) as (s & E & (p & Ep & _) & T & Hif).
  exists s. split; [done|]. injection T as T1 T2.
  unfold Server_destroy, gets, mbind, M_bind, id. rewrite Ep, T1, T2.
  destruct (forallb answers ports); [|done]. by destruct Hif.
Qed.

Lemma server_start_destroy_witness :
  ∃ s, Server_start (λ p, p =? 80) (Server_make [80; 81] 2) = Ok (tt, s) ∧
    if forallb (λ p, p =? 80) [80; 81]
    then pending s = zlen [80; 81] ∧ Server_destroy s = Ok (false, s)
    else pending s = 0 ∧ Server_destroy s = Fault NullDeref.
Proof. apply (server_start_destroy (λ p, p =? 80) [80; 81] 2). lia. Defined.
