(* ===== verification/Writing.v ===== *)
(** * Writing and closing (net/connection.h, net/connection.cpp)

    The write path of a connection against the bytes on the wire, with the
    server's write handler, and what every operation does to the socket's being
    open: it is closed once, and its owner is told once. *)

From Stdlib Require Import ZArith Lia Strings.Byte.
From stdpp Require Import base list numbers.
From S2P Require Import Prelude.
From S2P Require Import Along.
From S2P Require Import MsgBuffer.
From S2P Require Import ObjectPool.
From S2P Require Import RepeatTimer.
From S2P Require Import Connection.
From S2P Require Import Framing.
From S2P Require Import Server.

(** ** One completion *)

(** A message being written: [bs] is left of it, [k] bytes are done. *)
Definition message (d : MsgBuffer) (k : Z) (bs : list byte) : Prop :=
  ∃ i pre, holds (k, i) pre bs d ∧ i ≠ invalid.

Lemma message_contents d k bs : message d k bs → contents d = bs.
Proof. intros (i & pre & H & _). by eapply holds_contents. Qed.

Lemma message_indicator d k bs : message d k bs → m_indicator d ≠ invalid.
Proof.
  intros (i & pre & [sl H] & Hi). pose proof (rep_meta _ _ _ _ _ H) as Hm. by injection Hm as _ ->.
Qed.

Lemma message_packlen d k bs : message d k bs → m_packlen d = k.
Proof.
  intros (i & pre & [sl H] & Hi). pose proof (rep_meta _ _ _ _ _ H) as Hm. by injection Hm as ->.
Qed.

Lemma message_empty d k bs : message d k bs → MsgBuffer.empty d = bool_decide (bs = []).
Proof.
  intros (i & pre & [sl H] & Hi). unfold MsgBuffer.empty.
  rewrite (rep_head _ _ _ _ _ H), (rep_tail _ _ _ _ _ H).
  destruct bs as [|b bs]; [|rewrite zlen_cons; pose proof (zlen_nonneg bs)].
  - change (zlen (@nil byte)) with 0. by rewrite Z.add_0_r, Z.eqb_refl.
  - rewrite bool_decide_eq_false_2 by done. apply Z.eqb_neq. lia.
Qed.

(** Sending the first [zlen bs1] bytes. *)
Lemma message_advance d k bs1 bs2 c :
  message d k (bs1 ++ bs2) → in_u 64 (k + zlen bs1) →
  ∃ d', on_buffer (consume (zlen bs1);; update_packlen (zlen bs1)) d c = Ok ((tt, d'), c) ∧
    message d' (k + zlen bs1) bs2.
Proof.
  intros (i & pre & H & Hi) Hk.
  destruct (consume_holds (k, i) pre bs1 bs2 d H) as ([] & d1 & E1 & [sl Hd1]).
  eexists. unfold on_buffer, lift, mbind, M_bind. rewrite E1. split; [reflexivity|].
  exists i, (pre ++ bs1). split; [|done]. exists sl. rewrite (rep_eq _ _ _ _ _ Hd1). cbn.
  constructor; simpl; auto.
  - by rewrite u64_small.
  - apply (rep_max _ _ _ _ _ Hd1).
Qed.

(** What one completed write does, with the server's handler. *)
Definition wrote (c c' : Connection) (sent : list byte) (total : option Z) (posted : list posted_write) : Prop :=
  m_socket c' = mkSocket true (s_reads (m_socket c)) posted (s_sent (m_socket c) ++ sent) ∧
  m_send_buffer_list c' = [] ∧ pool_fresh (m_msg_pool c') ∧ c_events c' = c_events c ∧
  get_send_bytes c' =
    match total with Some n => u64 (get_send_bytes c + n) | None => get_send_bytes c end.

Lemma handle_write_posts c n :
  1 ≤ n →
  handle_write ec_ok n c =
    Ok (tt, set_send_buffer_list []
      (set_socket (mkSocket (is_open (m_socket c)) (s_reads (m_socket c))
         (s_writes (m_socket c) ++ map (λ d, mkWrite d Borrowed) (m_send_buffer_list c)) (s_sent (m_socket c))) c)).
Proof.
  intros Hn. unfold handle_write, when. cbn [ec_closes orb]. zguard. done.
Qed.

Section ServerWrites.
Context (now : Z).

(** A completion of the oldest write up to what the handler is for: [c2] is the state when the rest is queued. *)
Lemma on_write_takes c d h k bs1 bs2 rest :
  s_writes (m_socket c) = mkWrite d h :: rest → message d k (bs1 ++ bs2) → in_u 64 (k + zlen bs1) →
  let c1 := set_socket (mkSocket (is_open (m_socket c)) (s_reads (m_socket c)) rest (s_sent (m_socket c) ++ bs1)) c in
  ∃ d', message d' (k + zlen bs1) bs2 ∧
    on_write (Server_handle_write now) ec_ok (zlen bs1) c =
      ((if negb (bool_decide (bs2 = [])) then modify (λ c, set_send_buffer_list (d' :: m_send_buffer_list c) c)
        else call_handler (Server_handle_write now) h (k + zlen bs1);; recycle d');;
       handle_write ec_ok (zlen bs1)) c1.
Proof.
  intros Hw Hd Hk c1. destruct (message_advance d k bs1 bs2 c1 Hd Hk) as (d' & E & Hd'). exists d'. split; [done|].
  unfold on_write, on_nth_write. rewrite (bind_ok (gets id) _ c c c) by done. rewrite Hw. cbn [lookup list_lookup delete list_delete wr_buffer wr_handler].
  rewrite (message_contents _ _ _ Hd), ztake_app. cbv zeta. rewrite (bind_ok (modify _) _ c tt c1) by done.
  unfold mbind, M_bind in E |- *. rewrite E. cbn [snd].
  by rewrite (message_empty _ _ _ Hd'), (message_packlen _ _ _ Hd').
Qed.

Lemma some_byte (bs : list byte) : bs ≠ [] → 1 ≤ zlen bs.
Proof. destruct bs as [|b bs]; [done|]. rewrite zlen_cons. pose proof (zlen_nonneg bs). lia. Qed.

(** A completion that leaves something to send posts the rest behind the other
    writes in progress, without a handler of its own. *)
Lemma on_write_partial c d h k bs1 bs2 rest :
  s_writes (m_socket c) = mkWrite d h :: rest → message d k (bs1 ++ bs2) → bs1 ≠ [] → bs2 ≠ [] →
  in_u 64 (k + zlen bs1) → is_open (m_socket c) = true → m_send_buffer_list c = [] →
  pool_fresh (m_msg_pool c) →
  ∃ c' d', on_write (Server_handle_write now) ec_ok (zlen bs1) c = Ok (tt, c') ∧
    message d' (k + zlen bs1) bs2 ∧ wrote c c' bs1 None (rest ++ [mkWrite d' Borrowed]).
Proof.
  intros Hw Hd H1 H2 Hk Ho Hq Hp. destruct (on_write_takes c d h k bs1 bs2 rest Hw Hd Hk) as (d' & Hd' & E).
  rewrite E, bool_decide_eq_false_2 by done. cbn [negb]. unfold modify at 1, mbind, M_bind. rewrite handle_write_posts by by apply some_byte.
  eexists _, d'. split; [reflexivity|]. split; [done|]. repeat split; try done; [|apply Hp..]. simpl. by rewrite Ho, Hq.
Qed.

(** The only completion calls the handler with all that was sent and recycles
    the buffer. *)
Lemma on_write_final c d k bs rest :
  s_writes (m_socket c) = mkWrite d Owned :: rest → message d k bs → bs ≠ [] →
  in_u 64 (k + zlen bs) → is_open (m_socket c) = true → m_send_buffer_list c = [] →
  pool_fresh (m_msg_pool c) →
  ∃ c', on_write (Server_handle_write now) ec_ok (zlen bs) c = Ok (tt, c') ∧
    wrote c c' bs (Some (k + zlen bs)) rest.
Proof.
  intros Hw Hd H1 Hk Ho Hq Hp. rewrite <- (app_nil_r bs) in Hd. destruct (on_write_takes c d Owned k bs [] rest Hw Hd Hk) as (d' & Hd' & E).
  rewrite E, bool_decide_eq_true_2 by done. cbn [negb call_handler]. clear E. set (c1 := set_socket _ c).
  set (c2 := set_stats (mkConnStats (u64 (get_send_bytes c1 + (k + zlen bs))) (get_recv_bytes c1)
                          (get_last_recvtime c1) now) c1).
  destruct (recycle_fresh d' c2 Hp) as (c3 & E3 & P3 & R1 & R2 & R3 & R4 & R5 & _).
  rewrite (bind_ok _ _ c1 tt c3) by (rewrite (bind_ok _ _ c1 tt c2) by done; done).
  rewrite handle_write_posts by by apply some_byte. eexists. split; [reflexivity|].
  unfold wrote; simpl. rewrite R3, R2. unfold c2, c1; simpl. rewrite Ho, Hq, app_nil_r.
  split; [done|]. split; [done|]. split; [done|]. split; [by rewrite R5|].
  unfold get_send_bytes; simpl. by rewrite R4.
Qed.

(** The last completion of a message that was not sent at once calls a handler that is no more. *)
Lemma on_write_dangling c d k bs rest :
  s_writes (m_socket c) = mkWrite d Borrowed :: rest → message d k bs → in_u 64 (k + zlen bs) →
  on_write (Server_handle_write now) ec_ok (zlen bs) c = Fault UseAfterFree.
Proof.
  intros Hw Hd Hk. rewrite <- (app_nil_r bs) in Hd. by destruct (on_write_takes c d Borrowed k bs [] rest Hw Hd Hk) as (d' & Hd' & ->).
Qed.

(** The completions of the writes of one message. *)
Fixpoint complete_writes (ns : list Z) : MC unit :=
  match ns with
  | [] => mret tt
  | n :: rest => on_write (Server_handle_write now) ec_ok n;; complete_writes rest
  end.

Definition total (ns : list Z) : Z := foldr Z.add 0 ns.

Lemma total_nonneg ns : Forall (λ n, 1 ≤ n) ns → 0 ≤ total ns.
Proof. unfold total. induction 1; simpl; lia. Qed.

(** All but the last of them. *)
Lemma complete_writes_ok ns bs1 bs2 c d h k :
  Forall (λ n, 1 ≤ n) ns → total ns = zlen bs1 → bs2 ≠ [] →
  s_writes (m_socket c) = [mkWrite d h] → message d k (bs1 ++ bs2) → in_u 64 (k + zlen (bs1 ++ bs2)) → 0 ≤ k →
  is_open (m_socket c) = true → m_send_buffer_list c = [] → pool_fresh (m_msg_pool c) →
  ∃ c' d', complete_writes ns c = Ok (tt, c') ∧ message d' (k + zlen bs1) bs2 ∧
    wrote c c' bs1 None [mkWrite d' (if decide (ns = []) then h else Borrowed)].
Proof.
  revert bs1 c d h k. induction ns as [|n ns IH]; intros bs1 c d h k Hns Hsum H2 Hw Hd Hk Hk0 Ho Hq Hp.
  - symmetry in Hsum. apply zlen_0_inv in Hsum as ->. exists c, d. change (zlen []) with 0. rewrite Z.add_0_r. split; [done|]. split; [done|].
    repeat split; try done; [|apply Hp..]. rewrite app_nil_r. destruct (m_socket c); cbn in *. by subst.
  - apply Forall_cons_1 in Hns as [Hn Hns]. cbn in Hsum. pose proof (total_nonneg ns Hns) as Hpos.
    destruct (zsplit n bs1) as (bs & bs1' & -> & Hl); [unfold total in *; lia|]. rewrite !zlen_app in *. pose proof (zlen_nonneg bs1'). pose proof (some_byte bs2 H2).
    assert (Hb : bs ≠ []) by (intros ->; change (zlen (@nil byte)) with 0 in Hl; lia). unfold in_u in Hk.
    assert (Hne : bs1' ++ bs2 ≠ []) by by destruct bs1'. rewrite <- (assoc_L (++)) in Hd.
    destruct (on_write_partial c d h k bs (bs1' ++ bs2) [] Hw Hd Hb Hne) as (c1 & d1 & E & Hd1 & (W1 & W2 & W3 & W4 & W5));
      [unfold in_u; lia|done..|]. cbn [app] in W1.
    destruct (IH bs1' c1 d1 Borrowed (k + zlen bs)) as (c' & d' & E' & Hd' & (V1 & V2 & V3 & V4 & V5));
      [done|unfold total; lia|done|by rewrite W1|done|unfold in_u; rewrite zlen_app; lia|lia|by rewrite W1|done|done|].
    exists c', d'. rewrite <- Hl. cbn [complete_writes]. rewrite (bind_ok _ _ _ _ _ E). split; [done|]. split; [by rewrite Z.add_assoc|].
    assert (Eh : (if decide (ns = []) then Borrowed else Borrowed) = Borrowed) by by destruct (decide (ns = [])). rewrite Eh in V1.
    unfold wrote. rewrite V1, V4, V5, W1, W4, W5. cbn [s_reads s_sent]. rewrite <- app_assoc. repeat split; try done; apply V3.
Qed.
End ServerWrites.

(** ** Closing *)

Definition is_release (e : conn_event) : bool := match e with Released _ => true | _ => false end.
Definition releases (c : Connection) : Z := zlen (List.filter is_release (c_events c)).

(** While the owner lives: the socket is still open, or the owner has been told,
    once. *)
Definition release_inv (c : Connection) : Prop :=
  m_holder c = true ∧ releases c + (if is_open (m_socket c) then 1 else 0) = 1.

(** Actions that keep the invariant when they do not fault. *)
Definition keeps {A} (m : MC A) : Prop :=
  ∀ c a c', release_inv c → m c = Ok (a, c') → release_inv c'.

Lemma keeps_ret {A} (a : A) : keeps (mret a).
Proof. by intros c x c' H [= _ <-]. Qed.

Lemma keeps_bind {A B} (m : MC A) (k : A → MC B) : keeps m → (∀ a, keeps (k a)) → keeps (m ≫= k).
Proof. intros Hm Hk c b c' H E. apply bind_inv in E as (a & c1 & E1 & E2). eapply Hk; [|exact E2]. eapply Hm; [exact H|exact E1]. Qed.

(** Enough for most operations: the socket stays as open as it was and no event
    is added. *)
Lemma keeps_quiet {A} (m : MC A) :
  (∀ c a c', m c = Ok (a, c') →
    is_open (m_socket c') = is_open (m_socket c) ∧ c_events c' = c_events c ∧
    m_holder c' = m_holder c) → keeps m.
Proof.
  intros Hm c a c' H E. destruct (Hm c a c' E) as (E1 & E2 & E3).
  unfold release_inv, releases. by rewrite E1, E2, E3.
Qed.

Lemma keeps_gets {A} (f : Connection → A) : keeps (gets f).
Proof. apply keeps_quiet. by intros c a c' [= _ <-]. Qed.

Lemma keeps_modify f :
  (∀ c, is_open (m_socket (f c)) = is_open (m_socket c) ∧ c_events (f c) = c_events c ∧
        m_holder (f c) = m_holder c) →
  keeps (modify f).
Proof. intros Hf. apply keeps_quiet. by intros c a c' [= _ <-]. Qed.

Lemma keeps_with_recv {A} (m : MB A) : keeps (with_recv m).
Proof.
  apply keeps_quiet. intros c a c'. unfold with_recv.
  destruct (m_recv_buffer c) as [b|]; [|done]. destruct (m b) as [[x b']|]; by intros [= _ <-].
Qed.

Lemma keeps_on_buffer {A} (m : MB A) b : keeps (on_buffer m b).
Proof.
  apply keeps_quiet. intros c a c'. unfold on_buffer, lift. destruct (m b); by intros [= _ <-].
Qed.

Lemma keeps_with_pool {A} (m : M (ObjectPool MsgBuffer) A) : keeps (with_pool m).
Proof.
  apply keeps_quiet. intros c a c'. unfold with_pool.
  destruct (m (m_msg_pool c)) as [[x p]|]; by intros [= _ <-].
Qed.

Lemma keeps_with_timer {A} (m : M (RepeatTimer TimeHandler) A) : keeps (with_timer m).
Proof.
  apply keeps_quiet. intros c a c'. unfold with_timer.
  destruct (m (m_repeat_timer c)) as [[x p]|]; by intros [= _ <-].
Qed.

Lemma keeps_emit e : is_release e = false → keeps (emit e).
Proof.
  intros He c a c' H [= _ <-]. unfold release_inv, releases in *. simpl.
  rewrite List.filter_app. simpl. by rewrite He, app_nil_r.
Qed.

Lemma keeps_close : keeps close.
Proof.
  intros c a c' [Hh H]. unfold close, gets, mbind, M_bind, id.
  destruct (is_open (m_socket c)) eqn:Ho; simpl; rewrite ?Hh.
  - intros [= _ <-]. split; [done|]. unfold releases in *. simpl.
    rewrite List.filter_app, zlen_app. simpl. change (zlen [_]) with 1. lia.
  - intros [= _ <-]. split; [done|]. by rewrite Ho.
Qed.

Create HintDb keeps.
#[local] Hint Resolve keeps_ret keeps_gets keeps_with_recv keeps_on_buffer keeps_with_pool
  keeps_with_timer keeps_close : keeps.

(** Descends through binds, conditionals and matches. *)
Ltac keep :=
  repeat match goal with
  | |- keeps (_ ≫= _) => apply keeps_bind; [|intros ?]
  | |- keeps (modify _) => apply keeps_modify; intros ?; try done
  | |- keeps (when ?b _) => destruct b; simpl
  | |- keeps (match ?x with _ => _ end) => destruct x
  | |- keeps _ => solve [eauto with keeps]
  end.

Lemma keeps_recycle d : keeps (recycle d).
Proof. unfold recycle, free. keep. Qed.
#[local] Hint Resolve keeps_recycle : keeps.

Lemma keeps_async_read n : keeps (async_read n).
Proof. unfold async_read, use. keep. Qed.
#[local] Hint Resolve keeps_async_read : keeps.

Lemma keeps_async_write d : keeps (async_write d).
Proof. unfold async_write, start_write. keep. Qed.

Lemma keeps_handle_read h n ec k : (∀ k, keeps (h k)) → keeps (handle_read h n ec k).
Proof. intros Hh. unfold handle_read, read_outcome. keep. Qed.

(** A completion first takes its operation off the socket. *)
Lemma keeps_take {A} (s : Connection → Socket) (k : MC A) c x c' :
  is_open (s c) = is_open (m_socket c) → keeps k → release_inv c →
  (modify (set_socket (s c));; k) c = Ok (x, c') → release_inv c'.
Proof. intros Hs Hk H E. eapply Hk; [|exact E]. unfold release_inv in *. simpl. by rewrite Hs. Qed.

Lemma keeps_on_read h ec chunk : (∀ k, keeps (h k)) → keeps (on_read h ec chunk).
Proof.
  intros Hh c x c' H. unfold on_read. rewrite (bind_ok (gets id) _ c c c) by done.
  destruct (s_reads (m_socket c)) as [|r rest]; [by intros [= _ <-]|].
  eapply (keeps_take (λ c, mkSocket (is_open (m_socket c)) rest (s_writes (m_socket c))
                             (s_sent (m_socket c)))); [done| |done].
  keep. by apply keeps_handle_read.
Qed.

Lemma keeps_on_write h ec n : (∀ k, keeps (h k)) → keeps (on_write h ec n).
Proof.
  intros Hh c x c' H. unfold on_write, on_nth_write. rewrite (bind_ok (gets id) _ c c c) by done.
  destruct (s_writes (m_socket c) !! 0%nat) as [w|]; [|by intros [= _ <-]].
  eapply (keeps_take (λ c, mkSocket (is_open (m_socket c)) (s_reads (m_socket c)) (delete 0%nat (s_writes (m_socket c)))
                             (s_sent (m_socket c) ++ ztake n (contents (wr_buffer w))))); [done| |done].
  unfold handle_write, call_handler. keep. by intros ? ? ?.
Qed.

Lemma keeps_Server_handle_read now k : keeps (Server_handle_read now k).
Proof.
  unfold Server_handle_read, set_recvbytes, set_last_recvtime, queue_frame. keep; try by apply keeps_emit.
  intros c x c' _ [=].
Qed.

Lemma keeps_Server_handle_write now k : keeps (Server_handle_write now k).
Proof. unfold Server_handle_write, set_sendbytes, set_last_sendtime. keep. Qed.

Lemma keeps_Server_handle_timeout now k : keeps (Server_handle_timeout now k).
Proof. unfold Server_handle_timeout. keep. Qed.

Lemma keeps_Connection_destroy : keeps Connection_destroy.
Proof. unfold Connection_destroy. keep. Qed.

(** ** What can happen to a connection of the server *)

Inductive conn_op :=
  | ReadCompletes (now : Z) (ec : error_code) (chunk : list byte)
  | WriteCompletes (now : Z) (ec : error_code) (n : Z)
  | WriteMessage (d : MsgBuffer)
  | ReadOn (expect_size : Z)
  | TimerTicks (now counts : Z)
  | CloseIt
  | DestroyIt.

Definition run_op (o : conn_op) : MC unit :=
  match o with
  | ReadCompletes now ec chunk => on_read (Server_handle_read now) ec chunk
  | WriteCompletes now ec n => on_write (Server_handle_write now) ec n
  | WriteMessage d => Server_async_write d
  | ReadOn n => Server_async_read n
  | TimerTicks now counts => _ ← Server_handle_timeout now counts; mret tt
  | CloseIt => close
  | DestroyIt => Connection_destroy
  end.

Fixpoint run_ops (os : list conn_op) : MC unit :=
  match os with [] => mret tt | o :: rest => run_op o;; run_ops rest end.

Lemma keeps_run_op o : keeps (run_op o).
Proof.
  destruct o; simpl; unfold Server_async_write, Server_async_read.
  - apply keeps_on_read, keeps_Server_handle_read.
  - apply keeps_on_write, keeps_Server_handle_write.
  - apply keeps_async_write.
  - apply keeps_async_read.
  - apply keeps_bind; [apply keeps_Server_handle_timeout|intros; apply keeps_ret].
  - apply keeps_close.
  - apply keeps_Connection_destroy.
Qed.

Lemma keeps_run_ops os : keeps (run_ops os).
Proof. induction os; simpl; [apply keeps_ret|]. apply keeps_bind; [apply keeps_run_op|done]. Qed.

(** ** Beside the read loop *)

(** What writing and the timer leave of what the read loop is about: they may close the socket. *)
Record beside (c c' : Connection) : Prop := {
  bs_buffer : m_recv_buffer c' = m_recv_buffer c;
  bs_reads : s_reads (m_socket c') = s_reads (m_socket c);
  bs_tasks : tasks c' = tasks c;
  bs_pool : pool_fresh (m_msg_pool c) → pool_fresh (m_msg_pool c');
  bs_open : is_open (m_socket c') = true → is_open (m_socket c) = true
}.

#[global] Instance beside_preorder : PreOrder beside.
Proof. split; [by split|]. intros x y z [A1 A2 A3 A4 A5] [B1 B2 B3 B4 B5]. split; [congruence..| |]; auto. Qed.

(** The read loop goes on as it was, with the socket open or closed. *)
Lemma beside_waiting o rest c c' :
  beside c c' → waiting o rest (tasks c) c → waiting (is_open (m_socket c')) rest (tasks c') c'.
Proof.
  intros [B1 B2 B3 B4 B5] [Hp [(b & sl & Eb & Hb) H2 H3 H4 H5]]. split; [done|]. split; [|by rewrite B2|done|by apply B4|done].
  exists b, sl. by rewrite B1.
Qed.

Lemma beside_stopped c c' : beside c c' → stopped (tasks c) c → stopped (tasks c') c'.
Proof.
  intros [B1 B2 B3 B4 B5] [H1 H2 H3]. split; [by rewrite B2| |done]. destruct (is_open (m_socket c')); [|done]. by rewrite B5 in H2.
Qed.

Lemma beside_close : along beside close.
Proof.
  intros c a c'. unfold close, gets, mbind, M_bind, id. destruct (is_open (m_socket c)) eqn:Ho; simpl; [|by intros [= _ <-]].
  destruct (m_holder c); intros [= _ <-]; split; try done. unfold tasks. simpl. by rewrite omap_app, app_nil_r.
Qed.

Lemma beside_recycle d : along beside (recycle d).
Proof.
  intros c a c' E. split; try (revert E; unfold recycle, free, on_buffer, lift, with_pool, mbind, M_bind; destruct (clear d); [|done];
    destruct (pool_free _ _) as [[]|]; [|done]; by intros [= _ <-]).
  intros Hp. destruct (recycle_fresh d c Hp) as (c1 & E1 & P1 & _). rewrite E in E1. by injection E1 as _ <-.
Qed.

Lemma beside_on_buffer {A} (m : MB A) b : along beside (on_buffer m b).
Proof. intros c a c'. unfold on_buffer, lift. destruct (m b); by intros [= _ <-]. Qed.

(** Descends, and leaves the modifications of other parts. *)
Ltac beside := along_cases; try apply beside_close; try apply beside_recycle; try apply beside_on_buffer;
  try (refine (along_modify _ _ _); intros ?; by split).

Lemma beside_async_write d : along beside (async_write d).
Proof. unfold async_write, start_write. beside. Qed.

Lemma beside_Server_handle_write now k : along beside (Server_handle_write now k).
Proof. unfold Server_handle_write, set_sendbytes, set_last_sendtime. beside. Qed.

Lemma beside_write now k ec n : along beside (on_nth_write (Server_handle_write now) k ec n).
Proof.
  unfold on_nth_write, handle_write, call_handler. refine (along_gets_bind _ _ _ _). intros c b c'. unfold id.
  destruct (s_writes (m_socket c) !! k) as [w|]; [|by intros [= _ <-]]. intros (x & c1 & [= _ <-] & E)%bind_inv.
  transitivity (set_socket (mkSocket (is_open (m_socket c)) (s_reads (m_socket c)) (delete k (s_writes (m_socket c)))
    (s_sent (m_socket c) ++ ztake n (contents (wr_buffer w)))) c); [by split|]. revert E.
  match goal with |- ?m ?s = _ → _ => assert (Hm : along beside m); [|by apply Hm] end. beside.
Qed.

Lemma beside_timeout now counts : along beside (Server_handle_timeout now counts).
Proof. unfold Server_handle_timeout. beside. Qed.

(** ** Properties *)

(** The state in which a message has just been posted on an idle connection. *)
Definition posted_on (c : Connection) (ds : list MsgBuffer) : Connection :=
  set_socket (mkSocket (is_open (m_socket c)) (s_reads (m_socket c)) (map (λ d, mkWrite d Owned) ds) (s_sent (m_socket c))) c.

Lemma write_posts d bs c ds :
  message d 0 bs → is_open (m_socket c) = true → m_send_buffer_list c = [] →
  Server_async_write d (posted_on c ds) = Ok (tt, posted_on c (ds ++ [d])).
Proof.
  intros Hd Ho Hq. unfold Server_async_write, async_write, gets, mbind, M_bind, id. cbn. rewrite Ho, Hq.
  rewrite bool_decide_eq_false_2 by (by eapply message_indicator). cbn. unfold start_write, modify, posted_on. cbn. by rewrite map_app, Ho.
Qed.

Lemma posted_on_idle c : s_writes (m_socket c) = [] → posted_on c [] = c.
Proof. intros E. unfold posted_on. destruct c as [? ? [] ? ? ? ? ? ?]; cbn in *. by rewrite E. Qed.

Lemma message_fits d bs : message d 0 bs → in_u 64 (zlen bs).
Proof.
  intros (i & pre & [sl Hd] & _). pose proof (rep_max _ _ _ _ _ Hd) as Hm. unfold vec_max in Hm. unfold in_u. rewrite !zlen_app in Hm.
  pose proof (zlen_nonneg pre). pose proof (zlen_nonneg sl). pose proof (zlen_nonneg bs). lia.
Qed.



(** Sent at once. *)
Example message_sent_at_once :
  let c := Connection_make 1 None (mkConnInfo [] 0 [] 0 7) 0 0 in
  match (Server_async_write (MsgBuffer_chars 0 valid [x61; x62; x63]);; on_write (Server_handle_write 5) ec_ok 3) c with
  | Ok (_, c') => s_sent (m_socket c') = [x61; x62; x63] ∧ s_writes (m_socket c') = [] ∧ get_send_bytes c' = 3
  | Fault _ => False
  end.
Proof. by vm_compute. Qed.

(** Two messages on the same connection can be interleaved: a message handed
    over while another one is being written is posted at once, and if the first
    is then written in two parts, the second one goes out between them: the rest of the first is still posted
    when all of the second is on the wire. *)
Theorem messages_interleave (now : Z) (d1 d2 : MsgBuffer) (bs1 bs1' bs2 : list byte) (c : Connection) :
  message d1 0 (bs1 ++ bs1') → message d2 0 bs2 → bs1 ≠ [] → bs1' ≠ [] → bs2 ≠ [] →
  is_open (m_socket c) = true → m_send_buffer_list c = [] → s_writes (m_socket c) = [] →
  pool_fresh (m_msg_pool c) →
  ∃ c' d', (Server_async_write d1;; Server_async_write d2;; complete_writes now [zlen bs1; zlen bs2]) c = Ok (tt, c') ∧
    s_sent (m_socket c') = s_sent (m_socket c) ++ bs1 ++ bs2 ∧ s_writes (m_socket c') = [mkWrite d' Borrowed] ∧ contents d' = bs1'.
Proof.
  intros Hd1 Hd2 H1 H1' H2 Ho Hq Hw Hp. pose proof (message_fits _ _ Hd1) as L1. pose proof (message_fits _ _ Hd2) as L2.
  unfold in_u in L1, L2. rewrite zlen_app in L1. pose proof (zlen_nonneg bs1). pose proof (zlen_nonneg bs1').
  pose proof (write_posts d1 _ c [] Hd1 Ho Hq) as E1. rewrite posted_on_idle in E1 by done. cbn [app] in E1.
  pose proof (write_posts d2 _ c [d1] Hd2 Ho Hq) as E2. cbn [app] in E2. rewrite (bind_ok _ _ _ _ _ E1), (bind_ok _ _ _ _ _ E2). cbn [complete_writes].
  destruct (on_write_partial now (posted_on c [d1; d2]) d1 Owned 0 bs1 bs1' [mkWrite d2 Owned]) as
    (c1 & d1' & E3 & Hd1' & (W1 & W2 & W3 & W4 & _)); [done..|unfold in_u; lia|done|done|done|].
  rewrite (bind_ok _ _ _ _ _ E3). cbn [app] in W1.
  destruct (on_write_final now c1 d2 0 bs2 [mkWrite d1' Borrowed]) as (c2 & E4 & (V1 & _));
    [by rewrite W1|done|done|unfold in_u; lia|by rewrite W1|done|done|].
  exists c2, d1'. rewrite (bind_ok _ _ _ _ _ E4). split; [done|]. rewrite V1, W1. cbn [s_sent s_writes posted_on set_socket m_socket].
  rewrite <- app_assoc. split_and!; [done|done|by apply message_contents in Hd1'].
Qed.

Lemma messages_interleave_witness :
  ∃ c' d', (Server_async_write (MsgBuffer_chars 0 valid [x61; x62]);;
         Server_async_write (MsgBuffer_chars 0 valid [x63]);;
         complete_writes 5 [zlen [x61]; zlen [x63]])
        (Connection_make 1 None (mkConnInfo [] 0 [] 0 7) 0 0) = Ok (tt, c') ∧
    s_sent (m_socket c') = [] ++ [x61] ++ [x63] ∧ s_writes (m_socket c') = [mkWrite d' Borrowed] ∧ contents d' = [x62].
Proof.
  apply (messages_interleave 5 (MsgBuffer_chars 0 valid [x61; x62]) (MsgBuffer_chars 0 valid [x63])
           [x61] [x62] [x63] (Connection_make 1 None (mkConnInfo [] 0 [] 0 7) 0 0));
    try done.
  - exists valid, []. split; [|done]. exists []. by constructor.
  - exists valid, []. split; [|done]. exists []. by constructor.
  - by repeat constructor.
Defined.

(** C34: whatever happens to a connection whose owner lives, in whatever order,
    completions after the close included, the owner is told of the close exactly
    once, and told nothing while the socket is open. *)
Theorem released_once (os : list conn_op) (c c' : Connection) :
  m_holder c = true → is_open (m_socket c) = true → releases c = 0 →
  run_ops os c = Ok (tt, c') →
  releases c' = if is_open (m_socket c') then 0 else 1.
Proof.
  intros Hh Ho Hr E. destruct (keeps_run_ops os c tt c') as [_ H]; [|done|].
  - split; [done|]. rewrite Hr, Ho. done.
  - destruct (is_open (m_socket c')); lia.
Qed.

Lemma released_once_witness :
  let c' := conn_result (run_ops [CloseIt; WriteMessage (MsgBuffer_make 8); CloseIt; DestroyIt]
              (Connection_make 1 None (mkConnInfo [] 0 [] 0 7) 0 0)) in
  releases c' = if is_open (m_socket c') then 0 else 1.
Proof.
  apply (released_once [CloseIt; WriteMessage (MsgBuffer_make 8); CloseIt; DestroyIt]
           (Connection_make 1 None (mkConnInfo [] 0 [] 0 7) 0 0)); [done|done|done|by vm_compute].
Defined.
