(* ===== verification/Client.v ===== *)
(** * The client (net/client.h, net/client.cpp)

    What the client does on a connection: its handlers and the keep-alive
    frame.  Then the client itself: the connects in progress, the connections it
    manages, the counters by which its reconnect timer decides, its
    destruction. *)

From Stdlib Require Import ZArith Lia Strings.Byte.
From stdpp Require Import base list numbers gmap.
From S2P Require Import Prelude.
From S2P Require Import Endian.
From S2P Require Import MsgBuffer.
From S2P Require Import Crc16.
From S2P Require Import ObjectPool.
From S2P Require Import RepeatTimer.
From S2P Require Import IocPool.
From S2P Require Import Connection.
From S2P Require Import Wire.
From S2P Require Import Proto.
From S2P Require Import Framing.
From S2P Require Import Server.

(** ** Handlers on a connection *)

(** [m_read_handler] is set, and the server is still there: *)
Definition Client_handle_read (has_handler server_alive : bool) (now bytes_transferred : Z) : MC unit :=
  if has_handler && server_alive then
    av ← with_recv (gets available);
    set_recvbytes av;;
    set_last_recvtime now;;
    queue_frame
  else mret tt.

Definition Client_async_read : MC unit := async_read g_proto_head_len.

Definition Client_handle_write (now bytes_transferred : Z) : MC unit :=
  set_sendbytes bytes_transferred;;
  set_last_sendtime now;;
  Client_async_read.

Definition Client_async_write (msg : MsgBuffer) : MC unit := async_write msg.

Definition Client_async_timeout : MC unit := async_timeout ClientKeepAlive.

(** The frame [handle_timeout] makes. *)
Definition keepalive_frame : MB unit :=
  seek 4;;
  shl_u32 g_proto_head_len;;
  shl_u32 CmdType.ACT_CMD;;
  vomit 4;;
  reset_bytes 0 g_head_magic_num;;
  p ← gets memory;
  av ← gets available;
  bs ← read_at (p + 8) (u64 (av - 8));
  shl_u16 (crc16 bs);;
  set_indicator valid.

Definition Client_handle_timeout : MC unit :=
  data ← use;
  r ← on_buffer keepalive_frame data;
  Client_async_write r.2.

(** ** The client *)

(** An IPv4 address and a port. *)
Definition endpoint : Type := Z * Z.

Record Client := mkClient {
  m_peers : list endpoint;
  m_conn_worker_num : Z;
  m_per_conn_num : Z;
  m_ioc_pool : option IocPool;
  m_connector_thread : bool;
  m_conn_manager : gmap Z nat;
  m_server_conns : gmap endpoint Z;
  cl_made : nat;                         (** connections made so far *)
  cl_pending : list (nat * endpoint);    (** connects in progress *)
  m_connector_ioc_work : bool;
  m_reconnect_timer : bool;              (** whether it is running *)
  cl_timed : list nat                    (** connections whose timer was started *)
}.

Abbreviation MCl := (M Client).

Definition Client_make (peers : list endpoint) (conn_woker_num per_conn_num : Z) : Client :=
  mkClient peers conn_woker_num per_conn_num None false ∅ ∅ 0 [] true false [].

Definition set_started (p : IocPool) (c : Client) : Client :=
  mkClient (m_peers c) (m_conn_worker_num c) (m_per_conn_num c) (Some p) true
    (m_conn_manager c) (m_server_conns c) (cl_made c) (cl_pending c) (m_connector_ioc_work c) true (cl_timed c).
Definition set_pool_pending (p : IocPool) (made : nat) (l : list (nat * endpoint)) (c : Client) : Client :=
  mkClient (m_peers c) (m_conn_worker_num c) (m_per_conn_num c) (Some p) (m_connector_thread c)
    (m_conn_manager c) (m_server_conns c) made l (m_connector_ioc_work c) (m_reconnect_timer c) (cl_timed c).
Definition set_pending (l : list (nat * endpoint)) (c : Client) : Client :=
  mkClient (m_peers c) (m_conn_worker_num c) (m_per_conn_num c) (m_ioc_pool c) (m_connector_thread c)
    (m_conn_manager c) (m_server_conns c) (cl_made c) l (m_connector_ioc_work c) (m_reconnect_timer c) (cl_timed c).
Definition set_conns (m : gmap Z nat) (n : gmap endpoint Z) (c : Client) : Client :=
  mkClient (m_peers c) (m_conn_worker_num c) (m_per_conn_num c) (m_ioc_pool c) (m_connector_thread c)
    m n (cl_made c) (cl_pending c) (m_connector_ioc_work c) (m_reconnect_timer c) (cl_timed c).

Definition start_timer (conn : nat) (c : Client) : Client :=
  mkClient (m_peers c) (m_conn_worker_num c) (m_per_conn_num c) (m_ioc_pool c) (m_connector_thread c)
    (m_conn_manager c) (m_server_conns c) (cl_made c) (cl_pending c) (m_connector_ioc_work c)
    (m_reconnect_timer c) (cl_timed c ++ [conn]).

(** One turn of the loop of [async_connect]. *)
Definition connect_one (e : endpoint) : MCl unit := λ c,
  match m_ioc_pool c with
  | None => Fault NullDeref
  | Some p =>
      match get_iocontext p with
      | Fault f => Fault f
      | Ok (_, p') =>
          Ok (tt, set_pool_pending p' (S (cl_made c)) (cl_pending c ++ [(cl_made c, e)]) c)
      end
  end.

Fixpoint repeat_m (n : nat) (m : MCl unit) : MCl unit :=
  match n with O => mret tt | S n' => m;; repeat_m n' m end.

Definition async_connect (e : endpoint) : MCl unit :=
  c ← gets id;
  repeat_m (Z.to_nat (m_per_conn_num c)) (connect_one e).

Fixpoint for_each {A} (f : A → MCl unit) (l : list A) : MCl unit :=
  match l with [] => mret tt | a :: rest => f a;; for_each f rest end.

(** [start], with the function it posts run; the timer of reconnects runs from
    then on. *)
Definition Client_start : MCl unit :=
  c ← gets id;
  modify (set_started (IocPool_make (m_conn_worker_num c)));;
  for_each async_connect (m_peers c).

(** [release] erases by handle. *)
Definition Client_release (id : Z) : MCl unit :=
  modify (λ c, set_conns (delete id (m_conn_manager c)) (m_server_conns c) c).

(** [handle_connect]: [uuid] is the handle of the connected socket; the
    connection's own timer is that of [Client_async_timeout]. *)
Definition handle_connect (conn : nat) (uuid : Z) (e : endpoint) : MCl unit :=
  modify (λ c,
    set_conns (<[uuid := conn]> (m_conn_manager c))
      (match m_server_conns c !! e with
       | None => <[e := 1]> (m_server_conns c)
       | Some n => <[e := u64 (n + 1)]> (m_server_conns c)
       end) c);;
  modify (start_timer conn).

(** The completion of the [i]-th connect in progress: the handle of the socket,
    or an error, and then [close] releases what the uninitialised [m_uuid] of
    the connection happens to hold. *)
Definition on_connect (i : nat) (answer : Z + Z) : MCl unit :=
  c ← gets id;
  match cl_pending c !! i with
  | None => mret tt
  | Some (conn, e) =>
      modify (set_pending (delete i (cl_pending c)));;
      match answer with
      | inl uuid => handle_connect conn uuid e
      | inr junk_uuid => Client_release junk_uuid
      end
  end.

(** The tick of [m_reconnect_timer]. *)
Definition on_reconnect : MCl unit :=
  c ← gets id;
  for_each (λ '(e, conn_num), if conn_num <? m_per_conn_num c then async_connect e else mret tt)
    (map_to_list (m_server_conns c)).

(** [get_conn]: the loop over the table, whose order is that of [l], compares
    the position with a new random number each time; an empty table has no
    [begin()->second]. *)
Fixpoint get_conn_loop (random : nat → Z) (size : Z) (i : nat) (l : list nat) : option nat :=
  match l with
  | [] => None
  | conn :: rest =>
      if Z.of_nat i =? random i `mod` size then Some conn else get_conn_loop random size (S i) rest
  end.

Definition get_conn (random : nat → Z) (order : gmap Z nat → list nat) : MCl nat :=
  c ← gets id;
  let l := order (m_conn_manager c) in
  match get_conn_loop random (zlen l) 0 l with
  | Some conn => mret conn
  | None => match l with conn :: _ => mret conn | [] => raise NullDeref end
  end.

(** The destructor: the connections it closes cannot lock their owner any more,
    so nothing is erased while it iterates; it stops the timer and joins the
    connector thread.  The result is whether the join returns. *)
Definition Client_destroy : MCl bool :=
  c ← gets id;
  if m_connector_thread c then mret (negb (m_connector_ioc_work c)) else raise NullDeref.

(** ** The keep-alive frame *)

(** What [keepalive_frame] puts into a fresh buffer. *)
Definition keepalive_bytes : list byte :=
  g_head_magic_num ++ be_bytes 4 g_proto_head_len ++ be_bytes 4 CmdType.ACT_CMD ++
  be_bytes 2 (crc16 (be_bytes 4 CmdType.ACT_CMD)).

Lemma keepalive_frame_holds pl slack :
  ⦃ rep (pl, none) [] [] (zreplicate 4 x00 ++ slack) ⦄ keepalive_frame
  ⦃ λ _, holds (pl, valid) [] keepalive_bytes ⦄.
Proof.
  set (gap := zreplicate 4 x00). set (len := be_bytes 4 g_proto_head_len).
  set (cmd := be_bytes 4 CmdType.ACT_CMD).
  assert (Hroom : ∀ k l, zlen l ≤ 100 → 0 ≤ k ≤ 100 → room k gap l).
  { intros k l Hl Hk. unfold room, vec_max. change (zlen gap) with 4. lia. }
  assert (Hroom0 : ∀ k l, zlen l ≤ 100 → 0 ≤ k ≤ 100 → room k [] l).
  { intros k l Hl Hk. unfold room, vec_max. change (zlen (@nil byte)) with 0. lia. }
  unfold keepalive_frame.
  eapply triple_bind; [exact (seek_rep (pl, none) [] gap slack)|]. intros [].
  eapply triple_bind with (Q := λ _, holds (pl, none) gap len).
  { eapply triple_conseq; [apply (shl_u32_holds (pl, none) gap [] g_proto_head_len)| |done].
    - by apply Hroom.
    - intros s Hs. by eexists. }
  intros []. eapply triple_bind; [apply (shl_u32_holds (pl, none) gap len CmdType.ACT_CMD)|].
  { by apply Hroom. }
  intros []. eapply triple_bind; [exact (vomit_holds (pl, none) [] gap (len ++ cmd))|]. intros [].
  eapply triple_bind;
    [exact (reset_bytes_holds (pl, none) [] [] gap g_head_magic_num (len ++ cmd) eq_refl)|]. intros [].
  eapply triple_bind_eq; [apply memory_holds|]. eapply triple_bind_eq; [apply available_holds|].
  eapply triple_bind_eq.
  { pose proof (read_mid_holds (pl, none) [] (g_head_magic_num ++ len) cmd []) as H.
    rewrite app_nil_r, <- app_assoc in H. exact H. }
  eapply triple_bind; [apply (shl_u16_holds (pl, none) [] _ (crc16 cmd))|].
  { by apply Hroom0. }
  intros []. cbn [app]. unfold keepalive_bytes.
  eapply triple_conseq; [apply (set_indicator_holds (pl, none) valid)|done|].
  intros [] b Hb. fold len cmd. by rewrite <- !app_assoc in *.
Qed.

Lemma keepalive_is_frame : is_frame keepalive_bytes.
Proof. by vm_compute. Qed.

(** ** The handlers *)

#[global] Instance Client_handler now : FrameHandler (Client_handle_read true true now).
Proof.
  intros n c b E. destruct (Server_handle_read_eq now n c b E) as (c' & H1 & H2 & H3 & H4 & H5 & _).
  by exists c'.
Qed.

(** ** The counters of the reconnect timer *)

Definition client_ok (c : Client) : Prop := ∃ p, m_ioc_pool c = Some p ∧ pos_ok p.

(** Connects to [e] in progress. *)
Definition connects_to (e : endpoint) (c : Client) : Z :=
  zlen (List.filter (λ p, bool_decide (p.2 = e)) (cl_pending c)).

(** Nothing that decides about reconnecting changed. *)
Definition same_counters (c c' : Client) : Prop :=
  m_server_conns c' = m_server_conns c ∧ m_per_conn_num c' = m_per_conn_num c ∧
  m_conn_manager c' = m_conn_manager c ∧ m_peers c' = m_peers c.

Lemma same_counters_trans c1 c2 c3 :
  same_counters c1 c2 → same_counters c2 c3 → same_counters c1 c3.
Proof. unfold same_counters. intros (? & ? & ? & ?) (? & ? & ? & ?). repeat split; congruence. Qed.

Lemma connect_one_ok e c :
  client_ok c →
  ∃ c', connect_one e c = Ok (tt, c') ∧ client_ok c' ∧ same_counters c c' ∧
    ∀ e', connects_to e' c' = connects_to e' c + (if decide (e = e') then 1 else 0).
Proof.
  intros (p & Ep & Hp). unfold connect_one. rewrite Ep, (get_iocontext_ok p Hp).
  eexists. split; [done|]. split; [eexists; split; [done|by apply pos_ok_next]|]. split; [done|].
  intros e'. unfold connects_to; simpl. rewrite List.filter_app, zlen_app. simpl.
  by destruct (decide (e = e')) as [->|Hne]; case_bool_decide.
Qed.

Lemma repeat_connect_ok e n c :
  client_ok c →
  ∃ c', repeat_m n (connect_one e) c = Ok (tt, c') ∧ client_ok c' ∧ same_counters c c' ∧
    ∀ e', connects_to e' c' = connects_to e' c + (if decide (e = e') then Z.of_nat n else 0).
Proof.
  revert c. induction n as [|n IH]; intros c Hc.
  - exists c. repeat split; try done. intros e'. destruct (decide _); lia.
  - destruct (connect_one_ok e c Hc) as (c1 & E1 & H1 & S1 & P1).
    destruct (IH c1 H1) as (c' & E & H & S' & P). exists c'. simpl.
    rewrite (bind_ok _ _ _ _ _ E1). split; [done|]. split; [done|].
    split; [by eapply same_counters_trans|]. intros e'. rewrite P, P1. destruct (decide _); lia.
Qed.

Lemma async_connect_ok e c :
  client_ok c →
  ∃ c', async_connect e c = Ok (tt, c') ∧ client_ok c' ∧ same_counters c c' ∧
    ∀ e', connects_to e' c' =
      connects_to e' c + (if decide (e = e') then Z.max 0 (m_per_conn_num c) else 0).
Proof.
  intros Hc. destruct (repeat_connect_ok e (Z.to_nat (m_per_conn_num c)) c Hc) as (c' & E & H & S & P).
  exists c'. unfold async_connect. rewrite (bind_ok (gets id) _ c c c) by done.
  repeat split; try done; try apply S. intros e'. rewrite P. destruct (decide _); lia.
Qed.

(** The loop of the timer, over entries with distinct endpoints. *)
Lemma reconnect_loop_ok per (l : list (endpoint * Z)) c :
  client_ok c → m_per_conn_num c = per → NoDup l.*1 →
  ∃ c', for_each (λ '(e, conn_num), if conn_num <? per then async_connect e else mret tt) l c
          = Ok (tt, c') ∧ client_ok c' ∧ same_counters c c' ∧
    (∀ e n, (e, n) ∈ l → connects_to e c' = connects_to e c + (if n <? per then Z.max 0 per else 0)) ∧
    (∀ e, e ∉ l.*1 → connects_to e c' = connects_to e c).
Proof.
  revert c. induction l as [|[e n] l IH]; intros c Hc Hper Hnd.
  - exists c. repeat split; try done. intros e n H. by apply elem_of_nil in H.
  - cbn [fmap list_fmap fst] in Hnd. apply NoDup_cons in Hnd as [Hni Hnd].
    assert (H1 : ∃ c1, (if n <? per then async_connect e else mret tt) c = Ok (tt, c1) ∧
              client_ok c1 ∧ same_counters c c1 ∧
              ∀ e', connects_to e' c1 = connects_to e' c +
                (if decide (e = e') then if n <? per then Z.max 0 per else 0 else 0)).
    { destruct (n <? per).
      - destruct (async_connect_ok e c Hc) as (c1 & E1 & H1 & S1 & P1). rewrite Hper in P1. by exists c1.
      - exists c. repeat split; try done. intros e'. destruct (decide _); lia. }
    destruct H1 as (c1 & E1 & H1 & S1 & P1).
    destruct (IH c1 H1) as (c' & E & H & S' & P & Q); [by destruct S1 as (_ & -> & _)|done|].
    exists c'. simpl. rewrite (bind_ok _ _ _ _ _ E1). split; [done|]. split; [done|].
    split; [by eapply same_counters_trans|]. split.
    + intros e' n' [[= -> ->]|Hin]%elem_of_cons.
      * rewrite (Q e Hni), P1. by destruct (decide (e = e)).
      * rewrite (P e' n' Hin), P1. destruct (decide (e = e')) as [->|]; [|lia].
        destruct Hni. apply list_elem_of_fmap. by exists (e', n').
    + intros e' He'. cbn [fmap list_fmap fst] in He'. apply not_elem_of_cons in He' as [Hne He'].
      rewrite (Q e' He'), P1. destruct (decide (e = e')); [congruence|lia].
Qed.

Lemma on_reconnect_ok c :
  client_ok c →
  ∃ c', on_reconnect c = Ok (tt, c') ∧ client_ok c' ∧ same_counters c c' ∧
    ∀ e, connects_to e c' = connects_to e c +
      match m_server_conns c !! e with
      | Some n => if n <? m_per_conn_num c then Z.max 0 (m_per_conn_num c) else 0
      | None => 0
      end.
Proof.
  intros Hc.
  destruct (reconnect_loop_ok (m_per_conn_num c) (map_to_list (m_server_conns c)) c Hc eq_refl)
    as (c' & E & H & S & P & Q); [apply NoDup_fst_map_to_list|].
  exists c'. unfold on_reconnect. rewrite (bind_ok (gets id) _ c c c) by done.
  split; [done|]. split; [done|]. split; [done|]. intros e.
  destruct (m_server_conns c !! e) as [n|] eqn:En.
  - apply P. by apply elem_of_map_to_list.
  - rewrite Q; [lia|]. intros (p & -> & Hp)%list_elem_of_fmap. destruct p as [e n].
    apply elem_of_map_to_list in Hp. simpl in En. congruence.
Qed.

(** ** Executions of the client *)

Inductive client_event :=
  | Connected (e : endpoint)
  | ConnectFailed (e : endpoint)
  | Ticked
  | Closed (uuid : Z).    (** a connection closes and is released *)

Inductive client_runs (c0 : Client) : list client_event → Client → Prop :=
  | client_runs_nil : client_runs c0 [] c0
  | client_runs_connected tr c i conn e uuid c' :
      client_runs c0 tr c → cl_pending c !! i = Some (conn, e) →
      on_connect i (inl uuid) c = Ok (tt, c') → client_runs c0 (tr ++ [Connected e]) c'
  | client_runs_failed tr c i conn e junk_uuid c' :
      client_runs c0 tr c → cl_pending c !! i = Some (conn, e) →
      on_connect i (inr junk_uuid) c = Ok (tt, c') → client_runs c0 (tr ++ [ConnectFailed e]) c'
  | client_runs_ticked tr c c' :
      client_runs c0 tr c → on_reconnect c = Ok (tt, c') → client_runs c0 (tr ++ [Ticked]) c'
  | client_runs_closed tr c uuid c' :
      client_runs c0 tr c → Client_release uuid c = Ok (tt, c') →
      client_runs c0 (tr ++ [Closed uuid]) c'.

(** How often a connect to [e] has succeeded. *)
Definition successes (e : endpoint) (tr : list client_event) : Z :=
  zlen (List.filter (λ ev, match ev with Connected e' => bool_decide (e' = e) | _ => false end) tr).

Lemma successes_snoc e tr ev :
  successes e (tr ++ [ev]) =
    successes e tr + match ev with Connected e' => if decide (e' = e) then 1 else 0 | _ => 0 end.
Proof.
  unfold successes. rewrite List.filter_app, zlen_app. destruct ev as [e'| | |]; simpl; try done.
  by case_bool_decide; destruct (decide _).
Qed.

Lemma successes_bound e tr : 0 ≤ successes e tr ≤ zlen tr.
Proof.
  split; [apply zlen_nonneg|]. unfold successes. induction tr as [|ev tr IH]; simpl; [done|].
  destruct (match ev with Connected _ => _ | _ => _ end); rewrite ?zlen_cons; lia.
Qed.

Definition counters_of (tr : list client_event) (c : Client) : Prop :=
  ∀ e, m_server_conns c !! e = if successes e tr =? 0 then None else Some (successes e tr).

Lemma handle_connect_counters tr c conn uuid e c' :
  counters_of tr c → zlen (tr ++ [Connected e]) < 2 ^ 64 →
  handle_connect conn uuid e c = Ok (tt, c') → counters_of (tr ++ [Connected e]) c'.
Proof.
  intros Hc Hlen [= <-] e'. rewrite zlen_app in Hlen. change (zlen [_]) with 1 in Hlen.
  rewrite successes_snoc. simpl. rewrite (Hc e). pose proof (successes_bound e tr).
  pose proof (successes_bound e' tr).
  destruct (Z.eqb_spec (successes e tr) 0) as [E0|E0]; destruct (decide (e = e')) as [<-|Hne].
  - rewrite lookup_insert_eq, E0. done.
  - rewrite lookup_insert_ne by done. rewrite (Hc e'), Z.add_0_r. done.
  - rewrite lookup_insert_eq, u64_small by (unfold in_u; lia).
    destruct (Z.eqb_spec (successes e tr + 1) 0); [lia|done].
  - rewrite lookup_insert_ne by done. rewrite (Hc e'), Z.add_0_r. done.
Qed.

Lemma counters_other tr ev c c' :
  counters_of tr c → m_server_conns c' = m_server_conns c →
  (∀ e, ev ≠ Connected e) → counters_of (tr ++ [ev]) c'.
Proof.
  intros Hc E Hev e. rewrite E, successes_snoc, (Hc e). destruct ev; rewrite ?Z.add_0_r; try done.
  by destruct (Hev e0).
Qed.

Lemma on_connect_pending c i conn e answer :
  cl_pending c !! i = Some (conn, e) →
  on_connect i answer c =
    match answer with
    | inl uuid => handle_connect conn uuid e (set_pending (delete i (cl_pending c)) c)
    | inr junk => Client_release junk (set_pending (delete i (cl_pending c)) c)
    end.
Proof.
  intros Hi. unfold on_connect. rewrite (bind_ok (gets id) _ c c c) by done. rewrite Hi.
  rewrite (bind_ok (modify _) _ c tt (set_pending (delete i (cl_pending c)) c)) by done.
  by destruct answer.
Qed.

Lemma client_runs_inv c0 tr c :
  client_ok c0 → m_server_conns c0 = ∅ → client_runs c0 tr c → zlen tr < 2 ^ 64 →
  client_ok c ∧ m_per_conn_num c = m_per_conn_num c0 ∧ counters_of tr c.
Proof.
  intros H0 E0. induction 1 as [|tr c i conn e uuid c' _ IH Hi E|tr c i conn e junk c' _ IH Hi E
    |tr c c' _ IH E|tr c uuid c' _ IH E]; intros Hlen.
  1: { split; [done|]. split; [done|]. intros e. by rewrite E0, lookup_empty. }
  all: assert (Hlen' : zlen tr < 2 ^ 64)
    by (rewrite zlen_app in Hlen; change (zlen [_]) with 1 in Hlen; lia);
    destruct (IH Hlen') as (H1 & H2 & H3).
  - rewrite (on_connect_pending _ _ _ _ _ Hi) in E.
    pose proof (handle_connect_counters tr (set_pending (delete i (cl_pending c)) c)
                  conn uuid e c' H3 Hlen E) as H4. injection E as <-. done.
  - rewrite (on_connect_pending _ _ _ _ _ Hi) in E. injection E as <-.
    split; [done|]. split; [done|]. by eapply counters_other.
  - destruct (on_reconnect_ok c H1) as (c1 & E1 & K1 & (S1 & S2 & _) & _).
    rewrite E in E1. injection E1 as <-. split; [done|]. split; [congruence|].
    by eapply counters_other.
  - injection E as <-. split; [done|]. split; [done|]. by eapply counters_other.
Qed.

Lemma for_each_connect_ok l c :
  client_ok c → ∃ c', for_each async_connect l c = Ok (tt, c') ∧ client_ok c' ∧ same_counters c c'.
Proof.
  revert c. induction l as [|e l IH]; intros c Hc; [by exists c|].
  destruct (async_connect_ok e c Hc) as (c1 & E1 & H1 & S1 & _).
  destruct (IH c1 H1) as (c' & E & H & S'). exists c'. simpl. rewrite (bind_ok _ _ _ _ _ E1).
  split; [done|]. split; [done|]. by eapply same_counters_trans.
Qed.

Lemma Client_start_ok peers k per :
  0 < k < 2 ^ 64 →
  ∃ c0, Client_start (Client_make peers k per) = Ok (tt, c0) ∧ client_ok c0 ∧
    m_server_conns c0 = ∅ ∧ m_per_conn_num c0 = per.
Proof.
  intros Hk. set (c1 := set_started (IocPool_make k) (Client_make peers k per)).
  assert (H1 : client_ok c1) by (exists (IocPool_make k); split; [done|by apply make_loops_ok]).
  destruct (for_each_connect_ok peers c1 H1) as (c0 & E & H & (S1 & S2 & _)).
  exists c0. unfold Client_start.
  rewrite (bind_ok (gets id) _ _ (Client_make peers k per) (Client_make peers k per)) by done.
  rewrite (bind_ok (modify _) _ _ tt c1) by done. by rewrite S1, S2.
Qed.

(** ** Properties *)

(** The reconnect timer counts successes, not connections.  In every state
    the client reaches after [start], a tick starts [per] new connects to an
    endpoint exactly when some connect to it has succeeded and fewer than [per]
    have, ever: an endpoint whose connects have all failed is never tried again,
    nor is one that has once had [per] connections, however many have closed;
    and one that lacks a single connection gets [per] new ones. *)
Theorem client_reconnects (peers : list endpoint) (k per : Z) (c0 c : Client)
    (tr : list client_event) :
  0 < k < 2 ^ 64 → 0 ≤ per → zlen tr < 2 ^ 64 →
  Client_start (Client_make peers k per) = Ok (tt, c0) → client_runs c0 tr c →
  ∃ c', on_reconnect c = Ok (tt, c') ∧
    ∀ e, connects_to e c' = connects_to e c +
      (if (0 <? successes e tr) && (successes e tr <? per) then per else 0).
Proof.
  intros Hk Hper Hlen Hs Hr. destruct (Client_start_ok peers k per Hk) as (c1 & E1 & H1 & M1 & P1).
  rewrite Hs in E1. injection E1 as <-.
  destruct (client_runs_inv c0 tr c H1 M1 Hr Hlen) as (H & Hp & Hc).
  destruct (on_reconnect_ok c H) as (c' & E & _ & _ & P). exists c'. split; [done|]. intros e.
  rewrite P, (Hc e), Hp, P1. pose proof (successes_bound e tr).
  destruct (Z.eqb_spec (successes e tr) 0) as [->|Hne]; [done|].
  replace (0 <? successes e tr) with true by lia. simpl. destruct (_ <? per); lia.
Qed.

Definition client_result (r : result (unit * Client)) : Client :=
  match r with Ok (_, c) => c | Fault _ => Client_make [] 0 0 end.

(** One peer, one connection: it connects, closes, and is not replaced. *)
Definition sample_client0 : Client := client_result (Client_start (Client_make [(1, 80)] 1 1)).
Definition sample_client1 : Client := client_result (on_connect 0 (inl 9) sample_client0).
Definition sample_client2 : Client := client_result (Client_release 9 sample_client1).

Lemma client_reconnects_witness :
  let tr := ([] ++ [Connected (1, 80)]) ++ [Closed 9] in
  ∃ c', on_reconnect sample_client2 = Ok (tt, c') ∧
    ∀ e, connects_to e c' = connects_to e sample_client2 +
      (if (0 <? successes e tr) && (successes e tr <? 1) then 1 else 0).
Proof.
  apply (client_reconnects [(1, 80)] 1 1 sample_client0); [lia|lia|by vm_compute|by vm_compute|].
  apply (client_runs_closed _ _ sample_client1 9); [|by vm_compute].
  eapply (client_runs_connected _ _ sample_client0 0 _ _ 9); [apply client_runs_nil|by vm_compute|by vm_compute].
Defined.

(** On every tick of its timer an open client connection with nothing queued
    posts a write of the keep-alive frame, and nothing else; its bytes are a
    complete frame for the receiver's frame check. *)
Theorem client_keepalive_frame (c : Connection) :
  pool_fresh (m_msg_pool c) → is_open (m_socket c) = true → m_send_buffer_list c = [] →
  ∃ c' d, Client_handle_timeout c = Ok (tt, c') ∧
    s_writes (m_socket c') = s_writes (m_socket c) ++ [mkWrite d Owned] ∧
    contents d = keepalive_bytes ∧ m_indicator d = valid ∧ is_frame (contents d) ∧
    is_open (m_socket c') = true ∧ c_events c' = c_events c ∧ pool_fresh (m_msg_pool c').
Proof.
  intros Hp Ho Hq. destruct (pool_get_fresh _ Hp) as (p' & Eg & Hp').
  destruct (keepalive_frame_holds 0 (zreplicate 1020 x00) (MsgBuffer_make m_default_buffer_size))
    as ([] & d & Ed & Hd).
  { change (zreplicate 4 x00 ++ zreplicate 1020 x00) with (zreplicate m_default_buffer_size x00).
    apply make_rep. unfold vec_max, m_default_buffer_size. lia. }
  unfold Client_handle_timeout, use, with_pool, mbind, M_bind. rewrite Eg.
  unfold on_buffer, lift. rewrite Ed. unfold Client_async_write, async_write, gets, mbind, M_bind, id.
  destruct Hd as [sl Hd]. pose proof (rep_meta _ _ _ _ _ Hd) as Hm. injection Hm as _ Hi.
  cbn [snd m_socket m_send_buffer_list set_pool]. rewrite Hi, Ho, Hq.
  rewrite bool_decide_eq_false_2 by done. cbn [orb negb].
  eexists _, d. split; [reflexivity|]. split; [done|].
  rewrite (rep_contents _ _ _ _ _ Hd). pose proof keepalive_is_frame. repeat split; try done; apply Hp'.
Qed.

Lemma client_keepalive_frame_witness :
  let c := Connection_make 1 (Some ClientKeepAlive) (mkConnInfo [] 0 [] 0 7) 0 0 in
  ∃ c' d, Client_handle_timeout c = Ok (tt, c') ∧
    s_writes (m_socket c') = s_writes (m_socket c) ++ [mkWrite d Owned] ∧
    contents d = keepalive_bytes ∧ m_indicator d = valid ∧ is_frame (contents d) ∧
    is_open (m_socket c') = true ∧ c_events c' = c_events c ∧ pool_fresh (m_msg_pool c').
Proof.
  apply (client_keepalive_frame (Connection_make 1 (Some ClientKeepAlive) (mkConnInfo [] 0 [] 0 7) 0 0));
    [|done|done].
  by repeat constructor.
Defined.

(** [get_conn] returns a connection of the table whatever numbers are drawn
    and whatever the order of the table is, and dereferences the end of an
    empty table. *)
Theorem get_conn_total (random : nat → Z) (order : gmap Z nat → list nat) (c : Client) :
  (∀ m, order m ≡ₚ (map_to_list m).*2) →
  if decide (m_conn_manager c = ∅)
  then get_conn random order c = Fault NullDeref
  else ∃ uuid conn, get_conn random order c = Ok (conn, c) ∧ m_conn_manager c !! uuid = Some conn.
Proof.
  intros Hord. unfold get_conn, gets, mbind, M_bind, id. specialize (Hord (m_conn_manager c)).
  destruct (decide (m_conn_manager c = ∅)) as [E|E].
  - rewrite E, map_to_list_empty in Hord. symmetry in Hord. apply Permutation_nil_l in Hord.
    rewrite E. by rewrite <- Hord.
  - assert (Hin : ∀ conn, conn ∈ order (m_conn_manager c) →
              ∃ uuid, m_conn_manager c !! uuid = Some conn).
    { intros conn H. rewrite Hord in H. apply list_elem_of_fmap in H as ([uuid x] & -> & H).
      exists uuid. by apply elem_of_map_to_list. }
    assert (Hne : order (m_conn_manager c) ≠ []).
    { intros Hn. rewrite Hn in Hord. apply Permutation_nil_l in Hord. destruct E.
      apply map_to_list_empty_iff. by destruct (map_to_list (m_conn_manager c)). }
    assert (Hloop : ∀ l size i conn, get_conn_loop random size i l = Some conn → conn ∈ l).
    { induction l as [|x l IH]; intros size i conn; simpl; [done|].
      destruct (_ =? _); [intros [= ->]; by left|]. intros H. right. by eapply IH. }
    destruct (get_conn_loop _ _ _ _) as [conn|] eqn:Eg.
    + destruct (Hin conn) as [uuid H]; [by eapply Hloop|]. by exists uuid, conn.
    + destruct (order (m_conn_manager c)) as [|conn l]; [done|].
      destruct (Hin conn) as [uuid H]; [by left|]. by exists uuid, conn.
Qed.

Lemma get_conn_total_witness :
  if decide (m_conn_manager sample_client1 = ∅)
  then get_conn (λ i, 7) (λ m, (map_to_list m).*2) sample_client1 = Fault NullDeref
  else ∃ uuid conn, get_conn (λ i, 7) (λ m, (map_to_list m).*2) sample_client1 = Ok (conn, sample_client1) ∧
    m_conn_manager sample_client1 !! uuid = Some conn.
Proof. apply (get_conn_total (λ i, 7) (λ m, (map_to_list m).*2) sample_client1). done. Defined.

(** Runs an action that does not fault. *)
Definition after (m : MC unit) (c : Connection) : Connection := conn_result (m c).

(** A client connection that has sent its keep-alive frame twice. *)
Definition two_writes (now : Z) : Connection :=
  let send c :=
    after (on_write (Client_handle_write now) ec_ok 14) (after Client_handle_timeout c) in
  send (send (Connection_make 1 (Some ClientKeepAlive) (mkConnInfo [] 0 [] 0 7) 0 0)).

(** Every completed write posts a read, so two writes leave two reads on
    the same place of the receive buffer; a frame the peer then sends in two
    pieces is handed to the worker pool with the second piece over the first. *)
Theorem client_reads_overlap (now now' : Z) :
  let c := two_writes now in
  let h := Client_handle_read true true now' in
  s_reads (m_socket c) = [mkRead 0 12; mkRead 0 12] ∧
  ∃ c1 c2 d, on_read h ec_ok (ztake 12 sample_frame) c = Ok (tt, c1) ∧
    on_read h ec_ok (zdrop 12 sample_frame) c1 = Ok (tt, c2) ∧
    tasks c2 = [d] ∧ m_indicator d = valid ∧
    contents d = zdrop 12 sample_frame ++ ztake 9 (zdrop 3 sample_frame) ++ zreplicate 3 x00 ∧
    contents d ≠ sample_frame.
Proof.
  cbv zeta. split; [by vm_compute|]. do 3 eexists.
  split; [vm_compute; reflexivity|]. split; [vm_compute; reflexivity|].
  by vm_compute.
Qed.
