(* ===== verification/Application.v ===== *)
(** * The application (src/application.h, src/application.cpp, main.cpp)

    What happens to a frame the read loop has handed on: its check, its decoding
    into a request, the response or the call of the business logic, and the
    frames written back.  Operations on one connection are in the monad of
    Connection.v, the rest on the state of the application. *)

From Stdlib Require Import ZArith Lia Strings.Byte Strings.String.
From stdpp Require Import base list numbers gmap.
From S2P Require Import Prelude.
From S2P Require Import Endian.
From S2P Require Import MsgBuffer.
From S2P Require Import Crc16.
From S2P Require Import ObjectPool.
From S2P Require Import RepeatTimer.
From S2P Require Import Connection.
From S2P Require Import Wire.
From S2P Require Import Proto.
From S2P Require Import Framing.
From S2P Require Import Server.
From S2P Require Import Client.

#[local] Open Scope Z_scope.

(** ** The check of a frame

    The two sums are uninitialised variables until the handlers of [fetch]
    assign them. *)
Definition parse_check (junk_pack junk_calc : Z) : MB bool :=
  av ← gets available;
  r ← fetch (u64 (av - 2)) 2;
  let crc_pack := match r with Some bs => ntohs (le_value bs) | None => junk_pack end in
  av ← gets available;
  r ← fetch 8 (u64 (av - 8 - 2));
  let crc_calc := match r with Some bs => crc16 bs | None => junk_calc end in
  if negb (crc_pack =? crc_calc) then mret false
  else
    av ← gets available;
    reset_u32 4 (u32 (av - 6));;
    consume 4;;
    mret true.

(** ** From a frame to a request *)

(** [handle_read_msg]; [c] is the connection of the frame, the owner of the
    request.  A frame that fails the check is not given back to the pool. *)
Definition handle_read_msg (junk_pack junk_calc : Z) (c : owner) (data : MsgBuffer) : MC (option Request) :=
  chk ← on_buffer (parse_check junk_pack junk_calc) data;
  if negb chk.1 then mret None
  else
    hd ← on_buffer (Head_decode Head_init) chk.2;
    let head := hd.1 in
    msg ←
      (if m_cmd head =? CmdType.BIND_CMD then
         r ← on_buffer (decode_body (RequestBind Head_init c BindBody_init)) hd.2;
         mret (Some (Request_set_head head r.1), r.2)
       else if m_cmd head =? CmdType.ACT_CMD then
         mret (Some (Request_set_head head (RequestAct Head_init c)), hd.2)
       else if m_cmd head =? CmdType.DELIVER_MSG_CMD then
         r ← on_buffer (decode_body (RequestDeliver Head_init c DeliverBody_init)) hd.2;
         mret (Some (Request_set_head head r.1), r.2)
       else mret (None, hd.2));
    recycle msg.2;;
    mret msg.1.

(** ** From a response to a frame *)

(** The buffer operations of [handle_write_msg]. *)
Definition write_frame (rsp : Response) : MB bool :=
  seek 4;;
  made ← makeup rsp;
  if negb made.1 then mret false
  else
    vomit 4;;
    reset_bytes 0 g_head_magic_num;;
    av ← gets available;
    let packlen := u32 (av - 4) in
    reset_u32 4 packlen;;
    p ← gets memory;
    bs ← read_at (p + 8) (u32 (packlen - 8));
    shl_u16 (crc16 bs);;
    set_indicator valid;;
    mret true.

Definition handle_write_msg (rsp : option Response) : MC unit :=
  data ← use;
  match rsp with
  | None =>
      d ← on_buffer (set_indicator invalid) data;
      Server_async_write d.2
  | Some r =>
      w ← on_buffer (write_frame r) data;
      if negb w.1 then mret tt else Server_async_write w.2
  end.

(** ** The answers to requests *)

(** The assignment [uid = uid] is the response's own, as written. *)
Definition handle_bind_msg (req : Request) (rsp : Response) : Response :=
  match rsp with
  | ResponseBind h c body =>
      let body := mkBindBody (b_uid body) in
      ResponseBind (mkHead (u32 (sizeof_Head + zlen (b_uid body))) CmdType.BIND_CMD_RSP) c body
  | _ => rsp
  end.

Definition handle_act_msg (rsp : Response) : Response :=
  Response_set_head (mkHead sizeof_Head CmdType.ACT_CMD_RSP) rsp.

Definition handle_deliver_msg (rsp : Response) : Response :=
  Response_set_head (mkHead (m_len (Response_head rsp)) CmdType.DELIVER_MSG_CMD_RSP) rsp.

(** ** The state of the application

    The server's connections and those of the audit client, by number, the
    client's tables, and the connection a worker thread caches. *)
Record App := mkApp {
  ap_conns : gmap nat Connection;
  ap_audit_conns : gmap nat Connection;
  m_audit_client : Client;
  ap_cached : option nat
}.

Abbreviation MA := (M App).

Definition set_ap_conns (m : gmap nat Connection) (a : App) : App :=
  mkApp m (ap_audit_conns a) (m_audit_client a) (ap_cached a).
Definition set_ap_audit (m : gmap nat Connection) (a : App) : App :=
  mkApp (ap_conns a) m (m_audit_client a) (ap_cached a).
Definition set_cached (c : option nat) (a : App) : App :=
  mkApp (ap_conns a) (ap_audit_conns a) (m_audit_client a) c.

Definition on_conn {A} (c : nat) (m : MC A) : MA A := λ a,
  match ap_conns a !! c with
  | None => Fault NullDeref
  | Some conn =>
      match m conn with
      | Ok (x, conn') => Ok (x, set_ap_conns (<[c := conn']> (ap_conns a)) a)
      | Fault f => Fault f
      end
  end.
Definition on_audit_conn {A} (c : nat) (m : MC A) : MA A := λ a,
  match ap_audit_conns a !! c with
  | None => Fault NullDeref
  | Some conn =>
      match m conn with
      | Ok (x, conn') => Ok (x, set_ap_audit (<[c := conn']> (ap_audit_conns a)) a)
      | Fault f => Fault f
      end
  end.

(** ** Requests *)

Definition handle_server_request (deliver_msg_proc : option (Request → MA unit)) (c : nat)
    (req : Request) : MA unit :=
  let cmd := m_cmd (Request_head req) in
  if cmd =? CmdType.BIND_CMD then
    on_conn c (handle_write_msg (Some (handle_bind_msg req (ResponseBind Head_init (Some c) BindBody_init))))
  else if cmd =? CmdType.ACT_CMD then
    on_conn c (handle_write_msg (Some (handle_act_msg (ResponseAct Head_init (Some c)))))
  else if cmd =? CmdType.DELIVER_MSG_CMD then
    match deliver_msg_proc with
    | None => mret tt
    | Some proc => proc req
    end
  else on_conn c (handle_write_msg None).

(** The read callback [set_context] passes to the server: what a worker thread
    runs for a frame. *)
Definition server_callback (junk_pack junk_calc : Z) (proc : option (Request → MA unit)) (c : nat)
    (data : MsgBuffer) : MA unit :=
  req ← on_conn c (handle_read_msg junk_pack junk_calc (Some c) data);
  match req with
  | None => on_conn c (handle_write_msg None)
  | Some r => handle_server_request proc c r
  end.

(** ** The audit client *)

Definition handle_audit_msg (req : Response) : MB (bool * Response) :=
  makeup (Response_set_head (mkHead (m_len (Response_head req)) CmdType.AUDIT_TOKEN_CMD) req).

Definition handle_to_audit_request (random : nat → Z) (order : gmap Z nat → list nat)
    (req : Response) : MA unit :=
  let req := Response_set_head (mkHead (m_len (Response_head req)) CmdType.AUDIT_TOKEN_CMD) req in
  a ← gets id;
  sc ←
    (match ap_cached a with
     | Some c =>
         if bool_decide (is_Some (ap_audit_conns a !! c)) then mret c
         else r ← lift (get_conn random order (m_audit_client a)); modify (set_cached (Some r.1));; mret r.1
     | None => r ← lift (get_conn random order (m_audit_client a)); modify (set_cached (Some r.1));; mret r.1
     end);
  on_audit_conn sc
    (data ← use;
     d ← on_buffer (handle_audit_msg req) data;
     Client_async_write d.2).

(** [handle_from_audit_response] decodes the header, and every command gives the
    null response. *)
Definition handle_from_audit_response (junk_pack junk_calc : Z) (data : MsgBuffer) : MC (option Response) :=
  chk ← on_buffer (parse_check junk_pack junk_calc) data;
  if negb chk.1 then mret None
  else
    hd ← on_buffer (Head_decode Head_init) chk.2;
    recycle hd.2;;
    mret None.

(** ** Business logic *)

(** [send_rsp_msg]: nothing is sent when the owner has gone. *)
Definition send_rsp_msg (rsp : Response) : MA bool :=
  a ← gets id;
  match Response_owner rsp with
  | Some c =>
      if bool_decide (is_Some (ap_conns a !! c)) then
        on_conn c (handle_write_msg (Some (handle_deliver_msg rsp)));;
        mret true
      else mret false
  | None => mret false
  end.

Definition send_adt_msg (random : nat → Z) (order : gmap Z nat → list nat) (req : Response) : MA bool :=
  handle_to_audit_request random order req;;
  mret true.

(** The logic [main] installs. *)
Definition main_response (c : owner) (d : DeliverBody) : Response :=
  ResponseDeliver Head_init c
    (mkDeliverRespBody 200 (d_msg_id d) (d_content_type d) (d_svc_type d) (d_token_id d)
       (d_session_id d) (list_byte_of_string "k02") (list_byte_of_string "it's ok")
       (list_byte_of_string "183983488384") (list_byte_of_string "10") (d_text_is_sync d)).

(** [policy_type] is a string, and is assigned the character 1. *)
Definition main_audit_body (d : DeliverBody) : AuditBody :=
  mkAuditBody (d_msg_id d) (d_from d) [] (d_svc_type d) (d_to d) [] (d_hash d) (d_content_type d)
    0 [] 0 (list_byte_of_string "A123233424234234") [x01] [] [] [] (d_counts d) (d_token_id d)
    [] [] [] [] 2 0 0.
Definition main_audit (d : DeliverBody) : Response :=
  RequestAudit Head_init None (main_audit_body d).

Definition main_logic (random : nat → Z) (order : gmap Z nat → list nat) (req : Request) : MA unit :=
  match req with
  | RequestDeliver _ c d =>
      _ ← send_rsp_msg (main_response c d);
      _ ← send_adt_msg random order (main_audit d);
      mret tt
  | _ => mret tt
  end.

(** ** Start

    [set_context] makes the server and the client from the configuration, with
    [server_callback] and [handle_from_audit_response] as their read handlers;
    the address of the audit server is fixed. *)
Definition audit_server : endpoint := (((172 * 256 + 21) * 256 + 22) * 256 + 155, 23071).

Definition set_context (ports : list Z)
    (server_conn_worker_num client_conn_worker_num per_conn_num : Z) : Server * Client :=
  (Server_make ports server_conn_worker_num,
   Client_make [audit_server] client_conn_worker_num per_conn_num).

(** [start]: the client, then the server; [waits] counts the signal waits. *)
Definition Application_start (answers : Z → bool) : M (Server * Client * nat) unit :=
  λ '(server, client, waits),
    match Client_start client with
    | Fault f => Fault f
    | Ok (_, client') =>
        match Server_start answers server with
        | Fault f => Fault f
        | Ok (_, server') => Ok (tt, (server', client', S waits))
        end
    end.

(** ** Signals *)

(** [handle_signals] waits for the next signal whatever came; the state is the
    number of waits posted. *)
Definition handle_signals (error : bool) (signal_number : Z) : M nat unit :=
  modify (λ waits, S waits).

(** ** Frames *)

(** The frame with payload [p]: magic number, length of all but the sum, the
    payload and its sum. *)
Definition seal (p : list byte) : list byte :=
  g_head_magic_num ++ be_bytes 4 (8 + zlen p) ++ p ++ be_bytes 2 (crc16 p).

Definition payload_ok (p : list byte) : Prop := 4 ≤ zlen p ∧ zlen p + 10 ≤ m_package_len_max.

Lemma zlen_seal p : zlen (seal p) = zlen p + 10.
Proof.
  unfold seal. rewrite !zlen_app, !zlen_be_bytes. change (zlen g_head_magic_num) with 4. lia.
Qed.

(** The length field of anything of that shape. *)
Lemma frame_len_split m l t : zlen m = 4 → zlen l = 4 → frame_len (m ++ l ++ t) = u32 (be_value l + 2).
Proof.
  intros Hm Hl. unfold frame_len.
  replace (zdrop 4 _) with (l ++ t) by (by rewrite <- Hm, zdrop_app).
  by replace (ztake 4 _) with l by (by rewrite <- Hl, ztake_app).
Qed.

Lemma frame_len_seal p t : payload_ok p → frame_len (seal p ++ t) = zlen p + 10.
Proof.
  intros [H1 H2]. unfold m_package_len_max in H2. unfold seal. rewrite <- !app_assoc.
  rewrite frame_len_split by (done || apply zlen_be_bytes).
  rewrite be_value_bytes by (unfold in_u; lia). rewrite u32_small by (unfold in_u; lia). lia.
Qed.

Lemma seal_is_frame p : payload_ok p → is_frame (seal p).
Proof.
  intros Hp. pose proof (frame_len_seal p [] Hp) as Hl. rewrite app_nil_r in Hl.
  destruct Hp as [H1 H2]. split; [|by rewrite Hl, zlen_seal].
  unfold classify. rewrite Hl, zlen_seal. unfold g_proto_head_len, m_package_len_max in *. zguard.
  by rewrite bool_decide_eq_false_2 by (intros H; by destruct H).
Qed.

(** ** The check *)

Lemma ntohs_value w : zlen w = 2 → ntohs (le_value w) = be_value w.
Proof.
  intros Hw. assert (E : length w = 2%nat) by (unfold zlen in Hw; lia).
  unfold ntohs. rewrite <- E. apply bswap_be_value.
Qed.

Lemma holds_bound mt pre cur b : holds mt pre cur b → zlen pre + zlen cur ≤ vec_max.
Proof. intros [sl [_ _ _ _ H]]. rewrite !zlen_app in H. pose proof (zlen_nonneg sl). lia. Qed.

Lemma parse_check_holds mt m l p w j1 j2 :
  zlen m = 4 → zlen l = 4 → zlen w = 2 → zlen p + 4 < 2 ^ 32 →
  ⦃ holds mt [] (m ++ l ++ p ++ w) ⦄ parse_check j1 j2
  ⦃ λ r b, r = (be_value w =? crc16 p) ∧
      holds mt (if r then m else []) (if r then be_bytes 4 (zlen p + 4) ++ p ++ w else m ++ l ++ p ++ w) b ⦄.
Proof.
  intros Hm Hl Hw Hp. pose proof (zlen_nonneg p). set (s := m ++ l ++ p ++ w).
  assert (Hs : zlen s = zlen p + 10) by (unfold s; rewrite !zlen_app; lia).
  unfold parse_check. eapply triple_bind_eq; [apply available_holds|].
  eapply triple_bind_eq.
  { pose proof (fetch_holds mt [] (m ++ l ++ p) w []) as Hx.
    rewrite app_nil_r, <- !app_assoc, Hw in Hx. fold s in Hx.
    replace (u64 (zlen s - 2)) with (zlen (m ++ l ++ p)); [exact Hx|].
    rewrite u64_small by (unfold in_u; lia). rewrite !zlen_app. lia. }
  cbv beta iota zeta. eapply triple_bind_eq; [apply available_holds|].
  eapply triple_bind_eq.
  { pose proof (fetch_holds mt [] (m ++ l) p w) as Hx. rewrite <- !app_assoc in Hx. fold s in Hx.
    replace (zlen (m ++ l)) with 8 in Hx by (rewrite zlen_app; lia).
    replace (u64 (zlen s - 8 - 2)) with (zlen p); [exact Hx|].
    rewrite u64_small; unfold in_u; lia. }
  cbv beta iota zeta. rewrite ntohs_value by done.
  destruct (be_value w =? crc16 p); cbn [negb].
  - eapply triple_bind_eq; [apply available_holds|].
    rewrite u32_small by (unfold in_u; lia). replace (zlen s - 6) with (zlen p + 4) by lia.
    eapply triple_bind.
    { pose proof (reset_u32_holds mt [] m l (p ++ w) (zlen p + 4) Hl) as Hx. rewrite Hm in Hx. exact Hx. }
    intros []. rewrite <- Hm. eapply triple_bind; [apply consume_holds|]. intros [].
    eapply triple_conseq; [apply triple_ret|done|]. by intros r b [-> Hb].
  - eapply triple_conseq; [apply triple_ret|done|]. by intros r b [-> Hb].
Qed.

(** ** From a frame to a request *)

(** What a request looks like on the wire. *)
Definition request_payload (r : Request) : list byte :=
  match r with
  | RequestAct _ _ => be_bytes 4 CmdType.ACT_CMD
  | RequestBind _ _ b => be_bytes 4 CmdType.BIND_CMD ++ image_BindBody b
  | RequestDeliver _ _ d => be_bytes 4 CmdType.DELIVER_MSG_CMD ++ image_DeliverBody d
  end.
Definition request_cmd (r : Request) : Z :=
  match r with
  | RequestAct _ _ => CmdType.ACT_CMD
  | RequestBind _ _ _ => CmdType.BIND_CMD
  | RequestDeliver _ _ _ => CmdType.DELIVER_MSG_CMD
  end.
Definition request_ok (r : Request) : Prop :=
  payload_ok (request_payload r) ∧
  match r with
  | RequestAct _ _ => True
  | RequestBind _ _ b => ok_BindBody b
  | RequestDeliver _ _ d => ok_DeliverBody d
  end.

(** The request as the receiver sees it, on connection [c]. *)
Definition received (c : owner) (r : Request) : Request :=
  let h := mkHead (zlen (request_payload r) + 4) (request_cmd r) in
  match r with
  | RequestAct _ _ => RequestAct h c
  | RequestBind _ _ b => RequestBind h c b
  | RequestDeliver _ _ d => RequestDeliver h c d
  end.

(** A connection that differs at most in its pool, which is fresh. *)
Definition only_pool (c c' : Connection) : Prop :=
  ∃ p, c' = set_pool p c ∧ pool_fresh p.

Lemma on_buffer_ok {A} (m : MB A) b a b' c : m b = Ok (a, b') → on_buffer m b c = Ok ((a, b'), c).
Proof. intros E. unfold on_buffer, lift. by rewrite E. Qed.

Lemma recycle_only_pool d c :
  pool_fresh (m_msg_pool c) → ∃ c', recycle d c = Ok (tt, c') ∧ only_pool c c'.
Proof.
  intros Hp. destruct (recycle_fresh d c Hp) as (c' & E & Hp' & H1 & H2 & H3 & H4 & H5 & H6 & H7 & H8).
  exists c'. split; [done|]. exists (m_msg_pool c'). split; [|done].
  destruct c, c'. unfold set_pool; simpl in *. congruence.
Qed.

(** The head of the frame and the body behind it. *)
Lemma Head_decode_holds mt pre h t cur :
  ok_Head h →
  ⦃ holds mt pre (image_Head h ++ t ++ cur) ⦄ Head_decode Head_init
  ⦃ λ r b, r = h ∧ holds mt (pre ++ image_Head h) (t ++ cur) b ⦄.
Proof. intros Hh. by apply (wire_get (get := Head_decode)). Qed.

(** The bytes behind the command. *)
Definition request_body (r : Request) : list byte :=
  match r with
  | RequestAct _ _ => []
  | RequestBind _ _ b => image_BindBody b
  | RequestDeliver _ _ d => image_DeliverBody d
  end.

Lemma request_payload_split r : request_payload r = be_bytes 4 (request_cmd r) ++ request_body r.
Proof. destruct r; simpl; by rewrite ?app_nil_r. Qed.

Lemma request_cmd_range r : in_u 32 (request_cmd r).
Proof. by destruct r. Qed.

Lemma decode_body_holds mt pre (h : Head) (o : owner) (r : Request) cur :
  request_ok r →
  ⦃ holds mt pre (request_body r ++ cur) ⦄
    decode_body (match r with
                 | RequestAct _ _ => RequestAct h o
                 | RequestBind _ _ _ => RequestBind h o BindBody_init
                 | RequestDeliver _ _ _ => RequestDeliver h o DeliverBody_init
                 end)
  ⦃ λ r' _, r' = match r with
                 | RequestAct _ _ => RequestAct h o
                 | RequestBind _ _ b => RequestBind h o b
                 | RequestDeliver _ _ d => RequestDeliver h o d
                 end ⦄.
Proof.
  intros [_ Hok]. destruct r as [h' c'|h' c' b|h' c' d]; simpl decode_body; simpl request_body.
  - intros s _. by exists (RequestAct h o), s.
  - eapply triple_conseq; [apply (reads_map _ (λ x, RequestBind h o x) (image_BindBody b) b)|done|].
    + by apply (wire_get (get := BindBody_decode)).
    + by intros a s [-> _].
  - eapply triple_conseq; [apply (reads_map _ (λ x, RequestDeliver h o x) (image_DeliverBody d) d)|done|].
    + by apply (wire_get (get := DeliverBody_decode)).
    + by intros a s [-> _].
Qed.

Lemma request_head_image r :
  be_bytes 4 (zlen (request_payload r) + 4) ++ request_payload r =
    image_Head (mkHead (zlen (request_payload r) + 4) (request_cmd r)) ++ request_body r.
Proof.
  unfold image_Head, image_u32. cbn [m_len m_cmd]. rewrite <- app_assoc.
  by rewrite <- request_payload_split.
Qed.

Lemma payload_small p : payload_ok p → 0 ≤ zlen p ∧ zlen p + 4 < 2 ^ 32 ∧ in_u 32 (zlen p + 4).
Proof. unfold payload_ok, m_package_len_max, in_u. lia. Qed.

(** A sealed request is decoded into the request. *)
Lemma handle_read_msg_ok mt j1 j2 o b c r :
  request_ok r → holds mt [] (seal (request_payload r)) b → pool_fresh (m_msg_pool c) →
  ∃ c', handle_read_msg j1 j2 o b c = Ok (Some (received o r), c') ∧ only_pool c c'.
Proof.
  intros Hr Hb Hp. pose proof (payload_small _ (proj1 Hr)) as (H0 & H1 & H2).
  set (p := request_payload r) in *. set (w := be_bytes 2 (crc16 p)).
  assert (Hw : be_value w = crc16 p).
  { apply be_value_bytes. apply crc16_range. }
  destruct (parse_check_holds mt g_head_magic_num (be_bytes 4 (8 + zlen p)) p w j1 j2
              eq_refl (zlen_be_bytes 4 _) (zlen_be_bytes 2 _) H1 b Hb) as (chk & b1 & E1 & -> & Hb1).
  rewrite Hw, Z.eqb_refl in E1, Hb1. cbn [app] in Hb1.
  set (h := mkHead (zlen p + 4) (request_cmd r)).
  assert (Eh : be_bytes 4 (zlen p + 4) ++ p ++ w = image_Head h ++ request_body r ++ w)
    by (rewrite !app_assoc; f_equal; apply request_head_image).
  rewrite Eh in Hb1.
  destruct (Head_decode_holds mt g_head_magic_num h (request_body r) w
              (conj H2 (request_cmd_range r)) b1 Hb1) as (hd & b2 & E2 & -> & Hb2).
  unfold handle_read_msg. rewrite (bind_ok _ _ _ _ _ (on_buffer_ok _ _ _ _ c E1)). cbn [fst snd negb].
  rewrite (bind_ok _ _ _ _ _ (on_buffer_ok _ _ _ _ c E2)). cbn [fst snd].
  change (m_cmd h) with (request_cmd r).
  destruct (decode_body_holds mt _ Head_init o r w Hr b2 Hb2) as (r' & b3 & E3 & ->).
  destruct r as [h' c'|h' c' bd|h' c' d]; cbn [request_cmd];
    repeat (rewrite Z.eqb_refl || (rewrite (proj2 (Z.eqb_neq _ _)) by (intro; discriminate))).
  - destruct (recycle_only_pool b2 c Hp) as (c1 & E4 & Ho).
    exists c1. split; [|done]. rewrite (bind_ok (mret _) _ c (Some (RequestAct h o), b2) c eq_refl).
    by rewrite (bind_ok _ _ _ _ _ E4).
  - destruct (recycle_only_pool b3 c Hp) as (c1 & E4 & Ho).
    exists c1. split; [|done]. erewrite bind_ok; [|by rewrite (bind_ok _ _ _ _ _ (on_buffer_ok _ _ _ _ c E3))].
    by rewrite (bind_ok _ _ _ _ _ E4).
  - destruct (recycle_only_pool b3 c Hp) as (c1 & E4 & Ho).
    exists c1. split; [|done]. erewrite bind_ok; [|by rewrite (bind_ok _ _ _ _ _ (on_buffer_ok _ _ _ _ c E3))].
    by rewrite (bind_ok _ _ _ _ _ E4).
Qed.

(** A frame whose sum is wrong is dropped, and the connection left alone. *)
Lemma handle_read_msg_bad mt j1 j2 o b c m l p w :
  zlen m = 4 → zlen l = 4 → zlen w = 2 → zlen p + 4 < 2 ^ 32 → be_value w ≠ crc16 p →
  holds mt [] (m ++ l ++ p ++ w) b →
  handle_read_msg j1 j2 o b c = Ok (None, c).
Proof.
  intros Hm Hl Hw Hp Hne Hb.
  destruct (parse_check_holds mt m l p w j1 j2 Hm Hl Hw Hp b Hb) as (chk & b1 & E1 & -> & _).
  rewrite (proj2 (Z.eqb_neq _ _) Hne) in E1.
  unfold handle_read_msg. by rewrite (bind_ok _ _ _ _ _ (on_buffer_ok _ _ _ _ c E1)).
Qed.

(** A null response closes the connection. *)
Lemma handle_write_msg_null c :
  pool_fresh (m_msg_pool c) →
  ∃ c', handle_write_msg None c = Ok (tt, c') ∧ is_open (m_socket c') = false ∧
    s_writes (m_socket c') = s_writes (m_socket c).
Proof.
  intros Hp. destruct (pool_get_fresh _ Hp) as (p' & Eg & Hp').
  set (d := mkMsgBuffer (zreplicate 1024 x00) 0 0 0 invalid). set (c1 := set_pool p' c).
  assert (E : handle_write_msg None c = (recycle d;; close) c1).
  { unfold handle_write_msg, use, with_pool, mbind, M_bind. rewrite Eg. fold c1.
    unfold on_buffer, lift, set_indicator, modify. cbn [snd].
    unfold Server_async_write, async_write, gets, mbind, M_bind, id. done. }
  destruct (recycle_fresh d c1 Hp') as (c2 & E2 & _ & _ & _ & Hs & _).
  rewrite E, (bind_ok _ _ _ _ _ E2). destruct (is_open (m_socket c2)) eqn:Ho.
  - destruct (close_open c2 Ho) as (c3 & E3 & Hc & _). exists c3. split; [done|]. split; [done|].
    revert E3. unfold close, gets, mbind, M_bind, id. rewrite Ho. simpl.
    destruct (m_holder c2); intros [= <-]; simpl; by rewrite Hs.
  - rewrite (close_closed c2 Ho). exists c2. split; [done|]. split; [done|]. by rewrite Hs.
Qed.

(** ** From a response to bytes *)

(** What [write_frame] leaves unread: the length field does not count the magic
    number, and the sum misses the last four bytes of the body. *)
Definition response_bytes (r : Response) : list byte :=
  let cmd := be_bytes 4 (m_cmd (Response_head r)) in
  let body := image_body r in
  g_head_magic_num ++ be_bytes 4 (8 + zlen body) ++ cmd ++ body ++
    be_bytes 2 (crc16 (ztake (zlen body) (cmd ++ body))).

Definition response_ok (r : Response) : Prop := zlen (image_body r) < 2 ^ 30.

Lemma zlen_response_bytes r : zlen (response_bytes r) = zlen (image_body r) + 14.
Proof.
  unfold response_bytes. rewrite !zlen_app, !zlen_be_bytes. change (zlen g_head_magic_num) with 4. lia.
Qed.

Lemma frame_len_response r t :
  response_ok r → frame_len (response_bytes r ++ t) = zlen (image_body r) + 10.
Proof.
  unfold response_ok. intros H. pose proof (zlen_nonneg (image_body r)).
  unfold response_bytes. cbv zeta. rewrite <- !app_assoc.
  rewrite frame_len_split by (done || apply zlen_be_bytes).
  rewrite be_value_bytes by (unfold in_u; lia). rewrite u32_small by (unfold in_u; lia). lia.
Qed.

Lemma made_head_cmd r : m_cmd (made_head r) = m_cmd (Response_head r).
Proof. by destruct r. Qed.

Lemma write_frame_holds pl r slack :
  response_ok r →
  zlen (zreplicate 4 x00 ++ zreplicate 8 x00 ++ slack) ≤ vec_max →
  ⦃ rep (pl, none) [] [] (zreplicate 4 x00 ++ zreplicate 8 x00 ++ slack) ⦄ write_frame r
  ⦃ λ ok b, ok = true ∧ holds (pl, valid) [] (response_bytes r) b ⦄.
Proof.
  unfold response_ok. intros Hr Hmax. set (gap := zreplicate 4 x00). set (gap8 := zreplicate 8 x00).
  set (body := image_body r) in *. set (cmd := be_bytes 4 (m_cmd (Response_head r))).
  pose proof (zlen_nonneg body) as H0.
  set (l0 := be_bytes 4 (m_len (made_head r))).
  assert (Himg : image_Response r = l0 ++ cmd ++ body).
  { unfold image_Response, image_Head, image_u32. rewrite made_head_cmd. by rewrite <- app_assoc. }
  assert (Hl0 : zlen l0 = 4) by apply zlen_be_bytes.
  assert (Hcmd : zlen cmd = 4) by apply zlen_be_bytes.
  assert (Hlen : zlen (l0 ++ cmd ++ body) = 8 + zlen body) by (rewrite !zlen_app; lia).
  unfold write_frame. eapply triple_bind; [exact (seek_rep (pl, none) [] gap (gap8 ++ slack))|].
  intros []. cbn [app]. eapply triple_bind_eq.
  { apply (makeup_holds (pl, none) gap gap8 slack r); [done|unfold in_u; fold body; unfold sizeof_Head; lia|].
    unfold room, vec_max. fold body. unfold sizeof_Head. change (zlen gap) with 4.
    change (zlen (@nil byte)) with 0. lia. }
  cbn [fst negb]. rewrite Himg.
  eapply triple_bind; [exact (vomit_holds (pl, none) [] gap (l0 ++ cmd ++ body))|]. intros [].
  eapply triple_bind;
    [exact (reset_bytes_holds (pl, none) [] [] gap g_head_magic_num (l0 ++ cmd ++ body) eq_refl)|]. intros [].
  eapply triple_bind_eq; [apply available_holds|]. cbv zeta.
  assert (Ep : u32 (zlen ([] ++ g_head_magic_num ++ l0 ++ cmd ++ body) - 4) = 8 + zlen body).
  { cbn [app]. rewrite zlen_app, Hlen. change (zlen g_head_magic_num) with 4.
    rewrite u32_small; unfold in_u; lia. }
  rewrite Ep. eapply triple_bind;
    [exact (reset_u32_holds (pl, none) [] g_head_magic_num l0 (cmd ++ body) (8 + zlen body) Hl0)|]. intros [].
  eapply triple_bind_eq; [apply memory_holds|].
  set (l1 := be_bytes 4 (8 + zlen body)).
  eapply triple_bind_eq with (a := ztake (zlen body) (cmd ++ body)).
  { pose proof (read_mid_holds (pl, none) [] (g_head_magic_num ++ l1) (ztake (zlen body) (cmd ++ body))
                  (zdrop (zlen body) (cmd ++ body))) as Hx.
    rewrite ztake_zdrop, <- app_assoc in Hx.
    replace (u32 (8 + zlen body - 8)) with (zlen (ztake (zlen body) (cmd ++ body)));
      [exact Hx|]. rewrite zlen_take, zlen_app, Hcmd, u32_small by (unfold in_u; lia). lia. }
  eapply triple_bind; [apply (shl_u16_holds (pl, none) [])|].
  { assert (Hl1 : zlen l1 = 4) by apply zlen_be_bytes.
    unfold room, vec_max. change (zlen (@nil byte)) with 0.
    rewrite !zlen_app, Hl1, Hcmd. change (zlen g_head_magic_num) with 4. lia. }
  intros []. eapply triple_bind; [apply (set_indicator_holds (pl, none) valid)|]. intros [].
  eapply triple_conseq; [apply triple_ret|done|]. intros ok b [-> Hb]. split; [done|].
  unfold response_bytes. cbv zeta. fold body cmd l1. by rewrite <- !app_assoc in Hb.
Qed.

(** Posting a frame on an idle open connection. *)
Lemma async_write_idle d c :
  m_indicator d ≠ invalid → is_open (m_socket c) = true → m_send_buffer_list c = [] →
  async_write d c = start_write d c.
Proof.
  intros Hd Ho Hq. unfold async_write, gets, mbind, M_bind, id. rewrite Ho, Hq.
  by rewrite bool_decide_eq_false_2 by done.
Qed.

Lemma make_rep12 :
  rep (0, none) [] [] (zreplicate 4 x00 ++ zreplicate 8 x00 ++ zreplicate 1012 x00)
    (MsgBuffer_make m_default_buffer_size).
Proof.
  change (zreplicate 4 x00 ++ zreplicate 8 x00 ++ zreplicate 1012 x00)
    with (zreplicate m_default_buffer_size x00).
  apply make_rep. unfold vec_max, m_default_buffer_size. lia.
Qed.

(** What [handle_write_msg] posts on an idle connection, and nothing else. *)
Definition posts (c c' : Connection) (bs : list byte) : Prop :=
  ∃ d, contents d = bs ∧ s_writes (m_socket c') = s_writes (m_socket c) ++ [mkWrite d Owned] ∧
    is_open (m_socket c') = true ∧ pool_fresh (m_msg_pool c') ∧
    m_send_buffer_list c' = m_send_buffer_list c ∧ c_events c' = c_events c.

Lemma start_write_posts c p d mt bs :
  is_open (m_socket c) = true → pool_fresh p → holds mt [] bs d →
  ∃ c', start_write d (set_pool p c) = Ok (tt, c') ∧ posts c c' bs.
Proof.
  intros Ho Hp Hd. eexists. split; [reflexivity|]. exists d.
  by rewrite (holds_contents _ _ _ _ Hd).
Qed.

Lemma handle_write_msg_posts r c :
  response_ok r → pool_fresh (m_msg_pool c) → is_open (m_socket c) = true →
  m_send_buffer_list c = [] →
  ∃ c', handle_write_msg (Some r) c = Ok (tt, c') ∧ posts c c' (response_bytes r).
Proof.
  intros Hr Hp Ho Hq. destruct (pool_get_fresh _ Hp) as (p' & Eg & Hp').
  destruct (write_frame_holds 0 r (zreplicate 1012 x00) Hr) with (s := MsgBuffer_make m_default_buffer_size)
    as (ok & d & Ed & -> & Hd); [by vm_compute|apply make_rep12|].
  destruct (start_write_posts c p' d _ _ Ho Hp' Hd) as (c' & E & Hc'). exists c'. split; [|done].
  unfold handle_write_msg, use, with_pool, mbind, M_bind. rewrite Eg.
  rewrite (on_buffer_ok _ _ _ _ _ Ed). cbn [fst snd negb]. rewrite <- E.
  apply async_write_idle; [|done|done].
  destruct Hd as [sl Hd]. pose proof (rep_meta _ _ _ _ _ Hd) as Hm. by injection Hm as _ ->.
Qed.

(** ** End to end *)

Definition request_frame (r : Request) : list byte := seal (request_payload r).

(** Handling [b] on any connection yields request [r]. *)
Definition yields (b : MsgBuffer) (r : Request) : Prop :=
  ∀ j1 j2 o c, pool_fresh (m_msg_pool c) →
    ∃ c', handle_read_msg j1 j2 o b c = Ok (Some (received o r), c') ∧ only_pool c c'.

Lemma frames_yield (bs : list MsgBuffer) (rs : list Request) :
  Forall request_ok rs → Forall2 frame_buffer bs (map request_frame rs) → Forall2 yields bs rs.
Proof.
  intros Hok. revert bs. induction Hok as [|r rs Hr Hok IH]; intros bs H; simpl in H;
    inversion H as [|b ? bs' ? [_ Hb] Hbs]; subst; constructor; [|auto].
  intros j1 j2 o c Hp. by eapply handle_read_msg_ok.
Qed.

Lemma requests_are_frames rs : Forall request_ok rs → Forall is_frame (map request_frame rs).
Proof.
  intros H. apply Forall_map. apply (Forall_impl _ _ _ H). intros r [Hr _]. by apply seal_is_frame.
Qed.

(** A sealed payload with up to two adjacent bytes changed, the frame's sum
    being that of the original. *)
Definition corrupt (pre x y post : list byte) : list byte :=
  g_head_magic_num ++ be_bytes 4 (8 + zlen (pre ++ x ++ post)) ++ (pre ++ y ++ post) ++
    be_bytes 2 (crc16 (pre ++ x ++ post)).

(** ** Properties *)

(** End to end, a server receives exactly the requests sent to it.  Whatever
    well-formed requests the peer writes, however the stream is cut into reads
    and whatever retryable errors come in between, the buffers handed to the
    workers are one per request, in order, and handling each yields the request
    with its command, its length and all its fields, and gives the buffer back
    to the pool. *)
Theorem server_receives_requests (now : Z) (n : nat) (th : option TimeHandler)
    (ji : ConnInfo) (t1 t2 : Z) (c0 c : Connection) (rs : list Request) (rest : list byte) :
  Forall request_ok rs → classify rest ≠ WHOLE →
  Server_async_read g_proto_head_len (Connection_make n th ji t1 t2) = Ok (tt, c0) →
  runs (Server_handle_read now) c0 (concat (map request_frame rs) ++ rest) c →
  Forall2 yields (tasks c) rs.
Proof.
  intros Hok Hrest Hs Hr.
  destruct (read_loop_frames _ _ _ _ _ _ _ _ _ (Server_handler now) Hs Hr) as [Ht _].
  rewrite split_frames_concat in Ht by (done || by apply requests_are_frames).
  by apply frames_yield.
Qed.

Definition act_request : Request := RequestAct Head_init None.

Lemma server_receives_requests_witness :
  Forall2 yields
    (tasks (conn_result (on_read (Server_handle_read 5) ec_ok (zdrop 12 (request_frame act_request))
      (conn_result (on_read (Server_handle_read 5) ec_ok (ztake 12 (request_frame act_request))
        sample_start))))) [act_request].
Proof.
  eapply (server_receives_requests 5 1 None (mkConnInfo [] 0 [] 0 7) 0 0 sample_start _ [act_request] []);
    [by repeat constructor|by vm_compute|by vm_compute|].
  change (concat (map request_frame [act_request]) ++ [])
    with (([] ++ ztake 12 (request_frame act_request)) ++ zdrop 12 (request_frame act_request)).
  set (c1 := conn_result (on_read (Server_handle_read 5) ec_ok (ztake 12 (request_frame act_request)) sample_start)).
  apply (runs_bytes _ _ _ c1 (mkRead 12 2) []); [|by vm_compute|by vm_compute|by vm_compute].
  apply (runs_bytes _ _ _ sample_start (mkRead 0 12) []);
    [apply runs_start|by vm_compute|by vm_compute|by vm_compute].
Defined.

(** C7: the check catches every error confined to two adjacent bytes of the
    payload: such a frame produces no request, the business logic is not
    called, nothing is written, and the connection is closed. *)
Theorem corrupt_frame_closes (pre x y post : list byte) (b : MsgBuffer) (mt : Z * BufferStat)
    (j1 j2 : Z) (proc : option (Request → MA unit)) (i : nat) (a : App) (c : Connection) :
  length x = length y → (length x ≤ 2)%nat → x ≠ y → payload_ok (pre ++ x ++ post) →
  holds mt [] (corrupt pre x y post) b →
  ap_conns a !! i = Some c → pool_fresh (m_msg_pool c) →
  ∃ c', server_callback j1 j2 proc i b a = Ok (tt, set_ap_conns (<[i := c']> (ap_conns a)) a) ∧
    is_open (m_socket c') = false ∧ s_writes (m_socket c') = s_writes (m_socket c).
Proof.
  intros Hl Hx Hne Hp Hb Hi Hpool.
  assert (Hlen : zlen (pre ++ y ++ post) = zlen (pre ++ x ++ post)).
  { unfold zlen. rewrite !length_app. lia. }
  pose proof (payload_small _ Hp) as (_ & Hsmall & _).
  assert (E1 : handle_read_msg j1 j2 (Some i) b c = Ok (None, c)).
  { eapply (handle_read_msg_bad mt j1 j2 (Some i) b c); [..|exact Hb];
      [done|apply zlen_be_bytes|apply zlen_be_bytes|by rewrite Hlen|].
    rewrite be_value_bytes by apply crc16_range. by apply crc16_window. }
  destruct (handle_write_msg_null c Hpool) as (c' & E2 & Hc & Hw). exists c'. split; [|done].
  unfold server_callback, mbind, M_bind, on_conn. rewrite Hi, E1.
  cbn [ap_conns set_ap_conns]. rewrite lookup_insert_eq, E2.
  unfold set_ap_conns; simpl. by rewrite insert_insert_eq.
Qed.

Lemma corrupt_frame_closes_witness :
  let c := Connection_make 1 None (mkConnInfo [] 0 [] 0 7) 0 0 in
  let a := mkApp {[ 0%nat := c ]} ∅ (Client_make [] 1 1) None in
  ∃ c', server_callback 0 0 None 0
      (MsgBuffer_chars 14 valid (corrupt [x00; x00; x00] [x02] [x03] [])) a =
      Ok (tt, set_ap_conns (<[0%nat := c']> (ap_conns a)) a) ∧
    is_open (m_socket c') = false ∧ s_writes (m_socket c') = s_writes (m_socket c).
Proof.
  apply (corrupt_frame_closes [x00; x00; x00] [x02] [x03] [] _ (14, valid) 0 0 None 0);
    [done|simpl; lia|done|by vm_compute| |by vm_compute|by repeat constructor].
  exists []. by constructor.
Defined.

(** A response is posted as one frame, and never a valid one: its length
    field leaves out the magic number, so every frame is four bytes longer than
    it says, and one with fewer than four bytes of body is incorrect for the
    frame check of the same program. *)
Theorem response_not_a_frame (r : Response) (c : Connection) :
  response_ok r → pool_fresh (m_msg_pool c) → is_open (m_socket c) = true →
  m_send_buffer_list c = [] →
  ∃ c', handle_write_msg (Some r) c = Ok (tt, c') ∧ posts c c' (response_bytes r) ∧
    zlen (response_bytes r) = frame_len (response_bytes r) + 4 ∧
    ¬ is_frame (response_bytes r) ∧
    (zlen (image_body r) < 4 → classify (response_bytes r) = INCORRECT).
Proof.
  intros Hr Hp Ho Hq. destruct (handle_write_msg_posts r c Hr Hp Ho Hq) as (c' & E & Hc').
  exists c'. split; [done|]. split; [done|].
  pose proof (frame_len_response r [] Hr) as Hl. rewrite app_nil_r in Hl.
  pose proof (zlen_response_bytes r) as Hz. pose proof (zlen_nonneg (image_body r)).
  split; [lia|]. split; [intros [_ Hf]; lia|]. intros Hshort.
  unfold classify. rewrite Hl, Hz. unfold g_proto_head_len, m_package_len_max. zguard.
  rewrite bool_decide_eq_false_2 by (intros Hm; by destruct Hm). cbn [orb].
  by zguard.
Qed.

Lemma response_not_a_frame_witness :
  let c := Connection_make 1 None (mkConnInfo [] 0 [] 0 7) 0 0 in
  let r := handle_act_msg (ResponseAct Head_init None) in
  ∃ c', handle_write_msg (Some r) c = Ok (tt, c') ∧ posts c c' (response_bytes r) ∧
    zlen (response_bytes r) = frame_len (response_bytes r) + 4 ∧
    ¬ is_frame (response_bytes r) ∧
    (zlen (image_body r) < 4 → classify (response_bytes r) = INCORRECT).
Proof.
  apply (response_not_a_frame (handle_act_msg (ResponseAct Head_init None))
           (Connection_make 1 None (mkConnInfo [] 0 [] 0 7) 0 0)); [done|by repeat constructor|done|done].
Defined.

(** Every answer to a bind or keep-alive request is refused by the peer.
    The response to a bind request carries an empty uid whatever uid was sent;
    in both cases one frame is posted, and the frame check of the same program
    calls it incorrect. *)
Theorem answers_refused (r : Request) (b : MsgBuffer) (mt : Z * BufferStat) (j1 j2 : Z)
    (proc : option (Request → MA unit)) (i : nat) (a : App) (c : Connection) :
  request_ok r → holds mt [] (request_frame r) b →
  ap_conns a !! i = Some c → pool_fresh (m_msg_pool c) → is_open (m_socket c) = true →
  m_send_buffer_list c = [] → request_cmd r ≠ CmdType.DELIVER_MSG_CMD →
  ∃ c' bs, server_callback j1 j2 proc i b a = Ok (tt, set_ap_conns (<[i := c']> (ap_conns a)) a) ∧
    posts c c' bs ∧ classify bs = INCORRECT ∧
    bs = match r with
         | RequestBind _ _ _ =>
             response_bytes (ResponseBind (mkHead 8 CmdType.BIND_CMD_RSP) (Some i) (mkBindBody []))
         | _ => response_bytes (ResponseAct (mkHead 8 CmdType.ACT_CMD_RSP) (Some i))
         end.
Proof.
  intros Hr Hb Hi Hp Ho Hq Hne.
  destruct (handle_read_msg_ok mt j1 j2 (Some i) b c r Hr Hb Hp) as (c1 & E1 & p & -> & Hp1).
  assert (Hcb : ∀ rsp, response_ok rsp →
    handle_server_request proc i (received (Some i) r) =
      on_conn i (handle_write_msg (Some rsp)) →
    ∃ c', server_callback j1 j2 proc i b a = Ok (tt, set_ap_conns (<[i := c']> (ap_conns a)) a) ∧
      posts (set_pool p c) c' (response_bytes rsp)).
  { intros rsp Hrsp E. destruct (handle_write_msg_posts rsp (set_pool p c) Hrsp Hp1 Ho Hq)
      as (c' & E2 & Hc'). exists c'. split; [|done].
    unfold server_callback, mbind, M_bind. unfold on_conn at 1. rewrite Hi, E1, E.
    unfold on_conn. cbn [ap_conns set_ap_conns]. rewrite lookup_insert_eq, E2.
    unfold set_ap_conns; simpl. by rewrite insert_insert_eq. }
  destruct r as [h o|h o bd|h o d]; [| |by destruct Hne].
  - destruct (Hcb (ResponseAct (mkHead 8 CmdType.ACT_CMD_RSP) (Some i))) as (c' & E & Hc'); [done|done|].
    exists c'. eexists. split; [done|]. split; [exact Hc'|]. by split; [vm_compute|].
  - destruct (Hcb (ResponseBind (mkHead 8 CmdType.BIND_CMD_RSP) (Some i) (mkBindBody [])))
      as (c' & E & Hc'); [done|done|].
    exists c'. eexists. split; [done|]. split; [exact Hc'|]. by split; [vm_compute|].
Qed.

Lemma answers_refused_witness :
  let c := Connection_make 1 None (mkConnInfo [] 0 [] 0 7) 0 0 in
  let a := mkApp {[ 0%nat := c ]} ∅ (Client_make [] 1 1) None in
  let r := RequestBind Head_init None (mkBindBody [x75; x31]) in
  ∃ c' bs, server_callback 0 0 None 0 (MsgBuffer_chars 0 valid (request_frame r)) a =
      Ok (tt, set_ap_conns (<[0%nat := c']> (ap_conns a)) a) ∧
    posts c c' bs ∧ classify bs = INCORRECT ∧
    bs = match r with
         | RequestBind _ _ _ =>
             response_bytes (ResponseBind (mkHead 8 CmdType.BIND_CMD_RSP) (Some 0%nat) (mkBindBody []))
         | _ => response_bytes (ResponseAct (mkHead 8 CmdType.ACT_CMD_RSP) (Some 0%nat))
         end.
Proof.
  eapply (answers_refused (RequestBind Head_init None (mkBindBody [x75; x31])) _ (0, valid) 0 0 None 0);
    [|exists []; by constructor|by vm_compute|by repeat constructor|done|done|done].
  split; [by vm_compute|]. apply (bool_decide_unpack _). by vm_compute.
Defined.

(** A bind request whose uid is not terminated, in a frame that fills the
    default buffer. *)
Definition overlong_frame : list byte :=
  seal (be_bytes 4 CmdType.BIND_CMD ++ zreplicate 1010 x61).

Definition overlong_conn : Connection :=
  let on chunk c := conn_result (on_read (Server_handle_read 5) ec_ok chunk c) in
  on (zdrop 12 overlong_frame) (on (ztake 12 overlong_frame) sample_start).

(** The sum does not make the decoders safe: a peer can send a frame with the
    right length and the right sum, which the read loop hands on as valid, and
    whose decoding reads past the end of the vector, because [operator >>] on
    strings looks for a terminator that is not there. *)
Theorem unterminated_string_overruns :
  is_frame overlong_frame ∧
  ∃ b, tasks overlong_conn = [b] ∧ frame_buffer b overlong_frame ∧
    ∀ j1 j2 o c, handle_read_msg j1 j2 o b c = Fault OutOfBounds.
Proof.
  split; [by vm_compute|]. eexists. split; [by vm_compute|]. split.
  - split; [by vm_compute|]. exists []. constructor; by vm_compute.
  - intros j1 j2 o c. unfold handle_read_msg, mbind, M_bind, on_buffer, lift. by vm_compute.
Qed.

(** What an audit request puts on the cached connection. *)
Definition audit_bytes (o : owner) (body : AuditBody) : list byte :=
  image_Response (RequestAudit (mkHead 0 CmdType.AUDIT_TOKEN_CMD) o body).

Lemma audit_posts random order h o body i a c :
  zlen (image_AuditBody body) < 2 ^ 30 → ap_cached a = Some i → ap_audit_conns a !! i = Some c →
  pool_fresh (m_msg_pool c) → is_open (m_socket c) = true → m_send_buffer_list c = [] →
  ∃ c', handle_to_audit_request random order (RequestAudit h o body) a =
      Ok (tt, set_ap_audit (<[i := c']> (ap_audit_conns a)) a) ∧ posts c c' (audit_bytes o body).
Proof.
  intros Hr Hca Hi Hp Ho Hq.
  set (r' := RequestAudit (mkHead (m_len h) CmdType.AUDIT_TOKEN_CMD) o body).
  set (img := image_AuditBody body) in *. pose proof (zlen_nonneg img) as H0.
  destruct (pool_get_fresh _ Hp) as (p' & Eg & Hp').
  destruct (makeup_holds (0, none) [] (zreplicate 8 x00) (zreplicate 1016 x00) r')
    with (s := MsgBuffer_make m_default_buffer_size) as (res & d & Ed & -> & Hd);
    [done|unfold in_u, sizeof_Head; change (image_body r') with img; lia
    |unfold room, vec_max, sizeof_Head; change (image_body r') with img; change (zlen (@nil byte)) with 0; lia
    |change (zreplicate 8 x00 ++ zreplicate 1016 x00) with (zreplicate m_default_buffer_size x00);
     apply make_rep; unfold vec_max, m_default_buffer_size; lia|].
  destruct (start_write_posts c p' d _ _ Ho Hp' Hd) as (c' & E & Hc'). exists c'. split; [|done].
  unfold handle_to_audit_request, gets, mbind, M_bind, id. rewrite Hca.
  rewrite bool_decide_eq_true_2 by eauto. unfold mret, M_ret, on_audit_conn. rewrite Hi.
  unfold use, with_pool. rewrite Eg. unfold on_buffer, lift, handle_audit_msg.
  change (makeup _ _) with (makeup r' (MsgBuffer_make m_default_buffer_size)). rewrite Ed. cbn [snd].
  unfold Client_async_write. rewrite async_write_idle; [by rewrite E| |done|done].
  destruct Hd as [sl Hd]. pose proof (rep_meta _ _ _ _ _ Hd) as Hm. by injection Hm as _ ->.
Qed.

Lemma audit_bytes_incorrect o body :
  zlen (image_AuditBody body) < 2 ^ 30 →
  12 ≤ zlen (audit_bytes o body) ∧ classify (audit_bytes o body) = INCORRECT.
Proof.
  intros Hr. unfold audit_bytes, image_Response, image_Head, image_u32.
  cbn [made_head m_len m_cmd Response_head]. change (image_body (RequestAudit _ o body)) with (image_AuditBody body).
  set (img := image_AuditBody body) in *. pose proof (zlen_nonneg img) as H0.
  assert (Hlen : 24 ≤ zlen img).
  { unfold img, image_AuditBody, image_string, image_u8, image_u32.
    rewrite !zlen_app, !zlen_be_bytes. change (zlen [x00]) with 1.
    repeat match goal with |- context [zlen ?x] =>
      lazymatch goal with H : 0 ≤ zlen x |- _ => fail | _ => pose proof (zlen_nonneg x) end end. lia. }
  unfold sizeof_Head. set (l := be_bytes 4 (zlen img + 8)). set (cmd := be_bytes 4 CmdType.AUDIT_TOKEN_CMD).
  assert (Hl : zlen l = 4) by apply zlen_be_bytes.
  assert (Hcmd : zlen cmd = 4) by apply zlen_be_bytes.
  assert (Hz : zlen ((l ++ cmd) ++ img) = 8 + zlen img) by (rewrite !zlen_app; lia).
  split; [lia|]. unfold classify. rewrite Hz. unfold g_proto_head_len. zguard.
  rewrite bool_decide_eq_true_2; [done|].
  rewrite <- app_assoc. rewrite <- Hl at 1. rewrite ztake_app. intros Em.
  apply (f_equal be_value) in Em. unfold l in Em.
  rewrite be_value_bytes in Em by (unfold in_u; lia).
  change (be_value g_head_magic_num) with 4156203465 in Em. lia.
Qed.

(** An audit request goes out unframed: [handle_audit_msg] puts no magic
    number and no sum around it, so what is posted starts with its length and is
    incorrect for the frame check of the same program. *)
Theorem audit_request_not_a_frame (random : nat → Z) (order : gmap Z nat → list nat)
    (h : Head) (o : owner) (body : AuditBody) (i : nat) (a : App) (c : Connection) :
  zlen (image_AuditBody body) < 2 ^ 30 → ap_cached a = Some i → ap_audit_conns a !! i = Some c →
  pool_fresh (m_msg_pool c) → is_open (m_socket c) = true → m_send_buffer_list c = [] →
  ∃ c', handle_to_audit_request random order (RequestAudit h o body) a =
      Ok (tt, set_ap_audit (<[i := c']> (ap_audit_conns a)) a) ∧
    posts c c' (audit_bytes o body) ∧
    12 ≤ zlen (audit_bytes o body) ∧ classify (audit_bytes o body) = INCORRECT.
Proof.
  intros Hr Hca Hi Hp Ho Hq.
  destruct (audit_posts random order h o body i a c Hr Hca Hi Hp Ho Hq) as (c' & E & Hc').
  exists c'. split; [done|]. split; [done|]. by apply audit_bytes_incorrect.
Qed.

Lemma audit_request_not_a_frame_witness :
  let c := Connection_make 1 None (mkConnInfo [] 0 [] 0 7) 0 0 in
  let a := mkApp ∅ {[ 0%nat := c ]} (Client_make [] 1 1) (Some 0%nat) in
  ∃ c', handle_to_audit_request (λ _, 0) (λ _, []) (RequestAudit Head_init None AuditBody_init) a =
      Ok (tt, set_ap_audit (<[0%nat := c']> (ap_audit_conns a)) a) ∧
    posts c c' (audit_bytes None AuditBody_init) ∧
    12 ≤ zlen (audit_bytes None AuditBody_init) ∧ classify (audit_bytes None AuditBody_init) = INCORRECT.
Proof.
  apply (audit_request_not_a_frame (λ _, 0) (λ _, []) Head_init None AuditBody_init 0);
    [by vm_compute|done|by vm_compute|by repeat constructor|done|done].
Defined.

(** C6: a well-formed deliver request runs the logic of [main] to its end: the
    connection it came from gets one response, with the fields of the request,
    the connection of the audit server one audit request, and nothing else
    happens to either. *)
Theorem deliver_request_answered (random : nat → Z) (order : gmap Z nat → list nat)
    (h : Head) (o : owner) (d : DeliverBody) (b : MsgBuffer) (mt : Z * BufferStat) (j1 j2 : Z)
    (i k : nat) (a : App) (c ca : Connection) :
  let r := RequestDeliver h o d in
  request_ok r → holds mt [] (request_frame r) b →
  ap_conns a !! i = Some c → pool_fresh (m_msg_pool c) → is_open (m_socket c) = true →
  m_send_buffer_list c = [] →
  ap_cached a = Some k → ap_audit_conns a !! k = Some ca → pool_fresh (m_msg_pool ca) →
  is_open (m_socket ca) = true → m_send_buffer_list ca = [] →
  response_ok (main_response (Some i) d) → response_ok (main_audit d) →
  ∃ c' ca', server_callback j1 j2 (Some (main_logic random order)) i b a =
      Ok (tt, set_ap_audit (<[k := ca']> (ap_audit_conns a)) (set_ap_conns (<[i := c']> (ap_conns a)) a)) ∧
    posts c c' (response_bytes (handle_deliver_msg (main_response (Some i) d))) ∧
    posts ca ca' (audit_bytes None (main_audit_body d)).
Proof.
  cbv zeta. intros Hr Hb Hi Hp Ho Hq Hca Hk Hpa Hoa Hqa Hok Hoka.
  destruct (handle_read_msg_ok mt j1 j2 (Some i) b c _ Hr Hb Hp) as (c1 & E1 & p & -> & Hp1).
  destruct (handle_write_msg_posts (handle_deliver_msg (main_response (Some i) d)) (set_pool p c)
              Hok Hp1 Ho Hq) as (c' & E2 & Hc').
  set (a1 := set_ap_conns (<[i := c']> (ap_conns a)) a).
  destruct (audit_posts random order Head_init None (main_audit_body d) k a1 ca Hoka Hca Hk Hpa Hoa Hqa)
    as (ca' & E3 & Hca').
  exists c', ca'. split; [|done].
  unfold server_callback, mbind, M_bind. unfold on_conn at 1. rewrite Hi, E1.
  unfold handle_server_request. cbn [received Request_head m_cmd request_cmd].
  change (CmdType.DELIVER_MSG_CMD =? CmdType.BIND_CMD) with false.
  change (CmdType.DELIVER_MSG_CMD =? CmdType.ACT_CMD) with false. rewrite Z.eqb_refl. cbv iota.
  unfold main_logic, send_rsp_msg, send_adt_msg, gets, mbind, M_bind, id. cbn [Response_owner main_response].
  cbn [ap_conns set_ap_conns]. rewrite bool_decide_eq_true_2 by (rewrite lookup_insert_eq; eauto).
  unfold on_conn. cbn [ap_conns set_ap_conns]. rewrite lookup_insert_eq, E2.
  replace (set_ap_conns _ (set_ap_conns _ a)) with a1
    by (unfold a1, set_ap_conns; simpl; by rewrite insert_insert_eq).
  unfold mret, M_ret, main_audit. by rewrite E3.
Qed.

Lemma deliver_request_answered_witness :
  let c := Connection_make 1 None (mkConnInfo [] 0 [] 0 7) 0 0 in
  let a := mkApp {[ 0%nat := c ]} {[ 0%nat := c ]} (Client_make [] 1 1) (Some 0%nat) in
  let r := RequestDeliver Head_init None DeliverBody_init in
  ∃ c' ca', server_callback 0 0 (Some (main_logic (λ _, 0) (λ _, []))) 0
      (MsgBuffer_chars 0 valid (request_frame r)) a =
      Ok (tt, set_ap_audit (<[0%nat := ca']> (ap_audit_conns a)) (set_ap_conns (<[0%nat := c']> (ap_conns a)) a)) ∧
    posts c c' (response_bytes (handle_deliver_msg (main_response (Some 0%nat) DeliverBody_init))) ∧
    posts c ca' (audit_bytes None (main_audit_body DeliverBody_init)).
Proof.
  eapply (deliver_request_answered (λ _, 0) (λ _, []) Head_init None DeliverBody_init _ (0, valid) 0 0 0 0);
    [|exists []; by constructor|by vm_compute|by repeat constructor|done|done|done|by vm_compute
     |by repeat constructor|done|done|by vm_compute|by vm_compute].
  split; [by vm_compute|]. unfold ok_DeliverBody. repeat split; try (by vm_compute);
    apply (bool_decide_unpack _); by vm_compute.
Defined.
