(* ===== verification/LogLine.v ===== *)
(** * Log lines (util/nanolog.hpp: NanologBase, LogLevel, NanoLogLine)

    A log line encodes its arguments into a byte buffer, on the stack first and
    on the heap when they do not fit, and prints them later.  String literals
    are stored as pointers: what is at an address, like the printing of doubles
    and thread ids and the local time, is a parameter. *)

From Stdlib Require Import ZArith Lia Strings.Byte Strings.String.
From stdpp Require Import base list numbers strings pretty.
From S2P Require Import Prelude.
From S2P Require Import Endian.
From S2P Require Import MsgBuffer.

#[local] Open Scope Z_scope.

Definition i64 (z : Z) : Z := (z + 2 ^ 63) mod 2 ^ 64 - 2 ^ 63.

Inductive LogLevel := DEBUG | INFO | WARN | ERR | CRIT.

Definition level_value (l : LogLevel) : Z :=
  match l with DEBUG => 0 | INFO => 1 | WARN => 2 | ERR => 3 | CRIT => 4 end.

Definition to_string (loglevel : Z) : list byte :=
  list_byte_of_string
    (if loglevel =? 0 then "DEBUG" else if loglevel =? 1 then "INFO"
     else if loglevel =? 2 then "WARN" else if loglevel =? 3 then "ERROR"
     else if loglevel =? 4 then "CRIT" else "XXXX").

(** [os << n] for an integer. *)
Definition show_Z (z : Z) : list byte := list_byte_of_string (pretty z).

(** ["%0wd"]: at least [w] digits. *)
Definition pad0 (w : nat) (z : Z) : list byte :=
  let s := show_Z z in replicate (w - length s) "0"%byte ++ s.

(** The broken-down time. *)
Record tm := mkTm { tm_year : Z; tm_mon : Z; tm_mday : Z; tm_hour : Z; tm_min : Z; tm_sec : Z }.

(** The arguments a line takes; the three kinds of C strings and [std::string]
    end in [encode_c_string], a null pointer is skipped. *)
Inductive arg :=
  | ArgChar (b : byte)
  | ArgU32 (v : Z)
  | ArgU64 (v : Z)
  | ArgI32 (v : Z)
  | ArgI64 (v : Z)
  | ArgDouble (bits : Z)
  | ArgLiteral (address : Z)
  | ArgString (s : list byte)
  | ArgNull.

Record NanoLogLine := mkLine {
  m_bytes_used : Z;
  m_buffer_size : Z;
  m_heap_buffer : option (list byte);
  m_stack_buffer : list byte
}.

(** [256 - 2 * sizeof(size_t) - sizeof(unique_ptr) - 8] *)
Definition stack_buffer_size : Z := 224.

Abbreviation ML := (M NanoLogLine).

(** ** Encoding *)

Definition storage (l : NanoLogLine) : list byte :=
  match m_heap_buffer l with Some h => h | None => m_stack_buffer l end.

Definition set_storage (v : list byte) (l : NanoLogLine) : NanoLogLine :=
  match m_heap_buffer l with
  | Some _ => mkLine (m_bytes_used l) (m_buffer_size l) (Some v) (m_stack_buffer l)
  | None => mkLine (m_bytes_used l) (m_buffer_size l) None v
  end.

(** [*buffer() = arg; m_bytes_used += sizeof(arg)] *)
Definition encode (bs : list byte) : ML unit := λ l,
  match vwrite (storage l) (m_bytes_used l) bs with
  | Fault f => Fault f
  | Ok v =>
      let l := set_storage v l in
      Ok (tt, mkLine (u64 (m_bytes_used l + zlen bs)) (m_buffer_size l) (m_heap_buffer l)
                (m_stack_buffer l))
  end.

(** [new char[n]] with [memcpy] of the first [used] bytes of [old]; the other
    bytes are indeterminate. *)
Definition new_buffer (junk : byte) (n used : Z) (old : list byte) : result (list byte) :=
  match vread old 0 used with
  | Ok bs => vwrite (zreplicate n junk) 0 bs
  | Fault f => Fault f
  end.

Definition resize_buffer_if_needed (junk : byte) (additional_bytes : Z) : ML unit := λ l,
  let required_size := u64 (m_bytes_used l + additional_bytes) in
  if required_size <=? m_buffer_size l then Ok (tt, l)
  else
    let size :=
      match m_heap_buffer l with
      | None => Z.max 512 required_size
      | Some _ => Z.max (u64 (2 * m_buffer_size l)) required_size
      end in
    match new_buffer junk size (m_bytes_used l) (storage l) with
    | Ok h => Ok (tt, mkLine (m_bytes_used l) size (Some h) (m_stack_buffer l))
    | Fault f => Fault f
    end.

(** [encode(arg, type_id)] *)
Definition encode_typed (junk : byte) (type_id : byte) (bs : list byte) : ML unit :=
  resize_buffer_if_needed junk (zlen bs + 1);;
  encode [type_id];;
  encode bs.

(** [encode_c_string(arg, length)]: the characters and the terminator. *)
Definition encode_c_string (junk : byte) (s : list byte) : ML unit :=
  if zlen s =? 0 then mret tt
  else
    resize_buffer_if_needed junk (1 + zlen s + 1);;
    encode (x07 :: s ++ [x00]).

(** The [operator <<]s, with the index of each type among [SupportedTypes]. *)
Definition put_arg (junk : byte) (a : arg) : ML unit :=
  match a with
  | ArgChar b => encode_typed junk x00 [b]
  | ArgU32 v => encode_typed junk x01 (le_bytes 4 v)
  | ArgU64 v => encode_typed junk x02 (le_bytes 8 v)
  | ArgI32 v => encode_typed junk x03 (le_bytes 4 v)
  | ArgI64 v => encode_typed junk x04 (le_bytes 8 v)
  | ArgDouble bits => encode_typed junk x05 (le_bytes 8 bits)
  | ArgLiteral address => encode_typed junk x06 (le_bytes 8 address)
  | ArgString s => encode_c_string junk s
  | ArgNull => mret tt
  end.

Fixpoint put_args (junk : byte) (args : list arg) : ML unit :=
  match args with [] => mret tt | a :: rest => put_arg junk a;; put_args junk rest end.

(** The constructor: the header goes into the stack buffer. *)
Definition NanoLogLine_make (junk : byte) (timestamp thread : Z) (level : LogLevel)
    (file function line : Z) : result (unit * NanoLogLine) :=
  (encode (le_bytes 8 timestamp);;
   encode (le_bytes 8 thread);;
   encode (le_bytes 8 file);;
   encode (le_bytes 8 function);;
   encode (le_bytes 4 line);;
   encode (le_bytes 1 (level_value level)))
    (mkLine 0 stack_buffer_size None (zreplicate stack_buffer_size junk)).

(** ** Printing *)

Section Printing.
(** What is at an address, how doubles and thread ids print, the local time. *)
Context (literal : Z → list byte) (show_double show_thread : Z → list byte)
  (localtime : Z → option tm).

(** [get_datetime]: year, month, day and hour, or the milliseconds. *)
Definition get_datetime (timestamp : Z) : list byte :=
  match localtime (timestamp / 1000) with
  | None => pad0 3 (timestamp mod 1000)
  | Some t => show_Z (tm_year t + 1900) ++ pad0 2 (tm_mon t + 1) ++ pad0 2 (tm_mday t) ++ pad0 2 (tm_hour t)
  end.

Definition format_timestamp (timestamp : Z) : list byte :=
  let miliseconds := pad0 3 (timestamp mod 1000) in
  match localtime (timestamp / 1000) with
  | None => ["["%byte] ++ miliseconds ++ ["]"%byte]
  | Some t =>
      ["["%byte] ++ show_Z (tm_year t + 1900) ++ ["-"%byte] ++ pad0 2 (tm_mon t + 1) ++ ["-"%byte] ++
      pad0 2 (tm_mday t) ++ [" "%byte] ++ pad0 2 (tm_hour t) ++ [":"%byte] ++ pad0 2 (tm_min t) ++
      [":"%byte] ++ pad0 2 (tm_sec t) ++ ["."%byte] ++ miliseconds ++ ["]"%byte]
  end.

(** [decode] of a value of [n] bytes: what is printed, and the position behind. *)
Definition decode_value (v : list byte) (b n : Z) (print : Z → list byte) : result (list byte * Z) :=
  match vread v b n with
  | Ok bs => Ok (print (le_value bs), b + n)
  | Fault f => Fault f
  end.

(** [decode] of a string: up to the terminator. *)
Definition decode_string (v : list byte) (b : Z) : result (list byte * Z) :=
  match strlen (zdrop b v) with
  | Ok n => Ok (ztake n (zdrop b v), b + n + 1)
  | Fault f => Fault f
  end.

(** One turn of the private [stringify]; an unknown type ends it. *)
Definition decode_one (v : list byte) (b : Z) : result (option (list byte * Z)) :=
  match vread v b 1 with
  | Fault f => Fault f
  | Ok t =>
      let type_id := charZ (default x00 (head t)) in
      let b := b + 1 in
      let r (x : result (list byte * Z)) :=
        match x with Ok p => Ok (Some p) | Fault f => Fault f end in
      if type_id =? 0 then r (decode_value v b 1 (λ z, [Zbyte z]))
      else if type_id =? 1 then r (decode_value v b 4 show_Z)
      else if type_id =? 2 then r (decode_value v b 8 show_Z)
      else if type_id =? 3 then r (decode_value v b 4 (λ z, show_Z (i32 z)))
      else if type_id =? 4 then r (decode_value v b 8 (λ z, show_Z (i64 z)))
      else if type_id =? 5 then r (decode_value v b 8 show_double)
      else if type_id =? 6 then r (decode_value v b 8 literal)
      else if type_id =? 7 then r (decode_string v b)
      else Ok None
  end.

(** Each turn advances, so the size of the buffer is fuel enough: a longer run
    would read past it. *)
Fixpoint stringify_args (fuel : nat) (v : list byte) (b e : Z) : result (list byte) :=
  if b =? e then Ok []
  else
    match fuel with
    | O => Fault OutOfBounds
    | S fuel' =>
        match decode_one v b with
        | Fault f => Fault f
        | Ok None => Ok []
        | Ok (Some (out, b')) =>
            match stringify_args fuel' v b' e with
            | Ok rest => Ok (out ++ rest)
            | Fault f => Fault f
            end
        end
    end.

Definition stringify (l : NanoLogLine) : result (list byte) :=
  let v := storage l in
  let field i n := match vread v i n with Ok bs => Ok (le_value bs) | Fault f => Fault f end in
  match field 0 8, field 8 8, field 16 8, field 24 8, field 32 4, field 36 1 with
  | Ok timestamp, Ok thread, Ok file, Ok function, Ok line, Ok level =>
      match stringify_args (S (length v)) v 37 (m_bytes_used l) with
      | Fault f => Fault f
      | Ok args =>
          Ok (format_timestamp timestamp ++ ["["%byte] ++ to_string level ++ ["]"%byte] ++ ["["%byte] ++
              show_thread thread ++ ["]"%byte] ++ ["["%byte] ++ literal file ++ [":"%byte] ++
              literal function ++ [":"%byte] ++ show_Z line ++ list_byte_of_string "] " ++ args ++ [x0a])
      end
  | _, _, _, _, _, _ => Fault OutOfBounds
  end.

(** What each argument should print. *)
Definition show_arg (a : arg) : list byte :=
  match a with
  | ArgChar b => [b]
  | ArgU32 v | ArgU64 v | ArgI32 v | ArgI64 v => show_Z v
  | ArgDouble bits => show_double bits
  | ArgLiteral address => literal address
  | ArgString s => s
  | ArgNull => []
  end.

End Printing.

(** ** The state of a line *)

(** The line holds [bytes], has room for [room] more, and its buffer is no
    larger than [limit]. *)
Record line_at (bytes : list byte) (room limit : Z) (l : NanoLogLine) : Prop := mkLineAt {
  line_storage : ∃ slack, storage l = bytes ++ slack ∧ room ≤ zlen slack;
  line_used : m_bytes_used l = zlen bytes;
  line_size : m_buffer_size l = zlen (storage l);
  line_limit : zlen (storage l) ≤ limit
}.

Lemma storage_set v l : storage (set_storage v l) = v.
Proof. unfold storage, set_storage. by destruct (m_heap_buffer l) eqn:E; simpl; rewrite ?E. Qed.

Lemma encode_at bytes room limit bs l :
  line_at bytes room limit l → zlen bs ≤ room → limit < 2 ^ 64 →
  ∃ l', encode bs l = Ok (tt, l') ∧ line_at (bytes ++ bs) (room - zlen bs) limit l'.
Proof.
  intros [(slack & E & Hr) Hu Hs Hl] Hbs Hlim.
  destruct (zsplit (zlen bs) slack) as (s1 & s2 & -> & Hs1); [pose proof (zlen_nonneg bs); lia|].
  unfold encode. rewrite E, Hu, vwrite_app by done. eexists. split; [reflexivity|].
  set (l1 := set_storage (bytes ++ bs ++ s2) l).
  assert (Est : storage (mkLine (u64 (m_bytes_used l1 + zlen bs)) (m_buffer_size l1) (m_heap_buffer l1)
                          (m_stack_buffer l1)) = bytes ++ bs ++ s2) by exact (storage_set _ l).
  assert (Hlen : zlen (bytes ++ bs ++ s2) = zlen (storage l)) by (rewrite E, !zlen_app; lia).
  constructor; rewrite ?Est.
  - exists s2. rewrite <- app_assoc. split; [done|]. rewrite zlen_app in Hr. lia.
  - cbn [m_bytes_used]. replace (m_bytes_used l1) with (zlen bytes)
      by (unfold l1, set_storage; by destruct (m_heap_buffer l)).
    rewrite E, !zlen_app in Hl. pose proof (zlen_nonneg bytes). pose proof (zlen_nonneg bs).
    pose proof (zlen_nonneg s1). pose proof (zlen_nonneg s2).
    rewrite u64_small by (unfold in_u; lia). by rewrite zlen_app.
  - cbn [m_buffer_size]. rewrite Hlen, <- Hs. unfold l1, set_storage. by destruct (m_heap_buffer l).
  - by rewrite Hlen.
Qed.

Lemma new_buffer_ok junk n bytes slack :
  zlen bytes ≤ n →
  new_buffer junk n (zlen bytes) (bytes ++ slack) = Ok (bytes ++ zreplicate (n - zlen bytes) junk).
Proof.
  intros Hn. pose proof (zlen_nonneg bytes). unfold new_buffer.
  pose proof (vread_app [] bytes slack) as Hv. cbn [app] in Hv. change (zlen []) with 0 in Hv. rewrite Hv.
  replace (zreplicate n junk) with ([] ++ zreplicate (zlen bytes) junk ++ zreplicate (n - zlen bytes) junk).
  - apply (vwrite_app []). rewrite zlen_replicate; lia.
  - unfold zreplicate. cbn [app]. rewrite <- replicate_add. f_equal. lia.
Qed.

Lemma resize_at junk bytes room limit additional l :
  line_at bytes room limit l → 0 ≤ additional →
  2 * (limit + zlen bytes + additional) < 2 ^ 64 → 512 ≤ limit →
  ∃ l', resize_buffer_if_needed junk additional l = Ok (tt, l') ∧
    line_at bytes additional (Z.max limit (2 * (zlen bytes + additional))) l'.
Proof.
  intros [(slack & E & Hr) Hu Hs Hl] Ha Hlim H512. pose proof (zlen_nonneg bytes). pose proof (zlen_nonneg slack).
  assert (Hlen : zlen (storage l) = zlen bytes + zlen slack) by (by rewrite E, zlen_app).
  unfold resize_buffer_if_needed. rewrite Hu, Hs, u64_small by (unfold in_u; lia).
  destruct (Z.leb_spec (zlen bytes + additional) (zlen (storage l))) as [Hle|Hgt].
  - exists l. split; [done|]. constructor; [exists slack; split; [done|lia]|done|done|lia].
  - set (size := match m_heap_buffer l with None => _ | Some _ => _ end).
    assert (Hsize : zlen bytes + additional ≤ size ∧ size ≤ Z.max limit (2 * (zlen bytes + additional))).
    { unfold size. destruct (m_heap_buffer l); [rewrite u64_small by (unfold in_u; lia)|]; lia. }
    rewrite E, new_buffer_ok by lia. eexists. split; [reflexivity|].
    assert (Hz : zlen (zreplicate (size - zlen bytes) junk) = size - zlen bytes) by (apply zlen_replicate; lia).
    constructor; unfold storage; cbn [m_heap_buffer m_bytes_used m_buffer_size].
    + eexists. split; [done|]. lia.
    + done.
    + rewrite zlen_app. lia.
    + rewrite zlen_app. lia.
Qed.

(** The bytes an argument adds. *)
Definition image_arg (a : arg) : list byte :=
  match a with
  | ArgChar b => [x00; b]
  | ArgU32 v => x01 :: le_bytes 4 v
  | ArgU64 v => x02 :: le_bytes 8 v
  | ArgI32 v => x03 :: le_bytes 4 v
  | ArgI64 v => x04 :: le_bytes 8 v
  | ArgDouble bits => x05 :: le_bytes 8 bits
  | ArgLiteral address => x06 :: le_bytes 8 address
  | ArgString [] => []
  | ArgString s => x07 :: s ++ [x00]
  | ArgNull => []
  end.

Definition images (args : list arg) : list byte := concat (map image_arg args).

(** The buffer stays within twice what it holds. *)
Definition line_holds (bytes : list byte) (l : NanoLogLine) : Prop :=
  line_at bytes 0 (512 + 2 * zlen bytes) l.

Lemma encode_typed_at junk t bs bytes l :
  line_holds bytes l → zlen bytes + zlen bs < 2 ^ 60 →
  ∃ l', encode_typed junk t bs l = Ok (tt, l') ∧ line_holds (bytes ++ t :: bs) l'.
Proof.
  intros Hl Hb. pose proof (zlen_nonneg bytes). pose proof (zlen_nonneg bs).
  destruct (resize_at junk bytes 0 (512 + 2 * zlen bytes) (zlen bs + 1) l Hl) as (l1 & E1 & H1); [lia..|].
  destruct (encode_at _ _ _ [t] l1 H1) as (l2 & E2 & H2); [rewrite zlen_cons; change (zlen (@nil byte)) with 0; lia|lia|].
  change (zlen [t]) with 1 in H2.
  destruct (encode_at _ _ _ bs l2 H2) as (l3 & E3 & H3); [lia|lia|].
  exists l3. unfold encode_typed. rewrite (bind_ok _ _ _ _ _ E1), (bind_ok _ _ _ _ _ E2), E3.
  split; [done|]. rewrite <- app_assoc in H3. destruct H3 as [(s & Es & Hr) Hu Hs Hlim].
  constructor; [|done|done|].
  - exists s. split; [done|lia].
  - rewrite zlen_app, zlen_cons. lia.
Qed.

Lemma encode_c_string_at junk s bytes l :
  line_holds bytes l → zlen bytes + zlen s < 2 ^ 60 →
  ∃ l', encode_c_string junk s l = Ok (tt, l') ∧ line_holds (bytes ++ image_arg (ArgString s)) l'.
Proof.
  intros Hl Hb. pose proof (zlen_nonneg bytes). pose proof (zlen_nonneg s). unfold encode_c_string.
  destruct s as [|c s]; [by exists l; rewrite app_nil_r|]. zguard.
  destruct (resize_at junk bytes 0 (512 + 2 * zlen bytes) (1 + zlen (c :: s) + 1) l Hl) as (l1 & E1 & H1); [lia..|].
  assert (Hz : zlen (x07 :: (c :: s) ++ [x00]) = 1 + zlen (c :: s) + 1)
    by (rewrite zlen_cons, zlen_app; change (zlen [x00]) with 1; lia).
  destruct (encode_at _ _ _ (x07 :: (c :: s) ++ [x00]) l1 H1) as (l2 & E2 & H2); [lia|lia|].
  exists l2. rewrite (bind_ok _ _ _ _ _ E1). split; [done|]. destruct H2 as [(sl & Es & Hr) Hu Hs Hlim].
  constructor; [|done|done|].
  - exists sl. split; [done|lia].
  - change (image_arg _) with (x07 :: (c :: s) ++ [x00]). rewrite zlen_app, Hz. lia.
Qed.

Lemma put_arg_at junk a bytes l :
  line_holds bytes l → zlen (bytes ++ image_arg a) < 2 ^ 60 →
  ∃ l', put_arg junk a l = Ok (tt, l') ∧ line_holds (bytes ++ image_arg a) l'.
Proof.
  intros Hl. rewrite zlen_app. intros Hb.
  assert (Ht : ∀ t bs, image_arg a = t :: bs → put_arg junk a = encode_typed junk t bs →
    ∃ l', put_arg junk a l = Ok (tt, l') ∧ line_holds (bytes ++ image_arg a) l').
  { intros t bs Ei Ep. rewrite Ei, Ep in *. rewrite zlen_cons in Hb. apply encode_typed_at; [done|lia]. }
  destruct a; try (by eapply Ht).
  - apply encode_c_string_at; [done|]. pose proof (zlen_nonneg s).
    destruct s as [|c s]; [cbn [image_arg] in Hb; lia|].
    change (image_arg _) with (x07 :: (c :: s) ++ [x00]) in Hb. rewrite zlen_cons, zlen_app in Hb.
    change (zlen [x00]) with 1 in Hb. lia.
  - exists l. simpl. by rewrite app_nil_r.
Qed.

Lemma put_args_at junk args bytes l :
  line_holds bytes l → zlen (bytes ++ images args) < 2 ^ 60 →
  ∃ l', put_args junk args l = Ok (tt, l') ∧ line_holds (bytes ++ images args) l'.
Proof.
  revert bytes l. induction args as [|a args IH]; intros bytes l Hl Hb.
  - exists l. change (images []) with (@nil byte). by rewrite app_nil_r.
  - change (images (a :: args)) with (image_arg a ++ images args) in *.
    rewrite app_assoc in Hb |- *. pose proof (zlen_nonneg (images args)).
    destruct (put_arg_at junk a bytes l Hl) as (l1 & E1 & H1); [rewrite zlen_app in Hb; lia|].
    destruct (IH _ l1 H1 Hb) as (l2 & E2 & H2). exists l2. simpl. by rewrite (bind_ok _ _ _ _ _ E1).
Qed.

(** ** Decoding what was encoded *)

Definition arg_ok (a : arg) : Prop :=
  match a with
  | ArgChar _ | ArgNull => True
  | ArgU32 v => in_u 32 v
  | ArgU64 v | ArgDouble v | ArgLiteral v => in_u 64 v
  | ArgI32 v => - 2 ^ 31 ≤ v < 2 ^ 31
  | ArgI64 v => - 2 ^ 63 ≤ v < 2 ^ 63
  | ArgString s => x00 ∉ s
  end.

Lemma wrap_signed w v :
  0 < w → - 2 ^ (w - 1) ≤ v < 2 ^ (w - 1) →
  (v mod 2 ^ w + 2 ^ (w - 1)) mod 2 ^ w - 2 ^ (w - 1) = v.
Proof.
  intros Hw Hv. rewrite Zplus_mod_idemp_l.
  assert (2 ^ w = 2 * 2 ^ (w - 1)) by (rewrite <- Z.pow_succ_r by lia; f_equal; lia).
  rewrite Z.mod_small; lia.
Qed.

Lemma decode_value_at pre bs rest n print :
  zlen bs = n →
  decode_value (pre ++ bs ++ rest) (zlen pre) n print = Ok (print (le_value bs), zlen pre + n).
Proof. intros <-. unfold decode_value. by rewrite vread_app. Qed.

Lemma decode_string_at pre s rest :
  x00 ∉ s → decode_string (pre ++ (s ++ [x00]) ++ rest) (zlen pre) = Ok (s, zlen pre + zlen (s ++ [x00])).
Proof.
  intros Hs. unfold decode_string. rewrite zdrop_app, <- app_assoc. cbn [app].
  rewrite strlen_app by done. rewrite ztake_app. do 2 f_equal. rewrite zlen_app.
  change (zlen [x00]) with 1. lia.
Qed.

(** Reduces the dispatch on a known type id. *)
Ltac dispatch := cbn [default head from_option id charZ byteZ Byte.to_N]; cbn -[Z.add zlen Z.pow Z.mul le_bytes app].

Section Decoding.
Context (literal : Z → list byte) (show_double show_thread : Z → list byte)
  (localtime : Z → option tm).

Lemma decode_one_image a pre rest :
  arg_ok a → image_arg a ≠ [] →
  decode_one literal show_double (pre ++ image_arg a ++ rest) (zlen pre) =
    Ok (Some (show_arg literal show_double a, zlen pre + zlen (image_arg a))).
Proof.
  intros Ha Hne.
  assert (Hval : ∀ t n k v print, k = Z.of_nat n →
    decode_value (pre ++ (t :: le_bytes n v) ++ rest) (zlen pre + 1) k print =
      Ok (print (v mod 2 ^ (8 * k)), zlen pre + zlen (t :: le_bytes n v))).
  { intros t n k v print ->.
    pose proof (decode_value_at (pre ++ [t]) (le_bytes n v) rest (Z.of_nat n) print) as H.
    rewrite <- app_assoc, zlen_app in H. change (zlen [t]) with 1 in H. cbn [app] in H |- *.
    rewrite H, le_value_bytes, zlen_cons, zlen_le_bytes by (by rewrite zlen_le_bytes).
    do 2 f_equal. lia. }
  assert (Ht : ∀ t bs, vread (pre ++ (t :: bs) ++ rest) (zlen pre) 1 = Ok [t]).
  { intros t bs. apply (vread_app pre [t] (bs ++ rest)). }
  destruct a; cbn [image_arg arg_ok show_arg] in *; try done; unfold decode_one.
  - pose proof (Hval x00 1%nat 1 (byteZ b)) as Hv. cbn [le_bytes] in Hv. rewrite Zbyte_byteZ in Hv.
    rewrite Ht. dispatch. rewrite Hv by done. change (8 * 1) with 8.
    by rewrite Z.mod_small, Zbyte_byteZ by apply byteZ_range.
  - rewrite Ht. dispatch. rewrite (Hval x01 4%nat) by done. by rewrite Z.mod_small.
  - rewrite Ht. dispatch. rewrite (Hval x02 8%nat) by done. by rewrite Z.mod_small.
  - rewrite Ht. dispatch. rewrite (Hval x03 4%nat) by done. unfold i32.
    by rewrite (wrap_signed 32).
  - rewrite Ht. dispatch. rewrite (Hval x04 8%nat) by done. unfold i64.
    by rewrite (wrap_signed 64).
  - rewrite Ht. dispatch. rewrite (Hval x05 8%nat) by done. by rewrite Z.mod_small.
  - rewrite Ht. dispatch. rewrite (Hval x06 8%nat) by done. by rewrite Z.mod_small.
  - destruct s as [|c s]; [done|]. rewrite Ht. dispatch.
    pose proof (decode_string_at (pre ++ [x07]) (c :: s) rest Ha) as Hd.
    rewrite <- app_assoc, zlen_app in Hd. change (zlen [x07]) with 1 in Hd. cbn [app] in Hd |- *.
    rewrite Hd. rewrite (zlen_cons x07). do 3 f_equal. cbn [app]. lia.
Qed.

(** What a decoder's run prints; the empty images print nothing. *)
Lemma stringify_args_images args pre slack fuel :
  Forall arg_ok args → (length (images args) ≤ fuel)%nat →
  stringify_args literal show_double fuel (pre ++ images args ++ slack) (zlen pre)
    (zlen pre + zlen (images args)) = Ok (concat (map (show_arg literal show_double) args)).
Proof.
  revert pre fuel. induction args as [|a args IH]; intros pre fuel Hok Hf.
  - change (images []) with (@nil byte). change (zlen []) with 0. rewrite Z.add_0_r.
    destruct fuel; cbn [stringify_args]; by rewrite Z.eqb_refl.
  - apply Forall_cons in Hok as [Ha Hok].
    change (images (a :: args)) with (image_arg a ++ images args) in *. cbn [map concat].
    destruct (decide (image_arg a = [])) as [E|Hne].
    { rewrite E in *. cbn [app] in *. replace (show_arg literal show_double a) with (@nil byte); [by apply IH|].
      destruct a; try done. by destruct s. }
    assert (Hpos : 0 < zlen (image_arg a)) by (destruct (image_arg a); [done|zl]).
    rewrite length_app in Hf. pose proof Hpos as Hpos'. unfold zlen in Hpos'. destruct fuel as [|fuel]; [lia|]. cbn [stringify_args].
    rewrite (proj2 (Z.eqb_neq _ _)) by zl.
    rewrite <- app_assoc. rewrite decode_one_image by done.
    rewrite app_assoc, <- zlen_app.
    replace (zlen pre + zlen (image_arg a ++ images args)) with (zlen (pre ++ image_arg a) + zlen (images args))
      by (rewrite !zlen_app; lia).
    by rewrite IH by (done || lia).
Qed.

(** The bytes of the header. *)
Definition header (timestamp thread : Z) (level : LogLevel) (file function line : Z) : list byte :=
  le_bytes 8 timestamp ++ le_bytes 8 thread ++ le_bytes 8 file ++ le_bytes 8 function ++
  le_bytes 4 line ++ le_bytes 1 (level_value level).

(** What a line prints. *)
Definition line_text (timestamp thread : Z) (level : LogLevel) (file function line : Z)
    (args : list arg) : list byte :=
  format_timestamp localtime timestamp ++ ["["%byte] ++ to_string (level_value level) ++ ["]"%byte] ++
  ["["%byte] ++ show_thread thread ++ ["]"%byte] ++ ["["%byte] ++ literal file ++ [":"%byte] ++
  literal function ++ [":"%byte] ++ show_Z line ++ list_byte_of_string "] " ++
  concat (map (show_arg literal show_double) args) ++ [x0a].

Lemma make_at junk timestamp thread level file function line :
  ∃ l, NanoLogLine_make junk timestamp thread level file function line = Ok (tt, l) ∧
    line_holds (header timestamp thread level file function line) l.
Proof.
  assert (H0 : line_at [] 224 224 (mkLine 0 stack_buffer_size None (zreplicate stack_buffer_size junk))).
  { assert (Hz : zlen (zreplicate stack_buffer_size junk) = 224) by done.
    constructor; unfold storage; cbn [m_heap_buffer m_stack_buffer m_bytes_used m_buffer_size]; rewrite ?Hz;
      [|done|done|done].
    exists (zreplicate stack_buffer_size junk). split; [done|]. lia. }
  unfold NanoLogLine_make.
  destruct (encode_at _ _ _ (le_bytes 8 timestamp) _ H0) as (l1 & E1 & H1); [rewrite ?zlen_le_bytes; lia..|].
  destruct (encode_at _ _ _ (le_bytes 8 thread) _ H1) as (l2 & E2 & H2); [rewrite ?zlen_le_bytes; lia..|].
  destruct (encode_at _ _ _ (le_bytes 8 file) _ H2) as (l3 & E3 & H3); [rewrite ?zlen_le_bytes; lia..|].
  destruct (encode_at _ _ _ (le_bytes 8 function) _ H3) as (l4 & E4 & H4); [rewrite ?zlen_le_bytes; lia..|].
  destruct (encode_at _ _ _ (le_bytes 4 line) _ H4) as (l5 & E5 & H5); [rewrite ?zlen_le_bytes; lia..|].
  destruct (encode_at _ _ _ (le_bytes 1 (level_value level)) _ H5) as (l6 & E6 & H6); [rewrite ?zlen_le_bytes; lia..|].
  exists l6. rewrite (bind_ok _ _ _ _ _ E1), (bind_ok _ _ _ _ _ E2), (bind_ok _ _ _ _ _ E3),
    (bind_ok _ _ _ _ _ E4), (bind_ok _ _ _ _ _ E5).
  split; [done|]. unfold line_holds, header. rewrite !zlen_app, !zlen_le_bytes.
  destruct H6 as [(s & Es & Hr) Hu Hs Hl]. rewrite <- !app_assoc in *. cbn [app] in *.
  constructor; [|done|done|lia]. exists s. rewrite <- !app_assoc. rewrite !zlen_le_bytes in Hr. split; [done|lia].
Qed.

Lemma field_at n pre v rest :
  in_u (8 * Z.of_nat n) v →
  match vread (pre ++ le_bytes n v ++ rest) (zlen pre) (Z.of_nat n) with
  | Ok bs => Ok (le_value bs) | Fault f => Fault f end = Ok v.
Proof.
  intros Hv. rewrite <- (zlen_le_bytes n v), vread_app, le_value_bytes. by rewrite Z.mod_small.
Qed.

Lemma stringify_holds timestamp thread level file function line args l :
  in_u 64 timestamp → in_u 64 thread → in_u 64 file → in_u 64 function → in_u 32 line →
  Forall arg_ok args →
  line_holds (header timestamp thread level file function line ++ images args) l →
  stringify literal show_double show_thread localtime l =
    Ok (line_text timestamp thread level file function line args).
Proof.
  intros H1 H2 H3 H4 H5 Hargs [(slack & Es & _) Hu _ _]. unfold stringify. rewrite Es, Hu.
  set (v := (header _ _ _ _ _ _ ++ images args) ++ slack).
  assert (Hf : ∀ n pre x rest i k, v = pre ++ le_bytes n x ++ rest → in_u (8 * Z.of_nat n) x →
    i = zlen pre → k = Z.of_nat n →
    match vread v i k with Ok bs => Ok (le_value bs) | Fault f => Fault f end = Ok x).
  { intros n pre x rest i k -> Hx -> ->. by apply field_at. }
  assert (Hv : v = header timestamp thread level file function line ++ images args ++ slack)
    by (unfold v; by rewrite app_assoc).
  unfold header in Hv. rewrite <- !app_assoc in Hv. cbn zeta.
  rewrite (Hf 8%nat [] timestamp _ 0 8 Hv) by done.
  rewrite (Hf 8%nat (le_bytes 8 timestamp) thread _ 8 8 Hv) by (rewrite ?zlen_le_bytes; done).
  rewrite (Hf 8%nat (le_bytes 8 timestamp ++ le_bytes 8 thread) file
    (le_bytes 8 function ++ le_bytes 4 line ++ le_bytes 1 (level_value level) ++ images args ++ slack) 16 8)
    by (rewrite <- ?app_assoc, ?zlen_app, ?zlen_le_bytes; done).
  rewrite (Hf 8%nat (le_bytes 8 timestamp ++ le_bytes 8 thread ++ le_bytes 8 file) function
    (le_bytes 4 line ++ le_bytes 1 (level_value level) ++ images args ++ slack) 24 8)
    by (rewrite <- ?app_assoc, ?zlen_app, ?zlen_le_bytes; done).
  rewrite (Hf 4%nat (le_bytes 8 timestamp ++ le_bytes 8 thread ++ le_bytes 8 file ++ le_bytes 8 function) line
    (le_bytes 1 (level_value level) ++ images args ++ slack) 32 4)
    by (rewrite <- ?app_assoc, ?zlen_app, ?zlen_le_bytes; done).
  rewrite (Hf 1%nat (le_bytes 8 timestamp ++ le_bytes 8 thread ++ le_bytes 8 file ++ le_bytes 8 function ++
    le_bytes 4 line) (level_value level) (images args ++ slack) 36 1)
    by (rewrite <- ?app_assoc, ?zlen_app, ?zlen_le_bytes; first [done | destruct level; done]).
  pose proof (stringify_args_images args (header timestamp thread level file function line) slack
    (S (length v)) Hargs) as Hs.
  assert (H37 : zlen (header timestamp thread level file function line) = 37)
    by (unfold header; by rewrite !zlen_app, !zlen_le_bytes).
  rewrite app_assoc, <- zlen_app, H37 in Hs. fold v in Hs. rewrite Hs; [done|]. unfold v. rewrite !length_app. lia.
Qed.

End Decoding.

(** C17: a log line prints what was put into it.  For every header, every list
    of arguments of the nine kinds, with values in their ranges and strings
    without a NUL ([arg_ok]; see [embedded_nul_overruns]), however long (below 2^59 bytes) and whatever the
    indeterminate bytes of the buffers: constructing the line and inserting
    the arguments stays inside the buffers, through the move to the heap and
    every doubling, and printing it writes the header followed by each
    argument in order and a newline. *)
Theorem log_line_roundtrip literal show_double show_thread localtime junk
    timestamp thread level file function line args :
  in_u 64 timestamp → in_u 64 thread → in_u 64 file → in_u 64 function → in_u 32 line →
  Forall arg_ok args → zlen (images args) < 2 ^ 59 →
  ∃ l0 l, NanoLogLine_make junk timestamp thread level file function line = Ok (tt, l0) ∧
    put_args junk args l0 = Ok (tt, l) ∧
    stringify literal show_double show_thread localtime l =
      Ok (line_text literal show_double show_thread localtime timestamp thread level file function line args).
Proof.
  intros H1 H2 H3 H4 H5 Hargs Hsize.
  destruct (make_at junk timestamp thread level file function line) as (l0 & E0 & Hl0).
  destruct (put_args_at junk args _ l0 Hl0) as (l & E & Hl).
  { rewrite zlen_app. unfold header. rewrite !zlen_app, !zlen_le_bytes. lia. }
  exists l0, l. split_and!; [done|done|]. by apply stringify_holds.
Qed.

(** A line that outgrows the stack buffer, with a negative number. *)
Lemma log_line_roundtrip_witness :
  let args := [ArgString (replicate 250 "a"%byte); ArgI32 (-7); ArgChar "z"%byte; ArgNull] in
  (∃ l0 l, NanoLogLine_make xff 1700000000123 5 WARN 16 32 77 = Ok (tt, l0) ∧
    put_args xff args l0 = Ok (tt, l) ∧
    stringify (λ _, []) (λ _, []) (λ _, []) (λ _, None) l =
      Ok (line_text (λ _, []) (λ _, []) (λ _, []) (λ _, None) 1700000000123 5 WARN 16 32 77 args)) ∧
  line_text (λ _, []) (λ _, []) (λ _, []) (λ _, None) 1700000000123 5 WARN 16 32 77 args =
    list_byte_of_string "[123][WARN][][::77] " ++ replicate 250 "a"%byte ++
    list_byte_of_string "-7z" ++ [x0a].
Proof.
  cbn zeta. split; [|by vm_compute].
  apply (log_line_roundtrip (λ _, []) (λ _, []) (λ _, []) (λ _, None) xff 1700000000123 5 WARN 16 32 77);
    [done..| |by vm_compute].
  assert (Ha : arg_ok (ArgString (replicate 250 "a"%byte))).
  { cbn [arg_ok]. intros Hx%elem_of_replicate. by destruct Hx. }
  repeat (apply Forall_cons; split); [exact Ha|by vm_compute|done|done|by apply Forall_nil].
Defined.

(** A NUL inside a [std::string] ends the print early: what follows it is taken
    for further arguments, and the reader leaves the buffer. *)
Lemma embedded_nul_overruns :
  match NanoLogLine_make x00 0 0 INFO 0 0 0 with
  | Ok (_, l0) =>
      match put_args x00 [ArgString ["a"%byte; x00]] l0 with
      | Ok (_, l) => stringify (λ _, []) (λ _, []) (λ _, []) (λ _, None) l = Fault OutOfBounds
      | Fault _ => False
      end
  | Fault _ => False
  end.
Proof. by vm_compute. Qed.
