(* ===== verification/RingBuffer.v ===== *)
(** * The lossy log buffer (util/nanolog.hpp: SpinLock, RingBuffer)

    Producers draw a ticket and store their line into its slot under the slot's
    spin lock; the consumer takes the line of its slot if one is there.  A
    schedule lists the ticket, store and take steps of any number of producers
    and the consumer.  Results: the ring is a FIFO while no ticket runs more
    than a round ahead of the consumer; behind that it loses lines and changes
    their order. *)

From Stdlib Require Import ZArith Lia.
From stdpp Require Import base list numbers gmap.
From S2P Require Import Prelude.

Record RingBuffer (A : Type) := mkRing {
  m_ring : list (bool * A);   (** [written] and [logline] of each item *)
  m_write_index : Z;
  m_read_index : Z
}.
Arguments mkRing {A} _ _ _.
Arguments m_ring {A} _.
Arguments m_write_index {A} _.
Arguments m_read_index {A} _.

Section Ring.
Context {A : Type}.
Implicit Types (r : RingBuffer A) (x : A).

Definition m_size r : Z := zlen (m_ring r).

Definition RingBuffer_make (size : Z) (default_line : A) : RingBuffer A :=
  mkRing (zreplicate size (false, default_line)) 0 0.

(** [m_write_index.fetch_add(1) % m_size]; the index is an [unsigned int]. *)
Definition ring_ticket r : Z * RingBuffer A :=
  (m_write_index r mod m_size r, mkRing (m_ring r) (u32 (m_write_index r + 1)) (m_read_index r)).

(** The rest of [push], under the lock of the slot. *)
Definition ring_store (i : Z) x r : RingBuffer A :=
  mkRing (<[Z.to_nat i := (true, x)]> (m_ring r)) (m_write_index r) (m_read_index r).

(** [try_pop], under the lock of its slot. *)
Definition ring_try_pop r : option A * RingBuffer A :=
  let i := Z.to_nat (m_read_index r mod m_size r) in
  match m_ring r !! i with
  | Some (true, x) =>
      (Some x, mkRing (<[i := (false, x)]> (m_ring r)) (m_write_index r) (u32 (m_read_index r + 1)))
  | _ => (None, r)
  end.

Definition ring_push x r : RingBuffer A :=
  let '(i, r') := ring_ticket r in ring_store i x r'.

(** Lines pushed one after the other, and up to [k] lines popped. *)
Definition ring_push_all (xs : list A) r : RingBuffer A := foldl (λ r x, ring_push x r) r xs.

Fixpoint ring_pop_all (k : nat) r : list A :=
  match k with
  | O => []
  | S k' => match ring_try_pop r with (Some x, r') => x :: ring_pop_all k' r' | (None, _) => [] end
  end.

(** ** Interleavings *)

Inductive ring_op :=
  | RTicket (t : nat) (x : A)   (** thread [t] begins to push [x] *)
  | RStore (t : nat)
  | RPop.

(** The threads between ticket and store, the lines in the order of their
    tickets, and the lines popped. *)
Record ring_sys := mkRingSys {
  rs_ring : RingBuffer A;
  rs_holds : gmap nat (Z * A);
  rs_taken : list A;
  rs_popped : list A
}.

Definition ring_step (o : ring_op) (s : ring_sys) : option ring_sys :=
  match o with
  | RTicket t x =>
      match rs_holds s !! t with
      | Some _ => None
      | None =>
          let '(i, r) := ring_ticket (rs_ring s) in
          Some (mkRingSys r (<[t := (i, x)]> (rs_holds s)) (rs_taken s ++ [x]) (rs_popped s))
      end
  | RStore t =>
      match rs_holds s !! t with
      | None => None
      | Some (i, x) =>
          Some (mkRingSys (ring_store i x (rs_ring s)) (delete t (rs_holds s)) (rs_taken s) (rs_popped s))
      end
  | RPop =>
      let '(out, r) := ring_try_pop (rs_ring s) in
      Some (mkRingSys r (rs_holds s) (rs_taken s)
              (match out with Some x => rs_popped s ++ [x] | None => rs_popped s end))
  end.

(** Runs a schedule; [bounded] says that no ticket ran a round ahead. *)
Fixpoint ring_run (ops : list ring_op) (s : ring_sys) : option ring_sys :=
  match ops with
  | [] => Some s
  | o :: ops' => match ring_step o s with Some s' => ring_run ops' s' | None => None end
  end.

Definition ring_room (o : ring_op) (s : ring_sys) : bool :=
  match o with
  | RTicket _ _ => zlen (rs_taken s) - zlen (rs_popped s) <? m_size (rs_ring s)
  | _ => true
  end.

Fixpoint bounded (ops : list ring_op) (s : ring_sys) : bool :=
  match ops with
  | [] => true
  | o :: ops' =>
      ring_room o s && match ring_step o s with Some s' => bounded ops' s' | None => true end
  end.

Definition ring_start (size : Z) (default_line : A) : ring_sys :=
  mkRingSys (RingBuffer_make size default_line) ∅ [] [].

(** ** The invariant *)

(** Ticket [k] has been drawn and its line not yet popped. *)
Definition unread (s : ring_sys) (k : Z) : Prop := zlen (rs_popped s) ≤ k < zlen (rs_taken s).

Definition slot (n k : Z) : nat := Z.to_nat (k mod n).

Record ring_inv (n : Z) (s : ring_sys) : Prop := {
  ri_size : m_size (rs_ring s) = n;
  ri_write : m_write_index (rs_ring s) = u32 (zlen (rs_taken s));
  ri_read : m_read_index (rs_ring s) = u32 (zlen (rs_popped s));
  ri_order : zlen (rs_popped s) ≤ zlen (rs_taken s) ≤ zlen (rs_popped s) + n;
  ri_popped : rs_popped s = ztake (zlen (rs_popped s)) (rs_taken s);
  ri_holds : ∀ t i x, rs_holds s !! t = Some (i, x) →
    ∃ k, unread s k ∧ i = k mod n ∧ rs_taken s !! Z.to_nat k = Some x ∧
      ∃ y, m_ring (rs_ring s) !! Z.to_nat i = Some (false, y);
  ri_holders : ∀ t1 t2 i x1 x2,
    rs_holds s !! t1 = Some (i, x1) → rs_holds s !! t2 = Some (i, x2) → t1 = t2;
  ri_unread : ∀ k x, unread s k → rs_taken s !! Z.to_nat k = Some x →
    m_ring (rs_ring s) !! slot n k = Some (true, x) ∨ ∃ t, rs_holds s !! t = Some (k mod n, x);
  ri_written : ∀ i x, m_ring (rs_ring s) !! i = Some (true, x) → ∃ k, unread s k ∧ i = slot n k
}.

Lemma slot_inj n k1 k2 : 0 < n → - n < k1 - k2 < n → k1 mod n = k2 mod n → k1 = k2.
Proof.
  intros Hn Hk E. pose proof (Z.div_mod k1 n). pose proof (Z.div_mod k2 n).
  assert (Hq : k1 - k2 = n * (k1 / n - k2 / n)) by lia.
  assert (k1 / n - k2 / n = 0) by nia. lia.
Qed.

Lemma slot_u32 n k : 0 < n → (n | 2 ^ 32) → u32 k mod n = k mod n.
Proof. intros Hn Hd. unfold u32. by apply Z.mod_mod_divide. Qed.

Lemma slot_lt {B} (l : list B) n k : 0 < n → zlen l = n → (slot n k < length l)%nat.
Proof. intros Hn <-. unfold slot, zlen in *. pose proof (Z.mod_pos_bound k (Z.of_nat (length l)) ltac:(lia)). lia. Qed.

Lemma u32_succ z : u32 (u32 z + 1) = u32 (z + 1).
Proof. unfold u32. by rewrite Zplus_mod_idemp_l. Qed.

Lemma ring_start_inv n d : 0 < n → ring_inv n (ring_start n d).
Proof.
  intros Hn. unfold ring_start, RingBuffer_make.
  constructor; cbn [rs_ring rs_taken rs_popped rs_holds m_ring m_write_index m_read_index]; try done.
  - unfold m_size. cbn [m_ring]. apply zlen_replicate. lia.
  - change (zlen []) with 0. lia.
  - intros i x H0. unfold zreplicate in H0. apply lookup_replicate in H0. by destruct H0.
Qed.

Section Steps.
Context (n : Z) (Hn : 0 < n) (Hd : (n | 2 ^ 32)).

Lemma lookup_app_taken (l : list A) x k y :
  0 ≤ k < zlen l → (l ++ [x]) !! Z.to_nat k = Some y → l !! Z.to_nat k = Some y.
Proof. intros Hk. rewrite lookup_app_l; [done|]. unfold zlen in Hk. lia. Qed.

Lemma ticket_inv t x s s' :
  ring_inv n s → ring_room (RTicket t x) s = true → ring_step (RTicket t x) s = Some s' → ring_inv n s'.
Proof.
  intros [Hsz Hw Hr Ho Hp Hh Hhs Hu Hwr] Hroom E.
  unfold ring_step in E. destruct (rs_holds s !! t) eqn:Et; [done|].
  unfold ring_room in Hroom. apply Z.ltb_lt in Hroom. rewrite Hsz in Hroom.
  unfold ring_ticket in E. injection E as <-. rewrite Hsz, Hw, (slot_u32 n) by done.
  set (hi := zlen (rs_taken s)) in *. set (lo := zlen (rs_popped s)) in *.
  assert (Hlen : zlen (rs_taken s ++ [x]) = hi + 1) by (rewrite zlen_app; by change (zlen [x]) with 1).
  assert (Hfresh : ∀ k, unread s k → k mod n ≠ hi mod n).
  { intros k Hk Ek. unfold unread in Hk. fold lo hi in Hk.
    enough (k = hi) by lia. by apply (slot_inj n); [done|lia|]. }
  assert (Hfree : ∃ y, m_ring (rs_ring s) !! slot n hi = Some (false, y)).
  { destruct (m_ring (rs_ring s) !! slot n hi) as [[[] y]|] eqn:E; [|by exists y|].
    - apply Hwr in E as (k & Hk & Ek). unfold slot in Ek. exfalso. apply (Hfresh k Hk).
      pose proof (Z.mod_pos_bound k n Hn). pose proof (Z.mod_pos_bound hi n Hn). lia.
    - apply lookup_ge_None_1 in E. pose proof (slot_lt (m_ring (rs_ring s)) n hi Hn Hsz). lia. }
  unfold unread in Hh, Hu, Hwr, Hfresh. fold lo hi in Hh, Hu, Hwr, Hfresh.
  constructor; unfold unread; cbn [rs_ring rs_taken rs_popped rs_holds m_ring m_write_index m_read_index];
    rewrite ?Hlen; fold lo hi; try done.
  - by rewrite u32_succ.
  - lia.
  - rewrite Hp at 1. fold lo. symmetry. apply ztake_app_le. fold hi. lia.
  - intros t' i y [[<- [= <- <-]]|[Hne Ht]]%lookup_insert_Some.
    + exists hi. split_and!; [lia|lia|done| |exact Hfree].
      unfold hi, zlen. rewrite Nat2Z.id. by apply list_lookup_middle.
    + destruct (Hh _ _ _ Ht) as (k & Hk & -> & Hx & Hy). exists k. split_and!; [lia|lia|done| |done].
      rewrite lookup_app_l; [done|]. apply lookup_lt_Some in Hx. done.
  - intros t1 t2 i x1 x2 [[<- [= <- <-]]|[Hne1 H1]]%lookup_insert_Some
      [[<- Ex]|[Hne2 H2]]%lookup_insert_Some; [done| | |by eapply Hhs].
    + destruct (Hh _ _ _ H2) as (k & Hk & Ek & _). by destruct (Hfresh k Hk).
    + injection Ex as <- <-. destruct (Hh _ _ _ H1) as (k & Hk & Ek & _). by destruct (Hfresh k Hk).
  - intros k y Hk Hx. destruct (decide (k = hi)) as [->|Hne].
    + right. exists t. rewrite lookup_insert_eq. unfold hi, zlen in Hx. rewrite Nat2Z.id in Hx.
      rewrite list_lookup_middle in Hx by done. by injection Hx as ->.
    + pose proof (zlen_nonneg (rs_popped s) : 0 ≤ lo). apply lookup_app_taken in Hx; [|fold hi; lia].
      destruct (Hu k y) as [Hs|[t' Ht']]; [lia|done|by left|right].
      exists t'. rewrite lookup_insert_ne; [done|]. intros ->. by rewrite Et in Ht'.
  - intros i y Hi. apply Hwr in Hi as (k & Hk & ->). exists k. split; [|done]. lia.
Qed.

Lemma store_inv t s s' : ring_inv n s → ring_step (RStore t) s = Some s' → ring_inv n s'.
Proof.
  intros [Hsz Hw Hr Ho Hp Hh Hhs Hu Hwr] E.
  unfold ring_step in E. destruct (rs_holds s !! t) as [[i x]|] eqn:Et; [|done]. injection E as <-.
  destruct (Hh t i x Et) as (k & Hk & -> & Hx & y & Hy).
  constructor; unfold unread, ring_store in *; cbn [rs_ring rs_taken rs_popped rs_holds m_ring m_write_index m_read_index];
    try done.
  - unfold m_size, zlen in *. cbn [m_ring]. by rewrite length_insert.
  - intros t' i' x' [Hne Ht]%lookup_delete_Some. destruct (Hh _ _ _ Ht) as (k' & Hk' & -> & Hx' & y' & Hy').
    exists k'. split_and!; [lia|lia|done|done|]. exists y'. rewrite list_lookup_insert_ne; [done|].
    intros Ei. apply Hne. apply (Hhs t t' (k mod n) x x'); [done|].
    pose proof (Z.mod_pos_bound k n Hn). pose proof (Z.mod_pos_bound k' n Hn). by replace (k mod n) with (k' mod n) by lia.
  - intros t1 t2 i x1 x2 [_ H1]%lookup_delete_Some [_ H2]%lookup_delete_Some. by eapply Hhs.
  - intros k' x' Hk' Hx'. destruct (decide (k' = k)) as [->|Hne].
    + left. assert (x' = x) as -> by congruence. unfold slot.
      by rewrite list_lookup_insert_eq by (by eapply lookup_lt_Some).
    + assert (Hs : slot n k' ≠ slot n k).
      { unfold slot. pose proof (Z.mod_pos_bound k n Hn). pose proof (Z.mod_pos_bound k' n Hn). intros Es.
        apply Hne, (slot_inj n); [done|lia|lia]. }
      destruct (Hu k' x' Hk' Hx') as [Hl|[t' Ht']].
      * left. by rewrite list_lookup_insert_ne.
      * right. exists t'. rewrite lookup_delete_ne; [done|]. intros <-.
        rewrite Et in Ht'. injection Ht' as Ei _. apply Hs. unfold slot. by rewrite Ei.
  - intros i' x' Hi'. apply list_lookup_insert_Some in Hi' as [(<- & _ & _)|(_ & Hi')]; [by exists k|by apply (Hwr i' x')].
Qed.

Lemma pop_inv s s' : ring_inv n s → ring_step RPop s = Some s' → ring_inv n s'.
Proof.
  intros Hi E. unfold ring_step, ring_try_pop in E. pose proof Hi as [Hsz Hw Hr Ho Hp Hh Hhs Hu Hwr].
  rewrite Hsz, Hr, (slot_u32 n) in E by done. set (lo := zlen (rs_popped s)) in *. fold (slot n lo) in E.
  destruct (m_ring (rs_ring s) !! slot n lo) as [[[] x]|] eqn:Es;
    [|by injection E as <-; destruct s|by injection E as <-; destruct s].
  injection E as <-. destruct (Hwr _ _ Es) as (k & Hk & Ek). unfold unread in Hk. fold lo in Hk.
  assert (Hlt : lo < zlen (rs_taken s)) by lia. clear k Hk Ek.
  pose proof (zlen_nonneg (rs_popped s) : 0 ≤ lo) as Hlo.
  destruct (lookup_lt_is_Some_2 (rs_taken s) (Z.to_nat lo)) as [x' Hx']; [unfold zlen in Hlt; lia|].
  assert (x' = x) as ->.
  { destruct (Hu lo x') as [H|[t Ht]]; [unfold unread; fold lo; lia|done|congruence|].
    destruct (Hh _ _ _ Ht) as (k & _ & _ & _ & y & Hy). fold (slot n lo) in Hy. congruence. }
  assert (Hlen : zlen (rs_popped s ++ [x]) = lo + 1) by (rewrite zlen_app; by change (zlen [x]) with 1).
  unfold unread in Hh, Hu, Hwr. fold lo in Hh, Hu, Hwr.
  constructor; unfold unread; cbn [rs_ring rs_taken rs_popped rs_holds m_ring m_write_index m_read_index];
    rewrite ?Hlen; fold lo; try done.
  - unfold m_size, zlen in *. cbn [m_ring]. by rewrite length_insert.
  - by rewrite u32_succ.
  - lia.
  - rewrite Hp. unfold ztake. rewrite <- (take_S_r _ _ _ Hx'). f_equal. lia.
  - intros t i y Ht. destruct (Hh _ _ _ Ht) as (k & Hk & -> & Hy & z & Hz). exists k.
    assert (slot n k ≠ slot n lo) by (unfold slot at 1; intros Ek; congruence).
    split_and!; [|lia|done|done|].
    + destruct (decide (k = lo)) as [->|]; [done|lia].
    + exists z. by rewrite list_lookup_insert_ne.
  - intros k y Hk Hy. assert (slot n k ≠ slot n lo).
    { unfold slot. pose proof (Z.mod_pos_bound k n Hn). pose proof (Z.mod_pos_bound lo n Hn). intros Ek.
      assert (k = lo); [|lia]. apply (slot_inj n); lia. }
    destruct (Hu k y) as [H0|H0]; [lia|done| |by right]. left. by rewrite list_lookup_insert_ne.
  - intros i y H0. apply list_lookup_insert_Some in H0 as [(_ & [=] & _)|(Hne & H0)].
    destruct (Hwr _ _ H0) as (k & Hk & ->). exists k. split; [|done].
    destruct (decide (k = lo)) as [->|]; [done|lia].
Qed.

Lemma ring_run_inv ops s s' :
  ring_inv n s → bounded ops s = true → ring_run ops s = Some s' → ring_inv n s'.
Proof.
  revert s. induction ops as [|o ops IH]; intros s Hi Hb E; [by injection E as <-|].
  cbn [bounded ring_run] in *. apply andb_true_iff in Hb as [Hb1 Hb2].
  destruct (ring_step o s) as [s1|] eqn:Eo; [|done].
  apply (IH s1); [|done|done]. destruct o.
  - by eapply ticket_inv.
  - by eapply store_inv.
  - by eapply pop_inv.
Qed.

(** With nobody between ticket and store, the next line is there. *)
Lemma pop_ready s x :
  ring_inv n s → rs_holds s = ∅ → rs_taken s !! length (rs_popped s) = Some x →
  (ring_try_pop (rs_ring s)).1 = Some x.
Proof.
  intros [Hsz Hw Hr Ho Hp Hh Hhs Hu Hwr] He Hx. unfold ring_try_pop.
  rewrite Hsz, Hr, (slot_u32 n) by done. pose proof (lookup_lt_Some _ _ _ Hx).
  destruct (Hu (zlen (rs_popped s)) x) as [H0|[t Ht]].
  - unfold unread, zlen. lia.
  - unfold zlen. by rewrite Nat2Z.id.
  - fold (slot n (zlen (rs_popped s))). by rewrite H0.
  - by rewrite He in Ht.
Qed.

(** With nobody between ticket and store, popping finds the next line, or
    nothing when all are popped. *)
Lemma pop_next s :
  ring_inv n s → rs_holds s = ∅ →
  (ring_try_pop (rs_ring s)).1 = rs_taken s !! length (rs_popped s).
Proof.
  intros Hi He. destruct (rs_taken s !! length (rs_popped s)) as [x|] eqn:Ex; [by apply pop_ready|].
  apply lookup_ge_None_1 in Ex. unfold ring_try_pop.
  destruct (m_ring (rs_ring s) !! _) as [[[] y]|] eqn:E; [|done..].
  destruct (ri_written n s Hi _ _ E) as (k & Hk & _). unfold unread, zlen in Hk. lia.
Qed.

End Steps.

(** ** Overruns *)

Lemma push_all_at xs pre rest w rd :
  Z.of_nat (length xs) ≤ zlen rest → w mod zlen (pre ++ rest) = zlen pre →
  0 ≤ w → w + zlen xs < 2 ^ 32 →
  ring_push_all xs (mkRing (pre ++ rest) w rd) =
    mkRing (pre ++ map (pair true) xs ++ drop (length xs) rest) (w + zlen xs) rd.
Proof.
  revert pre rest w. induction xs as [|x xs IH]; intros pre rest w Hl Hm H0 Hw.
  - cbn [ring_push_all foldl map app length drop]. f_equal. change (zlen (@nil A)) with 0. lia.
  - cbn [length] in Hl. destruct rest as [|y rest]; [change (zlen (@nil (bool * A))) with 0 in Hl; lia|].
    rewrite zlen_cons in Hw. pose proof (zlen_nonneg xs). rewrite zlen_cons in Hl.
    cbn [ring_push_all foldl]. unfold ring_push at 2, ring_ticket, ring_store, m_size.
    cbn [m_ring m_write_index m_read_index]. rewrite Hm. unfold zlen at 1. rewrite Nat2Z.id.
    rewrite insert_here. rewrite u32_small by (unfold in_u; lia).
    destruct (decide (zlen rest = 0)) as [Hr|Hr].
    + destruct rest; [|zl]. destruct xs as [|? xs]; [|cbn in Hl; change (zlen (@nil (bool * A))) with 0 in Hl; lia].
      done.
    + change (foldl (λ r x0, ring_push x0 r)) with (λ r l, ring_push_all l r). cbn beta.
      rewrite (app_assoc pre [(true, x)] rest : pre ++ (true, x) :: rest = (pre ++ [(true, x)]) ++ rest).
      rewrite IH.
      * rewrite <- !app_assoc. cbn [map length drop app]. f_equal. rewrite zlen_cons. lia.
      * lia.
      * rewrite !zlen_app in *. rewrite zlen_cons in *. change (zlen (@nil (bool * A))) with 0.
        replace (zlen pre + (1 + 0) + zlen rest) with (zlen pre + (1 + zlen rest)) by lia.
        pose proof (zlen_nonneg pre). pose proof (zlen_nonneg rest).
        rewrite <- Zplus_mod_idemp_l, Hm. apply Z.mod_small. lia.
      * lia.
      * lia.
Qed.

Lemma pop_all_at xs pre rest w rd :
  rd = zlen pre → zlen pre + zlen xs + zlen rest < 2 ^ 32 →
  ring_pop_all (length xs) (mkRing (pre ++ map (pair true) xs ++ rest) w rd) = xs.
Proof.
  revert pre rd. induction xs as [|x xs IH]; intros pre rd -> Hb; [done|].
  cbn [length ring_pop_all]. unfold ring_try_pop, m_size. cbn [m_ring m_read_index m_write_index].
  rewrite zlen_cons in Hb. pose proof (zlen_nonneg pre). pose proof (zlen_nonneg xs). pose proof (zlen_nonneg rest).
  rewrite Z.mod_small.
  - cbn [map app]. unfold zlen at 1. rewrite Nat2Z.id, list_lookup_middle by done.
    unfold zlen at 1. rewrite Nat2Z.id, insert_here. f_equal.
    replace (pre ++ (false, x) :: map (pair true) xs ++ rest)
      with ((pre ++ [(false, x)]) ++ map (pair true) xs ++ rest) by (by rewrite <- app_assoc).
    apply IH; rewrite ?zlen_app; change (zlen [(false, x)]) with 1; [apply u32_small; unfold in_u|]; lia.
  - rewrite zlen_app. cbn [map app]. rewrite zlen_cons, zlen_app.
    pose proof (zlen_nonneg (map (pair true) xs)). lia.
Qed.

End Ring.
Arguments RTicket {A} t x.
Arguments RStore {A} t.
Arguments RPop {A}.

(** The ring buffer is a FIFO as long as producers stay within one round.
    For every interleaving of any number of producers (each between its ticket
    and its store for as long as it likes) and the consumer in which no ticket
    is drawn while a whole round of lines is unread, the lines popped are the
    first lines in the order of the tickets, none lost or repeated, across the
    wrap-around of both 32-bit indices; and when no producer is in the middle
    of a push, popping finds exactly the next line. *)
Theorem ring_fifo {A} n (d : A) ops s :
  0 < n → (n | 2 ^ 32) → bounded ops (ring_start n d) = true → ring_run ops (ring_start n d) = Some s →
  rs_popped s = ztake (zlen (rs_popped s)) (rs_taken s) ∧
  (rs_holds s = ∅ → (ring_try_pop (rs_ring s)).1 = rs_taken s !! length (rs_popped s)).
Proof.
  intros Hn Hd Hb E. pose proof (ring_run_inv n Hn Hd ops _ s (ring_start_inv n d Hn) Hb E) as Hi.
  split; [by eapply ri_popped|by apply (pop_next n)].
Qed.

(** Two producers overtake each other between ticket and store. *)
Lemma ring_fifo_witness :
  let ops := [RTicket 0 10; RTicket 1 11; RStore 1; RPop; RStore 0; RPop; RTicket 0 12; RStore 0] in
  let s := default (ring_start 2 0) (ring_run ops (ring_start 2 0)) in
  rs_popped s = [10] ∧ rs_popped s = ztake (zlen (rs_popped s)) (rs_taken s) ∧
  (rs_holds s = ∅ → (ring_try_pop (rs_ring s)).1 = rs_taken s !! length (rs_popped s)).
Proof.
  intros ops s. split; [by vm_compute|].
  apply (ring_fifo 2 0 ops); [done|by exists (2 ^ 31)|by vm_compute|by vm_compute].
Defined.

(** An overrun loses the oldest lines and changes the order.  When [ys]
    (at most a round) follow a full round [xs] that nobody has popped, exactly
    the first [length ys] lines of [xs] are lost, and popping yields the new
    lines [ys] before what is left of the older [xs]. *)
Theorem ring_overrun {A} (d : A) xs ys :
  xs ≠ [] → (length ys ≤ length xs)%nat → zlen xs < 2 ^ 31 →
  ring_pop_all (length xs) (ring_push_all (xs ++ ys) (RingBuffer_make (zlen xs) d)) =
    ys ++ drop (length ys) xs.
Proof.
  intros Hne Hl Hb. unfold ring_push_all. rewrite foldl_app. fold (ring_push_all xs (RingBuffer_make (zlen xs) d)).
  assert (Hpos : 0 < zlen xs) by (destruct xs; [done|zl]).
  assert (Hz : zlen (zreplicate (zlen xs) (false, d)) = zlen xs) by (apply zlen_replicate; lia).
  assert (Hm : zlen (map (pair true) xs) = zlen xs) by (unfold zlen; by rewrite length_map).
  pose proof (push_all_at xs [] (zreplicate (zlen xs) (false, d)) 0 0) as Hx.
  pose proof (push_all_at ys [] (map (pair true) xs) (0 + zlen xs) 0) as Hy.
  cbn [app] in Hx, Hy. unfold RingBuffer_make.
  rewrite Hx; [|rewrite Hz; unfold zlen; lia|done|lia|lia].
  rewrite drop_ge by (unfold zreplicate, zlen; rewrite length_replicate; lia). rewrite app_nil_r.
  fold (ring_push_all ys (mkRing (map (pair true) xs) (0 + zlen xs) 0)).
  rewrite Hy; [|rewrite Hm; unfold zlen; lia|rewrite Hm; apply Z.mod_same; lia|lia|unfold zlen in *; lia].
  cbn [app]. rewrite List.skipn_map, <- map_app.
  rewrite <- (app_nil_r (map _ (ys ++ _))).
  replace (length xs) with (length (ys ++ drop (length ys) xs)) at 1 by (rewrite length_app, length_drop; lia).
  apply (pop_all_at _ []); [done|]. change (zlen (@nil (bool * A))) with 0.
  unfold zlen in *. rewrite length_app, length_drop. lia.
Qed.

Lemma ring_overrun_witness :
  ring_pop_all 3 (ring_push_all [1; 2; 3; 4] (RingBuffer_make 3 0)) = [4; 2; 3].
Proof. apply (ring_overrun 0 [1; 2; 3] [4]); [done|simpl; lia|done]. Defined.
