(* ===== verification/QueueBuffer.v ===== *)
(** * The guaranteed log buffer (util/nanolog.hpp: Buffer, QueueBuffer)

    Producers draw tickets of the current buffer, store their lines and count
    them; the one that counts the last line of a buffer installs the next.  The
    consumer reads the buffers in turn and destroys each one it has read.
    [producer_step] and the consumer's steps are the accesses to shared state,
    in the order of the source; a schedule interleaves them.  Results: no line
    is lost, repeated or out of the order of the tickets, pushing and popping
    are always possible when nobody is in the middle of a push; the only fault
    is that the consumer can destroy a buffer a producer has yet to count in. *)

From Stdlib Require Import ZArith Lia.
From stdpp Require Import base list numbers gmap sets.
From S2P Require Import Prelude.

Section QueueBuffer.
Context {A : Type} (size : nat).   (** [Buffer::size] *)

(** [m_buffer] with [m_write_state[i]]: a line where the state is 1; and
    [m_write_state[size]]. *)
Record Buffer := mkBuffer { b_items : list (option A); b_count : Z }.

Definition Buffer_make : Buffer := mkBuffer (replicate size None) 0.

(** Where a thread is inside [push]. *)
Inductive producer :=
  | PPush (x : A)                       (** at the beginning *)
  | PWait (x : A)                       (** waits for the next buffer *)
  | PTicket (i : nat) (x : A)           (** has drawn slot [i] *)
  | PStore (b i : nat) (x : A)          (** has loaded [m_current_write_buffer] *)
  | PCount (b i : nat)                  (** has stored its line *)
  | PSetup                              (** has counted the last line *)
  | PLock (b : nat)                     (** has published buffer [b] *)
  | PLocked (b : nat)                   (** holds [m_flag] *)
  | PReset                              (** has queued the buffer *)
  | PUnlock.                            (** has reset [m_write_index] *)

(** The shared state, the live buffers by address, the threads inside [push];
    the lines in the order of their tickets and the lines popped. *)
Record QueueBuffer := mkQB {
  q_heap : gmap nat Buffer;
  q_next : nat;
  m_buffers : list nat;
  m_current_write_buffer : nat;
  m_current_read_buffer : option nat;
  m_write_index : Z;
  m_read_index : nat;
  m_flag : bool;
  q_dropping : bool;      (** the consumer is about to pop [m_buffers] *)
  q_producers : gmap nat producer;
  q_taken : list A;
  q_popped : list A
}.

(** The constructor, after its [setup_next_write_buffer]. *)
Definition QueueBuffer_make : QueueBuffer :=
  mkQB {[ 0%nat := Buffer_make ]} 1 [0%nat] 0 None 0 0 false false ∅ [] [].

Definition set_producers ps s :=
  mkQB (q_heap s) (q_next s) (m_buffers s) (m_current_write_buffer s) (m_current_read_buffer s)
    (m_write_index s) (m_read_index s) (m_flag s) (q_dropping s) ps (q_taken s) (q_popped s).
Definition set_heap h s :=
  mkQB h (q_next s) (m_buffers s) (m_current_write_buffer s) (m_current_read_buffer s)
    (m_write_index s) (m_read_index s) (m_flag s) (q_dropping s) (q_producers s) (q_taken s) (q_popped s).
Definition set_index i taken s :=
  mkQB (q_heap s) (q_next s) (m_buffers s) (m_current_write_buffer s) (m_current_read_buffer s)
    i (m_read_index s) (m_flag s) (q_dropping s) (q_producers s) taken (q_popped s).
Definition set_flag f s :=
  mkQB (q_heap s) (q_next s) (m_buffers s) (m_current_write_buffer s) (m_current_read_buffer s)
    (m_write_index s) (m_read_index s) f (q_dropping s) (q_producers s) (q_taken s) (q_popped s).
Definition set_buffers bs s :=
  mkQB (q_heap s) (q_next s) bs (m_current_write_buffer s) (m_current_read_buffer s)
    (m_write_index s) (m_read_index s) (m_flag s) (q_dropping s) (q_producers s) (q_taken s) (q_popped s).
(** [new Buffer()] and the store to [m_current_write_buffer]. *)
Definition new_write_buffer s :=
  mkQB (<[q_next s := Buffer_make]> (q_heap s)) (S (q_next s)) (m_buffers s) (q_next s) (m_current_read_buffer s)
    (m_write_index s) (m_read_index s) (m_flag s) (q_dropping s) (q_producers s) (q_taken s) (q_popped s).
Definition set_read cur i dropping popped s :=
  mkQB (q_heap s) (q_next s) (m_buffers s) (m_current_write_buffer s) cur
    (m_write_index s) i (m_flag s) dropping (q_producers s) (q_taken s) popped.

(** One access of a thread inside [QueueBuffer::push]: [None] when it has to
    wait, otherwise where it is next ([None]: it has returned) and the state.
    The [PStore] and [PCount] steps are [Buffer::push]; [PSetup] to [PUnlock]
    are [setup_next_write_buffer]. *)
Definition producer_step (p : producer) s : option (result (option producer * QueueBuffer)) :=
  match p with
  | PPush x =>
      let i := m_write_index s in
      let next := u32 (i + 1) in
      if i <? Z.of_nat size then
        Some (Ok (Some (PTicket (Z.to_nat i) x), set_index next (q_taken s ++ [x]) s))
      else Some (Ok (Some (PWait x), set_index next (q_taken s) s))
  | PWait x => if m_write_index s >=? Z.of_nat size then None else Some (Ok (Some (PPush x), s))
  | PTicket i x => Some (Ok (Some (PStore (m_current_write_buffer s) i x), s))
  | PStore b i x =>
      match q_heap s !! b with
      | None => Some (Fault UseAfterFree)
      | Some buf =>
          Some (Ok (Some (PCount b i),
                    set_heap (<[b := mkBuffer (<[i := Some x]> (b_items buf)) (b_count buf)]> (q_heap s)) s))
      end
  | PCount b i =>
      match q_heap s !! b with
      | None => Some (Fault UseAfterFree)
      | Some buf =>
          let count := u32 (b_count buf + 1) in
          Some (Ok (if count =? Z.of_nat size then Some PSetup else None,
                    set_heap (<[b := mkBuffer (b_items buf) count]> (q_heap s)) s))
      end
  | PSetup => Some (Ok (Some (PLock (q_next s)), new_write_buffer s))
  | PLock b => if m_flag s then None else Some (Ok (Some (PLocked b), set_flag true s))
  | PLocked b => Some (Ok (Some PReset, set_buffers (m_buffers s ++ [b]) s))
  | PReset => Some (Ok (Some PUnlock, set_index 0 (q_taken s) s))
  | PUnlock => Some (Ok (None, set_flag false s))
  end.

(** The consumer's accesses: [get_next_read_buffer]; [Buffer::try_pop] with the
    update of [m_read_index]; and the [pop] that destroys a read buffer. *)
Definition read_get s : option (result QueueBuffer) :=
  if m_flag s then None
  else Some (Ok (set_read (head (m_buffers s)) (m_read_index s) (q_dropping s) (q_popped s) s)).

Definition read_item (b : nat) s : option (result QueueBuffer) :=
  match q_heap s !! b with
  | None => Some (Fault UseAfterFree)
  | Some buf =>
      match b_items buf !! m_read_index s with
      | Some (Some x) =>
          let i := S (m_read_index s) in
          Some (Ok (if (i =? size)%nat then set_read None 0 true (q_popped s ++ [x]) s
                    else set_read (Some b) i false (q_popped s ++ [x]) s))
      | _ => Some (Ok s)
      end
  end.

Definition read_drop s : option (result QueueBuffer) :=
  if m_flag s then None
  else
    match m_buffers s with
    | [] => Some (Fault NullDeref)
    | b :: rest =>
        Some (Ok (set_heap (delete b (q_heap s))
                    (set_buffers rest (set_read None (m_read_index s) false (q_popped s) s))))
    end.

(** The next access of the consumer, in [try_pop]. *)
Definition reader_step s : option (result QueueBuffer) :=
  if q_dropping s then read_drop s
  else match m_current_read_buffer s with None => read_get s | Some b => read_item b s end.

(** Thread [t] is now at [o], or has returned. *)
Definition place (t : nat) (o : option producer) (ps : gmap nat producer) : gmap nat producer :=
  match o with Some p => <[t := p]> ps | None => delete t ps end.

Inductive qb_op :=
  | QPush (t : nat) (x : A)   (** thread [t] calls [push] *)
  | QStep (t : nat)
  | QRead.

Definition qb_step (o : qb_op) s : option (result QueueBuffer) :=
  match o with
  | QPush t x =>
      match q_producers s !! t with
      | Some _ => None
      | None => Some (Ok (set_producers (place t (Some (PPush x)) (q_producers s)) s))
      end
  | QStep t =>
      match q_producers s !! t with
      | None => None
      | Some p =>
          match producer_step p s with
          | None => None
          | Some (Fault f) => Some (Fault f)
          | Some (Ok (next, s')) =>
              Some (Ok (set_producers (place t next (q_producers s')) s'))
          end
      end
  | QRead => reader_step s
  end.

(** Runs a schedule up to the first fault. *)
Fixpoint qb_run (ops : list qb_op) s : option (result QueueBuffer) :=
  match ops with
  | [] => Some (Ok s)
  | o :: ops' =>
      match qb_step o s with
      | Some (Ok s') => qb_run ops' s'
      | r => r
      end
  end.

(** ** Whole calls, undisturbed *)

Fixpoint finish (fuel t : nat) s : option QueueBuffer :=
  match q_producers s !! t with
  | None => Some s
  | Some _ =>
      match fuel with
      | O => None
      | S fuel' => match qb_step (QStep t) s with Some (Ok s') => finish fuel' t s' | _ => None end
      end
  end.

(** [push] by thread [t]: it has at most nine accesses. *)
Definition qb_push (t : nat) (x : A) s : option QueueBuffer :=
  match qb_step (QPush t x) s with Some (Ok s') => finish 9 t s' | _ => None end.

Definition reader_go s : option QueueBuffer :=
  match reader_step s with Some (Ok s') => Some s' | _ => None end.

Definition qb_try_pop s : option (option A * QueueBuffer) :=
  s1 ← match m_current_read_buffer s with None => reader_go s | Some _ => Some s end;
  match m_current_read_buffer s1 with
  | None => Some (None, s1)
  | Some _ =>
      s2 ← reader_go s1;
      s3 ← (if q_dropping s2 then reader_go s2 else Some s2);
      Some (q_popped s3 !! length (q_popped s), s3)
  end.

(** ** The invariant *)

(** What a thread still owes: a line for its slot, or the count of its slot. *)
Definition pending_of (p : producer) : option (nat * A) :=
  match p with PTicket i x | PStore _ i x => Some (i, x) | _ => None end.
Definition counting_of (p : producer) : option nat :=
  match p with PCount _ i => Some i | _ => None end.
Definition buffer_of (p : producer) : option nat :=
  match p with PStore b _ _ | PCount b _ => Some b | _ => None end.
Definition new_buffer_of (p : producer) : option nat :=
  match p with PLock b | PLocked b => Some b | _ => None end.
Definition holds_flag (p : producer) : bool :=
  match p with PLocked _ | PReset | PUnlock => true | _ => false end.

(** How far the next write buffer is. *)
Inductive phase := Open | Full | Published | Queued.
Definition phase_of (p : producer) : phase :=
  match p with
  | PSetup => Full
  | PLock _ | PLocked _ => Published
  | PReset => Queued
  | _ => Open
  end.
Definition newer (ph : phase) : nat := match ph with Published | Queued => 1 | _ => 0 end.
Definition queued (ph : phase) : nat := match ph with Queued => 1 | _ => 0 end.

(** The slots drawn so far in the current buffer. *)
Definition drawn s : nat := Nat.min (Z.to_nat (m_write_index s)) size.

(** [G] buffers have been filled, [R] destroyed; [stored] and [counted] are the
    slots of buffer [G] that are stored and counted. *)
Record mem_inv (s : QueueBuffer) (G R : nat) (ph : phase) (stored counted : gset nat) : Prop := {
  mi_taken : length (q_taken s) = (G * size + drawn s)%nat;
  mi_write : m_current_write_buffer s = (G + newer ph)%nat;
  mi_next : q_next s = S (G + newer ph);
  mi_buffers : m_buffers s = seq R (G + 1 + queued ph - R);
  mi_destroyed : (R ≤ G + 1)%nat;
  mi_heap : ∀ b, is_Some (q_heap s !! b) ↔ (R ≤ b ≤ G + newer ph)%nat;
  mi_length : ∀ b buf, q_heap s !! b = Some buf → length (b_items buf) = size;
  mi_item : ∀ b buf i x, q_heap s !! b = Some buf → b_items buf !! i = Some (Some x) →
    q_taken s !! (b * size + i)%nat = Some x;
  mi_old : ∀ b buf i, q_heap s !! b = Some buf → (b < G)%nat → (i < size)%nat →
    ∃ x, b_items buf !! i = Some (Some x);
  mi_stored : ∀ buf i, q_heap s !! G = Some buf →
    i ∈ stored ↔ ∃ x, b_items buf !! i = Some (Some x);
  mi_count : ∀ buf, q_heap s !! G = Some buf → b_count buf = Z.of_nat (base.size counted);
  mi_new : ∀ b buf, q_heap s !! b = Some buf → (G < b)%nat → b_count buf = 0;
  mi_drawn : ∀ i, i ∈ stored → (i < drawn s)%nat;
  mi_counted : counted ⊆ stored;
  mi_open : ph = Open ↔ (base.size counted < size)%nat;
  mi_popped : q_popped s = take (length (q_popped s)) (q_taken s);
  mi_read : ∀ i, (i < size)%nat → (G * size + i < length (q_popped s))%nat → i ∈ stored;
  mi_reader :
    if q_dropping s
    then m_current_read_buffer s = None ∧ m_read_index s = 0%nat ∧
      length (q_popped s) = ((R + 1) * size)%nat ∧ (R ≤ G)%nat
    else (m_current_read_buffer s = None ∧ m_read_index s = 0%nat ∧
        length (q_popped s) = (R * size)%nat) ∨
      (m_current_read_buffer s = Some R ∧ (m_read_index s < size)%nat ∧
        length (q_popped s) = (R * size + m_read_index s)%nat ∧ (R < G + 1 + queued ph)%nat)
}.

Definition pending s t : option (nat * A) := (q_producers s !! t) ≫= pending_of.
Definition counting s t : option nat := (q_producers s !! t) ≫= counting_of.
Definition at_phase s t : phase := from_option phase_of Open (q_producers s !! t).

(** The threads inside [push]; those in [W] account for the excess of
    [m_write_index]. *)
Record thr_basic (K : nat) (s : QueueBuffer) (G : nat) (W : gset nat) : Prop := {
  tb_bound : ∀ t, is_Some (q_producers s !! t) → (t < K)%nat;
  tb_index : 0 ≤ m_write_index s ≤ Z.of_nat size + Z.of_nat (base.size W);
  tb_waiting : ∀ t, t ∈ W → ∃ x, q_producers s !! t = Some (PWait x);
  tb_buffer : ∀ t b, (q_producers s !! t) ≫= buffer_of = Some b → b = G;
  tb_new_buffer : ∀ t b, (q_producers s !! t) ≫= new_buffer_of = Some b → b = S G;
  tb_flag : m_flag s = true → ∃ t, holds_flag <$> (q_producers s !! t) = Some true
}.

(** Each drawn slot that is not stored has one thread that will store it, each
    stored slot that is not counted one that will count it. *)
Record thr_slots (s : QueueBuffer) (G : nat) (stored counted : gset nat) : Prop := {
  ts_pending : ∀ t i x, pending s t = Some (i, x) →
    (i < drawn s)%nat ∧ i ∉ stored ∧ q_taken s !! (G * size + i)%nat = Some x;
  ts_pending_one : ∀ t1 t2 i x1 x2, pending s t1 = Some (i, x1) → pending s t2 = Some (i, x2) → t1 = t2;
  ts_pending_all : ∀ i, (i < drawn s)%nat → i ∉ stored → ∃ t x, pending s t = Some (i, x);
  ts_counting : ∀ t i, counting s t = Some i → i ∈ stored ∧ i ∉ counted;
  ts_counting_one : ∀ t1 t2 i, counting s t1 = Some i → counting s t2 = Some i → t1 = t2;
  ts_counting_all : ∀ i, i ∈ stored → i ∉ counted → ∃ t, counting s t = Some i
}.

(** One thread at most installs the next buffer. *)
Record thr_phase (s : QueueBuffer) (ph : phase) : Prop := {
  tp_phase : ∀ t, at_phase s t = Open ∨ at_phase s t = ph;
  tp_one : ∀ t1 t2, at_phase s t1 ≠ Open → at_phase s t2 ≠ Open → t1 = t2;
  tp_some : ph ≠ Open → ∃ t, at_phase s t = ph
}.

Definition qb_inv (K : nat) (s : QueueBuffer) : Prop :=
  ∃ G R ph stored counted W, mem_inv s G R ph stored counted ∧ thr_basic K s G W ∧ thr_slots s G stored counted ∧ thr_phase s ph.

Lemma start_inv K : (0 < size)%nat → qb_inv K QueueBuffer_make.
Proof.
  intros Hs. exists 0%nat, 0%nat, Open, ∅, ∅, ∅.
  assert (Hb : ∀ b buf, ({[0%nat := Buffer_make]} : gmap nat Buffer) !! b = Some buf → b = 0%nat ∧ buf = Buffer_make).
  { intros b buf H0. by apply lookup_singleton_Some in H0 as [<- <-]. }
  assert (Hi : ∀ i x, b_items Buffer_make !! i = Some (Some x) → False).
  { intros i x H0. unfold Buffer_make in H0. cbn [b_items] in H0. apply lookup_replicate in H0. by destruct H0. }
  unfold QueueBuffer_make. split_and!; constructor; cbn; try done; try lia.
  - intros b. rewrite lookup_singleton_is_Some. lia.
  - intros b buf [-> ->]%Hb. apply length_replicate.
  - intros b buf i x [-> ->]%Hb H0. by apply Hi in H0.
  - intros buf i [_ ->]%Hb. split; [by intros ?%elem_of_empty|]. intros [x H0]. by apply Hi in H0.
  - intros buf [_ ->]%Hb. done.
  - intros b buf [_ ->]%Hb. done.
  - by left.
  - intros t Hx. rewrite lookup_empty in Hx. by destruct Hx.
  - unfold drawn. cbn. lia.
  - by left.
Qed.

(** ** Threads *)

Lemma place_lookup t o ps t' : place t o ps !! t' = if decide (t' = t) then o else ps !! t'.
Proof.
  destruct o as [p|]; cbn [place]; case_decide as E; subst.
  - apply lookup_insert_eq.
  - by apply lookup_insert_ne.
  - apply lookup_delete_eq.
  - by apply lookup_delete_ne.
Qed.

Section Place.
Context (s s' : QueueBuffer) (t : nat) (o : option producer).
Context (Eps : q_producers s' = place t o (q_producers s)).

Lemma pending_place t' : pending s' t' = if decide (t' = t) then o ≫= pending_of else pending s t'.
Proof. unfold pending. rewrite Eps, place_lookup. by case_decide. Qed.

Lemma counting_place t' : counting s' t' = if decide (t' = t) then o ≫= counting_of else counting s t'.
Proof. unfold counting. rewrite Eps, place_lookup. by case_decide. Qed.

Lemma phase_place t' :
  at_phase s' t' = if decide (t' = t) then from_option phase_of Open o else at_phase s t'.
Proof. unfold at_phase. rewrite Eps, place_lookup. by case_decide. Qed.

Lemma basic_place K G W W' :
  thr_basic K s G W → (t < K)%nat →
  0 ≤ m_write_index s' ≤ Z.of_nat size + Z.of_nat (base.size W') →
  (∀ t', t' ∈ W' → (t' ∈ W ∧ t' ≠ t) ∨ (t' = t ∧ ∃ x, o = Some (PWait x))) →
  (∀ b, o ≫= buffer_of = Some b → b = G) → (∀ b, o ≫= new_buffer_of = Some b → b = S G) →
  (m_flag s' = true → holds_flag <$> o = Some true ∨
    (m_flag s = true ∧ holds_flag <$> (q_producers s !! t) ≠ Some true)) →
  thr_basic K s' G W'.
Proof.
  intros [] HtK Hi HW Hb Hnb Hf. constructor; try done.
  - intros t' [p Hp']. rewrite Eps, place_lookup in Hp'. case_decide; [by subst|by apply tb_bound0].
  - intros t' Ht'. rewrite Eps, place_lookup.
    destruct (HW t' Ht') as [[Hin Hne]|[-> [x ->]]]; [|rewrite decide_True by done; by exists x].
    rewrite decide_False by done. by apply tb_waiting0.
  - intros t' b. rewrite Eps, place_lookup. case_decide; [apply Hb|apply tb_buffer0].
  - intros t' b. rewrite Eps, place_lookup. case_decide; [apply Hnb|apply tb_new_buffer0].
  - intros Hfl. destruct (Hf Hfl) as [Ho|[Hfs Hno]].
    + exists t. by rewrite Eps, place_lookup, decide_True.
    + destruct (tb_flag0 Hfs) as [t' Hx]. exists t'. rewrite Eps, place_lookup, decide_False; [done|].
      by intros ->.
Qed.

(** Slots and phase of a thread that neither takes a slot nor gives one up. *)
Lemma slots_place G stored counted :
  thr_slots s G stored counted → drawn s' = drawn s → q_taken s' = q_taken s →
  o ≫= pending_of = pending s t → o ≫= counting_of = counting s t → thr_slots s' G stored counted.
Proof.
  intros [] Ed Et Hp Hc.
  assert (Ep : ∀ t', pending s' t' = pending s t') by (intros t'; rewrite pending_place; case_decide; by subst).
  assert (Ec : ∀ t', counting s' t' = counting s t') by (intros t'; rewrite counting_place; case_decide; by subst).
  constructor; rewrite ?Ed, ?Et.
  - intros t'. rewrite Ep. apply ts_pending0.
  - intros t1 t2. rewrite !Ep. apply ts_pending_one0.
  - intros i H1 H2. destruct (ts_pending_all0 i H1 H2) as (t' & x & Hx). exists t', x. by rewrite Ep.
  - intros t' i. rewrite Ec. apply ts_counting0.
  - intros t1 t2. rewrite !Ec. apply ts_counting_one0.
  - intros i H1 H2. destruct (ts_counting_all0 i H1 H2) as [t' Hx]. exists t'. by rewrite Ec.
Qed.

Lemma phase_same ph :
  thr_phase s ph → from_option phase_of Open o = at_phase s t → thr_phase s' ph.
Proof.
  intros [] Hph.
  assert (E : ∀ t', at_phase s' t' = at_phase s t') by (intros t'; rewrite phase_place; case_decide; by subst).
  constructor.
  - intros t'. rewrite E. apply tp_phase0.
  - intros t1 t2. rewrite !E. apply tp_one0.
  - intros Hne. destruct (tp_some0 Hne) as [t' Hx]. exists t'. by rewrite E.
Qed.

(** The thread that installs the next buffer moves on. *)
Lemma phase_move ph ph' :
  thr_phase s ph → ph = Open ∨ at_phase s t = ph → from_option phase_of Open o = ph' → thr_phase s' ph'.
Proof.
  intros [] Hc Ho.
  assert (Hother : ∀ t', t' ≠ t → at_phase s t' = Open).
  { intros t' Hne. destruct (tp_phase0 t') as [|E]; [done|]. destruct Hc as [->|Ht]; [done|].
    destruct (at_phase s t') eqn:E'; [done|..]; destruct Hne; apply tp_one0; congruence. }
  constructor.
  - intros t'. rewrite phase_place. case_decide; [by right|by left; apply Hother].
  - intros t1 t2. rewrite !phase_place. do 2 case_decide; subst; try done; intros H1 H2;
      rewrite ?Hother in * by done; done.
  - intros Hne. exists t. by rewrite phase_place, decide_True.
Qed.

End Place.

Lemma not_waiting K s G W t p :
  thr_basic K s G W → q_producers s !! t = Some p → (∀ x, p ≠ PWait x) →
  ∀ t', t' ∈ W → t' ∈ W ∧ t' ≠ t.
Proof.
  intros [] Ht Hp t' Ht'. split; [done|]. intros ->.
  destruct (tb_waiting0 t Ht') as [x Hx]. rewrite Ht in Hx. injection Hx as ->. by apply (Hp x).
Qed.

(** The shared memory only: the threads do not matter. *)
Lemma mem_ext s s' G R ph stored counted :
  mem_inv s G R ph stored counted →
  q_taken s' = q_taken s → drawn s' = drawn s → m_current_write_buffer s' = m_current_write_buffer s →
  q_next s' = q_next s → m_buffers s' = m_buffers s → q_heap s' = q_heap s → q_popped s' = q_popped s →
  q_dropping s' = q_dropping s → m_current_read_buffer s' = m_current_read_buffer s →
  m_read_index s' = m_read_index s →
  mem_inv s' G R ph stored counted.
Proof.
  intros [] E1 E2 E3 E4 E5 E6 E7 E8 E9 E10.
  constructor; rewrite ?E1, ?E2, ?E3, ?E4, ?E5, ?E6, ?E7, ?E8, ?E9, ?E10; done.
Qed.

(** ** One step keeps the invariant *)

Section Steps.
Context (K : nat) (Hsize : (0 < size)%nat) (HK : Z.of_nat size + Z.of_nat K < 2 ^ 32).

Lemma drawn_le s : (drawn s ≤ size)%nat.
Proof. unfold drawn. lia. Qed.

Lemma index_inj g1 g2 i1 i2 :
  (i1 < size)%nat → (i2 < size)%nat → (g1 * size + i1 = g2 * size + i2)%nat → g1 = g2 ∧ i1 = i2.
Proof. intros H1 H2 E. assert (g1 = g2) by nia. subst. lia. Qed.

Lemma index_lt g1 g2 i1 : (g1 * size ≤ g2 * size + i1)%nat → (i1 < size)%nat → (g1 ≤ g2)%nat.
Proof. intros. nia. Qed.

(** The counted slots are all slots, or one is missing. *)
Lemma counted_full s G R ph stored counted i :
  mem_inv s G R ph stored counted → ph ≠ Open → (i < size)%nat → i ∈ counted.
Proof.
  intros [] Hph Hi. assert (Hsub : counted ⊆ set_seq 0 size).
  { intros j Hj. apply mi_counted0, mi_drawn0 in Hj. pose proof (drawn_le s). apply elem_of_set_seq. lia. }
  assert (Hge : (size ≤ base.size counted)%nat).
  { destruct (decide (base.size counted < size)%nat) as [Hlt|]; [|lia]. by apply mi_open0 in Hlt. }
  rewrite (set_subseteq_size_eq counted (set_seq 0 size) Hsub) by (rewrite size_set_seq; lia).
  apply elem_of_set_seq. lia.
Qed.

Lemma open_phase s G R ph stored counted i :
  mem_inv s G R ph stored counted → (i < drawn s)%nat → i ∉ counted → ph = Open.
Proof.
  intros Hm Hi Hn. destruct (decide (base.size counted < size)%nat) as [Hlt|Hge]; [by apply (mi_open _ _ _ _ _ _ Hm)|].
  exfalso. apply Hn. apply (counted_full s G R ph stored counted i Hm).
  - intros Ho. by apply (mi_open _ _ _ _ _ _ Hm) in Ho.
  - pose proof (drawn_le s). lia.
Qed.

Lemma popped_le s G R ph stored counted :
  mem_inv s G R ph stored counted → (length (q_popped s) ≤ length (q_taken s))%nat.
Proof.
  intros Hm. rewrite (mi_popped _ _ _ _ _ _ Hm) at 1. rewrite length_take. lia.
Qed.

Lemma read_at_most s G R ph stored counted :
  mem_inv s G R ph stored counted → (R * size ≤ length (q_popped s))%nat.
Proof. intros []. destruct (q_dropping s); [lia|]. destruct mi_reader0; lia. Qed.

(** A buffer with a slot that is not stored is alive. *)
Lemma buffer_alive s G R ph stored counted i :
  mem_inv s G R ph stored counted → (i < size)%nat → i ∉ stored → is_Some (q_heap s !! G).
Proof.
  intros Hm Hi Hn. apply (mi_heap _ _ _ _ _ _ Hm). pose proof (read_at_most _ _ _ _ _ _ Hm).
  split; [|lia]. apply (index_lt R G i); [|done].
  destruct (decide (G * size + i < length (q_popped s))%nat) as [Hlt|]; [|lia].
  by destruct Hn; apply (mi_read _ _ _ _ _ _ Hm).
Qed.

Lemma waiting_bound s G W : thr_basic K s G W → (base.size W ≤ K)%nat.
Proof.
  intros []. rewrite <- (size_set_seq (C := gset nat) 0 K). apply subseteq_size. intros t Ht.
  destruct (tb_waiting0 t Ht) as [x Hx]. apply elem_of_set_seq. split; [lia|]. cbn. apply tb_bound0. by exists (PWait x).
Qed.

Section Ticket.
Context (s s' : QueueBuffer) (t : nat) (x : A) (G R : nat) (ph : phase) (stored counted W : gset nat).
Context (Hm : mem_inv s G R ph stored counted).
Context (Ed : drawn s' = S (drawn s)) (Et : q_taken s' = q_taken s ++ [x]).

Lemma ticket_old k y : q_taken s !! k = Some y → q_taken s' !! k = Some y.
Proof. intros Hk. rewrite Et, lookup_app_l; [done|by eapply lookup_lt_Some]. Qed.

Lemma ticket_new : q_taken s' !! (G * size + drawn s)%nat = Some x.
Proof. rewrite Et, <- (mi_taken _ _ _ _ _ _ Hm). by apply list_lookup_middle. Qed.

Lemma ticket_mem :
  m_current_write_buffer s' = m_current_write_buffer s → q_next s' = q_next s →
  m_buffers s' = m_buffers s → q_heap s' = q_heap s → q_popped s' = q_popped s →
  q_dropping s' = q_dropping s → m_current_read_buffer s' = m_current_read_buffer s →
  m_read_index s' = m_read_index s → mem_inv s' G R ph stored counted.
Proof.
  intros E3 E4 E5 E6 E7 E8 E9 E10. pose proof (popped_le _ _ _ _ _ _ Hm) as Hpl. destruct Hm.
  constructor; rewrite ?Ed, ?E3, ?E4, ?E5, ?E6, ?E7, ?E8, ?E9, ?E10; try done.
  - rewrite Et, length_app, mi_taken0. cbn. lia.
  - intros b buf i y Hb Hy. apply ticket_old. by eapply mi_item0.
  - intros i Hs. apply mi_drawn0 in Hs. lia.
  - by rewrite Et, take_app_le.
Qed.

Lemma ticket_slots b :
  q_producers s !! t = Some (PPush x) → b = drawn s →
  q_producers s' = place t (Some (PTicket b x)) (q_producers s) →
  thr_slots s G stored counted → thr_slots s' G stored counted.
Proof.
  intros Ht -> Eps [].
  assert (Hns : drawn s ∉ stored) by (intros Hs; apply (mi_drawn _ _ _ _ _ _ Hm) in Hs; lia).
  assert (Hnone : pending s t = None ∧ counting s t = None) by (unfold pending, counting; by rewrite Ht).
  assert (Hlt : ∀ t' i y, pending s t' = Some (i, y) → i ≠ drawn s).
  { intros t' i y Hp. apply ts_pending0 in Hp as (? & _). lia. }
  pose proof (pending_place _ _ _ _ Eps) as Ep. pose proof (counting_place _ _ _ _ Eps) as Ec.
  cbn in Ep, Ec. constructor; rewrite ?Ed.
  - intros t' i y. rewrite Ep. case_decide; [intros [= <- <-]; split_and!; [lia|done|apply ticket_new]|].
    intros Hp. destruct (ts_pending0 _ _ _ Hp) as (? & ? & ?). split_and!; [lia|done|by apply ticket_old].
  - intros t1 t2 i x1 x2. rewrite !Ep. do 2 case_decide; subst; [done| | |by apply ts_pending_one0].
    + intros [= <- <-] Hp. by apply Hlt in Hp.
    + intros Hp [= <- <-]. by apply Hlt in Hp.
  - intros i Hi Hs. destruct (decide (i = drawn s)) as [->|Hne].
    + exists t, x. by rewrite Ep, decide_True.
    + destruct (ts_pending_all0 i) as (t' & y & Hp); [lia|done|]. exists t', y. rewrite Ep, decide_False; [done|].
      intros ->. by destruct Hnone; congruence.
  - intros t' i. rewrite Ec. case_decide; [done|]. apply ts_counting0.
  - intros t1 t2 i. rewrite !Ec. do 2 case_decide; subst; try done. apply ts_counting_one0.
  - intros i H1 H2. destruct (ts_counting_all0 i H1 H2) as [t' Hc]. exists t'. rewrite Ec, decide_False; [done|].
    intros ->. by destruct Hnone; congruence.
Qed.

End Ticket.

(** A buffer changes in place. *)
Section Change.
Context (s s' : QueueBuffer) (G R : nat) (ph : phase) (stored counted : gset nat) (buf buf' : Buffer).
Context (Hm : mem_inv s G R ph stored counted) (Hb : q_heap s !! G = Some buf).
Context (Eh : q_heap s' = <[G := buf']> (q_heap s)).
Context (Es : q_taken s' = q_taken s ∧ drawn s' = drawn s ∧
  m_current_write_buffer s' = m_current_write_buffer s ∧ q_next s' = q_next s ∧ m_buffers s' = m_buffers s ∧
  q_popped s' = q_popped s ∧ q_dropping s' = q_dropping s ∧
  m_current_read_buffer s' = m_current_read_buffer s ∧ m_read_index s' = m_read_index s).

Lemma change_lookup b bf :
  q_heap s' !! b = Some bf → (b = G ∧ bf = buf') ∨ (b ≠ G ∧ q_heap s !! b = Some bf).
Proof. rewrite Eh. intros [[<- <-]|[? ?]]%lookup_insert_Some; [by left|by right]. Qed.

Lemma store_mem i x :
  (i < drawn s)%nat → q_taken s !! (G * size + i)%nat = Some x →
  buf' = mkBuffer (<[i := Some x]> (b_items buf)) (b_count buf) →
  mem_inv s' G R ph ({[i]} ∪ stored) counted.
Proof.
  intros Hi Hx Ebuf. pose proof change_lookup as Hl. rewrite Ebuf in Hl. destruct Es as (E1 & E2 & E3 & E4 & E5 & E6 & E7 & E8 & E9).
  assert (Hlen : length (b_items buf) = size) by (by eapply mi_length).
  pose proof (drawn_le s). destruct Hm.
  constructor; rewrite ?E1, ?E2, ?E3, ?E4, ?E5, ?E6, ?E7, ?E8, ?E9; try done.
  - intros b. rewrite Eh, lookup_insert_is_Some, <- mi_heap0. destruct (decide (b = G)) as [->|]; [|naive_solver].
    split; [by exists buf|by left].
  - intros b bf [[-> ->]|[? ?]]%Hl; [|by eapply mi_length0]. cbn. by rewrite length_insert.
  - intros b bf j y [[-> ->]|[? ?]]%Hl Hy; [|by eapply mi_item0].
    cbn in Hy. apply list_lookup_insert_Some in Hy as [(-> & [= ->] & _)|(_ & Hy)]; [done|by eapply mi_item0].
  - intros b bf j [[-> ->]|[? ?]]%Hl; [lia|by eapply mi_old0].
  - intros bf j [[_ ->]|[? ?]]%Hl; [|done]. cbn.
    rewrite elem_of_union, elem_of_singleton, (mi_stored0 buf j Hb). destruct (decide (j = i)) as [->|Hne].
    + rewrite list_lookup_insert_eq by lia. split; [by exists x|by left].
    + rewrite list_lookup_insert_ne by done. naive_solver.
  - intros bf [[_ ->]|[? ?]]%Hl; [|done]. cbn. by apply mi_count0.
  - intros b bf [[-> ->]|[? ?]]%Hl; [lia|by eapply mi_new0].
  - intros j [->%elem_of_singleton|Hj]%elem_of_union; [done|by apply mi_drawn0].
  - set_solver.
  - intros j Hj Hlt. apply elem_of_union. right. by apply mi_read0.
Qed.

Lemma count_mem i ph' :
  i ∈ stored → i ∉ counted → buf' = mkBuffer (b_items buf) (u32 (b_count buf + 1)) → ph = Open →
  ph' = (if (S (base.size counted) =? size)%nat then Full else Open) →
  mem_inv s' G R ph' stored ({[i]} ∪ counted) ∧
  u32 (b_count buf + 1) = Z.of_nat (S (base.size counted)).
Proof.
  intros Hs Hc Ebuf Eph ->. pose proof change_lookup as Hl. rewrite Ebuf in Hl. destruct Es as (E1 & E2 & E3 & E4 & E5 & E6 & E7 & E8 & E9).
  assert (Hsz : base.size ({[i]} ∪ counted) = S (base.size counted)).
  { rewrite size_union by set_solver. by rewrite size_singleton. }
  assert (Hlt : (base.size counted < size)%nat) by (by apply (mi_open _ _ _ _ _ _ Hm)).
  pose proof Hm as Hm'. rewrite Eph in Hm'.
  assert (Hcount : u32 (b_count buf + 1) = Z.of_nat (S (base.size counted))).
  { rewrite (mi_count _ _ _ _ _ _ Hm buf Hb), u32_small by (unfold in_u; lia). lia. }
  split; [|done]. set (ph' := if (_ =? _)%nat then Full else Open).
  assert (Hph : newer ph' = 0%nat ∧ queued ph' = 0%nat) by (unfold ph'; by destruct (_ =? _)%nat).
  destruct Hph as [Hn Hq]. destruct Hm'. cbn [newer queued] in *.
  constructor; rewrite ?E1, ?E2, ?E3, ?E4, ?E5, ?E6, ?E7, ?E8, ?E9, ?Hn, ?Hq; try done.
  - intros b. rewrite Eh, lookup_insert_is_Some, mi_heap0. destruct (decide (b = G)) as [->|]; [|naive_solver].
    split; [|by left]. intros _. by apply mi_heap0; exists buf.
  - intros b bf [[-> ->]|[? ?]]%Hl; [by apply (mi_length0 G buf)|by eapply mi_length0].
  - intros b bf j y [[-> ->]|[? ?]]%Hl Hy; [by apply (mi_item0 G buf)|by eapply mi_item0].
  - intros b bf j [[-> ->]|[? ?]]%Hl; [lia|by eapply mi_old0].
  - intros bf j [[_ ->]|[? ?]]%Hl; [|done]. exact (mi_stored0 buf j Hb).
  - intros bf [[_ ->]|[? ?]]%Hl; [|done]. cbn. by rewrite Hsz.
  - intros b bf [[-> ->]|[? ?]]%Hl; [lia|by eapply mi_new0].
  - set_solver.
  - rewrite Hsz. unfold ph'. destruct (Nat.eqb_spec (S (base.size counted)) size); split; first [done | lia].
Qed.

End Change.

Section Slots.
Context (s s' : QueueBuffer) (t b i : nat) (G : nat) (stored counted : gset nat).
Context (Hts : thr_slots s G stored counted).
Context (Ed : drawn s' = drawn s) (Et : q_taken s' = q_taken s).

Lemma store_slots x :
  q_producers s !! t = Some (PStore b i x) →
  q_producers s' = place t (Some (PCount b i)) (q_producers s) →
  counted ⊆ stored → thr_slots s' G ({[i]} ∪ stored) counted.
Proof.
  intros Ht Eps Hsub. pose proof (pending_place _ _ _ _ Eps) as Ep. pose proof (counting_place _ _ _ _ Eps) as Ec.
  cbn in Ep, Ec. assert (Hp : pending s t = Some (i, x)) by (unfold pending; by rewrite Ht).
  assert (Hc : counting s t = None) by (unfold counting; by rewrite Ht).
  destruct Hts. destruct (ts_pending0 _ _ _ Hp) as (Hi & Hns & Hx).
  constructor; rewrite ?Ed, ?Et.
  - intros t' j y. rewrite Ep. case_decide as Hne; [done|]. intros Hj. destruct (ts_pending0 _ _ _ Hj) as (? & ? & ?).
    split_and!; [done| |done]. intros [->%elem_of_singleton|]%elem_of_union; [|done]. by destruct Hne; eapply ts_pending_one0.
  - intros t1 t2 j x1 x2. rewrite !Ep. do 2 case_decide; try done. apply ts_pending_one0.
  - intros j Hj Hnj. apply not_elem_of_union in Hnj as [Hne Hnj].
    destruct (ts_pending_all0 j Hj Hnj) as (t' & y & Hy). exists t', y. rewrite Ep, decide_False; [done|].
    intros ->. rewrite Hp in Hy. injection Hy as -> _. set_solver.
  - intros t' j. rewrite Ec. case_decide; [intros [= <-]; set_solver|].
    intros Hj. apply ts_counting0 in Hj. set_solver.
  - intros t1 t2 j. rewrite !Ec. do 2 case_decide; subst; [done| | |by apply ts_counting_one0].
    + intros [= <-] Hj. by apply ts_counting0 in Hj as [? _].
    + intros Hj [= <-]. by apply ts_counting0 in Hj as [? _].
  - intros j [->%elem_of_singleton|Hj]%elem_of_union Hnj.
    + exists t. by rewrite Ec, decide_True.
    + destruct (ts_counting_all0 j Hj Hnj) as [t' Hy]. exists t'. rewrite Ec, decide_False; [done|]. by intros ->; congruence.
Qed.

Lemma count_slots o :
  q_producers s !! t = Some (PCount b i) → q_producers s' = place t o (q_producers s) →
  o ≫= pending_of = None → o ≫= counting_of = None → thr_slots s' G stored ({[i]} ∪ counted).
Proof.
  intros Ht Eps Hop Hoc. pose proof (pending_place _ _ _ _ Eps) as Ep. pose proof (counting_place _ _ _ _ Eps) as Ec.
  rewrite Hop in Ep. rewrite Hoc in Ec. assert (Hp : pending s t = None) by (unfold pending; by rewrite Ht).
  assert (Hc : counting s t = Some i) by (unfold counting; by rewrite Ht).
  destruct Hts. constructor; rewrite ?Ed, ?Et.
  - intros t' j y. rewrite Ep. case_decide; [done|]. apply ts_pending0.
  - intros t1 t2 j x1 x2. rewrite !Ep. do 2 case_decide; try done. apply ts_pending_one0.
  - intros j Hj Hnj. destruct (ts_pending_all0 j Hj Hnj) as (t' & y & Hy). exists t', y. rewrite Ep, decide_False; [done|].
    by intros ->; congruence.
  - intros t' j. rewrite Ec. case_decide as Hne; [done|]. intros Hj. destruct (ts_counting0 _ _ Hj) as [? ?].
    split; [done|]. intros [->%elem_of_singleton|]%elem_of_union; [|done]. by destruct Hne; eapply ts_counting_one0.
  - intros t1 t2 j. rewrite !Ec. do 2 case_decide; try done. apply ts_counting_one0.
  - intros j Hj Hnj. apply not_elem_of_union in Hnj as [Hne Hnj].
    destruct (ts_counting_all0 j Hj Hnj) as [t' Hy]. exists t'. rewrite Ec, decide_False; [done|].
    intros ->. rewrite Hc in Hy. injection Hy as ->. set_solver.
Qed.

End Slots.

(** Installing the next buffer. *)
Lemma setup_mem s G R stored counted ps :
  mem_inv s G R Full stored counted →
  mem_inv (set_producers ps (new_write_buffer s)) G R Published stored counted.
Proof.
  intros []. cbn [newer queued] in *.
  assert (Hl : ∀ b bf, <[q_next s := Buffer_make]> (q_heap s) !! b = Some bf →
    (b = S G ∧ bf = Buffer_make) ∨ (b ≠ S G ∧ q_heap s !! b = Some bf)).
  { rewrite mi_next0, Nat.add_0_r. intros b bf [[<- <-]|[? ?]]%lookup_insert_Some; [by left|by right]. }
  constructor; cbn [set_producers new_write_buffer q_heap q_next m_buffers m_current_write_buffer
    m_current_read_buffer m_read_index q_dropping q_taken q_popped newer queued]; try done.
  - lia.
  - lia.
  - intros b. rewrite lookup_insert_is_Some, mi_heap0, mi_next0. lia.
  - intros b bf [[-> ->]|[? ?]]%Hl; [apply length_replicate|by eapply mi_length0].
  - intros b bf i y [[-> ->]|[? ?]]%Hl Hy; [|by eapply mi_item0].
    cbn in Hy. apply lookup_replicate in Hy. by destruct Hy.
  - intros b bf i [[-> ->]|[? ?]]%Hl; [lia|by eapply mi_old0].
  - intros bf i [[? ?]|[? ?]]%Hl; [lia|by apply mi_stored0].
  - intros bf [[? ?]|[? ?]]%Hl; [lia|by apply mi_count0].
  - intros b bf [[-> ->]|[? ?]]%Hl; [done|by eapply mi_new0].
  - split; [done|]. intros Ho. by apply mi_open0 in Ho.
Qed.

Lemma queue_mem s G R stored counted ps :
  mem_inv s G R Published stored counted →
  mem_inv (set_producers ps (set_buffers (m_buffers s ++ [S G]) s)) G R Queued stored counted.
Proof.
  intros []. cbn [newer queued] in *. constructor; try done.
  - cbn [set_producers set_buffers m_buffers queued]. rewrite mi_buffers0.
    replace (G + 1 + 1 - R)%nat with (S (G + 1 + 0 - R)) by lia. rewrite seq_S. repeat f_equal. lia.
  - split; [done|]. intros Ho. by apply mi_open0 in Ho.
  - cbn [set_producers set_buffers q_dropping m_current_read_buffer m_read_index q_popped queued].
    destruct (q_dropping s); [done|]. destruct mi_reader0 as [|(? & ? & ? & ?)]; [by left|right]. split_and!; try done. lia.
Qed.

(** With every slot stored, the taken lines fill the buffers up to [G]. *)
Lemma full_stored s G R ph stored counted i :
  mem_inv s G R ph stored counted → ph ≠ Open → (i < size)%nat → i ∈ stored.
Proof.
  intros Hm Hph Hi. apply (mi_counted _ _ _ _ _ _ Hm). by eapply counted_full.
Qed.

Lemma full_drawn s G R ph stored counted :
  mem_inv s G R ph stored counted → ph ≠ Open → drawn s = size.
Proof.
  intros Hm Hph. pose proof (drawn_le s). assert (Hin : (size - 1)%nat ∈ stored) by (eapply full_stored; [done|done|lia]).
  apply (mi_drawn _ _ _ _ _ _ Hm) in Hin. lia.
Qed.

Lemma reset_mem s G R stored counted ps :
  mem_inv s G R Queued stored counted →
  mem_inv (set_producers ps (set_index 0 (q_taken s) s)) (S G) R Open ∅ ∅.
Proof.
  intros Hm. pose proof (full_drawn _ _ _ _ _ _ Hm ltac:(done)) as Hd.
  assert (Hst : ∀ i, (i < size)%nat → i ∈ stored) by (intros i; by apply (full_stored _ _ _ _ _ _ _ Hm)).
  pose proof (popped_le _ _ _ _ _ _ Hm) as Hpl. destruct Hm. cbn [newer queued] in *.
  assert (Htk : length (q_taken s) = (S G * size)%nat) by lia.
  constructor; cbn [set_producers set_index q_heap q_next m_buffers m_current_write_buffer
    m_current_read_buffer m_read_index q_dropping q_taken q_popped newer queued]; try done.
  - rewrite Htk. unfold drawn. cbn. lia.
  - lia.
  - lia.
  - rewrite mi_buffers0. f_equal. lia.
  - lia.
  - intros b. rewrite mi_heap0. lia.
  - intros b bf i Hb Hlt Hi. destruct (decide (b = G)) as [->|]; [|eapply mi_old0; [done|lia|done]].
    by apply (mi_stored0 bf i Hb), Hst.
  - intros bf i Hb. split; [by intros ?%elem_of_empty|]. intros [x Hx].
    pose proof (lookup_lt_Some _ _ _ Hx) as Hi. rewrite (mi_length0 _ _ Hb) in Hi.
    apply (mi_item0 _ _ _ _ Hb) in Hx. apply lookup_lt_Some in Hx. lia.
  - intros bf Hb. rewrite size_empty. apply (mi_new0 _ _ Hb). lia.
  - intros b bf Hb Hlt. assert (Hs : is_Some (q_heap s !! b)) by (by exists bf). apply mi_heap0 in Hs. lia.
  - intros i Hi Hlt. lia.
  - destruct (q_dropping s); [destruct mi_reader0 as (? & ? & ? & ?); split_and!; try done; lia|].
    destruct mi_reader0 as [|(? & ? & ? & ?)]; [by left|right]. split_and!; try done. lia.
Qed.

(** The consumer. *)
Lemma get_mem s G R ph stored counted :
  mem_inv s G R ph stored counted → m_current_read_buffer s = None → q_dropping s = false →
  mem_inv (set_read (head (m_buffers s)) (m_read_index s) (q_dropping s) (q_popped s) s) G R ph stored counted.
Proof.
  intros Hm Hc Hdr. destruct Hm. constructor; try done.
  cbn [set_read q_dropping m_current_read_buffer m_read_index q_popped]. rewrite Hdr in *.
  destruct mi_reader0 as [(_ & Hi & Hp)|(Hc' & _)]; [|congruence]. rewrite mi_buffers0.
  destruct (G + 1 + queued ph - R)%nat as [|n] eqn:En; [by left|right].
  cbn [seq head]. split_and!; [done|lia|lia|lia].
Qed.

Lemma read_mem s G R ph stored counted buf x :
  mem_inv s G R ph stored counted → q_dropping s = false → m_current_read_buffer s = Some R →
  q_heap s !! R = Some buf → b_items buf !! m_read_index s = Some (Some x) →
  mem_inv (if (S (m_read_index s) =? size)%nat then set_read None 0 true (q_popped s ++ [x]) s
           else set_read (Some R) (S (m_read_index s)) false (q_popped s ++ [x]) s) G R ph stored counted.
Proof.
  intros Hm Hdr Hc Hb Hx. set (s' := if (_ =? _)%nat then _ else _).
  assert (E : q_taken s' = q_taken s ∧ drawn s' = drawn s ∧
    m_current_write_buffer s' = m_current_write_buffer s ∧ q_next s' = q_next s ∧ m_buffers s' = m_buffers s ∧
    q_heap s' = q_heap s ∧ q_popped s' = q_popped s ++ [x]) by (unfold s'; by destruct (_ =? _)%nat).
  destruct E as (E1 & E2 & E3 & E4 & E5 & E6 & E7).
  pose proof (drawn_le s) as Hd. destruct Hm. rewrite Hdr in mi_reader0.
  destruct mi_reader0 as [(Hc' & _)|(_ & Hi & Hp & HR)]; [congruence|].
  pose proof (mi_item0 _ _ _ _ Hb Hx) as Ht. pose proof (lookup_lt_Some _ _ _ Ht) as Hlt.
  assert (HRG : (R ≤ G)%nat) by nia.
  constructor; rewrite ?E1, ?E2, ?E3, ?E4, ?E5, ?E6, ?E7; try done; rewrite ?length_app; cbn [length].
  - rewrite Hp, Nat.add_1_r, (take_S_r _ _ x) by done. by rewrite <- Hp, <- mi_popped0.
  - intros i Hi' Hl. destruct (decide (G * size + i < length (q_popped s))%nat) as [|Hge]; [by apply mi_read0|].
    destruct (index_inj G R i (m_read_index s)) as [-> ->]; [done|done|lia|]. apply (mi_stored0 buf); [done|by exists x].
  - unfold s'. destruct (Nat.eqb_spec (S (m_read_index s)) size) as [Heq|Hne];
      cbn [set_read q_dropping m_current_read_buffer m_read_index q_popped].
    + split_and!; [done|done|lia|done].
    + right. split_and!; [done|lia|lia|done].
Qed.

Lemma drop_mem s G R ph stored counted b rest :
  mem_inv s G R ph stored counted → q_dropping s = true → m_buffers s = b :: rest →
  mem_inv (set_heap (delete b (q_heap s))
    (set_buffers rest (set_read None (m_read_index s) false (q_popped s) s))) G (S R) ph stored counted.
Proof.
  intros Hm Hdr Hbs. destruct Hm. rewrite Hdr in mi_reader0. destruct mi_reader0 as (Hc & Hi & Hp & HR).
  rewrite Hbs in mi_buffers0. replace (G + 1 + queued ph - R)%nat with (S (G + 1 + queued ph - S R)) in mi_buffers0 by lia.
  cbn [seq] in mi_buffers0. injection mi_buffers0 as -> Hrest.
  constructor; cbn [set_heap set_buffers set_read q_heap q_next m_buffers m_current_write_buffer
    m_current_read_buffer m_read_index q_dropping q_taken q_popped]; try done.
  - lia.
  - intros b. rewrite lookup_delete_is_Some, mi_heap0. lia.
  - intros b bf [_ Hb]%lookup_delete_Some. by eapply mi_length0.
  - intros b bf i y [_ Hb]%lookup_delete_Some. by eapply mi_item0.
  - intros b bf i [_ Hb]%lookup_delete_Some. by eapply mi_old0.
  - intros bf i [_ Hb]%lookup_delete_Some. by apply mi_stored0.
  - intros bf [_ Hb]%lookup_delete_Some. by apply mi_count0.
  - intros b bf [_ Hb]%lookup_delete_Some. by eapply mi_new0.
  - left. split_and!; [done|done|lia].
Qed.

(** With every slot counted no thread owes anything, and a new round begins. *)
Lemma nothing_owed s G R ph stored counted t :
  mem_inv s G R ph stored counted → ph ≠ Open → thr_slots s G stored counted →
  pending s t = None ∧ counting s t = None.
Proof.
  intros Hm Hph []. pose proof (drawn_le s) as Hd. split.
  - destruct (pending s t) as [[i x]|] eqn:E; [|done]. destruct (ts_pending0 _ _ _ E) as (Hi & Hn & _).
    destruct Hn. eapply full_stored; [done|done|lia].
  - destruct (counting s t) as [i|] eqn:E; [|done]. destruct (ts_counting0 _ _ E) as (Hi & Hn).
    apply (mi_drawn _ _ _ _ _ _ Hm) in Hi. destruct Hn. eapply counted_full; [done|done|lia].
Qed.

Lemma reset_slots s G R stored counted ps t :
  mem_inv s G R Queued stored counted → thr_slots s G stored counted → q_producers s !! t = Some PReset →
  ps = place t (Some PUnlock) (q_producers s) →
  thr_slots (set_producers ps (set_index 0 (q_taken s) s)) (S G) ∅ ∅.
Proof.
  intros Hm Hts Ht ->.
  assert (Hno : ∀ t', pending s t' = None ∧ counting s t' = None) by (intros t'; by eapply nothing_owed).
  set (s' := set_producers _ _). pose proof (pending_place s s' t (Some PUnlock) eq_refl) as Ep.
  pose proof (counting_place s s' t (Some PUnlock) eq_refl) as Ec.
  assert (Hno' : ∀ t', pending s' t' = None ∧ counting s' t' = None).
  { intros t'. rewrite Ep, Ec. case_decide; [done|apply Hno]. }
  constructor.
  - intros t' i x. by rewrite (proj1 (Hno' t')).
  - intros t1 t2 i x1 x2. by rewrite (proj1 (Hno' t1)).
  - intros i Hi. unfold drawn in Hi. cbn in Hi. lia.
  - intros t' i. by rewrite (proj2 (Hno' t')).
  - intros t1 t2 i. by rewrite (proj2 (Hno' t1)).
  - intros i Hi%elem_of_empty. done.
Qed.

Lemma reset_basic s G R stored counted W ps t :
  mem_inv s G R Queued stored counted → thr_slots s G stored counted → thr_phase s Queued →
  thr_basic K s G W → q_producers s !! t = Some PReset → ps = place t (Some PUnlock) (q_producers s) →
  thr_basic K (set_producers ps (set_index 0 (q_taken s) s)) (S G) ∅.
Proof.
  intros Hm Hts Htp Htb Ht ->.
  assert (Hno : ∀ t', pending s t' = None ∧ counting s t' = None) by (intros t'; by eapply nothing_owed).
  assert (Hph : ∀ t', t' ≠ t → at_phase s t' = Open).
  { intros t' Hne. destruct (at_phase s t') eqn:E; [done|..];
      destruct Hne; apply (tp_one _ _ Htp); unfold at_phase in *; rewrite ?Ht; cbn; congruence. }
  constructor; cbn [set_producers set_index q_producers m_write_index m_flag].
  - intros t' [p Hp]. rewrite place_lookup in Hp. apply (tb_bound _ _ _ _ Htb).
    case_decide; [subst; by exists PReset|by exists p].
  - rewrite size_empty. lia.
  - intros t' Hx%elem_of_empty. done.
  - intros t' b. rewrite place_lookup. case_decide; [done|]. destruct (Hno t') as [H1 H2].
    unfold pending, counting in *. by destruct (q_producers s !! t') as [[]|].
  - intros t' b. rewrite place_lookup. case_decide as Hne; [done|]. specialize (Hph t' Hne).
    unfold at_phase in Hph. by destruct (q_producers s !! t') as [[]|].
  - intros _. exists t. by rewrite place_lookup, decide_True.
Qed.

(** A step of a thread that leaves slots, phase and buffers as they are. *)
Lemma neutral_inv s s1 t o G R ph stored counted (W W' : gset nat) :
  mem_inv s G R ph stored counted → thr_basic K s G W → thr_slots s G stored counted → thr_phase s ph →
  (t < K)%nat → (∃ i f, s1 = set_flag f (set_index i (q_taken s) s)) → drawn s1 = drawn s →
  0 ≤ m_write_index s1 ≤ Z.of_nat size + Z.of_nat (base.size W') →
  (∀ t', t' ∈ W' → (t' ∈ W ∧ t' ≠ t) ∨ (t' = t ∧ ∃ x, o = Some (PWait x))) →
  o ≫= pending_of = pending s t → o ≫= counting_of = counting s t →
  from_option phase_of Open o = at_phase s t →
  (∀ b, o ≫= buffer_of = Some b → b = G) → (∀ b, o ≫= new_buffer_of = Some b → b = S G) →
  (m_flag s1 = true → holds_flag <$> o = Some true ∨
    (m_flag s = true ∧ holds_flag <$> (q_producers s !! t) ≠ Some true)) →
  qb_inv K (set_producers (place t o (q_producers s1)) s1).
Proof.
  intros Hm Htb Hts Htp HtK (i & f & ->) Ed Hi HW Hp Hc Hph Hb Hnb Hf.
  exists G, R, ph, stored, counted, W'. split_and!.
  - by apply (mem_ext s).
  - apply (basic_place s _ t o) with (W := W); done.
  - apply (slots_place s _ t o); done.
  - apply (phase_same s _ t o); done.
Qed.

Lemma set_same s : set_flag (m_flag s) (set_index (m_write_index s) (q_taken s) s) = s.
Proof. by destruct s. Qed.

(** Unpacks the invariant around thread [t] at [p]. *)
Ltac unpack Hinv Ht p :=
  destruct Hinv as (G & R & ph & stored & counted & W & Hm & Htb & Hts & Htp);
  pose proof (tb_bound _ _ _ _ Htb _ (mk_is_Some _ _ Ht)) as HtK;
  pose proof (tb_index _ _ _ _ Htb) as Hix;
  pose proof (waiting_bound _ _ _ Htb) as HWK.

Ltac others Ht := intros t' Ht'; left; by eapply not_waiting.

Lemma push_begins s t x :
  qb_inv K s → (t < K)%nat → q_producers s !! t = None →
  qb_inv K (set_producers (place t (Some (PPush x)) (q_producers s)) s).
Proof.
  intros (G & R & ph & stored & counted & W & Hm & Htb & Hts & Htp) HtK Ht.
  eapply (neutral_inv s s t _ G R ph stored counted W W); try done.
  - exists (m_write_index s), (m_flag s). by rewrite set_same.
  - apply (tb_index _ _ _ _ Htb).
  - intros t' Ht'. left. split; [done|]. intros ->. destruct (tb_waiting _ _ _ _ Htb _ Ht') as [y Hy]. congruence.
  - unfold pending. by rewrite Ht.
  - unfold counting. by rewrite Ht.
  - unfold at_phase. by rewrite Ht.
  - intros Hf. right. by rewrite Ht.
Qed.

Lemma ppush_inv s t x next s1 :
  qb_inv K s → q_producers s !! t = Some (PPush x) → producer_step (PPush x) s = Some (Ok (next, s1)) →
  qb_inv K (set_producers (place t next (q_producers s1)) s1).
Proof.
  intros Hinv Ht E. unpack Hinv Ht p. cbn [producer_step] in E.
  destruct (Z.ltb_spec (m_write_index s) (Z.of_nat size)) as [Hlt|Hge]; injection E as <- <-.
  - assert (Eu : u32 (m_write_index s + 1) = m_write_index s + 1) by (apply u32_small; unfold in_u; lia).
    set (s1 := set_index _ _ s). set (s2 := set_producers _ s1).
    assert (Ed : drawn s2 = S (drawn s)) by (unfold drawn; cbn; rewrite Eu; lia).
    assert (Ei : Z.to_nat (m_write_index s) = drawn s) by (unfold drawn; lia).
    exists G, R, ph, stored, counted, W. split_and!.
    + by eapply (ticket_mem s s2 x).
    + eapply (basic_place s s2); [done|done|done|cbn; rewrite Eu; lia|others Ht|done|done|].
      intros Hf. right. by rewrite Ht.
    + by eapply (ticket_slots s s2 t x).
    + eapply (phase_same s s2); [done|done|]. unfold at_phase. by rewrite Ht.
  - assert (HtW : t ∉ W) by (intros Hin; by apply (not_waiting K s G W t (PPush x)) in Hin as [_ Hne]).
    assert (Hsz : base.size ({[t]} ∪ W) = S (base.size W)) by (rewrite size_union by set_solver; by rewrite size_singleton).
    assert (HsK : (S (base.size W) ≤ K)%nat).
    { rewrite <- Hsz, <- (size_set_seq (C := gset nat) 0 K). apply subseteq_size.
      intros t' [->%elem_of_singleton|Hin]%elem_of_union; apply elem_of_set_seq; [lia|].
      split; [lia|]. cbn. destruct (tb_waiting _ _ _ _ Htb _ Hin) as [y Hy]. apply (tb_bound _ _ _ _ Htb). by exists (PWait y). }
    assert (Eu : u32 (m_write_index s + 1) = m_write_index s + 1) by (apply u32_small; unfold in_u; lia).
    eapply (neutral_inv s _ t _ G R ph stored counted W ({[t]} ∪ W)); try done.
    + exists (u32 (m_write_index s + 1)), (m_flag s). done.
    + unfold drawn. cbn. rewrite Eu. lia.
    + cbn. rewrite Hsz, Eu. lia.
    + intros t' [->%elem_of_singleton|Hin]%elem_of_union; [right; split; [done|by exists x]|left].
      split; [done|]. by intros ->.
    + unfold pending. by rewrite Ht.
    + unfold counting. by rewrite Ht.
    + unfold at_phase. by rewrite Ht.
    + intros Hf. right. by rewrite Ht.
Qed.

(** Which buffer and phase the threads are at. *)
Lemma pending_open s G R ph stored counted t i x :
  mem_inv s G R ph stored counted → thr_slots s G stored counted → pending s t = Some (i, x) →
  ph = Open ∧ is_Some (q_heap s !! G) ∧ (i < drawn s)%nat.
Proof.
  intros Hm Hts Hp. destruct (ts_pending _ _ _ _ Hts _ _ _ Hp) as (Hi & Hn & _). pose proof (drawn_le s).
  split_and!; [|eapply buffer_alive; [done| |done]; lia|done].
  eapply open_phase; [done|done|]. intros Hc. by apply (mi_counted _ _ _ _ _ _ Hm) in Hc.
Qed.

Lemma pstore_inv s t b i x next s1 :
  qb_inv K s → q_producers s !! t = Some (PStore b i x) →
  producer_step (PStore b i x) s = Some (Ok (next, s1)) →
  qb_inv K (set_producers (place t next (q_producers s1)) s1).
Proof.
  intros Hinv Ht E. unpack Hinv Ht p. cbn [producer_step] in E.
  destruct (q_heap s !! b) as [buf|] eqn:Eb; [|done]. injection E as <- <-.
  assert (b = G) as -> by (apply (tb_buffer _ _ _ _ Htb t); by rewrite Ht).
  assert (Hp : pending s t = Some (i, x)) by (unfold pending; by rewrite Ht).
  destruct (ts_pending _ _ _ _ Hts _ _ _ Hp) as (Hi & Hn & Hx).
  set (s1 := set_heap _ s). set (s2 := set_producers _ s1).
  exists G, R, ph, ({[i]} ∪ stored), counted, W. split_and!.
  - by eapply (store_mem s s2 G R ph stored counted buf).
  - apply (basic_place s s2 t (Some (PCount G i)) eq_refl K G W W); [done|done|done|others Ht| |done|].
    + by intros b [= <-].
    + intros Hf. right. by rewrite Ht.
  - eapply (store_slots s s2 t G i G stored counted Hts); try done. apply (mi_counted _ _ _ _ _ _ Hm).
  - apply (phase_same s s2 t (Some (PCount G i)) eq_refl); [done|]. unfold at_phase. by rewrite Ht.
Qed.

Lemma pcount_inv s t b i next s1 :
  qb_inv K s → q_producers s !! t = Some (PCount b i) →
  producer_step (PCount b i) s = Some (Ok (next, s1)) →
  qb_inv K (set_producers (place t next (q_producers s1)) s1).
Proof.
  intros Hinv Ht E. unpack Hinv Ht p. cbn [producer_step] in E.
  destruct (q_heap s !! b) as [buf|] eqn:Eb; [|done]. injection E as <- <-.
  assert (b = G) as -> by (apply (tb_buffer _ _ _ _ Htb t); by rewrite Ht).
  assert (Hc : counting s t = Some i) by (unfold counting; by rewrite Ht).
  destruct (ts_counting _ _ _ _ Hts _ _ Hc) as (Hs & Hn).
  assert (ph = Open) as -> by (eapply open_phase; [done|by eapply mi_drawn|done]).
  set (s1 := set_heap _ s). set (next := if _ =? _ then _ else _). set (s2 := set_producers _ s1).
  set (ph' := if (S (base.size counted) =? size)%nat then Full else Open).
  destruct (count_mem s s2 G R Open stored counted buf (mkBuffer (b_items buf) (u32 (b_count buf + 1))) Hm Eb
    eq_refl ltac:(done) i ph' Hs Hn eq_refl eq_refl eq_refl) as [Hm2 Hcount].
  assert (Hnext : next = if (S (base.size counted) =? size)%nat then Some PSetup else None).
  { unfold next. rewrite Hcount. destruct (Nat.eqb_spec (S (base.size counted)) size), (Z.eqb_spec (Z.of_nat (S (base.size counted))) (Z.of_nat size)); by try lia. }
  assert (Hsmall : next ≫= pending_of = None ∧ next ≫= counting_of = None ∧ next ≫= buffer_of = None ∧
    next ≫= new_buffer_of = None ∧ from_option phase_of Open next = ph').
  { rewrite Hnext. unfold ph'. by destruct (_ =? _)%nat. }
  destruct Hsmall as (H1 & H2 & H3 & H4 & H5).
  exists G, R, ph', stored, ({[i]} ∪ counted), W. split_and!.
  - done.
  - apply (basic_place s s2 t next eq_refl K G W W); [done|done|done|others Ht| | |].
    + by rewrite H3.
    + by rewrite H4.
    + intros Hf. right. by rewrite Ht.
  - by apply (count_slots s s2 t G i G stored counted Hts eq_refl eq_refl next Ht eq_refl).
  - apply (phase_move s s2 t next eq_refl Open ph'); [done|by left|done].
Qed.

Lemma setup_inv s t p next s1 :
  qb_inv K s → q_producers s !! t = Some p → phase_of p ≠ Open ∨ p = PUnlock →
  producer_step p s = Some (Ok (next, s1)) →
  qb_inv K (set_producers (place t next (q_producers s1)) s1).
Proof.
  intros Hinv Ht Hp E. unpack Hinv Ht p.
  assert (Hph : phase_of p ≠ Open → phase_of p = ph).
  { intros Hne. destruct (tp_phase _ _ Htp t) as [Ho|Ho]; unfold at_phase in Ho; rewrite Ht in Ho; cbn in Ho; done. }
  assert (Hat : at_phase s t = phase_of p) by (unfold at_phase; by rewrite Ht).
  destruct p; try (by destruct Hp); cbn [phase_of] in Hph; cbn [producer_step] in E;
    try (specialize (Hph ltac:(done)); subst ph).
  - injection E as <- <-. set (s1 := new_write_buffer s). set (s2 := set_producers _ s1).
    exists G, R, Published, stored, counted, W. split_and!.
    + by apply setup_mem.
    + apply (basic_place s s2 t _ eq_refl K G W W); [done|done|done|others Ht|done| |].
      * intros b [= <-]. rewrite (mi_next _ _ _ _ _ _ Hm). cbn. lia.
      * intros Hf. right. by rewrite Ht.
    + apply (slots_place s s2 t _ eq_refl); try done; [unfold pending|unfold counting]; by rewrite Ht.
    + apply (phase_move s s2 t _ eq_refl Full Published); [done|by right|done].
  - destruct (m_flag s) eqn:Ef; [done|]. injection E as <- <-.
    apply (neutral_inv s _ t _ G R Published stored counted W W); try done.
    + exists (m_write_index s), true. by destruct s.
    + others Ht.
    + unfold pending. by rewrite Ht.
    + unfold counting. by rewrite Ht.
    + intros b' [= <-]. apply (tb_new_buffer _ _ _ _ Htb t). by rewrite Ht.
    + intros _. by left.
  - injection E as <- <-. assert (b = S G) as -> by (apply (tb_new_buffer _ _ _ _ Htb t); by rewrite Ht).
    set (s1 := set_buffers _ s). set (s2 := set_producers _ s1).
    exists G, R, Queued, stored, counted, W. split_and!.
    + by apply queue_mem.
    + apply (basic_place s s2 t _ eq_refl K G W W); [done|done|done|others Ht|done|done|]. intros Hf. by left.
    + apply (slots_place s s2 t _ eq_refl); try done; [unfold pending|unfold counting]; by rewrite Ht.
    + apply (phase_move s s2 t _ eq_refl Published Queued); [done|by right|done].
  - injection E as <- <-. exists (S G), R, Open, ∅, ∅, ∅. split_and!.
    + by eapply reset_mem.
    + by eapply (reset_basic s G R stored counted W).
    + by eapply reset_slots.
    + eapply (phase_move s _ t (Some PUnlock)); [done|done|by right|done].
  - injection E as <- <-. apply (neutral_inv s _ t _ G R ph stored counted W W); try done.
    + exists (m_write_index s), false. by destruct s.
    + others Ht.
    + unfold pending. by rewrite Ht.
    + unfold counting. by rewrite Ht.
Qed.

Lemma pwait_inv s t x next s1 :
  qb_inv K s → q_producers s !! t = Some (PWait x) → producer_step (PWait x) s = Some (Ok (next, s1)) →
  qb_inv K (set_producers (place t next (q_producers s1)) s1).
Proof.
  intros Hinv Ht E. unpack Hinv Ht p. cbn [producer_step] in E. rewrite Z.geb_leb in E.
  destruct (Z.leb_spec (Z.of_nat size) (m_write_index s)) as [|Hlt]; [done|]. injection E as <- <-.
  apply (neutral_inv s s t _ G R ph stored counted W ∅); try done.
  - exists (m_write_index s), (m_flag s). by rewrite set_same.
  - rewrite size_empty. lia.
  - unfold pending. by rewrite Ht.
  - unfold counting. by rewrite Ht.
  - unfold at_phase. by rewrite Ht.
  - intros Hf. right. by rewrite Ht.
Qed.

Lemma pticket_inv s t i x next s1 :
  qb_inv K s → q_producers s !! t = Some (PTicket i x) → producer_step (PTicket i x) s = Some (Ok (next, s1)) →
  qb_inv K (set_producers (place t next (q_producers s1)) s1).
Proof.
  intros Hinv Ht E. unpack Hinv Ht p. cbn [producer_step] in E. injection E as <- <-.
  assert (Hp : pending s t = Some (i, x)) by (unfold pending; by rewrite Ht).
  destruct (pending_open _ _ _ _ _ _ _ _ _ Hm Hts Hp) as (-> & _ & _).
  apply (neutral_inv s s t _ G R Open stored counted W W); try done.
  - exists (m_write_index s), (m_flag s). by rewrite set_same.
  - others Ht.
  - unfold counting. by rewrite Ht.
  - unfold at_phase. by rewrite Ht.
  - intros b [= <-]. rewrite (mi_write _ _ _ _ _ _ Hm). cbn. lia.
  - intros Hf. right. by rewrite Ht.
Qed.

Lemma producer_inv s t p next s1 :
  qb_inv K s → q_producers s !! t = Some p → producer_step p s = Some (Ok (next, s1)) →
  qb_inv K (set_producers (place t next (q_producers s1)) s1).
Proof.
  destruct p; eauto using ppush_inv, pwait_inv, pticket_inv, pstore_inv, pcount_inv;
    intros Hinv Ht E; eapply setup_inv; eauto; by first [left|right].
Qed.

Lemma reader_keeps s s' G ph stored counted W :
  q_producers s' = q_producers s → m_write_index s' = m_write_index s → q_taken s' = q_taken s →
  m_flag s' = m_flag s →
  thr_basic K s G W → thr_slots s G stored counted → thr_phase s ph →
  thr_basic K s' G W ∧ thr_slots s' G stored counted ∧ thr_phase s' ph.
Proof.
  intros E1 E2 E3 E4 [] [] []. assert (Ed : drawn s' = drawn s) by (unfold drawn; by rewrite E2).
  unfold pending, counting, at_phase in *.
  split_and!; constructor; unfold pending, counting, at_phase; rewrite ?E1, ?E2, ?E3, ?E4, ?Ed; done.
Qed.

(** The consumer never faults. *)
Lemma reader_inv s r :
  qb_inv K s → reader_step s = Some r → ∃ s', r = Ok s' ∧ qb_inv K s'.
Proof.
  intros (G & R & ph & stored & counted & W & Hm & Htb & Hts & Htp) E. unfold reader_step in E.
  assert (Hk : ∀ s', mem_inv s' G R ph stored counted ∨ mem_inv s' G (S R) ph stored counted →
    q_producers s' = q_producers s → m_write_index s' = m_write_index s → q_taken s' = q_taken s →
    m_flag s' = m_flag s → qb_inv K s').
  { intros s' Hm' E1 E2 E3 E4. destruct (reader_keeps s s' G ph stored counted W E1 E2 E3 E4 Htb Hts Htp) as (?&?&?).
    destruct Hm'; [exists G, R|exists G, (S R)]; by exists ph, stored, counted, W. }
  destruct (q_dropping s) eqn:Ed.
  - unfold read_drop in E. destruct (m_flag s) eqn:Ef; [done|].
    destruct (m_buffers s) as [|b rest] eqn:Eb.
    + exfalso. destruct Hm. rewrite Ed in mi_reader0. destruct mi_reader0 as (_ & _ & _ & HR).
      rewrite Eb in mi_buffers0. replace (G + 1 + queued ph - R)%nat with (S (G + queued ph - R)) in mi_buffers0 by lia. done.
    + injection E as <-. eexists. split; [reflexivity|]. apply Hk; [right|done..]. by apply (drop_mem s G R).
  - destruct (m_current_read_buffer s) as [b|] eqn:Ec.
    + assert (b = R ∧ (R ≤ G + newer ph)%nat) as [-> HR].
      { destruct Hm. rewrite Ed, Ec in mi_reader0. destruct mi_reader0 as [(? & _)|([= ->] & _ & _ & ?)]; [done|].
        split; [done|]. destruct ph; cbn in *; lia. }
      destruct (mi_heap _ _ _ _ _ _ Hm R) as [_ [buf Hb]]; [lia|]. unfold read_item in E. rewrite Hb in E.
      destruct (b_items buf !! m_read_index s) as [[x|]|] eqn:Ex;
        [|injection E as <-; exists s; split; [done|by apply Hk; [left|..]]..].
      injection E as <-. eexists. split; [reflexivity|].
      apply Hk; [left; exact (read_mem s G R ph stored counted buf x Hm Ed Ec Hb Ex)|by repeat case_match..].
    + unfold read_get in E. destruct (m_flag s) eqn:Ef; [done|]. injection E as <-. eexists. split; [reflexivity|].
      apply Hk; [left; by apply get_mem|done..].
Qed.

Definition op_thread (o : qb_op) : Prop := match o with QPush t _ => (t < K)%nat | _ => True end.

Lemma step_inv o s s' : qb_inv K s → op_thread o → qb_step o s = Some (Ok s') → qb_inv K s'.
Proof.
  intros Hi Ho E. destruct o as [t x|t|]; cbn [qb_step] in E.
  - destruct (q_producers s !! t) eqn:Et; [done|]. injection E as <-. by apply push_begins.
  - destruct (q_producers s !! t) as [p|] eqn:Et; [|done].
    destruct (producer_step p s) as [[[next s1]|]|] eqn:Ep; [|done..]. injection E as <-. by eapply producer_inv.
  - destruct (reader_inv s _ Hi E) as (s1 & [= <-] & Hs). done.
Qed.

Lemma qb_run_inv ops s s' :
  qb_inv K s → Forall op_thread ops → qb_run ops s = Some (Ok s') → qb_inv K s'.
Proof.
  revert s. induction ops as [|o ops IH]; intros s Hi Ho E; [by injection E as <-|].
  apply Forall_cons in Ho as [Ho Hos]. cbn [qb_run] in E.
  destruct (qb_step o s) as [[s1|]|] eqn:Eo; [|done..]. apply (IH s1); [by eapply step_inv|done|done].
Qed.

(** The only fault: a thread counts in a buffer all of whose lines have been
    popped, and which has been destroyed. *)
Lemma step_fault o s f :
  qb_inv K s → qb_step o s = Some (Fault f) →
  f = UseAfterFree ∧ ∃ t b i, o = QStep t ∧ q_producers s !! t = Some (PCount b i) ∧
    q_heap s !! b = None ∧ ((b + 1) * size ≤ length (q_popped s))%nat.
Proof.
  intros Hi E. destruct o as [t x|t|]; cbn [qb_step] in E.
  - by destruct (q_producers s !! t).
  - destruct (q_producers s !! t) as [p|] eqn:Et; [|done].
    destruct Hi as (G & R & ph & stored & counted & W & Hm & Htb & Hts & Htp).
    destruct p; cbn [producer_step] in E; try done; try (by repeat case_match).
    + destruct (q_heap s !! b) eqn:Eb; [done|]. exfalso.
      assert (b = G) as -> by (apply (tb_buffer _ _ _ _ Htb t); by rewrite Et).
      assert (Hp : pending s t = Some (i, x)) by (unfold pending; by rewrite Et).
      destruct (pending_open _ _ _ _ _ _ _ _ _ Hm Hts Hp) as (_ & [buf Hb] & _). congruence.
    + destruct (q_heap s !! b) eqn:Eb; [done|]. injection E as <-. split; [done|]. exists t, b, i.
      assert (b = G) as -> by (apply (tb_buffer _ _ _ _ Htb t); by rewrite Et).
      split_and!; [done..|]. pose proof (read_at_most _ _ _ _ _ _ Hm) as Hr.
      destruct (decide (R ≤ G)%nat) as [Hle|Hgt]; [|nia].
      destruct (mi_heap _ _ _ _ _ _ Hm G) as [_ [buf Hb]]; [lia|]. congruence.
  - destruct (reader_inv s _ Hi E) as (s1 & [=] & _).
Qed.

(** ** With nobody inside push *)

Lemma quiet_slots s G R ph stored counted W :
  mem_inv s G R ph stored counted → thr_slots s G stored counted → thr_phase s ph → thr_basic K s G W →
  q_producers s = ∅ →
  m_flag s = false ∧ m_write_index s = Z.of_nat (drawn s) ∧ (drawn s < size)%nat ∧ ph = Open ∧
  (∀ i, (i < drawn s)%nat → i ∈ stored).
Proof.
  intros Hm Hts Htp Htb He.
  assert (Hst : ∀ i, (i < drawn s)%nat → i ∈ stored).
  { intros i Hi. destruct (decide (i ∈ stored)) as [|Hn]; [done|].
    destruct (ts_pending_all _ _ _ _ Hts i Hi Hn) as (t & x & Hx). unfold pending in Hx.
    by rewrite He, lookup_empty in Hx. }
  assert (Hph : ph = Open).
  { destruct (decide (base.size counted < size)%nat) as [Hlt|Hge]; [by apply (mi_open _ _ _ _ _ _ Hm)|].
    destruct (tp_some _ _ Htp) as [t Ht]; [intros Ho; by apply (mi_open _ _ _ _ _ _ Hm) in Ho|].
    unfold at_phase in Ht. by rewrite He, lookup_empty in Ht. }
  assert (Hd : (drawn s < size)%nat).
  { destruct (decide (drawn s < size)%nat) as [|Hge]; [done|]. exfalso.
    pose proof (proj1 (mi_open _ _ _ _ _ _ Hm) Hph) as Hlt.
    assert (Hsub : (set_seq 0 size : gset nat) ⊆ counted).
    { intros i [_ Hi]%elem_of_set_seq. destruct (decide (i ∈ counted)) as [|Hn]; [done|].
      destruct (ts_counting_all _ _ _ _ Hts i) as [t Ht]; [apply Hst; cbn in Hi; lia|done|].
      unfold counting in Ht. by rewrite He, lookup_empty in Ht. }
    apply subseteq_size in Hsub. rewrite size_set_seq in Hsub. lia. }
  split_and!; [|destruct (tb_index _ _ _ _ Htb); unfold drawn in *; lia|done|done|done].
  destruct (m_flag s) eqn:Ef; [|done]. destruct (tb_flag _ _ _ _ Htb Ef) as [t Ht].
  by rewrite He, lookup_empty in Ht.
Qed.

Lemma reader_same s s' :
  reader_go s = Some s' → q_taken s' = q_taken s ∧ q_producers s' = q_producers s ∧ m_flag s' = m_flag s.
Proof.
  unfold reader_go, reader_step, read_drop, read_get, read_item. intros E.
  repeat case_match; simplify_eq/=; repeat case_match; done.
Qed.

Lemma reader_go_inv s : qb_inv K s → m_flag s = false → ∃ s', reader_go s = Some s' ∧ reader_step s = Some (Ok s') ∧ qb_inv K s'.
Proof.
  intros Hi Hf. unfold reader_go.
  destruct (reader_step s) as [r|] eqn:E; [destruct (reader_inv s r Hi E) as (s' & -> & Hs'); by exists s'|].
  exfalso. unfold reader_step, read_drop, read_get, read_item in E. rewrite Hf in E. by repeat case_match.
Qed.

(** What the next slot of the consumer holds. *)
Lemma slot_ready s b :
  qb_inv K s → q_producers s = ∅ → q_dropping s = false → m_current_read_buffer s = Some b →
  ∃ buf, q_heap s !! b = Some buf ∧
    (b_items buf !! m_read_index s = Some (q_taken s !! length (q_popped s)) ∨
     (q_taken s !! length (q_popped s) = None ∧ ∀ x, b_items buf !! m_read_index s ≠ Some (Some x))).
Proof.
  intros (G & R & ph & stored & counted & W & Hm & Htb & Hts & Htp) He Hdr Hc.
  destruct (quiet_slots _ _ _ _ _ _ _ Hm Hts Htp Htb He) as (_ & _ & Hd & -> & Hst).
  destruct Hm. cbn [newer queued] in *. rewrite Hdr in mi_reader0.
  destruct mi_reader0 as [(? & _)|(Hc' & Hi & Hp & HR)]; [congruence|]. assert (b = R) as -> by congruence.
  destruct (mi_heap0 R) as [_ [buf Hb]]; [lia|]. exists buf. split; [done|]. rewrite Hp.
  destruct (q_taken s !! (R * size + m_read_index s)%nat) as [x|] eqn:Ex.
  - left. pose proof (lookup_lt_Some _ _ _ Ex) as Hlt.
    assert (∃ y, b_items buf !! m_read_index s = Some (Some y)) as [y Hy].
    { destruct (decide (R < G)%nat) as [|Hge]; [by eapply mi_old0|]. assert (R = G) as -> by lia.
      apply (mi_stored0 buf _ Hb), Hst. lia. }
    rewrite Hy. f_equal. pose proof (mi_item0 _ _ _ _ Hb Hy). congruence.
  - right. split; [done|]. intros y Hy. pose proof (mi_item0 _ _ _ _ Hb Hy). congruence.
Qed.

Lemma head_ready s :
  qb_inv K s → q_producers s = ∅ → q_dropping s = false → m_current_read_buffer s = None →
  is_Some (head (m_buffers s)) ∨ q_taken s !! length (q_popped s) = None.
Proof.
  intros (G & R & ph & stored & counted & W & Hm & Htb & Hts & Htp) He Hdr Hc.
  destruct (quiet_slots _ _ _ _ _ _ _ Hm Hts Htp Htb He) as (_ & _ & Hd & -> & Hst).
  destruct Hm. cbn [newer queued] in *. rewrite Hdr in mi_reader0.
  destruct mi_reader0 as [(_ & Hi & Hp)|(? & _)]; [|congruence]. rewrite mi_buffers0.
  destruct (G + 1 + 0 - R)%nat as [|n] eqn:E; [right|by left]. apply lookup_ge_None_2. nia.
Qed.

(** [try_pop] returns the next line, if there is one. *)
Lemma try_pop_item s b :
  qb_inv K s → q_producers s = ∅ → q_dropping s = false → m_current_read_buffer s = Some b →
  ∃ s', qb_try_pop s = Some (q_taken s !! length (q_popped s), s') ∧
    q_popped s' = q_popped s ++ option_list (q_taken s !! length (q_popped s)) ∧
    q_taken s' = q_taken s ∧ q_producers s' = ∅ ∧ q_dropping s' = false ∧ qb_inv K s'.
Proof.
  intros Hinv He Hdr Hc. destruct (slot_ready s b Hinv He Hdr Hc) as (buf & Hb & Hslot).
  assert (Hf : m_flag s = false).
  { destruct Hinv as (? & ? & ? & ? & ? & ? & Hm & Htb & Hts & Htp). by apply (quiet_slots _ _ _ _ _ _ _ Hm Hts Htp Htb He). }
  destruct (reader_go_inv s Hinv Hf) as (s2 & E2 & E2' & Hinv2). destruct (reader_same _ _ E2) as (Et & Ep & Ef).
  unfold qb_try_pop. rewrite Hc. cbn [mbind option_bind]. rewrite Hc, E2. cbn [mbind option_bind].
  unfold reader_step in E2'. rewrite Hdr, Hc in E2'. unfold read_item in E2'. rewrite Hb in E2'.
  destruct Hslot as [Hs|[Hn Hs]].
  - rewrite Hs in E2'. destruct (q_taken s !! length (q_popped s)) as [x|] eqn:Ex.
    + injection E2' as E2'. assert (Epop : q_popped s2 = q_popped s ++ [x]) by (rewrite <- E2'; by case_match).
      destruct (q_dropping s2) eqn:Ed2.
      * destruct (reader_go_inv s2 Hinv2) as (s3 & E3 & E3' & Hinv3); [congruence|]. rewrite E3.
        destruct (reader_same _ _ E3) as (Et3 & Ep3 & _).
        assert (Epop3 : q_popped s3 = q_popped s2 ∧ q_dropping s3 = false).
        { unfold reader_step, read_drop in E3'. rewrite Ed2 in E3'. destruct (m_flag s2), (m_buffers s2); try done.
          by injection E3' as <-. }
        destruct Epop3 as [Epop3 Ed3].
        exists s3. cbn. by rewrite Epop3, Epop, list_lookup_middle, Et3, Et, Ep3, Ep, He.
      * exists s2. cbn. rewrite Epop, list_lookup_middle by done. by rewrite Et, Ep, He.
    + injection E2' as <-. rewrite Hdr. exists s. cbn [mbind option_bind].
      rewrite (lookup_ge_None_2 (q_popped s)) by lia. by rewrite app_nil_r.
  - rewrite Hn. assert (s2 = s) as ->.
    { destruct (b_items buf !! m_read_index s) as [[y|]|]; [by destruct (Hs y)|by injection E2' as <-..]. }
    rewrite Hdr. exists s. cbn [mbind option_bind]. rewrite (lookup_ge_None_2 (q_popped s)) by lia.
    by rewrite app_nil_r.
Qed.

Lemma try_pop_ok s :
  qb_inv K s → q_producers s = ∅ → q_dropping s = false →
  ∃ s', qb_try_pop s = Some (q_taken s !! length (q_popped s), s') ∧
    q_popped s' = q_popped s ++ option_list (q_taken s !! length (q_popped s)) ∧
    q_taken s' = q_taken s ∧ q_producers s' = ∅ ∧ q_dropping s' = false ∧ qb_inv K s'.
Proof.
  intros Hinv He Hdr. destruct (m_current_read_buffer s) as [b|] eqn:Hc; [by apply (try_pop_item s b)|].
  assert (Hf : m_flag s = false).
  { destruct Hinv as (? & ? & ? & ? & ? & ? & Hm & Htb & Hts & Htp). by apply (quiet_slots _ _ _ _ _ _ _ Hm Hts Htp Htb He). }
  destruct (reader_go_inv s Hinv Hf) as (s1 & E1 & E1' & Hinv1).
  unfold reader_step, read_get in E1'. rewrite Hdr, Hc, Hf in E1'. injection E1' as E1'.
  destruct (head (m_buffers s)) as [b|] eqn:Hb.
  - destruct (try_pop_item s1 b) as (s' & E & Hrest); rewrite <- ?E1'; [by rewrite E1'|done..|].
    assert (Eq : qb_try_pop s = qb_try_pop s1) by (unfold qb_try_pop; rewrite Hc, E1; by subst s1).
    exists s'. rewrite Eq, E. by subst s1.
  - destruct (head_ready s Hinv He Hdr Hc) as [[b' Hb']|Hn]; [congruence|]. rewrite Hn.
    exists s1. unfold qb_try_pop. rewrite Hc, E1. cbn [mbind option_bind]. subst s1.
      cbn [set_read m_current_read_buffer q_taken q_popped q_producers q_dropping option_list].
    by rewrite app_nil_r.
Qed.

(** [push] adds its line. *)
Lemma finish_step fuel t s s1 :
  qb_inv K s → is_Some (q_producers s !! t) → qb_step (QStep t) s = Some (Ok s1) →
  finish (S fuel) t s = finish fuel t s1 ∧ qb_inv K s1.
Proof.
  intros Hi [p Hp] E. split; [cbn [finish]; by rewrite Hp, E|by apply (step_inv (QStep t) s)].
Qed.

Definition only (t : nat) (next : option producer) : gmap nat producer :=
  match next with Some p => {[t := p]} | None => ∅ end.

Lemma go_step fuel t s p next s1 :
  qb_inv K s → q_producers s = {[t := p]} → producer_step p s = Some (Ok (next, s1)) →
  q_producers s1 = q_producers s →
  finish (S fuel) t s = finish fuel t (set_producers (only t next) s1) ∧
  qb_inv K (set_producers (only t next) s1).
Proof.
  intros Hi E1 E2 E3. assert (Hl : q_producers s !! t = Some p) by (rewrite E1; apply lookup_singleton_eq).
  apply finish_step; [done|by exists p|]. cbn [qb_step]. rewrite Hl, E2. do 3 f_equal. rewrite E3, E1.
  destruct next; cbn [place only]; [by rewrite insert_singleton_eq|by rewrite delete_singleton_eq].
Qed.

Lemma finish_none fuel t s : q_producers s = ∅ → finish fuel t s = Some s.
Proof. intros E. destruct fuel; cbn [finish]; by rewrite E, lookup_empty. Qed.

Lemma setup_runs fuel t s :
  qb_inv K s → q_producers s = {[t := PSetup]} → m_flag s = false →
  ∃ s', finish (5 + fuel) t s = Some s' ∧ q_taken s' = q_taken s ∧ q_popped s' = q_popped s ∧
    q_producers s' = ∅ ∧ q_dropping s' = q_dropping s ∧ qb_inv K s'.
Proof.
  intros Hi Hp Hf.
  set (b := q_next s).
  destruct (go_step (4 + fuel)%nat t s PSetup _ _ Hi Hp eq_refl eq_refl) as [E1 H1].
  destruct (go_step (3 + fuel)%nat t _ (PLock b) (Some (PLocked b)) _ H1 eq_refl ltac:(cbn; by rewrite Hf) eq_refl) as [E2 H2].
  destruct (go_step (2 + fuel)%nat t _ (PLocked b) _ _ H2 eq_refl eq_refl eq_refl) as [E3 H3].
  destruct (go_step (1 + fuel)%nat t _ PReset _ _ H3 eq_refl eq_refl eq_refl) as [E4 H4].
  destruct (go_step fuel t _ PUnlock _ _ H4 eq_refl eq_refl eq_refl) as [E5 H5].
  eexists. split; [refine (eq_trans E1 (eq_trans E2 (eq_trans E3 (eq_trans E4 (eq_trans E5 _)))))|];
    [|split_and!; [..|exact H5]]; try done.
  by apply finish_none.
Qed.

Lemma push_ok t x s :
  qb_inv K s → q_producers s = ∅ → (t < K)%nat →
  ∃ s', qb_push t x s = Some s' ∧ q_taken s' = q_taken s ++ [x] ∧ q_popped s' = q_popped s ∧
    q_producers s' = ∅ ∧ q_dropping s' = q_dropping s ∧ qb_inv K s'.
Proof.
  intros Hi He Ht. set (b := m_current_write_buffer s).
  assert (Hq : m_flag s = false ∧ m_write_index s < Z.of_nat size ∧ is_Some (q_heap s !! b)).
  { destruct Hi as (G & R & ph & stored & counted & W & Hm & Htb & Hts & Htp).
    destruct (quiet_slots _ _ _ _ _ _ _ Hm Hts Htp Htb He) as (Hf & Hw & Hd & -> & _). split_and!; [done|lia|].
    unfold b. rewrite (mi_write _ _ _ _ _ _ Hm). cbn. rewrite Nat.add_0_r.
    eapply buffer_alive; [done|exact Hd|]. intros Hs. apply (mi_drawn _ _ _ _ _ _ Hm) in Hs. lia. }
  destruct Hq as (Hf & Hw & [buf Hb]).
  assert (E0 : qb_step (QPush t x) s = Some (Ok (set_producers (only t (Some (PPush x))) s))).
  { cbn [qb_step]. rewrite He, lookup_empty. cbn [place only]. by rewrite insert_empty. }
  unfold qb_push. rewrite E0. assert (H0 := step_inv (QPush t x) s _ Hi Ht E0).
  set (i := Z.to_nat (m_write_index s)).
  destruct (go_step 8 t _ (PPush x) (Some (PTicket i x)) (set_index (u32 (m_write_index s + 1)) (q_taken s ++ [x])
    (set_producers (only t (Some (PPush x))) s)) H0 eq_refl) as [E1 H1].
  { cbn. by rewrite (proj2 (Z.ltb_lt _ _) Hw). } { done. }
  destruct (go_step 7 t _ (PTicket i x) _ _ H1 eq_refl eq_refl eq_refl) as [E2 H2].
  destruct (go_step 6 t _ (PStore b i x) (Some (PCount b i)) (set_heap (<[b := mkBuffer (<[i := Some x]> (b_items buf)) (b_count buf)]> (q_heap s))
    (set_producers (only t (Some (PStore b i x))) (set_index (u32 (m_write_index s + 1)) (q_taken s ++ [x]) s))) H2 eq_refl) as [E3 H3].
  { cbn. fold b. by rewrite Hb. } { done. }
  set (count := u32 (b_count buf + 1)). set (next := if count =? Z.of_nat size then Some PSetup else None).
  destruct (go_step 5 t _ (PCount b i) next (set_heap (<[b := mkBuffer (<[i := Some x]> (b_items buf)) count]>
      (<[b := mkBuffer (<[i := Some x]> (b_items buf)) (b_count buf)]> (q_heap s)))
    (set_producers (only t (Some (PCount b i))) (set_index (u32 (m_write_index s + 1)) (q_taken s ++ [x]) s))) H3 eq_refl) as [E4 H4].
  { cbn. by rewrite lookup_insert_eq. } { done. }
  rewrite E1, E2, E3, E4. clear E1 E2 E3 E4.
  unfold next in *. destruct (count =? Z.of_nat size).
  - destruct (setup_runs 0 t _ H4 eq_refl Hf) as (s' & E5 & Hrest). by exists s'.
  - eexists. split; [by apply finish_none|]. by split_and!.
Qed.

(** A run that faults ends with such a count. *)
Lemma run_fault ops s f :
  qb_inv K s → Forall op_thread ops → qb_run ops s = Some (Fault f) →
  f = UseAfterFree ∧ ∃ ops1 ops2 s1 t b i, ops = ops1 ++ QStep t :: ops2 ∧ qb_run ops1 s = Some (Ok s1) ∧
    q_producers s1 !! t = Some (PCount b i) ∧ q_heap s1 !! b = None ∧
    ((b + 1) * size ≤ length (q_popped s1))%nat.
Proof.
  revert s. induction ops as [|o ops IH]; intros s Hi Ho E; [done|].
  apply Forall_cons in Ho as [Ho Hos]. cbn [qb_run] in E.
  destruct (qb_step o s) as [[s1|f']|] eqn:Eo; [| |done].
  - destruct (IH s1) as (-> & ops1 & ops2 & s2 & t & b & i & -> & Er & Hrest); [by eapply step_inv|done|done|].
    split; [done|]. exists (o :: ops1), ops2, s2, t, b, i. cbn [app qb_run]. by rewrite Eo.
  - injection E as ->. destruct (step_fault o s f Hi Eo) as (-> & t & b & i & -> & Hrest).
    split; [done|]. by exists [], ops, s, t, b, i.
Qed.

End Steps.

End QueueBuffer.
Arguments QPush {A} t x.
Arguments QStep {A} t.
Arguments QRead {A}.

(** C15: the guaranteed buffer loses, repeats and reorders nothing.  Under every
    interleaving of the accesses of up to [K] producers and the consumer, with
    buffers of any size, the lines popped are the first lines in the order in
    which their producers drew tickets, through every change of buffer; and
    whenever no producer is inside [push] and the consumer is between calls,
    [try_pop] returns the next such line (nothing if all are popped), and
    [push] returns with its line added. *)
Theorem queue_buffer_in_order {A} (size K : nat) ops (s : QueueBuffer (A := A)) :
  (0 < size)%nat → Z.of_nat size + Z.of_nat K < 2 ^ 32 → Forall (op_thread K) ops →
  qb_run size ops (QueueBuffer_make size) = Some (Ok s) →
  q_popped s = take (length (q_popped s)) (q_taken s) ∧
  (q_producers s = ∅ → q_dropping s = false →
    (∃ s', qb_try_pop size s = Some (q_taken s !! length (q_popped s), s') ∧
      q_popped s' = q_popped s ++ option_list (q_taken s !! length (q_popped s))) ∧
    (∀ t x, (t < K)%nat → ∃ s', qb_push size t x s = Some s' ∧ q_taken s' = q_taken s ++ [x])).
Proof.
  intros Hs HK Ho E. pose proof (qb_run_inv size K Hs HK ops _ s (start_inv size K Hs) Ho E) as Hi.
  split; [destruct Hi as (?&?&?&?&?&?&Hm&_); by eapply mi_popped|].
  intros He Hd. split.
  - destruct (try_pop_ok size K Hs HK s Hi He Hd) as (s' & ? & ? & _). by exists s'.
  - intros t x Ht. destruct (push_ok size K Hs HK t x s Hi He Ht) as (s' & ? & ? & _). by exists s'.
Qed.

(** Buffers of two lines; the first producer stores last, and the next buffer
    is installed by the second. *)
Lemma queue_buffer_in_order_witness :
  let ops := [QPush 0 10; QStep 0; QPush 1 11; QStep 1; QStep 1; QStep 1; QRead; QRead;
              QStep 0; QStep 0; QStep 0; QStep 1; QStep 1; QStep 1; QStep 1; QStep 1; QStep 1;
              QRead] in
  let s := match qb_run 2 ops (QueueBuffer_make 2) with Some (Ok s) => s | _ => QueueBuffer_make 2 end in
  q_taken s = [10; 11] ∧ q_popped s = [10] ∧
  q_popped s = take (length (q_popped s)) (q_taken s) ∧
  (q_producers s = ∅ → q_dropping s = false →
    (∃ s', qb_try_pop 2 s = Some (q_taken s !! length (q_popped s), s') ∧
      q_popped s' = q_popped s ++ option_list (q_taken s !! length (q_popped s))) ∧
    (∀ t x, (t < 2)%nat → ∃ s', qb_push 2 t x s = Some s' ∧ q_taken s' = q_taken s ++ [x])).
Proof.
  intros ops s. split; [by vm_compute|]. split; [by vm_compute|].
  apply (queue_buffer_in_order 2 2 ops s); [lia|lia|by repeat constructor; cbn; lia|by vm_compute].
Defined.

(** The one memory error of the guaranteed buffer.  Whatever faults under
    any interleaving is a producer's [m_write_state[size].fetch_add] in a
    buffer that the consumer has destroyed: the producer had published its
    line, and the consumer then popped all lines of the buffer. *)
Theorem queue_buffer_race {A} (size K : nat) (ops : list (qb_op (A := A))) f :
  (0 < size)%nat → Z.of_nat size + Z.of_nat K < 2 ^ 32 → Forall (op_thread K) ops →
  qb_run size ops (QueueBuffer_make size) = Some (Fault f) →
  f = UseAfterFree ∧ ∃ ops1 ops2 s t b i, ops = ops1 ++ QStep t :: ops2 ∧
    qb_run size ops1 (QueueBuffer_make size) = Some (Ok s) ∧
    q_producers s !! t = Some (PCount b i) ∧ q_heap s !! b = None ∧
    ((b + 1) * size ≤ length (q_popped s))%nat.
Proof.
  intros Hs HK Ho E. exact (run_fault size K Hs HK ops _ f (start_inv size K Hs) Ho E).
Qed.

(** It does happen. *)
Lemma queue_buffer_race_witness :
  let ops := [QPush 0 10; QPush 1 11; QStep 0; QStep 0; QStep 0; QStep 1; QStep 1; QStep 1;
              QRead; QRead; QRead; QRead; QStep 1] in
  qb_run 2 ops (QueueBuffer_make 2) = Some (Fault UseAfterFree) ∧
  UseAfterFree = UseAfterFree ∧ ∃ ops1 ops2 s t b i, ops = ops1 ++ QStep t :: ops2 ∧
    qb_run 2 ops1 (QueueBuffer_make 2) = Some (Ok s) ∧
    q_producers s !! t = Some (PCount b i) ∧ q_heap s !! b = None ∧
    ((b + 1) * 2 ≤ length (q_popped s))%nat.
Proof.
  intros ops. split; [by vm_compute|].
  apply (queue_buffer_race 2 2 ops UseAfterFree); [lia|lia|by repeat constructor; cbn; lia|by vm_compute].
Defined.
