(* ===== verification/LogBuffer.v ===== *)
(** * The interface of the log buffers (util/nanolog.hpp: BufferBase)

    [BufferBase] as a class, at the accesses to shared memory that a call is made of: what a thread does
    inside [push] and what the consumer does inside [try_pop] may come between any two of another thread's.
    Both buffers are instances.  [GuaranteedBuffer] is what the guaranteed one promises to the logger. *)

From Stdlib Require Import ZArith Lia.
From stdpp Require Import base list numbers gmap.
From S2P Require Import Prelude.
From S2P Require Import RingBuffer.
From S2P Require Import QueueBuffer.

(** Thread [t] calls [push]; its next access there; the consumer's next access inside [try_pop], with what
    the call returns if this is its last one.  [None]: the access has to wait, or there is none. *)
Class BufferBase (A B : Type) := {
  push_call : nat → A → B → option B;
  push_step : nat → B → option (result B);
  pop_step : B → option (result (option (option A) * B))
}.

(** ** The ring *)

Section Ring.
Context {A : Type}.

Definition ring_pop_step (s : ring_sys (A := A)) : option (result (option (option A) * ring_sys)) :=
  match ring_step RPop s with
  | Some s' => Some (Ok (Some (rs_popped s' !! length (rs_popped s)), s'))
  | None => None
  end.

#[global] Instance ring_base : BufferBase A (ring_sys (A := A)) := {
  push_call t x s := ring_step (RTicket t x) s;
  push_step t s := Ok <$> ring_step (RStore t) s;
  pop_step := ring_pop_step
}.
End Ring.

(** ** The queue of buffers *)

Section Queue.
Context {A : Type} (size : nat).

Definition queue_call (t : nat) (x : A) (s : QueueBuffer) : option QueueBuffer :=
  match qb_step size (QPush t x) s with Some (Ok s') => Some s' | _ => None end.

(** [try_pop] returns when there is no buffer to read, when the slot is empty, and with a line, for the last line
    of a buffer after the buffer has been destroyed. *)
Definition queue_returns (s s' : QueueBuffer (A := A)) : option (option A) :=
  if q_dropping s' then None
  else if q_dropping s then Some (last (q_popped s))
  else
    match m_current_read_buffer s, m_current_read_buffer s' with
    | None, None => Some None
    | None, Some _ => None
    | Some _, _ => Some (q_popped s' !! length (q_popped s))
    end.

Definition queue_pop_step (s : QueueBuffer) : option (result (option (option A) * QueueBuffer)) :=
  match reader_step size s with
  | Some (Ok s') => Some (Ok (queue_returns s s', s'))
  | Some (Fault f) => Some (Fault f)
  | None => None
  end.

Definition queue_base : BufferBase A (QueueBuffer (A := A)) := {|
  push_call := queue_call;
  push_step t s := qb_step size (QStep t) s;
  pop_step := queue_pop_step
|}.
End Queue.

(** ** What the guaranteed buffer promises *)

(** The lines in the order of their tickets, those that [try_pop] has returned, and those of calls that have not
    drawn a ticket; whether a thread is inside [push]; how many more accesses of the consumer it takes at most, with no thread
    inside [push], until [try_pop] returns. *)
Class GuaranteedBuffer (A B : Type) `{BufferBase A B} := {
  buffer_ok : B → Prop;
  taken : B → list A;
  returned : B → list A;
  calling : B → list A;
  quiet : B → Prop;
  accesses : B → nat;
  may_call : nat → Prop;
  returned_taken b : buffer_ok b → returned b `prefix_of` taken b;
  quiet_calling b : quiet b → calling b = [];
  call_ok t x b b' : buffer_ok b → may_call t → push_call t x b = Some b' →
    buffer_ok b' ∧ taken b' = taken b ∧ returned b' = returned b ∧ calling b' ≡ₚ x :: calling b;
  step_ok t b b' : buffer_ok b → push_step t b = Some (Ok b') →
    buffer_ok b' ∧ returned b' = returned b ∧ taken b' ++ calling b' ≡ₚ taken b ++ calling b ∧ taken b `prefix_of` taken b';
  pop_ok b r : buffer_ok b → pop_step b = Some r →
    ∃ o b', r = Ok (o, b') ∧ buffer_ok b' ∧ taken b' = taken b ∧ calling b' = calling b ∧
      returned b' = returned b ++ option_list (default None o) ∧ (quiet b → quiet b');
  pop_quiet b : buffer_ok b → quiet b →
    (1 ≤ accesses b ≤ 3)%nat ∧ ∃ o b', pop_step b = Some (Ok (o, b')) ∧
      match o with
      | None => (accesses b' < accesses b)%nat
      | Some None => returned b = taken b
      | Some (Some _) => True
      end
}.

Section QueueLaws.
Context {A : Type} (size K : nat) (Hs : (0 < size)%nat) (HK : Z.of_nat size + Z.of_nat K < 2 ^ 32).
Implicit Types s : QueueBuffer (A := A).

(** *** The lines of calls without a ticket *)

Definition calling_of (p : producer) : option A := match p with PPush x | PWait x => Some x | _ => None end.
Definition callings (ps : gmap nat producer) : list A := omap (λ tp, calling_of tp.2) (map_to_list ps).

Lemma callings_delete ps t p : ps !! t = Some p → callings ps ≡ₚ option_list (calling_of p) ++ callings (delete t ps).
Proof.
  intros Hp. unfold callings. rewrite <- (map_to_list_delete ps t p Hp). cbn. by destruct (calling_of p).
Qed.

Lemma callings_insert ps t p : callings (<[t := p]> ps) ≡ₚ option_list (calling_of p) ++ callings (delete t ps).
Proof. rewrite (callings_delete _ t p) by apply lookup_insert_eq. by rewrite delete_insert_eq. Qed.

Lemma callings_place ps t o : callings (place t o ps) ≡ₚ option_list (o ≫= calling_of) ++ callings (delete t ps).
Proof. destruct o as [p|]; [apply callings_insert|done]. Qed.

Lemma producer_taken p s next s' :
  producer_step size p s = Some (Ok (next, s')) →
  q_producers s' = q_producers s ∧ q_popped s' = q_popped s ∧ q_dropping s' = q_dropping s ∧
  q_taken s `prefix_of` q_taken s' ∧ q_taken s' ++ option_list (next ≫= calling_of) ≡ₚ q_taken s ++ option_list (calling_of p).
Proof.
  destruct p; cbn [producer_step]; repeat case_match; try done; intros [= <- <-]; cbn; split_and!; try done; rewrite ?app_nil_r; try done.
  by apply prefix_app_r.
Qed.

(** *** The lines that have been returned *)

(** The last line of a buffer is returned when the buffer has been destroyed. *)
Definition queue_returned s : list A := if q_dropping s then removelast (q_popped s) else q_popped s.

Lemma removelast_last (l : list A) : l ≠ [] → removelast l ++ option_list (last l) = l.
Proof. intros Hl. induction l as [|x l IH] using rev_ind; [done|]. by rewrite removelast_app, app_nil_r, last_snoc by done. Qed.

Lemma dropping_popped s : qb_inv size K s → q_dropping s = true → q_popped s ≠ [].
Proof.
  intros (G & R & ph & stored & counted & W & Hm & _) Hd Hn. pose proof (mi_reader _ _ _ _ _ _ _ Hm) as Hr.
  rewrite Hd, Hn in Hr. destruct Hr as (_ & _ & Hl & _). cbn in Hl. nia.
Qed.

Lemma popped_taken s : qb_inv size K s → q_popped s `prefix_of` q_taken s.
Proof. intros (G & R & ph & stored & counted & W & Hm & _). rewrite (mi_popped _ _ _ _ _ _ _ Hm). apply prefix_take. Qed.

Lemma queue_returned_prefix s : qb_inv size K s → queue_returned s `prefix_of` q_taken s.
Proof.
  intros Hi. pose proof (popped_taken s Hi) as Hp. unfold queue_returned. destruct (q_dropping s) eqn:Hd; [|done].
  etrans; [|exact Hp]. rewrite <- (removelast_last (q_popped s)) at 2 by by apply dropping_popped. by apply prefix_app_r.
Qed.

Lemma reader_returns s s' :
  qb_inv size K s → reader_step size s = Some (Ok s') →
  queue_returned s' = queue_returned s ++ option_list (default None (queue_returns s s')) ∧
  q_taken s' = q_taken s ∧ q_producers s' = q_producers s.
Proof.
  intros Hi E. pose proof (dropping_popped s Hi) as Hd. unfold queue_returned, queue_returns. unfold reader_step in E. destruct (q_dropping s) eqn:Hdr.
  - unfold read_drop in E. destruct (m_flag s); [done|]. destruct (m_buffers s) as [|b rest]; [done|]. injection E as <-. cbn.
    by rewrite removelast_last by by apply Hd.
  - destruct (m_current_read_buffer s) as [b|] eqn:Hc.
    + unfold read_item in E. destruct (q_heap s !! b) as [buf|]; [|done].
      assert (Hsame : s = s' → (if q_dropping s' then removelast (q_popped s') else q_popped s') =
        q_popped s ++ option_list (default None (if q_dropping s' then None else Some (q_popped s' !! length (q_popped s)))) ∧
        q_taken s' = q_taken s ∧ q_producers s' = q_producers s).
      { intros <-. rewrite Hdr. cbn. rewrite lookup_ge_None_2 by done. by rewrite app_nil_r. }
      destruct (b_items buf !! m_read_index s) as [[x|]|]; [|injection E as E; by apply Hsame..].
      destruct (S (m_read_index s) =? size)%nat; injection E as <-; cbn.
      * rewrite removelast_app by done. cbn. by rewrite !app_nil_r.
      * by rewrite list_lookup_middle.
    + unfold read_get in E. destruct (m_flag s); [done|]. injection E as <-. cbn. rewrite Hdr. destruct (head (m_buffers s)); cbn; by rewrite app_nil_r.
Qed.

(** *** The laws *)

Definition queue_accesses s : nat :=
  if q_dropping s then 1 else match m_current_read_buffer s with Some _ => 2 | None => 3 end.

Lemma queue_call_ok t x s s' :
  qb_inv size K s → (t < K)%nat → queue_call size t x s = Some s' →
  qb_inv size K s' ∧ q_taken s' = q_taken s ∧ queue_returned s' = queue_returned s ∧ callings (q_producers s') ≡ₚ x :: callings (q_producers s).
Proof.
  intros Hi Ht. unfold queue_call. cbn [qb_step]. destruct (q_producers s !! t) eqn:Et; [done|]. intros [= <-].
  split; [by apply push_begins|]. split; [done|]. split; [done|]. cbn [q_producers set_producers].
  etrans; [apply (callings_place _ t (Some (PPush x)))|]. cbn. by rewrite delete_id.
Qed.

Lemma queue_step_ok t s s' :
  qb_inv size K s → qb_step size (QStep t) s = Some (Ok s') →
  qb_inv size K s' ∧ queue_returned s' = queue_returned s ∧
  q_taken s' ++ callings (q_producers s') ≡ₚ q_taken s ++ callings (q_producers s) ∧ q_taken s `prefix_of` q_taken s'.
Proof.
  intros Hi E. split; [by apply (step_inv size K Hs HK (QStep t) s)|]. cbn [qb_step] in E.
  destruct (q_producers s !! t) as [p|] eqn:Et; [|done]. destruct (producer_step size p s) as [[[next s1]|]|] eqn:Ep; [|done..]. injection E as <-.
  destruct (producer_taken p s next s1 Ep) as (E1 & E2 & E3 & Hpre & Hperm). unfold queue_returned. cbn [q_popped q_dropping q_taken q_producers set_producers].
  split; [by rewrite E2, E3|]. split; [|done]. rewrite callings_place, E1, (callings_delete (q_producers s) t p Et), !(assoc_L (++)). by rewrite Hperm.
Qed.

Lemma queue_pop_ok s r :
  qb_inv size K s → queue_pop_step size s = Some r →
  ∃ o s', r = Ok (o, s') ∧ qb_inv size K s' ∧ q_taken s' = q_taken s ∧ callings (q_producers s') = callings (q_producers s) ∧
    queue_returned s' = queue_returned s ++ option_list (default None o) ∧ (q_producers s = ∅ → q_producers s' = ∅).
Proof.
  intros Hi E. unfold queue_pop_step in E. destruct (reader_step size s) as [r1|] eqn:Er; [|done].
  destruct (reader_inv size K Hs HK s r1 Hi Er) as (s' & -> & Hi'). injection E as <-.
  destruct (reader_returns s s' Hi Er) as (E1 & E2 & E3). exists (queue_returns s s'), s'. split_and!; [done|done|done|by rewrite E3|done|congruence].
Qed.

Lemma queue_pop_quiet s :
  qb_inv size K s → q_producers s = ∅ →
  (1 ≤ queue_accesses s ≤ 3)%nat ∧ ∃ o s', queue_pop_step size s = Some (Ok (o, s')) ∧
    match o with
    | None => (queue_accesses s' < queue_accesses s)%nat
    | Some None => queue_returned s = q_taken s
    | Some (Some _) => True
    end.
Proof.
  intros Hi He. split; [unfold queue_accesses; repeat case_match; lia|].
  assert (Hf : m_flag s = false).
  { pose proof Hi as (? & ? & ? & ? & ? & ? & Hm & Htb & Hts & Htp). by apply (quiet_slots size K Hs _ _ _ _ _ _ _ Hm Hts Htp Htb He). }
  destruct (reader_go_inv size K Hs HK s Hi Hf) as (s' & _ & E & Hi'). exists (queue_returns s s'), s'.
  split; [unfold queue_pop_step; by rewrite E|]. assert (Hall : q_dropping s = false → q_taken s !! length (q_popped s) = None → queue_returned s = q_taken s).
  { intros Hd Hn. unfold queue_returned. rewrite Hd. pose proof (popped_taken s Hi) as [l Hl]. rewrite Hl in Hn |- *. destruct l as [|x l]; [by rewrite app_nil_r|].
    by rewrite list_lookup_middle in Hn. }
  unfold queue_returns, queue_accesses. unfold reader_step in E. destruct (q_dropping s) eqn:Hdr.
  - pose proof (dropping_popped s Hi Hdr) as Hne. unfold read_drop in E. rewrite Hf in E. destruct (m_buffers s); [done|]. injection E as <-. cbn.
    destruct (last (q_popped s)) eqn:El; [done|]. by apply last_None in El.
  - destruct (m_current_read_buffer s) as [b|] eqn:Hc.
    + destruct (slot_ready size K Hs s b Hi He Hdr Hc) as (buf & Hb & Hslot). unfold read_item in E. rewrite Hb in E. destruct Hslot as [Hsl|[Hn Hsl]].
      * rewrite Hsl in E. destruct (q_taken s !! length (q_popped s)) as [x|] eqn:Ex.
        -- destruct (S (m_read_index s) =? size)%nat; injection E as <-; cbn; [lia|by rewrite list_lookup_middle].
        -- injection E as <-. rewrite Hdr. rewrite lookup_ge_None_2 by done. by apply Hall.
      * destruct (b_items buf !! m_read_index s) as [[x|]|]; [by destruct (Hsl x)|..]; injection E as <-; rewrite Hdr; rewrite lookup_ge_None_2 by done; by apply Hall.
    + unfold read_get in E. rewrite Hf in E. injection E as <-. cbn. rewrite Hdr. destruct (head (m_buffers s)) eqn:Hh; cbn; [lia|].
      apply Hall; [done|]. destruct (head_ready size K Hs s Hi He Hdr Hc) as [[b Hb]|]; [congruence|done].
Qed.

Definition queue_guaranteed : @GuaranteedBuffer A (QueueBuffer (A := A)) (queue_base size).
Proof.
  refine (@Build_GuaranteedBuffer A _ (queue_base size) (qb_inv size K) q_taken queue_returned (λ s, callings (q_producers s))
    (λ s, q_producers s = ∅) queue_accesses (λ t, (t < K)%nat) _ _ _ _ _ _).
  - apply queue_returned_prefix.
  - intros s He. by rewrite He.
  - apply queue_call_ok.
  - apply queue_step_ok.
  - apply queue_pop_ok.
  - apply queue_pop_quiet.
Defined.
End QueueLaws.
