(* ===== verification/Logger.v ===== *)
(** * The logger (util/nanolog.hpp: FileWriter, NanoLogger, Logger)

    [NanoLogger] is written against the interface of LogBuffer, with the threads' accesses inside [push] and those
    of its own thread inside [try_pop] as events.  The file system is a map from names to
    contents; the clock and what [tellp] says of a file just opened for
    appending are arguments.  Results: every line logged with the guaranteed buffer reaches the file
    writer once and in the order of the tickets, also those still buffered at the destruction, unless the race
    of QueueBuffer is met;
    within one hour all of it goes to one file, whatever the roll size. *)

From Stdlib Require Import ZArith Lia Strings.Byte Strings.String.
From stdpp Require Import base list numbers gmap strings.
From S2P Require Import Prelude.
From S2P Require Import LogLine.
From S2P Require Import RingBuffer.
From S2P Require Import QueueBuffer.
From S2P Require Import LogBuffer.

#[local] Open Scope Z_scope.

(** ** The file writer *)

Section Logging.
Context (literal : Z → list byte) (show_double show_thread : Z → list byte) (localtime : Z → option tm).
(** Whether a file can be opened; where [tellp] is in a file of that length
    just opened for appending. *)
Context (opens : string → bool) (app_pos : Z → Z).

(** [m_os] is the name of the open file and its position, or a stream in the
    failed state. *)
Record FileWriter := mkFW {
  m_file_number : Z;
  m_bytes_written : Z;
  m_log_file_roll_size_bytes : Z;
  m_name : list byte;
  m_os : option (string * Z);
  fw_files : gmap string (list byte)
}.

(** [get_real_logfilename], with the number already incremented. *)
Definition log_file_name (name : list byte) (timestamp number : Z) : string :=
  string_of_list_byte (name ++ ["_"%byte] ++ get_datetime localtime timestamp ++ ["_"%byte] ++ show_Z number).

(** [create_file] at the time [now]. *)
Definition create_file (now : Z) (w : FileWriter) : FileWriter :=
  let number := u32 (m_file_number w + 1) in
  let file_name := log_file_name (m_name w) now number in
  if opens file_name then
    let content := default [] (fw_files w !! file_name) in
    mkFW number (m_bytes_written w) (m_log_file_roll_size_bytes w) (m_name w)
      (Some (file_name, app_pos (zlen content))) (<[file_name := content]> (fw_files w))
  else
    mkFW number (m_bytes_written w) (m_log_file_roll_size_bytes w) (m_name w) None (fw_files w).

Definition roll_file (now : Z) (w : FileWriter) : FileWriter :=
  create_file now (mkFW 0 0 (m_log_file_roll_size_bytes w) (m_name w) (m_os w) (fw_files w)).

Definition FileWriter_make (now : Z) (log_directory log_file_name : list byte) (roll_size_mb : Z)
    (files : gmap string (list byte)) : FileWriter :=
  create_file now (mkFW 0 0 (u32 (u32 (roll_size_mb * 1024) * 1024)) (log_directory ++ log_file_name) None files).

(** [write]: in append mode the text goes to the end of the file, and [tellp]
    is there then; a failed stream answers -1 before and after. *)
Definition fw_write (now : Z) (l : NanoLogLine) (w : FileWriter) : result FileWriter :=
  match stringify literal show_double show_thread localtime l with
  | Fault f => Fault f
  | Ok text =>
      let w :=
        match m_os w with
        | None => w
        | Some (name, pos) =>
            let content := default [] (fw_files w !! name) ++ text in
            mkFW (m_file_number w) (m_bytes_written w + (zlen content - pos)) (m_log_file_roll_size_bytes w)
              (m_name w) (Some (name, zlen content)) (<[name := content]> (fw_files w))
        end in
      Ok (if m_bytes_written w >? m_log_file_roll_size_bytes w then roll_file now w else w)
  end.

Fixpoint fw_write_all (ws : list (Z * NanoLogLine)) (w : FileWriter) : result FileWriter :=
  match ws with
  | [] => Ok w
  | (now, l) :: ws' => match fw_write now l w with Ok w' => fw_write_all ws' w' | Fault f => Fault f end
  end.

Definition prints (l : NanoLogLine) (text : list byte) : Prop :=
  stringify literal show_double show_thread localtime l = Ok text.

(** The writer has file [name] open. *)
Definition writes_to (name : string) (base : list byte) (w : FileWriter) : Prop :=
  m_name w = base ∧ ∃ pos, m_os w = Some (name, pos).

Lemma roll_same now w name base d :
  writes_to name base w → get_datetime localtime now = d → opens name = true →
  name = string_of_list_byte (base ++ ["_"%byte] ++ d ++ ["_"%byte] ++ show_Z 1) →
  is_Some (fw_files w !! name) →
  writes_to name base (roll_file now w) ∧ fw_files (roll_file now w) = fw_files w.
Proof.
  intros (Eb & pos & Eo) Ed Ho En [content Hc]. unfold roll_file, create_file. cbn [m_file_number m_name fw_files].
  change (u32 (0 + 1)) with 1. unfold log_file_name. rewrite Eb, Ed, <- En, Ho, Hc. cbn [default from_option].
  split; [split; [done|by eexists]|]. cbn [fw_files id]. by apply insert_id.
Qed.

Lemma write_same now l text w name base d :
  writes_to name base w → get_datetime localtime now = d → opens name = true →
  name = string_of_list_byte (base ++ ["_"%byte] ++ d ++ ["_"%byte] ++ show_Z 1) → prints l text →
  ∃ w', fw_write now l w = Ok w' ∧ writes_to name base w' ∧
    fw_files w' = <[name := default [] (fw_files w !! name) ++ text]> (fw_files w).
Proof.
  intros (Eb & pos & Eo) Ed Ho En Hp. unfold fw_write. rewrite Hp, Eo. eexists. split; [reflexivity|].
  set (w1 := mkFW _ _ _ _ _ _). assert (Hw1 : writes_to name base w1) by (split; [done|by eexists]).
  destruct (m_bytes_written w1 >? m_log_file_roll_size_bytes w1); [|done].
  destruct (roll_same now w1 name base d Hw1 Ed Ho En) as [H1 H2]; [cbn; rewrite lookup_insert_eq; by eexists|].
  by rewrite H2.
Qed.

Lemma write_all_same nows lines texts w name base d :
  Forall2 prints lines texts → length nows = length lines → Forall (λ now, get_datetime localtime now = d) nows →
  writes_to name base w → opens name = true →
  name = string_of_list_byte (base ++ ["_"%byte] ++ d ++ ["_"%byte] ++ show_Z 1) →
  ∃ w', fw_write_all (zip nows lines) w = Ok w' ∧
    (fw_files w' = <[name := default [] (fw_files w !! name) ++ concat texts]> (fw_files w) ∨
     (lines = [] ∧ w' = w)).
Proof.
  intros Hl. revert nows w. induction Hl as [|l text lines texts Hp Hl IH]; intros nows w Hn Hd Hw Ho En.
  { destruct nows; [|done]. exists w. split; [done|by right]. }
  destruct nows as [|now nows]; [done|]. apply Forall_cons in Hd as [Hd Hds]. injection Hn as Hn.
  destruct (write_same now l text w name base d Hw Hd Ho En Hp) as (w1 & E1 & Hw1 & Ef1).
  destruct (IH nows w1 Hn Hds Hw1 Ho En) as (w' & E' & Hf). exists w'. cbn [zip zip_with fw_write_all].
  rewrite E1. split; [done|left]. cbn [concat].
  destruct Hf as [Hf|[-> ->]]; rewrite Ef1 in *.
  - by rewrite Hf, lookup_insert_eq, insert_insert_eq, app_assoc.
  - apply Forall2_nil_inv_l in Hl as ->. by rewrite app_nil_r.
Qed.

Lemma make_writes now dir file mb files d :
  let name := string_of_list_byte ((dir ++ file) ++ ["_"%byte] ++ d ++ ["_"%byte] ++ show_Z 1) in
  get_datetime localtime now = d → opens name = true →
  writes_to name (dir ++ file) (FileWriter_make now dir file mb files) ∧
  fw_files (FileWriter_make now dir file mb files) = <[name := default [] (files !! name)]> files.
Proof.
  intros name Ed Ho. unfold FileWriter_make, create_file, log_file_name. cbn [m_file_number m_name].
  change (u32 (0 + 1)) with 1. rewrite Ed. fold name. rewrite Ho. split; [split; [done|by eexists]|done].
Qed.

(** ** The logger and its thread *)

Section NanoLogger.
Context {B : Type} `{BufferBase NanoLogLine B}.

Inductive State := INIT | READY | SHUTDOWN.

(** Where the thread is in [pop]: waits for the constructor, looks at the state, is inside [try_pop] in the
    loop or in the one that drains the buffer, has returned. *)
Inductive pop_at := Starts | Reads | Popping (drains : bool) | Exits.

Record NanoLogger := mkNL {
  m_state : State;
  m_buffer_base : B;
  m_file_writer : FileWriter;
  m_thread : pop_at
}.

(** Both constructors, up to the store of [READY]. *)
Definition NanoLogger_make (b : B) (now : Z) (log_directory log_file_name : list byte) (roll_size_mb : Z)
    (files : gmap string (list byte)) : NanoLogger :=
  mkNL INIT b (FileWriter_make now log_directory log_file_name (Z.max 1 roll_size_mb) files) Starts.

Definition set_state (st : State) (n : NanoLogger) : NanoLogger :=
  mkNL st (m_buffer_base n) (m_file_writer n) (m_thread n).

Definition set_buffer (b : B) (n : NanoLogger) : NanoLogger := mkNL (m_state n) b (m_file_writer n) (m_thread n).
Definition goes (p : pop_at) (n : NanoLogger) : NanoLogger := mkNL (m_state n) (m_buffer_base n) (m_file_writer n) p.

(** [add] begins. *)
Definition nl_add (t : nat) (l : NanoLogLine) (n : NanoLogger) : option (result NanoLogger) :=
  match push_call t l (m_buffer_base n) with
  | Some b => Some (Ok (set_buffer b n))
  | None => None
  end.

Definition is_logged (level : LogLevel) (loglevel : Z) : bool := level_value level >=? loglevel.

(** [LOG_...]: a line of [level] under the threshold [loglevel]. *)
Definition nl_log (loglevel : Z) (t : nat) (level : LogLevel) (l : NanoLogLine) (n : NanoLogger) :
    option (result NanoLogger) :=
  if is_logged level loglevel then nl_add t l n else Some (Ok n).

(** An access of [try_pop], and what comes after its return: [write], or the end of the loop. *)
Definition pop_line (now : Z) (drains : bool) (n : NanoLogger) : option (result NanoLogger) :=
  match pop_step (m_buffer_base n) with
  | None => None
  | Some (Fault f) => Some (Fault f)
  | Some (Ok (None, b)) => Some (Ok (set_buffer b n))
  | Some (Ok (Some None, b)) => Some (Ok (goes (if drains then Exits else Reads) (set_buffer b n)))
  | Some (Ok (Some (Some l), b)) =>
      match fw_write now l (m_file_writer n) with
      | Ok w => Some (Ok (mkNL (m_state n) b w (if drains then Popping true else Reads)))
      | Fault f => Some (Fault f)
      end
  end.

(** One access of the thread at the time [now]. *)
Definition pop_turn (now : Z) (n : NanoLogger) : option (result NanoLogger) :=
  match m_thread n with
  | Starts => Some (Ok (match m_state n with INIT => n | _ => goes Reads n end))
  | Reads => Some (Ok (goes (Popping (match m_state n with READY => false | _ => true end)) n))
  | Popping drains => pop_line now drains n
  | Exits => Some (Ok n)
  end.

Inductive event :=
  | EvLog (t : nat) (level : LogLevel) (l : NanoLogLine)
  | EvStep (t : nat)   (** the next access of thread [t] inside [push] *)
  | EvReady
  | EvTurn (now : Z)
  | EvShutdown.   (** the destructor, up to [join] *)

Definition nl_step (loglevel : Z) (e : event) (n : NanoLogger) : option (result NanoLogger) :=
  match e with
  | EvLog t level l => nl_log loglevel t level l n
  | EvStep t =>
      match push_step t (m_buffer_base n) with
      | None => None
      | Some (Fault f) => Some (Fault f)
      | Some (Ok b) => Some (Ok (set_buffer b n))
      end
  | EvReady => Some (Ok (set_state READY n))
  | EvTurn now => pop_turn now n
  | EvShutdown => Some (Ok (set_state SHUTDOWN n))
  end.

(** Runs a schedule up to the first fault. *)
Fixpoint nl_run (loglevel : Z) (es : list event) (n : NanoLogger) : option (result NanoLogger) :=
  match es with
  | [] => Some (Ok n)
  | e :: es' => match nl_step loglevel e n with Some (Ok n') => nl_run loglevel es' n' | r => r end
  end.

(** The lines logged in a run, and the clock readings of the thread. *)
Definition logged (loglevel : Z) (es : list event) : list NanoLogLine :=
  omap (λ e, match e with EvLog _ level l => if is_logged level loglevel then Some l else None | _ => None end) es.
Definition turns (es : list event) : list Z :=
  omap (λ e, match e with EvTurn now => Some now | _ => None end) es.

(** Every line can be printed. *)
Definition printable (e : event) : Prop :=
  match e with EvLog _ _ l => ∃ text, prints l text | _ => True end.

Lemma write_all_snoc ws now l w w' :
  fw_write_all ws w = Ok w' → fw_write_all (ws ++ [(now, l)]) w = fw_write now l w'.
Proof.
  revert w. induction ws as [|[now1 l1] ws IH]; intros w E; cbn [app fw_write_all] in *.
  - injection E as ->. by destruct (fw_write now l w').
  - destruct (fw_write now1 l1 w); [by apply IH|done].
Qed.

Lemma prints_writes now l text w : prints l text → ∃ w', fw_write now l w = Ok w'.
Proof. intros Hp. unfold fw_write. rewrite Hp. by eexists. Qed.

Lemma nl_run_app loglevel es1 es2 n n1 : nl_run loglevel es1 n = Some (Ok n1) → nl_run loglevel (es1 ++ es2) n = nl_run loglevel es2 n1.
Proof.
  revert n. induction es1 as [|e es1 IH]; intros n E; [by injection E as ->|]. cbn [app nl_run] in *.
  destruct (nl_step loglevel e n) as [[n2|]|]; [by apply IH|done..].
Qed.

(** *** With a guaranteed buffer *)

Section Guaranteed.
Context `{!GuaranteedBuffer NanoLogLine B} (loglevel : Z) (w0 : FileWriter).

(** The lines [ls] have been logged, at [ts] the thread has read the clock. *)
Record logger_ok (ls : list NanoLogLine) (ts : list Z) (n : NanoLogger) : Prop := {
  lo_buffer : buffer_ok (m_buffer_base n);
  lo_lines : taken (m_buffer_base n) ++ calling (m_buffer_base n) ≡ₚ ls;
  lo_printed : Forall (λ l, ∃ text, prints l text) ls;
  lo_written : ∃ clocks, length clocks = length (returned (m_buffer_base n)) ∧ Forall (λ c, c ∈ ts) clocks ∧
    fw_write_all (zip clocks (returned (m_buffer_base n))) w0 = Ok (m_file_writer n)
}.

(** The buffer has gone on and nothing has been returned. *)
Lemma logger_same ls ls' ts ts' n n' :
  logger_ok ls ts n → buffer_ok (m_buffer_base n') → taken (m_buffer_base n') ++ calling (m_buffer_base n') ≡ₚ ls' →
  Forall (λ l, ∃ text, prints l text) ls' → returned (m_buffer_base n') = returned (m_buffer_base n) → ts ⊆ ts' →
  m_file_writer n' = m_file_writer n → logger_ok ls' ts' n'.
Proof.
  intros [_ _ _ (cl & Hl & Hc & E)] Hb Hp Hf Hr Hts Hw. split; [done..|]. exists cl. rewrite Hr, Hw. split_and!; [done| |done].
  eapply Forall_impl; [exact Hc|]. intros c Hin. by apply Hts.
Qed.

(** The next access of the thread inside [try_pop]. *)
Lemma pop_line_ok ls ts now drains n r :
  logger_ok ls ts n → pop_line now drains n = Some r → ∃ n', r = Ok n' ∧ logger_ok ls (ts ++ [now]) n' ∧ m_state n' = m_state n ∧
    taken (m_buffer_base n') = taken (m_buffer_base n) ∧ calling (m_buffer_base n') = calling (m_buffer_base n).
Proof.
  intros L E. pose proof L as [Hb Hp Hf (cl & Hl & Hc & Ew)]. unfold pop_line in E. destruct (pop_step (m_buffer_base n)) as [r1|] eqn:Es; [|done].
  destruct (pop_ok _ _ Hb Es) as (o & b' & -> & Hb' & Et & Ec & Er & _).
  assert (Hts : ts ⊆ ts ++ [now]) by (intros x; rewrite elem_of_app; by left).
  assert (Hp' : taken b' ++ calling b' ≡ₚ ls) by by rewrite Et, Ec.
  destruct o as [[l|]|]; cbn in Er; rewrite ?app_nil_r in Er.
  2,3: injection E as <-; eexists; split; [reflexivity|]; split; [by apply (logger_same ls ls ts _ n)|done].
  assert (Hpr : ∃ text, prints l text).
  { rewrite <- Hp' in Hf. apply Forall_app in Hf as [Hf _]. destruct (returned_taken _ Hb') as [rest Hrest]. rewrite Hrest, Er in Hf.
    apply Forall_app in Hf as [Hf _]. apply Forall_app in Hf as [_ Hf]. by apply Forall_inv in Hf. }
  destruct Hpr as [text Ht]. destruct (prints_writes now l text (m_file_writer n) Ht) as [w' Ew']. rewrite Ew' in E. injection E as <-.
  eexists. split; [reflexivity|]. split; [|done]. split; [done..|]. exists (cl ++ [now]). cbn [m_buffer_base m_file_writer id] in Er |- *. rewrite Er, !length_app. cbn [length].
  split; [lia|]. split.
  - apply Forall_app. split; [eapply Forall_impl; [exact Hc|]; intros c Hin; by apply Hts|]. constructor; [|done]. rewrite elem_of_app. right. by left.
  - rewrite zip_with_app by done. cbn [zip_with]. by rewrite (write_all_snoc _ _ _ _ _ Ew).
Qed.

(** The threads that log are known to the buffer. *)
Definition caller_ok (e : event) : Prop := match e with EvLog t _ _ => may_call t | _ => True end.

Lemma nl_step_ok ls ts e n r :
  logger_ok ls ts n → printable e → caller_ok e → nl_step loglevel e n = Some r →
  match r with
  | Ok n' => logger_ok (ls ++ logged loglevel [e]) (ts ++ turns [e]) n'
  | Fault f => ∃ t, e = EvStep t ∧ push_step t (m_buffer_base n) = Some (Fault f)
  end.
Proof.
  intros L Hpr Hca E. pose proof L as [Hb Hp Hf Hw].
  assert (Hsame : logger_ok (ls ++ []) (ts ++ []) n) by by rewrite !app_nil_r.
  destruct e as [t level l|t| |now|]; cbn [nl_step] in E; cbn [logged turns omap list_omap].
  - unfold nl_log, nl_add in E. destruct (is_logged level loglevel) eqn:Hlog; [|by injection E as <-].
    destruct (push_call t l (m_buffer_base n)) as [b|] eqn:Ec; [|done]. injection E as <-.
    destruct (call_ok t l _ b Hb Hca Ec) as (Hb' & Et & Er & Eca). rewrite app_nil_r.
    apply (logger_same ls _ ts ts n); [done|done| | |done|done|done].
    + cbn [set_buffer m_buffer_base]. rewrite Et, Eca. rewrite <- Hp. by rewrite <- (assoc_L (++)), (comm (++) _ [l]).
    + apply Forall_app. split; [done|by repeat constructor].
  - destruct (push_step t (m_buffer_base n)) as [[b|f]|] eqn:Es; [..|done]; injection E as <-; [|by exists t].
    destruct (step_ok t _ b Hb Es) as (Hb' & Er & Hp' & _). rewrite !app_nil_r. apply (logger_same ls ls ts ts n); try done.
    cbn [set_buffer m_buffer_base]. by rewrite Hp'.
  - injection E as <-. destruct Hsame; by split.
  - rewrite app_nil_r. assert (Hts : ts ⊆ ts ++ [now]) by (intros x; rewrite elem_of_app; by left).
    unfold pop_turn in E. destruct (m_thread n) eqn:Ht.
    1,2,4: injection E as <-; apply (logger_same ls ls ts _ n); try done; by destruct (m_state n).
    destruct (pop_line_ok ls ts now drains n r L E) as (n' & -> & L' & _). done.
  - injection E as <-. destruct Hsame; by split.
Qed.

Lemma logged_cons e es : logged loglevel (e :: es) = logged loglevel [e] ++ logged loglevel es.
Proof. unfold logged. by rewrite <- omap_app. Qed.

Lemma turns_cons e es : turns (e :: es) = turns [e] ++ turns es.
Proof. unfold turns. by rewrite <- omap_app. Qed.

Lemma nl_run_ok ls ts es n r :
  logger_ok ls ts n → Forall printable es → Forall caller_ok es → nl_run loglevel es n = Some r →
  match r with
  | Ok n' => logger_ok (ls ++ logged loglevel es) (ts ++ turns es) n'
  | Fault f => ∃ es1 t es2 n1, es = es1 ++ EvStep t :: es2 ∧ nl_run loglevel es1 n = Some (Ok n1) ∧
      buffer_ok (m_buffer_base n1) ∧ push_step t (m_buffer_base n1) = Some (Fault f)
  end.
Proof.
  revert ls ts n. induction es as [|e es IH]; intros ls ts n L Hp Hc E; [injection E as <-; by rewrite !app_nil_r|].
  apply Forall_cons in Hp as [Hpe Hp]. apply Forall_cons in Hc as [Hce Hc]. cbn [nl_run] in E.
  destruct (nl_step loglevel e n) as [[n1|f]|] eqn:Es; [..|done]; pose proof (nl_step_ok ls ts e n _ L Hpe Hce Es) as H1.
  - specialize (IH _ _ _ H1 Hp Hc E). destruct r as [n'|f].
    + by rewrite logged_cons, turns_cons, !(assoc_L (++)).
    + destruct IH as (es1 & t & es2 & n2 & -> & E2 & Hb & Hf). exists (e :: es1), t, es2, n2. split; [done|]. split; [cbn [nl_run]; by rewrite Es|done].
  - injection E as <-. destruct H1 as (t & -> & Hf). exists [], t, es, n. split; [done|]. split; [done|]. split; [apply L|done].
Qed.

(** *** The destructor *)

(** Before the shutdown the thread has not left its loop. *)
Definition looping (n : NanoLogger) : Prop :=
  (m_thread n = Starts ∧ m_state n ≠ SHUTDOWN) ∨ ((m_thread n = Reads ∨ m_thread n = Popping false) ∧ m_state n = READY).

Lemma step_looping e n n' : e ≠ EvShutdown → looping n → nl_step loglevel e n = Some (Ok n') → looping n'.
Proof.
  intros He Hl E. destruct e as [t level l|t| |now|]; cbn [nl_step] in E; [| | | |done].
  - unfold nl_log, nl_add in E. repeat case_match; try done; by injection E as <-.
  - repeat case_match; try done; by injection E as <-.
  - injection E as <-. unfold looping in *. cbn. destruct Hl as [[-> _]|[Ht _]]; [by left|by right].
  - unfold pop_turn, pop_line in E. unfold looping in *. destruct Hl as [[Ht Hs]|[[Ht|Ht] Hs]]; rewrite Ht, ?Hs in E.
    + injection E as <-. destruct (m_state n) eqn:Es; cbn; [left; by rewrite Es|right; by split; [left|]|done].
    + injection E as <-. cbn. right. by split; [right|].
    + repeat case_match; try done; injection E as <-; cbn; right; (split; [|done]); by (left + right).
Qed.

Lemma run_looping es n n' : EvShutdown ∉ es → looping n → nl_run loglevel es n = Some (Ok n') → looping n'.
Proof.
  revert n. induction es as [|e es IH]; intros n Hn Hl E; [by injection E as <-|]. apply not_elem_of_cons in Hn as [Hne Hn]. cbn [nl_run] in E.
  destruct (nl_step loglevel e n) as [[n1|]|] eqn:Es; [|done..]. by apply (IH n1 Hn); [eapply step_looping|].
Qed.

(** The lines not returned yet, and how many turns it takes at most until the thread has returned. *)
Definition left_lines (n : NanoLogger) : nat := length (taken (m_buffer_base n)) - length (returned (m_buffer_base n)).
Definition turns_left (n : NanoLogger) : nat :=
  match m_thread n with
  | Starts => 3 * left_lines n + 5
  | Reads => 3 * left_lines n + 4
  | Popping drains => 3 * left_lines n + accesses (m_buffer_base n) + (if drains then 0 else 4)
  | Exits => 0
  end%nat.

(** After the shutdown the thread ends only when nothing is left. *)
Definition drained (n : NanoLogger) : Prop := m_thread n = Exits → returned (m_buffer_base n) = taken (m_buffer_base n).

Lemma turn_drains ls ts now n :
  logger_ok ls ts n → quiet (m_buffer_base n) → m_state n = SHUTDOWN → drained n →
  ∃ n', pop_turn now n = Some (Ok n') ∧ logger_ok ls (ts ++ [now]) n' ∧ quiet (m_buffer_base n') ∧ m_state n' = SHUTDOWN ∧ drained n' ∧
    taken (m_buffer_base n') = taken (m_buffer_base n) ∧ (turns_left n' ≤ turns_left n - 1)%nat.
Proof.
  intros L Hq Hst Hd. assert (Hts : ts ⊆ ts ++ [now]) by (intros x; rewrite elem_of_app; by left).
  assert (Hsame : ∀ n', m_buffer_base n' = m_buffer_base n → m_file_writer n' = m_file_writer n → logger_ok ls (ts ++ [now]) n').
  { intros n' Eb Ew. destruct L as [Lb Lp Lf Lw]. apply (logger_same ls ls ts _ n); rewrite ?Eb; try done. }
  pose proof (pop_quiet _ (lo_buffer _ _ _ L) Hq) as [Hacc (o & b' & Eb & Ho)].
  unfold pop_turn. destruct (m_thread n) as [| |drains|] eqn:Ht.
  - rewrite Hst. exists (goes Reads n). split_and!; try done; [by apply Hsame|]. unfold turns_left, left_lines. rewrite Ht. cbn. lia.
  - rewrite Hst. exists (goes (Popping true) n). split_and!; try done; [by apply Hsame|]. unfold turns_left, left_lines. rewrite Ht. cbn. lia.
  - destruct (pop_line now drains n) as [r|] eqn:E.
    2:{ unfold pop_line in E. rewrite Eb in E. by repeat case_match. }
    destruct (pop_line_ok ls ts now drains n r L E) as (n' & -> & L' & Es & Et & _). exists n'. split; [done|]. split; [done|].
    unfold pop_line in E. rewrite Eb in E. destruct (pop_ok _ _ (lo_buffer _ _ _ L) Eb) as (o1 & b1 & [= <- <-] & Hb' & Et' & _ & Er & Hq').
    specialize (Hq' Hq). pose proof (returned_taken _ Hb') as Hpre. apply prefix_length in Hpre. rewrite Er, Et', length_app in Hpre.
    pose proof (pop_quiet _ Hb' Hq') as [Hacc' _]. unfold turns_left, left_lines, drained. rewrite Ht.
    destruct o as [[l|]|]; cbn in Er, Hpre, Ho; rewrite ?app_nil_r in Er; rewrite ?Nat.add_0_r in Hpre.
    + destruct (fw_write now l (m_file_writer n)) as [w|]; [|done]. injection E as <-. cbn [m_buffer_base m_thread m_state] in *. rewrite Er, Et, length_app. cbn [length id].
      split_and!; try done; destruct drains; done || lia.
    + injection E as <-. cbn [m_buffer_base m_thread m_state goes set_buffer] in *. rewrite Er, Et. split_and!; try done. destruct drains; lia.
    + injection E as <-. cbn [m_buffer_base m_thread m_state set_buffer] in *. rewrite Er, Et, Ht. split_and!; try done. lia.
  - exists n. split_and!; try done; [by apply Hsame|]. unfold turns_left. rewrite Ht. lia.
Qed.

Lemma turns_drain ls ts nows n :
  logger_ok ls ts n → quiet (m_buffer_base n) → m_state n = SHUTDOWN → drained n → (turns_left n ≤ length nows)%nat →
  ∃ n', nl_run loglevel (map EvTurn nows) n = Some (Ok n') ∧ m_thread n' = Exits ∧ logger_ok ls (ts ++ nows) n' ∧ drained n' ∧
    taken (m_buffer_base n') = taken (m_buffer_base n).
Proof.
  revert ts n. induction nows as [|now nows IH]; intros ts n L Hq Hs Hd Hl.
  - exists n. rewrite app_nil_r. split_and!; try done. pose proof (proj1 (pop_quiet _ (lo_buffer _ _ _ L) Hq)). unfold turns_left in Hl. cbn in Hl.
    by destruct (m_thread n); try lia.
  - destruct (turn_drains ls ts now n L Hq Hs Hd) as (n1 & E1 & L1 & Hq1 & Hs1 & Hd1 & Et & Hlt). cbn [length] in Hl.
    destruct (IH (ts ++ [now]) n1 L1 Hq1 Hs1 Hd1) as (n' & E' & Hx & L' & Hd' & Et'); [lia|]. exists n'. cbn [map nl_run nl_step]. rewrite E1.
    rewrite <- (assoc_L (++)) in L'. split_and!; [done|done|done|done|congruence].
Qed.

Lemma shutdown_drains ls ts nows n :
  logger_ok ls ts n → quiet (m_buffer_base n) → looping n → (3 * length ls + 7 ≤ length nows)%nat →
  ∃ n' clocks, nl_run loglevel (EvShutdown :: map EvTurn nows) n = Some (Ok n') ∧ m_thread n' = Exits ∧
    length clocks = length (taken (m_buffer_base n)) ∧ Forall (λ c, c ∈ ts ++ nows) clocks ∧
    fw_write_all (zip clocks (taken (m_buffer_base n))) w0 = Ok (m_file_writer n').
Proof.
  intros L Hq Hl Hn. cbn [nl_run nl_step]. set (n0 := set_state SHUTDOWN n).
  assert (L0 : logger_ok ls ts n0) by by destruct L; split.
  assert (Hlen : (length (taken (m_buffer_base n)) ≤ length ls)%nat) by (rewrite <- (Permutation_length (lo_lines _ _ _ L)), length_app; lia).
  pose proof (proj1 (pop_quiet _ (lo_buffer _ _ _ L) Hq)).
  destruct (turns_drain ls ts nows n0) as (n' & E & Hx & [_ _ _ (cl & Hcl & Hc & Ew)] & Hd & Et); [done|done|done| | |].
  - unfold drained. cbn. by destruct Hl as [[-> _]|[[-> | ->] _]].
  - unfold turns_left, left_lines. cbn [m_thread m_buffer_base n0 set_state]. destruct Hl as [[-> _]|[[-> | ->] _]]; lia.
  - exists n', cl. rewrite (Hd Hx), Et in *. done.
Qed.
End Guaranteed.

End NanoLogger.

End Logging.

(** C16: the guaranteed logger, the one the program uses, at the accesses to shared memory: any schedule of log calls of
    any threads, of the accesses inside their pushes, and of those of the logger's thread, before the destructor runs, for lines that can be
    printed.  If the schedule meets a fault, it is the one of QueueBuffer: a producer counts its line in a buffer that the
    thread has destroyed.  If not, the file writer has been given the first lines in the order of their tickets; and
    whenever no thread is inside a push, these tickets are the lines logged at or above the level, each once, and when
    the destructor then runs, the thread ends after at most three turns for each line and seven more, and the file writer has been given all of
    them, in the order of the tickets. *)
Theorem logger_writes_all literal show_double show_thread localtime opens app_pos size K
    loglevel now0 dir file mb files es nows r :
  (0 < size)%nat → Z.of_nat size + Z.of_nat K < 2 ^ 32 →
  Forall (printable literal show_double show_thread localtime) es →
  Forall (λ e, match e with EvLog t _ _ => (t < K)%nat | _ => True end) es → EvShutdown ∉ es →
  (3 * length (logged loglevel es) + 7 ≤ length nows)%nat →
  let run := @nl_run literal show_double show_thread localtime opens app_pos _ (queue_base size) loglevel in
  let n0 := NanoLogger_make localtime opens app_pos (QueueBuffer_make size) now0 dir file mb files in
  let writes clocks lines w := fw_write_all literal show_double show_thread localtime opens app_pos (zip clocks lines)
    (FileWriter_make localtime opens app_pos now0 dir file (Z.max 1 mb) files) = Ok w in
  run es n0 = Some r →
  match r with
  | Fault f => f = UseAfterFree ∧ ∃ es1 t es2 n b i, es = es1 ++ EvStep t :: es2 ∧ run es1 n0 = Some (Ok n) ∧
      q_producers (m_buffer_base n) !! t = Some (PCount b i) ∧ q_heap (m_buffer_base n) !! b = None
  | Ok n =>
      let lines := q_taken (m_buffer_base n) in
      (∃ clocks, Forall (λ c, c ∈ turns es) clocks ∧ writes clocks (take (length clocks) lines) (m_file_writer n)) ∧
      (q_producers (m_buffer_base n) = ∅ →
        lines ≡ₚ logged loglevel es ∧
        ∃ n' clocks, run (EvShutdown :: map EvTurn nows) n = Some (Ok n') ∧ m_thread n' = Exits ∧
          length clocks = length lines ∧ Forall (λ c, c ∈ turns es ++ nows) clocks ∧ writes clocks lines (m_file_writer n'))
  end.
Proof.
  intros Hs HK Hp Hc Hn Hl run n0 writes E.
  set (w0 := FileWriter_make localtime opens app_pos now0 dir file (Z.max 1 mb) files) in *. pose (G := queue_guaranteed (A := NanoLogLine) size K Hs HK).
  assert (L0 : @logger_ok literal show_double show_thread localtime opens app_pos _ (queue_base size) G w0 [] [] n0).
  { split; [by apply start_inv|done|done|]. by exists []. }
  pose proof (@nl_run_ok literal show_double show_thread localtime opens app_pos _ (queue_base size) G loglevel w0 [] [] es n0 r L0 Hp Hc E) as H.
  destruct r as [n|f].
  - cbn [app] in H. split.
    + destruct (lo_written _ _ _ _ _ _ _ _ _ _ H) as (cl & Hcl & Hcs & Ew). exists cl. split; [done|]. unfold writes. rewrite Hcl.
      destruct (returned_taken _ (lo_buffer _ _ _ _ _ _ _ _ _ _ H)) as [rest Hr]. change (taken (m_buffer_base n)) with (q_taken (m_buffer_base n)) in Hr.
      by rewrite Hr, take_app_length.
    + intros Hq. assert (Hquiet : quiet (GuaranteedBuffer := G) (m_buffer_base n)) by done. split.
      { pose proof (lo_lines _ _ _ _ _ _ _ _ _ _ H) as Hp'. rewrite (quiet_calling _ Hquiet), app_nil_r in Hp'. exact Hp'. }
      apply (@shutdown_drains literal show_double show_thread localtime opens app_pos _ (queue_base size) G loglevel w0 (logged loglevel es) (turns es) nows n H Hquiet); [|done].
      eapply run_looping; [exact Hn| |exact E]. by left.
  - destruct H as (es1 & t & es2 & n & -> & E1 & Hb & Hf). destruct (step_fault size K Hs HK (QStep t) _ f Hb Hf) as (-> & t' & b & i & [= <-] & Ht & Hh & _).
    split; [done|]. by exists es1, t, es2, n, b, i.
Qed.

(** A line to log, and the arguments of the model. *)
Definition sample_line (level : LogLevel) : NanoLogLine :=
  match NanoLogLine_make x00 1000 1 level 0 0 7 with
  | Ok (_, l) => l
  | Fault _ => mkLine 0 0 None []
  end.

Lemma sample_prints level : ∃ text, prints (λ _, []) (λ _, []) (λ _, []) (λ _, None) (sample_line level) text.
Proof. destruct level; eexists; vm_compute; reflexivity. Qed.

(** Buffers of two lines, three lines logged by two threads, one of them below the level; the accesses of the pushes come between
    those of the thread, which has written one line before the destructor runs. *)
Lemma logger_writes_all_witness :
  let es := [EvLog 0 WARN (sample_line WARN); EvReady; EvTurn 5; EvStep 0; EvLog 1 CRIT (sample_line CRIT); EvStep 1; EvTurn 6; EvStep 0; EvStep 1;
             EvStep 0; EvTurn 7; EvTurn 8; EvStep 0; EvLog 0 DEBUG (sample_line DEBUG); EvStep 1; EvStep 1; EvStep 1; EvStep 1; EvStep 1; EvStep 1; EvStep 1; EvTurn 9] in
  let nows := seqZ 10 13 in
  let k (z : Z) : list byte := [] in
  let run := @nl_run k k k (λ _, None) (λ _, true) id _ (queue_base 2) 1 in
  let n0 := NanoLogger_make (λ _, None) (λ _, true) id (QueueBuffer_make 2) 0 [] [] 1 ∅ in
  ∃ n, run es n0 = Some (Ok n) ∧ q_producers (m_buffer_base n) = ∅ ∧ length (q_taken (m_buffer_base n)) = 2%nat ∧ length (q_popped (m_buffer_base n)) = 1%nat ∧
    ∃ n' clocks, run (EvShutdown :: map EvTurn nows) n = Some (Ok n') ∧ m_thread n' = Exits ∧
      fw_write_all k k k (λ _, None) (λ _, true) id (zip clocks (q_taken (m_buffer_base n)))
        (FileWriter_make (λ _, None) (λ _, true) id 0 [] [] (Z.max 1 1) ∅) = Ok (m_file_writer n').
Proof.
  intros es nows k run n0. destruct (run es n0) as [r|] eqn:E; [|by vm_compute in E].
  assert (Hr : match r with Ok n => q_producers (m_buffer_base n) = ∅ ∧ length (q_taken (m_buffer_base n)) = 2%nat ∧ length (q_popped (m_buffer_base n)) = 1%nat | Fault _ => False end).
  { assert (E2 : match run es n0 with
      | Some (Ok n) => bool_decide (map_to_list (q_producers (m_buffer_base n)) = []) && (length (q_taken (m_buffer_base n)) =? 2)%nat && (length (q_popped (m_buffer_base n)) =? 1)%nat
      | _ => false end = true) by by vm_compute.
    rewrite E in E2. destruct r as [n|]; [|discriminate E2]. rewrite !andb_true_iff, !Nat.eqb_eq, bool_decide_eq_true, map_to_list_empty_iff in E2. tauto. }
  pose proof (logger_writes_all k k k (λ _, None) (λ _, true) id 2 2 1 0 [] [] 1 ∅ es nows r) as H. cbv zeta in H. destruct r as [n|]; [|by destruct Hr].
  destruct Hr as (Hq & Ht & Hp). exists n. split; [reflexivity|]. split; [exact Hq|]. split; [exact Ht|]. split; [exact Hp|].
  destruct H as [_ H]; [lia|lia| | | |by vm_compute|exact E|].
  - unfold es. repeat (apply Forall_cons_2; [first [exact I|apply sample_prints]|]). apply Forall_nil_2.
  - unfold es. repeat (apply Forall_cons_2; [first [exact I|lia]|]). apply Forall_nil_2.
  - unfold es. repeat (apply not_elem_of_cons; split; [discriminate|]). apply not_elem_of_nil.
  - destruct (H Hq) as (_ & n' & cl & E' & Hx & _ & _ & Hw). exists n', cl. split; [exact E'|]. split; [exact Hx|exact Hw].
Defined.

(** Rolling has no effect within an hour.  As long as the clock stays in
    the hour in which the writer was made, every line, however many times the
    roll size is exceeded, goes to the end of the one file that was opened
    first, and no other file changes. *)
Theorem log_one_file literal show_double show_thread localtime opens app_pos
    now0 nows dir file mb files d lines texts :
  let name := string_of_list_byte ((dir ++ file) ++ ["_"%byte] ++ d ++ ["_"%byte] ++ show_Z 1) in
  Forall2 (prints literal show_double show_thread localtime) lines texts → length nows = length lines →
  Forall (λ now, get_datetime localtime now = d) (now0 :: nows) → opens name = true →
  ∃ w, fw_write_all literal show_double show_thread localtime opens app_pos (zip nows lines)
      (FileWriter_make localtime opens app_pos now0 dir file mb files) = Ok w ∧
    fw_files w = <[name := default [] (files !! name) ++ concat texts]> files.
Proof.
  intros name Hl Hn [Hd0 Hd]%Forall_cons Ho.
  destruct (make_writes localtime opens app_pos now0 dir file mb files d Hd0 Ho) as [Hw Hf].
  destruct (write_all_same _ _ _ _ _ app_pos nows lines texts _ _ _ d Hl Hn Hd Hw Ho eq_refl) as (w & E & Hfw).
  exists w. split; [exact E|]. destruct Hfw as [->|[-> ->]].
  - by rewrite Hf, lookup_insert_eq, insert_insert_eq.
  - apply Forall2_nil_inv_l in Hl as ->. rewrite Hf. cbn. by rewrite app_nil_r.
Qed.

(** A roll size of 4096 MB is zero bytes, so that every line rolls. *)
Lemma log_one_file_witness :
  let k (z : Z) : list byte := [] in
  let hour (_ : Z) := Some (mkTm 124 5 1 12 0 0) in
  let text level := match stringify k k k hour (sample_line level) with Ok t => t | _ => [] end in
  m_log_file_roll_size_bytes (FileWriter_make hour (λ _, true) id 0 [] ["l"%byte] 4096 ∅) = 0 ∧
  ∃ w, fw_write_all k k k hour (λ _, true) id (zip [3; 4] [sample_line INFO; sample_line ERR])
      (FileWriter_make hour (λ _, true) id 0 [] ["l"%byte] 4096 ∅) = Ok w ∧
    fw_files w = <["l_2024060112_1"%string := default [] ((∅ : gmap string (list byte)) !! "l_2024060112_1"%string) ++
      concat [text INFO; text ERR]]> ∅.
Proof.
  intros k hour text. split; [by vm_compute|].
  apply (log_one_file k k k hour (λ _, true) id 0 [3; 4] [] ["l"%byte] 4096 ∅ (list_byte_of_string "2024060112")).
  - repeat constructor; by vm_compute.
  - done.
  - repeat constructor; by vm_compute.
  - done.
Defined.
