(* ===== verification/Field.v ===== *)
(** * Result fields (dao/field.h, dao/field.cpp)

    A field holds the text of a column.  The integer getters go through [atol]
    and [atoll], whose result is undefined when the number does not fit 64 bits
    ([None]).  Results: which number each getter returns for which text; names
    are folded to lower case. *)

From Stdlib Require Import ZArith Lia Strings.Byte.
From stdpp Require Import base list numbers.
From S2P Require Import Prelude.
From S2P Require Import LogLine.

Inductive DataTypes := DB_TYPE_UNKNOWN | DB_TYPE_STRING | DB_TYPE_INTEGER | DB_TYPE_FLOAT | DB_TYPE_BOOL.

Record Field := mkField {
  m_bnull : bool;
  m_field_value : list byte;
  m_field_name : list byte;
  m_field_type : DataTypes
}.

(** ** C strings and numbers *)

(** The C string at the beginning of [s]. *)
Fixpoint c_str (s : list byte) : list byte :=
  match s with
  | [] => []
  | c :: s' => if bool_decide (c = x00) then [] else c :: c_str s'
  end.

Definition isspace (c : byte) : bool := (byteZ c =? 32) || ((9 <=? byteZ c) && (byteZ c <=? 13)).
Definition isdigit (c : byte) : bool := (48 <=? byteZ c) && (byteZ c <=? 57).

Fixpoint skip_spaces (s : list byte) : list byte :=
  match s with
  | c :: s' => if isspace c then skip_spaces s' else s
  | [] => []
  end.

Fixpoint digits (acc : Z) (s : list byte) : Z :=
  match s with
  | c :: s' => if isdigit c then digits (10 * acc + (byteZ c - 48)) s' else acc
  | [] => acc
  end.

(** [atol], [atoll] and [atoi]; out of range they are undefined. *)
Definition strtol (s : list byte) : Z :=
  match skip_spaces (c_str s) with
  | c :: s' =>
      if byteZ c =? 45 then - digits 0 s'
      else if byteZ c =? 43 then digits 0 s'
      else digits 0 (c :: s')
  | [] => 0
  end.

Definition fits (w v : Z) : bool := (- 2 ^ (w - 1) <=? v) && (v <? 2 ^ (w - 1)).
Definition atol (s : list byte) : option Z := if fits 64 (strtol s) then Some (strtol s) else None.
Definition atoi (s : list byte) : option Z := if fits 32 (strtol s) then Some (strtol s) else None.

Definition i16 (z : Z) : Z := (z + 2 ^ 15) mod 2 ^ 16 - 2 ^ 15.

(** ** The members *)

Definition Field_make : Field := mkField false [] [] DB_TYPE_UNKNOWN.

(** The other two constructors leave [m_bnull] indeterminate. *)
Definition Field_copy (junk : bool) (f : Field) : Field :=
  mkField junk (m_field_value f) (m_field_name f) (m_field_type f).
Definition Field_of (junk : bool) (value : list byte) (type : DataTypes) : Field :=
  mkField junk (c_str value) [] type.

Definition get_bool (f : Field) : option bool := (λ z, 0 <? z) <$> atoi (m_field_value f).
Definition get_int32 (f : Field) : option Z := i32 <$> atol (m_field_value f).
Definition get_uint8 (f : Field) : option Z := u8 <$> atol (m_field_value f).
Definition get_uint16 (f : Field) : option Z := u16 <$> atol (m_field_value f).
Definition get_int16 (f : Field) : option Z := i16 <$> atol (m_field_value f).
Definition get_uint32 (f : Field) : option Z := u32 <$> atol (m_field_value f).
Definition get_uint64 (f : Field) : option Z := u64 <$> atol (m_field_value f).

Definition set_type (type : DataTypes) (f : Field) : Field :=
  mkField (m_bnull f) (m_field_value f) (m_field_name f) type.
Definition set_value (value : list byte) (f : Field) : Field :=
  mkField (m_bnull f) (c_str value) (m_field_name f) (m_field_type f).
Definition set_null (b : bool) (f : Field) : Field :=
  mkField b (m_field_value f) (m_field_name f) (m_field_type f).

Definition toLower (c : byte) : byte :=
  if (65 <=? charZ c) && (charZ c <=? 90) then Zbyte (charZ c + (97 - 65)) else c.
Definition toLowerString (str : list byte) : list byte := map toLower str.
Definition set_name (name : list byte) (f : Field) : Field :=
  mkField (m_bnull f) (m_field_value f) (toLowerString (c_str name)) (m_field_type f).

(** ** Lemmas *)

(** The text of a list of digits, and its value. *)
Definition digit (d : Z) : byte := Zbyte (48 + d).
Definition number (ds : list Z) : Z := foldl (λ acc d, 10 * acc + d) 0 ds.
Definition is_digits (ds : list Z) : Prop := Forall (λ d, 0 ≤ d < 10) ds.

Lemma byteZ_digit d : 0 ≤ d < 10 → byteZ (digit d) = 48 + d.
Proof. intros Hd. unfold digit. rewrite byteZ_Zbyte, u8_small; [done|]. unfold in_u. lia. Qed.

Lemma digits_text ds rest acc :
  is_digits ds → match rest with c :: _ => isdigit c = false | [] => True end →
  digits acc (map digit ds ++ rest) = foldl (λ acc d, 10 * acc + d) acc ds.
Proof.
  intros Hd Hr. revert acc. induction Hd as [|d ds Hd Hds IH]; intros acc; cbn [map app foldl].
  - destruct rest as [|c rest]; [done|]. cbn [digits]. by rewrite Hr.
  - cbn [digits]. unfold isdigit. rewrite byteZ_digit by done. zguard. rewrite IH. f_equal. lia.
Qed.

Lemma c_str_app s rest : x00 ∉ s → c_str (s ++ rest) = s ++ c_str rest.
Proof.
  induction s as [|c s IH]; intros Hn; [done|]. apply not_elem_of_cons in Hn as [Hc Hn].
  cbn [app c_str]. rewrite bool_decide_eq_false_2 by done. by rewrite IH.
Qed.

Lemma digits_no_nul ds : is_digits ds → x00 ∉ map digit ds.
Proof.
  intros Hd Hin. apply list_elem_of_fmap in Hin as (d & E & Hin).
  apply list_elem_of_lookup in Hin as [i Hi]. pose proof (Forall_lookup_1 _ _ _ _ Hd Hi) as Hr. cbn in Hr.
  apply (f_equal byteZ) in E. rewrite byteZ_digit in E by done. change (byteZ x00) with 0 in E. lia.
Qed.

(** A text of spaces, a sign, digits and something else. *)
Definition numeral (spaces : list byte) (neg : bool) (ds : list Z) (rest : list byte) : list byte :=
  spaces ++ (if neg then ["-"%byte] else []) ++ map digit ds ++ rest.

Lemma skip_spaces_app spaces s :
  Forall (λ c, isspace c = true) spaces → skip_spaces (spaces ++ s) = skip_spaces s.
Proof. induction 1 as [|c l Hc Hl IH]; [done|]. cbn [app skip_spaces]. by rewrite Hc. Qed.

Lemma space_not_nul spaces : Forall (λ c, isspace c = true) spaces → x00 ∉ spaces.
Proof.
  intros H Hin. apply list_elem_of_lookup in Hin as [i Hi]. by pose proof (Forall_lookup_1 _ _ _ _ H Hi).
Qed.

Lemma rest_c_str rest :
  match rest with c :: _ => isdigit c = false | [] => True end →
  match c_str rest with c :: _ => isdigit c = false | [] => True end.
Proof. destruct rest as [|c rest]; [done|]. cbn [c_str]. by case_bool_decide. Qed.

Lemma strtol_numeral spaces neg d ds rest :
  Forall (λ c, isspace c = true) spaces → is_digits (d :: ds) →
  match rest with c :: _ => isdigit c = false | [] => True end →
  strtol (numeral spaces neg (d :: ds) rest) = if neg then - number (d :: ds) else number (d :: ds).
Proof.
  intros Hsp Hd Hr. unfold strtol, numeral.
  assert (Hn : x00 ∉ spaces ++ (if neg then ["-"%byte] else []) ++ map digit (d :: ds)).
  { rewrite !not_elem_of_app. split_and!; [by apply space_not_nul| |by apply digits_no_nul].
    destruct neg; [|apply not_elem_of_nil]. rewrite elem_of_cons, elem_of_nil. by intros [|]. }
  replace (spaces ++ (if neg then ["-"%byte] else []) ++ map digit (d :: ds) ++ rest)
    with ((spaces ++ (if neg then ["-"%byte] else []) ++ map digit (d :: ds)) ++ rest) by (by rewrite <- !app_assoc).
  rewrite c_str_app by done. rewrite <- !app_assoc, skip_spaces_app by done.
  pose proof (digits_text (d :: ds) (c_str rest) 0 Hd (rest_c_str _ Hr)) as Ht. fold (number (d :: ds)) in Ht.
  destruct neg; cbn [app skip_spaces].
  - change (isspace "-"%byte) with false. cbn iota. by rewrite Ht.
  - cbn [map app skip_spaces] in *. pose proof (Forall_inv Hd) as Hd0. cbn in Hd0.
    assert (Hb : byteZ (digit d) = 48 + d) by (by apply byteZ_digit).
    assert (isspace (digit d) = false) as -> by (unfold isspace; rewrite Hb; zguard; done).
    rewrite Hb. zguard. exact Ht.
Qed.

Lemma c_str_idem s : c_str (c_str s) = c_str s.
Proof.
  induction s as [|c s IH]; [done|]. cbn [c_str]. case_bool_decide as E; [done|].
  cbn [c_str]. by rewrite bool_decide_eq_false_2, IH.
Qed.

Lemma toLower_idem c : toLower (toLower c) = toLower c.
Proof. by destruct c. Qed.

Lemma toLowerString_idem str : toLowerString (toLowerString str) = toLowerString str.
Proof. unfold toLowerString. rewrite map_map. apply map_ext. exact toLower_idem. Qed.

(** The numbers a column's text stands for.  For a text of blanks, an
    optional minus, digits (leading zeros and any number of them) and anything
    that is not a digit, each integer getter returns the number reduced to its
    own width, so the number itself when that width holds it; and the number
    has to fit 64 signed bits for all of them, [get_uint64] included. *)
Theorem field_numbers f spaces neg d ds rest :
  Forall (λ c, isspace c = true) spaces → is_digits (d :: ds) →
  match rest with c :: _ => isdigit c = false | [] => True end →
  let v := if neg : bool then - number (d :: ds) else number (d :: ds) in
  let g := set_value (numeral spaces neg (d :: ds) rest) f in
  let w := if fits 64 v then Some v else None in
  get_int32 g = i32 <$> w ∧ get_int16 g = i16 <$> w ∧ get_uint8 g = u8 <$> w ∧
  get_uint16 g = u16 <$> w ∧ get_uint32 g = u32 <$> w ∧ get_uint64 g = u64 <$> w ∧
  (fits 32 v = true → get_int32 g = Some v) ∧ (in_u 32 v → get_uint32 g = Some v) ∧
  (2 ^ 63 ≤ v → get_uint64 g = None).
Proof.
  intros Hs Hd Hr v g w.
  assert (Hat : atol (m_field_value g) = w).
  { unfold atol, w. cbn [g set_value m_field_value].
    assert (E : strtol (c_str (numeral spaces neg (d :: ds) rest)) = v).
    { unfold strtol. rewrite c_str_idem. fold (strtol (numeral spaces neg (d :: ds) rest)).
      by rewrite strtol_numeral. }
    by rewrite E. }
  unfold get_int32, get_int16, get_uint8, get_uint16, get_uint32, get_uint64. rewrite Hat. split_and!; try done.
  - intros Hf. unfold fits in Hf. apply andb_true_iff in Hf as [H1 H2].
    apply Z.leb_le in H1. apply Z.ltb_lt in H2.
    assert (Ew : w = Some v) by (unfold w, fits; zguard; done). rewrite Ew. cbn. f_equal. apply i32_small. lia.
  - intros Hf. assert (Ew : w = Some v) by (unfold w, fits, in_u in *; zguard; done). rewrite Ew. cbn. f_equal.
    by apply u32_small.
  - intros Hf. assert (Ew : w = None) by (unfold w, fits; zguard; done). by rewrite Ew.
Qed.

(** A zero-filled column of a negative number with decimals. *)
Lemma field_numbers_witness :
  let g := set_value (numeral [" "%byte] true [0; 0; 3; 0; 0] ["."%byte; "5"%byte]) Field_make in
  m_field_value g = [" "%byte; "-"%byte; "0"%byte; "0"%byte; "3"%byte; "0"%byte; "0"%byte; "."%byte; "5"%byte] ∧
  get_int32 g = i32 <$> Some (-300) ∧ get_int16 g = i16 <$> Some (-300) ∧ get_uint8 g = u8 <$> Some (-300) ∧
  get_uint16 g = u16 <$> Some (-300) ∧ get_uint32 g = u32 <$> Some (-300) ∧ get_uint64 g = u64 <$> Some (-300) ∧
  (fits 32 (-300) = true → get_int32 g = Some (-300)) ∧ (in_u 32 (-300) → get_uint32 g = Some (-300)) ∧
  (2 ^ 63 ≤ -300 → get_uint64 g = None).
Proof.
  split; [by vm_compute|].
  apply (field_numbers Field_make [" "%byte] true 0 [0; 3; 0; 0] ["."%byte; "5"%byte]);
    [by repeat constructor|repeat constructor; lia|done].
Defined.
