(* ===== verification/Mysql.v ===== *)
(** * The MySQL connection (dao/mysql_db.h, dao/mysql_db.cpp)

    The client library is a parameter: a record of what its calls answer and do
    to its state.  What the class relies on is the life of the [MYSQL] handles
    that [mysql_init(nullptr)] allocates: [mysql_close] frees the handle, and
    [std::unique_ptr<MYSQL>] deletes whatever handle it holds.  A call on a
    handle that is gone is a fault.  Results: what [query], [execute],
    [get_variable] and the destructor do with success, failure and retry. *)

From Stdlib Require Import ZArith Lia Strings.Byte Strings.String.
From stdpp Require Import base list numbers gmap sets.
From S2P Require Import Prelude.
From S2P Require Import Field.

#[local] Open Scope Z_scope.

(** [enum_field_types], as far as the program tells them apart. *)
Inductive native_type :=
  | FIELD_TYPE_DECIMAL | FIELD_TYPE_TINY | FIELD_TYPE_SHORT | FIELD_TYPE_LONG | FIELD_TYPE_FLOAT
  | FIELD_TYPE_DOUBLE | FIELD_TYPE_NULL | FIELD_TYPE_TIMESTAMP | FIELD_TYPE_LONGLONG | FIELD_TYPE_INT24
  | FIELD_TYPE_DATE | FIELD_TYPE_TIME | FIELD_TYPE_DATETIME | FIELD_TYPE_YEAR | FIELD_TYPE_ENUM
  | FIELD_TYPE_SET | FIELD_TYPE_BLOB | FIELD_TYPE_VAR_STRING | FIELD_TYPE_STRING | FIELD_TYPE_OTHER.

Definition convert_native_type (mysqlType : native_type) : DataTypes :=
  match mysqlType with
  | FIELD_TYPE_TIMESTAMP | FIELD_TYPE_DATE | FIELD_TYPE_TIME | FIELD_TYPE_DATETIME | FIELD_TYPE_YEAR
  | FIELD_TYPE_STRING | FIELD_TYPE_VAR_STRING | FIELD_TYPE_BLOB | FIELD_TYPE_SET | FIELD_TYPE_NULL =>
      DB_TYPE_STRING
  | FIELD_TYPE_TINY | FIELD_TYPE_SHORT | FIELD_TYPE_LONG | FIELD_TYPE_INT24 | FIELD_TYPE_LONGLONG
  | FIELD_TYPE_ENUM => DB_TYPE_INTEGER
  | FIELD_TYPE_DECIMAL | FIELD_TYPE_FLOAT | FIELD_TYPE_DOUBLE => DB_TYPE_FLOAT
  | FIELD_TYPE_OTHER => DB_TYPE_UNKNOWN
  end.

(** A stored result: the columns and the rows not yet fetched. *)
Definition row := list (option (list byte)).
Record MYSQL_RES := mkRes { res_fields : list (list byte * native_type); res_rows : list row }.

(** What the client library answers; [L] is its state and the server's. *)
Record client_library (L A : Type) := {
  lib_init : L → bool * L;                          (** allocated? *)
  lib_options : Z → L → bool * L;                   (** option n accepted? *)
  lib_real_connect : A → L → bool * L;
  lib_ping : L → bool * L;
  lib_real_query : list byte → L → bool * L;        (** accepted? *)
  lib_store_result : L → option MYSQL_RES * L;
  lib_affected_rows : L → Z;
  lib_errno : L → Z;
  lib_error : L → list byte
}.
Arguments lib_init {L A}. Arguments lib_options {L A}. Arguments lib_real_connect {L A}.
Arguments lib_ping {L A}. Arguments lib_real_query {L A}. Arguments lib_store_result {L A}.
Arguments lib_affected_rows {L A}. Arguments lib_errno {L A}. Arguments lib_error {L A}.

Definition CR_SERVER_GONE_ERROR : Z := 2006.
Definition CR_SERVER_LOST : Z := 2013.

Section Mysql.
Context {L A : Type} (lib : client_library L A).

(** The members; [m_mysql] is the address of a handle. *)
Record Mysql := mkMysql {
  m_res : option MYSQL_RES;
  m_row : option row;
  m_res_num : Z;
  m_need_free : bool;
  m_connected : bool;
  m_mysql : option nat;
  m_db_err_msg : list byte;
  m_db_err : Z;
  m_use_matched : Z;
  m_latest_time : Z
}.

(** [std::make_shared<Mysql>()] value-initialises. *)
Definition Mysql_make (now : Z) : Mysql := mkMysql None None 0 false false None [] 0 0 now.

(** The library, the allocated handles, the next one, the results that nothing
    points to any more, and the thread's [retry] variables: [connect] is
    instantiated for the temporaries [open] passes on and, separately, for the
    variables its own recursion and the pool pass. *)
Record env := mkEnv { e_lib : L; e_live : gset nat; e_next : nat; e_leaked : nat; e_retry : Z; e_retry_ref : Z }.

Record conn := mkConn { c_mysql : Mysql; c_env : env }.

Definition set_mysql (f : Mysql → Mysql) (c : conn) : conn := mkConn (f (c_mysql c)) (c_env c).
Definition set_env (f : env → env) (c : conn) : conn := mkConn (c_mysql c) (f (c_env c)).
Definition set_lib (l : L) (e : env) : env := mkEnv l (e_live e) (e_next e) (e_leaked e) (e_retry e) (e_retry_ref e).

Abbreviation MC := (M conn).

(** Runs a library call. *)
Definition call {B} (f : L → B * L) : MC B := λ c,
  let '(b, l) := f (e_lib (c_env c)) in Ok (b, set_env (set_lib l) c).

(** [m_mysql.get()] passed to a call that uses the handle. *)
Definition handle : MC nat := λ c,
  match m_mysql (c_mysql c) with
  | None => Fault NullDeref
  | Some h => if decide (h ∈ e_live (c_env c)) then Ok (h, c) else Fault UseAfterFree
  end.

Definition upd (f : Mysql → Mysql) : MC unit := modify (set_mysql f).

(** [m_db_err = mysql_errno(...); m_db_err_msg = mysql_error(...)] *)
Definition record_error : MC unit := λ c,
  let l := e_lib (c_env c) in
  Ok (tt, set_mysql (λ m, mkMysql (m_res m) (m_row m) (m_res_num m) (m_need_free m) (m_connected m)
    (m_mysql m) (lib_error lib l) (lib_errno lib l) (m_use_matched m) (m_latest_time m)) c).

Definition set_connected (b : bool) (m : Mysql) : Mysql :=
  mkMysql (m_res m) (m_row m) (m_res_num m) (m_need_free m) b (m_mysql m) (m_db_err_msg m) (m_db_err m) (m_use_matched m) (m_latest_time m).
Definition set_handle (h : option nat) (m : Mysql) : Mysql :=
  mkMysql (m_res m) (m_row m) (m_res_num m) (m_need_free m) (m_connected m) h (m_db_err_msg m) (m_db_err m) (m_use_matched m) (m_latest_time m).
Definition set_res (r : option MYSQL_RES) (m : Mysql) : Mysql :=
  mkMysql r (m_row m) (m_res_num m) (m_need_free m) (m_connected m) (m_mysql m) (m_db_err_msg m) (m_db_err m) (m_use_matched m) (m_latest_time m).
Definition set_row (r : option row) (m : Mysql) : Mysql :=
  mkMysql (m_res m) r (m_res_num m) (m_need_free m) (m_connected m) (m_mysql m) (m_db_err_msg m) (m_db_err m) (m_use_matched m) (m_latest_time m).
Definition set_num (n : Z) (m : Mysql) : Mysql :=
  mkMysql (m_res m) (m_row m) n (m_need_free m) (m_connected m) (m_mysql m) (m_db_err_msg m) (m_db_err m) (m_use_matched m) (m_latest_time m).
Definition set_need_free (b : bool) (m : Mysql) : Mysql :=
  mkMysql (m_res m) (m_row m) (m_res_num m) b (m_connected m) (m_mysql m) (m_db_err_msg m) (m_db_err m) (m_use_matched m) (m_latest_time m).
Definition set_err (e : Z) (m : Mysql) : Mysql :=
  mkMysql (m_res m) (m_row m) (m_res_num m) (m_need_free m) (m_connected m) (m_mysql m) (m_db_err_msg m) e (m_use_matched m) (m_latest_time m).

Definition use_matched_rows : MC unit :=
  upd (λ m, mkMysql (m_res m) (m_row m) (m_res_num m) (m_need_free m) (m_connected m) (m_mysql m) (m_db_err_msg m) (m_db_err m) 1 (m_latest_time m)).

(** [now] is what the clock shows, in nanoseconds. *)
Definition update_operate_time (now : Z) : MC unit :=
  upd (λ m, mkMysql (m_res m) (m_row m) (m_res_num m) (m_need_free m) (m_connected m) (m_mysql m) (m_db_err_msg m) (m_db_err m) (m_use_matched m) now).
Definition get_operate_time : MC Z := gets (λ c, m_latest_time (c_mysql c)).

(** The handle is freed; nobody may use it any more. *)
Definition free_handle (h : nat) : MC unit := λ c,
  if decide (h ∈ e_live (c_env c)) then
    Ok (tt, set_env (λ e, mkEnv (e_lib e) (e_live e ∖ {[h]}) (e_next e) (e_leaked e) (e_retry e) (e_retry_ref e)) c)
  else Fault UseAfterFree.

(** [unique_ptr] deletes the old handle, if any. *)
Definition delete_handle : MC unit :=
  h ← gets (λ c, m_mysql (c_mysql c));
  match h with None => mret tt | Some h => free_handle h end.

(** [m_mysql.reset(mysql_init(nullptr))] *)
Definition reset_handle : MC unit :=
  ok ← call (lib_init lib);
  h ← (if ok : bool
       then λ c, Ok (Some (e_next (c_env c)),
              set_env (λ e, mkEnv (e_lib e) ({[e_next e]} ∪ e_live e) (S (e_next e)) (e_leaked e) (e_retry e) (e_retry_ref e)) c)
       else mret None);
  delete_handle;;
  upd (set_handle h).

(** [m_res.release()]: the result is neither freed nor kept. *)
Definition release_res : MC unit := λ c,
  Ok (tt, set_mysql (set_res None)
    (set_env (λ e, mkEnv (e_lib e) (e_live e) (e_next e)
       (match m_res (c_mysql c) with Some _ => S (e_leaked e) | None => e_leaked e end) (e_retry e) (e_retry_ref e)) c)).

(** ** The member functions *)

Definition has_error : MC bool := gets (λ c, negb (m_db_err (c_mysql c) =? 0)).

Definition close : MC unit :=
  on ← gets (λ c, m_connected (c_mysql c));
  when on (h ← handle; free_handle h;; upd (set_connected false)).

Definition free_result : MC unit :=
  need ← gets (λ c, m_need_free (c_mysql c));
  when need (release_res;; upd (set_need_free false)).

(** The destructor: its body, then the members [m_mysql] and [m_res]. *)
Definition Mysql_destroy : MC unit :=
  need ← gets (λ c, m_need_free (c_mysql c));
  when need free_result;;
  close;;
  delete_handle;;
  upd (set_handle None);;
  upd (set_res None).

Definition mysql_options_set : MC bool :=
  handle;;
  ok1 ← call (lib_options lib 0);
  if negb ok1 then record_error;; mret false
  else
    ok2 ← call (lib_options lib 1);
    if negb ok2 then record_error;; mret false
    else
      ok3 ← call (lib_options lib 2);
      if negb ok3 then record_error;; mret false else mret true.

Definition retry_of (ref : bool) (e : env) : Z := if ref then e_retry_ref e else e_retry e.
Definition count_retry (ref : bool) (e : env) : env :=
  if ref then mkEnv (e_lib e) (e_live e) (e_next e) (e_leaked e) (e_retry e) (e_retry_ref e + 1)
  else mkEnv (e_lib e) (e_live e) (e_next e) (e_leaked e) (e_retry e + 1) (e_retry_ref e).

(** [connect]; it calls itself again while its [retry] is below 3, at the second
    level and below always in the same instantiation, so that three calls of
    itself are enough. *)
Fixpoint connect_at (fuel : nat) (ref : bool) (args : A) : MC bool :=
  on ← gets (λ c, m_connected (c_mysql c));
  if on : bool then mret true
  else
    reset_handle;;
    h ← gets (λ c, m_mysql (c_mysql c));
    match h with
    | None => record_error;; mret false
    | Some _ =>
        mysql_options_set;;
        handle;;
        ok ← call (lib_real_connect lib args);
        if ok : bool then upd (set_connected true);; mret true
        else
          record_error;;
          modify (set_env (count_retry ref));;
          err ← gets (λ c, m_db_err (c_mysql c));
          if negb (err =? CR_SERVER_GONE_ERROR) && negb (err =? CR_SERVER_LOST) then mret false
          else
            retry ← gets (λ c, retry_of ref (c_env c));
            if retry <? 3 then
              match fuel with
              | O => mret false
              | S fuel' =>
                  again ← connect_at fuel' true args;
                  if again : bool then upd (set_connected true);; mret true else mret false
              end
            else mret false
    end.
Definition connect (ref : bool) (args : A) : MC bool := connect_at 3 ref args.

Definition open (args : A) : MC bool :=
  ret ← connect false args;
  err ← gets (λ c, m_db_err (c_mysql c));
  if ret && ((err =? CR_SERVER_GONE_ERROR) || (err =? CR_SERVER_LOST)) then connect false args else mret ret.

Definition ping : MC bool :=
  handle;;
  ok ← call (lib_ping lib);
  if ok : bool then mret true else record_error;; close;; mret false.

Definition query_exec (sql : list byte) : MC bool :=
  handle;;
  ok ← call (lib_real_query lib (c_str sql));
  if ok : bool then mret true else record_error;; close;; mret false.

Definition begin : MC bool := query_exec (list_byte_of_string "begin").
Definition commit : MC bool := query_exec (list_byte_of_string "commit").
Definition rollback : MC bool := query_exec (list_byte_of_string "rollback").

(** The count is unsigned: it is never below 0. *)
Definition affected_rows : MC Z :=
  handle;;
  gets (λ c, lib_affected_rows lib (e_lib (c_env c))).

Definition use_result : MC bool :=
  handle;;
  r ← call (lib_store_result lib);
  upd (set_res r);;
  match r with
  | None =>
      err ← gets (λ c, lib_errno lib (e_lib (c_env c)));
      if negb (err =? 0) then record_error;; close;; mret false
      else upd (set_num 0);; mret false
  | Some res =>
      upd (set_num (i32 (zlen (res_rows res))));;
      n ← gets (λ c, m_res_num (c_mysql c));
      if n <? 0 then record_error;; release_res;; close;; mret false
      else upd (set_need_free true);; mret true
  end.

(** [0] with the next row, [1] at the end, [-1] on an error. *)
Definition fetch_row : MC Z :=
  res ← gets (λ c, m_res (c_mysql c));
  match res with
  | Some (mkRes fields (r :: rest)) =>
      upd (set_res (Some (mkRes fields rest)));;
      upd (set_row (Some r));;
      mret 0
  | _ =>
      upd (set_row None);;
      handle;;
      err ← gets (λ c, lib_errno lib (e_lib (c_env c)));
      upd (set_err err);;
      if negb (err =? 0) then record_error;; release_res;; close;; mret (-1)
      else mret 1
  end.

(** [execute]: [ret] is [query_exec]'s [bool] as an [int]. *)
Definition execute (sql : list byte) : MC Z :=
  ok ← query_exec sql;
  let ret := if ok : bool then 1 else 0 in
  if negb (ret =? 0) then mret ret
  else n ← affected_rows; mret (i32 n).

(** [strcasecmp] of two C strings is 0. *)
Definition same_name (a b : list byte) : bool :=
  bool_decide (toLowerString (c_str a) = toLowerString (c_str b)).

Definition get_variable (variable : list byte) : MC (option Z) :=
  let buf := list_byte_of_string "show variables like '" ++ c_str variable ++ list_byte_of_string "'" in
  ok ← query_exec (take 127 buf);
  if negb ok then
    used ← use_result;
    if negb used then
      got ← fetch_row;
      r ← gets (λ c, m_row (c_mysql c));
      v ← (if got =? 0 then
             match r with
             | Some (Some name :: values) =>
                 if same_name name variable then
                   match values with Some value :: _ => mret (atol (c_str value)) | _ => raise NullDeref end
                 else mret (Some (-1))
             | _ => raise NullDeref
             end
           else mret (Some (-1)));
      free_result;;
      mret v
    else mret (Some (-1))
  else mret (Some (-1)).

(** ** [query] *)

Section Query.
Context {T : Type} (construct : list Field → T).   (** [T(cur_row)] *)

Definition column (f : list byte * native_type) : Field :=
  set_type (convert_native_type f.2) (set_name f.1 Field_make).

(** One cell of the current row. *)
Definition cell (f : Field) (v : option (list byte)) : Field :=
  match v with
  | None => set_value [] (set_null true f)
  | Some text => set_value text (set_null false f)
  end.

(** The loop over the rows; each turn fetches one, so that the number of rows
    and one more are enough turns. *)
Fixpoint fetch_all (fuel : nat) (cur_row : list Field) : MC (list T) :=
  got ← fetch_row;
  if got =? 0 then
    r ← gets (λ c, m_row (c_mysql c));
    match r with
    | None => raise NullDeref
    | Some cells =>
        if (length cells <? length cur_row)%nat then raise OutOfBounds
        else
          let cur_row := zip_with cell cur_row cells in
          match fuel with
          | O => mret []
          | S fuel' => rest ← fetch_all fuel' cur_row; mret (construct cur_row :: rest)
          end
    end
  else mret [].

Definition query (sql : list byte) : MC (list T) :=
  ok ← query_exec sql;
  if negb ok then mret []
  else
    used ← use_result;
    if negb used then mret []
    else
      res ← gets (λ c, m_res (c_mysql c));
      match res with
      | None => raise NullDeref
      | Some res =>
          result ← fetch_all (length (res_rows res)) (map column (res_fields res));
          free_result;;
          mret result
      end.

End Query.

(** ** Lemmas *)

(** The connection is usable. *)
Definition usable (h : nat) (c : conn) : Prop :=
  m_mysql (c_mysql c) = Some h ∧ m_connected (c_mysql c) = true ∧ h ∈ e_live (c_env c).
(** Its handle has been freed. *)
Definition dangling (h : nat) (c : conn) : Prop :=
  m_mysql (c_mysql c) = Some h ∧ m_connected (c_mysql c) = false ∧ h ∉ e_live (c_env c).

Lemma handle_usable h c : usable h c → handle c = Ok (h, c).
Proof. intros (E & _ & Hl). unfold handle. by rewrite E, decide_True. Qed.

Lemma handle_dangling h c : dangling h c → handle c = Fault UseAfterFree.
Proof. intros (E & _ & Hl). unfold handle. by rewrite E, decide_False. Qed.

Lemma handle_bind_dangling {B} h c (k : nat → MC B) : dangling h c → (handle ≫= k) c = Fault UseAfterFree.
Proof. intros Hd. apply bind_fault. by eapply handle_dangling. Qed.

Lemma close_usable h c : usable h c → ∃ c', close c = Ok (tt, c') ∧ dangling h c'.
Proof.
  intros Hu. pose proof Hu as (E & Hc & Hl). unfold close.
  rewrite (bind_ok (gets _) _ c (m_connected (c_mysql c)) c) by done. rewrite Hc. cbn [when].
  rewrite (bind_ok _ _ _ _ _ (handle_usable h c Hu)). unfold free_handle.
  eexists. split; [unfold mbind, M_bind; rewrite decide_True by done; reflexivity|].
  split_and!; [done|done|]. cbn. set_solver.
Qed.

Lemma record_error_usable h c : usable h c → ∃ c', record_error c = Ok (tt, c') ∧ usable h c'.
Proof. intros Hu. by eexists. Qed.

Lemma call_usable {B} (f : L → B * L) h c b l :
  usable h c → f (e_lib (c_env c)) = (b, l) → call f c = Ok (b, set_env (set_lib l) c) ∧ usable h (set_env (set_lib l) c).
Proof. intros Hu E. unfold call. by rewrite E. Qed.

(** A statement the server rejects. *)
Lemma query_exec_rejected h c sql l :
  usable h c → lib_real_query lib (c_str sql) (e_lib (c_env c)) = (false, l) →
  ∃ c', query_exec sql c = Ok (false, c') ∧ dangling h c'.
Proof.
  intros Hu E. unfold query_exec. rewrite (bind_ok _ _ _ _ _ (handle_usable h c Hu)).
  destruct (call_usable _ h c _ _ Hu E) as [E1 Hu1]. rewrite (bind_ok _ _ _ _ _ E1).
  destruct (record_error_usable h _ Hu1) as (c2 & E2 & Hu2). rewrite (bind_ok _ _ _ _ _ E2).
  destruct (close_usable h c2 Hu2) as (c3 & E3 & Hd). rewrite (bind_ok _ _ _ _ _ E3). by exists c3.
Qed.

Lemma query_exec_accepted h c sql l :
  usable h c → lib_real_query lib (c_str sql) (e_lib (c_env c)) = (true, l) →
  query_exec sql c = Ok (true, set_env (set_lib l) c).
Proof.
  intros Hu E. unfold query_exec. rewrite (bind_ok _ _ _ _ _ (handle_usable h c Hu)).
  destruct (call_usable _ h c _ _ Hu E) as [E1 Hu1]. by rewrite (bind_ok _ _ _ _ _ E1).
Qed.

Lemma execute_accepted h c sql l :
  usable h c → lib_real_query lib (c_str sql) (e_lib (c_env c)) = (true, l) →
  execute sql c = Ok (1, set_env (set_lib l) c).
Proof. intros Hu E. unfold execute. by rewrite (bind_ok _ _ _ _ _ (query_exec_accepted h c sql l Hu E)). Qed.

Lemma execute_rejected h c sql l :
  usable h c → lib_real_query lib (c_str sql) (e_lib (c_env c)) = (false, l) →
  execute sql c = Fault UseAfterFree.
Proof.
  intros Hu E. destruct (query_exec_rejected h c sql l Hu E) as (c' & E' & Hd).
  unfold execute. rewrite (bind_ok _ _ _ _ _ E'). cbn [Z.eqb negb].
  unfold affected_rows. apply bind_fault. by eapply handle_bind_dangling.
Qed.

Lemma query_exec_answer h c sql b l :
  usable h c → lib_real_query lib (c_str sql) (e_lib (c_env c)) = (b, l) → ∃ c', query_exec sql c = Ok (b, c').
Proof.
  intros Hu E. destruct b; [eexists; by eapply query_exec_accepted|].
  destruct (query_exec_rejected h c sql l Hu E) as (c' & E' & _). by exists c'.
Qed.

(** The destructor. *)
Lemma destroy_outcome c :
  match Mysql_destroy c with
  | Ok _ => m_mysql (c_mysql c) = None ∧ m_connected (c_mysql c) = false ∨
      (∃ h, m_mysql (c_mysql c) = Some h ∧ m_connected (c_mysql c) = false ∧ h ∈ e_live (c_env c))
  | Fault f => f = UseAfterFree ∧ (∃ h, m_mysql (c_mysql c) = Some h ∧
      (m_connected (c_mysql c) = true ∨ h ∉ e_live (c_env c))) ∨
      f = NullDeref ∧ m_mysql (c_mysql c) = None ∧ m_connected (c_mysql c) = true
  end.
Proof.
  destruct c as [[res row num need con [h|] msg err] [l live next leaked r1 r2]];
    unfold Mysql_destroy, free_result, close, release_res, delete_handle, free_handle, handle, upd, mbind, M_bind, gets,
      modify, when; cbn; destruct need, con; cbn; repeat (case_decide; cbn); try (by left; eauto);
    try (by right; eauto 6).
  all: try (left; split; [done|]; eauto 6).
  all: exfalso; set_solver.
Qed.

(** The rows of a result, for a library without errors after the query. *)
Section Rows.
Context {T : Type} (construct : list Field → T).

Lemma cell_again f a b : cell (cell f a) b = cell f b.
Proof. by destruct f, a, b. Qed.

Lemma cells_again fs r1 r2 :
  length r1 = length fs → length r2 = length fs → zip_with cell (zip_with cell fs r1) r2 = zip_with cell fs r2.
Proof.
  revert r1 r2. induction fs as [|f fs IH]; intros [|a r1] [|b r2] H1 H2; try done. cbn in *.
  by rewrite cell_again, IH by lia.
Qed.

Lemma fetch_row_next c fields r rest :
  m_res (c_mysql c) = Some (mkRes fields (r :: rest)) →
  fetch_row c = Ok (0, set_mysql (set_row (Some r)) (set_mysql (set_res (Some (mkRes fields rest))) c)).
Proof. intros E. unfold fetch_row, mbind, M_bind, gets, upd, modify. by rewrite E. Qed.

Lemma fetch_row_end h c fields :
  usable h c → m_res (c_mysql c) = Some (mkRes fields []) → lib_errno lib (e_lib (c_env c)) = 0 →
  fetch_row c = Ok (1, set_mysql (set_err 0) (set_mysql (set_row None) c)).
Proof.
  intros Hu E He. unfold fetch_row.
  rewrite (bind_ok (gets _) _ c (Some (mkRes fields [])) c) by (unfold gets; by rewrite E).
  set (c1 := set_mysql (set_row None) c). rewrite (bind_ok (upd _) _ c tt c1) by done.
  assert (Hu1 : usable h c1) by done. rewrite (bind_ok _ _ _ _ _ (handle_usable h c1 Hu1)).
  rewrite (bind_ok (gets _) _ c1 0 c1) by (unfold gets; cbn; by rewrite He).
  set (c2 := set_mysql (set_err 0) c1). by rewrite (bind_ok (upd _) _ c1 tt c2) by done.
Qed.

Lemma fetch_all_rows h fields rows cur cols c fuel :
  usable h c → m_res (c_mysql c) = Some (mkRes fields rows) → lib_errno lib (e_lib (c_env c)) = 0 →
  Forall (λ r, length r = length cols) rows → (length rows ≤ fuel)%nat →
  (∀ r, length r = length cols → zip_with cell cur r = zip_with cell cols r) → length cur = length cols →
  ∃ c', fetch_all construct fuel cur c = Ok (map (λ r, construct (zip_with cell cols r)) rows, c') ∧
    usable h c' ∧ m_need_free (c_mysql c') = m_need_free (c_mysql c) ∧ is_Some (m_res (c_mysql c')) ∧
    e_lib (c_env c') = e_lib (c_env c) ∧ e_leaked (c_env c') = e_leaked (c_env c).
Proof.
  revert cur c fuel. induction rows as [|r rows IH]; intros cur c fuel Hu Hr He Hlen Hf Hcur Hc.
  - assert (Ef : fetch_all construct fuel cur c = Ok ([], set_mysql (set_err 0) (set_mysql (set_row None) c))).
    { destruct fuel; cbn [fetch_all]; by rewrite (bind_ok _ _ _ _ _ (fetch_row_end h c fields Hu Hr He)). }
    rewrite Ef. eexists. split; [done|]. by split_and!.
  - apply Forall_cons in Hlen as [Hl Hlen]. cbn [length] in Hf. destruct fuel as [|fuel]; [lia|]. cbn [fetch_all].
    rewrite (bind_ok _ _ _ _ _ (fetch_row_next c fields r rows Hr)). cbn [Z.eqb].
    set (c1 := set_mysql (set_row (Some r)) _).
    rewrite (bind_ok (gets _) _ c1 (Some r) c1) by done. cbn iota.
    assert (E : (length r <? length cur)%nat = false) by (apply Nat.ltb_ge; lia). rewrite E. cbn iota.
    rewrite Hcur by done.
    destruct (IH (zip_with cell cols r) c1 fuel) as (c' & E' & Hu' & Hn & Hs & Hlib & Hlk); try done; [lia| | |].
    { intros r2 Hr2. by apply cells_again. }
    { rewrite length_zip_with. lia. }
    rewrite (bind_ok _ _ _ _ _ E'). by exists c'.
Qed.

End Rows.

(** *** Connecting *)

Section Connect.
(** A library that allocates handles, accepts the options, and whose [k]-th
    attempt to connect answers [ans k]: success, or the error. *)
Context (attempt : L → nat) (ans : nat → option Z).
Context (H_init : ∀ l, ∃ l', lib_init lib l = (true, l') ∧ attempt l' = attempt l).
Context (H_options : ∀ n l, ∃ l', lib_options lib n l = (true, l') ∧ attempt l' = attempt l).
Context (H_connect : ∀ a l, ∃ l', lib_real_connect lib a l = (bool_decide (ans (attempt l) = None), l') ∧
  attempt l' = S (attempt l) ∧ ∀ e, ans (attempt l) = Some e → lib_errno lib l' = e).

Definition lost (e : Z) : bool := (e =? CR_SERVER_GONE_ERROR) || (e =? CR_SERVER_LOST).

(** Up to [n] attempts from the [k]-th, going on while the connection is lost:
    whether one succeeds. *)
Fixpoint reach (n k : nat) : bool :=
  match n with
  | O => false
  | S n' => match ans k with None => true | Some e => if lost e then reach n' (S k) else false end
  end.

(** How many attempts a call makes at most, from the two [retry]s. *)
Definition ref_budget (r2 : Z) : nat := Z.to_nat (Z.max 1 (3 - r2)).
Definition budget (ref : bool) (e : env) : nat :=
  if ref then ref_budget (e_retry_ref e)
  else if e_retry e <? 2 then S (ref_budget (e_retry_ref e)) else 1%nat.

(** The handle of [c], if any, may be deleted; addresses are fresh. *)
Definition deletable (c : conn) : Prop :=
  m_connected (c_mysql c) = false ∧ (∀ h, m_mysql (c_mysql c) = Some h → h ∈ e_live (c_env c)) ∧
  (∀ h, h ∈ e_live (c_env c) → (h < e_next (c_env c))%nat).

(** It holds a live handle that is not connected. *)
Definition ready (h : nat) (k : nat) (r1 r2 : Z) (e : Z) (c : conn) : Prop :=
  deletable c ∧ m_mysql (c_mysql c) = Some h ∧ attempt (e_lib (c_env c)) = k ∧
  e_retry (c_env c) = r1 ∧ e_retry_ref (c_env c) = r2 ∧ m_db_err (c_mysql c) = e.

Lemma reset_handle_ok c :
  deletable c → ∃ c' h, reset_handle c = Ok (tt, c') ∧
    ready h (attempt (e_lib (c_env c))) (e_retry (c_env c)) (e_retry_ref (c_env c)) (m_db_err (c_mysql c)) c'.
Proof.
  intros (Hc & Hd & Hn). destruct c as [[res row num need con h msg err] [l live next leaked r1 r2]]. cbn in *.
  destruct (H_init l) as (l' & E & Ha). unfold reset_handle, call, mbind, M_bind. cbn. rewrite E. cbn.
  unfold delete_handle, mbind, M_bind, gets, free_handle, upd, modify. cbn.
  assert (Hfresh : ∀ live', live' ⊆ live → ∀ h', h' ∈ {[next]} ∪ live' → (h' < S next)%nat).
  { intros live' Hsub h' Hh'. assert (h' = next ∨ h' ∈ live) as [->|Hl] by set_solver; [lia|]. specialize (Hn h' Hl). lia. }
  destruct h as [h|]; cbn.
  - pose proof (Hd h eq_refl) as Hh. pose proof (Hn h Hh) as Hlt. rewrite decide_True by set_solver.
    assert (Es : ({[next]} ∪ live) ∖ {[h]} = {[next]} ∪ live ∖ {[h]}).
    { apply set_eq. intros x. rewrite !elem_of_difference, !elem_of_union, !elem_of_difference, !elem_of_singleton.
      split; [tauto|]. intros [->|[? ?]]; [split; [by left|lia]|tauto]. }
    eexists _, next. split; [reflexivity|]. cbn. split; [split; [done|split]|split_and!; done]; cbn; rewrite Es.
    + intros h' [= <-]. set_solver.
    + apply Hfresh. set_solver.
  - eexists _, next. split; [reflexivity|]. cbn. split; [split; [done|split]|split_and!; done]; cbn.
    + intros h' [= <-]. set_solver.
    + by apply Hfresh.
Qed.

Lemma options_ready h k r1 r2 e c :
  ready h k r1 r2 e c → ∃ c', mysql_options_set c = Ok (true, c') ∧ ready h k r1 r2 e c'.
Proof.
  intros ((Hc & Hd & Hn) & Hm & Ha & Hr). unfold mysql_options_set, handle, call, mbind, M_bind. rewrite Hm.
  rewrite decide_True by (by apply Hd).
  destruct (H_options 0 (e_lib (c_env c))) as (l1 & E1 & A1). rewrite E1. cbn.
  destruct (H_options 1 l1) as (l2 & E2 & A2). rewrite E2. cbn.
  destruct (H_options 2 l2) as (l3 & E3 & A3). rewrite E3. cbn.
  eexists. split; [reflexivity|]. split; [done|]. cbn. split_and!; [done|congruence|apply Hr..].
Qed.

(** One attempt. *)
Lemma attempt_ready h k r1 r2 e args c :
  ready h k r1 r2 e c →
  ∃ c', (handle;; call (lib_real_connect lib args)) c = Ok (bool_decide (ans k = None), c') ∧
    ready h (S k) r1 r2 e c' ∧ ∀ err, ans k = Some err → lib_errno lib (e_lib (c_env c')) = err.
Proof.
  intros ((Hc & Hd & Hn) & Hm & Ha & Hr). unfold handle, call, mbind, M_bind. rewrite Hm.
  rewrite decide_True by (by apply Hd).
  destruct (H_connect args (e_lib (c_env c))) as (l' & E & A1 & He). rewrite E, Ha in *.
  eexists. split; [reflexivity|]. split; [|exact He]. split; [done|]. cbn. split_and!; [done|done|apply Hr..].
Qed.

Definition connected_to (h : nat) (c : conn) : Prop := usable h c ∧ (∀ h, h ∈ e_live (c_env c) → (h < e_next (c_env c))%nat).

Lemma ref_budget_step r2 : 0 ≤ r2 → ref_budget r2 = if r2 + 1 <? 3 then S (ref_budget (r2 + 1)) else 1%nat.
Proof. intros H. unfold ref_budget. destruct (Z.ltb_spec (r2 + 1) 3); lia. Qed.

(** What [connect] does after a failed attempt. *)
Definition after_failure (fuel : nat) (ref : bool) (args : A) : MC bool :=
  record_error;;
  modify (set_env (count_retry ref));;
  err ← gets (λ c, m_db_err (c_mysql c));
  if negb (err =? CR_SERVER_GONE_ERROR) && negb (err =? CR_SERVER_LOST) then mret false
  else
    retry ← gets (λ c, retry_of ref (c_env c));
    if retry <? 3 then
      match fuel with
      | O => mret false
      | S fuel' =>
          again ← connect_at fuel' true args;
          if again : bool then upd (set_connected true);; mret true else mret false
      end
    else mret false.

Lemma connect_first fuel ref args c :
  deletable c → let k := attempt (e_lib (c_env c)) in
  ∃ c3 h, ready h (S k) (e_retry (c_env c)) (e_retry_ref (c_env c)) (m_db_err (c_mysql c)) c3 ∧
    (∀ err, ans k = Some err → lib_errno lib (e_lib (c_env c3)) = err) ∧
    connect_at fuel ref args c =
      (if bool_decide (ans k = None) then upd (set_connected true);; mret true else after_failure fuel ref args) c3.
Proof.
  intros Hd k. pose proof (proj1 Hd) as Hc.
  destruct (reset_handle_ok c Hd) as (c1 & h & E1 & R1).
  destruct (options_ready _ _ _ _ _ _ R1) as (c2 & E2 & R2).
  destruct (attempt_ready _ _ _ _ _ args _ R2) as (c3 & E3 & R3 & He3).
  exists c3, h. split; [done|]. split; [done|].
  destruct (bind_inv _ _ _ _ _ E3) as (h' & c2' & Eh & Ecall).
  assert (Egen : connect_at fuel ref args c = (ok ← call (lib_real_connect lib args);
    if ok : bool then upd (set_connected true);; mret true else after_failure fuel ref args) c2').
  { destruct fuel; cbn [connect_at];
      rewrite (bind_ok (gets _) _ c false c) by (unfold gets; by rewrite Hc); cbn iota;
      rewrite (bind_ok _ _ _ _ _ E1);
      (rewrite (bind_ok (gets _) _ c1 (Some h) c1) by (unfold gets; by rewrite (proj1 (proj2 R1))));
      rewrite (bind_ok _ _ _ _ _ E2), (bind_ok _ _ _ _ _ Eh); done. }
  by rewrite Egen, (bind_ok _ _ _ _ _ Ecall).
Qed.

(** The state in which a lost connection is tried again. *)
Lemma failure_recorded fuel (ref : bool) args c h k r1 r2 e err :
  ready h k r1 r2 e c → lib_errno lib (e_lib (c_env c)) = err →
  ∃ c', ready h k (if ref then r1 else r1 + 1) (if ref then r2 + 1 else r2) err c' ∧
    after_failure fuel ref args c =
      (if lost err then
         if (if ref then r2 else r1) + 1 <? 3 then
           match fuel with
           | O => mret false
           | S fuel' =>
               again ← connect_at fuel' true args;
               if again : bool then upd (set_connected true);; mret true else mret false
           end
         else mret false
       else mret false) c'.
Proof.
  intros ((Hc & Hd & Hn) & Hm & Ha & H1 & H2 & H3) Herr. unfold after_failure.
  set (c1 := set_mysql (λ m, mkMysql (m_res m) (m_row m) (m_res_num m) (m_need_free m) (m_connected m)
    (m_mysql m) (lib_error lib (e_lib (c_env c))) (lib_errno lib (e_lib (c_env c))) (m_use_matched m) (m_latest_time m)) c).
  rewrite (bind_ok record_error _ c tt c1) by done.
  set (c2 := set_env (count_retry ref) c1). rewrite (bind_ok (modify _) _ c1 tt c2) by done.
  rewrite (bind_ok (gets _) _ c2 err c2) by (unfold gets; cbn; by rewrite Herr).
  exists c2. split.
  { destruct ref; cbn; (split; [done|]); split_and!; try done; cbn; congruence. }
  unfold lost. destruct (err =? CR_SERVER_GONE_ERROR), (err =? CR_SERVER_LOST); cbn [negb andb orb]; try done;
    rewrite (bind_ok (gets _) _ c2 ((if ref then r2 else r1) + 1) c2) by (unfold gets; destruct ref; cbn; congruence);
    by destruct (_ <? 3).
Qed.

Definition connects (fuel : nat) : Prop := ∀ ref args c,
  deletable c → 0 ≤ e_retry (c_env c) → 0 ≤ e_retry_ref (c_env c) → (budget ref (c_env c) ≤ S fuel)%nat →
  let k := attempt (e_lib (c_env c)) in
  ∃ c', connect_at fuel ref args c = Ok (reach (budget ref (c_env c)) k, c') ∧
    if reach (budget ref (c_env c)) k
    then ∃ h, connected_to h c' ∧
      match ans k with None => m_db_err (c_mysql c') = m_db_err (c_mysql c) | Some _ => lost (m_db_err (c_mysql c')) = true end
    else deletable c'.

Lemma ready_connected h k r1 r2 e c :
  ready h k r1 r2 e c →
  connected_to h (set_mysql (set_connected true) c) ∧ m_db_err (c_mysql (set_mysql (set_connected true) c)) = e.
Proof.
  intros ((? & Hl & Hf) & Hh & ? & ? & ? & ?). split; [split; [split_and!; [done|done|by apply Hl]|done]|done].
Qed.

Lemma connect_step fuel : (∀ f, fuel = S f → connects f) → connects fuel.
Proof.
  intros IH ref args c Hd H1 H2 Hb k.
  destruct (connect_first fuel ref args c Hd) as (c3 & h & R3 & He3 & E). fold k in R3, He3, E. rewrite E. clear E.
  set (r1 := e_retry (c_env c)) in *. set (r2 := e_retry_ref (c_env c)) in *.
  assert (Eb : budget ref (c_env c) = if (if ref then r2 else r1) + 1 <? 3
    then S (ref_budget (if ref then r2 + 1 else r2)) else 1%nat).
  { unfold budget. fold r1 r2. destruct ref; [by apply ref_budget_step|].
    destruct (Z.ltb_spec r1 2), (Z.ltb_spec (r1 + 1) 3); lia. }
  destruct (ans k) as [err|] eqn:Ek.
  2: { rewrite bool_decide_eq_true_2 by done. assert (∃ n, budget ref (c_env c) = S n) as [n Hn]
         by (rewrite Eb; destruct (_ <? 3); by eexists).
       rewrite Hn. cbn [reach]. rewrite Ek. exists (set_mysql (set_connected true) c3). split; [done|].
       exists h. by eapply ready_connected. }
  rewrite bool_decide_eq_false_2 by done.
  destruct (failure_recorded fuel ref args c3 h (S k) r1 r2 _ err R3 (He3 err eq_refl)) as (c4 & R4 & E4).
  rewrite E4, Eb in *. clear E4.
  destruct (lost err) eqn:El; [|exists c4; destruct (_ <? 3); cbn [reach]; rewrite Ek, El; (split; [done|apply R4])].
  destruct ((if ref then r2 else r1) + 1 <? 3) eqn:E3;
    [|exists c4; cbn [reach]; rewrite Ek, El; (split; [done|apply R4])].
  destruct fuel as [|fuel]; [unfold ref_budget in Hb; lia|].
  destruct R4 as (Hd4 & Hm4 & Ha4 & Hr1 & Hr2 & He4).
  assert (Eb4 : budget true (c_env c4) = ref_budget (if ref then r2 + 1 else r2)) by (unfold budget; by rewrite Hr2).
  destruct (IH fuel eq_refl true args c4 Hd4) as (c5 & E5 & H5);
    [rewrite Hr1; destruct ref; lia|rewrite Hr2; destruct ref; lia|rewrite Eb4; lia|].
  rewrite Ha4, Eb4 in *. rewrite (bind_ok _ _ _ _ _ E5). cbn [reach]. rewrite Ek, El.
  destruct (reach (ref_budget (if ref then r2 + 1 else r2)) (S k)); [|by exists c5].
  destruct H5 as (h5 & [(Hm5 & Hc5 & Hl5) Hf5] & He5). exists (set_mysql (set_connected true) c5).
  split; [done|]. exists h5. split; [by split|]. cbn.
  destruct (ans (S k)); [done|]. by rewrite He5, He4.
Qed.

Lemma connect_at_ok fuel : connects fuel.
Proof. induction fuel; apply connect_step; [done|]. by intros f [= ->]. Qed.

Lemma budget_le ref e : 0 ≤ e_retry e → 0 ≤ e_retry_ref e → (budget ref e ≤ 4)%nat.
Proof. intros H1 H2. unfold budget, ref_budget. destruct ref; [lia|]. destruct (_ <? 2); lia. Qed.

(** [open] on an object that is not connected. *)
Lemma open_ok args c :
  deletable c → 0 ≤ e_retry (c_env c) → 0 ≤ e_retry_ref (c_env c) →
  let k := attempt (e_lib (c_env c)) in
  ∃ c', open args c = Ok (reach (budget false (c_env c)) k, c') ∧
    if reach (budget false (c_env c)) k
    then ∃ h, connected_to h c' ∧
      match ans k with None => m_db_err (c_mysql c') = m_db_err (c_mysql c) | Some _ => lost (m_db_err (c_mysql c')) = true end
    else deletable c'.
Proof.
  intros Hd H1 H2 k. destruct (connect_at_ok 3 false args c Hd H1 H2 (budget_le false _ H1 H2)) as (c' & E & Hc).
  fold k in E, Hc. exists c'. split; [|done]. unfold open. rewrite (bind_ok _ _ _ _ _ E).
  rewrite (bind_ok (gets _) _ c' (m_db_err (c_mysql c')) c') by done.
  destruct (reach (budget false (c_env c)) k); [|done].
  destruct Hc as (h & [(_ & Hcon & _) _] & _). cbn [andb].
  destruct ((m_db_err (c_mysql c') =? CR_SERVER_GONE_ERROR) || (m_db_err (c_mysql c') =? CR_SERVER_LOST)); [|done].
  unfold connect. cbn [connect_at]. by rewrite (bind_ok (gets _) _ c' true c') by (unfold gets; by rewrite Hcon).
Qed.

End Connect.

(** ** Calls that only ask the library *)

Section Asking.
Context (mysql_get_client_version : Z) (mysql_info : L → option (list byte)) (mysql_insert_id : L → Z).
Context (mysql_fetch_lengths : MYSQL_RES → option (list Z)).

(** What [mysql_real_escape_string] makes of a text; it ends it with a NUL. *)
Context (escaped : list byte → list byte).

Definition client_version : MC Z := mret (i32 mysql_get_client_version).

Definition result_info : MC (option (list byte)) :=
  handle;;
  gets (λ c, mysql_info (e_lib (c_env c))).

Definition insert_id : MC Z :=
  handle;;
  gets (λ c, u64 (mysql_insert_id (e_lib (c_env c)))).

Definition get_length : MC (option (list Z)) :=
  res ← gets (λ c, m_res (c_mysql c));
  match res with None => raise NullDeref | Some r => mret (mysql_fetch_lengths r) end.

(** The value and what is in the buffer [to] afterwards. *)
Definition write_escaped (to text : list byte) : MC (Z * list byte) :=
  handle;;
  let out := escaped text ++ [x00] in
  if zlen out <=? zlen to then mret (u32 (zlen (escaped text)), out ++ drop (length out) to) else raise OutOfBounds.

Definition escape_string (to from : list byte) : MC (Z * list byte) := write_escaped to (c_str from).

(** A negative length is a huge one for the library. *)
Definition escape_string_len (to from : list byte) (len : Z) : MC (Z * list byte) :=
  if (0 <=? len) && (len <=? zlen from) then write_escaped to (take (Z.to_nat len) from) else raise OutOfBounds.

(** As the library's documentation asks, the buffer has two bytes for every byte and one more. *)
Lemma escape_string_fits h c to from : usable h c → (∀ s, zlen (escaped s) ≤ 2 * zlen s) → 2 * zlen (c_str from) + 1 ≤ zlen to →
  escape_string to from c = Ok ((u32 (zlen (escaped (c_str from))), escaped (c_str from) ++ x00 :: drop (S (length (escaped (c_str from)))) to), c).
Proof.
  intros Hu Hlaw Hto. unfold escape_string, write_escaped. rewrite (bind_ok _ _ _ _ _ (handle_usable h c Hu)).
  specialize (Hlaw (c_str from)). assert (Hle : zlen (escaped (c_str from) ++ [x00]) <=? zlen to = true) by (rewrite zlen_app; change (zlen [x00]) with 1; lia).
  rewrite Hle. unfold mret, M_ret. do 3 f_equal. rewrite <- app_assoc. do 2 f_equal. cbn. f_equal. rewrite length_app. cbn. lia.
Qed.

End Asking.

End Mysql.

(** A library whose [k]-th attempt to connect answers [ans k], that accepts
    statements or not, and stores [res]; its state: attempts and last error. *)
Definition sample_library (ans : nat → option Z) (accept : bool) (res : option MYSQL_RES) :
    client_library (nat * Z) unit := {|
  lib_init l := (true, l);
  lib_options _ l := (true, l);
  lib_real_connect _ l := (bool_decide (ans l.1 = None), (S l.1, default 0 (ans l.1)));
  lib_ping l := (true, l);
  lib_real_query _ l := (accept, (l.1, if accept then 0 else 1064));
  lib_store_result l := (res, l);
  lib_affected_rows _ := 5;
  lib_errno l := l.2;
  lib_error _ := []
|}.

(** A connected object on it. *)
Definition sample_conn : conn (L := nat * Z) :=
  mkConn (mkMysql None None 0 false true (Some 0%nat) [] 0 0 0) (mkEnv (1%nat, 0) {[0%nat]} 1 0 0 0).

Lemma sample_usable : usable 0 sample_conn.
Proof. split_and!; [done|done|]. cbn. set_solver. Qed.

(** C37: [query] hands over the result.  When the server accepts the statement
    and a result is stored, the objects constructed are one per row, in order,
    each from the columns in order with folded name, type, the cell's text up to
    its first NUL, and the null flag; the connection stays usable.  The stored
    result itself is never freed. *)
Theorem mysql_query_rows {L A T} (lib : client_library L A) (construct : list Field → T) sql h c fields rows l1 l2 :
  usable h c →
  lib_real_query lib (c_str sql) (e_lib (c_env c)) = (true, l1) →
  lib_store_result lib l1 = (Some (mkRes fields rows), l2) → lib_errno lib l2 = 0 →
  Forall (λ r, length r = length fields) rows → zlen rows < 2 ^ 31 →
  ∃ c', query lib construct sql c =
      Ok (map (λ r, construct (zip_with cell (map column fields) r)) rows, c') ∧
    usable h c' ∧ e_leaked (c_env c') = S (e_leaked (c_env c)).
Proof.
  intros Hu Eq Es He Hlen Hn. unfold query.
  rewrite (bind_ok _ _ _ _ _ (query_exec_accepted lib h c sql l1 Hu Eq)). cbn [negb].
  set (c1 := set_env (set_lib l1) c). assert (Hu1 : usable h c1) by done.
  set (c4 := set_mysql (set_need_free true) (set_mysql (set_num (zlen rows))
    (set_mysql (set_res (Some (mkRes fields rows))) (set_env (set_lib l2) c1)))).
  assert (E4 : use_result lib c1 = Ok (true, c4)).
  { unfold use_result. rewrite (bind_ok _ _ _ _ _ (handle_usable h c1 Hu1)).
    destruct (call_usable _ h c1 _ _ Hu1 Es) as [E1 _]. rewrite (bind_ok _ _ _ _ _ E1).
    unfold mbind, M_bind, upd, modify, gets. cbn. pose proof (zlen_nonneg rows).
    rewrite i32_small by lia. by rewrite (proj2 (Z.ltb_ge (zlen rows) 0)) by lia. }
  rewrite (bind_ok _ _ _ _ _ E4). cbn [negb].
  rewrite (bind_ok (gets _) _ c4 (Some (mkRes fields rows)) c4) by done. cbn [res_rows res_fields].
  destruct (fetch_all_rows lib construct h fields rows (map column fields) (map column fields) c4 (length rows))
    as (c5 & E5 & Hu5 & Hnf & [res Hres] & Hlib & Hlk); try done.
  { by rewrite length_map. }
  rewrite (bind_ok _ _ _ _ _ E5). eexists.
  unfold free_result, release_res, mbind, M_bind, gets, when, upd, modify. rewrite Hnf. cbn. rewrite Hres.
  split; [reflexivity|]. split; [done|]. cbn. by rewrite Hlk.
Qed.

(** Two rows, with a null and a cell that holds a NUL byte. *)
Lemma mysql_query_rows_witness :
  let fields := [(list_byte_of_string "Id", FIELD_TYPE_LONG); (list_byte_of_string "NAME", FIELD_TYPE_VAR_STRING)] in
  let rows := [[Some ["7"%byte]; None]; [Some ["8"%byte]; Some ["a"%byte; x00; "b"%byte]]] in
  let lib := sample_library (λ _, None) true (Some (mkRes fields rows)) in
  ∃ c', query lib id ["q"%byte] sample_conn = Ok (map (λ r, id (zip_with cell (map column fields) r)) rows, c') ∧
    usable 0 c' ∧ e_leaked (c_env c') = 1%nat.
Proof.
  intros fields rows lib.
  apply (mysql_query_rows lib id ["q"%byte] 0 sample_conn fields rows (1%nat, 0) (1%nat, 0));
    [apply sample_usable|done..|by repeat constructor|done].
Defined.

(** Connecting and retrying.  On a library that allocates handles and
    accepts the options, [open] makes attempts as long as they fail because the
    server is gone or lost, at most [budget] many: four in a fresh thread, and
    one once the thread has seen two losses, because [retry] is never reset.
    It returns whether one of them succeeded, the object then being connected;
    and after an opening that took more than one attempt, [has_error] stays
    true. *)
Theorem mysql_open_retries {L A} (lib : client_library L A) (attempt : L → nat) (ans : nat → option Z) args c :
  (∀ l, ∃ l', lib_init lib l = (true, l') ∧ attempt l' = attempt l) →
  (∀ n l, ∃ l', lib_options lib n l = (true, l') ∧ attempt l' = attempt l) →
  (∀ a l, ∃ l', lib_real_connect lib a l = (bool_decide (ans (attempt l) = None), l') ∧
    attempt l' = S (attempt l) ∧ ∀ e, ans (attempt l) = Some e → lib_errno lib l' = e) →
  deletable c → 0 ≤ e_retry (c_env c) → 0 ≤ e_retry_ref (c_env c) →
  let k := attempt (e_lib (c_env c)) in
  let b := reach ans (budget false (c_env c)) k in
  ∃ c', open lib args c = Ok (b, c') ∧
    (b = true → m_connected (c_mysql c') = true ∧
      has_error c' = Ok (if decide (ans k = None) then negb (m_db_err (c_mysql c) =? 0) else true, c')).
Proof.
  intros Hi Ho Hc Hd H1 H2 k b. destruct (open_ok lib attempt ans Hi Ho Hc args c Hd H1 H2) as (c' & E & Hr).
  fold k b in E, Hr. exists c'. split; [done|]. intros Hb. rewrite Hb in Hr.
  destruct Hr as (h & [(_ & Hcon & _) _] & Herr). split; [done|]. unfold has_error, gets. do 2 f_equal.
  destruct (ans k); [rewrite decide_False by done|rewrite decide_True by done; by rewrite Herr].
  destruct (Z.eqb_spec (m_db_err (c_mysql c')) 0) as [E0|]; [|done]. by rewrite E0 in Herr.
Qed.

(** Lost twice, then connected. *)
Lemma mysql_open_retries_witness :
  let ans k := if (k <? 2)%nat then Some 2013 else None in
  let lib := sample_library ans true None in
  let c := mkConn (Mysql_make 0) (mkEnv (0%nat, 0) ∅ 0 0 0 0) in
  reach ans (budget false (c_env c)) 0 = true ∧
  ∃ c', open lib tt c = Ok (reach ans (budget false (c_env c)) 0, c') ∧
    (reach ans (budget false (c_env c)) 0 = true → m_connected (c_mysql c') = true ∧
      has_error c' = Ok (if decide (ans 0%nat = None) then negb (m_db_err (c_mysql c) =? 0) else true, c')).
Proof.
  intros ans lib c. split; [done|].
  apply (mysql_open_retries lib fst ans tt c); [intros l; by exists l|intros n l; by exists l| |by split_and!|done|done].
  intros a l. eexists. split; [reflexivity|]. split; [done|]. intros e E. cbn. by rewrite E.
Defined.

(** What follows a rejected statement.  [query_exec] then frees the handle
    but keeps its address: the next ping, statement, transaction call, count,
    result or destruction uses or frees freed memory. *)
Theorem mysql_failed_query_dangles {L A} (lib : client_library L A) sql h c l :
  usable h c → lib_real_query lib (c_str sql) (e_lib (c_env c)) = (false, l) →
  ∃ c', query_exec lib sql c = Ok (false, c') ∧
    ping lib c' = Fault UseAfterFree ∧ (∀ sql', query_exec lib sql' c' = Fault UseAfterFree) ∧
    begin lib c' = Fault UseAfterFree ∧ commit lib c' = Fault UseAfterFree ∧ rollback lib c' = Fault UseAfterFree ∧
    affected_rows lib c' = Fault UseAfterFree ∧ use_result lib c' = Fault UseAfterFree ∧
    Mysql_destroy c' = Fault UseAfterFree.
Proof.
  intros Hu E. destruct (query_exec_rejected lib h c sql l Hu E) as (c' & E' & Hd). exists c'.
  split; [done|]. split_and!; try (by eapply handle_bind_dangling); [intros sql'; by eapply handle_bind_dangling|].
  pose proof (destroy_outcome c') as Ho. destruct Hd as (Hm & Hc & Hl).
  destruct (Mysql_destroy c') as [[u c'']|f].
  - destruct Ho as [[? _]|(h' & ? & _ & ?)]; congruence.
  - destruct Ho as [[-> _]|(_ & ? & _)]; congruence.
Qed.

Lemma mysql_failed_query_dangles_witness :
  let lib := sample_library (λ _, None) false None in
  ∃ c', query_exec lib ["x"%byte] sample_conn = Ok (false, c') ∧
    ping lib c' = Fault UseAfterFree ∧ (∀ sql', query_exec lib sql' c' = Fault UseAfterFree) ∧
    begin lib c' = Fault UseAfterFree ∧ commit lib c' = Fault UseAfterFree ∧ rollback lib c' = Fault UseAfterFree ∧
    affected_rows lib c' = Fault UseAfterFree ∧ use_result lib c' = Fault UseAfterFree ∧
    Mysql_destroy c' = Fault UseAfterFree.
Proof.
  intros lib. apply (mysql_failed_query_dangles lib ["x"%byte] 0 sample_conn (1%nat, 1064)); [apply sample_usable|done].
Defined.

(** [execute] and [get_variable] take success for failure.  On a usable
    connection [execute] returns 1 for every accepted statement, whatever it
    affected, and [get_variable] -1; for a rejected one both go on to use the
    freed handle. *)
Theorem mysql_inverted_results {L A} (lib : client_library L A) sql variable h c :
  usable h c →
  (∀ l, lib_real_query lib (c_str sql) (e_lib (c_env c)) = (true, l) →
    ∃ c', execute lib sql c = Ok (1, c')) ∧
  (∀ l, lib_real_query lib (c_str sql) (e_lib (c_env c)) = (false, l) →
    execute lib sql c = Fault UseAfterFree) ∧
  (let buf := take 127 (list_byte_of_string "show variables like '" ++ c_str variable ++ list_byte_of_string "'") in
   ∀ b l, lib_real_query lib (c_str buf) (e_lib (c_env c)) = (b, l) →
    if b : bool then ∃ c', get_variable lib variable c = Ok (Some (-1), c')
    else get_variable lib variable c = Fault UseAfterFree).
Proof.
  intros Hu. split_and!.
  - intros l E. eexists. by eapply execute_accepted.
  - intros l E. by eapply execute_rejected.
  - intros buf b l E. unfold get_variable. fold buf. destruct b.
    + rewrite (bind_ok _ _ _ _ _ (query_exec_accepted lib h c buf l Hu E)). by eexists.
    + destruct (query_exec_rejected lib h c buf l Hu E) as (c' & E' & Hd). rewrite (bind_ok _ _ _ _ _ E'). cbn [negb].
      apply bind_fault. unfold use_result. by eapply handle_bind_dangling.
Qed.

Lemma mysql_inverted_results_witness :
  let lib := sample_library (λ _, None) false None in
  (∀ l, lib_real_query lib (c_str ["x"%byte]) (1%nat, 0) = (true, l) →
    ∃ c', execute lib ["x"%byte] sample_conn = Ok (1, c')) ∧
  (∀ l, lib_real_query lib (c_str ["x"%byte]) (1%nat, 0) = (false, l) →
    execute lib ["x"%byte] sample_conn = Fault UseAfterFree) ∧
  (let buf := take 127 (list_byte_of_string "show variables like '" ++ c_str ["v"%byte] ++ list_byte_of_string "'") in
   ∀ b l, lib_real_query lib (c_str buf) (1%nat, 0) = (b, l) →
    if b : bool then ∃ c', get_variable lib ["v"%byte] sample_conn = Ok (Some (-1), c')
    else get_variable lib ["v"%byte] sample_conn = Fault UseAfterFree).
Proof. intros lib. exact (mysql_inverted_results lib ["x"%byte] ["v"%byte] 0 sample_conn sample_usable). Defined.

(** An object that has connected cannot be destroyed.  [Mysql]'s destructor
    frees a handle twice exactly when the object is connected or its handle has
    been closed before; it is without fault exactly for objects that never
    connected. *)
Theorem mysql_destroy_double_free {L} h (c : conn (L := L)) :
  m_mysql (c_mysql c) = Some h →
  (Mysql_destroy c = Fault UseAfterFree ↔ m_connected (c_mysql c) = true ∨ h ∉ e_live (c_env c)) ∧
  ((∃ c', Mysql_destroy c = Ok (tt, c')) ↔ m_connected (c_mysql c) = false ∧ h ∈ e_live (c_env c)).
Proof.
  intros Hm. pose proof (destroy_outcome c) as Ho. destruct (Mysql_destroy c) as [[[] c']|f].
  - destruct Ho as [[? _]|(h' & Hm' & Hc & Hl)]; [congruence|]. assert (h' = h) as -> by congruence.
    split; [split; [done|intros [?|?]; congruence]|]. split; [done|]. intros _. by exists c'.
  - destruct Ho as [(-> & h' & Hm' & Hc)|(_ & ? & _)]; [|congruence]. assert (h' = h) as -> by congruence.
    split; [done|]. split; [intros [c' [=]]|intros [? ?]; destruct Hc; congruence].
Qed.

Lemma mysql_destroy_double_free_witness :
  (Mysql_destroy sample_conn = Fault UseAfterFree ↔ true = true ∨ 0%nat ∉ ({[0%nat]} : gset nat)) ∧
  ((∃ c', Mysql_destroy sample_conn = Ok (tt, c')) ↔ true = false ∧ 0%nat ∈ ({[0%nat]} : gset nat)).
Proof. exact (mysql_destroy_double_free 0 sample_conn eq_refl). Defined.
