(* ===== verification/LinkPool.v ===== *)
(** * The pool of database links (dao/db_link_pool.h, dao/dao.h)

    [LinkPool<T>] is written against what it calls on a [T]: the class [Link],
    with links as addresses in a world.  Threads run sessions: [get_link] in
    its two parts (a pop under the lock, then the check of the link), the use,
    and [return_back] in its two parts.  Results: how many links the pool holds
    and that no link is in two hands; what [Mysql] links do to it. *)

From Stdlib Require Import ZArith Lia Strings.Byte Strings.String.
From stdpp Require Import base list numbers gmap sets.
From S2P Require Import Prelude.
From S2P Require Import Field.
From S2P Require Import Mysql.

(** What the pool asks of the linked type; [made] are the addresses used so
    far, [link_drop] is the release of the last [shared_ptr]. *)
Class Link (A W : Type) := {
  made : W → gset nat;
  link_make : M W nat;
  link_open : nat → A → M W bool;
  link_connect : nat → A → M W bool;
  link_ping : nat → M W bool;
  link_has_error : nat → M W bool;
  link_idle_minutes : nat → M W Z;
  link_touch : nat → M W unit;
  link_drop : nat → M W unit;
  make_fresh w i w' : link_make w = Ok (i, w') → i ∉ made w ∧ made w' = {[i]} ∪ made w;
  open_made i a w b w' : link_open i a w = Ok (b, w') → made w' = made w;
  connect_made i a w b w' : link_connect i a w = Ok (b, w') → made w' = made w;
  ping_made i w b w' : link_ping i w = Ok (b, w') → made w' = made w;
  error_made i w b w' : link_has_error i w = Ok (b, w') → made w' = made w;
  idle_made i w b w' : link_idle_minutes i w = Ok (b, w') → made w' = made w;
  touch_made i w b w' : link_touch i w = Ok (b, w') → made w' = made w;
  drop_made i w b w' : link_drop i w = Ok (b, w') → made w' = made w
}.

Section LinkPool.
Context {A W : Type} `{Link A W}.

(** [create_link]: a null pointer when the new link does not connect. *)
Definition create_link (args : A) : M W (option nat) :=
  i ← link_make;
  ok ← link_connect i args;
  if ok : bool then mret (Some i) else link_drop i;; mret None.

(** [init_impl]: links are opened until one fails. *)
Fixpoint init_impl (maxsize : nat) (args : A) : M W (list nat) :=
  match maxsize with
  | O => mret []
  | S n =>
      i ← link_make;
      ok ← link_open i args;
      if ok : bool then rest ← init_impl n args; mret (i :: rest)
      else link_drop i;; mret []
  end.

(** [get_link] once a link has been popped. *)
Definition check_link (args : A) (link : option nat) : M W (option nat) :=
  match link with
  | None => create_link args
  | Some i =>
      alive ← link_ping i;
      if negb alive then l ← create_link args; link_drop i;; mret l
      else
        mins ← link_idle_minutes i;
        if mins - 6 * 60 >? 0 then l ← create_link args; link_drop i;; mret l
        else link_touch i;; mret (Some i)
  end.

(** [return_back], before the lock; the guard still holds the old link. *)
Definition check_back (args : A) (link : option nat) : M W (option nat) :=
  match link with
  | None => create_link args
  | Some i =>
      bad ← link_has_error i;
      if bad : bool then create_link args else mret (Some i)
  end.

(** The guard's own pointer goes when [return_back] is done. *)
Definition let_go (link held : option nat) : M W unit :=
  match held with
  | Some i => if decide (link = Some i) then mret tt else link_drop i
  | None => mret tt
  end.

(** ** Sessions *)

Inductive session :=
  | Popped (l : option nat)     (** in [get_link], has popped *)
  | Using (l : option nat)      (** between construction and destruction of a [Dao] *)
  | Leaving (l held : option nat).   (** in [return_back], about to push [l] *)

Definition link_of (s : session) : option nat := match s with Popped l | Using l | Leaving l _ => l end.

(** [p_timeouts] counts the [get_link]s that gave up. *)
Record pool_sys := mkPoolSys {
  p_pool : list (option nat);
  p_sessions : gmap nat session;
  p_world : W;
  p_timeouts : nat
}.

Inductive pool_op :=
  | POpen (t : nat)      (** thread [t] pops, in [get_link] *)
  | PTimeout (t : nat)   (** thread [t] has found the pool empty for 2 seconds *)
  | PCheck (t : nat)
  | PLeave (t : nat)
  | PPush (t : nat).

Definition runs {B} (m : M W B) (w : W) (k : B → W → pool_sys) : result pool_sys :=
  match m w with Ok (b, w') => Ok (k b w') | Fault f => Fault f end.

Definition pool_step (args : A) (o : pool_op) (s : pool_sys) : option (result pool_sys) :=
  match o with
  | POpen t =>
      match p_sessions s !! t, p_pool s with
      | None, l :: rest => Some (Ok (mkPoolSys rest (<[t := Popped l]> (p_sessions s)) (p_world s) (p_timeouts s)))
      | _, _ => None
      end
  | PTimeout t =>
      match p_sessions s !! t, p_pool s with
      | None, [] => Some (Ok (mkPoolSys [] (<[t := Using None]> (p_sessions s)) (p_world s) (S (p_timeouts s))))
      | _, _ => None
      end
  | PCheck t =>
      match p_sessions s !! t with
      | Some (Popped l) => Some (runs (check_link args l) (p_world s) (λ l' w',
          mkPoolSys (p_pool s) (<[t := Using l']> (p_sessions s)) w' (p_timeouts s)))
      | _ => None
      end
  | PLeave t =>
      match p_sessions s !! t with
      | Some (Using l) => Some (runs (check_back args l) (p_world s) (λ l' w',
          mkPoolSys (p_pool s) (<[t := Leaving l' l]> (p_sessions s)) w' (p_timeouts s)))
      | _ => None
      end
  | PPush t =>
      match p_sessions s !! t with
      | Some (Leaving l held) => Some (runs (let_go l held) (p_world s) (λ _ w',
          mkPoolSys (p_pool s ++ [l]) (delete t (p_sessions s)) w' (p_timeouts s)))
      | _ => None
      end
  end.

Fixpoint pool_run (args : A) (ops : list pool_op) (s : pool_sys) : option (result pool_sys) :=
  match ops with
  | [] => Some (Ok s)
  | o :: ops' => match pool_step args o s with Some (Ok s') => pool_run args ops' s' | r => r end
  end.

(** [init]: the pool, and nobody in a session. *)
Definition pool_init (maxsize : nat) (args : A) (w : W) : result pool_sys :=
  runs (init_impl maxsize args) w (λ links w', mkPoolSys (map Some links) ∅ w' 0).

(** ** Who holds a link *)

Record pool_inv (n : nat) (s : pool_sys) : Prop := {
  pi_count : (length (p_pool s) + size (p_sessions s) = n + p_timeouts s)%nat;
  pi_pool : NoDup (omap id (p_pool s));
  pi_sessions : ∀ t1 t2 s1 s2 i, p_sessions s !! t1 = Some s1 → p_sessions s !! t2 = Some s2 →
    link_of s1 = Some i → link_of s2 = Some i → t1 = t2;
  pi_apart : ∀ t ss i, p_sessions s !! t = Some ss → link_of ss = Some i → Some i ∉ p_pool s;
  pi_made_pool : ∀ i, Some i ∈ p_pool s → i ∈ made (p_world s);
  pi_made : ∀ t ss i, p_sessions s !! t = Some ss → link_of ss = Some i → i ∈ made (p_world s)
}.

Lemma create_link_fresh args w l w' :
  create_link args w = Ok (l, w') → made w ⊆ made w' ∧ ∀ i, l = Some i → i ∉ made w ∧ i ∈ made w'.
Proof.
  intros E. apply bind_inv in E as (i & w1 & E1 & E). apply make_fresh in E1 as [Hf Hm].
  apply bind_inv in E as (ok & w2 & E2 & E). apply connect_made in E2. destruct ok.
  - injection E as <- <-. rewrite E2, Hm. split; [set_solver|]. intros j [= <-]. set_solver.
  - apply bind_inv in E as (u & w3 & E3 & E). apply drop_made in E3. injection E as <- <-.
    rewrite E3, E2, Hm. split; [set_solver|done].
Qed.

(** A check returns the same link, none, or a new one. *)
Definition replaces (l l' : option nat) (w w' : W) : Prop :=
  made w ⊆ made w' ∧ ∀ i, l' = Some i → l = Some i ∨ (i ∉ made w ∧ i ∈ made w').

Lemma create_replaces args l w l' w' : create_link args w = Ok (l', w') → replaces l l' w w'.
Proof. intros E. apply create_link_fresh in E as [Hs Hf]. split; [done|]. intros j Hj. right. by apply Hf. Qed.

Lemma create_drop_replaces args i w l' w' l :
  (l1 ← create_link args; link_drop i;; mret l1) w = Ok (l', w') → replaces l l' w w'.
Proof.
  intros E. apply bind_inv in E as (l1 & w1 & E1 & E). apply create_link_fresh in E1 as [Hs Hf].
  apply bind_inv in E as (u & w2 & E2 & E). apply drop_made in E2. injection E as <- <-.
  split; rewrite E2; [done|]. intros j Hj. right. by apply Hf.
Qed.

Lemma replaces_made l l' w w1 w' : made w1 = made w → replaces l l' w1 w' → replaces l l' w w'.
Proof. unfold replaces. by intros ->. Qed.

Lemma check_link_replaces args l w l' w' : check_link args l w = Ok (l', w') → replaces l l' w w'.
Proof.
  destruct l as [i|]; cbn [check_link]; intros E.
  - apply bind_inv in E as (alive & w1 & E1 & E). apply ping_made in E1. apply (replaces_made _ _ _ w1); [done|].
    destruct alive; cbn [negb] in E; [|by eapply create_drop_replaces].
    apply bind_inv in E as (mins & w2 & E2 & E). apply idle_made in E2. apply (replaces_made _ _ _ w2); [done|].
    destruct (mins - 6 * 60 >? 0); [by eapply create_drop_replaces|].
    apply bind_inv in E as (u & w3 & E3 & E). apply touch_made in E3. injection E as <- <-.
    split; [by rewrite E3|]. intros j ->. by left.
  - by eapply create_replaces.
Qed.

Lemma check_back_replaces args l w l' w' : check_back args l w = Ok (l', w') → replaces l l' w w'.
Proof.
  destruct l as [i|]; cbn [check_back]; intros E.
  - apply bind_inv in E as (bad & w1 & E1 & E). apply error_made in E1. apply (replaces_made _ _ _ w1); [done|].
    destruct bad; [by eapply create_replaces|]. injection E as <- <-. split; [done|]. intros j ->. by left.
  - by eapply create_replaces.
Qed.

Lemma let_go_made l held w u w' : let_go l held w = Ok (u, w') → made w' = made w.
Proof.
  destruct held as [i|]; cbn [let_go]; [case_decide|]; try (by intros [= <- <-]). by intros E%drop_made.
Qed.

Lemma replace_inv n s t s1 s2 w' :
  pool_inv n s → p_sessions s !! t = Some s1 → replaces (link_of s1) (link_of s2) (p_world s) w' →
  pool_inv n (mkPoolSys (p_pool s) (<[t := s2]> (p_sessions s)) w' (p_timeouts s)).
Proof.
  intros [] Ht [Hsub Hnew].
  assert (Hl : ∀ i, link_of s2 = Some i → Some i ∉ p_pool s ∧
    (∀ t' s', t' ≠ t → p_sessions s !! t' = Some s' → link_of s' ≠ Some i) ∧ i ∈ made w').
  { intros i Hi. destruct (Hnew i Hi) as [Hs|[Hn Hm]]; split_and!.
    - by eapply pi_apart0.
    - intros t' s' Hne Ht' Hs'. by apply Hne, (pi_sessions0 _ _ _ _ i Ht' Ht).
    - apply Hsub. by eapply pi_made0.
    - intros Hin. by apply pi_made_pool0 in Hin.
    - intros t' s' Hne Ht' Hs'. by destruct Hn; eapply pi_made0.
    - done. }
  constructor; cbn [p_pool p_sessions p_world p_timeouts]; try done.
  - rewrite map_size_insert_Some by done. done.
  - intros t1 t2 r1 r2 i [[<- <-]|[N1 H1]]%lookup_insert_Some [[<- <-]|[N2 H2]]%lookup_insert_Some L1 L2; [done| | |].
    + destruct (Hl i L1) as (_ & Ho & _). by destruct (Ho t2 r2).
    + destruct (Hl i L2) as (_ & Ho & _). by destruct (Ho t1 r1).
    + by eapply pi_sessions0.
  - intros t' r i [[<- <-]|[N H1]]%lookup_insert_Some L; [by apply Hl|by eapply pi_apart0].
  - intros i Hi. by apply Hsub, pi_made_pool0.
  - intros t' r i [[<- <-]|[N H1]]%lookup_insert_Some L; [by apply Hl|apply Hsub; by eapply pi_made0].
Qed.

Lemma omap_id_cons (l : option nat) rest :
  omap id (l :: rest) = option_list l ++ omap id rest.
Proof. by destruct l. Qed.

Lemma elem_omap_id i (p : list (option nat)) : i ∈ omap id p ↔ Some i ∈ p.
Proof.
  rewrite list_elem_of_omap. split; [intros (x & Hx & E); cbn in E; by subst x|]. intros Hi. by exists (Some i).
Qed.

Lemma link_pop_inv n t s l rest :
  pool_inv n s → p_sessions s !! t = None → p_pool s = l :: rest →
  pool_inv n (mkPoolSys rest (<[t := Popped l]> (p_sessions s)) (p_world s) (p_timeouts s)).
Proof.
  intros [] Ht Hp. rewrite Hp in *. rewrite omap_id_cons in pi_pool0. apply NoDup_app in pi_pool0 as (_ & Hapart & Hnd).
  assert (Hl : ∀ i, l = Some i → Some i ∉ rest ∧
    (∀ t' s', p_sessions s !! t' = Some s' → link_of s' ≠ Some i) ∧ i ∈ made (p_world s)).
  { intros i ->. split_and!.
    - intros Hin. apply (Hapart i); [by apply elem_of_cons; left|by apply elem_omap_id].
    - intros t' s' Ht' Hs'. apply (pi_apart0 t' s' i Ht' Hs'). apply elem_of_cons. by left.
    - apply pi_made_pool0, elem_of_cons. by left. }
  constructor; cbn [p_pool p_sessions p_world p_timeouts].
  - rewrite map_size_insert_None by done. cbn [length] in pi_count0. lia.
  - done.
  - intros t1 t2 r1 r2 i [[<- <-]|[N1 H1]]%lookup_insert_Some [[<- <-]|[N2 H2]]%lookup_insert_Some L1 L2; [done| | |].
    + destruct (Hl i L1) as (_ & Ho & _). by destruct (Ho t2 r2).
    + destruct (Hl i L2) as (_ & Ho & _). by destruct (Ho t1 r1).
    + by eapply pi_sessions0.
  - intros t' r i [[<- <-]|[N H1]]%lookup_insert_Some L; [by apply Hl|].
    intros Hin. apply (pi_apart0 t' r i H1 L). apply elem_of_cons. by right.
  - intros i Hi. apply pi_made_pool0, elem_of_cons. by right.
  - intros t' r i [[<- <-]|[N H1]]%lookup_insert_Some L; [by apply Hl|by eapply pi_made0].
Qed.

Lemma link_timeout_inv n t s :
  pool_inv n s → p_sessions s !! t = None →
  pool_inv n (mkPoolSys (p_pool s) (<[t := Using None]> (p_sessions s)) (p_world s) (S (p_timeouts s))).
Proof.
  intros [] Ht. constructor; cbn [p_pool p_sessions p_world p_timeouts]; try done.
  - rewrite map_size_insert_None by done. lia.
  - intros t1 t2 r1 r2 i [[<- <-]|[N1 H1]]%lookup_insert_Some [[<- <-]|[N2 H2]]%lookup_insert_Some L1 L2; try done.
    by eapply pi_sessions0.
  - intros t' r i [[<- <-]|[N H1]]%lookup_insert_Some L; [done|by eapply pi_apart0].
  - intros t' r i [[<- <-]|[N H1]]%lookup_insert_Some L; [done|by eapply pi_made0].
Qed.

Lemma link_push_inv n t s l held w' :
  pool_inv n s → p_sessions s !! t = Some (Leaving l held) → made w' = made (p_world s) →
  pool_inv n (mkPoolSys (p_pool s ++ [l]) (delete t (p_sessions s)) w' (p_timeouts s)).
Proof.
  intros [] Ht Hw. constructor; cbn [p_pool p_sessions p_world p_timeouts]; try rewrite Hw.
  - rewrite length_app, map_size_delete, Ht. cbn.
    assert (size (p_sessions s) ≠ 0%nat) by (intros E; apply map_size_empty_inv in E; by rewrite E, lookup_empty in Ht). lia.
  - rewrite omap_app. apply NoDup_app. split_and!; [done| |destruct l; cbn; [apply NoDup_singleton|apply NoDup_nil_2]].
    intros i Hi Hl. destruct l as [j|]; cbn in Hl; [|by apply elem_of_nil in Hl].
    apply elem_of_cons in Hl as [->|Hl]; [|by apply elem_of_nil in Hl].
    apply elem_omap_id in Hi. by apply (pi_apart0 t (Leaving (Some j) held) j Ht).
  - intros t1 t2 r1 r2 i [N1 H1]%lookup_delete_Some [N2 H2]%lookup_delete_Some L1 L2. by eapply pi_sessions0.
  - intros t' r i [N H1]%lookup_delete_Some L Hin. apply elem_of_app in Hin as [Hin|Hin]; [by eapply pi_apart0|].
    apply elem_of_cons in Hin as [E|Hin]; [|by apply elem_of_nil in Hin]. subst l. by apply N, (pi_sessions0 _ _ _ _ i Ht H1).
  - intros i Hin. apply elem_of_app in Hin as [Hin|Hin]; [by apply pi_made_pool0|].
    apply elem_of_cons in Hin as [E|Hin]; [|by apply elem_of_nil in Hin]. subst l. by eapply pi_made0.
  - intros t' r i [N H1]%lookup_delete_Some L. by eapply pi_made0.
Qed.

Lemma link_step_inv args n o s s' : pool_inv n s → pool_step args o s = Some (Ok s') → pool_inv n s'.
Proof.
  intros Hi E. destruct o as [t|t|t|t|t]; cbn [pool_step] in E.
  - destruct (p_sessions s !! t) eqn:Et; [done|]. destruct (p_pool s) as [|l rest] eqn:Ep; [done|].
    injection E as <-. by apply link_pop_inv.
  - destruct (p_sessions s !! t) eqn:Et; [done|]. destruct (p_pool s) as [|l rest] eqn:Ep; [|done].
    injection E as <-. rewrite <- Ep. by apply link_timeout_inv.
  - destruct (p_sessions s !! t) as [[l|l|l held]|] eqn:Et; try done. unfold runs in E.
    destruct (check_link args l (p_world s)) as [[l' w']|] eqn:Ec; [|done]. injection E as <-.
    eapply replace_inv; [done|done|by eapply check_link_replaces].
  - destruct (p_sessions s !! t) as [[l|l|l held]|] eqn:Et; try done. unfold runs in E.
    destruct (check_back args l (p_world s)) as [[l' w']|] eqn:Ec; [|done]. injection E as <-.
    eapply replace_inv; [done|done|by eapply check_back_replaces].
  - destruct (p_sessions s !! t) as [[l|l|l held]|] eqn:Et; try done. unfold runs in E.
    destruct (let_go l held (p_world s)) as [[u w']|] eqn:Ec; [|done]. injection E as <-.
    eapply link_push_inv; [done|done|by eapply let_go_made].
Qed.

Lemma link_run_inv args n ops s s' : pool_inv n s → pool_run args ops s = Some (Ok s') → pool_inv n s'.
Proof.
  revert s. induction ops as [|o ops IH]; intros s Hi E; [by injection E as <-|]. cbn [pool_run] in E.
  destruct (pool_step args o s) as [[s1|]|] eqn:Eo; [|done..]. apply (IH s1); [by eapply link_step_inv|done].
Qed.

Lemma init_fresh n args w links w' :
  init_impl n args w = Ok (links, w') →
  NoDup links ∧ (length links ≤ n)%nat ∧ made w ⊆ made w' ∧ ∀ i, i ∈ links → i ∉ made w ∧ i ∈ made w'.
Proof.
  revert w links w'. induction n as [|n IH]; intros w links w' E; cbn [init_impl] in E.
  { injection E as <- <-. split_and!; [apply NoDup_nil_2|done|done|]. intros i Hi. by apply elem_of_nil in Hi. }
  apply bind_inv in E as (i & w1 & E1 & E). apply make_fresh in E1 as [Hf Hm].
  apply bind_inv in E as (ok & w2 & E2 & E). apply open_made in E2. destruct ok.
  - apply bind_inv in E as (rest & w3 & E3 & E). injection E as <- <-.
    destruct (IH _ _ _ E3) as (Hnd & Hl & Hs & Hr). rewrite E2, Hm in *.
    split_and!; [|cbn; lia|set_solver|].
    + apply NoDup_cons. split; [|done]. intros Hin. apply Hr in Hin as [Hn _]. set_solver.
    + intros j [->|Hj]%elem_of_cons; [set_solver|]. apply Hr in Hj. set_solver.
  - apply bind_inv in E as (u & w3 & E3 & E). apply drop_made in E3. injection E as <- <-.
    rewrite E3, E2, Hm. split_and!; [apply NoDup_nil_2|cbn; lia|set_solver|]. intros j Hj. by apply elem_of_nil in Hj.
Qed.

Lemma init_inv n args w s :
  pool_init n args w = Ok s → pool_inv (length (p_pool s)) s ∧ (length (p_pool s) ≤ n)%nat ∧ p_timeouts s = 0%nat.
Proof.
  unfold pool_init, runs. destruct (init_impl n args w) as [[links w']|] eqn:E; [|done]. intros [= <-].
  destruct (init_fresh _ _ _ _ _ E) as (Hnd & Hl & Hs & Hr). cbn [p_pool p_timeouts].
  split; [|by rewrite length_map]. constructor; cbn [p_pool p_sessions p_world p_timeouts]; try done.
  - clear -Hnd. replace (omap id (map Some links)) with links; [done|]. induction links as [|i l IH]; [done|]. cbn. f_equal.
    apply IH. by apply NoDup_cons in Hnd as [_ ?].
  - intros i Hi. apply list_elem_of_fmap in Hi as (j & [= ->] & Hj). by apply Hr.
Qed.

End LinkPool.

(** ** [Mysql] links *)

Section MysqlLinks.
Context {L A : Type} (lib : client_library L A).
(** The time goes with the state of the library. *)
Context (clock : L → Z).

(** The objects by address, and what they share. *)
Record world := mkWorld { w_links : gmap nat Mysql; w_next : nat; w_env : env (L := L) }.

Definition mysql_make : M world nat := λ w,
  Ok (w_next w, mkWorld (<[w_next w := Mysql_make (clock (e_lib (w_env w)))]> (w_links w)) (S (w_next w)) (w_env w)).

(** A member function of the object at [i]. *)
Definition on_link {B} (i : nat) (m : M (conn (L := L)) B) : M world B := λ w,
  match w_links w !! i with
  | None => Fault UseAfterFree
  | Some my =>
      match m (mkConn my (w_env w)) with
      | Ok (b, c) => Ok (b, mkWorld (<[i := c_mysql c]> (w_links w)) (w_next w) (c_env c))
      | Fault f => Fault f
      end
  end.

Definition mysql_drop (i : nat) : M world unit :=
  on_link i Mysql_destroy;;
  modify (λ w, mkWorld (delete i (w_links w)) (w_next w) (w_env w)).

Lemma on_link_ok {B} i (m : M conn B) w my b c :
  w_links w !! i = Some my → m (mkConn my (w_env w)) = Ok (b, c) →
  on_link i m w = Ok (b, mkWorld (<[i := c_mysql c]> (w_links w)) (w_next w) (c_env c)).
Proof. intros Hi E. unfold on_link. by rewrite Hi, E. Qed.

Lemma on_link_next {B} i (m : M conn B) w b w' : on_link i m w = Ok (b, w') → w_next w' = w_next w.
Proof. unfold on_link. repeat case_match; try done. by intros [= <- <-]. Qed.

(** The whole minutes since a link was last used. *)
Definition idle_minutes (now last : Z) : Z := Z.quot (now - last) (60 * 10 ^ 9).

Definition now_of (c : conn) : Z := clock (e_lib (c_env c)).

#[export] Program Instance mysql_link : Link A world := {|
  made w := set_seq 0 (w_next w);
  link_make := mysql_make;
  link_open i a := on_link i (open lib a);
  link_connect i a := on_link i (connect lib true a);
  link_ping i := on_link i (ping lib);
  link_has_error i := on_link i has_error;
  link_idle_minutes i := on_link i (now ← gets now_of; last ← get_operate_time; mret (idle_minutes now last));
  link_touch i := on_link i (now ← gets now_of; update_operate_time now);
  link_drop i := mysql_drop i
|}.
Next Obligation.
  intros w i w' [= <- <-]. cbn [w_next]. split; [rewrite elem_of_set_seq; lia|].
  apply set_eq. intros x. rewrite elem_of_union, elem_of_singleton, !elem_of_set_seq. lia.
Qed.
Next Obligation. intros i a w b w' E. cbn in *. by rewrite (on_link_next _ _ _ _ _ E). Qed.
Next Obligation. intros i a w b w' E. cbn in *. by rewrite (on_link_next _ _ _ _ _ E). Qed.
Next Obligation. intros i w b w' E. cbn in *. by rewrite (on_link_next _ _ _ _ _ E). Qed.
Next Obligation. intros i w b w' E. cbn in *. by rewrite (on_link_next _ _ _ _ _ E). Qed.
Next Obligation. intros i w b w' E. cbn in *. by rewrite (on_link_next _ _ _ _ _ E). Qed.
Next Obligation. intros i w b w' E. cbn in *. by rewrite (on_link_next _ _ _ _ _ E). Qed.
Next Obligation.
  intros i w b w' E. apply bind_inv in E as (u & w1 & E1 & [= <- <-]). cbn. by rewrite (on_link_next _ _ _ _ _ E1).
Qed.

(** ** [Dao] *)

Definition Dao_is_open (l : option nat) : bool := match l with Some _ => true | None => false end.

Definition Dao_query {T} (construct : list Field → T) (l : option nat) sql : M world (list T) :=
  match l with Some i => on_link i (query lib construct sql) | None => raise NullDeref end.

Definition Dao_execute (l : option nat) sql : M world bool :=
  match l with
  | None => mret false
  | Some i => r ← on_link i (execute lib sql); mret (negb (r =? 0))
  end.

Definition Dao_begin (l : option nat) : M world bool :=
  match l with None => mret false | Some i => on_link i (begin lib) end.
Definition Dao_rollback (l : option nat) : M world bool :=
  match l with None => mret false | Some i => on_link i (rollback lib) end.
Definition Dao_commit (l : option nat) : M world bool :=
  match l with None => mret false | Some i => on_link i (commit lib) end.

End MysqlLinks.

(** What the pool keeps and what it does not.  For any type of links, after
    any interleaving of sessions: no link is in the pool twice, in the pool and
    in a session, or in two sessions; and pool and open sessions together count
    the links opened at the start (at most [maxsize]) plus one for every
    [get_link] that gave up, so that the pool outgrows [maxsize]. *)
Theorem link_pool_count {A W} `{Link A W} maxsize (args : A) w s0 ops s :
  pool_init maxsize args w = Ok s0 → pool_run args ops s0 = Some (Ok s) →
  (length (p_pool s0) ≤ maxsize)%nat ∧
  (length (p_pool s) + size (p_sessions s) = length (p_pool s0) + p_timeouts s)%nat ∧
  NoDup (omap id (p_pool s)) ∧
  (∀ t ss i, p_sessions s !! t = Some ss → link_of ss = Some i → Some i ∉ p_pool s) ∧
  (∀ t1 t2 s1 s2 i, p_sessions s !! t1 = Some s1 → p_sessions s !! t2 = Some s2 →
    link_of s1 = Some i → link_of s2 = Some i → t1 = t2).
Proof.
  intros E0 E. destruct (init_inv _ _ _ _ E0) as (Hi & Hle & Ht).
  destruct (link_run_inv args _ ops s0 s Hi E) as []. by split_and!.
Qed.

(** A pool of one link that holds two in the end. *)
Lemma link_pool_count_witness :
  let lib := sample_library (λ _, None) true None in
  let _ := mysql_link lib (λ _, 0) in
  let w := mkWorld ∅ 0 (mkEnv (0%nat, 0) ∅ 0 0 0 0) in
  let s0 := match pool_init 1 tt w with Ok s => s | Fault _ => mkPoolSys [] ∅ w 0 end in
  let ops := [POpen 0; PTimeout 1; PCheck 0; PLeave 1; PPush 1; PLeave 0; PPush 0] in
  let s := match pool_run tt ops s0 with Some (Ok s) => s | _ => s0 end in
  p_pool s = [Some 1%nat; Some 0%nat] ∧ (length (p_pool s0) ≤ 1)%nat ∧
  (length (p_pool s) + size (p_sessions s) = length (p_pool s0) + p_timeouts s)%nat ∧
  NoDup (omap id (p_pool s)) ∧
  (∀ t ss i, p_sessions s !! t = Some ss → link_of ss = Some i → Some i ∉ p_pool s) ∧
  (∀ t1 t2 s1 s2 i, p_sessions s !! t1 = Some s1 → p_sessions s !! t2 = Some s2 →
    link_of s1 = Some i → link_of s2 = Some i → t1 = t2).
Proof.
  intros lib inst w s0 ops s. split; [by vm_compute|].
  apply (link_pool_count 1 tt w s0 ops s); by vm_compute.
Defined.


(** Nothing brings a freed handle back. *)
Section Dead.
Context {L A : Type} (lib : client_library L A).

Definition keeps_dead {B} (m : M (conn (L := L)) B) : Prop := ∀ c b c', m c = Ok (b, c') →
  (e_next (c_env c) ≤ e_next (c_env c'))%nat ∧
  ∀ h, (h < e_next (c_env c))%nat → h ∉ e_live (c_env c) → h ∉ e_live (c_env c').

Lemma dead_bind {B C} (m : M conn B) (k : B → M conn C) :
  keeps_dead m → (∀ b, keeps_dead (k b)) → keeps_dead (b ← m; k b).
Proof.
  intros Hm Hk c b c' E. apply bind_inv in E as (x & c1 & E1 & E).
  apply Hm in E1 as [N1 D1]. apply Hk in E as [N2 D2]. split; [lia|]. intros h Hn Hl. apply D2; [lia|by apply D1].
Qed.

Lemma dead_same {B} (m : M conn B) :
  (∀ c b c', m c = Ok (b, c') → e_live (c_env c') ⊆ e_live (c_env c) ∧ e_next (c_env c') = e_next (c_env c)) →
  keeps_dead m.
Proof. intros Hm c b c' [Hl Hn]%Hm. split; [by rewrite Hn|set_solver]. Qed.

Lemma dead_mret {B} (b : B) : keeps_dead (mret b).
Proof. apply dead_same. by intros c b' c' [= <- <-]. Qed.
Lemma dead_gets {B} (f : conn → B) : keeps_dead (gets f).
Proof. apply dead_same. by intros c b c' [= <- <-]. Qed.
Lemma dead_upd f : keeps_dead (upd (L := L) f).
Proof. apply dead_same. by intros c b c' [= <- <-]. Qed.
Lemma dead_record : keeps_dead (record_error lib).
Proof. apply dead_same. by intros c b c' [= <- <-]. Qed.
Lemma dead_call {B} (f : L → B * L) : keeps_dead (call f).
Proof. apply dead_same. intros c b c'. unfold call. case_match. by intros [= <- <-]. Qed.
Lemma dead_count ref : keeps_dead (modify (set_env (count_retry ref))).
Proof. apply dead_same. destruct ref; by intros c b c' [= <- <-]. Qed.
Lemma dead_handle : keeps_dead (handle (L := L)).
Proof. apply dead_same. intros c b c'. unfold handle. repeat case_match; try done. by intros [= <- <-]. Qed.
Lemma dead_free h : keeps_dead (free_handle (L := L) h).
Proof. apply dead_same. intros c b c'. unfold free_handle. case_match; [|done]. intros [= <- <-]. cbn. set_solver. Qed.

Create HintDb dead.
#[local] Hint Resolve dead_bind dead_mret dead_gets dead_upd dead_record dead_call dead_count dead_handle
  dead_free : dead.

Lemma dead_delete : keeps_dead (delete_handle (L := L)).
Proof. apply dead_bind; [apply dead_gets|]. intros [h|]; auto with dead. Qed.

Lemma dead_reset : keeps_dead (reset_handle lib).
Proof.
  apply dead_bind; [apply dead_call|]. intros ok. apply dead_bind; [destruct ok; [|apply dead_mret]|].
  - intros c b c' [= <- <-]. split; cbn; [lia|]. intros h Hn Hl. apply not_elem_of_union. split; [|done].
    apply not_elem_of_singleton. lia.
  - intros h. apply dead_bind; [apply dead_delete|]. intros _. apply dead_upd.
Qed.

Lemma dead_options : keeps_dead (mysql_options_set lib).
Proof.
  unfold mysql_options_set. apply dead_bind; [apply dead_handle|]. intros _.
  repeat (apply dead_bind; [apply dead_call|]; intros ok; destruct ok; cbn [negb]; [|solve [auto with dead]]).
  apply dead_mret.
Qed.

Lemma dead_connect_at fuel ref args : keeps_dead (connect_at lib fuel ref args).
Proof.
  revert ref. induction fuel as [|fuel IH]; intros ref; cbn [connect_at];
    (apply dead_bind; [apply dead_gets|]; intros on; destruct on; [apply dead_mret|];
     apply dead_bind; [apply dead_reset|]; intros _; apply dead_bind; [apply dead_gets|]; intros h;
     destruct h; [|solve [auto with dead]];
     apply dead_bind; [apply dead_options|]; intros _; apply dead_bind; [apply dead_handle|]; intros _;
     apply dead_bind; [apply dead_call|]; intros ok; destruct ok; [solve [auto with dead]|];
     do 2 (apply dead_bind; [solve [auto with dead]|]; intros _);
     apply dead_bind; [apply dead_gets|]; intros err; case_match; [apply dead_mret|];
     apply dead_bind; [apply dead_gets|]; intros retry; case_match; [|apply dead_mret]).
  - apply dead_mret.
  - apply dead_bind; [apply IH|]. intros again. destruct again; auto with dead.
Qed.

Lemma dead_close : keeps_dead (close (L := L)).
Proof.
  apply dead_bind; [apply dead_gets|]. intros on. destruct on; cbn [when]; [|apply dead_mret].
  apply dead_bind; [apply dead_handle|]. intros h. apply dead_bind; [apply dead_free|]. intros _. apply dead_upd.
Qed.

Lemma dead_ping : keeps_dead (ping lib).
Proof.
  apply dead_bind; [apply dead_handle|]. intros _. apply dead_bind; [apply dead_call|]. intros ok.
  destruct ok; [apply dead_mret|]. apply dead_bind; [apply dead_record|]. intros _.
  apply dead_bind; [apply dead_close|]. intros _. apply dead_mret.
Qed.

Lemma dead_destroy : keeps_dead (Mysql_destroy (L := L)).
Proof.
  apply dead_same. intros [[res row num need con [h|] msg err] [l live next leaked r1 r2]] b c'.
  all: unfold Mysql_destroy, free_result, close, release_res, delete_handle, free_handle, handle, upd, mbind, M_bind,
    gets, modify, when; cbn; destruct need, con; cbn; repeat (case_decide; cbn); try done; intros [= <- <-]; cbn;
    set_solver.
Qed.

End Dead.

(** ** Links that cannot be dropped *)

Section Doomed.
Context {L A : Type} (lib : client_library L A) (clock : L → Z).
#[local] Existing Instance mysql_link.

(** The link at [i] holds a handle that its destructor would free twice: it is
    connected, or has been and is closed. *)
Definition doomed (w : world (L := L)) (i : nat) : Prop :=
  ∃ my h, w_links w !! i = Some my ∧ m_mysql my = Some h ∧ (i < w_next w)%nat ∧ (h < e_next (w_env w))%nat ∧
    (m_connected my = true ∨ h ∉ e_live (w_env w)).

Lemma drop_doomed w i : doomed w i → mysql_drop i w = Fault UseAfterFree.
Proof.
  intros (my & h & Hi & Hm & _ & _ & Hd). unfold mysql_drop. apply bind_fault. unfold on_link. rewrite Hi.
  pose proof (destroy_outcome (mkConn my (w_env w))) as Ho.
  destruct (Mysql_destroy (mkConn my (w_env w))) as [[u c]|f]; cbn in Ho.
  - destruct Ho as [[? _]|(h' & Hm' & Hc & Hl)]; [congruence|]. assert (h' = h) as -> by congruence.
    by destruct Hd; [congruence|].
  - destruct Ho as [[-> _]|(_ & ? & _)]; [done|congruence].
Qed.

Lemma on_other_doomed {B} (m : M conn B) w i j b w' :
  keeps_dead m → i ≠ j → on_link j m w = Ok (b, w') → doomed w i → doomed w' i.
Proof.
  intros Hk Hne E (my & h & Hi & Hm & Hn & Hh & Hd). unfold on_link in E.
  destruct (w_links w !! j) as [mj|] eqn:Ej; [|done].
  destruct (m (mkConn mj (w_env w))) as [[b' c]|] eqn:Em; [|done]. injection E as <- <-.
  exists my, h. cbn. rewrite lookup_insert_ne by done.
  apply Hk in Em as [Hnext Hdead]. cbn in *. split_and!; [done..|lia|]. destruct Hd; [by left|right; by apply Hdead].
Qed.

Lemma create_doomed args w i l w' :
  create_link (W := world (L := L)) (H := mysql_link lib clock) args w = Ok (l, w') → doomed w i → doomed w' i.
Proof.
  intros E Hd. apply bind_inv in E as (j & w1 & E1 & E). injection E1 as Ej <-.
  assert (Hne : i ≠ j) by (destruct Hd as (my & h & _ & _ & ? & _); lia).
  set (w1 := mkWorld (<[w_next w := Mysql_make _]> (w_links w)) (S (w_next w)) (w_env w)) in *.
  assert (Hd1 : doomed w1 i).
  { destruct Hd as (my & h & Hi & Hm & Hn & Hd). exists my, h. cbn.
    rewrite lookup_insert_ne by lia. split_and!; try done; [lia|apply Hd..]. }
  apply bind_inv in E as (ok & w2 & E2 & E). cbn [link_connect mysql_link] in E2.
  pose proof (on_other_doomed _ _ _ _ _ _ (dead_connect_at lib 3 true args) Hne E2 Hd1) as Hd2.
  destruct ok; [by injection E as <- <-|].
  apply bind_inv in E as (u & w3 & E3 & E). injection E as <- <-.
  apply bind_inv in E3 as (u' & w4 & E4 & E3). injection E3 as _ <-.
  destruct (on_other_doomed _ _ _ _ _ _ dead_destroy Hne E4 Hd2) as (my & h & Hi & Hm & Hn & Hdd).
  exists my, h. cbn. by rewrite lookup_delete_ne.
Qed.

Lemma ping_usable h c b c' :
  usable h c → ping lib c = Ok (b, c') → usable h c' ∨ dangling h c'.
Proof.
  intros Hu E. unfold ping in E. rewrite (bind_ok _ _ _ _ _ (handle_usable h c Hu)) in E.
  destruct (lib_ping lib (e_lib (c_env c))) as [ok l] eqn:El.
  destruct (call_usable (lib_ping lib) h c ok l Hu El) as [E1 Hu1]. rewrite (bind_ok _ _ _ _ _ E1) in E.
  destruct ok; [injection E as <- <-; by left|].
  destruct (record_error_usable lib h _ Hu1) as (c2 & E2 & Hu2). rewrite (bind_ok _ _ _ _ _ E2) in E.
  destruct (close_usable h c2 Hu2) as (c3 & E3 & Hd). rewrite (bind_ok _ _ _ _ _ E3) in E.
  injection E as <- <-. by right.
Qed.

Lemma ping_doomed w i b w' : on_link i (ping lib) w = Ok (b, w') → doomed w i → doomed w' i.
Proof.
  intros E (my & h & Hi & Hm & Hn & Hh & Hd). unfold on_link in E. rewrite Hi in E.
  destruct (ping lib (mkConn my (w_env w))) as [[b' c]|] eqn:Ep; [|done]. injection E as <- <-.
  destruct (decide (h ∈ e_live (w_env w))) as [Hl|Hl].
  - assert (Hu : usable h (mkConn my (w_env w))) by (destruct Hd; done).
    apply dead_ping in Ep as Hk. destruct Hk as [Hnext _]. cbn in Hnext.
    exists (c_mysql c), h. cbn. rewrite lookup_insert_eq.
    destruct (ping_usable h _ _ _ Hu Ep) as [(? & ? & ?)|(? & ? & ?)]; split_and!; try done; try lia; [by left|by right].
  - assert (Hg : handle (mkConn my (w_env w)) = Fault UseAfterFree) by (unfold handle; cbn; by rewrite Hm, decide_False).
    unfold ping in Ep. by rewrite (bind_fault _ _ _ _ Hg) in Ep.
Qed.

(** Dropping a doomed link after a new one has been made. *)
Lemma create_drop_faults {B} args i w (k : option nat → M world B) :
  doomed w i → ∃ f, (l ← create_link (H := mysql_link lib clock) args; mysql_drop i;; k l) w = Fault f.
Proof.
  intros Hd. destruct (create_link (H := mysql_link lib clock) args w) as [[l w1]|f] eqn:E.
  - rewrite (bind_ok _ _ _ _ _ E). exists UseAfterFree. apply bind_fault. eapply drop_doomed, create_doomed; done.
  - exists f. by apply bind_fault.
Qed.

End Doomed.

(** A database link that has connected cannot be replaced.  [get_link] of
    such a link that does not answer the ping or has been idle for more than six
    hours, and the return of one that recorded an error, make a new link and then
    drop the old one, whose destructor frees its handle twice: the step ends in a
    fault, whatever the library answers to the new connection. *)
Theorem mysql_link_replacement {L A} (lib : client_library L A) clock args (s : pool_sys) t i :
  let _ := mysql_link lib clock in
  doomed (p_world s) i →
  (∀ alive w, p_sessions s !! t = Some (Popped (Some i)) → link_ping i (p_world s) = Ok (alive, w) →
     alive = false ∨ (∀ my, w_links w !! i = Some my → 360 < idle_minutes (clock (e_lib (w_env w))) (m_latest_time my)) →
     ∃ f, pool_step args (PCheck t) s = Some (Fault f)) ∧
  (p_sessions s !! t = Some (Using (Some i)) → link_has_error i (p_world s) = Ok (true, p_world s) →
     ∃ f, pool_run args [PLeave t; PPush t] s = Some (Fault f)).
Proof.
  intros inst. subst inst. intros Hd. split.
  - intros alive w Ht Hp Hbad. cbn [pool_step]. rewrite Ht. unfold runs. cbn [check_link].
    rewrite (bind_ok _ _ _ _ _ Hp). pose proof (ping_doomed lib _ _ _ _ Hp Hd) as Hd1.
    destruct (create_drop_faults lib clock args i w mret Hd1) as [f Ef]. exists f.
    destruct alive; cbn [negb].
    + destruct Hbad as [?|Hm]; [done|]. cbn [link_idle_minutes mysql_link].
      destruct Hd1 as (my & h & Hmy & Hd1). specialize (Hm my Hmy).
      set (mins := idle_minutes (clock (e_lib (w_env w))) (m_latest_time my)) in *.
      assert (Eidle : on_link i (now ← gets (now_of clock); last ← get_operate_time; mret (idle_minutes now last)) w = Ok (mins, w)).
      { erewrite (on_link_ok _ _ _ _ mins) by done. cbn. rewrite fin_maps.insert_id by done. by destruct w. }
      rewrite (bind_ok _ _ _ _ _ Eidle). assert (mins - 6 * 60 >? 0 = true) as -> by lia.
      cbn [link_drop mysql_link]. by rewrite Ef.
    + cbn [link_drop mysql_link]. by rewrite Ef.
  - intros Ht He. cbn [pool_run pool_step]. rewrite Ht. unfold runs. cbn [check_back].
    rewrite (bind_ok _ _ _ _ _ He). destruct (create_link args (p_world s)) as [[l w]|f] eqn:Ec; [|by exists f].
    cbn [p_sessions p_pool p_world]. rewrite lookup_insert_eq. exists UseAfterFree.
    pose proof (create_doomed lib clock _ _ _ _ _ Ec Hd) as Hd1. cbn [let_go].
    destruct (create_link_fresh _ _ _ _ Ec) as [_ Hf]. rewrite decide_False;
      [by cbn [link_drop mysql_link]; rewrite drop_doomed|].
    intros ->. destruct (Hf i eq_refl) as [Hn _]. apply Hn. cbn. apply elem_of_set_seq.
    destruct Hd as (my & h & _ & _ & ? & _). lia.
Qed.

(** A pool of one link, taken and checked 361 minutes after it was opened; and
    the same link returned after a result that could not be stored. *)
Lemma mysql_link_replacement_witness :
  let lib := sample_library (λ _, None) true None in
  let clock := λ (_ : nat * Z), 361 * (60 * 10 ^ 9) + 5 in
  let _ := mysql_link lib clock in
  let my := mkMysql None None 0 false true (Some 0%nat) [] 5 0 0 in
  let w := mkWorld {[0%nat := my]} 1 (mkEnv (0%nat, 0) {[0%nat]} 1 0 0 0) in
  let s1 := mkPoolSys [] {[7%nat := Popped (Some 0%nat)]} w 0 in
  let s2 := mkPoolSys [] {[7%nat := Using (Some 0%nat)]} w 0 in
  (∃ f, pool_step tt (PCheck 7) s1 = Some (Fault f)) ∧ (∃ f, pool_run tt [PLeave 7; PPush 7] s2 = Some (Fault f)).
Proof.
  intros lib clock inst my w s1 s2.
  assert (Hd : doomed w 0).
  { exists my, 0%nat. split_and!; [done|done|cbn; lia|cbn; lia|by left]. }
  split.
  - apply (proj1 (mysql_link_replacement lib clock tt s1 7 0 Hd) true w); [done|by vm_compute|right; intros my' [= <-]; by vm_compute].
  - by apply (proj2 (mysql_link_replacement lib clock tt s2 7 0 Hd)).
Defined.

(** What a [Dao] answers.  Without a link it is not open, [execute] and the
    transaction calls answer false, and [query] dereferences the null pointer.
    With a usable link [execute] answers true for every accepted statement,
    whatever it did, and the transaction calls answer whether the server
    accepted; an [execute] the server rejects does not return. *)
Theorem dao_answers {L A T} (lib : client_library L A) (construct : list Field → T) (w : world (L := L)) i my h sql :
  w_links w !! i = Some my → usable h (mkConn my (w_env w)) →
  (Dao_is_open None = false ∧ Dao_execute lib None sql w = Ok (false, w) ∧ Dao_begin lib None w = Ok (false, w) ∧
   Dao_rollback lib None w = Ok (false, w) ∧ Dao_commit lib None w = Ok (false, w) ∧
   Dao_query lib construct None sql w = Fault NullDeref) ∧
  (∀ b l, lib_real_query lib (c_str sql) (e_lib (w_env w)) = (b, l) →
     if b : bool then ∃ w', Dao_execute lib (Some i) sql w = Ok (true, w')
     else Dao_execute lib (Some i) sql w = Fault UseAfterFree) ∧
  (∀ (op : option nat → M world bool) text b l,
     (op, text) ∈ [(Dao_begin lib, "begin"%string); (Dao_rollback lib, "rollback"%string);
       (Dao_commit lib, "commit"%string)] →
     lib_real_query lib (list_byte_of_string text) (e_lib (w_env w)) = (b, l) →
     ∃ w', op (Some i) w = Ok (b, w')).
Proof.
  intros Hi Hu. split_and!; try done.
  - intros b l E. unfold Dao_execute. destruct b.
    + eexists. rewrite (bind_ok _ _ _ _ _ (on_link_ok _ _ _ _ _ _ Hi (execute_accepted lib h _ sql l Hu E))). done.
    + apply bind_fault. unfold on_link. by rewrite Hi, (execute_rejected lib h _ sql l Hu E).
  - intros op text b l Hin E.
    assert (Hq : c_str (list_byte_of_string text) = list_byte_of_string text ∧
      op (Some i) = on_link i (query_exec lib (list_byte_of_string text))).
    { repeat (apply elem_of_cons in Hin as [[= -> ->]|Hin]; [done|]). by apply elem_of_nil in Hin. }
    destruct Hq as [Ht ->]. rewrite <- Ht in E.
    destruct (query_exec_answer lib h _ _ b l Hu E) as (c' & E'). eexists. by apply (on_link_ok _ _ _ _ _ _ Hi E').
Qed.

Lemma dao_answers_witness :
  let lib := sample_library (λ _, None) false None in
  let w := mkWorld {[0%nat := c_mysql sample_conn]} 1 (c_env sample_conn) in
  (Dao_is_open None = false ∧ Dao_execute lib None [] w = Ok (false, w) ∧ Dao_begin lib None w = Ok (false, w) ∧
   Dao_rollback lib None w = Ok (false, w) ∧ Dao_commit lib None w = Ok (false, w) ∧
   Dao_query lib (λ r, r) None [] w = Fault NullDeref) ∧
  Dao_execute lib (Some 0%nat) ["x"%byte] w = Fault UseAfterFree ∧
  ∃ w', Dao_begin lib (Some 0%nat) w = Ok (false, w').
Proof.
  intros lib w.
  destruct (dao_answers lib (λ r, r) w 0 (c_mysql sample_conn) 0 ["x"%byte] eq_refl sample_usable) as (Hn & He & Hb).
  split; [exact Hn|]. split; [by apply (He false (1%nat, 1064))|].
  apply (Hb _ "begin"%string false (1%nat, 1064)); [by left|by vm_compute].
Defined.
