(* ===== verification/Utf8.v ===== *)
(** * Code points and UTF-8

    The encoding form the JSON library's lexer checks and its serializer
    decodes, defined by division; the source's shifts and masks are compared with
    it.  Also the four hexadecimal digits of a [\u] escape. *)

From Stdlib Require Import ZArith Lia Strings.Byte.
From stdpp Require Import base list numbers.
From S2P Require Import Prelude.

(** A Unicode scalar value: a code point that is not a surrogate. *)
Definition scalar (cp : Z) : Prop := 0 ≤ cp < 0xD800 ∨ 0xE000 ≤ cp ≤ 0x10FFFF.

#[global] Instance scalar_dec cp : Decision (scalar cp).
Proof. unfold scalar. apply _. Defined.

(** The bytes of a code point, as integers and as bytes. *)
Definition utf8Z (cp : Z) : list Z :=
  if cp <? 0x80 then [cp]
  else if cp <? 0x800 then [0xC0 + cp / 64; 0x80 + cp mod 64]
  else if cp <? 0x10000 then [0xE0 + cp / 4096; 0x80 + cp / 64 mod 64; 0x80 + cp mod 64]
  else [0xF0 + cp / 262144; 0x80 + cp / 4096 mod 64; 0x80 + cp / 64 mod 64; 0x80 + cp mod 64].
Definition utf8 (cp : Z) : list byte := map Zbyte (utf8Z cp).

(** A text of scalar values. *)
Definition utf8s (cps : list Z) : list byte := concat (map utf8 cps).

(** ** Hexadecimal digits *)

Definition hexval (c : Z) : option Z :=
  if (48 <=? c) && (c <=? 57) then Some (c - 48)
  else if (65 <=? c) && (c <=? 70) then Some (c - 55)
  else if (97 <=? c) && (c <=? 102) then Some (c - 87)
  else None.

(** The number of four hexadecimal digits. *)
Definition hex4 (ds : list Z) : option Z :=
  match ds with
  | [a; b; c; d] =>
      a ← hexval a; b ← hexval b; c ← hexval c; d ← hexval d;
      Some (a * 4096 + b * 256 + c * 16 + d)
  | _ => None
  end.

(** ** Shifts and masks *)

Lemma lor_low k m x : 0 ≤ k → 0 ≤ x < 2 ^ k → Z.lor (m * 2 ^ k) x = m * 2 ^ k + x.
Proof.
  intros Hk Hx. rewrite <- Z.shiftl_mul_pow2 by done.
  pose proof (Z.add_lor_land (Z.shiftl m k) x) as H. 
  assert (Z.land (Z.shiftl m k) x = 0) as E; [|lia].
  apply Z.bits_inj'. intros i Hi. rewrite Z.land_spec, Z.bits_0.
  destruct (Z.lt_ge_cases i k).
  - by rewrite Z.shiftl_spec_low.
  - rewrite (Z.testbit_eqb x) by done. rewrite Z.div_small; [by rewrite andb_false_r|].
    split; [lia|]. apply Z.lt_le_trans with (2 ^ k); [lia|]. apply Z.pow_le_mono_r; lia.
Qed.

Lemma lor_80 x : 0 ≤ x < 64 → Z.lor 0x80 x = 0x80 + x.
Proof. exact (lor_low 6 2 x ltac:(lia)). Qed.
Lemma lor_C0 x : 0 ≤ x < 32 → Z.lor 0xC0 x = 0xC0 + x.
Proof. exact (lor_low 5 6 x ltac:(lia)). Qed.
Lemma lor_E0 x : 0 ≤ x < 16 → Z.lor 0xE0 x = 0xE0 + x.
Proof. exact (lor_low 4 14 x ltac:(lia)). Qed.
Lemma lor_F0 x : 0 ≤ x < 8 → Z.lor 0xF0 x = 0xF0 + x.
Proof. exact (lor_low 3 30 x ltac:(lia)). Qed.
Lemma land_3F x : Z.land x 0x3F = x mod 64.
Proof. exact (Z.land_ones x 6 ltac:(lia)). Qed.

(** Arithmetic with division by constants. *)
Ltac divlia := Z.div_mod_to_equations; lia.

(** ** Bytes of code points *)

Lemma utf8Z_bytes cp : 0 ≤ cp ≤ 0x10FFFF → Forall (in_u 8) (utf8Z cp).
Proof.
  intros H. unfold utf8Z, in_u.
  destruct (Z.ltb_spec cp 0x80); [|destruct (Z.ltb_spec cp 0x800); [|destruct (Z.ltb_spec cp 0x10000)]];
    repeat constructor; divlia.
Qed.

Lemma map_byteZ_Zbyte l : Forall (in_u 8) l → map byteZ (map Zbyte l) = l.
Proof. induction 1 as [|z l Hz Hl IH]; [done|]. cbn. by rewrite byteZ_Zbyte, u8_small, IH. Qed.

Lemma map_Zbyte_byteZ bs : map Zbyte (map byteZ bs) = bs.
Proof. induction bs as [|b bs IH]; [done|]. cbn. by rewrite Zbyte_byteZ, IH. Qed.

Lemma utf8_byteZ cp : scalar cp → map byteZ (utf8 cp) = utf8Z cp.
Proof. intros H. apply map_byteZ_Zbyte, utf8Z_bytes. unfold scalar in H. lia. Qed.

Lemma utf8_nonempty cp : utf8 cp ≠ [].
Proof. unfold utf8, utf8Z. repeat case_match; done. Qed.

Lemma utf8s_app a b : utf8s (a ++ b) = utf8s a ++ utf8s b.
Proof. unfold utf8s. by rewrite map_app, concat_app. Qed.

(** The form of the bytes of a scalar value, by its leading byte: Table 3-7 of
    the Unicode standard. *)
Definition well_formed (bs : list Z) : Prop :=
  match bs with
  | [a] => 0 ≤ a ≤ 0x7F
  | [a; b] => 0xC2 ≤ a ≤ 0xDF ∧ 0x80 ≤ b ≤ 0xBF
  | [a; b; c] =>
      (a = 0xE0 ∧ 0xA0 ≤ b ≤ 0xBF ∨ (0xE1 ≤ a ≤ 0xEC ∨ 0xEE ≤ a ≤ 0xEF) ∧ 0x80 ≤ b ≤ 0xBF ∨
       a = 0xED ∧ 0x80 ≤ b ≤ 0x9F) ∧ 0x80 ≤ c ≤ 0xBF
  | [a; b; c; d] =>
      (a = 0xF0 ∧ 0x90 ≤ b ≤ 0xBF ∨ 0xF1 ≤ a ≤ 0xF3 ∧ 0x80 ≤ b ≤ 0xBF ∨ a = 0xF4 ∧ 0x80 ≤ b ≤ 0x8F) ∧
      0x80 ≤ c ≤ 0xBF ∧ 0x80 ≤ d ≤ 0xBF
  | _ => False
  end.

Lemma utf8Z_well_formed cp : scalar cp → well_formed (utf8Z cp).
Proof.
  intros H. unfold scalar in H. unfold utf8Z.
  destruct (Z.ltb_spec cp 0x80); [|destruct (Z.ltb_spec cp 0x800); [|destruct (Z.ltb_spec cp 0x10000)]]; cbn.
  - lia.
  - divlia.
  - split; divlia.
  - split_and!; divlia.
Qed.

Lemma well_formed_utf8Z bs : well_formed bs → ∃ cp, scalar cp ∧ utf8Z cp = bs.
Proof.
  intros H. destruct bs as [|a [|b [|c [|d [|e bs]]]]]; cbn in H; try done.
  - exists a. unfold utf8Z. split; [left; lia|]. zguard. done.
  - exists ((a - 0xC0) * 64 + (b - 0x80)). unfold utf8Z. split; [left; lia|]. zguard. f_equal; [divlia|].
    f_equal. divlia.
  - exists ((a - 0xE0) * 4096 + (b - 0x80) * 64 + (c - 0x80)). unfold utf8Z. split; [unfold scalar; lia|]. zguard.
    f_equal; [divlia|]. f_equal; [divlia|]. f_equal. divlia.
  - exists ((a - 0xF0) * 262144 + (b - 0x80) * 4096 + (c - 0x80) * 64 + (d - 0x80)). unfold utf8Z.
    split; [unfold scalar; lia|]. zguard.
    f_equal; [divlia|]. f_equal; [divlia|]. f_equal; [divlia|]. f_equal. divlia.
Qed.

Lemma hexval_range c v : hexval c = Some v → 0 ≤ v < 16.
Proof. unfold hexval. repeat case_match; intros; simplify_eq; lia. Qed.

Lemma hex4_range ds v : hex4 ds = Some v → 0 ≤ v ≤ 0xFFFF.
Proof.
  unfold hex4. destruct ds as [|a [|b [|c [|d [|]]]]]; try done. intros E.
  repeat match goal with
  | E : (hexval ?x ≫= _) = Some _ |- _ =>
      let H := fresh in destruct (hexval x) eqn:H; cbn in E; [apply hexval_range in H|done]
  end.
  simplify_eq. lia.
Qed.
