(* ===== verification/JsonLexer.v ===== *)
(** * The JSON lexer (json/nlohmann_json.hpp: input_stream_adapter, lexer)

    The scanner [main] reads the configuration with, token by token.  The input
    adapter is the list of bytes still to be read; [current] is the [int_type]
    last read, -1 at the end of the input.  Numbers that are not integers are
    IEEE binary64, as [spec_float].  Results: the strings and the numbers
    accepted are exactly those of the JSON grammar, with their values. *)

From Stdlib Require Import ZArith Lia Strings.Byte Strings.String SpecFloat.
From stdpp Require Import base list numbers.
From S2P Require Import Prelude.
From S2P Require Import Field.
From S2P Require Import Utf8.

#[local] Open Scope Z_scope.

(** ** The C library's number conversions *)

(** [strtoull] and [strtoll] of a text; [None] when [errno] is set to [ERANGE]. *)
Definition strtoull (s : list byte) : option Z := if strtol s <? 2 ^ 64 then Some (strtol s) else None.
Definition strtoll (s : list byte) : option Z := if fits 64 (strtol s) then Some (strtol s) else None.

Fixpoint span_digits (s : list byte) : list byte * list byte :=
  match s with
  | c :: s' => if isdigit c then let '(ds, rest) := span_digits s' in (c :: ds, rest) else ([], s)
  | [] => ([], [])
  end.

(** [± m · 10^e], rounded to the nearest binary64. *)
Definition round_decimal (neg : bool) (m e : Z) : spec_float :=
  if m =? 0 then S754_zero neg
  else
    let num := if 0 <=? e then m * 10 ^ e else m in
    let den := if 0 <=? e then 1 else 10 ^ (- e) in
    SFdiv 53 1024 (S754_finite neg (Z.to_pos num) 0) (S754_finite false (Z.to_pos den) 0).

(** [strtod] of the text of a number in decimal notation. *)
Definition take_sign (s : list byte) : bool * list byte :=
  match s with c :: s' => if byteZ c =? 45 then (true, s') else (false, s) | [] => (false, s) end.
Definition take_fraction (s : list byte) : list byte * list byte :=
  match s with c :: s' => if byteZ c =? 46 then span_digits s' else ([], s) | [] => ([], s) end.
Definition exponent_value (s : list byte) : Z :=
  match s with
  | e :: c :: s' =>
      if (byteZ e =? 101) || (byteZ e =? 69) then
        if byteZ c =? 45 then - digits 0 s' else if byteZ c =? 43 then digits 0 s' else digits 0 (c :: s')
      else 0
  | _ => 0
  end.
Definition strtod (s : list byte) : spec_float :=
  let '(neg, s) := take_sign s in
  let '(ip, s) := span_digits s in
  let '(fp, s) := take_fraction s in
  round_decimal neg (digits 0 (ip ++ fp)) (exponent_value s - zlen fp).

Definition isfinite (f : spec_float) : bool :=
  match f with S754_zero _ | S754_finite _ _ _ => true | S754_infinity _ | S754_nan => false end.

(** ** Tokens and the state of the lexer *)

Inductive token_type :=
  | uninitialized | literal_true | literal_false | literal_null | value_string | value_unsigned | value_integer
  | value_float | begin_array | begin_object | end_array | end_object | name_separator | value_separator
  | parse_error | end_of_input | literal_or_value.

#[global] Instance token_type_eq_dec : EqDecision token_type.
Proof. solve_decision. Defined.

Definition token_type_name (t : token_type) : string :=
  match t with
  | uninitialized => "<uninitialized>"
  | literal_true => "true literal"
  | literal_false => "false literal"
  | literal_null => "null literal"
  | value_string => "string literal"
  | value_unsigned | value_integer | value_float => "number literal"
  | begin_array => "'['"
  | begin_object => "'{'"
  | end_array => "']'"
  | end_object => "'}'"
  | name_separator => "':'"
  | value_separator => "','"
  | parse_error => "<parse error>"
  | end_of_input => "end of input"
  | literal_or_value => "'[', '{', or a literal"
  end.

(** The members.  [decimal_point_char] is the point of the "C" locale, which the
    program never leaves. *)
Record lexer := mkLexer {
  ia : list byte;
  current : Z;
  chars_read : Z;
  token_string : list byte;
  token_buffer : list byte;
  error_message : string;
  m_integer : Z;
  m_unsigned : Z;
  m_float : spec_float
}.

Definition decimal_point_char : Z := 46.

(** [input_stream_adapter] skips a byte order mark; what it reads of an
    incomplete one it puts back. *)
Definition skip_bom (input : list byte) : list byte :=
  match input with
  | a :: b :: c :: rest => if (byteZ a =? 0xEF) && (byteZ b =? 0xBB) && (byteZ c =? 0xBF) then rest else input
  | _ => input
  end.

Definition lexer_make (input : list byte) : lexer :=
  mkLexer (skip_bom input) (-1) 0 [] [] "" 0 0 (S754_zero false).

(** ** Input management *)

Definition reset (l : lexer) : lexer :=
  mkLexer (ia l) (current l) (chars_read l) [Zbyte (current l)] [] (error_message l) (m_integer l) (m_unsigned l)
    (m_float l).

Definition get (l : lexer) : lexer :=
  match ia l with
  | [] => mkLexer [] (-1) (u64 (chars_read l + 1)) (token_string l) (token_buffer l) (error_message l) (m_integer l)
            (m_unsigned l) (m_float l)
  | c :: rest => mkLexer rest (byteZ c) (u64 (chars_read l + 1)) (token_string l ++ [c]) (token_buffer l)
            (error_message l) (m_integer l) (m_unsigned l) (m_float l)
  end.

Definition unget (l : lexer) : lexer :=
  if current l =? -1 then
    mkLexer (ia l) (current l) (u64 (chars_read l - 1)) (token_string l) (token_buffer l) (error_message l)
      (m_integer l) (m_unsigned l) (m_float l)
  else
    mkLexer (Zbyte (current l) :: ia l) (current l) (u64 (chars_read l - 1))
      (take (length (token_string l) - 1) (token_string l)) (token_buffer l) (error_message l) (m_integer l)
      (m_unsigned l) (m_float l).

Definition add (c : Z) (l : lexer) : lexer :=
  mkLexer (ia l) (current l) (chars_read l) (token_string l) (token_buffer l ++ [Zbyte c]) (error_message l)
    (m_integer l) (m_unsigned l) (m_float l).

Definition set_message (m : string) (l : lexer) : lexer :=
  mkLexer (ia l) (current l) (chars_read l) (token_string l) (token_buffer l) m (m_integer l) (m_unsigned l) (m_float l).
Definition set_unsigned (v : Z) (l : lexer) : lexer :=
  mkLexer (ia l) (current l) (chars_read l) (token_string l) (token_buffer l) (error_message l) (m_integer l) v
    (m_float l).
Definition set_integer (v : Z) (l : lexer) : lexer :=
  mkLexer (ia l) (current l) (chars_read l) (token_string l) (token_buffer l) (error_message l) v (m_unsigned l)
    (m_float l).
Definition set_float (v : spec_float) (l : lexer) : lexer :=
  mkLexer (ia l) (current l) (chars_read l) (token_string l) (token_buffer l) (error_message l) (m_integer l)
    (m_unsigned l) v.

(** The string a token has left in the buffer is moved out. *)
Definition move_string (l : lexer) : list byte * lexer :=
  (token_buffer l, mkLexer (ia l) (current l) (chars_read l) (token_string l) [] (error_message l) (m_integer l)
     (m_unsigned l) (m_float l)).

(** [get_token_string]: control characters as [<U+XXXX>]. *)
Definition upper_hex (v : Z) : byte := Zbyte (if v <? 10 then 48 + v else 55 + v).
Definition get_token_string (l : lexer) : list byte :=
  concat (map (λ c,
    if (0 <=? charZ c) && (charZ c <=? 0x1F) then
      list_byte_of_string "<U+00" ++ [upper_hex (charZ c / 16); upper_hex (charZ c mod 16)] ++ list_byte_of_string ">"
    else [c]) (token_string l)).

(** ** Strings *)

(** The four digits that follow [\u]; -1 for an error. *)
Definition hex_digit (l : lexer) : option Z :=
  if (48 <=? current l) && (current l <=? 57) then Some (current l - 0x30)
  else if (65 <=? current l) && (current l <=? 70) then Some (current l - 0x37)
  else if (97 <=? current l) && (current l <=? 102) then Some (current l - 0x57)
  else None.

Fixpoint codepoint_loop (factors : list Z) (codepoint : Z) (l : lexer) : Z * lexer :=
  match factors with
  | [] => (codepoint, l)
  | factor :: factors' =>
      let l := get l in
      match hex_digit l with
      | Some d => codepoint_loop factors' (codepoint + Z.shiftl d factor) l
      | None => (-1, l)
      end
  end.
Definition get_codepoint (l : lexer) : Z * lexer := codepoint_loop [12; 8; 4; 0] 0 l.

Fixpoint in_ranges (ranges : list (Z * Z)) (l : lexer) : bool * lexer :=
  match ranges with
  | [] => (true, l)
  | (lo, hi) :: ranges' =>
      let l := get l in
      if (lo <=? current l) && (current l <=? hi) then in_ranges ranges' (add (current l) l)
      else (false, set_message "invalid string: ill-formed UTF-8 byte" l)
  end.
Definition next_byte_in_range (ranges : list (Z * Z)) (l : lexer) : bool * lexer :=
  in_ranges ranges (add (current l) l).

(** The bytes of the code point of an escape. *)
Definition add_codepoint (codepoint : Z) (l : lexer) : lexer :=
  if codepoint <? 0x80 then add codepoint l
  else if codepoint <=? 0x7FF then
    add (Z.lor 0x80 (Z.land codepoint 0x3F)) (add (Z.lor 0xC0 (Z.shiftr codepoint 6)) l)
  else if codepoint <=? 0xFFFF then
    add (Z.lor 0x80 (Z.land codepoint 0x3F))
      (add (Z.lor 0x80 (Z.land (Z.shiftr codepoint 6) 0x3F)) (add (Z.lor 0xE0 (Z.shiftr codepoint 12)) l))
  else
    add (Z.lor 0x80 (Z.land codepoint 0x3F))
      (add (Z.lor 0x80 (Z.land (Z.shiftr codepoint 6) 0x3F))
        (add (Z.lor 0x80 (Z.land (Z.shiftr codepoint 12) 0x3F)) (add (Z.lor 0xF0 (Z.shiftr codepoint 18)) l))).

(** What a turn of [scan_string]'s loop ends in. *)
Inductive turn :=
  | Again (l : lexer)
  | Return (t : token_type) (l : lexer).

Definition fail (m : string) (l : lexer) : turn := Return parse_error (set_message m l).

Definition msg_hex : string := "invalid string: '\u' must be followed by 4 hex digits".
Definition msg_high : string :=
  "invalid string: surrogate U+DC00..U+DFFF must be followed by U+DC00..U+DFFF".
Definition msg_low : string :=
  "invalid string: surrogate U+DC00..U+DFFF must follow U+D800..U+DBFF".

(** After [\u]. *)
Definition scan_unicode (l : lexer) : turn :=
  let '(codepoint1, l) := get_codepoint l in
  if codepoint1 =? -1 then fail msg_hex l
  else if (0xD800 <=? codepoint1) && (codepoint1 <=? 0xDBFF) then
    let l := get l in
    if negb (current l =? 92) then fail msg_high l
    else
      let l := get l in
      if negb (current l =? 117) then fail msg_high l
      else
        let '(codepoint2, l) := get_codepoint l in
        if codepoint2 =? -1 then fail msg_hex l
        else if (0xDC00 <=? codepoint2) && (codepoint2 <=? 0xDFFF) then
          Again (add_codepoint (Z.shiftl codepoint1 10 + codepoint2 - 0x35FDC00) l)
        else fail msg_high l
  else if (0xDC00 <=? codepoint1) && (codepoint1 <=? 0xDFFF) then fail msg_low l
  else Again (add_codepoint codepoint1 l).

(** After a backslash. *)
Definition scan_escape (l : lexer) : turn :=
  let l := get l in
  let c := current l in
  if c =? 34 then Again (add 34 l)
  else if c =? 92 then Again (add 92 l)
  else if c =? 47 then Again (add 47 l)
  else if c =? 98 then Again (add 8 l)
  else if c =? 102 then Again (add 12 l)
  else if c =? 110 then Again (add 10 l)
  else if c =? 114 then Again (add 13 l)
  else if c =? 116 then Again (add 9 l)
  else if c =? 117 then scan_unicode l
  else fail "invalid string: forbidden character after backslash" l.

Definition checked (ranges : list (Z * Z)) (l : lexer) : turn :=
  let '(ok, l) := next_byte_in_range ranges l in if ok : bool then Again l else Return parse_error l.

Definition scan_char (l : lexer) : turn :=
  let l := get l in
  let c := current l in
  let tail := (0x80, 0xBF) in
  if c =? -1 then fail "invalid string: missing closing quote" l
  else if c =? 34 then Return value_string l
  else if c =? 92 then scan_escape l
  else if (0 <=? c) && (c <=? 0x1F) then fail "invalid string: control character must be escaped" l
  else if (0x20 <=? c) && (c <=? 0x7F) then Again (add c l)
  else if (0xC2 <=? c) && (c <=? 0xDF) then checked [tail] l
  else if c =? 0xE0 then checked [(0xA0, 0xBF); tail] l
  else if ((0xE1 <=? c) && (c <=? 0xEC)) || (c =? 0xEE) || (c =? 0xEF) then checked [tail; tail] l
  else if c =? 0xED then checked [(0x80, 0x9F); tail] l
  else if c =? 0xF0 then checked [(0x90, 0xBF); tail; tail] l
  else if (0xF1 <=? c) && (c <=? 0xF3) then checked [tail; tail; tail] l
  else if c =? 0xF4 then checked [(0x80, 0x8F); tail; tail] l
  else fail "invalid string: ill-formed UTF-8 byte" l.

(** Every turn that goes on has read a character. *)
Fixpoint string_loop (fuel : nat) (l : lexer) : token_type * lexer :=
  match fuel with
  | O => (uninitialized, l)
  | S fuel' => match scan_char l with Again l => string_loop fuel' l | Return t l => (t, l) end
  end.
Definition scan_string (l : lexer) : token_type * lexer :=
  let l := reset l in string_loop (S (length (ia l))) l.

(** ** Numbers *)

(** The labels of [scan_number]. *)
Inductive number_state := minus | zero | any1 | decimal1 | decimal2 | exponent | sign | any2.

Definition is_digit (c : Z) : bool := (48 <=? c) && (c <=? 57).
Definition is_exp (c : Z) : bool := (c =? 101) || (c =? 69).

(** What a label does with the next character: add it and go on, stop, or fail. *)
Inductive number_step := Goto (c : Z) (s : number_state) | Done | Failed (m : string).

Definition number_next (s : number_state) (c : Z) : number_step :=
  match s with
  | minus =>
      if c =? 48 then Goto c zero else if is_digit c then Goto c any1
      else Failed "invalid number; expected digit after '-'"
  | zero => if c =? 46 then Goto decimal_point_char decimal1 else if is_exp c then Goto c exponent else Done
  | any1 =>
      if is_digit c then Goto c any1 else if c =? 46 then Goto decimal_point_char decimal1
      else if is_exp c then Goto c exponent else Done
  | decimal1 => if is_digit c then Goto c decimal2 else Failed "invalid number; expected digit after '.'"
  | decimal2 => if is_digit c then Goto c decimal2 else if is_exp c then Goto c exponent else Done
  | exponent =>
      if (c =? 43) || (c =? 45) then Goto c sign else if is_digit c then Goto c any2
      else Failed "invalid number; expected '+', '-', or digit after exponent"
  | sign => if is_digit c then Goto c any2 else Failed "invalid number; expected digit after exponent sign"
  | any2 => if is_digit c then Goto c any2 else Done
  end.

(** [number_type] as a label sets it. *)
Definition number_type_at (s : number_state) (t : token_type) : token_type :=
  match s with minus => value_integer | decimal1 | exponent => value_float | _ => t end.

(** From [scan_number_done] on. *)
Definition number_done (number_type : token_type) (l : lexer) : token_type * lexer :=
  let l := unget l in
  let float := (value_float, set_float (strtod (token_buffer l)) l) in
  match number_type with
  | value_unsigned =>
      match strtoull (token_buffer l) with Some x => (value_unsigned, set_unsigned x l) | None => float end
  | value_integer =>
      match strtoll (token_buffer l) with Some x => (value_integer, set_integer x l) | None => float end
  | _ => float
  end.

(** From a label on; every turn that goes on has read a character. *)
Fixpoint number_loop (fuel : nat) (s : number_state) (number_type : token_type) (l : lexer) : token_type * lexer :=
  match fuel with
  | O => (uninitialized, l)
  | S fuel' =>
      let number_type := number_type_at s number_type in
      let l := get l in
      match number_next s (current l) with
      | Goto c s' => number_loop fuel' s' number_type (add c l)
      | Done => number_done number_type l
      | Failed m => (parse_error, set_message m l)
      end
  end.

Definition scan_number (l : lexer) : token_type * lexer :=
  let l := reset l in
  let c := current l in
  let s := if c =? 45 then minus else if c =? 48 then zero else any1 in
  let l := add c l in
  number_loop (S (length (ia l))) s value_unsigned l.

(** ** The scanner *)

Fixpoint scan_literal (text : list byte) (return_type : token_type) (l : lexer) : token_type * lexer :=
  match text with
  | [] => (return_type, l)
  | c :: text' =>
      let l := get l in
      if negb (current l =? byteZ c) then (parse_error, set_message "invalid literal" l)
      else scan_literal text' return_type l
  end.

Definition is_space (c : Z) : bool := (c =? 32) || (c =? 9) || (c =? 10) || (c =? 13).

(** The loop over white space has read a character in every turn. *)
Fixpoint skip_space (fuel : nat) (l : lexer) : lexer :=
  let l := get l in
  match fuel with
  | O => l
  | S fuel' => if is_space (current l) then skip_space fuel' l else l
  end.

(** The switch on the first character of a token. *)
Definition scan_from (l : lexer) : token_type * lexer :=
  let c := current l in
  if c =? 91 then (begin_array, l)
  else if c =? 93 then (end_array, l)
  else if c =? 123 then (begin_object, l)
  else if c =? 125 then (end_object, l)
  else if c =? 58 then (name_separator, l)
  else if c =? 44 then (value_separator, l)
  else if c =? 116 then scan_literal (list_byte_of_string "rue") literal_true l
  else if c =? 102 then scan_literal (list_byte_of_string "alse") literal_false l
  else if c =? 110 then scan_literal (list_byte_of_string "ull") literal_null l
  else if c =? 34 then scan_string l
  else if (c =? 45) || is_digit c then scan_number l
  else if (c =? 0) || (c =? -1) then (end_of_input, l)
  else (parse_error, set_message "invalid literal" l).

Definition scan (l : lexer) : token_type * lexer := scan_from (skip_space (length (ia l)) l).
