(* ===== verification/JsonStrings.v ===== *)
(** * The strings the JSON lexer accepts

    [json_string] is the grammar of RFC 8259 for what stands between the quotes,
    with the code points each spelling stands for.  [scan_string] accepts exactly
    these and leaves their UTF-8 in the token buffer. *)

From Stdlib Require Import ZArith Lia Strings.Byte Strings.String.
From stdpp Require Import base list numbers.
From S2P Require Import Prelude.
From S2P Require Import Utf8.
From S2P Require Import JsonLexer.

#[local] Open Scope Z_scope.

(** ** The grammar *)

Definition quote : byte := Zbyte 34.
Definition backslash : byte := Zbyte 92.

(** The characters that may follow a backslash by themselves, and what they mean. *)
Definition short_escapes : list (Z * Z) :=
  [(34, 34); (92, 92); (47, 47); (98, 8); (102, 12); (110, 10); (114, 13); (116, 9)].

(** One spelling of one code point. *)
Inductive json_char : list byte → Z → Prop :=
  | jc_plain cp : scalar cp → 0x20 ≤ cp → cp ≠ 34 → cp ≠ 92 → json_char (utf8 cp) cp
  | jc_short c cp : (c, cp) ∈ short_escapes → json_char [backslash; Zbyte c] cp
  | jc_hex ds cp : hex4 (map byteZ ds) = Some cp → scalar cp → json_char (backslash :: Zbyte 117 :: ds) cp
  | jc_pair ds1 ds2 hi lo :
      hex4 (map byteZ ds1) = Some hi → hex4 (map byteZ ds2) = Some lo →
      0xD800 ≤ hi ≤ 0xDBFF → 0xDC00 ≤ lo ≤ 0xDFFF →
      json_char ((backslash :: Zbyte 117 :: ds1) ++ (backslash :: Zbyte 117 :: ds2))
        (0x10000 + (hi - 0xD800) * 1024 + (lo - 0xDC00)).

Inductive json_string : list byte → list Z → Prop :=
  | js_nil : json_string [] []
  | js_cons src cp srcs cps : json_char src cp → json_string srcs cps → json_string (src ++ srcs) (cp :: cps).

(** ** Reading *)

(** From [l] to [l'] the lexer has read [src] and added [out] to the buffer. *)
Definition reads (src out : list byte) (l l' : lexer) : Prop :=
  ia l = src ++ ia l' ∧ token_buffer l' = token_buffer l ++ out ∧
  u64 (chars_read l') = u64 (chars_read l + zlen src).

Lemma u64_add a b : u64 (u64 a + b) = u64 (a + b).
Proof. unfold u64. by rewrite Zplus_mod_idemp_l. Qed.

Lemma u64_u64 a : u64 (u64 a) = u64 a.
Proof. apply u64_small, u64_range. Qed.

Lemma reads_nil l : reads [] [] l l.
Proof. unfold reads. by rewrite app_nil_r, zlen_nil, Z.add_0_r. Qed.

Lemma reads_trans s1 o1 s2 o2 l l1 l2 :
  reads s1 o1 l l1 → reads s2 o2 l1 l2 → reads (s1 ++ s2) (o1 ++ o2) l l2.
Proof.
  intros (I1 & B1 & C1) (I2 & B2 & C2). unfold reads.
  rewrite I1, I2, B2, B1, C2, <- u64_add, C1, u64_add, zlen_app. split_and!; [by rewrite app_assoc..|f_equal; lia].
Qed.

Lemma reads_rest src out l l' rest : reads src out l l' → ia l = src ++ rest → ia l' = rest.
Proof. intros (E & _ & _) E'. rewrite E in E'. by apply app_inv_head in E'. Qed.

Lemma get_byte c rest l : ia l = c :: rest → current (get l) = byteZ c ∧ reads [c] [] l (get l) ∧ ia (get l) = rest.
Proof. intros E. unfold get, reads. rewrite E. cbn. by rewrite app_nil_r, u64_u64. Qed.

Lemma get_eof l : ia l = [] → current (get l) = -1.
Proof. intros E. unfold get. by rewrite E. Qed.

(** What has been read, from what [get] says. *)
Lemma get_inv l : current (get l) ≠ -1 → ∃ c, current (get l) = byteZ c ∧ reads [c] [] l (get l).
Proof.
  intros H. destruct (ia l) as [|c rest] eqn:E; [by rewrite (get_eof l E) in H|].
  destruct (get_byte c rest l E) as (Hc & Hr & _). by exists c.
Qed.

Lemma byteZ_of c z : byteZ c = z → c = Zbyte z.
Proof. intros <-. by rewrite Zbyte_byteZ. Qed.

(** Adding after having read. *)
Definition appends (out : list byte) (l l' : lexer) : Prop :=
  ia l' = ia l ∧ token_buffer l' = token_buffer l ++ out ∧ chars_read l' = chars_read l.

Lemma add_appends c l : appends [Zbyte c] l (add c l).
Proof. done. Qed.

Lemma reads_appends src o1 o2 l l1 l2 : reads src o1 l l1 → appends o2 l1 l2 → reads src (o1 ++ o2) l l2.
Proof.
  intros (I1 & B1 & C1) (I2 & B2 & C2). unfold reads. rewrite I2, B2, C2, B1. by rewrite app_assoc.
Qed.

(** ** Escapes *)

Lemma hex_digit_val l : hex_digit l = hexval (current l).
Proof. done. Qed.

Ltac appends_bytes := split_and!; [done|cbn; by rewrite <- ?app_assoc|done].

Lemma add_codepoint_utf8 cp l : 0 ≤ cp ≤ 0x10FFFF → appends (utf8 cp) l (add_codepoint cp l).
Proof.
  intros H. unfold add_codepoint, utf8, utf8Z. rewrite !Z.shiftr_div_pow2 by lia. rewrite !land_3F.
  change (2 ^ 6) with 64. change (2 ^ 12) with 4096. change (2 ^ 18) with 262144.
  destruct (Z.ltb_spec cp 0x80); [apply add_appends|].
  destruct (Z.leb_spec cp 0x7FF); zguard.
  - rewrite lor_C0, lor_80 by divlia. appends_bytes.
  - destruct (Z.leb_spec cp 0xFFFF); zguard.
    + rewrite lor_E0, !lor_80 by divlia. appends_bytes.
    + rewrite lor_F0, !lor_80 by divlia. appends_bytes.
Qed.

(** [get_codepoint] and [hex4]. *)
Lemma get_codepoint_ok ds v rest l :
  hex4 (map byteZ ds) = Some v → ia l = ds ++ rest → ∃ l', get_codepoint l = (v, l') ∧ reads ds [] l l'.
Proof.
  unfold hex4. destruct ds as [|a [|b [|c [|d [|]]]]]; try done. cbn [map]. intros E Ei.
  destruct (hexval (byteZ a)) as [va|] eqn:Ha; [|done]. cbn in E.
  destruct (hexval (byteZ b)) as [vb|] eqn:Hb; [|done]. cbn in E.
  destruct (hexval (byteZ c)) as [vc|] eqn:Hc; [|done]. cbn in E.
  destruct (hexval (byteZ d)) as [vd|] eqn:Hd; [|done]. cbn in E. injection E as <-.
  destruct (get_byte _ _ _ Ei) as (C1 & R1 & E1). destruct (get_byte _ _ _ E1) as (C2 & R2 & E2).
  destruct (get_byte _ _ _ E2) as (C3 & R3 & E3). destruct (get_byte _ _ _ E3) as (C4 & R4 & E4).
  unfold get_codepoint. cbn [codepoint_loop]. rewrite !hex_digit_val, C1, Ha, C2, Hb, C3, Hc, C4, Hd.
  eexists. split; [f_equal; rewrite !Z.shiftl_mul_pow2 by lia; lia|].
  exact (reads_trans [a; b; c] [] [d] [] _ _ _ (reads_trans [a; b] [] [c] [] _ _ _
    (reads_trans [a] [] [b] [] _ _ _ R1 R2) R3) R4).
Qed.

Lemma hex_digit_inv l v : hex_digit (get l) = Some v → ∃ c, hexval (byteZ c) = Some v ∧ reads [c] [] l (get l).
Proof.
  rewrite hex_digit_val. intros E. destruct (get_inv l) as (c & Hc & Hr).
  { intros H. by rewrite H in E. }
  exists c. by rewrite <- Hc.
Qed.

Lemma get_codepoint_inv l v l' :
  get_codepoint l = (v, l') → v ≠ -1 → ∃ ds, hex4 (map byteZ ds) = Some v ∧ reads ds [] l l'.
Proof.
  unfold get_codepoint. cbn [codepoint_loop]. intros E Hv.
  destruct (hex_digit (get l)) as [va|] eqn:Ha; [|congruence].
  destruct (hex_digit (get (get l))) as [vb|] eqn:Hb; [|congruence].
  destruct (hex_digit (get (get (get l)))) as [vc|] eqn:Hc; [|congruence].
  destruct (hex_digit (get (get (get (get l))))) as [vd|] eqn:Hd; [|congruence]. injection E as <- <-.
  apply hex_digit_inv in Ha as (a & Ha & R1), Hb as (b & Hb & R2), Hc as (c & Hc & R3), Hd as (d & Hd & R4).
  exists [a; b; c; d]. split.
  - cbn. rewrite Ha, Hb, Hc, Hd. cbn. f_equal. rewrite !Z.shiftl_mul_pow2 by lia. lia.
  - exact (reads_trans [a; b; c] [] [d] [] _ _ _ (reads_trans [a; b] [] [c] [] _ _ _
      (reads_trans [a] [] [b] [] _ _ _ R1 R2) R3) R4).
Qed.

(** ** Multi-byte characters *)

Definition within (r : Z * Z) (b : byte) : Prop := r.1 ≤ byteZ b ≤ r.2.

Lemma reads_byte c rest l :
  ia l = c :: rest → current (get l) = byteZ c ∧ reads [c] [c] l (add (current (get l)) (get l)) ∧
    ia (add (current (get l)) (get l)) = rest.
Proof.
  intros E. destruct (get_byte c rest l E) as (Hc & Hr & Hi). split_and!; [done| |done].
  rewrite Hc. apply (reads_appends [c] [] [c] _ _ _ Hr). rewrite <- (Zbyte_byteZ c) at 1. apply add_appends.
Qed.

Lemma in_ranges_ok rs bs rest l :
  Forall2 within rs bs → ia l = bs ++ rest → ∃ l', in_ranges rs l = (true, l') ∧ reads bs bs l l'.
Proof.
  intros H. revert l. induction H as [|[lo hi] b rs bs Hb Hbs IH]; intros l E.
  { exists l. split; [done|apply reads_nil]. }
  destruct (reads_byte _ _ _ E) as (Hc & Hr & Hi). cbn [in_ranges]. unfold within in Hb. cbn in Hb.
  rewrite Hc in *. zguard. destruct (IH _ Hi) as (l' & E' & Hr'). exists l'. split; [done|].
  exact (reads_trans [b] [b] bs bs _ _ _ Hr Hr').
Qed.

Lemma in_ranges_inv rs l l' :
  Forall (λ r, 0 ≤ r.1) rs → in_ranges rs l = (true, l') → ∃ bs, Forall2 within rs bs ∧ reads bs bs l l'.
Proof.
  intros H. revert l. induction H as [|[lo hi] rs Hr Hrs IH]; intros l; cbn [in_ranges].
  { intros [= <-]. exists []. split; [done|apply reads_nil]. }
  destruct (Z.leb_spec lo (current (get l))); [|done]. destruct (Z.leb_spec (current (get l)) hi); [|done].
  intros E. apply IH in E as (bs & Hbs & Hl). cbn in Hr.
  destruct (ia l) as [|c rest] eqn:Ei; [rewrite (get_eof l Ei) in *; lia|].
  destruct (reads_byte _ _ _ Ei) as (Hc & Hr1 & _). exists (c :: bs). split.
  - constructor; [|done]. unfold within. cbn. lia.
  - exact (reads_trans [c] [c] bs bs _ _ _ Hr1 Hl).
Qed.

(** The leading byte and the ranges of those that follow, together. *)
Lemma checked_ok rs b bs rest l :
  Forall2 within rs bs → ia l = b :: bs ++ rest →
  ∃ l', checked rs (get l) = Again l' ∧ reads (b :: bs) (b :: bs) l l'.
Proof.
  intros H E. destruct (reads_byte _ _ _ E) as (Hc & Hr & Hi). unfold checked, next_byte_in_range.
  destruct (in_ranges_ok rs bs rest _ H Hi) as (l' & E' & Hr'). rewrite E'. exists l'. split; [done|].
  exact (reads_trans [b] [b] bs bs _ _ _ Hr Hr').
Qed.

Lemma checked_inv rs l l' :
  Forall (λ r, 0 ≤ r.1) rs → current (get l) ≠ -1 → checked rs (get l) = Again l' →
  ∃ b bs, current (get l) = byteZ b ∧ Forall2 within rs bs ∧ reads (b :: bs) (b :: bs) l l'.
Proof.
  intros Hrs Hc. unfold checked, next_byte_in_range. destruct (ia l) as [|b rest] eqn:Ei; [by rewrite (get_eof l Ei) in Hc|].
  destruct (reads_byte _ _ _ Ei) as (Hb & Hr & _).
  destruct (in_ranges rs (add (current (get l)) (get l))) as [[|] l1] eqn:E; [|done]. intros [= <-].
  apply in_ranges_inv in E as (bs & Hbs & Hl); [|done]. exists b, bs. split_and!; [done..|].
  exact (reads_trans [b] [b] bs bs _ _ _ Hr Hl).
Qed.

Definition tail_range : Z * Z := (0x80, 0xBF).

Lemma scan_plain_ok b bs rest l :
  well_formed (map byteZ (b :: bs)) → 0x20 ≤ byteZ b → byteZ b ≠ 34 → byteZ b ≠ 92 →
  ia l = b :: bs ++ rest → ∃ l', scan_char l = Again l' ∧ reads (b :: bs) (b :: bs) l l'.
Proof.
  intros Hw H20 Hq Hb E. destruct (reads_byte _ _ _ E) as (Hc & Hr & _).
  unfold scan_char. rewrite Hc.
  destruct bs as [|b1 [|b2 [|b3 [|]]]]; cbn in Hw; try done.
  - zguard. rewrite Hc in Hr. by eexists.
  - zguard. eapply (checked_ok [tail_range] b [b1]); [|done]. repeat constructor; cbn; lia.
  - destruct Hw as [[[-> H1]|[[H0 H1]|[-> H1]]] H2]; [zguard| |zguard].
    + eapply (checked_ok [(0xA0, 0xBF); tail_range] b [b1; b2]); [|done]. repeat constructor; cbn; lia.
    + assert (((0xE1 <=? byteZ b) && (byteZ b <=? 0xEC)) || (byteZ b =? 0xEE) || (byteZ b =? 0xEF) = true) as -> by lia. zguard.
      eapply (checked_ok [tail_range; tail_range] b [b1; b2]); [|done]. repeat constructor; cbn; lia.
    + eapply (checked_ok [(0x80, 0x9F); tail_range] b [b1; b2]); [|done]. repeat constructor; cbn; lia.
  - destruct Hw as [[[-> H1]|[[H0 H1]|[-> H1]]] H2]; zguard.
    + eapply (checked_ok [(0x90, 0xBF); tail_range; tail_range] b [b1; b2; b3]); [|done]. repeat constructor; cbn; lia.
    + eapply (checked_ok [tail_range; tail_range; tail_range] b [b1; b2; b3]); [|done]. repeat constructor; cbn; lia.
    + eapply (checked_ok [(0x80, 0x8F); tail_range; tail_range] b [b1; b2; b3]); [|done]. repeat constructor; cbn; lia.
Qed.

(** A turn that goes on without an escape has read a well-formed character. *)
Lemma checked_well_formed rs l l' :
  Forall (λ r, 0 ≤ r.1) rs → 0x20 < current (get l) → current (get l) ≠ 34 → current (get l) ≠ 92 →
  (∀ bs, Forall2 within rs bs → well_formed (current (get l) :: map byteZ bs)) →
  checked rs (get l) = Again l' → ∃ src cp, json_char src cp ∧ reads src (utf8 cp) l l'.
Proof.
  intros Hrs H20 Hq Hb Hw E. apply checked_inv in E as (b & bs & Hc & Hbs & Hr); [|done|lia].
  pose proof (Hw bs Hbs) as Hwf. rewrite Hc in *.
  destruct (well_formed_utf8Z _ Hwf) as (cp & Hcp & Eu). exists (utf8 cp), cp.
  assert (Eb : utf8 cp = b :: bs).
  { unfold utf8. rewrite Eu. cbn. by rewrite Zbyte_byteZ, map_Zbyte_byteZ. }
  rewrite Eb. split; [|done]. rewrite <- Eb. apply jc_plain; [done|..].
  all: unfold utf8Z in Eu; repeat case_match; injection Eu as Ea _; unfold scalar in Hcp; divlia.
Qed.

Lemma within_1 r bs : Forall2 within [r] bs → ∃ a, bs = [a] ∧ within r a.
Proof. intros H. inversion H as [|? a ? ? Ha Ht]; subst. inversion Ht; subst. by exists a. Qed.
Lemma within_2 r1 r2 bs : Forall2 within [r1; r2] bs → ∃ a b, bs = [a; b] ∧ within r1 a ∧ within r2 b.
Proof. intros H. inversion H as [|? a ? ? Ha Ht]; subst. apply within_1 in Ht as (b & -> & Hb). by exists a, b. Qed.
Lemma within_3 r1 r2 r3 bs :
  Forall2 within [r1; r2; r3] bs → ∃ a b c, bs = [a; b; c] ∧ within r1 a ∧ within r2 b ∧ within r3 c.
Proof. intros H. inversion H as [|? a ? ? Ha Ht]; subst. apply within_2 in Ht as (b & c & -> & ?). by exists a, b, c. Qed.

(** The bytes within a list of ranges, one by one. *)
Ltac split_within Hbs :=
  first [apply within_3 in Hbs as (?x & ?y & ?z & -> & ?Hx & ?Hy & ?Hz)|apply within_2 in Hbs as (?x & ?y & -> & ?Hx & ?Hy)
        |apply within_1 in Hbs as (?x & -> & ?Hx)];
  unfold within in *; cbn in *.

Ltac checked_turn :=
  intros E; eapply checked_well_formed in E; [exact E|repeat constructor; cbn; lia|lia|lia|lia|];
  let Hbs := fresh in intros bs Hbs; split_within Hbs; lia.

Lemma scan_char_plain_inv l l' :
  scan_char l = Again l' →
  current (get l) = 92 ∧ scan_escape (get l) = Again l' ∨ ∃ src cp, json_char src cp ∧ reads src (utf8 cp) l l'.
Proof.
  unfold scan_char. set (c := current (get l)).
  destruct (Z.eqb_spec c (-1)); [done|]. destruct (Z.eqb_spec c 34); [done|].
  destruct (Z.eqb_spec c 92); [by left|]. intros E. right. revert E.
  destruct ((0 <=? c) && (c <=? 31)) eqn:E0; [done|].
  destruct ((32 <=? c) && (c <=? 127)) eqn:E1.
  { intros [= <-]. destruct (ia l) as [|b rest] eqn:Ei; [by pose proof (get_eof l Ei)|].
    destruct (reads_byte _ _ _ Ei) as (Hc & Hr & _). subst c. rewrite Hc in *. exists [b], (byteZ b).
    assert (Eb : utf8 (byteZ b) = [b]) by (unfold utf8, utf8Z; zguard; cbn; by rewrite Zbyte_byteZ).
    rewrite Eb. split; [|done]. rewrite <- Eb at 1. apply jc_plain; [left; lia|lia..]. }
  destruct ((194 <=? c) && (c <=? 223)) eqn:E2; [checked_turn|].
  destruct (Z.eqb_spec c 224); [checked_turn|].
  destruct ((225 <=? c) && (c <=? 236) || (c =? 238) || (c =? 239)) eqn:E3; [checked_turn|].
  destruct (Z.eqb_spec c 237); [checked_turn|].
  destruct (Z.eqb_spec c 240); [checked_turn|].
  destruct ((241 <=? c) && (c <=? 243)) eqn:E4; [checked_turn|].
  destruct (Z.eqb_spec c 244); [checked_turn|done].
Qed.

(** ** Escapes *)

Lemma scan_unicode_hex ds cp rest l :
  hex4 (map byteZ ds) = Some cp → scalar cp → ia l = ds ++ rest →
  ∃ l', scan_unicode l = Again l' ∧ reads ds (utf8 cp) l l'.
Proof.
  intros Hd Hcp E. destruct (get_codepoint_ok ds cp rest l Hd E) as (l1 & E1 & R1).
  unfold scan_unicode. rewrite E1. pose proof (hex4_range _ _ Hd). unfold scalar in Hcp. zguard.
  assert ((0xD800 <=? cp) && (cp <=? 0xDBFF) = false) as -> by lia.
  assert ((0xDC00 <=? cp) && (cp <=? 0xDFFF) = false) as -> by lia.
  eexists. split; [done|]. eapply (reads_appends _ [] _ _ _ _ R1), add_codepoint_utf8. lia.
Qed.

Lemma scan_unicode_pair ds1 ds2 hi lo rest l :
  hex4 (map byteZ ds1) = Some hi → hex4 (map byteZ ds2) = Some lo →
  0xD800 ≤ hi ≤ 0xDBFF → 0xDC00 ≤ lo ≤ 0xDFFF →
  ia l = ds1 ++ backslash :: Zbyte 117 :: ds2 ++ rest →
  ∃ l', scan_unicode l = Again l' ∧
    reads (ds1 ++ backslash :: Zbyte 117 :: ds2) (utf8 (0x10000 + (hi - 0xD800) * 1024 + (lo - 0xDC00))) l l'.
Proof.
  intros H1 H2 Hhi Hlo E. destruct (get_codepoint_ok ds1 hi _ l H1 E) as (l1 & E1 & R1).
  unfold scan_unicode. rewrite E1. zguard.
  destruct (get_byte _ _ _ (reads_rest _ _ _ _ _ R1 E)) as (C2 & R2 & I2). rewrite C2.
  change (byteZ backslash) with 92. zguard.
  destruct (get_byte _ _ _ I2) as (C3 & R3 & I3). rewrite C3. change (byteZ (Zbyte 117)) with 117. zguard.
  destruct (get_codepoint_ok ds2 lo rest _ H2 I3) as (l4 & E4 & R4). rewrite E4. zguard.
  rewrite Z.shiftl_mul_pow2 by lia.
  replace (hi * 2 ^ 10 + lo - 0x35FDC00) with (0x10000 + (hi - 0xD800) * 1024 + (lo - 0xDC00)) by lia.
  eexists. split; [done|]. eapply (reads_appends _ [] _ _ _ _), add_codepoint_utf8; [|lia].
  apply (reads_trans ds1 [] _ [] _ l1); [done|]. apply (reads_trans [backslash] [] _ [] _ (get l1)); [done|].
  by apply (reads_trans [Zbyte 117] [] ds2 [] _ (get (get l1))).
Qed.

Lemma scan_unicode_inv l l' :
  scan_unicode l = Again l' →
  ∃ ds cp, json_char (backslash :: Zbyte 117 :: ds) cp ∧ reads ds (utf8 cp) l l'.
Proof.
  unfold scan_unicode. destruct (get_codepoint l) as [hi l1] eqn:E1.
  destruct (Z.eqb_spec hi (-1)) as [|Hhi]; [done|].
  destruct (get_codepoint_inv _ _ _ E1 Hhi) as (ds1 & H1 & R1). pose proof (hex4_range _ _ H1).
  destruct ((0xD800 <=? hi) && (hi <=? 0xDBFF)) eqn:Eh.
  - destruct (Z.eqb_spec (current (get l1)) 92) as [C2|]; [|done]. cbn [negb].
    destruct (Z.eqb_spec (current (get (get l1))) 117) as [C3|]; [|done]. cbn [negb].
    destruct (get_codepoint (get (get l1))) as [lo l4] eqn:E4.
    destruct (Z.eqb_spec lo (-1)) as [|Hlo]; [done|].
    destruct (get_codepoint_inv _ _ _ E4 Hlo) as (ds2 & H2 & R4).
    destruct ((0xDC00 <=? lo) && (lo <=? 0xDFFF)) eqn:El; [|done]. intros [= <-].
    destruct (get_inv l1) as (b2 & Hb2 & R2); [lia|]. destruct (get_inv (get l1)) as (b3 & Hb3 & R3); [lia|].
    rewrite C2 in Hb2. rewrite C3 in Hb3. symmetry in Hb2, Hb3. apply byteZ_of in Hb2 as ->, Hb3 as ->.
    exists (ds1 ++ backslash :: Zbyte 117 :: ds2), (0x10000 + (hi - 0xD800) * 1024 + (lo - 0xDC00)).
    split; [apply (jc_pair ds1 ds2); [done|done|lia|lia]|].
    rewrite Z.shiftl_mul_pow2 by lia.
    replace (hi * 2 ^ 10 + lo - 0x35FDC00) with (0x10000 + (hi - 0xD800) * 1024 + (lo - 0xDC00)) by lia.
    eapply (reads_appends _ [] _ _ _ _), add_codepoint_utf8; [|lia].
    apply (reads_trans ds1 [] _ [] _ l1); [done|]. apply (reads_trans [backslash] [] _ [] _ (get l1)); [done|].
    by apply (reads_trans [Zbyte 117] [] ds2 [] _ (get (get l1))).
  - destruct ((0xDC00 <=? hi) && (hi <=? 0xDFFF)) eqn:El; [done|]. intros [= <-].
    exists ds1, hi. split; [apply jc_hex; [done|]; unfold scalar; lia|].
    eapply (reads_appends _ [] _ _ _ _ R1), add_codepoint_utf8. lia.
Qed.

Lemma scan_escape_short c cp rest l :
  (c, cp) ∈ short_escapes → ia l = Zbyte c :: rest →
  ∃ l', scan_escape l = Again l' ∧ reads [Zbyte c] (utf8 cp) l l'.
Proof.
  intros Hin E. destruct (get_byte _ _ _ E) as (Hc & Hr & _). unfold scan_escape. rewrite Hc.
  repeat (apply elem_of_cons in Hin as [[= -> ->]|Hin];
    [eexists; split; [reflexivity|]; apply (reads_appends _ [] _ _ _ _ Hr), add_appends|]).
  by apply elem_of_nil in Hin.
Qed.

Lemma scan_escape_inv l l' :
  scan_escape l = Again l' → ∃ src cp, json_char (backslash :: src) cp ∧ reads src (utf8 cp) l l'.
Proof.
  unfold scan_escape. set (c := current (get l)). intros E.
  assert (Hshort : ∀ cp, (c, cp) ∈ short_escapes → l' = add cp (get l) → utf8 cp = [Zbyte cp] →
    ∃ src cp, json_char (backslash :: src) cp ∧ reads src (utf8 cp) l l').
  { intros cp Hin -> Hu. destruct (get_inv l) as (b & Hb & Hr).
    { intros Hc. fold c in Hc. rewrite Hc in Hin. repeat (apply elem_of_cons in Hin as [Hin|Hin]; [done|]).
      by apply elem_of_nil in Hin. }
    exists [Zbyte c], cp. split; [by apply jc_short|]. subst c. rewrite Hb, Zbyte_byteZ, Hu.
    apply (reads_appends _ [] _ _ _ _ Hr), add_appends. }
  repeat match type of E with
  | (if ?x =? 117 then _ else _) = _ => destruct (Z.eqb_spec x 117) as [Ec|]; [|done]
  | (if ?x =? ?k then Again (add ?z _) else _) = _ =>
      destruct (Z.eqb_spec x k) as [Ec|];
        [injection E as <-; apply (Hshort z); [rewrite Ec; by repeat constructor|done|by vm_compute]|]
  end.
  apply scan_unicode_inv in E as (ds & cp & Hj & Hr). destruct (get_inv l) as (b & Hb & Hg); [fold c; lia|].
  fold c in Hb. rewrite Ec in Hb. symmetry in Hb. apply byteZ_of in Hb as ->.
  exists (Zbyte 117 :: ds), cp. split; [done|]. by apply (reads_trans [Zbyte 117] [] ds _ _ (get l)).
Qed.

(** ** The loop *)

Lemma json_char_nonempty src cp : json_char src cp → src ≠ [].
Proof. destruct 1; try done. apply utf8_nonempty. Qed.

Lemma short_range c cp : (c, cp) ∈ short_escapes → in_u 8 c.
Proof.
  intros Hin. unfold in_u. repeat (apply elem_of_cons in Hin as [[= -> ->]|Hin]; [lia|]). by apply elem_of_nil in Hin.
Qed.

Lemma scan_char_escape rest l : ia l = backslash :: rest → scan_char l = scan_escape (get l) ∧ reads [backslash] [] l (get l) ∧ ia (get l) = rest.
Proof.
  intros E. destruct (get_byte _ _ _ E) as (Hc & Hr & Hi). split_and!; [|done..]. unfold scan_char. by rewrite Hc.
Qed.

Lemma scan_escape_u rest l :
  ia l = Zbyte 117 :: rest → scan_escape l = scan_unicode (get l) ∧ reads [Zbyte 117] [] l (get l) ∧ ia (get l) = rest.
Proof.
  intros E. destruct (get_byte _ _ _ E) as (Hc & Hr & Hi). split_and!; [|done..]. unfold scan_escape. by rewrite Hc.
Qed.

(** A turn on one spelled character. *)
Lemma scan_char_ok src cp rest l :
  json_char src cp → ia l = src ++ rest → ∃ l', scan_char l = Again l' ∧ reads src (utf8 cp) l l'.
Proof.
  destruct 1 as [cp Hcp H20 Hq Hb|c cp Hin|ds cp Hd Hcp|ds1 ds2 hi lo H1 H2 Hhi Hlo]; intros E.
  - pose proof (utf8Z_well_formed cp Hcp) as Hw. rewrite <- utf8_byteZ in Hw by done.
    destruct (utf8 cp) as [|b bs] eqn:Eu; [done|]. apply (f_equal (map byteZ)) in Eu as Eb.
    rewrite utf8_byteZ in Eb by done.
    apply (scan_plain_ok b bs rest l Hw); [| | |done].
    all: unfold utf8Z in Eb; repeat case_match; injection Eb as Ea _; unfold scalar in Hcp; divlia.
  - destruct (scan_char_escape _ l E) as (-> & R1 & I1).
    destruct (scan_escape_short c cp rest _ Hin I1) as (l' & E' & R2). exists l'. split; [done|].
    by apply (reads_trans [backslash] [] [Zbyte c] _ _ (get l)).
  - destruct (scan_char_escape _ l E) as (-> & R1 & I1). destruct (scan_escape_u _ _ I1) as (-> & R2 & I2).
    destruct (scan_unicode_hex ds cp rest _ Hd Hcp I2) as (l' & E' & R3). exists l'. split; [done|].
    apply (reads_trans [backslash] [] (Zbyte 117 :: ds) _ _ (get l)); [done|].
    by apply (reads_trans [Zbyte 117] [] ds _ _ (get (get l))).
  - rewrite <- !app_comm_cons in E. destruct (scan_char_escape _ l E) as (-> & R1 & I1).
    destruct (scan_escape_u _ _ I1) as (-> & R2 & I2). rewrite <- app_assoc in I2.
    destruct (scan_unicode_pair ds1 ds2 hi lo rest _ H1 H2 Hhi Hlo I2) as (l' & E' & R3). exists l'. split; [done|].
    apply (reads_trans [backslash] [] (Zbyte 117 :: ds1 ++ _) _ _ (get l)); [done|].
    by apply (reads_trans [Zbyte 117] [] (ds1 ++ _) _ _ (get (get l))).
Qed.

Lemma scan_char_inv l l' :
  scan_char l = Again l' → ∃ src cp, json_char src cp ∧ reads src (utf8 cp) l l'.
Proof.
  intros [[Hc E]|?]%scan_char_plain_inv; [|done]. destruct (get_inv l) as (b & Hb & Hr); [lia|].
  rewrite Hc in Hb. symmetry in Hb. apply byteZ_of in Hb as ->.
  apply scan_escape_inv in E as (src & cp & Hj & Hs). exists (backslash :: src), cp. split; [done|].
  by apply (reads_trans [backslash] [] src _ _ (get l)).
Qed.

Lemma scan_char_quote rest l : ia l = quote :: rest → scan_char l = Return value_string (get l) ∧ reads [quote] [] l (get l).
Proof. intros E. destruct (get_byte _ _ _ E) as (Hc & Hr & _). unfold scan_char. by rewrite Hc. Qed.

(** What a turn that returns says. *)
Lemma checked_return rs l t l' : checked rs l = Return t l' → t = parse_error.
Proof. unfold checked. destruct (next_byte_in_range rs l) as [[|] ?]; [done|]. by intros [= <- _]. Qed.

Lemma scan_unicode_return l t l' : scan_unicode l = Return t l' → t = parse_error.
Proof. unfold scan_unicode, fail. repeat case_match; try done; by intros [= <- _]. Qed.

Lemma scan_char_return l t l' :
  scan_char l = Return t l' →
  t = parse_error ∨ t = value_string ∧ reads [quote] [] l l'.
Proof.
  unfold scan_char. destruct (Z.eqb_spec (current (get l)) 34) as [Hc|].
  - rewrite Hc. intros [= <- <-]. right. split; [done|]. destruct (get_inv l) as (b & Hb & Hr); [lia|].
    rewrite Hc in Hb. symmetry in Hb. by apply byteZ_of in Hb as ->.
  - intros E. left. revert E. unfold scan_escape, fail.
    repeat case_match; try done; try (by intros [= <- _]); [intros E; by eapply scan_unicode_return|..];
      intros E; by eapply checked_return.
Qed.

Lemma string_loop_ok src cps rest fuel l :
  json_string src cps → ia l = src ++ quote :: rest → (length src < fuel)%nat →
  ∃ l', string_loop fuel l = (value_string, l') ∧ reads (src ++ [quote]) (utf8s cps) l l'.
Proof.
  intros H. revert fuel l. induction H as [|src cp srcs cps Hc Hs IH]; intros fuel l E Hf.
  - destruct fuel as [|fuel]; [cbn in Hf; lia|]. cbn [string_loop]. destruct (scan_char_quote _ l E) as [-> Hr]. eauto.
  - destruct fuel as [|fuel]; [lia|]. cbn [string_loop]. rewrite <- app_assoc in E.
    destruct (scan_char_ok src cp _ l Hc E) as (l1 & -> & R1).
    destruct (IH fuel l1 (reads_rest _ _ _ _ _ R1 E)) as (l' & E' & R2).
    { apply json_char_nonempty in Hc. rewrite length_app in Hf. destruct src; [done|]. cbn in Hf. lia. }
    exists l'. split; [done|]. rewrite <- app_assoc. change (utf8s (cp :: cps)) with (utf8 cp ++ utf8s cps).
    by apply (reads_trans _ _ _ _ _ l1).
Qed.

Lemma string_loop_result fuel l t l' :
  (length (ia l) < fuel)%nat → string_loop fuel l = (t, l') →
  t = parse_error ∨ t = value_string ∧ ∃ src cps, json_string src cps ∧ reads (src ++ [quote]) (utf8s cps) l l'.
Proof.
  revert l. induction fuel as [|fuel IH]; intros l Hf; [lia|]. cbn [string_loop].
  destruct (scan_char l) as [l1|t1 l1] eqn:E.
  - apply scan_char_inv in E as (src & cp & Hc & R1). intros E'. apply IH in E' as [?|(-> & srcs & cps & Hs & R2)].
    + by left.
    + right. split; [done|]. exists (src ++ srcs), (cp :: cps). split; [by constructor|].
      rewrite <- app_assoc. by apply (reads_trans _ _ _ _ _ l1).
    + destruct R1 as (Ei & _). apply json_char_nonempty in Hc. rewrite Ei, length_app in Hf.
      destruct src; [done|]. cbn in Hf. lia.
  - intros [= <- <-]. apply scan_char_return in E as [?|[-> Hr]]; [by left|]. right. split; [done|].
    exists [], []. split; [constructor|done].
Qed.

(** The lexer accepts exactly the strings of the JSON grammar.  After an
    opening quote, [scan_string] returns [value_string] exactly when what follows
    is a sequence of spelled characters - well-formed UTF-8 other than quote,
    backslash and control characters, the eight short escapes, [\u] escapes of
    scalar values and surrogate pairs - and a closing quote; it then has read just
    that and leaves the UTF-8 of the code points in the token buffer.  Otherwise
    it returns [parse_error]: it never runs on. *)
Theorem scan_string_exact l :
  let '(t, l') := scan_string l in
  (t = value_string ∧ ∃ src cps, json_string src cps ∧ ia l = src ++ quote :: ia l' ∧ token_buffer l' = utf8s cps ∧
     u64 (chars_read l') = u64 (chars_read l + zlen src + 1)) ∨
  (t = parse_error ∧ ∀ src cps rest, json_string src cps → ia l ≠ src ++ quote :: rest).
Proof.
  destruct (scan_string l) as [t l'] eqn:E. unfold scan_string in E.
  destruct (string_loop_result _ _ _ _ (Nat.lt_succ_diag_r _) E) as [->|(-> & src & cps & Hs & Hi & Hb & Hc)].
  - right. split; [done|]. intros src cps rest Hs Hl.
    destruct (string_loop_ok src cps rest (S (length (ia (reset l)))) (reset l) Hs Hl) as (l1 & E1 & _).
    + cbn. rewrite Hl, length_app. lia.
    + congruence.
  - left. split; [done|]. exists src, cps. cbn in Hi, Hb, Hc. rewrite <- app_assoc in Hi. split_and!; [done..|].
    rewrite Hc, zlen_app. f_equal. change (zlen [quote]) with 1. lia.
Qed.
