(* ===== verification/JsonNumbers.v ===== *)
(** * The numbers the JSON lexer accepts

    [number] is a number of RFC 8259 taken apart; [number_text] is its spelling.
    [scan_number]'s machine accepts exactly the spellings that the input does not
    continue, and delivers their value: an integer when it is one and fits 64
    bits, the nearest binary64 otherwise. *)

From Stdlib Require Import ZArith Lia Strings.Byte Strings.String SpecFloat.
From stdpp Require Import base list numbers.
From S2P Require Import Prelude.
From S2P Require Import Field.
From S2P Require Import Utf8.
From S2P Require Import JsonLexer.
From S2P Require Import JsonStrings.

#[local] Open Scope Z_scope.

(** ** The grammar *)

(** Sign, integer part, digits of the fraction (none: no point), and the letter,
    sign and digits of the exponent. *)
Record number := mkNumber {
  n_neg : bool;
  n_int : list byte;
  n_frac : list byte;
  n_exp : option (byte * list byte * list byte)
}.

Definition all_digits (ds : list byte) : Prop := Forall (λ c, isdigit c = true) ds.
Definition hyphen : byte := Zbyte 45.
Definition dot : byte := Zbyte 46.
Definition nought : byte := Zbyte 48.

Definition int_ok (ip : list byte) : Prop :=
  all_digits ip ∧ (ip = [nought] ∨ ∃ d ds, ip = d :: ds ∧ d ≠ nought).
Definition exp_ok (ep : option (byte * list byte * list byte)) : Prop :=
  match ep with
  | None => True
  | Some (e, sg, ds) =>
      is_exp (byteZ e) = true ∧ (sg = [] ∨ sg = [Zbyte 43] ∨ sg = [hyphen]) ∧ all_digits ds ∧ ds ≠ []
  end.
Definition number_ok (n : number) : Prop := int_ok (n_int n) ∧ all_digits (n_frac n) ∧ exp_ok (n_exp n).

Definition frac_text (fp : list byte) : list byte := match fp with [] => [] | _ => dot :: fp end.
Definition exp_text (ep : option (byte * list byte * list byte)) : list byte :=
  match ep with None => [] | Some (e, sg, ds) => e :: sg ++ ds end.
Definition sign_text (neg : bool) : list byte := if neg then [hyphen] else [].
Definition number_text (n : number) : list byte :=
  sign_text (n_neg n) ++ n_int n ++ frac_text (n_frac n) ++ exp_text (n_exp n).

(** The input does not continue the number. *)
Definition ends (n : number) (rest : list byte) : Prop :=
  match rest with
  | [] => True
  | c :: _ =>
      (isdigit c = true → n_int n = [nought] ∧ n_frac n = [] ∧ n_exp n = None) ∧
      (c = dot → n_frac n ≠ [] ∨ n_exp n ≠ None) ∧
      (is_exp (byteZ c) = true → n_exp n ≠ None)
  end.

(** The number is [± mantissa · 10^power]. *)
Definition mantissa (n : number) : Z := digits 0 (n_int n ++ n_frac n).
Definition power (n : number) : Z :=
  match n_exp n with
  | None => 0
  | Some (_, sg, ds) => if decide (sg = [hyphen]) then - digits 0 ds else digits 0 ds
  end - zlen (n_frac n).

Definition integral (n : number) : bool := bool_decide (n_frac n = [] ∧ n_exp n = None).
Definition int_value (n : number) : Z := if n_neg n then - mantissa n else mantissa n.

(** The token and the value delivered. *)
Definition delivers (n : number) (t : token_type) (l : lexer) : Prop :=
  if integral n && n_neg n && (- 2 ^ 63 <=? int_value n) then t = value_integer ∧ m_integer l = int_value n
  else if integral n && negb (n_neg n) && (int_value n <? 2 ^ 64) then t = value_unsigned ∧ m_unsigned l = int_value n
  else t = value_float ∧ m_float l = round_decimal (n_neg n) (mantissa n) (power n).

(** ** Runs of the machine *)

Definition head_code (rest : list byte) : Z := match rest with [] => -1 | c :: _ => byteZ c end.

(** From a label with [number_type], over [src], to the end before [rest]. *)
Inductive num_run : number_state → token_type → list byte → list byte → token_type → Prop :=
  | nr_done s nt rest : number_next s (head_code rest) = Done → num_run s nt [] rest (number_type_at s nt)
  | nr_step s nt c s' src rest nt' :
      number_next s (byteZ c) = Goto (byteZ c) s' → num_run s' (number_type_at s nt) src rest nt' →
      num_run s nt (c :: src) rest nt'.

Lemma goto_same s c c' s' : number_next s c = Goto c' s' → c' = c.
Proof.
  unfold number_next. destruct s; repeat case_match; intros [= <- _]; try done;
    match goal with H : (_ =? 46) = true |- _ => apply Z.eqb_eq in H; by rewrite H end.
Qed.

Lemma goto_not_eof s c' s' : number_next s (-1) ≠ Goto c' s'.
Proof. by destruct s. Qed.

Lemma head_code_get l : current (get l) = head_code (ia l).
Proof. unfold get. by destruct (ia l). Qed.

(** At the end the character read last is given back. *)
Lemma unget_get l : ia (unget (get l)) = ia l ∧ token_buffer (unget (get l)) = token_buffer l.
Proof.
  unfold unget. destruct (ia l) as [|c rest] eqn:E; unfold get; rewrite E; cbn; [done|].
  pose proof (byteZ_range c) as [? _]. zguard. by rewrite Zbyte_byteZ.
Qed.

Lemma number_loop_run s nt src rest nt' fuel l :
  num_run s nt src rest nt' → ia l = src ++ rest → (length src < fuel)%nat →
  ∃ l1, number_loop fuel s nt l = number_done nt' (get l1) ∧ ia l1 = rest ∧ token_buffer l1 = token_buffer l ++ src.
Proof.
  intros H. revert fuel l. induction H as [s nt rest Hd|s nt c s' src rest nt' Hn Hr IH]; intros fuel l E Hf;
    (destruct fuel as [|fuel]; [cbn in Hf; lia|]); cbn [number_loop]; rewrite head_code_get, E.
  - cbn [app]. rewrite Hd. exists l. by rewrite app_nil_r.
  - cbn [app head_code]. rewrite Hn. destruct (get_byte _ _ _ E) as (_ & (_ & Hb & _) & Hi).
    destruct (IH fuel (add (byteZ c) (get l))) as (l1 & E1 & I1 & B1); [done|cbn in Hf; lia|].
    exists l1. rewrite E1. split_and!; [done..|]. rewrite B1. cbn [add token_buffer].
    rewrite Hb, Zbyte_byteZ, app_nil_r. by rewrite <- app_assoc.
Qed.

Lemma number_loop_inv s nt fuel l :
  (length (ia l) < fuel)%nat →
  (number_loop fuel s nt l).1 = parse_error ∨
  ∃ src rest nt', ia l = src ++ rest ∧ num_run s nt src rest nt'.
Proof.
  revert s nt l. induction fuel as [|fuel IH]; intros s nt l Hf; [lia|]. cbn [number_loop]. rewrite head_code_get.
  destruct (number_next s (head_code (ia l))) as [c' s'| |m] eqn:En.
  - destruct (ia l) as [|c rest] eqn:E; [by apply goto_not_eof in En|]. cbn [head_code] in En.
    apply goto_same in En as Ec. subst c'. destruct (get_byte _ _ _ E) as (_ & _ & Hi).
    destruct (IH s' (number_type_at s nt) (add (byteZ c) (get l))) as [?|(src & rest' & nt' & Es & Hr)].
    { cbn [add ia]. rewrite Hi. cbn in Hf. lia. }
    + by left.
    + right. exists (c :: src), rest', nt'. split; [|by eapply nr_step]. cbn in Es. rewrite Hi in Es. by rewrite Es.
  - right. exists [], (ia l), (number_type_at s nt). split; [done|by constructor].
  - by left.
Qed.

(** ** Runs and the grammar *)

(** The labels that loop over digits. *)
Definition loops (s : number_state) : Prop := s = any1 ∨ s = decimal2 ∨ s = any2.

Lemma loop_next s c : loops s → is_digit c = true → number_next s c = Goto c s.
Proof. intros [->|[->| ->]] E; cbn; by rewrite E. Qed.

Lemma loop_type s nt : loops s → number_type_at s nt = nt.
Proof. by intros [->|[->| ->]]. Qed.

Lemma run_digits s nt ds src rest nt' :
  loops s → all_digits ds → num_run s nt src rest nt' → num_run s nt (ds ++ src) rest nt'.
Proof.
  intros Hs Hds Hr. induction Hds as [|c ds Hc Hds IH]; [done|]. cbn [app].
  apply (nr_step s nt c s); [by apply loop_next|]. by rewrite loop_type.
Qed.

(** The digits of a run that starts at a looping label, and what is left. *)
Lemma run_digits_inv s nt src rest nt' :
  loops s → num_run s nt src rest nt' →
  ∃ ds src', src = ds ++ src' ∧ all_digits ds ∧ num_run s nt src' rest nt' ∧
    match src' with [] => True | c :: _ => isdigit c = false end.
Proof.
  intros Hs H. induction H as [s nt rest Hd|s nt c s' src rest nt' Hn Hr IH].
  - exists [], []. split_and!; [done|constructor|by constructor|done].
  - destruct (isdigit c) eqn:Ec.
    + rewrite loop_next in Hn by done. injection Hn as <-.
      destruct (IH Hs) as (ds & src' & -> & Hds & Hr' & Hh). exists (c :: ds), src'.
      split_and!; [done|by constructor| |done]. by rewrite loop_type in Hr'.
    + exists [], (c :: src). split_and!; [done|constructor|by eapply nr_step|done].
Qed.

Definition done_at (s : number_state) (rest : list byte) : Prop := number_next s (head_code rest) = Done.

(** The label a number without more digits ends at. *)
Definition last_label (n : number) : number_state :=
  match n_exp n, n_frac n with
  | Some _, _ => any2
  | None, _ :: _ => decimal2
  | None, [] => if decide (n_int n = [nought]) then zero else any1
  end.

Lemma run_any2_inv nt src rest nt' :
  num_run any2 nt src rest nt' → all_digits src ∧ done_at any2 rest ∧ nt' = nt.
Proof.
  intros H. apply run_digits_inv in H as (ds & src' & -> & Hds & Hr & Hh); [|by right; right].
  inversion Hr as [? ? ? Hd|? ? c s' ? ? ? Hn]; subst; [by rewrite app_nil_r|].
  cbn in Hn. change (is_digit (byteZ c)) with (isdigit c) in Hn. by rewrite Hh in Hn.
Qed.

Lemma run_any2 nt ds rest : all_digits ds → done_at any2 rest → num_run any2 nt ds rest nt.
Proof.
  intros Hds Hd. rewrite <- (app_nil_r ds). apply run_digits; [by right; right|done|].
  by apply (nr_done any2 nt rest).
Qed.

Lemma run_exponent nt sg ds rest :
  (sg = [] ∨ sg = [Zbyte 43] ∨ sg = [hyphen]) → all_digits ds → ds ≠ [] → done_at any2 rest →
  num_run exponent nt (sg ++ ds) rest value_float.
Proof.
  intros Hsg Hds Hne Hd. destruct ds as [|d ds]; [done|]. inversion Hds as [|? ? Hc Hds']; subst.
  change (isdigit d) with (is_digit (byteZ d)) in Hc.
  assert (Hc' : ((byteZ d =? 43) || (byteZ d =? 45)) = false) by (unfold is_digit in Hc; lia).
  destruct Hsg as [->|Hsg].
  - apply (nr_step exponent nt d any2); [cbn; by rewrite Hc', Hc|by apply run_any2].
  - assert (Hs : ∃ b, sg = [b] ∧ ((byteZ b =? 43) || (byteZ b =? 45)) = true)
      by (destruct Hsg as [->| ->]; by eexists).
    destruct Hs as (b & -> & Hb). cbn [app].
    apply (nr_step exponent nt b sign); [cbn; by rewrite Hb|].
    apply (nr_step sign _ d any2); [cbn; by rewrite Hc|by apply run_any2].
Qed.

Lemma run_exponent_inv nt src rest nt' :
  num_run exponent nt src rest nt' →
  ∃ sg ds, src = sg ++ ds ∧ (sg = [] ∨ sg = [Zbyte 43] ∨ sg = [hyphen]) ∧ all_digits ds ∧ ds ≠ [] ∧
    done_at any2 rest ∧ nt' = value_float.
Proof.
  intros H. inversion H as [? ? ? Hd|? ? c s' src' ? ? Hn Hr]; subst.
  { cbn in Hd. by repeat case_match. }
  cbn in Hn. destruct ((byteZ c =? 43) || (byteZ c =? 45)) eqn:Ec.
  - injection Hn as <-. inversion Hr as [? ? ? Hd|? ? d s' src ? ? Hn Hr']; subst.
    { cbn in Hd. by repeat case_match. }
    cbn in Hn. destruct (is_digit (byteZ d)) eqn:Ed; [|done]. injection Hn as <-.
    apply run_any2_inv in Hr' as (Hds & Hdone & ->).
    exists [c], (d :: src). split_and!; try done; [|by constructor].
    right. apply orb_true_iff in Ec as [Ec|Ec]; apply Z.eqb_eq, byteZ_of in Ec as ->; [by left|by right].
  - destruct (is_digit (byteZ c)) eqn:Ed; [|done]. injection Hn as <-. apply run_any2_inv in Hr as (Hds & Hdone & ->).
    exists [], (c :: src'). split_and!; try done; [by left|by constructor].
Qed.

(** The run over an exponent, at a label that accepts one. *)
Definition takes_exp (s : number_state) : Prop := s = zero ∨ s = any1 ∨ s = decimal2.

Lemma takes_exp_next s c : takes_exp s → is_exp c = true → number_next s c = Goto c exponent.
Proof.
  intros Hs Hc. assert (is_digit c = false ∧ (c =? 46) = false) as [E1 E2] by (unfold is_exp, is_digit in *; lia).
  destruct Hs as [->|[->| ->]]; cbn; by rewrite ?E1, ?E2, Hc.
Qed.

Definition type_of_exp {X} (ep : option X) (nt : token_type) : token_type :=
  match ep with None => nt | Some _ => value_float end.

Lemma run_exp s nt ep rest :
  takes_exp s → exp_ok ep → done_at (match ep with None => s | Some _ => any2 end) rest →
  num_run s nt (exp_text ep) rest (type_of_exp ep (number_type_at s nt)).
Proof.
  intros Hs Hep Hd. destruct ep as [[[e sg] ds]|]; [|by constructor]. destruct Hep as (He & Hsg & Hds & Hne).
  apply (nr_step s nt e exponent); [by apply takes_exp_next|by apply run_exponent].
Qed.

Definition type_of_frac (fp : list byte) (nt : token_type) : token_type :=
  match fp with [] => nt | _ => value_float end.

Lemma run_frac s nt fp ep rest :
  s = zero ∨ s = any1 → all_digits fp → exp_ok ep →
  done_at (match ep, fp with Some _, _ => any2 | None, _ :: _ => decimal2 | None, [] => s end) rest →
  num_run s nt (frac_text fp ++ exp_text ep) rest (type_of_exp ep (type_of_frac fp (number_type_at s nt))).
Proof.
  intros Hs Hfp Hep Hd. destruct fp as [|d fp].
  - apply run_exp; [|done|by destruct ep]. destruct Hs as [->| ->]; [by left|by right; left].
  - inversion Hfp as [|? ? Hc Hfp']; subst. cbn [frac_text app]. apply (nr_step s nt dot decimal1).
    { by destruct Hs as [->| ->]. }
    change (isdigit d) with (is_digit (byteZ d)) in Hc.
    apply (nr_step decimal1 _ d decimal2); [cbn; by rewrite Hc|].
    apply run_digits; [by right; left|done|].
    apply (run_exp decimal2); [by right; right|done|by destruct ep].
Qed.

(** The head of a run that is not a digit, at a label that accepts an exponent. *)
Lemma run_exp_inv s nt src rest nt' :
  takes_exp s → num_run s nt src rest nt' → match src with [] => True | c :: _ => isdigit c = false ∧ c ≠ dot end →
  ∃ ep, src = exp_text ep ∧ exp_ok ep ∧ done_at (match ep with None => s | Some _ => any2 end) rest ∧
    nt' = type_of_exp ep (number_type_at s nt).
Proof.
  intros Hs H Hh. inversion H as [? ? ? Hd|? ? c s' src' ? ? Hn Hr]; subst; [by exists None|].
  destruct Hh as [Hc Hdot]. change (isdigit c) with (is_digit (byteZ c)) in Hc.
  assert (Ed : (byteZ c =? 46) = false) by (apply Z.eqb_neq; intros E; by apply byteZ_of in E).
  destruct (is_exp (byteZ c)) eqn:Ee.
  - rewrite takes_exp_next in Hn by done. injection Hn as <-.
    apply run_exponent_inv in Hr as (sg & ds & -> & Hsg & Hds & Hne & Hdone & ->). by exists (Some (c, sg, ds)).
  - exfalso. destruct Hs as [->|[->| ->]]; cbn in Hn; rewrite ?Hc, ?Ed, Ee in Hn; done.
Qed.

Lemma run_frac_inv s nt src rest nt' :
  s = zero ∨ s = any1 → num_run s nt src rest nt' → match src with [] => True | c :: _ => isdigit c = false end →
  ∃ fp ep, src = frac_text fp ++ exp_text ep ∧ all_digits fp ∧ exp_ok ep ∧
    done_at (match ep, fp with Some _, _ => any2 | None, _ :: _ => decimal2 | None, [] => s end) rest ∧
    nt' = type_of_exp ep (type_of_frac fp (number_type_at s nt)).
Proof.
  intros Hs H Hh. assert (Ht : takes_exp s) by (destruct Hs as [->| ->]; [by left|by right; left]).
  destruct src as [|c src]; [|destruct (decide (c = dot)) as [->|Hc]].
  - apply run_exp_inv in H as (ep & Es & Hep & Hd & ->); [|done..]. exists [], ep. split_and!; try done. constructor.
  - inversion H as [|? ? c' s' src' ? ? Hn Hr]; subst. cbn in Hr.
    assert (s' = decimal1) as -> by (destruct Hs as [->| ->]; cbn in Hn; by injection Hn).
    inversion Hr as [? ? ? Hd|? ? d s' src' ? ? Hn' Hr']; subst.
    { cbn in Hd. by repeat case_match. }
    cbn in Hn'. destruct (is_digit (byteZ d)) eqn:Ed; [|done]. injection Hn' as <-. cbn in Hr'.
    destruct (run_digits_inv decimal2 _ _ _ _ (or_intror (or_introl eq_refl)) Hr') as (ds & src & -> & Hds & Hr2 & Hh2).
    assert (Hdot : match src with c :: _ => c ≠ dot | [] => True end).
    { destruct src as [|c src]; [done|]. intros ->. by inversion Hr2. }
    apply run_exp_inv in Hr2 as (ep & -> & Hep & Hd & ->); [|by right; right|by destruct src].
    exists (d :: ds), ep. split_and!; try done. by constructor.
  - apply run_exp_inv in H as (ep & Es & Hep & Hd & ->); [|done..]. exists [], ep. split_and!; try done. constructor.
Qed.

(** From the label the first character leads to. *)
Definition first_label (c : Z) : number_state := if c =? 45 then minus else if c =? 48 then zero else any1.

Definition number_kind (n : number) : token_type :=
  type_of_exp (n_exp n) (type_of_frac (n_frac n) (if n_neg n then value_integer else value_unsigned)).

Lemma nought_code c : (byteZ c =? 48) = bool_decide (c = nought).
Proof.
  destruct (Z.eqb_spec (byteZ c) 48) as [E|E]; symmetry.
  - apply byteZ_of in E. by apply bool_decide_eq_true_2.
  - apply bool_decide_eq_false_2. by intros ->.
Qed.

Lemma first_digit c : isdigit c = true → first_label (byteZ c) = if decide (c = nought) then zero else any1.
Proof.
  intros Hc. unfold first_label, isdigit in *. zguard. rewrite nought_code. case_decide; case_bool_decide; done.
Qed.

(** What follows the first digit of the integer part. *)
Lemma run_int d ip fp ep rest nt :
  int_ok (d :: ip) → all_digits fp → exp_ok ep → number_type_at zero nt = nt →
  done_at (last_label (mkNumber false (d :: ip) fp ep)) rest →
  num_run (first_label (byteZ d)) nt (ip ++ frac_text fp ++ exp_text ep) rest (type_of_exp ep (type_of_frac fp nt)).
Proof.
  intros [Hds Hz] Hfp Hep Hnt Hd. inversion Hds as [|? ? Hd0 Hip]; subst. rewrite first_digit by done.
  unfold last_label in Hd. cbn in Hd. destruct (decide (d = nought)) as [->|Ed].
  - destruct Hz as [[= ->]|(d' & ds & [= <- <-] & Hz)]; [|done]. cbn [app].
    rewrite decide_True in Hd by done. rewrite <- Hnt at 2.
    apply (run_frac zero nt); [by left|done|done|]. destruct ep, fp; done.
  - apply run_digits; [by left|done|]. apply (run_frac any1 nt); [by right|done|done|].
    rewrite decide_False in Hd by congruence. destruct ep, fp; done.
Qed.

Lemma run_int_inv d src rest nt nt' :
  isdigit d = true → number_type_at zero nt = nt → num_run (first_label (byteZ d)) nt src rest nt' →
  ∃ ip fp ep, src = ip ++ frac_text fp ++ exp_text ep ∧ int_ok (d :: ip) ∧ all_digits fp ∧ exp_ok ep ∧
    done_at (last_label (mkNumber false (d :: ip) fp ep)) rest ∧ nt' = type_of_exp ep (type_of_frac fp nt).
Proof.
  intros Hc Hnt H. rewrite first_digit in H by done. case_decide as Ed.
  - subst d.
    assert (Hh : match src with [] => True | c :: _ => isdigit c = false end).
    { inversion H as [|? ? c s' src' ? ? Hn Hr]; subst; [done|]. cbn in Hn. unfold isdigit, is_exp in *.
      repeat case_match; lia || done. }
    apply run_frac_inv in H as (fp & ep & -> & Hfp & Hep & Hd & ->); [|by left|done].
    exists [], fp, ep. split_and!; try done. split; [by repeat constructor|by left].
  - apply run_digits_inv in H as (ds & src' & -> & Hds & Hr & Hh); [|by left].
    apply run_frac_inv in Hr as (fp & ep & -> & Hfp & Hep & Hd & ->); [|by right|done].
    exists ds, fp, ep. split_and!; try done; [split; [by constructor|right; by exists d, ds]|].
    unfold last_label. cbn. rewrite decide_False by congruence. by destruct ep, fp.
Qed.

Lemma ends_done n rest : number_ok n → ends n rest ↔ done_at (last_label n) rest.
Proof.
  intros (Hip & Hfp & Hep). destruct n as [neg ip fp ep]. unfold ends, done_at, last_label. cbn in *.
  destruct rest as [|c rest]; cbn [head_code]; [destruct ep, fp; try done; by case_decide|].
  change (isdigit c) with (is_digit (byteZ c)).
  assert (Hdot : c = dot ↔ (byteZ c =? 46) = true).
  { rewrite Z.eqb_eq. split; [by intros ->|by intros ?%byteZ_of]. }
  rewrite Hdot. assert (Hex : is_digit (byteZ c) && is_exp (byteZ c) = false) by (unfold is_digit, is_exp; lia).
  assert (Hex' : is_exp (byteZ c) && (byteZ c =? 46) = false) by (unfold is_exp; lia).
  destruct ep as [ep|], fp as [|d fp]; [| |case_decide as Ez|];
    unfold number_next; destruct (is_digit (byteZ c)), (byteZ c =? 46), (is_exp (byteZ c)); try done;
    cbn; intuition congruence.
Qed.

(** ** The value of the text *)

Lemma c_str_id s : x00 ∉ s → c_str s = s.
Proof. intros H. pose proof (c_str_app s [] H) as E. by rewrite !app_nil_r in E. Qed.

Lemma digits_not_nul ds : all_digits ds → x00 ∉ ds.
Proof.
  intros H Hin. apply list_elem_of_lookup in Hin as [i Hi]. by pose proof (Forall_lookup_1 _ _ _ _ H Hi).
Qed.

Lemma digits_nonneg ds acc : 0 ≤ acc → 0 ≤ digits acc ds.
Proof.
  revert acc. induction ds as [|c ds IH]; intros acc Ha; cbn [digits]; [done|]. unfold isdigit.
  destruct (_ && _) eqn:E; [|done]. apply IH. lia.
Qed.

Lemma strtol_integral neg ip :
  int_ok ip → strtol (sign_text neg ++ ip) = if neg then - digits 0 ip else digits 0 ip.
Proof.
  intros [Hds _]. unfold strtol. rewrite c_str_id.
  - destruct neg; [done|]. cbn [sign_text app]. destruct Hds as [|d ip Hd Hds]; [done|]. cbn [skip_spaces].
    assert (isspace d = false) as -> by (unfold isspace, isdigit in *; lia). unfold isdigit in Hd. zguard. done.
  - apply not_elem_of_app. split; [destruct neg; [|apply not_elem_of_nil]|by apply digits_not_nul].
    intros Hin. apply elem_of_cons in Hin as [E|Hin]; [by vm_compute in E|by apply elem_of_nil in Hin].
Qed.

Lemma span_digits_app ds rest :
  all_digits ds → match rest with c :: _ => isdigit c = false | [] => True end →
  span_digits (ds ++ rest) = (ds, rest).
Proof.
  intros Hds Hr. induction Hds as [|c ds Hc Hds IH]; cbn [app span_digits].
  - destruct rest as [|c rest]; [done|]. cbn [span_digits]. by rewrite Hr.
  - by rewrite Hc, IH.
Qed.

Lemma exp_head ep : exp_ok ep → match exp_text ep with c :: _ => isdigit c = false ∧ (byteZ c =? 46) = false | [] => True end.
Proof. destruct ep as [[[e sg] ds]|]; [|done]. intros (He & _). cbn. unfold is_exp, isdigit in *. lia. Qed.

Lemma strtod_text n : number_ok n → strtod (number_text n) = round_decimal (n_neg n) (mantissa n) (power n).
Proof.
  intros ([Hip Hz] & Hfp & Hep). destruct n as [neg ip fp ep]. unfold strtod, number_text, mantissa, power. cbn in *.
  assert (Es : take_sign (sign_text neg ++ ip ++ frac_text fp ++ exp_text ep) =
    (neg, ip ++ frac_text fp ++ exp_text ep)).
  { destruct neg; [done|]. cbn [sign_text app]. destruct Hip as [|d ip Hd Hip]; [naive_solver|]. cbn [app take_sign].
    unfold isdigit in Hd. by zguard. }
  rewrite Es. pose proof (exp_head ep Hep) as Hh.
  rewrite (span_digits_app ip); [|done|destruct fp; [|done]; cbn; destruct (exp_text ep); [done|apply Hh]].
  assert (Hf : take_fraction (frac_text fp ++ exp_text ep) = (fp, exp_text ep)).
  { destruct fp as [|d fp]; cbn [frac_text app take_fraction].
    - destruct (exp_text ep) as [|c s]; [done|]. cbn [take_fraction]. by rewrite (proj2 Hh).
    - change (byteZ dot =? 46) with true. cbn iota. apply (span_digits_app (d :: fp)); [done|].
      destruct (exp_text ep); [done|apply Hh]. }
  rewrite Hf. f_equal. f_equal. destruct ep as [[[e sg] ds]|]; [|done]. cbn [exp_text].
  destruct Hep as (He & Hsg & Hds & Hne). unfold is_exp in He.
  destruct Hsg as [->|[->| ->]]; [|by cbn; rewrite He..].
  destruct Hds as [|d ds Hd Hds]; [done|]. cbn [app exponent_value]. rewrite He. unfold isdigit in Hd. by zguard.
Qed.

(** ** The scanner *)

Lemma run_number n rest c text :
  number_ok n → ends n rest → number_text n = c :: text →
  num_run (first_label (byteZ c)) value_unsigned text rest (number_kind n).
Proof.
  intros (Hip & Hfp & Hep) He Et. apply ends_done in He; [|by split]. destruct n as [neg ip fp ep].
  unfold number_text, number_kind in *. cbn in *.
  destruct ip as [|d ip]; [destruct Hip as [_ [?|(? & ? & ? & _)]]; done|]. destruct neg; cbn in Et.
  - injection Et as <- <-. pose proof (Forall_inv (proj1 Hip)) as Hd. cbn in Hd.
    apply (nr_step minus value_unsigned d (first_label (byteZ d))); [|by apply run_int].
    unfold first_label, isdigit in *. cbn. zguard. unfold is_digit. by destruct (byteZ d =? 48); zguard.
  - injection Et as <- <-. by apply run_int.
Qed.

Lemma run_number_inv c text rest nt' :
  c = hyphen ∨ isdigit c = true → num_run (first_label (byteZ c)) value_unsigned text rest nt' →
  ∃ n, number_ok n ∧ c :: text = number_text n ∧ ends n rest ∧ nt' = number_kind n.
Proof.
  intros Hc H.
  assert (Hsplit : ∃ neg d src, c :: text = sign_text neg ++ d :: src ∧ isdigit d = true ∧
    num_run (first_label (byteZ d)) (if neg : bool then value_integer else value_unsigned) src rest nt').
  { destruct Hc as [->|Hc]; [|by exists false, c, text].
    change (first_label (byteZ hyphen)) with minus in H. inversion H as [? ? ? Hd|? ? d s' src ? ? Hn Hr]; subst.
    { cbn in Hd. by repeat case_match. }
    exists true, d, src. split; [done|]. unfold first_label. cbn in Hn. destruct (byteZ d =? 48) eqn:E0.
    - injection Hn as <-. apply Z.eqb_eq in E0. unfold isdigit. rewrite E0. by split.
    - change (is_digit (byteZ d)) with (isdigit d) in Hn. destruct (isdigit d) eqn:Ed; [|done]. injection Hn as <-.
      split; [done|]. unfold isdigit in Ed. zguard. exact Hr. }
  destruct Hsplit as (neg & d & src & -> & Hd & Hr).
  apply run_int_inv in Hr as (ip & fp & ep & -> & Hip & Hfp & Hep & Hdone & ->); [|done|by destruct neg].
  exists (mkNumber neg (d :: ip) fp ep). assert (Hok : number_ok (mkNumber neg (d :: ip) fp ep)) by done.
  split_and!; [done|done| |by destruct neg]. by apply ends_done.
Qed.

Lemma number_done_delivers n l :
  number_ok n → token_buffer (unget l) = number_text n →
  delivers n (number_done (number_kind n) l).1 (number_done (number_kind n) l).2 ∧
  ia (number_done (number_kind n) l).2 = ia (unget l).
Proof.
  intros Hn Eb. unfold number_done, delivers. rewrite Eb. pose proof (strtod_text n Hn) as Hf.
  destruct (integral n) eqn:Ei.
  - apply bool_decide_eq_true in Ei as [E1 E2]. destruct n as [neg ip fp ep]. cbn in E1, E2. subst fp ep.
    assert (Et : strtol (number_text (mkNumber neg ip [] None)) = int_value (mkNumber neg ip [] None)).
    { unfold number_text, int_value, mantissa. cbn. rewrite !app_nil_r. apply strtol_integral, Hn. }
    unfold number_kind, strtoll, strtoull, fits. rewrite Et, Hf. cbn [n_neg n_frac n_exp type_of_frac type_of_exp andb].
    destruct neg; cbn [andb negb].
    + assert (int_value (mkNumber true ip [] None) ≤ 0).
      { unfold int_value, mantissa. cbn. rewrite app_nil_r. pose proof (digits_nonneg ip 0 ltac:(done)). lia. }
      rewrite (proj2 (Z.ltb_lt (int_value _) (2 ^ (64 - 1)))) by lia. rewrite andb_true_r.
      change (2 ^ (64 - 1)) with (2 ^ 63). by destruct (- 2 ^ 63 <=? int_value (mkNumber true ip [] None)).
    + by destruct (int_value (mkNumber false ip [] None) <? 2 ^ 64).
  - cbn [andb]. assert (Ek : number_kind n = value_float).
    { unfold integral in Ei. apply bool_decide_eq_false in Ei. destruct n as [neg ip fp ep]. unfold number_kind. cbn in *.
      destruct ep; [done|]. destruct fp; [|done]. by destruct Ei. }
    by rewrite Ek, Hf.
Qed.

Lemma number_text_nonempty n : number_ok n → number_text n ≠ [].
Proof.
  intros [[_ Hip] _]. destruct n as [neg ip fp ep]. unfold number_text. cbn in *. intros Et.
  apply app_nil in Et as [_ Et]. apply app_nil in Et as [-> _]. by destruct Hip as [?|(? & ? & ? & _)].
Qed.

Lemma scan_number_ok n src rest l c :
  current l = byteZ c → c :: src = number_text n → number_ok n → ends n rest → ia l = src ++ rest →
  delivers n (scan_number l).1 (scan_number l).2 ∧ ia (scan_number l).2 = rest.
Proof.
  intros Hc Et Hn He Ei. unfold scan_number. cbn [current reset]. rewrite Hc.
  change (if _ =? 45 then _ else _) with (first_label (byteZ c)). set (l0 := add (byteZ c) (reset l)).
  assert (Hb0 : token_buffer l0 = [c]) by (cbn; by rewrite Zbyte_byteZ).
  assert (Hr : num_run (first_label (byteZ c)) value_unsigned src rest (number_kind n)) by by apply run_number.
  destruct (number_loop_run _ _ _ _ _ (S (length (ia l0))) l0 Hr Ei) as (l1 & -> & I1 & B1).
  { cbn. rewrite Ei, length_app. lia. }
  destruct (unget_get l1) as [Iu Bu]. destruct (number_done_delivers n (get l1) Hn) as [Hd Hi].
  { by rewrite Bu, B1, Hb0, <- Et. }
  split; [exact Hd|]. by rewrite Hi, Iu.
Qed.

Lemma scan_number_sound l c :
  current l = byteZ c → c = hyphen ∨ isdigit c = true →
  (scan_number l).1 = parse_error ∨ ∃ n src rest, number_ok n ∧ c :: src = number_text n ∧ ends n rest ∧ ia l = src ++ rest.
Proof.
  intros Hc Hcase. unfold scan_number. cbn [current reset]. rewrite Hc.
  change (if _ =? 45 then _ else _) with (first_label (byteZ c)). set (l0 := add (byteZ c) (reset l)).
  destruct (number_loop_inv (first_label (byteZ c)) value_unsigned _ l0 (Nat.lt_succ_diag_r _))
    as [Hp|(src & rest & nt' & Ei & Hr)]; [by left|right].
  apply run_number_inv in Hr as (n & Hn & Et & He & ->); [|done]. by exists n, src, rest.
Qed.

Lemma delivers_not_error n t l : delivers n t l → t ≠ parse_error.
Proof. unfold delivers. repeat case_match; by intros [-> _]. Qed.

(** The lexer accepts exactly the numbers of the JSON grammar and delivers
    their value.  When the current character is a minus or a digit,
    [scan_number] either returns [parse_error], and then no number of the grammar
    that the input does not continue stands here; or it has read exactly such a
    number: an integer that fits is delivered as [value_unsigned] or
    [value_integer], anything else as the nearest binary64. *)
Theorem scan_number_exact l c :
  current l = byteZ c → c = hyphen ∨ isdigit c = true →
  let '(t, l') := scan_number l in
  (t = parse_error ∧ ∀ n rest, number_ok n → c :: ia l = number_text n ++ rest → ¬ ends n rest) ∨
  ∃ n, number_ok n ∧ c :: ia l = number_text n ++ ia l' ∧ ends n (ia l') ∧ delivers n t l'.
Proof.
  intros Hc Hcase. pose proof (scan_number_sound l c Hc Hcase) as Hs.
  pose proof (λ n src rest, scan_number_ok n src rest l c Hc) as Hok. destruct (scan_number l) as [t l'].
  destruct Hs as [Hp|(n & src & rest & Hn & Et & He & Ei)].
  - left. split; [done|]. intros n rest Hn Ei He.
    destruct (number_text n) as [|c' src] eqn:Et; [by apply number_text_nonempty in Hn|]. injection Ei as <- Ei.
    destruct (Hok n src rest (eq_sym Et) Hn He Ei) as [Hd _]. by apply delivers_not_error in Hd.
  - right. destruct (Hok n src rest Et Hn He Ei) as [Hd <-]. exists n. split_and!; [done| |done|done].
    rewrite <- Et. cbn in Ei |- *. by rewrite Ei.
Qed.

Lemma scan_number_exact_witness :
  let l := get (lexer_make (list_byte_of_string "-12.50e3,")) in
  m_float (scan_number l).2 = S754_finite true 6871947673600000 (-39) ∧
  let '(t, l') := scan_number l in
  (t = parse_error ∧ ∀ n rest, number_ok n → hyphen :: ia l = number_text n ++ rest → ¬ ends n rest) ∨
  ∃ n, number_ok n ∧ hyphen :: ia l = number_text n ++ ia l' ∧ ends n (ia l') ∧ delivers n t l'.
Proof.
  split; [by vm_compute|]. apply (scan_number_exact (get (lexer_make (list_byte_of_string "-12.50e3,"))) hyphen);
    [by vm_compute|by left].
Defined.
