(* ===== verification/FieldFloat.v ===== *)
(** * Floating-point columns (dao/field.h: Field::get_float)

    [atof] with its spaces, signs, decimal and hexadecimal numbers, infinities and NaNs, and
    the conversion to a 32-bit float, on IEEE numbers as [spec_float].  Results: the
    text of a decimal number is read as the nearest double, which is then rounded to the
    nearest float; a text that is no number as zero. *)

From Stdlib Require Import ZArith Lia Strings.Byte Strings.String SpecFloat.
From stdpp Require Import base numbers list.
From S2P Require Import Prelude.
From S2P Require Import Field.
From S2P Require Import JsonLexer.
From S2P Require Import JsonNumbers.

#[local] Open Scope Z_scope.

Definition take_plus (s : list byte) : list byte := match s with c :: s' => if byteZ c =? 43 then s' else s | [] => [] end.

(** The text begins with the letters [w], whatever their case. *)
Fixpoint starts_with (w s : list byte) : bool :=
  match w, s with
  | [], _ => true
  | c :: w, d :: s => bool_decide (c = toLower d) && starts_with w s
  | _, [] => false
  end.

Definition xdigit (c : byte) : option Z :=
  let b := byteZ c in
  if (48 <=? b) && (b <=? 57) then Some (b - 48)
  else if (97 <=? b) && (b <=? 102) then Some (b - 87)
  else if (65 <=? b) && (b <=? 70) then Some (b - 55)
  else None.

(** The value of the hexadecimal digits, their number, and what follows. *)
Fixpoint span_xdigits (acc count : Z) (s : list byte) : Z * Z * list byte :=
  match s with
  | c :: s' => match xdigit c with Some d => span_xdigits (16 * acc + d) (count + 1) s' | None => (acc, count, s) end
  | [] => (acc, count, [])
  end.

(** The binary exponent after [p]. *)
Definition xexponent (s : list byte) : Z :=
  match s with
  | e :: c :: s' =>
      if (byteZ e =? 112) || (byteZ e =? 80) then
        if byteZ c =? 45 then - digits 0 s' else if byteZ c =? 43 then digits 0 s' else digits 0 (c :: s')
      else 0
  | _ => 0
  end.

(** After [0x]; [None] if no digit follows. *)
Definition hex_number (neg : bool) (s : list byte) : option spec_float :=
  let '(m, k, s) := span_xdigits 0 0 s in
  let '(m, k2, s) := match s with c :: s' => if byteZ c =? 46 then span_xdigits m 0 s' else (m, 0, s) | [] => (m, 0, s) end in
  if k + k2 =? 0 then None else Some (binary_normalize 53 1024 (if neg then - m else m) (xexponent s - 4 * k2) neg).

(** A digit, perhaps after a point. *)
Definition has_digits (s : list byte) : bool :=
  match s with
  | c :: s' => isdigit c || (byteZ c =? 46) && match s' with d :: _ => isdigit d | [] => false end
  | [] => false
  end.

Definition decimal_number (neg : bool) (s : list byte) : spec_float :=
  if has_digits s then
    let '(ip, s) := span_digits s in
    let '(fp, s) := take_fraction s in
    round_decimal neg (digits 0 (ip ++ fp)) (exponent_value s - zlen fp)
  else S754_zero false.

Definition atof (s : list byte) : spec_float :=
  let s := skip_spaces (c_str s) in
  let '(neg, s') := take_sign s in
  let s := if neg then s' else take_plus s in
  if starts_with ["i"; "n"; "f"]%byte s then S754_infinity neg
  else if starts_with ["n"; "a"; "n"]%byte s then S754_nan
  else if starts_with ["0"; "x"]%byte s then
    match hex_number neg (drop 2 s) with Some f => f | None => S754_zero neg end
  else decimal_number neg s.

(** [static_cast<float>] rounds to the nearest. *)
Definition to_float (d : spec_float) : spec_float :=
  match d with
  | S754_finite s m e => binary_normalize 24 128 (if s then Z.neg m else Z.pos m) e s
  | _ => d
  end.

Definition get_float (f : Field) : spec_float := to_float (atof (m_field_value f)).

(** ** What is read *)

Lemma number_not_nul n : number_ok n → x00 ∉ number_text n.
Proof.
  intros ([Hi _] & Hf & He). unfold number_text. rewrite !not_elem_of_app. split_and!.
  - destruct (n_neg n); [|apply not_elem_of_nil]. cbn [sign_text]. by rewrite list_elem_of_singleton.
  - by apply digits_not_nul.
  - destruct (n_frac n) as [|d fp]; [apply not_elem_of_nil|]. cbn [frac_text]. rewrite not_elem_of_cons. split; [done|by apply digits_not_nul].
  - destruct (n_exp n) as [[[e sg] ds]|]; [|apply not_elem_of_nil]. cbn in *. destruct He as (He & Hs & Hd & _).
    rewrite not_elem_of_cons, not_elem_of_app. split_and!; [by intros <-| |by apply digits_not_nul].
    destruct Hs as [-> |[-> | ->]]; rewrite ?list_elem_of_singleton; [apply not_elem_of_nil|done|done].
Qed.

(** The text after the sign begins with a digit, and not with [0x]. *)
Lemma decimal_start n : number_ok n → ∃ d s, n_int n ++ frac_text (n_frac n) ++ exp_text (n_exp n) = d :: s ∧ isdigit d = true ∧
  starts_with ["0"; "x"]%byte (d :: s) = false.
Proof.
  intros ([Hi Hz] & _ & He). destruct (n_int n) as [|d ip]; [naive_solver|]. apply Forall_cons in Hi as [Hd _]. eexists d, _. split; [done|]. split; [done|].
  cbn [starts_with]. destruct Hz as [Hz|(d' & ds & [= <- <-] & Hne)].
  - injection Hz as -> ->. apply andb_false_iff. right. cbn [app]. destruct (n_frac n) as [|f fp]; [|done]. cbn [frac_text app].
    destruct (n_exp n) as [[[e sg] ds]|]; [|done]. cbn in *. destruct He as [He _]. apply andb_false_iff. left. apply bool_decide_eq_false.
    intros E. destruct e; done.
  - apply andb_false_iff. left. apply bool_decide_eq_false. intros E. destruct d; done.
Qed.

(** Blanks before it are skipped. *)
Lemma atof_number spaces n : Forall (λ c, isspace c = true) spaces → number_ok n → atof (spaces ++ number_text n) = strtod (number_text n).
Proof.
  intros Hs Hn. destruct (decimal_start n Hn) as (d & s & E & Hd & Hx). unfold atof, strtod.
  rewrite c_str_id by (rewrite not_elem_of_app; split; [by apply space_not_nul|by apply number_not_nul]). rewrite skip_spaces_app by done.
  assert (Hsp : isspace d = false) by (unfold isspace, isdigit in *; lia). unfold number_text. rewrite E.
  assert (Et : take_sign (sign_text (n_neg n) ++ d :: s) = (n_neg n, d :: s)).
  { destruct (n_neg n); [done|]. cbn. unfold isdigit in Hd. by zguard. }
  assert (Ek : skip_spaces (sign_text (n_neg n) ++ d :: s) = sign_text (n_neg n) ++ d :: s).
  { destruct (n_neg n); [done|]. cbn [sign_text app skip_spaces]. by rewrite Hsp. }
  rewrite Ek, Et. cbn beta iota.
  assert (Ep : (if n_neg n then d :: s else take_plus (sign_text (n_neg n) ++ d :: s)) = d :: s).
  { destruct (n_neg n); [done|]. cbn. unfold isdigit in Hd. by zguard. }
  rewrite Ep, Hx. assert (Hi : starts_with ["i"; "n"; "f"]%byte (d :: s) = false) by (apply andb_false_iff; left; apply bool_decide_eq_false; by destruct d).
  assert (Hna : starts_with ["n"; "a"; "n"]%byte (d :: s) = false) by (apply andb_false_iff; left; apply bool_decide_eq_false; by destruct d).
  rewrite Hi, Hna. unfold decimal_number, has_digits. by rewrite Hd.
Qed.

(** A column with a decimal number: the nearest double, rounded to a float. *)
Theorem field_float f spaces n : Forall (λ c, isspace c = true) spaces → number_ok n →
  get_float (set_value (spaces ++ number_text n) f) = to_float (round_decimal (n_neg n) (mantissa n) (power n)).
Proof.
  intros Hs Hn. unfold get_float, set_value. cbn [m_field_value].
  rewrite c_str_id by (rewrite not_elem_of_app; split; [by apply space_not_nul|by apply number_not_nul]). by rewrite atof_number, strtod_text.
Qed.

(** A quarter, a tenth, a third of a million bytes, and texts that are no numbers. *)
Example floats : map (λ t, get_float (Field_of false (list_byte_of_string t) DB_TYPE_FLOAT))
  ["0.25"; "-0.1"; " +1e39"; "0x1.8p1"; "12abc"; ""; "-x"; "Infinity"; "1e-46"]%string =
  [S754_finite false 8388608 (-25); S754_finite true 13421773 (-27); S754_infinity false; S754_finite false 12582912 (-22); S754_finite false 12582912 (-20);
   S754_zero false; S754_zero false; S754_infinity false; S754_zero false].
Proof. vm_compute. reflexivity. Qed.
