(* ===== verification/Rounding.v ===== *)
(** * What [strtod] makes of a decimal number

    A decimal number that lies strictly between the two boundaries of a finite
    binary64 number, the points half way to its neighbours, is read as that number:
    [round_decimal] of JsonLexer is followed through the division, the shifts and
    the rounding it is made of, with real numbers as the exact values. *)

From Stdlib Require Import ZArith Lia Reals Lra SpecFloat.
From stdpp Require Import base list numbers.
From S2P Require Import Prelude JsonLexer.

#[local] Open Scope R_scope.

(** ** Powers *)

Definition bp (e : Z) : R := powerRZ 2 e.

Lemma bp_add a b : bp (a + b) = bp a * bp b.
Proof. apply powerRZ_add. lra. Qed.

Lemma bp_pos e : 0 < bp e.
Proof. apply powerRZ_lt. lra. Qed.

Lemma bp_0 : bp 0 = 1.
Proof. reflexivity. Qed.

Lemma bp_IZR n : (0 ≤ n)%Z → bp n = IZR (2 ^ n).
Proof. intros H. unfold bp. rewrite <- (Z2Nat.id n) by done. by rewrite <- pow_powerRZ, <- pow_IZR. Qed.

Lemma bp_neg e : bp (- e) * bp e = 1.
Proof. rewrite <- bp_add, Z.add_opp_diag_l. apply bp_0. Qed.

Lemma bp_le a b : (a ≤ b)%Z → bp a <= bp b.
Proof.
  intros H. replace b with ((b - a) + a)%Z by lia. rewrite bp_add, (bp_IZR (b - a)) by lia.
  assert (1 <= IZR (2 ^ (b - a))) by (apply IZR_le; pose proof (Z.pow_pos_nonneg 2 (b - a)); lia).
  pose proof (bp_pos a). nra.
Qed.

Lemma bp_lt_inv a b : bp a < bp b → (a < b)%Z.
Proof. intros H. apply Z.nle_gt. intros Hle%bp_le. lra. Qed.

Lemma bp_S e : bp (e + 1) = 2 * bp e.
Proof. rewrite bp_add. unfold bp at 2. simpl. lra. Qed.

(** ** Locations *)

(** [v] is in the unit interval from [m], at [l]. *)
Definition located (v : R) (m : Z) (l : location) : Prop :=
  match l with
  | loc_Exact => v = IZR m
  | loc_Inexact Lt => IZR m < v < IZR m + / 2
  | loc_Inexact Eq => v = IZR m + / 2
  | loc_Inexact Gt => IZR m + / 2 < v < IZR m + 1
  end.

Lemma located_bounds v m l : located v m l → IZR m <= v < IZR m + 1.
Proof. destruct l as [|[]]; cbn; lra. Qed.

(** The nearest integer is [M]. *)
Lemma round_nearest_unique v m l M :
  located v m l → IZR M - / 2 < v < IZR M + / 2 → round_nearest_even m l = M.
Proof.
  intros H Hv. pose proof (located_bounds _ _ _ H).
  assert (HM : (M = m ∨ M = m + 1)%Z).
  { assert (IZR M < IZR m + 2 /\ IZR m - 1 < IZR M) as [H1 H2] by lra.
    rewrite <- plus_IZR in H1. rewrite <- minus_IZR in H2. apply lt_IZR in H1, H2. lia. }
  destruct HM as [-> | ->]; destruct l as [|[]]; cbn in *; try done; rewrite ?plus_IZR in *; try lra.
  all: exfalso; lra.
Qed.

Lemma shr_1_located v mrs :
  (0 ≤ shr_m mrs)%Z → located v (shr_m mrs) (loc_of_shr_record mrs) →
  (0 ≤ shr_m (shr_1 mrs))%Z ∧ located (v * / 2) (shr_m (shr_1 mrs)) (loc_of_shr_record (shr_1 mrs)).
Proof.
  destruct mrs as [m r s]. cbn [shr_m]. intros Hm H. destruct m as [|[p|p|]|p]; try lia; destruct r, s; cbn in H |- *; (split; [lia|]).
  all: rewrite ?(Pos2Z.inj_xI p), ?(Pos2Z.inj_xO p), ?plus_IZR, ?mult_IZR in H; lra.
Qed.

Lemma iter_shr_located p v mrs :
  (0 ≤ shr_m mrs)%Z → located v (shr_m mrs) (loc_of_shr_record mrs) →
  (0 ≤ shr_m (SpecFloat.iter_pos shr_1 p mrs))%Z ∧
  located (v * bp (Z.neg p)) (shr_m (SpecFloat.iter_pos shr_1 p mrs)) (loc_of_shr_record (SpecFloat.iter_pos shr_1 p mrs)).
Proof.
  revert v mrs. induction p as [p IH|p IH|]; intros v mrs Hm H; cbn [SpecFloat.iter_pos].
  - destruct (shr_1_located _ _ Hm H) as [H1 H2]. destruct (IH _ _ H1 H2) as [H3 H4]. destruct (IH _ _ H3 H4) as [H5 H6].
    split; [done|]. replace (Z.neg p~1) with (-1 + (Z.neg p + Z.neg p))%Z by lia. rewrite !bp_add, <- !Rmult_assoc.
    replace (bp (-1)) with (/ 2); [done|]. unfold bp. simpl. lra.
  - destruct (IH _ _ Hm H) as [H3 H4]. destruct (IH _ _ H3 H4) as [H5 H6].
    split; [done|]. replace (Z.neg p~0) with (Z.neg p + Z.neg p)%Z by lia. by rewrite bp_add, <- Rmult_assoc.
  - replace (bp (-1)) with (/ 2); [by apply shr_1_located|]. unfold bp. simpl. lra.
Qed.

Lemma record_of_loc m l : shr_m (shr_record_of_loc m l) = m ∧ loc_of_shr_record (shr_record_of_loc m l) = l.
Proof. by destruct l as [|[]]. Qed.

Abbreviation fexp64 := (fexp 53 1024).

Lemma shr_fexp_located m e l v :
  (0 ≤ m)%Z → located v m l → (e ≤ fexp64 (Zdigits2 m + e))%Z →
  ∃ mrs, shr_fexp 53 1024 m e l = (mrs, fexp64 (Zdigits2 m + e)) ∧ (0 ≤ shr_m mrs)%Z ∧
    located (v * bp (e - fexp64 (Zdigits2 m + e))) (shr_m mrs) (loc_of_shr_record mrs).
Proof.
  intros Hm H He. unfold shr_fexp. set (E := fexp64 (Zdigits2 m + e)) in *. destruct (record_of_loc m l) as [Em El].
  unfold shr. destruct (E - e)%Z as [|p|p] eqn:Ed; [| |lia].
  - exists (shr_record_of_loc m l). rewrite Em, El. split; [f_equal; lia|]. split; [done|].
    replace (e - E)%Z with 0%Z by lia. by rewrite bp_0, Rmult_1_r.
  - destruct (iter_shr_located p v (shr_record_of_loc m l)) as [H1 H2]; [by rewrite Em|by rewrite Em, El|].
    eexists. split; [f_equal; lia|]. split; [done|]. by replace (e - E)%Z with (Z.neg p) by lia.
Qed.

Lemma digits2_bounds p : (2 ^ (Z.pos (digits2_pos p) - 1) ≤ Z.pos p < 2 ^ Z.pos (digits2_pos p))%Z.
Proof.
  induction p as [p IH|p IH|]; cbn [digits2_pos]; [| |by cbn].
  all: rewrite Pos2Z.inj_succ; replace (Z.succ (Z.pos (digits2_pos p)) - 1)%Z with (Z.succ (Z.pos (digits2_pos p) - 1)) by lia;
    rewrite !Z.pow_succ_r by lia; lia.
Qed.

Lemma digits2_unique p g : (2 ^ (g - 1) ≤ Z.pos p < 2 ^ g)%Z → Z.pos (digits2_pos p) = g.
Proof.
  intros [H1 H2]. pose proof (digits2_bounds p) as [H3 H4].
  assert (0 ≤ g)%Z by (destruct (Z.leb_spec 0 g); [done|rewrite (Z.pow_neg_r 2 g) in H2 by lia; lia]).
  assert (Z.pos (digits2_pos p) - 1 < g)%Z by (apply (Z.pow_lt_mono_r_iff 2); lia).
  assert (g - 1 < Z.pos (digits2_pos p))%Z by (apply (Z.pow_lt_mono_r_iff 2); lia). lia.
Qed.

(** The magnitude of a located value. *)
Lemma located_magnitude v m l : (0 ≤ m)%Z → located v m l → v < bp (Zdigits2 m) ∧ ((0 < m)%Z → bp (Zdigits2 m - 1) <= v).
Proof.
  intros Hm H%located_bounds. destruct m as [|p|p]; [|pose proof (digits2_bounds p) as [H1 H2]|lia].
  - cbn [Zdigits2]. rewrite bp_0. split; [lra|lia].
  - cbn [Zdigits2]. rewrite !bp_IZR by lia. apply IZR_le in H1. assert (IZR (Z.pos p + 1) <= IZR (2 ^ Z.pos (digits2_pos p))) as H3 by (apply IZR_le; lia).
    rewrite plus_IZR in H3. split; [lra|]. intros _. lra.
Qed.

(** ** Rounding to a given number *)

(** [m · 2^e] is a finite binary64 number. *)
Definition canonical (m : positive) (e : Z) : Prop := fexp64 (Z.pos (digits2_pos m) + e) = e ∧ (e ≤ 971)%Z.

(** The boundaries of [m · 2^e], in units of [2^(e - 2)]: the lower one is closer
    at a power of two that has a smaller exponent below it. *)
Definition closer (m : positive) (e : Z) : bool := (Z.pos m =? 2 ^ 52)%Z && (-1074 <? e)%Z.
Definition lower (m : positive) (e : Z) : Z := (4 * Z.pos m - (if closer m e then 1 else 2))%Z.
Definition upper (m : positive) : Z := (4 * Z.pos m + 2)%Z.
Definition rounds_to (m : positive) (e : Z) (v : R) : Prop := IZR (lower m e) * bp (e - 2) < v < IZR (upper m) * bp (e - 2).

Lemma canonical_cases m e : canonical m e →
  (e = -1074 ∧ Z.pos m < 2 ^ 53)%Z ∨ (-1074 < e ∧ 2 ^ 52 ≤ Z.pos m < 2 ^ 53)%Z.
Proof.
  intros [H He]. pose proof (digits2_bounds m) as [H1 H2]. unfold fexp, emin in H.
  assert (Hd : (Z.pos (digits2_pos m) ≤ 53)%Z) by lia.
  assert (2 ^ Z.pos (digits2_pos m) ≤ 2 ^ 53)%Z by (apply Z.pow_le_mono_r; lia).
  destruct (Z.eqb_spec e (-1074)); [left; lia|right]. assert (Hp : Z.pos (digits2_pos m) = 53%Z) by lia. rewrite Hp in *. cbn in *. lia.
Qed.

Lemma quarter e : bp e = 4 * bp (e - 2).
Proof. replace e with ((e - 2) + 1 + 1)%Z at 1 by lia. rewrite !bp_S. lra. Qed.

(** What the first shift leaves: the value in units of the result, or of half of it
    just below a power of two. *)
Definition shifted (m : positive) (e E : Z) (w : R) : Prop :=
  (E = e ∧ IZR (Z.pos m) - / 2 < w < IZR (Z.pos m) + / 2) ∨
  ((E = e - 1)%Z ∧ Z.pos m = (2 ^ 52)%Z ∧ (-1074 < e)%Z ∧ IZR (2 ^ 53) - / 2 < w < IZR (2 ^ 53)).

Lemma not_closer m e v : closer m e = false → rounds_to m e (v * bp e) → IZR (Z.pos m) - / 2 < v < IZR (Z.pos m) + / 2.
Proof.
  unfold rounds_to, lower, upper. intros ->. rewrite plus_IZR, minus_IZR, !mult_IZR, (quarter e). pose proof (bp_pos (e - 2)). nra.
Qed.

Lemma shifted_to m e g v :
  canonical m e → rounds_to m e v → v < bp g → (bp (g - 1) <= v ∨ (g ≤ -1074)%Z) →
  shifted m e (fexp64 g) (v * bp (- fexp64 g)).
Proof.
  intros Hc Hr Hg Hlow. set (E := fexp64 g). set (w := v * bp (- E)).
  assert (Ev : v = w * bp E) by (unfold w; rewrite Rmult_assoc, bp_neg; lra).
  destruct (canonical_cases m e Hc) as [[He Hm]|[He Hm]].
  - left. assert (EE : E = e); [|split; [done|apply (not_closer m e); [unfold closer; lia|by rewrite EE in Ev; rewrite <- Ev]]].
    destruct Hlow as [Hlow|Hlow]; [|unfold E, fexp, emin; lia]. destruct Hr as [_ Hu].
    assert (Hb : v < bp (53 + e)).
    { rewrite bp_add. rewrite (quarter e). assert (IZR (upper m) <= IZR (4 * 2 ^ 53)) as Hup by (apply IZR_le; unfold upper; lia).
      rewrite mult_IZR in Hup. pose proof (bp_pos (e - 2)). rewrite (bp_IZR 53) by lia. nra. }
    assert (g - 1 < 53 + e)%Z by (apply bp_lt_inv; lra). unfold E, fexp, emin. lia.
  - destruct Hr as [Hl Hu]. pose proof (bp_pos (e - 2)) as Hp.
    assert (Hm1 : IZR (2 ^ 52) <= IZR (Z.pos m)) by (apply IZR_le; lia).
    assert (Hm2 : IZR (Z.pos m) + 1 <= IZR (2 ^ 53)) by (rewrite <- plus_IZR; apply IZR_le; lia).
    assert (Hb : v < bp (53 + e)).
    { rewrite bp_add, (quarter e), (bp_IZR 53) by lia. unfold upper in Hu. rewrite plus_IZR, mult_IZR in Hu. nra. }
    assert (Hl' : IZR (2 ^ 52) * bp e - bp e / 2 < v).
    { rewrite (quarter e). unfold lower in Hl. rewrite minus_IZR, mult_IZR in Hl. destruct (closer m e); nra. }
    assert (Hgm : ¬ (g ≤ -1074)%Z).
    { intros Hg'. pose proof (bp_le g e ltac:(lia)). pose proof (bp_pos e). assert (IZR (2 ^ 52) >= 2) by (apply Rle_ge, IZR_le; lia). nra. }
    destruct Hlow as [Hlow|]; [|done].
    assert (g - 1 < 53 + e)%Z by (apply bp_lt_inv; lra).
    assert (H52 : IZR (2 ^ 52) * bp e = bp (52 + e)) by (by rewrite bp_add, (bp_IZR 52) by lia).
    destruct (Rle_lt_dec (bp (52 + e)) v) as [Hge|Hlt].
    + assert (52 + e < g)%Z by (apply bp_lt_inv; lra). assert (EE : E = e) by (unfold E, fexp, emin; lia).
      left. split; [done|]. destruct (closer m e) eqn:Hcl.
      * unfold closer in Hcl. assert (Em : Z.pos m = (2 ^ 52)%Z) by lia. rewrite Em in *.
        rewrite EE in Ev. unfold upper in Hu. rewrite plus_IZR, mult_IZR, Em, Ev, (quarter e) in Hu.
        rewrite <- H52, Ev in Hge. pose proof (bp_pos e). split; nra.
      * apply (not_closer m e); [done|]. rewrite EE in Ev. rewrite <- Ev. by split.
    + assert (Em : Z.pos m = (2 ^ 52)%Z).
      { destruct (Z.eqb_spec (Z.pos m) (2 ^ 52)) as [|Hne]; [done|].
        assert (IZR (2 ^ 52) + 1 <= IZR (Z.pos m)) by (rewrite <- plus_IZR; apply IZR_le; lia).
        unfold lower in Hl. rewrite minus_IZR, mult_IZR in Hl. rewrite <- H52, (quarter e) in Hlt. destruct (closer m e); nra. }
      assert (Hcl : closer m e = true) by (unfold closer; lia). right. unfold lower in Hl. rewrite Hcl, Em, minus_IZR, mult_IZR in Hl.
      assert (g - 1 < 52 + e)%Z by (apply bp_lt_inv; lra).
      assert (51 + e < g)%Z.
      { apply bp_lt_inv. replace (52 + e)%Z with ((51 + e) + 1)%Z in H52 by lia. rewrite bp_S in H52. pose proof (bp_pos e).
        assert (IZR (2 ^ 52) >= 2) by (apply Rle_ge, IZR_le; lia). nra. }
      assert (EE : E = (e - 1)%Z) by (unfold E, fexp, emin; lia).
      assert (He2 : bp e = 2 * bp E) by (rewrite EE, <- bp_S; f_equal; lia). pose proof (bp_pos E).
      rewrite <- H52, He2, Ev in Hlt. rewrite (quarter e) in He2. replace (2 ^ 53)%Z with (2 * 2 ^ 52)%Z by lia. rewrite mult_IZR.
      rewrite Ev in Hl. split_and!; [done..| |]; apply (Rmult_lt_reg_r (bp E)); lra.
Qed.

Lemma binary_round_aux_to s q e' l v0 m e :
  canonical m e → (0 ≤ q)%Z → located v0 q l → (e' ≤ fexp64 (Zdigits2 q + e'))%Z → rounds_to m e (v0 * bp e') →
  binary_round_aux 53 1024 s q e' l = S754_finite s m e.
Proof.
  intros Hc Hq Hl He Hr. destruct (shr_fexp_located q e' l v0 Hq Hl He) as (mrs & Es & Hm & Hw).
  destruct (located_magnitude v0 q l Hq Hl) as [Hmag1 Hmag2]. set (g := (Zdigits2 q + e')%Z) in *.
  pose proof (bp_pos e') as Hp.
  assert (Hsh : shifted m e (fexp64 g) (v0 * bp (e' - fexp64 g))).
  { replace (v0 * bp (e' - fexp64 g)) with ((v0 * bp e') * bp (- fexp64 g)).
    - apply shifted_to; [done|done|unfold g; rewrite bp_add; nra|]. destruct (Z.eqb_spec q 0) as [-> |Hq0].
      + right. unfold g, fexp, emin in *. cbn in *. lia.
      + left. specialize (Hmag2 ltac:(lia)). unfold g. replace (Zdigits2 q + e' - 1)%Z with ((Zdigits2 q - 1) + e')%Z by lia. rewrite bp_add. nra.
    - unfold Z.sub. rewrite bp_add. lra. }
  unfold binary_round_aux. rewrite Es. destruct Hsh as [[EE Hb]|(EE & Em & He1 & Hb)]; rewrite EE in *.
  - rewrite (round_nearest_unique _ _ _ (Z.pos m) Hw Hb). unfold shr_fexp. cbn [Zdigits2]. destruct Hc as [-> Hle]. rewrite Z.sub_diag. cbn.
    by rewrite (proj2 (Z.leb_le _ _)).
  - rewrite (round_nearest_unique _ _ _ (2 ^ 53) Hw) by lra. unfold shr_fexp. change (Zdigits2 (2 ^ 53)) with 54%Z.
    assert (Ef : (fexp64 (54 + (e - 1)) - (e - 1))%Z = 1%Z) by (unfold fexp, emin; lia). rewrite Ef. cbn.
    replace (e - 1 + 1)%Z with e by lia. destruct Hc as [_ Hle]. rewrite (proj2 (Z.leb_le _ _)) by done.
    change (Z.pos m = 4503599627370496)%Z in Em. by injection Em as ->.
Qed.

(** ** Division *)

Lemma new_location_compare d r : (0 < d)%Z → new_location d r = if (r =? 0)%Z then loc_Exact else loc_Inexact (2 * r ?= d)%Z.
Proof.
  intros Hd. unfold new_location. destruct (Z.even d) eqn:E; [done|]. unfold new_location_odd. destruct (r =? 0)%Z; [done|]. do 2 f_equal.
  rewrite <- Z.negb_odd, negb_false_iff in E. apply Z.odd_spec in E as [k ->].
  destruct (Z.compare_spec (2 * r + 1) (2 * k + 1)), (Z.compare_spec (2 * r) (2 * k + 1)); done || lia.
Qed.

Lemma new_location_ok d q r : (0 < d)%Z → (0 ≤ r < d)%Z → located (IZR (d * q + r) / IZR d) q (new_location d r).
Proof.
  intros Hd Hr. rewrite new_location_compare by done. apply IZR_lt in Hd as HdR.
  set (x := IZR (d * q + r) / IZR d). assert (E : IZR r = (x - IZR q) * IZR d).
  { unfold x. rewrite plus_IZR, mult_IZR. field. lra. }
  destruct (Z.eqb_spec r 0) as [->|Hr0]; unfold located.
  - apply (Rmult_eq_reg_r (IZR d)); lra.
  - assert (Hr1 : (0 < r)%Z) by lia. apply IZR_lt in Hr1. destruct Hr as [_ Hrd%IZR_lt].
    destruct (Z.compare_spec (2 * r) d) as [H|H|H]; [apply (f_equal IZR) in H|apply IZR_lt in H..]; rewrite mult_IZR in H.
    + apply (Rmult_eq_reg_r (IZR d)); lra.
    + split; apply (Rmult_lt_reg_r (IZR d)); lra.
    + split; apply (Rmult_lt_reg_r (IZR d)); lra.
Qed.

Lemma SFdiv_to s n d m e :
  canonical m e → rounds_to m e (IZR (Z.pos n) / IZR (Z.pos d)) →
  SFdiv 53 1024 (S754_finite s n 0) (S754_finite false d 0) = S754_finite s m e.
Proof.
  intros Hc Hr. unfold SFdiv, SFdiv_core_binary. cbn [Zdigits2]. rewrite !Z.add_0_r, xorb_false_r.
  change (0 - 0)%Z with 0%Z. set (D := (Z.pos (digits2_pos n) - Z.pos (digits2_pos d))%Z). set (e' := Z.min (fexp64 D) 0).
  set (m' := match (0 - e')%Z with 0%Z => Z.pos n | Z.pos _ => Z.shiftl (Z.pos n) (0 - e') | Z.neg _ => 0%Z end).
  assert (Em : m' = (Z.pos n * 2 ^ (- e'))%Z).
  { unfold m'. destruct (0 - e')%Z eqn:E0; [|rewrite <- E0, Z.shiftl_mul_pow2 by lia; do 2 f_equal; lia|lia].
    replace (- e')%Z with 0%Z by lia. lia. }
  destruct (Z.div_eucl m' (Z.pos d)) as [q r] eqn:Ed.
  pose proof (Z_div_mod m' (Z.pos d) ltac:(lia)) as Hdm. rewrite Ed in Hdm. destruct Hdm as [Hq Hr'].
  assert (Hm' : (0 < m')%Z) by (rewrite Em; pose proof (Z.pow_pos_nonneg 2 (- e')); lia). assert (Hq0 : (0 ≤ q)%Z) by nia.
  pose proof (new_location_ok (Z.pos d) q r ltac:(lia) ltac:(lia)) as Hloc. rewrite <- Hq in Hloc.
  assert (Ev : IZR m' / IZR (Z.pos d) * bp e' = IZR (Z.pos n) / IZR (Z.pos d)).
  { rewrite Em, mult_IZR, <- bp_IZR by lia. unfold Rdiv. pose proof (bp_neg e').
    replace (IZR (Z.pos n) * bp (- e') * / IZR (Z.pos d) * bp e') with (IZR (Z.pos n) * / IZR (Z.pos d) * (bp (- e') * bp e')) by ring. rewrite H. ring. }
  apply (binary_round_aux_to s q e' _ (IZR m' / IZR (Z.pos d))); [done|done|done| |by rewrite Ev].
  (* enough digits *)
  pose proof (digits2_bounds n) as [Hn1 Hn2]. pose proof (digits2_bounds d) as [Hd1 Hd2].
  assert (Hfew : e' = (-1074)%Z ∨ (2 ^ 52 ≤ q)%Z).
  { destruct (Z.eqb_spec e' (-1074)) as [|Hne]; [by left|right].
    assert (Hpow : (2 ^ (Z.pos (digits2_pos d) + 52) ≤ m')%Z).
    { rewrite Em. transitivity (2 ^ (Z.pos (digits2_pos n) - 1) * 2 ^ (- e'))%Z.
      - rewrite <- Z.pow_add_r by lia. apply Z.pow_le_mono_r; [lia|]. unfold e', D, fexp, emin in *. lia.
      - apply Z.mul_le_mono_nonneg_r; [apply Z.pow_nonneg; lia|done]. }
    rewrite Z.pow_add_r in Hpow by lia. nia. }
  destruct Hfew as [->|Hq52]; [unfold fexp, emin; lia|]. destruct q as [|q|q]; [lia| |lia]. cbn [Zdigits2].
  pose proof (digits2_bounds q) as [_ Hq2]. assert (2 ^ 52 < 2 ^ Z.pos (digits2_pos q))%Z by lia.
  assert (52 < Z.pos (digits2_pos q))%Z by (apply (Z.pow_lt_mono_r_iff 2); lia). unfold fexp. lia.
Qed.

(** The value of a decimal number. *)
Definition decimal (m e : Z) : R := IZR m * powerRZ 10 e.

Lemma pow10_IZR n : (0 ≤ n)%Z → powerRZ 10 n = IZR (10 ^ n).
Proof. intros H. rewrite <- (Z2Nat.id n) by done. by rewrite <- pow_powerRZ, <- pow_IZR. Qed.

Lemma round_decimal_to neg k e m x :
  canonical m x → (0 < k)%Z → rounds_to m x (decimal k e) → round_decimal neg k e = S754_finite neg m x.
Proof.
  intros Hc Hk Hr. unfold round_decimal. rewrite (proj2 (Z.eqb_neq k 0)) by lia. apply SFdiv_to; [done|].
  replace (_ / _) with (decimal k e); [done|]. unfold decimal. destruct (Z.leb_spec 0 e) as [He|He].
  - rewrite Z2Pos.id by (pose proof (Z.pow_pos_nonneg 10 e); lia). rewrite mult_IZR, <- pow10_IZR by done. cbn. field.
  - pose proof (Z.pow_pos_nonneg 10 (- e)). rewrite !Z2Pos.id by lia. rewrite <- pow10_IZR by lia.
    replace (powerRZ 10 e) with (/ powerRZ 10 (- e)); [done|]. rewrite <- powerRZ_neg', Z.opp_involutive. done.
Qed.
