(* ===== verification/Grisu.v ===== *)
(** * Printing floating-point numbers (json/nlohmann_json.hpp, [dtoa_impl] and [to_chars])

    Grisu2: the number and its boundaries are scaled by a cached power of ten so
    that the digits can be taken off 64-bit integers.  The text goes into an array
    of characters, the state of the monad; positions are counted from the start of
    the array.  The C++ [int]s (exponents, lengths, positions) stay below 2000 in
    absolute value and are plain integers; [uint64_t] and [uint32_t] wrap. *)

From Stdlib Require Import ZArith Strings.Byte Strings.String SpecFloat.
From stdpp Require Import base list numbers.
From S2P Require Import Prelude.
From S2P Require Import Field.

#[local] Open Scope Z_scope.

(** ** 64-bit shifts and the array *)

Definition shl (x n : Z) : result Z := if (0 <=? n) && (n <? 64) then Ok (u64 (Z.shiftl x n)) else Fault BadShift.
Definition shr (x n : Z) : result Z := if (0 <=? n) && (n <? 64) then Ok (Z.shiftr x n) else Fault BadShift.

Abbreviation C := (M (list byte)).

Definition assert_c (b : bool) : C unit := lift (assert_that b).
Definition put_at (i : Z) (bs : list byte) : C unit := λ buf,
  match vwrite buf i bs with Ok buf' => Ok (tt, buf') | Fault f => Fault f end.
Definition get_at (i n : Z) : C (list byte) := λ buf,
  match vread buf i n with Ok bs => Ok (bs, buf) | Fault f => Fault f end.
Definition memset (i : Z) (c : byte) (n : Z) : C unit := put_at i (zreplicate n c).
Definition memmove (dst src n : Z) : C unit := bs ← get_at src n; put_at dst bs.

(** ** [diyfp]: [f · 2^e] *)

Record diyfp := mkDiyfp { df : Z; de : Z }.

Definition kPrecision : Z := 64.

Definition sub (x y : diyfp) : result diyfp :=
  assert_that (de x =? de y);; assert_that (df y <=? df x);;
  Ok (mkDiyfp (u64 (df x - df y)) (de x)).

Definition mul (x y : diyfp) : diyfp :=
  let u_lo := Z.land (df x) 0xFFFFFFFF in
  let u_hi := Z.shiftr (df x) 32 in
  let v_lo := Z.land (df y) 0xFFFFFFFF in
  let v_hi := Z.shiftr (df y) 32 in
  let p0 := u64 (u_lo * v_lo) in
  let p1 := u64 (u_lo * v_hi) in
  let p2 := u64 (u_hi * v_lo) in
  let p3 := u64 (u_hi * v_hi) in
  let p0_hi := Z.shiftr p0 32 in
  let p1_lo := Z.land p1 0xFFFFFFFF in
  let p1_hi := Z.shiftr p1 32 in
  let p2_lo := Z.land p2 0xFFFFFFFF in
  let p2_hi := Z.shiftr p2 32 in
  let Q := u64 (p0_hi + p1_lo + p2_lo) in
  let Q := u64 (Q + Z.shiftl 1 (64 - 32 - 1)) in
  let h := u64 (p3 + p2_hi + p1_hi + Z.shiftr Q 32) in
  mkDiyfp h (de x + de y + 64).

(** A number that is not zero is shifted at most 63 times. *)
Fixpoint normalize_loop (fuel : nat) (x : diyfp) : result diyfp :=
  if Z.shiftr (df x) 63 =? 0 then
    match fuel with
    | O => Fault OutOfFuel
    | S fuel' => normalize_loop fuel' (mkDiyfp (u64 (Z.shiftl (df x) 1)) (de x - 1))
    end
  else Ok x.
Definition normalize (x : diyfp) : result diyfp := assert_that (negb (df x =? 0));; normalize_loop 63 x.

Definition normalize_to (x : diyfp) (target_exponent : Z) : result diyfp :=
  let delta := de x - target_exponent in
  assert_that (0 <=? delta);;
  shifted ← shl (df x) delta;
  back ← shr shifted delta;
  assert_that (back =? df x);;
  Ok (mkDiyfp shifted target_exponent).

(** ** Boundaries *)

Record boundaries := mkBoundaries { bw : diyfp; bminus : diyfp; bplus : diyfp }.

Definition kDigits : Z := 53.
Definition kBias : Z := 1024 - 1 + (kDigits - 1).
Definition kMinExp : Z := 1 - kBias.
Definition kHiddenBit : Z := 2 ^ (kDigits - 1).

(** [reinterpret_bits] of a positive finite binary64 number [m · 2^e]. *)
Definition bits_of (m e : Z) : Z := if m <? kHiddenBit then m else Z.lor (Z.shiftl (e + kBias) 52) (m - kHiddenBit).

Definition compute_boundaries (bits : Z) : result boundaries :=
  let E := Z.shiftr bits (kDigits - 1) in
  let F := Z.land bits (kHiddenBit - 1) in
  let is_denormal := E =? 0 in
  let v := if is_denormal then mkDiyfp F kMinExp else mkDiyfp (u64 (F + kHiddenBit)) (E - kBias) in
  let lower_boundary_is_closer := (F =? 0) && (1 <? E) in
  let m_plus := mkDiyfp (u64 (2 * df v + 1)) (de v - 1) in
  let m_minus :=
    if lower_boundary_is_closer then mkDiyfp (u64 (4 * df v - 1)) (de v - 2)
    else mkDiyfp (u64 (2 * df v - 1)) (de v - 1) in
  w_plus ← normalize m_plus;
  w_minus ← normalize_to m_minus (de w_plus);
  w ← normalize v;
  Ok (mkBoundaries w w_minus w_plus).

(** ** Cached powers of ten *)

Definition kAlpha : Z := -60.
Definition kGamma : Z := -32.

Record cached_power := mkCached { cf : Z; ce : Z; ck : Z }.

Definition kCachedPowersSize : Z := 79.
Definition kCachedPowersMinDecExp : Z := -300.
Definition kCachedPowersDecStep : Z := 8.

Definition kCachedPowers : list cached_power := [
  mkCached 0xAB70FE17C79AC6CA (-1060) (-300); mkCached 0xFF77B1FCBEBCDC4F (-1034) (-292); mkCached 0xBE5691EF416BD60C (-1007) (-284);
  mkCached 0x8DD01FAD907FFC3C (-980) (-276); mkCached 0xD3515C2831559A83 (-954) (-268); mkCached 0x9D71AC8FADA6C9B5 (-927) (-260);
  mkCached 0xEA9C227723EE8BCB (-901) (-252); mkCached 0xAECC49914078536D (-874) (-244); mkCached 0x823C12795DB6CE57 (-847) (-236);
  mkCached 0xC21094364DFB5637 (-821) (-228); mkCached 0x9096EA6F3848984F (-794) (-220); mkCached 0xD77485CB25823AC7 (-768) (-212);
  mkCached 0xA086CFCD97BF97F4 (-741) (-204); mkCached 0xEF340A98172AACE5 (-715) (-196); mkCached 0xB23867FB2A35B28E (-688) (-188);
  mkCached 0x84C8D4DFD2C63F3B (-661) (-180); mkCached 0xC5DD44271AD3CDBA (-635) (-172); mkCached 0x936B9FCEBB25C996 (-608) (-164);
  mkCached 0xDBAC6C247D62A584 (-582) (-156); mkCached 0xA3AB66580D5FDAF6 (-555) (-148); mkCached 0xF3E2F893DEC3F126 (-529) (-140);
  mkCached 0xB5B5ADA8AAFF80B8 (-502) (-132); mkCached 0x87625F056C7C4A8B (-475) (-124); mkCached 0xC9BCFF6034C13053 (-449) (-116);
  mkCached 0x964E858C91BA2655 (-422) (-108); mkCached 0xDFF9772470297EBD (-396) (-100); mkCached 0xA6DFBD9FB8E5B88F (-369) (-92);
  mkCached 0xF8A95FCF88747D94 (-343) (-84); mkCached 0xB94470938FA89BCF (-316) (-76); mkCached 0x8A08F0F8BF0F156B (-289) (-68);
  mkCached 0xCDB02555653131B6 (-263) (-60); mkCached 0x993FE2C6D07B7FAC (-236) (-52); mkCached 0xE45C10C42A2B3B06 (-210) (-44);
  mkCached 0xAA242499697392D3 (-183) (-36); mkCached 0xFD87B5F28300CA0E (-157) (-28); mkCached 0xBCE5086492111AEB (-130) (-20);
  mkCached 0x8CBCCC096F5088CC (-103) (-12); mkCached 0xD1B71758E219652C (-77) (-4); mkCached 0x9C40000000000000 (-50) 4;
  mkCached 0xE8D4A51000000000 (-24) 12; mkCached 0xAD78EBC5AC620000 3 20; mkCached 0x813F3978F8940984 30 28;
  mkCached 0xC097CE7BC90715B3 56 36; mkCached 0x8F7E32CE7BEA5C70 83 44; mkCached 0xD5D238A4ABE98068 109 52;
  mkCached 0x9F4F2726179A2245 136 60; mkCached 0xED63A231D4C4FB27 162 68; mkCached 0xB0DE65388CC8ADA8 189 76;
  mkCached 0x83C7088E1AAB65DB 216 84; mkCached 0xC45D1DF942711D9A 242 92; mkCached 0x924D692CA61BE758 269 100;
  mkCached 0xDA01EE641A708DEA 295 108; mkCached 0xA26DA3999AEF774A 322 116; mkCached 0xF209787BB47D6B85 348 124;
  mkCached 0xB454E4A179DD1877 375 132; mkCached 0x865B86925B9BC5C2 402 140; mkCached 0xC83553C5C8965D3D 428 148;
  mkCached 0x952AB45CFA97A0B3 455 156; mkCached 0xDE469FBD99A05FE3 481 164; mkCached 0xA59BC234DB398C25 508 172;
  mkCached 0xF6C69A72A3989F5C 534 180; mkCached 0xB7DCBF5354E9BECE 561 188; mkCached 0x88FCF317F22241E2 588 196;
  mkCached 0xCC20CE9BD35C78A5 614 204; mkCached 0x98165AF37B2153DF 641 212; mkCached 0xE2A0B5DC971F303A 667 220;
  mkCached 0xA8D9D1535CE3B396 694 228; mkCached 0xFB9B7CD9A4A7443C 720 236; mkCached 0xBB764C4CA7A44410 747 244;
  mkCached 0x8BAB8EEFB6409C1A 774 252; mkCached 0xD01FEF10A657842C 800 260; mkCached 0x9B10A4E5E9913129 827 268;
  mkCached 0xE7109BFBA19C0C9D 853 276; mkCached 0xAC2820D9623BF429 880 284; mkCached 0x80444B5E7AA7CF85 907 292;
  mkCached 0xBF21E44003ACDD2D 933 300; mkCached 0x8E679C2F5E44FF8F 960 308; mkCached 0xD433179D9C8CB841 986 316;
  mkCached 0x9E19DB92B4E31BA9 1013 324].

Definition get_cached_power_for_binary_exponent (e : Z) : result cached_power :=
  assert_that (-1500 <=? e);; assert_that (e <=? 1500);;
  let f := kAlpha - e - 1 in
  let k := Z.quot (f * 78913) (Z.shiftl 1 18) + (if 0 <? f then 1 else 0) in
  let index := Z.quot (- kCachedPowersMinDecExp + k + (kCachedPowersDecStep - 1)) kCachedPowersDecStep in
  assert_that (0 <=? index);; assert_that (index <? kCachedPowersSize);;
  match kCachedPowers !! Z.to_nat index with
  | Some cached =>
      assert_that (kAlpha <=? ce cached + e + 64);; assert_that (ce cached + e + 64 <=? kGamma);;
      Ok cached
  | None => Fault OutOfBounds
  end.

(** ** Generating the digits *)

(** [k] and [pow10]. *)
Definition find_largest_pow10 (n : Z) : Z * Z :=
  if 1000000000 <=? n then (10, 1000000000)
  else if 100000000 <=? n then (9, 100000000)
  else if 10000000 <=? n then (8, 10000000)
  else if 1000000 <=? n then (7, 1000000)
  else if 100000 <=? n then (6, 100000)
  else if 10000 <=? n then (5, 10000)
  else if 1000 <=? n then (4, 1000)
  else if 100 <=? n then (3, 100)
  else if 10 <=? n then (2, 10)
  else (1, 1).

(** The last digit falls with every turn. *)
Fixpoint round_loop (fuel : nat) (buf len dist delta rest ten_k : Z) : C unit :=
  if (rest <? dist) && (ten_k <=? u64 (delta - rest)) &&
     ((u64 (rest + ten_k) <? dist) || (u64 (u64 (rest + ten_k) - dist) <? u64 (dist - rest))) then
    match fuel with
    | O => raise OutOfFuel
    | S fuel' =>
        c ← get_at (buf + (len - 1)) 1;
        assert_c (negb (bool_decide (c = [digit 0])));;
        put_at (buf + (len - 1)) (map (λ c, Zbyte (byteZ c - 1)) c);;
        round_loop fuel' buf len dist delta (u64 (rest + ten_k)) ten_k
    end
  else mret tt.
Definition grisu2_round (buf len dist delta rest ten_k : Z) : C unit :=
  assert_c (1 <=? len);; assert_c (dist <=? delta);; assert_c (rest <=? delta);; assert_c (0 <? ten_k);;
  round_loop 10 buf len dist delta rest ten_k.

(** The digits of the integral part; [one_e] is the exponent of [one].  Left with
    the length and the decimal exponent, or done with the length alone. *)
Fixpoint integral_digits (n : nat) (buffer length decimal_exponent p1 p2 pow10 dist delta one_e : Z) : C (Z * Z + Z) :=
  match n with
  | O => mret (inr length)
  | S n =>
      let d := p1 / pow10 in
      let r := p1 mod pow10 in
      assert_c (d <=? 9);;
      put_at (buffer + length) [digit d];;
      let length := length + 1 in
      let p1 := r in
      shifted ← lift (shl p1 (- one_e));
      let rest := u64 (shifted + p2) in
      if rest <=? delta then
        let decimal_exponent := decimal_exponent + Z.of_nat n in
        ten_n ← lift (shl pow10 (- one_e));
        grisu2_round buffer length dist delta rest ten_n;;
        mret (inl (length, decimal_exponent))
      else integral_digits n buffer length decimal_exponent p1 p2 (pow10 / 10) dist delta one_e
  end.

(** The digits of the fractional part, until [delta] has grown past what is left. *)
Fixpoint fractional_digits (fuel : nat) (buffer length m p2 dist delta : Z) (one : diyfp) : C (Z * Z) :=
  match fuel with
  | O => raise OutOfFuel
  | S fuel' =>
      assert_c (p2 <=? (2 ^ 64 - 1) / 10);;
      let p2 := u64 (p2 * 10) in
      d ← lift (shr p2 (- de one));
      let r := Z.land p2 (df one - 1) in
      assert_c (d <=? 9);;
      put_at (buffer + length) [digit d];;
      let length := length + 1 in
      let p2 := r in
      let m := m + 1 in
      let delta := u64 (delta * 10) in
      let dist := u64 (dist * 10) in
      if p2 <=? delta then
        grisu2_round buffer length dist delta p2 (df one);;
        mret (length, m)
      else fractional_digits fuel' buffer length m p2 dist delta one
  end.

(** [length] and [decimal_exponent] at the end. *)
Definition grisu2_digit_gen (buffer length decimal_exponent : Z) (M_minus w M_plus : diyfp) : C (Z * Z) :=
  assert_c (kAlpha <=? de M_plus);; assert_c (de M_plus <=? kGamma);;
  delta ← lift (sub M_plus M_minus);
  dist ← lift (sub M_plus w);
  one_f ← lift (shl 1 (- de M_plus));
  let one := mkDiyfp one_f (de M_plus) in
  high ← lift (shr (df M_plus) (- de one));
  let p1 := u32 high in
  let p2 := Z.land (df M_plus) (df one - 1) in
  assert_c (0 <? p1);;
  let '(k, pow10) := find_largest_pow10 p1 in
  left ← integral_digits (Z.to_nat k) buffer length decimal_exponent p1 p2 pow10 (df dist) (df delta) (de one);
  match left with
  | inl end_ => mret end_
  | inr length =>
      assert_c (df delta <? p2);;
      lm ← fractional_digits 20 buffer length 0 p2 (df dist) (df delta) one;
      let '(length, m) := lm : Z * Z in
      mret (length, decimal_exponent - m)
  end.

Definition grisu2_scaled (buf len : Z) (m_minus v m_plus : diyfp) : C (Z * Z) :=
  assert_c (de m_plus =? de m_minus);; assert_c (de m_plus =? de v);;
  cached ← lift (get_cached_power_for_binary_exponent (de m_plus));
  let c_minus_k := mkDiyfp (cf cached) (ce cached) in
  let w := mul v c_minus_k in
  let w_minus := mul m_minus c_minus_k in
  let w_plus := mul m_plus c_minus_k in
  let M_minus := mkDiyfp (u64 (df w_minus + 1)) (de w_minus) in
  let M_plus := mkDiyfp (u64 (df w_plus - 1)) (de w_plus) in
  grisu2_digit_gen buf len (- ck cached) M_minus w M_plus.

Definition grisu2 (buf len bits : Z) : C (Z * Z) :=
  w ← lift (compute_boundaries bits);
  grisu2_scaled buf len (bminus w) (bw w) (bplus w).

(** ** The text *)

Definition append_exponent (buf e : Z) : C Z :=
  assert_c (-1000 <? e);; assert_c (e <? 1000);;
  put_at buf [Zbyte (if e <? 0 then 45 else 43)];;
  let e := if e <? 0 then - e else e in
  let buf := buf + 1 in
  let k := u32 e in
  if k <? 10 then
    put_at buf [digit 0];; put_at (buf + 1) [digit k];; mret (buf + 2)
  else if k <? 100 then
    put_at buf [digit (k / 10)];; put_at (buf + 1) [digit (k mod 10)];; mret (buf + 2)
  else
    put_at buf [digit (k / 100)];;
    let k := k mod 100 in
    put_at (buf + 1) [digit (k / 10)];; put_at (buf + 2) [digit (k mod 10)];; mret (buf + 3).

Definition point : byte := Zbyte 46.

Definition format_buffer (buf len decimal_exponent min_exp max_exp : Z) : C Z :=
  assert_c (min_exp <? 0);; assert_c (0 <? max_exp);;
  let k := len in
  let n := len + decimal_exponent in
  if (k <=? n) && (n <=? max_exp) then
    memset (buf + k) (digit 0) (n - k);;
    put_at (buf + n) [point];;
    put_at (buf + n + 1) [digit 0];;
    mret (buf + (n + 2))
  else if (0 <? n) && (n <=? max_exp) then
    assert_c (n <? k);;
    memmove (buf + (n + 1)) (buf + n) (k - n);;
    put_at (buf + n) [point];;
    mret (buf + (k + 1))
  else if (min_exp <? n) && (n <=? 0) then
    memmove (buf + (2 + - n)) buf k;;
    put_at buf [digit 0];;
    put_at (buf + 1) [point];;
    memset (buf + 2) (digit 0) (- n);;
    mret (buf + (2 + - n + k))
  else
    buf ← (if k =? 1 then mret (buf + 1)
           else memmove (buf + 2) (buf + 1) (k - 1);; put_at (buf + 1) [point];; mret (buf + (1 + k)));
    put_at buf [Zbyte 101];;
    append_exponent (buf + 1) (n - 1).

Definition max_digits10 : Z := 17.
Definition digits10 : Z := 15.

(** The end of the text; [first] and [last] are the ends of the array.  The number is finite. *)
Definition to_chars (first last : Z) (value : spec_float) : C Z :=
  let '(signbit, magnitude) :=
    match value with
    | S754_zero s => (s, None)
    | S754_finite s m e => (s, Some (Z.pos m, e))
    | S754_infinity s => (s, None)
    | S754_nan => (false, None)
    end in
  assert_c (match value with S754_zero _ | S754_finite _ _ _ => true | _ => false end);;
  when signbit (put_at first [Zbyte 45]);;
  let first := if signbit : bool then first + 1 else first in
  match magnitude with
  | None =>
      put_at first [digit 0];; put_at (first + 1) [point];; put_at (first + 2) [digit 0];; mret (first + 3)
  | Some (m, e) =>
      assert_c (max_digits10 <=? last - first);;
      ld ← grisu2 first 0 (bits_of m e);
      let '(len, decimal_exponent) := ld : Z * Z in
      assert_c (len <=? max_digits10);;
      let kMinExp := -4 in
      let kMaxExp := digits10 in
      assert_c (kMaxExp + 2 <=? last - first);;
      assert_c (2 + (- kMinExp - 1) + max_digits10 <=? last - first);;
      assert_c (max_digits10 + 6 <=? last - first);;
      format_buffer first len decimal_exponent kMinExp kMaxExp
  end.

(** The text of a number, in an array that holds [buf]. *)
Definition chars_of (buf : list byte) (value : spec_float) : result (list byte) :=
  match to_chars 0 (zlen buf) value buf with
  | Ok (end_, buf') => vread buf' 0 end_
  | Fault f => Fault f
  end.

(** 0.1, the least and the greatest positive number, and one third. *)
Example to_chars_tenth : chars_of (replicate 64 (Zbyte 0)) (S754_finite false 7205759403792794 (-56)) = Ok (list_byte_of_string "0.1"%string).
Proof. by vm_compute. Qed.
Example to_chars_least : chars_of (replicate 64 (Zbyte 0)) (S754_finite true 1 (-1074)) = Ok (list_byte_of_string "-5e-324"%string).
Proof. by vm_compute. Qed.
Example to_chars_greatest :
  chars_of (replicate 64 (Zbyte 0)) (S754_finite false (2 ^ 53 - 1) 971) = Ok (list_byte_of_string "1.7976931348623157e+308"%string).
Proof. by vm_compute. Qed.
