(* ===== verification/GrisuDigits.v ===== *)
(** * The digits Grisu2 generates

    The scaling by a cached power of ten is off by less than one unit in the last
    place, and the digits taken off the scaled upper boundary denote a number
    strictly between the boundaries of the number printed: at most 17 digits, the
    first not zero, no assertion violated, no arithmetic wrapping around. *)

From Stdlib Require Import ZArith Lia Strings.Byte Reals Lra SpecFloat.
From stdpp Require Import base list numbers.
From S2P Require Import Prelude.
From S2P Require Import Field.
From S2P Require Import Rounding.
From S2P Require Import Grisu.

#[local] Open Scope Z_scope.

(** ** [diyfp] *)

Lemma low32 x : 0 ≤ x → Z.land x 0xFFFFFFFF = x mod 2 ^ 32.
Proof. intros H. by rewrite <- (Z.land_ones x 32). Qed.

Lemma split32 x : x = 2 ^ 32 * (x / 2 ^ 32) + x mod 2 ^ 32.
Proof. apply Z.div_mod. lia. Qed.

(** The product of two 32-bit parts does not wrap. *)
Lemma mul32 a b : in_u 32 a → in_u 32 b → u64 (a * b) = a * b ∧ in_u 32 (a * b / 2 ^ 32) ∧ in_u 32 ((a * b) mod 2 ^ 32).
Proof.
  intros [Ha1 Ha2] [Hb1 Hb2]. assert (H : 0 ≤ a * b < 2 ^ 64) by nia. split_and!.
  - by apply u64_small.
  - split; [apply Z.div_pos; lia|apply Z.div_lt_upper_bound; lia].
  - apply Z.mod_pos_bound. lia.
Qed.

(** The product is rounded to the nearest. *)
Lemma mul_rounds x y : in_u 64 (df x) → in_u 64 (df y) →
  df (mul x y) = (df x * df y + 2 ^ 63) / 2 ^ 64 ∧ de (mul x y) = de x + de y + 64.
Proof.
  intros [Hx1 Hx2] [Hy1 Hy2]. split; [|done]. unfold mul. cbn [df]. rewrite !low32, !Z.shiftr_div_pow2 by lia.
  set (a := df x mod 2 ^ 32). set (b := df x / 2 ^ 32). set (c := df y mod 2 ^ 32). set (d := df y / 2 ^ 32).
  assert (Ex : df x = 2 ^ 32 * b + a) by apply split32. assert (Ey : df y = 2 ^ 32 * d + c) by apply split32.
  assert (Ha : in_u 32 a) by (apply Z.mod_pos_bound; lia). assert (Hc : in_u 32 c) by (apply Z.mod_pos_bound; lia).
  assert (Hb : in_u 32 b) by (split; [apply Z.div_pos; lia|apply Z.div_lt_upper_bound; lia]).
  assert (Hd : in_u 32 d) by (split; [apply Z.div_pos; lia|apply Z.div_lt_upper_bound; lia]).
  destruct (mul32 a c Ha Hc) as (-> & H1 & H2). destruct (mul32 a d Ha Hd) as (-> & H3 & H4).
  destruct (mul32 b c Hb Hc) as (-> & H5 & H6). destruct (mul32 b d Hb Hd) as (-> & _ & _).
  assert (Hnn : ∀ u v, in_u 32 u → in_u 32 v → 0 ≤ u * v) by (intros u v [? ?] [? ?]; nia).
  rewrite !low32 by (apply Hnn; done).
  pose proof (split32 (a * c)) as E0. pose proof (split32 (a * d)) as E1. pose proof (split32 (b * c)) as E2.
  set (p0h := a * c / 2 ^ 32) in *. set (p0l := (a * c) mod 2 ^ 32) in *. set (p1h := a * d / 2 ^ 32) in *. set (p1l := (a * d) mod 2 ^ 32) in *.
  set (p2h := b * c / 2 ^ 32) in *. set (p2l := (b * c) mod 2 ^ 32) in *. unfold in_u in *.
  change (Z.shiftl 1 (64 - 32 - 1)) with (2 ^ 31). rewrite (u64_small (p0h + p1l + p2l)) by (unfold in_u; lia).
  rewrite (u64_small (_ + 2 ^ 31)) by (unfold in_u; lia). pose proof (split32 (p0h + p1l + p2l + 2 ^ 31)) as EQ.
  pose proof (Z.mod_pos_bound (p0h + p1l + p2l + 2 ^ 31) (2 ^ 32) ltac:(lia)) as HQ.
  set (Qh := (p0h + p1l + p2l + 2 ^ 31) / 2 ^ 32) in *. set (Ql := (p0h + p1l + p2l + 2 ^ 31) mod 2 ^ 32) in *.
  assert (Ep : df x * df y + 2 ^ 63 = 2 ^ 64 * (b * d + p2h + p1h + Qh) + (2 ^ 32 * Ql + p0l)).
  { rewrite Ex, Ey. replace ((2 ^ 32 * b + a) * (2 ^ 32 * d + c)) with (2 ^ 64 * (b * d) + 2 ^ 32 * (a * d + b * c) + a * c) by ring. lia. }
  rewrite u64_small.
  - apply (Z.div_unique _ _ _ (2 ^ 32 * Ql + p0l)); [lia|exact Ep].
  - assert (df x * df y ≤ (2 ^ 64 - 1) * (2 ^ 64 - 1)) by (apply Z.mul_le_mono_nonneg; lia).
    assert (0 ≤ b * d) by (apply Hnn; done). unfold in_u. lia.
Qed.

Lemma shl_small x n : 0 ≤ n < 64 → 0 ≤ x → x * 2 ^ n < 2 ^ 64 → shl x n = Ok (x * 2 ^ n).
Proof.
  intros Hn Hx Hs. unfold shl. rewrite (proj2 (Z.leb_le 0 n)), (proj2 (Z.ltb_lt n 64)) by lia. cbn [andb].
  rewrite Z.shiftl_mul_pow2 by lia. rewrite u64_small; [done|]. split; [|done]. apply Z.mul_nonneg_nonneg; [done|]. apply Z.pow_nonneg. lia.
Qed.

Lemma shr_div x n : 0 ≤ n < 64 → shr x n = Ok (x / 2 ^ n).
Proof.
  intros Hn. unfold shr. rewrite (proj2 (Z.leb_le 0 n)), (proj2 (Z.ltb_lt n 64)) by lia. cbn [andb]. by rewrite Z.shiftr_div_pow2 by lia.
Qed.

Lemma normalize_loop_ok (s : nat) fuel f e :
  (s ≤ fuel)%nat → 2 ^ 63 ≤ f * 2 ^ Z.of_nat s < 2 ^ 64 →
  normalize_loop fuel (mkDiyfp f e) = Ok (mkDiyfp (f * 2 ^ Z.of_nat s) (e - Z.of_nat s)).
Proof.
  revert fuel f e. induction s as [|s IH]; intros fuel f e Hf Hs.
  - change (2 ^ Z.of_nat 0) with 1 in *. rewrite Z.mul_1_r, Z.sub_0_r in *.
    assert (E : Z.shiftr f 63 =? 0 = false).
    { apply Z.eqb_neq. rewrite Z.shiftr_div_pow2 by lia. pose proof (Z.div_le_lower_bound f (2 ^ 63) 1). lia. }
    destruct fuel; cbn [normalize_loop df]; by rewrite E.
  - destruct fuel as [|fuel]; [lia|]. cbn [normalize_loop df de]. rewrite Nat2Z.inj_succ, Z.pow_succ_r in * by lia.
    pose proof (Z.pow_pos_nonneg 2 (Z.of_nat s) ltac:(lia) ltac:(lia)) as Hp.
    assert (Hlt : 0 < f < 2 ^ 63) by nia.
    rewrite (Z.shiftr_div_pow2 f 63), (Z.div_small f) by lia. cbn. rewrite Z.shiftl_mul_pow2, u64_small by (unfold in_u; lia).
    rewrite IH by lia. do 2 f_equal; [nia|lia].
Qed.

Lemma normalize_ok s f e :
  0 ≤ s ≤ 63 → 2 ^ 63 ≤ f * 2 ^ s < 2 ^ 64 → normalize (mkDiyfp f e) = Ok (mkDiyfp (f * 2 ^ s) (e - s)).
Proof.
  intros Hs Hf. unfold normalize. assert (Hf0 : f ≠ 0) by (intros ->; lia). cbn [df]. rewrite (proj2 (Z.eqb_neq f 0) Hf0).
  cbn [negb assert_that mbind result_bind]. rewrite (normalize_loop_ok (Z.to_nat s)) by (rewrite ?Z2Nat.id; lia). by rewrite Z2Nat.id by lia.
Qed.

Lemma normalize_to_ok s f e e' :
  e' = e - s → 0 ≤ s < 64 → 0 ≤ f → f * 2 ^ s < 2 ^ 64 → normalize_to (mkDiyfp f e) e' = Ok (mkDiyfp (f * 2 ^ s) e').
Proof.
  intros -> Hs Hf Hlt. unfold normalize_to. cbn [de df]. replace (e - (e - s)) with s by lia.
  rewrite (proj2 (Z.leb_le 0 s)) by lia. cbn [assert_that]. unfold mbind, result_bind. rewrite shl_small by lia.
  rewrite shr_div, Z.div_mul by (try apply Z.pow_nonzero; lia). by rewrite Z.eqb_refl.
Qed.

(** ** The bits of a number *)

Lemma bits_decode m e : 0 ≤ m < 2 ^ 52 → 0 ≤ e →
  Z.shiftr (Z.lor (Z.shiftl e 52) m) 52 = e ∧ Z.land (Z.lor (Z.shiftl e 52) m) (2 ^ 52 - 1) = m.
Proof.
  intros Hm He. change (2 ^ 52 - 1) with (Z.ones 52). split.
  - rewrite Z.shiftr_lor, Z.shiftr_shiftl_l by lia. rewrite Z.shiftr_div_pow2, (Z.div_small m) by lia. rewrite Z.lor_0_r. apply Z.shiftl_0_r.
  - rewrite Z.land_lor_distr_l, !Z.land_ones, Z.shiftl_mul_pow2, Z.mod_mul, (Z.mod_small m) by lia. apply Z.lor_0_l.
Qed.

(** The shift that makes [4m + 2] a 64-bit number with its top bit set. *)
Definition scale (m : positive) : Z := 62 - Z.pos (digits2_pos m).

Lemma scale_ok m e : canonical m e →
  9 ≤ scale m ≤ 61 ∧ 2 ^ 63 ≤ 4 * Z.pos m * 2 ^ scale m ∧ upper m * 2 ^ scale m < 2 ^ 64 ∧
  (closer m e = true → scale m = 9) ∧ -1137 ≤ e - 2 - scale m ≤ 960.
Proof.
  intros Hc. pose proof (digits2_bounds m) as [H1 H2]. assert (Hd : Z.pos (digits2_pos m) ≤ 53) by (destruct Hc; unfold fexp, emin in *; lia).
  unfold scale, upper. set (d := Z.pos (digits2_pos m)) in *. assert (0 < d) by lia.
  assert (Ep : 2 ^ (d - 1) * 2 ^ (62 - d) = 2 ^ 61) by (rewrite <- Z.pow_add_r by lia; f_equal; lia).
  assert (Ed : 2 ^ d = 2 * 2 ^ (d - 1)) by (rewrite <- Z.pow_succ_r by lia; f_equal; lia).
  pose proof (Z.pow_pos_nonneg 2 (62 - d) ltac:(lia) ltac:(lia)). split_and!; [lia|lia|nia|nia| |..].
  - unfold closer. intros Hcl. assert (Z.pos m = 2 ^ 52) as E by lia. assert (d = 53); [|lia]. apply digits2_unique. rewrite E. lia.
  - destruct (canonical_cases m e Hc) as [[-> _]|[He Hm]]; [lia|]. destruct Hc; lia.
  - destruct (canonical_cases m e Hc) as [[-> _]|[He Hm]]; [lia|]. assert (d = 53) by (apply digits2_unique; lia). destruct Hc; lia.
Qed.

(** [compute_boundaries] finds the significand and the exponent in the bits. *)
Lemma bits_of_ok m e : canonical m e →
  let E := Z.shiftr (bits_of (Z.pos m) e) 52 in
  let F := Z.land (bits_of (Z.pos m) e) (2 ^ 52 - 1) in
  (if E =? 0 then mkDiyfp F (-1074) else mkDiyfp (u64 (F + 2 ^ 52)) (E - 1075)) = mkDiyfp (Z.pos m) e ∧ (F =? 0) && (1 <? E) = closer m e.
Proof.
  intros Hc. unfold bits_of, closer. change kHiddenBit with (2 ^ 52). change kBias with 1075.
  destruct (Z.ltb_spec (Z.pos m) (2 ^ 52)) as [Hm|Hm].
  - destruct (canonical_cases m e Hc) as [[-> _]|[_ ?]]; [|lia]. rewrite Z.shiftr_div_pow2, Z.div_small by lia.
    change (2 ^ 52 - 1) with (Z.ones 52). rewrite Z.land_ones, Z.mod_small by lia. cbn [Z.eqb]. split; [done|lia].
  - assert (He : -1074 ≤ e ∧ Z.pos m - 2 ^ 52 < 2 ^ 52) by (destruct (canonical_cases m e Hc); lia).
    destruct (bits_decode (Z.pos m - 2 ^ 52) (e + 1075)) as [-> ->]; [lia|lia|]. rewrite (proj2 (Z.eqb_neq (e + 1075) 0)) by lia.
    rewrite u64_small by (unfold in_u; lia). split; [f_equal; lia|lia].
Qed.

(** The boundaries of [m · 2^e], at one exponent. *)
Lemma compute_boundaries_ok m e : canonical m e →
  compute_boundaries (bits_of (Z.pos m) e) =
    Ok (mkBoundaries (mkDiyfp (4 * Z.pos m * 2 ^ scale m) (e - 2 - scale m))
                     (mkDiyfp (lower m e * 2 ^ scale m) (e - 2 - scale m))
                     (mkDiyfp (upper m * 2 ^ scale m) (e - 2 - scale m))).
Proof.
  intros Hc. destruct (scale_ok m e Hc) as (Hs & Hlo & Hup & Hcl & _). destruct (bits_of_ok m e Hc) as [Ev Ecl]. unfold upper in *.
  pose proof (Z.pow_pos_nonneg 2 (scale m) ltac:(lia) ltac:(lia)) as Hp.
  assert (Hm : Z.pos m < 2 ^ 53) by (destruct (canonical_cases m e Hc); lia).
  unfold compute_boundaries. change (kDigits - 1) with 52. change (kHiddenBit - 1) with (2 ^ 52 - 1). change kHiddenBit with (2 ^ 52).
  change kMinExp with (-1074). change kBias with 1075. cbv zeta in Ev, Ecl |- *. rewrite Ev, Ecl. cbn [df de].
  assert (E1 : 2 ^ (scale m + 1) = 2 * 2 ^ scale m) by (rewrite Z.pow_add_r by lia; lia).
  assert (E2 : 2 ^ (scale m + 2) = 4 * 2 ^ scale m) by (rewrite Z.pow_add_r by lia; lia).
  rewrite (u64_small (2 * _ + 1)) by (unfold in_u; lia). assert (Epl : normalize (mkDiyfp (2 * Z.pos m + 1) (e - 1)) = Ok (mkDiyfp ((4 * Z.pos m + 2) * 2 ^ scale m) (e - 2 - scale m))).
  { rewrite (normalize_ok (scale m + 1)); [do 2 f_equal; lia|lia|]. rewrite E1. lia. }
  rewrite Epl.
  unfold mbind, result_bind. cbn [de].
  assert (Emin : normalize_to (if closer m e then mkDiyfp (u64 (4 * Z.pos m - 1)) (e - 2) else mkDiyfp (u64 (2 * Z.pos m - 1)) (e - 1))
    (e - 2 - scale m) = Ok (mkDiyfp (lower m e * 2 ^ scale m) (e - 2 - scale m))).
  { unfold lower. destruct (closer m e).
    - specialize (Hcl eq_refl). rewrite u64_small by (unfold in_u; lia). by rewrite (normalize_to_ok (scale m)) by lia.
    - rewrite u64_small by (unfold in_u; lia). rewrite (normalize_to_ok (scale m + 1)) by (rewrite ?E1; lia). do 2 f_equal. rewrite E1. lia. }
  rewrite Emin, (normalize_ok (scale m + 2)) by (rewrite ?E2; lia). do 3 f_equal; rewrite ?E2; lia.
Qed.

(** ** The cached powers *)

(** Normalized, and within half a unit in the last place of [10^k]; both sides
    are multiplied by [2^1100 · 10^300] to be integers. *)
Definition cached_ok (c : cached_power) : bool :=
  (2 ^ 63 <=? cf c) && (cf c <? 2 ^ 64) && (-1060 <=? ce c) && (-300 <=? ck c) && (ck c <=? 324) &&
  (2 * Z.abs (cf c * 2 ^ (ce c + 1100) * 10 ^ 300 - 10 ^ (ck c + 300) * 2 ^ 1100) <=? 2 ^ (ce c + 1100) * 10 ^ 300).

Lemma cached_powers_ok : forallb cached_ok kCachedPowers = true.
Proof. by vm_compute. Qed.

(** Every exponent finds its power. *)
Definition finds_power (e : Z) : bool :=
  match get_cached_power_for_binary_exponent e with
  | Ok c => (kAlpha <=? ce c + e + 64) && (ce c + e + 64 <=? kGamma) && existsb (λ c', (cf c' =? cf c) && (ce c' =? ce c) && (ck c' =? ck c)) kCachedPowers
  | Fault _ => false
  end.

Lemma all_find_power : forallb finds_power (map (λ n, Z.of_nat n - 1137) (seq 0 2098)) = true.
Proof. by vm_compute. Qed.

Lemma cached_power_ok e : -1137 ≤ e ≤ 960 →
  ∃ c, get_cached_power_for_binary_exponent e = Ok c ∧ kAlpha ≤ ce c + e + 64 ≤ kGamma ∧ cached_ok c = true.
Proof.
  intros He. pose proof all_find_power as H. rewrite forallb_forall in H. specialize (H e). unfold finds_power in H.
  destruct (get_cached_power_for_binary_exponent e) as [c|f].
  - exists c. assert (Hi : In e (map (λ n, Z.of_nat n - 1137) (seq 0 2098))).
    { apply in_map_iff. exists (Z.to_nat (e + 1137)). split; [lia|]. apply in_seq. lia. }
    specialize (H Hi). apply andb_true_iff in H as [H Hex]. apply existsb_exists in Hex as (c' & Hc' & Heq).
    split_and!; [done|lia|lia|]. pose proof cached_powers_ok as Hall. rewrite forallb_forall in Hall. specialize (Hall c' Hc').
    destruct c as [a b d], c' as [a' b' d']. cbn [cf ce ck] in Heq. assert (a' = a ∧ b' = b ∧ d' = d) as (-> & -> & ->) by lia. done.
  - assert (Hi : In e (map (λ n, Z.of_nat n - 1137) (seq 0 2098))).
    { apply in_map_iff. exists (Z.to_nat (e + 1137)). split; [lia|]. apply in_seq. lia. }
    by specialize (H Hi).
Qed.

(** The real number the cached power stands for, in its units. *)
Definition power_of (c : cached_power) : R := (powerRZ 10 (ck c) * bp (- ce c))%R.

Lemma power_of_close c : cached_ok c = true →
  in_u 64 (cf c) ∧ 2 ^ 63 ≤ cf c ∧ (- / 2 <= power_of c - IZR (cf c) <= / 2)%R.
Proof.
  unfold cached_ok. intros H. apply andb_true_iff in H as [H H5]. apply andb_true_iff in H as [H _]. apply andb_true_iff in H as [H H4].
  apply andb_true_iff in H as [H H3]. apply andb_true_iff in H as [H1 H2]. apply Z.leb_le in H1, H3, H4, H5. apply Z.ltb_lt in H2.
  split; [split; lia|]. split; [done|]. set (f := cf c) in *. set (X := 2 ^ (ce c + 1100) * 10 ^ 300) in *.
  assert (HX : (0 < IZR X)%R). { apply IZR_lt. unfold X. apply Z.mul_pos_pos; apply Z.pow_pos_nonneg; lia. }
  assert (Ep : (power_of c * IZR X = IZR (10 ^ (ck c + 300) * 2 ^ 1100))%R).
  { unfold power_of, X. rewrite !mult_IZR, <- !pow10_IZR, <- !bp_IZR by lia. rewrite powerRZ_add by lra.
    replace 1100 with (- ce c + (ce c + 1100)) at 2 by lia. rewrite (bp_add (- ce c)). ring. }
  assert (Ef : (IZR f * IZR X = IZR (f * 2 ^ (ce c + 1100) * 10 ^ 300))%R) by (unfold X; rewrite !mult_IZR; ring).
  revert H5 Ep Ef. generalize (f * 2 ^ (ce c + 1100) * 10 ^ 300) (10 ^ (ck c + 300) * 2 ^ 1100). intros A B H5 Ep Ef.
  assert (Hb : - X ≤ 2 * (A - B) ≤ X) by (clear -H5; lia). destruct Hb as [Hb1%IZR_le Hb2%IZR_le].
  rewrite opp_IZR in Hb1. rewrite !mult_IZR, !minus_IZR, <- Ep, <- Ef in *. split; apply (Rmult_le_reg_r (IZR X)); lra.
Qed.

(** ** Scaling *)

(** What [x] is multiplied by the power, exactly, in units of the product. *)
Definition scaled (c : cached_power) (x : Z) : R := (IZR x * power_of c * bp (- 64))%R.

Lemma mul_close c x : cached_ok c = true → in_u 64 x →
  let y := df (mul (mkDiyfp x 0) (mkDiyfp (cf c) (ce c))) in
  (IZR y - 1 < scaled c x < IZR y + 1)%R.
Proof.
  intros Hc Hx. destruct (power_of_close c Hc) as (Hf & _ & Hp). cbv zeta.
  destruct (mul_rounds (mkDiyfp x 0) (mkDiyfp (cf c) (ce c)) Hx Hf) as [-> _]. cbn [df].
  pose proof (Z.div_mod (x * cf c + 2 ^ 63) (2 ^ 64) ltac:(lia)) as Hd. pose proof (Z.mod_pos_bound (x * cf c + 2 ^ 63) (2 ^ 64) ltac:(lia)) as Hm.
  set (y := (x * cf c + 2 ^ 63) / 2 ^ 64) in *. destruct Hx as [Hx1 Hx2].
  assert (Hy1 : - 2 ^ 63 ≤ x * cf c - 2 ^ 64 * y < 2 ^ 63) by lia. clearbody y. destruct Hy1 as [Hy1%IZR_le Hy2%IZR_lt].
  apply IZR_le in Hx1. apply IZR_lt in Hx2. rewrite !minus_IZR, !mult_IZR, ?opp_IZR in Hy1, Hy2.
  unfold scaled. replace (bp (-64)) with (/ IZR (2 ^ 64))%R.
  - set (T := IZR (2 ^ 64)) in *. assert (HT : (0 < T)%R) by (apply IZR_lt; lia). assert (Eh : (IZR (2 ^ 63) = T / 2)%R).
    { unfold T. replace (2 ^ 64) with (2 * 2 ^ 63) by lia. rewrite mult_IZR. lra. }
    change (- 2 ^ 63) with (- (2 ^ 63)) in Hy1. rewrite opp_IZR, Eh in Hy1. rewrite Eh in Hy2.
    set (z := (IZR x * power_of c * / T)%R). assert (Ez : (IZR x * power_of c = z * T)%R) by (unfold z; field; lra).
    assert (Hpx : (- (IZR x / 2) <= IZR x * power_of c - IZR x * IZR (cf c) <= IZR x / 2)%R) by nra.
    clear Hd Hm Hp. split; apply (Rmult_lt_reg_r T); lra.
  - rewrite <- (bp_IZR 64) by lia. symmetry. apply (powerRZ_neg' 2 64).
Qed.

(** ** Digits in the array *)

Lemma zlen_map {A B} (f : A → B) l : zlen (map f l) = zlen l.
Proof. unfold zlen. by rewrite length_map. Qed.

Lemma put_digit_end pre ls x rest d : put_at (zlen pre + zlen ls) [digit d] (pre ++ map digit ls ++ x :: rest) = Ok (tt, pre ++ map digit (ls ++ [d]) ++ rest).
Proof.
  unfold put_at. rewrite <- (zlen_map digit ls), <- zlen_app. rewrite app_assoc.
  change (x :: rest) with ([x] ++ rest). rewrite vwrite_app by done. by rewrite map_app, <- !app_assoc.
Qed.

Lemma number_snoc ls d : number (ls ++ [d]) = 10 * number ls + d.
Proof. unfold number. by rewrite foldl_app. Qed.

Lemma assert_ok b buf : b = true → assert_c b buf = Ok (tt, buf).
Proof. by intros ->. Qed.

Lemma lift_ok {A} (r : result A) a (buf : list byte) : r = Ok a → lift r buf = Ok (a, buf).
Proof. by intros ->. Qed.

Lemma is_digits_snoc ls d : is_digits ls → 0 ≤ d ≤ 9 → is_digits (ls ++ [d]).
Proof. intros H Hd. apply Forall_app_2; [done|]. constructor; [lia|constructor]. Qed.

Lemma digit_zero d : 0 ≤ d ≤ 9 → digit d = digit 0 → d = 0.
Proof. intros Hd E. apply (f_equal byteZ) in E. rewrite !byteZ_digit in E by lia. lia. Qed.

(** [grisu2_round] takes a number of units off the last digit, never more than fit
    between the boundaries, and leaves it at least 1. *)
Lemma round_loop_ok fuel pre ls d rest dist delta r ten_k :
  1 ≤ d ≤ 9 → d ≤ Z.of_nat fuel → 0 ≤ r ≤ delta → delta < 2 ^ 64 → 0 ≤ dist ≤ delta → 0 < ten_k → delta < r + d * ten_k →
  ∃ d', round_loop fuel (zlen pre) (zlen ls + 1) dist delta r ten_k (pre ++ map digit (ls ++ [d]) ++ rest) =
      Ok (tt, pre ++ map digit (ls ++ [d']) ++ rest) ∧ 1 ≤ d' ≤ d ∧ r + (d - d') * ten_k ≤ delta.
Proof.
  revert d r. induction fuel as [|fuel IH]; intros d r Hd Hf Hr Hdelta Hdist Hten Hend; [lia|]. cbn [round_loop].
  match goal with |- context [if ?b then _ else _] => destruct b eqn:Ec end; [|exists d; split_and!; [done|lia..]].
  apply andb_true_iff in Ec as [Ec _]. apply andb_true_iff in Ec as [_ Ec]. apply Z.leb_le in Ec.
  rewrite (u64_small (delta - r)) in Ec by (unfold in_u; lia).
  assert (Hd2 : 2 ≤ d) by nia.
  assert (Eg : get_at (zlen pre + (zlen ls + 1 - 1)) 1 (pre ++ map digit (ls ++ [d]) ++ rest) =
    Ok ([digit d], pre ++ map digit (ls ++ [d]) ++ rest)).
  { unfold get_at. replace (zlen pre + (zlen ls + 1 - 1)) with (zlen (pre ++ map digit ls)) by (rewrite zlen_app, zlen_map; lia).
    rewrite map_app, <- app_assoc, app_assoc. change 1 with (zlen [digit d]). by rewrite vread_app. }
  mgo Eg. rewrite (bind_ok _ _ _ tt (pre ++ map digit (ls ++ [d]) ++ rest)).
  2:{ apply assert_ok. rewrite bool_decide_eq_false_2; [done|]. intros [= E]. apply digit_zero in E; lia. }
  assert (Ep : put_at (zlen pre + (zlen ls + 1 - 1)) (map (λ c, Zbyte (byteZ c - 1)) [digit d]) (pre ++ map digit (ls ++ [d]) ++ rest) =
    Ok (tt, pre ++ map digit (ls ++ [d - 1]) ++ rest)).
  { unfold put_at. replace (zlen pre + (zlen ls + 1 - 1)) with (zlen (pre ++ map digit ls)) by (rewrite zlen_app, zlen_map; lia).
    rewrite !map_app, <- !app_assoc, app_assoc. rewrite vwrite_app by done. rewrite <- app_assoc. cbn. rewrite byteZ_digit by lia. unfold digit.
    by replace (48 + d - 1) with (48 + (d - 1)) by lia. }
  mgo Ep. rewrite u64_small by (unfold in_u; lia).
  destruct (IH (d - 1) (r + ten_k)) as (d' & E & Hd' & Hle); [lia..|]. exists d'. split_and!; [exact E|lia..].
Qed.

Lemma grisu2_round_ok pre ls d rest dist delta r ten_k :
  1 ≤ d ≤ 9 → 0 ≤ r ≤ delta → delta < 2 ^ 64 → 0 ≤ dist ≤ delta → 0 < ten_k → delta < r + d * ten_k →
  ∃ d', grisu2_round (zlen pre) (zlen ls + 1) dist delta r ten_k (pre ++ map digit (ls ++ [d]) ++ rest) =
      Ok (tt, pre ++ map digit (ls ++ [d']) ++ rest) ∧ 1 ≤ d' ≤ d ∧ r + (d - d') * ten_k ≤ delta.
Proof.
  intros Hd Hr Hdelta Hdist Hten Hend. destruct (round_loop_ok 10 pre ls d rest dist delta r ten_k) as (d' & E & H); [lia..|].
  exists d'. split; [|done]. unfold grisu2_round. pose proof (zlen_nonneg ls).
  do 4 (erewrite bind_ok by (apply assert_ok; lia)). exact E.
Qed.

(** ** Digit generation

    [M] is the upper boundary with [q] bits after the point, [delta] its distance
    from the lower one. *)

Definition leading (ls : list Z) : Prop := match ls with d :: _ => 1 ≤ d | [] => False end.

Lemma leading_snoc ls d : (ls = [] → 1 ≤ d) → (ls ≠ [] → leading ls) → leading (ls ++ [d]).
Proof. destruct ls; cbn; intros H1 H2; [by apply H1|by apply H2]. Qed.

Lemma number_bounds ls : is_digits ls → 0 ≤ number ls < 10 ^ zlen ls ∧ (leading ls → 10 ^ (zlen ls - 1) ≤ number ls).
Proof.
  induction ls as [|d ls IH] using rev_ind; intros H; [by split|]. apply Forall_app in H as [H Hd]. apply Forall_cons_1 in Hd as [Hd _].
  destruct (IH H) as [H1 H2]. rewrite number_snoc, zlen_app. change (zlen [d]) with 1. pose proof (zlen_nonneg ls).
  replace (zlen ls + 1) with (Z.succ (zlen ls)) by lia. rewrite Z.pow_succ_r by done. split; [lia|].
  replace (Z.succ (zlen ls) - 1) with (zlen ls) by lia. destruct ls as [|c ls]; [cbn -[Z.mul Z.add]; change (zlen []) with 0; lia|]. intros Hl. specialize (H2 Hl).
  replace (zlen (c :: ls)) with (Z.succ (zlen (c :: ls) - 1)) by lia. rewrite Z.pow_succ_r; [lia|]. rewrite zlen_cons in *. pose proof (zlen_nonneg ls). lia.
Qed.

Section Generation.
Context (M delta dist q : Z).

(** The digits are those of a number [10^κ] times theirs, between the boundaries. *)
Definition within (ls : list Z) (κ : Z) : Prop :=
  is_digits ls ∧ leading ls ∧ (zlen ls ≤ 17 ∧ -16 ≤ κ ≤ 16) ∧
  (M - delta) * 10 ^ Z.max 0 (- κ) ≤ number ls * 10 ^ Z.max 0 κ * 2 ^ q ≤ M * 10 ^ Z.max 0 (- κ).

Record generating : Prop := {
  g_q : 32 ≤ q ≤ 60;
  g_M : M < 2 ^ 64;
  g_delta : 1 ≤ delta < 2 ^ 64;
  g_dist : 0 ≤ dist ≤ delta;
  g_long : M < 10 ^ 16 * delta
}.

(** There is room for another digit as long as too much is left. *)
Lemma at_most_17 n len left : generating → 0 ≤ n → 0 ≤ len → 10 ^ (len + n - 1) * 2 ^ q ≤ M → delta < left → left < 10 ^ n * 2 ^ q → len ≤ 16.
Proof.
  intros G Hn Hlen HM Hl Hlt. destruct (Z.leb_spec len 16) as [|Hbig]; [done|exfalso]. destruct G as [Hq _ _ _ Hlong].
  assert (10 ^ (n + 16) ≤ 10 ^ (len + n - 1)) by (apply Z.pow_le_mono_r; lia). rewrite Z.pow_add_r in * by lia.
  pose proof (Z.pow_pos_nonneg 2 q ltac:(lia) ltac:(lia)). pose proof (Z.pow_pos_nonneg 10 n ltac:(lia) ltac:(lia)).
  assert (10 ^ n * 10 ^ 16 * 2 ^ q ≤ M) by nia. nia.
Qed.

(** The last digit [d] has become [d'], [r] is left behind [d]. *)
Lemma within_integral n ls d d' r :
  is_digits ls → (ls ≠ [] → leading ls) → zlen ls ≤ 16 → 1 ≤ d' ≤ 9 → d' ≤ d → 0 ≤ n ≤ 16 → 0 ≤ r →
  M = (10 * number ls + d) * 10 ^ n * 2 ^ q + r → r + (d - d') * (10 ^ n * 2 ^ q) ≤ delta → 32 ≤ q → within (ls ++ [d']) n.
Proof.
  intros Hd Hl Hlen Hd' Hdd Hn Hr HM Hle Hq. split; [apply is_digits_snoc; [done|lia]|]. split; [apply leading_snoc; [lia|done]|].
  rewrite zlen_app, number_snoc, Z.max_l, Z.max_r by lia. change (zlen [d']) with 1. split; [lia|].
  rewrite <- Z.mul_assoc in HM |- *. assert (0 < 10 ^ n * 2 ^ q) by (apply Z.mul_pos_pos; apply Z.pow_pos_nonneg; lia).
  set (T := 10 ^ n * 2 ^ q) in *. clearbody T. change (10 ^ 0) with 1. nia.
Qed.

(** The state of the loop over the integral part. *)
Record integral_inv (k p2 : Z) (n : nat) (ls : list Z) (p1 pow10 : Z) (rest : list byte) : Prop := {
  i_digits : is_digits ls;
  i_first : ls = [] → 10 ^ (Z.of_nat n - 1) ≤ p1;
  i_leading : ls ≠ [] → leading ls;
  i_p1 : 0 ≤ p1 < 10 ^ Z.of_nat n;
  i_p2 : 0 ≤ p2 < 2 ^ q;
  i_value : M = number ls * 10 ^ Z.of_nat n * 2 ^ q + (p1 * 2 ^ q + p2);
  i_left : delta < p1 * 2 ^ q + p2;
  i_length : zlen ls + Z.of_nat n = k;
  i_k : 10 ^ (k - 1) * 2 ^ q ≤ M;
  i_room : 17 ≤ zlen ls + zlen rest;
  i_pow10 : (0 < n)%nat → pow10 = 10 ^ (Z.of_nat n - 1)
}.

(** Where it ends: in the middle of the integral part, or after it. *)
Definition integral_end (k p2 decimal_exponent room : Z) (pre : list byte) (r : Z * Z + Z) (buf : list byte) : Prop :=
  ∃ ls rest, buf = pre ++ map digit ls ++ rest ∧ zlen ls + zlen rest = room ∧
  match r with
  | inl (len, e) => ∃ κ, len = zlen ls ∧ e = decimal_exponent + κ ∧ within ls κ
  | inr len => len = zlen ls ∧ zlen ls = k ∧ is_digits ls ∧ leading ls ∧ M = number ls * 2 ^ q + p2 ∧ delta < p2
  end.

Lemma integral_digits_ok k p2 pre decimal_exponent n ls p1 pow10 rest :
  generating → integral_inv k p2 n ls p1 pow10 rest → 1 ≤ k ≤ 10 →
  ∃ r buf, integral_digits n (zlen pre) (zlen ls) decimal_exponent p1 p2 pow10 dist delta (- q) (pre ++ map digit ls ++ rest) = Ok (r, buf) ∧
    integral_end k p2 decimal_exponent (zlen ls + zlen rest) pre r buf.
Proof.
  intros G. revert ls p1 pow10 rest. induction n as [|n IH]; intros ls p1 pow10 rest I Hk; destruct I as [Hd Hfst Hld Hp1 Hp2 HM Hleft Hlen Hkk Hroom Hpow].
  - cbn [integral_digits]. do 2 eexists. split; [reflexivity|]. exists ls, rest. split; [done|]. split; [done|].
    change (Z.of_nat 0) with 0 in *. assert (p1 = 0) as -> by lia. split_and!; [done|lia|done| |lia|lia].
    apply Hld. intros ->. change (zlen []) with 0 in Hlen. lia.
  - cbn [integral_digits]. rewrite (Hpow ltac:(lia)). replace (Z.of_nat (S n) - 1) with (Z.of_nat n) in * by lia.
    rewrite Nat2Z.inj_succ, Z.pow_succ_r in * by lia. set (P := 10 ^ Z.of_nat n) in *. set (Q := 2 ^ q) in *.
    assert (HP : 0 < P) by (apply Z.pow_pos_nonneg; lia). assert (HQ : 0 < Q) by (apply Z.pow_pos_nonneg; destruct G; lia).
    pose proof (Z.div_mod p1 P ltac:(lia)) as Ed. pose proof (Z.mod_pos_bound p1 P HP) as Hr.
    set (d := p1 / P) in *. set (r := p1 mod P) in *. assert (Hd9 : 0 ≤ d ≤ 9) by nia.
    assert (Hl16 : zlen ls ≤ 16).
    { apply (at_most_17 (Z.succ (Z.of_nat n)) (zlen ls) (p1 * Q + p2)); [done|lia|apply zlen_nonneg| |done|].
      - by replace (zlen ls + Z.succ (Z.of_nat n) - 1) with (k - 1) by lia.
      - rewrite Z.pow_succ_r by lia. fold P Q. nia. }
    destruct rest as [|x rest]; [rewrite zlen_nil in Hroom; lia|].
    rewrite (bind_ok _ _ _ tt (pre ++ map digit ls ++ x :: rest)) by (apply assert_ok; lia). mgo (put_digit_end pre ls x rest d).
    rewrite Z.opp_involutive. destruct G as [Hq HM64 Hdelta Hdist Hlong]. pose proof (number_bounds ls Hd) as [Hnum _].
    assert (HMr : M = (10 * number ls + d) * P * Q + (r * Q + p2)) by (rewrite HM; rewrite Ed; ring).
    assert (Hrq : r * Q < 2 ^ 64 ∧ 0 ≤ r * Q) by nia.
    rewrite (bind_ok _ _ _ (r * Q) (pre ++ map digit (ls ++ [d]) ++ rest)) by (apply lift_ok, shl_small; lia).
    rewrite u64_small by (unfold in_u; nia).
    assert (Hlen' : zlen (ls ++ [d]) = zlen ls + 1) by (by rewrite zlen_app).
    destruct (Z.leb_spec (r * Q + p2) delta) as [Hstop|Hgo].
    + assert (HPM : P * Q ≤ M).
      { destruct ls as [|c ls]; [specialize (Hfst eq_refl); nia|]. specialize (Hld ltac:(done)).
        destruct (number_bounds (c :: ls) Hd) as [_ Hn]. specialize (Hn Hld).
        assert (0 < 10 ^ (zlen (c :: ls) - 1)) by (apply Z.pow_pos_nonneg; rewrite ?zlen_cons; pose proof (zlen_nonneg ls); lia). nia. }
      rewrite (bind_ok _ _ _ (P * Q) (pre ++ map digit (ls ++ [d]) ++ rest)) by (apply lift_ok, shl_small; lia).
      destruct (grisu2_round_ok pre ls d rest dist delta (r * Q + p2) (P * Q)) as (d' & E & Hd' & Hle); [nia..|].
      mgo E. do 2 eexists. split; [reflexivity|]. exists (ls ++ [d']), rest. split; [done|]. rewrite !zlen_app. change (zlen [d']) with 1.
      split; [rewrite zlen_cons; lia|].
      exists (Z.of_nat n). split; [done|]. split; [done|]. pose proof (zlen_nonneg ls). apply (within_integral _ ls d d' (r * Q + p2)); lia || done.
    + destruct (IH (ls ++ [d]) r (P / 10) rest) as (o & buf & E & He); [split|done|].
      * apply is_digits_snoc; [done|lia].
      * by destruct ls.
      * intros _. apply leading_snoc; [|done]. intros ->. specialize (Hfst eq_refl). nia.
      * done.
      * done.
      * rewrite number_snoc. fold P Q. lia.
      * done.
      * lia.
      * done.
      * rewrite zlen_cons in Hroom. lia.
      * intros Hn. unfold P. replace (Z.of_nat n) with (Z.succ (Z.of_nat n - 1)) at 1 by lia. rewrite Z.pow_succ_r, Z.mul_comm by lia. by apply Z.div_mul.
      * exists o, buf. rewrite Hlen' in E. split; [exact E|]. rewrite zlen_cons. by replace (zlen ls + (1 + zlen rest)) with (zlen (ls ++ [d]) + zlen rest) by lia.
Qed.
(** The state of the loop over the fractional part: all is scaled by [10^m]. *)
Record fractional_inv (k m : Z) (ls : list Z) (p2 : Z) (rest : list byte) : Prop := {
  f_digits : is_digits ls;
  f_leading : leading ls;
  f_m : 0 ≤ m;
  f_p2 : 0 ≤ p2 < 2 ^ q;
  f_value : M * 10 ^ m = number ls * 2 ^ q + p2;
  f_left : delta * 10 ^ m < p2;
  f_length : zlen ls = k + m;
  f_k : 10 ^ (k - 1) * 2 ^ q ≤ M;
  f_room : 17 ≤ zlen ls + zlen rest
}.

Lemma at_most_17_fractional k m ls p2 rest : generating → 1 ≤ k → fractional_inv k m ls p2 rest → k + m ≤ 16.
Proof.
  intros [Hq _ Hdelta _ Hlong] Hk [_ _ Hm Hp2 _ Hleft _ HM _]. destruct (Z.leb_spec (k + m) 16) as [|Hbig]; [done|exfalso].
  assert (10 ^ 16 ≤ 10 ^ m * 10 ^ (k - 1)) by (rewrite <- Z.pow_add_r by lia; apply Z.pow_le_mono_r; lia).
  pose proof (Z.pow_pos_nonneg 2 q ltac:(lia) ltac:(lia)). pose proof (Z.pow_pos_nonneg 10 m ltac:(lia) ltac:(lia)).
  set (A := 10 ^ m) in *. set (B := 10 ^ (k - 1)) in *. set (Q := 2 ^ q) in *. clearbody A B Q.
  assert (Ha : 10 ^ 16 * Q ≤ A * B * Q) by (apply Z.mul_le_mono_nonneg_r; lia).
  assert (Hb : A * (B * Q) ≤ A * M) by (apply Z.mul_le_mono_nonneg_l; lia).
  assert (Hc : A * M < A * (10 ^ 16 * delta)) by (apply Z.mul_lt_mono_pos_l; lia). lia.
Qed.

Lemma within_fractional m ls d d' r :
  is_digits ls → leading ls → zlen ls ≤ 16 → 1 ≤ d' ≤ 9 → d' ≤ d → 0 ≤ m ≤ 16 → 0 ≤ r →
  M * 10 ^ m = (10 * number ls + d) * 2 ^ q + r → r + (d - d') * 2 ^ q ≤ delta * 10 ^ m → 32 ≤ q → within (ls ++ [d']) (- m).
Proof.
  intros Hd Hl Hlen Hd' Hdd Hm Hr HM Hle Hq. split; [apply is_digits_snoc; [done|lia]|]. split; [apply leading_snoc; [lia|done]|].
  rewrite zlen_app, number_snoc, Z.opp_involutive, (Z.max_r 0 m), (Z.max_l 0 (- m)) by lia. change (zlen [d']) with 1. split; [lia|].
  assert (0 < 2 ^ q) by (apply Z.pow_pos_nonneg; lia). change (10 ^ 0) with 1.
  set (Q := 2 ^ q) in *. set (A := 10 ^ m) in *. clearbody Q A. nia.
Qed.

Lemma fractional_digits_ok k pre fuel m ls p2 rest :
  generating → 1 ≤ k → fractional_inv k m ls p2 rest → 20 ≤ m + Z.of_nat fuel →
  ∃ ls' m' rest', fractional_digits fuel (zlen pre) (zlen ls) m p2 (dist * 10 ^ m) (delta * 10 ^ m) (mkDiyfp (2 ^ q) (- q))
      (pre ++ map digit ls ++ rest) = Ok ((zlen ls', m'), pre ++ map digit ls' ++ rest') ∧
    zlen ls' + zlen rest' = zlen ls + zlen rest ∧ within ls' (- m').
Proof.
  intros G Hk. revert m ls p2 rest. induction fuel as [|fuel IH]; intros m ls p2 rest I Hfuel;
    pose proof (at_most_17_fractional k m ls p2 rest G Hk I) as H16; [lia|].
  destruct I as [Hd Hld Hm Hp2 HM Hleft Hlen Hkk Hroom]. pose proof G as [Hq HM64 Hdelta Hdist Hlong].
  assert (HQ : 0 < 2 ^ q ≤ 2 ^ 60) by (split; [apply Z.pow_pos_nonneg; lia|apply Z.pow_le_mono_r; lia]).
  destruct rest as [|x rest]; [rewrite zlen_nil in Hroom; lia|]. cbn [fractional_digits df de].
  rewrite (bind_ok _ _ _ tt (pre ++ map digit ls ++ x :: rest)) by (apply assert_ok, Z.leb_le; change ((2 ^ 64 - 1) / 10) with 1844674407370955161; lia).
  rewrite Z.opp_involutive, (u64_small (p2 * 10)) by (unfold in_u; lia).
  rewrite (bind_ok _ _ _ (p2 * 10 / 2 ^ q) (pre ++ map digit ls ++ x :: rest)) by (apply lift_ok, shr_div; lia).
  replace (Z.land (p2 * 10) (2 ^ q - 1)) with ((p2 * 10) mod 2 ^ q) by (rewrite <- Z.land_ones, Z.ones_equiv by lia; done).
  pose proof (Z.div_mod (p2 * 10) (2 ^ q) ltac:(lia)) as Ed. pose proof (Z.mod_pos_bound (p2 * 10) (2 ^ q) ltac:(lia)) as Hr.
  set (d := p2 * 10 / 2 ^ q) in *. set (r := (p2 * 10) mod 2 ^ q) in *. assert (Hd9 : 0 ≤ d ≤ 9) by nia.
  rewrite (bind_ok _ _ _ tt (pre ++ map digit ls ++ x :: rest)) by (apply assert_ok; lia). mgo (put_digit_end pre ls x rest d).
  assert (E10 : 10 ^ (m + 1) = 10 * 10 ^ m) by (rewrite Z.pow_add_r by lia; lia).
  assert (Hdm : 0 ≤ dist * 10 ^ m ≤ delta * 10 ^ m) by (pose proof (Z.pow_pos_nonneg 10 m); nia).
  replace (u64 (delta * 10 ^ m * 10)) with (delta * 10 ^ (m + 1)) by (rewrite u64_small by (unfold in_u; lia); lia).
  replace (u64 (dist * 10 ^ m * 10)) with (dist * 10 ^ (m + 1)) by (rewrite u64_small by (unfold in_u; lia); lia).
  assert (HMr : M * 10 ^ (m + 1) = (10 * number ls + d) * 2 ^ q + r) by lia.
  assert (Hlen' : zlen (ls ++ [d]) = zlen ls + 1) by (by rewrite zlen_app).
  destruct (Z.leb_spec r (delta * 10 ^ (m + 1))) as [Hstop|Hgo].
  - destruct (grisu2_round_ok pre ls d rest (dist * 10 ^ (m + 1)) (delta * 10 ^ (m + 1)) r (2 ^ q)) as (d' & E & Hd' & Hle); [lia..|].
    mgo E. exists (ls ++ [d']), (m + 1), rest. rewrite !zlen_app. change (zlen [d']) with 1. split; [done|]. split; [rewrite zlen_cons; lia|].
    by apply (within_fractional _ ls d d' r); lia || done.
  - destruct (IH (m + 1) (ls ++ [d]) r rest) as (ls' & m' & rest' & E & Hl & Hw); [split|lia|].
    + apply is_digits_snoc; [done|lia].
    + by apply leading_snoc; [intros ->|].
    + lia.
    + done.
    + by rewrite number_snoc.
    + done.
    + lia.
    + done.
    + rewrite zlen_cons in Hroom. lia.
    + exists ls', m', rest'. rewrite Hlen' in E, Hl. split; [exact E|]. split; [rewrite zlen_cons; lia|done].
Qed.
End Generation.

Lemma find_largest_pow10_ok n : 0 < n < 2 ^ 32 →
  ∃ k, find_largest_pow10 n = (k, 10 ^ (k - 1)) ∧ 1 ≤ k ≤ 10 ∧ 10 ^ (k - 1) ≤ n < 10 ^ k.
Proof.
  intros Hn. unfold find_largest_pow10.
  repeat match goal with |- context [?a <=? n] => destruct (Z.leb_spec a n) end;
    [exists 10|exists 9|exists 8|exists 7|exists 6|exists 5|exists 4|exists 3|exists 2|exists 1];
    (split; [reflexivity|]); (split; [lia|]); cbn -[Z.le Z.lt]; lia.
Qed.

Lemma sub_ok x y e : 0 ≤ y ≤ x → x < 2 ^ 64 → sub (mkDiyfp x e) (mkDiyfp y e) = Ok (mkDiyfp (x - y) e).
Proof.
  intros Hy Hx. unfold sub. cbn [df de]. rewrite Z.eqb_refl, (proj2 (Z.leb_le y x)) by lia. cbn.
  by rewrite u64_small by (unfold in_u; lia).
Qed.

Lemma digit_gen_ok Mm W Mp e pre decimal_exponent rest :
  kAlpha ≤ e ≤ kGamma → 0 < Mm < Mp → Mm ≤ W ≤ Mp → Mp < 2 ^ 64 → 2 ^ (- e) ≤ Mp → Mp < 10 ^ 16 * (Mp - Mm) → 17 ≤ zlen rest →
  ∃ ls κ rest', grisu2_digit_gen (zlen pre) 0 decimal_exponent (mkDiyfp Mm e) (mkDiyfp W e) (mkDiyfp Mp e) (pre ++ rest) =
      Ok ((zlen ls, decimal_exponent + κ), pre ++ map digit ls ++ rest') ∧
    zlen ls + zlen rest' = zlen rest ∧ within Mp (Mp - Mm) (- e) ls κ.
Proof.
  intros He Hm HW HM Hbig Hlong Hroom. unfold kAlpha, kGamma in He.
  assert (G : generating Mp (Mp - Mm) (Mp - W) (- e)) by (split; lia).
  assert (HQ : 0 < 2 ^ (- e) ≤ 2 ^ 60) by (split; [apply Z.pow_pos_nonneg; lia|apply Z.pow_le_mono_r; lia]).
  assert (HQ32 : 2 ^ 32 ≤ 2 ^ (- e)) by (apply Z.pow_le_mono_r; lia).
  unfold grisu2_digit_gen. cbn [df de].
  rewrite (bind_ok _ _ _ tt (pre ++ rest)) by (apply assert_ok, Z.leb_le; unfold kAlpha; lia).
  rewrite (bind_ok _ _ _ tt (pre ++ rest)) by (apply assert_ok, Z.leb_le; unfold kGamma; lia).
  rewrite (bind_ok _ _ _ (mkDiyfp (Mp - Mm) e) (pre ++ rest)) by (apply lift_ok, sub_ok; lia).
  rewrite (bind_ok _ _ _ (mkDiyfp (Mp - W) e) (pre ++ rest)) by (apply lift_ok, sub_ok; lia).
  rewrite (bind_ok _ _ _ (2 ^ (- e)) (pre ++ rest)) by (apply lift_ok; rewrite shl_small; [by rewrite Z.mul_1_l|lia..]). cbn [df de].
  rewrite (bind_ok _ _ _ (Mp / 2 ^ (- e)) (pre ++ rest)) by (apply lift_ok, shr_div; lia).
  replace (Z.land Mp (2 ^ (- e) - 1)) with (Mp mod 2 ^ (- e)) by (rewrite <- Z.land_ones, Z.ones_equiv by lia; done).
  pose proof (Z.div_mod Mp (2 ^ (- e)) ltac:(lia)) as Ed. pose proof (Z.mod_pos_bound Mp (2 ^ (- e)) ltac:(lia)) as Hr.
  set (p1 := Mp / 2 ^ (- e)) in *. set (p2 := Mp mod 2 ^ (- e)) in *.
  assert (Hp1 : 0 < p1 < 2 ^ 32) by nia. rewrite u32_small by (unfold in_u; lia).
  rewrite (bind_ok _ _ _ tt (pre ++ rest)) by (apply assert_ok; lia).
  destruct (find_largest_pow10_ok p1 Hp1) as (k & -> & Hk & Hpk). cbn [mret].
  assert (I : integral_inv Mp (Mp - Mm) (- e) k p2 (Z.to_nat k) [] p1 (10 ^ (k - 1)) rest).
  { split; rewrite ?Z2Nat.id by lia; change (zlen []) with 0; change (number []) with 0; try done; try lia; [constructor|].
    transitivity (p1 * 2 ^ (- e)); [apply Z.mul_le_mono_nonneg_r; lia|lia]. }
  destruct (integral_digits_ok Mp (Mp - Mm) (Mp - W) (- e) k p2 pre decimal_exponent _ _ _ _ _ G I) as (o & buf & E & ls & rest' & -> & Hl & H); [lia|].
  rewrite Z.opp_involutive in E. change (zlen []) with 0 in *. change (map digit [] ++ rest) with rest in E. mgo E.
  destruct o as [[len e']|len].
  - destruct H as (κ & -> & -> & Hw). exists ls, κ, rest'. split; [done|]. split; [lia|done].
  - destruct H as (-> & Hk' & Hd & Hld & HMv & Hleft).
    rewrite (bind_ok _ _ _ tt (pre ++ map digit ls ++ rest')) by (apply assert_ok; lia).
    destruct (fractional_digits_ok Mp (Mp - Mm) (Mp - W) (- e) k pre 20 0 ls p2 rest' G) as (ls' & m' & rest2 & E2 & Hl2 & Hw); [lia| |lia|].
    { split; rewrite ?Z.pow_0_r, ?Z.mul_1_r; try done; try lia. destruct I. done. }
    rewrite Z.pow_0_r, !Z.mul_1_r, Z.opp_involutive in E2. mgo E2. exists ls', (- m'), rest2. split; [done|]. split; [lia|done].
Qed.

(** ** The digits of a number *)

(** What the cached power makes of the boundaries, as integers. *)
Lemma scaled_boundaries c m e : canonical m e → cached_ok c = true →
  let y x := df (mul (mkDiyfp (x * 2 ^ scale m) 0) (mkDiyfp (cf c) (ce c))) in
  let Mm := y (lower m e) + 1 in let W := y (4 * Z.pos m) in let Mp := y (upper m) - 1 in
  0 < Mm < Mp ∧ Mm ≤ W ≤ Mp ∧ Mp < 2 ^ 64 - 1 ∧ 2 ^ 60 ≤ Mp ∧ Mp < 10 ^ 16 * (Mp - Mm) ∧
  in_u 64 (lower m e * 2 ^ scale m) ∧ in_u 64 (4 * Z.pos m * 2 ^ scale m) ∧ in_u 64 (upper m * 2 ^ scale m).
Proof.
  intros Hc Hp. destruct (power_of_close c Hp) as (Hf & Hf63 & _). destruct (scale_ok m e Hc) as (Hs & Hlo & Hup & Hcl & _).
  assert (HS : 2 ^ 9 ≤ 2 ^ scale m) by (apply Z.pow_le_mono_r; lia).
  assert (Hm : Z.pos m < 2 ^ 53) by (destruct (canonical_cases m e Hc); lia).
  assert (Hlow : 2 * Z.pos m ≤ lower m e ≤ 4 * Z.pos m - 1 ∧ (closer m e = true → Z.pos m = 2 ^ 52 ∧ lower m e = 4 * Z.pos m - 1) ∧
    (closer m e = false → lower m e = 4 * Z.pos m - 2)).
  { unfold lower, closer. destruct ((Z.pos m =? 2 ^ 52) && (-1074 <? e)) eqn:E; lia. }
  destruct Hlow as (Hlow & Hlc & Hlnc). assert (Hu : upper m = 4 * Z.pos m + 2) by done.
  destruct Hf as [_ Hf64]. set (S := 2 ^ scale m) in *. set (f := cf c) in *. set (l := lower m e) in *. set (u := upper m) in *.
  assert (Hin : in_u 64 (l * S) ∧ in_u 64 (4 * Z.pos m * S) ∧ in_u 64 (u * S)) by (unfold in_u; nia).
  destruct Hin as (Hil & Hiw & Hiu). cbv zeta.
  destruct (mul_rounds (mkDiyfp (l * S) 0) (mkDiyfp f (ce c)) Hil) as [-> _]; [cbn; unfold in_u; lia|].
  destruct (mul_rounds (mkDiyfp (4 * Z.pos m * S) 0) (mkDiyfp f (ce c)) Hiw) as [-> _]; [cbn; unfold in_u; lia|].
  destruct (mul_rounds (mkDiyfp (u * S) 0) (mkDiyfp f (ce c)) Hiu) as [-> _]; [cbn; unfold in_u; lia|]. cbn [df].
  rewrite <- !(Z.mul_assoc _ S f). set (G := S * f) in *.
  assert (HG : 2 ^ 72 ≤ G) by (unfold G; nia).
  assert (HwG : 2 ^ 126 ≤ 4 * Z.pos m * G) by (unfold G; rewrite Z.mul_assoc; nia).
  assert (HuG : u * G < 2 ^ 128 - 2 ^ 65) by (unfold G; rewrite Z.mul_assoc; destruct Hiu; nia).
  pose proof (Z.div_mod (l * G + 2 ^ 63) (2 ^ 64) ltac:(lia)) as Dl. pose proof (Z.mod_pos_bound (l * G + 2 ^ 63) (2 ^ 64) ltac:(lia)) as Bl.
  pose proof (Z.div_mod (4 * Z.pos m * G + 2 ^ 63) (2 ^ 64) ltac:(lia)) as Dw. pose proof (Z.mod_pos_bound (4 * Z.pos m * G + 2 ^ 63) (2 ^ 64) ltac:(lia)) as Bw.
  pose proof (Z.div_mod (u * G + 2 ^ 63) (2 ^ 64) ltac:(lia)) as Du. pose proof (Z.mod_pos_bound (u * G + 2 ^ 63) (2 ^ 64) ltac:(lia)) as Bu.
  set (yl := (l * G + 2 ^ 63) / 2 ^ 64) in *. set (yw := (4 * Z.pos m * G + 2 ^ 63) / 2 ^ 64) in *. set (yu := (u * G + 2 ^ 63) / 2 ^ 64) in *.
  assert (Hl1 : 2 * Z.pos m * G ≤ l * G ≤ (4 * Z.pos m - 1) * G) by (split; apply Z.mul_le_mono_nonneg_r; lia).
  assert (Euw : u * G = 4 * Z.pos m * G + 2 * G) by (rewrite Hu; ring).
  assert (HmG : Z.pos m * G ≤ (2 ^ 53 - 1) * G) by (apply Z.mul_le_mono_nonneg_r; lia).
  split_and!; try done; try lia. destruct (closer m e).
  - destruct (Hlc eq_refl) as [Em El]. assert (l * G = 4 * Z.pos m * G - G) by (rewrite El; ring).
    assert (Z.pos m * G = 2 ^ 52 * G) by (by rewrite Em). lia.
  - specialize (Hlnc eq_refl). assert (l * G = 4 * Z.pos m * G - 2 * G) by (rewrite Hlnc; ring). lia.
Qed.

(** Between the scaled boundaries means between the boundaries. *)
Lemma within_rounds_to c m e Mm Mp ls κ :
  let q := - (e - 2 - scale m + ce c + 64) in
  (scaled c (lower m e * 2 ^ scale m) < IZR Mm)%R → (IZR Mp < scaled c (upper m * 2 ^ scale m))%R → 0 ≤ q → 0 ≤ scale m →
  within Mp (Mp - Mm) q ls κ → rounds_to m e (decimal (number ls) (κ - ck c)).
Proof.
  intros q Hlo Hup Hq Hs (_ & _ & _ & Hv). replace (Mp - (Mp - Mm)) with Mm in Hv by lia.
  destruct Hv as [Hv1%IZR_le Hv2%IZR_le]. rewrite !mult_IZR in Hv1, Hv2. rewrite <- !pow10_IZR, <- bp_IZR in Hv1, Hv2 by lia.
  set (N := IZR (number ls)) in *. set (a := powerRZ 10 (Z.max 0 (- κ))) in *. set (b := powerRZ 10 (Z.max 0 κ)) in *.
  assert (Ha : (0 < a)%R) by (apply powerRZ_lt; lra).
  assert (Ek : (b = powerRZ 10 κ * a)%R).
  { unfold a, b. rewrite <- powerRZ_add by lra. f_equal. lia. }
  assert (Hv : (IZR Mm <= N * powerRZ 10 κ * bp q <= IZR Mp)%R).
  { rewrite Ek in Hv1, Hv2. split; apply (Rmult_le_reg_r a); try done; lra. }
  unfold rounds_to, decimal. fold N. set (t := (powerRZ 10 (ck c) * bp (- ce c) * bp (-64))%R) in *.
  assert (Et : ∀ x, (scaled c (x * 2 ^ scale m) = IZR x * bp (e - 2) * powerRZ 10 (ck c) * bp q)%R).
  { intros x. unfold scaled, power_of. rewrite mult_IZR, <- bp_IZR by done. replace (e - 2) with (scale m + (- ce c + (- 64 + - q))) by (unfold q; lia).
    rewrite !bp_add. pose proof (bp_neg q). replace (IZR x * (bp (scale m) * (bp (- ce c) * (bp (-64) * bp (- q)))) * powerRZ 10 (ck c) * bp q)%R
      with (IZR x * bp (scale m) * (powerRZ 10 (ck c) * bp (- ce c)) * bp (-64) * (bp (- q) * bp q))%R by ring. rewrite H. ring. }
  rewrite Et in Hlo, Hup. pose proof (bp_pos q) as Hbq. assert (Hck : (0 < powerRZ 10 (ck c))%R) by (apply powerRZ_lt; lra).
  assert (Ed : (N * powerRZ 10 κ = N * powerRZ 10 (κ - ck c) * powerRZ 10 (ck c))%R).
  { rewrite Rmult_assoc, <- powerRZ_add by lra. do 2 f_equal. lia. }
  rewrite Ed in Hv. set (v := (N * powerRZ 10 (κ - ck c))%R) in *.
  assert (Hpq : (0 < powerRZ 10 (ck c) * bp q)%R) by (by apply Rmult_lt_0_compat).
  split; apply (Rmult_lt_reg_r (powerRZ 10 (ck c) * bp q)); try done; lra.
Qed.

(** [grisu2] writes at most 17 digits, the first not zero, of a decimal number that
    rounds to the number printed. *)
Lemma grisu2_ok m e pre rest : canonical m e → 17 ≤ zlen rest →
  ∃ ls D rest', grisu2 (zlen pre) 0 (bits_of (Z.pos m) e) (pre ++ rest) = Ok ((zlen ls, D), pre ++ map digit ls ++ rest') ∧
    zlen ls + zlen rest' = zlen rest ∧ is_digits ls ∧ leading ls ∧ zlen ls ≤ 17 ∧ -400 ≤ D ≤ 400 ∧
    rounds_to m e (decimal (number ls) D).
Proof.
  intros Hc Hroom. unfold grisu2. rewrite (bind_ok _ _ _ _ (pre ++ rest) (lift_ok _ _ _ (compute_boundaries_ok m e Hc))).
  destruct (scale_ok m e Hc) as (Hs & _ & _ & _ & Hrange). cbn [bminus bplus bw]. unfold grisu2_scaled. cbn [de].
  do 2 rewrite (bind_ok _ _ _ tt (pre ++ rest)) by (apply assert_ok, Z.eqb_refl).
  destruct (cached_power_ok _ Hrange) as (c & Ec & Hce & Hcok). rewrite (bind_ok _ _ _ c (pre ++ rest)) by (by apply lift_ok).
  destruct (scaled_boundaries c m e Hc Hcok) as (H1 & H2 & H3 & H4 & H5 & H6 & H7 & H8).
  set (ε := e - 2 - scale m) in *.
  assert (Em : ∀ x, mul (mkDiyfp x ε) (mkDiyfp (cf c) (ce c)) = mkDiyfp (df (mul (mkDiyfp x 0) (mkDiyfp (cf c) (ce c)))) (ε + ce c + 64)) by done.
  rewrite !Em. cbn [df de]. pose proof (mul_close c _ Hcok H6) as [_ C1]. pose proof (mul_close c _ Hcok H8) as [C2 _].
  set (yl := df (mul (mkDiyfp (lower m e * 2 ^ scale m) 0) (mkDiyfp (cf c) (ce c)))) in *.
  set (yw := df (mul (mkDiyfp (4 * Z.pos m * 2 ^ scale m) 0) (mkDiyfp (cf c) (ce c)))) in *.
  set (yu := df (mul (mkDiyfp (upper m * 2 ^ scale m) 0) (mkDiyfp (cf c) (ce c)))) in *.
  rewrite (u64_small (yl + 1)), (u64_small (yu - 1)) by (unfold in_u; lia).
  unfold kAlpha, kGamma in Hce. replace (ce c + ε + 64) with (ε + ce c + 64) in Hce by lia.
  assert (Hq : 2 ^ (- (ε + ce c + 64)) ≤ 2 ^ 60) by (apply Z.pow_le_mono_r; lia).
  destruct (digit_gen_ok (yl + 1) yw (yu - 1) (ε + ce c + 64) pre (- ck c) rest) as (ls & κ & rest' & E & Hl & Hw);
    [done|lia|lia|lia|lia|lia|done|].
  exists ls, (- ck c + κ), rest'. split; [exact E|]. split; [done|]. pose proof Hw as (Hd & Hld & [Hlen Hκ] & _).
  assert (Hck : -300 ≤ ck c ≤ 324) by (unfold cached_ok in Hcok; lia).
  split_and!; try done; [lia..|]. replace (- ck c + κ) with (κ - ck c) by lia.
  apply (within_rounds_to c m e (yl + 1) (yu - 1)); [| |lia|lia|done].
  - by rewrite plus_IZR.
  - by rewrite minus_IZR.
Qed.
