(* ===== verification/GrisuText.v ===== *)
(** * The text [to_chars] writes

    Every finite number is written as a JSON number, with a fraction or an exponent,
    into an array of 64 characters whatever it held before; reading the text back
    gives the number written, bit for bit. *)

From Stdlib Require Import ZArith Lia Strings.Byte Reals Lra SpecFloat.
From stdpp Require Import base list numbers.
From S2P Require Import Prelude.
From S2P Require Import Field.
From S2P Require Import JsonLexer.
From S2P Require Import JsonNumbers.
From S2P Require Import Rounding.
From S2P Require Import Grisu.
From S2P Require Import GrisuDigits.

#[local] Open Scope Z_scope.

(** Lengths of concatenations. *)
Ltac lens := repeat first [rewrite zlen_app | rewrite zlen_map | rewrite zlen_cons]; try change (zlen (@nil byte)) with 0;
  try change (zlen (@nil Z)) with 0; lia.

(** ** Writing after a prefix *)

Lemma put_fresh i pre ys rest : i = zlen pre → zlen ys ≤ zlen rest →
  ∃ rest', put_at i ys (pre ++ rest) = Ok (tt, (pre ++ ys) ++ rest') ∧ zlen rest' = zlen rest - zlen ys.
Proof.
  intros -> H. pose proof (zlen_nonneg ys). destruct (zsplit (zlen ys) rest) as (xs & rest' & -> & Hx); [lia|].
  exists rest'. unfold put_at. rewrite vwrite_app by done. rewrite <- app_assoc. split; [done|]. rewrite zlen_app. lia.
Qed.

Lemma put_over i pre xs ys rest : i = zlen pre → zlen xs = zlen ys → put_at i ys (pre ++ xs ++ rest) = Ok (tt, (pre ++ ys) ++ rest).
Proof. intros -> H. unfold put_at. by rewrite vwrite_app, <- app_assoc. Qed.

Lemma memset_fresh i pre c n rest : i = zlen pre → 0 ≤ n ≤ zlen rest →
  ∃ rest', memset i c n (pre ++ rest) = Ok (tt, (pre ++ zreplicate n c) ++ rest') ∧ zlen rest' = zlen rest - n.
Proof. intros Hi Hn. unfold memset. destruct (put_fresh i pre (zreplicate n c) rest Hi) as (r & E & H); rewrite zlen_replicate in * by lia; [lia|by exists r]. Qed.

Lemma put_two {B} i p a b r (k : C B) : i = zlen p → 2 ≤ zlen r →
  ∃ r', (put_at i [a];; put_at (i + 1) [b];; k) (p ++ r) = k ((p ++ [a; b]) ++ r') ∧ zlen r' = zlen r - 2.
Proof.
  intros -> Hr. destruct (put_fresh (zlen p) p [a] r) as (r1 & E1 & H1); [done|change (zlen [a]) with 1; lia|]. change (zlen [a]) with 1 in H1.
  destruct (put_fresh (zlen p + 1) (p ++ [a]) [b] r1) as (r2 & E2 & H2); [by rewrite zlen_app|change (zlen [b]) with 1; lia|].
  change (zlen [b]) with 1 in H2. exists r2. mgo E1. mgo E2. rewrite <- (app_assoc p [a] [b]). split; [done|lia].
Qed.

(** Moving [xs], which follows [pre], [d] characters up. *)
Lemma memmove_up dst src n pre xs gap rest : src = zlen pre → n = zlen xs → dst = src + zlen gap → zlen gap ≤ zlen rest →
  (∃ tail, xs ++ rest = gap ++ tail) →
  ∃ rest', memmove dst src n (pre ++ xs ++ rest) = Ok (tt, pre ++ gap ++ xs ++ rest') ∧ zlen rest' = zlen rest - zlen gap.
Proof.
  intros -> -> -> Hg [tail Et]. unfold memmove.
  rewrite (bind_ok _ _ _ xs (pre ++ xs ++ rest)) by (unfold get_at; by rewrite vread_app).
  rewrite Et, app_assoc. destruct (put_fresh (zlen pre + zlen gap) (pre ++ gap) xs tail) as (r & E & H).
  - by rewrite zlen_app.
  - apply (f_equal zlen) in Et. rewrite !zlen_app in Et. lia.
  - exists r. rewrite E, <- !app_assoc. split; [done|]. apply (f_equal zlen) in Et. rewrite !zlen_app in Et. lia.
Qed.

(** ** The exponent *)

Definition exponent_digits (k : Z) : list Z :=
  if k <? 10 then [0; k] else if k <? 100 then [k / 10; k mod 10] else [k / 100; k mod 100 / 10; k mod 100 mod 10].

Definition exponent_sign (e : Z) : byte := if e <? 0 then hyphen else Zbyte 43.

Lemma exponent_digits_ok k : 0 ≤ k < 1000 →
  is_digits (exponent_digits k) ∧ Field.number (exponent_digits k) = k ∧ exponent_digits k ≠ [] ∧ zlen (exponent_digits k) ≤ 3.
Proof.
  intros Hk. unfold exponent_digits. destruct (Z.ltb_spec k 10); [|destruct (Z.ltb_spec k 100)].
  - split_and!; [repeat constructor; lia|unfold Field.number; cbn; lia|done|done].
  - pose proof (Z.div_mod k 10 ltac:(lia)). pose proof (Z.mod_pos_bound k 10 ltac:(lia)).
    split_and!; [repeat constructor; lia|unfold Field.number; cbn -[Z.div Z.modulo Z.mul Z.add]; lia|done|done].
  - pose proof (Z.div_mod k 100 ltac:(lia)). pose proof (Z.mod_pos_bound k 100 ltac:(lia)).
    pose proof (Z.div_mod (k mod 100) 10 ltac:(lia)). pose proof (Z.mod_pos_bound (k mod 100) 10 ltac:(lia)).
    split_and!; [repeat constructor; lia|unfold Field.number; cbn -[Z.div Z.modulo Z.mul Z.add]; lia|done|done].
Qed.

Lemma append_exponent_ok buf pre e rest : buf = zlen pre → -1000 < e < 1000 → 4 ≤ zlen rest →
  ∃ rest', let txt := pre ++ exponent_sign e :: map digit (exponent_digits (Z.abs e)) in
    append_exponent buf e (pre ++ rest) = Ok (zlen txt, txt ++ rest') ∧ zlen txt + zlen rest' = zlen pre + zlen rest.
Proof.
  intros -> He Hr. unfold append_exponent.
  do 2 rewrite (bind_ok _ _ _ tt (pre ++ rest)) by (apply assert_ok; lia).
  replace (Zbyte (if e <? 0 then 45 else 43)) with (exponent_sign e) by (unfold exponent_sign; by destruct (e <? 0)).
  destruct (put_fresh (zlen pre) pre [exponent_sign e] rest) as (r1 & E1 & H1); [done|change (zlen [exponent_sign e]) with 1; lia|]. mgo E1.
  change (zlen [exponent_sign e]) with 1 in H1.
  replace (if e <? 0 then - e else e) with (Z.abs e) by (destruct (Z.ltb_spec e 0); lia). rewrite u32_small by (unfold in_u; lia).
  unfold exponent_digits. set (k := Z.abs e) in *. set (p1 := pre ++ [exponent_sign e]) in *.
  assert (Hp1 : zlen p1 = zlen pre + 1) by (unfold p1; by rewrite zlen_app).
  assert (Hsn : ∀ l : list byte, (pre ++ [exponent_sign e]) ++ l = pre ++ exponent_sign e :: l) by (intros l; by rewrite <- app_assoc).
  destruct (k <? 10); [|destruct (k <? 100)]; cbn [map].
  - destruct (put_two (zlen pre + 1) p1 (digit 0) (digit k) r1 (mret (zlen pre + 1 + 2))) as (r2 & -> & H2); [lia|lia|].
    exists r2. unfold p1. rewrite Hsn. rewrite !zlen_app, !zlen_cons; change (zlen (@nil byte)) with 0. split; [unfold mret, M_ret; do 2 f_equal; lia|lia].
  - destruct (put_two (zlen pre + 1) p1 (digit (k / 10)) (digit (k mod 10)) r1 (mret (zlen pre + 1 + 2))) as (r2 & -> & H2); [lia|lia|].
    exists r2. unfold p1. rewrite Hsn. rewrite !zlen_app, !zlen_cons; change (zlen (@nil byte)) with 0. split; [unfold mret, M_ret; do 2 f_equal; lia|lia].
  - destruct (put_two (zlen pre + 1) p1 (digit (k / 100)) (digit (k mod 100 / 10)) r1
      (put_at (zlen pre + 1 + 2) [digit (k mod 100 mod 10)];; mret (zlen pre + 1 + 3))) as (r2 & -> & H2); [lia|lia|].
    set (p2 := p1 ++ _). destruct (put_fresh (zlen pre + 1 + 2) p2 [digit (k mod 100 mod 10)] r2) as (r3 & E3 & H3).
    + unfold p2. rewrite zlen_app, !zlen_cons; change (zlen (@nil byte)) with 0; lia.
    + change (zlen [digit (k mod 100 mod 10)]) with 1. lia.
    + change (zlen [digit (k mod 100 mod 10)]) with 1 in H3. mgo E3. exists r3. unfold p2, p1. rewrite <- (app_assoc _ _ [digit _]), Hsn. cbn [app].
      rewrite !zlen_app, !zlen_cons; change (zlen (@nil byte)) with 0. split; [unfold mret, M_ret; do 2 f_equal; lia|lia].
Qed.

(** ** The number a list of digits and an exponent are formatted as *)

Definition zeros (n : Z) : list Z := zreplicate n 0.

Definition decimal_number (neg : bool) (ls : list Z) (D : Z) : JsonNumbers.number :=
  let k := zlen ls in
  let n := k + D in
  if (k <=? n) && (n <=? 15) then mkNumber neg (map digit (ls ++ zeros (n - k))) (map digit [0]) None
  else if (0 <? n) && (n <=? 15) then mkNumber neg (map digit (ztake n ls)) (map digit (zdrop n ls)) None
  else if (-4 <? n) && (n <=? 0) then mkNumber neg (map digit [0]) (map digit (zeros (- n) ++ ls)) None
  else mkNumber neg (map digit (ztake 1 ls)) (map digit (zdrop 1 ls))
    (Some (Zbyte 101, [exponent_sign (n - 1)], map digit (exponent_digits (Z.abs (n - 1))))).

Lemma map_zeros n : map digit (zeros n) = zreplicate n (digit 0).
Proof. unfold zeros, zreplicate. apply fmap_replicate. Qed.

(** The text after [pre] in an array of which all else is left alone in length. *)
Definition formatted (pre txt rest : list byte) (m : C Z) (buf : list byte) : Prop :=
  ∃ rest', m buf = Ok (zlen (pre ++ txt), (pre ++ txt) ++ rest') ∧ zlen (pre ++ txt) + zlen rest' = zlen buf.

(** digits[000].0 *)
Lemma format_integral pre ls n rest : zlen ls ≤ n → n - zlen ls + 2 ≤ zlen rest →
  formatted pre (map digit (ls ++ zeros (n - zlen ls)) ++ [point; digit 0]) rest
    (memset (zlen pre + zlen ls) (digit 0) (n - zlen ls);; put_at (zlen pre + n) [point];; put_at (zlen pre + n + 1) [digit 0];;
     mret (zlen pre + (n + 2))) (pre ++ map digit ls ++ rest).
Proof.
  intros Hn Hr. rewrite (app_assoc pre). destruct (memset_fresh (zlen pre + zlen ls) (pre ++ map digit ls) (digit 0) (n - zlen ls) rest) as (r1 & E1 & H1);
    [by rewrite zlen_app, zlen_map|pose proof (zlen_nonneg ls); lia|].
  destruct (put_two (zlen pre + n) ((pre ++ map digit ls) ++ zreplicate (n - zlen ls) (digit 0)) point (digit 0) r1 (mret (zlen pre + (n + 2))))
    as (r2 & E2 & H2); [rewrite !zlen_app, zlen_map, zlen_replicate by lia; lia|lia|].
  assert (Et : ((pre ++ map digit ls) ++ zreplicate (n - zlen ls) (digit 0)) ++ [point; digit 0] =
    pre ++ map digit (ls ++ zeros (n - zlen ls)) ++ [point; digit 0]) by (rewrite map_app, map_zeros, <- !app_assoc; done).
  assert (El : zlen (pre ++ map digit (ls ++ zeros (n - zlen ls)) ++ [point; digit 0]) = zlen pre + (n + 2)).
  { rewrite <- Et, !zlen_app, zlen_map, zlen_replicate by lia. change (zlen [point; digit 0]) with 2. lia. }
  exists r2. rewrite El. split; [|rewrite !zlen_app, zlen_map; lia].
  mgo E1. rewrite E2, Et. done.
Qed.

(** dig.its *)
Lemma format_fixed pre ls n rest : 0 < n < zlen ls → 1 ≤ zlen rest →
  formatted pre (map digit (ztake n ls) ++ point :: map digit (zdrop n ls)) rest
    (memmove (zlen pre + (n + 1)) (zlen pre + n) (zlen ls - n);; put_at (zlen pre + n) [point];; mret (zlen pre + (zlen ls + 1)))
    (pre ++ map digit ls ++ rest).
Proof.
  intros Hn Hr. destruct (zsplit n ls) as (a & b & -> & Ha); [lia|]. rewrite <- Ha in *. rewrite ztake_app, zdrop_app. rewrite zlen_app in *.
  destruct b as [|x b]; [change (zlen []) with 0 in Hn; lia|].
  rewrite map_app, <- app_assoc, (app_assoc pre).
  destruct (memmove_up (zlen pre + (zlen a + 1)) (zlen pre + zlen a) (zlen a + zlen (x :: b) - zlen a) (pre ++ map digit a) (map digit (x :: b))
    [digit x] rest) as (r1 & E1 & H1);
    [by rewrite zlen_app, zlen_map|rewrite zlen_map; lia|change (zlen [digit x]) with 1; lia|done|by exists (map digit b ++ rest)|].
  change (zlen [digit x]) with 1 in H1.
  assert (E2 := put_over (zlen pre + zlen a) (pre ++ map digit a) [digit x] [point] (map digit (x :: b) ++ r1)).
  rewrite zlen_app, zlen_map in E2. specialize (E2 eq_refl eq_refl).
  assert (Et : (((pre ++ map digit a) ++ [point]) ++ map digit (x :: b) ++ r1) = (pre ++ map digit a ++ point :: map digit (x :: b)) ++ r1)
    by (by rewrite <- !app_assoc).
  exists r1. mgo E1. mgo E2. rewrite Et. split; [|].
  - unfold mret, M_ret. do 2 f_equal. lens.
  - lens.
Qed.

(** 0.[000]digits *)
Lemma format_small pre ls n rest : n <= 0 → ls ≠ [] → 2 - n ≤ zlen rest →
  formatted pre (digit 0 :: point :: map digit (zeros (- n) ++ ls)) rest
    (memmove (zlen pre + (2 + - n)) (zlen pre) (zlen ls);; put_at (zlen pre) [digit 0];; put_at (zlen pre + 1) [point];;
     memset (zlen pre + 2) (digit 0) (- n);; mret (zlen pre + (2 + - n + zlen ls)))
    (pre ++ map digit ls ++ rest).
Proof.
  intros Hn Hls Hr. pose proof (zlen_nonneg ls). destruct (zsplit (2 - n) (map digit ls ++ rest)) as (gap & tail & Eg & Hg); [rewrite zlen_app, zlen_map; lia|].
  destruct (memmove_up (zlen pre + (2 + - n)) (zlen pre) (zlen ls) pre (map digit ls) gap rest) as (r1 & E1 & H1);
    [done|by rewrite zlen_map|lia|lia|by exists tail|].
  destruct gap as [|g0 [|g1 gap]]; [change (zlen []) with 0 in Hg; lia|change (zlen [g0]) with 1 in Hg; lia|].
  rewrite !zlen_cons in *.
  assert (E2 := put_over (zlen pre) pre [g0] [digit 0] (g1 :: gap ++ map digit ls ++ r1) eq_refl eq_refl).
  assert (E3 := put_over (zlen pre + 1) (pre ++ [digit 0]) [g1] [point] (gap ++ map digit ls ++ r1) ltac:(by rewrite zlen_app) eq_refl).
  assert (E4 : memset (zlen pre + 2) (digit 0) (- n) (((pre ++ [digit 0]) ++ [point]) ++ gap ++ map digit ls ++ r1) =
    Ok (tt, (((pre ++ [digit 0]) ++ [point]) ++ zreplicate (- n) (digit 0)) ++ map digit ls ++ r1)).
  { apply put_over; [lens|]. rewrite zlen_replicate by lia. lia. }
  assert (Et : (((pre ++ [digit 0]) ++ [point]) ++ zreplicate (- n) (digit 0)) ++ map digit ls ++ r1 =
    (pre ++ digit 0 :: point :: map digit (zeros (- n) ++ ls)) ++ r1) by (rewrite map_app, map_zeros, <- !app_assoc; cbn [app]; by rewrite <- !app_assoc).
  exists r1. mgo E1. mgo E2. mgo E3. mgo E4. rewrite Et.
  assert (El : zlen (zeros (- n) ++ ls) = - n + zlen ls) by (unfold zeros; rewrite zlen_app, zlen_replicate; lia).
  split; [unfold mret, M_ret; do 2 f_equal|]; rewrite !zlen_app, !zlen_cons, !zlen_map, El; lia.
Qed.

(** dE+123 and d.igitsE+123 *)
Lemma format_exponential pre ls e rest : ls ≠ [] → -1000 < e < 1000 → 7 ≤ zlen rest →
  formatted pre (map digit (ztake 1 ls) ++ frac_text (map digit (zdrop 1 ls)) ++ Zbyte 101 :: exponent_sign e :: map digit (exponent_digits (Z.abs e)))
    rest
    (buf ← (if zlen ls =? 1 then mret (zlen pre + 1)
            else memmove (zlen pre + 2) (zlen pre + 1) (zlen ls - 1);; put_at (zlen pre + 1) [point];; mret (zlen pre + (1 + zlen ls)));
     put_at buf [Zbyte 101];; append_exponent (buf + 1) e)
    (pre ++ map digit ls ++ rest).
Proof.
  intros Hls He Hr. destruct ls as [|d ls]; [done|]. change (ztake 1 (d :: ls)) with [d]. change (zdrop 1 (d :: ls)) with ls.
  set (head := pre ++ digit d :: frac_text (map digit ls)).
  assert (H : ∃ rest', (if zlen (d :: ls) =? 1 then mret (zlen pre + 1)
            else memmove (zlen pre + 2) (zlen pre + 1) (zlen (d :: ls) - 1);; put_at (zlen pre + 1) [point];; mret (zlen pre + (1 + zlen (d :: ls))))
      (pre ++ map digit (d :: ls) ++ rest) = Ok (zlen head, head ++ rest') ∧ zlen head + zlen rest' = zlen pre + 1 + zlen ls + zlen rest ∧
      zlen rest - 1 ≤ zlen rest').
  { unfold head. destruct ls as [|c ls].
    - exists rest. change (zlen [d] =? 1) with true. cbn [map frac_text]. split; [by rewrite <- app_assoc, zlen_app|]. split; [lens|lia].
    - pose proof (zlen_nonneg ls). rewrite (proj2 (Z.eqb_neq _ 1)) by lens.
      destruct (memmove_up (zlen pre + 2) (zlen pre + 1) (zlen (d :: c :: ls) - 1) (pre ++ [digit d]) (map digit (c :: ls)) [digit c] rest) as (r1 & E1 & H1);
        [by rewrite zlen_app|lens|change (zlen [digit c]) with 1; lia|change (zlen [digit c]) with 1; lia|by exists (map digit ls ++ rest)|].
      change (zlen [digit c]) with 1 in H1. rewrite <- app_assoc in E1.
      assert (E2 := put_over (zlen pre + 1) (pre ++ [digit d]) [digit c] [point] (map digit (c :: ls) ++ r1) ltac:(by rewrite zlen_app) eq_refl).
      exists r1. change (pre ++ map digit (d :: c :: ls) ++ rest) with (pre ++ [digit d] ++ map digit (c :: ls) ++ rest). mgo E1.
      mgo E2. unfold mret, M_ret. cbn [frac_text map]. split.
      + rewrite <- !app_assoc. do 2 f_equal. lens.
      + split; lens. }
  destruct H as (r1 & E1 & H1 & H2). unfold formatted. rewrite (bind_ok _ _ _ _ _ E1).
  destruct (put_fresh (zlen head) head [Zbyte 101] r1) as (r2 & E2 & H3); [done|change (zlen [Zbyte 101]) with 1; lia|]. mgo E2.
  change (zlen [Zbyte 101]) with 1 in H3.
  destruct (append_exponent_ok (zlen head + 1) (head ++ [Zbyte 101]) e r2) as (r3 & E3 & H4); [by rewrite zlen_app|done|lia|].
  exists r3. assert (Et : (head ++ [Zbyte 101]) ++ exponent_sign e :: map digit (exponent_digits (Z.abs e)) =
    pre ++ map digit [d] ++ frac_text (map digit ls) ++ Zbyte 101 :: exponent_sign e :: map digit (exponent_digits (Z.abs e))).
  { unfold head. by rewrite <- !app_assoc. }
  rewrite Et in E3, H4. rewrite E3. split; [done|]. rewrite H4. lens.
Qed.

Lemma leading_not_nil ls : leading ls → ls ≠ [].
Proof. by intros H ->. Qed.

(** [format_buffer] writes the text of the number. *)
Lemma format_buffer_ok pre ls D rest :
  leading ls → zlen ls ≤ 17 → -400 ≤ D ≤ 400 → 20 ≤ zlen rest →
  formatted pre (number_text (decimal_number false ls D)) rest (format_buffer (zlen pre) (zlen ls) D (-4) 15) (pre ++ map digit ls ++ rest).
Proof.
  intros Hl Hlen HD Hr. apply leading_not_nil in Hl. pose proof (zlen_nonneg ls) as Hnn. unfold format_buffer, decimal_number.
  unfold formatted. do 2 rewrite (bind_ok _ _ _ tt (pre ++ map digit ls ++ rest)) by (by apply assert_ok).
  fold (formatted pre). change (-4 <? zlen ls + D) with (-4 <? zlen ls + D).
  destruct ((zlen ls <=? zlen ls + D) && (zlen ls + D <=? 15)) eqn:E1; [|destruct ((0 <? zlen ls + D) && (zlen ls + D <=? 15)) eqn:E2;
    [|destruct ((-4 <? zlen ls + D) && (zlen ls + D <=? 0)) eqn:E3]].
  - unfold number_text. cbn [n_neg n_int n_frac n_exp sign_text exp_text app]. apply format_integral; lia.
  - rewrite (bind_ok _ _ _ tt (pre ++ map digit ls ++ rest)) by (apply assert_ok; lia).
    unfold number_text. cbn [n_neg n_int n_frac n_exp sign_text exp_text app]. rewrite app_nil_r.
    assert (Hd : zdrop (zlen ls + D) ls ≠ []).
    { intros E. apply (f_equal zlen) in E. rewrite zlen_drop in E. change (zlen []) with 0 in E. lia. }
    assert (Ef : frac_text (map digit (zdrop (zlen ls + D) ls)) = point :: map digit (zdrop (zlen ls + D) ls)) by (by destruct (zdrop _ _)).
    rewrite Ef. apply format_fixed; lia.
  - unfold number_text. cbn [n_neg n_int n_frac n_exp sign_text exp_text app]. rewrite app_nil_r.
    assert (Ef : frac_text (map digit (zeros (- (zlen ls + D)) ++ ls)) = point :: map digit (zeros (- (zlen ls + D)) ++ ls)).
    { destruct ls; [done|]. by destruct (zeros _). }
    rewrite Ef. apply format_small; [lia|done|lia].
  - unfold number_text. cbn [n_neg n_int n_frac n_exp sign_text exp_text app]. apply format_exponential; [done|lia|lia].
Qed.

(** ** What the number denotes *)

Lemma zeros_S j : 0 ≤ j → zeros (1 + j) = zeros j ++ [0].
Proof. intros Hj. unfold zeros, zreplicate. rewrite Z2Nat.inj_add by lia. rewrite Nat.add_comm, replicate_add. done. Qed.

Lemma number_zeros_r ls j : 0 ≤ j → Field.number (ls ++ zeros j) = Field.number ls * 10 ^ j.
Proof.
  intros Hj. revert j Hj. apply natlike_ind; [by rewrite app_nil_r, Z.mul_1_r|]. intros j Hj IH. rewrite <- Z.add_1_l, zeros_S by done.
  rewrite app_assoc, number_snoc, IH, Z.add_1_l, Z.pow_succ_r by done. lia.
Qed.

Lemma number_zeros_l ls j : 0 ≤ j → Field.number (zeros j ++ ls) = Field.number ls.
Proof.
  intros Hj. induction ls as [|d ls IH] using rev_ind; [rewrite app_nil_r; pose proof (number_zeros_r [] j Hj) as H; cbn [app] in H; rewrite H; done|].
  by rewrite app_assoc, !number_snoc, IH.
Qed.

Lemma is_digits_zeros j : is_digits (zeros j).
Proof. by apply Forall_replicate. Qed.

Lemma isdigit_digit d : 0 ≤ d < 10 → isdigit (digit d) = true.
Proof. intros Hd. unfold isdigit. rewrite byteZ_digit by done. lia. Qed.

Lemma all_digits_map ls : is_digits ls → all_digits (map digit ls).
Proof. intros H. apply Forall_map. eapply Forall_impl; [|exact H]. intros d Hd. by apply isdigit_digit. Qed.

Lemma digits_map ls : is_digits ls → digits 0 (map digit ls) = Field.number ls.
Proof. intros H. rewrite <- (app_nil_r (map digit ls)). by apply digits_text. Qed.

Lemma int_ok_leading ls : is_digits ls → leading ls → int_ok (map digit ls).
Proof.
  intros Hd Hl. split; [by apply all_digits_map|]. right. destruct ls as [|d ls]; [done|]. exists (digit d), (map digit ls). split; [done|].
  intros E. apply (digit_zero d) in E; [|apply Forall_cons_1 in Hd as [Hd _]; lia]. cbn in Hl. lia.
Qed.

Lemma leading_app a b : a ≠ [] → leading (a ++ b) ↔ leading a.
Proof. by destruct a. Qed.

Lemma exponent_ok e : -1000 < e < 1000 →
  exp_ok (Some (Zbyte 101, [exponent_sign e], map digit (exponent_digits (Z.abs e)))) ∧
  (if decide ([exponent_sign e] = [hyphen]) then - digits 0 (map digit (exponent_digits (Z.abs e)))
   else digits 0 (map digit (exponent_digits (Z.abs e)))) = e.
Proof.
  intros He. destruct (exponent_digits_ok (Z.abs e)) as (Hd & Hn & Hne & _); [lia|]. rewrite digits_map, Hn by done. unfold exponent_sign. split.
  - split; [done|]. split; [destruct (e <? 0); auto|]. split; [by apply all_digits_map|]. by destruct (exponent_digits (Z.abs e)).
  - destruct (Z.ltb_spec e 0); [rewrite decide_True by done; lia|]. rewrite decide_False by done. lia.
Qed.

(** The integer and fraction digits, and where the point is. *)
Lemma decimal_number_ok neg ls D : is_digits ls → leading ls → zlen ls ≤ 17 → -400 ≤ D ≤ 400 →
  let n := decimal_number neg ls D in
  number_ok n ∧ n_neg n = neg ∧ integral n = false ∧ 0 < mantissa n ∧ decimal (mantissa n) (power n) = decimal (Field.number ls) D.
Proof.
  intros Hd Hl Hlen HD. destruct (number_bounds ls Hd) as [_ Hpos]. specialize (Hpos Hl). pose proof (leading_not_nil ls Hl) as Hne.
  assert (H1 : 1 ≤ zlen ls) by (destruct ls; [done|]; rewrite zlen_cons; pose proof (zlen_nonneg ls); lia).
  pose proof (Z.pow_pos_nonneg 10 (zlen ls - 1) ltac:(lia) ltac:(lia)) as Hp.
  assert (Hsplit : ∀ j, is_digits (ztake j ls) ∧ is_digits (zdrop j ls)).
  { intros j. apply Forall_app. by rewrite ztake_zdrop. }
  assert (Htake : ∀ j, 1 ≤ j → leading (ztake j ls)).
  { intros j Hj. destruct ls as [|d ls]; [done|]. unfold ztake. destruct (Z.to_nat j) eqn:E; [lia|]. exact Hl. }
  unfold decimal_number. cbv zeta.
  destruct ((zlen ls <=? zlen ls + D) && (zlen ls + D <=? 15)) eqn:E1; [|destruct ((0 <? zlen ls + D) && (zlen ls + D <=? 15)) eqn:E2;
    [|destruct ((-4 <? zlen ls + D) && (zlen ls + D <=? 0)) eqn:E3]];
    unfold number_ok, mantissa, power; cbn [n_neg n_int n_frac n_exp]; rewrite <- map_app, zlen_map.
  - replace (zlen ls + D - zlen ls) with D by lia. rewrite <- app_assoc, <- zeros_S, digits_map, number_zeros_r by (first [lia | by apply Forall_app_2; [|apply is_digits_zeros]]).
    assert (Hdz : is_digits (ls ++ zeros D)) by (apply Forall_app_2; [done|apply is_digits_zeros]).
    split; [split; [apply int_ok_leading; [done|by apply leading_app]|]|].
    { split; [by repeat constructor|done]. }
    split_and!; [done|done|pose proof (Z.pow_pos_nonneg 10 (1 + D)); nia|]. unfold decimal. rewrite mult_IZR, <- pow10_IZR by lia.
    rewrite Rmult_assoc, <- powerRZ_add by lra. do 2 f_equal. change (zlen [0]) with 1. lia.
  - destruct (Hsplit (zlen ls + D)) as [Ha Hb]. rewrite ztake_zdrop, digits_map by done.
    split; [split; [apply int_ok_leading; [done|apply Htake; lia]|split; [by apply all_digits_map|done]]|].
    split_and!; [done| |lia|].
    + unfold integral. apply bool_decide_eq_false_2. cbn [n_frac]. intros [E _]. apply (f_equal zlen) in E. rewrite zlen_map, zlen_drop in E.
      change (zlen []) with 0 in E. lia.
    + f_equal. rewrite zlen_drop. lia.
  - assert (Hdz : is_digits (zeros (- (zlen ls + D)) ++ ls)) by (apply Forall_app_2; [apply is_digits_zeros|done]).
    rewrite digits_map by (apply Forall_app_2; [by repeat constructor|done]).
    assert (En : Field.number ([0] ++ zeros (- (zlen ls + D)) ++ ls) = Field.number ls).
    { rewrite app_assoc. change ([0] ++ zeros (- (zlen ls + D))) with (0 :: zeros (- (zlen ls + D))).
      replace (0 :: zeros (- (zlen ls + D))) with (zeros (1 + - (zlen ls + D))); [apply number_zeros_l; lia|].
      unfold zeros, zreplicate. by rewrite Z2Nat.inj_add by lia. }
    rewrite En. split; [split; [split; [by repeat constructor|by left]|split; [by apply all_digits_map|done]]|].
    split_and!; [done| |lia|].
    + unfold integral. apply bool_decide_eq_false_2. cbn [n_frac]. intros [E _]. apply (f_equal zlen) in E. rewrite zlen_map, zlen_app in E.
      change (zlen []) with 0 in E. pose proof (zlen_nonneg (zeros (- (zlen ls + D)))). lia.
    + f_equal. unfold zeros. rewrite zlen_app, zlen_replicate by lia. lia.
  - destruct (Hsplit 1) as [Ha Hb]. rewrite ztake_zdrop, digits_map by done. destruct (exponent_ok (zlen ls + D - 1)) as [He Ev]; [lia|].
    split; [split; [apply int_ok_leading; [done|by apply Htake]|split; [by apply all_digits_map|exact He]]|].
    split_and!; [done| |lia|].
    + unfold integral. apply bool_decide_eq_false_2. by intros [_ E].
    + rewrite Ev. f_equal. rewrite zlen_drop. lia.
Qed.

(** ** [to_chars] *)

(** A finite binary64 number. *)
Definition finite64 (x : spec_float) : Prop := isfinite x = true ∧ valid_binary 53 1024 x = true.

Lemma bounded_canonical m e : bounded 53 1024 m e = true → canonical m e.
Proof. unfold bounded, canonical_mantissa, canonical. intros H. apply andb_true_iff in H as [H1 H2]. lia. Qed.

(** The number [to_chars] writes, for the decimal it has chosen. *)
Lemma to_chars_sign s buf : 64 ≤ zlen buf →
  ∃ rest, (when s (put_at 0 [Zbyte 45]) : C unit) buf = Ok (tt, sign_text s ++ rest) ∧ zlen (sign_text s) + zlen rest = zlen buf ∧
    (if s then 0 + 1 else 0) = zlen (sign_text s) ∧ 63 ≤ zlen rest.
Proof.
  intros Hb. destruct s; cbn [when sign_text].
  - destruct (put_fresh 0 [] [Zbyte 45] buf) as (rest & E & H); [done|change (zlen [Zbyte 45]) with 1; lia|].
    change (zlen [Zbyte 45]) with 1 in H. exists rest. split; [exact E|]. change (zlen [hyphen]) with 1. split_and!; [lia|done|lia].
  - exists buf. change (zlen []) with 0. split_and!; [done|lia|done|lia].
Qed.

Lemma sign_number neg ls D : sign_text neg ++ number_text (decimal_number false ls D) = number_text (decimal_number neg ls D).
Proof. unfold number_text, decimal_number. by repeat case_match. Qed.

Lemma vread_prefix pre rest : vread (pre ++ rest) 0 (zlen pre) = Ok pre.
Proof. exact (vread_app [] pre rest). Qed.

Lemma to_chars_finite s m e buf : canonical m e → 64 ≤ zlen buf →
  ∃ ls D, chars_of buf (S754_finite s m e) = Ok (number_text (decimal_number s ls D)) ∧
    is_digits ls ∧ leading ls ∧ zlen ls ≤ 17 ∧ -400 ≤ D ≤ 400 ∧ rounds_to m e (decimal (Field.number ls) D).
Proof.
  intros Hc Hb. destruct (to_chars_sign s buf Hb) as (rest & E & Hl & Hf & Hr). unfold chars_of, to_chars.
  rewrite (bind_ok _ _ _ tt buf) by by apply assert_ok. mgo E. rewrite Hf.
  assert (Hs : zlen (sign_text s) ≤ 1) by (by destruct s).
  rewrite (bind_ok _ _ _ tt (sign_text s ++ rest)) by (apply assert_ok; unfold max_digits10; lia).
  destruct (grisu2_ok m e (sign_text s) rest Hc) as (ls & D & rest2 & E2 & Hl2 & Hd & Hld & Hlen & HD & Hto); [lia|]. mgo E2.
  exists ls, D. split; [|done]. rewrite (bind_ok _ _ _ tt (sign_text s ++ map digit ls ++ rest2)) by (apply assert_ok; unfold max_digits10; lia).
  do 3 rewrite (bind_ok _ _ _ tt (sign_text s ++ map digit ls ++ rest2)) by (apply assert_ok; unfold max_digits10, digits10; lia).
  destruct (format_buffer_ok (sign_text s) ls D rest2 Hld Hlen HD) as (rest3 & E3 & _); [lia|]. unfold digits10. rewrite E3, vread_prefix.
  by rewrite sign_number.
Qed.

Lemma to_chars_zero s buf : 64 ≤ zlen buf →
  chars_of buf (S754_zero s) = Ok (number_text (mkNumber s [nought] [nought] None)).
Proof.
  intros Hb. destruct (to_chars_sign s buf Hb) as (rest & E & Hl & Hf & Hr). unfold chars_of, to_chars.
  rewrite (bind_ok _ _ _ tt buf) by by apply assert_ok. mgo E. rewrite Hf.
  destruct (put_fresh (zlen (sign_text s)) (sign_text s) [digit 0] rest) as (r1 & E1 & H1); [done|change (zlen [digit 0]) with 1; lia|]. mgo E1.
  change (zlen [digit 0]) with 1 in H1.
  destruct (put_two (zlen (sign_text s) + 1) (sign_text s ++ [digit 0]) point (digit 0) r1 (mret (zlen (sign_text s) + 3) : C Z)) as (r2 & E2 & H2);
    [by rewrite zlen_app|lia|]. rewrite <- Z.add_assoc in E2. change (1 + 1) with 2 in E2. rewrite E2. unfold mret, M_ret.
  rewrite <- (app_assoc (sign_text s)).
  replace (zlen (sign_text s) + 3) with (zlen (sign_text s ++ [digit 0] ++ [point; digit 0])) by (by rewrite zlen_app).
  by rewrite vread_prefix.
Qed.

Lemma zlen_frac ds : zlen (frac_text ds) ≤ 1 + zlen ds.
Proof. destruct ds as [|d ds]; [done|]. cbn [frac_text]. rewrite !zlen_cons. lia. Qed.

Lemma decimal_number_length neg ls D : leading ls → zlen ls ≤ 17 → -400 ≤ D ≤ 400 → zlen (number_text (decimal_number neg ls D)) ≤ 24.
Proof.
  intros Hl Hlen HD. pose proof (zlen_nonneg ls). assert (Hs : zlen (sign_text neg) ≤ 1) by (by destruct neg).
  assert (H1 : 1 ≤ zlen ls) by (destruct ls; [done|]; rewrite zlen_cons; pose proof (zlen_nonneg ls); lia).
  unfold decimal_number. repeat case_match; unfold number_text; cbn [n_neg n_int n_frac n_exp exp_text];
    rewrite !zlen_app, ?zlen_map; change (zlen (@nil byte)) with 0.
  - change (zlen (frac_text (map digit [0]))) with 2. rewrite zlen_app. unfold zeros. rewrite zlen_replicate by lia. lia.
  - pose proof (zlen_frac (map digit (zdrop (zlen ls + D) ls))). rewrite zlen_map, zlen_drop in *. rewrite zlen_take. lia.
  - pose proof (zlen_frac (map digit (zeros (- (zlen ls + D)) ++ ls))) as Hf. unfold zeros in *. rewrite zlen_map, zlen_app, zlen_replicate in Hf by lia.
    change (zlen [0]) with 1. lia.
  - destruct (exponent_digits_ok (Z.abs (zlen ls + D - 1))) as (_ & _ & _ & He); [lia|]. rewrite zlen_cons, zlen_app, zlen_map.
    pose proof (zlen_frac (map digit (zdrop 1 ls))). rewrite zlen_map, zlen_drop in *. rewrite zlen_take.
    change (zlen [exponent_sign (zlen ls + D - 1)]) with 1. lia.
Qed.

(** Every finite number is written as a JSON number that is read back as itself. *)
Lemma to_chars_number x buf : finite64 x → 64 ≤ zlen buf →
  ∃ n, chars_of buf x = Ok (number_text n) ∧ number_ok n ∧ integral n = false ∧ zlen (number_text n) ≤ 24 ∧
    round_decimal (n_neg n) (mantissa n) (power n) = x.
Proof.
  intros [Hf Hv] Hb. destruct x as [s|s| |s m e]; try done.
  - exists (mkNumber s [nought] [nought] None). split; [by apply to_chars_zero|]. split_and!; [|done|by destruct s|done].
    split; [split; [by repeat constructor|by left]|split; [by repeat constructor|done]].
  - apply bounded_canonical in Hv. destruct (to_chars_finite s m e buf Hv Hb) as (ls & D & E & Hd & Hl & Hlen & HD & Hto).
    destruct (decimal_number_ok s ls D Hd Hl Hlen HD) as (Hok & Hneg & Hint & Hpos & Hval).
    exists (decimal_number s ls D). split_and!; [done|done|done|by apply decimal_number_length|]. rewrite Hneg. apply round_decimal_to; [done|done|]. by rewrite Hval.
Qed.

(** C10: printing a double never violates an assertion or leaves the buffer of 64
    characters, whatever the buffer held before; the text is a JSON number with a
    fraction or an exponent of at most 24 characters; and reading it back with
    [strtod] gives the number that was printed, bit for bit, zeros with their sign
    included. *)
Theorem to_chars_roundtrip x buf :
  finite64 x → zlen buf = 64 →
  ∃ text, chars_of buf x = Ok text ∧ strtod text = x ∧ zlen text ≤ 24 ∧ ∃ n, number_ok n ∧ text = number_text n ∧ integral n = false.
Proof.
  intros Hx Hb. destruct (to_chars_number x buf Hx) as (n & E & Hok & Hint & Hlen & Hr); [lia|].
  exists (number_text n). split; [done|]. split; [|split; [done|by exists n]]. by rewrite strtod_text.
Qed.

Lemma to_chars_roundtrip_witness :
  chars_of (replicate 64 (Zbyte 0)) (S754_finite true 6004799503160661 (-54)) = Ok (map Zbyte [45; 48; 46] ++ replicate 16 (Zbyte 51)) ∧
  strtod (map Zbyte [45; 48; 46] ++ replicate 16 (Zbyte 51)) = S754_finite true 6004799503160661 (-54).
Proof.
  destruct (to_chars_roundtrip (S754_finite true 6004799503160661 (-54)) (replicate 64 (Zbyte 0))) as (t & E & Et & _);
    [split; reflexivity|reflexivity|].
  assert (Ev : chars_of (replicate 64 (Zbyte 0)) (S754_finite true 6004799503160661 (-54)) = Ok (map Zbyte [45; 48; 46] ++ replicate 16 (Zbyte 51)))
    by (vm_compute; reflexivity).
  rewrite Ev in E. injection E as <-. split; [exact Ev|exact Et].
Defined.
