(* ===== verification/JsonParser.v ===== *)
(** * The JSON parser (json/nlohmann_json.hpp: exceptions, parser)

    The recursive-descent parser behind [operator>>], as a state monad with the
    exceptions it throws; no callback is installed.  Recursion has fuel, [None]
    when it is used up.  Results (JsonGrammar, JsonAccept): which texts it
    accepts, and with which values; it always returns; [accept] answers what
    [parse] does. *)

From Stdlib Require Import ZArith Lia Strings.Byte Strings.String SpecFloat.
From stdpp Require Import base list numbers.
From S2P Require Import Prelude.
From S2P Require Import Field.
From S2P Require Import Utf8.
From S2P Require Import JsonLexer.
From S2P Require Import JsonStrings.
From S2P Require Import JsonNumbers.

#[local] Open Scope Z_scope.

(** ** Values *)

(** An object is a [std::map]: its members in the order of their keys. *)
Inductive json :=
  | j_null
  | j_object (members : list (list byte * json))
  | j_array (elements : list json)
  | j_string (s : list byte)
  | j_boolean (b : bool)
  | j_number_integer (z : Z)
  | j_number_unsigned (z : Z)
  | j_number_float (f : spec_float)
  | j_discarded.

(** [std::less] of strings. *)
Fixpoint key_ltb (a b : list byte) : bool :=
  match a, b with
  | _, [] => false
  | [], _ :: _ => true
  | x :: a', y :: b' => if byteZ x =? byteZ y then key_ltb a' b' else byteZ x <? byteZ y
  end.

(** [std::map::emplace]: a key that is there keeps its value. *)
Fixpoint emplace (key : list byte) (value : json) (m : list (list byte * json)) : list (list byte * json) :=
  match m with
  | [] => [(key, value)]
  | (k, v) :: m' =>
      if key_ltb key k then (key, value) :: m
      else if key_ltb k key then (k, v) :: emplace key value m'
      else m
  end.

(** ** Exceptions *)

(** [std::to_string] of an unsigned number. *)
Fixpoint decimal_loop (fuel : nat) (n : Z) (acc : list byte) : list byte :=
  let acc := Zbyte (48 + n mod 10) :: acc in
  match fuel with
  | O => acc
  | S fuel' => if n <? 10 then acc else decimal_loop fuel' (n / 10) acc
  end.
Definition decimal (n : Z) : list byte := decimal_loop 20 n [].

Abbreviation text := list_byte_of_string (only parsing).

(** [what()], the id, and the byte of a [parse_error]. *)
Record exception := mkException { e_what : list byte; e_id : Z; e_byte : option Z }.

Definition exception_name (ename : string) (id : Z) : list byte :=
  text "[json.exception." ++ text ename ++ text "." ++ decimal id ++ text "] ".

Definition parse_error_create (id byte_ : Z) (what_arg : list byte) : exception :=
  mkException
    (exception_name "parse_error" id ++ text "parse error" ++
     (if byte_ =? 0 then [] else text " at " ++ decimal byte_) ++ text ": " ++ what_arg) id (Some byte_).
Definition type_error_create (id : Z) (what_arg : list byte) : exception :=
  mkException (exception_name "type_error" id ++ what_arg) id None.
Definition out_of_range_create (id : Z) (what_arg : list byte) : exception :=
  mkException (exception_name "out_of_range" id ++ what_arg) id None.

(** ** The parser *)

Record parser := mkParser { m_lexer : lexer; last_token : token_type }.

Definition P (A : Type) : Type := parser → option (exception + A * parser).

#[global] Instance P_ret : MRet P := λ A a p, Some (inr (a, p)).
#[global] Instance P_bind : MBind P := λ A B k m p,
  match m p with
  | Some (inr (a, p')) => k a p'
  | Some (inl e) => Some (inl e)
  | None => None
  end.

Definition throw {A} (e : exception) : P A := λ _, Some (inl e).
Definition token : P token_type := λ p, Some (inr (last_token p, p)).

Definition get_token : P unit := λ p,
  let '(t, l) := scan (m_lexer p) in Some (inr (tt, mkParser l t)).

Definition take_string : P (list byte) := λ p,
  let '(s, l) := move_string (m_lexer p) in Some (inr (s, mkParser l (last_token p))).

(** [throw_exception]. *)
Definition syntax_error (expected : token_type) (p : parser) : exception :=
  parse_error_create 101 (chars_read (m_lexer p))
    (text "syntax error - " ++
     (if decide (last_token p = parse_error) then
        text (error_message (m_lexer p)) ++ text "; last read: '" ++ get_token_string (m_lexer p) ++ text "'"
      else text "unexpected " ++ text (token_type_name (last_token p))) ++
     (if decide (expected = uninitialized) then [] else text "; expected " ++ text (token_type_name expected))).

Definition expect (t : token_type) : P unit := λ p,
  if decide (t = last_token p) then Some (inr (tt, p)) else Some (inl (syntax_error t p)).

Definition number_overflow (p : parser) : exception :=
  out_of_range_create 406 (text "number overflow parsing '" ++ get_token_string (m_lexer p) ++ text "'").

Definition is_discarded (v : json) : bool := match v with j_discarded => true | _ => false end.

Fixpoint parse_internal (fuel : nat) : P json :=
  match fuel with
  | O => λ _, None
  | S fuel' =>
      t ← token;
      match t with
      | begin_object =>
          get_token;;
          t ← token;
          if decide (t = end_object) then mret (j_object []) else parse_members fuel' []
      | begin_array =>
          get_token;;
          t ← token;
          if decide (t = end_array) then mret (j_array []) else parse_elements fuel' []
      | literal_null => mret j_null
      | value_string => s ← take_string; mret (j_string s)
      | literal_true => mret (j_boolean true)
      | literal_false => mret (j_boolean false)
      | value_unsigned => λ p, Some (inr (j_number_unsigned (m_unsigned (m_lexer p)), p))
      | value_integer => λ p, Some (inr (j_number_integer (m_integer (m_lexer p)), p))
      | value_float => λ p,
          let f := m_float (m_lexer p) in
          if isfinite f then Some (inr (j_number_float f, p)) else Some (inl (number_overflow p))
      | parse_error => expect uninitialized;; mret j_discarded
      | _ => expect literal_or_value;; mret j_discarded
      end
  end
(** The loops, with what the object or array holds so far. *)
with parse_members (fuel : nat) (object : list (list byte * json)) : P json :=
  match fuel with
  | O => λ _, None
  | S fuel' =>
      expect value_string;;
      key ← take_string;
      get_token;;
      expect name_separator;;
      get_token;;
      value ← parse_internal fuel';
      let object := if is_discarded value then object else emplace key value object in
      get_token;;
      t ← token;
      if decide (t = value_separator) then get_token;; parse_members fuel' object
      else expect end_object;; mret (j_object object)
  end
with parse_elements (fuel : nat) (array : list json) : P json :=
  match fuel with
  | O => λ _, None
  | S fuel' =>
      value ← parse_internal fuel';
      let array := if is_discarded value then array else array ++ [value] in
      get_token;;
      t ← token;
      if decide (t = value_separator) then get_token;; parse_elements fuel' array
      else expect end_array;; mret (j_array array)
  end.

Definition parser_make (input : list byte) : parser := mkParser (lexer_make input) uninitialized.

(** A call or turn of a loop reads a token; two of them share one at most. *)
Definition fuel_for (input : list byte) : nat := 2 * length input + 4.

Definition parse (strict : bool) (input : list byte) : option (exception + json * parser) :=
  (get_token;;
   result ← parse_internal (fuel_for input);
   if strict then get_token;; expect end_of_input;; mret result else mret result) (parser_make input).

(** ** The acceptor *)

Definition finite : P bool := λ p, Some (inr (isfinite (m_float (m_lexer p)), p)).

Fixpoint accept_internal (fuel : nat) : P bool :=
  match fuel with
  | O => λ _, None
  | S fuel' =>
      t ← token;
      match t with
      | begin_object =>
          get_token;;
          t ← token;
          if decide (t = end_object) then mret true else accept_members fuel'
      | begin_array =>
          get_token;;
          t ← token;
          if decide (t = end_array) then mret true else accept_elements fuel'
      | value_float => finite
      | literal_false | literal_null | literal_true | value_integer | value_string | value_unsigned => mret true
      | _ => mret false
      end
  end
with accept_members (fuel : nat) : P bool :=
  match fuel with
  | O => λ _, None
  | S fuel' =>
      t ← token;
      if negb (bool_decide (t = value_string)) then mret false
      else
        get_token;;
        t ← token;
        if negb (bool_decide (t = name_separator)) then mret false
        else
          get_token;;
          ok ← accept_internal fuel';
          if negb ok then mret false
          else
            get_token;;
            t ← token;
            if decide (t = value_separator) then get_token;; accept_members fuel'
            else mret (bool_decide (t = end_object))
  end
with accept_elements (fuel : nat) : P bool :=
  match fuel with
  | O => λ _, None
  | S fuel' =>
      ok ← accept_internal fuel';
      if negb ok then mret false
      else
        get_token;;
        t ← token;
        if decide (t = value_separator) then get_token;; accept_elements fuel'
        else mret (bool_decide (t = end_array))
  end.

Definition accept (strict : bool) (input : list byte) : option (exception + bool * parser) :=
  (get_token;;
   ok ← accept_internal (fuel_for input);
   if negb ok then mret false
   else if strict then get_token;; t ← token; mret (bool_decide (t = end_of_input))
   else mret true) (parser_make input).
