(* ===== verification/JsonGrammar.v ===== *)
(** * The JSON parser against the JSON grammar

    [rvalue] is the grammar of RFC 8259 with the value of each text, where of equal
    keys the first counts.  The scanner is compared with its tokens, the parser with
    its values.  The parser always returns, and differs from the grammar in two ways,
    which the theorem states: a NUL ends the text, whatever follows, and a number
    without a finite value is rejected. *)

From Stdlib Require Import ZArith Lia Strings.Byte Strings.String SpecFloat.
From stdpp Require Import base list numbers.
From S2P Require Import Prelude.
From S2P Require Import Field.
From S2P Require Import Utf8.
From S2P Require Import JsonLexer.
From S2P Require Import JsonStrings.
From S2P Require Import JsonNumbers.
From S2P Require Import JsonParser.

#[local] Open Scope Z_scope.

(** ** The grammar *)

Definition spaces (w : list byte) : Prop := Forall (λ c, is_space (byteZ c) = true) w.
Definition punct (z : Z) : list byte := [Zbyte z].

(** The JSON value of a number. *)
Definition number_value (n : number) : json :=
  if integral n && n_neg n && (- 2 ^ 63 <=? int_value n) then j_number_integer (int_value n)
  else if integral n && negb (n_neg n) && (int_value n <? 2 ^ 64) then j_number_unsigned (int_value n)
  else j_number_float (round_decimal (n_neg n) (mantissa n) (power n)).
Definition is_finite (v : json) : bool := match v with j_number_float f => isfinite f | _ => true end.

Definition add_member (m : list (list byte * json)) (kv : list byte * json) := emplace kv.1 kv.2 m.

(** The grammar of RFC 8259 if [huge]; without it, the numbers have finite values. *)
Section Grammar.
Context (huge : bool).

Inductive rvalue : list byte → json → Prop :=
  | g_null : rvalue (text "null") j_null
  | g_true : rvalue (text "true") (j_boolean true)
  | g_false : rvalue (text "false") (j_boolean false)
  | g_string src cps : json_string src cps → rvalue (quote :: src ++ [quote]) (j_string (utf8s cps))
  | g_number n : number_ok n → huge || is_finite (number_value n) = true → rvalue (number_text n) (number_value n)
  | g_array_empty w : spaces w → rvalue (punct 91 ++ w ++ punct 93) (j_array [])
  | g_array es vs : relements es vs → rvalue (punct 91 ++ es ++ punct 93) (j_array vs)
  | g_object_empty w : spaces w → rvalue (punct 123 ++ w ++ punct 125) (j_object [])
  | g_object ms kvs : rmembers ms kvs → rvalue (punct 123 ++ ms ++ punct 125) (j_object (foldl add_member [] kvs))
with relements : list byte → list json → Prop :=
  | ge_last w1 t w2 v : spaces w1 → rvalue t v → spaces w2 → relements (w1 ++ t ++ w2) [v]
  | ge_more w1 t w2 es v vs :
      spaces w1 → rvalue t v → spaces w2 → relements es vs → relements (w1 ++ t ++ w2 ++ punct 44 ++ es) (v :: vs)
with rmembers : list byte → list (list byte * json) → Prop :=
  | gm_last m kv : rmember m kv → rmembers m [kv]
  | gm_more m ms kv kvs : rmember m kv → rmembers ms kvs → rmembers (m ++ punct 44 ++ ms) (kv :: kvs)
with rmember : list byte → list byte * json → Prop :=
  | gm_member w1 src cps w2 w3 t w4 v :
      spaces w1 → json_string src cps → spaces w2 → spaces w3 → rvalue t v → spaces w4 →
      rmember (w1 ++ (quote :: src ++ [quote]) ++ w2 ++ punct 58 ++ w3 ++ t ++ w4) (utf8s cps, v).

Scheme rvalue_mut := Induction for rvalue Sort Prop
  with relements_mut := Induction for relements Sort Prop
  with rmembers_mut := Induction for rmembers Sort Prop
  with rmember_mut := Induction for rmember Sort Prop.
Combined Scheme grammar_ind from rvalue_mut, relements_mut, rmembers_mut, rmember_mut.

(** A JSON text: a value between white space. *)
Definition json_text (input : list byte) (v : json) : Prop :=
  ∃ w1 t w2, spaces w1 ∧ rvalue t v ∧ spaces w2 ∧ input = w1 ++ t ++ w2.

End Grammar.

Arguments g_string {huge}.
Arguments g_number {huge}.
Arguments g_array_empty {huge}.
Arguments g_array {huge}.
Arguments g_object_empty {huge}.
Arguments g_object {huge}.
Arguments ge_last {huge}.
Arguments ge_more {huge}.
Arguments gm_last {huge}.
Arguments gm_more {huge}.
Arguments gm_member {huge}.

(** The texts that the parser has values for. *)
Abbreviation gvalue := (rvalue false).
Abbreviation gelements := (relements false).
Abbreviation gmembers := (rmembers false).
Abbreviation gmember := (rmember false).

(** What may follow a value: nothing a number would take. *)
Definition follows (rest : list byte) : Prop :=
  match rest with [] => True | c :: _ => isdigit c = false ∧ c ≠ dot ∧ is_exp (byteZ c) = false end.

Lemma follows_ends n rest : follows rest → ends n rest.
Proof. destruct rest as [|c rest]; [done|]. intros (Hd & Hc & He). cbn. rewrite Hd, He. naive_solver. Qed.

Lemma follows_space w rest : spaces w → follows rest → follows (w ++ rest).
Proof.
  intros Hw Hr. destruct Hw as [|c w' Hc Hw]; [done|]. cbn.
  unfold is_space, isdigit, is_exp in *. split_and!; [lia| |lia]. intros ->. by vm_compute in Hc.
Qed.

Lemma follows_punct z rest : z ∈ [44; 93; 125] → follows (Zbyte z :: rest).
Proof.
  intros Hz. repeat (apply elem_of_cons in Hz as [->|Hz]; [by vm_compute|]). by apply elem_of_nil in Hz.
Qed.

(** ** Tokens *)

(** The text [src] of a token with the lexer after it. *)
Definition spells (t : token_type) (src : list byte) (l : lexer) : Prop :=
  match t with
  | begin_array => src = punct 91
  | end_array => src = punct 93
  | begin_object => src = punct 123
  | end_object => src = punct 125
  | name_separator => src = punct 58
  | value_separator => src = punct 44
  | literal_true => src = text "true"
  | literal_false => src = text "false"
  | literal_null => src = text "null"
  | value_string => ∃ s cps, json_string s cps ∧ src = quote :: s ++ [quote] ∧ token_buffer l = utf8s cps
  | value_unsigned | value_integer | value_float => ∃ n, number_ok n ∧ src = number_text n ∧ delivers n t l
  | end_of_input => src = [] ∧ ia l = [] ∨ src = [x00]
  | _ => False
  end.

(** The lexer has just read the first character of [rest]. *)
Definition lead (l : lexer) (rest : list byte) : Prop := current l = head_code rest ∧ ia l = tail rest.

Lemma get_lead l : lead (get l) (ia l).
Proof. split; [apply head_code_get|]. unfold get. by destruct (ia l). Qed.

Definition no_space (rest : list byte) : Prop := is_space (head_code rest) = false.

Lemma skip_space_lead w rest fuel l :
  spaces w → no_space rest → ia l = w ++ rest → (length w ≤ fuel)%nat → lead (skip_space fuel l) rest.
Proof.
  intros Hw. revert fuel l. induction Hw as [|c w Hc Hw IH]; intros fuel l Hr E Hf.
  - cbn [app] in E. pose proof (get_lead l) as Hl. rewrite E in Hl. destruct fuel as [|fuel]; cbn [skip_space]; [done|].
    destruct Hl as [Hc Hi]. rewrite Hc. unfold no_space in Hr. rewrite Hr. by split.
  - destruct fuel as [|fuel]; [cbn in Hf; lia|]. cbn [skip_space]. destruct (get_byte _ _ _ E) as (Hb & _ & Hi).
    rewrite Hb, Hc. apply IH; [done|done|cbn in Hf; lia].
Qed.

Lemma skip_space_inv fuel l :
  (length (ia l) ≤ fuel)%nat → ∃ w rest, spaces w ∧ ia l = w ++ rest ∧ no_space rest ∧ lead (skip_space fuel l) rest.
Proof.
  revert l. induction fuel as [|fuel IH]; intros l Hf; cbn [skip_space].
  - pose proof (get_lead l) as Hl. destruct (ia l) as [|c rest] eqn:E; [|cbn in Hf; lia].
    exists [], []. split_and!; [constructor|done..].
  - pose proof (get_lead l) as [Hc Hi]. rewrite Hc. destruct (is_space (head_code (ia l))) eqn:Es.
    + destruct (ia l) as [|c rest] eqn:E; [done|]. cbn in Hi, Es, Hf.
      destruct (IH (get l)) as (w & rest' & Hw & E' & Hr & Hl); [rewrite Hi; lia|].
      exists (c :: w), rest'. split_and!; [by constructor|by rewrite <- Hi, E'|done|done].
    + exists [], (ia l). split_and!; [constructor|done..].
Qed.

Lemma scan_literal_ok txt t l rest :
  ia l = txt ++ rest → ∃ l', scan_literal txt t l = (t, l') ∧ ia l' = rest.
Proof.
  revert l. induction txt as [|c txt IH]; intros l E; cbn [scan_literal]; [by exists l|].
  destruct (get_byte _ _ _ E) as (Hc & _ & Hi). rewrite Hc, Z.eqb_refl. cbn [negb]. by apply IH.
Qed.

Lemma scan_literal_inv txt t l t' l' :
  scan_literal txt t l = (t', l') → t' = parse_error ∨ t' = t ∧ ia l = txt ++ ia l'.
Proof.
  revert l. induction txt as [|c txt IH]; intros l; cbn [scan_literal]; [intros [= <- <-]; by right|].
  destruct (Z.eqb_spec (current (get l)) (byteZ c)) as [E|]; cbn [negb]; [|intros [= <- _]; by left].
  intros H. apply IH in H as [?|[-> Hi]]; [by left|]. right. split; [done|].
  destruct (get_inv l) as (b & Hb & (Hr & _ & _)); [rewrite E; pose proof (byteZ_range c) as [? _]; lia|].
  rewrite Hr, Hi. cbn. f_equal. apply byteZ_inj. congruence.
Qed.

(** What the scanner makes of a token that stands next. *)
Lemma scan_lead w rest l :
  spaces w → no_space rest → ia l = w ++ rest → ∃ l1, scan l = scan_from l1 ∧ current l1 = head_code rest ∧ ia l1 = tail rest.
Proof.
  intros Hw Hr E. destruct (skip_space_lead w rest (length (ia l)) l Hw Hr E) as [Hc Hi].
  { rewrite E, length_app. lia. }
  by eexists.
Qed.

Definition puncts : list (Z * token_type) :=
  [(91, begin_array); (93, end_array); (123, begin_object); (125, end_object); (58, name_separator);
   (44, value_separator)].

Lemma scan_punct z t w rest l :
  (z, t) ∈ puncts → spaces w → ia l = w ++ punct z ++ rest → ∃ l', scan l = (t, l') ∧ ia l' = rest.
Proof.
  intros Hin Hw E. destruct (scan_lead w (punct z ++ rest) l) as (l1 & -> & Hc & Hi); [done| |done|].
  - repeat (apply elem_of_cons in Hin as [[= -> ->]|Hin]; [done|]). by apply elem_of_nil in Hin.
  - exists l1. split; [|done]. unfold scan_from. rewrite Hc.
    repeat (apply elem_of_cons in Hin as [[= -> ->]|Hin]; [done|]). by apply elem_of_nil in Hin.
Qed.

Definition words : list (string * token_type) :=
  [("true"%string, literal_true); ("false"%string, literal_false); ("null"%string, literal_null)].

Lemma scan_word s t w rest l :
  (s, t) ∈ words → spaces w → ia l = w ++ text s ++ rest → ∃ l', scan l = (t, l') ∧ ia l' = rest.
Proof.
  intros Hin Hw E. destruct (scan_lead w (text s ++ rest) l) as (l1 & -> & Hc & Hi); [done| |done|].
  - repeat (apply elem_of_cons in Hin as [[= -> ->]|Hin]; [done|]). by apply elem_of_nil in Hin.
  - unfold scan_from. rewrite Hc.
    repeat (apply elem_of_cons in Hin as [[= -> ->]|Hin]; [by apply scan_literal_ok|]). by apply elem_of_nil in Hin.
Qed.

Lemma scan_str src cps w rest l :
  json_string src cps → spaces w → ia l = w ++ (quote :: src ++ [quote]) ++ rest →
  ∃ l', scan l = (value_string, l') ∧ token_buffer l' = utf8s cps ∧ ia l' = rest.
Proof.
  intros Hs Hw E. rewrite <- app_comm_cons, <- app_assoc in E. cbn [app] in E.
  destruct (scan_lead w (quote :: src ++ quote :: rest) l) as (l1 & -> & Hc & Hi); [done..|].
  unfold scan_from. rewrite Hc. change (head_code _) with 34. cbn [Z.eqb Pos.eqb orb is_digit].
  destruct (string_loop_ok src cps rest (S (length (ia (reset l1)))) (reset l1) Hs Hi) as (l' & E' & (Hr & Hb & _)).
  { cbn. rewrite Hi. cbn. rewrite length_app. lia. }
  exists l'. split; [exact E'|]. split; [done|]. cbn in Hr. rewrite Hi in Hr. cbn in Hr. rewrite <- app_assoc in Hr.
  cbn in Hr. apply app_inv_head in Hr. by injection Hr.
Qed.

Lemma number_head n : number_ok n → ∃ c src, number_text n = c :: src ∧ (c = hyphen ∨ isdigit c = true).
Proof.
  intros [[Hds Hip] _]. destruct n as [neg ip fp ep]. unfold number_text. cbn in *.
  destruct neg; [by eexists _, _; split; [|left]|]. destruct Hds as [|d ip Hd Hds]; [by destruct Hip as [?|(? & ? & ? & _)]|].
  eexists d, _. split; [done|by right].
Qed.

Lemma scan_from_number l c :
  current l = byteZ c → c = hyphen ∨ isdigit c = true → scan_from l = scan_number l.
Proof.
  intros Hc Hcase. unfold scan_from. rewrite Hc. destruct Hcase as [->|Hd]; [done|].
  unfold isdigit in Hd. unfold is_digit. by zguard.
Qed.

Lemma scan_num n w rest l :
  number_ok n → spaces w → ia l = w ++ number_text n ++ rest → ends n rest →
  ∃ t l', scan l = (t, l') ∧ delivers n t l' ∧ ia l' = rest.
Proof.
  intros Hn Hw E He. destruct (number_head n Hn) as (c & src & Et & Hc). rewrite Et in E.
  destruct (scan_lead w ((c :: src) ++ rest) l) as (l1 & -> & Hcur & Hi); [done| |done|].
  - cbn. unfold no_space, is_space. cbn. destruct Hc as [->|Hc]; [done|]. unfold isdigit in Hc. lia.
  - rewrite (scan_from_number l1 c) by done. cbn in Hi.
    destruct (scan_number_ok n src rest l1 c Hcur (eq_sym Et) Hn He Hi) as [Hd Hr].
    eexists _, _. split; [apply surjective_pairing|done].
Qed.

Lemma delivers_integer n t l : delivers n t l →
  t = value_unsigned ∧ number_value n = j_number_unsigned (m_unsigned l) ∨
  t = value_integer ∧ number_value n = j_number_integer (m_integer l) ∨
  t = value_float ∧ number_value n = j_number_float (m_float l).
Proof. unfold delivers, number_value. repeat case_match; intros [-> <-]; naive_solver. Qed.

(** ** What a token says about the input *)

Lemma scan_inv l t l' :
  scan l = (t, l') → t = parse_error ∨ ∃ w src, spaces w ∧ ia l = w ++ src ++ ia l' ∧ spells t src l'.
Proof.
  intros E. destruct (skip_space_inv (length (ia l)) l ltac:(done)) as (w & rest & Hw & Ei & Hns & [Hc Hi]).
  unfold scan in E. set (l1 := skip_space _ _) in *. unfold scan_from in E. rewrite Hc in E.
  assert (Hread : ∀ z, 0 ≤ z → head_code rest = z → rest = Zbyte z :: ia l1).
  { intros z Hz Hh. destruct rest as [|b rest]; [cbn in Hh; lia|]. cbn in Hh, Hi. rewrite Hi. f_equal. by apply byteZ_of. }
  repeat match type of E with
  | (if ?x =? ?k then (?tok, l1) else _) = _ =>
      destruct (Z.eqb_spec x k) as [Hk|];
        [injection E as <- <-; right; exists w, (punct k); split; [done|]; split; [|done];
         rewrite Ei; f_equal; apply (Hread k); [lia|done]|]
  end.
  repeat match type of E with
  | (if ?x =? ?k then scan_literal ?txt ?tok l1 else _) = _ =>
      destruct (Z.eqb_spec x k) as [Hk|];
        [apply scan_literal_inv in E as [?|[-> Hl]]; [by left|right];
         exists w, (Zbyte k :: txt); split; [done|]; split; [|by cbn];
         rewrite Ei; f_equal; rewrite (Hread k) by (lia || done); by rewrite Hl|]
  end.
  destruct (Z.eqb_spec (head_code rest) 34) as [Hq|Hq].
  { unfold scan_string in E.
    apply string_loop_result in E as [?|(-> & src & cps & Hs & (Hr & Hb & _))]; [by left| |by cbn; lia].
    right. exists w, (quote :: src ++ [quote]). split; [done|]. split; [|by exists src, cps].
    rewrite Ei, (Hread 34) by (lia || done). cbn in Hr. by rewrite Hr. }
  destruct ((head_code rest =? 45) || is_digit (head_code rest)) eqn:Hd.
  { destruct rest as [|c rest]; [done|]. cbn [head_code tail] in *.
    assert (Hcase : c = hyphen ∨ isdigit c = true).
    { apply orb_true_iff in Hd as [Hd|Hd]; [left; by apply byteZ_of, Z.eqb_eq|by right]. }
    destruct (scan_number_sound l1 c Hc Hcase) as [Hp|(num & src & rest' & Hn & Et & He & Ei')].
    { left. by rewrite E in Hp. }
    destruct (scan_number_ok num src rest' l1 c Hc Et Hn He Ei') as [Hdel Hi']. rewrite E in Hdel, Hi'. cbn in Hdel, Hi'.
    right. exists w, (number_text num). split; [done|].
    assert (Hsrc : c :: rest = number_text num ++ ia l') by (rewrite <- Et, Hi'; cbn; by rewrite <- Ei', Hi).
    split; [by rewrite Ei, Hsrc|].
    pose proof (delivers_integer num t l' Hdel) as [[-> _]|[[-> _]|[-> _]]]; by exists num. }
  destruct ((head_code rest =? 0) || (head_code rest =? -1)) eqn:Hz; injection E as <- <-; [|by left].
  right. destruct rest as [|c rest].
  - exists w, []. split; [done|]. cbn in Hi. rewrite Hi. split; [done|by left].
  - exists w, [x00]. cbn in Hi, Hz. split; [done|]. pose proof (byteZ_range c) as [? _].
    assert (Hc0 : byteZ c = 0) by lia. apply byteZ_of in Hc0 as ->. split; [by rewrite Hi|by right].
Qed.

(** ** Texts of the grammar are accepted *)

Lemma P_bind_ok {A B} (m : P A) (k : A → P B) p a p' : m p = Some (inr (a, p')) → (m ≫= k) p = k a p'.
Proof. intros E. unfold mbind, P_bind. by rewrite E. Qed.

Lemma P_bind_inv {A B} (m : P A) (k : A → P B) p b p'' :
  (m ≫= k) p = Some (inr (b, p'')) → ∃ a p', m p = Some (inr (a, p')) ∧ k a p' = Some (inr (b, p'')).
Proof. unfold mbind, P_bind. destruct (m p) as [[e|[a p']]|] eqn:E; try done. intros H. by exists a, p'. Qed.

Lemma get_token_bind {B} (k : unit → P B) p t l :
  scan (m_lexer p) = (t, l) → (get_token ≫= k) p = k tt (mkParser l t).
Proof. intros E. apply P_bind_ok. unfold get_token. by rewrite E. Qed.

Lemma token_bind {B} (k : token_type → P B) p : (token ≫= k) p = k (last_token p) p.
Proof. done. Qed.

Lemma expect_bind {B} t (k : unit → P B) l : (expect t ≫= k) (mkParser l t) = k tt (mkParser l t).
Proof. apply P_bind_ok. unfold expect. by rewrite decide_True. Qed.

Lemma expect_inv t p p' : expect t p = Some (inr (tt, p')) → last_token p = t ∧ p' = p.
Proof. unfold expect. case_decide; [|done]. by intros [= <-]. Qed.

Lemma number_not_discarded n : is_discarded (number_value n) = false.
Proof. unfold number_value. by repeat case_match. Qed.

Lemma gvalue_not_discarded huge t v : rvalue huge t v → is_discarded v = false.
Proof. destruct 1; try done. apply number_not_discarded. Qed.

Lemma gvalue_nonempty huge t v : rvalue huge t v → t ≠ [].
Proof. destruct 1; try done. by apply number_text_nonempty. Qed.

Section Accepted.
Context (huge : bool).

(** What follows a number without a finite value. *)
Definition overflows {A} (r : option (exception + A * parser)) : Prop := huge = true ∧ ∃ p, r = Some (inl (number_overflow p)).

Lemma overflows_bind {A B} (m : P A) (k : A → P B) p : overflows (m p) → overflows ((m ≫= k) p).
Proof. intros [Hh [q E]]. split; [done|]. exists q. unfold mbind, P_bind. by rewrite E. Qed.

(** A parser run reads a value and stops before [rest], or overflows. *)
Definition yields {A} (r : option (exception + A * parser)) (a : A) (rest : list byte) : Prop :=
  (∃ p', r = Some (inr (a, p')) ∧ ia (m_lexer p') = rest) ∨ overflows r.

Definition value_parsed (t : list byte) (v : json) : Prop := ∀ w l rest fuel tok l1,
  spaces w → ia l = w ++ t ++ rest → follows rest → (length t ≤ fuel)%nat → scan l = (tok, l1) →
  tok ≠ end_array ∧ yields (parse_internal fuel (mkParser l1 tok)) v rest.
Definition elements_parsed (es : list byte) (vs : list json) : Prop := ∀ l rest fuel tok l1 acc,
  ia l = es ++ punct 93 ++ rest → (length es < fuel)%nat → scan l = (tok, l1) →
  tok ≠ end_array ∧ yields (parse_elements fuel acc (mkParser l1 tok)) (j_array (acc ++ vs)) rest.
Definition members_parsed (ms : list byte) (kvs : list (list byte * json)) : Prop := ∀ l rest fuel tok l1 acc,
  ia l = ms ++ punct 125 ++ rest → (length ms < fuel)%nat → scan l = (tok, l1) →
  tok ≠ end_object ∧ yields (parse_members fuel acc (mkParser l1 tok)) (j_object (foldl add_member acc kvs)) rest.

(** One member, up to the token after its value. *)
Definition member_parsed (m : list byte) (kv : list byte * json) : Prop := ∀ l z rest fuel tok l1 acc sep,
  (z, sep) ∈ [(44, value_separator); (125, end_object)] →
  ia l = m ++ punct z ++ rest → (length m ≤ fuel)%nat → scan l = (tok, l1) →
  tok ≠ end_object ∧ (overflows (parse_members (S fuel) acc (mkParser l1 tok)) ∨ ∃ l2, ia l2 = rest ∧
    parse_members (S fuel) acc (mkParser l1 tok) =
      (if decide (sep = value_separator) then get_token;; parse_members fuel (add_member acc kv)
       else expect end_object;; mret (j_object (add_member acc kv))) (mkParser l2 sep)).

Lemma word_parsed s tok v :
  (s, tok) ∈ words → (∀ fuel l, parse_internal (S fuel) (mkParser l tok) = Some (inr (v, mkParser l tok))) →
  tok ≠ end_array → value_parsed (text s) v.
Proof.
  intros Hin Hp Ht w l rest fuel tok' l1 Hw E Hf Hl Hs. destruct (scan_word s tok w rest l Hin Hw E) as (l' & Es & Hi).
  rewrite Hs in Es. injection Es as -> ->. split; [done|]. destruct fuel as [|fuel].
  { exfalso. repeat (apply elem_of_cons in Hin as [[= -> ->]|Hin]; [cbn in Hl; lia|]). by apply elem_of_nil in Hin. }
  left. exists (mkParser l' tok). split; [apply Hp|done].
Qed.

Lemma string_parsed src cps : json_string src cps → value_parsed (quote :: src ++ [quote]) (j_string (utf8s cps)).
Proof.
  intros Hj w l rest fuel tok l1 Hw E Hf Hl Hs. destruct (scan_str src cps w rest l Hj Hw E) as (l' & Es & Hb & Hi).
  rewrite Hs in Es. injection Es as -> ->. split; [done|]. destruct fuel as [|fuel]; [cbn in Hl; lia|].
  left. eexists. split; [cbn [parse_internal]; rewrite token_bind; cbn [last_token]; rewrite <- Hb; reflexivity|done].
Qed.

Lemma number_parsed n : number_ok n → huge || is_finite (number_value n) = true → value_parsed (number_text n) (number_value n).
Proof.
  intros Hn Hfin w l rest fuel tok l1 Hw E Hf Hl Hs.
  destruct (scan_num n w rest l Hn Hw E (follows_ends n rest Hf)) as (t & l' & Es & Hd & Hi).
  rewrite Hs in Es. injection Es as -> ->.
  destruct fuel as [|fuel]; [apply number_text_nonempty in Hn; destruct (number_text n); [done|cbn in Hl; lia]|].
  destruct (delivers_integer n t l' Hd) as [[-> Hv]|[[-> Hv]|[-> Hv]]]; rewrite Hv in *; (split; [done|]).
  - left. by exists (mkParser l' value_unsigned).
  - left. by exists (mkParser l' value_integer).
  - cbn [parse_internal]. rewrite token_bind. cbn [last_token m_lexer]. cbn [is_finite] in Hfin. destruct (isfinite (m_float l')).
    + left. by exists (mkParser l' value_float).
    + rewrite orb_false_r in Hfin. right. split; [done|]. by eexists.
Qed.

Lemma array_parsed es vs : elements_parsed es vs → value_parsed (punct 91 ++ es ++ punct 93) (j_array vs).
Proof.
  intros He w l rest fuel tok l1 Hw E Hf Hl Hs. rewrite <- !app_assoc in E.
  destruct (scan_punct 91 begin_array w _ l ltac:(by left) Hw E) as (l' & Es & Hi).
  rewrite Hs in Es. injection Es as -> ->. split; [done|]. rewrite !length_app in Hl. cbn [length] in Hl.
  destruct fuel as [|fuel]; [cbn in Hl; lia|]. destruct (scan l') as [tok l2] eqn:Es2. cbn [parse_internal].
  destruct (He l' rest fuel tok l2 [] Hi) as [Ht Hy]; [cbn in Hl; lia|done|].
  rewrite token_bind. cbn [last_token]. rewrite (get_token_bind _ _ tok l2) by done.
  rewrite token_bind. cbn [last_token]. by rewrite decide_False.
Qed.

Lemma array_empty_parsed w : spaces w → value_parsed (punct 91 ++ w ++ punct 93) (j_array []).
Proof.
  intros Hw' w0 l rest fuel tok l1 Hw E Hf Hl Hs. rewrite <- !app_assoc in E.
  destruct (scan_punct 91 begin_array w0 _ l ltac:(by left) Hw E) as (l' & Es & Hi).
  rewrite Hs in Es. injection Es as -> ->. split; [done|]. destruct fuel as [|fuel]; [cbn in Hl; lia|].
  destruct (scan_punct 93 end_array w rest l' ltac:(by right; left) Hw' Hi) as (l2 & Es2 & Hi2).
  left. exists (mkParser l2 end_array). split; [|done]. cbn [parse_internal]. rewrite token_bind. cbn [last_token].
  by rewrite (get_token_bind _ _ end_array l2).
Qed.

Lemma object_parsed ms kvs :
  members_parsed ms kvs → value_parsed (punct 123 ++ ms ++ punct 125) (j_object (foldl add_member [] kvs)).
Proof.
  intros He w l rest fuel tok l1 Hw E Hf Hl Hs. rewrite <- !app_assoc in E.
  destruct (scan_punct 123 begin_object w _ l ltac:(by right; right; left) Hw E) as (l' & Es & Hi).
  rewrite Hs in Es. injection Es as -> ->. split; [done|]. rewrite !length_app in Hl. cbn [length] in Hl.
  destruct fuel as [|fuel]; [cbn in Hl; lia|]. destruct (scan l') as [tok l2] eqn:Es2. cbn [parse_internal].
  destruct (He l' rest fuel tok l2 [] Hi) as [Ht Hy]; [cbn in Hl; lia|done|].
  rewrite token_bind. cbn [last_token]. rewrite (get_token_bind _ _ tok l2) by done.
  rewrite token_bind. cbn [last_token]. by rewrite decide_False.
Qed.

Lemma object_empty_parsed w : spaces w → value_parsed (punct 123 ++ w ++ punct 125) (j_object []).
Proof.
  intros Hw' w0 l rest fuel tok l1 Hw E Hf Hl Hs. rewrite <- !app_assoc in E.
  destruct (scan_punct 123 begin_object w0 _ l ltac:(by right; right; left) Hw E) as (l' & Es & Hi).
  rewrite Hs in Es. injection Es as -> ->. split; [done|]. destruct fuel as [|fuel]; [cbn in Hl; lia|].
  destruct (scan_punct 125 end_object w rest l' ltac:(by right; right; right; left) Hw' Hi) as (l2 & Es2 & Hi2).
  left. exists (mkParser l2 end_object). split; [|done]. cbn [parse_internal]. rewrite token_bind. cbn [last_token].
  by rewrite (get_token_bind _ _ end_object l2).
Qed.

(** An element or value of a member, up to the token after it. *)
Lemma value_then {B} t v w1 w2 z sep rest l fuel tok l1 (k : json → token_type → P B) :
  (z, sep) ∈ puncts → z ∈ [44; 93; 125] → rvalue huge t v → value_parsed t v → spaces w1 → spaces w2 →
  ia l = w1 ++ t ++ w2 ++ punct z ++ rest → (length t ≤ fuel)%nat → scan l = (tok, l1) →
  let run := (v ← parse_internal fuel; get_token;; s ← token; k v s) (mkParser l1 tok) in
  tok ≠ end_array ∧ (overflows run ∨ ∃ l2, ia l2 = rest ∧ run = k v sep (mkParser l2 sep)).
Proof.
  intros Hin Hz Hg Hv Hw1 Hw2 E Hl Hs.
  destruct (Hv w1 l (w2 ++ punct z ++ rest) fuel tok l1 Hw1 E) as [Ht [(p' & Ep & Hi)|Ho]]; [|done..| |].
  { apply follows_space; [done|by apply follows_punct]. }
  2:{ split; [done|]. left. by apply overflows_bind. }
  split; [done|]. right. destruct (scan_punct z sep w2 rest (m_lexer p') Hin Hw2 Hi) as (l2 & Es2 & Hi2).
  exists l2. split; [done|]. rewrite (P_bind_ok _ _ _ _ _ Ep). by rewrite (get_token_bind _ _ sep l2).
Qed.

Lemma elements_last w1 t w2 v :
  spaces w1 → rvalue huge t v → value_parsed t v → spaces w2 → elements_parsed (w1 ++ t ++ w2) [v].
Proof.
  intros Hw1 Hg Hv Hw2 l rest fuel tok l1 acc E Hl Hs. rewrite <- !app_assoc in E. rewrite !length_app in Hl.
  destruct fuel as [|fuel]; [lia|]. cbn [parse_elements].
  destruct (value_then t v w1 w2 93 end_array rest l fuel tok l1
    (λ value t', if decide (t' = value_separator)
       then get_token;; parse_elements fuel (if is_discarded value then acc else acc ++ [value])
       else expect end_array;; mret (j_array (if is_discarded value then acc else acc ++ [value])))) as (Ht & [Ho|(l2 & Hi & ->)]); try done; [by right; left|by right; left|lia|by split; [|right]|].
  split; [done|]. rewrite (gvalue_not_discarded _ t v Hg). rewrite decide_False by done. rewrite expect_bind.
  left. by exists (mkParser l2 end_array).
Qed.

Lemma elements_more w1 t w2 es v vs :
  spaces w1 → rvalue huge t v → value_parsed t v → spaces w2 → elements_parsed es vs →
  elements_parsed (w1 ++ t ++ w2 ++ punct 44 ++ es) (v :: vs).
Proof.
  intros Hw1 Hg Hv Hw2 He l rest fuel tok l1 acc E Hl Hs. rewrite <- !app_assoc in E. rewrite !length_app in Hl.
  cbn [length] in Hl. destruct fuel as [|fuel]; [lia|]. cbn [parse_elements].
  destruct (value_then t v w1 w2 44 value_separator (es ++ punct 93 ++ rest) l fuel tok l1
    (λ value t', if decide (t' = value_separator)
       then get_token;; parse_elements fuel (if is_discarded value then acc else acc ++ [value])
       else expect end_array;; mret (j_array (if is_discarded value then acc else acc ++ [value])))) as (Ht & [Ho|(l2 & Hi & ->)]); try done;
    [by do 5 right; left|by left|lia|by split; [|right]|].
  split; [done|]. rewrite (gvalue_not_discarded _ t v Hg). rewrite decide_True by done.
  destruct (scan l2) as [tok3 l3] eqn:Es3. rewrite (get_token_bind _ _ tok3 l3) by done.
  destruct (He l2 rest fuel tok3 l3 (acc ++ [v]) Hi) as [_ Hy]; [cbn in Hl; lia|done|].
  by rewrite <- app_assoc in Hy.
Qed.

Lemma member_one w1 src cps w2 w3 t w4 v :
  spaces w1 → json_string src cps → spaces w2 → spaces w3 → rvalue huge t v → value_parsed t v → spaces w4 →
  member_parsed (w1 ++ (quote :: src ++ [quote]) ++ w2 ++ punct 58 ++ w3 ++ t ++ w4) (utf8s cps, v).
Proof.
  intros Hw1 Hj Hw2 Hw3 Hg Hv Hw4 l z rest fuel tok l1 acc sep Hin E Hl Hs. rewrite <- !app_assoc in E.
  destruct (scan_str src cps w1 _ l Hj Hw1 E) as (l' & Es & Hb & Hi). rewrite Hs in Es. injection Es as -> ->.
  split; [done|]. cbn [parse_members]. rewrite expect_bind.
  rewrite (P_bind_ok take_string _ _ (utf8s cps) (mkParser (move_string l').2 value_string)) by (by rewrite <- Hb).
  destruct (scan_punct 58 name_separator w2 _ (move_string l').2 ltac:(by do 4 right; left) Hw2 Hi) as (l2 & Es2 & Hi2).
  rewrite (get_token_bind _ _ name_separator l2) by done. rewrite expect_bind.
  destruct (scan l2) as [tok3 l3] eqn:Es3. rewrite (get_token_bind _ _ tok3 l3) by done.
  destruct (value_then t v w3 w4 z sep rest l2 fuel tok3 l3
    (λ value t', if decide (t' = value_separator)
       then get_token;; parse_members fuel (if is_discarded value then acc else emplace (utf8s cps) value acc)
       else expect end_object;; mret (j_object (if is_discarded value then acc else emplace (utf8s cps) value acc)))) as (_ & [Ho|(l4 & Hi4 & ->)]); try done.
  - repeat (apply elem_of_cons in Hin as [[= -> ->]|Hin]; [|]); [by do 5 right; left|by do 3 right; left|].
    by apply elem_of_nil in Hin.
  - repeat (apply elem_of_cons in Hin as [[= -> ->]|Hin]; [|]); [by left|by do 2 right; left|].
    by apply elem_of_nil in Hin.
  - rewrite !length_app in Hl. lia.
  - by left.
  - right. exists l4. split; [done|]. by rewrite (gvalue_not_discarded _ t v Hg).
Qed.

Lemma members_last m kv : member_parsed m kv → members_parsed m [kv].
Proof.
  intros Hm l rest fuel tok l1 acc E Hl Hs. destruct fuel as [|fuel]; [lia|].
  destruct (Hm l 125 rest fuel tok l1 acc end_object) as (Ht & [Ho|(l2 & Hi & Ep)]);
    [by right; left|done|lia|done|by split; [|right]|].
  split; [done|]. rewrite Ep, decide_False by done. rewrite expect_bind. left. by exists (mkParser l2 end_object).
Qed.

Lemma members_more m ms kv kvs :
  member_parsed m kv → members_parsed ms kvs → members_parsed (m ++ punct 44 ++ ms) (kv :: kvs).
Proof.
  intros Hm Hms l rest fuel tok l1 acc E Hl Hs. rewrite <- !app_assoc in E. rewrite !length_app in Hl. cbn [length] in Hl.
  destruct fuel as [|fuel]; [lia|].
  destruct (Hm l 44 (ms ++ punct 125 ++ rest) fuel tok l1 acc value_separator) as (Ht & [Ho|(l2 & Hi & Ep)]);
    [by left|done|lia|done|by split; [|right]|].
  split; [done|]. rewrite Ep, decide_True by done.
  destruct (scan l2) as [tok3 l3] eqn:Es3. rewrite (get_token_bind _ _ tok3 l3) by done.
  apply (Hms l2 rest fuel tok3 l3 (add_member acc kv) Hi); [cbn in Hl; lia|done].
Qed.

(** Every text of the grammar is read whole, with its value, up to a number that overflows. *)
Lemma grammar_parsed :
  (∀ t v, rvalue huge t v → value_parsed t v) ∧ (∀ es vs, relements huge es vs → elements_parsed es vs) ∧
  (∀ ms kvs, rmembers huge ms kvs → members_parsed ms kvs) ∧ (∀ m kv, rmember huge m kv → member_parsed m kv).
Proof.
  apply grammar_ind; intros.
  - by apply (word_parsed _ literal_null); [right; right; left|..].
  - by apply (word_parsed _ literal_true); [left|..].
  - by apply (word_parsed _ literal_false); [right; left|..].
  - by apply string_parsed.
  - by apply number_parsed.
  - by apply array_empty_parsed.
  - by apply array_parsed.
  - by apply object_empty_parsed.
  - by apply object_parsed.
  - by apply elements_last.
  - by apply elements_more.
  - by apply members_last.
  - by apply members_more.
  - by apply member_one.
Qed.

End Accepted.

(** ** What is accepted is a text of the grammar *)

Definition value_sound (fuel : nat) : Prop := ∀ l t l1 v p',
  scan l = (t, l1) → parse_internal fuel (mkParser l1 t) = Some (inr (v, p')) →
  ∃ w txt, spaces w ∧ ia l = w ++ txt ++ ia (m_lexer p') ∧ gvalue txt v.
Definition elements_sound (fuel : nat) : Prop := ∀ l t l1 acc v p',
  scan l = (t, l1) → parse_elements fuel acc (mkParser l1 t) = Some (inr (v, p')) →
  ∃ es vs, ia l = es ++ punct 93 ++ ia (m_lexer p') ∧ gelements es vs ∧ v = j_array (acc ++ vs).
Definition members_sound (fuel : nat) : Prop := ∀ l t l1 acc v p',
  scan l = (t, l1) → parse_members fuel acc (mkParser l1 t) = Some (inr (v, p')) →
  ∃ ms kvs, ia l = ms ++ punct 125 ++ ia (m_lexer p') ∧ gmembers ms kvs ∧ v = j_object (foldl add_member acc kvs).

Lemma get_token_inv {B} (k : unit → P B) p r :
  (get_token ≫= k) p = r → ∃ t l, scan (m_lexer p) = (t, l) ∧ k tt (mkParser l t) = r.
Proof.
  intros E. destruct (scan (m_lexer p)) as [t l] eqn:Es. rewrite (get_token_bind _ _ t l Es) in E. by exists t, l.
Qed.

Lemma expect_bind_inv {B} t (k : unit → P B) p b p' :
  (expect t ≫= k) p = Some (inr (b, p')) → last_token p = t ∧ k tt p = Some (inr (b, p')).
Proof. intros E. apply P_bind_inv in E as ([] & p1 & E1 & E). apply expect_inv in E1 as [Ht ->]. by split. Qed.

(** The text of a token that is not an error. *)
Lemma scan_spells l t l' :
  scan l = (t, l') → t ≠ parse_error → ∃ w src, spaces w ∧ ia l = w ++ src ++ ia l' ∧ spells t src l'.
Proof. intros E Ht. by destruct (scan_inv l t l' E). Qed.

Lemma array_sound fuel l l1 v p' w :
  elements_sound fuel → spaces w → ia l = w ++ punct 91 ++ ia l1 →
  (get_token;; t ← token; if decide (t = end_array) then mret (j_array []) else parse_elements fuel [])
    (mkParser l1 begin_array) = Some (inr (v, p')) →
  ∃ w txt, spaces w ∧ ia l = w ++ txt ++ ia (m_lexer p') ∧ gvalue txt v.
Proof.
  intros He Hw Hi E. apply get_token_inv in E as (t & l2 & Es & E). rewrite token_bind in E. cbn [last_token] in E.
  cbn [m_lexer] in Es. destruct (decide (t = end_array)) as [->|Ht].
  - injection E as <- <-. destruct (scan_spells _ _ _ Es) as (w2 & src & Hw2 & Hi2 & Hs); [done|]. cbn in Hs. subst src.
    exists w, (punct 91 ++ w2 ++ punct 93). split_and!; [done| |by constructor]. cbn [m_lexer].
    rewrite Hi, Hi2. by rewrite <- !app_assoc.
  - apply (He l1 t l2) in E as (es & vs & Hi2 & Hg & ->); [|done]. exists w, (punct 91 ++ es ++ punct 93).
    split_and!; [done| |by constructor]. rewrite Hi, Hi2. by rewrite <- !app_assoc.
Qed.

Lemma object_sound fuel l l1 v p' w :
  members_sound fuel → spaces w → ia l = w ++ punct 123 ++ ia l1 →
  (get_token;; t ← token; if decide (t = end_object) then mret (j_object []) else parse_members fuel [])
    (mkParser l1 begin_object) = Some (inr (v, p')) →
  ∃ w txt, spaces w ∧ ia l = w ++ txt ++ ia (m_lexer p') ∧ gvalue txt v.
Proof.
  intros He Hw Hi E. apply get_token_inv in E as (t & l2 & Es & E). rewrite token_bind in E. cbn [last_token] in E.
  cbn [m_lexer] in Es. destruct (decide (t = end_object)) as [->|Ht].
  - injection E as <- <-. destruct (scan_spells _ _ _ Es) as (w2 & src & Hw2 & Hi2 & Hs); [done|]. cbn in Hs. subst src.
    exists w, (punct 123 ++ w2 ++ punct 125). split_and!; [done| |by constructor]. cbn [m_lexer].
    rewrite Hi, Hi2. by rewrite <- !app_assoc.
  - apply (He l1 t l2) in E as (ms & kvs & Hi2 & Hg & ->); [|done]. exists w, (punct 123 ++ ms ++ punct 125).
    split_and!; [done| |by constructor]. rewrite Hi, Hi2. by rewrite <- !app_assoc.
Qed.

Lemma value_sound_step fuel : elements_sound fuel → members_sound fuel → value_sound (S fuel).
Proof.
  intros He Hm l t l1 v p' Es E. cbn [parse_internal] in E. rewrite token_bind in E. cbn [last_token] in E.
  destruct (decide (t = parse_error)) as [->|Hne].
  { by apply expect_bind_inv in E as [Ht _]. }
  destruct (scan_spells l t l1 Es Hne) as (w & src & Hw & Hi & Hs).
  destruct t; try (by apply expect_bind_inv in E as [Ht _]); cbn [spells] in Hs; try subst src.
  - injection E as <- <-. exists w, (text "true"). split_and!; [done..|constructor].
  - injection E as <- <-. exists w, (text "false"). split_and!; [done..|constructor].
  - injection E as <- <-. exists w, (text "null"). split_and!; [done..|constructor].
  - injection E as <- <-. destruct Hs as (s & cps & Hj & -> & Hb). exists w, (quote :: s ++ [quote]).
    split_and!; [done..|]. rewrite Hb. by constructor.
  - injection E as <- <-. destruct Hs as (n & Hn & -> & Hd). exists w, (number_text n). split_and!; [done..|].
    cbn [m_lexer]. destruct (delivers_integer _ _ _ Hd) as [[_ Hv]|[[? _]|[? _]]]; [|done..]. rewrite <- Hv.
    apply g_number; [done|by rewrite Hv].
  - injection E as <- <-. destruct Hs as (n & Hn & -> & Hd). exists w, (number_text n). split_and!; [done..|].
    cbn [m_lexer]. destruct (delivers_integer _ _ _ Hd) as [[? _]|[[_ Hv]|[? _]]]; [done| |done]. rewrite <- Hv.
    apply g_number; [done|by rewrite Hv].
  - cbn [m_lexer] in E. destruct (isfinite (m_float l1)) eqn:Ef; [|done]. injection E as <- <-.
    destruct Hs as (n & Hn & -> & Hd). exists w, (number_text n). split_and!; [done..|].
    destruct (delivers_integer _ _ _ Hd) as [[? _]|[[? _]|[_ Hv]]]; [done..|]. rewrite <- Hv.
    apply g_number; [done|by rewrite Hv].
  - by eapply array_sound.
  - by eapply object_sound.
Qed.

Lemma elements_sound_step fuel : value_sound fuel → elements_sound fuel → elements_sound (S fuel).
Proof.
  intros Hv He l t l1 acc v p' Es E. cbn [parse_elements] in E.
  apply P_bind_inv in E as (v1 & p1 & Ep & E). destruct (Hv l t l1 v1 p1 Es Ep) as (w & txt & Hw & Hi & Hg).
  rewrite (gvalue_not_discarded _ _ _ Hg) in E. apply get_token_inv in E as (t2 & l2 & Es2 & E).
  rewrite token_bind in E. cbn [last_token] in E. destruct (decide (t2 = value_separator)) as [->|Ht2].
  - destruct (scan_spells _ _ _ Es2) as (w2 & src & Hw2 & Hi2 & Hs); [done|]. cbn in Hs. subst src.
    apply get_token_inv in E as (t3 & l3 & Es3 & E). cbn [m_lexer] in Es3.
    destruct (He l2 t3 l3 (acc ++ [v1]) v p' Es3 E) as (es & vs & Hi3 & Hg3 & ->).
    exists (w ++ txt ++ w2 ++ punct 44 ++ es), (v1 :: vs). split_and!; [|by constructor|by rewrite <- app_assoc].
    rewrite Hi, Hi2, Hi3. by rewrite <- !app_assoc.
  - apply expect_bind_inv in E as [Ht E]. cbn [last_token] in Ht. subst t2. injection E as <- <-. cbn [m_lexer].
    destruct (scan_spells _ _ _ Es2) as (w2 & src & Hw2 & Hi2 & Hs); [done|]. cbn in Hs. subst src.
    exists (w ++ txt ++ w2), [v1]. split_and!; [|by constructor|done]. rewrite Hi, Hi2. by rewrite <- !app_assoc.
Qed.

Lemma members_sound_step fuel : value_sound fuel → members_sound fuel → members_sound (S fuel).
Proof.
  intros Hv Hm l t l1 acc v p' Es E. cbn [parse_members] in E.
  apply expect_bind_inv in E as [Ht E]. cbn [last_token] in Ht. subst t.
  destruct (scan_spells _ _ _ Es) as (w1 & src & Hw1 & Hi1 & (s & cps & Hj & -> & Hb)); [done|].
  rewrite (P_bind_ok take_string _ _ (utf8s cps) (mkParser (move_string l1).2 value_string)) in E by (by rewrite <- Hb).
  apply get_token_inv in E as (t2 & l2 & Es2 & E). apply expect_bind_inv in E as [Ht E]. cbn [last_token] in Ht. subst t2.
  destruct (scan_spells _ _ _ Es2) as (w2 & src & Hw2 & Hi2 & Hs); [done|]. cbn in Hs, Hi2. subst src.
  apply get_token_inv in E as (t3 & l3 & Es3 & E). cbn [m_lexer] in Es3.
  apply P_bind_inv in E as (v1 & p1 & Ep & E). destruct (Hv l2 t3 l3 v1 p1 Es3 Ep) as (w3 & txt & Hw3 & Hi3 & Hg).
  rewrite (gvalue_not_discarded _ _ _ Hg) in E. apply get_token_inv in E as (t4 & l4 & Es4 & E).
  rewrite token_bind in E. cbn [last_token] in E.
  assert (Hone : ∀ w4, spaces w4 → gmember (w1 ++ (quote :: s ++ [quote]) ++ w2 ++ punct 58 ++ w3 ++ txt ++ w4) (utf8s cps, v1))
    by (intros w4 Hw4; by constructor).
  destruct (decide (t4 = value_separator)) as [->|Ht4].
  - destruct (scan_spells _ _ _ Es4) as (w4 & src & Hw4 & Hi4 & Hs); [done|]. cbn in Hs. subst src.
    apply get_token_inv in E as (t5 & l5 & Es5 & E). cbn [m_lexer] in Es5.
    destruct (Hm l4 t5 l5 (emplace (utf8s cps) v1 acc) v p' Es5 E) as (ms & kvs & Hi5 & Hg5 & ->).
    eexists _, ((utf8s cps, v1) :: kvs). split_and!; [|apply gm_more; [by apply (Hone w4)|done]|done].
    rewrite Hi1, Hi2, Hi3, Hi4, Hi5. by rewrite <- !app_assoc.
  - apply expect_bind_inv in E as [Ht E]. cbn [last_token] in Ht. subst t4. injection E as <- <-. cbn [m_lexer].
    destruct (scan_spells _ _ _ Es4) as (w4 & src & Hw4 & Hi4 & Hs); [done|]. cbn in Hs. subst src.
    eexists _, [(utf8s cps, v1)]. split_and!; [|apply gm_last, (Hone w4 Hw4)|done].
    rewrite Hi1, Hi2, Hi3, Hi4. by rewrite <- !app_assoc.
Qed.

Lemma parse_sound fuel : value_sound fuel ∧ elements_sound fuel ∧ members_sound fuel.
Proof.
  induction fuel as [|fuel (Hv & He & Hm)]; [by split_and!|].
  split_and!; [by apply value_sound_step|by apply elements_sound_step|by apply members_sound_step].
Qed.

(** ** The parser always returns *)

(** Reading a token shortens the input, except at its end. *)
Lemma spells_nonempty t src l : spells t src l → t ≠ end_of_input → src ≠ [].
Proof.
  intros Hs Ht. destruct t; cbn in Hs; try done; try (by subst src); try (destruct Hs as (n & Hn & -> & _); by apply number_text_nonempty).
  by destruct Hs as (s & cps & _ & -> & _).
Qed.

Lemma scan_shrinks l t l' :
  scan l = (t, l') → t ≠ parse_error → t ≠ end_of_input → (length (ia l') < length (ia l))%nat.
Proof.
  intros E H1 H2. destruct (scan_spells l t l' E H1) as (w & src & _ & Hi & Hs). apply spells_nonempty in Hs; [|done].
  rewrite Hi, !length_app. destruct src; [done|]. cbn. lia.
Qed.

Lemma P_bind_none {A B} (m : P A) (k : A → P B) p :
  (m ≫= k) p = None → m p = None ∨ ∃ a p', m p = Some (inr (a, p')) ∧ k a p' = None.
Proof. unfold mbind, P_bind. destruct (m p) as [[e|[a p']]|] eqn:E; try done; [|by left]. intros H. right. by exists a, p'. Qed.

Lemma expect_none {B} t (k : unit → P B) p : (expect t ≫= k) p = None → last_token p = t ∧ k tt p = None.
Proof.
  intros [E|([] & p' & E1 & E)]%P_bind_none; [unfold expect in E; by case_decide|].
  apply expect_inv in E1 as [Ht ->]. by split.
Qed.

Definition bad_token (t : token_type) : Prop := t = parse_error ∨ t = end_of_input.

Definition value_total (fuel : nat) : Prop := ∀ l t,
  (2 * length (ia l) + 3 ≤ fuel)%nat ∨ (1 ≤ fuel)%nat ∧ bad_token t → parse_internal fuel (mkParser l t) ≠ None.
Definition elements_total (fuel : nat) : Prop := ∀ l t l1 acc,
  scan l = (t, l1) → (2 * length (ia l) + 2 ≤ fuel)%nat → parse_elements fuel acc (mkParser l1 t) ≠ None.
Definition members_total (fuel : nat) : Prop := ∀ l t l1 acc,
  scan l = (t, l1) → (2 * length (ia l) + 2 ≤ fuel)%nat → parse_members fuel acc (mkParser l1 t) ≠ None.

(** A value whose first token comes from [l] has fuel if [l]'s input does. *)
Lemma value_total_from fuel l t l1 :
  value_total fuel → scan l = (t, l1) → (2 * length (ia l) + 1 ≤ fuel)%nat → parse_internal fuel (mkParser l1 t) ≠ None.
Proof.
  intros Hv Es Hf. apply Hv. destruct (decide (t = parse_error)) as [->|H1]; [right; split; [lia|by left]|].
  destruct (decide (t = end_of_input)) as [->|H2]; [right; split; [lia|by right]|].
  left. pose proof (scan_shrinks l t l1 Es H1 H2). lia.
Qed.

Lemma value_shortens fuel l t l1 v p' :
  scan l = (t, l1) → parse_internal fuel (mkParser l1 t) = Some (inr (v, p')) →
  (length (ia (m_lexer p')) < length (ia l))%nat.
Proof.
  intros Es E. destruct (parse_sound fuel) as (Hs & _). destruct (Hs l t l1 v p' Es E) as (w & txt & _ & Hi & Hg).
  apply gvalue_nonempty in Hg. rewrite Hi, !length_app. destruct txt; [done|]. cbn. lia.
Qed.

Lemma value_total_step fuel : elements_total fuel → members_total fuel → value_total (S fuel).
Proof.
  intros He Hm l t Hf E. cbn [parse_internal] in E. rewrite token_bind in E. cbn [last_token] in E.
  destruct t; try done; try (by apply expect_none in E as [_ E]).
  - cbn [m_lexer] in E. by destruct (isfinite (m_float l)).
  - apply get_token_inv in E as (t & l2 & Es & E). rewrite token_bind in E. cbn [last_token] in E. case_decide; [done|].
    revert E. apply (He l t l2); [done|]. destruct Hf as [|[_ [?|?]]]; [lia|done..].
  - apply get_token_inv in E as (t & l2 & Es & E). rewrite token_bind in E. cbn [last_token] in E. case_decide; [done|].
    revert E. apply (Hm l t l2); [done|]. destruct Hf as [|[_ [?|?]]]; [lia|done..].
Qed.

Lemma elements_total_step fuel : value_total fuel → elements_total fuel → elements_total (S fuel).
Proof.
  intros Hv He l t l1 acc Es Hf E. cbn [parse_elements] in E. apply P_bind_none in E as [E|(v & p1 & Ep & E)].
  { revert E. apply (value_total_from fuel l); [done|done|lia]. }
  pose proof (value_shortens _ _ _ _ _ _ Es Ep) as Hlen.
  apply get_token_inv in E as (t2 & l2 & Es2 & E). rewrite token_bind in E. cbn [last_token] in E. case_decide as Ht2.
  - subst t2. apply get_token_inv in E as (t3 & l3 & Es3 & E). cbn [m_lexer] in Es3.
    pose proof (scan_shrinks _ _ _ Es2 ltac:(done) ltac:(done)) as Hl2. revert E. apply (He l2 t3 l3); [done|]. lia.
  - by apply expect_none in E as [_ E].
Qed.

Lemma members_total_step fuel : value_total fuel → members_total fuel → members_total (S fuel).
Proof.
  intros Hv Hm l t l1 acc Es Hf E. cbn [parse_members] in E. apply expect_none in E as [Ht E]. cbn [last_token] in Ht.
  subst t. pose proof (scan_shrinks _ _ _ Es ltac:(done) ltac:(done)) as Hl1.
  apply P_bind_none in E as [E|(key & p1 & Ek & E)]; [done|]. injection Ek as <- <-.
  apply get_token_inv in E as (t2 & l2 & Es2 & E). apply expect_none in E as [Ht E]. cbn [last_token] in Ht. subst t2.
  pose proof (scan_shrinks _ _ _ Es2 ltac:(done) ltac:(done)) as Hl2. cbn in Hl2.
  apply get_token_inv in E as (t3 & l3 & Es3 & E). cbn [m_lexer] in Es3.
  apply P_bind_none in E as [E|(v & p1 & Ep & E)].
  { revert E. apply (value_total_from fuel l2); [done|done|lia]. }
  pose proof (value_shortens _ _ _ _ _ _ Es3 Ep) as Hlen.
  apply get_token_inv in E as (t4 & l4 & Es4 & E). rewrite token_bind in E. cbn [last_token] in E. case_decide as Ht4.
  - subst t4. apply get_token_inv in E as (t5 & l5 & Es5 & E). cbn [m_lexer] in Es5.
    pose proof (scan_shrinks _ _ _ Es4 ltac:(done) ltac:(done)) as Hl4. revert E. apply (Hm l4 t5 l5); [done|]. lia.
  - by apply expect_none in E as [_ E].
Qed.

Lemma parse_total fuel : value_total fuel ∧ elements_total fuel ∧ members_total fuel.
Proof.
  induction fuel as [|fuel (Hv & He & Hm)].
  - split_and!; [intros l t [?|[? _]]; lia|intros ? ? ? ? ? ?; lia..].
  - split_and!; [by apply value_total_step|by apply elements_total_step|by apply members_total_step].
Qed.

(** ** The parser as a whole *)

(** What the parser reads of the input: nothing after a NUL. *)
Fixpoint cut_nul (s : list byte) : list byte :=
  match s with
  | [] => []
  | c :: s => if decide (c = x00) then [] else c :: cut_nul s
  end.

(** What a text may have after it. *)
Definition ending (rest : list byte) : Prop := rest = [] ∨ ∃ junk, rest = x00 :: junk.

Lemma cut_nul_split s : ∃ rest, s = cut_nul s ++ rest ∧ ending rest.
Proof.
  induction s as [|c s (rest & E & Hr)]; [exists []; split; [done|by left]|]. cbn. case_decide as Hc.
  - subst c. exists (x00 :: s). split; [done|]. right. by exists s.
  - exists rest. split; [by rewrite E at 1|done].
Qed.

Definition no_nul (s : list byte) : Prop := Forall (λ c, c ≠ x00) s.

Lemma cut_nul_app s rest : no_nul s → ending rest → cut_nul (s ++ rest) = s.
Proof.
  intros Hs Hr. induction Hs as [|c s Hc Hs IH]; cbn.
  - by destruct Hr as [->|[junk ->]].
  - by rewrite decide_False, IH.
Qed.

Lemma no_nul_when (f : byte → bool) s : f x00 = false → Forall (λ c, f c = true) s → no_nul s.
Proof. intros Hf H. eapply Forall_impl; [|exact H]. intros c Hc ->. congruence. Qed.

Lemma spaces_no_nul w : spaces w → no_nul w.
Proof. by apply (no_nul_when (λ c, is_space (byteZ c))). Qed.

Lemma int_digits_no_nul ds : all_digits ds → no_nul ds.
Proof. by apply no_nul_when. Qed.

Lemma number_no_nul n : number_ok n → no_nul (number_text n).
Proof.
  intros ([Hi _] & Hf & He). unfold number_text, no_nul. rewrite !Forall_app. split_and!.
  - destruct (n_neg n); [by repeat constructor|constructor].
  - by apply int_digits_no_nul.
  - unfold frac_text. destruct (n_frac n); [constructor|]. constructor; [done|by apply int_digits_no_nul].
  - unfold exp_text. destruct (n_exp n) as [[[e sg] ds] |]; [|constructor]. destruct He as (He & Hsg & Hds & _). constructor; [by intros ->|].
    apply Forall_app. split; [destruct Hsg as [-> | [-> | ->]]; by repeat constructor|by apply int_digits_no_nul].
Qed.

Lemma hex_no_nul ds cp : hex4 (map byteZ ds) = Some cp → no_nul ds.
Proof.
  unfold hex4. destruct ds as [|a [|b [|c [|d [|]]]]]; try done. cbn [map]. intros H. repeat apply Forall_cons_2; [..|apply Forall_nil_2];
    intros ->; change (hexval (byteZ x00)) with (@None Z) in H; by repeat (destruct (hexval _); cbn in H).
Qed.

Lemma utf8_no_nul cp : scalar cp → 0x20 ≤ cp → no_nul (utf8 cp).
Proof.
  intros Hs Hcp. assert (H : Forall (λ z, z ≠ 0) (map byteZ (utf8 cp))).
  { rewrite utf8_byteZ by done. unfold utf8Z, scalar in *. repeat case_match; repeat constructor; divlia. }
  apply Forall_forall. intros c Hc ->. rewrite Forall_forall in H. apply (H 0); [|done].
  apply in_map_iff. by exists x00.
Qed.

Lemma string_no_nul src cps : json_string src cps → no_nul src.
Proof.
  induction 1 as [|src cp srcs cps Hc _ IH]; [constructor|]. apply Forall_app. split; [|exact IH].
  destruct Hc as [cp Hs Hlo _ _|c cp Hin|ds cp Hd _|ds1 ds2 hi lo H1 H2 _ _].
  - by apply utf8_no_nul.
  - unfold short_escapes in Hin. repeat (apply elem_of_cons in Hin as [[= -> ->]|Hin]; [by repeat constructor|]). by apply elem_of_nil in Hin.
  - do 2 (constructor; [done|]). by apply (hex_no_nul _ cp).
  - apply Forall_app. split; (do 2 (constructor; [done|])); [by apply (hex_no_nul _ hi)|by apply (hex_no_nul _ lo)].
Qed.

Lemma quoted_no_nul src cps : json_string src cps → no_nul (quote :: src ++ [quote]).
Proof. intros H%string_no_nul. constructor; [done|]. apply Forall_app. split; [done|by repeat constructor]. Qed.

(** No text of the grammar has a NUL. *)
Lemma grammar_no_nul huge :
  (∀ t v, rvalue huge t v → no_nul t) ∧ (∀ t vs, relements huge t vs → no_nul t) ∧
  (∀ t kvs, rmembers huge t kvs → no_nul t) ∧ (∀ t kv, rmember huge t kv → no_nul t).
Proof.
  apply grammar_ind; intros; unfold no_nul; rewrite ?Forall_app; split_and?;
    try solve [done | by apply (bool_decide_unpack _); vm_compute | by apply spaces_no_nul | by eapply number_no_nul | by repeat constructor].
  - by eapply quoted_no_nul.
  - by eapply quoted_no_nul.
Qed.

Lemma text_no_nul huge s v : json_text huge s v → no_nul s.
Proof.
  intros (w1 & t & w2 & Hw1 & Hg & Hw2 & ->). unfold no_nul. rewrite !Forall_app.
  split_and!; [by apply spaces_no_nul|by eapply (proj1 (grammar_no_nul huge))|by apply spaces_no_nul].
Qed.

Lemma skip_bom_length input : (length (skip_bom input) ≤ length input)%nat.
Proof. unfold skip_bom. destruct input as [|a [|b [|c rest]]]; try done. case_match; cbn; lia. Qed.

Lemma parse_start strict input : ∃ t l, scan (lexer_make input) = (t, l) ∧
  parse strict input = (result ← parse_internal (fuel_for input);
    if strict then get_token;; expect end_of_input;; mret result else mret result) (mkParser l t).
Proof.
  destruct (scan (lexer_make input)) as [t l] eqn:Es. exists t, l. split; [done|]. unfold parse.
  by rewrite (get_token_bind _ _ t l).
Qed.

Lemma parse_returns strict input : parse strict input ≠ None.
Proof.
  destruct (parse_start strict input) as (t & l & Es & ->). intros E. apply P_bind_none in E as [E|(v & p & E1 & E)].
  - revert E. apply (value_total_from _ (lexer_make input)); [apply parse_total|done|].
    pose proof (skip_bom_length input). unfold fuel_for. cbn. lia.
  - destruct strict; [|done]. apply get_token_inv in E as (t2 & l2 & _ & E). by apply expect_none in E as [_ E].
Qed.

(** A text in front of something that does not continue it. *)
Lemma parse_accepts huge strict input w t rest v :
  spaces w → rvalue huge t v → skip_bom input = w ++ t ++ rest → follows rest →
  (∃ p, ia (m_lexer p) = rest ∧ parse strict input = (if strict then get_token;; expect end_of_input;; mret v else mret v) p) ∨
  overflows huge (parse strict input).
Proof.
  intros Hw Hg Ei Hf. destruct (parse_start strict input) as (tok & l & Es & ->).
  destruct (proj1 (grammar_parsed huge) t v Hg w (lexer_make input) rest (fuel_for input) tok l Hw Ei Hf) as [_ [(p & Ep & Hi)|Ho]];
    [|done| |].
  { apply (f_equal length) in Ei. rewrite !length_app in Ei. pose proof (skip_bom_length input). unfold fuel_for. lia. }
  - left. exists p. split; [done|]. by rewrite (P_bind_ok _ _ _ _ _ Ep).
  - right. by apply overflows_bind.
Qed.

Lemma parse_yields strict input v p :
  parse strict input = Some (inr (v, p)) →
  ∃ w t p1, spaces w ∧ gvalue t v ∧ skip_bom input = w ++ t ++ ia (m_lexer p1) ∧
    (if strict then get_token;; expect end_of_input;; mret v else mret v) p1 = Some (inr (v, p)).
Proof.
  destruct (parse_start strict input) as (tok & l & Es & ->). intros E. apply P_bind_inv in E as (v1 & p1 & Ep & E).
  destruct (proj1 (parse_sound _) (lexer_make input) tok l v1 p1 Es Ep) as (w & t & Hw & Hi & Hg).
  assert (v1 = v) as ->.
  { destruct strict; [|by injection E].
    apply get_token_inv in E as (t2 & l2 & _ & E). apply expect_bind_inv in E as [_ E]. by injection E. }
  by exists w, t, p1.
Qed.

Lemma end_of_input_inv l l' :
  scan l = (end_of_input, l') → ∃ w rest, spaces w ∧ ia l = w ++ rest ∧ ending rest.
Proof.
  intros E. destruct (scan_spells _ _ _ E) as (w & src & Hw & Hi & Hs); [done|]. exists w, (src ++ ia l').
  split_and!; [done..|]. destruct Hs as [[-> ->]| ->]; [by left|right; by exists (ia l')].
Qed.

Lemma scan_end w rest l :
  spaces w → ia l = w ++ rest → ending rest → ∃ l', scan l = (end_of_input, l').
Proof.
  intros Hw E Hr. destruct (scan_lead w rest l) as (l1 & -> & Hc & _); [done| |done|].
  - by destruct Hr as [->|[junk ->]].
  - exists l1. unfold scan_from. rewrite Hc. by destruct Hr as [->|[junk ->]].
Qed.

Lemma end_follows w rest : spaces w → ending rest → follows (w ++ rest).
Proof. intros Hw Hr. apply follows_space; [done|]. by destruct Hr as [->|[junk ->]]; vm_compute. Qed.

Lemma parse_text huge input v : json_text huge (cut_nul (skip_bom input)) v →
  (∃ p, parse true input = Some (inr (v, p))) ∨ overflows huge (parse true input).
Proof.
  intros (w1 & t & w2 & Hw1 & Hg & Hw2 & Hi). destruct (cut_nul_split (skip_bom input)) as (rest & Hs & Hr). rewrite Hi, <- !app_assoc in Hs.
  destruct (parse_accepts huge true input w1 t (w2 ++ rest) v Hw1 Hg Hs (end_follows _ _ Hw2 Hr)) as [(p & Hp & ->)|Ho]; [|by right].
  destruct (scan_end w2 rest (m_lexer p) Hw2 Hp Hr) as (l' & Es). rewrite (get_token_bind _ _ end_of_input l') by done.
  rewrite expect_bind. left. by eexists.
Qed.

Lemma parse_value input v : (∃ p, parse true input = Some (inr (v, p))) ↔ json_text false (cut_nul (skip_bom input)) v.
Proof.
  split.
  - intros [p E]. apply parse_yields in E as (w & t & p1 & Hw & Hg & Hi & E).
    apply get_token_inv in E as (t2 & l2 & Es2 & E). apply expect_bind_inv in E as [Ht _]. cbn in Ht. subst t2.
    apply end_of_input_inv in Es2 as (w2 & rest & Hw2 & Hi2 & Hr). rewrite Hi, Hi2.
    assert (Ht : json_text false (w ++ t ++ w2) v) by by exists w, t, w2.
    replace (w ++ t ++ w2 ++ rest) with ((w ++ t ++ w2) ++ rest) by by rewrite <- !app_assoc.
    rewrite cut_nul_app; [exact Ht|by eapply text_no_nul|done].
  - intros H. by apply parse_text in H as [H|[? _]].
Qed.


(** What [operator>>] reads from a stream.  It always returns; a value of the
    grammar that the rest of the stream does not continue is read with its value,
    and the rest stays in the stream; and whatever it returns is the value of a
    text of the grammar at the front of the stream. *)
Theorem read_value input :
  parse false input ≠ None ∧
  (∀ w t rest v, spaces w → gvalue t v → skip_bom input = w ++ t ++ rest → follows rest →
     ∃ p, parse false input = Some (inr (v, p)) ∧ ia (m_lexer p) = rest) ∧
  (∀ v p, parse false input = Some (inr (v, p)) →
     ∃ w t, spaces w ∧ gvalue t v ∧ skip_bom input = w ++ t ++ ia (m_lexer p)).
Proof.
  split_and!; [apply parse_returns|..].
  - intros w t rest v Hw Hg Hi Hf. destruct (parse_accepts false false input w t rest v Hw Hg Hi Hf) as [(p & Hp & ->)|[? _]]; [|done].
    by exists p.
  - intros v p E. apply parse_yields in E as (w & t & p1 & Hw & Hg & Hi & E). injection E as <-. by exists w, t.
Qed.

(** A number in the grammar without a finite double value, and what follows a NUL. *)
Definition huge_number : list byte := text "[1e400]".

Example huge_rejected : match parse true huge_number with Some (inl e) => e_id e = 406 | _ => False end.
Proof. by vm_compute. Qed.

Example after_nul : match parse true (text "[]" ++ x00 :: text "junk") with Some (inr (v, _)) => v = j_array [] | _ => False end.
Proof. by vm_compute. Qed.
