(* ===== verification/JsonAccept.v ===== *)
(** * The acceptor of the JSON library (json/nlohmann_json.hpp: parser::accept)

    [accept] runs the parser's control flow without building values.  It leaves
    the strings it reads in the token buffer where the parser moves them out, so
    the two lexers are the same up to that buffer.  Result: [accept] answers
    whether [parse] returns a value. *)

From Stdlib Require Import ZArith Lia Strings.Byte Strings.String SpecFloat.
From stdpp Require Import base list numbers.
From S2P Require Import Prelude.
From S2P Require Import JsonLexer.
From S2P Require Import JsonParser.
From S2P Require Import JsonGrammar.

#[local] Open Scope Z_scope.

Definition set_buffer (b : list byte) (l : lexer) : lexer :=
  mkLexer (ia l) (current l) (chars_read l) (token_string l) b (error_message l) (m_integer l) (m_unsigned l) (m_float l).

(** The same but for the token buffer, with a token of the scanner. *)
Definition alike (p q : parser) : Prop :=
  last_token p ≠ literal_or_value ∧ last_token q = last_token p ∧ ∃ b, m_lexer q = set_buffer b (m_lexer p).

Lemma get_set b l : get (set_buffer b l) = set_buffer b (get l).
Proof. unfold get. cbn. by destruct (ia l). Qed.

Lemma skip_space_set b fuel l : skip_space fuel (set_buffer b l) = set_buffer b (skip_space fuel l).
Proof.
  revert l. induction fuel as [|fuel IH]; intros l; cbn [skip_space]; rewrite get_set; [done|]. cbn [current set_buffer].
  destruct (is_space (current (get l))); [apply IH|done].
Qed.

Lemma scan_literal_set b txt t l :
  scan_literal txt t (set_buffer b l) = ((scan_literal txt t l).1, set_buffer b (scan_literal txt t l).2).
Proof.
  revert l. induction txt as [|c txt IH]; intros l; cbn [scan_literal]; [done|]. rewrite get_set. cbn [current set_buffer].
  destruct (negb _); [done|apply IH].
Qed.

Lemma set_buffer_self l : set_buffer (token_buffer l) l = l.
Proof. by destruct l. Qed.

(** The scanner does not look at the old buffer. *)
Lemma scan_set b l : ∃ b', scan (set_buffer b l) = ((scan l).1, set_buffer b' (scan l).2).
Proof.
  unfold scan. change (ia (set_buffer b l)) with (ia l). rewrite skip_space_set. set (l1 := skip_space _ l).
  unfold scan_from. change (current (set_buffer b l1)) with (current l1).
  repeat match goal with
  | |- ∃ _, (if ?c then _ else _) = _ =>
      destruct c; [first [by exists b | (rewrite scan_literal_set; by exists b)
        | (exists (token_buffer (scan_string l1).2); rewrite set_buffer_self; apply surjective_pairing)
        | (exists (token_buffer (scan_number l1).2); rewrite set_buffer_self; apply surjective_pairing)]|]
  end.
  by exists b.
Qed.

(** ** The acceptor follows the parser *)

Definition agree (r : option (exception + json * parser)) (s : option (exception + bool * parser)) : Prop :=
  match r, s with
  | Some (inr (_, p)), Some (inr (true, q)) => alike p q
  | Some (inl _), Some (inr (false, _)) => True
  | None, None => True
  | _, _ => False
  end.

Lemma scan_token l : (scan l).1 ≠ literal_or_value.
Proof.
  destruct (scan l) as [t l'] eqn:E. cbn. intros ->. by destruct (scan_inv l _ l' E) as [?|(w & src & _ & _ & ?)].
Qed.

Lemma get_token_alike {A B} (k : unit → P A) (k' : unit → P B) (R : _ → _ → Prop) p q :
  alike p q → (∀ p' q', alike p' q' → R (k tt p') (k' tt q')) → R ((get_token ≫= k) p) ((get_token ≫= k') q).
Proof.
  intros (Hl & Ht & b & Hb) HR. destruct (scan_set b (m_lexer p)) as [b' Es]. rewrite <- Hb in Es.
  rewrite (get_token_bind k p _ _ (surjective_pairing _)), (get_token_bind k' q _ _ (surjective_pairing _)), Es.
  apply HR. split; [apply scan_token|]. split; [done|]. by exists b'.
Qed.

Lemma agree_bind (m : P json) (n : P bool) (k : json → P json) (k' : P bool) p q :
  agree (m p) (n q) → (∀ v p' q', alike p' q' → agree (k v p') (k' q')) →
  agree ((m ≫= k) p) ((ok ← n; if negb ok then mret false else k') q).
Proof.
  intros Hm Hk. unfold mbind, P_bind. destruct (m p) as [[e|[v p']]|], (n q) as [[e'|[[|] q']]|]; cbn in *; try done.
  by apply Hk.
Qed.

(** A token that has to be [t]. *)
Lemma expect_agree t (k : P json) (k' : P bool) p q :
  alike p q → (last_token p = t → agree (k p) (k' q)) →
  agree ((expect t;; k) p) ((if negb (bool_decide (last_token q = t)) then mret false else k') q).
Proof.
  intros (Hl & Ht & Hb) Hk. rewrite Ht. unfold mbind, P_bind, expect. case_decide as E.
  - rewrite bool_decide_eq_true_2 by done. cbn [negb]. by apply Hk.
  - rewrite bool_decide_eq_false_2 by congruence. done.
Qed.

Lemma expect_last t v p q :
  alike p q → agree ((expect t;; mret v) p) (mret (M := P) (bool_decide (last_token q = t)) q).
Proof.
  intros (Hl & Ht & Hb). rewrite Ht. unfold mbind, P_bind, expect. case_decide as E.
  - by rewrite bool_decide_eq_true_2.
  - rewrite bool_decide_eq_false_2 by congruence. done.
Qed.

Definition agree_all (fuel : nat) : Prop :=
  (∀ p q, alike p q → agree (parse_internal fuel p) (accept_internal fuel q)) ∧
  (∀ o p q, alike p q → agree (parse_members fuel o p) (accept_members fuel q)) ∧
  (∀ a p q, alike p q → agree (parse_elements fuel a p) (accept_elements fuel q)).

Lemma agree_value fuel p q : agree_all fuel → alike p q → agree (parse_internal (S fuel) p) (accept_internal (S fuel) q).
Proof.
  intros (Hv & Hm & He) Ha. destruct p as [l t], q as [l' t']. pose proof Ha as (Hl & Ht & b & Hb). cbn in Hl, Ht, Hb. subst t' l'.
  cbn [parse_internal accept_internal]. rewrite !token_bind. cbn [last_token].
  destruct t; try exact Ha; try done.
  - cbn [m_lexer set_buffer m_float]. unfold finite. cbn. by destruct (isfinite (m_float l)).
  - apply (get_token_alike _ _ agree); [done|]. intros p' q' Ha'. rewrite !token_bind, (proj1 (proj2 Ha')).
    destruct (decide (last_token p' = end_array)); [exact Ha'|by apply He].
  - apply (get_token_alike _ _ agree); [done|]. intros p' q' Ha'. rewrite !token_bind, (proj1 (proj2 Ha')).
    destruct (decide (last_token p' = end_object)); [exact Ha'|by apply Hm].
Qed.

(** The end of a turn of a loop: a comma and another turn, or the closing token. *)
Lemma agree_turn sep v (k : P json) (k' : P bool) p q :
  alike p q → (∀ p' q', alike p' q' → agree (k p') (k' q')) →
  agree ((get_token;; t ← token; if decide (t = value_separator) then get_token;; k else expect sep;; mret v) p)
    ((get_token;; t ← token; if decide (t = value_separator) then get_token;; k'
      else mret (bool_decide (t = sep))) q).
Proof.
  intros Ha Hk. apply (get_token_alike _ _ agree); [done|]. intros p' q' Ha'. rewrite !token_bind, (proj1 (proj2 Ha')).
  destruct (decide (last_token p' = value_separator)).
  - apply (get_token_alike _ _ agree); [done|]. intros. by apply Hk.
  - rewrite <- (proj1 (proj2 Ha')). by apply expect_last.
Qed.

Lemma agree_elements fuel a p q :
  agree_all fuel → alike p q → agree (parse_elements (S fuel) a p) (accept_elements (S fuel) q).
Proof.
  intros (Hv & Hm & He) Ha. cbn [parse_elements accept_elements]. apply agree_bind; [by apply Hv|].
  intros v p' q' Ha'. apply (agree_turn end_array); [done|]. intros. by apply He.
Qed.

Lemma agree_members fuel o p q :
  agree_all fuel → alike p q → agree (parse_members (S fuel) o p) (accept_members (S fuel) q).
Proof.
  intros (Hv & Hm & He) Ha. cbn [parse_members accept_members]. rewrite token_bind. apply expect_agree; [done|].
  intros Ht. unfold take_string. unfold mbind at 1, P_bind at 1. cbn [move_string].
  assert (Ha1 : alike (mkParser (move_string (m_lexer p)).2 (last_token p)) q).
  { destruct Ha as (Hl & Hq & b & Hb). split; [done|]. split; [done|]. exists b. by rewrite Hb. }
  apply (get_token_alike _ _ agree); [exact Ha1|]. intros p2 q2 Ha2. rewrite token_bind. apply expect_agree; [done|].
  intros _. apply (get_token_alike _ _ agree); [done|]. intros p3 q3 Ha3. apply agree_bind; [by apply Hv|].
  intros v p4 q4 Ha4. apply (agree_turn end_object); [done|]. intros. by apply Hm.
Qed.

Lemma accept_agrees fuel : agree_all fuel.
Proof.
  induction fuel as [|fuel IH]; [by split_and!|].
  split_and!; intros; [by apply agree_value|by apply agree_members|by apply agree_elements].
Qed.

(** [accept] answers what [parse] does.  For every text, strictly or not,
    [accept] returns, throws nothing, and answers true exactly when [parse]
    returns a value. *)
Theorem accept_parse strict input :
  ∃ b q, accept strict input = Some (inr (b, q)) ∧ (b = true ↔ ∃ v p, parse strict input = Some (inr (v, p))).
Proof.
  assert (H : agree (parse strict input) (accept strict input)).
  { unfold parse, accept. assert (Ha : alike (parser_make input) (parser_make input)).
    { split; [done|]. split; [done|]. by exists []. }
    apply (get_token_alike _ _ agree); [exact Ha|]. intros p q Hpq. apply agree_bind; [by apply accept_agrees|].
    intros v p' q' Ha'. destruct strict; [|exact Ha'].
    apply (get_token_alike _ _ agree); [done|]. intros p2 q2 Ha2. rewrite token_bind. by apply expect_last. }
  destruct (parse strict input) as [[e|[v p]]|] eqn:E; [| |by apply parse_returns in E];
    destruct (accept strict input) as [[e'|[[|] q]]|]; cbn in H; try done.
  - exists false, q. split; [done|]. split; [done|]. by intros (v & p & ?).
  - exists true, q. split; [done|]. split; [intros _; by exists v, p|done].
Qed.
