(* ===== verification/JsonDump.v ===== *)
(** * The JSON serializer (json/nlohmann_json.hpp: serializer)

    [dump] writes a value to its output adapter, a list of bytes, compact or
    pretty-printed, with or without escaping what is not ASCII.  Both buffers of
    the source are kept: writing outside [string_buffer] or [number_buffer], or
    reading past [indent_string], is a fault; ill-formed UTF-8 is an exception.
    A finite floating-point number prints as [to_chars] of Grisu writes it. *)

From Stdlib Require Import ZArith Lia Strings.Byte Strings.String SpecFloat.
From stdpp Require Import base list numbers.
From S2P Require Import Prelude.
From S2P Require Import Utf8.
From S2P Require Import Grisu.
From S2P Require Import JsonLexer.
From S2P Require Import JsonParser.

#[local] Open Scope Z_scope.

(** ** The UTF-8 decoder *)

Definition utf8d : list Z :=
  [0; 0; 0; 0; 0; 0; 0; 0; 0; 0; 0; 0; 0; 0; 0; 0; 0; 0; 0; 0; 0; 0; 0; 0; 0; 0; 0; 0; 0; 0; 0; 0;
   0; 0; 0; 0; 0; 0; 0; 0; 0; 0; 0; 0; 0; 0; 0; 0; 0; 0; 0; 0; 0; 0; 0; 0; 0; 0; 0; 0; 0; 0; 0; 0;
   0; 0; 0; 0; 0; 0; 0; 0; 0; 0; 0; 0; 0; 0; 0; 0; 0; 0; 0; 0; 0; 0; 0; 0; 0; 0; 0; 0; 0; 0; 0; 0;
   0; 0; 0; 0; 0; 0; 0; 0; 0; 0; 0; 0; 0; 0; 0; 0; 0; 0; 0; 0; 0; 0; 0; 0; 0; 0; 0; 0; 0; 0; 0; 0;
   1; 1; 1; 1; 1; 1; 1; 1; 1; 1; 1; 1; 1; 1; 1; 1; 9; 9; 9; 9; 9; 9; 9; 9; 9; 9; 9; 9; 9; 9; 9; 9;
   7; 7; 7; 7; 7; 7; 7; 7; 7; 7; 7; 7; 7; 7; 7; 7; 7; 7; 7; 7; 7; 7; 7; 7; 7; 7; 7; 7; 7; 7; 7; 7;
   8; 8; 2; 2; 2; 2; 2; 2; 2; 2; 2; 2; 2; 2; 2; 2; 2; 2; 2; 2; 2; 2; 2; 2; 2; 2; 2; 2; 2; 2; 2; 2;
   0xA; 0x3; 0x3; 0x3; 0x3; 0x3; 0x3; 0x3; 0x3; 0x3; 0x3; 0x3; 0x3; 0x4; 0x3; 0x3;
   0xB; 0x6; 0x6; 0x6; 0x5; 0x8; 0x8; 0x8; 0x8; 0x8; 0x8; 0x8; 0x8; 0x8; 0x8; 0x8;
   0x0; 0x1; 0x2; 0x3; 0x5; 0x8; 0x7; 0x1; 0x1; 0x1; 0x4; 0x6; 0x1; 0x1; 0x1; 0x1;
   1; 1; 1; 1; 1; 1; 1; 1; 1; 1; 1; 1; 1; 1; 1; 1; 1; 0; 1; 1; 1; 1; 1; 0; 1; 0; 1; 1; 1; 1; 1; 1;
   1; 2; 1; 1; 1; 1; 1; 2; 1; 2; 1; 1; 1; 1; 1; 1; 1; 1; 1; 1; 1; 1; 1; 2; 1; 1; 1; 1; 1; 1; 1; 1;
   1; 2; 1; 1; 1; 1; 1; 1; 1; 2; 1; 1; 1; 1; 1; 1; 1; 1; 1; 1; 1; 1; 1; 3; 1; 3; 1; 1; 1; 1; 1; 1;
   1; 3; 1; 1; 1; 1; 1; 3; 1; 3; 1; 1; 1; 1; 1; 1; 1; 3; 1; 1; 1; 1; 1; 1; 1; 1; 1; 1; 1; 1; 1; 1].

Definition UTF8_ACCEPT : Z := 0.
Definition UTF8_REJECT : Z := 1.

(** [std::array::operator[]]; the index is always below 400. *)
Definition utf8d_at (i : Z) : Z := default 0 (utf8d !! Z.to_nat i).

(** The new state and code point. *)
Definition decode (state codep byte_ : Z) : Z * Z :=
  let type := utf8d_at byte_ in
  let codep :=
    if negb (state =? UTF8_ACCEPT) then Z.lor (Z.land byte_ 0x3F) (u32 (Z.shiftl codep 6))
    else Z.land (Z.shiftr 0xFF type) byte_ in
  (utf8d_at (256 + state * 16 + type), codep).

(** ** The serializer *)

(** The output so far and [indent_string]. *)
Record serializer := mkSerializer { o : list byte; indent_string : list byte }.

Definition serializer_make (ichar : byte) : serializer := mkSerializer [] (zreplicate 512 ichar).

(** An operation returns, throws or faults. *)
Definition D (A : Type) : Type := serializer → result (exception + A * serializer).

#[global] Instance D_ret : MRet D := λ A a s, Ok (inr (a, s)).
#[global] Instance D_bind : MBind D := λ A B k m s,
  match m s with
  | Ok (inr (a, s')) => k a s'
  | Ok (inl e) => Ok (inl e)
  | Fault f => Fault f
  end.

Definition raise_fault {A} (f : fault) : D A := λ _, Fault f.
Definition throw_error {A} (e : exception) : D A := λ _, Ok (inl e).
Definition write (bs : list byte) : D unit := λ s, Ok (inr (tt, mkSerializer (o s ++ bs) (indent_string s))).

(** [write_characters(indent_string.c_str(), n)]: the terminating NUL may be read. *)
Definition write_indent (n : Z) : D unit := λ s,
  if n <=? zlen (indent_string s) + 1 then write (ztake n (indent_string s ++ [x00])) s else Fault OutOfBounds.

(** The indentation of the next level, after making [indent_string] longer. *)
Definition grow_indent (new_indent : Z) : D unit := λ s,
  let size := zlen (indent_string s) in
  Ok (inr (tt,
    if size <? new_indent then mkSerializer (o s) (indent_string s ++ zreplicate (size * 2 - size) (Zbyte 32)) else s)).

(** ** Strings *)

Definition lower_hex (v : Z) : byte := Zbyte (if v <? 10 then 48 + v else 87 + v).
(** [\u%04x] of a [uint16_t]. *)
Definition u_escape (v : Z) : list byte :=
  let v := u16 v in
  text "\u" ++ [lower_hex (v / 4096); lower_hex (v / 256 mod 16); lower_hex (v / 16 mod 16); lower_hex (v mod 16)].

Definition string_buffer_size : Z := 512.

(** Writes [bs] at the end of what [string_buffer] holds; [room] counts the NUL
    of [snprintf]. *)
Definition put (bs : list byte) (room : Z) (buffer : list byte) : result (list byte) :=
  if zlen buffer + room <=? string_buffer_size then Ok (buffer ++ bs) else Fault OutOfBounds.

(** A code point that is complete with [byte_]. *)
Definition put_codepoint (ensure_ascii : bool) (codepoint : Z) (byte_ : byte) (buffer : list byte) :
    result (list byte) :=
  if codepoint =? 0x08 then put (text "\b") 2 buffer
  else if codepoint =? 0x09 then put (text "\t") 2 buffer
  else if codepoint =? 0x0A then put (text "\n") 2 buffer
  else if codepoint =? 0x0C then put (text "\f") 2 buffer
  else if codepoint =? 0x0D then put (text "\r") 2 buffer
  else if codepoint =? 0x22 then put [Zbyte 92; Zbyte 34] 2 buffer
  else if codepoint =? 0x5C then put (text "\\") 2 buffer
  else if (codepoint <=? 0x1F) || (ensure_ascii && (0x7F <=? codepoint)) then
    if codepoint <=? 0xFFFF then put (u_escape codepoint) 7 buffer
    else put (u_escape (0xD7C0 + Z.shiftr codepoint 10) ++ u_escape (0xDC00 + Z.land codepoint 0x3FF)) 13 buffer
  else put [byte_] 1 buffer.

Definition invalid_byte (i : Z) (byte_ : byte) : exception :=
  type_error_create 316 (text "invalid UTF-8 byte at index " ++ decimal i ++ text ": 0x" ++
    [upper_hex (byteZ byte_ / 16); upper_hex (byteZ byte_ mod 16)]).
Definition incomplete_string (byte_ : byte) : exception :=
  type_error_create 316 (text "incomplete UTF-8 string; last byte: 0x" ++
    [upper_hex (byteZ byte_ / 16); upper_hex (byteZ byte_ mod 16)]).

Definition lift_result {A} (r : result A) : D A := λ s,
  match r with Ok a => Ok (inr (a, s)) | Fault f => Fault f end.

(** The loop over the bytes of the string, from index [i] on. *)
Fixpoint escape_loop (ensure_ascii : bool) (i : Z) (last : byte) (s : list byte) (state codep : Z) (buffer : list byte) :
    D unit :=
  match s with
  | [] =>
      if state =? UTF8_ACCEPT then (if 0 <? zlen buffer then write buffer else mret tt)
      else throw_error (incomplete_string last)
  | b :: s' =>
      let '(state', codep') := decode state codep (byteZ b) in
      if state' =? UTF8_ACCEPT then
        buffer ← lift_result (put_codepoint ensure_ascii codep' b buffer);
        if string_buffer_size - zlen buffer <? 13 then
          write buffer;; escape_loop ensure_ascii (i + 1) b s' state' codep' []
        else escape_loop ensure_ascii (i + 1) b s' state' codep' buffer
      else if state' =? UTF8_REJECT then throw_error (invalid_byte i b)
      else if negb ensure_ascii then
        buffer ← lift_result (put [b] 1 buffer);
        escape_loop ensure_ascii (i + 1) b s' state' codep' buffer
      else escape_loop ensure_ascii (i + 1) b s' state' codep' buffer
  end.
Definition dump_escaped (s : list byte) (ensure_ascii : bool) : D unit :=
  escape_loop ensure_ascii 0 x00 s UTF8_ACCEPT 0 [].

(** ** Numbers *)

Definition number_buffer_size : Z := 64.

Definition put_digit (c : Z) (buffer : list byte) : result (list byte) :=
  if zlen buffer <? number_buffer_size then Ok (buffer ++ [Zbyte c]) else Fault OutOfBounds.

(** [while (x != 0)]; a 64-bit number has at most 20 digits. *)
Fixpoint digit_loop (fuel : nat) (x : Z) (number_buffer : list byte) : result (list byte) :=
  if x =? 0 then Ok number_buffer
  else
    match fuel with
    | O => Fault OutOfBounds
    | S fuel' =>
        match put_digit (48 + Z.abs (Z.rem x 10)) number_buffer with
        | Ok buffer => digit_loop fuel' (Z.quot x 10) buffer
        | Fault f => Fault f
        end
    end.

Definition dump_integer (x : Z) : D unit :=
  if x =? 0 then write (text "0")
  else
    let is_negative := (x <=? 0) && negb (x =? 0) in
    buffer ← lift_result (digit_loop 64 x []);
    buffer ← lift_result (if is_negative then put_digit 45 buffer else Ok buffer);
    write (reverse buffer).

(** [number_buffer]: what it holds from numbers before makes no difference to
    [to_chars], so it is always new here. *)
Definition number_buffer : list byte := replicate 64 (Zbyte 0).

Definition dump_float (x : spec_float) : D unit :=
  if isfinite x then chars ← lift_result (chars_of number_buffer x); write chars else write (text "null").

Section Options.
Context (pretty_print ensure_ascii : bool) (indent_step : Z).

(** The elements or members, each with what is written after it. *)
Fixpoint separated {A} (item : A → D unit) (sep : D unit) (l : list A) : D unit :=
  match l with
  | [] => mret tt
  | [x] => item x
  | x :: l' => item x;; sep;; separated item sep l'
  end.

Definition dump_key (key : list byte) : D unit :=
  write [Zbyte 34];; dump_escaped key ensure_ascii;;
  write (Zbyte 34 :: if pretty_print then text ": " else text ":").

Fixpoint dump (current_indent : Z) (val : json) : D unit :=
  match val with
  | j_object [] => write (text "{}")
  | j_object members =>
      let item kv := dump_key kv.1;; dump (if pretty_print then u32 (current_indent + indent_step) else current_indent) kv.2 in
      if pretty_print then
        let new_indent := u32 (current_indent + indent_step) in
        write (Zbyte 123 :: [Zbyte 10]);;
        grow_indent new_indent;;
        separated (λ kv, write_indent new_indent;; item kv) (write [Zbyte 44; Zbyte 10]) members;;
        write [Zbyte 10];;
        write_indent current_indent;;
        write [Zbyte 125]
      else
        write [Zbyte 123];;
        separated item (write [Zbyte 44]) members;;
        write [Zbyte 125]
  | j_array [] => write (text "[]")
  | j_array elements =>
      if pretty_print then
        let new_indent := u32 (current_indent + indent_step) in
        write (Zbyte 91 :: [Zbyte 10]);;
        grow_indent new_indent;;
        separated (λ v, write_indent new_indent;; dump new_indent v) (write [Zbyte 44; Zbyte 10]) elements;;
        write [Zbyte 10];;
        write_indent current_indent;;
        write [Zbyte 93]
      else
        write [Zbyte 91];;
        separated (dump current_indent) (write [Zbyte 44]) elements;;
        write [Zbyte 93]
  | j_string s => write [Zbyte 34];; dump_escaped s ensure_ascii;; write [Zbyte 34]
  | j_boolean b => write (if b then text "true" else text "false")
  | j_number_integer z => dump_integer z
  | j_number_unsigned z => dump_integer z
  | j_number_float f => dump_float f
  | j_discarded => write (text "<discarded>")
  | j_null => write (text "null")
  end.

End Options.

(** [basic_json::dump]. *)
Definition json_dump (indent : Z) (indent_char : byte) (ensure_ascii : bool) (j : json) :
    result (exception + list byte) :=
  let s := serializer_make indent_char in
  match
    if 0 <=? indent then dump true ensure_ascii (u32 indent) 0 j s else dump false ensure_ascii 0 0 j s
  with
  | Ok (inr (_, s')) => Ok (inr (o s'))
  | Ok (inl e) => Ok (inl e)
  | Fault f => Fault f
  end.

(** [operator<<] of a stream with this width and fill character: what it writes and
    the width afterwards. *)
Definition json_put (width : Z) (fill : byte) (j : json) : result (exception + list byte * Z) :=
  let pretty_print := 0 <? width in
  let indentation := if pretty_print then width else 0 in
  match dump pretty_print false (u32 indentation) 0 j (serializer_make fill) with
  | Ok (inr (_, s')) => Ok (inr (o s', 0))
  | Ok (inl e) => Ok (inl e)
  | Fault f => Fault f
  end.
