(* ===== verification/JsonEscape.v ===== *)
(** * The serializer's strings

    The table-driven decoder against UTF-8, and [dump_escaped]: it writes a JSON
    spelling of every valid string within its buffer, and throws on every other. *)

From Stdlib Require Import ZArith Lia Strings.Byte Strings.String.
From stdpp Require Import base list numbers.
From S2P Require Import Prelude.
From S2P Require Import Utf8.
From S2P Require Import JsonLexer.
From S2P Require Import JsonStrings.
From S2P Require Import JsonParser.
From S2P Require Import JsonDump.

#[local] Open Scope Z_scope.

(** ** The decoder *)

(** The ranges of the bytes a state still expects. *)
Definition expects (state : Z) : list (Z * Z) :=
  if state =? 2 then [tail_range]
  else if state =? 3 then [tail_range; tail_range]
  else if state =? 4 then [(0xA0, 0xBF); tail_range]
  else if state =? 5 then [(0x80, 0x9F); tail_range]
  else if state =? 6 then [(0x90, 0xBF); tail_range; tail_range]
  else if state =? 7 then [tail_range; tail_range; tail_range]
  else if state =? 8 then [(0x80, 0x8F); tail_range; tail_range]
  else [].

(** The state that expects the ranges after the first. *)
Definition after_first (state : Z) : Z := if state =? 2 then 0 else if state <=? 5 then 2 else 3.

Definition next_state (state b : Z) : Z :=
  if state =? 0 then
    if b <=? 0x7F then 0
    else if (0xC2 <=? b) && (b <=? 0xDF) then 2
    else if b =? 0xE0 then 4
    else if b =? 0xED then 5
    else if (0xE1 <=? b) && (b <=? 0xEF) then 3
    else if b =? 0xF0 then 6
    else if (0xF1 <=? b) && (b <=? 0xF3) then 7
    else if b =? 0xF4 then 8
    else 1
  else
    match expects state with
    | (lo, hi) :: _ => if (lo <=? b) && (b <=? hi) then after_first state else 1
    | [] => 1
    end.

(** The bits a leading byte contributes. *)
Definition lead_bits (b : Z) : Z :=
  if b <=? 0x7F then b else if b <=? 0xDF then b - 0xC0 else if b <=? 0xEF then b - 0xE0 else b - 0xF0.

Definition table_ok (state b : Z) : bool :=
  (utf8d_at (256 + state * 16 + utf8d_at b) =? next_state state b) &&
  (negb (state =? 0) || (next_state 0 b =? 1) || (Z.land (Z.shiftr 0xFF (utf8d_at b)) b =? lead_bits b)).

Lemma table_all : forallb (λ s, forallb (λ b, table_ok (Z.of_nat s) (Z.of_nat b)) (seq 0 256)) [0; 2; 3; 4; 5; 6; 7; 8]%nat = true.
Proof. by vm_compute. Qed.

Lemma table_at s b : s = 0 ∨ 2 ≤ s ≤ 8 → 0 ≤ b < 256 → table_ok s b = true.
Proof.
  intros Hs Hb. pose proof table_all as H. rewrite forallb_forall in H.
  assert (Hin : List.In (Z.to_nat s) [0; 2; 3; 4; 5; 6; 7; 8]%nat) by (cbn; lia).
  apply H in Hin. rewrite forallb_forall in Hin.
  specialize (Hin (Z.to_nat b)). rewrite !Z2Nat.id in Hin by lia. apply Hin, in_seq. lia.
Qed.

Lemma decode_state s c b : s = 0 ∨ 2 ≤ s ≤ 8 → 0 ≤ b < 256 → (decode s c b).1 = next_state s b.
Proof.
  intros Hs Hb. pose proof (table_at s b Hs Hb) as H. unfold table_ok in H. apply andb_true_iff in H as [H _].
  by apply Z.eqb_eq.
Qed.

Lemma decode_lead c b : 0 ≤ b < 256 → next_state 0 b ≠ 1 → (decode 0 c b).2 = lead_bits b.
Proof.
  intros Hb Hn. pose proof (table_at 0 b (or_introl eq_refl) Hb) as H. unfold table_ok in H.
  apply andb_true_iff in H as [_ H]. cbn [Z.eqb negb orb] in H. rewrite (proj2 (Z.eqb_neq _ _) Hn) in H. cbn [orb] in H.
  by apply Z.eqb_eq.
Qed.

Lemma decode_tail s c b :
  2 ≤ s ≤ 8 → 0 ≤ c < 2 ^ 20 → 0x80 ≤ b ≤ 0xBF → (decode s c b).2 = c * 64 + (b - 0x80).
Proof.
  intros Hs Hc Hb. unfold decode, UTF8_ACCEPT. cbn [snd]. rewrite (proj2 (Z.eqb_neq s 0)) by lia. cbn [negb].
  rewrite land_3F, Z.shiftl_mul_pow2 by lia. rewrite u32_small by (unfold in_u; lia).
  rewrite Z.lor_comm, lor_low by divlia. change (2 ^ 6) with 64. divlia.
Qed.

(** The code point after the remaining bytes. *)
Definition add_bits (c : Z) (b : byte) : Z := c * 64 + (byteZ b - 0x80).

Lemma expects_range s r : r ∈ expects s → 0x80 ≤ r.1 ∧ r.2 ≤ 0xBF.
Proof.
  unfold expects, tail_range. repeat case_match; intros Hr;
    repeat (apply elem_of_cons in Hr as [->|Hr]; [cbn; lia|]); by apply elem_of_nil in Hr.
Qed.

Lemma expects_next s r rs : expects s = r :: rs → 2 ≤ s ≤ 8 ∧ expects (after_first s) = rs ∧
  (rs = [] → after_first s = 0) ∧ (rs ≠ [] → 2 ≤ after_first s ≤ 8).
Proof.
  unfold expects, after_first.
  repeat match goal with |- (if ?x =? ?k then _ else _) = _ → _ => destruct (Z.eqb_spec x k) as [->|]; [by intros [= <- <-]|] end.
  done.
Qed.

Lemma expects_len s : zlen (expects s) ≤ 3.
Proof. unfold expects. by repeat case_match. Qed.

Lemma next_tail s r rs b :
  expects s = r :: rs → next_state s b = if (r.1 <=? b) && (b <=? r.2) then after_first s else 1.
Proof.
  intros E. pose proof (expects_next s r rs E) as (Hs & _). unfold next_state. rewrite (proj2 (Z.eqb_neq s 0)) by lia.
  rewrite E. by destruct r.
Qed.

(** ** The loop *)

(** What a code point is written as. *)
Definition escaped (ensure_ascii : bool) (cp : Z) : list byte :=
  if cp =? 0x08 then text "\b"
  else if cp =? 0x09 then text "\t"
  else if cp =? 0x0A then text "\n"
  else if cp =? 0x0C then text "\f"
  else if cp =? 0x0D then text "\r"
  else if cp =? 0x22 then [backslash; quote]
  else if cp =? 0x5C then [backslash; backslash]
  else if (cp <=? 0x1F) || (ensure_ascii && (0x7F <=? cp)) then
    if cp <=? 0xFFFF then u_escape cp
    else u_escape (0xD7C0 + Z.shiftr cp 10) ++ u_escape (0xDC00 + Z.land cp 0x3FF)
  else utf8 cp.

(** A code point is complete with [b]. *)
Definition complete (ensure_ascii : bool) (i : Z) (b : byte) (cp : Z) (rest buffer : list byte) : D unit :=
  buffer ← lift_result (put_codepoint ensure_ascii cp b buffer);
  if string_buffer_size - zlen buffer <? 13 then write buffer;; escape_loop ensure_ascii (i + 1) b rest 0 cp []
  else escape_loop ensure_ascii (i + 1) b rest 0 cp buffer.

Lemma escape_complete ens i last b rest s c cp buffer :
  decode s c (byteZ b) = (0, cp) → escape_loop ens i last (b :: rest) s c buffer = complete ens i b cp rest buffer.
Proof. intros E. cbn [escape_loop]. by rewrite E. Qed.

Lemma D_bind_ok {A B} (m : D A) (k : A → D B) s a s' : m s = Ok (inr (a, s')) → (m ≫= k) s = k a s'.
Proof. intros E. unfold mbind, D_bind. by rewrite E. Qed.

Lemma put_ok bs room buffer s :
  zlen buffer + room ≤ 512 → lift_result (put bs room buffer) s = Ok (inr (buffer ++ bs, s)).
Proof. intros H. unfold lift_result, put, string_buffer_size. by rewrite (proj2 (Z.leb_le _ _)). Qed.

(** A byte inside a character. *)
Lemma escape_inside ens i last b rest s c s' c' buffer ser :
  decode s c (byteZ b) = (s', c') → s' ≠ 0 → s' ≠ 1 → zlen buffer ≤ 511 →
  escape_loop ens i last (b :: rest) s c buffer ser =
    escape_loop ens (i + 1) b rest s' c' (if ens then buffer else buffer ++ [b]) ser.
Proof.
  intros E H0 H1 Hb. cbn [escape_loop]. rewrite E. unfold UTF8_ACCEPT, UTF8_REJECT.
  rewrite (proj2 (Z.eqb_neq s' 0)), (proj2 (Z.eqb_neq s' 1)) by done. destruct ens; [done|]. cbn [negb].
  by rewrite (D_bind_ok _ _ _ _ _ (put_ok [b] 1 buffer ser ltac:(lia))).
Qed.

Lemma pending_run ens rs st c bs i last rest buffer ser :
  expects st = rs → rs ≠ [] → Forall2 within rs bs → 0 ≤ c → (c + 1) * 64 ^ zlen rs ≤ 2 ^ 22 → zlen buffer + zlen rs ≤ 511 →
  ∃ i' pre b, bs = pre ++ [b] ∧
    escape_loop ens i last (bs ++ rest) st c buffer ser =
      complete ens i' b (foldl add_bits c bs) rest (buffer ++ if ens then [] else pre) ser.
Proof.
  intros Ers Hne H. revert st c i last buffer Ers Hne. induction H as [|r b rs bs Hb Hbs IH];
    intros st c i last buffer Ers Hne Hc Hc2 Hbuf; [done|].
  destruct (expects_next st r rs Ers) as (Hs & Hafter & Hnil & Hcons).
  pose proof (expects_range st r) as Hr. rewrite Ers in Hr. specialize (Hr ltac:(by left)). unfold within in Hb.
  pose proof (byteZ_range b) as Hb8. unfold in_u in Hb8.
  rewrite zlen_cons, Z.pow_add_r in Hc2 by zl. change (64 ^ 1) with 64 in Hc2.
  assert (Hp : 0 < 64 ^ zlen rs) by (apply Z.pow_pos_nonneg; zl).
  assert (Hc20 : c < 2 ^ 20) by nia.
  assert (Hd : decode st c (byteZ b) = (after_first st, add_bits c b)).
  { apply injective_projections; cbn [fst snd]; [|apply decode_tail; [done|lia|lia]].
    rewrite decode_state, (next_tail st r rs) by (done || lia). by rewrite (proj2 (Z.leb_le r.1 _)), (proj2 (Z.leb_le _ r.2)) by lia. }
  cbn [app foldl]. destruct rs as [|r2 rs].
  - apply Forall2_nil_inv_l in Hbs as ->. exists i, [], b. split; [done|]. rewrite Hnil in Hd by done. cbn [app].
    rewrite (escape_complete _ _ _ _ _ _ _ _ _ Hd). destruct ens; by rewrite app_nil_r.
  - destruct (Hcons ltac:(done)) as [Ha1 Ha2]. rewrite (escape_inside _ _ _ _ _ _ _ _ _ _ _ Hd) by (lia || zl).
    destruct (IH (after_first st) (add_bits c b) (i + 1) b (if ens then buffer else buffer ++ [b])) as (i' & pre & b' & -> & E).
    + done.
    + done.
    + unfold add_bits. lia.
    + unfold add_bits. nia.
    + destruct ens; zl.
    + exists i', (b :: pre), b'. split; [done|]. rewrite E. destruct ens; [done|]. by rewrite <- app_assoc.
Qed.

(** [next_state] on leading bytes. *)
Ltac lead_case :=
  right; right; split; [done|]; split; [lia|]; let Hbs := fresh in intros bs Hbs; split_within Hbs; cbn; lia.

Lemma lead_cases b : 0 ≤ b < 256 →
  next_state 0 b = 1 ∨ next_state 0 b = 0 ∧ b ≤ 0x7F ∨
  expects (next_state 0 b) ≠ [] ∧ 0xC2 ≤ b ∧
    ∀ bs, Forall2 within (expects (next_state 0 b)) bs → well_formed (b :: map byteZ bs).
Proof.
  intros Hb. unfold next_state. cbn [Z.eqb].
  destruct (Z.leb_spec b 0x7F); [by right; left|].
  destruct ((0xC2 <=? b) && (b <=? 0xDF)) eqn:E1.
  { lead_case. }
  destruct (Z.eqb_spec b 0xE0).
  { lead_case. }
  destruct (Z.eqb_spec b 0xED).
  { lead_case. }
  destruct ((0xE1 <=? b) && (b <=? 0xEF)) eqn:E2.
  { lead_case. }
  destruct (Z.eqb_spec b 0xF0).
  { lead_case. }
  destruct ((0xF1 <=? b) && (b <=? 0xF3)) eqn:E3.
  { lead_case. }
  destruct (Z.eqb_spec b 0xF4).
  { lead_case. }
  by left.
Qed.

(** The state after a leading byte. *)
Ltac lead_state := intros; unfold next_state; cbn [Z.eqb]; repeat case_match; lia.
Lemma next_2 b : 0xC2 ≤ b ≤ 0xDF → next_state 0 b = 2.
Proof. lead_state. Qed.
Lemma next_3 b : 0xE1 ≤ b ≤ 0xEF → b ≠ 0xED → next_state 0 b = 3.
Proof. lead_state. Qed.
Lemma next_7 b : 0xF1 ≤ b ≤ 0xF3 → next_state 0 b = 7.
Proof. lead_state. Qed.

(** The bytes of a code point as the decoder sees them. *)
Lemma lead_of cp b bs :
  scalar cp → utf8Z cp = b :: bs →
  bs = [] ∧ b = cp ∧ 0 ≤ b ≤ 0x7F ∨
  expects (next_state 0 b) ≠ [] ∧ Forall2 (λ r z, r.1 ≤ z ≤ r.2) (expects (next_state 0 b)) bs ∧
    foldl (λ c z, c * 64 + (z - 0x80)) (lead_bits b) bs = cp ∧ 0 ≤ lead_bits b ≤ 31 ∧ (length bs = 2%nat → lead_bits b ≤ 15) ∧
    (length bs = 3%nat → lead_bits b ≤ 4).
Proof.
  intros H Eu. pose proof (utf8Z_well_formed cp H) as Hw. rewrite Eu in Hw. unfold scalar in H.
  unfold utf8Z in Eu.
  destruct (Z.ltb_spec cp 0x80); [injection Eu as <- <-; left; split_and!; lia || done|].
  right. unfold lead_bits.
  assert (Hgo : ∀ k, next_state 0 b = k → expects k ≠ [] → Forall2 (λ r z, r.1 ≤ z ≤ r.2) (expects k) bs →
    expects (next_state 0 b) ≠ [] ∧ Forall2 (λ r z, r.1 ≤ z ≤ r.2) (expects (next_state 0 b)) bs) by (by intros k ->).
  apply and_assoc.
  destruct (Z.ltb_spec cp 0x800); [|destruct (Z.ltb_spec cp 0x10000)]; injection Eu as <- <-; cbn in Hw.
  - split; [apply (Hgo 2); [apply next_2; divlia|done|repeat constructor; cbn; divlia]|].
    zguard. cbn [foldl length]. split_and!; divlia || done.
  - split; [|zguard; cbn [foldl length]; split_and!; divlia || done].
    destruct Hw as [[[Ha Hb]|[[Ha Hb]|[Ha Hb]]] Hc].
    + apply (Hgo 4); [by rewrite Ha|done|repeat constructor; cbn; lia].
    + apply (Hgo 3); [apply next_3; lia|done|repeat constructor; cbn; lia].
    + apply (Hgo 5); [by rewrite Ha|done|repeat constructor; cbn; lia].
  - split; [|zguard; cbn [foldl length]; split_and!; divlia || done].
    destruct Hw as [[[Ha Hb]|[[Ha Hb]|[Ha Hb]]] [Hc Hd]].
    + apply (Hgo 6); [by rewrite Ha|done|repeat constructor; cbn; lia].
    + apply (Hgo 7); [apply next_7; lia|done|repeat constructor; cbn; lia].
    + apply (Hgo 8); [by rewrite Ha|done|repeat constructor; cbn; lia].
Qed.

Lemma foldl_add_bits c bs : foldl add_bits c bs = foldl (λ c z, c * 64 + (z - 0x80)) c (map byteZ bs).
Proof. revert c. induction bs as [|b bs IH]; intros c; [done|]. cbn. by rewrite IH. Qed.

Lemma within_Z rs bs : Forall2 (λ r z, r.1 ≤ z ≤ r.2) rs (map byteZ bs) → Forall2 within rs bs.
Proof.
  revert rs. induction bs as [|b bs IH]; intros rs H; inversion H; subst; constructor; [done|by apply IH].
Qed.

(** What is written after a complete code point, and where the loop goes on. *)
Definition after_char (ens : bool) (i : Z) (b : byte) (cp : Z) (rest buffer : list byte) : D unit :=
  if string_buffer_size - zlen buffer <? 13 then write buffer;; escape_loop ens (i + 1) b rest 0 cp []
  else escape_loop ens (i + 1) b rest 0 cp buffer.

(** [pre] are the bytes of the character before the last, when they are copied. *)
Lemma put_codepoint_ok ens cp b pre buffer :
  scalar cp → utf8 cp = pre ++ [b] → zlen buffer ≤ 499 →
  put_codepoint ens cp b (buffer ++ if ens then [] else pre) = Ok (buffer ++ escaped ens cp).
Proof.
  intros Hcp Eu Hb.
  assert (Hpre : zlen pre ≤ 3 ∧ (cp < 0x80 → pre = [])).
  { apply (f_equal zlen) in Eu as El. rewrite zlen_app in El. change (zlen [b]) with 1 in El. unfold utf8, utf8Z in Eu, El.
    destruct (Z.ltb_spec cp 0x80); [|destruct (Z.ltb_spec cp 0x800); [|destruct (Z.ltb_spec cp 0x10000)]];
      cbn in El; change (zlen [_]) with 1 in El; (split; [zl|]); try lia.
    intros _. destruct pre as [|x pre]; [done|]. exfalso. zl. }
  destruct Hpre as [Hlen Hsmall].
  unfold put_codepoint, put, escaped, string_buffer_size.
  assert (Hgo : ∀ bs room, cp < 0x80 ∨ ens = true → room ≤ 13 →
    (if zlen (buffer ++ if ens then [] else pre) + room <=? 512
     then Ok ((buffer ++ if ens then [] else pre) ++ bs) else Fault OutOfBounds) = Ok (buffer ++ bs)).
  { intros bs room Hc Hr. assert (Ep : (if ens then [] else pre) = []) by (destruct ens; [done|]; apply Hsmall; by destruct Hc).
    rewrite Ep, app_nil_r. by rewrite (proj2 (Z.leb_le _ _)) by lia. }
  repeat match goal with
  | |- (if ?x =? ?k then _ else _) = _ => destruct (Z.eqb_spec x k) as [Ex|]; [apply Hgo; lia|]
  end.
  destruct ((cp <=? 0x1F) || (ens && (0x7F <=? cp))) eqn:Ec.
  - assert (Hc : cp < 0x80 ∨ ens = true) by (destruct ens; [by right|left; lia]).
    destruct (cp <=? 0xFFFF); apply Hgo; done || lia.
  - assert (Hens : ens = true → pre = []) by (intros ->; apply Hsmall; lia).
    assert (Ep : (if ens then [] else pre) = pre) by (destruct ens; [by rewrite Hens|done]). rewrite Ep.
    rewrite (proj2 (Z.leb_le _ _)) by zl. by rewrite <- app_assoc, <- Eu.
Qed.

Lemma complete_after ens i b cp rest pre buffer ser :
  scalar cp → utf8 cp = pre ++ [b] → zlen buffer ≤ 499 →
  complete ens i b cp rest (buffer ++ if ens then [] else pre) ser = after_char ens i b cp rest (buffer ++ escaped ens cp) ser.
Proof.
  intros Hcp Eu Hb. unfold complete. apply D_bind_ok. unfold lift_result. by rewrite (put_codepoint_ok _ _ _ _ _ Hcp Eu Hb).
Qed.

Lemma char_step ens cp i last rest c buffer ser :
  scalar cp → zlen buffer ≤ 499 →
  ∃ i' b, escape_loop ens i last (utf8 cp ++ rest) 0 c buffer ser = after_char ens i' b cp rest (buffer ++ escaped ens cp) ser.
Proof.
  intros Hcp Hb. pose proof (utf8_byteZ cp Hcp) as EZ.
  destruct (utf8 cp) as [|b bs] eqn:Eu; [by apply utf8_nonempty in Eu|]. cbn [map] in EZ.
  pose proof (byteZ_range b) as Hb8. unfold in_u in Hb8.
  destruct (lead_of cp (byteZ b) (map byteZ bs) Hcp (eq_sym EZ)) as [(Ebs & Ecp & Hr)|(Hne & Hfor & Efold & Hl & Hl2 & Hl3)].
  - apply map_eq_nil in Ebs as ->. exists i, b. cbn [app].
    assert (Hn : next_state 0 (byteZ b) = 0) by (unfold next_state; cbn [Z.eqb]; by rewrite (proj2 (Z.leb_le _ _)) by lia).
    rewrite (escape_complete _ _ _ _ _ _ _ cp).
    { rewrite <- (complete_after ens i b cp rest [] buffer ser Hcp Eu Hb). by destruct ens; rewrite app_nil_r. }
    apply injective_projections; cbn [fst snd]; [rewrite decode_state by lia; done|].
    rewrite decode_lead by lia. unfold lead_bits. rewrite (proj2 (Z.leb_le _ _)) by lia. done.
  - set (st := next_state 0 (byteZ b)) in *. destruct (expects st) as [|r rs] eqn:Ers; [done|].
    destruct (expects_next st r rs Ers) as (Hs & _).
    assert (Hd : decode 0 c (byteZ b) = (st, lead_bits (byteZ b))).
    { apply injective_projections; cbn [fst snd]; [by rewrite decode_state by lia|].
      apply decode_lead; [lia|]. fold st. lia. }
    cbn [app]. rewrite (escape_inside _ _ _ _ _ _ _ _ _ _ _ Hd) by lia.
    apply Forall2_length in Hfor as Elen. rewrite length_map in Elen, Hl2, Hl3.
    assert (Hshape : zlen (r :: rs) ≤ 3 ∧ (lead_bits (byteZ b) + 1) * 64 ^ zlen (r :: rs) ≤ 2 ^ 22).
    { unfold zlen. rewrite Elen. assert (length bs ≤ 3)%nat by (pose proof (expects_len st) as Hl4; rewrite Ers in Hl4; unfold zlen in Hl4; lia).
      split; [lia|]. destruct bs as [|? [|? [|? [|? ?]]]]; cbn [length] in *; lia. }
    destruct Hshape as [Hlen Hbits].
    destruct (pending_run ens (r :: rs) st (lead_bits (byteZ b)) bs (i + 1) b rest (if ens then buffer else buffer ++ [b]) ser Ers
      ltac:(done) (within_Z _ _ Hfor) ltac:(lia) Hbits) as (i' & pre & b' & -> & E).
    { destruct ens; zl. }
    exists i', b'. rewrite E. rewrite <- (complete_after ens i' b' cp rest (b :: pre) buffer ser Hcp ltac:(done) Hb).
    rewrite foldl_add_bits, Efold. destruct ens; [done|]. by rewrite <- app_assoc.
Qed.

Lemma after_char_ok ens i b cp rest buffer ser :
  ∃ i' buffer' ser', after_char ens i b cp rest buffer ser = escape_loop ens i' b rest 0 cp buffer' ser' ∧ zlen buffer' ≤ 499 ∧
    o ser' ++ buffer' = o ser ++ buffer ∧ indent_string ser' = indent_string ser.
Proof.
  unfold after_char, string_buffer_size. destruct (Z.ltb_spec (512 - zlen buffer) 13).
  - exists (i + 1), [], (mkSerializer (o ser ++ buffer) (indent_string ser)). split; [done|]. cbn.
    split; [done|]. by rewrite app_nil_r.
  - exists (i + 1), buffer, ser. split; [done|]. split; [lia|done].
Qed.

Lemma escape_valid ens cps i last c buffer ser :
  Forall scalar cps → zlen buffer ≤ 499 →
  escape_loop ens i last (utf8s cps) 0 c buffer ser =
    Ok (inr (tt, mkSerializer (o ser ++ buffer ++ concat (map (escaped ens) cps)) (indent_string ser))).
Proof.
  intros H. revert i last c buffer ser. induction H as [|cp cps Hcp Hcps IH]; intros i last c buffer ser Hb.
  - cbn. unfold UTF8_ACCEPT. rewrite app_nil_r. destruct (Z.ltb_spec 0 (zlen buffer)) as [|Hz]; [done|].
    destruct buffer; [|zl]. cbn. rewrite app_nil_r. by destruct ser.
  - change (utf8s (cp :: cps)) with (utf8 cp ++ utf8s cps).
    destruct (char_step ens cp i last (utf8s cps) c buffer ser Hcp Hb) as (i' & b & ->).
    destruct (after_char_ok ens i' b cp (utf8s cps) (buffer ++ escaped ens cp) ser) as (i2 & buffer' & ser' & -> & Hb' & Eo & Ei).
    rewrite (IH _ _ _ _ _ Hb'), Ei, app_assoc, Eo. cbn [map concat]. by rewrite <- !app_assoc.
Qed.

(** ** Ill-formed strings *)

Definition throws_316 (r : result (exception + unit * serializer)) : Prop := ∃ e, r = Ok (inl e) ∧ e_id e = 316.

(** The bytes begin with a character, or the loop throws. *)
Lemma pending_split rs st bs :
  expects st = rs → rs ≠ [] →
  (∃ p q, bs = p ++ q ∧ Forall2 within rs p) ∨
  (∀ ens i last c buffer ser, zlen buffer + zlen rs ≤ 511 → throws_316 (escape_loop ens i last bs st c buffer ser)).
Proof.
  revert st bs. induction rs as [|r rs IH]; intros st bs Ers Hne; [done|].
  destruct (expects_next st r rs Ers) as (Hs & Hafter & Hnil & Hcons).
  destruct bs as [|b bs].
  { right. intros. eexists. cbn [escape_loop]. unfold UTF8_ACCEPT. rewrite (proj2 (Z.eqb_neq st 0)) by lia. done. }
  pose proof (byteZ_range b) as Hb8. unfold in_u in Hb8.
  assert (Hd : ∀ c, ∃ c', decode st c (byteZ b) = (if (r.1 <=? byteZ b) && (byteZ b <=? r.2) then after_first st else 1, c')).
  { intros c. eexists. apply injective_projections; [|reflexivity].
    cbn [fst]. by rewrite <- (next_tail st r rs) by done; rewrite decode_state by lia. }
  destruct ((r.1 <=? byteZ b) && (byteZ b <=? r.2)) eqn:Er.
  - assert (Hb : within r b) by (unfold within; lia). destruct rs as [|r2 rs].
    { left. exists [b], bs. split; [done|]. constructor; [done|constructor]. }
    destruct (Hcons ltac:(done)) as [Ha1 Ha2].
    destruct (IH (after_first st) bs Hafter ltac:(done)) as [(p & q & -> & Hp)|Hbad].
    { left. exists (b :: p), q. split; [done|]. by constructor. }
    right. intros. destruct (Hd c) as [c' E]. rewrite (escape_inside _ _ _ _ _ _ _ _ _ _ _ E) by (lia || zl).
    apply Hbad. destruct ens; zl.
  - right. intros. destruct (Hd c) as [c' E]. eexists. cbn [escape_loop]. rewrite E. done.
Qed.

Lemma char_split s :
  s ≠ [] →
  (∃ cp q, scalar cp ∧ s = utf8 cp ++ q) ∨
  (∀ ens i last c buffer ser, zlen buffer ≤ 499 → throws_316 (escape_loop ens i last s 0 c buffer ser)).
Proof.
  intros Hne. destruct s as [|b bs]; [done|]. pose proof (byteZ_range b) as Hb8. unfold in_u in Hb8.
  assert (Hchar : ∀ p q, bs = p ++ q → well_formed (byteZ b :: map byteZ p) → ∃ cp q, scalar cp ∧ b :: bs = utf8 cp ++ q).
  { intros p q -> Hw. destruct (well_formed_utf8Z _ Hw) as (cp & Hcp & E). exists cp, q. split; [done|].
    unfold utf8. rewrite E. change (byteZ b :: map byteZ p) with (map byteZ (b :: p)). by rewrite map_Zbyte_byteZ. }
  destruct (lead_cases (byteZ b)) as [H1|[[H0 Hr]|(Hexp & Hr & Hw)]]; [lia| | |].
  - right. intros. eexists. cbn [escape_loop]. rewrite (surjective_pairing (decode _ _ _)), decode_state by lia. by rewrite H1.
  - left. by apply (Hchar [] bs); [done|cbn; lia].
  - destruct (pending_split (expects (next_state 0 (byteZ b))) (next_state 0 (byteZ b)) bs) as [(p & q & E & Hp)|Hbad]; [done..| |].
    { left. apply (Hchar p q); [done|]. by apply Hw. }
    right. intros. destruct (expects (next_state 0 (byteZ b))) as [|r rs] eqn:Ers; [done|].
    destruct (expects_next _ r rs Ers) as (Hs & _).
    rewrite (escape_inside _ _ _ _ _ _ _ (next_state 0 (byteZ b)) (decode 0 c (byteZ b)).2)
      by (lia || (apply injective_projections; cbn [fst snd]; [by rewrite decode_state by lia|done])).
    apply Hbad. rewrite <- Ers.
    pose proof (expects_len (next_state 0 (byteZ b))). destruct ens; zl.
Qed.

Definition valid (s : list byte) : Prop := ∃ cps, Forall scalar cps ∧ s = utf8s cps.

Lemma escape_total s n :
  (length s ≤ n)%nat →
  valid s ∨ (∀ ens i last c buffer ser, zlen buffer ≤ 499 → throws_316 (escape_loop ens i last s 0 c buffer ser)).
Proof.
  revert s. induction n as [|n IH]; intros s Hn.
  { left. destruct s; [|cbn in Hn; lia]. by exists []. }
  destruct s as [|b bs]; [left; by exists []|].
  destruct (char_split (b :: bs)) as [(cp & q & Hcp & E)|]; [done| |by right].
  rewrite E in Hn |- *. destruct (IH q) as [(cps & Hcps & ->)|Hbad].
  { rewrite length_app in Hn. pose proof (utf8_nonempty cp). destruct (utf8 cp); [done|]. cbn in Hn. lia. }
  - left. exists (cp :: cps). by split; [constructor|].
  - right. intros ens i last c buffer ser Hb. destruct (char_step ens cp i last q c buffer ser Hcp Hb) as (i' & b' & ->).
    destruct (after_char_ok ens i' b' cp q (buffer ++ escaped ens cp) ser) as (i2 & buffer' & ser' & -> & Hb' & _).
    by apply Hbad.
Qed.

(** ** What is written is a JSON string *)

Lemma lower_hex_val v : 0 ≤ v < 16 → hexval (byteZ (lower_hex v)) = Some v ∧ 48 ≤ byteZ (lower_hex v) ≤ 102.
Proof.
  intros H. unfold lower_hex.
  assert (in_u 8 (if v <? 10 then 48 + v else 87 + v)) as Hu by (unfold in_u; destruct (v <? 10); lia).
  rewrite byteZ_Zbyte, u8_small by done. destruct (Z.ltb_spec v 10); (split; [|lia]); unfold hexval; zguard; f_equal; lia.
Qed.

Lemma u_escape_hex v :
  0 ≤ v ≤ 0xFFFF → ∃ ds, u_escape v = backslash :: Zbyte 117 :: ds ∧ hex4 (map byteZ ds) = Some v ∧ Forall (λ b, 48 ≤ byteZ b ≤ 102) ds.
Proof.
  intros H. unfold u_escape. rewrite u16_small by (unfold in_u; lia). eexists. split; [reflexivity|].
  destruct (lower_hex_val (v / 4096)) as [E1 R1]; [divlia|]. destruct (lower_hex_val (v / 256 mod 16)) as [E2 R2]; [divlia|].
  destruct (lower_hex_val (v / 16 mod 16)) as [E3 R3]; [divlia|]. destruct (lower_hex_val (v mod 16)) as [E4 R4]; [divlia|].
  split; [|do 4 (apply Forall_cons_2; [done|]); apply Forall_nil_2]. cbn [map]. unfold hex4. rewrite E1, E2, E3, E4. cbn. f_equal. divlia.
Qed.

Definition printable (b : byte) : Prop := 0x20 ≤ byteZ b < 0x7F.

Lemma u_escape_printable v : 0 ≤ v ≤ 0xFFFF → Forall printable (u_escape v).
Proof.
  intros H. destruct (u_escape_hex v H) as (ds & -> & _ & Hds). do 2 (apply Forall_cons_2; [by split; vm_compute|]).
  eapply Forall_impl; [|exact Hds]. unfold printable. intros b Hb. cbv beta in Hb. lia.
Qed.

Lemma surrogate_high cp : 0x10000 ≤ cp ≤ 0x10FFFF → 0xD800 ≤ 0xD7C0 + Z.shiftr cp 10 ≤ 0xDBFF.
Proof. intros H. rewrite Z.shiftr_div_pow2 by lia. change (2 ^ 10) with 1024. divlia. Qed.

Lemma surrogate_low cp : 0xDC00 ≤ 0xDC00 + Z.land cp 0x3FF ≤ 0xDFFF.
Proof. change 0x3FF with (Z.ones 10). rewrite Z.land_ones by lia. change (2 ^ 10) with 1024. divlia. Qed.

Lemma surrogate_pair cp :
  0x10000 ≤ cp ≤ 0x10FFFF → 0x10000 + (0xD7C0 + Z.shiftr cp 10 - 0xD800) * 1024 + (0xDC00 + Z.land cp 0x3FF - 0xDC00) = cp.
Proof.
  intros H. change 0x3FF with (Z.ones 10). rewrite Z.land_ones, Z.shiftr_div_pow2 by lia. change (2 ^ 10) with 1024. divlia.
Qed.

Lemma short_json c cp bs :
  existsb (λ p, (p.1 =? c) && (p.2 =? cp)) short_escapes = true → bs = [backslash; Zbyte c] → json_char bs cp.
Proof.
  intros H ->. apply jc_short. apply existsb_exists in H as ([c' cp'] & Hin & Heq). cbn in Heq.
  assert (c' = c ∧ cp' = cp) as [<- <-] by lia. by apply list_elem_of_In.
Qed.

Lemma escaped_json_char ens cp : scalar cp → json_char (escaped ens cp) cp.
Proof.
  intros Hcp. unfold scalar in Hcp. unfold escaped.
  repeat match goal with
  | |- json_char (if ?x =? ?k then _ else _) _ =>
      destruct (Z.eqb_spec x k) as [->|];
        [first [by apply (short_json 98)|by apply (short_json 116)|by apply (short_json 110)|by apply (short_json 102)
               |by apply (short_json 114)|by apply (short_json 34)|by apply (short_json 92)]|]
  end.
  destruct ((cp <=? 0x1F) || (ens && (0x7F <=? cp))) eqn:E; [|by apply jc_plain; unfold scalar; lia].
  destruct (Z.leb_spec cp 0xFFFF).
  - destruct (u_escape_hex cp) as (ds & -> & Hds & _); [lia|]. by apply jc_hex.
  - pose proof (surrogate_high cp ltac:(lia)). pose proof (surrogate_low cp).
    destruct (u_escape_hex (0xD7C0 + Z.shiftr cp 10)) as (ds1 & -> & Hd1 & _); [lia|].
    destruct (u_escape_hex (0xDC00 + Z.land cp 0x3FF)) as (ds2 & -> & Hd2 & _); [lia|].
    pose proof (jc_pair ds1 ds2 _ _ Hd1 Hd2 ltac:(lia) ltac:(lia)) as J. by rewrite surrogate_pair in J by lia.
Qed.

Lemma escaped_printable cp : scalar cp → Forall printable (escaped true cp).
Proof.
  intros Hcp. unfold scalar in Hcp. unfold escaped.
  repeat match goal with
  | |- Forall _ (if ?x =? ?k then _ else _) =>
      destruct (Z.eqb_spec x k) as [->|]; [do 2 (apply Forall_cons_2; [by split; vm_compute|]); constructor|]
  end.
  destruct ((cp <=? 0x1F) || (true && (0x7F <=? cp))) eqn:E.
  - destruct (Z.leb_spec cp 0xFFFF); [apply u_escape_printable; lia|].
    pose proof (surrogate_high cp ltac:(lia)). pose proof (surrogate_low cp).
    apply Forall_app. split; apply u_escape_printable; lia.
  - unfold utf8, utf8Z. rewrite (proj2 (Z.ltb_lt _ _)) by lia. constructor; [|constructor].
    unfold printable. rewrite byteZ_Zbyte, u8_small by (unfold in_u; lia). lia.
Qed.

Lemma escaped_string ens cps : Forall scalar cps → json_string (concat (map (escaped ens) cps)) cps.
Proof. induction 1; [constructor|]. cbn. constructor; [by apply escaped_json_char|done]. Qed.

(** The serializer writes every valid UTF-8 string as a JSON string of the
    same code points, in printable ASCII when [ensure_ascii] is set, without
    ever writing outside its 512-byte buffer; every other string makes it throw
    the type error 316. *)
Theorem dump_escaped_exact s ensure_ascii ser :
  (∃ cps out, Forall scalar cps ∧ s = utf8s cps ∧
    dump_escaped s ensure_ascii ser = Ok (inr (tt, mkSerializer (o ser ++ out) (indent_string ser))) ∧
    json_string out cps ∧ (ensure_ascii = true → Forall printable out)) ∨
  (¬ valid s ∧ throws_316 (dump_escaped s ensure_ascii ser)).
Proof.
  unfold dump_escaped.
  destruct (escape_total s (length s)) as [(cps & Hcps & ->)|Hbad]; [done| |].
  - left. exists cps, (concat (map (escaped ensure_ascii) cps)). rewrite escape_valid by done.
    split_and!; [done..|by apply escaped_string|]. intros ->. apply Forall_concat, Forall_map.
    eapply Forall_impl; [exact escaped_printable|exact Hcps].
  - right. specialize (Hbad ensure_ascii 0 x00 0 [] ser ltac:(done)). split; [|done].
    intros (cps & Hcps & ->). rewrite escape_valid in Hbad by done. by destruct Hbad as (e & ? & _).
Qed.
