(* ===== verification/JsonRoundtrip.v ===== *)
(** * Serializing and parsing

    What [dump] writes is a text of the JSON grammar, with the value it was
    given, so that [parse] reads it back; and where the indentation of the
    pretty printer leaves its buffer. *)

From Stdlib Require Import ZArith Lia Strings.Byte Strings.String SpecFloat.
From stdpp Require Import base list numbers sorting.
From S2P Require Import Prelude.
From S2P Require Import Field.
From S2P Require Import Utf8.
From S2P Require Import JsonLexer.
From S2P Require Import JsonStrings.
From S2P Require Import JsonNumbers.
From S2P Require Import JsonParser.
From S2P Require Import JsonGrammar.
From S2P Require Import Grisu.
From S2P Require Import GrisuText.
From S2P Require Import JsonDump.
From S2P Require Import JsonEscape.

#[local] Open Scope Z_scope.

(** ** Integers *)

Lemma digits_app acc a b : all_digits a → digits acc (a ++ b) = digits (digits acc a) b.
Proof. intros H. revert acc. induction H as [|c a Hc _ IH]; intros acc; [done|]. cbn. by rewrite Hc, IH. Qed.

(** [rs] spells [x] from its last digit on; nothing spells zero. *)
Inductive spelt : Z → list byte → Prop :=
  | spelt_0 : spelt 0 []
  | spelt_digit x d rs : spelt x rs → 0 ≤ d < 10 → 0 < 10 * x + d → spelt (10 * x + d) (Zbyte (48 + d) :: rs).

Lemma spelt_ok x rs :
  spelt x rs → 0 ≤ x ∧ all_digits rs ∧ digits 0 (reverse rs) = x ∧ (x = 0 → rs = []) ∧
    (0 < x → ∃ d ds, reverse rs = d :: ds ∧ d ≠ nought).
Proof.
  induction 1 as [|x d rs _ (Hx & Ha & Hv & H0 & Hne) Hd Hp]; [by split_and!; (constructor || lia || done)|].
  pose proof (byteZ_Zbyte (48 + d)) as Ed. rewrite u8_small in Ed by (unfold in_u; lia).
  assert (Hd1 : isdigit (Zbyte (48 + d)) = true) by (unfold isdigit; rewrite Ed; lia).
  rewrite reverse_cons. split_and!; [lia|by constructor| |lia|].
  - rewrite digits_app by by apply Forall_reverse. rewrite Hv. cbn [digits]. rewrite Hd1, Ed. lia.
  - intros _. destruct (decide (x = 0)) as [E|].
    + rewrite (H0 E). eexists _, []. split; [done|]. intros En. apply (f_equal byteZ) in En. rewrite Ed in En.
      change (byteZ nought) with 48 in En. lia.
    + destruct Hne as (c & cs & -> & Hc); [lia|]. by exists c, (cs ++ [Zbyte (48 + d)]).
Qed.

Lemma digit_loop_ok k fuel x buffer :
  (k ≤ fuel)%nat → Z.abs x < 10 ^ Z.of_nat k → zlen buffer + Z.of_nat k ≤ 64 →
  ∃ rs, digit_loop fuel x buffer = Ok (buffer ++ rs) ∧ spelt (Z.abs x) rs ∧ zlen rs ≤ Z.of_nat k.
Proof.
  revert fuel x buffer. induction k as [|k IH]; intros fuel x buffer Hk Hx Hb.
  - assert (x = 0) as -> by lia. exists []. rewrite app_nil_r. split_and!; [by destruct fuel|constructor|zl].
  - destruct fuel as [|fuel]; [lia|]. cbn [digit_loop]. destruct (Z.eqb_spec x 0) as [->|Hx0].
    { exists []. rewrite app_nil_r. split_and!; [done|constructor|zl]. }
    unfold put_digit, number_buffer_size. rewrite (proj2 (Z.ltb_lt _ _)) by lia.
    pose proof (Z.quot_rem' x 10). pose proof (Z.rem_bound_abs x 10 ltac:(lia)).
    rewrite Nat2Z.inj_succ, Z.pow_succ_r in Hx by lia.
    assert (Habs : Z.abs x = 10 * Z.abs (Z.quot x 10) + Z.abs (Z.rem x 10)).
    { pose proof (Z.rem_sign_mul x 10 ltac:(lia)). pose proof (Z.quot_abs x 10 ltac:(lia)). pose proof (Z.rem_abs x 10 ltac:(lia)).
      pose proof (Z.quot_rem' (Z.abs x) 10). change (Z.abs 10) with 10 in *. lia. }
    destruct (IH fuel (Z.quot x 10) (buffer ++ [Zbyte (48 + Z.abs (Z.rem x 10))])) as (rs & -> & Hs & Hl); [lia|lia|zl|].
    exists (Zbyte (48 + Z.abs (Z.rem x 10)) :: rs). rewrite <- app_assoc. split_and!; [done| |zl].
    rewrite Habs. constructor; [done|lia|lia].
Qed.

(** The number [dump_integer] writes. *)
Lemma dump_integer_ok x ser :
  Z.abs x < 2 ^ 64 →
  ∃ n, dump_integer x ser = Ok (inr (tt, mkSerializer (o ser ++ number_text n) (indent_string ser))) ∧
    number_ok n ∧ integral n = true ∧ int_value n = x ∧ n_neg n = bool_decide (x < 0).
Proof.
  intros Hx. unfold dump_integer. destruct (Z.eqb_spec x 0) as [->|Hx0].
  { exists (mkNumber false [nought] [] None). split_and!; try done. split_and!; [|constructor|done].
    split; [by repeat constructor|by left]. }
  destruct (digit_loop_ok 20 64 x []) as (rs & E & Hs & Hl); [lia|lia|zl|]. cbn [app] in E.
  apply spelt_ok in Hs as (_ & Ha & Hv & _ & Hne). destruct Hne as (d & ds & Er & Hd); [lia|].
  assert (Hn : ∀ neg, number_ok (mkNumber neg (reverse rs) [] None)).
  { intros neg. split_and!; [|constructor|done]. split; [by apply Forall_reverse|]. right. by exists d, ds. }
  exists (mkNumber (bool_decide (x < 0)) (reverse rs) [] None).
  split_and!; [|apply Hn|done| |done].
  - rewrite (D_bind_ok _ _ _ rs ser) by (unfold lift_result; by rewrite E). unfold put_digit, number_buffer_size.
    rewrite (proj2 (Z.ltb_lt _ _)) by lia. unfold number_text. cbn [n_neg n_int n_frac n_exp frac_text exp_text].
    rewrite !app_nil_r. destruct (Z.leb_spec x 0).
    + cbn [andb negb]. rewrite (D_bind_ok _ _ _ (rs ++ [Zbyte 45]) ser) by done. rewrite bool_decide_true by lia.
      unfold write. by rewrite reverse_app.
    + cbn [andb]. rewrite (D_bind_ok _ _ _ rs ser) by done. by rewrite bool_decide_false by lia.
  - unfold int_value, mantissa. cbn [n_neg n_int n_frac]. rewrite app_nil_r, Hv. destruct (bool_decide_reflect (x < 0)); lia.
Qed.

(** ** Values *)

Lemma json_nested_ind (Q : json → Prop) :
  Q j_null → (∀ ms, Forall (λ kv, Q kv.2) ms → Q (j_object ms)) → (∀ vs, Forall Q vs → Q (j_array vs)) →
  (∀ s, Q (j_string s)) → (∀ b, Q (j_boolean b)) → (∀ z, Q (j_number_integer z)) → (∀ z, Q (j_number_unsigned z)) →
  (∀ f, Q (j_number_float f)) → Q j_discarded → ∀ v, Q v.
Proof.
  intros Hnull Hobj Harr Hs Hb Hi Hu Hf Hd. fix IH 1.
  intros [|ms|vs|s|b|z|z|f|]; [exact Hnull| | |exact (Hs s)|exact (Hb b)|exact (Hi z)|exact (Hu z)|exact (Hf f)|exact Hd].
  - apply Hobj. induction ms as [|kv ms IHms]; constructor; [apply IH|exact IHms].
  - apply Harr. induction vs as [|v vs IHvs]; constructor; [apply IH|exact IHvs].
Qed.

(** The nesting of arrays and objects. *)
Fixpoint depth (v : json) : Z :=
  match v with
  | j_object ms => 1 + foldr Z.max 0 (map (λ kv, depth kv.2) ms)
  | j_array vs => 1 + foldr Z.max 0 (map depth vs)
  | _ => 0
  end.

(** The value as it is read back: an integer that is not negative is an unsigned
    number, and infinities and NaN are null. *)
Fixpoint reread (v : json) : json :=
  match v with
  | j_object ms => j_object (map (λ kv, (kv.1, reread kv.2)) ms)
  | j_array vs => j_array (map reread vs)
  | j_number_integer z => if 0 <=? z then j_number_unsigned z else v
  | j_number_float f => if isfinite f then v else j_null
  | _ => v
  end.

(** The members of a [std::map]: in the order of their keys. *)
Definition ordered (ms : list (list byte * json)) : Prop := StronglySorted (λ a b, key_ltb a.1 b.1 = true) ms.

Lemma key_ltb_asym a b : key_ltb a b = true → key_ltb b a = false.
Proof.
  revert b. induction a as [|x a IH]; intros [|y b]; cbn; try done.
  destruct (Z.eqb_spec (byteZ x) (byteZ y)) as [->|]; [rewrite Z.eqb_refl; apply IH|].
  rewrite (proj2 (Z.eqb_neq _ _)) by lia. lia.
Qed.

Lemma emplace_last k v acc : Forall (λ a, key_ltb a.1 k = true) acc → emplace k v acc = acc ++ [(k, v)].
Proof.
  induction 1 as [|[k' v'] acc H _ IH]; [done|]. cbn in *. by rewrite (key_ltb_asym _ _ H), H, IH.
Qed.

Lemma add_members_ordered acc ms : ordered (acc ++ ms) → foldl add_member acc ms = acc ++ ms.
Proof.
  revert acc. induction ms as [|[k v] ms IH]; intros acc H; [by rewrite app_nil_r|].
  cbn [foldl]. unfold add_member at 2. cbn [fst snd]. rewrite emplace_last.
  - rewrite IH; by rewrite <- app_assoc.
  - apply Forall_forall. intros a Ha. unfold ordered in H. rewrite StronglySorted_app in H.
    apply (proj1 H a (k, v) Ha). by left.
Qed.

Lemma ordered_reread ms : ordered ms → ordered (map (λ kv, (kv.1, reread kv.2)) ms).
Proof.
  unfold ordered. induction 1 as [|kv ms _ IH H]; cbn; constructor; [done|]. apply Forall_map.
  by eapply Forall_impl; [exact H|].
Qed.

Lemma max_nonneg l : 0 ≤ foldr Z.max 0 l.
Proof. induction l; cbn; lia. Qed.

Lemma depth_nonneg v : 0 ≤ depth v.
Proof.
  destruct v; cbn [depth]; try lia; match goal with |- context [foldr Z.max 0 ?l] => pose proof (max_nonneg l); lia end.
Qed.

Lemma max_le x l : x ∈ l → x ≤ foldr Z.max 0 l.
Proof. induction l as [|y l IH]; intros H; [by apply elem_of_nil in H|]. apply elem_of_cons in H as [->|H]; cbn; [lia|]. specialize (IH H). lia. Qed.

Section Dump.
Context (pretty ens : bool) (step : Z).

(** A finite double prints as a JSON number that denotes it. *)
Lemma float_prints f : finite64 f →
  ∃ n, number_ok n ∧ chars_of number_buffer f = Ok (number_text n) ∧ number_value n = j_number_float f.
Proof.
  intros Hf. destruct (to_chars_number f number_buffer Hf) as (n & E & Hok & Hi & _ & Hr); [done|]. exists n. split; [done|]. split; [done|].
  unfold number_value. by rewrite Hi, Hr.
Qed.

(** The values that can be written: numbers in their range, strings in UTF-8. *)
Inductive dumpable : json → Prop :=
  | dumpable_null : dumpable j_null
  | dumpable_boolean b : dumpable (j_boolean b)
  | dumpable_string s : valid s → dumpable (j_string s)
  | dumpable_integer z : - 2 ^ 63 ≤ z < 2 ^ 63 → dumpable (j_number_integer z)
  | dumpable_unsigned z : 0 ≤ z < 2 ^ 64 → dumpable (j_number_unsigned z)
  | dumpable_float f : valid_binary 53 1024 f = true → dumpable (j_number_float f)
  | dumpable_array vs : Forall dumpable vs → dumpable (j_array vs)
  | dumpable_object ms : ordered ms → Forall (λ kv, valid kv.1 ∧ dumpable kv.2) ms → dumpable (j_object ms).

(** ** What an operation writes *)

Definition indent_ok (ind : list byte) : Prop := pretty = true → 512 ≤ zlen ind ∧ spaces ind.

Definition emits (m : D unit) (ser : serializer) (Q : list byte → Prop) : Prop :=
  ∃ out ind, m ser = Ok (inr (tt, mkSerializer (o ser ++ out) ind)) ∧ Q out ∧ indent_ok ind ∧ zlen (indent_string ser) ≤ zlen ind.

Lemma emits_write bs ser (Q : list byte → Prop) : indent_ok (indent_string ser) → Q bs → emits (write bs) ser Q.
Proof. intros H HQ. by exists bs, (indent_string ser). Qed.

Lemma emits_bind m k ser (P Q : list byte → Prop) :
  emits m ser P →
  (∀ a ser', P a → indent_ok (indent_string ser') → zlen (indent_string ser) ≤ zlen (indent_string ser') →
     emits k ser' (λ b, Q (a ++ b))) →
  emits (m;; k) ser Q.
Proof.
  intros (a & ind & E & HP & Hi & Hl) Hk.
  destruct (Hk a (mkSerializer (o ser ++ a) ind) HP Hi Hl) as (b & ind' & E' & HQ & Hi' & Hl').
  exists (a ++ b), ind'. split_and!; [|done..|cbn in *; lia]. rewrite (D_bind_ok _ _ _ _ _ E), E'. cbn. by rewrite <- app_assoc.
Qed.

Lemma emits_impl m ser (P Q : list byte → Prop) : emits m ser P → (∀ a, P a → Q a) → emits m ser Q.
Proof. intros (a & ind & E & HP & Hi) H. exists a, ind. split_and!; try done. by apply H. all: by apply Hi. Qed.

Lemma emits_indent n ser :
  pretty = true → indent_ok (indent_string ser) → 0 ≤ n ≤ zlen (indent_string ser) → emits (write_indent n) ser spaces.
Proof.
  intros Hp Hi Hn. unfold write_indent. exists (ztake n (indent_string ser ++ [x00])), (indent_string ser).
  rewrite (proj2 (Z.leb_le _ _)) by lia. split_and!; [done| |done..].
  unfold ztake. rewrite take_app_le by (unfold zlen in Hn; lia). destruct (Hi Hp) as [_ Hs]. by apply Forall_take.
Qed.

Lemma emits_escaped s ser :
  valid s → indent_ok (indent_string ser) → emits (dump_escaped s ens) ser (λ out, ∃ cps, json_string out cps ∧ s = utf8s cps).
Proof.
  intros (cps & Hcps & ->) Hi. eexists _, _. unfold dump_escaped. rewrite escape_valid by done. split_and!; [done| |done..].
  exists cps. split; [by apply escaped_string|done].
Qed.

(** A text of one quoted string. *)
Definition quoted (s out : list byte) : Prop := ∃ src cps, json_string src cps ∧ s = utf8s cps ∧ out = quote :: src ++ [quote].

Lemma emits_quoted s close ser :
  valid s → indent_ok (indent_string ser) →
  emits (write [quote];; dump_escaped s ens;; write (quote :: close)) ser (λ out, ∃ q, quoted s q ∧ out = q ++ close).
Proof.
  intros Hs Hi. eapply emits_bind; [by apply (emits_write _ _ (eq [quote]))|]. intros a ser1 <- Hi1 _.
  eapply emits_bind; [by apply emits_escaped|]. intros src ser2 (cps & Hsrc & ->) Hi2 _.
  apply emits_write; [done|]. exists (quote :: src ++ [quote]). split; [by exists src, cps|]. cbn. by rewrite <- app_assoc.
Qed.

(** ** Lists of elements and of members *)

Section Separated.
Context {A B : Type} (text_of : list byte → A → Prop) (group : list byte → list A → Prop).
Context (value : B → A) (item : B → D unit) (nl : list byte).
Hypothesis last_ok : ∀ t x, text_of t x → group t [x].
Hypothesis more_ok : ∀ t x ts xs, text_of t x → group (nl ++ ts) xs → group (t ++ punct 44 ++ nl ++ ts) (x :: xs).

(** With what is written before the first text and after the last. *)
Lemma emits_separated l ser :
  l ≠ [] → indent_ok (indent_string ser) →
  Forall (λ x, ∀ ser', indent_ok (indent_string ser') → zlen (indent_string ser) ≤ zlen (indent_string ser') →
    emits (item x) ser' (λ out, text_of (nl ++ out) (value x))) l →
  emits (separated item (write (Zbyte 44 :: nl)) l) ser (λ out, group (nl ++ out) (map value l)).
Proof.
  intros Hne Hi H. revert ser Hi H. induction l as [|x l IH]; intros ser Hi H; [done|]. inversion H as [|? ? Hx Hl]; subst.
  destruct l as [|y l].
  { cbn [separated map]. eapply emits_impl; [apply Hx; [done|lia]|]. intros t Ht. by apply last_ok. }
  change (separated item (write (Zbyte 44 :: nl)) (x :: y :: l)) with
    (item x;; write (Zbyte 44 :: nl);; separated item (write (Zbyte 44 :: nl)) (y :: l)).
  eapply emits_bind; [apply Hx; [done|lia]|]. intros t ser1 Ht Hi1 Hl1.
  eapply emits_bind; [by apply (emits_write _ _ (eq (Zbyte 44 :: nl)))|]. intros a ser2 <- Hi2 Hl2.
  eapply emits_impl; [apply IH; [done|done|]|].
  { eapply Forall_impl; [exact Hl|]. intros z Hz ser' Hs1 Hs2. apply Hz; [done|lia]. }
  intros ts Hts. cbn [map]. rewrite app_assoc. change (Zbyte 44 :: nl) with (punct 44 ++ nl). rewrite <- (app_assoc (punct 44)).
  by apply more_ok.
Qed.

End Separated.

(** ** Values *)

Definition element_text (t : list byte) (v : json) : Prop := ∃ w t', spaces w ∧ gvalue t' v ∧ t = w ++ t'.
Definition elements_text (t : list byte) (vs : list json) : Prop := ∀ w, spaces w → gelements (t ++ w) vs.
Definition member_text (t : list byte) (kv : list byte * json) : Prop := ∀ w, spaces w → gmember (t ++ w) kv.
Definition members_text (t : list byte) (kvs : list (list byte * json)) : Prop := ∀ w, spaces w → gmembers (t ++ w) kvs.

Lemma elements_text_last t v : element_text t v → elements_text t [v].
Proof. intros (w & t' & Hw & Ht & ->) w2 Hw2. rewrite <- app_assoc. by apply ge_last. Qed.

Lemma elements_text_more nl t v ts vs :
  element_text t v → elements_text (nl ++ ts) vs → elements_text (t ++ punct 44 ++ nl ++ ts) (v :: vs).
Proof.
  intros (w & t' & Hw & Ht & ->) Hts w2 Hw2. specialize (Hts w2 Hw2). rewrite <- !app_assoc. rewrite <- !app_assoc in Hts.
  apply (ge_more w t' [] (nl ++ ts ++ w2)); done || constructor.
Qed.

Lemma members_text_last t kv : member_text t kv → members_text t [kv].
Proof. intros H w Hw. apply gm_last. by apply H. Qed.

Lemma members_text_more nl t kv ts kvs :
  member_text t kv → members_text (nl ++ ts) kvs → members_text (t ++ punct 44 ++ nl ++ ts) (kv :: kvs).
Proof.
  intros H Hts w Hw. specialize (Hts w Hw). rewrite <- !app_assoc. rewrite <- !app_assoc in Hts.
  apply gm_more; [|done]. rewrite <- (app_nil_r t). apply H. constructor.
Qed.

Lemma member_ok w q k sp t v : spaces w → quoted k q → spaces sp → gvalue t v → member_text (w ++ q ++ punct 58 ++ sp ++ t) (k, v).
Proof.
  intros Hw (src & cps & Hsrc & -> & ->) Hsp Ht w2 Hw2. rewrite <- !app_assoc.
  apply (gm_member w src cps [] sp t w2 v); done || constructor.
Qed.

(** Room for the indentation of [v] at [current_indent]. *)
Definition room (current_indent : Z) (v : json) (ser : serializer) : Prop :=
  pretty = true → 0 ≤ current_indent ≤ zlen (indent_string ser) ∧ 0 ≤ step ≤ 512 ∧ current_indent + step * depth v < 2 ^ 32.

Definition writes (v : json) : Prop := ∀ current_indent ser,
  dumpable v → indent_ok (indent_string ser) → room current_indent v ser →
  emits (dump pretty ens step current_indent v) ser (λ out, gvalue out (reread v)).

Definition next_indent (ci : Z) : Z := if pretty then u32 (ci + step) else ci.

Lemma writes_number z ser v :
  indent_ok (indent_string ser) → Z.abs z < 2 ^ 64 → - 2 ^ 63 ≤ z →
  v = (if 0 <=? z then j_number_unsigned z else j_number_integer z) →
  emits (dump_integer z) ser (λ out, gvalue out v).
Proof.
  intros Hi Hz Hz' ->. destruct (dump_integer_ok z ser Hz) as (n & E & Hn & Hint & Hv & Hneg).
  exists (number_text n), (indent_string ser). split_and!; [done| |done..].
  assert (En : number_value n = if 0 <=? z then j_number_unsigned z else j_number_integer z).
  { unfold number_value. rewrite Hint, Hv, Hneg. destruct (Z.leb_spec 0 z).
    - rewrite bool_decide_false by lia. cbn [andb negb]. by rewrite (proj2 (Z.ltb_lt _ _)) by lia.
    - rewrite bool_decide_true by lia. cbn [andb]. by rewrite (proj2 (Z.leb_le _ _)) by lia. }
  rewrite <- En. apply g_number; [done|]. rewrite En. by destruct (0 <=? z).
Qed.

Lemma emits_if a b ser Q :
  (pretty = true → emits a ser Q) → (pretty = false → emits b ser Q) → emits (if pretty then a else b) ser Q.
Proof.
  intros Ha Hb. assert (H : ∀ p, pretty = p → emits (if p then a else b) ser Q) by (intros []; done). by apply H.
Qed.

Lemma emits_grow n k ser Q :
  pretty = true → indent_ok (indent_string ser) → n ≤ zlen (indent_string ser) + 512 →
  (∀ ser', indent_ok (indent_string ser') → zlen (indent_string ser) ≤ zlen (indent_string ser') →
     n ≤ zlen (indent_string ser') → emits k ser' Q) →
  emits (grow_indent n;; k) ser Q.
Proof.
  intros Hp Hi Hn Hk. destruct (Hi Hp) as [Hlen Hsp].
  set (ser' := if zlen (indent_string ser) <? n then
     mkSerializer (o ser) (indent_string ser ++ zreplicate (zlen (indent_string ser) * 2 - zlen (indent_string ser)) (Zbyte 32))
     else ser).
  assert (Eo : o ser' = o ser) by (unfold ser'; by case_match).
  assert (Hz : zlen (indent_string ser) ≤ zlen (indent_string ser') ∧ n ≤ zlen (indent_string ser') ∧ spaces (indent_string ser')).
  { unfold ser'. destruct (Z.ltb_spec (zlen (indent_string ser)) n); [|done]. cbn [indent_string].
    rewrite zlen_app, zlen_replicate by lia. split_and!; [lia|lia|]. apply Forall_app. split; [done|].
    apply Forall_replicate. by vm_compute. }
  destruct Hz as (Hz1 & Hz2 & Hz3).
  destruct (Hk ser') as (out & ind & E & HQ & Hi' & Hl'); [intros _; split; [lia|done]|done|done|].
  exists out, ind. split_and!; [|done|done|lia]. rewrite (D_bind_ok (grow_indent n) _ ser tt ser') by done. by rewrite E, Eo.
Qed.

Lemma dump_array p en st ci vs :
  vs ≠ [] →
  dump p en st ci (j_array vs) =
    if p then
      write (Zbyte 91 :: [Zbyte 10]);; grow_indent (u32 (ci + st));;
      separated (λ v, write_indent (u32 (ci + st));; dump p en st (u32 (ci + st)) v) (write [Zbyte 44; Zbyte 10]) vs;;
      write [Zbyte 10];; write_indent ci;; write [Zbyte 93]
    else
      write [Zbyte 91];; separated (dump p en st ci) (write [Zbyte 44]) vs;; write [Zbyte 93].
Proof. by destruct vs, p. Qed.

Lemma dump_object p en st ci ms :
  ms ≠ [] →
  dump p en st ci (j_object ms) =
    if p then
      write (Zbyte 123 :: [Zbyte 10]);; grow_indent (u32 (ci + st));;
      separated (λ kv, write_indent (u32 (ci + st));; dump_key p en kv.1;; dump p en st (u32 (ci + st)) kv.2)
        (write [Zbyte 44; Zbyte 10]) ms;;
      write [Zbyte 10];; write_indent ci;; write [Zbyte 125]
    else
      write [Zbyte 123];; separated (λ kv, dump_key p en kv.1;; dump p en st ci kv.2) (write [Zbyte 44]) ms;;
      write [Zbyte 125].
Proof. by destruct ms, p. Qed.

(** The brackets around what [body] writes at the next level. *)
Lemma emits_pretty open body close ci d ser P Q :
  pretty = true → indent_ok (indent_string ser) → 0 ≤ ci ≤ zlen (indent_string ser) → 0 ≤ step ≤ 512 → 0 ≤ d →
  ci + step * (1 + d) < 2 ^ 32 →
  (∀ ser', indent_ok (indent_string ser') → ci + step ≤ zlen (indent_string ser') → emits body ser' P) →
  (∀ w ts, spaces w → P ts → Q (open :: Zbyte 10 :: ts ++ Zbyte 10 :: w ++ [close])) →
  emits (write [open; Zbyte 10];; grow_indent (u32 (ci + step));; body;; write [Zbyte 10];; write_indent ci;; write [close]) ser Q.
Proof.
  intros Hp Hi Hci Hst Hd Hroom Hbody HQ. rewrite u32_small by (unfold in_u; lia).
  eapply emits_bind; [by apply (emits_write _ _ (eq [open; Zbyte 10]))|]. intros a ser1 <- Hi1 Hl1.
  apply emits_grow; [done|done|lia|]. intros ser2 Hi2 Hl2 Hn2.
  eapply emits_bind; [by apply Hbody|]. intros ts ser3 Hts Hi3 Hl3.
  eapply emits_bind; [by apply (emits_write _ _ (eq [Zbyte 10]))|]. intros a ser4 <- Hi4 Hl4.
  eapply emits_bind; [by apply emits_indent; [..|lia]|]. intros w ser5 Hw Hi5 Hl5.
  apply emits_write; [done|]. by apply (HQ w ts).
Qed.

(** A value inside an array or an object of depth [1 + d]. *)
Lemma room_next ci v d ser :
  pretty = true → 0 ≤ ci → 0 ≤ step ≤ 512 → depth v ≤ d → ci + step * (1 + d) < 2 ^ 32 → ci + step ≤ zlen (indent_string ser) →
  room (u32 (ci + step)) v ser.
Proof.
  intros Hp Hci Hst Hd H Hl _. pose proof (depth_nonneg v). rewrite u32_small by (unfold in_u; nia). split_and!; nia.
Qed.

Lemma nl_spaces : spaces [Zbyte 10].
Proof. by repeat constructor. Qed.

Lemma writes_array vs : Forall writes vs → writes (j_array vs).
Proof.
  intros Hall ci ser Hd Hi Hr. inversion Hd as [| | | | | |? Hds|]; subst.
  destruct (decide (vs = [])) as [->|Hne]; [apply emits_write; [done|]; by apply (g_array_empty []); constructor|].
  rewrite dump_array by done. cbn [reread]. apply emits_if; intros Hp.
  - destruct (Hr Hp) as (Hci & Hst & Hroom). cbn [depth] in Hroom.
    set (d := foldr Z.max 0 (map depth vs)) in *.
    apply (emits_pretty _ _ _ _ d _ (λ ts, elements_text (Zbyte 10 :: ts) (map reread vs))); try done.
    { apply max_nonneg. }
    2: { intros w ts Hw Hts. specialize (Hts (Zbyte 10 :: w) ltac:(by constructor)). apply (g_array _ _) in Hts.
         by rewrite <- app_assoc in Hts. }
    intros ser1 Hi1 Hl1.
    apply (emits_separated element_text elements_text reread _ [Zbyte 10]); [apply elements_text_last|apply elements_text_more|done|done|].
    apply Forall_forall. intros v Hv ser2 Hi2 Hl2. rewrite Forall_forall in Hall. rewrite Forall_forall in Hds.
    assert (Hdv : depth v ≤ d) by (by apply max_le, list_elem_of_fmap_2).
    assert (Hu : u32 (ci + step) = ci + step) by (pose proof (depth_nonneg v); apply u32_small; unfold in_u; nia).
    eapply emits_bind; [apply emits_indent; [done|done|rewrite Hu; lia]|]. intros w ser3 Hw Hi3 Hl3.
    eapply emits_impl; [apply Hall; [done|by apply Hds|done|]|].
    { apply (room_next _ _ d); done || lia. }
    intros t Ht. exists (Zbyte 10 :: w), t. split_and!; [by constructor|done|done].
  - eapply emits_bind; [by apply (emits_write _ _ (eq [Zbyte 91]))|]. intros a ser1 <- Hi1 _.
    eapply emits_bind; [|intros ts ser2 Hts Hi2 _; apply emits_write; [done|]].
    + apply (emits_separated element_text elements_text reread _ []); [apply elements_text_last|apply elements_text_more|done|done|].
      apply Forall_forall. intros v Hv ser2 Hi2 _. rewrite Forall_forall in Hall. rewrite Forall_forall in Hds.
      eapply emits_impl; [apply Hall; [done|by apply Hds|done|]|].
      { intros Hp'. congruence. }
      intros t Ht. exists [], t. split_and!; [constructor|done|done].
    + specialize (Hts [] ltac:(constructor)). rewrite app_nil_r in Hts. by apply (g_array _ _) in Hts.
Qed.

Lemma emits_key k ser :
  valid k → indent_ok (indent_string ser) →
  emits (dump_key pretty ens k) ser (λ out, ∃ q sp, quoted k q ∧ spaces sp ∧ out = q ++ punct 58 ++ sp).
Proof.
  intros Hk Hi. eapply emits_impl; [by apply emits_quoted|]. intros out (q & Hq & ->).
  exists q, (if pretty then [Zbyte 32] else []). split_and!; [done|by destruct pretty; repeat constructor|]. by destruct pretty.
Qed.

Lemma emits_member k v ci ser w :
  writes v → valid k → dumpable v → spaces w → indent_ok (indent_string ser) →
  (∀ ser', zlen (indent_string ser) ≤ zlen (indent_string ser') → room ci v ser') →
  emits (dump_key pretty ens k;; dump pretty ens step ci v) ser (λ out, member_text (w ++ out) (k, reread v)).
Proof.
  intros Hv Hk Hd Hw Hi Hr. eapply emits_bind; [by apply emits_key|]. intros a ser1 (q & sp & Hq & Hsp & ->) Hi1 Hl1.
  eapply emits_impl; [apply Hv; [done|done|by apply Hr]|]. intros t Ht. rewrite <- !app_assoc. by apply member_ok.
Qed.

Lemma writes_object ms : Forall (λ kv, writes kv.2) ms → writes (j_object ms).
Proof.
  intros Hall ci ser Hd Hi Hr. inversion Hd as [| | | | | | |? Hord Hds]; subst.
  destruct (decide (ms = [])) as [->|Hne]; [apply emits_write; [done|]; by apply (g_object_empty []); constructor|].
  rewrite dump_object by done. cbn [reread].
  pose proof (add_members_ordered [] _ (ordered_reread ms Hord)) as Ek. cbn [app] in Ek. rewrite Forall_forall in Hall. rewrite Forall_forall in Hds.
  apply emits_if; intros Hp.
  - destruct (Hr Hp) as (Hci & Hst & Hroom). cbn [depth] in Hroom.
    set (d := foldr Z.max 0 (map (λ kv : list byte * json, depth kv.2) ms)) in *.
    apply (emits_pretty _ _ _ _ d _ (λ ts, members_text (Zbyte 10 :: ts) (map (λ kv, (kv.1, reread kv.2)) ms))); try done.
    { apply max_nonneg. }
    2: { intros w ts Hw Hts. specialize (Hts (Zbyte 10 :: w) ltac:(by constructor)). apply (g_object _ _) in Hts. rewrite Ek in Hts.
         by rewrite <- app_assoc in Hts. }
    intros ser1 Hi1 Hl1.
    apply (emits_separated member_text members_text (λ kv, (kv.1, reread kv.2)) _ [Zbyte 10]);
      [apply members_text_last|apply members_text_more|done|done|].
    apply Forall_forall. intros kv Hv ser2 Hi2 Hl2. destruct (Hds kv Hv) as [Hk Hdv].
    assert (Hdepth : depth kv.2 ≤ d) by (by apply max_le, (list_elem_of_fmap_2 (λ kv : list byte * json, depth kv.2))).
    assert (Hu : u32 (ci + step) = ci + step) by (pose proof (depth_nonneg kv.2); apply u32_small; unfold in_u; nia).
    eapply emits_bind; [apply emits_indent; [done|done|rewrite Hu; lia]|]. intros w ser3 Hw Hi3 Hl3.
    eapply emits_impl; [apply (emits_member _ _ _ _ (Zbyte 10 :: w)); [by apply Hall|done|done|by constructor|done|]|done].
    intros ser4 Hl4. apply (room_next _ _ d); done || lia.
  - eapply emits_bind; [by apply (emits_write _ _ (eq [Zbyte 123]))|]. intros a ser1 <- Hi1 _.
    eapply emits_bind; [|intros ts ser2 Hts Hi2 _; apply emits_write; [done|]].
    + apply (emits_separated member_text members_text (λ kv, (kv.1, reread kv.2)) _ []);
        [apply members_text_last|apply members_text_more|done|done|].
      apply Forall_forall. intros kv Hv ser2 Hi2 _. destruct (Hds kv Hv) as [Hk Hdv].
      apply (emits_member _ _ _ _ []); [by apply Hall|done|done|constructor|done|]. intros ser3 _ Hp'. congruence.
    + specialize (Hts [] ltac:(constructor)). rewrite app_nil_r in Hts. apply (g_object _ _) in Hts. by rewrite Ek in Hts.
Qed.

Lemma dump_writes v : writes v.
Proof.
  induction v using json_nested_ind; [|by apply writes_object|by apply writes_array|..];
    intros ci ser Hd Hi Hr; inversion Hd; subst; cbn [dump reread].
  - apply emits_write; [done|]. apply g_null.
  - eapply emits_impl; [by apply (emits_quoted _ [])|]. intros out (q & (src & cps & Hsrc & -> & ->) & ->).
    rewrite app_nil_r. by apply g_string.
  - apply emits_write; [done|]. destruct b; constructor.
  - apply writes_number; [done|lia|lia|done].
  - apply writes_number; [done|lia|lia|]. by rewrite (proj2 (Z.leb_le _ _)) by lia.
  - unfold dump_float. destruct (isfinite f) eqn:Ef; [|apply emits_write; [done|apply g_null]].
    destruct (float_prints f) as (n & Hn & E & En); [done|]. rewrite E. apply emits_write; [done|].
    rewrite <- En. apply g_number; [done|]. by rewrite En.
Qed.

End Dump.

(** ** Reading back *)

Lemma not_bom c rest : byteZ c ≠ 0xEF → skip_bom (c :: rest) = c :: rest.
Proof.
  intros H. unfold skip_bom. destruct rest as [|b [|d rest]]; try done. by rewrite (proj2 (Z.eqb_neq _ _) H).
Qed.

Lemma gvalue_not_bom t v : gvalue t v → skip_bom t = t.
Proof.
  destruct 1 as [| | | |n [[Hd Hip] _] _| | | |]; try by apply not_bom.
  unfold number_text, sign_text. destruct (n_neg n); [by apply not_bom|].
  destruct (n_int n) as [|d ds]; [by destruct Hip as [|(? & ? & ? & _)]|]. cbn [app]. apply not_bom.
  inversion Hd as [|? ? Hdig]; subst. unfold isdigit in Hdig. lia.
Qed.

(** C9: writing a value and parsing the text gives the value back, compact or
    pretty-printed, in ASCII or not: [dump] neither throws nor leaves its
    buffers, and [parse] returns the value, its integers that are not negative
    as unsigned numbers and its infinities and NaN as null.  The indentation is at
    most 512 of a white-space character and the deepest one fits 32 bits. *)
Theorem dump_parse indent indent_char ensure_ascii v :
  dumpable v →
  (0 ≤ indent → is_space (byteZ indent_char) = true ∧ indent ≤ 512 ∧ indent * depth v < 2 ^ 32) →
  ∃ out p, json_dump indent indent_char ensure_ascii v = Ok (inr out) ∧ parse true out = Some (inr (reread v, p)).
Proof.
  intros Hd Hind.
  assert (H : ∃ out ind, (if 0 <=? indent then dump true ensure_ascii (u32 indent) 0 v (serializer_make indent_char)
      else dump false ensure_ascii 0 0 v (serializer_make indent_char)) = Ok (inr (tt, mkSerializer out ind)) ∧
      gvalue out (reread v)).
  { destruct (Z.leb_spec 0 indent) as [Hi|Hi].
    - destruct (Hind Hi) as (Hsp & Hle & Hroom). rewrite u32_small by (unfold in_u; lia).
      destruct (dump_writes true ensure_ascii indent v 0 (serializer_make indent_char)) as (out & ind & E & Hg & _); [done| | |].
      + intros _. split; [done|]. by apply Forall_replicate.
      + intros _. cbn. split_and!; lia || done.
      + by exists out, ind.
    - destruct (dump_writes false ensure_ascii 0 v 0 (serializer_make indent_char)) as (out & ind & E & Hg & _);
        [done|done|done|]. by exists out, ind. }
  destruct H as (out & ind & E & Hg). exists out.
  destruct (proj2 (parse_value out (reread v))) as [p Hp]; [|exists p; split; [|done]].
  - rewrite (gvalue_not_bom _ _ Hg), <- (app_nil_r out), cut_nul_app; [|by eapply (proj1 (grammar_no_nul false))|by left].
    exists [], out, []. rewrite app_nil_r. split_and!; done || constructor.
  - unfold json_dump. revert E. case_match; intros ->; done.
Qed.

(** A stream writes what [dump] returns for its width, the compact form for none. *)
Lemma json_put_dump width fill v : width < 2 ^ 31 →
  json_put width fill v =
    match json_dump (if 0 <? width then width else -1) fill false v with
    | Ok (inr out) => Ok (inr (out, 0))
    | Ok (inl e) => Ok (inl e)
    | Fault f => Fault f
    end.
Proof.
  intros Hw. unfold json_put, json_dump. destruct (Z.ltb_spec 0 width); [rewrite (proj2 (Z.leb_le 0 width)) by lia|change (u32 0) with 0; change (0 <=? -1) with false];
    cbn iota; by destruct (dump _ _ _ _ _ _) as [[e|[[] s]]|f].
Qed.

(** An object with an array, an escape, a character outside ASCII and numbers of every kind. *)
Definition sample_value : json :=
  j_object [(text "k", j_array [j_number_integer (-7); j_number_integer 7; j_number_unsigned (2 ^ 64 - 1); j_null]);
            (text "l", j_string (utf8s [34; 0x20AC; 0x1F600]));
            (text "m", j_array [j_number_float (S754_infinity true); j_object []; j_boolean true; j_number_float (S754_finite true 7205759403792794 (-56))])].

Lemma sample_dumpable : dumpable sample_value.
Proof.
  apply dumpable_object; [by repeat constructor|].
  assert (Hv : ∀ cps, Forall scalar cps → valid (utf8s cps)) by (intros cps H; by exists cps).
  assert (Hk : ∀ c : Z, 0 ≤ c < 0x80 → valid (utf8s [c])) by (intros c Hc; apply Hv; repeat constructor; unfold scalar; lia).
  repeat (apply Forall_cons_2; [split; [first [by apply (Hk 107)|by apply (Hk 108)|by apply (Hk 109)]|]|]); [| | |constructor]; cbn [snd].
  - apply dumpable_array. repeat (apply Forall_cons_2); try constructor; lia.
  - apply dumpable_string, Hv. repeat constructor; unfold scalar; lia.
  - apply dumpable_array. repeat (apply Forall_cons_2); [apply dumpable_float|apply dumpable_object; constructor|constructor|apply dumpable_float|constructor]; by vm_compute.
Qed.

Lemma dump_parse_witness :
  is_space (byteZ (Zbyte 32)) = true ∧
  ∃ out p, json_dump 4 (Zbyte 32) true sample_value = Ok (inr out) ∧ parse true out = Some (inr (reread sample_value, p)).
Proof.
  split; [by vm_compute|]. apply (dump_parse 4 (Zbyte 32) true sample_value); [apply sample_dumpable|].
  intros _. split_and!; by vm_compute.
Defined.

(** An indentation of more than 1025 characters leaves the indentation
    string: [dump] doubles its 512 characters at most once per level, so that
    pretty-printing any array or object that is not empty reads past the string. *)
Theorem dump_indent_overrun indent indent_char ensure_ascii v :
  1025 < indent < 2 ^ 31 → (∃ x vs, v = j_array (x :: vs)) ∨ (∃ kv ms, v = j_object (kv :: ms)) →
  json_dump indent indent_char ensure_ascii v = Fault OutOfBounds.
Proof.
  intros Hi Hv. unfold json_dump. rewrite (proj2 (Z.leb_le _ _)), u32_small by (unfold in_u; lia).
  assert (Hgrow : ∀ k ser, zlen (indent_string ser) = 512 →
    (∀ ser', zlen (indent_string ser') = 1024 → k ser' = Fault OutOfBounds) → (grow_indent indent;; k : D unit) ser = Fault OutOfBounds).
  { intros k ser Hl Hk. unfold mbind, D_bind, grow_indent. apply Hk. rewrite Hl, (proj2 (Z.ltb_lt _ _)) by lia. cbn [indent_string].
    rewrite zlen_app, zlen_replicate, Hl by lia. lia. }
  assert (Hstop : ∀ (B : Type) (k : B → D unit) sep x l rest ser, zlen (indent_string ser) = 1024 →
    (separated (λ y, write_indent indent;; k y) sep (x :: l);; rest : D unit) ser = Fault OutOfBounds).
  { intros B k sep x l rest ser Hl.
    assert (E : write_indent indent ser = Fault OutOfBounds) by (unfold write_indent; by rewrite (proj2 (Z.leb_gt _ _)) by lia).
    destruct l; cbn [separated]; unfold mbind, D_bind; by rewrite E. }
  destruct Hv as [(x & vs & ->)|(kv & ms & ->)].
  - rewrite dump_array, Z.add_0_l, u32_small by (done || unfold in_u; lia).
    rewrite (D_bind_ok (write [Zbyte 91; Zbyte 10]) _ _ _ _ eq_refl). rewrite Hgrow; [done|by vm_compute|].
    intros ser' Hl. by apply Hstop.
  - rewrite dump_object, Z.add_0_l, u32_small by (done || unfold in_u; lia).
    rewrite (D_bind_ok (write [Zbyte 123; Zbyte 10]) _ _ _ _ eq_refl). rewrite Hgrow; [done|by vm_compute|].
    intros ser' Hl. by apply Hstop.
Qed.

Lemma dump_indent_overrun_witness :
  1025 < 1026 ∧ json_dump 1026 (Zbyte 32) false (j_array [j_null]) = Fault OutOfBounds.
Proof. split; [lia|]. apply dump_indent_overrun; [lia|]. left. by exists j_null, []. Defined.

(** What [resize] appends is not the indentation character. *)
Example indent_padding :
  json_dump 600 (Zbyte 9) false (j_array [j_null]) =
    Ok (inr (text "[" ++ Zbyte 10 :: zreplicate 512 (Zbyte 9) ++ zreplicate 88 (Zbyte 32) ++ text "null" ++ Zbyte 10 :: text "]")).
Proof. by vm_compute. Qed.
