(* ===== verification/JsonTyped.v ===== *)
(** * The values that are read

    Every value the parser returns is one its type allows: strings in UTF-8, the
    members of an object in the order of their keys, each key once, integers that
    fit 64 bits, finite numbers.  With the round trip of the serializer: what has
    been read can be written and read again. *)

From Stdlib Require Import ZArith Lia Strings.Byte Strings.String SpecFloat.
From stdpp Require Import base list numbers sorting.
From S2P Require Import Prelude.
From S2P Require Import Field.
From S2P Require Import Utf8.
From S2P Require Import JsonLexer.
From S2P Require Import JsonStrings.
From S2P Require Import JsonNumbers.
From S2P Require Import JsonParser.
From S2P Require Import JsonGrammar.
From S2P Require Import JsonDump.
From S2P Require Import JsonEscape.
From S2P Require Import JsonRoundtrip.

#[local] Open Scope Z_scope.

Inductive typed : json → Prop :=
  | typed_null : typed j_null
  | typed_boolean b : typed (j_boolean b)
  | typed_string s : valid s → typed (j_string s)
  | typed_integer z : - 2 ^ 63 ≤ z ≤ 0 → typed (j_number_integer z)
  | typed_unsigned z : 0 ≤ z < 2 ^ 64 → typed (j_number_unsigned z)
  | typed_float f : isfinite f = true → typed (j_number_float f)
  | typed_array vs : Forall typed vs → typed (j_array vs)
  | typed_object ms : ordered ms → Forall (λ kv, valid kv.1 ∧ typed kv.2) ms → typed (j_object ms).

(** ** Objects *)

Lemma key_ltb_trans a b c : key_ltb a b = true → key_ltb b c = true → key_ltb a c = true.
Proof.
  revert b c. induction a as [|x a IH]; intros [|y b] [|z c]; cbn; try done.
  destruct (Z.eqb_spec (byteZ x) (byteZ y)) as [Exy|], (Z.eqb_spec (byteZ y) (byteZ z)) as [Eyz|]; intros H1 H2.
  - rewrite (proj2 (Z.eqb_eq _ _)) by lia. by eapply IH.
  - rewrite (proj2 (Z.eqb_neq _ _)) by lia. lia.
  - rewrite (proj2 (Z.eqb_neq _ _)) by lia. lia.
  - rewrite (proj2 (Z.eqb_neq _ _)) by lia. lia.
Qed.

Lemma key_ltb_total a b : key_ltb a b = false → key_ltb b a = false → a = b.
Proof.
  revert b. induction a as [|x a IH]; intros [|y b]; cbn; try done.
  destruct (Z.eqb_spec (byteZ x) (byteZ y)) as [E|].
  - rewrite (proj2 (Z.eqb_eq _ _)) by done. intros H1 H2. f_equal; [by apply byteZ_inj|by apply IH].
  - rewrite (proj2 (Z.eqb_neq (byteZ y) _)) by done. lia.
Qed.

Lemma emplace_members k v ms kv : kv ∈ emplace k v ms → kv = (k, v) ∨ kv ∈ ms.
Proof.
  induction ms as [|[k' v'] ms IH]; cbn.
  - intros H. apply list_elem_of_singleton in H. by left.
  - repeat case_match; rewrite ?elem_of_cons; naive_solver.
Qed.

Lemma emplace_ordered k v ms : ordered ms → ordered (emplace k v ms).
Proof.
  unfold ordered. induction 1 as [|[k' v'] ms Hs IH H]; cbn; [by repeat constructor|].
  destruct (key_ltb k k') eqn:E1; [|destruct (key_ltb k' k) eqn:E2]; constructor; try done.
  - by constructor.
  - constructor; [done|]. eapply Forall_impl; [exact H|]. intros kv Hkv. by eapply key_ltb_trans.
  - apply Forall_forall. intros kv Hkv. apply emplace_members in Hkv as [->|Hkv]; [done|]. by rewrite Forall_forall in H; apply H.
Qed.

Definition member_typed (kv : list byte * json) : Prop := valid kv.1 ∧ typed kv.2.

Lemma add_members_typed ms kvs :
  ordered ms → Forall member_typed ms → Forall member_typed kvs →
  ordered (foldl add_member ms kvs) ∧ Forall member_typed (foldl add_member ms kvs).
Proof.
  intros Ho Hm H. revert ms Ho Hm. induction H as [|[k v] kvs Hkv _ IH]; intros ms Ho Hm; [done|].
  cbn [foldl]. apply IH; [by apply emplace_ordered|]. apply Forall_forall. intros kv Hin.
  apply emplace_members in Hin as [->|Hin]; [done|]. by rewrite Forall_forall in Hm; apply Hm.
Qed.

(** ** The values of the grammar *)

Lemma json_char_scalar src cp : json_char src cp → scalar cp.
Proof.
  destruct 1 as [|c cp Hin| |ds1 ds2 hi lo _ _ Hhi Hlo]; [done| |done|unfold scalar; lia].
  unfold short_escapes in Hin. repeat (apply elem_of_cons in Hin as [[= -> ->]|Hin]; [left; lia|]). by apply elem_of_nil in Hin.
Qed.

Lemma json_string_valid src cps : json_string src cps → valid (utf8s cps).
Proof.
  intros H. exists cps. split; [|done]. induction H; constructor; [by eapply json_char_scalar|done].
Qed.

Lemma mantissa_nonneg n : 0 ≤ mantissa n.
Proof. by apply digits_nonneg. Qed.

Lemma number_typed n : is_finite (number_value n) = true → typed (number_value n).
Proof.
  unfold number_value, int_value. pose proof (mantissa_nonneg n).
  destruct (integral n), (n_neg n); cbn [andb negb]; try (by constructor).
  - destruct (Z.leb_spec (- 2 ^ 63) (- mantissa n)); intros; constructor; done || lia.
  - destruct (Z.ltb_spec (mantissa n) (2 ^ 64)); intros; constructor; done || lia.
Qed.

Lemma grammar_typed :
  (∀ t v, gvalue t v → typed v) ∧ (∀ t vs, gelements t vs → Forall typed vs) ∧
  (∀ t kvs, gmembers t kvs → Forall member_typed kvs) ∧ (∀ t kv, gmember t kv → member_typed kv).
Proof.
  apply grammar_ind; intros; try (by constructor).
  - by constructor; eapply json_string_valid.
  - by apply number_typed.
  - constructor; [constructor|done].
  - destruct (add_members_typed [] kvs); [constructor|done..|by constructor].
  - split; [by eapply json_string_valid|done].
Qed.

(** C39: every value that [parse] or [operator>>] returns has the form its type
    requires: strings are UTF-8, objects have each key once and in order, integers
    fit their 64 bits and numbers are finite. *)
Theorem parse_typed strict input v p : parse strict input = Some (inr (v, p)) → typed v.
Proof.
  intros E. apply parse_yields in E as (w & t & p1 & _ & Hg & _). by eapply (proj1 grammar_typed).
Qed.

Lemma parse_typed_witness :
  ∃ p, parse true (text "[-7]") = Some (inr (j_array [j_number_integer (-7)], p)) ∧ typed (j_array [j_number_integer (-7)]).
Proof.
  eexists. split; [by vm_compute|]. eapply (parse_typed true (text "[-7]")). by vm_compute.
Defined.

(** ** The exceptions of the parser *)

Definition throws_only {A} (m : P A) : Prop := ∀ p e, m p = Some (inl e) → e_id e = 101 ∨ e_id e = 406.

Lemma throws_bind {A B} (m : P A) (k : A → P B) : throws_only m → (∀ a, throws_only (k a)) → throws_only (m ≫= k).
Proof.
  intros Hm Hk p e. unfold mbind, P_bind. destruct (m p) as [[e'|[a p']]|] eqn:E; [|apply Hk|done].
  intros [= <-]. by eapply Hm.
Qed.

Lemma throws_expect t : throws_only (expect t).
Proof. intros p e. unfold expect. case_decide; [done|]. intros [= <-]. by left. Qed.

Lemma throws_none {A} (m : P A) : (∀ p e, m p ≠ Some (inl e)) → throws_only m.
Proof. intros H p e E. by destruct (H p e). Qed.

Lemma throws_get_token : throws_only get_token.
Proof. apply throws_none. intros p e. unfold get_token. by destruct (scan _). Qed.

Create HintDb throws.
#[export] Hint Resolve throws_bind throws_expect throws_get_token : throws.
#[export] Hint Extern 1 (throws_only (mret _)) => (by apply throws_none) : throws.
#[export] Hint Extern 1 (throws_only token) => (by apply throws_none) : throws.
#[export] Hint Extern 1 (throws_only take_string) => (by apply throws_none) : throws.
#[export] Hint Extern 2 (throws_only (match _ with _ => _ end)) => case_match : throws.

Lemma internal_throws fuel :
  throws_only (parse_internal fuel) ∧ (∀ m, throws_only (parse_members fuel m)) ∧ (∀ a, throws_only (parse_elements fuel a)).
Proof.
  induction fuel as [|fuel (IHv & IHm & IHe)]; [by split_and!; intros; apply throws_none|].
  split_and!; intros; cbn [parse_internal parse_members parse_elements]; cbv zeta.
  - apply throws_bind; [auto with throws|]. intros t.
    destruct t; try solve [auto 10 with throws]; try by apply throws_none.
    intros p e. destruct (isfinite _); [done|]. intros [= <-]. by right.
  - auto 20 with throws.
  - auto 20 with throws.
Qed.

Lemma parse_throws strict input e : parse strict input = Some (inl e) → e_id e = 101 ∨ e_id e = 406.
Proof.
  unfold parse. assert (H : throws_only (get_token;; result ← parse_internal (fuel_for input);
    if strict then get_token;; expect end_of_input;; mret result else mret result)); [|apply H].
  pose proof (internal_throws (fuel_for input)) as (H & _). auto 20 with throws.
Qed.
