(* ===== verification/Config.v ===== *)
(** * The configuration (main.cpp: from_file, main; application.cpp: set_context; json/nlohmann_json.hpp: at, from_json)

    [main] reads cfg/chameleon.cfg as JSON; the logger and [set_context] take
    their settings out of it with [at] and the conversions of [from_json].  A
    setting that is missing or of another kind is an exception, which nothing
    catches.  Results: which contents give which settings, numbers wrapped to
    their width; the settings of the file as it is; and what each mistake in the file ends in. *)

From Stdlib Require Import ZArith Lia Strings.Byte Strings.String SpecFloat.
From stdpp Require Import base list numbers sorting.
From S2P Require Import Prelude.
From S2P Require Import Utf8.
From S2P Require Import JsonLexer.
From S2P Require Import JsonStrings.
From S2P Require Import JsonNumbers.
From S2P Require Import JsonParser.
From S2P Require Import JsonGrammar.
From S2P Require Import JsonRoundtrip.
From S2P Require Import JsonTyped.

#[local] Open Scope Z_scope.

(** ** Element access and conversions *)

Definition type_name (j : json) : string :=
  match j with
  | j_null => "null"
  | j_object _ => "object"
  | j_array _ => "array"
  | j_string _ => "string"
  | j_boolean _ => "boolean"
  | j_discarded => "discarded"
  | _ => "number"
  end.

(** [std::map::find]. *)
Fixpoint find (key : list byte) (m : list (list byte * json)) : option json :=
  match m with
  | [] => None
  | (k, v) :: m' => if negb (key_ltb k key) && negb (key_ltb key k) then Some v else find key m'
  end.

(** A conversion returns, throws or leaves the defined behaviour. *)
Definition conversion (A : Type) : Type := result (exception + A).
Definition thrown {A} (e : exception) : conversion A := Ok (inl e).
Definition returned {A} (a : A) : conversion A := Ok (inr a).

#[global] Instance conversion_bind : MBind conversion := λ A B k m,
  match m with Ok (inr a) => k a | Ok (inl e) => Ok (inl e) | Fault f => Fault f end.

Definition at_key (key : list byte) (j : json) : conversion json :=
  match j with
  | j_object m =>
      match find key m with
      | Some v => returned v
      | None => thrown (out_of_range_create 403 (text "key '" ++ key ++ text "' not found"))
      end
  | _ => thrown (type_error_create 304 (text "cannot use at() with " ++ text (type_name j)))
  end.

Definition must_be (kind : string) (j : json) : exception :=
  type_error_create 302 (text "type must be " ++ text kind ++ text ", but is " ++ text (type_name j)).

Definition from_json_string (j : json) : conversion (list byte) :=
  match j with j_string s => returned s | _ => thrown (must_be "string" j) end.

(** [static_cast] to an integer type: integers wrap; a floating-point number is
    truncated, and has to be in the range of the type then. *)
Definition truncate (f : spec_float) : option Z :=
  match f with
  | S754_zero _ => Some 0
  | S754_finite s m e =>
      let a := if 0 <=? e then Z.pos m * 2 ^ e else Z.pos m / 2 ^ (- e) in Some (if s then - a else a)
  | _ => None
  end.

Definition cast_float (lo hi : Z) (f : spec_float) : conversion Z :=
  match truncate f with
  | Some z => if (lo <=? z) && (z <? hi) then returned z else Fault BadConversion
  | None => Fault BadConversion
  end.

(** To [number_unsigned_t], which is [std::size_t]. *)
Definition get_arithmetic_value (j : json) : conversion Z :=
  match j with
  | j_number_unsigned z => returned (u64 z)
  | j_number_integer z => returned (u64 z)
  | j_number_float f => cast_float 0 (2 ^ 64) f
  | _ => thrown (must_be "number" j)
  end.

(** To another integer type of values from [lo] below [hi], with its wrap-around. *)
Definition from_json_arithmetic (wrap : Z → Z) (lo hi : Z) (j : json) : conversion Z :=
  match j with
  | j_number_unsigned z => returned (wrap z)
  | j_number_integer z => returned (wrap z)
  | j_number_float f => cast_float lo hi f
  | j_boolean b => returned (if b then 1 else 0)
  | _ => thrown (must_be "number" j)
  end.
Definition from_json_int : json → conversion Z := from_json_arithmetic i32 (- 2 ^ 31) (2 ^ 31).
Definition from_json_uint32 : json → conversion Z := from_json_arithmetic u32 0 (2 ^ 32).

(** [std::transform] over the elements. *)
Fixpoint convert_all {A} (convert : json → conversion A) (l : list json) : conversion (list A) :=
  match l with
  | [] => returned []
  | v :: l' => a ← convert v; rest ← convert_all convert l'; returned (a :: rest)
  end.

Definition from_json_array {A} (convert : json → conversion A) (j : json) : conversion (list A) :=
  match j with j_array l => convert_all convert l | _ => thrown (must_be "array" j) end.

(** ** The program's settings *)

(** [i >> j] on the contents of the file; a file that does not open reads as empty. *)
Definition from_file (file : option (list byte)) : option (exception + json) :=
  match parse false (default [] file) with
  | Some (inr (j, _)) => Some (inr j)
  | Some (inl e) => Some (inl e)
  | None => None
  end.

Record settings := mkSettings {
  log_path : list byte;
  log_name : list byte;
  log_roll_size : Z;
  ports : list Z;
  worker_num : Z;
  server_conn_worker_num : Z;
  client_conn_worker_num : Z;
  per_conn_num : Z
}.

Definition setting {A} (cfg : json) (key : string) (convert : json → conversion A) : conversion A :=
  j ← at_key (text key) cfg; convert j.

(** What [main] gives to the logger and [set_context] to the server and the
    client. *)
Definition read_settings (cfg : json) : conversion settings :=
  log_path ← setting cfg "log_path" from_json_string;
  log_name ← setting cfg "log_name" from_json_string;
  log_roll_size ← setting cfg "log_roll_size" from_json_uint32;
  ports ← setting cfg "ports" (from_json_array from_json_int);
  worker_num ← setting cfg "worker_num" get_arithmetic_value;
  server_conn_worker_num ← setting cfg "server_conn_worker_num" get_arithmetic_value;
  client_conn_worker_num ← setting cfg "client_conn_worker_num" get_arithmetic_value;
  per_conn_num ← setting cfg "per_conn_num" get_arithmetic_value;
  returned (mkSettings log_path log_name log_roll_size ports worker_num server_conn_worker_num client_conn_worker_num
    per_conn_num).

(** ** Lookup *)

Lemma same_key k key : negb (key_ltb k key) && negb (key_ltb key k) = bool_decide (key = k).
Proof.
  destruct (bool_decide_reflect (key = k)) as [->|Hne].
  - assert (E : key_ltb k k = false) by (destruct (key_ltb k k) eqn:E; [by rewrite (key_ltb_asym _ _ E) in E|done]). by rewrite E.
  - destruct (key_ltb k key) eqn:E1, (key_ltb key k) eqn:E2; try done. destruct Hne. by apply key_ltb_total.
Qed.

Lemma find_cons key k v m : find key ((k, v) :: m) = if decide (key = k) then Some v else find key m.
Proof. cbn [find]. rewrite same_key. by case_bool_decide; case_decide. Qed.

Lemma find_above key m : Forall (λ kv, key_ltb key kv.1 = true) m → find key m = None.
Proof.
  induction 1 as [|[k v] m H _ IH]; [done|]. rewrite find_cons, IH. case_decide as Ek; [|done]. subst.
  cbn in H. by rewrite (key_ltb_asym _ _ H) in H.
Qed.

Lemma find_emplace key k v m :
  ordered m →
  find key (emplace k v m) =
    if decide (key = k) then (match find k m with Some v' => Some v' | None => Some v end) else find key m.
Proof.
  unfold ordered. induction 1 as [|[k' v'] m Hs IH H]; [cbn [emplace]; by rewrite find_cons|].
  cbn [emplace]. destruct (key_ltb k k') eqn:E1; [|destruct (key_ltb k' k) eqn:E2].
  - rewrite (find_cons key k). case_decide as Ek; [|done]. rewrite (find_above k ((k', v') :: m)); [done|].
    constructor; [done|]. eapply Forall_impl; [exact H|]. intros kv Hkv. by eapply key_ltb_trans.
  - rewrite !find_cons, IH. destruct (decide (k = k')) as [->|]; [by rewrite (key_ltb_asym _ _ E2) in E2|].
    repeat case_decide; congruence.
  - rewrite (key_ltb_total k k') by done. rewrite !find_cons. repeat case_decide; congruence.
Qed.

(** The first member with a key. *)
Fixpoint first_member (key : list byte) (kvs : list (list byte * json)) : option json :=
  match kvs with
  | [] => None
  | (k, v) :: kvs' => if decide (key = k) then Some v else first_member key kvs'
  end.

Lemma find_members key ms kvs :
  ordered ms →
  find key (foldl add_member ms kvs) = match find key ms with Some v => Some v | None => first_member key kvs end.
Proof.
  revert ms. induction kvs as [|[k v] kvs IH]; intros ms Ho; [cbn; by case_match|].
  cbn [foldl]. change (add_member ms (k, v)) with (emplace k v ms).
  rewrite IH by by apply emplace_ordered. rewrite find_emplace by done. cbn [first_member].
  destruct (decide (key = k)) as [->|]; [by destruct (find k ms)|done].
Qed.

(** ** Which contents give which settings *)

Definition integral_value (j : json) (z : Z) : Prop := j = j_number_unsigned z ∨ j = j_number_integer z.

(** The first members with the keys of the settings are strings and integers,
    whose values wrap to the widths of the settings. *)
Record gives (kvs : list (list byte * json)) (s : settings) : Prop := {
  g_log_path : first_member (text "log_path") kvs = Some (j_string (log_path s));
  g_log_name : first_member (text "log_name") kvs = Some (j_string (log_name s));
  g_log_roll_size : ∃ j z, first_member (text "log_roll_size") kvs = Some j ∧ integral_value j z ∧ log_roll_size s = z mod 2 ^ 32;
  g_ports : ∃ js, first_member (text "ports") kvs = Some (j_array js) ∧
    Forall2 (λ j port, ∃ z, integral_value j z ∧ port = (z + 2 ^ 31) mod 2 ^ 32 - 2 ^ 31) js (ports s);
  g_worker_num : ∃ j z, first_member (text "worker_num") kvs = Some j ∧ integral_value j z ∧ worker_num s = z mod 2 ^ 64;
  g_server : ∃ j z, first_member (text "server_conn_worker_num") kvs = Some j ∧ integral_value j z ∧
    server_conn_worker_num s = z mod 2 ^ 64;
  g_client : ∃ j z, first_member (text "client_conn_worker_num") kvs = Some j ∧ integral_value j z ∧
    client_conn_worker_num s = z mod 2 ^ 64;
  g_per_conn : ∃ j z, first_member (text "per_conn_num") kvs = Some j ∧ integral_value j z ∧ per_conn_num s = z mod 2 ^ 64
}.

Lemma setting_ok {A} m key (convert : json → conversion A) j a :
  find (text key) m = Some j → convert j = returned a → setting (j_object m) key convert = returned a.
Proof. intros Hf Hc. unfold setting, at_key. by rewrite Hf. Qed.

Lemma size_setting m key j z :
  find (text key) m = Some j → integral_value j z → setting (j_object m) key get_arithmetic_value = returned (z mod 2 ^ 64).
Proof. intros Hf [->| ->]; by eapply setting_ok. Qed.

Lemma convert_ports js ps :
  Forall2 (λ j port, ∃ z, integral_value j z ∧ port = (z + 2 ^ 31) mod 2 ^ 32 - 2 ^ 31) js ps →
  convert_all from_json_int js = returned ps.
Proof.
  induction 1 as [|j p js ps (z & Hj & ->) _ IH]; [done|]. cbn [convert_all]. rewrite IH. by destruct Hj as [->| ->].
Qed.

Lemma gives_read kvs s : gives kvs s → read_settings (j_object (foldl add_member [] kvs)) = returned s.
Proof.
  intros [Hp Hn (jr & zr & Hr & Ir & Er) (js & Hports & Fports) (jw & zw & Hw & Iw & Ew) (jse & zse & Hse & Ise & Ese)
    (jc & zc & Hc & Ic & Ec) (jpc & zpc & Hpc & Ipc & Epc)].
  assert (Hf : ∀ key, find (text key) (foldl add_member [] kvs) = first_member (text key) kvs).
  { intros key. rewrite find_members by constructor. done. }
  rewrite <- Hf in Hp, Hn, Hr, Hports, Hw, Hse, Hc, Hpc. unfold read_settings.
  rewrite (setting_ok _ _ from_json_string _ (log_path s) Hp), (setting_ok _ _ from_json_string _ (log_name s) Hn) by done.
  rewrite (setting_ok _ _ from_json_uint32 _ (zr mod 2 ^ 32) Hr) by by destruct Ir as [->| ->].
  rewrite (setting_ok _ _ (from_json_array from_json_int) _ (ports s) Hports) by by apply convert_ports.
  rewrite (size_setting _ _ _ _ Hw Iw), (size_setting _ _ _ _ Hse Ise), (size_setting _ _ _ _ Hc Ic), (size_setting _ _ _ _ Hpc Ipc).
  rewrite <- Er, <- Ew, <- Ese, <- Ec, <- Epc. by destruct s.
Qed.

(** C11: a configuration file whose text is a JSON object with the settings as
    strings and integers, in any order, with any spacing and any further members,
    is read without an exception, and the logger, the server and the client get
    exactly the values of the file, each the first with its key and wrapped to its
    width: a negative number of workers becomes a huge one, and a port outside
    32 bits another port. *)
Theorem config_read contents w ms kvs rest s :
  spaces w → gmembers ms kvs → skip_bom contents = w ++ (punct 123 ++ ms ++ punct 125) ++ rest → follows rest → gives kvs s →
  ∃ cfg, from_file (Some contents) = Some (inr cfg) ∧ read_settings cfg = returned s.
Proof.
  intros Hw Hms Hc Hrest Hs. exists (j_object (foldl add_member [] kvs)).
  destruct (parse_accepts false false contents w _ rest _ Hw (g_object _ _ Hms) Hc Hrest) as [(p & _ & E)|[? _]]; [|done].
  split; [|by apply gives_read]. unfold from_file. change (default [] (Some contents)) with contents. by rewrite E.
Qed.

(** The lines and the strings of cfg/chameleon.cfg. *)
Definition cfg_line (key : string) (value : list byte) : list byte :=
  text "    " ++ [quote] ++ text key ++ [quote] ++ value ++ [Zbyte 10].
Definition cfg_string (s : string) : list byte := text ": " ++ [quote] ++ text s ++ [quote] ++ text ",".

Definition chameleon_cfg : list byte :=
  text "{" ++ [Zbyte 10] ++
  cfg_line "ports" (text ": [8080,8081,8082,8083],") ++
  cfg_line "db_ip" (cfg_string "172.21.22.239") ++
  cfg_line "user_name" (cfg_string "chameleon") ++
  cfg_line "pwd" (cfg_string "123456") ++
  cfg_line "db_name" (cfg_string "chameleon") ++
  cfg_line "timeout" (text ": 2,") ++
  cfg_line "db_conn_num" (text ": 4,") ++
  cfg_line "log_path" (cfg_string "./log/") ++
  cfg_line "log_name" (cfg_string "chameleon.log") ++
  cfg_line "log_roll_size" (text ": 100,") ++
  cfg_line "worker_num" (text ": 3,") ++
  cfg_line "server_conn_worker_num" (text ": 2,") ++
  cfg_line "client_conn_worker_num" (text ": 2,") ++
  cfg_line "upstream_servers" (text " :[],") ++
  cfg_line "per_conn_num" (text ": 2") ++
  text "}".

Definition chameleon_settings : settings :=
  mkSettings (text "./log/") (text "chameleon.log") 100 [8080; 8081; 8082; 8083] 3 2 2 2.

Lemma gives_number kvs key z m :
  first_member (text key) kvs = Some (j_number_unsigned z) → 0 ≤ z < m →
  ∃ j z', first_member (text key) kvs = Some j ∧ integral_value j z' ∧ z = z' mod m.
Proof. intros H Hz. exists (j_number_unsigned z), z. split_and!; [done|by left|by rewrite Z.mod_small]. Qed.

(** What the parser makes of it, as a text of the grammar. *)
Lemma chameleon_text :
  ∃ w ms kvs rest, spaces w ∧ gmembers ms kvs ∧ skip_bom chameleon_cfg = w ++ (punct 123 ++ ms ++ punct 125) ++ rest ∧
    follows rest ∧ gives kvs chameleon_settings.
Proof.
  destruct (parse false chameleon_cfg) as [[e|[v p]]|] eqn:E; [by vm_compute in E| |by vm_compute in E].
  apply parse_yields in E as E'. destruct E' as (w & t & p1 & Hw & Hg & Hc & Ep). injection Ep as ->.
  vm_compute in E. injection E as <- <-.
  inversion Hg as [| | | |n _ Hn Et Ev| | | |ms kvs Hms Et Ev]; subst.
  { revert Ev. unfold number_value. by repeat case_match. }
  exists w, ms, kvs, []. split_and!; [done|done|by rewrite Hc|done|].
  assert (Hf : ∀ key, first_member key kvs = find key (foldl add_member [] kvs)) by (intros key; by rewrite find_members by constructor).
  rewrite Ev in Hf.
  assert (Hnum : ∀ key z m, find (text key) (foldl add_member [] kvs) = Some (j_number_unsigned z) → 0 ≤ z < m →
    ∃ j z', first_member (text key) kvs = Some j ∧ integral_value j z' ∧ z = z' mod m).
  { intros key z m H. apply gives_number. by rewrite Hf, <- Ev. }
  rewrite Ev in Hnum.
  split; [by rewrite Hf; vm_compute|by rewrite Hf; vm_compute| | |..];
    [by apply Hnum; vm_compute| |by apply Hnum; vm_compute..].
  exists (map j_number_unsigned [8080; 8081; 8082; 8083]). split; [by rewrite Hf; vm_compute|].
  cbn [map ports chameleon_settings].
  repeat (apply Forall2_cons; split; [eexists; split; [by left|by vm_compute]|]). constructor.
Qed.

Lemma config_read_witness :
  ∃ cfg, from_file (Some chameleon_cfg) = Some (inr cfg) ∧ read_settings cfg = returned chameleon_settings.
Proof.
  destruct chameleon_text as (w & ms & kvs & rest & Hw & Hms & Hc & Hr & Hs).
  destruct (config_read chameleon_cfg w ms kvs rest chameleon_settings Hw Hms Hc Hr Hs) as (cfg & H). by exists cfg.
Defined.

(** ** Errors *)

(** What a setting has to be; [k_int] is an integer of values from [lo] below [hi], or a boolean. *)
Inductive kind := k_string | k_size | k_int (lo hi : Z) | k_array (k : kind).

(** The settings in the order in which they are read. *)
Definition schema : list (string * kind) :=
  [("log_path", k_string); ("log_name", k_string); ("log_roll_size", k_int 0 (2 ^ 32)); ("ports", k_array (k_int (- 2 ^ 31) (2 ^ 31)));
   ("worker_num", k_size); ("server_conn_worker_num", k_size); ("client_conn_worker_num", k_size); ("per_conn_num", k_size)]%string.

Definition is_integer (j : json) : Prop := match j with j_number_unsigned _ | j_number_integer _ => True | _ => False end.
Definition is_number (j : json) : Prop := match j with j_number_float _ => True | _ => is_integer j end.

(** A floating-point number has its integral part in the range. *)
Definition in_type (lo hi : Z) (f : spec_float) : Prop := ∃ z, truncate f = Some z ∧ lo ≤ z < hi.

Inductive usable : kind → json → Prop :=
  | u_string s : usable k_string (j_string s)
  | u_size j : is_integer j → usable k_size j
  | u_size_float f : in_type 0 (2 ^ 64) f → usable k_size (j_number_float f)
  | u_int lo hi j : is_integer j → usable (k_int lo hi) j
  | u_int_float lo hi f : in_type lo hi f → usable (k_int lo hi) (j_number_float f)
  | u_int_boolean lo hi b : usable (k_int lo hi) (j_boolean b)
  | u_array k l : Forall (usable k) l → usable (k_array k) (j_array l).

(** Of another kind, or with a first element that cannot be used and is. *)
Inductive wrong : kind → json → Prop :=
  | w_string j : (∀ s, j ≠ j_string s) → wrong k_string j
  | w_size j : ¬ is_number j → wrong k_size j
  | w_int lo hi j : ¬ is_number j → (∀ b, j ≠ j_boolean b) → wrong (k_int lo hi) j
  | w_array k j : (∀ l, j ≠ j_array l) → wrong (k_array k) j
  | w_element k l1 j l2 : Forall (usable k) l1 → wrong k j → wrong (k_array k) (j_array (l1 ++ j :: l2)).

(** A number whose conversion C++ does not define, or an array with such a number. *)
Inductive unusable : kind → json → Prop :=
  | n_size f : ¬ in_type 0 (2 ^ 64) f → unusable k_size (j_number_float f)
  | n_int lo hi f : ¬ in_type lo hi f → unusable (k_int lo hi) (j_number_float f)
  | n_element k l1 j l2 : Forall (usable k) l1 → unusable k j → unusable (k_array k) (j_array (l1 ++ j :: l2)).

(** A conversion does what the kind says. *)
Record converts {A} (convert : json → conversion A) (k : kind) : Prop := {
  c_usable : ∀ j, usable k j → ∃ a, convert j = returned a;
  c_wrong : ∀ j, wrong k j → ∃ e, convert j = thrown e ∧ e_id e = 302;
  c_unusable : ∀ j, unusable k j → convert j = Fault BadConversion
}.

Lemma string_converts : converts from_json_string k_string.
Proof.
  split; inversion 1; subst; [by eexists|]. destruct j; try by eexists. naive_solver.
Qed.

Lemma cast_float_in lo hi f : in_type lo hi f → ∃ z, cast_float lo hi f = returned z.
Proof.
  intros (z & E & Hz). exists z. unfold cast_float. rewrite E. by rewrite (proj2 (Z.leb_le _ _)), (proj2 (Z.ltb_lt _ _)) by lia.
Qed.

Lemma cast_float_out lo hi f : ¬ in_type lo hi f → cast_float lo hi f = Fault BadConversion.
Proof.
  intros H. unfold cast_float. destruct (truncate f) as [z|] eqn:E; [|done]. destruct (_ && _) eqn:Ez; [|done].
  destruct H. exists z. split; [done|]. lia.
Qed.

Lemma size_converts : converts get_arithmetic_value k_size.
Proof.
  split; inversion 1; subst.
  - destruct j; try done; by eexists.
  - by apply cast_float_in.
  - destruct j; cbn in *; try tauto; by eexists.
  - by apply cast_float_out.
Qed.

Lemma int_converts wrap lo hi : converts (from_json_arithmetic wrap lo hi) (k_int lo hi).
Proof.
  split; inversion 1; subst.
  - destruct j; try done; by eexists.
  - by apply cast_float_in.
  - by eexists.
  - destruct j; cbn in *; try tauto; try by eexists. naive_solver.
  - by apply cast_float_out.
Qed.

Lemma convert_all_usable {A} (convert : json → conversion A) k l1 l2 : converts convert k → Forall (usable k) l1 →
  ∃ la, convert_all convert (l1 ++ l2) = (rest ← convert_all convert l2; returned (la ++ rest)).
Proof.
  intros Hc. induction 1 as [|j l1 Hj _ (la & IH)]; cbn [app convert_all].
  - exists []. by destruct (convert_all convert l2) as [[]|].
  - destruct (c_usable _ _ Hc j Hj) as [a ->]. exists (a :: la). rewrite IH. by destruct (convert_all convert l2) as [[]|].
Qed.

Lemma array_converts {A} (convert : json → conversion A) k : converts convert k → converts (from_json_array convert) (k_array k).
Proof.
  intros Hc. split; intros j Hj; inversion Hj; subst.
  - match goal with H : Forall (usable k) ?l |- _ => destruct (convert_all_usable convert k l [] Hc H) as (la & E) end.
    rewrite app_nil_r in E. exists (la ++ []). exact E.
  - destruct j; try by eexists. naive_solver.
  - match goal with H : Forall (usable k) ?l1, Hw : wrong k ?j' |- _ =>
      destruct (convert_all_usable convert k l1 (j' :: l2) Hc H) as (la & E); destruct (c_wrong _ _ Hc j' Hw) as (e & Ee & He) end.
    exists e. split; [|done]. cbn [from_json_array]. rewrite E. cbn [convert_all]. by rewrite Ee.
  - match goal with H : Forall (usable k) ?l1, Hw : unusable k ?j' |- _ =>
      destruct (convert_all_usable convert k l1 (j' :: l2) Hc H) as (la & E); pose proof (c_unusable _ _ Hc j' Hw) as Ef end.
    cbn [from_json_array]. rewrite E. cbn [convert_all]. by rewrite Ef.
Qed.

Definition has (ms : list (list byte * json)) (s : string * kind) : Prop := ∃ j, find (text s.1) ms = Some j ∧ usable s.2 j.

Definition not_found (key : string) : exception := out_of_range_create 403 (text "key '" ++ text key ++ text "' not found").

(** What comes of reading these settings: the first that is not right decides. *)
Record read_by {A} (ms : list (list byte * json)) (ks : list (string * kind)) (m : conversion A) : Prop := {
  b_all : Forall (has ms) ks → ∃ a, m = returned a;
  b_first : ∀ before key k after, ks = before ++ (key, k) :: after → Forall (has ms) before →
    (find (text key) ms = None → m = thrown (not_found key)) ∧
    (∀ j, find (text key) ms = Some j → wrong k j → ∃ e, m = thrown e ∧ e_id e = 302) ∧
    (∀ j, find (text key) ms = Some j → unusable k j → m = Fault BadConversion)
}.

Lemma read_none {A} ms (a : A) : read_by ms [] (returned a).
Proof. split; [by exists a|]. intros before key k after E. by destruct before. Qed.

Lemma read_setting {A B} ms key k ks (convert : json → conversion A) (rest : A → conversion B) :
  converts convert k → (∀ a, read_by ms ks (rest a)) → read_by ms ((key, k) :: ks) (a ← setting (j_object ms) key convert; rest a).
Proof.
  intros Hc Hr.
  assert (Hgood : has ms (key, k) → ∃ a, (a ← setting (j_object ms) key convert; rest a) = rest a).
  { intros (j & Hj & Hu). cbn in Hj, Hu. destruct (c_usable _ _ Hc j Hu) as [a Ha]. exists a. by rewrite (setting_ok _ _ convert j a Hj Ha). }
  split.
  - intros H. apply Forall_cons_1 in H as [H1 H2]. destruct (Hgood H1) as [a ->]. by apply (b_all _ _ _ (Hr a)).
  - intros [|[key' k'] before] key1 k1 after [=] Hb; subst.
    + unfold setting, at_key. split_and!.
      * by intros ->.
      * intros j -> Hj. destruct (c_wrong _ _ Hc j Hj) as (e & Ee & He). exists e. split; [|done]. cbn. by rewrite Ee.
      * intros j -> Hj. cbn. by rewrite (c_unusable _ _ Hc j Hj).
    + apply Forall_cons_1 in Hb as [H1 H2]. destruct (Hgood H1) as [a ->]. by apply (b_first _ _ _ (Hr a) before key1 k1 after).
Qed.

Lemma settings_read ms : read_by ms schema (read_settings (j_object ms)).
Proof.
  unfold read_settings, schema.
  repeat (apply read_setting; [first [apply string_converts | apply size_converts | apply int_converts | apply array_converts, int_converts]|intros ?]).
  apply read_none.
Qed.

(** Nothing else can be in a setting. *)
Lemma kinds_complete k j : usable k j ∨ wrong k j ∨ unusable k j.
Proof.
  assert (Hf : ∀ lo hi f, in_type lo hi f ∨ ¬ in_type lo hi f).
  { intros lo hi f. unfold in_type. destruct (truncate f) as [z|]; [|right; by intros (? & [=] & _)].
    destruct (decide (lo ≤ z ∧ z < hi)) as [H|H]; [left; by exists z|right; by intros (? & [= <-] & ?)]. }
  revert j. induction k as [| |lo hi|k IH]; intros j.
  - destruct j; try (right; left; by constructor). left. constructor.
  - destruct j as [| | | | | | |f|]; try (left; by constructor); try (right; left; constructor; by intros []).
    destruct (Hf 0 (2 ^ 64) f); [left|right; right]; by constructor.
  - destruct j as [| | | | | | |f|]; try (left; by constructor); try (right; left; constructor; [by intros []|done]).
    destruct (Hf lo hi f); [left|right; right]; by constructor.
  - destruct j as [| |l| | | | | |]; try (right; left; by constructor).
    assert (H : Forall (usable k) l ∨ ∃ l1 j l2, l = l1 ++ j :: l2 ∧ Forall (usable k) l1 ∧ (wrong k j ∨ unusable k j)).
    { induction l as [|j l IHl]; [by left|]. destruct (IH j) as [Hj|Hj]; [|right; exists [], j, l; split_and!; [done|constructor|done]].
      destruct IHl as [Hl|(l1 & j' & l2 & -> & Hl1 & Hj')]; [left; by constructor|].
      right. exists (j :: l1), j', l2. split_and!; [done|by constructor|done]. }
    destruct H as [H|(l1 & j & l2 & -> & Hl1 & [Hj|Hj])]; [left|right; left|right; right]; by constructor.
Qed.


(** A port that is a string is another kind, a huge number of workers undefined behaviour. *)
Example wrong_port : wrong (k_array (k_int (- 2 ^ 31) (2 ^ 31))) (j_array [j_number_unsigned 8080; j_string (text "x")]).
Proof. apply (w_element _ [j_number_unsigned 8080]); [by repeat constructor|]. constructor; [by intros []|done]. Qed.

Example huge_worker_num : unusable k_size (j_number_float (S754_finite false 1 64)).
Proof. constructor. intros (z & [= <-] & [_ H]). by vm_compute in H. Qed.
