(* ===== verification/Scheduler.v ===== *)
(** * The scheduler behind [io_context] (asio/detail/impl/scheduler.ipp)

    Threads that run an event loop take operations off one queue under a lock; one
    of them at a time waits in the reactor, which has its own place in the queue,
    and the others sleep on an event.  Every critical section and every access
    outside the lock is a step, and a schedule interleaves the steps of any number
    of threads, nested calls included.  Counters and the word of the event are plain
    integers: they count threads and operations, which are fewer than 2^63.  The
    reactor is the abstract [scheduler_task]: when it returns and with which
    operations is up to the schedule, except that it does not block once it is
    interrupted. *)

From Stdlib Require Import ZArith Lia.
From stdpp Require Import base list numbers.
From S2P Require Import Prelude.

#[local] Open Scope Z_scope.

(** ** State *)

(** An operation; [counted] says that [work_started] has been called for it, as for
    every operation but those by which the reactor queues one of its descriptors. *)
Record operation := mkOperation { id : nat; counted : bool }.

#[global] Instance operation_eq_dec : EqDecision operation.
Proof. solve_decision. Defined.

(** What the queue holds: the place of the reactor, or an operation. *)
Inductive entry := task_operation | Op (o : operation).

(** [state_] is the word of [wakeup_event_]; [interrupt_called] says that [interrupt]
    has been called and the reactor not yet returned.  [task_] is a null pointer or
    not. *)
Record scheduler := mkScheduler {
  one_thread_ : bool;
  task_ : bool;
  task_interrupted_ : bool;
  outstanding_work_ : Z;
  op_queue_ : list entry;
  stopped_ : bool;
  shutdown_ : bool;
  state_ : Z;
  interrupt_called : bool
}.

Implicit Type s : scheduler.

Definition scheduler_make (one_thread : bool) : scheduler :=
  mkScheduler one_thread false true 0 [] false false 0 false.

Definition set_task_ b s :=
  mkScheduler (one_thread_ s) b (task_interrupted_ s) (outstanding_work_ s) (op_queue_ s) (stopped_ s) (shutdown_ s)
    (state_ s) (interrupt_called s).
Definition set_task_interrupted_ b s :=
  mkScheduler (one_thread_ s) (task_ s) b (outstanding_work_ s) (op_queue_ s) (stopped_ s) (shutdown_ s) (state_ s)
    (interrupt_called s).
Definition set_outstanding_work_ w s :=
  mkScheduler (one_thread_ s) (task_ s) (task_interrupted_ s) w (op_queue_ s) (stopped_ s) (shutdown_ s) (state_ s)
    (interrupt_called s).
Definition set_op_queue_ q s :=
  mkScheduler (one_thread_ s) (task_ s) (task_interrupted_ s) (outstanding_work_ s) q (stopped_ s) (shutdown_ s)
    (state_ s) (interrupt_called s).
Definition set_stopped_ b s :=
  mkScheduler (one_thread_ s) (task_ s) (task_interrupted_ s) (outstanding_work_ s) (op_queue_ s) b (shutdown_ s)
    (state_ s) (interrupt_called s).
Definition set_shutdown_ b s :=
  mkScheduler (one_thread_ s) (task_ s) (task_interrupted_ s) (outstanding_work_ s) (op_queue_ s) (stopped_ s) b
    (state_ s) (interrupt_called s).
Definition set_state_ w s :=
  mkScheduler (one_thread_ s) (task_ s) (task_interrupted_ s) (outstanding_work_ s) (op_queue_ s) (stopped_ s)
    (shutdown_ s) w (interrupt_called s).
Definition set_interrupt_called b s :=
  mkScheduler (one_thread_ s) (task_ s) (task_interrupted_ s) (outstanding_work_ s) (op_queue_ s) (stopped_ s)
    (shutdown_ s) (state_ s) b.

(** What a thread does next, before it goes on where it is. *)
Inductive micro :=
  | Push (ops : list operation)  (** lock, push on the queue, wake a thread *)
  | Signal                     (** [pthread_cond_signal] *)
  | StopAll.                   (** lock, stop all threads *)

(** ** The event (asio/detail/posix_event.hpp): bit 0 is set when it is signalled,
    the rest counts the waiting threads *)

Definition signal_all s : scheduler := set_state_ (Z.lor (state_ s) 1) s.

Definition unlock_and_signal_one s : list micro * scheduler :=
  let s := set_state_ (Z.lor (state_ s) 1) s in
  let have_waiters := 1 <? state_ s in
  (if have_waiters then [Signal] else [], s).

Definition maybe_unlock_and_signal_one s : option (list micro) * scheduler :=
  let s := set_state_ (Z.lor (state_ s) 1) s in
  (if 1 <? state_ s then Some [Signal] else None, s).

Definition clear s : scheduler := set_state_ (Z.land (state_ s) (Z.lnot 1)) s.
Definition signalled s : bool := negb (Z.land (state_ s) 1 =? 0).
Definition starts_waiting s : scheduler := set_state_ (state_ s + 2) s.
Definition ends_waiting s : scheduler := set_state_ (state_ s - 2) s.

(** ** Waking threads *)

(** [task_->interrupt()], if the task has not been interrupted. *)
Definition interrupt_task s : scheduler :=
  if negb (task_interrupted_ s) && task_ s then set_interrupt_called true (set_task_interrupted_ true s) else s.

Definition wake_one_thread_and_unlock s : list micro * scheduler :=
  match maybe_unlock_and_signal_one s with
  | (Some signal, s) => (signal, s)
  | (None, s) => ([], interrupt_task s)
  end.

Definition stop_all_threads s : scheduler := interrupt_task (signal_all (set_stopped_ true s)).

(** ** One turn, with the lock held *)

(** The function a thread is in. *)
Inductive mode := Run | RunOne | Poll | PollOne | WaitOne (usec : Z).

(** Where in the turn it is. *)
Inductive pc :=
  | Locking                     (** about to take the lock *)
  | Waiting                     (** in [pthread_cond_wait] *)
  | Awake                       (** woken, about to take the lock again *)
  | InTask (usec : Z)           (** in [task_->run] *)
  | TaskCleanup                 (** in [~task_cleanup] *)
  | TaskRelock                  (** in [~task_cleanup], about to take the lock *)
  | InHandler (o : operation) (covered : bool)
      (** in the operation's [complete]; [covered] says that work has been started
          for the [work_finished] to come *)
  | WorkCleanup (thrown : bool) (** in [~work_cleanup] *)
  | WorkRelock (thrown : bool).

(** How the turn ends under the lock: the function returns a number of handlers, or
    the thread goes on. *)
Inductive verdict := Leaves (n : Z) | Goes (p : pc).

Definition outcome : Type := list micro * verdict * scheduler.

Definition run_task (usec : Z) (q : list entry) s : outcome :=
  let s := set_op_queue_ q s in
  let more_handlers := negb (bool_decide (length q = 0%nat)) in
  let s := set_task_interrupted_ more_handlers s in
  let '(signal, s) := if more_handlers && negb (one_thread_ s) then unlock_and_signal_one s else ([], s) in
  (signal, Goes (InTask (if more_handlers then 0 else usec)), s).

Definition run_operation (o : operation) (q : list entry) s : outcome :=
  let s := set_op_queue_ q s in
  let more_handlers := negb (bool_decide (length q = 0%nat)) in
  let '(signal, s) := if more_handlers && negb (one_thread_ s) then wake_one_thread_and_unlock s else ([], s) in
  (signal, Goes (InHandler o (counted o)), s).

(** The event has just been cleared, so that [wait] does wait. *)
Definition clear_and_wait s : outcome := ([], Goes Waiting, starts_waiting (clear s)).

Definition do_run_one s : outcome :=
  if stopped_ s then ([], Leaves 0, s)
  else
    match op_queue_ s with
    | task_operation :: q => run_task (-1) q s
    | Op o :: q => run_operation o q s
    | [] => clear_and_wait s
    end.

(** The end of [do_wait_one] and [do_poll_one]; the front is not the task here. *)
Definition take_operation s : outcome :=
  match op_queue_ s with
  | Op o :: q => run_operation o q s
  | _ => ([], Leaves 0, s)
  end.

Definition wait_one_front (usec : Z) s : outcome :=
  match op_queue_ s with
  | task_operation :: q => run_task usec q s
  | _ => take_operation s
  end.

Definition do_wait_one (usec : Z) s : outcome :=
  if stopped_ s then ([], Leaves 0, s)
  else match op_queue_ s with [] => clear_and_wait s | _ => wait_one_front usec s end.

Definition do_poll_one s : outcome :=
  if stopped_ s then ([], Leaves 0, s)
  else
    match op_queue_ s with
    | task_operation :: q => ([], Goes (InTask 0), set_op_queue_ q s)
    | _ => take_operation s
    end.

(** [do_wait_one] and [do_poll_one] after the task: wait_one does not signal when
    there is one thread. *)
Definition after_task_front (signals : bool) s : outcome :=
  match op_queue_ s with
  | task_operation :: _ =>
      if signals then
        match maybe_unlock_and_signal_one s with
        | (Some signal, s) => (signal, Leaves 0, s)
        | (None, s) => ([], Leaves 0, s)
        end
      else ([], Leaves 0, s)
  | _ => take_operation s
  end.

(** The turn from the acquisition of the lock, ... *)
Definition turn (m : mode) s : outcome :=
  match m with
  | Run | RunOne => do_run_one s
  | Poll | PollOne => do_poll_one s
  | WaitOne usec => do_wait_one usec s
  end.

(** ... from the end of a wait, which loops in [posix_event::wait] and does not in
    [wait_for_usec], ... *)
Definition after_wait (m : mode) s : outcome :=
  let s := ends_waiting s in
  match m with
  | WaitOne _ => wait_one_front 0 s
  | _ => if signalled s then turn m s else ([], Goes Waiting, starts_waiting s)
  end.

(** ... from the end of the task, and from the end of a handler. *)
Definition after_task (m : mode) s : outcome :=
  match m with
  | Run | RunOne => do_run_one s
  | Poll | PollOne => after_task_front true s
  | WaitOne _ => after_task_front (negb (one_thread_ s)) s
  end.

Definition after_handler (m : mode) s : outcome :=
  match m with
  | Run | Poll => turn m s
  | _ => ([], Leaves 1, s)
  end.

(** ** Threads *)

(** A call of [run] or one of its kin: the thread info and the count of handlers. *)
Record frame := mkFrame {
  fmode : mode;
  fpc : pc;
  private_op_queue : list operation;
  private_outstanding_work : Z;
  count : Z
}.

(** The calls the thread is inside of, the innermost first. *)
Record thread := mkThread { frames : list frame; todo : list micro }.

Record system := mkSystem { sched : scheduler; threads : list thread }.

(** [Queued] and [Started] are the operation's way through [op_queue_]; [Work] is the
    work begun or ended for what is not in the scheduler. *)
Inductive event :=
  | Posted (o : operation)
  | Queued (o : operation)
  | Started (o : operation)
  | Completed (o : operation)
  | Destroyed (o : operation)
  | Work (n : Z)
  | Returned (m : mode) (n : Z)
  | Threw (m : mode).

(** What a thread may do. *)
Inductive action :=
  | Go                                             (** its next step *)
  | Signals (w : option nat)                       (** [pthread_cond_signal] wakes [w] *)
  | WakesUp                                        (** a wait ends spuriously or by time *)
  | TaskReturns (ops : list operation)             (** the reactor returns with operations *)
  | Returns                                        (** the handler returns *)
  | Throws                                         (** the handler throws *)
  | Enter (m : mode)
  | Completes (o : operation)                      (** a descriptor completes one of its operations *)
  | PostImmediate (ops : list operation) (is_continuation : bool)
  | PostDeferred (ops : list operation)
  | DoDispatch (o : operation)
  | WorkStarted
  | WorkFinished
  | CompensatingWorkStarted
  | Stop
  | Restart
  | InitTask
  | Shutdown.

Definition set_pc (p : pc) (f : frame) : frame :=
  mkFrame (fmode f) p (private_op_queue f) (private_outstanding_work f) (count f).
Definition add_private (ops : list operation) (work : Z) (f : frame) : frame :=
  mkFrame (fmode f) (fpc f) (private_op_queue f ++ ops) (private_outstanding_work f + work) (count f).
Definition drop_private_queue (f : frame) : frame :=
  mkFrame (fmode f) (fpc f) [] (private_outstanding_work f) (count f).
Definition drop_private_work (f : frame) : frame :=
  mkFrame (fmode f) (fpc f) (private_op_queue f) 0 (count f).
Definition count_handler (f : frame) : frame :=
  mkFrame (fmode f) (fpc f) (private_op_queue f) (private_outstanding_work f)
    (if count f =? 2 ^ 64 - 1 then count f else count f + 1).

Definition is_waiting (th : thread) : bool :=
  match frames th with f :: _ => match fpc f with Waiting => true | _ => false end | [] => false end.
Definition wake (th : thread) : thread :=
  if is_waiting th then
    match frames th with f :: fs => mkThread (set_pc Awake f :: fs) (todo th) | [] => th end
  else th.

Definition queue_push (ops : list operation) s : scheduler := set_op_queue_ (op_queue_ s ++ map Op ops) s.

(** [~thread_info] destroys what is left in the private queue. *)
Definition leave (f : frame) (fs : list frame) (signal : list micro) (e : event) : thread * list event :=
  (mkThread fs signal, map Destroyed (private_op_queue f) ++ [e]).

Definition settle (f : frame) (fs : list frame) (r : outcome) : scheduler * thread * list event :=
  match r with
  | (signal, Goes p, s) =>
      (s, mkThread (set_pc p f :: fs) signal, match p with InHandler o _ => [Started o] | _ => [] end)
  | (signal, Leaves n, s) =>
      let '(th, es) := leave f fs signal (Returned (fmode f) (match fmode f with Run | Poll => count f | _ => n end)) in
      (s, th, es)
  end.

(** [poll] and [poll_one] first take over the private queue of the enclosing call,
    when there is one thread. *)
Definition nested_poll (f : frame) (fs : list frame) s : scheduler * list frame * list event :=
  match fmode f, fs with
  | (Poll | PollOne), outer :: rest =>
      if one_thread_ s
      then (queue_push (private_op_queue outer) s, drop_private_queue outer :: rest, map Queued (private_op_queue outer))
      else (s, fs, [])
  | _, _ => (s, fs, [])
  end.

(** The decrement of [work_finished]; what is left to do of it. *)
Definition work_finished s : list micro * scheduler :=
  let s := set_outstanding_work_ (outstanding_work_ s - 1) s in
  (if outstanding_work_ s =? 0 then [StopAll] else [], s).

(** [~task_cleanup] and [~work_cleanup] before they take the lock. *)
Definition task_cleanup (f : frame) s : frame * scheduler :=
  (set_pc TaskRelock (drop_private_work f),
   if private_outstanding_work f >? 0
   then set_outstanding_work_ (outstanding_work_ s + private_outstanding_work f) s else s).

Definition work_cleanup (thrown : bool) (f : frame) s : frame * list micro * scheduler :=
  let '(finished, s) :=
    if private_outstanding_work f >? 1
    then ([], set_outstanding_work_ (outstanding_work_ s + (private_outstanding_work f - 1)) s)
    else if private_outstanding_work f <? 1 then work_finished s else ([], s) in
  (set_pc (WorkRelock thrown) (drop_private_work f), finished, s).

Definition with_events (es : list event) (r : scheduler * thread * list event) : scheduler * thread * list event :=
  let '(s, th, es') := r in (s, th, es ++ es').

(** The step of a thread whose innermost call is [f]. *)
Definition pc_step (f : frame) (fs : list frame) s : option (scheduler * thread * list event) :=
  match fpc f with
  | Locking => let '(s, fs, es) := nested_poll f fs s in Some (with_events es (settle f fs (turn (fmode f) s)))
  | Awake => Some (settle f fs (after_wait (fmode f) s))
  | TaskCleanup => let '(f, s) := task_cleanup f s in Some (s, mkThread (f :: fs) [], [])
  | TaskRelock =>
      let s := queue_push (private_op_queue f) (set_task_interrupted_ true s) in
      let s := set_op_queue_ (op_queue_ s ++ [task_operation]) s in
      Some (with_events (map Queued (private_op_queue f)) (settle (drop_private_queue f) fs (after_task (fmode f) s)))
  | WorkCleanup thrown => let '(f, finished, s) := work_cleanup thrown f s in Some (s, mkThread (f :: fs) finished, [])
  | WorkRelock thrown =>
      let s := queue_push (private_op_queue f) s in
      let es := map Queued (private_op_queue f) in
      let f := drop_private_queue f in
      if thrown then let '(th, es') := leave f fs [] (Threw (fmode f)) in Some (s, th, es ++ es')
      else let f := count_handler f in Some (with_events es (settle f fs (after_handler (fmode f) s)))
  | _ => None
  end.

Definition counted_work (ops : list operation) : Z := zlen (filter counted ops).

(** Posting operations with work to start for them, on the queue of the innermost call
    if [inline] and the thread has one. *)
Definition post (inline : bool) (ops : list operation) (fs : list frame) (work : Z) s : scheduler * thread :=
  match inline, fs with
  | true, f :: rest => (s, mkThread (add_private ops work f :: rest) [])
  | _, _ => (set_outstanding_work_ (outstanding_work_ s + work) s, mkThread fs [Push ops])
  end.

(** Calls from outside the scheduler's functions, or from a handler, which is then
    what the innermost call runs.  Work has been started for operations that are
    posted as deferred, and is started for the others. *)
Definition call_step (fs : list frame) (a : action) s : option (scheduler * thread * list event) :=
  let unchanged := mkThread fs [] in
  match a with
  | Enter m =>
      if outstanding_work_ s =? 0 then Some (s, mkThread fs [StopAll], [Returned m 0])
      else Some (s, mkThread (mkFrame m Locking [] 0 0 :: fs) [], [])
  | PostImmediate ops is_continuation =>
      if forallb counted ops then
        let '(s, th) := post (one_thread_ s || is_continuation) ops fs (zlen ops) s in Some (s, th, map Posted ops)
      else None
  | PostDeferred [] => Some (s, unchanged, [])
  | PostDeferred ops =>
      if forallb counted ops then
        let '(s, th) := post (one_thread_ s) ops fs 0 s in Some (s, th, map Posted ops ++ [Work (- zlen ops)])
      else None
  | DoDispatch o =>
      if counted o then let '(s, th) := post false [o] fs 1 s in Some (s, th, [Posted o]) else None
  | WorkStarted => Some (set_outstanding_work_ (outstanding_work_ s + 1) s, unchanged, [Work 1])
  | WorkFinished => let '(finished, s) := work_finished s in Some (s, mkThread fs finished, [Work (-1)])
  | Stop => Some (s, mkThread fs [StopAll], [])
  | Restart => Some (set_stopped_ false s, unchanged, [])
  | InitTask =>
      if negb (shutdown_ s) && negb (task_ s) then
        let s := set_task_ true s in
        let '(signal, s) := wake_one_thread_and_unlock (set_op_queue_ (op_queue_ s ++ [task_operation]) s) in
        Some (s, mkThread fs signal, [])
      else Some (s, unchanged, [])
  | _ => None
  end.

Definition can_dispatch (fs : list frame) : bool := negb (bool_decide (length fs = 0%nat)).

(** What a handler does with its own operation: a descriptor completes one of the
    operations that wait for it, or, if none is ready, starts work for the
    [work_finished] to come. *)
Definition handler_step (o : operation) (covered : bool) (f : frame) (fs : list frame) (a : action) s :
    option (scheduler * thread * list event) :=
  match a, covered with
  | Returns, true => Some (s, mkThread (set_pc (WorkCleanup false) f :: fs) [], [Completed o])
  | Throws, true => Some (s, mkThread (set_pc (WorkCleanup true) f :: fs) [], [Completed o])
  | Completes o', false =>
      if counted o' then
        Some (s, mkThread (set_pc (InHandler o' true) f :: fs) [], [Completed o; Posted o'; Work (-1)])
      else None
  | CompensatingWorkStarted, false =>
      Some (s, mkThread (set_pc (InHandler o true) (add_private [] 1 f) :: fs) [], [])
  | _, _ => call_step (f :: fs) a s
  end.

(** What a thread does that is in its own hands. *)
Definition thread_step (th : thread) (a : action) s : option (scheduler * thread * list event) :=
  match frames th with
  | [] => call_step [] a s
  | f :: fs =>
      match fpc f, a with
      | InHandler o covered, _ => handler_step o covered f fs a s
      | InTask _, TaskReturns ops =>
          Some (set_interrupt_called false s, mkThread (set_pc TaskCleanup (add_private ops 0 f) :: fs) [],
                map Posted ops ++ [Work (- counted_work ops)])
      | _, Go => pc_step f fs s
      | _, _ => None
      end
  end.

(** [shutdown], called when no thread is in the scheduler any more. *)
Definition shutdown s : scheduler * list event :=
  (set_task_ false (set_op_queue_ [] (set_shutdown_ true s)),
   omap (λ e, match e with Op o => Some (Destroyed o) | task_operation => None end) (op_queue_ s)).

Definition idle (th : thread) : bool := match frames th, todo th with [], [] => true | _, _ => false end.

Definition step (y : system) (i : nat) (a : action) : option (system * list event) :=
  th ← threads y !! i;
  let s := sched y in
  match a, todo th with
  | WakesUp, _ => if is_waiting th then Some (mkSystem s (<[i := wake th]> (threads y)), []) else None
  | Go, Push ops :: rest =>
      let '(signal, s) := wake_one_thread_and_unlock (queue_push ops s) in
      Some (mkSystem s (<[i := mkThread (frames th) (signal ++ rest)]> (threads y)), map Queued ops)
  | Go, StopAll :: rest =>
      Some (mkSystem (stop_all_threads s) (wake <$> <[i := mkThread (frames th) rest]> (threads y)), [])
  | Signals w, Signal :: rest =>
      let ths := <[i := mkThread (frames th) rest]> (threads y) in
      match w with
      | None => if existsb is_waiting ths then None else Some (mkSystem s ths, [])
      | Some w =>
          th' ← ths !! w;
          if is_waiting th' then Some (mkSystem s (<[w := wake th']> ths), []) else None
      end
  | Shutdown, [] =>
      if forallb idle (threads y)
      then let '(s, es) := shutdown s in Some (mkSystem s (threads y), es) else None
  | _, [] => '(s, th, es) ← thread_step th a s; Some (mkSystem s (<[i := th]> (threads y)), es)
  | _, _ => None
  end.

Fixpoint run (y : system) (schedule : list (nat * action)) : option (system * list event) :=
  match schedule with
  | [] => Some (y, [])
  | (i, a) :: schedule =>
      '(y, es) ← step y i a;
      '(y, es') ← run y schedule;
      Some (y, es ++ es')
  end.

Definition system_make (one_thread : bool) (n : nat) : system :=
  mkSystem (scheduler_make one_thread) (replicate n (mkThread [] [])).

(** A thread outside posts while another one waits in the reactor and a third one sleeps;
    the sleeper is woken for it. *)
Definition posted_operation : operation := mkOperation 7 true.
Definition demo : list (nat * action) :=
  [(0%nat, WorkStarted); (0%nat, InitTask); (0%nat, Enter Run); (0%nat, Go); (1%nat, Enter Run); (1%nat, Go);
   (2%nat, PostImmediate [posted_operation] false); (2%nat, Go); (2%nat, Signals (Some 1%nat)); (1%nat, Go);
   (1%nat, Returns); (1%nat, Go); (1%nat, Go)].

Example demo_runs :
  run (system_make false 3) demo
  = Some (mkSystem (mkScheduler false true false 1 [] false false 2 false)
            [mkThread [mkFrame Run (InTask (-1)) [] 0 0] []; mkThread [mkFrame Run Waiting [] 0 1] []; mkThread [] []],
          [Work 1; Posted posted_operation; Queued posted_operation; Started posted_operation; Completed posted_operation]).
Proof. vm_compute. reflexivity. Qed.
