(* ===== verification/EventLoop.v ===== *)
(** * What the event loop guarantees

    About the threads of Scheduler under any schedule: every operation that is posted
    is completed once and in the order of the queue; the count of outstanding work is
    the work there is, so that a loop with work goes on until it is stopped; and no
    thread is left asleep while operations wait in the queue. *)

From Stdlib Require Import ZArith Lia.
From stdpp Require Import base list numbers sets.
From S2P Require Import Prelude.
From S2P Require Import Scheduler.

#[local] Open Scope Z_scope.

Implicit Types (s : scheduler) (f : frame) (th : thread) (y : system).

(** ** The cases of a step *)

Inductive step_case y (i : nat) : action → system → list event → Prop :=
  | case_wakes th :
      threads y !! i = Some th → is_waiting th = true →
      step_case y i WakesUp (mkSystem (sched y) (<[i := wake th]> (threads y))) []
  | case_push th ops rest signal s' :
      threads y !! i = Some th → todo th = Push ops :: rest →
      wake_one_thread_and_unlock (queue_push ops (sched y)) = (signal, s') →
      step_case y i Go (mkSystem s' (<[i := mkThread (frames th) (signal ++ rest)]> (threads y))) (map Queued ops)
  | case_stop th rest :
      threads y !! i = Some th → todo th = StopAll :: rest →
      step_case y i Go
        (mkSystem (stop_all_threads (sched y)) (wake <$> <[i := mkThread (frames th) rest]> (threads y))) []
  | case_signal th rest w th' :
      threads y !! i = Some th → todo th = Signal :: rest →
      <[i := mkThread (frames th) rest]> (threads y) !! w = Some th' → is_waiting th' = true →
      step_case y i (Signals (Some w))
        (mkSystem (sched y) (<[w := wake th']> (<[i := mkThread (frames th) rest]> (threads y)))) []
  | case_silent th rest :
      threads y !! i = Some th → todo th = Signal :: rest →
      existsb is_waiting (<[i := mkThread (frames th) rest]> (threads y)) = false →
      step_case y i (Signals None) (mkSystem (sched y) (<[i := mkThread (frames th) rest]> (threads y))) []
  | case_shutdown s' es :
      forallb idle (threads y) = true → shutdown (sched y) = (s', es) →
      step_case y i Shutdown (mkSystem s' (threads y)) es
  | case_thread a th s' th' es :
      threads y !! i = Some th → todo th = [] → thread_step th a (sched y) = Some (s', th', es) →
      step_case y i a (mkSystem s' (<[i := th']> (threads y))) es.

Lemma scheduler_step_inv y i a y' es : step y i a = Some (y', es) → step_case y i a y' es.
Proof.
  unfold step. intros H. destruct (threads y !! i) as [th|] eqn:Hi; cbn [mbind option_bind] in H; [|done].
  assert (Hstep : todo th = [] → ('(s', th', es') ← thread_step th a (sched y);
    Some (mkSystem s' (<[i := th']> (threads y)), es')) = Some (y', es) → step_case y i a y' es).
  { intros Ht Hs. destruct (thread_step th a (sched y)) as [[[s' th'] es']|] eqn:E; [|done]. injection Hs as <- <-.
    by eapply case_thread. }
  assert (Hwake : a = WakesUp → (if is_waiting th then Some (mkSystem (sched y) (<[i := wake th]> (threads y)), [])
      else None) = Some (y', es) → step_case y i a y' es).
  { intros -> Hs. destruct (is_waiting th) eqn:Hw; [|done]. injection Hs as <- <-. by eapply case_wakes. }
  destruct (todo th) as [|[pushed| |] rest] eqn:Ht; destruct a; try done; try (by apply Hstep); try (by apply Hwake).
  - destruct (forallb idle (threads y)) eqn:Hf; [|done]. destruct (shutdown (sched y)) as [s' es'] eqn:E.
    injection H as <- <-. by apply case_shutdown.
  - destruct (wake_one_thread_and_unlock (queue_push pushed (sched y))) as [signal s'] eqn:E. injection H as <- <-.
    by eapply case_push.
  - destruct w as [w|].
    + destruct (_ !! w) as [th'|] eqn:Hw; cbn [mbind option_bind] in H; [|done]. destruct (is_waiting th') eqn:Hw'; [|done].
      injection H as <- <-. by eapply case_signal.
    + destruct (existsb _ _) eqn:Hw; [done|]. injection H as <- <-. by eapply case_silent.
  - injection H as <- <-. by eapply case_stop.
Qed.

(** ** Steps of one thread *)

Inductive local (th : thread) (s : scheduler) : action → thread → scheduler → list event → Prop :=
  | local_wakes : is_waiting th = true → local th s WakesUp (wake th) s []
  | local_push ops rest signal s' :
      todo th = Push ops :: rest → wake_one_thread_and_unlock (queue_push ops s) = (signal, s') →
      local th s Go (mkThread (frames th) (signal ++ rest)) s' (map Queued ops)
  | local_stop rest :
      todo th = StopAll :: rest → local th s Go (mkThread (frames th) rest) (stop_all_threads s) []
  | local_signal w rest :
      todo th = Signal :: rest → local th s (Signals w) (mkThread (frames th) rest) s []
  | local_step a th' s' es :
      todo th = [] → thread_step th a s = Some (s', th', es) → local th s a th' s' es.

(** What a step does to the threads besides the one that takes it. *)
Definition woken (ths ths' : list thread) : Prop := Forall2 (λ th th', th' = th ∨ th' = wake th) ths ths'.

Lemma woken_refl ths : woken ths ths.
Proof. apply Forall2_same_length_lookup_2; [done|]. intros i x z Hx Hz. left. congruence. Qed.

Lemma woken_all ths : woken ths (wake <$> ths).
Proof. induction ths; cbn; constructor; auto. Qed.

Lemma woken_one ths w th : ths !! w = Some th → woken ths (<[w := wake th]> ths).
Proof.
  revert w. induction ths as [|th' ths IH]; intros [|w] H; try done; cbn in *.
  - injection H as ->. constructor; [by right|apply woken_refl].
  - constructor; [by left|by apply IH].
Qed.

Lemma woken_sum g ths ths' : (∀ th, g (wake th) = g th) → woken ths ths' → zsum g ths' = zsum g ths.
Proof.
  intros Hg. induction 1 as [|th th' ths ths' Hth Hths IH]; [done|]. rewrite !zsum_cons. f_equal; [|exact IH].
  destruct Hth as [-> | ->]; [done|apply Hg].
Qed.

Lemma woken_Forall (P : thread → Prop) ths ths' : (∀ th, P th → P (wake th)) → woken ths ths' → Forall P ths → Forall P ths'.
Proof.
  intros HP. induction 1 as [|th th' ths ths' Hth Hths IH]; [done|]. inversion 1; subst.
  constructor; [|by apply IH]. destruct Hth as [-> | ->]; auto.
Qed.

(** Every step is one of a thread, or the destruction of what is left at the end. *)
Lemma step_local y i a y' es :
  step y i a = Some (y', es) →
  (∃ th th', threads y !! i = Some th ∧ local th (sched y) a th' (sched y') es ∧
     woken (<[i := th']> (threads y)) (threads y')) ∨
  (a = Shutdown ∧ forallb idle (threads y) = true ∧ shutdown (sched y) = (sched y', es) ∧ threads y' = threads y).
Proof.
  intros H. destruct (scheduler_step_inv _ _ _ _ _ H) as [th Hi Hw|th ops rest signal s' Hi Ht E|th rest Hi Ht|th rest w th' Hi Ht Hw Hw'
    |th rest Hi Ht Hw|s' es' Hf E|a th s' th' es' Hi Ht E]; [..|by right|left; by eauto 10 using local, woken_refl]; left.
  - eauto 10 using local, woken_refl.
  - eauto 10 using local, woken_refl.
  - exists th, (mkThread (frames th) rest). split_and!; [done|by apply local_stop|apply woken_all].
  - exists th, (mkThread (frames th) rest). split_and!; [done|by apply local_signal|by apply woken_one].
  - eauto 10 using local, woken_refl.
Qed.

(** ** What a turn takes off the queue *)

Definition taken (v : verdict) (q q' : list entry) : Prop :=
  match v with
  | Goes (InHandler o covered) => covered = counted o ∧ q = Op o :: q'
  | Goes (InTask _) => q = task_operation :: q'
  | Goes Waiting | Leaves _ => q' = q
  | Goes _ => False
  end.

(** What signals, wake-ups and turns leave alone. *)
Definition keeps s s' : Prop :=
  outstanding_work_ s' = outstanding_work_ s ∧ stopped_ s' = stopped_ s ∧ task_ s' = task_ s ∧
  one_thread_ s' = one_thread_ s ∧ shutdown_ s' = shutdown_ s.

Definition takes s (r : outcome) : Prop :=
  let '(signal, v, s') := r in
  taken v (op_queue_ s) (op_queue_ s') ∧ keeps s s' ∧ (signal = [] ∨ signal = [Signal]).

Lemma wake_one_keeps s signal s' :
  wake_one_thread_and_unlock s = (signal, s') →
  keeps s s' ∧ op_queue_ s' = op_queue_ s ∧ (signal = [] ∨ signal = [Signal]).
Proof.
  unfold wake_one_thread_and_unlock, maybe_unlock_and_signal_one, interrupt_task, keeps.
  repeat case_match; intros; simplify_eq; cbn; naive_solver.
Qed.

Lemma run_task_takes usec q s : op_queue_ s = task_operation :: q → takes s (run_task usec q s).
Proof.
  intros H. unfold run_task, unlock_and_signal_one, takes, keeps. repeat case_match; simplify_eq; cbn in *; naive_solver.
Qed.

Lemma run_operation_takes o q s : op_queue_ s = Op o :: q → takes s (run_operation o q s).
Proof.
  intros H. unfold run_operation. set (s1 := set_op_queue_ q s).
  destruct (_ && _); [|unfold takes, keeps; cbn; naive_solver].
  destruct (wake_one_thread_and_unlock s1) as [signal s'] eqn:E. apply wake_one_keeps in E as (Hk & Hq & Hs).
  unfold takes, keeps in *. cbn in *. rewrite Hq. naive_solver.
Qed.

#[local] Hint Resolve run_task_takes run_operation_takes : core.

Ltac turn_cases := unfold clear_and_wait, takes, taken, keeps; repeat case_match; simplify_eq; cbn in *; naive_solver.

Lemma do_run_one_takes s : takes s (do_run_one s).
Proof. unfold do_run_one. destruct (stopped_ s); [turn_cases|]. destruct (op_queue_ s) as [|[|o] q] eqn:E; auto. turn_cases. Qed.

Lemma take_operation_takes s : takes s (take_operation s).
Proof. unfold take_operation. destruct (op_queue_ s) as [|[|o] q] eqn:E; auto; turn_cases. Qed.

#[local] Hint Resolve do_run_one_takes take_operation_takes : core.

Lemma do_poll_one_takes s : takes s (do_poll_one s).
Proof. unfold do_poll_one. destruct (stopped_ s); [turn_cases|]. destruct (op_queue_ s) as [|[|o] q] eqn:E; auto. turn_cases. Qed.

Lemma wait_one_front_takes usec s : takes s (wait_one_front usec s).
Proof. unfold wait_one_front. destruct (op_queue_ s) as [|[|o] q] eqn:E; auto. Qed.

#[local] Hint Resolve do_poll_one_takes wait_one_front_takes : core.

Lemma turn_takes m s : takes s (turn m s).
Proof.
  destruct m; cbn; auto. unfold do_wait_one. destruct (stopped_ s); [turn_cases|].
  destruct (op_queue_ s) as [|e q] eqn:E; [turn_cases|auto].
Qed.

Lemma takes_ends_waiting s r : takes (ends_waiting s) r → takes s r.
Proof. by destruct r as [[]]. Qed.

Lemma after_wait_takes m s : takes s (after_wait m s).
Proof.
  apply takes_ends_waiting. unfold after_wait. destruct m; auto; destruct (signalled _); auto using turn_takes; turn_cases.
Qed.

Lemma after_task_front_takes b s : takes s (after_task_front b s).
Proof.
  unfold after_task_front. destruct (op_queue_ s) as [|[|o] q] eqn:E; auto.
  destruct b; [|turn_cases]. unfold maybe_unlock_and_signal_one. turn_cases.
Qed.

Lemma after_task_takes m s : takes s (after_task m s).
Proof. destruct m; cbn; auto using after_task_front_takes. Qed.

Lemma after_handler_takes m s : takes s (after_handler m s).
Proof. destruct m; cbn; auto; turn_cases. Qed.

(** ** Nothing is lost: a weight on the operations *)

Section Weight.
Context (w : operation → Z).

Definition entry_weight (e : entry) : Z := match e with Op o => w o | task_operation => 0 end.
Definition pc_weight (p : pc) : Z := match p with InHandler o _ => w o | _ => 0 end.
Definition frame_weight f : Z := zsum w (private_op_queue f) + pc_weight (fpc f).
Definition micro_weight (m : micro) : Z := match m with Push ops => zsum w ops | _ => 0 end.
Definition thread_weight th : Z := zsum frame_weight (frames th) + zsum micro_weight (todo th).
Definition queue_weight s : Z := zsum entry_weight (op_queue_ s).
Definition system_weight y : Z := queue_weight (sched y) + zsum thread_weight (threads y).

(** What comes in and what goes out. *)
Definition flow (e : event) : Z := match e with Posted o => w o | Completed o | Destroyed o => - w o | _ => 0 end.

Lemma zsum_op ops : zsum entry_weight (map Op ops) = zsum w ops.
Proof. by rewrite zsum_map. Qed.

Lemma queue_push_weight ops s : queue_weight (queue_push ops s) = queue_weight s + zsum w ops.
Proof. unfold queue_weight, queue_push. cbn. by rewrite zsum_app, zsum_op. Qed.

Lemma posted_flow ops : zsum flow (map Posted ops) = zsum w ops.
Proof. by rewrite zsum_map. Qed.
Lemma queued_flow ops : zsum flow (map Queued ops) = 0.
Proof. rewrite zsum_map. by apply zsum_zero. Qed.
Lemma destroyed_flow ops : zsum flow (map Destroyed ops) = - zsum w ops.
Proof.
  rewrite zsum_map. induction ops as [|o ops IH]; [done|]. rewrite !zsum_cons, IH. cbn. lia.
Qed.

Lemma signal_weight signal : signal = [] ∨ signal = [Signal] → zsum micro_weight signal = 0.
Proof. by intros [-> | ->]. Qed.

Lemma frame_weight_at p f : frame_weight (set_pc p f) = zsum w (private_op_queue f) + pc_weight p.
Proof. done. Qed.

Lemma leave_weight f fs signal e :
  flow e = 0 → zsum micro_weight signal = 0 →
  thread_weight (leave f fs signal e).1 = zsum w (private_op_queue f) + zsum frame_weight fs + zsum flow (leave f fs signal e).2.
Proof. intros He Hs. unfold thread_weight, leave. cbn. zsums. rewrite destroyed_flow, He, Hs. lia. Qed.

Lemma settle_weight f fs s r s' th' es :
  takes s r → settle f fs r = (s', th', es) →
  queue_weight s' + thread_weight th' =
  queue_weight s + zsum w (private_op_queue f) + zsum frame_weight fs + zsum flow es.
Proof.
  destruct r as [[signal [n|p]] s1]; intros (Hq & _ & Hs) H; apply signal_weight in Hs; unfold settle in H.
  - pose proof (leave_weight f fs signal (Returned (fmode f) (match fmode f with Run | Poll => count f | _ => n end)) eq_refl Hs)
      as Hl.
    destruct (leave f fs signal _) as [th1 es1]. injection H as <- <- <-. cbn in Hl, Hq. rewrite Hl.
    unfold queue_weight. rewrite Hq. lia.
  - injection H as <- <- <-. unfold thread_weight, queue_weight. cbn [frames todo]. zsums. rewrite Hs, frame_weight_at.
    destruct p; try done; cbn in *; first [rewrite Hq | destruct Hq as [_ Hq]; rewrite Hq]; zsums; cbn; lia.
Qed.

Lemma settle_weight_with f fs s r es0 s' th' es :
  takes s r → with_events es0 (settle f fs r) = (s', th', es) → zsum flow es0 = 0 →
  queue_weight s' + thread_weight th' =
  queue_weight s + zsum w (private_op_queue f) + zsum frame_weight fs + zsum flow es.
Proof.
  intros Hr H H0. destruct (settle f fs r) as [[s1 th1] es1] eqn:E. injection H as <- <- <-.
  rewrite (settle_weight _ _ _ _ _ _ _ Hr E), zsum_app. lia.
Qed.

Lemma drop_private_queue_weight f : frame_weight (drop_private_queue f) = frame_weight f - zsum w (private_op_queue f).
Proof. unfold frame_weight. cbn. zsums. lia. Qed.

Lemma nested_poll_weight f fs s s' fs' es :
  nested_poll f fs s = (s', fs', es) →
  queue_weight s' + zsum frame_weight fs' = queue_weight s + zsum frame_weight fs ∧ zsum flow es = 0.
Proof.
  assert (Hover : ∀ outer rest, one_thread_ s = true →
    (queue_push (private_op_queue outer) s, drop_private_queue outer :: rest, map Queued (private_op_queue outer))
      = (s', fs', es) →
    queue_weight s' + zsum frame_weight fs' = queue_weight s + zsum frame_weight (outer :: rest) ∧ zsum flow es = 0).
  { intros outer rest _ [= <- <- <-]. rewrite queue_push_weight, queued_flow. zsums.
    rewrite drop_private_queue_weight. lia. }
  unfold nested_poll. destruct (fmode f), fs as [|outer rest]; try (intros [= <- <- <-]; done);
    (destruct (one_thread_ s) eqn:E; [by apply Hover|by intros [= <- <- <-]]).
Qed.

Lemma work_cleanup_weight e f s f' finished s' :
  work_cleanup e f s = (f', finished, s') →
  queue_weight s' = queue_weight s ∧ zsum micro_weight finished = 0 ∧ frame_weight f' = zsum w (private_op_queue f).
Proof.
  unfold work_cleanup, work_finished.
  repeat case_match; intros; simplify_eq; split_and!; try done; unfold frame_weight; cbn; lia.
Qed.

Lemma pc_step_weight f fs s s' th' es :
  pc_step f fs s = Some (s', th', es) → pc_weight (fpc f) = 0 →
  queue_weight s' + thread_weight th' = queue_weight s + zsum frame_weight (f :: fs) + zsum flow es.
Proof.
  intros H Hpc. rewrite zsum_cons. assert (Hf : frame_weight f = zsum w (private_op_queue f)) by (unfold frame_weight; lia).
  rewrite Hf. clear Hpc Hf. unfold pc_step in H. destruct (fpc f) as [| | |u| | |o c|e|e]; try done.
  - destruct (nested_poll f fs s) as [[s1 fs1] es1] eqn:E. apply nested_poll_weight in E as [E He]. injection H as H.
    rewrite (settle_weight_with _ _ _ _ _ _ _ _ (turn_takes _ s1) H He). lia.
  - injection H as H. rewrite (settle_weight _ _ _ _ _ _ _ (after_wait_takes _ s) H). lia.
  - injection H as <- <- <-. unfold thread_weight, queue_weight. cbn. zsums. rewrite frame_weight_at. cbn.
    destruct (_ >? _); cbn; lia.
  - injection H as H. rewrite (settle_weight_with _ _ _ _ _ _ _ _ (after_task_takes _ _) H (queued_flow _)).
    unfold queue_weight. cbn. zsums. rewrite zsum_op. cbn. lia.
  - destruct (work_cleanup e f s) as [[f1 finished] s1] eqn:E. apply work_cleanup_weight in E as (Eq & Ef & Ew).
    injection H as <- <- <-. unfold thread_weight. cbn. zsums. rewrite Eq, Ef, Ew. lia.
  - destruct e.
    + injection H as <- <- <-. unfold thread_weight. rewrite queue_push_weight. cbn. zsums. rewrite queued_flow. cbn. lia.
    + injection H as H. rewrite (settle_weight_with _ _ _ _ _ _ _ _ (after_handler_takes _ _) H (queued_flow _)).
      rewrite queue_push_weight. cbn. zsums. lia.
Qed.

Lemma post_weight inline ops fs work s s' th' :
  post inline ops fs work s = (s', th') →
  queue_weight s' + thread_weight th' = queue_weight s + zsum frame_weight fs + zsum w ops.
Proof.
  unfold post, thread_weight, queue_weight. destruct inline, fs as [|f rest]; intros [= <- <-]; cbn; zsums; cbn;
    unfold frame_weight; cbn; zsums; lia.
Qed.

Lemma call_step_weight fs a s s' th' es :
  call_step fs a s = Some (s', th', es) →
  queue_weight s' + thread_weight th' = queue_weight s + zsum frame_weight fs + zsum flow es.
Proof.
  unfold call_step. intros H. destruct a; try done.
  - assert (Hnew : frame_weight (mkFrame m Locking [] 0 0) = 0) by done.
    unfold thread_weight. destruct (_ =? _); injection H as <- <- <-; cbn; zsums; rewrite ?Hnew; cbn; lia.
  - destruct (forallb _ _); [|done]. destruct (post _ _ _ _ _) as [s1 th1] eqn:E. injection H as <- <- <-.
    rewrite (post_weight _ _ _ _ _ _ _ E), posted_flow. lia.
  - destruct ops as [|o ops].
    + injection H as <- <- <-. unfold thread_weight. cbn. zsums. lia.
    + destruct (forallb _ _); [|done]. destruct (post _ _ _ _ _) as [s1 th1] eqn:E. injection H as <- <- <-.
      rewrite (post_weight _ _ _ _ _ _ _ E). zsums. rewrite posted_flow. cbn. lia.
  - destruct (counted o); [|done]. destruct (post _ _ _ _ _) as [s1 th1] eqn:E. injection H as <- <- <-.
    rewrite (post_weight _ _ _ _ _ _ _ E). zsums. cbn. lia.
  - injection H as <- <- <-. unfold thread_weight, queue_weight. cbn. zsums. cbn. lia.
  - unfold work_finished in H. injection H as <- <- <-. unfold thread_weight, queue_weight. cbn.
    destruct (_ =? _); zsums; cbn; lia.
  - injection H as <- <- <-. unfold thread_weight. cbn. zsums. cbn. lia.
  - injection H as <- <- <-. unfold thread_weight, queue_weight. cbn. zsums. lia.
  - destruct (_ && _).
    + destruct (wake_one_thread_and_unlock _) as [signal s1] eqn:E. apply wake_one_keeps in E as (_ & Eq & Es).
      injection H as <- <- <-. unfold thread_weight, queue_weight. cbn. rewrite Eq, (signal_weight _ Es). cbn. zsums. cbn. lia.
    + injection H as <- <- <-. unfold thread_weight. cbn. zsums. lia.
Qed.

Lemma handler_step_weight o covered f fs a s s' th' es :
  fpc f = InHandler o covered → handler_step o covered f fs a s = Some (s', th', es) →
  queue_weight s' + thread_weight th' = queue_weight s + zsum frame_weight (f :: fs) + zsum flow es.
Proof.
  intros Hpc H.
  assert (Hf : frame_weight f = zsum w (private_op_queue f) + w o) by (unfold frame_weight; by rewrite Hpc).
  unfold handler_step in H. destruct a, covered; try (by apply call_step_weight in H);
    try (destruct (counted _); [|done]);
    injection H as <- <- <-; unfold thread_weight, queue_weight; cbn; zsums; rewrite ?frame_weight_at, Hf; cbn; zsums; lia.
Qed.

Lemma thread_step_weight th a s s' th' es :
  thread_step th a s = Some (s', th', es) → todo th = [] →
  queue_weight s' + thread_weight th' = queue_weight s + thread_weight th + zsum flow es.
Proof.
  unfold thread_step, thread_weight at 2. intros H ->. rewrite zsum_nil, Z.add_0_r.
  destruct (frames th) as [|f fs]; [by apply call_step_weight in H|].
  destruct (fpc f) as [| | |u| | |o c|e|e] eqn:Hpc; [..|by eapply handler_step_weight| |]; destruct a; try done;
    try (apply pc_step_weight in H; [done|by rewrite Hpc]).
  injection H as <- <- <-. unfold thread_weight, queue_weight. cbn. zsums. rewrite posted_flow, frame_weight_at.
  unfold frame_weight. rewrite Hpc. cbn. zsums. lia.
Qed.

Lemma wake_weight th : thread_weight (wake th) = thread_weight th.
Proof.
  unfold wake, is_waiting, thread_weight. destruct (frames th) as [|f fs] eqn:E; [by rewrite E|].
  destruct (fpc f) eqn:Hpc; try by rewrite E.
  cbn. zsums. rewrite frame_weight_at. unfold frame_weight. by rewrite Hpc.
Qed.

Lemma local_weight th s a th' s' es :
  local th s a th' s' es → queue_weight s' + thread_weight th' = queue_weight s + thread_weight th + zsum flow es.
Proof.
  destruct 1 as [Hw|ops rest signal s' Ht H|rest Ht|w' rest Ht|a th' s' es Ht H].
  - rewrite wake_weight. zsums. lia.
  - apply wake_one_keeps in H as (_ & Hq & Hs). apply signal_weight in Hs.
    unfold thread_weight. rewrite Ht, queued_flow. cbn. zsums. rewrite Hs. cbn.
    pose proof (queue_push_weight ops s) as Hp. unfold queue_weight in *. rewrite Hq. lia.
  - unfold thread_weight, stop_all_threads, interrupt_task, queue_weight. rewrite Ht. cbn. zsums.
    destruct (_ && _); cbn; lia.
  - unfold thread_weight. rewrite Ht. cbn. zsums. cbn. lia.
  - by eapply thread_step_weight.
Qed.

Lemma idle_weight th : idle th = true → thread_weight th = 0.
Proof. unfold idle, thread_weight. by destruct (frames th), (todo th). Qed.

Lemma shutdown_flow s : zsum flow (shutdown s).2 = - queue_weight s.
Proof.
  unfold shutdown, queue_weight. cbn. induction (op_queue_ s) as [|[|o] q IH]; [done| |]; cbn; zsums; rewrite IH; cbn; lia.
Qed.

Lemma step_weight y i a y' es : step y i a = Some (y', es) → system_weight y' = system_weight y + zsum flow es.
Proof.
  intros H. unfold system_weight.
  destruct (step_local _ _ _ _ _ H) as [(th & th' & Hi & Hl & Hw)|(_ & Hidle & Hs & ->)].
  - rewrite (woken_sum _ _ _ wake_weight Hw), (zsum_insert _ _ _ _ _ Hi). pose proof (local_weight _ _ _ _ _ _ Hl). lia.
  - pose proof (shutdown_flow (sched y)) as Hf. rewrite Hs in Hf. cbn in Hf.
    unfold shutdown in Hs. injection Hs as <- _. unfold queue_weight at 1. cbn. zsums. lia.
Qed.

Lemma run_weight y schedule y' es : run y schedule = Some (y', es) → system_weight y' = system_weight y + zsum flow es.
Proof.
  revert y es. induction schedule as [|[i a] schedule IH]; intros y es; cbn.
  - intros [= <- <-]. zsums. lia.
  - destruct (step y i a) as [[y1 es1]|] eqn:E; [|done]. cbn. destruct (run y1 schedule) as [[y2 es2]|] eqn:E2; [|done].
    intros [= <- <-]. apply step_weight in E. apply IH in E2. zsums. lia.
Qed.
End Weight.

(** ** Operations in order *)

Definition op_of (e : entry) : option operation := match e with Op o => Some o | task_operation => None end.
Definition waiting s : list operation := omap op_of (op_queue_ s).
Definition queued (es : list event) : list operation := omap (λ e, match e with Queued o => Some o | _ => None end) es.
Definition started (es : list event) : list operation := omap (λ e, match e with Started o => Some o | _ => None end) es.

Lemma queued_of ops : queued (map Queued ops) = ops.
Proof. unfold queued. induction ops as [|o ops IH]; [done|]. cbn. by rewrite IH. Qed.
Lemma omap_map_none {A B C} (g : A → B) (h : B → option C) l : (∀ x, h (g x) = None) → omap h (map g l) = [].
Proof. intros H. induction l as [|x l IH]; [done|]. cbn. by rewrite H. Qed.
Lemma queue_push_waiting ops s : waiting (queue_push ops s) = waiting s ++ ops.
Proof.
  unfold waiting, queue_push. cbn. rewrite omap_app. f_equal. induction ops as [|o ops IH]; [done|]. cbn. by rewrite IH.
Qed.

(** What goes on the queue and what comes off it. *)
Definition in_order s s' (es : list event) : Prop := waiting s ++ queued es = started es ++ waiting s'.

Lemma in_order_app s1 s2 s3 es1 es2 :
  in_order s1 s2 es1 → in_order s2 s3 es2 → in_order s1 s3 (es1 ++ es2).
Proof.
  unfold in_order, queued, started. rewrite !omap_app. intros H1 H2.
  rewrite app_assoc, H1, <- app_assoc, H2, app_assoc. done.
Qed.

Lemma settle_in_order f fs s r s' th' es : takes s r → settle f fs r = (s', th', es) → in_order s s' es.
Proof.
  destruct r as [[signal [n|p]] s1]; intros (Hq & _ & _) H; unfold settle in H; unfold in_order, waiting.
  - cbn in Hq. unfold leave in H. injection H as <- <- <-. unfold queued, started. rewrite !omap_app, Hq.
    rewrite !omap_map_none by done. cbn. by rewrite app_nil_r.
  - injection H as <- <- <-.
    destruct p; cbn in Hq; try done; first [rewrite Hq | destruct Hq as [_ Hq]; rewrite Hq]; cbn; by rewrite app_nil_r.
Qed.

(** Steps that leave the queue alone, and pushes. *)
Lemma in_order_same s s' es : op_queue_ s' = op_queue_ s → queued es = [] → started es = [] → in_order s s' es.
Proof. unfold in_order, waiting. intros -> -> ->. by rewrite app_nil_r. Qed.

Lemma in_order_push ops s s' :
  waiting s' = waiting s ++ ops → in_order s s' (map Queued ops).
Proof. unfold in_order. intros ->. rewrite queued_of. unfold started. by rewrite omap_map_none. Qed.

Lemma settle_in_order_after f fs s0 s r es0 s' th' es :
  in_order s0 s es0 → takes s r → with_events es0 (settle f fs r) = (s', th', es) → in_order s0 s' es.
Proof.
  intros H0 Hr H. destruct (settle f fs r) as [[s1 th1] es1] eqn:E. injection H as <- <- <-.
  eapply in_order_app; [done|]. by eapply settle_in_order.
Qed.

Lemma nested_poll_in_order f fs s s' fs' es : nested_poll f fs s = (s', fs', es) → in_order s s' es.
Proof.
  unfold nested_poll. destruct (fmode f), fs as [|outer rest]; try (intros [= <- <- <-]; by apply in_order_same);
    (destruct (one_thread_ s); intros [= <- <- <-]; [apply in_order_push, queue_push_waiting|by apply in_order_same]).
Qed.

Lemma pc_step_in_order f fs s s' th' es : pc_step f fs s = Some (s', th', es) → in_order s s' es.
Proof.
  intros H. unfold pc_step in H. destruct (fpc f) as [| | |u| | |o c|e|e]; try done.
  - destruct (nested_poll f fs s) as [[s1 fs1] es1] eqn:E. injection H as H.
    eapply settle_in_order_after; [by eapply nested_poll_in_order|apply turn_takes|done].
  - injection H as H. eapply settle_in_order; [apply after_wait_takes|done].
  - injection H as <- <- <-. apply in_order_same; [|done..]. by destruct (_ >? _).
  - injection H as H. eapply settle_in_order_after; [|apply after_task_takes|done]. apply in_order_push.
    unfold waiting. cbn. rewrite omap_app. cbn. rewrite app_nil_r.
    apply (queue_push_waiting _ (set_task_interrupted_ true s)).
  - destruct (work_cleanup e f s) as [[f1 finished] s1] eqn:E. injection H as <- <- <-. apply in_order_same; [|done..].
    unfold work_cleanup, work_finished in E. repeat case_match; by simplify_eq.
  - destruct e.
    + injection H as <- <- <-. unfold leave. cbn. eapply in_order_app; [apply in_order_push, queue_push_waiting|].
      by apply in_order_same.
    + injection H as H. eapply settle_in_order_after; [|apply after_handler_takes|done].
      apply in_order_push, queue_push_waiting.
Qed.

Lemma posted_quiet ops es : queued es = [] → started es = [] → queued (map Posted ops ++ es) = [] ∧ started (map Posted ops ++ es) = [].
Proof. unfold queued, started. intros. rewrite !omap_app, !omap_map_none by done. done. Qed.

Lemma posted_in_order ops es s s' :
  op_queue_ s' = op_queue_ s → queued es = [] → started es = [] → in_order s s' (map Posted ops ++ es).
Proof. intros. destruct (posted_quiet ops es); [done..|]. by apply in_order_same. Qed.

Lemma post_queue inline ops fs work s : op_queue_ (post inline ops fs work s).1 = op_queue_ s.
Proof. unfold post. by destruct inline, fs. Qed.

Lemma call_step_in_order fs a s s' th' es : call_step fs a s = Some (s', th', es) → in_order s s' es.
Proof.
  unfold call_step. intros H. destruct a; try done;
    try (injection H as <- <- <-; by apply in_order_same).
  - destruct (_ =? _); injection H as <- <- <-; by apply in_order_same.
  - destruct (forallb _ _); [|done]. pose proof (post_queue (one_thread_ s || is_continuation) ops fs (zlen ops) s) as Hq.
    destruct (post _ _ _ _ _) as [s1 th1]. injection H as <- <- <-. rewrite <- (app_nil_r (map _ _)). by apply posted_in_order.
  - destruct ops as [|o ops]; [injection H as <- <- <-; by apply in_order_same|].
    destruct (forallb _ _); [|done]. pose proof (post_queue (one_thread_ s) (o :: ops) fs 0 s) as Hq.
    destruct (post _ _ _ _ _) as [s1 th1]. injection H as <- <- <-. by apply (posted_in_order (o :: ops)).
  - destruct (counted o); [|done]. injection H as <- <- <-. by apply in_order_same.
  - destruct (_ && _); [|injection H as <- <- <-; by apply in_order_same].
    destruct (wake_one_thread_and_unlock _) as [signal s1] eqn:E. apply wake_one_keeps in E as (_ & Eq & _).
    injection H as <- <- <-. unfold in_order, waiting. rewrite Eq. cbn. rewrite omap_app. cbn. by rewrite !app_nil_r.
Qed.

Lemma handler_step_in_order o covered f fs a s s' th' es :
  handler_step o covered f fs a s = Some (s', th', es) → in_order s s' es.
Proof.
  intros H. unfold handler_step in H. destruct a, covered; try (by eapply call_step_in_order);
    try (destruct (counted _); [|done]); injection H as <- <- <-; by apply in_order_same.
Qed.

Lemma thread_step_in_order th a s s' th' es : thread_step th a s = Some (s', th', es) → in_order s s' es.
Proof.
  unfold thread_step. intros H. destruct (frames th) as [|f fs]; [by eapply call_step_in_order|].
  destruct (fpc f) as [| | |u| | |o c|e|e]; destruct a; try done; try (by eapply pc_step_in_order);
    try (injection H as <- <- <-; by apply posted_in_order); by eapply handler_step_in_order.
Qed.

Lemma local_in_order th s a th' s' es : local th s a th' s' es → in_order s s' es.
Proof.
  destruct 1 as [Hw|ops rest signal s' Ht H|rest Ht|w' rest Ht|a th' s' es Ht H];
    try (by apply in_order_same); [| |by eapply thread_step_in_order].
  - apply wake_one_keeps in H as (_ & Hq & _). apply in_order_push. unfold waiting. rewrite Hq. apply queue_push_waiting.
  - apply in_order_same; [|done..]. unfold stop_all_threads, interrupt_task. by destruct (_ && _).
Qed.

Lemma run_in_order y schedule y' es :
  Forall (λ ia, ia.2 ≠ Shutdown) schedule → run y schedule = Some (y', es) → in_order (sched y) (sched y') es.
Proof.
  revert y es. induction schedule as [|[i a] schedule IH]; intros y es Ha; cbn.
  - intros [= <- <-]. by apply in_order_same.
  - inversion Ha as [|? ? Hne Ha']; subst.
    destruct (step y i a) as [[y1 es1]|] eqn:E; [|done]. cbn. destruct (run y1 schedule) as [[y2 es2]|] eqn:E2; [|done].
    intros [= <- <-]. destruct (step_local _ _ _ _ _ E) as [(th & th' & _ & Hl & _)|(-> & _)]; [|done].
    eapply in_order_app; [by eapply local_in_order|by apply IH].
Qed.

(** ** Operations are delivered *)

Definition posted (es : list event) : list operation := omap (λ e, match e with Posted o => Some o | _ => None end) es.
Definition completed (es : list event) : list operation := omap (λ e, match e with Completed o => Some o | _ => None end) es.
Definition destroyed (es : list event) : list operation := omap (λ e, match e with Destroyed o => Some o | _ => None end) es.

Definition held_by_frame f : list operation :=
  private_op_queue f ++ match fpc f with InHandler o _ => [o] | _ => [] end.
Definition held_by_thread th : list operation :=
  (frames th ≫= held_by_frame) ++ (todo th ≫= λ m, match m with Push ops => ops | _ => [] end).
(** The operations in the queue, on the private queues, being posted and being
    completed. *)
Definition held y : list operation := waiting (sched y) ++ (threads y ≫= held_by_thread).

Lemma zsum_bind {A B} (g : A → list B) (h : B → Z) l : zsum h (l ≫= g) = zsum (λ x, zsum h (g x)) l.
Proof. induction l as [|x l IH]; [done|]. rewrite bind_cons. zsums. by rewrite IH. Qed.

Lemma zsum_ext {A} (g h : A → Z) l : (∀ x, g x = h x) → zsum g l = zsum h l.
Proof. intros H. induction l as [|x l IH]; [done|]. zsums. by rewrite IH, H. Qed.

Lemma held_weight w y : zsum w (held y) = system_weight w y.
Proof.
  unfold held, system_weight, queue_weight, waiting. rewrite zsum_app, zsum_bind. f_equal.
  - induction (op_queue_ (sched y)) as [|[|o] q IH]; [done| |]; cbn; zsums; by rewrite IH.
  - apply zsum_ext. intros th. unfold held_by_thread, thread_weight. rewrite zsum_app, !zsum_bind. f_equal; apply zsum_ext.
    + intros f. unfold held_by_frame, frame_weight. rewrite zsum_app. f_equal. destruct (fpc f); cbn; zsums; lia.
    + by intros [].
Qed.

Lemma flow_weight w es : zsum (flow w) es = zsum w (posted es) - zsum w (completed es) - zsum w (destroyed es).
Proof.
  unfold posted, completed, destroyed. induction es as [|e es IH]; [done|]. rewrite zsum_cons, IH.
  destruct e; cbn; zsums; lia.
Qed.

Lemma system_make_weight w b n : system_weight w (system_make b n) = 0.
Proof. unfold system_weight. cbn. induction n as [|n IH]; [done|]. cbn. zsums. rewrite Z.add_0_l in *. by rewrite IH. Qed.

(** C21: Under every schedule of any number of threads, with nested calls, handlers
    that throw and spurious wake-ups, every operation posted to the scheduler has been
    completed once, or is still held once, in the queue, on a private queue or in a
    thread, or was destroyed by shutdown; and until shutdown the operations have
    started in the order in which they went on the queue. *)
Theorem scheduler_delivers one_thread n schedule y es :
  run (system_make one_thread n) schedule = Some (y, es) →
  posted es ≡ₚ completed es ++ destroyed es ++ held y ∧
  (Forall (λ ia, ia.2 ≠ Shutdown) schedule → queued es = started es ++ waiting (sched y)).
Proof.
  intros H. split.
  - apply perm_of_zsum. intros w. zsums. rewrite held_weight, (run_weight _ _ _ _ _ H), system_make_weight, flow_weight. lia.
  - intros Hs. by pose proof (run_in_order _ _ _ _ Hs H).
Qed.

Lemma scheduler_delivers_witness :
  ∃ y es, run (system_make false 3) demo = Some (y, es) ∧
    posted es ≡ₚ completed es ++ destroyed es ++ held y ∧
    (Forall (λ ia, ia.2 ≠ Shutdown) demo → queued es = started es ++ waiting (sched y)).
Proof. eexists _, _. split; [exact demo_runs|]. apply (scheduler_delivers false 3 demo). exact demo_runs. Defined.

(** ** The count of outstanding work *)

Definition work_of (o : operation) : Z := Z.b2z (counted o).

(** What a call in progress has in hand beyond the operations it holds. *)
Definition pc_extra (p : pc) : Z :=
  match p with InHandler o covered => Z.b2z covered - work_of o | WorkCleanup _ => 1 | _ => 0 end.
Definition frame_extra f : Z := pc_extra (fpc f) - private_outstanding_work f.
Definition thread_extra th : Z := zsum frame_extra (frames th).

(** Private work is there for operations on the private queue, or covers the handler. *)
Definition frame_ok f : Prop :=
  0 ≤ private_outstanding_work f ≤
    match fpc f with
    | InHandler _ covered => zsum work_of (private_op_queue f) + Z.b2z covered
    | WorkCleanup _ => zsum work_of (private_op_queue f) + 1
    | _ => 0
    end.

Definition owed (e : event) : Z :=
  match e with Posted o => work_of o | Completed o => - work_of o | Work n => n | _ => 0 end.

(** The work begun for what is not in the scheduler and not ended. *)
Definition credit (es : list event) : Z := zsum (λ e, match e with Work n => n | _ => 0 end) es.

Definition works s th s' th' (es : list event) : Prop :=
  Forall frame_ok (frames th') ∧ one_thread_ s' = false ∧
  outstanding_work_ s' - thread_extra th' = outstanding_work_ s - thread_extra th + zsum owed es.

Lemma work_nonneg ops : 0 ≤ zsum work_of ops.
Proof. apply zsum_nonneg, Forall_true. intros o. unfold work_of. destruct (counted o); cbn; lia. Qed.

Lemma counted_zsum ops : counted_work ops = zsum work_of ops.
Proof.
  unfold counted_work. induction ops as [|o ops IH]; [done|]. rewrite filter_cons, zsum_cons, <- IH. unfold work_of.
  destruct (decide (counted o)) as [Ho|Ho]; destruct (counted o); rewrite ?zlen_cons; cbn in *; done || lia.
Qed.

Lemma all_counted ops : forallb counted ops = true → zsum work_of ops = zlen ops.
Proof.
  induction ops as [|o ops IH]; [done|]. cbn. intros [Ho H]%andb_prop. rewrite zsum_cons, zlen_cons, IH by done.
  unfold work_of. rewrite Ho. done.
Qed.

Lemma owed_quiet {A} (g : A → event) l : (∀ x, owed (g x) = 0) → zsum owed (map g l) = 0.
Proof. intros H. rewrite zsum_map. by apply zsum_zero. Qed.
Lemma posted_owed ops : zsum owed (map Posted ops) = zsum work_of ops.
Proof. by rewrite zsum_map. Qed.

Lemma settle_owed f fs s r s' th' es :
  takes s r → settle f fs r = (s', th', es) → one_thread_ s = false → private_outstanding_work f = 0 → Forall frame_ok fs →
  Forall frame_ok (frames th') ∧ one_thread_ s' = false ∧
  outstanding_work_ s' - thread_extra th' = outstanding_work_ s - zsum frame_extra fs + zsum owed es.
Proof.
  destruct r as [[signal [n|p]] s1]; intros (Hq & (Ho & _ & _ & H1 & _) & _) H H1' Hf Hfs; unfold settle in H.
  - unfold leave in H. injection H as <- <- <-. cbn. split_and!; [done|congruence|]. unfold thread_extra. cbn. zsums.
    rewrite owed_quiet by done. cbn. lia.
  - injection H as <- <- <-. cbn. split_and!; [|congruence|].
    + constructor; [|done]. unfold frame_ok. cbn. rewrite Hf.
      destruct p; try lia; try done. pose proof (work_nonneg (private_op_queue f)). destruct covered; cbn; lia.
    + unfold thread_extra. cbn. zsums. unfold frame_extra at 1. cbn. rewrite Hf, Ho.
      destruct p; cbn in Hq; try done; try (destruct Hq as [-> _]); cbn; zsums; cbn; unfold work_of; lia.
Qed.

Lemma settle_works f fs s0 s r es0 s' th' es :
  takes s r → with_events es0 (settle f fs r) = (s', th', es) → zsum owed es0 = 0 → one_thread_ s = false →
  private_outstanding_work f = 0 → Forall frame_ok fs → outstanding_work_ s = outstanding_work_ s0 →
  works s0 (mkThread fs []) s' th' es.
Proof.
  intros Hr H H0 H1 Hf Hfs Ho. destruct (settle f fs r) as [[s1 th1] es1] eqn:E. injection H as <- <- <-.
  destruct (settle_owed _ _ _ _ _ _ _ Hr E H1 Hf Hfs) as (Hf' & H1' & Ho'). split_and!; [done|done|].
  unfold thread_extra at 2. cbn. zsums. rewrite H0, Ho', Ho. lia.
Qed.

Lemma nested_poll_many f fs s : one_thread_ s = false → nested_poll f fs s = (s, fs, []).
Proof. intros H. unfold nested_poll. destruct (fmode f), fs; rewrite ?H; done. Qed.

(** A frame between a handler and the next thing it runs has nothing extra. *)
Lemma extra_quiet f fs s s' th' es :
  frame_extra f = 0 → works s (mkThread fs []) s' th' es → works s (mkThread (f :: fs) []) s' th' es.
Proof.
  intros Hf (H & H1 & Ho). split_and!; [done|done|]. rewrite Ho. unfold thread_extra. cbn. zsums. lia.
Qed.

Lemma work_cleanup_works e f s f' finished s' fs :
  work_cleanup e f s = (f', finished, s') → frame_ok f → fpc f = WorkCleanup e → Forall frame_ok fs → one_thread_ s = false →
  works s (mkThread (f :: fs) []) s' (mkThread (f' :: fs) finished) [].
Proof.
  intros H Hf Hpc Hfs H1. unfold frame_ok in Hf. rewrite Hpc in Hf.
  assert (Hw : f' = set_pc (WorkRelock e) (drop_private_work f) ∧ one_thread_ s' = one_thread_ s ∧
    outstanding_work_ s' = outstanding_work_ s + private_outstanding_work f - 1).
  { unfold work_cleanup, work_finished in H. repeat case_match; simplify_eq; cbn; split_and!; try done; lia. }
  destruct Hw as (-> & H1' & Ho). split_and!; [|congruence|].
  - constructor; [|done]. unfold frame_ok. cbn. lia.
  - unfold thread_extra. cbn. zsums. unfold frame_extra at 1 3. cbn. rewrite Hpc, Ho. cbn. lia.
Qed.

Lemma pc_step_works f fs s s' th' es :
  pc_step f fs s = Some (s', th', es) → Forall frame_ok (f :: fs) → one_thread_ s = false →
  works s (mkThread (f :: fs) []) s' th' es.
Proof.
  intros H [Hf Hfs]%Forall_cons_1 H1. unfold pc_step in H. unfold frame_ok in Hf.
  destruct (fpc f) as [| | |u| | |o c|e|e] eqn:Hpc; try done;
    try (assert (Hw : private_outstanding_work f = 0) by lia;
         assert (Hx : frame_extra f = 0) by (unfold frame_extra; rewrite Hpc; cbn; lia)).
  - rewrite nested_poll_many in H by done. injection H as H. apply extra_quiet; [done|].
    by eapply settle_works; [apply turn_takes|..].
  - injection H as H. apply extra_quiet; [done|].
    eapply (settle_works _ _ _ s _ []); [apply after_wait_takes| |done..]. by rewrite H.
  - injection H as <- <- <-. unfold task_cleanup. cbn. rewrite Hw. cbn. split_and!; [|done|].
    + constructor; [|done]. unfold frame_ok. cbn. lia.
    + unfold thread_extra. cbn. zsums. rewrite Hx. unfold frame_extra at 1. cbn. lia.
  - injection H as H. apply extra_quiet; [done|].
    eapply settle_works; [apply after_task_takes|done|by apply owed_quiet|done..].
  - destruct (work_cleanup e f s) as [[f1 finished] s1] eqn:E. injection H as <- <- <-.
    eapply work_cleanup_works; try done. unfold frame_ok. by rewrite Hpc.
  - apply extra_quiet; [done|]. destruct e.
    + injection H as <- <- <-. unfold leave. cbn. split_and!; [done|done|].
      unfold thread_extra. cbn. zsums. rewrite owed_quiet by done. cbn. lia.
    + injection H as H. eapply settle_works; [apply after_handler_takes|done|by apply owed_quiet|done..].
Qed.

Lemma post_works inline ops fs work s s' th' :
  post inline ops fs work s = (s', th') → one_thread_ s = false → Forall frame_ok fs → 0 ≤ work ≤ zsum work_of ops →
  (∀ f rest, fs = f :: rest → ∃ o c, fpc f = InHandler o c) →
  Forall frame_ok (frames th') ∧ one_thread_ s' = false ∧
  outstanding_work_ s' - thread_extra th' = outstanding_work_ s - zsum frame_extra fs + work.
Proof.
  intros H H1 Hfs Hw Hpc. unfold post in H. unfold thread_extra.
  destruct inline, fs as [|f rest]; injection H as <- <-; cbn; split_and!; try done; zsums; cbn; try lia.
  - apply Forall_cons_1 in Hfs as [Hf Hfs]. constructor; [|done]. destruct (Hpc f rest eq_refl) as (o & c & E).
    unfold frame_ok in *. cbn. rewrite E in *. zsums. lia.
  - unfold frame_extra at 1 3. cbn. lia.
Qed.

(** What runs code of the program: no call of the scheduler, or a handler. *)
Definition in_program (fs : list frame) : Prop := ∀ f rest, fs = f :: rest → ∃ o c, fpc f = InHandler o c.

Lemma post_call_works inline ops fs work s s' th' s0 es :
  post inline ops fs work s = (s', th') → one_thread_ s = false → Forall frame_ok fs → 0 ≤ work ≤ zsum work_of ops →
  in_program fs → s0 = s → zsum owed es = work → works s0 (mkThread fs []) s' th' es.
Proof.
  intros H H1 Hfs Hw Hpc -> He. destruct (post_works _ _ _ _ _ _ _ H H1 Hfs Hw Hpc) as (Hf & H1' & Ho).
  split_and!; [done|done|]. rewrite Ho, He. unfold thread_extra. cbn. lia.
Qed.

Lemma call_step_works fs a s s' th' es :
  call_step fs a s = Some (s', th', es) → one_thread_ s = false → Forall frame_ok fs → in_program fs →
  works s (mkThread fs []) s' th' es.
Proof.
  unfold call_step. intros H H1 Hfs Hpc. destruct a; try done;
    try (injection H as <- <- <-; split_and!; [done|done|]; unfold thread_extra; cbn; zsums; cbn; lia).
  - assert (Hnew : frame_extra (mkFrame m Locking [] 0 0) = 0) by done.
    destruct (_ =? _); injection H as <- <- <-; (split_and!; [by repeat constructor|done|]);
      unfold thread_extra; cbn; zsums; rewrite ?Hnew; cbn; lia.
  - destruct (forallb counted ops) eqn:Hc; [|done]. destruct (post _ _ _ _ _) as [s1 th1] eqn:E. injection H as <- <- <-.
    apply all_counted in Hc. pose proof (zlen_nonneg ops).
    eapply post_call_works; [done..| |done|done|by rewrite posted_owed]. lia.
  - destruct ops as [|o ops].
    + injection H as <- <- <-. split_and!; [done|done|]. unfold thread_extra. cbn. zsums. lia.
    + destruct (forallb counted (o :: ops)) eqn:Hc; [|done]. destruct (post _ _ _ _ _) as [s1 th1] eqn:E.
      injection H as <- <- <-. apply all_counted in Hc. pose proof (zlen_nonneg (o :: ops)).
      eapply post_call_works; [done..| |done|done|]; [lia|].
      change (zsum owed (map Posted (o :: ops) ++ [Work (- zlen (o :: ops))]) = 0).
      rewrite zsum_app, posted_owed, Hc, zsum_cons, zsum_nil. unfold owed. lia.
  - destruct (counted o) eqn:Hc; [|done]. destruct (post _ _ _ _ _) as [s1 th1] eqn:E. injection H as <- <- <-.
    eapply post_call_works; [done..| |done|done|]; zsums; cbn; unfold work_of; rewrite Hc; cbn; lia.
  - destruct (_ && _).
    + destruct (wake_one_thread_and_unlock _) as [signal s1] eqn:E. apply wake_one_keeps in E as ((Eo & _ & _ & E1 & _) & _ & _).
      injection H as <- <- <-. split_and!; [done|by rewrite E1|]. unfold thread_extra. cbn. rewrite Eo. cbn. zsums. lia.
    + injection H as <- <- <-. split_and!; [done|done|]. unfold thread_extra. cbn. zsums. lia.
Qed.

Lemma handler_step_works o covered f fs a s s' th' es :
  handler_step o covered f fs a s = Some (s', th', es) → fpc f = InHandler o covered → one_thread_ s = false →
  Forall frame_ok (f :: fs) → works s (mkThread (f :: fs) []) s' th' es.
Proof.
  intros H Hpc H1 Hfs.
  assert (Hcall : call_step (f :: fs) a s = Some (s', th', es) → works s (mkThread (f :: fs) []) s' th' es).
  { intros Hc. eapply call_step_works; [done..|]. intros f' rest [= <- <-]. by exists o, covered. }
  apply Forall_cons_1 in Hfs as [Hf Hfs]. unfold frame_ok in Hf. rewrite Hpc in Hf.
  unfold handler_step in H. destruct a, covered; try (by apply Hcall);
    try (destruct (counted o0) eqn:Hc; [|done]); injection H as <- <- <-;
    (split_and!; [constructor; [unfold frame_ok; cbn; zsums; cbn in *; lia|done]|done|]);
    unfold thread_extra; cbn; zsums; unfold frame_extra at 1 3; cbn; rewrite Hpc; cbn; unfold work_of; try rewrite Hc; cbn; lia.
Qed.

Definition thread_ok th : Prop := Forall frame_ok (frames th).

Lemma thread_step_works th a s s' th' es :
  thread_step th a s = Some (s', th', es) → todo th = [] → one_thread_ s = false → thread_ok th → works s th s' th' es.
Proof.
  unfold thread_step, thread_ok. intros H Ht H1 Hok. destruct th as [fs t]. cbn in *. subst t.
  destruct fs as [|f fs]; [by eapply call_step_works|].
  destruct (fpc f) as [| | |u| | |o c|e|e] eqn:Hpc; [..|by eapply handler_step_works| |]; destruct a; try done;
    try (by eapply pc_step_works).
  injection H as <- <- <-. apply Forall_cons_1 in Hok as [Hf Hfs]. unfold frame_ok in Hf. rewrite Hpc in Hf. split_and!; [|done|].
  - constructor; [|done]. unfold frame_ok. cbn. lia.
  - unfold thread_extra. cbn. zsums. unfold frame_extra at 1 3. cbn. rewrite Hpc, posted_owed, counted_zsum. cbn. lia.
Qed.

Lemma local_works th s a th' s' es :
  local th s a th' s' es → one_thread_ s = false → thread_ok th → works s th s' th' es.
Proof.
  destruct 1 as [Hw|ops rest signal s' Ht H|rest Ht|w' rest Ht|a th' s' es Ht H]; intros H1 Hok.
  - unfold wake. rewrite Hw. unfold is_waiting in Hw. destruct th as [[|f fs] t]; cbn in *; [done|].
    destruct (fpc f) eqn:Hpc; try done. apply Forall_cons_1 in Hok as [Hf Hfs]. unfold frame_ok in Hf. rewrite Hpc in Hf.
    split_and!; [by constructor|done|]. unfold thread_extra. cbn. zsums. unfold frame_extra at 1 3. cbn. rewrite Hpc. cbn. lia.
  - apply wake_one_keeps in H as ((Ho & _ & _ & E1 & _) & _ & _). split_and!; [done|by rewrite E1|].
    rewrite owed_quiet, Ho by done. unfold thread_extra. cbn. lia.
  - split_and!; [done| |]; unfold stop_all_threads, interrupt_task, thread_extra; destruct (_ && _); cbn; zsums; try done; lia.
  - split_and!; [done|done|]. unfold thread_extra. cbn. zsums. lia.
  - by eapply thread_step_works.
Qed.

Lemma wake_ok th : thread_ok th → thread_ok (wake th).
Proof.
  unfold thread_ok, wake. destruct (is_waiting th) eqn:Hw; [|done]. unfold is_waiting in Hw.
  destruct th as [[|f fs] t]; cbn in *; [done|]. destruct (fpc f) eqn:Hpc; try done.
  intros [Hf Hfs]%Forall_cons_1. constructor; [|done]. unfold frame_ok in *. by rewrite Hpc in Hf.
Qed.

Lemma wake_extra th : thread_extra (wake th) = thread_extra th.
Proof.
  unfold thread_extra, wake. destruct (is_waiting th) eqn:Hw; [|done]. unfold is_waiting in Hw.
  destruct th as [[|f fs] t]; cbn in *; [done|]. destruct (fpc f) eqn:Hpc; try done.
  zsums. unfold frame_extra at 1 3. by rewrite Hpc.
Qed.

Definition system_works y (es : list event) : Prop :=
  Forall thread_ok (threads y) ∧ one_thread_ (sched y) = false ∧
  outstanding_work_ (sched y) = zsum thread_extra (threads y) + zsum owed es.

Lemma shutdown_owed s : zsum owed (shutdown s).2 = 0.
Proof. unfold shutdown. cbn. induction (op_queue_ s) as [|[|o] q IH]; [done|done|]. cbn. zsums. by rewrite IH. Qed.

Lemma step_works y i a y' es es' :
  step y i a = Some (y', es') → system_works y es → system_works y' (es ++ es').
Proof.
  intros H (Hok & H1 & Ho). unfold system_works. rewrite zsum_app.
  destruct (step_local _ _ _ _ _ H) as [(th & th' & Hi & Hl & Hw)|(_ & Hidle & Hs & ->)].
  - pose proof (Forall_lookup_1 _ _ _ _ Hok Hi) as Hth. destruct (local_works _ _ _ _ _ _ Hl H1 Hth) as (Hth' & H1' & Ho').
    split_and!; [|done|].
    + eapply woken_Forall; [apply wake_ok|done|]. by apply Forall_insert.
    + rewrite (woken_sum _ _ _ wake_extra Hw), (zsum_insert _ _ _ _ _ Hi). lia.
  - pose proof (shutdown_owed (sched y)) as Hd. rewrite Hs in Hd. unfold shutdown in Hs. injection Hs as <- _.
    split_and!; [done|done|]. cbn in *. lia.
Qed.

Lemma system_make_works n : system_works (system_make false n) [].
Proof.
  split_and!; [by apply Forall_replicate; constructor|done|]. cbn. rewrite zsum_nil, Z.add_0_r.
  induction n as [|n IH]; [done|]. cbn. rewrite zsum_cons, <- IH. done.
Qed.

Lemma owed_weight es : zsum owed es = zsum work_of (posted es) - zsum work_of (completed es) + credit es.
Proof.
  unfold posted, completed, credit. induction es as [|e es IH]; [done|]. rewrite !zsum_cons, IH.
  destruct e; cbn; zsums; lia.
Qed.

Lemma thread_due th : thread_ok th → 0 ≤ thread_weight work_of th + thread_extra th.
Proof.
  unfold thread_ok, thread_weight, thread_extra. intros Hok.
  assert (Ht : 0 ≤ zsum (micro_weight work_of) (todo th)).
  { apply zsum_nonneg, Forall_true. intros [ops| |]; cbn; [apply work_nonneg|lia..]. }
  enough (0 ≤ zsum (frame_weight work_of) (frames th) + zsum frame_extra (frames th)) by lia. clear Ht.
  induction Hok as [|f fs Hf _ IH]; [done|]. zsums. unfold frame_weight at 1. unfold frame_extra at 1.
  pose proof (work_nonneg (private_op_queue f)). unfold frame_ok in Hf.
  destruct (fpc f); cbn in *; unfold work_of in *; lia.
Qed.

(** The count against the operations that are waiting, and the credit. *)
Lemma works_count y es :
  system_works y es → system_weight work_of y = zsum (flow work_of) es →
  credit es + zsum work_of (destroyed es) + zsum work_of (waiting (sched y)) ≤ outstanding_work_ (sched y).
Proof.
  intros (Hok & _ & Ho) Hw. rewrite flow_weight in Hw. rewrite owed_weight in Ho. unfold system_weight in Hw.
  assert (Hq : queue_weight work_of (sched y) = zsum work_of (waiting (sched y))).
  { unfold queue_weight, waiting. induction (op_queue_ (sched y)) as [|[|o] q IH]; [done| |]; cbn; zsums; by rewrite IH. }
  enough (0 ≤ zsum (thread_weight work_of) (threads y) + zsum thread_extra (threads y)) by lia. clear -Hok.
  induction Hok as [|th ths Hth _ IH]; [done|]. zsums. pose proof (thread_due th Hth). lia.
Qed.

(** Under the scheduler's use by several threads the count never loses work: it is at
    least the work begun elsewhere and not ended, and the operations that wait. *)
Lemma run_works n schedule y es :
  run (system_make false n) schedule = Some (y, es) →
  system_works y es ∧ credit es + zsum work_of (destroyed es) + zsum work_of (waiting (sched y)) ≤ outstanding_work_ (sched y).
Proof.
  intros H. assert (Hw : system_works y es).
  { pose proof (system_make_works n) as H0. rewrite <- (app_nil_l es). revert H H0.
    generalize (system_make false n) (@nil event). revert y es.
    induction schedule as [|[i a] schedule IH]; intros y es y0 es0; cbn.
    - intros [= <- <-]. by rewrite app_nil_r.
    - destruct (step y0 i a) as [[y1 es1]|] eqn:E; [|done]. cbn. destruct (run y1 schedule) as [[y2 es2]|] eqn:E2; [|done].
      intros [= <- <-] H0. rewrite app_assoc. eapply IH; [done|]. by eapply step_works. }
  split; [done|]. apply works_count; [done|]. rewrite (run_weight _ _ _ _ _ H), system_make_weight. lia.
Qed.

(** ** A loop with work goes on *)

Lemma run_leaves_stopped s r n :
  r ∈ [turn Run s; after_wait Run s; after_task Run s; after_handler Run s] → r.1.2 = Leaves n → stopped_ s = true.
Proof.
  assert (H : ∀ s, (do_run_one s).1.2 = Leaves n → stopped_ s = true).
  { intros s0. unfold do_run_one, run_task, run_operation, clear_and_wait.
    destruct (stopped_ s0); [done|]. destruct (op_queue_ s0) as [|[|o] q]; [done| |]; by repeat case_match. }
  rewrite !elem_of_cons, elem_of_nil. intros [-> | [-> | [-> | [-> | []]]]]; try (by apply H).
  unfold after_wait. destruct (signalled _); [|done]. intros Hl. by apply H in Hl.
Qed.

Definition no_stop th : Prop := StopAll ∉ todo th.

Ltac no_stop_here := unfold no_stop; cbn; rewrite ?elem_of_cons, ?elem_of_nil; naive_solver.

Definition no_return (es : list event) : Prop := ∀ n, Returned Run n ∉ es.

Lemma no_return_map {A} (g : A → event) l : (∀ x n, g x ≠ Returned Run n) → no_return (map g l).
Proof. intros H n (x & Hx & _)%list_elem_of_fmap. by eapply H. Qed.
Lemma no_return_app es es' : no_return es → no_return es' → no_return (es ++ es').
Proof. intros H H' n [?|?]%elem_of_app; [by eapply H|by eapply H']. Qed.
Lemma no_return_one e : (∀ n, e ≠ Returned Run n) → no_return [e].
Proof. intros H n ?%list_elem_of_singleton. by eapply H. Qed.
Lemma no_return_nil : no_return [].
Proof. intros n. apply not_elem_of_nil. Qed.

#[local] Hint Resolve no_return_nil : core.
#[local] Hint Extern 1 (no_return (_ ++ _)) => apply no_return_app : core.
#[local] Hint Extern 1 (no_return (map _ _)) => by apply no_return_map : core.
#[local] Hint Extern 1 (no_return [_]) => by apply no_return_one : core.

Lemma signals_no_stop signal fs : signal = [] ∨ signal = [Signal] → no_stop (mkThread fs signal).
Proof. by intros [-> | ->]; no_stop_here. Qed.

Lemma settle_goes_on f fs s r s' th' es :
  takes s r → settle f fs r = (s', th', es) → stopped_ s = false → (fmode f = Run → ∀ n, r.1.2 ≠ Leaves n) →
  stopped_ s' = false ∧ no_stop th' ∧ no_return es.
Proof.
  destruct r as [[signal [n|p]] s1]; intros (_ & (_ & Hst & _) & Hs) H H0 Hm; unfold settle in H.
  - unfold leave in H. injection H as <- <- <-. split_and!; [congruence|by apply signals_no_stop|].
    apply no_return_app; [auto|]. apply no_return_one. intros n' [= E _]. by apply (Hm E n).
  - injection H as <- <- <-. split_and!; [congruence|by apply signals_no_stop|]. destruct p; auto.
Qed.

Lemma settle_goes_on_after f fs s r es0 s' th' es :
  takes s r → with_events es0 (settle f fs r) = (s', th', es) → stopped_ s = false → no_return es0 →
  (fmode f = Run → r ∈ [turn Run s; after_wait Run s; after_task Run s; after_handler Run s]) →
  stopped_ s' = false ∧ no_stop th' ∧ no_return es.
Proof.
  intros Hr H H0 He Hm. destruct (settle f fs r) as [[s1 th1] es1] eqn:E. injection H as <- <- <-.
  destruct (settle_goes_on _ _ _ _ _ _ _ Hr E H0) as (? & ? & ?); [|by auto].
  intros Hrun n Hn. pose proof (run_leaves_stopped _ _ _ (Hm Hrun) Hn). congruence.
Qed.

Lemma work_finished_goes_on s finished s' :
  work_finished s = (finished, s') → 0 < outstanding_work_ s' → finished = [] ∧ stopped_ s' = stopped_ s.
Proof. unfold work_finished. intros [= <- <-] H. split; [|done]. destruct (_ =? 0) eqn:E; [|done]. cbn in *. lia. Qed.

Lemma work_cleanup_goes_on e f s f' finished s' :
  work_cleanup e f s = (f', finished, s') → 0 < outstanding_work_ s' → finished = [] ∧ stopped_ s' = stopped_ s.
Proof.
  unfold work_cleanup. destruct (_ >? 1); [by intros [= _ <- <-]|]. destruct (_ <? 1); [|by intros [= _ <- <-]].
  destruct (work_finished s) as [fin s1] eqn:E. intros [= _ <- <-]. by apply work_finished_goes_on.
Qed.

Lemma pc_step_goes_on f fs s s' th' es :
  pc_step f fs s = Some (s', th', es) → stopped_ s = false → one_thread_ s = false → 0 < outstanding_work_ s' →
  stopped_ s' = false ∧ no_stop th' ∧ no_return es.
Proof.
  intros H H0 H1 Ho. unfold pc_step in H. destruct (fpc f) as [| | |u| | |o c|e|e]; try done.
  - rewrite nested_poll_many in H by done. injection H as H.
    eapply settle_goes_on_after; [apply turn_takes|done|done|auto|intros E; cbn in E |- *; rewrite E; repeat constructor].
  - injection H as H. eapply (settle_goes_on_after _ _ _ _ []);
      [apply after_wait_takes|by rewrite H|done|auto|intros E; cbn in E |- *; rewrite E; repeat constructor].
  - injection H as <- <- <-. split_and!; [by destruct (_ >? _)|no_stop_here|auto].
  - injection H as H. eapply settle_goes_on_after; [apply after_task_takes|done|done|auto|intros E; cbn in E |- *; rewrite E; repeat constructor].
  - destruct (work_cleanup e f s) as [[f1 finished] s1] eqn:E. injection H as <- <- <-.
    destruct (work_cleanup_goes_on _ _ _ _ _ _ E Ho) as [-> Hs]. split_and!; [congruence|no_stop_here|auto].
  - destruct e.
    + injection H as <- <- <-. unfold leave. cbn. split_and!; [done|no_stop_here|auto].
    + injection H as H. eapply settle_goes_on_after; [apply after_handler_takes|done|done|auto|intros E; cbn in E |- *; rewrite E; repeat constructor].
Qed.

Lemma call_step_goes_on fs a s s' th' es :
  call_step fs a s = Some (s', th', es) → stopped_ s = false → 0 < outstanding_work_ s' → a ≠ Stop →
  stopped_ s' = false ∧ no_stop th' ∧ no_return es.
Proof.
  assert (Hpost : ∀ inline ops work, stopped_ s = false →
    stopped_ (post inline ops fs work s).1 = false ∧ no_stop (post inline ops fs work s).2).
  { intros inline ops work H. unfold post. destruct inline, fs; (split; [done|no_stop_here]). }
  unfold call_step. intros H H0 Ho Ha. destruct a; try done;
    try (injection H as <- <- <-; split_and!; [done|no_stop_here|auto]; fail).
  - destruct (_ =? 0) eqn:E; injection H as <- <- <-; [lia|]. split_and!; [done|no_stop_here|auto].
  - destruct (forallb _ _); [|done]. destruct (Hpost (one_thread_ s || is_continuation) ops (zlen ops) H0).
    destruct (post _ _ _ _ _) as [s1 th1]. injection H as <- <- <-. auto.
  - destruct ops as [|o ops]; [injection H as <- <- <-; split_and!; [done|no_stop_here|auto]|].
    destruct (forallb _ _); [|done]. destruct (Hpost (one_thread_ s) (o :: ops) 0 H0).
    destruct (post _ _ _ _ _) as [s1 th1]. injection H as <- <- <-. split_and!; [done|done|].
    apply (no_return_app (map Posted (o :: ops))); auto.
  - destruct (counted o); [|done]. injection H as <- <- <-. split_and!; [done|no_stop_here|auto].
  - destruct (work_finished s) as [finished s1] eqn:E. injection H as <- <- <-.
    destruct (work_finished_goes_on _ _ _ E Ho) as [-> Hs]. split_and!; [congruence|no_stop_here|auto].
  - destruct (_ && _).
    + destruct (wake_one_thread_and_unlock _) as [signal s1] eqn:E. apply wake_one_keeps in E as ((_ & Es & _) & _ & Hs).
      injection H as <- <- <-. split_and!; [by rewrite Es|by apply signals_no_stop|auto].
    + injection H as <- <- <-. split_and!; [done|no_stop_here|auto].
Qed.

Lemma handler_step_goes_on o covered f fs a s s' th' es :
  handler_step o covered f fs a s = Some (s', th', es) → stopped_ s = false → 0 < outstanding_work_ s' → a ≠ Stop →
  stopped_ s' = false ∧ no_stop th' ∧ no_return es.
Proof.
  intros H H0 Ho Ha. unfold handler_step in H. destruct a, covered; try (by eapply call_step_goes_on);
    try (destruct (counted _); [|done]); injection H as <- <- <-; (split_and!; [done|no_stop_here|]); auto.
  apply (no_return_app [_]); [auto|]. apply (no_return_app [_]); auto.
Qed.

Lemma thread_step_goes_on th a s s' th' es :
  thread_step th a s = Some (s', th', es) → stopped_ s = false → one_thread_ s = false → 0 < outstanding_work_ s' → a ≠ Stop →
  stopped_ s' = false ∧ no_stop th' ∧ no_return es.
Proof.
  intros H H0 H1 Ho Ha. unfold thread_step in H. destruct (frames th) as [|f fs]; [by eapply call_step_goes_on|].
  destruct (fpc f) as [| | |u| | |o c|e|e]; try (by eapply handler_step_goes_on); destruct a; try done;
    try (by eapply pc_step_goes_on).
  injection H as <- <- <-. split_and!; [done|no_stop_here|auto].
Qed.

Lemma local_goes_on th s a th' s' es :
  local th s a th' s' es → stopped_ s = false → one_thread_ s = false → 0 < outstanding_work_ s' → a ≠ Stop → no_stop th →
  stopped_ s' = false ∧ no_stop th' ∧ no_return es.
Proof.
  unfold no_stop at 1.
  destruct 1 as [Hw|ops rest signal s' Ht H|rest Ht|w' rest Ht|a th' s' es Ht H]; intros H0 H1 Ho Ha Hn;
    try rewrite Ht in Hn; try (apply not_elem_of_cons in Hn as [Hne Hn]); try done.
  - split_and!; [done| |auto]. unfold wake, no_stop. destruct (is_waiting th); [|done]. by destruct (frames th).
  - apply wake_one_keeps in H as ((_ & Es & _) & _ & Hs). split_and!; [by rewrite Es| |auto].
    unfold no_stop. cbn. apply not_elem_of_app. split; [by apply (signals_no_stop signal [])|done].
  - by eapply thread_step_goes_on.
Qed.

Lemma wake_no_stop th : no_stop th → no_stop (wake th).
Proof. unfold no_stop, wake. destruct (is_waiting th); [|done]. by destruct (frames th). Qed.

Lemma run_app y sch1 sch2 :
  run y (sch1 ++ sch2) = '(y1, es1) ← run y sch1; '(y2, es2) ← run y1 sch2; Some (y2, es1 ++ es2).
Proof.
  revert y. induction sch1 as [|[i a] sch1 IH]; intros y; cbn.
  - by destruct (run y sch2) as [[]|].
  - destruct (step y i a) as [[y1 es1]|]; [|done]. cbn. rewrite IH. destruct (run y1 sch1) as [[y2 es2]|]; [|done]. cbn.
    destruct (run y2 sch2) as [[y3 es3]|]; [|done]. cbn. by rewrite app_assoc.
Qed.

Lemma run_snoc y sch i a y' es :
  run y (sch ++ [(i, a)]) = Some (y', es) →
  ∃ y1 es1 es2, run y sch = Some (y1, es1) ∧ step y1 i a = Some (y', es2) ∧ es = es1 ++ es2.
Proof.
  rewrite run_app. destruct (run y sch) as [[y1 es1]|] eqn:E; [|done]. cbn.
  destruct (step y1 i a) as [[y2 es2]|] eqn:E2; [|done]. cbn. rewrite app_nil_r. intros [= <- <-]. by exists y1, es1, es2.
Qed.

(** At every time there is work outside the scheduler: a guard, or an operation that
    the reactor waits for. *)
Definition always_work y (schedule : list (nat * action)) : Prop :=
  ∀ first rest y' es, schedule = first ++ rest → first ≠ [] → run y first = Some (y', es) → 0 < credit es.

Lemma run_credit n schedule y es : run (system_make false n) schedule = Some (y, es) → credit es ≤ outstanding_work_ (sched y).
Proof.
  intros H. destruct (run_works _ _ _ _ H) as [_ Hw].
  pose proof (work_nonneg (destroyed es)). pose proof (work_nonneg (waiting (sched y))). lia.
Qed.

Lemma shutdown_goes_on s : no_return (shutdown s).2.
Proof. intros n Hin. apply list_elem_of_omap in Hin as ([|o] & _ & Hx); done. Qed.

Lemma run_goes_on n schedule y es :
  run (system_make false n) schedule = Some (y, es) →
  always_work (system_make false n) schedule → Forall (λ ia, ia.2 ≠ Stop) schedule →
  Forall no_stop (threads y) ∧ stopped_ (sched y) = false ∧ no_return es.
Proof.
  revert y es. induction schedule as [|[i a] sch IH] using rev_ind; intros y es H Hc Ha.
  - injection H as <- <-. split_and!; [by apply Forall_replicate; apply not_elem_of_nil|done|auto].
  - pose proof (Hc (sch ++ [(i, a)]) [] y es ltac:(by rewrite app_nil_r) ltac:(by destruct sch) H) as Hpos.
    pose proof (run_credit _ _ _ _ H) as Hw.
    apply run_snoc in H as (y1 & es1 & es2 & H1 & H2 & ->). apply Forall_app in Ha as [Ha [Ha2 _]%Forall_cons_1].
    destruct (IH y1 es1 H1) as (Hn & Hst & Hr); [|done|].
    { intros first rest y' es' -> Hne Hrun. eapply (Hc first (rest ++ [(i, a)])); [by rewrite app_assoc|done|done]. }
    destruct (run_works _ _ _ _ H1) as [(_ & Hone & _) _].
    destruct (step_local _ _ _ _ _ H2) as [(th & th' & Hi & Hl & Hwk)|(_ & _ & Hs & Hths)].
    + pose proof (Forall_lookup_1 _ _ _ _ Hn Hi) as Hth.
      destruct (local_goes_on _ _ _ _ _ _ Hl Hst Hone ltac:(lia) Ha2 Hth) as (Hst' & Hth' & Hr').
      split_and!; [|done|auto]. eapply woken_Forall; [apply wake_no_stop|done|]. by apply Forall_insert.
    + pose proof (shutdown_goes_on (sched y1)) as Hr'. rewrite Hs in Hr'. rewrite Hths. unfold shutdown in Hs.
      injection Hs as <- _. split_and!; [done|done|auto].
Qed.

(** C22: An event loop on which some work is always begun and not ended, such as the
    io_context::work the program holds for each of its loops, and which nobody stops,
    is never stopped, whatever is posted, completed and thrown: no thread returns from
    run, and the count of outstanding work never reaches zero. *)
Theorem scheduler_keeps_running n schedule y es :
  run (system_make false n) schedule = Some (y, es) →
  always_work (system_make false n) schedule → Forall (λ ia, ia.2 ≠ Stop) schedule →
  stopped_ (sched y) = false ∧ (∀ k, Returned Run k ∉ es) ∧ (schedule ≠ [] → 0 < outstanding_work_ (sched y)).
Proof.
  intros H Hc Ha. destruct (run_goes_on _ _ _ _ H Hc Ha) as (_ & Hst & Hr). split_and!; [done|done|].
  intros Hne. pose proof (run_credit _ _ _ _ H). specialize (Hc schedule [] y es (eq_sym (app_nil_r _)) Hne H). lia.
Qed.

(** Work at every step, by evaluation. *)
Lemma always_work_check y schedule :
  forallb (λ k, match run y (take k schedule) with Some (_, es) => 0 <? credit es | None => true end) (seq 1 (length schedule)) = true →
  always_work y schedule.
Proof.
  intros H first rest y' es -> Hne Hrun. rewrite forallb_forall in H. specialize (H (length first)).
  rewrite take_app_length, Hrun in H. apply Z.ltb_lt, H, in_seq. rewrite length_app. destruct first; [done|cbn; lia].
Qed.

Lemma scheduler_keeps_running_witness :
  ∃ y es, run (system_make false 3) demo = Some (y, es) ∧
    stopped_ (sched y) = false ∧ (∀ k, Returned Run k ∉ es) ∧ (demo ≠ [] → 0 < outstanding_work_ (sched y)).
Proof.
  eexists _, _. split; [exact demo_runs|]. apply (scheduler_keeps_running 3 demo); [exact demo_runs| |by repeat constructor].
  apply always_work_check. vm_compute. reflexivity.
Defined.

(** With one thread, a poll inside a handler takes over what the handler has posted,
    but not the work counted for it: the count reaches zero, and the loop is stopped,
    while the guard is held and the handler runs. *)
Example nested_poll_stops :
  let o k := mkOperation k true in
  ∃ y es, run (system_make true 1)
    [(0%nat, WorkStarted); (0%nat, PostImmediate [o 1%nat] false); (0%nat, Go); (0%nat, Enter Run); (0%nat, Go);
     (0%nat, PostImmediate [o 2%nat; o 3%nat] false); (0%nat, Enter Poll); (0%nat, Go); (0%nat, Returns); (0%nat, Go);
     (0%nat, Go); (0%nat, Returns); (0%nat, Go); (0%nat, Go)] = Some (y, es) ∧
  stopped_ (sched y) = true ∧ credit es = 1 ∧ held y = [o 1%nat].
Proof. eexists _, _. split; [vm_compute; reflexivity|]. by vm_compute. Qed.
