(* ===== verification/Wakeups.v ===== *)
(** * No lost wake-ups in the event loop

    For threads that call [run], on a scheduler for several threads: when no thread can
    go on by itself, nothing waits in the queue.  The invariant relates the word of the
    event to the threads that sleep, the place of the reactor to the thread in it, and
    a queue that is not empty to a thread that is awake or about to be woken. *)

From Stdlib Require Import ZArith Lia.
From stdpp Require Import base list numbers.
From S2P Require Import Prelude.
From S2P Require Import Scheduler.
From S2P Require Import EventLoop.

#[local] Open Scope Z_scope.

Implicit Types (s : scheduler) (f : frame) (th : thread) (y : system).

(** ** The word of the event *)

(** The event is signalled or not, and [n] threads wait. *)
Definition word s (b : bool) (n : Z) : Prop := state_ s = Z.b2z b + 2 * n.

Lemma lor_1 (b : bool) n : Z.lor (Z.b2z b + 2 * n) 1 = 1 + 2 * n.
Proof. destruct b; destruct n as [|p|[p|p|]]; reflexivity || (cbn; lia). Qed.
Lemma land_not_1 (b : bool) n : Z.land (Z.b2z b + 2 * n) (Z.lnot 1) = 0 + 2 * n.
Proof.
  rewrite <- Z.ldiff_land. change 1 with (Z.ones 1). rewrite Z.ldiff_ones_r, Z.shiftr_div_pow2, Z.shiftl_mul_pow2 by lia.
  change (2 ^ 1) with 2. destruct b; cbn [Z.b2z]; Z.div_mod_to_equations; lia.
Qed.
Lemma land_1 (b : bool) n : Z.land (Z.b2z b + 2 * n) 1 = Z.b2z b.
Proof.
  change 1 with (Z.ones 1). rewrite Z.land_ones by lia. change (2 ^ 1) with 2.
  destruct b; cbn [Z.b2z]; Z.div_mod_to_equations; lia.
Qed.

(** A push or a signal that asks for a thread either sends a signal, or finds that no
    thread waits and leaves no reactor uninterrupted. *)
Definition rouses s (signal : list micro) s' (n : Z) : Prop :=
  word s' true n ∧ keeps s s' ∧ op_queue_ s' = op_queue_ s ∧
  (task_interrupted_ s' = true → task_interrupted_ s = true ∨ interrupt_called s' = true) ∧
  (interrupt_called s = true → interrupt_called s' = true) ∧
  (0 < n → signal = [Signal]) ∧ (n = 0 → task_interrupted_ s' = true ∨ task_ s' = false).

Lemma interrupt_task_rouses s :
  (task_interrupted_ (interrupt_task s) = true ∨ task_ (interrupt_task s) = false) ∧
  (task_interrupted_ (interrupt_task s) = true → task_interrupted_ s = true ∨ interrupt_called (interrupt_task s) = true) ∧
  (interrupt_called s = true → interrupt_called (interrupt_task s) = true) ∧
  state_ (interrupt_task s) = state_ s ∧ op_queue_ (interrupt_task s) = op_queue_ s ∧ keeps s (interrupt_task s).
Proof.
  unfold interrupt_task, keeps. destruct (task_interrupted_ s) eqn:E1, (task_ s) eqn:E2; cbn; rewrite ?E1, ?E2; naive_solver.
Qed.

Lemma wake_one_rouses s b n signal s' :
  word s b n → 0 ≤ n → wake_one_thread_and_unlock s = (signal, s') → rouses s signal s' n.
Proof.
  unfold wake_one_thread_and_unlock, maybe_unlock_and_signal_one, word, rouses, keeps. cbn. intros Hw Hn.
  rewrite Hw, lor_1. destruct (1 <? 1 + 2 * n) eqn:E; intros [= <- <-].
  - unfold word. cbn. naive_solver lia.
  - destruct (interrupt_task_rouses (set_state_ (1 + 2 * n) s)) as (H1 & H2 & H3 & H4 & H5 & H6).
    unfold keeps in H6. cbn in *. unfold word. rewrite H4. cbn. naive_solver lia.
Qed.

(** ** A turn of [run] *)

Inductive ran s (b : bool) (n : Z) : outcome → Prop :=
  | ran_stopped : stopped_ s = true → ran s b n ([], Leaves 0, s)
  | ran_waits s' :
      stopped_ s = false → op_queue_ s = [] → op_queue_ s' = [] → word s' false (n + 1) → keeps s s' →
      task_interrupted_ s' = task_interrupted_ s → interrupt_called s' = interrupt_called s →
      ran s b n ([], Goes Waiting, s')
  | ran_task q signal s' u b' :
      stopped_ s = false → op_queue_ s = task_operation :: q → op_queue_ s' = q → word s' b' n → (q ≠ [] → b' = true) →
      keeps s s' → interrupt_called s' = interrupt_called s → (u ≠ 0 → q = [] ∧ task_interrupted_ s' = false) →
      ran s b n (signal, Goes (InTask u), s')
  | ran_operation o q signal s' b' :
      stopped_ s = false → op_queue_ s = Op o :: q → op_queue_ s' = q → word s' b' n → (q ≠ [] → b' = true) → keeps s s' →
      (task_interrupted_ s' = true → task_interrupted_ s = true ∨ interrupt_called s' = true) →
      (interrupt_called s = true → interrupt_called s' = true) →
      ran s b n (signal, Goes (InHandler o (counted o)), s').

Lemma run_task_ran q s b n :
  word s b n → 0 ≤ n → one_thread_ s = false → stopped_ s = false → op_queue_ s = task_operation :: q →
  ran s b n (run_task (-1) q s).
Proof.
  intros Hw Hn H1 H0 Hq. unfold run_task, unlock_and_signal_one. cbn. rewrite H1. unfold word in Hw.
  destruct q as [|e q]; cbn; rewrite ?Hw, ?lor_1.
  - apply (ran_task _ _ _ [] _ _ _ b); done.
  - by apply (ran_task _ _ _ (e :: q) _ _ _ true).
Qed.

Lemma run_operation_ran o q s b n :
  word s b n → 0 ≤ n → one_thread_ s = false → stopped_ s = false → op_queue_ s = Op o :: q →
  ran s b n (run_operation o q s).
Proof.
  intros Hw Hn H1 H0 Hq. unfold run_operation. change (one_thread_ (set_op_queue_ q s)) with (one_thread_ s).
  rewrite H1, andb_true_r. destruct q as [|e q].
  - apply (ran_operation _ _ _ _ [] _ _ b); try done. by left.
  - rewrite bool_decide_false by done. cbn [negb].
    destruct (wake_one_thread_and_unlock (set_op_queue_ (e :: q) s)) as [signal s'] eqn:E.
    destruct (wake_one_rouses (set_op_queue_ (e :: q) s) b n _ _ Hw Hn E) as (Hw' & Hk & Hq' & Hti & Hic & _).
    by apply (ran_operation _ _ _ _ (e :: q) _ _ true).
Qed.

Lemma do_run_one_ran s b n :
  word s b n → 0 ≤ n → one_thread_ s = false → ran s b n (do_run_one s).
Proof.
  intros Hw Hn H1. unfold do_run_one. destruct (stopped_ s) eqn:H0; [by constructor|].
  destruct (op_queue_ s) as [|[|o] q] eqn:Hq; [|by apply run_task_ran|by apply run_operation_ran].
  unfold clear_and_wait. apply ran_waits; try done. unfold word in *. cbn. rewrite Hw, land_not_1. cbn. lia.
Qed.

(** ** The invariant *)

Definition is_task (e : entry) : Z := match e with task_operation => 1 | Op _ => 0 end.
Definition pc_waits (p : pc) : Z := match p with Waiting | Awake => 1 | _ => 0 end.
Definition pc_tasks (p : pc) : Z := match p with InTask _ | TaskCleanup | TaskRelock => 1 | _ => 0 end.
Definition waits th : Z := zsum (λ f, pc_waits (fpc f)) (frames th).
Definition tasks th : Z := zsum (λ f, pc_tasks (fpc f)) (frames th).

(** The thread takes a step on its own: it is neither asleep nor in a reactor that
    nothing interrupts. *)
Definition active s th : Prop :=
  match frames th with
  | [] => False
  | f :: _ =>
      match fpc f with Waiting => False | InTask u => u = 0 ∨ interrupt_called s = true | _ => True end
  end.

(** The thread is in the reactor, for as long as nothing happens. *)
Definition in_reactor th : Prop :=
  match frames th with [] => False | f :: _ => match fpc f with InTask u => u ≠ 0 | _ => False end end.

Definition handles f : Prop := ∃ o covered, fpc f = InHandler o covered.
Definition plain_frame f : Prop := fmode f = Run ∧ fpc f ≠ WorkCleanup true ∧ fpc f ≠ WorkRelock true.
Definition shape th : Prop := Forall plain_frame (frames th) ∧ Forall handles (tail (frames th)).

Record calm y : Prop := {
  calm_one : one_thread_ (sched y) = false;
  calm_shape : Forall shape (threads y);
  calm_word : ∃ b, word (sched y) b (zsum waits (threads y)) ∧ (op_queue_ (sched y) ≠ [] → b = true) ∧
    (stopped_ (sched y) = true → b = true);
  calm_task : zsum is_task (op_queue_ (sched y)) + zsum tasks (threads y) = Z.b2z (task_ (sched y));
  calm_reactor :
    Forall (λ th, in_reactor th → task_interrupted_ (sched y) = true → interrupt_called (sched y) = true) (threads y);
  calm_stopped : stopped_ (sched y) = true → Forall (λ th, frames th ≠ [] → active (sched y) th) (threads y);
  calm_awake :
    op_queue_ (sched y) ≠ [] → Exists (λ th, frames th ≠ []) (threads y) →
    Exists (active (sched y)) (threads y) ∨
    Exists (λ th, Signal ∈ todo th) (threads y) ∧ Exists (λ th, is_waiting th = true) (threads y)
}.

Lemma handlers_idle fs : Forall handles fs → zsum (λ f, pc_waits (fpc f)) fs = 0 ∧ zsum (λ f, pc_tasks (fpc f)) fs = 0.
Proof. induction 1 as [|f fs (o & c & E) _ IH]; [done|]. zsums. rewrite E. cbn. lia. Qed.

Lemma handles_active s fs t : Forall handles fs → fs ≠ [] → active s (mkThread fs t).
Proof. intros H Hne. destruct H as [|f fs (o & c & E) H]; [done|]. unfold active. cbn. by rewrite E. Qed.

Lemma handles_not_reactor fs t : Forall handles fs → ¬ in_reactor (mkThread fs t).
Proof. intros [|f fs' (o & c & E) _]; unfold in_reactor; cbn; [tauto|]. rewrite E. tauto. Qed.

(** ** What the step of one thread does *)

(** [n] is how many threads wait before it. *)
Definition roused s th (n : Z) : Prop :=
  (0 < n → Signal ∈ todo th) ∧ (n = 0 → task_interrupted_ s = true ∨ task_ s = false).

Record quietly s th s' th' (n : Z) : Prop := {
  q_one : one_thread_ s' = false;
  q_shape : shape th';
  q_word : ∃ b, word s' b (n - waits th + waits th') ∧ (op_queue_ s' ≠ [] → b = true) ∧ (stopped_ s' = true → b = true);
  q_task : zsum is_task (op_queue_ s') + tasks th' - Z.b2z (task_ s') = zsum is_task (op_queue_ s) + tasks th - Z.b2z (task_ s);
  q_others : tasks th = 0 → tasks th' = 0 →
    (task_interrupted_ s' = true → task_interrupted_ s = true ∨ interrupt_called s' = true) ∧
    (interrupt_called s = true → interrupt_called s' = true);
  q_reactor : in_reactor th' → task_interrupted_ s' = false;
  q_stopped : stopped_ s' = true → stopped_ s = true ∧ (frames th' ≠ [] → active s' th');
  q_awake : active s' th' ∨ op_queue_ s' = [] ∨ stopped_ s' = true ∨ roused s' th' (n - waits th + waits th') ∨
    (frames th = [] ∧ frames th' = [] ∧ op_queue_ s' = op_queue_ s ∧ interrupt_called s' = interrupt_called s)
}.

Lemma shape_cons p f fs t :
  fmode f = Run → p ≠ WorkCleanup true → p ≠ WorkRelock true → Forall plain_frame fs → Forall handles fs →
  shape (mkThread (set_pc p f :: fs) t).
Proof. intros. split; [|done]. by constructor. Qed.

Lemma shape_tail fs t : Forall plain_frame fs → Forall handles fs → shape (mkThread fs t).
Proof. intros H H'. split; [done|]. destruct H'; [done|]. done. Qed.

Lemma waits_cons f fs t : Forall handles fs → waits (mkThread (f :: fs) t) = pc_waits (fpc f).
Proof. intros H. unfold waits. cbn. rewrite zsum_cons, (proj1 (handlers_idle _ H)). lia. Qed.
Lemma tasks_cons f fs t : Forall handles fs → tasks (mkThread (f :: fs) t) = pc_tasks (fpc f).
Proof. intros H. unfold tasks. cbn. rewrite zsum_cons, (proj2 (handlers_idle _ H)). lia. Qed.
Lemma waits_tail fs t : Forall handles fs → waits (mkThread fs t) = 0.
Proof. intros H. apply (handlers_idle _ H). Qed.
Lemma tasks_tail fs t : Forall handles fs → tasks (mkThread fs t) = 0.
Proof. intros H. apply (handlers_idle _ H). Qed.

(** A turn of [run], from a scheduler [s0] that the step has come to from [s]. *)
Lemma settle_quietly f fs s th s0 b n m r es0 s' th' es :
  n = m - waits th → ran s0 b n r → with_events es0 (settle f fs r) = (s', th', es) → one_thread_ s0 = false →
  fmode f = Run → Forall plain_frame fs → Forall handles fs → word s0 b n →
  (stopped_ s0 = true → b = true) → stopped_ s0 = stopped_ s → task_ s0 = task_ s →
  zsum is_task (op_queue_ s0) = zsum is_task (op_queue_ s) + tasks th →
  (tasks th = 0 → task_interrupted_ s0 = task_interrupted_ s ∧ interrupt_called s0 = interrupt_called s) →
  quietly s th s' th' m.
Proof.
  intros -> Hran H H1 Hm Hp Hh Hw Hb Hst Ht Hq Hti.
  destruct Hran as [Hs|s1 Hs Hq0 Hq1 Hw1 (_ & Hst1 & Ht1 & H1' & _) Hti1 Hic1|q sg s1 u b' Hs Hq0 Hq1 Hw1 Hb' (_ & Hst1 & Ht1 & H1' & _) Hic1 Hu
    |o q sg s1 b' Hs Hq0 Hq1 Hw1 Hb' (_ & Hst1 & Ht1 & H1' & _) Hti1 Hic1]; injection H as <- <- <-.
  - split; [done|by apply shape_tail| | | | | |].
    + exists b. rewrite waits_tail, Z.add_0_r by done. specialize (Hb Hs). by split_and!.
    + rewrite tasks_tail by done. rewrite Ht. lia.
    + intros H0 _. destruct (Hti H0) as [-> ->]. naive_solver.
    + intros Hr. by apply handles_not_reactor in Hr.
    + intros _. split; [congruence|]. intros Hne. by apply handles_active.
    + right. right. by left.
  - split; [congruence|by apply shape_cons| | | | | |].
    + exists false. rewrite waits_cons by done. rewrite Hq1, Hst1, Hs. done.
    + rewrite tasks_cons by done. rewrite Hq1, Ht1, Ht. rewrite Hq0 in Hq. cbn. rewrite zsum_nil in *. lia.
    + intros H0 _. destruct (Hti H0) as [E1 E2]. rewrite Hti1, Hic1, E1, E2. naive_solver.
    + done.
    + rewrite Hst1, Hs. done.
    + right. by left.
  - split; [congruence|by apply shape_cons| | | | | |].
    + exists b'. rewrite waits_cons, Z.add_0_r, Hq1, Hst1, Hs by done. done.
    + rewrite tasks_cons by done. rewrite Hq1, Ht1, Ht. rewrite Hq0 in Hq. cbn. rewrite zsum_cons in Hq. cbn in Hq. lia.
    + intros _. rewrite tasks_cons by done. done.
    + intros Hu'. by apply Hu.
    + rewrite Hst1, Hs. done.
    + destruct (decide (u = 0)) as [->|Hne]; [left; by left|right; left]. rewrite Hq1. by apply Hu.
  - split; [congruence|by apply shape_cons| | | | | |].
    + exists b'. rewrite waits_cons, Z.add_0_r, Hq1, Hst1, Hs by done. done.
    + rewrite tasks_cons by done. rewrite Hq1, Ht1, Ht. rewrite Hq0 in Hq. cbn. rewrite zsum_cons in Hq. cbn in Hq. lia.
    + intros H0 _. destruct (Hti H0) as [<- <-]. done.
    + done.
    + rewrite Hst1, Hs. done.
    + by left.
Qed.

(** Steps that do not touch what the invariant is about, from and to a thread that goes
    on by itself or is outside the scheduler. *)
Definition same_loop s s' : Prop :=
  one_thread_ s' = one_thread_ s ∧ state_ s' = state_ s ∧ op_queue_ s' = op_queue_ s ∧ task_ s' = task_ s ∧
  task_interrupted_ s' = task_interrupted_ s ∧ interrupt_called s' = interrupt_called s ∧
  (stopped_ s' = true → stopped_ s = true).

Record loop_ok s (m : Z) : Prop := {
  loop_one : one_thread_ s = false;
  loop_waits : 0 ≤ m;
  loop_word : ∃ b, word s b m ∧ (op_queue_ s ≠ [] → b = true) ∧ (stopped_ s = true → b = true)
}.

Lemma same_quietly s th s' th' m :
  loop_ok s m → same_loop s s' → shape th' → waits th' = waits th → tasks th' = tasks th → ¬ in_reactor th' →
  (frames th' ≠ [] → active s' th') → (frames th' = [] → frames th = []) → quietly s th s' th' m.
Proof.
  intros [H1 Hm (b & Hw & Hq & Hs)] (E1 & E2 & E3 & E4 & E5 & E6 & E7) Hsh Hwt Htk Hr Ha Hf.
  split; [congruence|done| | | |done|auto|].
  - exists b. unfold word in *. rewrite Hwt, E2, E3. split_and!; [lia|done|auto].
  - rewrite E3, E4, Htk. lia.
  - rewrite E5, E6. naive_solver.
  - destruct (frames th') eqn:E; [|left; by apply Ha]. right. right. right. right. by auto.
Qed.

Lemma after_wait_ran s b m :
  loop_ok s m → word s b m → (op_queue_ s ≠ [] → b = true) → (stopped_ s = true → b = true) → 1 ≤ m →
  ran (ends_waiting s) b (m - 1) (after_wait Run s).
Proof.
  intros [H1 _ _] Hw Hq Hs Hm. assert (Hw' : word (ends_waiting s) b (m - 1)) by (unfold word in *; cbn; lia).
  unfold after_wait, signalled. unfold word in Hw'. rewrite Hw', land_1. destruct b; cbn.
  - apply (do_run_one_ran (ends_waiting s)); [done|lia|done].
  - assert (Hq0 : op_queue_ s = []) by (destruct (op_queue_ s); [done|by discriminate Hq]).
    assert (Hs0 : stopped_ s = false) by (destruct (stopped_ s); [by discriminate Hs|done]).
    apply ran_waits; try done. unfold word. cbn in *. lia.
Qed.

Lemma word_unique s b b' n n' : word s b n → word s b' n' → b = b' ∧ n = n'.
Proof. unfold word. destruct b, b'; cbn; intros; split; try done; lia. Qed.

Lemma pushed_is_task ops : zsum is_task (map Op ops) = 0.
Proof. rewrite zsum_map. by apply zsum_zero. Qed.

Lemma work_cleanup_same e f s f' finished s' :
  work_cleanup e f s = (f', finished, s') → f' = set_pc (WorkRelock e) (drop_private_work f) ∧ same_loop s s'.
Proof. unfold work_cleanup, work_finished, same_loop. repeat case_match; intros; by simplify_eq. Qed.

Lemma pc_step_quietly f fs t s s' th' es m :
  pc_step f fs s = Some (s', th', es) → loop_ok s m → shape (mkThread (f :: fs) t) → pc_waits (fpc f) ≤ m →
  quietly s (mkThread (f :: fs) t) s' th' m.
Proof.
  intros H Hl [[(Hm & Hp1 & Hp2) Hp]%Forall_cons_1 Hh] Hle. cbn in Hh.
  pose proof (waits_cons f fs t Hh) as Hwt. pose proof (tasks_cons f fs t Hh) as Htk.
  pose proof Hl as [H1 H0 (b & Hw & Hq & Hs)].
  unfold pc_step in H. destruct (fpc f) as [| | |u| | |o c|e|e] eqn:Hpc; try done; cbn in Hwt, Htk, Hle.
  - rewrite nested_poll_many in H by done. injection H as H. rewrite Hm in H.
    eapply (settle_quietly _ _ _ _ s b m); [|by apply do_run_one_ran|exact H|done..| |done]; [|cbn]; lia.
  - injection H as H. rewrite Hm in H.
    eapply (settle_quietly _ _ _ _ (ends_waiting s) b (m - 1) _ _ []); [| |by rewrite H|done..| | |done|done| |done].
    + lia.
    + by apply after_wait_ran.
    + unfold word in *. cbn. lia.
    + done.
    + cbn. lia.
  - injection H as <- <- <-. apply same_quietly; [done| |by apply shape_cons|..].
    + unfold same_loop. by destruct (_ >? 0).
    + by rewrite Hwt, waits_cons.
    + by rewrite Htk, tasks_cons.
    + by intros [].
    + done.
    + done.
  - injection H as H. cbn [fmode drop_private_queue] in H. rewrite Hm in H.
    eapply (settle_quietly _ _ _ _ _ b m); [| |exact H|..]; [lia|by apply do_run_one_ran|done..| |lia].
    cbn. zsums. rewrite pushed_is_task. cbn. lia.
  - destruct (work_cleanup e f s) as [[f1 finished] s1] eqn:E. injection H as <- <- <-.
    apply work_cleanup_same in E as [-> E]. apply same_quietly; [done|done|apply shape_cons; naive_solver|..].
    + by rewrite Hwt, waits_cons.
    + by rewrite Htk, tasks_cons.
    + by intros [].
    + done.
    + done.
  - destruct e; [done|]. injection H as H. cbn [fmode drop_private_queue count_handler] in H. rewrite Hm in H.
    eapply (settle_quietly _ _ _ _ _ b m); [| |exact H|..]; [lia|by apply do_run_one_ran|done..| |done].
    cbn. zsums. rewrite pushed_is_task. lia.
Qed.

(** ** Calls *)

Definition plain_action (a : action) : Prop := match a with Enter m => m = Run | Throws => False | _ => True end.

Lemma program_quietly s fs s' fs' t m :
  loop_ok s m → same_loop s s' → Forall handles fs → Forall handles fs' → Forall plain_frame fs' → (fs' = [] → fs = []) →
  quietly s (mkThread fs []) s' (mkThread fs' t) m.
Proof.
  intros Hl Hs Hh Hh' Hp Hf. apply same_quietly; [done|done|by apply shape_tail|..|done].
  - by rewrite !waits_tail.
  - by rewrite !tasks_tail.
  - by apply handles_not_reactor.
  - intros. by apply handles_active.
Qed.

Lemma post_quietly inline ops fs work s s' th' m :
  post inline ops fs work s = (s', th') → loop_ok s m → Forall handles fs → Forall plain_frame fs →
  quietly s (mkThread fs []) s' th' m.
Proof.
  intros H Hl Hh Hp. unfold post in H.
  destruct inline, fs as [|f rest]; injection H as <- <-; try (by apply program_quietly).
  apply Forall_cons_1 in Hh as [Hf Hh]. apply Forall_cons_1 in Hp as [Hpf Hp].
  apply program_quietly; [done|done|by constructor|by constructor|by constructor|done].
Qed.

Lemma init_task_quietly fs s signal s' m :
  wake_one_thread_and_unlock (set_op_queue_ (op_queue_ s ++ [task_operation]) (set_task_ true s)) = (signal, s') →
  task_ s = false → loop_ok s m → Forall handles fs → Forall plain_frame fs →
  quietly s (mkThread fs []) s' (mkThread fs signal) m.
Proof.
  intros H Ht [H1 Hm (b & Hw & Hq & Hs)] Hh Hp.
  destruct (wake_one_rouses (set_op_queue_ (op_queue_ s ++ [task_operation]) (set_task_ true s)) b m _ _ Hw Hm H)
    as (Hw' & (_ & Hst & Htk & H1' & _) & Hq' & Hti & Hic & Hsig & Hzero). cbn in *.
  split; [congruence|by apply shape_tail| | | | | |].
  - exists true. rewrite !waits_tail, Z.sub_0_r, Z.add_0_r by done. done.
  - rewrite !tasks_tail, Hq', Htk, Ht by done. zsums. cbn. lia.
  - done.
  - intros Hr. by apply handles_not_reactor in Hr.
  - rewrite Hst. intros Hs'. split; [done|]. intros. by apply handles_active.
  - right. right. right. left. rewrite !waits_tail, Z.sub_0_r, Z.add_0_r by done. split; [|done].
    intros Hpos. rewrite Hsig by done. by left.
Qed.

Lemma call_step_quietly fs a s s' th' es m :
  call_step fs a s = Some (s', th', es) → plain_action a → loop_ok s m → Forall handles fs → Forall plain_frame fs →
  quietly s (mkThread fs []) s' th' m.
Proof.
  intros H Ha Hl Hh Hp. unfold call_step in H. destruct a; try done;
    try (injection H as <- <- <-; by apply program_quietly).
  - cbn in Ha. subst m0. destruct (_ =? 0); injection H as <- <- <-; [by apply program_quietly|].
    apply same_quietly; [done|done|by apply (shape_cons Locking (mkFrame Run Locking [] 0 0))|..]; done || by intros [].
  - destruct (forallb _ _); [|done]. destruct (post _ _ _ _ _) as [s1 th1] eqn:E. injection H as <- <- <-.
    by eapply post_quietly.
  - destruct ops as [|o ops]; [injection H as <- <- <-; by apply program_quietly|].
    destruct (forallb _ _); [|done]. destruct (post _ _ _ _ _) as [s1 th1] eqn:E. injection H as <- <- <-.
    by eapply post_quietly.
  - destruct (counted o); [|done]. destruct (post _ _ _ _ _) as [s1 th1] eqn:E. injection H as <- <- <-.
    by eapply post_quietly.
  - destruct (negb (shutdown_ s) && negb (task_ s)) eqn:E; [|injection H as <- <- <-; by apply program_quietly].
    destruct (wake_one_thread_and_unlock _) as [signal s1] eqn:Ew. injection H as <- <- <-.
    eapply init_task_quietly; [exact Ew| |done..]. destruct (shutdown_ s), (task_ s); done.
Qed.

(** The reactor returns: no other thread is in it. *)
Lemma task_returns_quietly f fs s u ops m :
  fpc f = InTask u → loop_ok s m → Forall plain_frame (f :: fs) → Forall handles fs →
  quietly s (mkThread (f :: fs) []) (set_interrupt_called false s)
    (mkThread (set_pc TaskCleanup (add_private ops 0 f) :: fs) []) m.
Proof.
  intros Hpc [H1 Hm (b & Hw & Hq & Hs)] [(Hmode & _) Hp]%Forall_cons_1 Hh.
  split; [done|by apply shape_cons| | | | | |].
  - exists b. rewrite !waits_cons by done. rewrite Hpc. cbn. rewrite Z.sub_0_r, Z.add_0_r. done.
  - rewrite !tasks_cons, Hpc by done. cbn. lia.
  - rewrite tasks_cons, Hpc by done. done.
  - by intros [].
  - done.
  - by left.
Qed.

Lemma handler_step_quietly o covered f fs a s s' th' es m :
  handler_step o covered f fs a s = Some (s', th', es) → fpc f = InHandler o covered → plain_action a → loop_ok s m →
  Forall plain_frame (f :: fs) → Forall handles fs → quietly s (mkThread (f :: fs) []) s' th' m.
Proof.
  intros H Hpc Ha Hl Hp Hh. assert (Hf : handles f) by (by exists o, covered).
  assert (Hcall : call_step (f :: fs) a s = Some (s', th', es) → quietly s (mkThread (f :: fs) []) s' th' m)
    by (intros Hs; eapply call_step_quietly; try done; by constructor).
  apply Forall_cons_1 in Hp as [(Hm & _) Hp].
  assert (Hgo : ∀ p f', p ≠ WorkCleanup true → p ≠ WorkRelock true → pc_waits p = 0 → pc_tasks p = 0 → fmode f' = Run →
    (∀ s, active s (mkThread (set_pc p f' :: fs) [])) → ¬ in_reactor (mkThread (set_pc p f' :: fs) []) →
    quietly s (mkThread (f :: fs) []) s (mkThread (set_pc p f' :: fs) []) m).
  { intros p f' Hp1 Hp2 Hw0 Ht0 Hm' Hact Hnr. apply same_quietly; [done|done|by apply shape_cons|..|done|done|done].
    - rewrite !waits_cons, Hpc by done. done.
    - rewrite !tasks_cons, Hpc by done. done. }
  unfold handler_step in H. destruct a, covered; try done; try (by apply Hcall);
    try (destruct (counted _); [|done]); injection H as <- <- <-; (apply Hgo; try done; by intros []).
Qed.

Lemma thread_step_quietly th a s s' th' es m :
  thread_step th a s = Some (s', th', es) → todo th = [] → plain_action a → loop_ok s m → shape th → waits th ≤ m →
  quietly s th s' th' m.
Proof.
  destruct th as [fs t]. cbn. intros H -> Ha Hl [Hp Hh] Hle. unfold thread_step in H. cbn in *.
  destruct fs as [|f fs]; [by eapply call_step_quietly|]. cbn in Hh. rewrite waits_cons in Hle by done.
  assert (Hpc_step : pc_step f fs s = Some (s', th', es) → quietly s (mkThread (f :: fs) []) s' th' m)
    by (intros Hs; by eapply pc_step_quietly).
  destruct (fpc f) as [| | |u| | |o c|e|e] eqn:Hpc; try (destruct a; done || by apply Hpc_step).
  - destruct a; try done; [by apply Hpc_step|]. injection H as <- <- <-. by apply task_returns_quietly with u.
  - by eapply handler_step_quietly.
Qed.

(** ** Steps keep the invariant *)

Lemma waits_nonneg th : 0 ≤ waits th.
Proof. apply zsum_nonneg, Forall_true. intros f. destruct (fpc f); done. Qed.
Lemma tasks_nonneg th : 0 ≤ tasks th.
Proof. apply zsum_nonneg, Forall_true. intros f. destruct (fpc f); done. Qed.
Lemma is_task_nonneg q : 0 ≤ zsum is_task q.
Proof. apply zsum_nonneg, Forall_true. by intros []. Qed.

Lemma reactor_task th : in_reactor th → 1 ≤ tasks th.
Proof.
  unfold in_reactor, tasks. destruct (frames th) as [|f fs]; [done|]. rewrite zsum_cons.
  assert (0 ≤ zsum (λ f, pc_tasks (fpc f)) fs) by (apply zsum_nonneg, Forall_true; intros g; destruct (fpc g); done).
  destruct (fpc f); try done. cbn. lia.
Qed.

Lemma active_mono s s' th : (in_reactor th → interrupt_called s = true → interrupt_called s' = true) → active s th → active s' th.
Proof.
  unfold active, in_reactor. destruct (frames th) as [|f fs]; [done|]. destruct (fpc f); try done.
  intros H [->|Hi]; [by left|]. destruct (decide (usec = 0)); [by left|right; auto].
Qed.

(** Threads that differ in what they have to do, or in having been woken. *)
Definition alike th th' : Prop := frames th' = frames th ∨ frames th' = frames (wake th).

Lemma wake_frames th : frames (wake th) = frames th ∨
  ∃ f fs, frames th = f :: fs ∧ fpc f = Waiting ∧ frames (wake th) = set_pc Awake f :: fs.
Proof.
  unfold wake, is_waiting. destruct th as [[|f fs] t]; cbn; [by left|]. destruct (fpc f) eqn:Hpc; try (by left).
  right. by exists f, fs.
Qed.

Ltac alike_cases H :=
  destruct H as [H|H]; [|
    match type of H with frames _ = frames (wake ?t) =>
      destruct (wake_frames t) as [Hwk|(fr & frs & Hfr & Hpcw & Hwk)]; rewrite Hwk in H; clear Hwk end].

Lemma alike_shape th th' : alike th th' → shape th → shape th'.
Proof.
  intros H. unfold shape. alike_cases H; rewrite H; try done. rewrite Hfr. cbn.
  intros [[(Hm & _) Hp]%Forall_cons_1 Hh]. split; [|done]. by constructor.
Qed.
Lemma alike_waits th th' : alike th th' → waits th' = waits th.
Proof. intros H. unfold waits. alike_cases H; rewrite H; try done. rewrite Hfr. zsums. by rewrite Hpcw. Qed.
Lemma alike_tasks th th' : alike th th' → tasks th' = tasks th.
Proof. intros H. unfold tasks. alike_cases H; rewrite H; try done. rewrite Hfr. zsums. by rewrite Hpcw. Qed.
Lemma alike_reactor th th' : alike th th' → in_reactor th' → in_reactor th.
Proof. intros H. unfold in_reactor. alike_cases H; rewrite H; done. Qed.
Lemma alike_active s th th' : alike th th' → active s th → active s th'.
Proof. intros H. unfold active. alike_cases H; rewrite H; done. Qed.
Lemma alike_running th th' : alike th th' → frames th' ≠ [] → frames th ≠ [].
Proof. intros H. alike_cases H; rewrite H; [done|done|]. by rewrite Hfr. Qed.

Lemma alike_sum (g : thread → Z) ths ths' : (∀ th th', alike th th' → g th' = g th) → Forall2 alike ths ths' → zsum g ths' = zsum g ths.
Proof. intros Hg. induction 1 as [|th th' ths ths' H _ IH]; [done|]. rewrite !zsum_cons, IH, (Hg _ _ H). done. Qed.

Lemma alike_Forall (P Q : thread → Prop) ths ths' :
  (∀ th th', alike th th' → P th → Q th') → Forall2 alike ths ths' → Forall P ths → Forall Q ths'.
Proof. intros H. induction 1; inversion 1; subst; constructor; eauto. Qed.

Lemma alike_refl ths : Forall2 alike ths ths.
Proof. apply Forall2_same_length_lookup_2; [done|]. intros i x z Hx Hz. left. congruence. Qed.
Lemma alike_insert ths i th th' : ths !! i = Some th → alike th th' → Forall2 alike ths (<[i := th']> ths).
Proof.
  intros Hi H. apply Forall2_same_length_lookup_2; [by rewrite length_insert|]. intros j x z Hx Hz.
  apply list_lookup_insert_Some in Hz as [(<- & <- & _)|(_ & Hz)]; [congruence|left; congruence].
Qed.

Lemma alike_calm y s' ths' :
  calm y → Forall2 alike (threads y) ths' → one_thread_ s' = false →
  (∃ b, word s' b (zsum waits (threads y)) ∧ (op_queue_ s' ≠ [] → b = true) ∧ (stopped_ s' = true → b = true)) →
  zsum is_task (op_queue_ s') - Z.b2z (task_ s') = zsum is_task (op_queue_ (sched y)) - Z.b2z (task_ (sched y)) →
  (task_interrupted_ s' = true → task_interrupted_ (sched y) = true ∨ interrupt_called s' = true) →
  (interrupt_called (sched y) = true → interrupt_called s' = true) →
  (stopped_ s' = true → Forall (λ th, frames th ≠ [] → active s' th) ths') →
  (op_queue_ s' ≠ [] → Exists (λ th, frames th ≠ []) ths' →
    Exists (active s') ths' ∨ Exists (λ th, Signal ∈ todo th) ths' ∧ Exists (λ th, is_waiting th = true) ths') →
  calm (mkSystem s' ths').
Proof.
  intros [C1 C2 C3 C4 C5 C6 C7] Ha H1 Hw Ht Hti Hic Hs Hq. split; cbn; try done.
  - eapply alike_Forall; [apply alike_shape|done|done].
  - rewrite (alike_sum _ _ _ alike_waits Ha). done.
  - rewrite (alike_sum _ _ _ alike_tasks Ha). lia.
  - eapply alike_Forall; [|done|apply C5]. cbn. intros th th' Hth H Hr Hti'. destruct (Hti Hti') as [Hti0|]; [|done].
    apply Hic, H; [by eapply alike_reactor|done].
Qed.

Lemma sum_some (g : thread → Z) ths : (∀ th, 0 ≤ g th) → zsum g ths ≠ 0 → ∃ i th, ths !! i = Some th ∧ 0 < g th.
Proof.
  intros Hg. induction ths as [|th ths IH]; [done|]. rewrite zsum_cons. intros H. pose proof (Hg th).
  destruct (decide (g th = 0)) as [E|E]; [|exists 0%nat, th; split; [done|lia]].
  destruct IH as (i & th' & Hi & Hp); [lia|]. by exists (S i), th'.
Qed.

Lemma waiting_waits th : is_waiting th = true → 1 ≤ waits th.
Proof.
  unfold is_waiting, waits. destruct (frames th) as [|f fs]; [done|]. rewrite zsum_cons. destruct (fpc f) eqn:E; try done.
  assert (0 ≤ zsum (λ f, pc_waits (fpc f)) fs) by (apply zsum_nonneg, Forall_true; intros g; destruct (fpc g); done). cbn. lia.
Qed.

Lemma not_waiting_active s th :
  is_waiting th ≠ true → frames th ≠ [] → (in_reactor th → interrupt_called s = true) → active s th.
Proof.
  unfold is_waiting, active, in_reactor. destruct (frames th) as [|f fs]; [done|]. destruct (fpc f); try done.
  intros _ _ H. destruct (decide (usec = 0)); [by left|right; auto].
Qed.

Lemma waits_awake s th : shape th → 0 < waits th → is_waiting th ≠ true → active s th.
Proof.
  intros [_ Hh] Hw Hn. unfold waits, is_waiting, active in *. destruct (frames th) as [|f fs]; [done|]. cbn in Hh.
  rewrite zsum_cons, (proj1 (handlers_idle _ Hh)) in Hw. destruct (fpc f); try done; cbn in Hw; lia.
Qed.

(** Who is there when a queue must not be left: a thread that waits, or else one that
    goes on. *)
Lemma roused_awake s ths n :
  Forall shape ths → n = zsum waits ths → zsum is_task (op_queue_ s) + zsum tasks ths = Z.b2z (task_ s) →
  Forall (λ th, in_reactor th → task_interrupted_ s = true → interrupt_called s = true) ths →
  (0 < n → Exists (λ th, Signal ∈ todo th) ths) → (n = 0 → task_interrupted_ s = true ∨ task_ s = false) →
  Exists (λ th, frames th ≠ []) ths →
  Exists (active s) ths ∨ Exists (λ th, Signal ∈ todo th) ths ∧ Exists (λ th, is_waiting th = true) ths.
Proof.
  intros Hsh -> Ht Hr Hsig Hzero Hex.
  assert (Hall : ∀ i th, ths !! i = Some th → waits th ≤ zsum waits ths ∧ tasks th ≤ zsum tasks ths).
  { intros i th Hi. split; (eapply zsum_ge; [apply Forall_true|done]); [apply waits_nonneg|apply tasks_nonneg]. }
  destruct (decide (Exists (λ th, is_waiting th = true) ths)) as [Hw|Hw].
  - right. split; [|done]. apply Hsig. apply Exists_lookup in Hw as (i & th & Hi & Hw).
    pose proof (waiting_waits th Hw). specialize (Hall i th Hi). lia.
  - left. destruct (decide (zsum waits ths = 0)) as [H0|H0].
    + apply Exists_lookup in Hex as (i & th & Hi & Hne). apply Exists_lookup. exists i, th. split; [done|].
      destruct (decide (is_waiting th = true)) as [Hwt|Hwt]; [exfalso; apply Hw, Exists_lookup; by exists i, th|].
      apply not_waiting_active; [done|done|]. intros Hreact. apply (Forall_lookup_1 _ _ _ _ Hr Hi); [done|].
      destruct (Hzero H0) as [|Hno]; [done|]. pose proof (reactor_task _ Hreact). pose proof (is_task_nonneg (op_queue_ s)).
      specialize (Hall i th Hi). rewrite Hno in Ht. cbn in Ht. lia.
    + destruct (sum_some waits ths waits_nonneg H0) as (i & th & Hi & Hp). apply Exists_lookup. exists i, th. split; [done|].
      destruct (decide (is_waiting th = true)) as [Hwt|Hwt]; [exfalso; apply Hw, Exists_lookup; by exists i, th|].
      apply waits_awake; [by apply (Forall_lookup_1 _ _ _ _ Hsh Hi)|done|done].
Qed.

(** Two threads cannot both have the reactor. *)
Lemma reactor_alone y i j th th' :
  calm y → threads y !! i = Some th → threads y !! j = Some th' → i ≠ j → in_reactor th' → tasks th = 0.
Proof.
  intros C Hi Hj Hne Hr. pose proof (calm_task _ C) as Ht. pose proof (is_task_nonneg (op_queue_ (sched y))).
  pose proof (zsum_insert tasks _ _ _ (mkThread [] []) Hi) as Hs. change (tasks (mkThread [] [])) with 0 in Hs.
  assert (Hge : tasks th' ≤ zsum tasks (<[i := mkThread [] []]> (threads y))).
  { eapply zsum_ge; [apply Forall_true, tasks_nonneg|]. by rewrite list_lookup_insert_ne. }
  pose proof (reactor_task _ Hr). pose proof (tasks_nonneg th). destruct (task_ (sched y)); cbn in Ht; lia.
Qed.

Lemma others_react y i th s' th' :
  calm y → threads y !! i = Some th → quietly (sched y) th s' th' (zsum waits (threads y)) →
  ∀ j th0, i ≠ j → threads y !! j = Some th0 → in_reactor th0 →
    (task_interrupted_ s' = true → task_interrupted_ (sched y) = true ∨ interrupt_called s' = true) ∧
    (interrupt_called (sched y) = true → interrupt_called s' = true).
Proof.
  intros C Hi Q j th0 Hne Hj Hr. pose proof (reactor_alone _ _ _ _ _ C Hi Hj Hne Hr) as H0. apply (q_others _ _ _ _ _ Q H0).
  pose proof (q_task _ _ _ _ _ Q) as Ht. pose proof (calm_task _ C) as Hc.
  pose proof (is_task_nonneg (op_queue_ s')). pose proof (reactor_task _ Hr). pose proof (tasks_nonneg th').
  pose proof (zsum_ge tasks _ _ _ ltac:(apply Forall_true, tasks_nonneg) Hj).
  destruct (task_ s'), (task_ (sched y)); cbn in *; lia.
Qed.

Lemma exists_other (P Q : thread → Prop) ths i th th' :
  ths !! i = Some th → ¬ P th → (∀ j th0, i ≠ j → ths !! j = Some th0 → P th0 → Q th0) → Exists P ths → Exists Q (<[i := th']> ths).
Proof.
  intros Hi Hn HPQ (j & th0 & Hj & HP)%Exists_lookup. assert (Hne : i ≠ j) by (intros ->; congruence).
  apply Exists_lookup. exists j, th0. rewrite list_lookup_insert_ne by done. split; [done|]. by eapply HPQ.
Qed.

Lemma exists_here (P : thread → Prop) ths i th th' : ths !! i = Some th → P th' → Exists P (<[i := th']> ths).
Proof.
  intros Hi HP. apply Exists_lookup. exists i, th'. split; [|done]. apply list_lookup_insert_eq. by eapply lookup_lt_Some.
Qed.

(** A step of a thread outside the scheduler leaves the others as they were. *)
Lemma outside_awake y i th s' th' :
  calm y → threads y !! i = Some th → todo th = [] → frames th = [] → frames th' = [] →
  op_queue_ s' = op_queue_ (sched y) → interrupt_called s' = interrupt_called (sched y) →
  op_queue_ s' ≠ [] → Exists (λ th, frames th ≠ []) (<[i := th']> (threads y)) →
  Exists (active s') (<[i := th']> (threads y)) ∨
  Exists (λ th, Signal ∈ todo th) (<[i := th']> (threads y)) ∧ Exists (λ th, is_waiting th = true) (<[i := th']> (threads y)).
Proof.
  intros C Hi Ht Hf Hf' Eq Ei Hq Hex. rewrite Eq in Hq.
  assert (Hex0 : Exists (λ th, frames th ≠ []) (threads y)).
  { apply Exists_lookup in Hex as (j & th0 & Hj & Hne). apply list_lookup_insert_Some in Hj as [(<- & -> & _)|(Hij & Hj)]; [done|].
    apply Exists_lookup. by exists j, th0. }
  destruct (calm_awake _ C Hq Hex0) as [Ha|[Hs Hw]]; [left|right; split].
  - eapply (exists_other (active (sched y))); [done| | |exact Ha]; [unfold active; rewrite Hf; tauto|].
    intros j th0 _ _. apply active_mono. by rewrite Ei.
  - eapply (exists_other (λ th, Signal ∈ todo th)); [done| | |exact Hs]; [rewrite Ht; apply not_elem_of_nil|auto].
  - eapply (exists_other (λ th, is_waiting th = true)); [done| | |exact Hw]; [unfold is_waiting; by rewrite Hf|auto].
Qed.

Lemma thread_calm y i th s' th' :
  calm y → threads y !! i = Some th → todo th = [] → quietly (sched y) th s' th' (zsum waits (threads y)) →
  calm (mkSystem s' (<[i := th']> (threads y))).
Proof.
  intros C Hi Ht Q. pose proof (others_react _ _ _ _ _ C Hi Q) as Hother. pose proof Q as [Q1 Q2 Q3 Q4 Q5 Q6 Q7 Q8].
  pose proof C as [C1 C2 C3 C4 C5 C6 C7].
  assert (Hshape : Forall shape (<[i := th']> (threads y))) by (by apply Forall_insert).
  assert (Htask : zsum is_task (op_queue_ s') + zsum tasks (<[i := th']> (threads y)) = Z.b2z (task_ s')).
  { rewrite (zsum_insert _ _ _ _ _ Hi). lia. }
  assert (Hreact : Forall (λ th, in_reactor th → task_interrupted_ s' = true → interrupt_called s' = true) (<[i := th']> (threads y))).
  { apply Forall_lookup. intros j th0 Hj Hr Hti. apply list_lookup_insert_Some in Hj as [(<- & -> & _)|(Hne & Hj)].
    - rewrite (Q6 Hr) in Hti. done.
    - destruct (Hother _ _ Hne Hj Hr) as [H1 H2]. destruct (H1 Hti); [|done]. apply H2. by apply (Forall_lookup_1 _ _ _ _ C5 Hj). }
  assert (Hstop : stopped_ s' = true → Forall (λ th, frames th ≠ [] → active s' th) (<[i := th']> (threads y))).
  { intros Hs. destruct (Q7 Hs) as [Hs0 Ha]. specialize (C6 Hs0). apply Forall_lookup. intros j th0 Hj Hne.
    apply list_lookup_insert_Some in Hj as [(<- & -> & _)|(Hij & Hj)]; [auto|].
    eapply active_mono; [|by apply (Forall_lookup_1 _ _ _ _ C6 Hj)]. intros Hr. by apply (Hother j th0). }
  split; cbn; try done.
  - rewrite (zsum_insert _ _ _ _ _ Hi). done.
  - intros Hq Hex. destruct Q8 as [Ha|[H0|[Hs|[[Hsig Hzero]|(Hf & Hf' & Eq & Ei)]]]].
    + left. by eapply exists_here.
    + done.
    + left. apply Exists_lookup in Hex as (j & th0 & Hj & Hne). apply Exists_lookup. exists j, th0. split; [done|].
      by apply (Forall_lookup_1 _ _ _ _ (Hstop Hs) Hj).
    + eapply roused_awake; [done|by rewrite (zsum_insert _ _ _ _ _ Hi)|done|done| |done|done].
      intros Hpos. by eapply exists_here; [|apply Hsig].
    + by eapply outside_awake.
Qed.

Lemma calm_loop y : calm y → loop_ok (sched y) (zsum waits (threads y)).
Proof. intros C. split; [apply C|apply zsum_nonneg, Forall_true, waits_nonneg|apply C]. Qed.

(** What only changes the threads. *)
Lemma threads_calm y ths' :
  calm y → Forall2 alike (threads y) ths' →
  (Exists (active (sched y)) ths' ∨
   (Exists (λ th, frames th ≠ []) ths' → op_queue_ (sched y) ≠ [] → Exists (active (sched y)) ths' ∨
     Exists (λ th, Signal ∈ todo th) ths' ∧ Exists (λ th, is_waiting th = true) ths')) →
  calm (mkSystem (sched y) ths').
Proof.
  intros C Ha He. apply (alike_calm _ _ _ C Ha); try apply C; try done; [by left| |].
  - intros Hs. eapply alike_Forall; [|exact Ha|by apply (calm_stopped _ C)]. cbn. intros th th' Hth H Hne.
    eapply alike_active; [done|]. apply H. by eapply alike_running.
  - intros Hq Hex. destruct He as [He|He]; [by left|by apply He].
Qed.

Lemma wake_active s th : is_waiting th = true → active s (wake th).
Proof.
  unfold wake, active. intros Hw. rewrite Hw. unfold is_waiting in Hw.
  destruct th as [[|f fs] t]; cbn in *; [done|]. by destruct (fpc f).
Qed.

Lemma push_calm y i th ops rest signal s' :
  calm y → threads y !! i = Some th → todo th = Push ops :: rest →
  wake_one_thread_and_unlock (queue_push ops (sched y)) = (signal, s') →
  calm (mkSystem s' (<[i := mkThread (frames th) (signal ++ rest)]> (threads y))).
Proof.
  intros C Hi Ht Hwk. destruct (calm_word _ C) as (b & Hw & Hq & Hs).
  assert (Hn : 0 ≤ zsum waits (threads y)) by apply zsum_nonneg, Forall_true, waits_nonneg.
  destruct (wake_one_rouses (queue_push ops (sched y)) _ _ _ _ Hw Hn Hwk)
    as (Hw' & (_ & Hst & Htk & H1 & _) & Hq' & Hti & Hic & Hsig & Hzero).
  set (ths' := <[i := mkThread (frames th) (signal ++ rest)]> (threads y)).
  assert (Ha : Forall2 alike (threads y) ths') by (apply (alike_insert _ _ _ _ Hi); by left).
  assert (Htask : zsum is_task (op_queue_ s') - Z.b2z (task_ s') =
    zsum is_task (op_queue_ (sched y)) - Z.b2z (task_ (sched y))).
  { rewrite Hq', Htk. cbn. zsums. rewrite pushed_is_task. lia. }
  apply (alike_calm _ _ _ C Ha); try done.
  - rewrite H1. apply C.
  - by exists true.
  - rewrite Hst. cbn. intros Hst'. eapply alike_Forall; [|exact Ha|by apply (calm_stopped _ C)]. cbn. intros th0 th1 Hth H Hne.
    eapply active_mono; [|eapply alike_active; [done|]; apply H; by eapply alike_running]. auto.
  - intros _ Hex. eapply roused_awake; [|done| | | | |done].
    + eapply alike_Forall; [apply alike_shape|done|apply C].
    + rewrite (alike_sum _ _ _ alike_tasks Ha). pose proof (calm_task _ C). lia.
    + eapply alike_Forall; [|done|apply (calm_reactor _ C)]. cbn. intros th0 th1 Hth H Hr Hti'.
      destruct (Hti Hti'); [|done]. apply Hic, H; [by eapply alike_reactor|done].
    + rewrite (alike_sum _ _ _ alike_waits Ha). intros Hpos. eapply exists_here; [done|]. cbn. rewrite Hsig by done. by left.
    + rewrite (alike_sum _ _ _ alike_waits Ha). done.
Qed.

Lemma wake_frames_only th t : frames (wake (mkThread (frames th) t)) = frames (wake th).
Proof. unfold wake, is_waiting. destruct th as [[|f fs] t']; cbn; [done|]. by destruct (fpc f). Qed.

Lemma wake_not_waiting th : is_waiting (wake th) ≠ true.
Proof.
  unfold wake. destruct (is_waiting th) eqn:E; [|congruence]. unfold is_waiting in *.
  destruct th as [[|f fs] t]; cbn in *; [done|]. by destruct (fpc f).
Qed.

Lemma woken_alike ths i th t : ths !! i = Some th → Forall2 alike ths (wake <$> <[i := mkThread (frames th) t]> ths).
Proof.
  intros Hi. apply Forall2_same_length_lookup_2; [by rewrite length_fmap, length_insert|]. intros j x z Hx Hz.
  apply list_lookup_fmap_Some in Hz as (z0 & -> & Hz). right.
  apply list_lookup_insert_Some in Hz as [(<- & <- & _)|(_ & Hz)]; [rewrite wake_frames_only|]; congruence.
Qed.

Lemma stop_calm y i th rest :
  calm y → threads y !! i = Some th → calm (mkSystem (stop_all_threads (sched y)) (wake <$> <[i := mkThread (frames th) rest]> (threads y))).
Proof.
  intros C Hi. destruct (calm_word _ C) as (b & Hw & Hq & Hs). pose proof (woken_alike _ _ _ rest Hi) as Ha.
  set (ths' := wake <$> <[i := mkThread (frames th) rest]> (threads y)) in *.
  unfold stop_all_threads. set (s1 := signal_all (set_stopped_ true (sched y))).
  destruct (interrupt_task_rouses s1) as (Hor & Hti & Hic & Est & Eq & (_ & Estop & Etask & E1 & _)).
  set (s' := interrupt_task s1) in *.
  assert (Hall : Forall (λ th, frames th ≠ [] → active s' th) ths').
  { apply Forall_lookup. intros j th' Hj Hne. apply not_waiting_active; [|done|].
    - unfold ths' in Hj. apply list_lookup_fmap_Some in Hj as (x & -> & _). apply wake_not_waiting.
    - intros Hr. destruct (Forall2_lookup_r _ _ _ _ _ Ha Hj) as (th0 & Hj0 & Hth).
      pose proof (alike_reactor _ _ Hth Hr) as Hr0. pose proof (reactor_task _ Hr0). pose proof (calm_task _ C) as Ht.
      pose proof (zsum_ge tasks _ _ _ ltac:(apply Forall_true, tasks_nonneg) Hj0).
      pose proof (is_task_nonneg (op_queue_ (sched y))). destruct Hor as [Hor|Hor].
      + destruct (Hti Hor) as [Hti0|]; [|done]. apply Hic. by apply (Forall_lookup_1 _ _ _ _ (calm_reactor _ C) Hj0).
      + rewrite Etask in Hor. change (task_ s1) with (task_ (sched y)) in Hor. rewrite Hor in Ht. cbn in Ht. lia. }
  apply (alike_calm _ _ _ C Ha); try done.
  - rewrite E1. apply C.
  - exists true. split; [|done]. unfold word in *. rewrite Est. cbn. by rewrite Hw, lor_1.
  - by rewrite Eq, Etask.
  - intros _ Hex. left. apply Exists_lookup in Hex as (j & th' & Hj & Hne). apply Exists_lookup. exists j, th'. split; [done|].
    by apply (Forall_lookup_1 _ _ _ _ Hall Hj).
Qed.

Lemma shutdown_calm y s' es :
  calm y → forallb idle (threads y) = true → shutdown (sched y) = (s', es) → calm (mkSystem s' (threads y)).
Proof.
  intros C Hidle [= <- _].
  assert (Hall : ∀ i th, threads y !! i = Some th → frames th = []).
  { intros i th Hi. rewrite forallb_forall in Hidle. specialize (Hidle th). unfold idle in Hidle.
    destruct (frames th); [done|]. discriminate Hidle. apply list_elem_of_In. by eapply list_elem_of_lookup_2. }
  assert (Ht : zsum tasks (threads y) = 0).
  { clear -Hall. induction (threads y) as [|th ths IH]; [done|]. rewrite zsum_cons, IH by (intros i; apply (Hall (S i))).
    unfold tasks. by rewrite (Hall 0%nat th eq_refl). }
  destruct (calm_word _ C) as (b & Hw & Hq & Hs). split; cbn; try apply C; try done.
  by exists b.
Qed.

Lemma signal_calm y i th rest w th' :
  calm y → threads y !! i = Some th → <[i := mkThread (frames th) rest]> (threads y) !! w = Some th' → is_waiting th' = true →
  calm (mkSystem (sched y) (<[w := wake th']> (<[i := mkThread (frames th) rest]> (threads y)))).
Proof.
  intros C Hi Hw Hw'. apply threads_calm; [done| |left; by eapply exists_here; [|apply wake_active]].
  apply Forall2_same_length_lookup_2; [by rewrite !length_insert|]. intros j x z Hx Hz.
  apply list_lookup_insert_Some in Hz as [(<- & <- & _)|(_ & Hz)].
  - right. apply list_lookup_insert_Some in Hw as [(<- & <- & _)|(_ & Hw)]; [rewrite wake_frames_only|]; congruence.
  - left. apply list_lookup_insert_Some in Hz as [(<- & <- & _)|(_ & Hz)]; cbn; congruence.
Qed.

Lemma silent_calm y i th rest :
  calm y → threads y !! i = Some th → existsb is_waiting (<[i := mkThread (frames th) rest]> (threads y)) = false →
  calm (mkSystem (sched y) (<[i := mkThread (frames th) rest]> (threads y))).
Proof.
  intros C Hi Hw. set (ths' := <[i := mkThread (frames th) rest]> (threads y)) in *.
  assert (Ha : Forall2 alike (threads y) ths') by (apply (alike_insert _ _ _ _ Hi); by left).
  assert (Hsame : ∀ j th0, threads y !! j = Some th0 → ∃ th1, ths' !! j = Some th1 ∧ frames th1 = frames th0).
  { intros j th0 Hj. unfold ths'. destruct (decide (i = j)) as [<-|Hne].
    - rewrite list_lookup_insert_eq by (by eapply lookup_lt_Some). eexists. split; [done|]. cbn. congruence.
    - rewrite list_lookup_insert_ne by done. by exists th0. }
  apply threads_calm; [done|done|right]. intros Hex Hq. left.
  assert (Hex0 : Exists (λ th, frames th ≠ []) (threads y)).
  { apply Exists_lookup in Hex as (j & th1 & Hj & Hne). destruct (Forall2_lookup_r _ _ _ _ _ Ha Hj) as (th0 & Hj0 & Hth).
    apply Exists_lookup. exists j, th0. split; [done|]. by eapply alike_running. }
  destruct (calm_awake _ C Hq Hex0) as [Hact|[_ Hwt]].
  - apply Exists_lookup in Hact as (j & th0 & Hj & Hact). destruct (Hsame _ _ Hj) as (th1 & Hj1 & E).
    apply Exists_lookup. exists j, th1. split; [done|]. unfold active in *. by rewrite E.
  - exfalso. apply Exists_lookup in Hwt as (j & th0 & Hj & Hwt). destruct (Hsame _ _ Hj) as (th1 & Hj1 & E).
    assert (Ht : existsb is_waiting ths' = true); [|congruence]. apply existsb_exists. exists th1.
    split; [apply list_elem_of_In; by eapply list_elem_of_lookup_2|]. unfold is_waiting in *. by rewrite E.
Qed.

Lemma step_calm y i a y' es : step y i a = Some (y', es) → plain_action a → calm y → calm y'.
Proof.
  intros H Ha C. destruct (scheduler_step_inv _ _ _ _ _ H) as [th Hi Hw|th ops rest signal s' Hi Ht E|th rest Hi Ht|th rest w th' Hi Ht Hw Hw'
    |th rest Hi Ht Hw|s' es' Hf E|a th s' th' es' Hi Ht E].
  - apply threads_calm; [done|apply (alike_insert _ _ _ _ Hi); by right|left]. eapply exists_here; [done|by apply wake_active].
  - by eapply push_calm.
  - by apply stop_calm.
  - by apply signal_calm.
  - by apply silent_calm.
  - by eapply shutdown_calm.
  - eapply thread_calm; [done|done|done|]. eapply thread_step_quietly; [done..|by apply calm_loop| |].
    + by apply (Forall_lookup_1 _ _ _ _ (calm_shape _ C) Hi).
    + eapply zsum_ge; [apply Forall_true, waits_nonneg|done].
Qed.

Lemma system_make_calm n : calm (system_make false n).
Proof.
  assert (H0 : ∀ g : thread → Z, g (mkThread [] []) = 0 → zsum g (replicate n (mkThread [] [])) = 0).
  { intros g Hg. induction n as [|n IH]; [done|]. cbn. by rewrite zsum_cons, IH, Hg. }
  split; cbn; try done.
  - apply Forall_replicate. split; constructor.
  - exists false. rewrite H0 by done. done.
  - rewrite H0 by done. done.
  - by apply Forall_replicate.
Qed.

Lemma run_calm y schedule y' es :
  calm y → run y schedule = Some (y', es) → Forall (λ ia, plain_action ia.2) schedule → calm y'.
Proof.
  revert y es. induction schedule as [|[i a] schedule IH]; intros y es C; cbn.
  - by intros [= <- <-].
  - destruct (step y i a) as [[y1 es1]|] eqn:E; [|done]. cbn. destruct (run y1 schedule) as [[y2 es2]|] eqn:E2; [|done].
    intros [= <- <-] [Ha Hs]%Forall_cons_1. eapply IH; [by eapply step_calm|done|done].
Qed.

(** A thread in [run] that can do nothing by itself: it sleeps, or it is in the reactor
    and nothing has interrupted it.  A thread outside is done with its calls. *)
Definition at_rest s th : Prop := todo th = [] ∧ (frames th = [] ∨ is_waiting th = true ∨ in_reactor th ∧ interrupt_called s = false).

(** C20: No wake-up is lost: for any number of threads in run, and handlers that do not
    throw, when no thread can go on by itself, then no operation waits in the queue
    for a thread, the scheduler is not stopped, and if it has a reactor, a thread is in
    it. *)
Theorem scheduler_no_lost_wakeup n schedule y es :
  run (system_make false n) schedule = Some (y, es) → Forall (λ ia, plain_action ia.2) schedule →
  Forall (at_rest (sched y)) (threads y) → Exists (λ th, frames th ≠ []) (threads y) →
  op_queue_ (sched y) = [] ∧ stopped_ (sched y) = false ∧ (task_ (sched y) = true → Exists in_reactor (threads y)).
Proof.
  intros H Hp Hr Hex. pose proof (run_calm _ _ _ _ (system_make_calm n) H Hp) as C.
  assert (Hno : ¬ Exists (active (sched y)) (threads y)).
  { intros (i & th & Hi & Ha)%Exists_lookup. destruct (Forall_lookup_1 _ _ _ _ Hr Hi) as [_ Hth].
    unfold active, in_reactor, is_waiting in *. destruct (frames th) as [|f fs]; [done|].
    destruct (fpc f); try done; naive_solver congruence. }
  assert (Hq0 : op_queue_ (sched y) = []); [|split_and!; [done| |]].
  - destruct (decide (op_queue_ (sched y) = [])) as [|Hq]; [done|]. exfalso.
    destruct (calm_awake _ C Hq Hex) as [Ha|[Hs _]]; [done|]. apply Exists_lookup in Hs as (i & th & Hi & Hs).
    destruct (Forall_lookup_1 _ _ _ _ Hr Hi) as [Ht _]. rewrite Ht in Hs. by apply not_elem_of_nil in Hs.
  - destruct (stopped_ (sched y)) eqn:Hs; [|done]. exfalso. apply Hno. apply Exists_lookup in Hex as (i & th & Hi & Hne).
    apply Exists_lookup. exists i, th. split; [done|]. by apply (Forall_lookup_1 _ _ _ _ (calm_stopped _ C Hs) Hi).
  - intros Ht. pose proof (calm_task _ C) as Hc. rewrite Hq0, Ht in Hc. zsums. destruct (sum_some tasks (threads y)) as (i & th & Hi & Hpos);
      [apply tasks_nonneg|cbn in Hc; lia|].
    apply Exists_lookup. exists i, th. split; [done|]. destruct (Forall_lookup_1 _ _ _ _ Hr Hi) as [_ [Hf|[Hw|[Hi' _]]]]; [| |done].
    + unfold tasks in Hpos. rewrite Hf in Hpos. done.
    + pose proof (Forall_lookup_1 _ _ _ _ (calm_shape _ C) Hi) as [_ Hh]. unfold tasks, is_waiting in *.
      destruct (frames th) as [|f fs]; [done|]. cbn in Hh. rewrite zsum_cons, (proj2 (handlers_idle _ Hh)) in Hpos.
      destruct (fpc f); done.
Qed.

Lemma scheduler_no_lost_wakeup_witness :
  ∃ y es, run (system_make false 3) demo = Some (y, es) ∧
    op_queue_ (sched y) = [] ∧ stopped_ (sched y) = false ∧ (task_ (sched y) = true → Exists in_reactor (threads y)).
Proof.
  eexists _, _. split; [vm_compute; reflexivity|].
  apply (scheduler_no_lost_wakeup 3 demo _ [Work 1; Posted posted_operation; Queued posted_operation; Started posted_operation;
    Completed posted_operation]).
  - vm_compute. reflexivity.
  - repeat constructor.
  - cbn [threads sched]. constructor; [|constructor; [|constructor; [|constructor]]]; (split; [done|]).
    + right. right. split; [discriminate|done].
    + right. by left.
    + by left.
  - by left.
Defined.

(** With [run_one] a wake-up is lost: what its handler posts as a continuation goes on
    the queue when it leaves, and nobody wakes the thread that sleeps in [run]. *)
Example run_one_loses_wakeup :
  let first := mkOperation 1 true in
  let next := mkOperation 2 true in
  ∃ y es, run (system_make false 2)
    [(0%nat, PostImmediate [first] false); (0%nat, Go); (0%nat, Enter RunOne); (0%nat, Go); (1%nat, Enter Run); (1%nat, Go);
     (0%nat, PostImmediate [next] true); (0%nat, Returns); (0%nat, Go); (0%nat, Go)] = Some (y, es) ∧
  op_queue_ (sched y) = [Op next] ∧ Forall (at_rest (sched y)) (threads y) ∧ Exists (λ th, is_waiting th = true) (threads y).
Proof.
  eexists _, _. split; [vm_compute; reflexivity|]. split; [done|]. split.
  - cbn [threads sched]. constructor; [|constructor; [|constructor]]; (split; [done|]); [by left|right; by left].
  - right. by left.
Qed.

(** So it is when a handler throws out of [run]. *)
Example throwing_loses_wakeup :
  let first := mkOperation 1 true in
  let next := mkOperation 2 true in
  ∃ y es, run (system_make false 2)
    [(0%nat, PostImmediate [first] false); (0%nat, Go); (0%nat, Enter Run); (0%nat, Go); (1%nat, Enter Run); (1%nat, Go);
     (0%nat, PostImmediate [next] true); (0%nat, Throws); (0%nat, Go); (0%nat, Go)] = Some (y, es) ∧
  op_queue_ (sched y) = [Op next] ∧ Forall (at_rest (sched y)) (threads y) ∧ Exists (λ th, is_waiting th = true) (threads y).
Proof.
  eexists _, _. split; [vm_compute; reflexivity|]. split; [done|]. split.
  - cbn [threads sched]. constructor; [|constructor; [|constructor]]; (split; [done|]); [by left|right; by left].
  - right. by left.
Qed.
