(* ===== verification/Strand.v ===== *)
(** * The strand (asio/detail/strand_service.hpp, impl/strand_service.ipp)

    The connection runs the completions of its reads and writes through an
    [io_context::strand]; this file models the strand with its critical sections
    under any interleaving of the threads of an event loop.  A thread is the stack
    of what it is inside of.  Results: handlers run one at a time and in the order
    in which they entered, the strand is scheduled at most once at a time, and none
    is left over when the threads are done. *)

From Stdlib Require Import ZArith Lia.
From stdpp Require Import base list numbers.
From S2P Require Import Prelude.

Section Strand.
Context {Op : Type}.

Record strand_impl := mkStrand { locked_ : bool; waiting_queue_ : list Op; ready_queue_ : list Op }.

Definition strand_make : strand_impl := mkStrand false [] [].

(** ** The critical sections *)

(** [do_post] under the mutex; true when it has acquired the strand. *)
Definition do_post_locked (op : Op) (s : strand_impl) : bool * strand_impl :=
  if locked_ s then (false, mkStrand true (waiting_queue_ s ++ [op]) (ready_queue_ s))
  else (true, mkStrand true (waiting_queue_ s) (ready_queue_ s)).

(** [do_dispatch] under the mutex. *)
Inductive dispatched := Immediately | Waiting | Acquired.

Definition do_dispatch_locked (can_dispatch : bool) (op : Op) (s : strand_impl) : dispatched * strand_impl :=
  if can_dispatch && negb (locked_ s) then (Immediately, mkStrand true (waiting_queue_ s) (ready_queue_ s))
  else if locked_ s then (Waiting, mkStrand true (waiting_queue_ s ++ [op]) (ready_queue_ s))
  else (Acquired, mkStrand true (waiting_queue_ s) (ready_queue_ s)).

(** [~on_do_complete_exit] and [~on_dispatch_exit]; true when there are more handlers. *)
Definition on_exit_locked (s : strand_impl) : bool * strand_impl :=
  let ready := ready_queue_ s ++ waiting_queue_ s in
  let more_handlers := negb (bool_decide (length ready = 0%nat)) in
  (more_handlers, mkStrand more_handlers [] ready).

(** ** Threads *)

(** What a thread of the program is inside of, with regard to the strand: the
    push on the ready queue and the scheduling after acquiring it, a handler, the
    loop of [do_complete], and the destructor of [on_exit]. *)
Inductive frame :=
  | Push (op : Op)
  | Schedule
  | InHandler (op : Op)
  | Loop
  | OnExit.

Definition in_context (f : frame) : bool := match f with InHandler _ | Loop | OnExit => true | _ => false end.
(** [call_stack<strand_impl>::contains]. *)
Definition running_in_this_thread (stack : list frame) : bool := existsb in_context stack.

(** The thread runs code of the program, which may call the strand. *)
Definition in_program (stack : list frame) : bool :=
  match stack with [] => true | InHandler _ :: _ => true | _ => false end.

(** [scheduled] counts the strand in the queue of the event loop. *)
Record system := mkSystem { impl : strand_impl; scheduled : nat; stacks : list (list frame) }.

Inductive event :=
  | Enters (op : Op)   (** [do_post] or [do_dispatch] has taken it *)
  | Starts (op : Op)
  | Inline (op : Op)   (** [dispatch] calls it inside a handler of the strand *)
  | Returns (op : Op).

Definition moves (y : system) (i : nat) (k k' : list frame) (ys : list (list frame)) : Prop :=
  stacks y !! i = Some k ∧ ys = <[i := k']> (stacks y).

Inductive strand_step : system → list event → system → Prop :=
  | step_post y i op k acquired s ys :
      in_program k = true → do_post_locked op (impl y) = (acquired, s) →
      moves y i k (if acquired : bool then Push op :: Schedule :: k else k) ys →
      strand_step y [Enters op] (mkSystem s (scheduled y) ys)
  | step_dispatch_inline y i op k ys :
      in_program k = true → running_in_this_thread k = true → moves y i k (InHandler op :: k) ys →
      strand_step y [Inline op] (mkSystem (impl y) (scheduled y) ys)
  | step_dispatch y i op can_dispatch k r s ys :
      in_program k = true → running_in_this_thread k = false → do_dispatch_locked can_dispatch op (impl y) = (r, s) →
      moves y i k (match r with
                   | Immediately => InHandler op :: OnExit :: k
                   | Waiting => k
                   | Acquired => Push op :: Schedule :: k
                   end) ys →
      strand_step y (Enters op :: match r with Immediately => [Starts op] | _ => [] end) (mkSystem s (scheduled y) ys)
  | step_push y i op k ys :
      moves y i (Push op :: k) k ys →
      strand_step y []
        (mkSystem (mkStrand (locked_ (impl y)) (waiting_queue_ (impl y)) (ready_queue_ (impl y) ++ [op])) (scheduled y) ys)
  | step_schedule y i k ys :
      moves y i (Schedule :: k) k ys → strand_step y [] (mkSystem (impl y) (S (scheduled y)) ys)
  | step_complete y i n ys :
      scheduled y = S n → moves y i [] [Loop; OnExit] ys → strand_step y [] (mkSystem (impl y) n ys)
  | step_take y i op ready k ys :
      ready_queue_ (impl y) = op :: ready → moves y i (Loop :: k) (InHandler op :: Loop :: k) ys →
      strand_step y [Starts op] (mkSystem (mkStrand (locked_ (impl y)) (waiting_queue_ (impl y)) ready) (scheduled y) ys)
  | step_empty y i k ys :
      ready_queue_ (impl y) = [] → moves y i (Loop :: k) k ys → strand_step y [] (mkSystem (impl y) (scheduled y) ys)
  | step_return y i op k ys :
      moves y i (InHandler op :: k) k ys → strand_step y [Returns op] (mkSystem (impl y) (scheduled y) ys)
  | step_exit y i k more s ys :
      on_exit_locked (impl y) = (more, s) → moves y i (OnExit :: k) (if more : bool then Schedule :: k else k) ys →
      strand_step y [] (mkSystem s (scheduled y) ys).

Inductive strand_run : system → list event → system → Prop :=
  | run_nil y : strand_run y [] y
  | run_snoc y1 es1 y2 es2 y3 : strand_run y1 es1 y2 → strand_step y2 es2 y3 → strand_run y1 (es1 ++ es2) y3.

Definition system_make (n : nat) : system := mkSystem strand_make 0 (replicate n []).

Definition entered (es : list event) : list Op := omap (λ e, match e with Enters op => Some op | _ => None end) es.
Definition started (es : list event) : list Op := omap (λ e, match e with Starts op => Some op | _ => None end) es.

(** ** The invariant

    The strand is free, or in the queue of the event loop, or one thread has it. *)

Definition nobody (ys : list (list frame)) : Prop := ∀ j k, ys !! j = Some k → k = [].
Definition only (i : nat) (k : list frame) (ys : list (list frame)) : Prop :=
  ys !! i = Some k ∧ ∀ j k', j ≠ i → ys !! j = Some k' → k' = [].

(** The stacks of a thread that has the strand, with the handler in its hand. *)
Inductive holds : list frame → list Op → Prop :=
  | holds_push op : holds [Push op; Schedule] [op]
  | holds_schedule : holds [Schedule] []
  | holds_loop hs : holds (map InHandler hs ++ [Loop; OnExit]) []
  | holds_exit hs : holds (map InHandler hs ++ [OnExit]) [].

Inductive strand_inv : system → list event → Prop :=
  | inv_free ys es :
      nobody ys → entered es = started es → strand_inv (mkSystem strand_make 0 ys) es
  | inv_queued w r ys es :
      nobody ys → entered es = started es ++ r ++ w → strand_inv (mkSystem (mkStrand true w r) 1 ys) es
  | inv_held w r ys es i k hand :
      only i k ys → holds k hand → (hand = [] ∨ r = []) → entered es = started es ++ hand ++ r ++ w →
      strand_inv (mkSystem (mkStrand true w r) 0 ys) es.

Lemma entered_app a b : entered (a ++ b) = entered a ++ entered b.
Proof. apply omap_app. Qed.
Lemma started_app a b : started (a ++ b) = started a ++ started b.
Proof. apply omap_app. Qed.

Lemma moves_nobody ys i k k' : nobody ys → ys !! i = Some k → k = [] ∧ only i k' (<[i := k']> ys).
Proof.
  intros Hn Hi. split; [by eapply Hn|]. split.
  - apply list_lookup_insert_eq. by eapply lookup_lt_Some.
  - intros j k2 Hj. rewrite list_lookup_insert_ne by done. apply Hn.
Qed.

Lemma moves_only ys i j k k1 k' :
  only i k ys → ys !! j = Some k1 →
  (j = i ∧ k1 = k ∧ only i k' (<[j := k']> ys)) ∨ (j ≠ i ∧ k1 = [] ∧ (k' = [] → only i k (<[j := k']> ys))).
Proof.
  intros [Hi Ho] Hj. pose proof (lookup_lt_Some _ _ _ Hj) as Hlt. destruct (decide (j = i)) as [->|Hne].
  - left. split; [done|]. split; [congruence|]. split; [by apply list_lookup_insert_eq|].
    intros j k2 Hj2. rewrite list_lookup_insert_ne by done. by apply Ho.
  - right. split; [done|]. split; [by eapply Ho|]. intros ->. split; [by rewrite list_lookup_insert_ne|].
    intros l k2 Hl. destruct (decide (l = j)) as [->|]; [rewrite list_lookup_insert_eq by done; by intros [= <-]|].
    rewrite list_lookup_insert_ne by done. by apply Ho.
Qed.

Lemma only_nobody i ys : only i [] ys → nobody ys.
Proof. intros [Hi Ho] j k Hj. destruct (decide (j = i)) as [->|]; [congruence|by eapply Ho]. Qed.

(** The top of a stack that has the strand. *)
Lemma holds_program k hand :
  holds k hand → in_program k = true → hand = [] ∧ running_in_this_thread k = true ∧ (∀ op, holds (InHandler op :: k) []).
Proof.
  destruct 1 as [| |hs|hs]; try done.
  - intros H. destruct hs as [|h hs]; [done|]. split_and!; [done|done|]. intros op. apply (holds_loop (op :: h :: hs)).
  - intros H. destruct hs as [|h hs]; [done|]. split_and!; [done|done|]. intros op. apply (holds_exit (op :: h :: hs)).
Qed.

Lemma holds_cons f k hand : holds (f :: k) hand →
  match f with
  | Push op => k = [Schedule] ∧ hand = [op]
  | Schedule => k = [] ∧ hand = []
  | InHandler op => holds k [] ∧ hand = []
  | Loop => k = [OnExit] ∧ hand = []
  | OnExit => k = [] ∧ hand = []
  end.
Proof.
  inversion 1 as [| |hs E|hs E]; subst; try done.
  - destruct hs as [|h hs]; injection E as <- <-; [done|]. split; [apply holds_loop|done].
  - destruct hs as [|h hs]; injection E as <- <-; [done|]. split; [apply holds_exit|done].
Qed.

Lemma holds_nonempty k hand : holds k hand → k ≠ [].
Proof. destruct 1 as [| |[]|[]]; done. Qed.

Lemma holds_at_loop : holds [Loop; OnExit] [].
Proof. apply (holds_loop []). Qed.
Lemma holds_at_exit : holds [OnExit] [].
Proof. apply (holds_exit []). Qed.

(** A step of the system, with the stack it starts from. *)
Ltac step_cases H :=
  inversion H as [? j op k1 acq s ys' Hp Hl [Hj ->]|? j op k1 ys' Hp Hin [Hj ->]|? j op can k1 rr s ys' Hp Hin Hl [Hj ->]
    |? j op k1 ys' [Hj ->]|? j k1 ys' [Hj ->]|? j n ys' Hs [Hj ->]|? j op ready k1 ys' Hq [Hj ->]|? j k1 ys' Hq [Hj ->]
    |? j op k1 ys' [Hj ->]|? j k1 more s ys' Hl [Hj ->]]; subst;
  cbn [impl scheduled stacks locked_ waiting_queue_ ready_queue_] in *.

Ltac events := rewrite ?entered_app, ?started_app; cbn; rewrite ?app_nil_r.

Lemma step_free ys es es' y' :
  nobody ys → entered es = started es → strand_step (mkSystem strand_make 0 ys) es' y' → strand_inv y' (es ++ es').
Proof.
  intros Hn He H. step_cases H; pose proof (Hn _ _ Hj) as Hk; try discriminate; subst; try (by vm_compute in Hin).
  - injection Hl as <- <-. apply (inv_held [] [] _ _ j [Push op; Schedule] [op]);
      [by eapply moves_nobody|constructor|by right|]. events. by rewrite He.
  - unfold do_dispatch_locked in Hl. cbn [locked_ strand_make] in Hl. destruct can; injection Hl as <- <-.
    + apply (inv_held [] [] _ _ j [InHandler op; OnExit] []);
        [by eapply moves_nobody|apply (holds_exit [op])|by left|]. events. by rewrite He.
    + apply (inv_held [] [] _ _ j [Push op; Schedule] [op]);
        [by eapply moves_nobody|constructor|by right|]. events. by rewrite He.
Qed.

Lemma nobody_same ys j : nobody ys → ys !! j = Some [] → nobody (<[j := []]> ys).
Proof. intros Hn Hj. by rewrite list_insert_id. Qed.

Lemma step_queued w r ys es es' y' :
  nobody ys → entered es = started es ++ r ++ w → strand_step (mkSystem (mkStrand true w r) 1 ys) es' y' →
  strand_inv y' (es ++ es').
Proof.
  intros Hn He H. step_cases H; pose proof (Hn _ _ Hj) as Hk; try discriminate; subst; try (by vm_compute in Hin).
  - injection Hl as <- <-. apply inv_queued; [by apply nobody_same|]. events. by rewrite He, !app_assoc.
  - unfold do_dispatch_locked in Hl. rewrite andb_false_r in Hl. injection Hl as <- <-.
    apply inv_queued; [by apply nobody_same|]. events. by rewrite He, !app_assoc.
  - injection Hs as <-. apply (inv_held w r _ _ j [Loop; OnExit] []);
      [by eapply moves_nobody|apply holds_at_loop|by left|]. by events.
Qed.

Lemma step_held w r ys es i k hand es' y' :
  only i k ys → holds k hand → (hand = [] ∨ r = []) → entered es = started es ++ hand ++ r ++ w →
  strand_step (mkSystem (mkStrand true w r) 0 ys) es' y' → strand_inv y' (es ++ es').
Proof.
  intros Ho Hh Hr He H.
  assert (Hmove : ∀ j k1 k', ys !! j = Some k1 → k1 ≠ [] → j = i ∧ k1 = k ∧ only i k' (<[j := k']> ys)).
  { intros j k1 k' Hj Hne. by destruct (moves_only ys i j k k1 k' Ho Hj) as [?|(_ & ? & _)]. }
  assert (Hstay : ∀ j k1, ys !! j = Some k1 → only i k (<[j := k1]> ys)) by (intros j k1 Hj; by rewrite list_insert_id).
  step_cases H.
  - injection Hl as <- <-. apply (inv_held _ r _ _ i k hand); [by apply Hstay|done|done|]. events. by rewrite He, !app_assoc.
  - destruct (Hmove j k1 (InHandler op :: k1) Hj) as (-> & -> & Ho'); [by intros ->|].
    destruct (holds_program _ _ Hh Hp) as (-> & _ & Hop). apply (inv_held w r _ _ i _ [] Ho'); [apply Hop|by left|]. by events.
  - unfold do_dispatch_locked in Hl. cbn [locked_] in Hl. rewrite andb_false_r in Hl. injection Hl as <- <-.
    apply (inv_held _ r _ _ i k hand); [by apply Hstay|done|done|]. events. by rewrite He, !app_assoc.
  - destruct (Hmove j _ k1 Hj) as (-> & <- & Ho'); [done|]. apply holds_cons in Hh as [-> ->]. destruct Hr as [| ->]; [done|].
    apply (inv_held w [op] _ _ i [Schedule] [] Ho'); [constructor|by left|]. by events.
  - destruct (Hmove j _ k1 Hj) as (-> & <- & Ho'); [done|]. apply holds_cons in Hh as [-> ->].
    apply inv_queued; [by eapply only_nobody|]. by events.
  - done.
  - destruct (Hmove j _ (InHandler op :: Loop :: k1) Hj) as (-> & <- & Ho'); [done|]. apply holds_cons in Hh as [-> ->].
    apply (inv_held w ready _ _ i _ [] Ho'); [apply (holds_loop [op])|by left|]. events. by rewrite He, Hq, <- app_assoc.
  - destruct (Hmove j _ k1 Hj) as (-> & <- & Ho'); [done|]. apply holds_cons in Hh as [-> ->].
    rewrite Hq in He |- *. apply (inv_held w [] _ _ i [OnExit] [] Ho'); [apply holds_at_exit|by left|]. by events.
  - destruct (Hmove j _ k1 Hj) as (-> & <- & Ho'); [done|]. apply holds_cons in Hh as [Hk ->].
    apply (inv_held w r _ _ i k1 [] Ho'); [done|by left|]. by events.
  - destruct (Hmove j _ (if more then Schedule :: k1 else k1) Hj) as (-> & <- & Ho'); [done|]. apply holds_cons in Hh as [-> ->].
    unfold on_exit_locked in Hl. cbn [ready_queue_ waiting_queue_] in Hl. injection Hl as <- <-. cbn [app] in He.
    case_bool_decide as Hlen; cbn [negb] in *.
    + apply nil_length_inv in Hlen. rewrite Hlen in He |- *. rewrite app_nil_r in He.
      apply inv_free; [by eapply only_nobody|]. by events.
    + apply (inv_held [] (r ++ w) _ _ i [Schedule] [] Ho'); [constructor|by left|]. events. done.
Qed.

Lemma run_inv n y es : strand_run (system_make n) es y → strand_inv y es.
Proof.
  intros H. remember (system_make n) as y0 eqn:E. induction H as [|y1 es1 y2 es2 y3 _ IH Hs]; subst.
  - apply inv_free; [|done]. intros j k Hj. by apply lookup_replicate in Hj as [-> _].
  - destruct (IH eq_refl) as [ys es Hn He|w r ys es Hn He|w r ys es i k hand Ho Hh Hr He];
      [by eapply step_free|by eapply step_queued|by eapply step_held].
Qed.

(** C33: a strand serializes its handlers, whatever threads post to it, dispatch
    to it and run it, in any interleaving.  No two threads are inside its handlers
    at a time; the handlers start in the order in which [post] and [dispatch] took
    them; the strand is never in the queue of the event loop twice; and when no
    thread is inside the strand and it is not scheduled, all have been started. *)
Theorem strand_serial n y es :
  strand_run (system_make n) es y →
  (∀ i j ki kj, stacks y !! i = Some ki → stacks y !! j = Some kj →
     running_in_this_thread ki = true → running_in_this_thread kj = true → i = j) ∧
  started es `prefix_of` entered es ∧ (scheduled y ≤ 1)%nat ∧
  ((∀ i k, stacks y !! i = Some k → k = []) → scheduled y = 0%nat → started es = entered es).
Proof.
  intros H. apply run_inv in H. destruct H as [ys es Hn He|w r ys es Hn He|w r ys es i k hand [Hi Ho] Hh Hr He];
    cbn [stacks scheduled].
  - split_and!; [|by rewrite He|lia|done]. intros i j ki kj Hi _ Hki _. by rewrite (Hn _ _ Hi) in Hki.
  - split_and!; [|rewrite He; by apply prefix_app_r|lia|lia]. intros i j ki kj Hi _ Hki _. by rewrite (Hn _ _ Hi) in Hki.
  - split_and!; [|rewrite He; by apply prefix_app_r|lia|].
    + intros i1 i2 k1 k2 H1 H2 Hk1 Hk2. destruct (decide (i1 = i)) as [->|N1]; [|by rewrite (Ho _ _ N1 H1) in Hk1].
      destruct (decide (i2 = i)) as [->|N2]; [done|by rewrite (Ho _ _ N2 H2) in Hk2].
    + intros Hall _. apply holds_nonempty in Hh. by destruct Hh, (Hall i k Hi).
Qed.

End Strand.

(** Two threads post while one of them runs the strand. *)
Definition sample_events : list (event (Op := nat)) := [Enters 1; Enters 2; Starts 1; Enters 3; Returns 1]%nat.

Lemma sample_strand_run : ∃ y, strand_run (system_make 2) sample_events y ∧ waiting_queue_ (impl y) = [2; 3]%nat.
Proof.
  eexists. split.
  - change sample_events with ((((((([] ++ [Enters 1]) ++ [Enters 2]) ++ []) ++ []) ++ []) ++ [Starts 1] ++ [Enters 3]) ++ [Returns 1])%nat.
    eapply run_snoc; [rewrite app_assoc; eapply run_snoc; [eapply run_snoc; [eapply run_snoc; [eapply run_snoc;
      [eapply run_snoc; [eapply run_snoc; [eapply run_snoc; [constructor|]|]|]|]|]|]|]|].
    + by eapply (step_post _ 0 1%nat [] true).
    + by eapply (step_post _ 1 2%nat [] false).
    + by eapply (step_push _ 0).
    + by eapply (step_schedule _ 0).
    + by eapply (step_complete _ 1).
    + by eapply (step_take _ 1).
    + by eapply (step_post _ 0 3%nat [] false).
    + by eapply (step_return _ 1).
  - done.
Qed.

Lemma strand_serial_witness : ∃ y, strand_run (system_make 2) sample_events y ∧ started sample_events `prefix_of` entered sample_events.
Proof. destruct sample_strand_run as (y & Hy & _). exists y. split; [done|]. by destruct (strand_serial 2 y sample_events Hy) as (_ & H & _). Defined.
