(* ===== verification/StrandTable.v ===== *)
(** * The table of strands (asio/detail/strand_service.hpp, impl/strand_service.ipp)

    A strand object is given one of 193 implementations, by its address and a count.  Results:
    an object always gets an implementation, nothing that waits in one is lost by it, any 194
    objects share one, and the shutdown takes every handler that waits. *)

From Stdlib Require Import ZArith Lia.
From stdpp Require Import base list numbers.
From S2P Require Import Prelude.
From S2P Require Import Strand.

#[local] Open Scope Z_scope.

Definition num_implementations : Z := 193.

Section Table.
Context {Op : Type}.

Record strand_service := mkStrands { implementations_ : list (option (strand_impl (Op := Op))); salt_ : Z }.

Definition strand_service_make : strand_service := mkStrands (replicate (Z.to_nat num_implementations) None) 0.

(** On [std::size_t]. *)
Definition strand_index (address salt : Z) : Z :=
  let index := u64 address in
  let index := u64 (index + Z.shiftr (u64 address) 3) in
  let index := Z.lxor index (u64 (salt + 0x9e3779b9 + u64 (Z.shiftl index 6) + Z.shiftr index 2)) in
  index mod num_implementations.

(** [construct] for the strand object at [address]; the value is the index of its implementation. *)
Definition strand_construct (address : Z) : M strand_service Z := λ svc,
  let salt := salt_ svc in
  let index := strand_index address salt in
  let salt' := u64 (salt + 1) in
  match implementations_ svc !! Z.to_nat index with
  | None => Fault OutOfBounds
  | Some (Some _) => Ok (index, mkStrands (implementations_ svc) salt')
  | Some None => Ok (index, mkStrands (<[Z.to_nat index := Some strand_make]> (implementations_ svc)) salt')
  end.

Fixpoint construct_all (addresses : list Z) : M strand_service (list Z) :=
  match addresses with
  | [] => mret []
  | a :: addresses => i ← strand_construct a; l ← construct_all addresses; mret (i :: l)
  end.

(** The handlers of an implementation go into [ops], which destroys them. *)
Definition emptied (s : strand_impl (Op := Op)) : strand_impl (Op := Op) := mkStrand (locked_ s) [] [].
Definition waits_in (s : option (strand_impl (Op := Op))) : list Op :=
  match s with Some s => waiting_queue_ s ++ ready_queue_ s | None => [] end.

Definition strand_shutdown : M strand_service (list Op) := λ svc,
  Ok (List.concat (map waits_in (implementations_ svc)), mkStrands (map (fmap emptied) (implementations_ svc)) (salt_ svc)).

(** ** Lemmas *)

Definition table_ok (svc : strand_service) : Prop := zlen (implementations_ svc) = num_implementations.

Lemma strand_index_range address salt : 0 ≤ strand_index address salt < num_implementations.
Proof. unfold strand_index. apply Z.mod_pos_bound. done. Qed.

Lemma construct_ok address svc : table_ok svc → ∃ svc', strand_construct address svc = Ok (strand_index address (salt_ svc), svc') ∧ table_ok svc' ∧
  is_Some (implementations_ svc' !! Z.to_nat (strand_index address (salt_ svc)) ≫= id) ∧
  ∀ k s, implementations_ svc !! k = Some (Some s) → implementations_ svc' !! k = Some (Some s).
Proof.
  intros Ht. pose proof (strand_index_range address (salt_ svc)) as Hr. unfold strand_construct. set (j := Z.to_nat (strand_index _ _)).
  assert (Hj : (j < length (implementations_ svc))%nat) by (unfold table_ok, zlen in Ht; lia).
  destruct (lookup_lt_is_Some_2 _ _ Hj) as [o Ho]. rewrite Ho. destruct o as [s|]; eexists; (split; [reflexivity|]); cbn.
  - split; [done|]. rewrite Ho. split; [by eexists|done].
  - split; [unfold table_ok, zlen in *; cbn; by rewrite length_insert|]. rewrite list_lookup_insert_eq by done. split; [by eexists|].
    intros k s Hk. destruct (decide (j = k)) as [<-|Hne]; [congruence|]. by rewrite list_lookup_insert_ne.
Qed.

Lemma construct_all_ok addresses svc : table_ok svc → ∃ l svc', construct_all addresses svc = Ok (l, svc') ∧ table_ok svc' ∧
  length l = length addresses ∧ Forall (λ i, 0 ≤ i < num_implementations ∧ is_Some (implementations_ svc' !! Z.to_nat i ≫= id)) l ∧
  ∀ k s, implementations_ svc !! k = Some (Some s) → implementations_ svc' !! k = Some (Some s).
Proof.
  revert svc. induction addresses as [|a addresses IH]; intros svc Ht; [exists [], svc; by split_and!|]. cbn [construct_all].
  destruct (construct_ok a svc Ht) as (svc1 & E1 & Ht1 & Hs1 & Hk1). rewrite (bind_ok _ _ _ _ _ E1).
  destruct (IH svc1 Ht1) as (l & svc2 & E2 & Ht2 & Hl & Hf & Hk2). rewrite (bind_ok _ _ _ _ _ E2).
  eexists _, svc2. split; [reflexivity|]. split_and!; [done|by cbn; f_equal| |auto]. constructor; [|done]. split; [apply strand_index_range|].
  destruct Hs1 as [s Hs]. destruct (implementations_ svc1 !! _) as [[s'|]|] eqn:E; cbn in Hs; try done. rewrite (Hk2 _ _ E). by eexists.
Qed.

Lemma table_make : table_ok strand_service_make.
Proof. done. Qed.

(** Any strand objects, constructed one after the other, each get an implementation that is there in the end; what
    waits in an implementation stays there; and of more than 193 objects two share one. *)
Theorem strands_constructed addresses svc : table_ok svc → ∃ l svc', construct_all addresses svc = Ok (l, svc') ∧ length l = length addresses ∧
  Forall (λ i, is_Some (implementations_ svc' !! Z.to_nat i ≫= id)) l ∧
  (∀ k s, implementations_ svc !! k = Some (Some s) → implementations_ svc' !! k = Some (Some s)) ∧
  (num_implementations < zlen addresses → ¬ NoDup l).
Proof.
  intros Ht. destruct (construct_all_ok addresses svc Ht) as (l & svc' & E & _ & Hl & Hf & Hk). exists l, svc'. split_and!; [done..| |done|].
  - rewrite !Forall_forall in *. intros i Hi. by apply Hf.
  - intros Hn Hnd. assert (Hsub : l ⊆ seqZ 0 num_implementations).
    { intros i Hi. rewrite Forall_forall in Hf. apply elem_of_seqZ. apply list_elem_of_In in Hi. destruct (Hf i Hi) as [? _]. lia. }
    apply NoDup_submseteq, submseteq_length in Hsub; [|done]. rewrite length_seqZ in Hsub. unfold zlen, num_implementations in *. lia.
Qed.

(** The shutdown takes every handler that waits in an implementation, and leaves none. *)
Theorem strands_shut_down svc : ∃ ops svc', strand_shutdown svc = Ok (ops, svc') ∧
  (∀ k s op, implementations_ svc !! k = Some (Some s) → op ∈ waiting_queue_ s ++ ready_queue_ s → op ∈ ops) ∧
  List.concat (map waits_in (implementations_ svc')) = [] ∧ length (implementations_ svc') = length (implementations_ svc).
Proof.
  eexists _, _. split; [reflexivity|]. split_and!.
  - intros k s op Hk Hop. apply list_elem_of_In, in_concat. exists (waits_in (Some s)). split; [|by apply list_elem_of_In].
    apply in_map, list_elem_of_In. by apply list_elem_of_lookup_2 in Hk.
  - cbn. induction (implementations_ svc) as [|[s|] l IH]; [done|exact IH|exact IH].
  - cbn. apply length_map.
Qed.

End Table.

(** Two connections 8192 bytes apart get the implementations 190 and 115. *)
Example two_strands : (λ r, (r.1 : list Z)) <$> (match construct_all (Op := nat) [0x7f0000001000; 0x7f0000003000] strand_service_make with Ok r => Some r | Fault _ => None end) =
  Some [190; 115].
Proof. vm_compute. reflexivity. Qed.
