(* ===== verification/TimerQueue.v ===== *)
(** * The timer queue of the event loop (asio/detail/timer_queue.hpp)

    The waits of the repeating timer and of the reconnect timer end up in this
    queue: a binary heap of the timers' times, a linked list of the active timers,
    and for each timer the waits on it.  Timers are addresses; the members of every
    [per_timer_data] are functions from its address, a heap index that stands for
    none ([numeric_limits<size_t>::max()]) is [None].  Result: the queue refines a
    finite map from timers to their time and waits. *)

From Stdlib Require Import ZArith Lia.
From stdpp Require Import base list numbers functions fin_maps gmap sorting.
From S2P Require Import Prelude.

#[local] Open Scope Z_scope.

(** ** Time (asio/detail/chrono_time_traits.hpp)

    Times and durations of the steady clock are 64-bit numbers of nanoseconds, the
    epoch is 0; arithmetic that overflows is a fault. *)

Definition int64_max : Z := 2 ^ 63 - 1.
Definition int64_min : Z := - 2 ^ 63.
Definition in_int64 (z : Z) : Prop := int64_min ≤ z ≤ int64_max.

Definition int64 (z : Z) : result Z :=
  if (int64_min <=? z) && (z <=? int64_max) then Ok z else Fault SignedOverflow.

Definition time_add (t d : Z) : result Z :=
  if 0 <=? t then
    match int64 (int64_max - t) with
    | Ok room => if room <? d then Ok int64_max else int64 (t + d)
    | Fault f => Fault f
    end
  else
    match int64 (t - int64_min) with
    | Ok room => if - room >? d then Ok int64_min else int64 (t + d)
    | Fault f => Fault f
    end.

Definition time_subtract (t1 t2 : Z) : result Z :=
  if 0 <=? t1 then
    if 0 <=? t2 then int64 (t1 - t2)
    else if t2 =? int64_min then Ok int64_max
    else
      match int64 (int64_max - t1), int64 (- t2) with
      | Ok room, Ok d => if room <? d then Ok int64_max else int64 (t1 - t2)
      | Fault f, _ | _, Fault f => Fault f
      end
  else if t2 <? 0 then int64 (t1 - t2)
  else if t1 =? int64_min then Ok int64_min
  else
    match int64 (int64_max - t2), int64 (- t1), int64 (t2 - t1) with
    | Ok room, Ok d, back => if room <? d then Ok int64_min else match back with Ok b => int64 (- b) | Fault f => Fault f end
    | Fault f, _, _ | _, Fault f, _ => Fault f
    end.

(** The clock counts nanoseconds. *)
Definition period_num : Z := 1.
Definition period_den : Z := 10 ^ 9.

Definition duration_cast (Num Den ticks : Z) : result Z :=
  let num1 := period_num / Z.gcd period_num Num in
  let num2 := Num / Z.gcd period_num Num in
  let den1 := period_den / Z.gcd period_den Den in
  let den2 := Den / Z.gcd period_den Den in
  let num := num1 * den2 in
  let den := num2 * den1 in
  if (num =? 1) && (den =? 1) then Ok ticks
  else if negb (num =? 1) && (den =? 1) then int64 (ticks * num)
  else if (num =? 1) && negb (period_den =? 1) then Ok (Z.quot ticks den)
  else match int64 (ticks * num) with Ok n => Ok (Z.quot n den) | Fault f => Fault f end.

Inductive units := msec | usec.

(** [total_milliseconds] and [total_microseconds] *)
Definition total (u : units) : Z → result Z :=
  match u with msec => duration_cast 1 1000 | usec => duration_cast 1 1000000 end.

(** The ticks of a unit. *)
Definition unit_ticks (u : units) : Z := match u with msec => 1000000 | usec => 1000 end.

Definition clamp (z : Z) : Z := Z.max int64_min (Z.min z int64_max).

(** ** State *)

(** A wait: its address and its cancellation key. *)
Record wait_op := mkWaitOp { op_address : nat; cancellation_key : Z }.

#[global] Instance wait_op_eq_dec : EqDecision wait_op.
Proof. solve_decision. Defined.

(** What a wait completes with. *)
Inductive ec := success | operation_aborted.

Record timer_queue := mkTQ {
  timers_ : option nat;
  heap_ : list (Z * nat);
  op_queue_ : nat → list wait_op;
  heap_index_ : nat → option nat;
  next_ : nat → option nat;
  prev_ : nat → option nat
}.

Definition timer_queue_make : timer_queue := mkTQ None [] (λ _, []) (λ _, None) (λ _, None) (λ _, None).

Definition set_timers (p : option nat) (q : timer_queue) : timer_queue :=
  mkTQ p (heap_ q) (op_queue_ q) (heap_index_ q) (next_ q) (prev_ q).
Definition set_heap (h : list (Z * nat)) (q : timer_queue) : timer_queue :=
  mkTQ (timers_ q) h (op_queue_ q) (heap_index_ q) (next_ q) (prev_ q).
Definition set_ops (p : nat) (ops : list wait_op) (q : timer_queue) : timer_queue :=
  mkTQ (timers_ q) (heap_ q) (<[p := ops]> (op_queue_ q)) (heap_index_ q) (next_ q) (prev_ q).
Definition set_index (p : nat) (i : option nat) (q : timer_queue) : timer_queue :=
  mkTQ (timers_ q) (heap_ q) (op_queue_ q) (<[p := i]> (heap_index_ q)) (next_ q) (prev_ q).
Definition set_next (p : nat) (n : option nat) (q : timer_queue) : timer_queue :=
  mkTQ (timers_ q) (heap_ q) (op_queue_ q) (heap_index_ q) (<[p := n]> (next_ q)) (prev_ q).
Definition set_prev (p : nat) (n : option nat) (q : timer_queue) : timer_queue :=
  mkTQ (timers_ q) (heap_ q) (op_queue_ q) (heap_index_ q) (next_ q) (<[p := n]> (prev_ q)).

(** Writing a member of the timer a pointer points to, if it is not null. *)
Definition if_timer (p : option nat) (f : nat → timer_queue → timer_queue) (q : timer_queue) : timer_queue :=
  match p with Some a => f a q | None => q end.

Abbreviation MQ := (M timer_queue).

(** [heap_[i]] *)
Definition heap_at (i : nat) : MQ (Z * nat) := λ q,
  match heap_ q !! i with Some e => Ok (e, q) | None => Fault OutOfBounds end.

(** ** The heap *)

Definition swap_heap (index1 index2 : nat) : MQ unit :=
  tmp ← heap_at index1;
  e ← heap_at index2;
  modify (λ q, set_heap (<[index2 := tmp]> (<[index1 := e]> (heap_ q))) q);;
  e1 ← heap_at index1;
  modify (set_index e1.2 (Some index1));;
  e2 ← heap_at index2;
  modify (set_index e2.2 (Some index2)).

(** The index falls with every turn. *)
Fixpoint up_heap (fuel : nat) (index : nat) : MQ unit :=
  match fuel with
  | O => mret tt
  | S fuel' =>
      if (0 <? index)%nat then
        let parent := ((index - 1) / 2)%nat in
        e ← heap_at index;
        p ← heap_at parent;
        if negb (e.1 <? p.1) then mret tt
        else swap_heap index parent;; up_heap fuel' parent
      else mret tt
  end.

Definition earliest_child (size child : nat) : MQ nat :=
  if (child + 1 =? size)%nat then mret child
  else
    c ← heap_at child;
    d ← heap_at (child + 1);
    mret (if c.1 <? d.1 then child else (child + 1)%nat).

(** The index grows with every turn. *)
Fixpoint down_heap (fuel : nat) (index : nat) : MQ unit :=
  match fuel with
  | O => mret tt
  | S fuel' =>
      let child := (index * 2 + 1)%nat in
      size ← gets (λ q, length (heap_ q));
      if (child <? size)%nat then
        min_child ← earliest_child size child;
        e ← heap_at index;
        m ← heap_at min_child;
        if e.1 <? m.1 then mret tt
        else swap_heap index min_child;; down_heap fuel' min_child
      else mret tt
  end.

Definition pop_back : MQ unit := modify (λ q, set_heap (take (length (heap_ q) - 1) (heap_ q)) q).

Definition remove_from_heap (timer : nat) : MQ unit :=
  index ← gets (λ q, heap_index_ q timer);
  size ← gets (λ q, length (heap_ q));
  match index with
  | Some index =>
      if negb (size =? 0)%nat && (index <? size)%nat then
        if (index =? size - 1)%nat then modify (set_index timer None);; pop_back
        else
          swap_heap index (size - 1);;
          modify (set_index timer None);;
          pop_back;;
          up ←
            (if (0 <? index)%nat then
               e ← heap_at index; p ← heap_at ((index - 1) / 2); mret (e.1 <? p.1)
             else mret false : MQ bool);
          if up : bool then up_heap size index else down_heap size index
      else mret tt
  | None => mret tt
  end.

Definition unlink_timer (timer : nat) : MQ unit :=
  modify (λ q, if decide (timers_ q = Some timer) then set_timers (next_ q timer) q else q);;
  modify (λ q, if_timer (prev_ q timer) (λ p, set_next p (next_ q timer)) q);;
  modify (λ q, if_timer (next_ q timer) (λ n, set_prev n (prev_ q timer)) q);;
  modify (set_next timer None);;
  modify (set_prev timer None).

Definition remove_timer (timer : nat) : MQ unit := remove_from_heap timer;; unlink_timer timer.

(** ** The operations *)

(** [timer.prev_ == 0 && &timer != timers_] *)
Definition inactive (timer : nat) (q : timer_queue) : bool :=
  bool_decide (prev_ q timer = None) && bool_decide (timers_ q ≠ Some timer).

(** A timer that is not in the queue is put at the end of the heap, moved up, and
    becomes the first of the list.  A [steady_timer]'s time is never infinite. *)
Definition insert_timer (time : Z) (timer : nat) : MQ unit :=
  modify (λ q, set_heap (heap_ q ++ [(time, timer)]) (set_index timer (Some (length (heap_ q))) q));;
  size ← gets (λ q, length (heap_ q));
  up_heap size (size - 1);;
  modify (λ q, set_next timer (timers_ q) q);;
  modify (set_prev timer None);;
  modify (λ q, if_timer (timers_ q) (λ t, set_prev t (Some timer)) q);;
  modify (set_timers (Some timer)).

Definition enqueue_timer (time : Z) (timer : nat) (op : wait_op) : MQ bool :=
  new ← gets (inactive timer);
  when new (insert_timer time timer);;
  modify (λ q, set_ops timer (op_queue_ q timer ++ [op]) q);;
  gets (λ q, bool_decide (heap_index_ q timer = Some 0%nat) && bool_decide (head (op_queue_ q timer) = Some op)).

Definition empty : MQ bool := gets (λ q, bool_decide (timers_ q = None)).

(** [to_msec] and [to_usec]. *)
Definition to_units (u : units) (d max_duration : Z) : result Z :=
  if d <=? 0 then Ok 0
  else
    match total u d with
    | Ok n => Ok (if n =? 0 then 1 else if n >? max_duration then max_duration else n)
    | Fault f => Fault f
    end.

Definition wait_duration (u : units) (now max_duration : Z) : MQ Z :=
  h ← gets heap_;
  match h with
  | [] => mret max_duration
  | e :: _ => d ← lift (time_subtract e.1 now); lift (to_units u d max_duration)
  end.

(** The loop removes a timer with every turn. *)
Fixpoint ready_loop (fuel : nat) (now : Z) (ops : list (wait_op * ec)) : MQ (list (wait_op * ec)) :=
  h ← gets heap_;
  match fuel, h with
  | S fuel', (time, timer) :: _ =>
      if negb (now <? time) then
        waits ← gets (λ q, op_queue_ q timer);
        modify (set_ops timer []);;
        remove_timer timer;;
        ready_loop fuel' now (ops ++ map (λ op, (op, success)) waits)
      else mret ops
  | _, _ => mret ops
  end.
Definition get_ready_timers (now : Z) (ops : list (wait_op * ec)) : MQ (list (wait_op * ec)) :=
  fuel ← gets (λ q, length (heap_ q)); ready_loop fuel now ops.

Definition cancel_timer (timer : nat) (max_cancelled : nat) : MQ (list (wait_op * ec)) :=
  new ← gets (inactive timer);
  if new : bool then mret []
  else
    waits ← gets (λ q, op_queue_ q timer);
    modify (set_ops timer (drop max_cancelled waits));;
    when (bool_decide (drop max_cancelled waits = [])) (remove_timer timer);;
    mret (map (λ op, (op, operation_aborted)) (take max_cancelled waits)).

Definition has_key (key : Z) (op : wait_op) : bool := cancellation_key op =? key.

Definition cancel_timer_by_key (timer : nat) (key : Z) : MQ (list (wait_op * ec)) :=
  new ← gets (inactive timer);
  if new : bool then mret []
  else
    waits ← gets (λ q, op_queue_ q timer);
    let other_ops := List.filter (λ op, negb (has_key key op)) waits in
    modify (set_ops timer other_ops);;
    when (bool_decide (other_ops = [])) (remove_timer timer);;
    mret (map (λ op, (op, operation_aborted)) (List.filter (has_key key) waits)).

(** [target] is empty. *)
Definition move_timer (target source : nat) : MQ unit :=
  modify (λ q, set_ops source [] (set_ops target (op_queue_ q target ++ op_queue_ q source) q));;
  modify (λ q, set_index source None (set_index target (heap_index_ q source) q));;
  q ← gets id;
  match heap_index_ q target with
  | Some i =>
      when (i <? length (heap_ q))%nat
        (e ← heap_at i; modify (λ q, set_heap (<[i := (e.1, target)]> (heap_ q)) q))
  | None => mret tt
  end;;
  modify (λ q, if decide (timers_ q = Some source) then set_timers (Some target) q else q);;
  modify (λ q, if_timer (prev_ q source) (λ p, set_next p (Some target)) q);;
  modify (λ q, if_timer (next_ q source) (λ n, set_prev n (Some target)) q);;
  modify (λ q, set_next target (next_ q source) q);;
  modify (λ q, set_prev target (prev_ q source) q);;
  modify (set_next source None);;
  modify (set_prev source None).

(** The list of the active timers has at most as many as the heap. *)
Fixpoint all_loop (fuel : nat) (ops : list wait_op) : MQ (list wait_op) :=
  t ← gets timers_;
  match fuel, t with
  | S fuel', Some timer =>
      waits ← gets (λ q, op_queue_ q timer);
      modify (λ q, set_timers (next_ q timer) q);;
      modify (set_ops timer []);;
      modify (set_next timer None);;
      modify (set_prev timer None);;
      all_loop fuel' (ops ++ waits)
  | _, _ => mret ops
  end.
Definition get_all_timers (ops : list wait_op) : MQ (list wait_op) :=
  fuel ← gets (λ q, length (heap_ q));
  ops ← all_loop fuel ops;
  modify (set_heap []);;
  mret ops.

(** ** Time does not overflow *)

Lemma int64_ok z : in_int64 z → int64 z = Ok z.
Proof. intros [H1 H2]. unfold int64. by rewrite (proj2 (Z.leb_le _ _) H1), (proj2 (Z.leb_le _ _) H2). Qed.

Ltac int64s := unfold in_int64, clamp, int64_min, int64_max in *;
  repeat match goal with
  | |- context [int64 ?z] => rewrite (int64_ok z) by (unfold in_int64, int64_min, int64_max in *; lia)
  | |- context [if ?b then _ else _] => destruct b eqn:?
  end; try lia; try (f_equal; lia).

(** The arithmetic on times never overflows: it saturates at the ends of the
    clock's range. *)
Lemma times_saturate t d : in_int64 t → in_int64 d → time_add t d = Ok (clamp (t + d)) ∧ time_subtract t d = Ok (clamp (t - d)).
Proof.
  intros Ht Hd. split.
  - unfold time_add. int64s.
  - unfold time_subtract. int64s.
Qed.

(** ** Swapping *)

(** Every timer of the heap knows its place. *)
Definition indexed (q : timer_queue) : Prop := ∀ i e, heap_ q !! i = Some e → heap_index_ q e.2 = Some i.

(** [q'] differs from [q] in the order of the heap only. *)
Record reordered (q q' : timer_queue) : Prop := {
  r_length : length (heap_ q') = length (heap_ q);
  r_elements : ∀ e, e ∈ heap_ q' ↔ e ∈ heap_ q;
  r_indexed : indexed q → indexed q';
  r_timers : timers_ q' = timers_ q;
  r_ops : op_queue_ q' = op_queue_ q;
  r_next : next_ q' = next_ q;
  r_prev : prev_ q' = prev_ q
}.

Lemma reordered_refl q : reordered q q.
Proof. by split. Qed.

Lemma reordered_trans q1 q2 q3 : reordered q1 q2 → reordered q2 q3 → reordered q1 q3.
Proof.
  intros [L1 E1 I1 T1 O1 N1 P1] [L2 E2 I2 T2 O2 N2 P2]. split; try congruence; [|by auto].
  intros e. by rewrite E2.
Qed.

(** The index where [swap_heap i j] finds the entry of [k]. *)
Definition transposed (i j k : nat) : nat := if decide (k = i) then j else if decide (k = j) then i else k.

Lemma transposed_twice i j k : transposed i j (transposed i j k) = k.
Proof. unfold transposed. repeat case_decide; congruence. Qed.

Lemma heap_at_ok i e q : heap_ q !! i = Some e → heap_at i q = Ok (e, q).
Proof. intros H. unfold heap_at. by rewrite H. Qed.

Lemma swap_ok i j q :
  i ≠ j → (i < length (heap_ q))%nat → (j < length (heap_ q))%nat →
  ∃ q', swap_heap i j q = Ok (tt, q') ∧ reordered q q' ∧ ∀ k, heap_ q' !! k = heap_ q !! transposed i j k.
Proof.
  intros Hij Hi Hj. destruct (lookup_lt_is_Some_2 _ _ Hi) as [a Ha]. destruct (lookup_lt_is_Some_2 _ _ Hj) as [b Hb].
  set (h := <[j := a]> (<[i := b]> (heap_ q))).
  assert (Hh : ∀ k, h !! k = heap_ q !! transposed i j k).
  { intros k. unfold h, transposed. repeat case_decide; subst.
    - by rewrite list_lookup_insert_ne, list_lookup_insert_eq by done.
    - by rewrite list_lookup_insert_eq by (by rewrite length_insert).
    - by rewrite !list_lookup_insert_ne by done. }
  assert (Hhi : h !! i = Some b) by (rewrite Hh; unfold transposed; by case_decide).
  assert (Hhj : h !! j = Some a) by (rewrite Hh; unfold transposed; by repeat case_decide).
  exists (set_index a.2 (Some j) (set_index b.2 (Some i) (set_heap h q))). split; [|split; [|exact Hh]].
  - unfold swap_heap. mgo (heap_at_ok i a q Ha). mgo (heap_at_ok j b q Hb). fold h.
    erewrite bind_ok by reflexivity. fold h. erewrite bind_ok by (apply (heap_at_ok i b); exact Hhi).
    erewrite bind_ok by reflexivity. erewrite bind_ok by (apply (heap_at_ok j a); exact Hhj). reflexivity.
  - split; try done; cbn [heap_ set_index set_heap].
    + unfold h. by rewrite !length_insert.
    + intros e. rewrite !list_elem_of_lookup. split; intros [k Hk].
      * rewrite Hh in Hk. by eexists.
      * exists (transposed i j k). by rewrite Hh, transposed_twice.
    + intros Hix k e. cbn [heap_ heap_index_ set_index set_heap]. rewrite Hh. unfold transposed. intros Hk.
      pose proof (Hix _ _ Ha) as Ia. pose proof (Hix _ _ Hb) as Ib. pose proof (Hix _ _ Hk) as Ie.
      unfold insert, fn_insert. repeat case_decide; simplify_eq; try done; congruence.
Qed.

(** ** The order of the heap *)

Definition parent (k : nat) : nat := ((k - 1) / 2)%nat.

Lemma parent_spec k : (0 < k → k = 2 * parent k + 1 ∨ k = 2 * parent k + 2)%nat.
Proof. unfold parent. intros H. pose proof (Nat.div_mod_eq (k - 1) 2). pose proof (Nat.mod_upper_bound (k - 1) 2). lia. Qed.

Lemma parent_lt k : (0 < k → parent k < k)%nat.
Proof. intros H. pose proof (parent_spec k H). lia. Qed.

(** The entry at [i] is not later than the one at [j]. *)
Definition not_later (h : list (Z * nat)) (i j : nat) : Prop := ∀ a b, h !! i = Some a → h !! j = Some b → a.1 ≤ b.1.

Definition heap_ordered (h : list (Z * nat)) : Prop := ∀ j, (0 < j)%nat → not_later h (parent j) j.

(** Ordered but for the entry at [i], which may be too early or too late. *)
Record ordered_around (h : list (Z * nat)) (i : nat) : Prop := {
  a_others : ∀ j, (0 < j)%nat → j ≠ i → parent j ≠ i → not_later h (parent j) j;
  a_past : ∀ j, (0 < j)%nat → parent j = i → (0 < i)%nat → not_later h (parent i) j
}.

Definition below_ok (h : list (Z * nat)) (i : nat) : Prop := ∀ j, (0 < j)%nat → parent j = i → not_later h i j.
Definition above_ok (h : list (Z * nat)) (i : nat) : Prop := (0 < i)%nat → not_later h (parent i) i.

Lemma ordered_settled h i : ordered_around h i → below_ok h i → above_ok h i → heap_ordered h.
Proof.
  intros [Ho _] Hb Ha j Hj. destruct (decide (j = i)) as [->|]; [by apply Ha|].
  destruct (decide (parent j = i)) as [E|]; [rewrite E; by apply Hb|by apply Ho].
Qed.

Lemma ordered_any h i : heap_ordered h → ordered_around h i.
Proof.
  intros H. split; [auto|]. intros j Hj E Hi a b Ha Hb.
  destruct (h !! i) as [c|] eqn:Hc.
  - pose proof (H i Hi a c Ha Hc). pose proof (H j Hj) as Hji. rewrite E in Hji. specialize (Hji c b Hc Hb). lia.
  - apply lookup_ge_None in Hc. apply lookup_lt_Some in Hb. pose proof (parent_lt j Hj). lia.
Qed.

(** After [i], later than its parent, has changed places with it. *)
Lemma around_up h h' i e p :
  (0 < i)%nat → h !! i = Some e → h !! parent i = Some p → e.1 < p.1 → (∀ k, h' !! k = h !! transposed i (parent i) k) →
  ordered_around h i → ordered_around h' (parent i) ∧ below_ok h' (parent i).
Proof.
  intros Hi He Hp Hlt Hh [Ho Hpast]. pose proof (parent_lt i Hi) as Hpi.
  assert (Hsame : ∀ k, k ≠ i → k ≠ parent i → h' !! k = h !! k).
  { intros k H1 H2. rewrite Hh. unfold transposed. by rewrite !decide_False. }
  assert (Hi' : h' !! i = Some p) by (rewrite Hh; unfold transposed; by rewrite decide_True).
  assert (Hp' : h' !! parent i = Some e).
  { rewrite Hh. unfold transposed. rewrite decide_False by lia. by rewrite decide_True. }
  split; [split|].
  - intros j Hj Hjp Hpj a b Ha Hb. destruct (decide (j = i)) as [->|Hji]; [done|].
    rewrite Hsame in Hb by done. destruct (decide (parent j = i)) as [E|E].
    + rewrite E, Hi' in Ha. injection Ha as <-. by apply (Hpast j Hj E Hi).
    + rewrite Hsame in Ha by done. by apply (Ho j Hj).
  - intros j Hj E Hpp a b Ha Hb. pose proof (parent_lt (parent i) Hpp).
    rewrite Hsame in Ha by lia.
    assert (Hap : a.1 ≤ p.1) by (apply (Ho (parent i) Hpp); [lia|lia|done|done]).
    destruct (decide (j = i)) as [->|Hji]; [rewrite Hi' in Hb; by injection Hb as <-|].
    pose proof (parent_lt j Hj). rewrite Hsame in Hb by lia.
    assert (p.1 ≤ b.1) by (apply (Ho j Hj); [done|lia|by rewrite E|done]). lia.
  - intros j Hj E a b Ha Hb. rewrite Hp' in Ha. injection Ha as <-.
    destruct (decide (j = i)) as [->|Hji]; [rewrite Hi' in Hb; injection Hb as <-; lia|].
    pose proof (parent_lt j Hj). rewrite Hsame in Hb by lia.
    assert (p.1 ≤ b.1) by (apply (Ho j Hj); [done|lia|by rewrite E|done]). lia.
Qed.

Lemma up_heap_ok fuel i q :
  (i < fuel)%nat → (i < length (heap_ q))%nat → ordered_around (heap_ q) i → below_ok (heap_ q) i →
  ∃ q', up_heap fuel i q = Ok (tt, q') ∧ reordered q q' ∧ heap_ordered (heap_ q').
Proof.
  revert i q. induction fuel as [|fuel IH]; intros i q Hf Hi Ho Hb; [lia|]. cbn [up_heap].
  destruct (Nat.ltb_spec 0 i) as [Hpos|Hz].
  - fold (parent i). pose proof (parent_lt i Hpos) as Hpi.
    destruct (lookup_lt_is_Some_2 (heap_ q) i Hi) as [e He].
    destruct (lookup_lt_is_Some_2 (heap_ q) (parent i)) as [p Hp]; [lia|].
    mgo (heap_at_ok i e q He). mgo (heap_at_ok (parent i) p q Hp). destruct (Z.ltb_spec e.1 p.1) as [Hlt|Hge]; cbn [negb].
    + destruct (swap_ok i (parent i) q) as (q1 & E1 & R1 & H1); [lia|done|lia|]. mgo E1.
      destruct (around_up _ _ i e p Hpos He Hp Hlt H1 Ho) as [Ho1 Hb1].
      destruct (IH (parent i) q1) as (q2 & E2 & R2 & H2); [lia|rewrite (r_length _ _ R1); lia|done|done|].
      exists q2. split_and!; [done|by eapply reordered_trans|done].
    + exists q. split_and!; [done|apply reordered_refl|]. apply (ordered_settled _ i Ho Hb).
      intros _ a b Ha Hb'. simplify_eq. lia.
  - exists q. split_and!; [done|apply reordered_refl|]. apply (ordered_settled _ i Ho Hb). intros H. lia.
Qed.

(** After [i], not earlier than its earliest child [m], has changed places with it. *)
Lemma around_down h h' i m e c :
  (0 < m)%nat → parent m = i → h !! i = Some e → h !! m = Some c → c.1 ≤ e.1 →
  (∀ j, (0 < j)%nat → parent j = i → not_later h m j) → (∀ k, h' !! k = h !! transposed i m k) →
  ordered_around h i → ordered_around h' m ∧ above_ok h' m.
Proof.
  intros Hm Em He Hc Hle Hmin Hh [Ho Hpast]. pose proof (parent_lt m Hm) as Him.
  assert (Hsame : ∀ k, k ≠ i → k ≠ m → h' !! k = h !! k).
  { intros k H1 H2. rewrite Hh. unfold transposed. by rewrite !decide_False. }
  assert (Hi' : h' !! i = Some c) by (rewrite Hh; unfold transposed; by rewrite decide_True).
  assert (Hm' : h' !! m = Some e).
  { rewrite Hh. unfold transposed. rewrite decide_False by lia. by rewrite decide_True. }
  split; [split|].
  - intros j Hj Hjm Hpj a b Ha Hb. destruct (decide (j = i)) as [->|Hji].
    + rewrite Hi' in Hb. injection Hb as <-. pose proof (parent_lt i Hj). rewrite Hsame in Ha by lia.
      by apply (Hpast m Hm Em Hj).
    + rewrite Hsame in Hb by done. destruct (decide (parent j = i)) as [E|E].
      * rewrite E, Hi' in Ha. injection Ha as <-. by apply (Hmin j Hj E).
      * rewrite Hsame in Ha by done. by apply (Ho j Hj).
  - intros j Hj E _ a b Ha Hb. rewrite Em, Hi' in Ha. injection Ha as <-. pose proof (parent_lt j Hj).
    rewrite Hsame in Hb by lia. apply (Ho j Hj); [lia|lia|by rewrite E|done].
  - intros _ a b Ha Hb. rewrite Em, Hi' in Ha. rewrite Hm' in Hb. by simplify_eq.
Qed.

Lemma children_of j i : (0 < j → parent j = i → j = 2 * i + 1 ∨ j = 2 * i + 2)%nat.
Proof. intros Hj <-. by apply parent_spec. Qed.

Lemma parent_child i : (parent (2 * i + 1) = i ∧ parent (2 * i + 1 + 1) = i)%nat.
Proof. pose proof (parent_spec (2 * i + 1)). pose proof (parent_spec (2 * i + 1 + 1)). lia. Qed.

Lemma earliest_child_ok i q :
  (2 * i + 1 < length (heap_ q))%nat →
  ∃ m c, earliest_child (length (heap_ q)) (2 * i + 1) q = Ok (m, q) ∧ heap_ q !! m = Some c ∧ (0 < m)%nat ∧ parent m = i ∧
    ∀ j, (0 < j)%nat → parent j = i → not_later (heap_ q) m j.
Proof.
  intros Hc. unfold earliest_child. destruct (parent_child i) as [P1 P2].
  destruct (lookup_lt_is_Some_2 (heap_ q) (2 * i + 1) Hc) as [c Hc1].
  destruct (Nat.eqb_spec (2 * i + 1 + 1) (length (heap_ q))) as [Hlast|Hmore].
  - exists (2 * i + 1)%nat, c. split_and!; [done|done|lia|done|]. intros j Hj E a b Ha Hb.
    destruct (children_of j i Hj E) as [-> | ->]; [by simplify_eq|]. apply lookup_lt_Some in Hb. lia.
  - destruct (lookup_lt_is_Some_2 (heap_ q) (2 * i + 1 + 1)) as [d Hd1]; [lia|].
    mgo (heap_at_ok _ c q Hc1). mgo (heap_at_ok _ d q Hd1).
    destruct (Z.ltb_spec c.1 d.1) as [Hlt|Hge].
    + exists (2 * i + 1)%nat, c. split_and!; [done|done|lia|done|]. intros j Hj E a b Ha Hb.
      destruct (children_of j i Hj E) as [-> | ->]; [by simplify_eq|].
      replace (2 * i + 2)%nat with (2 * i + 1 + 1)%nat in Hb by lia. simplify_eq. lia.
    + exists (2 * i + 1 + 1)%nat, d. split_and!; [done|done|lia|done|]. intros j Hj E a b Ha Hb.
      destruct (children_of j i Hj E) as [-> | ->]; [simplify_eq; lia|].
      replace (2 * i + 2)%nat with (2 * i + 1 + 1)%nat in Hb by lia. by simplify_eq.
Qed.

Lemma down_heap_ok fuel i q :
  (length (heap_ q) ≤ i + fuel)%nat → (i < length (heap_ q))%nat → ordered_around (heap_ q) i → above_ok (heap_ q) i →
  ∃ q', down_heap fuel i q = Ok (tt, q') ∧ reordered q q' ∧ heap_ordered (heap_ q').
Proof.
  revert i q. induction fuel as [|fuel IH]; intros i q Hf Hi Ho Ha; [lia|]. cbn [down_heap].
  erewrite bind_ok by reflexivity. replace (i * 2 + 1)%nat with (2 * i + 1)%nat by lia.
  destruct (Nat.ltb_spec (2 * i + 1) (length (heap_ q))) as [Hc|Hc].
  - destruct (earliest_child_ok i q Hc) as (m & c & Em & Hm & Hm0 & Pm & Hmin). mgo Em.
    destruct (lookup_lt_is_Some_2 (heap_ q) i Hi) as [e He]. mgo (heap_at_ok i e q He). mgo (heap_at_ok m c q Hm).
    destruct (Z.ltb_spec e.1 c.1) as [Hlt|Hge].
    + exists q. split_and!; [done|apply reordered_refl|]. apply (ordered_settled _ i); [done| |done].
      intros j Hj E a b Hja Hjb. specialize (Hmin j Hj E c b Hm Hjb). simplify_eq. lia.
    + pose proof (parent_lt m Hm0) as Hpm. rewrite Pm in Hpm. apply lookup_lt_Some in Hm as Hml.
      destruct (swap_ok i m q) as (q1 & E1 & R1 & H1); [lia|done|done|]. mgo E1.
      destruct (around_down _ _ i m e c Hm0 Pm He Hm Hge Hmin H1 Ho) as [Ho1 Ha1].
      destruct (IH m q1) as (q2 & E2 & R2 & H2); [rewrite (r_length _ _ R1); lia|rewrite (r_length _ _ R1); lia|done|done|].
      exists q2. split_and!; [done|by eapply reordered_trans|done].
  - exists q. split_and!; [done|apply reordered_refl|]. apply (ordered_settled _ i); [done| |done].
    intros j Hj E a b _ Hb. apply lookup_lt_Some in Hb. destruct (children_of j i Hj E); lia.
Qed.

(** ** Removal *)

(** [q'] is [q] without [timer] in its heap. *)
Record heap_removed (timer : nat) (q q' : timer_queue) : Prop := {
  h_length : length (heap_ q') = (length (heap_ q) - 1)%nat;
  h_elements : ∀ e, e ∈ heap_ q' ↔ e ∈ heap_ q ∧ e.2 ≠ timer;
  h_indexed : indexed q';
  h_ordered : heap_ordered (heap_ q');
  h_timers : timers_ q' = timers_ q;
  h_ops : op_queue_ q' = op_queue_ q;
  h_next : next_ q' = next_ q;
  h_prev : prev_ q' = prev_ q
}.

Lemma indexed_inj q i j a b : indexed q → heap_ q !! i = Some a → heap_ q !! j = Some b → a.2 = b.2 → i = j.
Proof. intros H Ha Hb E. pose proof (H _ _ Ha) as Ia. pose proof (H _ _ Hb) as Ib. rewrite E in Ia. congruence. Qed.

(** The last entry, which is [timer]'s, is dropped. *)
Lemma drop_last timer q t :
  indexed q → heap_ q !! (length (heap_ q) - 1)%nat = Some (t, timer) →
  let q' := set_heap (take (length (heap_ q) - 1) (heap_ q)) (set_index timer None q) in
  length (heap_ q') = (length (heap_ q) - 1)%nat ∧ (∀ e, e ∈ heap_ q' ↔ e ∈ heap_ q ∧ e.2 ≠ timer) ∧ indexed q'.
Proof.
  intros Hix Hlast. cbn. split_and!.
  - rewrite length_take. lia.
  - intros e. rewrite !list_elem_of_lookup. split.
    + intros [k Hk]. apply lookup_take_Some in Hk as [Hk Hlt]. split; [by exists k|]. intros E.
      pose proof (indexed_inj q k _ e (t, timer) Hix Hk Hlast E). lia.
    + intros [[k Hk] Hne]. exists k. apply lookup_take_Some. split; [done|]. apply lookup_lt_Some in Hk as Hl.
      destruct (decide (k = length (heap_ q) - 1)%nat) as [->|]; [|lia]. rewrite Hlast in Hk. by injection Hk as <-.
  - intros k e Hk. cbn in Hk |- *. apply lookup_take_Some in Hk as [Hk Hlt].
    unfold insert, fn_insert. case_decide as Ee; [|by apply Hix].
    pose proof (indexed_inj q k _ e (t, timer) Hix Hk Hlast (eq_sym Ee)). lia.
Qed.

Lemma ordered_take h n : heap_ordered h → heap_ordered (take n h).
Proof.
  intros H j Hj a b Ha Hb. apply lookup_take_Some in Ha as [Ha _]. apply lookup_take_Some in Hb as [Hb _]. by apply (H j Hj).
Qed.

(** The entry at [i] is replaced by another one, and the last is dropped. *)
Lemma around_replaced h h' i :
  heap_ordered h → (∀ k e, k ≠ i → h' !! k = Some e → h !! k = Some e) → (i < length h)%nat → ordered_around h' i.
Proof.
  intros Ho Hsame Hi. destruct (ordered_any h i Ho) as [H1 H2]. split.
  - intros j Hj Hji Hpi a b Ha Hb. apply (H1 j Hj Hji Hpi); by apply Hsame.
  - intros j Hj E Hpos a b Ha Hb. pose proof (parent_lt i Hpos). pose proof (parent_lt j Hj).
    apply (H2 j Hj E Hpos); apply Hsame; done || lia.
Qed.

(** Up or down, wherever the new entry belongs. *)
Lemma settle_ok fuel i q :
  (i < length (heap_ q))%nat → (length (heap_ q) ≤ fuel)%nat → ordered_around (heap_ q) i →
  ∃ q', (up ← (if (0 <? i)%nat then e ← heap_at i; p ← heap_at ((i - 1) / 2)%nat; mret (e.1 <? p.1) else mret false);
         if up : bool then up_heap fuel i else down_heap fuel i) q = Ok (tt, q') ∧ reordered q q' ∧ heap_ordered (heap_ q').
Proof.
  intros Hi Hf Ho. destruct (lookup_lt_is_Some_2 (heap_ q) i Hi) as [e He].
  destruct (Nat.ltb_spec 0 i) as [Hpos|Hz].
  - fold (parent i). pose proof (parent_lt i Hpos).
    destruct (lookup_lt_is_Some_2 (heap_ q) (parent i)) as [p Hp]; [lia|].
    erewrite bind_ok by (mgo (heap_at_ok i e q He); mgo (heap_at_ok (parent i) p q Hp); reflexivity).
    destruct (Z.ltb_spec e.1 p.1).
    + apply up_heap_ok; [lia|done|done|]. intros j Hj E a b Ha Hb. simplify_eq.
      pose proof (a_past _ _ Ho j Hj eq_refl Hpos p b Hp Hb). lia.
    + apply down_heap_ok; [lia|done|done|]. intros _ a b Ha Hb. simplify_eq. lia.
  - erewrite bind_ok by reflexivity. apply down_heap_ok; [lia|done|done|]. intros H. lia.
Qed.

Lemma remove_from_heap_ok timer i t q :
  indexed q → heap_ordered (heap_ q) → heap_ q !! i = Some (t, timer) →
  ∃ q', remove_from_heap timer q = Ok (tt, q') ∧ heap_removed timer q q'.
Proof.
  intros Hix Ho Hi. pose proof (Hix _ _ Hi) as Hidx. cbn in Hidx. apply lookup_lt_Some in Hi as Hlt.
  unfold remove_from_heap. erewrite bind_ok by reflexivity. erewrite bind_ok by reflexivity. rewrite Hidx.
  rewrite (proj2 (Nat.eqb_neq (length (heap_ q)) 0)), (proj2 (Nat.ltb_lt i _)) by lia. cbn [negb andb].
  destruct (Nat.eqb_spec i (length (heap_ q) - 1)) as [->|Hne].
  - destruct (drop_last timer q t Hix Hi) as (Hl & He & Hx).
    eexists. split; [erewrite bind_ok by reflexivity; reflexivity|]. split; try done. by apply ordered_take.
  - destruct (swap_ok i (length (heap_ q) - 1) q) as (q1 & E1 & R1 & H1); [done|done|lia|]. mgo E1.
    assert (Hlast : heap_ q1 !! (length (heap_ q1) - 1)%nat = Some (t, timer)).
    { rewrite (r_length _ _ R1), H1. unfold transposed. rewrite decide_False by lia. by rewrite decide_True. }
    destruct (drop_last timer q1 t (r_indexed _ _ R1 Hix) Hlast) as (Hl & He & Hx).
    set (q2 := set_heap (take (length (heap_ q1) - 1) (heap_ q1)) (set_index timer None q1)) in *.
    erewrite bind_ok by reflexivity. erewrite bind_ok by reflexivity. fold q2.
    destruct (settle_ok (length (heap_ q)) i q2) as (q3 & E3 & R3 & Ho3).
    + rewrite Hl, (r_length _ _ R1). lia.
    + rewrite Hl, (r_length _ _ R1). lia.
    + apply (around_replaced (heap_ q)); [done| |lia]. intros k e Hk. cbn. intros He2.
      apply lookup_take_Some in He2 as [He2 Hkl]. rewrite H1, (r_length _ _ R1) in *. revert He2. unfold transposed.
      rewrite !decide_False by lia. done.
    + exists q3. split; [exact E3|]. split; try done.
      * rewrite (r_length _ _ R3), Hl, (r_length _ _ R1). done.
      * intros e. by rewrite (r_elements _ _ R3), He, (r_elements _ _ R1).
      * by apply (r_indexed _ _ R3).
      * rewrite (r_timers _ _ R3). apply (r_timers _ _ R1).
      * rewrite (r_ops _ _ R3). apply (r_ops _ _ R1).
      * rewrite (r_next _ _ R3). apply (r_next _ _ R1).
      * rewrite (r_prev _ _ R3). apply (r_prev _ _ R1).
Qed.

(** ** The list of active timers *)

Definition linked (q : timer_queue) (l : list nat) : Prop := ∀ i p, l !! i = Some p →
  next_ q p = l !! S i ∧ prev_ q p = match i with O => None | S j => l !! j end.

(** The heap and the list hold the timers of [times], in whatever order. *)
Record heap_shape (q : timer_queue) (times : gmap nat Z) : Prop := {
  s_indexed : indexed q;
  s_ordered : heap_ordered (heap_ q);
  s_entries : ∀ e, e ∈ heap_ q ↔ times !! e.2 = Some e.1
}.

Definition list_shape (q : timer_queue) (times : gmap nat Z) : Prop := ∃ l,
  NoDup l ∧ linked q l ∧ timers_ q = head l ∧ (∀ p, p ∈ l ↔ is_Some (times !! p)) ∧
  (∀ p, p ∉ l → next_ q p = None ∧ prev_ q p = None).

Lemma inactive_ok q times p : list_shape q times → inactive p q = bool_decide (times !! p = None).
Proof.
  intros (l & Hnd & Hl & Ht & Hin & Hout). unfold inactive. destruct (times !! p) as [t|] eqn:E.
  - rewrite (bool_decide_eq_false_2 (Some t = None)) by done.
    assert (Hp : p ∈ l) by (by apply Hin). apply list_elem_of_lookup in Hp as [i Hi].
    destruct (Hl i p Hi) as [_ Hpr]. destruct i as [|i].
    + assert (Eh : timers_ q = Some p) by (rewrite Ht; by destruct l). rewrite (bool_decide_eq_false_2 (timers_ q ≠ Some p)) by naive_solver.
      apply andb_false_r.
    + destruct (l !! i) as [a|] eqn:Ea; [by rewrite Hpr|].
      apply lookup_ge_None in Ea. apply lookup_lt_Some in Hi. lia.
  - rewrite (bool_decide_eq_true_2 (None = None)) by done.
    assert (Hp : p ∉ l) by (rewrite Hin, E; by intros [? [=]]). destruct (Hout p Hp) as [_ ->].
    rewrite !bool_decide_eq_true_2; [done| |done]. rewrite Ht. intros Eh. apply Hp. destruct l; [done|].
    injection Eh as ->. by left.
Qed.

Lemma unlink_fields q p :
  prev_ q p ≠ Some p → next_ q p ≠ Some p →
  ∃ q', unlink_timer p q = Ok (tt, q') ∧ heap_ q' = heap_ q ∧ heap_index_ q' = heap_index_ q ∧ op_queue_ q' = op_queue_ q ∧
    timers_ q' = (if decide (timers_ q = Some p) then next_ q p else timers_ q) ∧
    (∀ x, next_ q' x = if decide (x = p) then None else if decide (prev_ q p = Some x) then next_ q p else next_ q x) ∧
    (∀ x, prev_ q' x = if decide (x = p) then None else if decide (next_ q p = Some x) then prev_ q p else prev_ q x).
Proof.
  intros Ha Hb. set (q1 := if decide (timers_ q = Some p) then set_timers (next_ q p) q else q).
  assert (E1 : next_ q1 = next_ q ∧ prev_ q1 = prev_ q ∧ heap_ q1 = heap_ q ∧ heap_index_ q1 = heap_index_ q ∧
    op_queue_ q1 = op_queue_ q ∧ timers_ q1 = (if decide (timers_ q = Some p) then next_ q p else timers_ q)).
  { unfold q1. by case_decide. }
  destruct E1 as (En & Ep & Eh & Ei & Eo & Et). unfold unlink_timer.
  erewrite bind_ok by reflexivity. fold q1. erewrite bind_ok by reflexivity. rewrite Ep, En.
  destruct (prev_ q p) as [a|] eqn:Epa; cbn [if_timer];
    (erewrite bind_ok by reflexivity); cbn [next_ prev_ set_next set_prev]; rewrite ?En, ?Ep, ?Epa.
  - assert (Hx : (<[a := next_ q p]> (next_ q)) p = next_ q p).
    { rewrite fn_lookup_insert_ne by congruence. done. }
    rewrite Hx. destruct (next_ q p) as [b|] eqn:Enb; cbn [if_timer]; (eexists; split; [reflexivity|]);
      cbn; split_and!; try done; intros x; rewrite ?En, ?Ep; unfold insert, fn_insert; clear Et; repeat case_decide; congruence.
  - destruct (next_ q p) as [b|] eqn:Enb; cbn [if_timer]; (eexists; split; [reflexivity|]);
      cbn; split_and!; try done; intros x; rewrite ?En, ?Ep; unfold insert, fn_insert; clear Et; repeat case_decide; congruence.
Qed.

Lemma unlink_ok q times p :
  list_shape q times → is_Some (times !! p) →
  ∃ q', unlink_timer p q = Ok (tt, q') ∧ list_shape q' (delete p times) ∧ heap_ q' = heap_ q ∧ heap_index_ q' = heap_index_ q ∧
    op_queue_ q' = op_queue_ q.
Proof.
  intros (l & Hnd & Hl & Ht & Hin & Hout) Hp. apply Hin in Hp as Hpl. apply list_elem_of_lookup in Hpl as [i Hi].
  destruct (Hl i p Hi) as [Hn Hpr]. apply lookup_lt_Some in Hi as Hil.
  assert (Hinj : ∀ j k x, l !! j = Some x → l !! k = Some x → j = k) by (intros j k x; by apply NoDup_lookup).
  destruct (unlink_fields q p) as (q' & E & Eh & Ei & Eo & Et & En & Ep).
  { rewrite Hpr. destruct i as [|j]; [done|]. intros Ea. specialize (Hinj _ _ _ Ea Hi). lia. }
  { rewrite Hn. intros Eb. specialize (Hinj _ _ _ Eb Hi). lia. }
  exists q'. split_and!; [done| |done..]. exists (delete i l).
  assert (Hlow : ∀ k, (k < i)%nat → delete i l !! k = l !! k) by (intros; by apply list_lookup_delete_lt).
  assert (Hhigh : ∀ k, (i ≤ k)%nat → delete i l !! k = l !! S k) by (intros; by apply list_lookup_delete_ge).
  split_and!.
  - eapply sublist_NoDup; [done|]. apply sublist_delete.
  - intros k x Hk. rewrite En, Ep, Hn, Hpr. destruct (decide (k < i)%nat) as [Hki|Hki].
    + rewrite Hlow in Hk by done. destruct (Hl k x Hk) as [Hnx Hpx].
      rewrite !(decide_False (P := x = p)) by (intros ->; specialize (Hinj _ _ _ Hk Hi); lia).
      rewrite (decide_False (P := l !! S i = Some x)) by (intros Hs; specialize (Hinj _ _ _ Hk Hs); lia). split.
      * destruct i as [|i]; [lia|]. destruct (decide (l !! i = Some x)) as [Hs|Hs].
        -- rewrite (Hinj _ _ _ Hk Hs). by rewrite Hhigh by lia.
        -- rewrite Hnx, Hlow; [done|]. destruct (decide (k = i)) as [->|]; [done|lia].
      * rewrite Hpx. destruct k as [|k]; [done|]. by rewrite Hlow by lia.
    + rewrite Hhigh in Hk by lia. destruct (Hl (S k) x Hk) as [Hnx Hpx].
      rewrite !(decide_False (P := x = p)) by (intros ->; specialize (Hinj _ _ _ Hk Hi); lia). split.
      * rewrite decide_False; [by rewrite Hnx, Hhigh by lia|]. intros Hs. destruct i as [|i]; [done|].
        specialize (Hinj _ _ _ Hk Hs). lia.
      * destruct (decide (l !! S i = Some x)) as [Hs|Hs].
        -- assert (k = i) as -> by (specialize (Hinj _ _ _ Hk Hs); lia). destruct i as [|i]; [done|]. by rewrite Hlow by lia.
        -- rewrite Hpx. destruct k as [|k]; [assert (i = 0%nat) as -> by lia; done|]. rewrite Hhigh; [done|].
           destruct (decide (i = S k)) as [->|]; [done|lia].
  - rewrite Et, Ht, Hn, !head_lookup. destruct (decide (l !! 0%nat = Some p)) as [Hh|Hh].
    + assert (i = 0%nat) as -> by by apply (Hinj _ _ p). by rewrite Hhigh by lia.
    + assert (i ≠ 0%nat) by by intros ->. by rewrite Hlow by lia.
  - intros x. destruct (decide (x = p)) as [->|Hxp].
    + rewrite lookup_delete_eq. split; [|by intros [? [=]]]. intros Hx. apply list_elem_of_lookup in Hx as [k Hk].
      destruct (decide (k < i)%nat); [rewrite Hlow in Hk by done|rewrite Hhigh in Hk by lia]; specialize (Hinj _ _ _ Hk Hi); lia.
    + rewrite lookup_delete_ne by done. rewrite <- Hin, !list_elem_of_lookup. split; intros [k Hk].
      * destruct (decide (k < i)%nat); [rewrite Hlow in Hk by done|rewrite Hhigh in Hk by lia]; by eexists.
      * destruct (decide (k < i)%nat); [exists k; by rewrite Hlow|]. destruct (decide (k = i)) as [->|]; [congruence|].
        exists (k - 1)%nat. rewrite Hhigh by lia. by replace (S (k - 1)) with k by lia.
  - intros x Hx. rewrite En, Ep. destruct (decide (x = p)) as [->|Hxp]; [done|].
    assert (Hxl : x ∉ l).
    { intros Hx'. apply Hx. apply list_elem_of_lookup in Hx' as [k Hk]. apply list_elem_of_lookup.
      destruct (decide (k < i)%nat); [exists k; by rewrite Hlow|]. destruct (decide (k = i)) as [->|]; [congruence|].
      exists (k - 1)%nat. rewrite Hhigh by lia. by replace (S (k - 1)) with k by lia. }
    assert (Hno : ∀ j, l !! j ≠ Some x) by (intros j Hj; apply Hxl; apply list_elem_of_lookup; by exists j).
    rewrite !decide_False; [by apply Hout|rewrite Hn; apply Hno|]. rewrite Hpr. destruct i; [done|apply Hno].
Qed.

Lemma list_shape_ext q q' times :
  timers_ q' = timers_ q → next_ q' = next_ q → prev_ q' = prev_ q → list_shape q times → list_shape q' times.
Proof. intros Et En Ep (l & H). exists l. unfold linked in *. by rewrite Et, En, Ep. Qed.

Lemma heap_shape_ext q q' times :
  heap_ q' = heap_ q → heap_index_ q' = heap_index_ q → heap_shape q times → heap_shape q' times.
Proof. intros Eh Ei [H1 H2 H3]. split; unfold indexed in *; by rewrite ?Eh, ?Ei. Qed.

Lemma heap_entry q times p t : heap_shape q times → times !! p = Some t → ∃ i, heap_ q !! i = Some (t, p).
Proof. intros H Hp. by apply list_elem_of_lookup, (s_entries _ _ H). Qed.

(** [remove_timer] takes the timer out of the heap and of the list. *)
Lemma remove_timer_ok q times p :
  heap_shape q times → list_shape q times → is_Some (times !! p) →
  ∃ q', remove_timer p q = Ok (tt, q') ∧ heap_shape q' (delete p times) ∧ list_shape q' (delete p times) ∧
    op_queue_ q' = op_queue_ q ∧ length (heap_ q') = (length (heap_ q) - 1)%nat.
Proof.
  intros Hh Hl [t Hp]. destruct (heap_entry q times p t Hh Hp) as [i Hi].
  destruct (remove_from_heap_ok p i t q (s_indexed _ _ Hh) (s_ordered _ _ Hh) Hi) as (q1 & E1 & R).
  assert (Hl1 : list_shape q1 times) by (eapply list_shape_ext; [..|exact Hl]; apply R).
  destruct (unlink_ok q1 times p Hl1) as (q2 & E2 & L2 & Eh & Ei & Eo); [by eexists|].
  exists q2. unfold remove_timer. rewrite (bind_ok _ _ _ _ _ E1). split_and!; [done| |done| |].
  - apply (heap_shape_ext q1); [done..|]. split; [apply R|apply R|]. intros [u x]. rewrite (h_elements _ _ _ R), (s_entries _ _ Hh). cbn.
    destruct (decide (x = p)) as [->|Hx]; [rewrite lookup_delete_eq; naive_solver|rewrite lookup_delete_ne by done; naive_solver].
  - rewrite Eo. apply R.
  - rewrite Eh. apply R.
Qed.

Lemma append_shape q times p t :
  heap_shape q times → times !! p = None →
  let q' := set_heap (heap_ q ++ [(t, p)]) (set_index p (Some (length (heap_ q))) q) in
  indexed q' ∧ (∀ e, e ∈ heap_ q' ↔ <[p := t]> times !! e.2 = Some e.1) ∧ ordered_around (heap_ q') (length (heap_ q)) ∧
  below_ok (heap_ q') (length (heap_ q)).
Proof.
  intros [Hix Ho He] Hp. cbn. split_and!.
  - intros k e Hk. cbn in Hk |- *. apply lookup_app_Some in Hk as [Hk|[Hk Hk']].
    + rewrite fn_lookup_insert_ne; [by apply Hix|]. intros ->. apply list_elem_of_lookup_2, He in Hk. congruence.
    + apply list_lookup_singleton_Some in Hk' as [Hz <-]. cbn. rewrite fn_lookup_insert. f_equal. lia.
  - intros [u x]. rewrite elem_of_app, He, list_elem_of_singleton. cbn.
    destruct (decide (x = p)) as [->|Hx]; [rewrite lookup_insert_eq|rewrite lookup_insert_ne by done]; naive_solver.
  - split.
    + intros j Hj Hne Hpn a b Ha Hb. apply lookup_lt_Some in Hb as Hlt. rewrite length_app in Hlt. cbn in Hlt. pose proof (parent_lt j Hj).
      rewrite lookup_app_l in Ha, Hb by lia. by apply (Ho j Hj).
    + intros j Hj E _ a b _ Hb. pose proof (parent_lt j Hj). apply lookup_lt_Some in Hb. rewrite length_app in Hb. cbn in Hb. lia.
  - intros j Hj E a b Ha Hb. pose proof (parent_lt j Hj). apply lookup_lt_Some in Hb. rewrite length_app in Hb. cbn in Hb. lia.
Qed.

Lemma linked_cons q l p t :
  linked q l → timers_ q = head l → p ∉ l → NoDup l →
  next_ t = <[p := timers_ q]> (next_ q) →
  (∀ x, prev_ t x = if decide (x = p) then None else if decide (head l = Some x) then Some p else prev_ q x) →
  linked t (p :: l).
Proof.
  intros Hl Ht Hp Hnd En Ep [|i] x Hx.
  - injection Hx as <-. rewrite En, Ep, fn_lookup_insert, Ht, head_lookup. split; [done|by rewrite decide_True].
  - cbn in Hx. assert (x ≠ p) by (intros ->; apply Hp; by apply list_elem_of_lookup_2 in Hx).
    destruct (Hl i x Hx) as [Hn Hpr]. rewrite En, Ep, fn_lookup_insert_ne, Hn by done. split; [done|].
    rewrite decide_False by done. destruct i as [|i]; [by rewrite decide_True by (by rewrite head_lookup)|].
    rewrite decide_False; [done|]. rewrite head_lookup. intros Hz. pose proof (NoDup_lookup l _ _ x Hnd Hz Hx). lia.
Qed.

Lemma insert_timer_ok q times p t :
  heap_shape q times → list_shape q times → times !! p = None →
  ∃ q', insert_timer t p q = Ok (tt, q') ∧ heap_shape q' (<[p := t]> times) ∧ list_shape q' (<[p := t]> times) ∧
    op_queue_ q' = op_queue_ q.
Proof.
  intros Hh (l & Hnd & Hl & Ht & Hin & Hout) Hp. destruct (append_shape q times p t Hh Hp) as (Hix & He & Ho & Hb).
  set (q1 := set_heap (heap_ q ++ [(t, p)]) (set_index p (Some (length (heap_ q))) q)) in *.
  assert (Hlen : length (heap_ q1) = S (length (heap_ q))) by (cbn; rewrite length_app; cbn; lia).
  destruct (up_heap_ok (length (heap_ q1)) (length (heap_ q)) q1) as (q2 & E2 & R2 & Ho2); [lia|lia|done|done|].
  assert (Hpl : p ∉ l) by (rewrite Hin, Hp; by intros [? [=]]).
  unfold insert_timer. erewrite bind_ok by reflexivity. fold q1. erewrite bind_ok by reflexivity.
  rewrite Hlen in E2 |- *. replace (S (length (heap_ q)) - 1)%nat with (length (heap_ q)) by lia. mgo E2.
  assert (Eq : timers_ q2 = head l ∧ next_ q2 = next_ q ∧ prev_ q2 = prev_ q ∧ op_queue_ q2 = op_queue_ q).
  { rewrite (r_timers _ _ R2), (r_next _ _ R2), (r_prev _ _ R2), (r_ops _ _ R2). done. }
  destruct Eq as (Et2 & En2 & Ep2 & Eo2).
  assert (Hfin : ∃ q', (modify (λ q, set_next p (timers_ q) q);; modify (set_prev p None);;
      modify (λ q, if_timer (timers_ q) (λ t, set_prev t (Some p)) q);; modify (set_timers (Some p))) q2 = Ok (tt, q') ∧
    heap_ q' = heap_ q2 ∧ heap_index_ q' = heap_index_ q2 ∧ op_queue_ q' = op_queue_ q2 ∧ timers_ q' = Some p ∧
    next_ q' = <[p := timers_ q2]> (next_ q2) ∧
    ∀ x, prev_ q' x = if decide (x = p) then None else if decide (head l = Some x) then Some p else prev_ q2 x).
  { erewrite bind_ok by reflexivity. erewrite bind_ok by reflexivity. erewrite bind_ok by reflexivity. cbn [timers_ set_prev set_next].
    rewrite Et2. destruct l as [|a l]; cbn; (eexists; split; [reflexivity|]); cbn; split_and!; try done; intros x;
      unfold insert, fn_insert; repeat case_decide; simplify_eq; try done. by destruct Hpl; left. }
  destruct Hfin as (q3 & E3 & Eh3 & Ei3 & Eo3 & Et3 & En3 & Ep3). exists q3. split_and!; [exact E3| | |congruence].
  - apply (heap_shape_ext q2); [done..|]. split; [by apply (r_indexed _ _ R2)|done|]. intros e. by rewrite (r_elements _ _ R2), He.
  - exists (p :: l). split_and!.
    + by constructor.
    + apply (linked_cons q2); [|done..]. unfold linked. by rewrite En2, Ep2.
    + done.
    + intros x. rewrite elem_of_cons, Hin. destruct (decide (x = p)) as [->|Hx];
        [rewrite lookup_insert_eq|rewrite lookup_insert_ne by done]; naive_solver.
    + intros x Hx. apply not_elem_of_cons in Hx as [Hxp Hxl]. rewrite En3, Ep3, fn_lookup_insert_ne, decide_False by done.
      rewrite En2, Ep2. rewrite decide_False; [by apply Hout|]. intros Hz. apply Hxl. destruct l; [done|]. injection Hz as ->. by left.
Qed.

(** ** The contract *)

(** The active timers with their times and waits. *)
Abbreviation timers := (gmap nat (Z * list wait_op)).

Definition waits (m : timers) (p : nat) : list wait_op := default [] (snd <$> m !! p).

Record represents (q : timer_queue) (m : timers) : Prop := {
  rep_heap : heap_shape q (fst <$> m);
  rep_list : list_shape q (fst <$> m);
  rep_ops : ∀ p, op_queue_ q p = waits m p;
  rep_some : ∀ p t, m !! p ≠ Some (t, [])
}.

(** The timer [p] with what is left of its waits. *)
Definition put (p : nat) (t : Z) (ops : list wait_op) (m : timers) : timers :=
  if bool_decide (ops = []) then delete p m else <[p := (t, ops)]> m.

Definition earliest (p : nat) (m : timers) : Prop :=
  ∃ t ops, m !! p = Some (t, ops) ∧ ∀ p' t' ops', m !! p' = Some (t', ops') → t ≤ t'.

Lemma inactive_rep q m p : represents q m → inactive p q = bool_decide (m !! p = None).
Proof.
  intros R. rewrite (inactive_ok q _ p (rep_list _ _ R)). apply bool_decide_ext. rewrite lookup_fmap. by destruct (m !! p).
Qed.

Lemma waits_put m p t ops x : waits (put p t ops m) x = if decide (x = p) then ops else waits m x.
Proof.
  unfold waits, put. case_bool_decide as E; case_decide as Ex; subst;
    rewrite ?lookup_delete_eq, ?lookup_insert_eq, ?lookup_delete_ne, ?lookup_insert_ne by done; done.
Qed.

Lemma waits_some m p t ops : m !! p = Some (t, ops) → waits m p = ops.
Proof. intros H. unfold waits. by rewrite H. Qed.

Lemma waits_none m p : m !! p = None → waits m p = [].
Proof. intros H. unfold waits. by rewrite H. Qed.

Lemma fst_put m p t ops :
  fst <$> put p t ops m = (if bool_decide (ops = []) then delete p (fst <$> m) else <[p := t]> (fst <$> m)).
Proof. unfold put. case_bool_decide; [apply fmap_delete|apply fmap_insert]. Qed.

(** The common end of the two cancellations. *)
Lemma put_back_ok q m p t old ops :
  represents q m → m !! p = Some (t, old) →
  ∃ q', when (bool_decide (ops = [])) (remove_timer p) (set_ops p ops q) = Ok (tt, q') ∧ represents q' (put p t ops m).
Proof.
  intros R Hp. set (q1 := set_ops p ops q).
  assert (Hh : heap_shape q1 (fst <$> m)) by (apply (heap_shape_ext q); [done..|apply R]).
  assert (Hl : list_shape q1 (fst <$> m)) by (apply (list_shape_ext q); [done..|apply R]).
  assert (Ht : (fst <$> m) !! p = Some t) by (by rewrite lookup_fmap, Hp).
  assert (Ho : ∀ x, op_queue_ q1 x = waits (put p t ops m) x).
  { intros x. rewrite waits_put. cbn. unfold insert, fn_insert. rewrite <- (rep_ops _ _ R).
    destruct (decide (p = x)) as [->|]; [by rewrite decide_True|by rewrite decide_False by done]. }
  assert (Hs : ∀ x u, put p t ops m !! x ≠ Some (u, [])).
  { intros x u. unfold put. case_bool_decide as E.
    - rewrite lookup_delete_Some. intros [_ H]. by apply (rep_some _ _ R) in H.
    - rewrite lookup_insert_Some. intros [[_ [= _ H]]|[_ H]]; [done|by apply (rep_some _ _ R) in H]. }
  unfold when. assert (Hfst := fst_put m p t ops).
  destruct (decide (ops = [])) as [Hnil|Hcons].
  - rewrite bool_decide_eq_true_2 in * by done. destruct (remove_timer_ok q1 _ p Hh Hl) as (q2 & E2 & Hh2 & Hl2 & Ho2 & _); [by eexists|].
    exists q2. split; [exact E2|]. split; [by rewrite Hfst..| |done]. intros x. by rewrite Ho2.
  - rewrite bool_decide_eq_false_2 in * by done. exists q1. split; [done|]. split; [| |done..].
    + by rewrite Hfst, insert_id.
    + by rewrite Hfst, insert_id.
Qed.

Lemma cancel_ok q m p n :
  represents q m →
  ∃ q', cancel_timer p n q = Ok (map (λ op, (op, operation_aborted)) (take n (waits m p)), q') ∧
    represents q' (match m !! p with Some (t, ops) => put p t (drop n ops) m | None => m end).
Proof.
  intros R. unfold cancel_timer. erewrite bind_ok by reflexivity. rewrite (inactive_rep q m p R).
  destruct (m !! p) as [[t ops]|] eqn:Hp.
  - rewrite bool_decide_eq_false_2 by done. erewrite bind_ok by reflexivity. rewrite (rep_ops _ _ R), (waits_some m p t ops Hp).
    destruct (put_back_ok q m p t ops (drop n ops) R Hp) as (q' & E & R'). exists q'. split; [|done].
    erewrite bind_ok by reflexivity. by mgo E.
  - rewrite bool_decide_eq_true_2 by done. exists q. by rewrite waits_none, take_nil.
Qed.

Lemma cancel_by_key_ok q m p key :
  represents q m →
  ∃ q', cancel_timer_by_key p key q = Ok (map (λ op, (op, operation_aborted)) (List.filter (has_key key) (waits m p)), q') ∧
    represents q' (match m !! p with Some (t, ops) => put p t (List.filter (λ op, negb (has_key key op)) ops) m | None => m end).
Proof.
  intros R. unfold cancel_timer_by_key. erewrite bind_ok by reflexivity. rewrite (inactive_rep q m p R).
  destruct (m !! p) as [[t ops]|] eqn:Hp.
  - rewrite bool_decide_eq_false_2 by done. erewrite bind_ok by reflexivity. rewrite (rep_ops _ _ R), (waits_some m p t ops Hp).
    destruct (put_back_ok q m p t ops (List.filter (λ op, negb (has_key key op)) ops) R Hp) as (q' & E & R'). exists q'. split; [|done].
    erewrite bind_ok by reflexivity. by mgo E.
  - rewrite bool_decide_eq_true_2 by done. exists q. by rewrite waits_none.
Qed.

(** *** The earliest timer is at the front of the heap *)

Lemma heap_front h a : heap_ordered h → h !! 0%nat = Some a → ∀ j b, h !! j = Some b → a.1 ≤ b.1.
Proof.
  intros Ho Ha. induction j as [j IH] using lt_wf_ind. intros b Hb. destruct (decide (j = 0%nat)) as [->|Hj]; [by simplify_eq|].
  pose proof (parent_lt j) as Hp. apply lookup_lt_Some in Hb as Hlt.
  destruct (lookup_lt_is_Some_2 h (parent j)) as [c Hc]; [lia|].
  pose proof (IH (parent j) ltac:(lia) c Hc). pose proof (Ho j ltac:(lia) c b Hc Hb). lia.
Qed.

Lemma rep_entry q m p t ops : represents q m → m !! p = Some (t, ops) → ∃ i, heap_ q !! i = Some (t, p).
Proof. intros R Hp. apply (heap_entry q (fst <$> m)); [apply R|]. by rewrite lookup_fmap, Hp. Qed.

Lemma entry_rep q m i t p : represents q m → heap_ q !! i = Some (t, p) → m !! p = Some (t, waits m p).
Proof.
  intros R Hi. apply list_elem_of_lookup_2, (s_entries _ _ (rep_heap _ _ R)) in Hi. cbn in Hi. rewrite lookup_fmap in Hi.
  destruct (m !! p) as [[u ops]|] eqn:Hp; [|done]. injection Hi as ->. by rewrite (waits_some m p t ops).
Qed.

Lemma front_earliest q m t p : represents q m → heap_ q !! 0%nat = Some (t, p) → m !! p = Some (t, waits m p) ∧ earliest p m.
Proof.
  intros R Hf. pose proof (entry_rep q m _ t p R Hf) as Hp. split; [done|]. exists t, (waits m p). split; [done|].
  intros p' t' ops' Hp'. destruct (rep_entry q m p' t' ops' R Hp') as [j Hj].
  by apply (heap_front _ _ (s_ordered _ _ (rep_heap _ _ R)) Hf) in Hj.
Qed.

(** *** Enqueueing *)

Definition enqueued (t : Z) (p : nat) (op : wait_op) (m : timers) : timers :=
  <[p := match m !! p with Some (u, ops) => (u, ops ++ [op]) | None => (t, [op]) end]> m.

Lemma waits_enqueued t p op m x : waits (enqueued t p op m) x = if decide (x = p) then waits m p ++ [op] else waits m x.
Proof.
  unfold waits, enqueued. case_decide as E; [subst; rewrite lookup_insert_eq; by destruct (m !! p) as [[]|]|].
  by rewrite lookup_insert_ne.
Qed.

Lemma enqueue_shape q m t p op :
  represents q m →
  ∃ q1, when (bool_decide (m !! p = None)) (insert_timer t p) q = Ok (tt, q1) ∧
    represents (set_ops p (op_queue_ q1 p ++ [op]) q1) (enqueued t p op m) ∧ op_queue_ q1 = op_queue_ q.
Proof.
  intros R.
  assert (Hs : ∀ x u, enqueued t p op m !! x ≠ Some (u, [])).
  { intros x u. unfold enqueued. rewrite lookup_insert_Some. intros [[_ H]|[_ H]]; [|by apply (rep_some _ _ R) in H].
    destruct (m !! p) as [[v ops]|]; [|done]. injection H as _ H. by destruct ops. }
  assert (Ho : ∀ q1, op_queue_ q1 = op_queue_ q → ∀ x, op_queue_ (set_ops p (op_queue_ q1 p ++ [op]) q1) x = waits (enqueued t p op m) x).
  { intros q1 Eq x. rewrite waits_enqueued. cbn. rewrite Eq, <- !(rep_ops _ _ R). unfold insert, fn_insert.
    destruct (decide (p = x)) as [->|]; [by rewrite decide_True|by rewrite decide_False by done]. }
  assert (Hfst : fst <$> enqueued t p op m = if bool_decide (m !! p = None) then <[p := t]> (fst <$> m) else fst <$> m).
  { unfold enqueued. rewrite fmap_insert. destruct (m !! p) as [[u ops]|] eqn:Hp; [|done].
    rewrite bool_decide_eq_false_2 by done. apply insert_id. by rewrite lookup_fmap, Hp. }
  destruct R as [Hh Hl _ _]. unfold when. case_bool_decide as Hp.
  - destruct (insert_timer_ok q _ p t Hh Hl) as (q1 & E1 & Hh1 & Hl1 & Eo); [by rewrite lookup_fmap, Hp|].
    exists q1. split_and!; [done| |done]. split; [..|by auto|done]; rewrite Hfst; [by apply (heap_shape_ext q1)|by apply (list_shape_ext q1)].
  - exists q. split_and!; [done| |done]. split; [..|by auto|done]; rewrite Hfst; [by apply (heap_shape_ext q)|by apply (list_shape_ext q)].
Qed.

Lemma enqueue_ok q m t p op :
  represents q m →
  ∃ b q', enqueue_timer t p op q = Ok (b, q') ∧ represents q' (enqueued t p op m) ∧
    (b = true → earliest p (enqueued t p op m)) ∧
    (b = false → m !! p = None → ∃ x u ops, m !! x = Some (u, ops) ∧ u ≤ t).
Proof.
  intros R. destruct (enqueue_shape q m t p op R) as (q1 & E1 & R1 & Eo). unfold enqueue_timer.
  erewrite bind_ok by reflexivity. rewrite (inactive_rep q m p R). mgo E1. erewrite bind_ok by reflexivity.
  set (q2 := set_ops p (op_queue_ q1 p ++ [op]) q1) in *. set (m' := enqueued t p op m) in *.
  do 2 eexists. split_and!; [reflexivity|done|..]; change (op_queue_ q2) with (<[p := op_queue_ q1 p ++ [op]]> (op_queue_ q1)).
  - intros Hb. apply andb_true_iff in Hb as [Hi _]. apply bool_decide_eq_true in Hi.
    assert (Hm : m' !! p ≠ None) by (unfold m', enqueued; by rewrite lookup_insert_eq).
    destruct (m' !! p) as [[u ops]|] eqn:Hp; [|done]. destruct (rep_entry q2 m' p u ops R1 Hp) as [i He].
    pose proof (s_indexed _ _ (rep_heap _ _ R1) _ _ He) as Hx. cbn in Hx, Hi. rewrite Hx in Hi. injection Hi as ->.
    by apply (front_earliest q2 m' u).
  - intros Hb Hp. assert (Hm : m' !! p = Some (t, [op])) by (unfold m', enqueued; by rewrite lookup_insert_eq, Hp).
    rewrite fn_lookup_insert, Eo, (rep_ops _ _ R), (waits_none m p Hp) in Hb. cbn [head app] in Hb.
    rewrite (bool_decide_eq_true_2 (Some op = Some op)) in Hb by done. rewrite andb_true_r in Hb. apply bool_decide_eq_false in Hb.
    destruct (rep_entry q2 m' p t [op] R1 Hm) as [i He]. pose proof (s_indexed _ _ (rep_heap _ _ R1) _ _ He) as Hx. cbn in Hx.
    assert (Hi : i ≠ 0%nat) by (intros ->; by apply Hb). destruct (heap_ q2 !! 0%nat) as [[u x]|] eqn:Hf.
    + destruct (front_earliest q2 m' u x R1 Hf) as [Hx' _]. exists x, u, (waits m' x).
      pose proof (heap_front _ _ (s_ordered _ _ (rep_heap _ _ R1)) Hf i _ He). split; [|done].
      unfold m', enqueued in Hx' |- *. rewrite lookup_insert_Some in Hx'. destruct Hx' as [[-> _]|[_ Hx']]; [|done].
      pose proof (indexed_inj q2 0 i _ _ (s_indexed _ _ (rep_heap _ _ R1)) Hf He eq_refl). lia.
    + apply lookup_ge_None in Hf. apply lookup_lt_Some in He. lia.
Qed.

(** *** The timers that are due *)

Definition done_with (e : ec) (m : timers) (p : nat) : list (wait_op * ec) := map (λ op, (op, e)) (waits m p).

(** The timers not later than [now], in the order of their times. *)
Definition due (now : Z) (m : timers) (l : list nat) : Prop :=
  NoDup l ∧ (∀ p, p ∈ l ↔ ∃ t ops, m !! p = Some (t, ops) ∧ t ≤ now) ∧
  ∀ i j p p' t t' ops ops', (i < j)%nat → l !! i = Some p → l !! j = Some p' → m !! p = Some (t, ops) → m !! p' = Some (t', ops') → t ≤ t'.

Definition not_due (now : Z) (m : timers) : timers := filter (λ e, now < e.2.1) m.

Lemma due_none now m : (∀ p t ops, m !! p = Some (t, ops) → now < t) → due now m [] ∧ not_due now m = m.
Proof.
  intros H. split; [split_and!; [by constructor| |by intros; simplify_eq]|].
  - intros p. split; [by intros ?%not_elem_of_nil|]. intros (t & ops & Hp & Ht). apply H in Hp. lia.
  - apply map_filter_id. intros p [t ops] Hp. by apply (H p t ops).
Qed.

Lemma due_cons now m p t ops l :
  m !! p = Some (t, ops) → t ≤ now → earliest p m → due now (delete p m) l →
  due now m (p :: l) ∧ not_due now m = not_due now (delete p m).
Proof.
  intros Hp Ht (u & w & Hu & Hmin) (Hnd & Hin & Hord). rewrite Hp in Hu. injection Hu as <- <-.
  assert (Hpl : p ∉ l) by (rewrite Hin; intros (? & ? & Hx & _); by rewrite lookup_delete_eq in Hx).
  assert (Hne : ∀ x, x ∈ l → x ≠ p) by (by intros x Hx ->). split; [split_and!|].
  - by constructor.
  - intros x. rewrite elem_of_cons, Hin. destruct (decide (x = p)) as [->|Hx]; [naive_solver|]. rewrite lookup_delete_ne by done. naive_solver.
  - intros [|i] [|j] x x' t1 t2 o1 o2 Hij Hx Hx' H1 H2; try lia; cbn in Hx, Hx'.
    + injection Hx as <-. rewrite Hp in H1. injection H1 as <- <-. by apply (Hmin x' t2 o2).
    + apply (Hord i j x x' t1 t2 o1 o2); [lia|done|done|..]; rewrite lookup_delete_ne; try done;
        apply not_eq_sym, Hne; by eapply list_elem_of_lookup_2.
  - unfold not_due. rewrite map_filter_delete. symmetry. apply delete_id. apply map_lookup_filter_None_2. right.
    intros [u o] Hu. rewrite Hp in Hu. injection Hu as <- <-. cbn. lia.
Qed.

Lemma due_waits m p e l : p ∉ l → flat_map (done_with e (delete p m)) l = flat_map (done_with e m) l.
Proof.
  intros Hp. rewrite !flat_map_concat_map. f_equal. apply map_ext_in. intros x Hx. unfold done_with, waits.
  rewrite lookup_delete_ne; [done|]. intros ->. apply Hp. by apply list_elem_of_In.
Qed.

(** The heap is shorter by one. *)
Lemma remove_timer_length q m p t ops q' :
  represents q m → m !! p = Some (t, ops) → remove_timer p (set_ops p [] q) = Ok (tt, q') →
  length (heap_ q') = (length (heap_ q) - 1)%nat.
Proof.
  intros R Hp E. destruct (remove_timer_ok (set_ops p [] q) (fst <$> m) p) as (q1 & E1 & _ & _ & _ & Hl).
  - by apply (heap_shape_ext q); [..|apply R].
  - by apply (list_shape_ext q); [..|apply R].
  - exists t. by rewrite lookup_fmap, Hp.
  - rewrite E in E1. injection E1 as ->. done.
Qed.

Lemma ready_ok now fuel q m ops :
  represents q m → (length (heap_ q) ≤ fuel)%nat →
  ∃ l q', ready_loop fuel now ops q = Ok (ops ++ flat_map (done_with success m) l, q') ∧ due now m l ∧ represents q' (not_due now m).
Proof.
  revert q m ops. induction fuel as [|fuel IH]; intros q m ops R Hf.
  all: cbn [ready_loop]; erewrite bind_ok by reflexivity; destruct (heap_ q) as [|[t p] h] eqn:Eh.
  1, 3: exists [], q; rewrite app_nil_r; destruct (due_none now m) as [Hd Hn];
    [intros p t w Hp; destruct (rep_entry q m p t w R Hp) as [i Hi]; by rewrite Eh in Hi|by rewrite Hn].
  - cbn in Hf. lia.
  - assert (Hfront : heap_ q !! 0%nat = Some (t, p)) by (by rewrite Eh).
    destruct (front_earliest q m t p R Hfront) as [Hp Hear].
    destruct (Z.ltb_spec now t) as [Hlt|Hge]; cbn [negb].
    + exists [], q. rewrite app_nil_r. destruct (due_none now m) as [Hd Hn]; [|by rewrite Hn].
      destruct Hear as (u & w & Hu & Hmin). rewrite Hp in Hu. injection Hu as <- <-. intros x u o Hx. specialize (Hmin x u o Hx). lia.
    + erewrite bind_ok by reflexivity. rewrite (rep_ops _ _ R). erewrite bind_ok by reflexivity.
      destruct (put_back_ok q m p t _ [] R Hp) as (q1 & E1 & R1). change (remove_timer p (set_ops p [] q) = Ok (tt, q1)) in E1.
      change (put p t [] m) with (delete p m) in R1. rewrite (bind_ok _ _ _ _ _ E1).
      assert (Hlen : (length (heap_ q1) ≤ fuel)%nat).
      { pose proof (remove_timer_length q m p t _ q1 R Hp E1). rewrite Eh in *. cbn in *. lia. }
      destruct (IH q1 (delete p m) (ops ++ done_with success m p) R1 Hlen) as (l & q2 & E2 & Hd & R2).
      destruct (due_cons now m p t _ l Hp Hge Hear Hd) as [Hd' Hn]. exists (p :: l), q2. split_and!; [|done|by rewrite Hn].
      unfold done_with at 1 in E2. rewrite E2. cbn [flat_map]. rewrite due_waits, app_assoc; [done|]. destruct Hd' as [Hnd _].
      by apply NoDup_cons in Hnd as [? _].
Qed.

(** *** All timers *)

Definition emptied (m : timers) (ops : list wait_op) : Prop :=
  ∃ l, NoDup l ∧ (∀ p, p ∈ l ↔ is_Some (m !! p)) ∧ ops = flat_map (waits m) l.

Lemma represents_list q m : represents q m → ∃ l, NoDup l ∧ linked q l ∧ timers_ q = head l ∧ (∀ p, p ∈ l ↔ is_Some (m !! p)) ∧
  (∀ p, p ∉ l → next_ q p = None ∧ prev_ q p = None) ∧ (length l ≤ length (heap_ q))%nat.
Proof.
  intros R. destruct (rep_list _ _ R) as (l & Hnd & Hl & Ht & Hin & Hout).
  assert (Hin' : ∀ p, p ∈ l ↔ is_Some (m !! p)) by (intros p; by rewrite Hin, lookup_fmap, fmap_is_Some).
  exists l. split_and!; try done. rewrite <- (length_fmap snd (heap_ q)). apply submseteq_length, NoDup_submseteq; [done|].
  intros p Hp. apply Hin' in Hp as [[t ops] Hp]. destruct (rep_entry q m p t ops R Hp) as [i Hi].
  apply list_elem_of_fmap. exists (t, p). split; [done|]. by apply list_elem_of_lookup_2 in Hi.
Qed.

(** The list [l] is what is left to take, from a state where [prev_] is stale. *)
Lemma all_loop_ok fuel l ops q :
  NoDup l → (length l ≤ fuel)%nat → timers_ q = head l → (∀ i p, l !! i = Some p → next_ q p = l !! S i) →
  ∃ q', all_loop fuel ops q = Ok (ops ++ flat_map (op_queue_ q) l, q') ∧ timers_ q' = None ∧ heap_ q' = heap_ q ∧
    (∀ p, op_queue_ q' p = if decide (p ∈ l) then [] else op_queue_ q p) ∧
    (∀ p, next_ q' p = if decide (p ∈ l) then None else next_ q p) ∧ (∀ p, prev_ q' p = if decide (p ∈ l) then None else prev_ q p).
Proof.
  revert l ops q. induction fuel as [|fuel IH]; intros [|p l] ops q Hnd Hf Ht Hn; cbn in Hf, Ht; try lia;
    cbn [all_loop]; erewrite bind_ok by reflexivity; rewrite ?Ht.
  1, 2: exists q; rewrite app_nil_r; split_and!; try done; intros x; by rewrite decide_False by apply not_elem_of_nil.
  do 5 (erewrite bind_ok by reflexivity). apply NoDup_cons in Hnd as [Hpl Hnd].
  set (q1 := set_prev p None (set_next p None (set_ops p [] (set_timers (next_ q p) q)))).
  assert (Hne : ∀ x, x ∈ l → x ≠ p) by (by intros x Hx ->).
  destruct (IH l (ops ++ op_queue_ q p) q1 Hnd) as (q2 & E2 & Ht2 & Hh2 & Ho2 & Hn2 & Hp2); [lia| | |].
  - cbn. rewrite (Hn 0%nat p eq_refl). by rewrite head_lookup.
  - intros i x Hx. cbn. rewrite fn_lookup_insert_ne by (apply not_eq_sym, Hne; by apply list_elem_of_lookup_2 in Hx).
    by apply (Hn (S i)).
  - exists q2. split_and!; [|done|done|..].
    + rewrite E2. cbn [flat_map]. rewrite <- app_assoc. do 4 f_equal. rewrite !flat_map_concat_map. f_equal.
      apply map_ext_in. intros x Hx. cbn. rewrite fn_lookup_insert_ne; [done|]. apply not_eq_sym, Hne. by apply list_elem_of_In.
    + intros x. rewrite Ho2. cbn. unfold insert, fn_insert. destruct (decide (x ∈ l)), (decide (x ∈ p :: l)), (decide (p = x)); set_solver.
    + intros x. rewrite Hn2. cbn. unfold insert, fn_insert. destruct (decide (x ∈ l)), (decide (x ∈ p :: l)), (decide (p = x)); set_solver.
    + intros x. rewrite Hp2. cbn. unfold insert, fn_insert. destruct (decide (x ∈ l)), (decide (x ∈ p :: l)), (decide (p = x)); set_solver.
Qed.

Lemma empty_shapes q :
  heap_ q = [] → timers_ q = None → (∀ p, op_queue_ q p = []) → (∀ p, next_ q p = None) → (∀ p, prev_ q p = None) → represents q ∅.
Proof.
  intros Hh Ht Ho Hn Hp. split.
  - rewrite fmap_empty. split; unfold indexed; rewrite Hh; [by intros i e ?|by intros j Hj a b ?|].
    intros e. rewrite lookup_empty. by split; [intros ?%not_elem_of_nil|].
  - rewrite fmap_empty. exists []. split_and!; [constructor|by intros i p ?|done| |by auto].
    intros p. rewrite lookup_empty. by split; [intros ?%not_elem_of_nil|intros [? ?]].
  - intros p. by rewrite Ho, waits_none.
  - intros p t. by rewrite lookup_empty.
Qed.

Lemma get_all_ok q m ops :
  represents q m →
  ∃ all q', get_all_timers ops q = Ok (ops ++ all, q') ∧ emptied m all ∧ represents q' ∅.
Proof.
  intros R. destruct (represents_list q m R) as (l & Hnd & Hl & Ht & Hin & Hout & Hlen).
  destruct (all_loop_ok (length (heap_ q)) l ops q Hnd Hlen Ht) as (q1 & E1 & Ht1 & Hh1 & Ho1 & Hn1 & Hp1).
  { intros i p Hi. apply (Hl i p Hi). }
  exists (flat_map (waits m) l), (set_heap [] q1). split_and!.
  - unfold get_all_timers. erewrite bind_ok by reflexivity. mgo E1. erewrite bind_ok by reflexivity.
    unfold mret, M_ret. do 3 f_equal. rewrite !flat_map_concat_map. f_equal. apply map_ext. intros p. apply (rep_ops _ _ R).
  - by exists l.
  - apply empty_shapes; try done; intros p; cbn; [rewrite Ho1|rewrite Hn1|rewrite Hp1];
      destruct (decide (p ∈ l)) as [|Hx]; try done; [|apply (Hout p Hx)..].
    rewrite (rep_ops _ _ R). apply waits_none. destruct (m !! p) eqn:E; [|done]. destruct Hx. apply Hin. by eexists.
Qed.

Lemma empty_ok q m : represents q m → empty q = Ok (bool_decide (m = ∅), q).
Proof.
  intros R. destruct (represents_list q m R) as (l & _ & _ & Ht & Hin & _). unfold empty, gets. do 2 f_equal. apply bool_decide_ext.
  rewrite Ht. split; intros H.
  - apply map_eq. intros p. rewrite lookup_empty. destruct (m !! p) eqn:E; [|done]. destruct l; [|done].
    destruct (not_elem_of_nil p). apply Hin. by eexists.
  - destruct l as [|p l]; [done|]. assert (Hp : is_Some (m !! p)) by (apply Hin; by left). rewrite H, lookup_empty in Hp. by destruct Hp.
Qed.

(** *** Moving *)

Lemma NoDup_replace (l : list nat) i b : NoDup l → b ∉ l → NoDup (<[i := b]> l).
Proof.
  intros Hnd Hb. apply NoDup_alt. intros j k x Hj Hk.
  assert (Hbl : ∀ j, l !! j ≠ Some b) by (intros j' Hj'; apply Hb; by apply list_elem_of_lookup_2 in Hj').
  apply list_lookup_insert_Some in Hj as [(-> & <- & _)|[Hji Hj]], Hk as [(-> & ? & _)|[Hki Hk]]; subst; try done.
  - by apply Hbl in Hk.
  - by apply Hbl in Hj.
  - by apply (NoDup_lookup l j k x).
Qed.

Lemma linked_replace q q' l i a b :
  NoDup l → linked q l → l !! i = Some a → b ∉ l →
  (∀ x, next_ q' x = if decide (x = a) then None else if decide (x = b) then next_ q a else
    if decide (prev_ q a = Some x) then Some b else next_ q x) →
  (∀ x, prev_ q' x = if decide (x = a) then None else if decide (x = b) then prev_ q a else
    if decide (next_ q a = Some x) then Some b else prev_ q x) →
  linked q' (<[i := b]> l).
Proof.
  intros Hnd Hl Hi Hb En Ep j x Hj. destruct (Hl i a Hi) as [Hna Hpa]. apply lookup_lt_Some in Hi as Hil.
  assert (Hinj : ∀ j k x, l !! j = Some x → l !! k = Some x → j = k) by (intros j' k x'; by apply NoDup_lookup).
  assert (Hbl : ∀ j, l !! j ≠ Some b) by (intros j' Hj'; apply Hb; by apply list_elem_of_lookup_2 in Hj').
  assert (Hab : b ≠ a) by (intros ->; by apply (Hbl i)). rewrite En, Ep.
  apply list_lookup_insert_Some in Hj as [(-> & <- & _)|[Hji Hj]].
  - rewrite !(decide_False (P := b = a)), !(decide_True (P := b = b)), Hna, Hpa by done. split.
    + by rewrite list_lookup_insert_ne by lia.
    + destruct j; [done|]. by rewrite list_lookup_insert_ne by lia.
  - destruct (Hl j x Hj) as [Hnx Hpx]. assert (x ≠ a) by (intros ->; specialize (Hinj _ _ _ Hj Hi); lia).
    assert (x ≠ b) by (intros ->; by apply (Hbl j)). rewrite !(decide_False (P := x = a)), !(decide_False (P := x = b)) by done. split.
    + destruct (decide (prev_ q a = Some x)) as [Hz|Hz].
      * rewrite Hpa in Hz. destruct i as [|k]; [done|]. specialize (Hinj _ _ _ Hz Hj). subst k. by rewrite list_lookup_insert_eq.
      * rewrite list_lookup_insert_ne; [done|]. intros ->. by rewrite Hpa in Hz.
    + destruct (decide (next_ q a = Some x)) as [Hz|Hz].
      * rewrite Hna in Hz. specialize (Hinj _ _ _ Hz Hj). subst j. by rewrite list_lookup_insert_eq.
      * rewrite Hpx. destruct j as [|k]; [done|]. rewrite list_lookup_insert_ne; [done|]. intros ->. rewrite Hna in Hz. congruence.
Qed.

(** The last part of [move_timer]: [target] takes the place of [source] in the list. *)
Lemma replace_in_list q l i a b :
  NoDup l → linked q l → timers_ q = head l → (∀ p, p ∉ l → next_ q p = None ∧ prev_ q p = None) →
  l !! i = Some a → b ∉ l →
  ∃ q', (modify (λ q, if decide (timers_ q = Some a) then set_timers (Some b) q else q);;
         modify (λ q, if_timer (prev_ q a) (λ p, set_next p (Some b)) q);;
         modify (λ q, if_timer (next_ q a) (λ n, set_prev n (Some b)) q);;
         modify (λ q, set_next b (next_ q a) q);;
         modify (λ q, set_prev b (prev_ q a) q);;
         modify (set_next a None);;
         modify (set_prev a None)) q = Ok (tt, q') ∧ heap_ q' = heap_ q ∧ heap_index_ q' = heap_index_ q ∧ op_queue_ q' = op_queue_ q ∧
    NoDup (<[i := b]> l) ∧ linked q' (<[i := b]> l) ∧ timers_ q' = head (<[i := b]> l) ∧
    (∀ p, p ∉ <[i := b]> l → next_ q' p = None ∧ prev_ q' p = None).
Proof.
  intros Hnd Hl Ht Hout Hi Hb. destruct (Hl i a Hi) as [Hna Hpa]. apply lookup_lt_Some in Hi as Hil.
  assert (Hinj : ∀ j k x, l !! j = Some x → l !! k = Some x → j = k) by (intros j k x; by apply NoDup_lookup).
  assert (Hbl : ∀ j, l !! j ≠ Some b) by (intros j Hj; apply Hb; by apply list_elem_of_lookup_2 in Hj).
  assert (Hab : a ≠ b) by (intros ->; by apply (Hbl i)).
  set (q1 := if decide (timers_ q = Some a) then set_timers (Some b) q else q).
  assert (E1 : next_ q1 = next_ q ∧ prev_ q1 = prev_ q ∧ heap_ q1 = heap_ q ∧ heap_index_ q1 = heap_index_ q ∧
    op_queue_ q1 = op_queue_ q ∧ timers_ q1 = (if decide (timers_ q = Some a) then Some b else timers_ q)).
  { unfold q1. by case_decide. }
  destruct E1 as (En & Ep & Eh & Ei & Eo & Et).
  set (q2 := if_timer (prev_ q1 a) (λ p, set_next p (Some b)) q1).
  assert (Hpaa : prev_ q a ≠ Some a).
  { rewrite Hpa. destruct i as [|j]; [done|]. intros Hz. specialize (Hinj _ _ _ Hz Hi). lia. }
  assert (Hnaa : next_ q a ≠ Some a) by (rewrite Hna; intros Hz; specialize (Hinj _ _ _ Hz Hi); lia).
  assert (E2 : prev_ q2 = prev_ q ∧ heap_ q2 = heap_ q ∧ heap_index_ q2 = heap_index_ q ∧ op_queue_ q2 = op_queue_ q ∧
    timers_ q2 = timers_ q1 ∧ next_ q2 a = next_ q a ∧ ∀ x, next_ q2 x = if decide (prev_ q a = Some x) then Some b else next_ q x).
  { unfold q2. rewrite Ep. destruct (prev_ q a) as [c|] eqn:Ec; cbn; rewrite ?En, ?Ep; split_and!; try done.
    - apply fn_lookup_insert_ne. congruence.
    - intros x. unfold insert, fn_insert. clear. repeat case_decide; congruence. }
  destruct E2 as (Ep2 & Eh2 & Ei2 & Eo2 & Et2 & Ena2 & En2).
  set (q3 := if_timer (next_ q2 a) (λ n, set_prev n (Some b)) q2).
  assert (E3 : next_ q3 = next_ q2 ∧ heap_ q3 = heap_ q ∧ heap_index_ q3 = heap_index_ q ∧ op_queue_ q3 = op_queue_ q ∧
    timers_ q3 = timers_ q1 ∧ prev_ q3 a = prev_ q a ∧ ∀ x, prev_ q3 x = if decide (next_ q a = Some x) then Some b else prev_ q x).
  { unfold q3. rewrite Ena2. destruct (next_ q a) as [c|] eqn:Ec; cbn; rewrite ?Ep2; split_and!; try done.
    - apply fn_lookup_insert_ne. congruence.
    - intros x. unfold insert, fn_insert. clear. repeat case_decide; congruence. }
  destruct E3 as (En3 & Eh3 & Ei3 & Eo3 & Et3 & Epa3 & Ep3).
  exists (set_prev a None (set_next a None (set_prev b (prev_ q a) (set_next b (next_ q a) q3)))).
  split; [|split_and!; try done].
  - do 5 (erewrite bind_ok by reflexivity). fold q1 q2 q3. cbn [prev_ set_next]. rewrite En3, Ena2, Epa3. reflexivity.
  - by apply NoDup_replace.
  - apply (linked_replace q _ l i a b); try done; intros x; cbn; rewrite ?En3; unfold insert, fn_insert; clear -En2 Ep3;
      [specialize (En2 x)|specialize (Ep3 x)]; repeat case_decide; congruence.
  - cbn. rewrite Et3, Et, Ht, !head_lookup. destruct (decide (i = 0%nat)) as [->|Hi0].
    + rewrite list_lookup_insert_eq by done. by rewrite decide_True.
    + rewrite list_lookup_insert_ne by done. rewrite decide_False; [done|]. intros Hz. by specialize (Hinj _ _ _ Hi Hz).
  - intros x Hx. destruct (decide (x = a)) as [->|Hxa]; [by cbn; rewrite !fn_lookup_insert|].
    assert (Hxl : x ∉ l /\ x ≠ b).
    { split; intros Hz; apply Hx; [|subst; apply list_elem_of_lookup; exists i; by apply list_lookup_insert_eq].
      apply list_elem_of_lookup in Hz as [j Hj]. apply list_elem_of_lookup. exists j. rewrite list_lookup_insert_ne; [done|].
      intros ->. congruence. }
    destruct Hxl as [Hxl Hxb]. assert (Hno : ∀ j, l !! j ≠ Some x) by (intros j Hj; apply Hxl; by apply list_elem_of_lookup_2 in Hj).
    cbn. rewrite !fn_lookup_insert_ne, En3, En2, Ep3 by done. rewrite !decide_False; [by apply Hout|rewrite Hna; apply Hno|].
    rewrite Hpa. destruct i; [done|apply Hno].
Qed.

Definition moved (target source : nat) (m : timers) : timers :=
  match m !! source with Some e => <[target := e]> (delete source m) | None => m end.

Lemma times_moved_lookup (m : timers) target source t ops x :
  m !! source = Some (t, ops) → m !! target = None →
  moved target source m !! x = if decide (x = target) then Some (t, ops) else if decide (x = source) then None else m !! x.
Proof.
  intros Hs Ht. unfold moved. rewrite Hs. case_decide as E1; [by subst; rewrite lookup_insert_eq|]. rewrite lookup_insert_ne by done.
  case_decide as E2; [by subst; rewrite lookup_delete_eq|by rewrite lookup_delete_ne].
Qed.

(** The entry of [source] becomes [target]'s. *)
Lemma heap_moved q q' m target source t ops i :
  represents q m → m !! source = Some (t, ops) → m !! target = None → heap_ q !! i = Some (t, source) →
  heap_ q' = <[i := (t, target)]> (heap_ q) → heap_index_ q' = <[source := None]> (<[target := Some i]> (heap_index_ q)) →
  heap_shape q' (fst <$> moved target source m).
Proof.
  intros R Hs Ht Hi Eh Ei. apply lookup_lt_Some in Hi as Hil. assert (Hts : target ≠ source) by congruence.
  destruct (rep_heap _ _ R) as [Hix Ho He].
  assert (Hnt : ∀ k u, heap_ q !! k ≠ Some (u, target)).
  { intros k u Hk. apply (entry_rep q m k u target R) in Hk. congruence. }
  assert (Hns : ∀ k u, heap_ q !! k = Some (u, source) → k = i).
  { intros k u Hk. by apply (indexed_inj q k i (u, source) (t, source)). }
  split.
  - intros k [u x] Hk. rewrite Ei. rewrite Eh in Hk. cbn. apply list_lookup_insert_Some in Hk as [(-> & [= <- <-] & _)|[Hki Hk]].
    + by rewrite fn_lookup_insert_ne, fn_lookup_insert.
    + rewrite !fn_lookup_insert_ne; [by apply (Hix k (u, x))|intros ->; by apply Hnt in Hk|]. intros ->. by apply Hns in Hk.
  - intros j Hj a b Ha Hb. rewrite Eh in Ha, Hb.
    assert (Hsame : ∀ k e, <[i := (t, target)]> (heap_ q) !! k = Some e → ∃ e', heap_ q !! k = Some e' ∧ e'.1 = e.1).
    { intros k e Hk. apply list_lookup_insert_Some in Hk as [(-> & <- & _)|[_ Hk]]; by eexists. }
    apply Hsame in Ha as (a' & Ha & <-). apply Hsame in Hb as (b' & Hb & <-). by apply (Ho j Hj).
  - intros [u x]. cbn. rewrite Eh, lookup_fmap, (times_moved_lookup m target source t ops x Hs Ht), list_elem_of_lookup. split.
    + intros [k Hk]. apply list_lookup_insert_Some in Hk as [(-> & [= <- <-] & _)|[Hki Hk]]; [by rewrite decide_True|].
      rewrite !decide_False; [|intros ->; by apply Hns in Hk|intros ->; by apply Hnt in Hk].
      by rewrite (entry_rep q m k u x R Hk).
    + destruct (decide (x = target)) as [->|Hxt]; [intros [= <-]; exists i; by apply list_lookup_insert_eq|].
      destruct (decide (x = source)) as [->|Hxs]; [done|]. intros Hx. destruct (m !! x) as [[v w]|] eqn:Em; [|done].
      injection Hx as ->. destruct (rep_entry q m x u w R Em) as [k Hk]. exists k. rewrite list_lookup_insert_ne; [done|].
      intros ->. congruence.
Qed.

Lemma move_ok q m target source t ops :
  represents q m → m !! source = Some (t, ops) → m !! target = None →
  ∃ q', move_timer target source q = Ok (tt, q') ∧ represents q' (moved target source m).
Proof.
  intros R Hs Ht. assert (Hts : target ≠ source) by congruence. destruct (rep_entry q m source t ops R Hs) as [i Hi].
  pose proof (s_indexed _ _ (rep_heap _ _ R) _ _ Hi) as Hix. cbn in Hix. apply lookup_lt_Some in Hi as Hil.
  destruct (represents_list q m R) as (l & Hnd & Hl & Hh & Hin & Hout & _).
  assert (Hsl : source ∈ l) by (apply Hin; by eexists). assert (Htl : target ∉ l) by (rewrite Hin, Ht; by intros [? [=]]).
  apply list_elem_of_lookup in Hsl as [j Hj]. apply lookup_lt_Some in Hj as Hjl.
  unfold move_timer. do 2 (erewrite bind_ok by reflexivity). erewrite bind_ok by reflexivity.
  set (q1 := set_index _ _ _). assert (Ei : heap_index_ (id q1) target = Some i).
  { cbn. rewrite fn_lookup_insert_ne, fn_lookup_insert by done. exact Hix. }
  set (q2 := set_heap (<[i := (t, target)]> (heap_ q)) q1).
  rewrite Ei. change (length (heap_ (id q1))) with (length (heap_ q)). rewrite (proj2 (Nat.ltb_lt i _)) by done.
  erewrite (bind_ok _ _ q1 tt q2); [|cbn [when]; by mgo (heap_at_ok i (t, source) q1 Hi)].
  destruct (replace_in_list q2 l j source target) as (q3 & E3 & Eh & Ei3 & Eo & Hnd3 & Hl3 & Ht3 & Hout3); try done.
  exists q3. split; [exact E3|]. split.
  - apply (heap_moved q q3 m target source t ops i); try done. rewrite Ei3. cbn. by rewrite Hix.
  - exists (<[j := target]> l). split_and!; try done. intros x. rewrite lookup_fmap, fmap_is_Some.
    rewrite (times_moved_lookup m target source t ops x Hs Ht), list_elem_of_lookup. split.
    + intros [k Hk]. apply list_lookup_insert_Some in Hk as [(-> & <- & _)|[Hkj Hk]]; [by rewrite decide_True|].
      rewrite !decide_False; [apply Hin; by apply list_elem_of_lookup_2 in Hk|..].
      * intros ->. by pose proof (NoDup_lookup l _ _ _ Hnd Hk Hj).
      * intros ->. apply Htl. by apply list_elem_of_lookup_2 in Hk.
    + destruct (decide (x = target)) as [->|Hxt]; [intros _; exists j; by apply list_lookup_insert_eq|].
      destruct (decide (x = source)) as [->|Hxs]; [by intros []|]. intros Hx. apply Hin, list_elem_of_lookup in Hx as [k Hk].
      exists k. rewrite list_lookup_insert_ne; [done|]. intros ->. congruence.
  - intros x. rewrite Eo. cbn. unfold waits. rewrite (times_moved_lookup m target source t ops x Hs Ht). unfold insert, fn_insert.
    destruct (decide (source = x)) as [->|Hxs].
    + rewrite decide_False, decide_True by done. done.
    + destruct (decide (target = x)) as [->|Hxt].
      * rewrite decide_True by done. rewrite !(rep_ops _ _ R), (waits_none m x Ht), (waits_some m source t ops Hs). done.
      * rewrite !decide_False by done. apply (rep_ops _ _ R).
  - intros x u. rewrite (times_moved_lookup m target source t ops x Hs Ht). repeat case_decide; [|done|apply (rep_some _ _ R)].
    intros [= <- ->]. by apply (rep_some _ _ R) in Hs.
Qed.

(** *** The queue and the map *)

Inductive call :=
| Enqueue (time : Z) (timer : nat) (op : wait_op)
| Cancel (timer : nat) (max_cancelled : nat)
| CancelByKey (timer : nat) (key : Z)
| Move (target source : nat)
| GetReady (now : Z) (ops : list (wait_op * ec))
| GetAll (ops : list wait_op)
| IsEmpty.

Inductive reply :=
| Flag (b : bool)
| Done (ops : list (wait_op * ec))
| Waits (ops : list wait_op)
| Nothing.

Definition perform (c : call) : MQ reply :=
  match c with
  | Enqueue t p op => b ← enqueue_timer t p op; mret (Flag b)
  | Cancel p n => l ← cancel_timer p n; mret (Done l)
  | CancelByKey p key => l ← cancel_timer_by_key p key; mret (Done l)
  | Move target source => move_timer target source;; mret Nothing
  | GetReady now ops => l ← get_ready_timers now ops; mret (Done l)
  | GetAll ops => l ← get_all_timers ops; mret (Waits l)
  | IsEmpty => b ← empty; mret (Flag b)
  end.

Fixpoint perform_all (cs : list call) : MQ (list reply) :=
  match cs with
  | [] => mret []
  | c :: cs => r ← perform c; rs ← perform_all cs; mret (r :: rs)
  end.

(** What a call does to the timers, *)
Definition after (c : call) (m : timers) : timers :=
  match c with
  | Enqueue t p op => enqueued t p op m
  | Cancel p n => match m !! p with Some (t, ops) => put p t (drop n ops) m | None => m end
  | CancelByKey p key =>
      match m !! p with Some (t, ops) => put p t (List.filter (λ op, negb (has_key key op)) ops) m | None => m end
  | Move target source => moved target source m
  | GetReady now _ => not_due now m
  | GetAll _ => ∅
  | IsEmpty => m
  end.

(** and what it answers. *)
Definition answers (m : timers) (c : call) (r : reply) : Prop :=
  match c, r with
  | Enqueue t p op, Flag b =>
      (b = true → earliest p (enqueued t p op m)) ∧
      (b = false → m !! p = None → ∃ x u ops, m !! x = Some (u, ops) ∧ u ≤ t)
  | Cancel p n, Done l => l = map (λ op, (op, operation_aborted)) (take n (waits m p))
  | CancelByKey p key, Done l => l = map (λ op, (op, operation_aborted)) (List.filter (has_key key) (waits m p))
  | Move _ _, Nothing => True
  | GetReady now ops, Done l => ∃ d, due now m d ∧ l = ops ++ flat_map (done_with success m) d
  | GetAll ops, Waits l => ∃ all, emptied m all ∧ l = ops ++ all
  | IsEmpty, Flag b => b = bool_decide (m = ∅)
  | _, _ => False
  end.

(** An active timer is moved to an inactive one.  A timer that is not in the queue is not moved: [get_all_timers] leaves
    its [heap_index_] as it was, and the move would take it for that of an entry of the heap. *)
Definition allowed (c : call) (m : timers) : bool :=
  match c with
  | Move target source => bool_decide (is_Some (m !! source)) && bool_decide (m !! target = None)
  | _ => true
  end.

Fixpoint all_allowed (cs : list call) (m : timers) : bool :=
  match cs with [] => true | c :: cs => allowed c m && all_allowed cs (after c m) end.

Fixpoint all_answer (m : timers) (cs : list call) (rs : list reply) : Prop :=
  match cs, rs with
  | [], [] => True
  | c :: cs, r :: rs => answers m c r ∧ all_answer (after c m) cs rs
  | _, _ => False
  end.

Definition after_all (cs : list call) (m : timers) : timers := foldl (λ m c, after c m) m cs.

Lemma perform_ok q m c :
  represents q m → allowed c m = true → ∃ r q', perform c q = Ok (r, q') ∧ answers m c r ∧ represents q' (after c m).
Proof.
  intros R Ha. destruct c as [t p op|p n|p key|target source|now ops|ops|]; cbn [perform answers after].
  - destruct (enqueue_ok q m t p op R) as (b & q' & E & R' & H). exists (Flag b), q'. by mgo E.
  - destruct (cancel_ok q m p n R) as (q' & E & R'). do 2 eexists. mgo E. by split_and!.
  - destruct (cancel_by_key_ok q m p key R) as (q' & E & R'). do 2 eexists. mgo E. by split_and!.
  - cbn in Ha. apply andb_true_iff in Ha as [[[t ops] Hs]%bool_decide_eq_true Ht%bool_decide_eq_true].
    destruct (move_ok q m target source t ops R Hs Ht) as (q' & E & R'). exists Nothing, q'. by mgo E.
  - destruct (ready_ok now (length (heap_ q)) q m ops R (le_n _)) as (d & q' & E & Hd & R').
    do 2 eexists. split; [erewrite bind_ok by exact E; reflexivity|]. split; [|done]. by exists d.
  - destruct (get_all_ok q m ops R) as (all & q' & E & He & R'). do 2 eexists. mgo E. split_and!; [done| |done]. by exists all.
  - do 2 eexists. mgo (empty_ok q m R). by split_and!.
Qed.

Lemma represents_make : represents timer_queue_make ∅.
Proof. by apply empty_shapes. Qed.

(** C23: the queue, a heap and a linked list, refines a map from timers to their
    times and waits, whatever calls are made in whatever order: waits are
    completed in the order of their timers' times and of their arrival, exactly
    those of the timers that are due, cancelled waits are those asked for, and the
    reactor is told of a new earliest timer. *)
Theorem timers_refine cs q m :
  represents q m → all_allowed cs m = true →
  ∃ rs q', perform_all cs q = Ok (rs, q') ∧ all_answer m cs rs ∧ represents q' (after_all cs m).
Proof.
  revert q m. induction cs as [|c cs IH]; intros q m R Ha; [by exists [], q|]. cbn [all_allowed] in Ha.
  apply andb_true_iff in Ha as [Ha Has]. destruct (perform_ok q m c R Ha) as (r & q1 & E1 & H1 & R1).
  destruct (IH q1 _ R1 Has) as (rs & q2 & E2 & H2 & R2). exists (r :: rs), q2. split_and!; [|done|done].
  cbn [perform_all]. mgo E1. by mgo E2.
Qed.

Definition three_timers : list call :=
  [Enqueue 30 1 (mkWaitOp 10 7); Enqueue 10 2 (mkWaitOp 20 7); Enqueue 20 3 (mkWaitOp 30 7); Enqueue 20 3 (mkWaitOp 31 8);
   Cancel 2 1; Move 4 3; GetReady 20 []; CancelByKey 1 7; IsEmpty].

Lemma timers_refine_witness :
  ∃ q', perform_all three_timers timer_queue_make =
    Ok ([Flag true; Flag true; Flag false; Flag false; Done [(mkWaitOp 20 7, operation_aborted)]; Nothing;
         Done [(mkWaitOp 30 7, success); (mkWaitOp 31 8, success)]; Done [(mkWaitOp 10 7, operation_aborted)]; Flag true], q') ∧
    represents q' (after_all three_timers ∅).
Proof.
  destruct (timers_refine three_timers timer_queue_make ∅ represents_make eq_refl) as (rs & q' & E & _ & R).
  exists q'. split; [|exact R]. rewrite E. vm_compute in E. injection E as <- <-. reflexivity.
Defined.

Lemma total_ok u d : total u d = Ok (Z.quot d (unit_ticks u)).
Proof. by destruct u. Qed.

Lemma to_units_bounds u d max :
  0 < max → ∃ r, to_units u d max = Ok r ∧ 0 ≤ r ≤ max ∧ (r = 0 ↔ d ≤ 0) ∧ r * unit_ticks u ≤ Z.max (unit_ticks u) d.
Proof.
  intros Hm. unfold to_units. rewrite total_ok. assert (Hu : 0 < unit_ticks u) by by destruct u.
  destruct (Z.leb_spec d 0) as [Hd|Hd]; (eexists; split; [reflexivity|]); [lia|].
  rewrite Z.quot_div_nonneg by lia. pose proof (Z.div_pos d (unit_ticks u) ltac:(lia) Hu). pose proof (Z.mul_div_le d (unit_ticks u) Hu).
  destruct (Z.eqb_spec (d / unit_ticks u) 0); [lia|]. destruct (d / unit_ticks u >? max) eqn:E; [apply Z.gtb_lt in E; nia|].
  rewrite Z.gtb_ltb in E. apply Z.ltb_ge in E. nia.
Qed.

(** The reactor sleeps at most until the earliest timer, rounded up to one unit
    and at most [max_duration], and does not sleep at all if and only if a timer is due; no time
    overflows. *)
Theorem sleep_bounded u now max_duration q m :
  represents q m → 0 < max_duration → in_int64 now → (∀ p t ops, m !! p = Some (t, ops) → in_int64 t) →
  ∃ r, wait_duration u now max_duration q = Ok (r, q) ∧ 0 ≤ r ≤ max_duration ∧
    (r = 0 ↔ ∃ p t ops, m !! p = Some (t, ops) ∧ t ≤ now) ∧
    ∀ p t ops, m !! p = Some (t, ops) → now < t → r * unit_ticks u ≤ Z.max (unit_ticks u) (t - now).
Proof.
  intros R Hm Hn Hin. unfold wait_duration. erewrite bind_ok by reflexivity. destruct (heap_ q) as [|[t p] h] eqn:Eh.
  - assert (Hnone : ∀ p t ops, m !! p ≠ Some (t, ops)) by (intros p t ops Hp; destruct (rep_entry q m p t ops R Hp) as [i Hi]; by rewrite Eh in Hi).
    exists max_duration. split_and!; [done|lia|lia| |by intros p t ops Hp%Hnone].
    split; [lia|]. intros (p & t & ops & Hp & _). by apply Hnone in Hp.
  - destruct (front_earliest q m t p R) as [Hp (v & w & Hp' & Hmin)]; [by rewrite Eh|].
    rewrite Hp in Hp'. injection Hp' as <- <-. destruct (times_saturate t now (Hin _ _ _ Hp) Hn) as [_ Es].
    destruct (to_units_bounds u (clamp (t - now)) max_duration Hm) as (r & Er & B1 & B2 & B3). exists r. cbn [fst].
    split; [erewrite bind_ok by (unfold lift; rewrite Es; reflexivity); unfold lift; by rewrite Er|].
    specialize (Hin _ _ _ Hp). assert (Hcl : clamp (t - now) ≤ Z.max 0 (t - now) ∧ (clamp (t - now) ≤ 0 ↔ t ≤ now)).
    { unfold clamp, in_int64, int64_min, int64_max in *. lia. }
    split_and!; [lia|lia| |].
    + rewrite B2. split; [intros Hc; exists p, t, (waits m p); split; [done|lia]|].
      intros (p' & t' & ops' & Hp' & Ht'). specialize (Hmin p' t' ops' Hp'). lia.
    + intros p' t' ops' Hp' Ht'. specialize (Hmin p' t' ops' Hp'). lia.
Qed.

Lemma sleep_bounded_witness :
  ∃ q, perform (Enqueue 3000005 1 (mkWaitOp 10 0)) timer_queue_make = Ok (Flag true, q) ∧ wait_duration msec 5 300000 q = Ok (3, q).
Proof.
  destruct (perform_ok timer_queue_make ∅ (Enqueue 3000005 1 (mkWaitOp 10 0)) represents_make eq_refl) as (r & q & E & _ & R).
  destruct (sleep_bounded msec 5 300000 q _ R) as (n & En & _).
  - lia.
  - unfold in_int64, int64_min, int64_max. lia.
  - intros p t ops Hp. cbn in Hp. unfold enqueued in Hp. apply lookup_insert_Some in Hp as [[_ [= <- _]]|[_ Hp]]; [|done].
    vm_compute. by split.
  - exists q. vm_compute in E. injection E as <- <-. split; [reflexivity|]. rewrite En. vm_compute in En. by injection En as <-.
Defined.
