(* ===== verification/TimerService.v ===== *)
(** * The timer service (asio/detail/deadline_timer_service.hpp)

    The service behind [steady_timer] with the reactor's functions it goes through
    (asio/detail/impl/epoll_reactor.hpp, epoll_reactor.ipp), over the queue of
    TimerQueue.  Clock values are arguments; what is posted to the scheduler stays in
    [completions] until it runs.  Result: the service implements timers that have a
    time and a queue of waits each, counts its work right, and has the reactor's timer
    descriptor set so that no wait is completed late. *)

From Stdlib Require Import ZArith Lia.
From stdpp Require Import base list numbers functions fin_maps gmap.
From S2P Require Import Prelude.
From S2P Require Import TimerQueue.

#[local] Open Scope Z_scope.

(** ** State *)

(** [implementation_type]; its [timer_data] is in the queue under the timer's address. *)
Record implementation := mkImplementation { expiry : Z; might_have_pending_waits : bool }.

(** [completions] has been posted to the scheduler and has not run, [abandoned] has
    been destroyed without running; [outstanding_work_] is the scheduler's count, as far
    as it is this service's.  [timer_fd_] is the reactor's timer descriptor: when it was
    set, and when it expires. *)
Record service := mkService {
  timer_queue_ : timer_queue;
  impls : nat → implementation;
  completions : list (wait_op * ec);
  abandoned : list wait_op;
  outstanding_work_ : Z;
  shutdown_ : bool;
  timer_fd_ : option (Z * Z)
}.

Definition service_make : service :=
  mkService timer_queue_make (λ _, mkImplementation 0 false) [] [] 0 false None.

Definition set_queue (q : timer_queue) (sv : service) : service :=
  mkService q (impls sv) (completions sv) (abandoned sv) (outstanding_work_ sv) (shutdown_ sv) (timer_fd_ sv).
Definition put_impl (p : nat) (impl : implementation) (sv : service) : service :=
  mkService (timer_queue_ sv) (<[p := impl]> (impls sv)) (completions sv) (abandoned sv) (outstanding_work_ sv) (shutdown_ sv) (timer_fd_ sv).
Definition set_completions (l : list (wait_op * ec)) (sv : service) : service :=
  mkService (timer_queue_ sv) (impls sv) l (abandoned sv) (outstanding_work_ sv) (shutdown_ sv) (timer_fd_ sv).
Definition set_abandoned (l : list wait_op) (sv : service) : service :=
  mkService (timer_queue_ sv) (impls sv) (completions sv) l (outstanding_work_ sv) (shutdown_ sv) (timer_fd_ sv).
Definition add_work (n : Z) (sv : service) : service :=
  mkService (timer_queue_ sv) (impls sv) (completions sv) (abandoned sv) (outstanding_work_ sv + n) (shutdown_ sv) (timer_fd_ sv).
Definition set_down (sv : service) : service :=
  mkService (timer_queue_ sv) (impls sv) (completions sv) (abandoned sv) (outstanding_work_ sv) true (timer_fd_ sv).
Definition set_fd (fd : Z * Z) (sv : service) : service :=
  mkService (timer_queue_ sv) (impls sv) (completions sv) (abandoned sv) (outstanding_work_ sv) (shutdown_ sv) (Some fd).

Abbreviation MS := (M service).

Definition on_queue {A} (k : M timer_queue A) : MS A := λ sv,
  match k (timer_queue_ sv) with
  | Ok (a, q) => Ok (a, set_queue q sv)
  | Fault f => Fault f
  end.

(** ** The reactor *)

Definition post_deferred_completions (ops : list (wait_op * ec)) : MS unit :=
  modify (λ sv, set_completions (completions sv ++ ops) sv).

Definition work_started : MS unit := modify (add_work 1).

Definition post_immediate_completion (op : wait_op) : MS unit :=
  work_started;; modify (λ sv, set_completions (completions sv ++ [(op, success)]) sv).

(** [get_timeout(itimerspec&)]: the time [timerfd_settime] is given, in nanoseconds;
    nothing to wait for is the absolute time 1. *)
Definition get_timeout (now : Z) : MS Z :=
  usec ← on_queue (wait_duration usec now (5 * 60 * 1000 * 1000));
  mret (if usec =? 0 then 1 else now + (usec / 1000000 * 1000000000 + usec mod 1000000 * 1000)).

Definition update_timeout (now : Z) : MS unit :=
  expires ← get_timeout now; modify (set_fd (now, expires)).

Definition schedule_timer (now time : Z) (timer : nat) (op : wait_op) : MS unit :=
  down ← gets shutdown_;
  if down : bool then post_immediate_completion op
  else
    earliest ← on_queue (enqueue_timer time timer op);
    work_started;;
    when earliest (update_timeout now).

(** [numeric_limits<size_t>::max()], the default of [max_cancelled], is no bound. *)
Definition all_of (timer : nat) : MS nat := gets (λ sv, length (op_queue_ (timer_queue_ sv) timer)).

Definition reactor_cancel_timer (timer : nat) (max_cancelled : nat) : MS Z :=
  ops ← on_queue (cancel_timer timer max_cancelled);
  post_deferred_completions ops;;
  mret (zlen ops).

Definition reactor_cancel_timer_by_key (timer : nat) (key : Z) : MS unit :=
  ops ← on_queue (cancel_timer_by_key timer key);
  post_deferred_completions ops.

Definition reactor_move_timer (target source : nat) : MS unit :=
  n ← all_of target;
  ops ← on_queue (cancel_timer target n);
  on_queue (move_timer target source);;
  post_deferred_completions ops.

(** What [run] does when the timer descriptor is ready. *)
Definition run_timers (now : Z) : MS unit :=
  ops ← on_queue (get_ready_timers now []);
  update_timeout now;;
  post_deferred_completions ops.

Definition reactor_shutdown : MS unit :=
  modify set_down;;
  ops ← on_queue (get_all_timers []);
  modify (λ sv, set_abandoned (abandoned sv ++ ops) sv).

(** ** The service *)

Definition construct (p : nat) : MS unit := modify (put_impl p (mkImplementation 0 false)).

Definition cancel (p : nat) : MS Z :=
  impl ← gets (λ sv, impls sv p);
  if negb (might_have_pending_waits impl) then mret 0
  else
    n ← all_of p;
    count ← reactor_cancel_timer p n;
    modify (put_impl p (mkImplementation (expiry impl) false));;
    mret count.

Definition cancel_one (p : nat) : MS Z :=
  impl ← gets (λ sv, impls sv p);
  if negb (might_have_pending_waits impl) then mret 0
  else
    count ← reactor_cancel_timer p 1;
    when (count =? 0) (modify (put_impl p (mkImplementation (expiry impl) false)));;
    mret count.

Definition destroy (p : nat) : MS unit := cancel p;; mret tt.

Definition expires_at (p : nat) (expiry_time : Z) : MS Z :=
  count ← cancel p;
  modify (λ sv, put_impl p (mkImplementation expiry_time (might_have_pending_waits (impls sv p))) sv);;
  mret count.

(** [expires_after] is the same. *)
Definition expires_from_now (now : Z) (p : nat) (d : Z) : MS Z :=
  t ← lift (time_add now d);
  expires_at p t.

(** The wait with its cancellation key, if its handler has a slot. *)
Definition async_wait (now : Z) (p : nat) (op : wait_op) : MS unit :=
  modify (λ sv, put_impl p (mkImplementation (expiry (impls sv p)) true) sv);;
  time ← gets (λ sv, expiry (impls sv p));
  schedule_timer now time p op.

(** The slot's handler is called with a set of [cancellation_type]s. *)
Definition op_cancellation (p : nat) (key type : Z) : MS unit :=
  when (negb (Z.land type (Z.lor 1 (Z.lor 2 4)) =? 0)) (reactor_cancel_timer_by_key p key).

(** [move_construct], and [move_assign] between timers of one service. *)
Definition move_construct (p other : nat) : MS unit :=
  reactor_move_timer p other;;
  impl ← gets (λ sv, impls sv other);
  modify (put_impl p impl);;
  modify (put_impl other (mkImplementation 0 false)).

(** The scheduler runs the completion at [i] and counts its work off. *)
Definition run_completion (i : nat) : MS unit :=
  modify (λ sv, add_work (-1) (set_completions (delete i (completions sv)) sv)).

(** ** Calls *)

Inductive service_call :=
  | Construct (p : nat)
  | Destroy (p : nat)
  | CancelAll (p : nat)
  | CancelOne (p : nat)
  | ExpiresAt (p : nat) (t : Z)
  | ExpiresFromNow (now : Z) (p : nat) (d : Z)
  | AsyncWait (now : Z) (p : nat) (op : wait_op)
  | CancelSlot (p : nat) (key type : Z)
  | Move (p other : nat)
  | RunTimers (now : Z)
  | RunCompletion (i : nat)
  | Shutdown.

(** The reply of a call that returns nothing is 0. *)
Definition void (k : MS unit) : MS Z := k;; mret 0.

Definition serve (c : service_call) : MS Z :=
  match c with
  | Construct p => void (construct p)
  | Destroy p => void (destroy p)
  | CancelAll p => cancel p
  | CancelOne p => cancel_one p
  | ExpiresAt p t => expires_at p t
  | ExpiresFromNow now p d => expires_from_now now p d
  | AsyncWait now p op => void (async_wait now p op)
  | CancelSlot p key type => void (op_cancellation p key type)
  | Move p other => void (move_construct p other)
  | RunTimers now => void (run_timers now)
  | RunCompletion i => void (run_completion i)
  | Shutdown => void reactor_shutdown
  end.

Fixpoint serve_all (cs : list service_call) : MS (list Z) :=
  match cs with
  | [] => mret []
  | c :: cs => r ← serve c; rs ← serve_all cs; mret (r :: rs)
  end.

(** ** Specification

    A timer is a time and a queue of waits.  There are no flags, and no time is kept
    anywhere else. *)

Record spec := mkSpec {
  s_expiry : nat → Z;
  s_waits : nat → list wait_op;
  s_done : list (wait_op * ec);
  s_abandoned : list wait_op;
  s_down : bool
}.

Definition spec_make : spec := mkSpec (λ _, 0) (λ _, []) [] [] false.

Definition with_error (e : ec) (ops : list wait_op) : list (wait_op * ec) := map (λ op, (op, e)) ops.

(** [ops] complete with [e]; [left] stay with [p]. *)
Definition s_complete (p : nat) (left ops : list wait_op) (e : ec) (s : spec) : spec :=
  mkSpec (s_expiry s) (<[p := left]> (s_waits s)) (s_done s ++ with_error e ops) (s_abandoned s) (s_down s).

Definition s_cancel (p : nat) (s : spec) : spec := s_complete p [] (s_waits s p) operation_aborted s.

Definition s_set (p : nat) (t : Z) (s : spec) : spec :=
  mkSpec (<[p := t]> (s_expiry s)) (s_waits s) (s_done s) (s_abandoned s) (s_down s).

(** [other]'s time and waits become [p]'s. *)
Definition s_move (p other : nat) (s : spec) : spec :=
  mkSpec (<[other := 0]> (<[p := s_expiry s other]> (s_expiry s))) (<[other := []]> (<[p := s_waits s other]> (s_waits s)))
    (s_done s) (s_abandoned s) (s_down s).

Definition s_wait (p : nat) (op : wait_op) (s : spec) : spec :=
  if s_down s then mkSpec (s_expiry s) (s_waits s) (s_done s ++ [(op, success)]) (s_abandoned s) true
  else mkSpec (s_expiry s) (<[p := s_waits s p ++ [op]]> (s_waits s)) (s_done s) (s_abandoned s) false.

(** The timers that are due, in the order of their times. *)
Definition s_due (now : Z) (s : spec) (l : list nat) : Prop :=
  NoDup l ∧ (∀ p, p ∈ l ↔ s_waits s p ≠ [] ∧ s_expiry s p ≤ now) ∧
  ∀ i j p p', (i < j)%nat → l !! i = Some p → l !! j = Some p' → s_expiry s p ≤ s_expiry s p'.

Definition s_run (l : list nat) (s : spec) : spec :=
  mkSpec (s_expiry s) (λ p, if decide (p ∈ l) then [] else s_waits s p)
    (s_done s ++ flat_map (λ p, with_error success (s_waits s p)) l) (s_abandoned s) (s_down s).

(** The timers that have waits, each once. *)
Definition s_pending (s : spec) (l : list nat) : Prop := NoDup l ∧ ∀ p, p ∈ l ↔ s_waits s p ≠ [].

Inductive spec_call : service_call → Z → spec → spec → Prop :=
  | spec_construct p s : spec_call (Construct p) 0 s (s_set p 0 s)
  | spec_destroy p s : spec_call (Destroy p) 0 s (s_cancel p s)
  | spec_cancel p s : spec_call (CancelAll p) (zlen (s_waits s p)) s (s_cancel p s)
  | spec_cancel_one p s :
      spec_call (CancelOne p) (zlen (take 1 (s_waits s p))) s
        (s_complete p (drop 1 (s_waits s p)) (take 1 (s_waits s p)) operation_aborted s)
  | spec_expires_at p t s : spec_call (ExpiresAt p t) (zlen (s_waits s p)) s (s_set p t (s_cancel p s))
  | spec_expires_from_now now p d s :
      spec_call (ExpiresFromNow now p d) (zlen (s_waits s p)) s (s_set p (clamp (now + d)) (s_cancel p s))
  | spec_wait now p op s : spec_call (AsyncWait now p op) 0 s (s_wait p op s)
  | spec_slot p key type s :
      spec_call (CancelSlot p key type) 0 s
        (if Z.testbit type 0 || Z.testbit type 1 || Z.testbit type 2
         then s_complete p (List.filter (λ op, negb (has_key key op)) (s_waits s p))
                (List.filter (has_key key) (s_waits s p)) operation_aborted s
         else s)
  | spec_move p other s : spec_call (Move p other) 0 s (s_move p other (s_cancel p s))
  | spec_run now l s : s_due now s l → spec_call (RunTimers now) 0 s (s_run l s)
  | spec_completion i s :
      spec_call (RunCompletion i) 0 s (mkSpec (s_expiry s) (s_waits s) (delete i (s_done s)) (s_abandoned s) (s_down s))
  | spec_shutdown l s :
      s_pending s l →
      spec_call Shutdown 0 s
        (mkSpec (s_expiry s) (λ _, []) (s_done s) (s_abandoned s ++ flat_map (s_waits s) l) true).

Inductive spec_calls : list service_call → list Z → spec → spec → Prop :=
  | spec_calls_nil s : spec_calls [] [] s s
  | spec_calls_cons c cs r rs s1 s2 s3 :
      spec_call c r s1 s2 → spec_calls cs rs s2 s3 → spec_calls (c :: cs) (r :: rs) s1 s3.

(** What a call needs: times of the clock, a timer that is constructed has no waits, one
    that is moved has some and is not moved to itself, and there is a completion to run. *)
Definition call_ok (c : service_call) (s : spec) : Prop :=
  match c with
  | Construct p => s_waits s p = []
  | ExpiresAt p t => in_int64 t
  | ExpiresFromNow now p d => in_int64 now ∧ in_int64 d
  | AsyncWait now p op => in_int64 now ∧ 0 ≤ now
  | Move p other => p ≠ other ∧ s_waits s other ≠ []
  | RunTimers now => in_int64 now ∧ 0 ≤ now
  | RunCompletion i => (i < length (s_done s))%nat
  | _ => True
  end.


(** ** Counting the waits *)

(** The waits of all timers of the map. *)
Definition pend (m : timers) : Z := zsum (λ e, zlen e.2.2) (map_to_list m).

Lemma pend_empty : pend ∅ = 0.
Proof. unfold pend. by rewrite map_to_list_empty. Qed.

Lemma pend_insert m p t ops : m !! p = None → pend (<[p := (t, ops)]> m) = zlen ops + pend m.
Proof. intros Hp. unfold pend. by rewrite (map_to_list_insert m p (t, ops) Hp), zsum_cons. Qed.

Lemma pend_delete m p t ops : m !! p = Some (t, ops) → pend m = zlen ops + pend (delete p m).
Proof. intros Hp. unfold pend. by rewrite <- (map_to_list_delete m p (t, ops) Hp), zsum_cons. Qed.

Lemma pend_put m p t ops u ops' :
  m !! p = Some (t, ops) → pend (put p u ops' m) = pend m - zlen ops + zlen ops'.
Proof.
  intros Hp. rewrite (pend_delete m p t ops Hp). unfold put. case_bool_decide as E; [subst; rewrite zlen_nil; lia|].
  rewrite <- insert_delete_eq, pend_insert by apply lookup_delete_eq. lia.
Qed.

Lemma pend_enqueued t p op m : pend (enqueued t p op m) = pend m + 1.
Proof.
  unfold enqueued. destruct (m !! p) as [[u ops]|] eqn:E.
  - rewrite <- insert_delete_eq, pend_insert, (pend_delete m p u ops E), zlen_app by apply lookup_delete_eq. unfold zlen at 2. cbn. lia.
  - rewrite pend_insert by done. unfold zlen. cbn. lia.
Qed.

Lemma pend_moved target source m : m !! target = None → target ≠ source → pend (moved target source m) = pend m.
Proof.
  intros Ht Hne. unfold moved. destruct (m !! source) as [[u ops]|] eqn:E; [|done].
  rewrite pend_insert, (pend_delete m source u ops E) by (by rewrite lookup_delete_ne). done.
Qed.

Lemma waits_delete m p x : waits (delete p m) x = if decide (x = p) then [] else waits m x.
Proof. unfold waits. case_decide as E; [subst; by rewrite lookup_delete_eq|by rewrite lookup_delete_ne]. Qed.

Lemma pend_dom l m : NoDup l → (∀ p, p ∈ l ↔ is_Some (m !! p)) → pend m = zsum (λ p, zlen (waits m p)) l.
Proof.
  revert m. induction l as [|p l IH]; intros m Hnd Hin.
  - replace m with (∅ : timers); [apply pend_empty|]. apply map_eq. intros p. rewrite lookup_empty. symmetry.
    apply eq_None_not_Some. rewrite <- Hin. apply not_elem_of_nil.
  - apply NoDup_cons in Hnd as [Hp Hnd]. destruct (proj1 (Hin p)) as [[t ops] E]; [by left|].
    rewrite (pend_delete m p t ops E), zsum_cons, (waits_some m p t ops E), (IH (delete p m) Hnd).
    + f_equal. clear -Hp. induction l as [|x l IH]; [done|]. apply not_elem_of_cons in Hp as [Hx Hp].
      by rewrite !zsum_cons, IH, waits_delete, decide_False by done.
    + intros x. destruct (decide (x = p)) as [->|Hx]; [by rewrite lookup_delete_eq; split; [|intros [? ?]]|].
      rewrite lookup_delete_ne by done. rewrite <- Hin, elem_of_cons. naive_solver.
Qed.

Lemma zlen_with e ops : zlen (with_error e ops) = zlen ops.
Proof. unfold with_error, zlen. by rewrite length_map. Qed.

Lemma zlen_with_error f m l : zlen (flat_map (λ p, with_error f (waits m p)) l) = zsum (λ p, zlen (waits m p)) l.
Proof.
  induction l as [|p l IH]; [done|]. cbn [flat_map]. by rewrite zlen_app, zsum_cons, IH, zlen_with.
Qed.

Lemma not_due_lookup now m p t ops : not_due now m !! p = Some (t, ops) ↔ m !! p = Some (t, ops) ∧ now < t.
Proof. unfold not_due. by rewrite map_lookup_filter_Some. Qed.

Lemma waits_not_due now m l p : due now m l → waits (not_due now m) p = if decide (p ∈ l) then [] else waits m p.
Proof.
  intros (_ & Hin & _). case_decide as Hp.
  - apply Hin in Hp as (t & ops & Hp & Ht). apply waits_none, eq_None_ne_Some. intros [u v] E. apply not_due_lookup in E as [E Hu].
    rewrite Hp in E. injection E as -> ->. lia.
  - destruct (m !! p) as [[t ops]|] eqn:E.
    + rewrite (waits_some m p t ops E). apply (waits_some _ p t), not_due_lookup. split; [done|].
      destruct (Z.lt_ge_cases now t) as [|Ht]; [done|]. destruct Hp. apply Hin. by exists t, ops.
    + rewrite (waits_none m p E). apply waits_none, eq_None_ne_Some. intros [u v] [E' _]%not_due_lookup. congruence.
Qed.

Lemma pend_due now m l : due now m l → pend m = zsum (λ p, zlen (waits m p)) l + pend (not_due now m).
Proof.
  intros Hd. set (l2 := (map_to_list (not_due now m)).*1).
  assert (Hl2 : ∀ p, p ∈ l2 ↔ is_Some (not_due now m !! p)).
  { intros p. unfold l2. rewrite list_elem_of_fmap. split.
    - intros ([q v] & -> & Hq). apply elem_of_map_to_list in Hq. by eexists.
    - intros [v Hv]. exists (p, v). by rewrite elem_of_map_to_list. }
  assert (Hnd : NoDup l2) by apply NoDup_fst_map_to_list. destruct Hd as (Hn & Hin & Ho).
  assert (Hdis : ∀ p, p ∈ l → p ∉ l2).
  { intros p Hp. apply Hin in Hp as (t & ops & Hp & Ht). rewrite Hl2. intros [[u v] E]. apply not_due_lookup in E as [E Hu].
    rewrite Hp in E. injection E as -> ->. lia. }
  rewrite (pend_dom (l ++ l2) m), (pend_dom l2 (not_due now m)) by
    (done || (apply NoDup_app; split_and!; [done|exact Hdis|done]) ||
     (intros p; rewrite elem_of_app, Hl2, Hin; split;
       [intros [(t & ops & Hp & _)|[[u v] [E _]%not_due_lookup]]; by eexists|];
      intros [[t ops] Hp]; destruct (Z.lt_ge_cases now t); [right; exists (t, ops); by apply not_due_lookup|left; by exists t, ops])).
  rewrite zsum_app. f_equal. assert (Hd : due now m l) by done. clear Hnd Hl2. induction l2 as [|x l2 IH]; [done|].
  rewrite !zsum_cons, (waits_not_due now m l x Hd), decide_False by (intros Hx; apply (Hdis x Hx); by left).
  f_equal. apply IH. intros p Hp Hp'. apply (Hdis p Hp). by right.
Qed.

(** ** The service implements the specification *)

(** Two specifications that agree on every timer. *)
#[global] Instance spec_equiv : Equiv spec := λ s s',
  (∀ p, s_expiry s p = s_expiry s' p) ∧ (∀ p, s_waits s p = s_waits s' p) ∧ s_done s = s_done s' ∧
  s_abandoned s = s_abandoned s' ∧ s_down s = s_down s'.

#[global] Instance spec_equivalence : Equivalence (≡@{spec}).
Proof.
  split.
  - by intros s.
  - intros s s' (H1 & H2 & H3 & H4 & H5). by split_and!.
  - intros s1 s2 s3 (H1 & H2 & H3 & H4 & H5) (K1 & K2 & K3 & K4 & K5). split_and!; intros; congruence.
Qed.

(** [m] holds the waits and the times of the timers that have any.  The count of work
    is the number of waits that have not run, and the timer descriptor expires
    in time for each of them. *)
Record implements (m : timers) (sv : service) (s : spec) : Prop := {
  i_queue : represents (timer_queue_ sv) m;
  i_waits : ∀ p, s_waits s p = waits m p;
  i_expiry : ∀ p, s_expiry s p = expiry (impls sv p);
  i_range : ∀ p, in_int64 (s_expiry s p);
  i_time : ∀ p t ops, m !! p = Some (t, ops) → t = s_expiry s p;
  i_flag : ∀ p, might_have_pending_waits (impls sv p) = false → m !! p = None;
  i_done : completions sv = s_done s;
  i_abandoned : abandoned sv = s_abandoned s;
  i_down : shutdown_ sv = s_down s;
  i_empty : s_down s = true → m = ∅;
  i_work : outstanding_work_ sv = pend m + zlen (completions sv) + zlen (abandoned sv);
  i_fd : ∀ p t ops, m !! p = Some (t, ops) →
    ∃ set_at expires, timer_fd_ sv = Some (set_at, expires) ∧ expires ≤ Z.max t (set_at + 1000)
}.

#[global] Instance implements_proper m sv : Proper ((≡) ==> iff) (implements m sv).
Proof.
  intros s s' E. enough (H : ∀ s s' : spec, s ≡ s' → implements m sv s → implements m sv s') by (split; by apply H). clear.
  intros s s' (E1 & E2 & E3 & E4 & E5) []. split; intros; rewrite <- ?E1, <- ?E2, <- ?E3, <- ?E4, <- ?E5 in *; eauto.
Qed.

Lemma implements_make : implements ∅ service_make spec_make.
Proof. split; try done. apply represents_make. Qed.

(** *** Steps of the state *)

(** The timer [p] with [ops] left of its waits. *)
Definition cut (p : nat) (ops : list wait_op) (m : timers) : timers :=
  match m !! p with Some (t, _) => put p t ops m | None => m end.

Lemma cut_lookup p ops m x t l : cut p ops m !! x = Some (t, l) → ∃ l', m !! x = Some (t, l').
Proof.
  unfold cut. destruct (m !! p) as [[u w]|] eqn:E; [|by eexists]. unfold put. case_bool_decide.
  - intros [_ H1]%lookup_delete_Some. by eexists.
  - intros [[<- [= <- <-]]|[_ H1]]%lookup_insert_Some; by eexists.
Qed.

Lemma waits_cut p ops m x : (waits m p = [] → ops = []) → waits (cut p ops m) x = if decide (x = p) then ops else waits m x.
Proof.
  intros H. unfold cut. destruct (m !! p) as [[u w]|] eqn:E; [apply waits_put|]. case_decide; [subst|done].
  rewrite H; apply waits_none, E.
Qed.

Lemma implements_cut m sv s q p kept taken e :
  implements m sv s → represents q (cut p kept m) → zlen kept + zlen taken = zlen (waits m p) →
  implements (cut p kept m) (set_completions (completions sv ++ with_error e taken) (set_queue q sv)) (s_complete p kept taken e s).
Proof.
  intros [Hq Hw He Hr Ht Hf Hd Ha Hs Hem Hwk Hfd] R Hl. pose proof (zlen_nonneg kept). pose proof (zlen_nonneg taken).
  assert (Hnil : waits m p = [] → kept = []) by (intros E; rewrite E in Hl; apply zlen_0_inv; rewrite zlen_nil in Hl; lia).
  assert (Hlook : ∀ x, m !! x = None → cut p kept m !! x = None).
  { intros x Hx. apply eq_None_ne_Some. intros [t l] [l' E]%cut_lookup. congruence. }
  split; try done; cbn.
  - intros x. rewrite waits_cut by done. unfold insert, fn_insert. case_decide; subst; [by rewrite decide_True|by rewrite decide_False].
  - intros x t l [l' E]%cut_lookup. by apply (Ht x t l').
  - intros x Hx. by apply Hlook, Hf.
  - by rewrite Hd.
  - intros E. apply Hem in E as ->. apply map_eq. intros x. rewrite lookup_empty. apply Hlook. done.
  - rewrite zlen_app, zlen_with, Hwk. unfold cut. destruct (m !! p) as [[t ops]|] eqn:E.
    + rewrite (pend_put _ _ _ _ _ _ E). rewrite (waits_some m p t ops E) in Hl. lia.
    + rewrite waits_none, zlen_nil in Hl by done. lia.
  - intros x t l [l' E]%cut_lookup. by apply (Hfd x t l').
Qed.

(** A timer's members change; a time changes only when nothing is queued. *)
Lemma implements_put m sv s p t b :
  implements m sv s → (b = false → m !! p = None) → (m !! p = None ∨ t = s_expiry s p) → in_int64 t →
  implements m (put_impl p (mkImplementation t b) sv) (s_set p t s).
Proof.
  intros [Hq Hw He Hr Ht Hf Hd Ha Hs Hem Hwk Hfd] Hb Hn Hin. split; try done; cbn; unfold insert, fn_insert.
  - intros x. by case_decide.
  - intros x. by case_decide.
  - intros x u l Hx. case_decide; subst; [|by apply (Ht x u l)]. destruct Hn as [Hn| ->]; [congruence|by apply (Ht x u l)].
  - intros x. case_decide; subst; [exact Hb|apply Hf].
Qed.

Lemma s_set_same p s : s_set p (s_expiry s p) s ≡ s.
Proof. split_and!; try done. intros x. cbn. unfold insert, fn_insert. case_decide; by subst. Qed.

Lemma implements_flag m sv s p b :
  implements m sv s → (b = false → m !! p = None) → implements m (put_impl p (mkImplementation (expiry (impls sv p)) b) sv) s.
Proof.
  intros I Hb. rewrite <- (s_set_same p s), <- (i_expiry _ _ _ I). apply implements_put; [done..|by right|apply (i_range _ _ _ I)].
Qed.

Lemma s_cancel_none p s : s_waits s p = [] → s_cancel p s ≡ s.
Proof.
  intros H. unfold s_cancel, s_complete. rewrite H. split_and!; try done; cbn; [|by rewrite app_nil_r].
  intros x. unfold insert, fn_insert. case_decide; by subst.
Qed.

(** *** The operations *)

Lemma on_queue_ok {A} (k : M timer_queue A) sv a q : k (timer_queue_ sv) = Ok (a, q) → on_queue k sv = Ok (a, set_queue q sv).
Proof. intros E. unfold on_queue. by rewrite E. Qed.

Lemma cut_old p n m : (match m !! p with Some (t, ops) => put p t (drop n ops) m | None => m end) = cut p (drop n (waits m p)) m.
Proof. unfold cut. destruct (m !! p) as [[t ops]|] eqn:E; [by rewrite (waits_some m p t ops E)|done]. Qed.

Lemma reactor_cancel_ok m sv s p n :
  implements m sv s →
  ∃ sv', reactor_cancel_timer p n sv = Ok (zlen (take n (s_waits s p)), sv') ∧
    implements (cut p (drop n (s_waits s p)) m) sv' (s_complete p (drop n (s_waits s p)) (take n (s_waits s p)) operation_aborted s) ∧
    impls sv' = impls sv.
Proof.
  intros I. destruct (cancel_ok _ m p n (i_queue _ _ _ I)) as (q & E & R). rewrite cut_old in R.
  rewrite <- !(i_waits _ _ _ I) in *. eexists. split_and!.
  - unfold reactor_cancel_timer. erewrite bind_ok by (apply on_queue_ok; exact E). erewrite bind_ok by reflexivity.
    fold (with_error operation_aborted (take n (s_waits s p))). by rewrite zlen_with.
  - fold (with_error operation_aborted (take n (s_waits s p))). apply (implements_cut m sv s q); [done..|].
    rewrite <- (i_waits _ _ _ I), Z.add_comm, <- zlen_app, take_drop. done.
  - done.
Qed.

(** What [cancel] and [cancel_one] leave: the flag may be cleared only when no wait is left. *)
Lemma cut_all p m : cut p [] m !! p = None.
Proof. unfold cut. destruct (m !! p) as [[t ops]|] eqn:E; [apply lookup_delete_eq|done]. Qed.

Lemma cancel_implements m sv s p :
  implements m sv s →
  ∃ m' sv', cancel p sv = Ok (zlen (s_waits s p), sv') ∧ implements m' sv' (s_cancel p s) ∧ m' !! p = None.
Proof.
  intros I. unfold cancel. erewrite bind_ok by reflexivity. destruct (might_have_pending_waits (impls sv p)) eqn:Hf; cbn [negb].
  - destruct (reactor_cancel_ok m sv s p (length (s_waits s p)) I) as (sv' & E & I' & Ei). rewrite take_ge, drop_ge in * by done.
    exists (cut p [] m). eexists. split_and!.
    + erewrite bind_ok by reflexivity. rewrite (rep_ops _ _ (i_queue _ _ _ I)), <- (i_waits _ _ _ I).
      erewrite bind_ok by exact E. erewrite bind_ok by reflexivity. reflexivity.
    + rewrite <- Ei. apply implements_flag; [exact I'|]. intros _. apply cut_all.
    + apply cut_all.
  - exists m, sv. pose proof (i_flag _ _ _ I p Hf) as Hn.
    assert (Hw : s_waits s p = []) by (rewrite (i_waits _ _ _ I); by apply waits_none).
    rewrite s_cancel_none by done. split_and!; [|done..]. by rewrite Hw.
Qed.

Lemma cancel_one_implements m sv s p :
  implements m sv s →
  ∃ m' sv', cancel_one p sv = Ok (zlen (take 1 (s_waits s p)), sv') ∧
    implements m' sv' (s_complete p (drop 1 (s_waits s p)) (take 1 (s_waits s p)) operation_aborted s).
Proof.
  intros I. unfold cancel_one. erewrite bind_ok by reflexivity. destruct (might_have_pending_waits (impls sv p)) eqn:Hf; cbn [negb].
  - destruct (reactor_cancel_ok m sv s p 1 I) as (sv' & E & I' & Ei). erewrite bind_ok by exact E.
    destruct (Z.eqb_spec (zlen (take 1 (s_waits s p))) 0) as [H0|H0].
    + eexists _, _. cbn [when]. erewrite bind_ok by reflexivity. split; [reflexivity|]. rewrite <- Ei. apply implements_flag; [exact I'|].
      intros _. destruct (s_waits s p) as [|op w]; [apply cut_all|]. by apply zlen_0_inv in H0.
    + eexists _, sv'. cbn [when]. by erewrite bind_ok by reflexivity.
  - exists m, sv. pose proof (i_flag _ _ _ I p Hf) as Hn.
    assert (Hw : s_waits s p = []) by (rewrite (i_waits _ _ _ I); by apply waits_none). rewrite Hw. split; [done|].
    pose proof (s_cancel_none p s Hw) as Es. unfold s_cancel in Es. rewrite Hw in Es. by rewrite Es.
Qed.

Lemma expires_at_implements m sv s p t :
  implements m sv s → in_int64 t →
  ∃ m' sv', expires_at p t sv = Ok (zlen (s_waits s p), sv') ∧ implements m' sv' (s_set p t (s_cancel p s)) ∧ m' !! p = None.
Proof.
  intros I Ht. destruct (cancel_implements m sv s p I) as (m' & sv' & E & I' & Hn). unfold expires_at.
  erewrite bind_ok by exact E. erewrite bind_ok by reflexivity. eexists m', _. split_and!; [reflexivity| |done].
  apply implements_put; [done| |by left|done]. by intros _.
Qed.

Lemma clamp_range z : in_int64 (clamp z).
Proof. unfold clamp, in_int64, int64_min, int64_max. lia. Qed.

Lemma expires_from_now_implements m sv s now p d :
  implements m sv s → in_int64 now → in_int64 d →
  ∃ m' sv', expires_from_now now p d sv = Ok (zlen (s_waits s p), sv') ∧
    implements m' sv' (s_set p (clamp (now + d)) (s_cancel p s)) ∧ m' !! p = None.
Proof.
  intros I Hn Hd. unfold expires_from_now. destruct (times_saturate now d Hn Hd) as [E _].
  erewrite bind_ok by (unfold lift; by rewrite E). by apply (expires_at_implements m); [|apply clamp_range].
Qed.

(** The descriptor expires no later than any timer, or one microsecond after it was set. *)
Lemma get_timeout_ok m sv now :
  represents (timer_queue_ sv) m → in_int64 now → 0 ≤ now → (∀ p t ops, m !! p = Some (t, ops) → in_int64 t) →
  ∃ expires, get_timeout now sv = Ok (expires, sv) ∧ ∀ p t ops, m !! p = Some (t, ops) → expires ≤ Z.max t (now + 1000).
Proof.
  intros R Hn Hpos Hr. destruct (sleep_bounded usec now (5 * 60 * 1000 * 1000) _ m R ltac:(lia) Hn Hr) as (r & E & Hb & H0 & Hle).
  unfold get_timeout. erewrite bind_ok by (apply on_queue_ok; exact E). eexists. split; [by destruct sv|].
  intros p t ops Hp. destruct (Z.eqb_spec r 0) as [Hz|Hz]; [lia|]. cbn [unit_ticks] in Hle.
  assert (Ht : now < t) by (destruct (Z.lt_ge_cases now t); [done|]; exfalso; apply Hz, H0; by exists p, t, ops).
  specialize (Hle p t ops Hp Ht). pose proof (Z.div_mod r 1000000 ltac:(lia)). lia.
Qed.

Lemma times_range m sv s : implements m sv s → ∀ p t ops, m !! p = Some (t, ops) → in_int64 t.
Proof. intros I p t ops Hp. rewrite (i_time _ _ _ I p t ops Hp). apply (i_range _ _ _ I). Qed.

Lemma enqueued_lookup t0 p op m x t ops :
  enqueued t0 p op m !! x = Some (t, ops) → (x = p ∧ m !! p = None ∧ t = t0) ∨ ∃ l, m !! x = Some (t, l).
Proof.
  unfold enqueued. intros [[<- E]|[_ Hx]]%lookup_insert_Some; [|by right; eexists].
  destruct (m !! p) as [[u w]|]; injection E as <- _; [by right; eexists|by left].
Qed.

(** With a wait more and the descriptor as [schedule_timer] leaves it. *)
Lemma implements_enqueued m sv s p op q fd :
  implements m sv s → might_have_pending_waits (impls sv p) = true → s_down s = false → represents q (enqueued (s_expiry s p) p op m) →
  (∀ x t ops, enqueued (s_expiry s p) p op m !! x = Some (t, ops) → ∃ a e, fd = Some (a, e) ∧ e ≤ Z.max t (a + 1000)) →
  implements (enqueued (s_expiry s p) p op m)
    (mkService q (impls sv) (completions sv) (abandoned sv) (outstanding_work_ sv + 1) (shutdown_ sv) fd) (s_wait p op s).
Proof.
  intros [Hq Hw He Hr Ht Hf Hd Ha Hs Hem Hwk Hfd] Hp Hdown R Hfd'. unfold s_wait. rewrite Hdown. split; try done; cbn.
  - intros x. rewrite waits_enqueued. unfold insert, fn_insert. rewrite !Hw. case_decide; subst; [by rewrite decide_True|by rewrite decide_False].
  - intros x t ops [(-> & _ & ->)|[l Hx]]%enqueued_lookup; [done|by apply (Ht x t l)].
  - intros x Hx. unfold enqueued. rewrite lookup_insert_ne; [by apply Hf|]. intros ->. congruence.
  - by rewrite Hs.
  - rewrite pend_enqueued. lia.
Qed.

Lemma enqueued_time m sv s p op x t ops :
  implements m sv s → enqueued (s_expiry s p) p op m !! x = Some (t, ops) → in_int64 t.
Proof.
  intros I [(-> & _ & ->)|[l Hx]]%enqueued_lookup; [apply (i_range _ _ _ I)|by apply (times_range m sv s I x t l)].
Qed.

(** When the new wait's timer is not the earliest, another one's time holds the descriptor early enough. *)
Lemma later_is_held m sv s p op :
  implements m sv s →
  (m !! p = None → ∃ x u ops, m !! x = Some (u, ops) ∧ u ≤ s_expiry s p) →
  ∀ x t ops, enqueued (s_expiry s p) p op m !! x = Some (t, ops) → ∃ a e, timer_fd_ sv = Some (a, e) ∧ e ≤ Z.max t (a + 1000).
Proof.
  intros I Hear x t ops [(-> & Hn & ->)|[l Hx]]%enqueued_lookup; [|by apply (i_fd _ _ _ I x t l)].
  destruct Hear as (x & u & w & Hx & Hu); [done|]. destruct (i_fd _ _ _ I x u w Hx) as (a & e & Ea & He). exists a, e. split; [done|lia].
Qed.

Lemma schedule_implements m sv s now p op :
  implements m sv s → in_int64 now → 0 ≤ now → might_have_pending_waits (impls sv p) = true →
  ∃ m' sv', schedule_timer now (s_expiry s p) p op sv = Ok (tt, sv') ∧ implements m' sv' (s_wait p op s).
Proof.
  intros I Hn Hpos Hp. unfold schedule_timer. erewrite bind_ok by reflexivity. rewrite (i_down _ _ _ I).
  destruct (s_down s) eqn:Hdown.
  - exists m. eexists. split; [reflexivity|]. destruct I as [Hq Hw He Hr Ht Hf Hd Ha Hs Hem Hwk Hfd]. unfold s_wait. rewrite Hdown.
    split; try done; cbn; [by rewrite Hd|congruence|by auto|]. rewrite zlen_app, Hwk. unfold zlen at 4. cbn. lia.
  - destruct (enqueue_ok _ m (s_expiry s p) p op (i_queue _ _ _ I)) as (b & q & E & R & _ & Hlate).
    set (m' := enqueued (s_expiry s p) p op m) in *. erewrite bind_ok by (apply on_queue_ok; exact E). erewrite bind_ok by reflexivity.
    exists m'. destruct b; cbn [when].
    + destruct (get_timeout_ok m' (add_work 1 (set_queue q sv)) now R Hn Hpos) as (e & Ee & He).
      { intros x t ops. by apply (enqueued_time m sv s p op). }
      unfold update_timeout. erewrite bind_ok by exact Ee. eexists. split; [reflexivity|].
      apply (implements_enqueued m sv s p op q (Some (now, e))); try done. intros x t ops Hx. exists now, e. by eauto.
    + eexists. split; [reflexivity|]. apply (implements_enqueued m sv s p op q (timer_fd_ sv)); try done.
      intros x t ops. apply (later_is_held m sv s p op I). by auto.
Qed.

Lemma async_wait_implements m sv s now p op :
  implements m sv s → in_int64 now → 0 ≤ now →
  ∃ m' sv', async_wait now p op sv = Ok (tt, sv') ∧ implements m' sv' (s_wait p op s).
Proof.
  intros I Hn Hpos. unfold async_wait. do 2 (erewrite bind_ok by reflexivity). cbn. rewrite fn_lookup_insert. cbn.
  rewrite <- (i_expiry _ _ _ I). eapply schedule_implements; [|done..|by cbn; rewrite fn_lookup_insert].
  rewrite (i_expiry _ _ _ I). by apply implements_flag.
Qed.

Lemma slot_type type :
  negb (Z.land type (Z.lor 1 (Z.lor 2 4)) =? 0) = Z.testbit type 0 || Z.testbit type 1 || Z.testbit type 2.
Proof.
  change (Z.lor 1 (Z.lor 2 4)) with (Z.ones 3).
  assert (Hbit : ∀ i, 0 ≤ i < 3 → Z.testbit (Z.land type (Z.ones 3)) i = Z.testbit type i).
  { intros i Hi. by rewrite Z.land_spec, Z.ones_spec_low, andb_true_r by lia. }
  destruct (Z.eqb_spec (Z.land type (Z.ones 3)) 0) as [E|E]; cbn [negb].
  - rewrite <- !Hbit, E, !Z.bits_0 by lia. done.
  - symmetry. apply not_false_iff_true. intros [[H0 H1]%orb_false_iff H2]%orb_false_iff. apply E, Z.bits_inj'. intros i Hi. rewrite Z.bits_0.
    destruct (decide (i < 3)); [|by rewrite Z.land_spec, Z.ones_spec_high, andb_false_r by lia]. rewrite Hbit by lia.
    by assert (i = 0 ∨ i = 1 ∨ i = 2) as [-> | [-> | ->]] by lia.
Qed.

Lemma filter_split key ops :
  zlen (List.filter (λ op, negb (has_key key op)) ops) + zlen (List.filter (has_key key) ops) = zlen ops.
Proof. induction ops as [|op ops IH]; [done|]. cbn. destruct (has_key key op); cbn; rewrite !zlen_cons; lia. Qed.

Lemma op_cancellation_implements m sv s p key type :
  implements m sv s →
  ∃ m' sv' s', op_cancellation p key type sv = Ok (tt, sv') ∧ implements m' sv' s' ∧ spec_call (CancelSlot p key type) 0 s s'.
Proof.
  intros I. unfold op_cancellation. rewrite slot_type. pose proof (spec_slot p key type s) as Hc.
  destruct (Z.testbit type 0 || Z.testbit type 1 || Z.testbit type 2); [|by exists m, sv, s].
  destruct (cancel_by_key_ok _ m p key (i_queue _ _ _ I)) as (q & E & R). do 2 eexists. eexists. split_and!; [..|exact Hc].
  - cbn [when]. unfold reactor_cancel_timer_by_key. erewrite bind_ok by (apply on_queue_ok; exact E). reflexivity.
  - rewrite !(i_waits _ _ _ I). apply (implements_cut m sv s q p); [done| |apply filter_split].
    unfold cut. destruct (m !! p) as [[t ops]|] eqn:Ep; [|done]. by rewrite (waits_some m p t ops Ep).
Qed.

Lemma cut_lookup_ne p ops m x : x ≠ p → cut p ops m !! x = m !! x.
Proof.
  intros Hx. unfold cut. destruct (m !! p) as [[t w]|]; [|done]. unfold put.
  case_bool_decide; [by rewrite lookup_delete_ne|by rewrite lookup_insert_ne].
Qed.

Lemma implements_moved m sv s q p other t ops :
  implements m sv s → m !! other = Some (t, ops) → m !! p = None → p ≠ other → represents q (moved p other m) →
  implements (moved p other m) (put_impl other (mkImplementation 0 false) (put_impl p (impls sv other) (set_queue q sv))) (s_move p other s).
Proof.
  intros [Hq Hw He Hr Ht Hf Hd Ha Hs Hem Hwk Hfd] Ho Hp Hne R.
  assert (Hl : ∀ x, moved p other m !! x = if decide (x = p) then Some (t, ops) else if decide (x = other) then None else m !! x)
    by (intros x; by apply times_moved_lookup).
  split; try done; cbn; unfold insert, fn_insert.
  - intros x. unfold waits at 1. rewrite Hl. repeat case_decide; subst; try done.
    by rewrite Hw, (waits_some m other t ops).
  - intros x. repeat case_decide; subst; try done; apply He.
  - intros x. repeat case_decide; subst; try done; apply Hr.
  - intros x u l Hx. rewrite Hl in Hx. repeat case_decide; subst; try done; [|by apply (Ht x u l)].
    injection Hx as <- <-. by apply (Ht other t ops).
  - intros x. rewrite Hl. repeat case_decide; subst; try done; [|apply Hf]. intros Hfl. apply Hf in Hfl. congruence.
  - intros E. rewrite (Hem E) in Ho. done.
  - by rewrite pend_moved.
  - intros x u l Hx. rewrite Hl in Hx. repeat case_decide; subst; try done; [|by apply (Hfd x u l)].
    injection Hx as <- <-. by apply (Hfd other t ops).
Qed.

Lemma move_implements m sv s p other :
  implements m sv s → p ≠ other → s_waits s other ≠ [] →
  ∃ m' sv', move_construct p other sv = Ok (tt, sv') ∧ implements m' sv' (s_move p other (s_cancel p s)).
Proof.
  intros I Hne Hw. destruct (cancel_ok _ m p (length (waits m p)) (i_queue _ _ _ I)) as (q & E & R).
  rewrite cut_old, take_ge, drop_ge in * by done.
  assert (I1 := implements_cut m sv s q p [] (waits m p) operation_aborted I R ltac:(by rewrite zlen_nil)).
  destruct (m !! other) as [[t ops]|] eqn:Eo; [|by rewrite (i_waits _ _ _ I), waits_none in Hw].
  assert (Eo' : cut p [] m !! other = Some (t, ops)) by (by rewrite cut_lookup_ne).
  destruct (move_ok q (cut p [] m) p other t ops R Eo' (cut_all p m)) as (q2 & E2 & R2).
  assert (E3 : reactor_move_timer p other sv =
    Ok (tt, set_completions (completions sv ++ with_error operation_aborted (waits m p)) (set_queue q2 (set_queue q sv)))).
  { unfold reactor_move_timer. erewrite bind_ok by reflexivity. rewrite (rep_ops _ _ (i_queue _ _ _ I)).
    erewrite bind_ok by (apply on_queue_ok; exact E). by erewrite bind_ok by (apply on_queue_ok; exact E2). }
  exists (moved p other (cut p [] m)). eexists. split.
  - unfold move_construct. erewrite bind_ok by exact E3. do 2 (erewrite bind_ok by reflexivity). reflexivity.
  - rewrite <- (i_waits _ _ _ I) in I1 |- *. exact (implements_moved _ _ _ q2 p other t ops I1 Eo' (cut_all p m) Hne R2).
Qed.

(** *** Running *)

Lemma s_due_of m sv s now l : implements m sv s → due now m l → s_due now s l.
Proof.
  intros I (Hn & Hin & Ho).
  assert (Hp : ∀ p, p ∈ l → ∃ ops, m !! p = Some (s_expiry s p, ops)).
  { intros p (t & ops & Hp & _)%Hin. exists ops. by rewrite <- (i_time _ _ _ I p t ops Hp). }
  split_and!; [done|..].
  - intros p. rewrite Hin, (i_waits _ _ _ I). split.
    + intros (t & ops & Hm & Ht). rewrite (waits_some m p t ops Hm), <- (i_time _ _ _ I p t ops Hm). split; [|done].
      intros ->. by apply (rep_some _ _ (i_queue _ _ _ I) p t).
    + intros [Hw Ht]. destruct (m !! p) as [[t ops]|] eqn:E; [|by rewrite waits_none in Hw].
      exists t, ops. by rewrite (i_time _ _ _ I p t ops E).
  - intros i j p p' Hij Hi Hj. destruct (Hp p) as [ops Hm]; [by apply list_elem_of_lookup_2 in Hi|].
    destruct (Hp p') as [ops' Hm']; [by apply list_elem_of_lookup_2 in Hj|]. by apply (Ho i j p p' _ _ ops ops').
Qed.

Lemma run_timers_implements m sv s now :
  implements m sv s → in_int64 now → 0 ≤ now →
  ∃ m' sv' l, run_timers now sv = Ok (tt, sv') ∧ implements m' sv' (s_run l s) ∧ s_due now s l.
Proof.
  intros I Hn Hpos. destruct (ready_ok now (length (heap_ (timer_queue_ sv))) _ m [] (i_queue _ _ _ I) (le_n _)) as (l & q & E & Hd & R).
  destruct (get_timeout_ok (not_due now m) (set_queue q sv) now R Hn Hpos) as (e & Ee & He).
  { intros p t ops [Hp _]%not_due_lookup. by apply (times_range m sv s I p t ops). }
  exists (not_due now m). eexists. exists l. split_and!.
  - unfold run_timers. erewrite bind_ok by (apply on_queue_ok; unfold get_ready_timers; erewrite bind_ok by reflexivity; exact E).
    unfold update_timeout. erewrite bind_ok by (erewrite bind_ok by exact Ee; reflexivity). reflexivity.
  - destruct I as [Hq Hw Hex Hr Ht Hf Hdn Ha Hs Hem Hwk Hfd]. split; try done; cbn.
    + intros p. rewrite (waits_not_due now m l p Hd). by case_decide.
    + intros p t ops [Hp _]%not_due_lookup. by apply (Ht p t ops).
    + intros p Hp. apply eq_None_ne_Some. intros [t ops] [E' _]%not_due_lookup. apply Hf in Hp. congruence.
    + rewrite Hdn. f_equal. rewrite !flat_map_concat_map. f_equal. apply map_ext. intros p. by rewrite Hw.
    + intros E'. apply Hem in E' as ->. apply map_filter_empty.
    + rewrite zlen_app, Hwk, (pend_due now m l Hd). change (flat_map _ l) with (flat_map (λ p, with_error success (waits m p)) l).
      rewrite zlen_with_error. lia.
    + intros p t ops Hp. exists now, e. split; [done|]. by apply (He p t ops).
  - by apply (s_due_of m sv).
Qed.

Lemma completion_implements m sv s i :
  implements m sv s → (i < length (s_done s))%nat →
  implements m (add_work (-1) (set_completions (delete i (completions sv)) sv))
    (mkSpec (s_expiry s) (s_waits s) (delete i (s_done s)) (s_abandoned s) (s_down s)).
Proof.
  intros [Hq Hw Hex Hr Ht Hf Hdn Ha Hs Hem Hwk Hfd] Hi. split; try done; cbn; [by rewrite Hdn|].
  rewrite Hwk, Hdn. unfold zlen at 3. rewrite length_delete by (by apply lookup_lt_is_Some_2). unfold zlen at 1. lia.
Qed.

Lemma shutdown_implements m sv s :
  implements m sv s →
  ∃ sv' l, reactor_shutdown sv = Ok (tt, sv') ∧ s_pending s l ∧
    implements ∅ sv' (mkSpec (s_expiry s) (λ _, []) (s_done s) (s_abandoned s ++ flat_map (s_waits s) l) true).
Proof.
  intros I. destruct (get_all_ok _ m [] (i_queue _ _ _ I)) as (all & q & E & (l & Hn & Hin & ->) & R). cbn [app] in E.
  eexists. exists l. split_and!.
  - unfold reactor_shutdown. erewrite bind_ok by reflexivity. erewrite bind_ok by (apply on_queue_ok; exact E). reflexivity.
  - split; [done|]. intros p. rewrite Hin, (i_waits _ _ _ I). split.
    + intros [[t ops] Hm]. rewrite (waits_some m p t ops Hm). intros ->. by apply (rep_some _ _ (i_queue _ _ _ I) p t).
    + intros Hw. destruct (m !! p) eqn:Hm; [by eexists|by rewrite waits_none in Hw].
  - destruct I as [Hq Hw Hex Hr Ht Hf Hdn Ha Hs Hem Hwk Hfd].
    assert (Ef : flat_map (s_waits s) l = flat_map (waits m) l) by (rewrite !flat_map_concat_map; f_equal; apply map_ext; done).
    split; try done; cbn; [by rewrite Ha, Ef|]. rewrite zlen_app, Hwk, pend_empty, (pend_dom l m Hn Hin).
    assert (Ez : zlen (flat_map (waits m) l) = zsum (λ p, zlen (waits m p)) l)
      by (clear; induction l as [|p l IH]; [done|]; cbn [flat_map]; by rewrite zlen_app, zsum_cons, IH).
    lia.
Qed.

Lemma construct_implements m sv s p :
  implements m sv s → s_waits s p = [] → implements m (put_impl p (mkImplementation 0 false) sv) (s_set p 0 s).
Proof.
  intros I Hw. assert (Hn : m !! p = None).
  { destruct (m !! p) as [[t ops]|] eqn:E; [|done]. rewrite (i_waits _ _ _ I), (waits_some m p t ops E) in Hw. subst.
    by destruct (rep_some _ _ (i_queue _ _ _ I) p t). }
  by apply implements_put; [..|by left|].
Qed.

Lemma void_ok (k : MS unit) sv sv' : k sv = Ok (tt, sv') → void k sv = Ok (0, sv').
Proof. intros E. unfold void. by erewrite bind_ok by exact E. Qed.

Lemma serve_implements c m sv s :
  implements m sv s → call_ok c s →
  ∃ r m' sv' s', serve c sv = Ok (r, sv') ∧ spec_call c r s s' ∧ implements m' sv' s'.
Proof.
  intros I Hc. destruct c as [p|p|p|p|p t|now p d|now p op|p key type|p other|now|i|]; cbn [serve call_ok] in *.
  - exists 0, m. do 2 eexists. split_and!; [by apply void_ok|constructor|by apply construct_implements].
  - destruct (cancel_implements m sv s p I) as (m' & sv' & E & I' & _). exists 0, m', sv'. eexists.
    split_and!; [apply void_ok; unfold destroy; by erewrite bind_ok by exact E|constructor|done].
  - destruct (cancel_implements m sv s p I) as (m' & sv' & E & I' & _). eexists _, m', sv', _. split_and!; [done|constructor|done].
  - destruct (cancel_one_implements m sv s p I) as (m' & sv' & E & I'). eexists _, m', sv', _. split_and!; [done|constructor|done].
  - destruct (expires_at_implements m sv s p t I Hc) as (m' & sv' & E & I' & _).
    eexists _, m', sv', _. split_and!; [done|constructor|done].
  - destruct Hc as [Hn Hd]. destruct (expires_from_now_implements m sv s now p d I Hn Hd) as (m' & sv' & E & I' & _).
    eexists _, m', sv', _. split_and!; [done|constructor|done].
  - destruct Hc as [Hn Hpos]. destruct (async_wait_implements m sv s now p op I Hn Hpos) as (m' & sv' & E & I').
    eexists 0, m', sv', _. split_and!; [by apply void_ok|constructor|done].
  - destruct (op_cancellation_implements m sv s p key type I) as (m' & sv' & s' & E & I' & H).
    exists 0, m', sv', s'. split_and!; [by apply void_ok|done|done].
  - destruct Hc as [Hne Hw]. destruct (move_implements m sv s p other I Hne Hw) as (m' & sv' & E & I').
    eexists 0, m', sv', _. split_and!; [by apply void_ok|constructor|done].
  - destruct Hc as [Hn Hpos]. destruct (run_timers_implements m sv s now I Hn Hpos) as (m' & sv' & l & E & I' & Hl).
    eexists 0, m', sv', _. split_and!; [by apply void_ok|by constructor|done].
  - eexists 0, m, _, _. split_and!; [by apply void_ok|constructor|by apply completion_implements].
  - destruct (shutdown_implements m sv s I) as (sv' & l & E & Hl & I'). eexists 0, ∅, sv', _.
    split_and!; [by apply void_ok|by constructor|done].
Qed.

(** The calls are all right, whatever the specification chose where times are equal. *)
Fixpoint calls_ok (cs : list service_call) (s : spec) : Prop :=
  match cs with
  | [] => True
  | c :: cs => call_ok c s ∧ ∀ r s', spec_call c r s s' → calls_ok cs s'
  end.

(** C24: whatever calls are made on whatever timers, the service answers and never
    faults, and does what timers with a time and a queue of waits do: waits complete
    in the order of their timers' times, no sooner than these, and exactly once;
    the flag and the times kept in the heap show nowhere.  All along, the scheduler's
    count is the number of waits that have not run, and the timer descriptor expires
    in time for every wait. *)
Theorem service_refines cs m sv s :
  implements m sv s → calls_ok cs s →
  ∃ rs sv' s' m', serve_all cs sv = Ok (rs, sv') ∧ spec_calls cs rs s s' ∧ implements m' sv' s'.
Proof.
  revert m sv s. induction cs as [|c cs IH]; intros m sv s I Hcs.
  - exists [], sv, s, m. split_and!; [done|constructor|done].
  - destruct Hcs as [Hc Hcs]. destruct (serve_implements c m sv s I Hc) as (r & m1 & sv1 & s1 & E1 & H1 & I1).
    destruct (IH m1 sv1 s1 I1 (Hcs r s1 H1)) as (rs & sv2 & s2 & m2 & E2 & H2 & I2).
    exists (r :: rs), sv2, s2, m2. split_and!; [|by econstructor|done].
    cbn [serve_all]. erewrite bind_ok by exact E1. by erewrite bind_ok by exact E2.
Qed.

(** Two timers; the first is set again while it waits. *)
Definition service_demo : list service_call :=
  [Construct 1; Construct 2; ExpiresFromNow 1000 1 5000; AsyncWait 1000 1 (mkWaitOp 10 0);
   ExpiresFromNow 1000 2 9000; AsyncWait 1000 2 (mkWaitOp 20 0); ExpiresFromNow 2000 1 20000; AsyncWait 2000 1 (mkWaitOp 11 0);
   RunTimers 10000].

Lemma service_refines_witness :
  ∃ sv' s' m', serve_all service_demo service_make = Ok ([0; 0; 0; 0; 0; 0; 1; 0; 0], sv') ∧ implements m' sv' s' ∧
    s_done s' = [(mkWaitOp 10 0, operation_aborted); (mkWaitOp 20 0, success)] ∧ s_waits s' 1%nat = [mkWaitOp 11 0] ∧
    outstanding_work_ sv' = 3 ∧ timer_fd_ sv' = Some (10000, 22000).
Proof.
  destruct (service_refines service_demo ∅ service_make spec_make implements_make) as (rs & sv & s & m & E & _ & I).
  - unfold service_demo. cbn [calls_ok call_ok].
    repeat (split; [first [done|by unfold in_int64, int64_min, int64_max|
      split; [unfold in_int64, int64_min, int64_max; lia|unfold in_int64, int64_min, int64_max; lia]|idtac]|intros ? ? Hx; inversion Hx; subst; clear Hx]).
    done.
  - exists sv, s, m. pose proof (i_done _ _ _ I) as Hd. pose proof (i_waits _ _ _ I 1%nat) as Hw.
    rewrite <- (rep_ops _ _ (i_queue _ _ _ I)) in Hw. vm_compute in E. injection E as <- <-. cbn in Hd, Hw.
    split_and!; [reflexivity|exact I|by rewrite <- Hd|done|reflexivity|reflexivity].
Defined.

(** The slot of a wait keeps the address its timer had: once the timer has been moved,
    it cancels nothing. *)
Example slot_lost_by_move :
  ∃ sv, serve_all [Construct 1; ExpiresFromNow 0 1 1000; AsyncWait 0 1 (mkWaitOp 10 77); Move 2 1; CancelSlot 1 77 1] service_make =
    Ok ([0; 0; 0; 0; 0], sv) ∧ op_queue_ (timer_queue_ sv) 2%nat = [mkWaitOp 10 77] ∧ completions sv = [].
Proof. eexists. split; [vm_compute; reflexivity|by vm_compute]. Qed.
