(* ===== verification/TimerClient.v ===== *)
(** * The repeating timer on the timer service (net/repeattimer.h)

    RepeatTimer has the timer with its waits as states of their own; here it makes
    its calls of the service of TimerService, which other timers use as well, and
    its callbacks run when the scheduler runs the completions.  Result: a wait is
    armed, due or aborted as RepeatTimer says, at any time exactly one of these, and
    every call gets through. *)

From Stdlib Require Import ZArith Lia.
From stdpp Require Import base list numbers functions fin_maps gmap.
From S2P Require Import Prelude.
From S2P Require Import RepeatTimer.
From S2P Require Import TimerQueue.
From S2P Require Import TimerService.

#[local] Open Scope Z_scope.

(** [std::chrono::milliseconds(time_ms)] of an unsigned number, in nanoseconds. *)
Definition milliseconds (time_ms : Z) : result Z := int64 (((time_ms + 2 ^ 63) mod 2 ^ 64 - 2 ^ 63) * 1000000).

(** ** The timer *)

Section Client.
Context {H : Type}.
(** The address of [m_timer]. *)
Context (p : nat).

(** [timer] without its waits, which are in the service; [callbacks] is what the waits
    of this timer captured, by their identity, the oldest first; [next_op] is an
    identity that no wait has had yet. *)
Record client := mkClient {
  serv : service;
  timer : RepeatTimer H;
  callbacks : list (nat * Z);
  next_op : nat
}.

Definition client_make (timeout : Z) (handler : option H) : client :=
  mkClient service_make (RepeatTimer_make timeout handler) [] 0.

Definition on_service {A} (k : MS A) : M client A := λ c,
  match k (serv c) with
  | Ok (a, sv) => Ok (a, mkClient sv (timer c) (callbacks c) (next_op c))
  | Fault f => Fault f
  end.

Definition on_timer {A} (k : M (RepeatTimer H) A) : M client A := λ c,
  match k (timer c) with
  | Ok (a, t) => Ok (a, mkClient (serv c) t (callbacks c) (next_op c))
  | Fault f => Fault f
  end.

(** A new wait; nothing cancels the program's waits through a slot. *)
Definition new_op : M client wait_op := λ c,
  Ok (mkWaitOp (next_op c) 0, mkClient (serv c) (timer c) (callbacks c) (S (next_op c))).

Definition add_callback (op : wait_op) (time_ms : Z) : M client unit :=
  modify (λ c, mkClient (serv c) (timer c) (callbacks c ++ [(op_address op, time_ms)]) (next_op c)).

(** [expired] *)
Definition client_expired (now time_ms : Z) : M client unit :=
  running ← gets (λ c, m_running (timer c));
  if running : bool then
    d ← lift (milliseconds time_ms);
    on_service (expires_from_now now p d);;
    op ← new_op;
    add_callback op time_ms;;
    on_service (async_wait now p op)
  else mret tt.

Definition call_handler (h : H) : M (RepeatTimer H) unit :=
  modify (λ t, mkRepeatTimer (m_running t) (m_handler t) (m_timeout t) (t_waits t) (t_calls t ++ [h])).

(** The callback [expired] gives the wait. *)
Definition client_on_wait (now time_ms : Z) (e : ec) : M client unit :=
  t ← gets timer;
  if (match e with operation_aborted => true | success => false end) || negb (m_running t) then mret tt
  else
    match m_handler t with
    | None => raise NullDeref
    | Some h => on_timer (call_handler h);; client_expired now time_ms
    end.

Definition client_start (now : Z) : M client unit :=
  on_timer (modify (λ t, mkRepeatTimer true (m_handler t) (m_timeout t) (t_waits t) (t_calls t)));;
  timeout ← gets (λ c, m_timeout (timer c));
  client_expired now timeout.

(** A completion is this timer's if it has a callback here. *)
Definition is_callback (op : wait_op) (cb : nat * Z) : bool := (cb.1 =? op_address op)%nat.

Definition client_dispatch (now : Z) (i : nat) : M client unit :=
  done ← gets (λ c, completions (serv c) !! i);
  match done with
  | None => mret tt
  | Some (op, e) =>
      on_service (run_completion i);;
      cbs ← gets callbacks;
      match List.find (is_callback op) cbs with
      | Some cb =>
          modify (λ c, mkClient (serv c) (timer c) (List.filter (λ cb, negb (is_callback op cb)) cbs) (next_op c));;
          client_on_wait now cb.2 e
      | None => mret tt
      end
  end.

(** *** What happens to the timer and to the service *)

Inductive client_call :=
  | Start (now : Z)
  | Stop
  | SetTimeout (timeout : Z)
  | SetHandler (h : H)
  | Tick (now : Z)
  | Dispatch (now : Z) (i : nat)
  | OtherWait (now : Z) (p' : nat) (key : Z)
  | OtherCall (sc : service_call).

Definition perform_client (cc : client_call) : M client unit :=
  match cc with
  | Start now => client_start now
  | Stop => on_timer timer_stop
  | SetTimeout n => on_timer (set_timeout n)
  | SetHandler h => on_timer (set_handler h)
  | Tick now => on_service (run_timers now)
  | Dispatch now i => client_dispatch now i
  | OtherWait now p' key => op ← new_op; on_service (async_wait now p' (mkWaitOp (op_address op) key))
  | OtherCall sc => on_service (serve sc);; mret tt
  end.

(** The service as its specification sees it. *)
Definition view (sv : service) : spec :=
  mkSpec (λ x, expiry (impls sv x)) (λ x, op_queue_ (timer_queue_ sv) x) (completions sv) (abandoned sv) (shutdown_ sv).

(** A call of another timer. *)
Definition foreign (sc : service_call) : bool :=
  match sc with
  | Construct x | Destroy x | CancelAll x | CancelOne x | ExpiresAt x _ | ExpiresFromNow _ x _ | CancelSlot x _ _ => negb (x =? p)%nat
  | Move x y => negb (x =? p)%nat && negb (y =? p)%nat
  | AsyncWait _ _ _ | RunTimers _ | RunCompletion _ | Shutdown => false
  end.

Definition clock_ok (now : Z) : Prop := in_int64 now ∧ 0 ≤ now.

Definition client_call_ok (cc : client_call) (c : client) : Prop :=
  match cc with
  | Start now | Tick now => clock_ok now
  | Dispatch now i => clock_ok now ∧ (i < length (completions (serv c)))%nat
  | OtherWait now p' key => clock_ok now ∧ p' ≠ p
  | OtherCall sc => foreign sc = true ∧ call_ok sc (view (serv c))
  | Stop | SetTimeout _ | SetHandler _ => True
  end.

Inductive client_step : client → client → Prop :=
  | client_does cc c c' : client_call_ok cc c → perform_client cc c = Ok (tt, c') → client_step c c'.

(** ** The timer of RepeatTimer it implements *)

Definition wait_key (a : nat) (op : wait_op) : Z := if decide (op_address op = a) then 1 else 0.
Definition done_key (a : nat) (e : ec) (d : wait_op * ec) : Z :=
  match e, d.2 with success, success | operation_aborted, operation_aborted => wait_key a d.1 | _, _ => 0 end.

(** How often the wait [a] is queued at [x], and has completed with [e]. *)
Definition at_timer (x a : nat) (s : spec) : Z := zsum (wait_key a) (s_waits s x).
Definition completed (e : ec) (a : nat) (s : spec) : Z := zsum (done_key a e) (s_done s).

Definition state_of (s : spec) (a : nat) : wait_state :=
  if 0 <? at_timer p a s then Armed else if 0 <? completed operation_aborted a s then Aborted else Due.

Definition client_waits (s : spec) (cbs : list (nat * Z)) : list wait := map (λ cb, mkWait cb.2 (state_of s cb.1)) cbs.

Definition abstract (c : client) : RepeatTimer H := set_waits (client_waits (view (serv c)) (callbacks c)) (timer c).

End Client.

Section Tracking.
Context (p : nat).
Implicit Types (s : spec) (cbs : list (nat * Z)) (a x n : nat).

(** The waits with a callback are the timer's own, and each is at exactly one place;
    an identity from [n] on is nowhere. *)
Record tracks cbs n s : Prop := {
  t_nodup : NoDup cbs.*1;
  t_once : ∀ a, a ∈ cbs.*1 → at_timer p a s + completed success a s + completed operation_aborted a s = 1;
  t_others : ∀ a x, a ∈ cbs.*1 → x ≠ p → at_timer x a s = 0;
  t_fresh : ∀ a, (n ≤ a)%nat → a ∉ cbs.*1 ∧ (∀ x, at_timer x a s = 0) ∧ ∀ e, completed e a s = 0;
  t_up : s_down s = false
}.

(** *** Counting *)

Lemma wait_key_nonneg a op : 0 ≤ wait_key a op.
Proof. unfold wait_key. by case_decide. Qed.

Lemma done_key_nonneg a e d : 0 ≤ done_key a e d.
Proof. unfold done_key. destruct e, d.2; try done; apply wait_key_nonneg. Qed.

Lemma at_timer_nonneg x a s : 0 ≤ at_timer x a s.
Proof. apply zsum_nonneg, Forall_true, wait_key_nonneg. Qed.

Lemma completed_nonneg e a s : 0 ≤ completed e a s.
Proof. apply zsum_nonneg, Forall_true, done_key_nonneg. Qed.

Lemma completed_app e a s l : zsum (done_key a e) (s_done s ++ l) = completed e a s + zsum (done_key a e) l.
Proof. apply zsum_app. Qed.

Lemma zsum_with_error a e e' ops :
  zsum (done_key a e) (with_error e' ops) = match e, e' with success, success | operation_aborted, operation_aborted => zsum (wait_key a) ops | _, _ => 0 end.
Proof.
  unfold with_error. rewrite zsum_map. destruct e, e'; unfold done_key; cbn; try done; by apply zsum_zero.
Qed.

#[global] Instance at_timer_proper x a : Proper ((≡) ==> (=)) (at_timer x a).
Proof. intros s s' (_ & E & _). unfold at_timer. by rewrite E. Qed.

#[global] Instance completed_proper e a : Proper ((≡) ==> (=)) (completed e a).
Proof. intros s s' (_ & _ & E & _). unfold completed. by rewrite E. Qed.

#[global] Instance client_waits_proper : Proper ((≡) ==> (=) ==> (=)) (client_waits p).
Proof.
  intros s s' E cbs ? <-. unfold client_waits. apply map_ext. intros cb. f_equal. unfold state_of. by rewrite !E.
Qed.

#[global] Instance tracks_proper cbs n : Proper ((≡) ==> iff) (tracks cbs n).
Proof.
  intros s s' E. enough (K : ∀ s s' : spec, s ≡ s' → tracks cbs n s → tracks cbs n s') by (split; by apply K). clear.
  intros s s' E [H1 H2 H3 H4 H5]. split; [done|..].
  - intros a. rewrite <- !E. apply H2.
  - intros a x. rewrite <- E. apply H3.
  - intros a Ha. destruct (H4 a Ha) as (K1 & K2 & K3). split_and!; [done|intros x; by rewrite <- E|intros e; by rewrite <- E].
  - destruct E as (_ & _ & _ & _ & E). by rewrite <- E.
Qed.

(** *** Steps of the specification *)

Lemma at_complete x y a left ops e s : at_timer y a (s_complete x left ops e s) = if decide (x = y) then zsum (wait_key a) left else at_timer y a s.
Proof. unfold at_timer. cbn. unfold insert, fn_insert. by case_decide. Qed.

Lemma completed_complete x a left ops e e' s :
  completed e' a (s_complete x left ops e s) =
  completed e' a s + match e', e with success, success | operation_aborted, operation_aborted => zsum (wait_key a) ops | _, _ => 0 end.
Proof. unfold completed. cbn. by rewrite zsum_app, zsum_with_error. Qed.

(** Nothing happens to a wait that is at no other timer than [p]. *)
Record others_only s s' : Prop := {
  o_at : ∀ a, (∀ x, x ≠ p → at_timer x a s = 0) →
    at_timer p a s' = at_timer p a s ∧ (∀ x, x ≠ p → at_timer x a s' = 0) ∧ ∀ e, completed e a s' = completed e a s;
  o_up : s_down s' = s_down s
}.

Lemma others_only_refl s : others_only s s.
Proof. by split. Qed.

Lemma others_only_trans s1 s2 s3 : others_only s1 s2 → others_only s2 s3 → others_only s1 s3.
Proof.
  intros [H1 E1] [H2 E2]. split; [|congruence]. intros a Ha. destruct (H1 a Ha) as (A1 & A2 & A3).
  destruct (H2 a A2) as (B1 & B2 & B3). split_and!; [congruence|done|]. intros e. by rewrite B3.
Qed.

Lemma others_only_waits cbs n s s' : others_only s s' → tracks cbs n s → tracks cbs n s' ∧ client_waits p s' cbs = client_waits p s cbs.
Proof.
  intros [Ho Hu] [H1 H2 H3 H4 H5]. split; [split; [done|..]|].
  - intros a Ha. destruct (Ho a) as (-> & _ & E); [by intros x; apply H3|]. rewrite !E. by apply H2.
  - intros a x Ha. destruct (Ho a) as (_ & E & _); [by intros y; apply H3|]. apply E.
  - intros a Ha. destruct (H4 a Ha) as (K1 & K2 & K3). destruct (Ho a) as (E1 & E2 & E3); [by intros x _|].
    split_and!; [done| |]; [|intros e; by rewrite E3]. intros x. destruct (decide (x = p)) as [->|Hx]; [by rewrite E1|by apply E2].
  - by rewrite Hu.
  - unfold client_waits. apply map_ext_in. intros cb Hcb. f_equal. unfold state_of.
    destruct (Ho cb.1) as (-> & _ & E); [|by rewrite E].
    intros x. apply H3. apply list_elem_of_fmap. exists cb. split; [done|by apply list_elem_of_In].
Qed.

(** A timer that is not [p] loses waits. *)
Lemma others_complete x left ops e s :
  x ≠ p → (∀ a, zsum (wait_key a) left + zsum (wait_key a) ops = at_timer x a s) → others_only s (s_complete x left ops e s).
Proof.
  intros Hx Hsplit. split; [|done]. intros a Ha. pose proof (Hsplit a) as Hs. rewrite Ha in Hs by done.
  pose proof (zsum_nonneg (wait_key a) left (Forall_true _ _ (wait_key_nonneg a))).
  pose proof (zsum_nonneg (wait_key a) ops (Forall_true _ _ (wait_key_nonneg a))). split_and!.
  - by rewrite at_complete, decide_False.
  - intros y Hy. rewrite at_complete. case_decide; [lia|by apply Ha].
  - intros e'. rewrite completed_complete. destruct e', e; lia.
Qed.

Lemma others_set x t s : others_only s (s_set x t s).
Proof. by split. Qed.

Lemma others_cancel x s : x ≠ p → others_only s (s_cancel x s).
Proof. intros Hx. by apply others_complete. Qed.

Lemma others_move x y s : x ≠ p → y ≠ p → x ≠ y → others_only s (s_move x y s).
Proof.
  intros Hx Hy Hxy. split; [|done]. intros a Ha. split_and!; [|intros z Hz|done]; unfold at_timer; cbn; unfold insert, fn_insert.
  - repeat (case_decide; [done|]). done.
  - case_decide; [done|]. case_decide; by apply Ha.
Qed.

Lemma zsum_filter_split f key ops :
  zsum f (List.filter (λ op, negb (has_key key op)) ops) + zsum f (List.filter (has_key key) ops) = zsum f ops.
Proof. induction ops as [|op ops IH]; [done|]. cbn. rewrite zsum_cons. destruct (has_key key op); cbn; rewrite zsum_cons; lia. Qed.

Lemma zsum_take_drop f k (ops : list wait_op) : zsum f (drop k ops) + zsum f (take k ops) = zsum f ops.
Proof. rewrite Z.add_comm, <- zsum_app. by rewrite take_drop. Qed.

Lemma foreign_others sc r s s' : foreign p sc = true → call_ok sc s → spec_call sc r s s' → others_only s s'.
Proof.
  intros Hf Hc E. destruct E; cbn in Hf; try done; rewrite ?andb_true_iff, ?negb_true_iff, ?Nat.eqb_neq in Hf.
  - by apply others_cancel.
  - by apply others_cancel.
  - apply others_complete; [done|]. intros a. apply zsum_take_drop.
  - eapply others_only_trans; [by apply others_cancel|apply others_set].
  - eapply others_only_trans; [by apply others_cancel|apply others_set].
  - destruct (Z.testbit type 0 || _ || _); [|apply others_only_refl]. apply others_complete; [done|]. intros a. apply zsum_filter_split.
  - destruct Hf as [Hx Hy], Hc as [Hxy _]. eapply others_only_trans; [apply others_cancel, Hx|by apply others_move].
Qed.

(** *** The timer's own waits *)

Lemma state_cases cbs n s a :
  tracks cbs n s → a ∈ cbs.*1 →
  (at_timer p a s = 1 ∧ completed success a s = 0 ∧ completed operation_aborted a s = 0 ∧ state_of p s a = Armed) ∨
  (at_timer p a s = 0 ∧ completed success a s = 1 ∧ completed operation_aborted a s = 0 ∧ state_of p s a = Due) ∨
  (at_timer p a s = 0 ∧ completed success a s = 0 ∧ completed operation_aborted a s = 1 ∧ state_of p s a = Aborted).
Proof.
  intros T Ha. pose proof (t_once _ _ _ T a Ha). pose proof (at_timer_nonneg p a s). pose proof (completed_nonneg success a s).
  pose proof (completed_nonneg operation_aborted a s). unfold state_of.
  destruct (Z.ltb_spec 0 (at_timer p a s)); [left|destruct (Z.ltb_spec 0 (completed operation_aborted a s)); [right; right|right; left]]; split_and!; done || lia.
Qed.

Lemma client_waits_map (f : wait_state → wait_state) cbs s s' :
  (∀ a, a ∈ cbs.*1 → state_of p s' a = f (state_of p s a)) →
  client_waits p s' cbs = map (λ w, mkWait (w_time w) (f (w_state w))) (client_waits p s cbs).
Proof.
  intros Hf. unfold client_waits. rewrite map_map. apply map_ext_in. intros cb Hcb. cbn. f_equal. apply Hf.
  apply list_elem_of_fmap. exists cb. split; [done|by apply list_elem_of_In].
Qed.

Lemma tracks_cancel cbs n s :
  tracks cbs n s → tracks cbs n (s_cancel p s) ∧ client_waits p (s_cancel p s) cbs = map abort_wait (client_waits p s cbs).
Proof.
  intros T. assert (Hat : ∀ a x, at_timer x a (s_cancel p s) = if decide (p = x) then 0 else at_timer x a s) by (intros; apply at_complete).
  assert (Hco : ∀ e a, completed e a (s_cancel p s) = completed e a s + match e with operation_aborted => at_timer p a s | success => 0 end).
  { intros e a. unfold s_cancel. rewrite completed_complete. by destruct e. }
  split; [destruct T as [H1 H2 H3 H4 H5]; split; [done|..]|].
  - intros a Ha. rewrite !Hco, Hat, decide_True by done. specialize (H2 a Ha). lia.
  - intros a x Ha Hx. rewrite Hat. case_decide; [done|by apply H3].
  - intros a Ha. destruct (H4 a Ha) as (K1 & K2 & K3). split_and!; [done|intros x; rewrite Hat; by case_decide|].
    intros e. rewrite Hco, K3, K2. by destruct e.
  - done.
  - rewrite (client_waits_map (λ w, match w with Armed => Aborted | _ => w end) cbs s).
    + apply map_ext. intros [t []]; done.
    + intros a Ha. destruct (state_cases cbs n s a T Ha) as [(A & S & B & ->)|[(A & S & B & ->)|(A & S & B & ->)]];
        unfold state_of; rewrite Hat, Hco, decide_True, A, B by done; done.
Qed.

Lemma at_wait x y a n key s :
  s_down s = false → at_timer y a (s_wait x (mkWaitOp n key) s) = at_timer y a s + if decide (y = x ∧ a = n) then 1 else 0.
Proof.
  intros Hd. unfold s_wait. rewrite Hd. unfold at_timer, insert, fn_insert. cbn. destruct (decide (x = y)) as [->|Hx].
  - rewrite zsum_app, zsum_cons, zsum_nil. unfold wait_key at 2. cbn. repeat case_decide; naive_solver lia.
  - rewrite decide_False by naive_solver. lia.
Qed.

Lemma completed_wait x e a op s : s_down s = false → completed e a (s_wait x op s) = completed e a s.
Proof. intros Hd. unfold s_wait. by rewrite Hd. Qed.

Lemma fresh_not_known cbs n s a : tracks cbs n s → a ∈ cbs.*1 → a ≠ n.
Proof. intros T Ha ->. by apply (proj1 (t_fresh _ _ _ T n (le_n n))). Qed.

Lemma waits_kept cbs n s x key :
  tracks cbs n s → client_waits p (s_wait x (mkWaitOp n key) s) cbs = client_waits p s cbs.
Proof.
  intros T. rewrite (client_waits_map id cbs s).
  - rewrite <- (map_id (client_waits p s cbs)) at 2. apply map_ext. by intros [t w].
  - intros a Ha. pose proof (fresh_not_known cbs n s a T Ha). unfold state_of.
    rewrite at_wait, completed_wait, decide_False, Z.add_0_r by (apply T || naive_solver). done.
Qed.

Lemma tracks_wait_other cbs n s x key : x ≠ p → tracks cbs n s → tracks cbs (S n) (s_wait x (mkWaitOp n key) s).
Proof.
  intros Hx T. pose proof (fresh_not_known cbs n s) as Hn. pose proof T as [H1 H2 H3 H4 H5]. split; [done|..].
  - intros a Ha. specialize (Hn a T Ha). rewrite at_wait, !completed_wait, decide_False, Z.add_0_r by naive_solver. by apply H2.
  - intros a y Ha Hy. specialize (Hn a T Ha). rewrite at_wait, decide_False, H3 by naive_solver. done.
  - intros a Ha. destruct (H4 a) as (K1 & K2 & K3); [lia|]. split_and!; [done| |intros e; by rewrite completed_wait].
    intros y. rewrite at_wait, K2, decide_False by (done || lia). done.
  - unfold s_wait. by rewrite H5.
Qed.

Lemma tracks_wait_own cbs n s t key :
  tracks cbs n s →
  tracks (cbs ++ [(n, t)]) (S n) (s_wait p (mkWaitOp n key) s) ∧
  client_waits p (s_wait p (mkWaitOp n key) s) (cbs ++ [(n, t)]) = client_waits p s cbs ++ [mkWait t Armed].
Proof.
  intros T. pose proof (fresh_not_known cbs n s) as Hn. pose proof (waits_kept cbs n s p key T) as Hk.
  pose proof T as [H1 H2 H3 H4 H5]. destruct (H4 n (le_n n)) as (N1 & N2 & N3).
  assert (Hin : ∀ a, a ∈ (cbs ++ [(n, t)]).*1 ↔ a ∈ cbs.*1 ∨ a = n) by (intros a; rewrite fmap_app, elem_of_app; cbn; by rewrite list_elem_of_singleton).
  split; [split|].
  - rewrite fmap_app. apply NoDup_app. split_and!; [done| |apply NoDup_singleton]. intros a Ha ->%list_elem_of_singleton. by apply N1.
  - intros a [Ha| ->]%Hin; rewrite at_wait, !completed_wait by done.
    + specialize (Hn a T Ha). rewrite decide_False, Z.add_0_r by naive_solver. by apply H2.
    + by rewrite decide_True, N2, !N3 by done.
  - intros a y [Ha| ->]%Hin Hy; rewrite at_wait, decide_False by naive_solver; [by rewrite H3|by rewrite N2].
  - intros a Ha. destruct (H4 a) as (K1 & K2 & K3); [lia|]. rewrite Hin. split_and!; [intros [| ->]; [done|lia]| |].
    + intros y. rewrite at_wait, K2, decide_False by (done || lia). done.
    + intros e. by rewrite completed_wait.
  - unfold s_wait. by rewrite H5.
  - unfold client_waits in *. rewrite map_app, Hk. do 2 f_equal. cbn. f_equal. unfold state_of.
    by rewrite at_wait, decide_True, N2 by done.
Qed.

(** *** The reactor and the scheduler *)

Definition elapse (w : wait) : wait := match w_state w with Armed => mkWait (w_time w) Due | _ => w end.

Lemma zsum_only (f : nat → Z) l : NoDup l → (∀ x, x ≠ p → f x = 0) → zsum f l = if decide (p ∈ l) then f p else 0.
Proof.
  intros Hn Hf. induction Hn as [|x l Hx Hn IH]; [done|]. rewrite zsum_cons, IH.
  destruct (decide (x = p)) as [->|Hxp].
  - rewrite decide_False, decide_True by (done || by left). lia.
  - rewrite Hf by done. destruct (decide (p ∈ l)); [rewrite decide_True by (by right); lia|].
    rewrite decide_False; [lia|]. intros [<- |]%elem_of_cons; done.
Qed.

Lemma at_run x a l s : at_timer x a (s_run l s) = if decide (x ∈ l) then 0 else at_timer x a s.
Proof. unfold at_timer. cbn. by case_decide. Qed.

Lemma completed_run e a l s :
  completed e a (s_run l s) = completed e a s + match e with success => zsum (λ x, at_timer x a s) l | operation_aborted => 0 end.
Proof.
  unfold completed. cbn. rewrite zsum_app. f_equal. induction l as [|x l IH]; [by destruct e|]. cbn [flat_map].
  rewrite zsum_app, zsum_with_error, IH. by destruct e.
Qed.

Lemma tracks_run cbs n l s :
  NoDup l → tracks cbs n s →
  tracks cbs n (s_run l s) ∧ client_waits p (s_run l s) cbs = (if decide (p ∈ l) then map elapse else id) (client_waits p s cbs).
Proof.
  intros Hl T. pose proof T as [H1 H2 H3 H4 H5].
  assert (Hsum : ∀ a, a ∈ cbs.*1 → zsum (λ x, at_timer x a s) l = if decide (p ∈ l) then at_timer p a s else 0).
  { intros a Ha. apply zsum_only; [done|]. intros x. by apply H3. }
  split; [split; [done|..]|].
  - intros a Ha. rewrite at_run, !completed_run, Hsum by done. specialize (H2 a Ha). case_decide; lia.
  - intros a x Ha Hx. rewrite at_run. destruct (decide (x ∈ l)); [done|by apply H3].
  - intros a Ha. destruct (H4 a Ha) as (K1 & K2 & K3). split_and!; [done|intros x; rewrite at_run; by destruct (decide (x ∈ l))|].
    intros e. rewrite completed_run, K3. destruct e; [|done]. by rewrite zsum_zero.
  - done.
  - rewrite (client_waits_map (λ w, if decide (p ∈ l) then match w with Armed => Due | _ => w end else w) cbs s).
    + destruct (decide (p ∈ l)); [apply map_ext; by intros [t []]|]. rewrite <- (map_id (client_waits p s cbs)) at 2. apply map_ext. by intros [t w].
    + intros a Ha. unfold state_of at 1. rewrite at_run, completed_run.
      destruct (state_cases cbs n s a T Ha) as [(A & S & B & ->)|[(A & S & B & ->)|(A & S & B & ->)]];
        rewrite A, B; by destruct (decide (p ∈ l)).
Qed.

Lemma find_callback op cbs :
  NoDup cbs.*1 →
  let rest := List.filter (λ cb, negb (is_callback op cb)) cbs in
  match List.find (is_callback op) cbs with
  | Some cb => ∃ c1 c2, cbs = c1 ++ cb :: c2 ∧ cb.1 = op_address op ∧ rest = c1 ++ c2 ∧ op_address op ∉ (c1 ++ c2).*1
  | None => rest = cbs ∧ op_address op ∉ cbs.*1
  end.
Proof.
  induction cbs as [|cb cbs IH]; intros Hn; cbn [List.find List.filter]; [split; [done|apply not_elem_of_nil]|].
  cbn in Hn. apply NoDup_cons in Hn as [Hcb Hn]. specialize (IH Hn).
  assert (Eb : is_callback op cb = (cb.1 =? op_address op)%nat) by done. rewrite !Eb.
  destruct (Nat.eqb_spec cb.1 (op_address op)) as [E|E]; cbn [negb].
  - exists [], cbs. rewrite E in Hcb. split_and!; [done|done| |done]. clear -Hcb. induction cbs as [|x cbs IH]; [done|].
    cbn in Hcb |- *. apply not_elem_of_cons in Hcb as [Hx Hcb]. unfold is_callback at 1.
    destruct (Nat.eqb_spec x.1 (op_address op)); [congruence|]. cbn. f_equal. by apply IH.
  - destruct (List.find (is_callback op) cbs) as [cb'|].
    + destruct IH as (c1 & c2 & -> & E' & -> & Hc). exists (cb :: c1), c2. split_and!; try done.
      cbn. apply not_elem_of_cons. by split.
    + destruct IH as [-> Hc]. split; [done|]. cbn. apply not_elem_of_cons. by split.
Qed.

(** The completion at [i] is taken away. *)
Definition s_take (i : nat) s : spec := mkSpec (s_expiry s) (s_waits s) (delete i (s_done s)) (s_abandoned s) (s_down s).

Lemma completed_take e' a i op e s :
  s_done s !! i = Some (op, e) → completed e' a (s_take i s) = completed e' a s - done_key a e' (op, e).
Proof. intros Hi. unfold completed at 2. rewrite (delete_Permutation _ _ _ Hi), zsum_cons. unfold completed. cbn. lia. Qed.

Lemma take_key e' a op e : a ≠ op_address op → done_key a e' (op, e) = 0.
Proof. intros Ha. unfold done_key, wait_key. cbn. rewrite decide_False by congruence. by destruct e', e. Qed.

Lemma tracks_take cbs cbs' n i op e s :
  s_done s !! i = Some (op, e) → cbs'.*1 ⊆ cbs.*1 → NoDup cbs'.*1 → op_address op ∉ cbs'.*1 → tracks cbs n s →
  tracks cbs' n (s_take i s) ∧ client_waits p (s_take i s) cbs' = client_waits p s cbs'.
Proof.
  intros Hi Hsub Hn Hop T. pose proof T as [H1 H2 H3 H4 H5].
  assert (Hk : ∀ e' a, a ∈ cbs'.*1 → completed e' a (s_take i s) = completed e' a s).
  { intros e' a Ha. rewrite (completed_take _ _ _ _ _ _ Hi), take_key by (by intros ->). lia. }
  split; [split; [done|..]|].
  - intros a Ha. rewrite !Hk by done. by apply H2, Hsub.
  - intros a x Ha. by apply H3, Hsub.
  - intros a Ha. destruct (H4 a Ha) as (K1 & K2 & K3). split_and!; [by intros K%Hsub|done|].
    intros e'. pose proof (completed_take e' a i op e s Hi). pose proof (completed_nonneg e' a (s_take i s)).
    pose proof (done_key_nonneg a e' (op, e)). rewrite K3 in *. lia.
  - done.
  - rewrite (client_waits_map id cbs' s); [rewrite <- (map_id (client_waits p s cbs')) at 2; apply map_ext; by intros [t w]|].
    intros a Ha. unfold state_of. by rewrite Hk.
Qed.

(** What the waits were when a callback of ours is taken. *)
Lemma taken_state cbs n i op e s c1 cb c2 :
  s_done s !! i = Some (op, e) → tracks cbs n s → cbs = c1 ++ cb :: c2 → cb.1 = op_address op →
  client_waits p s cbs =
  client_waits p s c1 ++ mkWait cb.2 (match e with success => Due | operation_aborted => Aborted end) :: client_waits p s c2.
Proof.
  intros Hi T -> Ea. unfold client_waits. rewrite map_app. cbn [map]. do 3 f_equal.
  assert (Hin : cb.1 ∈ (c1 ++ cb :: c2).*1) by (rewrite fmap_app, elem_of_app; right; by left).
  assert (Hone : done_key cb.1 e (op, e) = 1) by (unfold done_key, wait_key; cbn; rewrite decide_True by done; by destruct e).
  pose proof (completed_take e cb.1 i op e s Hi) as Ht. pose proof (completed_nonneg e cb.1 (s_take i s)).
  destruct (state_cases _ n s cb.1 T Hin) as [(A & S & B & ->)|[(A & S & B & ->)|(A & S & B & ->)]]; destruct e; lia || done.
Qed.

Lemma tracks_dispatch cbs n i op e s :
  s_done s !! i = Some (op, e) → tracks cbs n s →
  let rest := List.filter (λ cb, negb (is_callback op cb)) cbs in
  match List.find (is_callback op) cbs with
  | Some cb => tracks rest n (s_take i s) ∧ cb ∈ cbs ∧ ∃ w1 w2,
      client_waits p s cbs = w1 ++ mkWait cb.2 (match e with success => Due | operation_aborted => Aborted end) :: w2 ∧
      client_waits p (s_take i s) rest = w1 ++ w2
  | None => tracks cbs n (s_take i s) ∧ client_waits p (s_take i s) cbs = client_waits p s cbs
  end.
Proof.
  intros Hi T rest. pose proof (find_callback op cbs (t_nodup _ _ _ T)) as Hf. cbn zeta in Hf. fold rest in Hf.
  destruct (List.find (is_callback op) cbs) as [cb|].
  - destruct Hf as (c1 & c2 & Ec & Ea & -> & Hout).
    destruct (tracks_take cbs (c1 ++ c2) n i op e s Hi) as [T1 W1]; [|..|done|done|].
    + rewrite Ec, !fmap_app. cbn. set_solver.
    + pose proof (t_nodup _ _ _ T) as Hn. rewrite Ec, fmap_app in Hn. cbn in Hn. rewrite <- Permutation_middle, NoDup_cons in Hn.
      rewrite fmap_app. apply Hn.
    + split_and!; [done|rewrite Ec, elem_of_app; right; by left|].
      exists (client_waits p s c1), (client_waits p s c2). split; [by apply (taken_state cbs n i op e s c1 cb c2)|].
      rewrite W1. unfold client_waits. by rewrite map_app.
  - destruct Hf as [_ Hout]. apply (tracks_take cbs cbs n i op e s Hi); [done|apply T|done|done].
Qed.
End Tracking.

(** ** The simulation *)

Section Simulation.
Context {H : Type} (p : nat).
Implicit Types (c : @client H).

Lemma view_implements m sv s : implements m sv s → view sv ≡ s.
Proof.
  intros I. split_and!; cbn; try apply I; [|intros x..].
  - intros x. symmetry. apply I.
  - rewrite (rep_ops _ _ (i_queue _ _ _ I)). symmetry. apply I.
Qed.

(** The service works, and each wait of the timer is accounted for. *)
Record good c : Prop := {
  g_service : ∃ m, implements m (serv c) (view (serv c));
  g_tracks : tracks p (callbacks c) (next_op c) (view (serv c))
}.

(** After a call of the service that does to the specification what [s] says. *)
Lemma good_after m sv s t cbs n :
  implements m sv s → tracks p cbs n s → good (mkClient sv t cbs n) ∧ client_waits p (view sv) cbs = client_waits p s cbs.
Proof.
  intros I T. pose proof (view_implements _ _ _ I) as E. split; [split; cbn|by rewrite E].
  - exists m. by rewrite E.
  - by rewrite E.
Qed.

Lemma on_service_ok {A} (k : MS A) c a sv :
  k (serv c) = Ok (a, sv) → on_service k c = Ok (a, mkClient sv (timer c) (callbacks c) (next_op c)).
Proof. intros E. unfold on_service. by rewrite E. Qed.

Lemma milliseconds_range ms d : milliseconds ms = Ok d → in_int64 d.
Proof.
  unfold milliseconds, int64. destruct (_ && _) eqn:E; [|done]. intros [= <-].
  apply andb_true_iff in E as [E1%Z.leb_le E2%Z.leb_le]. by split.
Qed.

Lemma milliseconds_fault ms f : milliseconds ms = Fault f → f = SignedOverflow.
Proof. unfold milliseconds, int64. destruct (_ && _); [done|]. by intros [= <-]. Qed.

Lemma client_expired_ok now ms c :
  good c → clock_ok now →
  (∃ c', client_expired p now ms c = Ok (tt, c') ∧ good c' ∧ expired ms (abstract p c) = Ok (tt, abstract p c')) ∨
  (client_expired p now ms c = Fault SignedOverflow ∧ milliseconds ms = Fault SignedOverflow).
Proof.
  intros [[m I] T] [Hn Hpos]. unfold client_expired. erewrite bind_ok by reflexivity. unfold expired, modify.
  destruct (m_running (timer c)) eqn:Hr.
  2:{ left. exists c. split_and!; [done|by split; [exists m|]|]. unfold abstract, set_waits. cbn. by rewrite Hr. }
  destruct (milliseconds ms) as [d|f] eqn:Ed.
  2:{ right. pose proof (milliseconds_fault ms f Ed) as ->. by rewrite (bind_fault _ _ _ SignedOverflow). }
  left. erewrite bind_ok by reflexivity.
  destruct (expires_from_now_implements m (serv c) _ now p d I Hn (milliseconds_range ms d Ed)) as (m1 & sv1 & E1 & I1 & _).
  destruct (tracks_cancel p (callbacks c) (next_op c) _ T) as [T1 W1].
  destruct (others_only_waits p _ _ _ _ (others_set p p (clamp (now + d)) _) T1) as [T1' W1'].
  set (s1 := s_set p (clamp (now + d)) (s_cancel p (view (serv c)))) in *.
  destruct (async_wait_implements m1 sv1 s1 now p (mkWaitOp (next_op c) 0) I1 Hn Hpos) as (m2 & sv2 & E2 & I2).
  destruct (tracks_wait_own p (callbacks c) (next_op c) s1 ms 0 T1') as [T2 W2].
  destruct (good_after m2 sv2 _ (timer c) _ _ I2 T2) as [G W]. eexists. split_and!; [|exact G|].
  - erewrite bind_ok by (apply on_service_ok; exact E1). do 2 (erewrite bind_ok by reflexivity). by erewrite on_service_ok by exact E2.
  - unfold abstract, set_waits. cbn [m_running m_handler m_timeout t_calls t_waits timer serv callbacks]. by rewrite Hr, W, W2, W1', W1.
Qed.

Definition is_aborted (e : ec) : bool := match e with operation_aborted => true | success => false end.

Lemma client_on_wait_ok now ms e c :
  good c → clock_ok now →
  (∃ c', client_on_wait p now ms e c = Ok (tt, c') ∧ good c' ∧ on_wait ms (is_aborted e) (abstract p c) = Ok (tt, abstract p c')) ∨
  (client_on_wait p now ms e c = Fault NullDeref ∧ m_handler (timer c) = None) ∨
  (client_on_wait p now ms e c = Fault SignedOverflow ∧ milliseconds ms = Fault SignedOverflow).
Proof.
  intros G Hc. unfold client_on_wait, on_wait. erewrite bind_ok by reflexivity. erewrite bind_ok by reflexivity.
  fold (is_aborted e). change (m_running (id (abstract p c))) with (m_running (timer c)).
  destruct (is_aborted e || negb (m_running (timer c))); [left; by exists c|].
  change (m_handler (id (abstract p c))) with (m_handler (timer c)). destruct (m_handler (timer c)) as [h|] eqn:Eh; [|by right; left].
  erewrite bind_ok by reflexivity. set (c1 := mkClient _ _ _ _).
  assert (G1 : good c1) by (destruct G; by split).
  destruct (client_expired_ok now ms c1 G1 Hc) as [(c' & E & G' & E')|[E E']]; [left|by right; right].
  exists c'. split_and!; [done|done|]. erewrite bind_ok by reflexivity. exact E'.
Qed.

(** *** Every call *)

Lemma steps_one {S} (R : RepeatTimer S → RepeatTimer S → Prop) t t' : R t t' → steps R t t'.
Proof. intros K. eapply steps_cons; [exact K|constructor]. Qed.

Lemma steps_app {S} (R : RepeatTimer S → RepeatTimer S → Prop) t1 t2 t3 : steps R t1 t2 → steps R t2 t3 → steps R t1 t3.
Proof. induction 1; [done|]. intros. econstructor; eauto. Qed.

(** The time of every armed wait passes. *)
Lemma elapse_all (t : RepeatTimer H) ws1 ws2 :
  steps timer_step (set_waits (ws1 ++ ws2) t) (set_waits (ws1 ++ map elapse ws2) t).
Proof.
  revert ws1. induction ws2 as [|w ws2 IH]; intros ws1; [constructor|]. cbn [map].
  eapply steps_app; [|rewrite (cons_middle _ ws1), app_assoc; apply IH]. rewrite <- app_assoc. cbn [app].
  destruct (decide (w_state w = Armed)) as [E|E].
  - apply steps_one, step_idle. unfold elapse. rewrite E. apply (idle_elapse (set_waits _ t) ws1 w ws2); done.
  - replace (elapse w) with w by (destruct w as [tm []]; done). constructor.
Qed.

(** What can go wrong: the handler is null, or a period does not fit the clock. *)
Definition call_faults (cc : client_call) c : Prop :=
  (perform_client p cc c = Fault NullDeref ∧ m_handler (timer c) = None) ∨
  (perform_client p cc c = Fault SignedOverflow ∧
   ∃ ms, (ms = m_timeout (timer c) ∨ ms ∈ (callbacks c).*2) ∧ milliseconds ms = Fault SignedOverflow).

Definition call_simulated (cc : client_call) c : Prop :=
  ∃ c', perform_client p cc c = Ok (tt, c') ∧ good c' ∧ steps timer_step (abstract p c) (abstract p c').

Lemma start_ok now c : good c → clock_ok now → call_simulated (Start now) c ∨ call_faults (Start now) c.
Proof.
  intros G Hc. set (c1 := mkClient (serv c) (mkRepeatTimer true (m_handler (timer c)) (m_timeout (timer c)) (t_waits (timer c)) (t_calls (timer c)))
    (callbacks c) (next_op c)). assert (G1 : good c1) by (destruct G; by split).
  assert (Es : perform_client p (Start now) c = client_expired p now (m_timeout (timer c)) c1) by done.
  unfold call_simulated, call_faults. rewrite Es.
  destruct (client_expired_ok now (m_timeout (timer c)) c1 G1 Hc) as [(c' & E & G' & E')|[E E']]; [left|right; right].
  - exists c'. split_and!; [done|done|]. apply steps_one, step_start. exact E'.
  - split; [done|]. exists (m_timeout (timer c)). split; [by left|done].
Qed.

Lemma on_timer_ok (k : M (RepeatTimer H) unit) c t :
  good c → k (timer c) = Ok (tt, t) →
  let c' := mkClient (serv c) t (callbacks c) (next_op c) in on_timer k c = Ok (tt, c') ∧ good c'.
Proof. intros G E. unfold on_timer. rewrite E. split; [done|]. destruct G. by split. Qed.

Lemma dispatch_ok now i c :
  good c → clock_ok now → (i < length (completions (serv c)))%nat →
  call_simulated (Dispatch now i) c ∨ call_faults (Dispatch now i) c.
Proof.
  intros [[m I] T] Hc Hi. destruct (lookup_lt_is_Some_2 _ _ Hi) as [[op e] Hd].
  pose proof (completion_implements m (serv c) _ i I Hi) as I1. fold (s_take i (view (serv c))) in I1.
  set (sv1 := add_work (-1) (set_completions (delete i (completions (serv c))) (serv c))) in *.
  pose proof (tracks_dispatch p (callbacks c) (next_op c) i op e (view (serv c)) Hd T) as Hf. cbn zeta in Hf.
  set (rest := List.filter _ (callbacks c)) in *.
  unfold call_simulated, call_faults. cbn [perform_client]. unfold client_dispatch.
  erewrite bind_ok by reflexivity. rewrite Hd. erewrite bind_ok by (apply on_service_ok; reflexivity). fold sv1.
  erewrite bind_ok by reflexivity. cbn [callbacks]. fold rest.
  destruct (List.find (is_callback op) (callbacks c)) as [cb|].
  - destruct Hf as (T1 & Hcb & w1 & w2 & Ew & Ew'). destruct (good_after m sv1 _ (timer c) _ _ I1 T1) as [G1 W].
    erewrite bind_ok by reflexivity. cbn [serv timer next_op]. set (c' := mkClient sv1 (timer c) rest (next_op c)) in *.
    assert (Hsim : ∀ t, on_wait cb.2 (is_aborted e) (abstract p c') = Ok (tt, t) → timer_step (abstract p c) t).
    { intros t E. apply step_idle. apply (idle_dispatch _ w1 (mkWait cb.2 (match e with success => Due | operation_aborted => Aborted end)) w2).
      - exact Ew.
      - by destruct e.
      - cbn [w_time w_state]. replace (bool_decide _) with (is_aborted e) by (by destruct e). rewrite <- E. f_equal.
        unfold abstract, set_waits, c'. cbn [serv callbacks timer m_running m_handler m_timeout t_calls t_waits]. by rewrite W, Ew'. }
    destruct (client_on_wait_ok now cb.2 e c' G1 Hc) as [(c3 & E & G3 & E3)|[[E En]|[E Em]]].
    + left. exists c3. split_and!; [done|done|]. by apply steps_one, Hsim.
    + right; left. by split.
    + right; right. split; [done|]. exists cb.2. split; [|done]. right. apply list_elem_of_fmap. by exists cb.
  - destruct Hf as [T1 W1]. destruct (good_after m sv1 _ (timer c) _ _ I1 T1) as [G1 W]. left.
    eexists. split_and!; [reflexivity|exact G1|]. unfold abstract at 2. cbn [serv callbacks timer]. rewrite W, W1. constructor.
Qed.

(** A call of the service that leaves the callbacks as they are. *)
Lemma same_callbacks m sv s c n ws :
  implements m sv s → tracks p (callbacks c) n s → client_waits p s (callbacks c) = ws →
  let c' := mkClient sv (timer c) (callbacks c) n in good c' ∧ abstract p c' = set_waits ws (abstract p c).
Proof.
  intros I T Ew. destruct (good_after m sv s (timer c) _ _ I T) as [G W]. split; [done|].
  change (set_waits (client_waits p (view sv) (callbacks c)) (timer c) = set_waits ws (abstract p c)). by rewrite W, Ew.
Qed.

Lemma tick_ok now c : good c → clock_ok now → call_simulated (Tick now) c.
Proof.
  intros [[m I] T] [Hn Hpos]. destruct (run_timers_implements m _ _ now I Hn Hpos) as (m' & sv & l & E & I' & (Hl & _)).
  destruct (tracks_run p _ _ l _ Hl T) as [T' W]. destruct (same_callbacks m' sv _ c (next_op c) _ I' T' W) as [G A].
  eexists. split_and!; [by apply on_service_ok|exact G|]. rewrite A. case_decide; [|constructor].
  apply (elapse_all (abstract p c) []).
Qed.

Lemma other_wait_ok now p' key c : good c → clock_ok now → p' ≠ p → call_simulated (OtherWait now p' key) c.
Proof.
  intros [[m I] T] [Hn Hpos] Hp. destruct (async_wait_implements m _ _ now p' (mkWaitOp (next_op c) key) I Hn Hpos) as (m' & sv & E & I').
  pose proof (tracks_wait_other p _ _ _ p' key Hp T) as T'. pose proof (waits_kept p _ _ _ p' key T) as W.
  destruct (same_callbacks m' sv _ c (S (next_op c)) _ I' T' W) as [G A]. eexists. split_and!; [|exact G|].
  - cbn [perform_client]. erewrite bind_ok by reflexivity. by erewrite on_service_ok by exact E.
  - rewrite A. constructor.
Qed.

Lemma other_call_ok sc c : good c → foreign p sc = true → call_ok sc (view (serv c)) → call_simulated (OtherCall sc) c.
Proof.
  intros [[m I] T] Hf Hc. destruct (serve_implements sc m _ _ I Hc) as (r & m' & sv & s' & E & Es & I').
  destruct (others_only_waits p _ _ _ _ (foreign_others p sc r _ _ Hf Hc Es) T) as [T' W].
  destruct (same_callbacks m' sv _ c (next_op c) _ I' T' W) as [G A]. eexists. split_and!; [|exact G|].
  - cbn [perform_client]. by erewrite bind_ok by (apply on_service_ok; exact E).
  - rewrite A. constructor.
Qed.

Lemma perform_client_ok cc c : good c → client_call_ok p cc c → call_simulated cc c ∨ call_faults cc c.
Proof.
  intros G Hc. destruct cc as [now| |n|h|now|now i|now p' key|sc]; cbn in Hc.
  - by apply start_ok.
  - left. destruct (on_timer_ok timer_stop c _ G eq_refl) as [E G']. eexists. split_and!; [exact E|exact G'|].
    by apply steps_one, step_idle, idle_stop.
  - left. destruct (on_timer_ok (set_timeout n) c _ G eq_refl) as [E G']. eexists. split_and!; [exact E|exact G'|].
    by apply steps_one, step_idle, (idle_set_timeout n).
  - left. destruct (on_timer_ok (set_handler h) c _ G eq_refl) as [E G']. eexists. split_and!; [exact E|exact G'|].
    apply steps_one, step_idle, (idle_set_handler h). unfold set_handler, modify, abstract, set_waits. cbn.
    destruct (m_handler (timer c)) eqn:Eh; cbn; by rewrite ?Eh.
  - left. by apply tick_ok.
  - destruct Hc. by apply dispatch_ok.
  - destruct Hc. left. by apply other_wait_ok.
  - destruct Hc. left. by apply other_call_ok.
Qed.

Lemma good_make n (h : option H) : good (client_make n h).
Proof.
  split; [exists ∅; by rewrite (view_implements _ _ _ implements_make); apply implements_make|].
  split; [apply NoDup_nil_2|by intros a ?%not_elem_of_nil|by intros a x ?%not_elem_of_nil| |done].
  intros a Ha. split_and!; [apply not_elem_of_nil|done|by intros []].
Qed.

Lemma client_runs c c' : rtc (client_step p) c c' → good c → good c' ∧ steps timer_step (abstract p c) (abstract p c').
Proof.
  induction 1 as [c|c1 c2 c3 [cc c c' Hcc E] _ IH]; intros G; [split; [done|constructor]|].
  destruct (perform_client_ok cc c G Hcc) as [(d & E' & G' & S)|[[E' _]|[E' _]]]; rewrite E in E'; try done.
  injection E' as <-. destruct (IH G') as [G3 S3]. split; [done|]. by eapply steps_app.
Qed.
End Simulation.

(** C25: on the timer service and the timer queue, with other timers on it that do as
    they like, whatever happens in whatever order, the repeating timer does what
    RepeatTimer says, each of its waits being armed while it is queued and
    due or aborted once it has completed; and every call gets through unless the handler is
    null or a period in milliseconds does not fit the clock. *)
Theorem repeat_timer_on_service {H} p n (h : option H) c :
  rtc (client_step p) (client_make n h) c →
  steps timer_step (RepeatTimer_make n h) (abstract p c) ∧
  ∀ cc, client_call_ok p cc c → (∃ c', perform_client p cc c = Ok (tt, c')) ∨ call_faults p cc c.
Proof.
  intros Hr. destruct (client_runs p _ _ Hr (good_make p n h)) as [G S]. split; [exact S|].
  intros cc Hcc. destruct (perform_client_ok p cc c G Hcc) as [(c' & E & _)|F]; [left; by exists c'|by right].
Qed.

(** The timer is started twice; another timer waits as well. *)
Definition client_demo : list (@client_call nat) :=
  [Start 0; OtherCall (ExpiresFromNow 0 2 500); OtherWait 0 2 0; Start 1000; Tick 12000000; Dispatch 12000000 0; Dispatch 12000000 1].

Fixpoint perform_clients (ccs : list (@client_call nat)) : M client unit :=
  match ccs with [] => mret tt | cc :: ccs => perform_client 1 cc;; perform_clients ccs end.

Definition demo_end : result (@client nat) :=
  match perform_clients client_demo (client_make 10 (Some 7%nat)) with Ok (_, c) => Ok c | Fault f => Fault f end.

(** Every call of a list is all right where it is made. *)
Fixpoint demo_calls_ok (ccs : list (@client_call nat)) (c : client) : Prop :=
  match ccs with
  | [] => True
  | cc :: ccs => client_call_ok 1 cc c ∧ ∀ c', perform_client 1 cc c = Ok (tt, c') → demo_calls_ok ccs c'
  end.

Lemma client_demo_runs ccs c c' : perform_clients ccs c = Ok (tt, c') → demo_calls_ok ccs c → rtc (client_step 1) c c'.
Proof.
  revert c. induction ccs as [|cc ccs IH]; intros c E Hok; [injection E as <-; constructor|].
  apply bind_inv in E as ([] & c1 & E1 & E2). destruct Hok as [Hcc Hok]. eapply rtc_l; [by apply (client_does 1 cc)|].
  apply IH; [done|]. by apply Hok.
Qed.

Lemma repeat_timer_on_service_witness :
  ∃ c, demo_end = Ok c ∧ steps timer_step (RepeatTimer_make 10 (Some 7%nat)) (abstract 1 c) ∧
    t_waits (abstract 1 c) = [mkWait 10 Armed] ∧ t_calls (abstract 1 c) = [7%nat].
Proof.
  eexists. split; [vm_compute; reflexivity|]. split; [|by vm_compute].
  refine (proj1 (repeat_timer_on_service 1 10 (Some 7%nat) _ _)).
  apply (client_demo_runs client_demo); [vm_compute; reflexivity|]. unfold client_demo. cbn [demo_calls_ok].
  repeat (split; [vm_compute; intuition (done || lia)|intros ? E; vm_compute in E; injection E as <-]). done.
Defined.
