(* ===== verification/SocketOps.v ===== *)
(** * Operations on sockets (asio/detail/impl/socket_ops.ipp and the reactor's operations)

    What a reactor operation does when its socket may be ready: one system call that
    does not block, repeated while a signal interrupts it (reactive_socket_recv_op.hpp,
    reactive_socket_send_op.hpp, reactive_socket_accept_op.hpp,
    reactive_socket_connect_op.hpp).  The operating system is a parameter: the class
    [Kernel] has its calls on one socket, [EdgeTriggered] what is documented of them. *)

From Stdlib Require Import ZArith Lia Strings.Byte.
From stdpp Require Import base list numbers.
From S2P Require Import Prelude.

#[local] Open Scope Z_scope.

(** ** Errors *)

(** [error_code]s of the system category, 0 being none, and two of [error::misc_errors]. *)
Inductive asio_error := system_error (e : Z) | eof | already_open.

Definition no_error : asio_error := system_error 0.

Definition interrupted : Z := 4.
Definition try_again : Z := 11.   (** [would_block] has the same number *)
Definition bad_descriptor : Z := 9.
Definition op_not_permitted : Z := 1.
Definition op_protocol : Z := 71.
Definition operation_not_supported : Z := 95.
Definition connection_aborted : Z := 103.
Definition operation_canceled : Z := 125.

(** ** The operating system *)

(** A system call's result or its [errno]. *)
Inductive sys (A : Type) := SysOk (a : A) | SysErr (e : Z).
Arguments SysOk {A} a.
Arguments SysErr {A} e.

(** The calls on one socket and on the epoll descriptor about it; [K] is the state of
    the operating system.  [interrupts] bounds how often in a row a signal arrives. *)
Class Kernel (K : Type) := {
  sys_recv : Z → K → sys (list byte) * K;
  sys_send : list byte → K → sys Z * K;
  sys_accept : K → sys Z * K;
  sys_poll_out : K → Z;
  sys_so_error : K → sys Z * K;
  epoll_add : Z → K → sys unit * K;
  epoll_mod : Z → K → sys unit * K;
  epoll_del : K → K;
  epoll_events : K → Z * K;
  interrupts : K → nat
}.

Definition EPOLLIN : Z := 0x1.
Definition EPOLLPRI : Z := 0x2.
Definition EPOLLOUT : Z := 0x4.
Definition EPOLLERR : Z := 0x8.
Definition EPOLLHUP : Z := 0x10.
Definition EPOLLET : Z := 2 ^ 31.

(** The types of operations: [write_op] is also [connect_op]. *)
Definition read_op : nat := 0.
Definition write_op : nat := 1.
Definition except_op : nat := 2.
Definition max_ops : nat := 3.

(** [flag[j]] *)
Definition flag (j : nat) : Z := match j with 0%nat => EPOLLIN | 1%nat => EPOLLOUT | _ => EPOLLPRI end.

(** [events & (flag[j] | EPOLLERR | EPOLLHUP)] *)
Definition covers (events : Z) (j : nat) : bool := negb (Z.land events (Z.lor (flag j) (Z.lor EPOLLERR EPOLLHUP)) =? 0).

(** ** Operations *)

(** What [perform] reports. *)
Inductive status := not_done | done | done_and_exhausted.

Inductive kind :=
  | Recv (size : Z)
  | Send (data : list byte)
  | Accept
  | Connect.

(** [state_] is a set of the socket's flags; [op_data] is what has been put in the
    buffer of a receive operation. *)
Record reactor_op := mkOp {
  op_id : nat;
  op_kind : kind;
  state_ : Z;
  cancellation_key_ : Z;
  ec_ : asio_error;
  bytes_transferred_ : Z;
  op_data : list byte;
  new_socket_ : option Z
}.

Definition new_op (id : nat) (k : kind) (state key : Z) : reactor_op := mkOp id k state key no_error 0 [] None.

Definition set_ec (e : asio_error) (o : reactor_op) : reactor_op :=
  mkOp (op_id o) (op_kind o) (state_ o) (cancellation_key_ o) e (bytes_transferred_ o) (op_data o) (new_socket_ o).
Definition set_bytes (n : Z) (data : list byte) (o : reactor_op) : reactor_op :=
  mkOp (op_id o) (op_kind o) (state_ o) (cancellation_key_ o) (ec_ o) n data (new_socket_ o).
Definition set_new_socket (s : option Z) (o : reactor_op) : reactor_op :=
  mkOp (op_id o) (op_kind o) (state_ o) (cancellation_key_ o) (ec_ o) (bytes_transferred_ o) (op_data o) s.

Definition enable_connection_aborted (state : Z) : bool := Z.testbit state 2.
Definition stream_oriented (state : Z) : bool := Z.testbit state 4.

Section Perform.
Context {K : Type} `{Kernel K}.

Definition syscall {A} (f : K → A * K) : M K A := λ k, Ok (f k).

(** The number of turns is bounded by [interrupts]. *)
Fixpoint non_blocking_recv1 (fuel : nat) (size : Z) (is_stream : bool) (o : reactor_op) : M K (bool * reactor_op) :=
  match fuel with
  | O => raise OutOfFuel
  | S fuel =>
      bytes ← syscall (sys_recv size);
      match bytes with
      | SysOk data =>
          if is_stream && (zlen data =? 0) then mret (true, set_ec eof o)
          else mret (true, set_bytes (zlen data) data (set_ec no_error o))
      | SysErr e =>
          if e =? interrupted then non_blocking_recv1 fuel size is_stream (set_ec (system_error e) o)
          else if e =? try_again then mret (false, set_ec (system_error e) o)
          else mret (true, set_bytes 0 (op_data o) (set_ec (system_error e) o))
      end
  end.

Fixpoint non_blocking_send1 (fuel : nat) (data : list byte) (o : reactor_op) : M K (bool * reactor_op) :=
  match fuel with
  | O => raise OutOfFuel
  | S fuel =>
      bytes ← syscall (sys_send data);
      match bytes with
      | SysOk n => mret (true, set_bytes n (op_data o) (set_ec no_error o))
      | SysErr e =>
          if e =? interrupted then non_blocking_send1 fuel data (set_ec (system_error e) o)
          else if e =? try_again then mret (false, set_ec (system_error e) o)
          else mret (true, set_bytes 0 (op_data o) (set_ec (system_error e) o))
      end
  end.

(** A connection that was aborted before it was accepted is passed over, unless it is asked for. *)
Fixpoint non_blocking_accept (fuel : nat) (state : Z) (o : reactor_op) : M K (bool * reactor_op) :=
  match fuel with
  | O => raise OutOfFuel
  | S fuel =>
      new_socket ← syscall sys_accept;
      match new_socket with
      | SysOk s => mret (true, set_new_socket (Some s) (set_ec no_error o))
      | SysErr e =>
          let o := set_new_socket None (set_ec (system_error e) o) in
          if e =? interrupted then non_blocking_accept fuel state o
          else if e =? try_again then mret (false, o)
          else if e =? connection_aborted then mret (enable_connection_aborted state, o)
          else if e =? op_protocol then mret (enable_connection_aborted state, o)
          else mret (true, o)
      end
  end.

Definition non_blocking_connect (o : reactor_op) : M K (bool * reactor_op) :=
  ready ← gets sys_poll_out;
  if ready =? 0 then mret (false, o)
  else
    connect_error ← syscall sys_so_error;
    match connect_error with
    | SysOk e => mret (true, set_ec (system_error e) o)
    | SysErr e => mret (true, set_ec (system_error e) o)
    end.

(** [do_perform] of the four kinds of operations. *)
Definition do_perform (o : reactor_op) : M K (status * reactor_op) :=
  fuel ← gets (λ k, S (interrupts k));
  match op_kind o with
  | Recv size =>
      r ← non_blocking_recv1 fuel size (stream_oriented (state_ o)) o;
      mret (if negb r.1 then not_done
            else if stream_oriented (state_ o) && (bytes_transferred_ r.2 =? 0) then done_and_exhausted
            else done, r.2)
  | Send data =>
      r ← non_blocking_send1 fuel data o;
      mret (if negb r.1 then not_done
            else if stream_oriented (state_ o) && (bytes_transferred_ r.2 <? zlen data) then done_and_exhausted
            else done, r.2)
  | Accept => r ← non_blocking_accept fuel (state_ o) o; mret (if negb r.1 then not_done else done, r.2)
  | Connect => r ← non_blocking_connect o; mret (if negb r.1 then not_done else done, r.2)
  end.

End Perform.

(** ** What is documented of the calls

    The socket has [news] for a type of operation when one would get something it has
    not been told yet: data, room, a connection, or the end of the stream or an error for
    the first time.  [told] is whether epoll is about to report the socket, [watched] what it
    has been asked to watch.  An edge is reported once, so a call that finds nothing more ends the
    news, and news that begin while they are watched are told. *)
Class EdgeTriggered (K : Type) `{Kernel K} := {
  news : nat → K → bool;
  told : K → bool;
  watched : K → Z;
  received : K → list byte;
  sent : K → list byte;
  happens : K → K → Prop
}.

Definition watches (mask : Z) (j : nat) : bool := negb (Z.land mask (flag j) =? 0).

Section Laws.
Context (K : Type) `{EdgeTriggered K}.

(** No news begin, and what epoll has to report stays. *)
Record calm (k k' : K) : Prop := {
  calm_news : ∀ j, news j k' = true → news j k = true;
  calm_told : told k = true → told k' = true;
  calm_watched : watched k' = watched k
}.

Definition traffic (k k' : K) (got put : list byte) : Prop := received k' = received k ++ got ∧ sent k' = sent k ++ put.

Class KernelLaws : Prop := {
  recv_law size k : 0 < size →
    let '(r, k') := sys_recv size k in
    calm k k' ∧ traffic k k' (match r with SysOk data => data | SysErr _ => [] end) [] ∧
    match r with
    | SysOk data => data = [] → news read_op k' = false
    | SysErr e => if e =? interrupted then (interrupts k' < interrupts k)%nat else news read_op k' = false
    end;
  send_law data k :
    let '(r, k') := sys_send data k in
    calm k k' ∧ traffic k k' [] (match r with SysOk n => ztake n data | SysErr _ => [] end) ∧
    match r with
    | SysOk n => 0 ≤ n ≤ zlen data ∧ (n < zlen data → news write_op k' = false)
    | SysErr e => if e =? interrupted then (interrupts k' < interrupts k)%nat else news write_op k' = false
    end;
  accept_law k :
    let '(r, k') := sys_accept k in
    calm k k' ∧ traffic k k' [] [] ∧
    match r with
    | SysOk _ => True
    | SysErr e => if e =? interrupted then (interrupts k' < interrupts k)%nat else e = try_again → news read_op k' = false
    end;
  poll_law k : sys_poll_out k = 0 → news write_op k = false;
  so_error_law k : let '(_, k') := sys_so_error k in calm k k' ∧ traffic k k' [] [];
  ctl_law mask k : ∀ call, call = epoll_add ∨ call = epoll_mod →
    let '(r, k') := call mask k in
    traffic k k' [] [] ∧
    match r with
    | SysOk _ => (∀ j, news j k' = true → news j k = true) ∧ (told k = true → told k' = true) ∧ watched k' = mask ∧
        ∀ j, watches mask j = true → news j k' = true → told k' = true
    | SysErr e => calm k k' ∧ e ≠ 0
    end;
  del_law k : traffic k (epoll_del k) [] [];
  events_law k :
    let '(events, k') := epoll_events k in
    traffic k k' [] [] ∧ (∀ j, news j k' = true → news j k = true) ∧ watched k' = watched k ∧
    ∀ j, (j < max_ops)%nat → told k = true → news j k = true → watches (watched k) j = true → covers events j = true;
  happens_law k k' : happens k k' →
    traffic k k' [] [] ∧ watched k' = watched k ∧ (told k = true → told k' = true) ∧
    ∀ j, watches (watched k) j = true → news j k' = true → news j k = true ∨ told k' = true
}.
End Laws.

(** ** What an operation does *)

(** The type of the queue the operation waits in. *)
Definition type_of (k : kind) : nat := match k with Recv _ | Accept => read_op | Send _ | Connect => write_op end.

(** Nothing has been transferred yet. *)
Definition fresh (o : reactor_op) : Prop := op_data o = [] ∧ bytes_transferred_ o = 0.

(** The bytes of the operation that have been sent. *)
Definition sent_by (o : reactor_op) : list byte := match op_kind o with Send data => ztake (bytes_transferred_ o) data | _ => [] end.

Section Performing.
Context {K : Type} `{EdgeTriggered K} {laws : KernelLaws K}.

(** A receive operation has room, and an accept operation is not stopped by an
    aborted connection, which may be followed by others (see [aborted_accept_stalls]). *)
Definition op_ok (o : reactor_op) : Prop :=
  match op_kind o with
  | Recv size => 0 < size
  | Accept => enable_connection_aborted (state_ o) = true ∨
      ∀ k : K, (sys_accept k).1 ≠ SysErr connection_aborted ∧ (sys_accept k).1 ≠ SysErr op_protocol
  | Send _ | Connect => True
  end.

(** What the rest of the loop may change of an operation. *)
Record same_op (o o' : reactor_op) : Prop := {
  same_id : op_id o' = op_id o;
  same_kind : op_kind o' = op_kind o;
  same_state : state_ o' = state_ o;
  same_key : cancellation_key_ o' = cancellation_key_ o
}.

Lemma calm_refl (k : K) : calm K k k.
Proof. by split. Qed.

Lemma calm_trans (k1 k2 k3 : K) : calm K k1 k2 → calm K k2 k3 → calm K k1 k3.
Proof. intros [A1 B1 C1] [A2 B2 C2]. split; [by auto|by auto|congruence]. Qed.

Lemma traffic_nil (k1 k2 k3 : K) got put : traffic K k1 k2 [] [] → traffic K k2 k3 got put → traffic K k1 k3 got put.
Proof. intros [A1 B1] [A2 B2]. rewrite app_nil_r in *. split; congruence. Qed.

Definition performs (o : reactor_op) (k : K) (r : bool * reactor_op) (k' : K) : Prop :=
  calm K k k' ∧ traffic K k k' (op_data r.2) (sent_by r.2) ∧ same_op o r.2 ∧ (r.1 = false → fresh r.2).

(** An interrupted call, and then the rest. *)
Lemma performs_after o e k1 k2 r k3 :
  calm K k1 k2 → traffic K k1 k2 [] [] → performs (set_ec (system_error e) o) k2 r k3 → performs o k1 r k3.
Proof.
  intros C T (C' & T' & [S1 S2 S3 S4] & F). split_and!; [by eapply calm_trans|by eapply traffic_nil|by split|done].
Qed.

Lemma syscall_ok {A} (f : K → A * K) k a k' : f k = (a, k') → syscall f k = Ok (a, k').
Proof. intros E. unfold syscall. by rewrite E. Qed.

Lemma recv_performs fuel size o k :
  (interrupts k < fuel)%nat → 0 < size → fresh o → op_kind o = Recv size →
  ∃ r k', non_blocking_recv1 fuel size (stream_oriented (state_ o)) o k = Ok (r, k') ∧ performs o k r k' ∧
    (r.1 = false ∨ bytes_transferred_ r.2 = 0 → news read_op k' = false).
Proof.
  revert o k. induction fuel as [|fuel IH]; intros o k Hf Hs Ho Hk; [lia|]. cbn [non_blocking_recv1].
  pose proof (recv_law K size k Hs) as L. destruct (sys_recv size k) as [[data|e] k1] eqn:E; destruct L as (C & T & L);
    erewrite bind_ok by (apply syscall_ok; exact E); cbn beta iota.
  - destruct (stream_oriented (state_ o) && (zlen data =? 0)) eqn:Ez.
    + apply andb_true_iff in Ez as [_ Ez%Z.eqb_eq]. apply zlen_0_inv in Ez as ->. do 2 eexists. split; [reflexivity|].
      destruct Ho as [Hd Hb]. split; [|intros _; by apply L]. unfold performs, sent_by, fresh. cbn. rewrite Hk, Hd. by split_and!.
    + do 2 eexists. split; [reflexivity|]. split.
      * unfold performs, sent_by, fresh. cbn. rewrite Hk. by split_and!.
      * intros [[=]|Hz]. apply L. by apply zlen_0_inv.
  - destruct (e =? interrupted).
    + destruct (IH (set_ec (system_error e) o) k1) as (r & k2 & E2 & P & N); [lia|done|done|done|]. exists r, k2. split_and!; [exact E2| |done].
      by apply (performs_after o e k k1).
    + destruct Ho as [Hd Hb]. destruct (e =? try_again); (do 2 eexists; split; [reflexivity|]); (split; [|done]);
        unfold performs, sent_by, fresh; cbn; rewrite Hk, Hd; by split_and!.
Qed.

Lemma send_performs fuel data o k :
  (interrupts k < fuel)%nat → fresh o → op_kind o = Send data →
  ∃ r k', non_blocking_send1 fuel data o k = Ok (r, k') ∧ performs o k r k' ∧
    (r.1 = false ∨ bytes_transferred_ r.2 < zlen data → news write_op k' = false).
Proof.
  revert o k. induction fuel as [|fuel IH]; intros o k Hf Ho Hk; [lia|]. cbn [non_blocking_send1].
  pose proof (send_law K data k) as L. destruct (sys_send data k) as [[n|e] k1] eqn:E; destruct L as (C & T & L);
    erewrite bind_ok by (apply syscall_ok; exact E); cbn beta iota.
  - destruct L as [Hn L]. destruct Ho as [Hd Hb]. do 2 eexists. split; [reflexivity|]. split.
    + unfold performs, sent_by, fresh. cbn. rewrite Hk, Hd. by split_and!.
    + intros [[=]|Hz]. by apply L.
  - destruct (e =? interrupted).
    + destruct (IH (set_ec (system_error e) o) k1) as (r & k2 & E2 & P & N); [lia|done|done|]. exists r, k2. split_and!; [exact E2| |done].
      by apply (performs_after o e k k1).
    + destruct Ho as [Hd Hb]. destruct (e =? try_again); (do 2 eexists; split; [reflexivity|]); (split; [|done]);
        unfold performs, sent_by, fresh; cbn; rewrite Hk, Hd, ?Hb, ?ztake_0; by split_and!.
Qed.

Lemma accept_performs fuel o k :
  (interrupts k < fuel)%nat → fresh o → op_kind o = Accept → op_ok o →
  ∃ r k', non_blocking_accept fuel (state_ o) o k = Ok (r, k') ∧ performs o k r k' ∧ (r.1 = false → news read_op k' = false).
Proof.
  revert o k. induction fuel as [|fuel IH]; intros o k Hf Ho Hk Hok; [lia|]. cbn [non_blocking_accept].
  pose proof (accept_law K k) as L. destruct (sys_accept k) as [[s|e] k1] eqn:E; destruct L as (C & T & L);
    erewrite bind_ok by (apply syscall_ok; exact E); cbn beta iota.
  - destruct Ho as [Hd Hb]. do 2 eexists. split; [reflexivity|]. split; [|done]. unfold performs, sent_by, fresh. cbn. rewrite Hk, Hd. by split_and!.
  - unfold op_ok in Hok. rewrite Hk in Hok.
    assert (Hab : e = connection_aborted ∨ e = op_protocol → enable_connection_aborted (state_ o) = true).
    { intros He. destruct Hok as [|Hok]; [done|]. specialize (Hok k). rewrite E in Hok. cbn in Hok. destruct He as [-> | ->]; by destruct Hok. }
    destruct (e =? interrupted).
    + set (o' := set_new_socket None (set_ec (system_error e) o)).
      destruct (IH o' k1) as (r & k2 & E2 & P & N); [lia|done|done| |].
      { unfold op_ok. cbn. by rewrite Hk. }
      exists r, k2. split_and!; [exact E2| |done]. destruct P as (C' & T' & [S1 S2 S3 S4] & F).
      split_and!; [by eapply calm_trans|by eapply traffic_nil|by split|done].
    + destruct Ho as [Hd Hb].
      assert (P : ∀ b, performs o k (b, set_new_socket None (set_ec (system_error e) o)) k1)
        by (intros b; unfold performs, sent_by, fresh; cbn; rewrite Hk, Hd; by split_and!).
      destruct (Z.eqb_spec e try_again) as [->|He]; [do 2 eexists; split; [reflexivity|]; split; [apply P|by intros _; apply L]|].
      destruct (Z.eqb_spec e connection_aborted) as [->|Hc]; [rewrite Hab by (by left); do 2 eexists; split; [reflexivity|]; by split|].
      destruct (Z.eqb_spec e op_protocol) as [->|Hp]; [rewrite Hab by (by right)|]; do 2 eexists; (split; [reflexivity|]); by split.
Qed.

Lemma connect_performs o k :
  fresh o → op_kind o = Connect →
  ∃ r k', non_blocking_connect o k = Ok (r, k') ∧ performs o k r k' ∧ (r.1 = false → news write_op k' = false).
Proof.
  intros [Hd Hb] Hk. unfold non_blocking_connect. erewrite bind_ok by reflexivity. destruct (Z.eqb_spec (sys_poll_out k) 0) as [Hz|Hz].
  - exists (false, o), k. split; [done|]. split; [|intros _; by apply (poll_law K)]. unfold performs, sent_by, fresh. cbn. rewrite Hk, Hd.
    split_and!; try done. split; by rewrite app_nil_r.
  - pose proof (so_error_law K k) as L. destruct (sys_so_error k) as [[e|e] k1] eqn:E; destruct L as [C T];
      erewrite bind_ok by (apply syscall_ok; exact E); do 2 eexists; (split; [reflexivity|]); (split; [|done]);
      unfold performs, sent_by, fresh; cbn; rewrite Hk, Hd; by split_and!.
Qed.

Lemma performs_status o k b o' k' (exhausted : bool) j :
  performs o k (b, o') k' → (b = false ∨ exhausted = true → news j k' = false) →
  let st := if negb b then not_done else if exhausted then done_and_exhausted else done in
  calm K k k' ∧ traffic K k k' (op_data o') (sent_by o') ∧ same_op o o' ∧ (st = not_done → fresh o') ∧ (st ≠ done → news j k' = false).
Proof.
  intros (C & T & S & F) N. cbn [fst snd] in *. destruct b, exhausted; cbn; split_and!; try done; auto.
Qed.

(** An operation is performed in one go; what it has transferred is what the socket
    has passed on, and when it is not done, or done and exhausted, there are no news left for it. *)
Lemma do_perform_ok o k :
  op_ok o → fresh o →
  ∃ st o' k', do_perform o k = Ok ((st, o'), k') ∧ calm K k k' ∧ traffic K k k' (op_data o') (sent_by o') ∧ same_op o o' ∧
    (st = not_done → fresh o') ∧ (st ≠ done → news (type_of (op_kind o)) k' = false).
Proof.
  intros Hok Ho. unfold do_perform. erewrite bind_ok by reflexivity. pose proof (Nat.lt_succ_diag_r (interrupts k)) as Hf.
  destruct (op_kind o) as [size|data| |] eqn:Hk.
  - unfold op_ok in Hok. rewrite Hk in Hok. destruct (recv_performs _ size o k Hf Hok Ho Hk) as ([b o'] & k' & E & P & N).
    erewrite bind_ok by exact E. cbn [fst snd] in *. do 3 eexists. split; [reflexivity|].
    apply performs_status; [done|]. intros [Hb|[_ Hz%Z.eqb_eq]%andb_true_iff]; apply N; [by left|by right].
  - destruct (send_performs _ data o k Hf Ho Hk) as ([b o'] & k' & E & P & N).
    erewrite bind_ok by exact E. cbn [fst snd] in *. do 3 eexists. split; [reflexivity|].
    apply performs_status; [done|]. intros [Hb|[_ Hz%Z.ltb_lt]%andb_true_iff]; apply N; [by left|by right].
  - destruct (accept_performs _ o k Hf Ho Hk Hok) as ([b o'] & k' & E & P & N).
    erewrite bind_ok by exact E. cbn [fst snd] in *. do 3 eexists. split; [reflexivity|].
    apply (performs_status o k b o' k' false); [done|]. intros [Hb|[=]]. by apply N.
  - destruct (connect_performs o k Ho Hk) as ([b o'] & k' & E & P & N).
    erewrite bind_ok by exact E. cbn [fst snd] in *. do 3 eexists. split; [reflexivity|].
    apply (performs_status o k b o' k' false); [done|]. intros [Hb|[=]]. by apply N.
Qed.
End Performing.
