(* ===== verification/StreamSocket.v ===== *)
(** * A stream socket, and a listening one

    Two concrete operating systems for one socket each: a connected stream socket,
    which has everything that the class [KernelLaws] asks for, and a listening socket with the
    results [accept] is going to have. *)

From Stdlib Require Import ZArith Lia Strings.Byte.
From stdpp Require Import base list numbers.
From S2P Require Import Prelude.
From S2P Require Import SocketOps.

#[local] Open Scope Z_scope.

(** ** A connected socket *)

(** [rx] has arrived and [room] bytes may be sent; [fin] is the end of the stream, [fin_read] whether
    a read has returned it; [signals] interrupt that many calls. *)
Record sock := mkSock {
  rx : list byte;
  fin : bool;
  fin_read : bool;
  room : nat;
  signals : nat;
  tx : list byte;
  got : list byte;
  edge : bool;
  mask : Z
}.

Definition readable (s : sock) : bool := negb (zlen (rx s) =? 0) || (fin s && negb (fin_read s)).
Definition writable (s : sock) : bool := negb (room s =? 0)%nat.

(** The mask of epoll only; an edge for what it includes. *)
Definition arm (m : Z) (s : sock) : sock :=
  mkSock (rx s) (fin s) (fin_read s) (room s) (signals s) (tx s) (got s)
    (edge s || (watches m read_op && readable s) || (watches m write_op && writable s)) m.

Definition sock_interrupted (s : sock) : sock :=
  mkSock (rx s) (fin s) (fin_read s) (room s) (pred (signals s)) (tx s) (got s) (edge s) (mask s).

Definition sock_recv (size : Z) (s : sock) : sys (list byte) * sock :=
  if negb (signals s =? 0)%nat then (SysErr interrupted, sock_interrupted s)
  else if negb (zlen (rx s) =? 0) then
    let data := ztake size (rx s) in
    (SysOk data, mkSock (zdrop size (rx s)) (fin s) (fin_read s) (room s) (signals s) (tx s) (got s ++ data) (edge s) (mask s))
  else if fin s then (SysOk [], mkSock [] true true (room s) (signals s) (tx s) (got s) (edge s) (mask s))
  else (SysErr try_again, s).

Definition sock_send (data : list byte) (s : sock) : sys Z * sock :=
  if negb (signals s =? 0)%nat then (SysErr interrupted, sock_interrupted s)
  else if (room s =? 0)%nat then (SysErr try_again, s)
  else
    let n := Nat.min (room s) (length data) in
    (SysOk (Z.of_nat n), mkSock (rx s) (fin s) (fin_read s) (room s - n) (signals s) (tx s ++ take n data) (got s) (edge s) (mask s)).

Definition invalid_argument : Z := 22.

Definition sock_events (s : sock) : Z * sock :=
  let events := Z.lor (if readable s then EPOLLIN else 0) (if writable s then EPOLLOUT else 0) in
  (if edge s then Z.land events (mask s) else 0,
   mkSock (rx s) (fin s) (fin_read s) (room s) (signals s) (tx s) (got s) false (mask s)).

#[global] Instance sock_kernel : Kernel sock := {
  sys_recv := sock_recv;
  sys_send := sock_send;
  sys_accept s := (SysErr invalid_argument, s);
  sys_poll_out s := if writable s then 1 else 0;
  sys_so_error s := (SysOk 0, s);
  epoll_add m s := (SysOk tt, arm m s);
  epoll_mod m s := (SysOk tt, arm m s);
  epoll_del s := mkSock (rx s) (fin s) (fin_read s) (room s) (signals s) (tx s) (got s) false 0;
  epoll_events := sock_events;
  interrupts := signals
}.

(** What the network and signals do. *)
Definition arrive (data : list byte) (s : sock) : sock :=
  mkSock (rx s ++ data) (fin s) (fin_read s) (room s) (signals s) (tx s) (got s) (edge s || watches (mask s) read_op) (mask s).
Definition peer_ends (s : sock) : sock :=
  mkSock (rx s) true (fin_read s) (room s) (signals s) (tx s) (got s) (edge s || watches (mask s) read_op) (mask s).
Definition acknowledge (n : nat) (s : sock) : sock :=
  mkSock (rx s) (fin s) (fin_read s) (room s + n) (signals s) (tx s) (got s) (edge s || watches (mask s) write_op) (mask s).
Definition signal (s : sock) : sock :=
  mkSock (rx s) (fin s) (fin_read s) (room s) (S (signals s)) (tx s) (got s) (edge s) (mask s).

Inductive sock_happens (s : sock) : sock → Prop :=
  | data_arrives data : sock_happens s (arrive data s)
  | stream_ends : sock_happens s (peer_ends s)
  | room_again n : sock_happens s (acknowledge n s)
  | signal_arrives : sock_happens s (signal s).

#[global] Instance sock_edges : EdgeTriggered sock := {
  news j s := match j with 0%nat => readable s | 1%nat => writable s | _ => false end;
  told := edge;
  watched := mask;
  received := got;
  sent := tx;
  happens := sock_happens
}.

(** ** It is as documented *)

Lemma calm_interrupted s : calm sock s (sock_interrupted s).
Proof. by split. Qed.

Lemma traffic_interrupted s : traffic sock s (sock_interrupted s) [] [].
Proof. split; by rewrite app_nil_r. Qed.

Lemma readable_after size s rest :
  readable (mkSock (zdrop size (rx s)) (fin s) (fin_read s) (room s) (signals s) (tx s) rest (edge s) (mask s)) = true →
  zlen (rx s) ≠ 0 → readable s = true.
Proof. intros _ Hz. unfold readable. by destruct (Z.eqb_spec (zlen (rx s)) 0). Qed.

Lemma sock_recv_law size (s : sock) : 0 < size →
  let '(r, s') := sock_recv size s in
  calm sock s s' ∧ traffic sock s s' (match r with SysOk data => data | SysErr _ => [] end) [] ∧
  match r with
  | SysOk data => data = [] → readable s' = false
  | SysErr e => if e =? interrupted then (signals s' < signals s)%nat else readable s' = false
  end.
Proof.
  intros Hsize. unfold sock_recv. destruct (Nat.eqb_spec (signals s) 0) as [Hi|Hi]; cbn [negb].
  2:{ split_and!; [apply calm_interrupted|apply traffic_interrupted|cbn; lia]. }
  destruct (Z.eqb_spec (zlen (rx s)) 0) as [Hz|Hz]; cbn [negb].
  - destruct (fin s) eqn:Ef.
    + split_and!; [split; try done; intros [|[|j]]; done|split; by rewrite app_nil_r|done].
    + split_and!; [apply calm_refl|split; by rewrite app_nil_r|]. cbn. unfold readable. by rewrite Hz, Ef.
  - split_and!; [split; try done|split; [done|by rewrite app_nil_r]|].
    + intros [|[|j]] Hn; try done. by apply (readable_after size s _ Hn).
    + intros Hd. exfalso. apply Hz. assert (Hl : zlen (ztake size (rx s)) = 0) by by rewrite Hd. revert Hl. zl.
Qed.

Lemma sock_send_law data (s : sock) :
  let '(r, s') := sock_send data s in
  calm sock s s' ∧ traffic sock s s' [] (match r with SysOk n => ztake n data | SysErr _ => [] end) ∧
  match r with
  | SysOk n => 0 ≤ n ≤ zlen data ∧ (n < zlen data → writable s' = false)
  | SysErr e => if e =? interrupted then (signals s' < signals s)%nat else writable s' = false
  end.
Proof.
  unfold sock_send. destruct (Nat.eqb_spec (signals s) 0) as [Hi|Hi]; cbn [negb].
  2:{ split_and!; [apply calm_interrupted|apply traffic_interrupted|cbn; lia]. }
  destruct (Nat.eqb_spec (room s) 0) as [Hr|Hr].
  - split_and!; [apply calm_refl|split; by rewrite app_nil_r|]. cbn. unfold writable. by rewrite Hr.
  - split_and!.
    + split; try done. intros [|[|j]]; try done. intros _. cbn. unfold writable. by destruct (Nat.eqb_spec (room s) 0).
    + split; [by rewrite app_nil_r|]. cbn. f_equal. unfold ztake. by rewrite Nat2Z.id.
    + unfold zlen. lia.
    + unfold zlen. lia.
    + intros Hlt. unfold writable, zlen in *. cbn. destruct (Nat.eqb_spec (room s - Nat.min (room s) (length data)) 0); [done|lia].
Qed.

Lemma sock_arm_law m s :
  (∀ j, news j (arm m s) = true → news j s = true) ∧ (told s = true → told (arm m s) = true) ∧ watched (arm m s) = m ∧
  ∀ j, watches m j = true → news j (arm m s) = true → told (arm m s) = true.
Proof.
  assert (Ht : told (arm m s) = edge s || (watches m read_op && readable s) || (watches m write_op && writable s)) by done.
  split_and!; [by intros [|[|j]]|rewrite Ht; change (told s) with (edge s); by intros ->|done|]. rewrite Ht.
  intros [|[|j]] Hw Hn; [..|done].
  - change (readable s = true) in Hn. unfold read_op. rewrite Hw, Hn. by rewrite orb_true_r.
  - change (writable s = true) in Hn. unfold write_op. rewrite Hw, Hn. by rewrite !orb_true_r.
Qed.

Lemma covers_land (b : bool) e m j : watches m j = true → (b = true → Z.land e (flag j) = flag j) → b = true → covers (Z.land e m) j = true.
Proof.
  unfold watches, covers. intros Hm Hb ->. specialize (Hb eq_refl).
  destruct (Z.eqb_spec (Z.land (Z.land e m) (Z.lor (flag j) (Z.lor EPOLLERR EPOLLHUP))) 0) as [E|]; [exfalso|done].
  apply (f_equal (λ z, Z.land z (flag j))) in E. rewrite Z.land_0_l in E.
  replace (Z.land (Z.land (Z.land e m) (Z.lor (flag j) (Z.lor EPOLLERR EPOLLHUP))) (flag j)) with (Z.land m (Z.land e (flag j))) in E.
  - rewrite Hb in E. by rewrite E in Hm.
  - apply Z.bits_inj'. intros n Hn. rewrite !Z.land_spec, !Z.lor_spec.
    destruct (Z.testbit m n), (Z.testbit e n), (Z.testbit (flag j) n); cbn; rewrite ?andb_false_r; done.
Qed.

Lemma sock_events_law s :
  let '(events, s') := sock_events s in
  traffic sock s s' [] [] ∧ (∀ j, news j s' = true → news j s = true) ∧ watched s' = watched s ∧
  ∀ j, (j < max_ops)%nat → told s = true → news j s = true → watches (watched s) j = true → covers events j = true.
Proof.
  unfold sock_events. split_and!; [split; by rewrite app_nil_r|by intros [|[|j]]|done|].
  intros j _ He Hn Hw. cbn in He. rewrite He. apply (covers_land (news j s)); [done| |done]. intros _.
  destruct j as [|[|j]]; [..|done]; cbn in Hn; rewrite Hn.
  - by destruct (writable s).
  - by destruct (readable s).
Qed.

Lemma sock_happens_law s s' : sock_happens s s' →
  traffic sock s s' [] [] ∧ watched s' = watched s ∧ (told s = true → told s' = true) ∧
  ∀ j, watches (watched s) j = true → news j s' = true → news j s = true ∨ told s' = true.
Proof.
  change (told s) with (edge s). change (told s') with (edge s'). change (watched s) with (mask s).
  destruct 1; (split_and!; [split; by rewrite app_nil_r|done|cbn; try (by intros ->); done|]);
    intros [|[|j]] Hw Hn; try done; try (by left); right; unfold arrive, peer_ends, acknowledge, read_op, write_op; cbn [edge]; rewrite Hw;
    by rewrite orb_true_r.
Qed.

#[global] Instance sock_laws : KernelLaws sock.
Proof.
  split.
  - exact sock_recv_law.
  - exact sock_send_law.
  - intros s. cbn. split_and!; [apply calm_refl|split; by rewrite app_nil_r|done].
  - intros s. cbn. by destruct (writable s).
  - intros s. cbn. split; [apply calm_refl|split; by rewrite app_nil_r].
  - intros m s call [-> | ->]; cbn; (split; [split; by rewrite app_nil_r|apply sock_arm_law]).
  - intros s. split; by rewrite app_nil_r.
  - exact sock_events_law.
  - exact sock_happens_law.
Qed.

(** ** A listening socket *)

(** [backlog] has the results that [accept] is going to have. *)
Record listener := mkListener { backlog : list (sys Z); l_edge : bool; l_mask : Z }.

Definition listener_accept (l : listener) : sys Z * listener :=
  match backlog l with
  | r :: rest => (r, mkListener rest (l_edge l) (l_mask l))
  | [] => (SysErr try_again, l)
  end.

Definition listener_arm (m : Z) (l : listener) : listener :=
  mkListener (backlog l) (l_edge l || (watches m read_op && negb (zlen (backlog l) =? 0))) m.

#[global] Instance listener_kernel : Kernel listener := {
  sys_recv _ l := (SysErr invalid_argument, l);
  sys_send _ l := (SysErr invalid_argument, l);
  sys_accept := listener_accept;
  sys_poll_out l := 0;
  sys_so_error l := (SysOk 0, l);
  epoll_add m l := (SysOk tt, listener_arm m l);
  epoll_mod m l := (SysOk tt, listener_arm m l);
  epoll_del l := mkListener (backlog l) false 0;
  epoll_events l := (if l_edge l then EPOLLIN else 0, mkListener (backlog l) false (l_mask l));
  interrupts l := 0%nat
}.

(** A connection comes in, which [accept] gets as [r]. *)
Definition come (r : sys Z) (l : listener) : listener :=
  mkListener (backlog l ++ [r]) (l_edge l || watches (l_mask l) read_op) (l_mask l).
