(* ===== verification/Reactor.v ===== *)
(** * The reactor and a socket (asio/detail/impl/epoll_reactor.ipp)

    A registered socket with its queues of operations, the edges epoll reports for it, and
    the threads that perform operations: [start_op], [perform_io] and the cancellations
    are critical sections of the descriptor's mutex, in between the scheduler and the
    operating system do as they like.  Result: no readiness is lost, operations are
    performed in the order of their start, each once, and the bytes
    the reads get are the stream. *)

From Stdlib Require Import ZArith Lia Strings.Byte.
From stdpp Require Import base list numbers functions.
From S2P Require Import Prelude.
From S2P Require Import SocketOps.

#[local] Open Scope Z_scope.

#[global] Instance status_eq_dec : EqDecision status.
Proof. solve_decision. Defined.

(** ** State *)

(** [descriptor_state]; the mutex is the atomicity of the functions below. *)
Record descriptor_state := mkDesc {
  registered_events_ : Z;
  op_queue_ : nat → list reactor_op;
  try_speculative_ : nat → bool;
  shutdown_ : bool
}.

Section Reactor.
Context {K : Type} `{Kernel K}.

(** [descriptor_data] is whether the socket's pointer to the state is set.  The state is itself
    an operation of the scheduler: [queued_events] is its [task_result_] while it is
    in the queue, [in_flight] those that threads have taken out and not begun to perform.
    [posted] is in the scheduler's queue, [called] has completed.  [started] and
    [performed] record what has been started, and what has been done, in order. *)
Record reactor := mkReactor {
  kernel : K;
  descriptor_data : bool;
  dstate : descriptor_state;
  queued_events : option Z;
  in_flight : list Z;
  posted : list reactor_op;
  called : list reactor_op;
  outstanding_work_ : Z;
  started : list reactor_op;
  performed : list reactor_op
}.

Abbreviation MR := (M reactor).

Definition set_kernel (k : K) (r : reactor) : reactor :=
  mkReactor k (descriptor_data r) (dstate r) (queued_events r) (in_flight r) (posted r) (called r) (outstanding_work_ r) (started r) (performed r).
Definition set_present (b : bool) (r : reactor) : reactor :=
  mkReactor (kernel r) b (dstate r) (queued_events r) (in_flight r) (posted r) (called r) (outstanding_work_ r) (started r) (performed r).
Definition set_dstate (d : descriptor_state) (r : reactor) : reactor :=
  mkReactor (kernel r) (descriptor_data r) d (queued_events r) (in_flight r) (posted r) (called r) (outstanding_work_ r) (started r) (performed r).
Definition set_events (q : option Z) (l : list Z) (r : reactor) : reactor :=
  mkReactor (kernel r) (descriptor_data r) (dstate r) q l (posted r) (called r) (outstanding_work_ r) (started r) (performed r).
Definition set_posted (l : list reactor_op) (r : reactor) : reactor :=
  mkReactor (kernel r) (descriptor_data r) (dstate r) (queued_events r) (in_flight r) l (called r) (outstanding_work_ r) (started r) (performed r).
Definition add_called (o : reactor_op) (r : reactor) : reactor :=
  mkReactor (kernel r) (descriptor_data r) (dstate r) (queued_events r) (in_flight r) (posted r) (called r ++ [o]) (outstanding_work_ r) (started r) (performed r).
Definition add_work (n : Z) (r : reactor) : reactor :=
  mkReactor (kernel r) (descriptor_data r) (dstate r) (queued_events r) (in_flight r) (posted r) (called r) (outstanding_work_ r + n) (started r) (performed r).
Definition add_started (o : reactor_op) (r : reactor) : reactor :=
  mkReactor (kernel r) (descriptor_data r) (dstate r) (queued_events r) (in_flight r) (posted r) (called r) (outstanding_work_ r) (started r ++ [o]) (performed r).
Definition add_performed (o : reactor_op) (r : reactor) : reactor :=
  mkReactor (kernel r) (descriptor_data r) (dstate r) (queued_events r) (in_flight r) (posted r) (called r) (outstanding_work_ r) (started r) (performed r ++ [o]).

Definition set_registered (e : Z) (d : descriptor_state) : descriptor_state :=
  mkDesc e (op_queue_ d) (try_speculative_ d) (shutdown_ d).
Definition set_op_queue (j : nat) (l : list reactor_op) (d : descriptor_state) : descriptor_state :=
  mkDesc (registered_events_ d) (<[j := l]> (op_queue_ d)) (try_speculative_ d) (shutdown_ d).
Definition set_speculative (j : nat) (b : bool) (d : descriptor_state) : descriptor_state :=
  mkDesc (registered_events_ d) (op_queue_ d) (<[j := b]> (try_speculative_ d)) (shutdown_ d).

Definition on_state (f : descriptor_state → descriptor_state) : MR unit := modify (λ r, set_dstate (f (dstate r)) r).

Definition on_kernel {A} (m : M K A) : MR A := λ r,
  match m (kernel r) with
  | Ok (a, k) => Ok (a, set_kernel k r)
  | Fault f => Fault f
  end.

Definition is_nil {A} (l : list A) : bool := match l with [] => true | _ => false end.

(** ** Starting operations *)

Definition work_started : MR unit := modify (add_work 1).

Definition post_immediate_completion (o : reactor_op) : MR unit :=
  work_started;; modify (λ r, set_posted (posted r ++ [o]) r).

Definition post_deferred_completions (ops : list reactor_op) : MR unit := modify (λ r, set_posted (posted r ++ ops) r).

Definition fail_op (e : Z) (o : reactor_op) : MR unit := post_immediate_completion (set_ec (system_error e) o).

Definition perform (o : reactor_op) : MR (status * reactor_op) :=
  r ← on_kernel (do_perform o);
  when (bool_decide (r.1 ≠ not_done)) (modify (add_performed r.2));;
  mret r.

Definition push_op (t : nat) (o : reactor_op) : MR unit :=
  on_state (λ d, set_op_queue t (op_queue_ d t ++ [o]) d);; work_started.

(** Asks epoll for [EPOLLOUT], once; the error of [epoll_ctl] is the operation's. *)
Definition watch_output : MR (option Z) :=
  d ← gets dstate;
  if Z.land (registered_events_ d) EPOLLOUT =? 0 then
    let ev := Z.lor (registered_events_ d) EPOLLOUT in
    r ← on_kernel (syscall (epoll_mod ev));
    match r with
    | SysOk _ => on_state (λ d, set_registered (Z.lor (registered_events_ d) ev) d);; mret None
    | SysErr e => mret (Some e)
    end
  else mret None.

(** What could not be done at once waits until epoll reports the socket. *)
Definition wait_in_queue (t : nat) (o : reactor_op) : MR unit :=
  d ← gets dstate;
  if registered_events_ d =? 0 then fail_op operation_not_supported o
  else if (t =? write_op)%nat then
    e ← watch_output;
    match e with Some e => fail_op e o | None => push_op t o end
  else push_op t o.

Definition start_op (t : nat) (o : reactor_op) (allow_speculative : bool) : MR unit :=
  modify (add_started o);;
  present ← gets descriptor_data;
  if negb present then fail_op bad_descriptor o
  else
    d ← gets dstate;
    if shutdown_ d then post_immediate_completion o
    else if negb (is_nil (op_queue_ d t)) then push_op t o
    else if allow_speculative && (negb (t =? read_op)%nat || is_nil (op_queue_ d except_op)) then
      r ← (if try_speculative_ d t then perform o else mret (not_done, o));
      match r with
      | (not_done, o) => wait_in_queue t o
      | (st, o) =>
          when (bool_decide (st = done_and_exhausted) && negb (registered_events_ d =? 0)) (on_state (set_speculative t false));;
          post_immediate_completion o
      end
    else if registered_events_ d =? 0 then fail_op operation_not_supported o
    else
      when (t =? write_op)%nat (on_state (λ d, set_registered (Z.lor (registered_events_ d) EPOLLOUT) d));;
      d ← gets dstate;
      on_kernel (syscall (epoll_mod (registered_events_ d)));;
      push_op t o.

(** ** Performing them *)

(** The loop takes an operation out of the queue with every turn but the last. *)
Fixpoint perform_queue (fuel : nat) (j : nat) (ops : list reactor_op) : MR (list reactor_op) :=
  q ← gets (λ r, op_queue_ (dstate r) j);
  match fuel, q with
  | S fuel, o :: rest =>
      r ← perform o;
      match r with
      | (not_done, o) => on_state (set_op_queue j (o :: rest));; mret ops
      | (done, o) => on_state (set_op_queue j rest);; perform_queue fuel j (ops ++ [o])
      | (done_and_exhausted, o) =>
          on_state (set_op_queue j rest);; on_state (set_speculative j false);; mret (ops ++ [o])
      end
  | _, _ => mret ops
  end.

Definition perform_type (events : Z) (j : nat) (ops : list reactor_op) : MR (list reactor_op) :=
  if covers events j then
    on_state (set_speculative j true);;
    fuel ← gets (λ r, length (op_queue_ (dstate r) j));
    perform_queue fuel j ops
  else mret ops.

Definition perform_io (events : Z) : MR (option reactor_op) :=
  ops ← perform_type events 2 [];
  ops ← perform_type events 1 ops;
  ops ← perform_type events 0 ops;
  match ops with
  | first_op :: rest => post_deferred_completions rest;; mret (Some first_op)
  | [] => modify (add_work 1);; mret None   (** [compensating_work_started] *)
  end.

(** A thread that has taken the descriptor completes it ([do_complete]), and counts off
    the work of one operation. *)
Definition complete_descriptor (i : nat) : MR unit :=
  l ← gets in_flight;
  match l !! i with
  | Some events =>
      modify (λ r, set_events (queued_events r) (delete i l) r);;
      first_op ← perform_io events;
      match first_op with Some o => modify (add_called o) | None => mret tt end;;
      modify (add_work (-1))
  | None => mret tt
  end.

(** ** The other functions *)

Definition aborted (ops : list reactor_op) : list reactor_op := map (set_ec (system_error operation_canceled)) ops.

(** All operations leave their queues. *)
Definition take_all (d : descriptor_state) : list reactor_op := op_queue_ d 0 ++ op_queue_ d 1 ++ op_queue_ d 2.
Definition clear_queues (d : descriptor_state) : descriptor_state := set_op_queue 2 [] (set_op_queue 1 [] (set_op_queue 0 [] d)).

Definition cancel_ops : MR unit :=
  present ← gets descriptor_data;
  when present
    (d ← gets dstate;
     on_state clear_queues;;
     post_deferred_completions (aborted (take_all d))).

Definition with_key (key : Z) (o : reactor_op) : bool := cancellation_key_ o =? key.

Definition cancel_ops_by_key (t : nat) (key : Z) : MR unit :=
  present ← gets descriptor_data;
  when present
    (d ← gets dstate;
     on_state (set_op_queue t (List.filter (λ o, negb (with_key key o)) (op_queue_ d t)));;
     post_deferred_completions (aborted (List.filter (with_key key) (op_queue_ d t)))).

Definition deregister_descriptor (closing : bool) : MR unit :=
  present ← gets descriptor_data;
  when present
    (d ← gets dstate;
     if shutdown_ d then modify (set_present false)
     else
       when (negb closing && negb (registered_events_ d =? 0)) (modify (λ r, set_kernel (epoll_del (kernel r)) r));;
       on_state clear_queues;;
       on_state (λ d, mkDesc (registered_events_ d) (op_queue_ d) (try_speculative_ d) true);;
       post_deferred_completions (aborted (take_all d))).

Definition cleanup_descriptor_data : MR unit := modify (set_present false).

(** On a state that has no operations. *)
Definition register_descriptor : MR Z :=
  modify (set_present true);;
  let events := Z.lor EPOLLIN (Z.lor EPOLLERR (Z.lor EPOLLHUP (Z.lor EPOLLPRI EPOLLET))) in
  on_state (λ d, mkDesc events (op_queue_ d) (λ _, true) false);;
  r ← on_kernel (syscall (epoll_add events));
  match r with
  | SysOk _ => mret 0
  | SysErr e => if e =? op_not_permitted then on_state (set_registered 0);; mret 0 else mret e
  end.

(** [run] with what epoll reports for this socket.  The state may still be in the local queue. *)
Definition run : MR unit :=
  events ← on_kernel (syscall (λ k, epoll_events k));
  if events =? 0 then mret tt
  else modify (λ r, set_events (Some (match queued_events r with None => events | Some e => Z.lor e events end)) (in_flight r) r).

(** The scheduler takes the state out of its queue. *)
Definition take_descriptor : MR unit :=
  modify (λ r, match queued_events r with None => r | Some e => set_events None (in_flight r ++ [e]) r end).

(** The scheduler runs the completion at [i]. *)
Definition run_posted (i : nat) : MR unit :=
  l ← gets posted;
  match l !! i with
  | Some o => modify (set_posted (delete i l));; modify (add_called o);; modify (add_work (-1))
  | None => mret tt
  end.

End Reactor.
Arguments reactor : clear implicits.

(** ** No readiness is lost *)

Section Attention.
Context {K : Type} `{EdgeTriggered K} {laws : KernelLaws K}.
Implicit Types (r : reactor K) (j : nat) (P : nat → Prop).

(** The scheduler or one of its threads is about to perform the operations of type [j]. *)
Definition event_for r j : Prop :=
  (∃ e, queued_events r = Some e ∧ covers e j = true) ∨ (∃ e, e ∈ in_flight r ∧ covers e j = true).

Definition registered r : Z := registered_events_ (dstate r).
Definition queue r j : list reactor_op := op_queue_ (dstate r) j.

(** When an operation waits, or the next one would not be tried at once, there are no
    news of which epoll, the scheduler or a thread does not know; for the types in [P]. *)
Record attentive P r : Prop := {
  a_news : ∀ j, P j → (j < max_ops)%nat → shutdown_ (dstate r) = false →
    queue r j ≠ [] ∨ (try_speculative_ (dstate r) j = false ∧ watches (registered r) j = true) →
    news j (kernel r) = true → told (kernel r) = true ∨ event_for r j;
  a_watched : shutdown_ (dstate r) = false → registered r ≠ 0 → watched (kernel r) = registered r ∧ watches (registered r) read_op = true;
  a_queue : ∀ j, queue r j ≠ [] → (j < max_ops)%nat ∧ watches (registered r) j = true ∧ shutdown_ (dstate r) = false;
  a_ops : ∀ j o, o ∈ queue r j → fresh o ∧ op_ok (K := K) o ∧ type_of (op_kind o) = j
}.

Definition everywhere (j : nat) : Prop := True.

Lemma attentive_weaken P P' r : (∀ j, (j < max_ops)%nat → P' j → P j) → attentive P r → attentive P' r.
Proof. intros HP [A1 A2 A3 A4]. split; [intros j Hj Hlt; apply A1; auto|done..]. Qed.

(** Nothing is registered or queued anew, and where news may have been missed,
    there are none, or the next operation is tried at once. *)
Lemma attentive_after P P' r r' :
  attentive P r → calm K (kernel r) (kernel r') → queued_events r' = queued_events r → in_flight r' = in_flight r →
  registered r' = registered r → shutdown_ (dstate r') = shutdown_ (dstate r) →
  (∀ j, queue r' j ≠ [] → queue r j ≠ []) →
  (∀ j o, o ∈ queue r' j → fresh o ∧ op_ok (K := K) o ∧ type_of (op_kind o) = j) →
  (∀ j, P' j → news j (kernel r') = false ∨ (queue r' j = [] ∧ try_speculative_ (dstate r') j = true) ∨
     (P j ∧ (try_speculative_ (dstate r') j = false → try_speculative_ (dstate r) j = false))) →
  attentive P' r'.
Proof.
  intros [A1 A2 A3 A4] [C1 C2 C3] Eq Ei Er Es Hq Hops Hcase. split; [|by rewrite Es, Er, C3|by intros j Hj; rewrite Es, Er; apply A3, Hq|done].
  intros j Hj Hlt Hs Hwait Hn. destruct (Hcase j Hj) as [Hno|[[Hnil Htry]|[HP Htry]]]; [congruence|destruct Hwait as [Hw|[Hw _]]; [done|congruence]|].
  unfold event_for. rewrite Eq, Ei, Es, Er in *. destruct (A1 j HP Hlt Hs) as [Ht|He]; [|by apply C1|left; by apply C2|by right].
  destruct Hwait as [Hw|[Hw1 Hw2]]; [left; by apply Hq|right; by split; [apply Htry|]].
Qed.

Lemma op_performed_ok o r :
  op_ok (K := K) o → fresh o →
  ∃ st o' k', perform o r = Ok ((st, o'), match st with not_done => set_kernel k' r | _ => add_performed o' (set_kernel k' r) end) ∧
    calm K (kernel r) k' ∧ traffic K (kernel r) k' (op_data o') (sent_by o') ∧ same_op o o' ∧
    (st = not_done → fresh o') ∧ (st ≠ done → news (type_of (op_kind o)) k' = false).
Proof.
  intros Hok Ho. destruct (do_perform_ok o (kernel r) Hok Ho) as (st & o' & k' & E & Hs). exists st, o', k'. split; [|exact Hs].
  unfold perform. erewrite bind_ok by (unfold on_kernel; rewrite E; reflexivity). cbn [fst snd].
  by destruct st.
Qed.

Lemma op_ok_same o o' : same_op o o' → op_ok (K := K) o → op_ok (K := K) o'.
Proof. intros [_ E1 E2 _]. unfold op_ok. by rewrite E1, E2. Qed.

Lemma covers_or e1 e2 j : covers (Z.lor e1 e2) j = covers e1 j || covers e2 j.
Proof.
  unfold covers. rewrite Z.land_lor_distr_l. set (a := Z.land e1 _). set (b := Z.land e2 _).
  destruct (Z.eqb_spec (Z.lor a b) 0) as [E|E], (Z.eqb_spec a 0) as [Ea|Ea], (Z.eqb_spec b 0) as [Eb|Eb]; try done;
    try (apply Z.lor_eq_0_iff in E; tauto). subst. by rewrite Ea, Eb in E.
Qed.

Lemma watches_or e1 e2 j : watches (Z.lor e1 e2) j = watches e1 j || watches e2 j.
Proof.
  unfold watches. rewrite Z.land_lor_distr_l. set (a := Z.land e1 _). set (b := Z.land e2 _).
  destruct (Z.eqb_spec (Z.lor a b) 0) as [E|E], (Z.eqb_spec a 0) as [Ea|Ea], (Z.eqb_spec b 0) as [Eb|Eb]; try done;
    try (apply Z.lor_eq_0_iff in E; tauto). subst. by rewrite Ea, Eb in E.
Qed.

(** ** Operations are performed in order, and once *)

Definition of_type (j : nat) (l : list reactor_op) : list nat := map op_id (List.filter (λ o, type_of (op_kind o) =? j)%nat l).

(** A sum over the three queues. *)
Definition total (g : list reactor_op → Z) (d : descriptor_state) : Z := g (op_queue_ d 0%nat) + g (op_queue_ d 1%nat) + g (op_queue_ d 2%nat).

Definition by_id (f : nat → Z) (o : reactor_op) : Z := f (op_id o).

(** [ops] has been taken out of the queues and not been posted; [k0] is the system when the socket
    was registered. *)
Record accounted (k0 : K) (ops : list reactor_op) r : Prop := {
  c_order : ∀ j, of_type j (performed r) ++ map op_id (queue r j) `sublist_of` of_type j (started r);
  c_once : ∀ f, zsum (by_id f) (started r) =
    total (zsum (by_id f)) (dstate r) + zsum (by_id f) ops + zsum (by_id f) (posted r) + zsum (by_id f) (called r);
  c_work : outstanding_work_ r = total zlen (dstate r) + zlen ops + zlen (posted r);
  c_traffic : traffic K k0 (kernel r) (concat (map op_data (performed r))) (concat (map sent_by (performed r)))
}.

Lemma total_set g j l (d : descriptor_state) : (j < max_ops)%nat → total g (set_op_queue j l d) = total g d - g (op_queue_ d j) + g l.
Proof.
  unfold max_ops, total. cbn. unfold insert, fn_insert. intros Hj.
  destruct j as [|[|[|]]]; [..|lia]; repeat (case_decide; try done); lia.
Qed.

Lemma of_type_app j l1 l2 : of_type j (l1 ++ l2) = of_type j l1 ++ of_type j l2.
Proof. unfold of_type. by rewrite List.filter_app, map_app. Qed.

Lemma of_type_one j o : of_type j [o] = if decide (type_of (op_kind o) = j) then [op_id o] else [].
Proof. unfold of_type. cbn. destruct (Nat.eqb_spec (type_of (op_kind o)) j); by case_decide. Qed.

Lemma traffic_app k1 k2 k3 got put got' put' :
  traffic K k1 k2 got put → traffic K k2 k3 got' put' → traffic K k1 k3 (got ++ got') (put ++ put').
Proof. intros [A1 B1] [A2 B2]. split; rewrite ?app_assoc; congruence. Qed.

Lemma sent_by_fresh o : fresh o → sent_by o = [].
Proof. intros [_ Hb]. unfold sent_by. destruct (op_kind o); try done. by rewrite Hb, ztake_0. Qed.

Lemma queue_set j l r i : queue (set_dstate (set_op_queue j l (dstate r)) r) i = if decide (i = j) then l else queue r i.
Proof. unfold queue. cbn. unfold insert, fn_insert. repeat case_decide; congruence. Qed.

(** The front of a queue has been performed. *)
Lemma accounted_performed k0 ops r j o rest o' k' :
  accounted k0 ops r → (j < max_ops)%nat → queue r j = o :: rest → type_of (op_kind o) = j → same_op o o' →
  traffic K (kernel r) k' (op_data o') (sent_by o') →
  accounted k0 (ops ++ [o']) (set_dstate (set_op_queue j rest (dstate r)) (add_performed o' (set_kernel k' r))).
Proof.
  intros [C1 C2 C3 C4] Hj Hq Ht [S1 S2 S3 S4] T. split.
  - intros i. cbn [performed set_dstate add_performed set_kernel started]. rewrite of_type_app, of_type_one, S1, S2, Ht.
    specialize (C1 i). change (queue _ i) with (queue (set_dstate (set_op_queue j rest (dstate r)) r) i). rewrite queue_set.
    destruct (decide (j = i)) as [<-|Hne].
    + rewrite decide_True by done. rewrite Hq in C1. cbn in C1. by rewrite <- app_assoc.
    + by rewrite decide_False, app_nil_r by done.
  - intros f. specialize (C2 f). cbn [dstate set_dstate add_performed set_kernel started posted called].
    rewrite total_set by done. fold (queue r j). rewrite Hq.
    assert (Ef : by_id f o' = by_id f o) by (unfold by_id; by rewrite S1). zsums. lia.
  - cbn [dstate set_dstate add_performed set_kernel outstanding_work_ posted]. rewrite total_set by done. fold (queue r j). rewrite Hq. zl.
  - cbn [kernel set_dstate add_performed set_kernel performed]. rewrite !map_app, !concat_app. cbn. rewrite !app_nil_r. by eapply traffic_app.
Qed.

(** It has been tried and was not done. *)
Lemma accounted_not_done k0 ops r j o rest o' k' :
  accounted k0 ops r → (j < max_ops)%nat → queue r j = o :: rest → same_op o o' → fresh o' →
  traffic K (kernel r) k' (op_data o') (sent_by o') →
  accounted k0 ops (set_dstate (set_op_queue j (o' :: rest) (dstate r)) (set_kernel k' r)).
Proof.
  intros [C1 C2 C3 C4] Hj Hq [S1 S2 S3 S4] Hf T. rewrite (sent_by_fresh o' Hf), (proj1 Hf) in T. split.
  - intros i. specialize (C1 i). change (queue _ i) with (queue (set_dstate (set_op_queue j (o' :: rest) (dstate r)) r) i). rewrite queue_set.
    case_decide as Hi; [subst; rewrite Hq in C1; cbn in *; by rewrite S1|done].
  - intros f. specialize (C2 f). cbn [dstate set_dstate set_kernel started posted called].
    rewrite total_set by done. fold (queue r j). rewrite Hq.
    assert (Ef : by_id f o' = by_id f o) by (unfold by_id; by rewrite S1). zsums. lia.
  - cbn [dstate set_dstate set_kernel outstanding_work_ posted]. rewrite total_set by done. fold (queue r j). rewrite Hq. zl.
  - cbn [kernel set_dstate set_kernel performed]. pose proof (traffic_app _ _ _ _ _ _ _ C4 T) as T'. by rewrite !app_nil_r in T'.
Qed.

Lemma fresh_queue P r j o rest : attentive P r → queue r j = o :: rest → fresh o ∧ op_ok (K := K) o ∧ type_of (op_kind o) = j.
Proof. intros A Hq. apply (a_ops _ _ A). rewrite Hq. by left. Qed.

Lemma queue_ops P r r' j l :
  attentive P r → queue r' = queue (set_dstate (set_op_queue j l (dstate r)) r) →
  (∀ o, o ∈ l → fresh o ∧ op_ok (K := K) o ∧ type_of (op_kind o) = j) →
  ∀ i o, o ∈ queue r' i → fresh o ∧ op_ok (K := K) o ∧ type_of (op_kind o) = i.
Proof.
  intros A E Hl i o. rewrite E, queue_set. case_decide as Hi; [subst; apply Hl|]. apply (a_ops _ _ A).
Qed.

(** What performing leaves alone. *)
Definition same_events r r' : Prop := queued_events r' = queued_events r ∧ in_flight r' = in_flight r.

Record later r r' : Prop := {
  l_calm : calm K (kernel r) (kernel r');
  l_events : same_events r r';
  l_queue : ∀ j, queue r j = [] → queue r' j = []
}.

(** Nothing waits in the queue that could go on. *)
Definition drained j r : Prop := queue r j = [] ∨ news j (kernel r) = false.

Lemma later_refl r : later r r.
Proof. split; [apply calm_refl|by split|done]. Qed.

Lemma later_trans r1 r2 r3 : later r1 r2 → later r2 r3 → later r1 r3.
Proof. intros [A1 [B1 C1] D1] [A2 [B2 C2] D2]. split; [by eapply calm_trans|split; congruence|auto]. Qed.

Lemma later_drained j r r' : later r r' → drained j r → drained j r'.
Proof.
  intros [[C _ _] _ Q] [Hq|Hn]; [left; by apply Q|right]. destruct (news j (kernel r')) eqn:E; [|done]. rewrite (C j E) in Hn. done.
Qed.

(** Only the queue [j] has changed, and was not empty. *)
Lemma later_queue j r r' l :
  calm K (kernel r) (kernel r') → same_events r r' → queue r j ≠ [] →
  queue r' = queue (set_dstate (set_op_queue j l (dstate r)) r) → later r r'.
Proof.
  intros C E Hq Eq. split; [done|done|]. intros i Hi. rewrite Eq, queue_set. destruct (decide (i = j)); [congruence|done].
Qed.

Lemma attentive_performed P P' r r' j o rest st o' l :
  attentive P r → queue r j = o :: rest → same_op o o' → calm K (kernel r) (kernel r') → same_events r r' →
  registered r' = registered r → shutdown_ (dstate r') = shutdown_ (dstate r) →
  (st = not_done → fresh o') → l = (if decide (st = not_done) then o' :: rest else rest) →
  queue r' = queue (set_dstate (set_op_queue j l (dstate r)) r) →
  (∀ i, i ≠ j → try_speculative_ (dstate r') i = try_speculative_ (dstate r) i) →
  (∀ i, P' i → P i ∧ try_speculative_ (dstate r') i = try_speculative_ (dstate r) i ∨ (i ≠ j ∧ P i) ∨ news i (kernel r') = false) →
  attentive P' r'.
Proof.
  intros A Hq S C [Eq Ei] Er Es Hf El Eql Htry HP. destruct (fresh_queue P r j o rest A Hq) as (Ho & Hok & Ht).
  apply (attentive_after P _ r r' A C Eq Ei Er Es).
  - intros i. rewrite Eql, queue_set. destruct (decide (i = j)) as [->|]; [by rewrite Hq|done].
  - apply (queue_ops P r r' j l A Eql). rewrite El. pose proof (a_ops _ _ A j) as Hops. rewrite Hq in Hops.
    intros x Hx. destruct (decide (st = not_done)) as [Hst|]; [|by apply Hops; right].
    apply elem_of_cons in Hx as [->|Hx]; [|by apply Hops; right]. split_and!; [by apply Hf|by apply (op_ok_same o)|].
    by rewrite (same_kind _ _ S).
  - intros i Hi. destruct (HP i Hi) as [[Hp Et]|[[Hij Hp]|Hn]]; [right; right|right; right|by left]; split; try done.
    + by rewrite Et.
    + by rewrite Htry.
Qed.

Lemma perform_queue_ok fuel j P k0 ops r :
  (length (queue r j) ≤ fuel)%nat → (j < max_ops)%nat → try_speculative_ (dstate r) j = true →
  attentive P r → accounted k0 ops r →
  ∃ ops' r', perform_queue fuel j ops r = Ok (ops', r') ∧ attentive (λ i, P i ∨ i = j) r' ∧ accounted k0 ops' r' ∧
    later r r' ∧ drained j r'.
Proof.
  revert ops r. induction fuel as [|fuel IH]; intros ops r Hlen Hj Htry A C; cbn [perform_queue];
    erewrite bind_ok by reflexivity; fold (queue r j); destruct (queue r j) as [|o rest] eqn:Hq; [|cbn in Hlen; lia|..].
  1, 2: exists ops, r; split_and!; [done| |done|apply later_refl|by left]; apply (attentive_after P _ r r A (calm_refl _)); try done; [apply A|];
    intros i [Hi| ->]; [by right; right|by right; left].
  destruct (fresh_queue P r j o rest A Hq) as (Ho & Hok & Ht).
  destruct (op_performed_ok o r Hok Ho) as (st & o' & k' & E & Hc & T & S & Hf & N). rewrite Ht in N.
  erewrite bind_ok by exact E. destruct st; cbn beta iota in *.
  - do 2 eexists. split_and!; [reflexivity| |by apply (accounted_not_done k0 ops r j o rest); auto|by eapply later_queue; try done; rewrite Hq|right; by apply N].
    eapply (attentive_performed P _ r _ j o rest not_done o' (o' :: rest)); try done.
    intros i [Hi| ->]; [by left|right; right; by apply N].
  - set (r1 := set_dstate (set_op_queue j rest (dstate r)) (add_performed o' (set_kernel k' r))).
    assert (A1 : attentive P r1).
    { apply (attentive_performed P _ r _ j o rest done o' rest); try done. intros i Hi. by left. }
    assert (Hq1 : queue r1 j = rest) by (unfold r1, queue; cbn; by rewrite fn_lookup_insert).
    destruct (IH (ops ++ [o']) r1) as (ops' & r' & E' & A' & C' & Ev); try done.
    { rewrite Hq1. cbn in Hlen. lia. }
    { by apply (accounted_performed k0 ops r j o rest). }
    destruct Ev as [Ev Dr]. exists ops', r'. split_and!; [|done|done| |done]; [erewrite bind_ok by reflexivity; exact E'|].
    apply (later_trans r r1); [|done]. apply (later_queue j r r1 rest Hc); [done|by rewrite Hq|done].
  - do 2 eexists. split_and!; [do 2 (erewrite bind_ok by reflexivity); reflexivity| | | |right; by apply N].
    + eapply (attentive_performed P _ r _ j o rest done_and_exhausted o' rest); try done; cbn.
      * intros i Hi. by apply fn_lookup_insert_ne.
      * intros i [Hi| ->]; [|right; right; by apply N]. destruct (decide (i = j)) as [->|]; [right; right; by apply N|by right; left].
    + destruct (accounted_performed k0 ops r j o rest o' k' C Hj Hq Ht S T) as [B1 B2 B3 B4]. by split.
    + apply (later_queue j r) with (l := rest); [exact Hc|by split|by rewrite Hq|done].
Qed.

Lemma perform_type_ok events j P k0 ops r :
  (j < max_ops)%nat → (covers events j = false → P j) → attentive P r → accounted k0 ops r →
  ∃ ops' r', perform_type events j ops r = Ok (ops', r') ∧ attentive (λ i, P i ∨ i = j) r' ∧ accounted k0 ops' r' ∧
    later r r' ∧ (covers events j = true → drained j r').
Proof.
  intros Hj Hcov A C. unfold perform_type. destruct (covers events j).
  - set (r1 := set_dstate (set_speculative j true (dstate r)) r). erewrite bind_ok by reflexivity. erewrite bind_ok by reflexivity.
    fold r1. assert (A1 : attentive P r1).
    { apply (attentive_after P P r r1 A (calm_refl _)); try done; [apply A|]. intros i Hi. right; right. split; [done|].
      cbn. unfold insert, fn_insert. by case_decide. }
    assert (C1 : accounted k0 ops r1) by (destruct C; by split).
    destruct (perform_queue_ok _ j P k0 ops r1 (le_n _) Hj) as (ops' & r' & E & A' & C' & L & D); [cbn; by rewrite fn_lookup_insert|done|done|].
    exists ops', r'. split_and!; try done. apply (later_trans r r1); [|done]. split; [apply calm_refl|by split|done].
  - exists ops, r. split_and!; [done| |done|apply later_refl|done]. eapply attentive_weaken; [|exact A]. intros i _ [Hi| ->]; auto.
Qed.

(** ** Every function *)

Definition sound (k0 : K) r : Prop := attentive everywhere r ∧ accounted k0 [] r.

Lemma in_delete {A} (l : list A) i x y : l !! i = Some x → y ∈ l → y ≠ x → y ∈ delete i l.
Proof.
  intros Hi Hy Hne. rewrite (delete_Permutation _ _ _ Hi) in Hy. by apply elem_of_cons in Hy as [|].
Qed.

Lemma taken_event r i e : attentive everywhere r → in_flight r !! i = Some e →
  attentive (λ j, covers e j = false) (set_events (queued_events r) (delete i (in_flight r)) r).
Proof.
  intros [A1 A2 A3 A4] Hi. split; [|done..]. intros j Hj Hlt Hs Hw Hn.
  destruct (A1 j I Hlt Hs Hw Hn) as [Ht|[Hq|(e' & He & Hc)]]; [by left|right; by left|].
  right; right. exists e'. split; [|done]. apply (in_delete _ _ e); try done. intros ->. congruence.
Qed.

Lemma perform_io_ok events k0 r :
  attentive (λ j, covers events j = false) r → accounted k0 [] r →
  ∃ first r', perform_io events r = Ok (first, r') ∧ attentive everywhere r' ∧
    accounted k0 [] (add_work (-1) (match first with Some o => add_called o r' | None => r' end)) ∧ later r r' ∧
    ∀ j, (j < max_ops)%nat → covers events j = true → drained j r'.
Proof.
  intros A C. unfold perform_io.
  destruct (perform_type_ok events 2 _ k0 [] r ltac:(unfold max_ops; lia) (λ H, H) A C) as (o2 & r2 & E2 & A2 & C2 & V2 & D2).
  erewrite bind_ok by exact E2.
  destruct (perform_type_ok events 1 _ k0 o2 r2 ltac:(unfold max_ops; lia) (λ H, or_introl H) A2 C2) as (o1 & r1 & E1 & A1 & C1 & V1 & D1).
  erewrite bind_ok by exact E1.
  destruct (perform_type_ok events 0 _ k0 o1 r1 ltac:(unfold max_ops; lia) (λ H, or_introl (or_introl H)) A1 C1) as (ops & r' & E0 & A0 & C0 & V0 & D0).
  erewrite bind_ok by exact E0.
  assert (A' : attentive everywhere r').
  { eapply attentive_weaken; [|exact A0]. unfold max_ops. intros j Hj _. destruct j as [|[|[|j]]]; [by right|by left; right|by left; left; right|lia]. }
  assert (V' : later r r') by (eapply later_trans; [exact V2|by eapply later_trans]).
  assert (D' : ∀ j, (j < max_ops)%nat → covers events j = true → drained j r').
  { unfold max_ops. intros j Hj Hc. destruct j as [|[|[|j]]]; [auto|by apply (later_drained _ r1); auto| |lia].
    apply (later_drained _ r1); [done|]. apply (later_drained _ r2); auto. }
  destruct C0 as [B1 B2 B3 B4]. destruct ops as [|first rest]; (do 2 eexists; split; [reflexivity|]); split_and!; try done.
  - by destruct A'; split.
  - split; [done|done| |done]. cbn. rewrite B3. zl.
  - by destruct V'; split.
  - by destruct A'; split.
  - split; [done| | |done].
    + intros f. specialize (B2 f). cbn. zsums. lia.
    + cbn. rewrite B3. zl.
  - by destruct V'; split.
Qed.

(** The thread that has taken the event [e]. *)
Lemma complete_descriptor_ok k0 r i e :
  sound k0 r → in_flight r !! i = Some e →
  ∃ r', complete_descriptor i r = Ok (tt, r') ∧ sound k0 r' ∧
    later (set_events (queued_events r) (delete i (in_flight r)) r) r' ∧
    ∀ j, (j < max_ops)%nat → covers e j = true → drained j r'.
Proof.
  intros [A C] Hi. pose proof (taken_event r i e A Hi) as A1. unfold complete_descriptor. erewrite bind_ok by reflexivity. rewrite Hi.
  erewrite bind_ok by reflexivity. destruct (perform_io_ok e k0 _ A1) as (first & r' & E & A' & C' & L & D); [by destruct C; split|].
  erewrite bind_ok by exact E. destruct first as [o|]; (eexists; split; [by erewrite bind_ok by reflexivity|]);
    (split_and!; [split; [by destruct A'; split|done]|by destruct L; split|done]).
Qed.

(** *** Epoll and the scheduler *)

Lemma watches_zero j : watches 0 j = false.
Proof. done. Qed.

Lemma waits_watched P r j :
  attentive P r → queue r j ≠ [] ∨ (try_speculative_ (dstate r) j = false ∧ watches (registered r) j = true) →
  shutdown_ (dstate r) = false → watches (watched (kernel r)) j = true.
Proof.
  intros A Hw Hs. assert (Hr : watches (registered r) j = true) by (destruct Hw as [Hw|[_ Hw]]; [by apply (a_queue _ _ A)|done]).
  destruct (a_watched _ _ A Hs) as [-> _]; [|done]. intros Hz. by rewrite Hz in Hr.
Qed.

(** What [run] finds out: every event is the scheduler's or a thread's now. *)
Record noticed r r' : Prop := {
  n_news : ∀ j, news j (kernel r') = true → news j (kernel r) = true;
  n_queue : queue r' = queue r;
  n_event : ∀ j, queue r' j ≠ [] → news j (kernel r') = true → event_for r' j
}.

Lemma run_ok k0 r : sound k0 r → ∃ r', run r = Ok (tt, r') ∧ sound k0 r' ∧ noticed r r'.
Proof.
  intros [A C]. pose proof (events_law K (kernel r)) as L. unfold run. destruct (epoll_events (kernel r)) as [e k'] eqn:E.
  destruct L as (T & Hn & Hw & Hc). erewrite bind_ok by (unfold on_kernel, syscall; rewrite E; reflexivity).
  assert (Ck : ∀ q, accounted k0 [] (set_events q (in_flight r) (set_kernel k' r))).
  { intros q. destruct C as [B1 B2 B3 B4]. split; try done. cbn. pose proof (traffic_app _ _ _ _ _ _ _ B4 T) as T'. by rewrite !app_nil_r in T'. }
  assert (Hnews : ∀ j, (j < max_ops)%nat → shutdown_ (dstate r) = false →
    queue r j ≠ [] ∨ (try_speculative_ (dstate r) j = false ∧ watches (registered r) j = true) →
    news j k' = true → event_for r j ∨ covers e j = true).
  { intros j Hlt Hs Hwait Hnj. destruct (a_news _ _ A j I Hlt Hs Hwait (Hn j Hnj)) as [Ht|He]; [right|by left].
    apply Hc; auto. by apply (waits_watched everywhere r). }
  assert (Hevent : ∀ j, queue r j ≠ [] → news j k' = true → event_for r j ∨ covers e j = true).
  { intros j Hq. destruct (a_queue _ _ A j Hq) as (Hlt & _ & Hs). by apply (Hnews j Hlt Hs); left. }
  destruct A as [A1 A2 A3 A4]. destruct (Z.eqb_spec e 0) as [->|He].
  - assert (Hev : ∀ j, event_for r j ∨ covers 0 j = true → event_for r j) by (intros j [Hev|[=]]; done).
    eexists. split_and!; [reflexivity|split; [|apply (Ck (queued_events r))]|]; (split; [|..]); try done; try (intros Hs Hr; cbn; rewrite Hw; by apply A2).
    + intros j _ Hlt Hs Hwait Hnj. right. by apply Hev, Hnews.
    + intros j Hq Hnj. by apply Hev, Hevent.
  - set (q := Some (match queued_events r with None => e | Some e' => Z.lor e' e end)).
    assert (Hev : ∀ j, event_for r j ∨ covers e j = true → event_for (set_events q (in_flight r) (set_kernel k' r)) j).
    { intros j [[(e' & Hq & Hce)|Hf]|Hce]; [left|by right|left]; (eexists; split; [reflexivity|]).
      - rewrite Hq, covers_or, Hce. done.
      - destruct (queued_events r); [by rewrite covers_or, Hce, orb_true_r|done]. }
    eexists. split_and!; [reflexivity|split; [|apply Ck]|]; (split; [|..]); try done; try (intros Hs Hr; cbn; rewrite Hw; by apply A2).
    + intros j _ Hlt Hs Hwait Hnj. right. by apply Hev, Hnews.
    + intros j Hq Hnj. by apply Hev, Hevent.
Qed.

Lemma happens_ok k0 r k' : sound k0 r → happens (kernel r) k' → sound k0 (set_kernel k' r).
Proof.
  intros [A C] Hk. destruct (happens_law K _ _ Hk) as (T & Hw & Ht & Hn). split.
  - pose proof A as [A1 A2 A3 A4]. split; [|intros Hs Hr; cbn; rewrite Hw; by apply A2|done..].
    intros j _ Hlt Hs Hwait Hnj. destruct (Hn j) as [Hnj'|Htj]; [by apply (waits_watched everywhere r)|done| |by left].
    destruct (A1 j I Hlt Hs Hwait Hnj') as [Hj|He]; [left; by apply Ht|by right].
  - destruct C as [B1 B2 B3 B4]. split; try done. cbn. pose proof (traffic_app _ _ _ _ _ _ _ B4 T) as T'. by rewrite !app_nil_r in T'.
Qed.

(** Taken out of the scheduler's queue. *)
Definition taken r : reactor K := match queued_events r with None => r | Some e => set_events None (in_flight r ++ [e]) r end.

Lemma taken_events r j : event_for r j → ∃ e, e ∈ in_flight (taken r) ∧ covers e j = true.
Proof.
  unfold taken. intros [(e & Hq & Hc)|(e & He & Hc)].
  - rewrite Hq. exists e. split; [|done]. cbn. apply elem_of_app. right. by apply list_elem_of_singleton.
  - exists e. split; [|done]. destruct (queued_events r); [|done]. cbn. apply elem_of_app. by left.
Qed.

Lemma take_descriptor_ok k0 r : sound k0 r → take_descriptor r = Ok (tt, taken r) ∧ sound k0 (taken r).
Proof.
  intros [A C]. split; [done|]. pose proof (taken_events r) as He. unfold taken in *. destruct (queued_events r) as [e|]; [|done].
  split; [|by destruct C; split]. destruct A as [A1 A2 A3 A4]. split; [|done..].
  intros j _ Hlt Hs Hwait Hn. destruct (A1 j I Hlt Hs Hwait Hn) as [Ht|Hev]; [by left|right; right]. by apply He.
Qed.

Lemma run_posted_ok k0 r i : sound k0 r → ∃ r', run_posted i r = Ok (tt, r') ∧ sound k0 r'.
Proof.
  intros [A C]. unfold run_posted. erewrite bind_ok by reflexivity. destruct (posted r !! i) as [o|] eqn:E; [|by exists r].
  eexists. split; [reflexivity|]. split; [by destruct A; split|]. destruct C as [B1 B2 B3 B4].
  assert (Hp := delete_Permutation _ _ _ E). split; [done| | |done].
  - intros f. specialize (B2 f). rewrite Hp in B2. cbn. zsums. lia.
  - apply Permutation_length in Hp. cbn in *. rewrite B3. unfold zlen. cbn. lia.
Qed.

(** *** Cancelling *)

Lemma sublist_map {A B} (f : A → B) l k : l `sublist_of` k → map f l `sublist_of` map f k.
Proof. induction 1; cbn; by constructor. Qed.

(** Operations leave the queues, and are posted as they are or with an error. *)
Lemma sound_cut k0 r r' gone :
  sound k0 r → kernel r' = kernel r → same_events r r' → registered r' = registered r → shutdown_ (dstate r') = shutdown_ (dstate r) →
  try_speculative_ (dstate r') = try_speculative_ (dstate r) →
  (∀ j, queue r' j `sublist_of` queue r j) →
  (∀ f, total (zsum (by_id f)) (dstate r) = total (zsum (by_id f)) (dstate r') + zsum (by_id f) gone) →
  posted r' = posted r ++ gone → called r' = called r → started r' = started r → performed r' = performed r →
  total zlen (dstate r) = total zlen (dstate r') + zlen gone → outstanding_work_ r' = outstanding_work_ r →
  sound k0 r'.
Proof.
  intros [A C] Ek [Eq Ei] Er Es Et Hsub Hsum Ep Ec Est Epf Hlen Ew. split.
  - apply (attentive_after everywhere everywhere r r' A); try done.
    + rewrite Ek. apply calm_refl.
    + intros j Hj Hnil. apply Hj. specialize (Hsub j). rewrite Hnil in Hsub. by apply sublist_nil_r in Hsub.
    + intros j o Ho. apply (a_ops _ _ A). by apply (elem_of_sublist _ _ _ Ho (Hsub j)).
    + intros j _. right; right. split; [done|]. by rewrite Et.
  - destruct C as [B1 B2 B3 B4]. split.
    + intros j. rewrite Epf, Est. etrans; [|apply (B1 j)]. apply sublist_app; [done|]. by apply sublist_map.
    + intros f. specialize (B2 f). specialize (Hsum f). rewrite Est, Ep, Ec. zsums. lia.
    + rewrite Ew, B3, Hlen, Ep. zl.
    + by rewrite Ek, Epf.
Qed.

Lemma zsum_aborted f ops : zsum (by_id f) (aborted ops) = zsum (by_id f) ops.
Proof. unfold aborted. by rewrite zsum_map. Qed.

Lemma zlen_aborted ops : zlen (aborted ops) = zlen ops.
Proof. unfold aborted, zlen. by rewrite length_map. Qed.

Lemma queues_cleared (d : descriptor_state) j : (j < max_ops)%nat → op_queue_ (clear_queues d) j = [].
Proof. unfold max_ops. intros Hj. cbn. unfold insert, fn_insert. repeat case_decide; try done. lia. Qed.

Lemma cleared_sublist (d : descriptor_state) j : op_queue_ (clear_queues d) j `sublist_of` op_queue_ d j.
Proof. cbn. unfold insert, fn_insert. repeat case_decide; try apply sublist_nil_l. done. Qed.

Lemma total_cleared g (d : descriptor_state) : g [] = 0 → total g (clear_queues d) = 0.
Proof. intros Hg. unfold total. rewrite !queues_cleared by (unfold max_ops; lia). lia. Qed.

Lemma total_taken f (d : descriptor_state) : zsum (by_id f) (take_all d) = total (zsum (by_id f)) d ∧ zlen (take_all d) = total zlen d.
Proof. unfold take_all, total. rewrite !zsum_app, !zlen_app. lia. Qed.

Lemma cancel_ops_ok k0 r : sound k0 r → ∃ r', cancel_ops r = Ok (tt, r') ∧ sound k0 r'.
Proof.
  intros S. unfold cancel_ops. erewrite bind_ok by reflexivity. destruct (descriptor_data r); [|by exists r].
  eexists. split; [reflexivity|]. apply (sound_cut k0 r _ (aborted (take_all (dstate r))) S); try done.
  - intros j. apply cleared_sublist.
  - intros f. rewrite zsum_aborted. cbn [dstate set_dstate set_posted]. rewrite total_cleared, (proj1 (total_taken f _)) by done. lia.
  - rewrite zlen_aborted. cbn [dstate set_dstate set_posted]. rewrite total_cleared, (proj2 (total_taken (λ _, 0) _)) by done. lia.
Qed.

Lemma sublist_filter (f : reactor_op → bool) l : List.filter f l `sublist_of` l.
Proof. induction l as [|o l IH]; [done|]. cbn. destruct (f o); by constructor. Qed.

Lemma zsum_filter f g (l : list reactor_op) : zsum g (List.filter f l) + zsum g (List.filter (λ o, negb (f o)) l) = zsum g l.
Proof. induction l as [|o l IH]; [done|]. cbn. rewrite zsum_cons. destruct (f o); cbn; rewrite zsum_cons; lia. Qed.

Lemma zlen_zsum {A} (l : list A) : zlen l = zsum (λ _, 1) l.
Proof. induction l as [|x l IH]; [done|]. rewrite zlen_cons, zsum_cons, IH. done. Qed.

Lemma cancel_ops_by_key_ok k0 r t key : (t < max_ops)%nat → sound k0 r → ∃ r', cancel_ops_by_key t key r = Ok (tt, r') ∧ sound k0 r'.
Proof.
  intros Ht S. unfold cancel_ops_by_key. erewrite bind_ok by reflexivity. destruct (descriptor_data r); [|by exists r].
  eexists. split; [reflexivity|]. set (gone := List.filter (with_key key) (op_queue_ (dstate r) t)).
  apply (sound_cut k0 r _ (aborted gone) S); try done.
  - intros j. unfold queue. cbn. unfold insert, fn_insert. case_decide; [subst; apply sublist_filter|done].
  - intros f. rewrite zsum_aborted. cbn [dstate set_dstate set_posted]. rewrite total_set by done.
    pose proof (zsum_filter (with_key key) (by_id f) (op_queue_ (dstate r) t)) as Hz. fold gone in Hz. lia.
  - rewrite zlen_aborted. cbn [dstate set_dstate set_posted]. rewrite total_set by done. rewrite !zlen_zsum.
    pose proof (zsum_filter (with_key key) (λ _, 1) (op_queue_ (dstate r) t)) as Hz. fold gone in Hz. lia.
Qed.

Lemma sound_present k0 b r : sound k0 r → sound k0 (set_present b r).
Proof. intros [A C]. split; [by destruct A; split|by destruct C; split]. Qed.

(** After the shutdown no operation waits. *)
Lemma deregister_ok k0 closing r : sound k0 r → ∃ r', deregister_descriptor closing r = Ok (tt, r') ∧ sound k0 r'.
Proof.
  intros S. unfold deregister_descriptor. erewrite bind_ok by reflexivity. destruct (descriptor_data r); [|by exists r].
  cbn [when]. erewrite bind_ok by reflexivity. destruct (shutdown_ (dstate r)); [eexists; split; [reflexivity|]; by apply sound_present|].
  set (k' := if negb closing && negb (registered_events_ (dstate r) =? 0) then epoll_del (kernel r) else kernel r).
  assert (T : traffic K (kernel r) k' [] []).
  { unfold k'. destruct (negb closing && _); [apply (del_law K)|split; by rewrite app_nil_r]. }
  exists (set_posted (posted r ++ aborted (take_all (dstate r)))
    (set_dstate (mkDesc (registered r) (op_queue_ (clear_queues (dstate r))) (try_speculative_ (dstate r)) true) (set_kernel k' r))).
  split; [unfold k'; by destruct (negb closing && _)|]. destruct S as [A [B1 B2 B3 B4]]. set (r' := set_posted _ _).
  assert (Hnil : ∀ j, queue r' j = []).
  { intros j. destruct (decide (j < max_ops)%nat) as [Hj|Hj]; [by apply queues_cleared|].
    pose proof (cleared_sublist (dstate r) j) as Hs. destruct (queue r j) eqn:Eq; [|exfalso; apply Hj, (a_queue _ _ A); by rewrite Eq].
    unfold queue in Eq. rewrite Eq in Hs. by apply sublist_nil_r in Hs. }
  assert (Et : ∀ g, g [] = 0 → total g (dstate r') = 0) by (intros g Hg; apply (total_cleared g (dstate r) Hg)).
  split; split; try done; try (intros j; rewrite Hnil; try done).
  - by intros o ?%not_elem_of_nil.
  - cbn. rewrite app_nil_r. etrans; [|apply (B1 j)]. by apply sublist_inserts_r.
  - intros f. specialize (B2 f). rewrite Et by done. cbn. zsums. rewrite zsum_aborted, (proj1 (total_taken f _)). lia.
  - rewrite Et by done. cbn. rewrite zlen_app, zlen_aborted, (proj2 (total_taken (λ _, 0) _)), B3. zl.
  - cbn. pose proof (traffic_app _ _ _ _ _ _ _ B4 T) as T'. by rewrite !app_nil_r in T'.
Qed.

(** *** Starting *)

Lemma type_lt k : (type_of k < max_ops)%nat.
Proof. unfold max_ops. destruct k; cbn; unfold read_op, write_op; lia. Qed.

Lemma sound_calm k0 r k' : sound k0 r → calm K (kernel r) k' → traffic K (kernel r) k' [] [] → sound k0 (set_kernel k' r).
Proof.
  intros [A [B1 B2 B3 B4]] C T. split.
  - apply (attentive_after everywhere everywhere r (set_kernel k' r) A C); try done; [apply A|]. intros j _. by right; right.
  - split; try done. cbn. pose proof (traffic_app _ _ _ _ _ _ _ B4 T) as T'. by rewrite !app_nil_r in T'.
Qed.

Lemma sound_post k0 r o o' :
  sound k0 r → op_id o' = op_id o → sound k0 (set_posted (posted r ++ [o']) (add_work 1 (add_started o r))).
Proof.
  intros [A [B1 B2 B3 B4]] Ho. split; [by destruct A; split|]. split; [| | |done].
  - intros j. cbn [performed started add_started add_work set_posted]. rewrite of_type_app. apply sublist_inserts_r, B1.
  - intros f. specialize (B2 f). cbn. assert (Ef : by_id f o' = by_id f o) by (unfold by_id; by rewrite Ho). zsums. lia.
  - cbn. rewrite B3. zl.
Qed.

Lemma sound_push k0 r t o o' :
  sound k0 r → (t < max_ops)%nat → type_of (op_kind o) = t → same_op o o' → fresh o' → op_ok (K := K) o →
  shutdown_ (dstate r) = false → watches (registered r) t = true →
  (news t (kernel r) = true → told (kernel r) = true ∨ event_for r t) →
  sound k0 (add_work 1 (set_dstate (set_op_queue t (queue r t ++ [o']) (dstate r)) (add_started o r))).
Proof.
  intros [A [B1 B2 B3 B4]] Ht Hty S Hf Hok Hs Hw Hn.
  assert (Hq : ∀ j, queue (add_work 1 (set_dstate (set_op_queue t (queue r t ++ [o']) (dstate r)) (add_started o r))) j =
    if decide (j = t) then queue r t ++ [o'] else queue r j) by (intros j; apply (queue_set t _ r j)).
  split; split; try done.
  - intros j _ Hlt _ Hwait Hnj. destruct (decide (j = t)) as [->|Hj]; [by apply Hn|]. rewrite Hq, decide_False in Hwait by done.
    by apply (a_news _ _ A j I Hlt Hs).
  - apply (a_watched _ _ A).
  - intros j Hne. rewrite Hq in Hne. destruct (decide (j = t)) as [->|Hj]; [done|by apply (a_queue _ _ A)].
  - intros j x. rewrite Hq. destruct (decide (j = t)) as [->|Hj]; [|by apply (a_ops _ _ A)].
    intros [Hx|Hx]%elem_of_app; [by apply (a_ops _ _ A)|]. apply list_elem_of_singleton in Hx as ->.
    split_and!; [done|by apply (op_ok_same o)|by rewrite (same_kind _ _ S)].
  - intros j. rewrite Hq. cbn [performed started add_started add_work set_dstate]. rewrite of_type_app, of_type_one, Hty. specialize (B1 j).
    destruct (decide (j = t)) as [->|Hj]; [|by rewrite decide_False, app_nil_r by done].
    rewrite decide_True, map_app, app_assoc by done. cbn. rewrite (same_id _ _ S). by apply sublist_app.
  - intros f. specialize (B2 f). cbn [dstate started posted called add_started add_work set_dstate]. rewrite total_set by done. unfold queue.
    assert (Ef : by_id f o' = by_id f o) by (unfold by_id; by rewrite (same_id _ _ S)). zsums. lia.
  - cbn [dstate outstanding_work_ posted add_started add_work set_dstate]. rewrite total_set, B3 by done. unfold queue. zl.
Qed.

(** Epoll has been asked to watch [mask]. *)
Lemma sound_mod k0 r mask k' :
  sound k0 r → traffic K (kernel r) k' [] [] → (∀ j, news j k' = true → news j (kernel r) = true) → watched k' = mask →
  (∀ j, watches mask j = true → news j k' = true → told k' = true) →
  (∀ j, watches (registered r) j = true → watches mask j = true) → registered r ≠ 0 →
  sound k0 (set_dstate (set_registered mask (dstate r)) (set_kernel k' r)).
Proof.
  intros [A [B1 B2 B3 B4]] T Hn Hw Ht Hm Hr. split; [split|split; try done].
  - intros j _ Hlt Hs Hwait Hnj. left. apply (Ht j); [|done]. destruct Hwait as [Hq|[_ Hwt]]; [|exact Hwt].
    apply Hm. by apply (a_queue _ _ A).
  - intros Hs _. split; [done|]. apply Hm. by apply (a_watched _ _ A).
  - intros j Hq. destruct (a_queue _ _ A j Hq) as (H1 & H2 & H3). split_and!; [done|by apply Hm|done].
  - apply (a_ops _ _ A).
  - cbn. pose proof (traffic_app _ _ _ _ _ _ _ B4 T) as T'. by rewrite !app_nil_r in T'.
Qed.

Lemma output_unwatched e : Z.land e EPOLLOUT = 0 ↔ watches e write_op = false.
Proof. unfold watches. cbn [flag write_op]. destruct (Z.eqb_spec (Z.land e EPOLLOUT) 0); split; congruence || done. Qed.

Lemma watches_output e j : watches e j = true → watches (Z.lor e EPOLLOUT) j = true.
Proof. rewrite watches_or. by intros ->. Qed.

Lemma watch_output_ok k0 r o :
  sound k0 r → registered r ≠ 0 → shutdown_ (dstate r) = false →
  (watches (registered r) write_op = true → news write_op (kernel r) = true → told (kernel r) = true ∨ event_for r write_op) →
  ∃ e r1, watch_output (add_started o r) = Ok (e, add_started o r1) ∧ sound k0 r1 ∧
    (e = None → shutdown_ (dstate r1) = false ∧ watches (registered r1) write_op = true ∧
      (news write_op (kernel r1) = true → told (kernel r1) = true ∨ event_for r1 write_op)).
Proof.
  intros S Hz Hs Hn. unfold watch_output. erewrite bind_ok by reflexivity.
  change (registered_events_ (dstate (add_started o r))) with (registered r).
  destruct (Z.land (registered r) EPOLLOUT =? 0) eqn:Eo.
  - set (ev := Z.lor (registered r) EPOLLOUT). pose proof (ctl_law K ev (kernel r) epoll_mod (or_intror eq_refl)) as L.
    assert (Hw : watches ev write_op = true) by (unfold ev; by rewrite watches_or, orb_true_r).
    destruct (epoll_mod ev (kernel r)) as [[u|e] k'] eqn:E; destruct L as [T L];
      erewrite bind_ok by (unfold on_kernel, syscall; cbn [kernel add_started]; rewrite E; reflexivity).
    + destruct L as (L1 & L2 & L3 & L4). exists None, (set_dstate (set_registered ev (dstate r)) (set_kernel k' r)). split_and!.
      * erewrite bind_ok by reflexivity. change (registered_events_ (dstate (set_kernel k' (add_started o r)))) with (registered r).
        unfold ev. rewrite Z.lor_assoc, Z.lor_diag. reflexivity.
      * apply sound_mod; try done. intros j. apply watches_output.
      * intros _. split_and!; [done|done|]. intros Hnj. left. by apply (L4 write_op).
    + destruct L as [L _]. exists (Some e), (set_kernel k' r). split_and!; [done|by apply sound_calm|done].
  - assert (Hw : watches (registered r) write_op = true).
    { destruct (watches (registered r) write_op) eqn:Ew; [done|]. apply output_unwatched in Ew. by rewrite Ew in Eo. }
    exists None, r. split_and!; auto.
Qed.

Lemma wait_in_queue_ok k0 r t o o' :
  sound k0 r → type_of (op_kind o) = t → same_op o o' → fresh o' → op_ok (K := K) o → shutdown_ (dstate r) = false →
  (watches (registered r) t = true → news t (kernel r) = true → told (kernel r) = true ∨ event_for r t) →
  ∃ r', wait_in_queue t o' (add_started o r) = Ok (tt, r') ∧ sound k0 r'.
Proof.
  intros S Hty So Hf Hok Hs Hn. assert (Ht : (t < max_ops)%nat) by (subst; apply type_lt). unfold wait_in_queue. erewrite bind_ok by reflexivity.
  change (registered_events_ (dstate (add_started o r))) with (registered r).
  destruct (Z.eqb_spec (registered r) 0) as [Hz|Hz]; [eexists; split; [reflexivity|]; apply (sound_post k0 r o (set_ec (system_error operation_not_supported) o') S (same_id _ _ So))|].
  destruct (a_watched _ _ (proj1 S) Hs Hz) as [_ Hwr]. destruct (Nat.eqb_spec t write_op) as [->|Hnw].
  - destruct (watch_output_ok k0 r o S Hz Hs Hn) as (e & r1 & E & S1 & H1). erewrite bind_ok by exact E.
    destruct e as [e|]; (eexists; split; [reflexivity|]); [apply (sound_post k0 r1 o (set_ec (system_error e) o') S1 (same_id _ _ So))|].
    destruct (H1 eq_refl) as (Hs1 & Hw1 & Hn1). by apply (sound_push k0 r1 write_op o o').
  - eexists. split; [reflexivity|]. assert (t = read_op) as -> by (subst; destruct (op_kind o); done). apply (sound_push k0 r read_op); auto.
Qed.

(** An operation was tried at once and is done. *)
Lemma sound_speculated k0 r t o o' k' b :
  sound k0 r → type_of (op_kind o) = t → queue r t = [] → same_op o o' → calm K (kernel r) k' →
  traffic K (kernel r) k' (op_data o') (sent_by o') → (b = false → news t k' = false) →
  sound k0 (set_posted (posted r ++ [o']) (add_work 1
    (set_dstate (if b : bool then dstate r else set_speculative t false (dstate r)) (add_performed o' (set_kernel k' (add_started o r)))))).
Proof.
  intros [A [B1 B2 B3 B4]] Hty Hq So C T Hb. set (r' := set_posted _ _).
  assert (Eq : queue r' = queue r) by (unfold r', queue; by destruct b). split.
  - apply (attentive_after everywhere everywhere r r' A); try done.
    + unfold registered. cbn. by destruct b.
    + cbn. by destruct b.
    + by rewrite Eq.
    + rewrite Eq. apply (a_ops _ _ A).
    + intros j _. destruct b; [by right; right|]. destruct (decide (j = t)) as [->|Hj]; [left; by apply Hb|].
      right; right. split; [done|]. cbn. by rewrite fn_lookup_insert_ne.
  - assert (Et : ∀ g, total g (dstate r') = total g (dstate r)) by (intros g; by destruct b). split.
    + intros j. rewrite Eq. cbn [performed started r' set_posted add_work set_dstate add_performed set_kernel add_started].
      rewrite !of_type_app, !of_type_one, (same_kind _ _ So), (same_id _ _ So). specialize (B1 j). rewrite Hty.
      destruct (decide (t = j)) as [<-|Hj]; [|by rewrite !app_nil_r].
      rewrite Hq in *. cbn in *. rewrite app_nil_r in *. by apply sublist_app.
    + intros f. rewrite Et. specialize (B2 f). cbn.
      assert (Ef : by_id f o' = by_id f o) by (unfold by_id; by rewrite (same_id _ _ So)). zsums. lia.
    + rewrite Et. cbn. rewrite B3. zl.
    + cbn. rewrite !map_app, !concat_app. cbn. rewrite !app_nil_r. by eapply traffic_app.
Qed.

(** What [start_op] is given; the result of its last [epoll_ctl] is not looked at. *)
Definition start_ok (t : nat) (o : reactor_op) (allow_speculative : bool) r : Prop :=
  t = type_of (op_kind o) ∧ fresh o ∧ op_ok (K := K) o ∧
  (allow_speculative = false → ∀ mask, (epoll_mod mask (kernel r)).1 = SysOk tt).

Lemma except_empty r : attentive everywhere r → queue r except_op = [].
Proof.
  intros A. destruct (queue r except_op) as [|o q] eqn:E; [done|]. destruct (fresh_queue _ _ _ _ _ A E) as (_ & _ & Ht).
  by destruct (op_kind o).
Qed.

(** Without a first try the socket is always watched anew. *)
Lemma rearmed_ok k0 r t o :
  sound k0 r → t = type_of (op_kind o) → fresh o → op_ok (K := K) o → shutdown_ (dstate r) = false → registered r ≠ 0 →
  (∀ mask, (epoll_mod mask (kernel r)).1 = SysOk tt) →
  ∃ r', (when (t =? write_op)%nat (on_state (λ d, set_registered (Z.lor (registered_events_ d) EPOLLOUT) d));;
         d ← gets dstate;
         on_kernel (syscall (epoll_mod (registered_events_ d)));;
         push_op t o) (add_started o r) = Ok (tt, r') ∧ sound k0 r'.
Proof.
  intros S Hty Hf Hok Hs Hz Hmod. pose proof S as [A _]. set (mask := if (t =? write_op)%nat then Z.lor (registered r) EPOLLOUT else registered r).
  assert (Ht : (t < max_ops)%nat) by (subst; apply type_lt).
  destruct (a_watched _ _ A Hs Hz) as [_ Hwr]. pose proof (ctl_law K mask (kernel r) epoll_mod (or_intror eq_refl)) as L. specialize (Hmod mask).
  destruct (epoll_mod mask (kernel r)) as [[[]|e] k'] eqn:E; [|done]. destruct L as (T & L1 & L2 & L3 & L4).
  assert (Hw : watches mask t = true).
  { unfold mask. destruct (Nat.eqb_spec t write_op) as [->|Hn]; [by rewrite watches_or, orb_true_r|].
    assert (t = read_op) as -> by (subst; destruct (op_kind o); done). done. }
  assert (S' : sound k0 (set_dstate (set_registered mask (dstate r)) (set_kernel k' r))).
  { apply sound_mod; try done. intros j. unfold mask. destruct (t =? write_op)%nat; [apply watches_output|done]. }
  eexists. split; [|apply (sound_push k0 _ t o o S' Ht (eq_sym Hty)); [by split|done|done|exact Hs|exact Hw|intros Hnj; left; by apply (L4 t)]].
  assert (Em : (when (t =? write_op)%nat (on_state (λ d, set_registered (Z.lor (registered_events_ d) EPOLLOUT) d))) (add_started o r) =
    Ok (tt, set_dstate (set_registered mask (dstate r)) (add_started o r))).
  { unfold mask. destruct (t =? write_op)%nat; [done|]. cbn. unfold mret, M_ret. destruct r as [? ? [] ? ? ? ? ? ? ?]. done. }
  erewrite bind_ok by exact Em. erewrite bind_ok by reflexivity.
  erewrite bind_ok by (unfold on_kernel, syscall; cbn [kernel add_started set_dstate dstate registered_events_ set_registered]; rewrite E; reflexivity).
  reflexivity.
Qed.

Lemma start_op_ok k0 r t o allow : sound k0 r → start_ok t o allow r → ∃ r', start_op t o allow r = Ok (tt, r') ∧ sound k0 r'.
Proof.
  intros S (Hty & Hf & Hok & Hmod). pose proof S as [A _]. assert (So : same_op o o) by by split.
  assert (Ht : (t < max_ops)%nat) by (subst; apply type_lt).
  unfold start_op. do 2 (erewrite bind_ok by reflexivity). cbn [descriptor_data add_started].
  destruct (descriptor_data r); cbn [negb]; [|eexists; split; [reflexivity|]; by apply (sound_post k0 r o (set_ec (system_error bad_descriptor) o))].
  erewrite bind_ok by reflexivity. cbn [dstate add_started]. destruct (shutdown_ (dstate r)) eqn:Hs; [eexists; split; [reflexivity|]; by apply (sound_post k0 r o o)|].
  fold (queue r t). fold (queue r except_op). rewrite (except_empty r A), orb_true_r, andb_true_r.
  destruct (queue r t) as [|x q] eqn:Hq; cbn [is_nil negb].
  2:{ eexists. split; [reflexivity|]. assert (Hne : queue r t ≠ []) by (by rewrite Hq). destruct (a_queue _ _ A t Hne) as (_ & Hw & _).
      apply (sound_push k0 r t o o); try done. intros Hnj. apply (a_news _ _ A t I Ht Hs); [by left|done]. }
  destruct allow.
  - destruct (try_speculative_ (dstate r) t) eqn:Htry.
    + destruct (op_performed_ok o (add_started o r) Hok Hf) as (st & o' & k' & E & Hc & T & So' & Hfr & N). rewrite <- Hty in N.
      erewrite bind_ok by exact E. destruct st; cbn beta iota in *.
      * rewrite (proj1 (Hfr eq_refl)), (sent_by_fresh o' (Hfr eq_refl)) in T.
        apply (wait_in_queue_ok k0 (set_kernel k' r) t o o'); auto; [by apply sound_calm|]. intros _. cbn. by rewrite N.
      * eexists. split; [reflexivity|]. by apply (sound_speculated k0 r t o o' k' true).
      * destruct (registered_events_ (dstate r) =? 0); (eexists; split; [reflexivity|]).
        -- by apply (sound_speculated k0 r t o o' k' true).
        -- apply (sound_speculated k0 r t o o' k' false); auto.
    + erewrite bind_ok by reflexivity. apply (wait_in_queue_ok k0 r t o o); auto.
      intros Hw Hnj. apply (a_news _ _ A t I Ht Hs); [by right|done].
  - change (registered_events_ (dstate r)) with (registered r). cbn [andb].
    destruct (Z.eqb_spec (registered r) 0) as [Hz|Hz];
      [eexists; split; [reflexivity|]; by apply (sound_post k0 r o (set_ec (system_error operation_not_supported) o))|].
    apply (rearmed_ok k0 r t o S Hty Hf Hok Hs Hz). by apply Hmod.
Qed.
End Attention.
