(* ===== verification/ReactorRun.v ===== *)
(** * Runs of the reactor (asio/detail/impl/epoll_reactor.ipp)

    Any sequence of the reactor's calls on a socket, with what the world does in between.
    Result: operations are performed in the order of their start and each is
    accounted for once, the bytes are those of the stream; and a turn of the loop leaves
    no operation waiting that could go on.  A stream socket is an instance. *)

From Stdlib Require Import ZArith Lia Strings.Byte.
From stdpp Require Import base list numbers relations.
From S2P Require Import Prelude.
From S2P Require Import SocketOps.
From S2P Require Import StreamSocket.
From S2P Require Import Reactor.

#[local] Open Scope Z_scope.

Section Run.
Context {K : Type} `{EdgeTriggered K}.
Implicit Types r : reactor K.

(** A socket that has not been registered. *)
Definition reactor_make (k : K) : reactor K :=
  mkReactor k false (mkDesc 0 (λ _, []) (λ _, true) false) None [] [] [] 0 [] [].

(** The calls of the socket's users, of the scheduler and its threads; and the world. *)
Inductive call :=
  | Start (t : nat) (o : reactor_op) (allow_speculative : bool)
  | Cancel
  | CancelByKey (t : nat) (key : Z)
  | Deregister (closing : bool)
  | Cleanup
  | Run
  | Take
  | Complete (i : nat)
  | RunPosted (i : nat)
  | World (k : K).

Definition do_call (c : call) : M (reactor K) unit :=
  match c with
  | Start t o allow => start_op t o allow
  | Cancel => cancel_ops
  | CancelByKey t key => cancel_ops_by_key t key
  | Deregister closing => deregister_descriptor closing
  | Cleanup => cleanup_descriptor_data
  | Run => run
  | Take => take_descriptor
  | Complete i => complete_descriptor i
  | RunPosted i => run_posted i
  | World k => modify (set_kernel k)
  end.

Definition call_ok (c : call) r : Prop :=
  match c with
  | Start t o allow => start_ok t o allow r
  | CancelByKey t _ => (t < max_ops)%nat
  | World k => happens (kernel r) k
  | _ => True
  end.

Definition reactor_step r r' : Prop := ∃ c, call_ok c r ∧ do_call c r = Ok (tt, r').

Fixpoint do_calls (cs : list call) : M (reactor K) unit :=
  match cs with
  | [] => mret tt
  | c :: cs => do_call c;; do_calls cs
  end.

Fixpoint calls_ok (cs : list call) r : Prop :=
  match cs with
  | [] => True
  | c :: cs => call_ok c r ∧ match do_call c r with Ok (_, r') => calls_ok cs r' | Fault _ => False end
  end.

(** A turn of the event loop: epoll, the scheduler, and the threads, one after the other. *)
Fixpoint complete_all (n : nat) : M (reactor K) unit :=
  match n with
  | O => mret tt
  | S n => complete_descriptor 0;; complete_all n
  end.

Definition turn : M (reactor K) unit :=
  run;;
  take_descriptor;;
  n ← gets (λ r, length (in_flight r));
  complete_all n.

Lemma calls_steps cs r r' : calls_ok cs r → do_calls cs r = Ok (tt, r') → rtc reactor_step r r'.
Proof.
  revert r. induction cs as [|c cs IH]; intros r; cbn [calls_ok do_calls]; [intros _ [= <-]; constructor|].
  intros [Hc Hcs]. destruct (do_call c r) as [[[] r1]|f] eqn:E; [|done]. erewrite bind_ok by exact E.
  intros E'. apply (rtc_l _ _ r1); [by exists c|by apply IH].
Qed.

Lemma calls_ok_cons c cs r r' : call_ok c r → do_call c r = Ok (tt, r') → calls_ok cs r' → calls_ok (c :: cs) r.
Proof. intros Hc E Hcs. cbn. by rewrite E. Qed.

Context {laws : KernelLaws K}.

(** ** Every reachable state is sound *)

Lemma sound_empty k k' e :
  traffic K k k' [] [] → (e ≠ 0 → watched k' = e ∧ watches e read_op = true) →
  sound k (mkReactor k' true (mkDesc e (λ _, []) (λ _, true) false) None [] [] [] 0 [] []).
Proof.
  intros T Hw. split; split; try done.
  - intros j _ _ _ [Hq|[Ht _]]; done.
  - by intros j o ?%not_elem_of_nil.
Qed.

Lemma register_ok k r : register_descriptor (reactor_make k) = Ok (0, r) → sound k r.
Proof.
  unfold register_descriptor. do 2 (erewrite bind_ok by reflexivity). set (events := Z.lor EPOLLIN _).
  pose proof (ctl_law K events k epoll_add (or_introl eq_refl)) as L.
  set (r1 := set_dstate _ _). destruct (epoll_add events k) as [[u|e] k'] eqn:E; destruct L as [T L];
    erewrite bind_ok by (unfold on_kernel, syscall; change (kernel r1) with k; rewrite E; reflexivity).
  - intros [= <-]. destruct L as (_ & _ & Hw & _). by apply sound_empty.
  - cbn beta iota. destruct (e =? op_not_permitted); [|unfold mret, M_ret; intros [= -> _]; by destruct L]. intros [= <-]. by apply sound_empty.
Qed.

Lemma call_sound k0 c r : sound k0 r → call_ok c r → ∃ r', do_call c r = Ok (tt, r') ∧ sound k0 r'.
Proof.
  intros S Hc. destruct c as [t o allow| |t key|closing| | | |i|i|k]; cbn [do_call call_ok] in *.
  - by apply start_op_ok.
  - by apply cancel_ops_ok.
  - by apply cancel_ops_by_key_ok.
  - by apply deregister_ok.
  - eexists. split; [reflexivity|]. by apply sound_present.
  - destruct (run_ok k0 r S) as (r' & E & S' & _). by exists r'.
  - eexists. by apply take_descriptor_ok.
  - destruct (in_flight r !! i) as [e|] eqn:E.
    + destruct (complete_descriptor_ok k0 r i e S E) as (r' & E' & S' & _). by exists r'.
    + exists r. split; [|done]. unfold complete_descriptor. erewrite bind_ok by reflexivity. by rewrite E.
  - by apply run_posted_ok.
  - eexists. split; [reflexivity|]. by apply happens_ok.
Qed.

Lemma steps_sound k0 r r' : sound k0 r → rtc reactor_step r r' → sound k0 r'.
Proof.
  intros S Hs. induction Hs as [|r1 r2 r3 (c & Hc & E) _ IH]; [done|]. apply IH.
  destruct (call_sound k0 c r1 S Hc) as (r' & E' & S'). rewrite E in E'. by injection E' as <-.
Qed.

(** ** A turn of the loop *)

Lemma complete_all_ok k0 n r :
  sound k0 r → length (in_flight r) = n →
  ∃ r', complete_all n r = Ok (tt, r') ∧ sound k0 r' ∧ rtc reactor_step r r' ∧
    ∀ j, (j < max_ops)%nat → drained j r ∨ (∃ e, e ∈ in_flight r ∧ covers e j = true) → drained j r'.
Proof.
  revert r. induction n as [|n IH]; intros r S Hn; cbn [complete_all].
  - exists r. split_and!; [done|done|constructor|]. intros j _ [Hd|(e & He & _)]; [done|]. destruct (in_flight r); [by apply not_elem_of_nil in He|done].
  - destruct (in_flight r) as [|e l] eqn:El; [done|]. injection Hn as Hn.
    destruct (complete_descriptor_ok k0 r 0 e S) as (r1 & E1 & S1 & L & D); [by rewrite El|].
    erewrite bind_ok by exact E1. pose proof (l_events _ _ L) as [_ Ei]. cbn in Ei. rewrite El in Ei. cbn in Ei.
    destruct (IH r1 S1) as (r' & E' & S' & R' & D'); [by rewrite Ei|]. exists r'. split_and!; [done|done|apply (rtc_l _ _ r1); [by exists (Complete 0)|done]|].
    intros j Hj Hor. apply D'; [done|]. destruct Hor as [Hd|(e' & He & Hc)]; [left; by apply (later_drained j _ r1 L)|].
    apply elem_of_cons in He as [->|He]; [left; by apply D|right]. exists e'. by rewrite Ei.
Qed.

Lemma turn_ok k0 r : sound k0 r → ∃ r', turn r = Ok (tt, r') ∧ rtc reactor_step r r' ∧ ∀ j, drained j r'.
Proof.
  intros S. unfold turn. destruct (run_ok k0 r S) as (r1 & E1 & S1 & [_ _ N]). erewrite bind_ok by exact E1.
  destruct (take_descriptor_ok k0 r1 S1) as [E2 S2]. erewrite bind_ok by exact E2. erewrite bind_ok by reflexivity.
  destruct (complete_all_ok k0 _ (taken r1) S2 eq_refl) as (r' & E3 & S3 & R3 & D). exists r'. split_and!; [done| |].
  { apply (rtc_l _ _ r1); [by exists Run|]. apply (rtc_l _ _ (taken r1)); [by exists Take|done]. }
  intros j. destruct (queue r' j) eqn:Eq; [by left|]. destruct (a_queue _ _ (proj1 S3) j) as (Hj & _); [by rewrite Eq|].
  apply D; [done|]. assert (Et : queue (taken r1) = queue r1 ∧ kernel (taken r1) = kernel r1) by (unfold taken; by destruct (queued_events r1)).
  destruct Et as [Et Ek]. unfold drained. rewrite Et, Ek. destruct (queue r1 j) eqn:Eq1; [by left; left|].
  destruct (news j (kernel r1)) eqn:En; [right|by left; right]. apply taken_events, N; [by rewrite Eq1|done].
Qed.

(** ** What the reactor promises *)

(** C26: At any time after a socket has been registered, whatever calls have been made by users and threads
    that [call_ok] admits, and whatever has arrived in between: if an operation waits in a queue while there is
    something for it that it has not been told yet ([news]), then epoll is about to report it, or the scheduler or a
    thread has the report. And a turn of the event loop then leaves no operation waiting that could go on.
    [call_ok] asks that a read is for at least one byte, that an accept reports aborted connections or the system has none
    ([op_ok]), and that epoll_ctl succeeds where its result is not looked at ([start_ok]).  What happens
    otherwise is at the end of the file: behind an aborted connection an accept stalls, and a read that is
    started after the end of the stream has been read is not told of it again. *)
Theorem no_readiness_lost k r0 r :
  register_descriptor (reactor_make k) = Ok (0, r0) → rtc reactor_step r0 r →
  (∀ j, queue r j ≠ [] → news j (kernel r) = true → told (kernel r) = true ∨ event_for r j) ∧
  ∃ r', turn r = Ok (tt, r') ∧ rtc reactor_step r r' ∧ ∀ j, queue r' j = [] ∨ news j (kernel r') = false.
Proof.
  intros E Hs. pose proof (steps_sound k r0 r (register_ok k r0 E) Hs) as S. split; [|by apply (turn_ok k)].
  intros j Hq. destruct (a_queue _ _ (proj1 S) j Hq) as (Hj & _ & Hsh). apply (a_news _ _ (proj1 S) j I Hj Hsh). by left.
Qed.

(** The operations that have not been given back. *)
Definition pending r : list reactor_op := take_all (dstate r) ++ posted r.

(** C27: At any time after a socket has been registered every call returns; the operations of a type
    are performed in the order in which they were started, before those that still wait; every operation
    started is waiting, posted or called, and exactly once; the outstanding work is the number of those not
    called; and the bytes that the socket has passed on are, in order, those of the performed operations. *)
Theorem performed_in_order k r0 r :
  register_descriptor (reactor_make k) = Ok (0, r0) → rtc reactor_step r0 r →
  (∀ c, call_ok c r → ∃ r', do_call c r = Ok (tt, r')) ∧
  (∀ j, of_type j (performed r) ++ map op_id (queue r j) `sublist_of` of_type j (started r)) ∧
  map op_id (started r) ≡ₚ map op_id (pending r ++ called r) ∧
  outstanding_work_ r = zlen (pending r) ∧
  received (kernel r) = received k ++ concat (map op_data (performed r)) ∧
  sent (kernel r) = sent k ++ concat (map sent_by (performed r)).
Proof.
  intros E Hs. pose proof (steps_sound k r0 r (register_ok k r0 E) Hs) as S. pose proof S as [_ [C1 C2 C3 [C4 C5]]]. split_and!; try done.
  - intros c Hc. destruct (call_sound k c r S Hc) as (r' & E' & _). by exists r'.
  - apply perm_of_zsum. intros f. specialize (C2 f). rewrite !zsum_map. fold (by_id f). unfold pending. zsums.
    rewrite (proj1 (total_taken f _)). lia.
  - unfold pending. rewrite zlen_app, (proj2 (total_taken (λ _, 0) _)), C3. zl.
Qed.
End Run.
Arguments call : clear implicits.

(** ** A run *)

Definition stream : Z := 2 ^ 4.
Definition sock0 : sock := mkSock [] false false 2 0 [] [] false 0.

(** A read that has to wait, three writes for which there is not enough room, data, room and a signal, and a turn. *)
Definition before_turn : list (call sock) := [
  Start read_op (new_op 1 (Recv 4) stream 0) true;
  Start write_op (new_op 2 (Send [x78; x79; x7a]) stream 0) true;
  Start write_op (new_op 3 (Send [x7a]) stream 0) true;
  Start write_op (new_op 4 (Send [x77]) stream 0) true;
  World (mkSock [x61; x62] false false 0 0 [x78; x79] [] true 0x8000001f);
  World (mkSock [x61; x62] false false 1 0 [x78; x79] [] true 0x8000001f);
  World (mkSock [x61; x62] false false 1 1 [x78; x79] [] true 0x8000001f)
].

Definition after_turn : list (call sock) := [Run; Take; Complete 0; RunPosted 0].

Ltac next_call := eapply calls_ok_cons; [| vm_compute; reflexivity |].
Ltac world event := next_call; [cbn [call_ok happens sock_edges kernel]; match goal with |- sock_happens ?s _ => exact (event s) end|].

Lemma no_readiness_lost_witness :
  ∃ r0 r, register_descriptor (reactor_make sock0) = Ok (0, r0) ∧ do_calls before_turn r0 = Ok (tt, r) ∧
    map op_id (queue r read_op) = [1%nat] ∧ map op_id (queue r write_op) = [3%nat; 4%nat] ∧
    ∃ r', turn r = Ok (tt, r') ∧ queue r' read_op = [] ∧ map op_id (queue r' write_op) = [4%nat] ∧
      ∀ j, queue r' j = [] ∨ news j (kernel r') = false.
Proof.
  do 2 eexists. split; [vm_compute; reflexivity|]. split; [vm_compute; reflexivity|]. split; [reflexivity|]. split; [reflexivity|].
  edestruct (no_readiness_lost sock0) as [_ (r' & E & _ & D)].
  - vm_compute; reflexivity.
  - apply (calls_steps before_turn); [|vm_compute; reflexivity]. unfold before_turn.
    do 4 (next_call; [by split_and!|]).
    world (λ s, data_arrives s [x61; x62]). world (λ s, room_again s 1). world signal_arrives. done.
  - exists r'. split; [exact E|]. vm_compute in E. injection E as <-. by split_and!.
Defined.

Lemma performed_in_order_witness :
  ∃ r0 r, register_descriptor (reactor_make sock0) = Ok (0, r0) ∧ do_calls (before_turn ++ after_turn) r0 = Ok (tt, r) ∧
    map op_id (started r) = [1%nat; 2%nat; 3%nat; 4%nat] ∧ map op_id (performed r) = [2%nat; 3%nat; 1%nat] ∧
    map op_id (called r) = [3%nat; 2%nat] ∧ outstanding_work_ r = 2 ∧
    sent (kernel r) = [x78; x79; x7a] ∧ received (kernel r) = [x61; x62] ∧
    map op_id (started r) ≡ₚ map op_id (pending r ++ called r).
Proof.
  do 2 eexists. split; [vm_compute; reflexivity|]. split; [vm_compute; reflexivity|]. do 6 (split; [reflexivity|]).
  eapply (performed_in_order sock0).
  - vm_compute; reflexivity.
  - apply (calls_steps (before_turn ++ after_turn)); [|vm_compute; reflexivity]. unfold before_turn, after_turn. cbn [app].
    do 4 (next_call; [by split_and!|]).
    world (λ s, data_arrives s [x61; x62]). world (λ s, room_again s 1). world signal_arrives.
    do 4 (next_call; [done|]). done.
Defined.

(** ** What is left out by the conditions *)

Definition listener0 : listener := mkListener [] false 0.

(** A connection that is aborted before it is accepted ends the turn of an accept operation, without
    an edge for the one that came in after it: it waits until yet another arrives.  The acceptors of the program
    do not report aborted connections, and can get here. *)
Example aborted_accept_stalls :
  ∃ r0 r1 r2, register_descriptor (reactor_make listener0) = Ok (0, r0) ∧
    start_op read_op (new_op 1 Accept 0 0) true r0 = Ok (tt, r1) ∧
    turn (set_kernel (come (SysOk 7) (come (SysErr connection_aborted) (kernel r1))) r1) = Ok (tt, r2) ∧
    map op_id (queue r2 read_op) = [1%nat] ∧ backlog (kernel r2) = [SysOk 7] ∧ l_edge (kernel r2) = false ∧
    queued_events r2 = None ∧ in_flight r2 = [].
Proof. do 3 eexists. do 3 (split; [vm_compute; reflexivity|]). by split_and!. Qed.

(** A read after the end of the stream has been read waits, since the next one is not tried and the edge is gone. *)
Example read_after_end_waits :
  ∃ r0 r1 r2, register_descriptor (reactor_make sock0) = Ok (0, r0) ∧
    do_calls [Start read_op (new_op 1 (Recv 4) stream 0) true] (set_kernel (peer_ends (kernel r0)) r0) = Ok (tt, r1) ∧
    map ec_ (posted r1) = [eof] ∧
    (start_op read_op (new_op 2 (Recv 4) stream 0) true;; turn;; turn) r1 = Ok (tt, r2) ∧
    map op_id (queue r2 read_op) = [2%nat] ∧ fin (kernel r2) = true ∧ edge (kernel r2) = false ∧
    queued_events r2 = None ∧ in_flight r2 = [].
Proof.
  do 3 eexists. split; [vm_compute; reflexivity|]. split; [vm_compute; reflexivity|]. split; [reflexivity|].
  split; [vm_compute; reflexivity|]. by split_and!.
Qed.
