(* ===== verification/SocketService.v ===== *)
(** * The service of a socket (asio/detail/reactive_socket_service_base)

    A socket with its registration in the reactor: how it is opened, set to non-blocking
    mode, given operations and closed, with the functions of socket_ops.ipp this takes.
    Results: under any calls of the service, the reactor and the world, an open socket is
    registered; once it is closed nothing waits for it, and what had been waiting
    has been given back as aborted. *)

From Stdlib Require Import ZArith Lia Strings.Byte.
From stdpp Require Import base list numbers functions relations.
From S2P Require Import Prelude.
From S2P Require Import Along.
From S2P Require Import SocketOps.
From S2P Require Import StreamSocket.
From S2P Require Import Reactor.
From S2P Require Import ReactorRun.

#[local] Open Scope Z_scope.

Definition invalid_argument : Z := 22.
Definition in_progress : Z := 115.
Definition no_buffer_space : Z := 105.

Definition invalid_socket : Z := -1.
Definition SOCK_STREAM : Z := 1.
Definition SOCK_DGRAM : Z := 2.

(** [state_type] is an [unsigned char]. *)
Definition user_set_non_blocking : Z := 1.
Definition internal_non_blocking : Z := 2.
Definition non_blocking : Z := Z.lor user_set_non_blocking internal_non_blocking.
Definition user_set_linger : Z := 8.
Definition flag_stream_oriented : Z := 16.
Definition flag_datagram_oriented : Z := 32.
Definition possible_dup : Z := 64.

Definition without (flags state : Z) : Z := Z.land state (Z.lnot flags).

(** [custom_socket_option_level] is 0xA5100000 as an [int]. *)
Definition custom_socket_option_level : Z := 0xA5100000 - 2 ^ 32.
Definition enable_connection_aborted_option : Z := 1.
Definition always_fail_option : Z := 2.
Definition connection_aborted_flag : Z := 4.
Definition SOL_SOCKET : Z := 1.
Definition SO_LINGER : Z := 13.

(** ** The calls on the socket that the reactor does not make *)

Class SocketCalls (K : Type) `{Kernel K} := {
  sys_socket : Z → Z → Z → K → sys Z * K;
  sys_non_blocking : bool → K → sys unit * K;   (** [ioctl(s, FIONBIO, &arg)] *)
  sys_setsockopt : Z → Z → list Z → K → sys unit * K;   (** level, name, and the [int]s of the value *)
  sys_close : K → sys unit * K;
  sys_shutdown : Z → K → sys unit * K;
  sys_connect : list byte → K → sys unit * K
}.

(** [base_implementation_type]; [reactor_data_] is in the reactor's record. *)
Record base_implementation_type (K : Type) := mkImpl {
  socket_ : Z;
  impl_state_ : Z;
  impl_reactor : reactor K
}.
Arguments mkImpl {K}.
Arguments socket_ {K}.
Arguments impl_state_ {K}.
Arguments impl_reactor {K}.

Section Service.
Context {K : Type} `{SocketCalls K}.

Abbreviation MI := (M (base_implementation_type K)).

Definition set_native (s : Z) (i : base_implementation_type K) := mkImpl s (impl_state_ i) (impl_reactor i).
Definition set_flags (f : Z) (i : base_implementation_type K) := mkImpl (socket_ i) f (impl_reactor i).
Definition set_reactor (r : reactor K) (i : base_implementation_type K) := mkImpl (socket_ i) (impl_state_ i) r.

Definition on_reactor {A} (m : M (reactor K) A) : MI A := λ i,
  match m (impl_reactor i) with
  | Ok (a, r) => Ok (a, set_reactor r i)
  | Fault f => Fault f
  end.

Definition os {A} (f : K → A * K) : MI A := on_reactor (on_kernel (syscall f)).

(** [get_last_error] of a call's result. *)
Definition last_error {A} (r : sys A) : asio_error := match r with SysOk _ => no_error | SysErr e => system_error e end.
Definition failed {A} (r : sys A) : bool := match r with SysOk _ => false | SysErr _ => true end.

(** ** socket_ops *)

Definition setsockopt (level optname : Z) (optval : list Z) : MI asio_error :=
  i ← gets id;
  if socket_ i =? invalid_socket then mret (system_error bad_descriptor)
  else if (level =? custom_socket_option_level) && (optname =? always_fail_option) then mret (system_error invalid_argument)
  else if (level =? custom_socket_option_level) && (optname =? enable_connection_aborted_option) then
    match optval with
    | [value] =>
        modify (set_flags (if negb (value =? 0) then Z.lor (impl_state_ i) connection_aborted_flag
                           else without connection_aborted_flag (impl_state_ i)));;
        mret no_error
    | _ => mret (system_error invalid_argument)
    end
  else
    when ((level =? SOL_SOCKET) && (optname =? SO_LINGER)) (modify (set_flags (Z.lor (impl_state_ i) user_set_linger)));;
    result ← os (sys_setsockopt level optname optval);
    mret (last_error result).

(** [socket_ops::close]; in a destructor the socket lingers in the background.  [None]: no call was made,
    and the error is as it was. *)
Definition so_close (destruction : bool) : MI (option asio_error) :=
  i ← gets id;
  if socket_ i =? invalid_socket then mret None
  else
    when (destruction && negb (Z.land (impl_state_ i) user_set_linger =? 0))
      (setsockopt SOL_SOCKET SO_LINGER [0; 0];; mret tt);;
    result ← os sys_close;
    match result with
    | SysErr e =>
        if e =? try_again then
          os (sys_non_blocking false);;
          modify (λ i, set_flags (without non_blocking (impl_state_ i)) i);;
          result ← os sys_close;
          mret (Some (last_error result))
        else mret (Some (system_error e))
    | SysOk _ => mret (Some no_error)
    end.

(** The destructor of a [socket_holder], whose state is a variable of its own. *)
Definition close_held (s : Z) : MI unit :=
  i ← gets id;
  modify (λ i, mkImpl s 0 (impl_reactor i));;
  so_close true;;
  modify (λ j, mkImpl (socket_ i) (impl_state_ i) (impl_reactor j)).

Definition set_user_non_blocking (value : bool) : MI (bool * asio_error) :=
  i ← gets id;
  if socket_ i =? invalid_socket then mret (false, system_error bad_descriptor)
  else
    result ← os (sys_non_blocking value);
    when (negb (failed result))
      (modify (λ i, set_flags (if value then Z.lor (impl_state_ i) user_set_non_blocking
                               else without (Z.lor user_set_non_blocking internal_non_blocking) (impl_state_ i)) i));;
    mret (negb (failed result), last_error result).

Definition set_internal_non_blocking (value : bool) : MI (bool * asio_error) :=
  i ← gets id;
  if socket_ i =? invalid_socket then mret (false, system_error bad_descriptor)
  else if negb value && negb (Z.land (impl_state_ i) user_set_non_blocking =? 0) then
    mret (false, system_error invalid_argument)
  else
    result ← os (sys_non_blocking value);
    when (negb (failed result))
      (modify (λ i, set_flags (if value then Z.lor (impl_state_ i) internal_non_blocking
                               else without internal_non_blocking (impl_state_ i)) i));;
    mret (negb (failed result), last_error result).

Definition shutdown (what : Z) : MI asio_error :=
  i ← gets id;
  if socket_ i =? invalid_socket then mret (system_error bad_descriptor)
  else result ← os (sys_shutdown what); mret (last_error result).

(** [socket_ops::connect]: whether it succeeded, and the error. *)
Definition connect (addr : list byte) : MI (bool * asio_error) :=
  i ← gets id;
  if socket_ i =? invalid_socket then mret (false, system_error bad_descriptor)
  else
    result ← os (sys_connect addr);
    mret (negb (failed result),
      match result with
      | SysErr e => system_error (if e =? try_again then no_buffer_space else e)
      | SysOk _ => no_error
      end).

(** ** The service *)

Definition construct : MI unit := modify (λ i, mkImpl invalid_socket 0 (impl_reactor i)).

Definition is_open (i : base_implementation_type K) : bool := negb (socket_ i =? invalid_socket).

Definition closing (i : base_implementation_type K) : bool := Z.land (impl_state_ i) possible_dup =? 0.

Definition destroy : MI unit :=
  i ← gets id;
  if negb (socket_ i =? invalid_socket) then
    on_reactor (deregister_descriptor (closing i));;
    so_close true;;
    on_reactor cleanup_descriptor_data
  else mret tt.

(** The error that [close] returns; [ec] is what it has been given. *)
Definition close (ec : asio_error) : MI asio_error :=
  i ← gets id;
  ec ← (if is_open i then
          on_reactor (deregister_descriptor (closing i));;
          r ← so_close false;
          on_reactor cleanup_descriptor_data;;
          mret (match r with Some e => e | None => ec end)
        else mret no_error);
  construct;;
  mret ec.

Definition release : MI (Z * asio_error) :=
  i ← gets id;
  if negb (is_open i) then mret (invalid_socket, system_error bad_descriptor)
  else
    on_reactor (deregister_descriptor false);;
    on_reactor cleanup_descriptor_data;;
    i ← gets id;
    construct;;
    mret (socket_ i, no_error).

Definition cancel : MI asio_error :=
  i ← gets id;
  if negb (is_open i) then mret (system_error bad_descriptor)
  else on_reactor cancel_ops;; mret no_error.

Definition flags_of (type : Z) : Z :=
  if type =? SOCK_STREAM then flag_stream_oriented else if type =? SOCK_DGRAM then flag_datagram_oriented else 0.

(** The new descriptor is closed again ([socket_holder]) if it cannot be registered. *)
Definition do_open (af type protocol : Z) : MI asio_error :=
  i ← gets id;
  if is_open i then mret already_open
  else
    sock ← os (sys_socket af type protocol);
    match sock with
    | SysErr e => mret (system_error e)
    | SysOk s =>
        err ← on_reactor register_descriptor;
        if negb (err =? 0) then
          close_held s;;
          mret (system_error err)
        else
          modify (set_native s);;
          modify (set_flags (flags_of type));;
          mret no_error
    end.

Definition do_assign (type : Z) (native_socket : Z) : MI asio_error :=
  i ← gets id;
  if is_open i then mret already_open
  else
    err ← on_reactor register_descriptor;
    if negb (err =? 0) then mret (system_error err)
    else
      modify (set_native native_socket);;
      modify (set_flags (Z.lor (flags_of type) possible_dup));;
      mret no_error.

(** [reactor::post_immediate_completion], of an operation that the reactor has not seen. *)
Definition post_at_once (o : reactor_op) : MI unit := on_reactor (modify (add_started o);; post_immediate_completion o).

(** Asynchronous operations need non-blocking mode. *)
Definition ensure_non_blocking (o : reactor_op) : MI (bool * reactor_op) :=
  i ← gets id;
  if negb (Z.land (impl_state_ i) non_blocking =? 0) then mret (true, o)
  else r ← set_internal_non_blocking true; mret (r.1, set_ec r.2 o).

Definition start_op (t : nat) (o : reactor_op) (is_non_blocking noop : bool) : MI unit :=
  if noop then post_at_once o
  else
    r ← ensure_non_blocking o;
    if (r : bool * reactor_op).1 then on_reactor (Reactor.start_op t r.2 is_non_blocking) else post_at_once r.2.

Definition start_accept_op (o : reactor_op) (peer_is_open : bool) : MI unit :=
  if negb peer_is_open then start_op read_op o true false else post_at_once (set_ec already_open o).

Definition start_connect_op (o : reactor_op) (addr : list byte) : MI unit :=
  r ← ensure_non_blocking o;
  let o := (r : bool * reactor_op).2 in
  if r.1 then
    c ← connect addr;
    let o := set_ec (c : bool * asio_error).2 o in
    if negb c.1 && match c.2 with system_error e => (e =? in_progress) || (e =? try_again) | _ => false end
    then on_reactor (Reactor.start_op write_op (set_ec no_error o) false)
    else post_at_once o
  else post_at_once o.

(** Without flags and with one buffer.  The operation keeps a copy of the flags. *)
Definition async_receive (id : nat) (size : Z) : MI unit :=
  i ← gets (λ i, i);
  start_op read_op (new_op id (Recv size) (impl_state_ i) 0) true (stream_oriented (impl_state_ i) && (size =? 0)).

Definition async_send (id : nat) (data : list byte) : MI unit :=
  i ← gets (λ i, i);
  start_op write_op (new_op id (Send data) (impl_state_ i) 0) true (stream_oriented (impl_state_ i) && (zlen data =? 0)).

Definition async_accept (id : nat) (peer_is_open : bool) : MI unit :=
  i ← gets (λ i, i);
  start_accept_op (new_op id Accept (impl_state_ i) 0) peer_is_open.

Definition async_connect (id : nat) (addr : list byte) : MI unit :=
  i ← gets (λ i, i);
  start_connect_op (new_op id Connect (impl_state_ i) 0) addr.

End Service.

(** ** What is documented of these calls *)

Section ServiceLaws.
Context (K : Type) `{EdgeTriggered K} `{!SocketCalls K}.

Class SocketCallLaws : Prop := {
  socket_law af type protocol k : let '(r, k') := sys_socket af type protocol k in
    traffic K k k' [] [] ∧ match r with SysOk s => s ≠ invalid_socket | SysErr e => e ≠ 0 end;
  non_blocking_law b k : let '(_, k') := sys_non_blocking b k in calm K k k' ∧ traffic K k k' [] [];
  option_law level name value k : let '(_, k') := sys_setsockopt level name value k in calm K k k' ∧ traffic K k k' [] [];
  close_law k : let '(_, k') := sys_close k in traffic K k k' [] [];
  shutdown_law what k : let '(_, k') := sys_shutdown what k in k' = k ∨ happens k k';
  connect_law addr k : let '(_, k') := sys_connect addr k in k' = k ∨ happens k k'
}.
End ServiceLaws.

(** ** Reachable states *)

Section Using.
Context {K : Type} `{EdgeTriggered K} `{!SocketCalls K} {laws : KernelLaws K} {call_laws : SocketCallLaws K}.
Implicit Types (r : reactor K) (i : base_implementation_type K).

Definition kernel_of i : K := kernel (impl_reactor i).

(** Nothing is asked of the operating system about such a descriptor. *)
Definition idle r : Prop :=
  (∀ j, queue r j = []) ∧ (shutdown_ (dstate r) = true ∨ (registered r = 0 ∧ ∀ j, try_speculative_ (dstate r) j = true)).

Record service_ok (k0 : K) i : Prop := {
  s_sound : sound k0 (impl_reactor i);
  s_open : is_open i = true → descriptor_data (impl_reactor i) = true ∧ shutdown_ (dstate (impl_reactor i)) = false;
  s_closed : is_open i = false → idle (impl_reactor i) ∧ descriptor_data (impl_reactor i) = false ∧ impl_state_ i = 0
}.

Lemma on_reactor_ok {A} (m : M (reactor K) A) i a r : m (impl_reactor i) = Ok (a, r) → on_reactor m i = Ok (a, set_reactor r i).
Proof. intros E. unfold on_reactor. by rewrite E. Qed.

Lemma os_ok {A} (f : K → A * K) i :
  os f i = Ok ((f (kernel_of i)).1, set_reactor (set_kernel (f (kernel_of i)).2 (impl_reactor i)) i).
Proof. unfold os. apply on_reactor_ok. unfold on_kernel, syscall, kernel_of. by destruct (f (kernel (impl_reactor i))). Qed.

Lemma sound_quiet k0 r k' : sound k0 r → idle r → traffic K (kernel r) k' [] [] → sound k0 (set_kernel k' r).
Proof.
  intros [[A1 A2 A3 A4] [B1 B2 B3 B4]] [Hq Hs] T. split; split; try done.
  - intros j _ _ Hsh Hw. exfalso. destruct Hs as [Hs|[Hr Ht]]; [change (shutdown_ (dstate r) = false) in Hsh; congruence|].
    destruct Hw as [Hw|[Hw _]]; [by apply Hw, Hq|]. change (try_speculative_ (dstate r) j = false) in Hw. by rewrite Ht in Hw.
  - intros Hsh Hz. change (shutdown_ (dstate r) = false) in Hsh. change (registered r ≠ 0) in Hz. destruct Hs as [Hs|[Hr _]]; congruence.
  - cbn. pose proof (traffic_app _ _ _ _ _ _ _ B4 T) as T'. by rewrite !app_nil_r in T'.
Qed.

Lemma sound_moved k0 r k' : sound k0 r → k' = kernel r ∨ happens (kernel r) k' → sound k0 (set_kernel k' r).
Proof. intros S [-> |Hk]; [by destruct r|by apply happens_ok]. Qed.

Lemma service_kernel k0 i k' : service_ok k0 i → sound k0 (set_kernel k' (impl_reactor i)) → service_ok k0 (set_reactor (set_kernel k' (impl_reactor i)) i).
Proof. intros [S1 S2 S3] Hs. by split. Qed.

(** ** Registering *)

(** The operating system takes the descriptor, or leaves it to be used without epoll. *)
Definition registers (k : K) : Prop := ∀ m, (epoll_add m k).1 = SysOk tt ∨ (epoll_add m k).1 = SysErr op_not_permitted.

Lemma register_again k0 r :
  sound k0 r → idle r → registers (kernel r) →
  ∃ r', register_descriptor r = Ok (0, r') ∧ sound k0 r' ∧ descriptor_data r' = true ∧ shutdown_ (dstate r') = false.
Proof.
  intros [[A1 A2 A3 A4] [B1 B2 B3 B4]] [Hq _] Hreg. unfold register_descriptor. do 2 (erewrite bind_ok by reflexivity). set (events := Z.lor EPOLLIN _).
  set (r1 := set_dstate _ _). pose proof (ctl_law K events (kernel r) epoll_add (or_introl eq_refl)) as L. specialize (Hreg events).
  assert (Hs : ∀ k' e, traffic K (kernel r) k' [] [] → (e ≠ 0 → watched k' = e ∧ watches e read_op = true) →
    sound k0 (set_dstate (set_registered e (dstate r1)) (set_kernel k' r1))).
  { intros k' e T Hw. split; split; try done.
    - intros j _ _ _ [Hj|[Hj _]]; [by destruct Hj; apply Hq|done].
    - intros j Hj. by destruct Hj; apply Hq.
    - cbn. pose proof (traffic_app _ _ _ _ _ _ _ B4 T) as T'. by rewrite !app_nil_r in T'. }
  destruct (epoll_add events (kernel r)) as [res k'] eqn:E. cbn in Hreg. destruct L as [T L].
  erewrite bind_ok by (unfold on_kernel, syscall; change (kernel r1) with (kernel r); rewrite E; reflexivity).
  destruct Hreg as [-> | ->]; (eexists; split; [reflexivity|]); (split; [|done]).
  - apply (Hs k' events T). intros _. by destruct L as (_ & _ & Hw & _).
  - by apply (Hs k' 0 T).
Qed.

(** ** Closing *)

Lemma stream_lor f g : stream_oriented f = true → stream_oriented (Z.lor f g) = true.
Proof. unfold stream_oriented. rewrite Z.lor_spec. by intros ->. Qed.

Lemma stream_without f g : Z.testbit g 4 = false → stream_oriented f = true → stream_oriented (without g f) = true.
Proof. unfold stream_oriented, without. rewrite Z.land_spec, Z.lnot_spec by lia. by intros -> ->. Qed.

(** An option changes flags of the socket, but not its kind. *)
Lemma option_open level name value i :
  is_open i = true → ∃ e f k', setsockopt level name value i = Ok (e, mkImpl (socket_ i) f (set_kernel k' (impl_reactor i))) ∧
    calm K (kernel_of i) k' ∧ traffic K (kernel_of i) k' [] [] ∧ (stream_oriented (impl_state_ i) = true → stream_oriented f = true).
Proof.
  intros Ho. unfold setsockopt. erewrite bind_ok by reflexivity. unfold is_open in Ho. apply negb_true_iff in Ho. change (socket_ (id i)) with (socket_ i). rewrite Ho.
  assert (T0 : traffic K (kernel_of i) (kernel_of i) [] []) by (split; by rewrite app_nil_r).
  assert (Hi : ∀ f, set_flags f i = mkImpl (socket_ i) f (set_kernel (kernel_of i) (impl_reactor i))) by (intros f; by destruct i as [? ? []]).
  assert (Hn : i = mkImpl (socket_ i) (impl_state_ i) (set_kernel (kernel_of i) (impl_reactor i))) by (by destruct i as [? ? []]).
  assert (Hsame : ∀ e : asio_error, ∃ e' f k', Ok (e, i) = Ok (e', mkImpl (socket_ i) f (set_kernel k' (impl_reactor i))) ∧
    calm K (kernel_of i) k' ∧ traffic K (kernel_of i) k' [] [] ∧ (stream_oriented (impl_state_ i) = true → stream_oriented f = true)).
  { intros e. exists e, (impl_state_ i), (kernel_of i). rewrite <- Hn. split_and!; [done|apply calm_refl|done|done]. }
  destruct (_ && (name =? always_fail_option)); [apply Hsame|]. destruct (_ && (name =? enable_connection_aborted_option)).
  - destruct value as [|v [|? ?]]; [apply Hsame| |apply Hsame]. eexists _, _, (kernel_of i). rewrite <- Hi. split; [reflexivity|]. split; [apply calm_refl|]. split; [done|].
    intros Hs. change (impl_state_ (id i)) with (impl_state_ i). destruct (negb _); [by apply stream_lor|by apply stream_without].
  - pose proof (option_law K level name value (kernel_of i)) as L. destruct (_ && (name =? SO_LINGER)); erewrite bind_ok by reflexivity; erewrite bind_ok by apply os_ok.
    + eexists _, _, _. split; [reflexivity|]. change (kernel_of (set_flags _ i)) with (kernel_of i). destruct (sys_setsockopt _ _ _ _), L. split_and!; [done|done|]. by apply stream_lor.
    + eexists _, (impl_state_ i), _. split; [reflexivity|]. by destruct (sys_setsockopt _ _ _ _), L.
Qed.

Lemma so_close_open b i : is_open i = true → ∃ e f k', so_close b i = Ok (Some e, mkImpl (socket_ i) f (set_kernel k' (impl_reactor i))) ∧ traffic K (kernel_of i) k' [] [].
Proof.
  intros Ho. destruct (option_open SOL_SOCKET SO_LINGER [0; 0] i Ho) as (e0 & f0 & k0 & E0 & _ & T0 & _).
  unfold so_close. erewrite bind_ok by reflexivity. unfold is_open in Ho. apply negb_true_iff in Ho. change (socket_ (id i)) with (socket_ i). rewrite Ho.
  set (w := when _ _). assert (Hw : ∃ f k1, w i = Ok (tt, mkImpl (socket_ i) f (set_kernel k1 (impl_reactor i))) ∧ traffic K (kernel_of i) k1 [] []).
  { unfold w, when. destruct (b && _).
    - exists f0, k0. split; [by erewrite bind_ok by exact E0|done].
    - exists (impl_state_ i), (kernel_of i). split; [by destruct i as [? ? []]|]. split; by rewrite app_nil_r. }
  destruct Hw as (f & k1 & Ew & T1). erewrite bind_ok by exact Ew. erewrite bind_ok by apply os_ok. set (i1 := mkImpl _ f _) in *.
  pose proof (close_law K k1) as L2. change (kernel_of i1) with k1. destruct (sys_close k1) as [[[]|e] k2]; cbn [fst snd].
  - do 3 eexists. split; [reflexivity|]. by eapply traffic_nil.
  - destruct (e =? try_again); [|do 3 eexists; split; [reflexivity|]; by eapply traffic_nil].
    erewrite bind_ok by apply os_ok. erewrite bind_ok by reflexivity. erewrite bind_ok by apply os_ok.
    do 3 eexists. split; [reflexivity|]. cbn. pose proof (non_blocking_law K false k2) as L3. destruct (sys_non_blocking false k2) as [r3 k3].
    cbn [snd]. pose proof (close_law K k3) as L4. destruct (sys_close k3) as [r4 k4]. cbn [snd].
    eapply traffic_nil; [exact T1|]. eapply traffic_nil; [exact L2|]. eapply traffic_nil; [apply L3|exact L4].
Qed.

Lemma close_held_ok s i : ∃ k', close_held s i = Ok (tt, set_reactor (set_kernel k' (impl_reactor i)) i).
Proof.
  unfold close_held. do 2 (erewrite bind_ok by reflexivity). set (i1 := mkImpl s 0 _). destruct (is_open i1) eqn:Ho.
  - destruct (so_close_open true i1 Ho) as (e & f & k' & E & _). exists k'. by erewrite bind_ok by exact E.
  - exists (kernel_of i). unfold is_open in Ho. apply negb_false_iff in Ho. unfold so_close.
    erewrite bind_ok by (erewrite bind_ok by reflexivity; change (socket_ (id i1)) with (socket_ i1); rewrite Ho; reflexivity). by destruct i as [? ? []].
Qed.

(** What leaves the queues when the descriptor is deregistered. *)
Definition given_back r : list reactor_op := aborted (take_all (dstate r)).

Record quiet_after k0 r r' : Prop := {
  q_sound : sound k0 r';
  q_idle : idle r';
  q_posted : posted r' = posted r ++ given_back r;
  q_same : performed r' = performed r ∧ called r' = called r ∧ queued_events r' = queued_events r ∧ in_flight r' = in_flight r
}.

Lemma deregistered b k0 r :
  sound k0 r → descriptor_data r = true → shutdown_ (dstate r) = false →
  ∃ r', deregister_descriptor b r = Ok (tt, r') ∧ quiet_after k0 r r'.
Proof.
  intros S Hd Hs. destruct (deregister_ok k0 b r S) as (r' & E & S'). exists r'. split; [done|].
  unfold deregister_descriptor in E. erewrite bind_ok in E by reflexivity. rewrite Hd in E. cbn [when] in E.
  erewrite bind_ok in E by reflexivity. rewrite Hs in E. 
  assert (Er : posted r' = posted r ++ given_back r ∧ shutdown_ (dstate r') = true ∧ op_queue_ (dstate r') = op_queue_ (clear_queues (dstate r)) ∧
    (performed r' = performed r ∧ called r' = called r ∧ queued_events r' = queued_events r ∧ in_flight r' = in_flight r)).
  { unfold when in E. destruct (negb b && _); injection E as <-; by split_and!. }
  destruct Er as (Ep & Esh & Eq & Er). split; [done| |done|done]. split; [|by left]. intros j.
  destruct (queue r' j) eqn:Ej; [done|]. destruct (a_queue _ _ (proj1 S') j) as (_ & _ & Hf); [by rewrite Ej|]. congruence.
Qed.

(** The same, with the system call that closes the descriptor, and the descriptor's state freed. *)
Lemma quiet_kernel k0 r r' k' : quiet_after k0 r r' → traffic K (kernel r') k' [] [] → quiet_after k0 r (set_present false (set_kernel k' r')).
Proof.
  intros [S I P E] T. split; [|done..]. apply sound_present. by apply sound_quiet.
Qed.

Lemma close_when_open k0 i ec :
  service_ok k0 i → is_open i = true →
  ∃ e r', close ec i = Ok (e, mkImpl invalid_socket 0 r') ∧ quiet_after k0 (impl_reactor i) r' ∧ descriptor_data r' = false.
Proof.
  intros S Ho. destruct (s_open _ _ S Ho) as [Hd Hs]. destruct (deregistered (closing i) k0 _ (s_sound _ _ S) Hd Hs) as (r1 & E1 & Q1).
  set (i1 := set_reactor r1 i). destruct (so_close_open false i1 Ho) as (e & f & k2 & E2 & T2).
  exists e, (set_present false (set_kernel k2 r1)). split_and!; [|by apply quiet_kernel|done].
  unfold close. erewrite bind_ok by reflexivity. change (is_open (id i)) with (is_open i). rewrite Ho.
  erewrite bind_ok; [|erewrite bind_ok by (apply on_reactor_ok; exact E1); erewrite bind_ok by exact E2; reflexivity]. done.
Qed.

Lemma destroy_open k0 i :
  service_ok k0 i → is_open i = true →
  ∃ i', destroy i = Ok (tt, i') ∧ quiet_after k0 (impl_reactor i) (impl_reactor i') ∧ descriptor_data (impl_reactor i') = false.
Proof.
  intros S Ho. destruct (s_open _ _ S Ho) as [Hd Hs]. destruct (deregistered (closing i) k0 _ (s_sound _ _ S) Hd Hs) as (r1 & E1 & Q1).
  set (i1 := set_reactor r1 i). destruct (so_close_open true i1 Ho) as (e & f & k2 & E2 & T2).
  eexists. unfold destroy. split_and!; [erewrite bind_ok by reflexivity; unfold is_open in Ho; change (socket_ (id i)) with (socket_ i); rewrite Ho|..].
  - erewrite bind_ok by (apply on_reactor_ok; exact E1). erewrite bind_ok by exact E2. reflexivity.
  - by apply quiet_kernel.
  - done.
Qed.

Lemma closed_ok k0 r r' : quiet_after k0 r r' → descriptor_data r' = false → service_ok k0 (mkImpl invalid_socket 0 r').
Proof. intros [Q1 Q2 _ _] Hd. by split. Qed.

Lemma release_open k0 i :
  service_ok k0 i → is_open i = true →
  ∃ r', release i = Ok ((socket_ i, no_error), mkImpl invalid_socket 0 r') ∧ quiet_after k0 (impl_reactor i) r' ∧ descriptor_data r' = false.
Proof.
  intros S Ho. destruct (s_open _ _ S Ho) as [Hd Hs]. destruct (deregistered false k0 _ (s_sound _ _ S) Hd Hs) as (r1 & E1 & Q1).
  exists (set_present false r1). unfold release. split_and!; [|destruct Q1; split; [by apply sound_present|done..]|done].
  erewrite bind_ok by reflexivity. change (is_open (id i)) with (is_open i). rewrite Ho. cbn [negb].
  erewrite bind_ok by (apply on_reactor_ok; exact E1). done.
Qed.

(** ** Starting operations *)

Definition post_now (o : reactor_op) r : reactor K := set_posted (posted r ++ [o]) (add_work 1 (add_started o r)).

Lemma post_at_once_ok k0 i o :
  service_ok k0 i → post_at_once o i = Ok (tt, set_reactor (post_now o (impl_reactor i)) i) ∧ service_ok k0 (set_reactor (post_now o (impl_reactor i)) i).
Proof. intros [S1 S2 S3]. split; [done|]. split; [by apply (sound_post k0 _ o o)|done|done]. Qed.

Lemma ensure_closed k0 i o : service_ok k0 i → is_open i = false → ensure_non_blocking o i = Ok ((false, set_ec (system_error bad_descriptor) o), i).
Proof.
  intros S Hc. destruct (s_closed _ _ S Hc) as (_ & _ & Hf). unfold ensure_non_blocking. erewrite bind_ok by reflexivity. change (impl_state_ (id i)) with (impl_state_ i). rewrite Hf.
  unfold is_open in Hc. apply negb_false_iff in Hc. change (negb (Z.land 0 non_blocking =? 0)) with false. cbn beta iota.
  assert (E : set_internal_non_blocking true i = Ok ((false, system_error bad_descriptor), i)).
  { unfold set_internal_non_blocking. erewrite bind_ok by reflexivity. change (socket_ (id i)) with (socket_ i). by rewrite Hc. }
  by rewrite (bind_ok _ _ _ _ _ E).
Qed.

(** The operation keeps its identity; the rest may see the mode change. *)
Lemma ensure_open k0 i o :
  service_ok k0 i → is_open i = true →
  ∃ b e f k', ensure_non_blocking o i = Ok ((b, set_ec e o), mkImpl (socket_ i) f (set_kernel k' (impl_reactor i))) ∧
    calm K (kernel_of i) k' ∧ traffic K (kernel_of i) k' [] [] ∧ service_ok k0 (mkImpl (socket_ i) f (set_kernel k' (impl_reactor i))).
Proof.
  intros S Ho. unfold ensure_non_blocking. erewrite bind_ok by reflexivity. change (impl_state_ (id i)) with (impl_state_ i).
  assert (Hs : ∀ f k', calm K (kernel_of i) k' → traffic K (kernel_of i) k' [] [] → service_ok k0 (mkImpl (socket_ i) f (set_kernel k' (impl_reactor i)))).
  { intros f k' C T. destruct S as [S1 S2 S3]. split; [by apply sound_calm|done|]. intros Hc. unfold is_open in *. cbn in Hc. congruence. }
  assert (T0 : traffic K (kernel_of i) (kernel_of i) [] []) by (split; by rewrite app_nil_r).
  destruct (negb (Z.land (impl_state_ i) non_blocking =? 0)).
  - exists true, (ec_ o), (impl_state_ i), (kernel_of i). split_and!; [by destruct o, i as [? ? []]|apply calm_refl|done|apply Hs; [apply calm_refl|done]].
  - unfold is_open in Ho. apply negb_true_iff in Ho.
    assert (E : ∃ b e f k', set_internal_non_blocking true i = Ok ((b, e), mkImpl (socket_ i) f (set_kernel k' (impl_reactor i))) ∧ calm K (kernel_of i) k' ∧ traffic K (kernel_of i) k' [] []).
    { unfold set_internal_non_blocking. erewrite bind_ok by reflexivity. change (socket_ (id i)) with (socket_ i). rewrite Ho. cbn [negb andb].
      pose proof (non_blocking_law K true (kernel_of i)) as L. erewrite bind_ok by apply os_ok.
      destruct (sys_non_blocking true (kernel_of i)) as [[[]|e] k1]; do 4 eexists; (split; [reflexivity|done]). }
    destruct E as (b & e & f & k' & E & C & T). exists b, e, f, k'. split_and!; [by erewrite bind_ok by exact E|done|done|by apply Hs].
Qed.

(** *** The reactor leaves the registration alone *)

Definition stable r r' : Prop := descriptor_data r' = descriptor_data r ∧ shutdown_ (dstate r') = shutdown_ (dstate r).

#[local] Instance stable_preorder : PreOrder stable.
Proof. split; [by split|]. intros x y z [A1 A2] [B1 B2]. split; congruence. Qed.

Lemma stable_kernel {A} (m : M K A) : along stable (on_kernel m).
Proof. intros r a r'. unfold on_kernel. destruct (m (kernel r)) as [[b k]|]; [|done]. by intros [= _ <-]. Qed.

Ltac stable := along; try apply stable_kernel.

Lemma stable_perform o : along stable (perform o).
Proof. unfold perform. stable. Qed.

Lemma stable_start t o b : along stable (Reactor.start_op t o b).
Proof.
  unfold Reactor.start_op, fail_op, push_op, wait_in_queue, watch_output, post_immediate_completion, work_started, on_state. stable; try apply stable_perform.
Qed.

(** The calls that the threads of the event loop make, and the world. *)
Definition background (c : call K) : Prop :=
  match c with Run | Take | Complete _ | RunPosted _ | World _ => True | _ => False end.

Lemma stable_queue fuel j ops : along stable (perform_queue fuel j ops).
Proof.
  revert ops. induction fuel as [|fuel IH]; intros ops; cbn [perform_queue]; unfold on_state; stable; try apply IH; apply stable_perform.
Qed.

Lemma stable_background c : background c → along stable (do_call c).
Proof.
  destruct c; cbn [background do_call]; try done; intros _; unfold run, take_descriptor, complete_descriptor, perform_io, perform_type, run_posted, post_deferred_completions, on_state;
    stable; try apply stable_queue.
  refine (along_modify _ _ _). intros r. by destruct (queued_events r).
Qed.

(** A descriptor about which nothing is asked stays so. *)
Definition stays_idle r r' : Prop := idle r → idle r'.

#[local] Instance stays_idle_preorder : PreOrder stays_idle.
Proof. split; [by intros r Hr|]. intros x y z A B Hx. by apply B, A. Qed.

Lemma idle_kernel {A} (m : M K A) : along stays_idle (on_kernel m).
Proof. intros r a r'. unfold on_kernel. destruct (m (kernel r)) as [[b k]|]; [|done]. intros [= _ <-] Hr. exact Hr. Qed.

Lemma idle_queue fuel j ops : along stays_idle (perform_queue fuel j ops).
Proof.
  destruct fuel as [|fuel]; cbn [perform_queue]; apply along_gets_bind; intros r b r' E Hr; pose proof (proj1 Hr j) as Hq; unfold queue in Hq; cbn beta in E; rewrite ?Hq in E; by injection E as _ <-.
Qed.

Lemma idle_modify (f : reactor K → reactor K) : (∀ r, dstate (f r) = dstate r) → along stays_idle (modify f).
Proof. intros Hf. refine (along_modify _ _ _). intros r. unfold stays_idle, idle, queue, registered. by rewrite Hf. Qed.

Lemma idle_background c : background c → along stays_idle (do_call c).
Proof.
  destruct c; cbn [background do_call]; try done; intros _; unfold run, take_descriptor, complete_descriptor, perform_io, perform_type, run_posted, post_deferred_completions, on_state;
    along_cases; try apply idle_queue; try apply idle_kernel; try (by apply idle_modify).
  1: apply idle_modify; intros r; by destruct (queued_events r).
  all: refine (along_modify _ _ _); intros r [Hq Hs]; (split; [done|]); destruct Hs as [Hs|[Hr Ht]]; [by left|right; split; [done|]];
    intros j; cbn; unfold insert, fn_insert; case_decide; auto.
Qed.

(** ** Calls *)

Inductive service_call :=
  | SOpen (af type protocol : Z)
  | SAssign (type native_socket : Z)
  | SClose (ec : asio_error)
  | SRelease
  | SCancel
  | SShutdown (what : Z)
  | SUserNonBlocking (value : bool)
  | SInternalNonBlocking (value : bool)
  | SSetOption (level optname : Z) (optval : list Z)
  | SReceive (id : nat) (size : Z)
  | SSend (id : nat) (data : list byte)
  | SAccept (id : nat) (peer_is_open : bool)
  | SConnect (id : nat) (addr : list byte)
  | SReactor (c : call K).

Definition returns {A} (m : M (base_implementation_type K) A) : M (base_implementation_type K) unit := m;; mret tt.

Definition do_service (c : service_call) : M (base_implementation_type K) unit :=
  match c with
  | SOpen af type protocol => returns (do_open af type protocol)
  | SAssign type s => returns (do_assign type s)
  | SClose ec => returns (close ec)
  | SRelease => returns release
  | SCancel => returns cancel
  | SShutdown what => returns (shutdown what)
  | SUserNonBlocking b => returns (set_user_non_blocking b)
  | SInternalNonBlocking b => returns (set_internal_non_blocking b)
  | SSetOption level name value => returns (setsockopt level name value)
  | SReceive id size => async_receive id size
  | SSend id data => async_send id data
  | SAccept id peer => async_accept id peer
  | SConnect id addr => async_connect id addr
  | SReactor c => on_reactor (do_call c)
  end.

(** Descriptors can be registered; reads have room; an accept reports aborted connections, unless there are none; and
    the change of what is watched that starts a connect is accepted. *)
Definition service_call_ok (c : service_call) i : Prop :=
  match c with
  | SOpen af type protocol => registers (sys_socket af type protocol (kernel_of i)).2
  | SAssign type s => s ≠ invalid_socket ∧ registers (kernel_of i)
  | SReceive id size => 0 ≤ size ∧ (size = 0 → stream_oriented (impl_state_ i) = true)
  | SAccept id _ => op_ok (K := K) (new_op id Accept (impl_state_ i) 0)
  | SConnect _ _ => ∀ (k : K) mask, (epoll_mod mask k).1 = SysOk tt
  | SReactor c => background c ∧ call_ok c (impl_reactor i)
  | _ => True
  end.

Definition service_step i i' : Prop := ∃ c, service_call_ok c i ∧ do_service c i = Ok (tt, i').

(** ** Every call keeps the service in order *)

Lemma returns_ok {A} (m : M (base_implementation_type K) A) i a i' : m i = Ok (a, i') → returns m i = Ok (tt, i').
Proof. intros E. unfold returns. by erewrite bind_ok by exact E. Qed.

Lemma service_stable k0 i r' :
  service_ok k0 i → sound k0 r' → stable (impl_reactor i) r' → (is_open i = false → idle r') → service_ok k0 (set_reactor r' i).
Proof.
  intros [S1 S2 S3] Hs [E1 E2] Hi. split; [done|..]; cbn [impl_reactor set_reactor]; rewrite E1.
  - intros Ho. rewrite E2. by apply S2.
  - intros Hc. destruct (S3 Hc) as (_ & ? & ?). split_and!; [by apply Hi|done|done].
Qed.

Lemma reactor_started k0 i t o b :
  service_ok k0 i → is_open i = true → start_ok t o b (impl_reactor i) →
  ∃ i', on_reactor (Reactor.start_op t o b) i = Ok (tt, i') ∧ service_ok k0 i'.
Proof.
  intros S Ho Hok. destruct (start_op_ok k0 _ t o b (s_sound _ _ S) Hok) as (r' & E & S'). exists (set_reactor r' i).
  split; [by apply on_reactor_ok|]. apply service_stable; [done|done|by eapply stable_start|congruence].
Qed.

Lemma service_started k0 i t o b :
  service_ok k0 i → t = type_of (op_kind o) → fresh o → op_ok (K := K) o → b = true →
  ∃ i', start_op t o b false i = Ok (tt, i') ∧ service_ok k0 i'.
Proof.
  intros S Ht Hf Hok ->. unfold start_op. destruct (is_open i) eqn:Ho.
  - destruct (ensure_open k0 i o S Ho) as (b & e & f & k' & E & _ & _ & S'). erewrite bind_ok by exact E. cbn [fst snd].
    destruct b; [|by eexists; apply (post_at_once_ok k0 _ (set_ec e o))]. by apply reactor_started.
  - erewrite bind_ok by (by apply (ensure_closed k0)). eexists. by apply (post_at_once_ok k0).
Qed.

Lemma connect_started k0 i o addr :
  service_ok k0 i → op_kind o = Connect → fresh o → (∀ (k : K) mask, (epoll_mod mask k).1 = SysOk tt) →
  ∃ i', start_connect_op o addr i = Ok (tt, i') ∧ service_ok k0 i'.
Proof.
  intros S Hk Hf Hmod. unfold start_connect_op. destruct (is_open i) eqn:Ho.
  2:{ erewrite bind_ok by (by apply (ensure_closed k0)). eexists. by apply (post_at_once_ok k0). }
  destruct (ensure_open k0 i o S Ho) as (b & e & f & k' & E & _ & _ & S'). erewrite bind_ok by exact E. cbn [fst snd].
  set (i1 := mkImpl _ _ _) in *. destruct b; [|by eexists; apply (post_at_once_ok k0 i1)].
  assert (Ec : ∃ b2 e2 k2, connect addr i1 = Ok ((b2, e2), set_reactor (set_kernel k2 (impl_reactor i1)) i1) ∧ service_ok k0 (set_reactor (set_kernel k2 (impl_reactor i1)) i1)).
  { unfold connect. erewrite bind_ok by reflexivity. change (socket_ (id i1)) with (socket_ i). unfold is_open in Ho. apply negb_true_iff in Ho. rewrite Ho.
    erewrite bind_ok by apply os_ok. do 3 eexists. split; [reflexivity|]. apply service_kernel; [done|]. apply sound_moved; [apply S'|].
    pose proof (connect_law K addr (kernel_of i1)) as L. by destruct (sys_connect addr (kernel_of i1)). }
  destruct Ec as (b2 & e2 & k2 & Ec & S2). erewrite bind_ok by exact Ec. cbn [fst snd]. set (i2 := set_reactor _ i1) in *.
  destruct (_ && _); [|by eexists; apply (post_at_once_ok k0 i2)].
  apply reactor_started; [done|done|]. unfold start_ok. cbn. rewrite Hk. split_and!; [done|done|unfold op_ok; cbn; by rewrite Hk|auto].
Qed.

Lemma closed_socket i : is_open i = false → (socket_ i =? invalid_socket) = true.
Proof. unfold is_open. by intros ->%negb_false_iff. Qed.

Lemma open_socket i : is_open i = true → (socket_ i =? invalid_socket) = false.
Proof. unfold is_open. by intros ->%negb_true_iff. Qed.

Lemma opened k0 i (s f : Z) :
  sound k0 (impl_reactor i) → idle (impl_reactor i) → registers (kernel_of i) → s ≠ invalid_socket →
  ∃ r', on_reactor register_descriptor i = Ok (0, set_reactor r' i) ∧ service_ok k0 (mkImpl s f r').
Proof.
  intros S I R Hs. destruct (register_again k0 _ S I R) as (r' & E & S' & Hd & Hsh). exists r'. split; [by apply on_reactor_ok|].
  split; [done|done|]. intros Ho. apply closed_socket in Ho. cbn in Ho. lia.
Qed.

Lemma open_call k0 af type protocol i :
  service_ok k0 i → registers (sys_socket af type protocol (kernel_of i)).2 → ∃ e i', do_open af type protocol i = Ok (e, i') ∧ service_ok k0 i'.
Proof.
  intros S Hr. unfold do_open. erewrite bind_ok by reflexivity. change (is_open (id i)) with (is_open i). destruct (is_open i) eqn:Ho; [by do 2 eexists|].
  destruct (s_closed _ _ S Ho) as (I & Hd & Hf). pose proof (socket_law K af type protocol (kernel_of i)) as L. erewrite bind_ok by apply os_ok.
  destruct (sys_socket af type protocol (kernel_of i)) as [res k1]. destruct L as [T L]. cbn [fst snd] in *.
  assert (S1 := sound_quiet k0 _ k1 (s_sound _ _ S) I T). destruct res as [s|e]; [|do 2 eexists; split; [reflexivity|]; by apply service_kernel].
  destruct (opened k0 (set_reactor (set_kernel k1 (impl_reactor i)) i) s (flags_of type) S1 I Hr L) as (r' & E & S').
  erewrite bind_ok by exact E. do 2 eexists. by split; [reflexivity|].
Qed.

Lemma assign_call k0 type s i :
  service_ok k0 i → s ≠ invalid_socket → registers (kernel_of i) → ∃ e i', do_assign type s i = Ok (e, i') ∧ service_ok k0 i'.
Proof.
  intros S Hs Hr. unfold do_assign. erewrite bind_ok by reflexivity. change (is_open (id i)) with (is_open i). destruct (is_open i) eqn:Ho; [by do 2 eexists|].
  destruct (s_closed _ _ S Ho) as (I & Hd & Hf).
  destruct (opened k0 i s (Z.lor (flags_of type) possible_dup) (s_sound _ _ S) I Hr Hs) as (r' & E & S').
  erewrite bind_ok by exact E. do 2 eexists. by split; [reflexivity|].
Qed.

(** The mode of the descriptor. *)
Lemma mode_call k0 i g b :
  service_ok k0 i → is_open i = true →
  service_ok k0 (mkImpl (socket_ i) g (set_kernel (sys_non_blocking b (kernel_of i)).2 (impl_reactor i))).
Proof.
  intros [S1 S2 S3] Ho. split; [|done|]; [|unfold is_open in *; cbn; congruence].
  pose proof (non_blocking_law K b (kernel_of i)) as L. cbn [impl_reactor]. destruct (sys_non_blocking b (kernel_of i)), L. by apply sound_calm.
Qed.

Lemma user_mode_call k0 b i : service_ok k0 i → ∃ a i', set_user_non_blocking b i = Ok (a, i') ∧ service_ok k0 i'.
Proof.
  intros S. unfold set_user_non_blocking. erewrite bind_ok by reflexivity. change (socket_ (id i)) with (socket_ i).
  destruct (socket_ i =? invalid_socket) eqn:Ho; [by do 2 eexists|]. erewrite bind_ok by apply os_ok.
  destruct (failed _); (do 2 eexists; split; [reflexivity|]); eapply (mode_call k0 i _ b S); unfold is_open; by rewrite Ho.
Qed.

(** Setting the mode does not change what the socket is. *)
Lemma user_mode_open b i :
  is_open i = true → ∃ a f k', set_user_non_blocking b i = Ok (a, mkImpl (socket_ i) f (set_kernel k' (impl_reactor i))) ∧
    calm K (kernel_of i) k' ∧ traffic K (kernel_of i) k' [] [] ∧ (stream_oriented (impl_state_ i) = true → stream_oriented f = true).
Proof.
  intros Ho. unfold set_user_non_blocking. erewrite bind_ok by reflexivity. change (socket_ (id i)) with (socket_ i).
  unfold is_open in Ho. apply negb_true_iff in Ho. rewrite Ho. erewrite bind_ok by apply os_ok.
  pose proof (non_blocking_law K b (kernel_of i)) as L. destruct (sys_non_blocking b (kernel_of i)) as [[[]|e] k1], L;
    (do 3 eexists; split; [reflexivity|]; split; [done|]; split; [done|]); intros Hs; [|exact Hs].
  cbn. destruct b; [by apply stream_lor|by apply stream_without].
Qed.

Lemma internal_mode_call k0 b i : service_ok k0 i → ∃ a i', set_internal_non_blocking b i = Ok (a, i') ∧ service_ok k0 i'.
Proof.
  intros S. unfold set_internal_non_blocking. erewrite bind_ok by reflexivity. change (socket_ (id i)) with (socket_ i).
  destruct (socket_ i =? invalid_socket) eqn:Ho; [by do 2 eexists|]. destruct (_ && _); [by do 2 eexists|]. erewrite bind_ok by apply os_ok.
  destruct (failed _); (do 2 eexists; split; [reflexivity|]); eapply (mode_call k0 i _ b S); unfold is_open; by rewrite Ho.
Qed.

(** Changes of the mode and the options that the reactor does not see. *)
Lemma service_calm k0 i f k' :
  service_ok k0 i → is_open i = true → calm K (kernel_of i) k' → traffic K (kernel_of i) k' [] [] →
  service_ok k0 (mkImpl (socket_ i) f (set_kernel k' (impl_reactor i))).
Proof. intros [S1 S2 S3] Ho C T. split; [by apply sound_calm|done|]. unfold is_open in *. cbn. congruence. Qed.

Lemma option_call k0 level name value i : service_ok k0 i → ∃ a i', setsockopt level name value i = Ok (a, i') ∧ service_ok k0 i'.
Proof.
  intros S. destruct (is_open i) eqn:Ho.
  - destruct (option_open level name value i Ho) as (e & f & k' & E & C & T & _). do 2 eexists. split; [exact E|]. by apply service_calm.
  - unfold is_open in Ho. apply negb_false_iff in Ho. unfold setsockopt. erewrite bind_ok by reflexivity. change (socket_ (id i)) with (socket_ i). rewrite Ho. by do 2 eexists.
Qed.

Lemma shutdown_call k0 what i : service_ok k0 i → ∃ a i', shutdown what i = Ok (a, i') ∧ service_ok k0 i'.
Proof.
  intros S. unfold shutdown. erewrite bind_ok by reflexivity. change (socket_ (id i)) with (socket_ i).
  destruct (socket_ i =? invalid_socket) eqn:Ho; [by do 2 eexists|]. erewrite bind_ok by apply os_ok. do 2 eexists. split; [reflexivity|].
  apply service_kernel; [done|]. apply sound_moved; [apply S|]. pose proof (shutdown_law K what (kernel_of i)) as L. by destruct (sys_shutdown what (kernel_of i)).
Qed.

Lemma stable_cancel : along stable cancel_ops.
Proof. unfold cancel_ops, on_state, post_deferred_completions. stable. Qed.

Lemma cancel_call k0 i : service_ok k0 i → ∃ a i', cancel i = Ok (a, i') ∧ service_ok k0 i'.
Proof.
  intros S. unfold cancel. erewrite bind_ok by reflexivity. change (is_open (id i)) with (is_open i). destruct (is_open i) eqn:Ho; [|by do 2 eexists].
  cbn [negb]. destruct (cancel_ops_ok k0 _ (s_sound _ _ S)) as (r' & E & S'). erewrite bind_ok by (apply on_reactor_ok; exact E).
  do 2 eexists. split; [reflexivity|]. apply service_stable; [done|done|by eapply stable_cancel|congruence].
Qed.

Lemma close_call k0 ec i : service_ok k0 i → ∃ e i', close ec i = Ok (e, i') ∧ service_ok k0 i' ∧ is_open i' = false.
Proof.
  intros S. destruct (is_open i) eqn:Ho.
  - destruct (close_when_open k0 i ec S Ho) as (e & r' & E & Q & Hd). do 2 eexists. split; [exact E|]. split; [|done]. by eapply closed_ok.
  - unfold close. erewrite bind_ok by reflexivity. change (is_open (id i)) with (is_open i). rewrite Ho. do 2 eexists. split; [reflexivity|]. split; [|done].
    destruct S as [S1 S2 S3]. destruct (S3 Ho) as (? & ? & ?). by split.
Qed.

Lemma release_call k0 i : service_ok k0 i → ∃ a i', release i = Ok (a, i') ∧ service_ok k0 i'.
Proof.
  intros S. destruct (is_open i) eqn:Ho.
  - destruct (release_open k0 i S Ho) as (r' & E & Q & Hd). do 2 eexists. split; [exact E|]. by eapply closed_ok.
  - unfold release. erewrite bind_ok by reflexivity. change (is_open (id i)) with (is_open i). rewrite Ho. by do 2 eexists.
Qed.

Lemma background_sound k0 c i :
  service_ok k0 i → background c → call_ok c (impl_reactor i) → ∃ i', on_reactor (do_call c) i = Ok (tt, i') ∧ service_ok k0 i'.
Proof.
  intros S Hb Hc. destruct (call_sound k0 c _ (s_sound _ _ S) Hc) as (r' & E & S'). eexists. split; [by apply on_reactor_ok|].
  apply service_stable; [done|done|by eapply stable_background|]. intros Ho. eapply idle_background; [done|done|]. by apply (s_closed _ _ S Ho).
Qed.

Lemma service_call_sound k0 c i : service_ok k0 i → service_call_ok c i → ∃ i', do_service c i = Ok (tt, i') ∧ service_ok k0 i'.
Proof.
  intros S Hc.
  assert (R : ∀ {A} (m : M (base_implementation_type K) A), (∃ a i', m i = Ok (a, i') ∧ service_ok k0 i') → ∃ i', returns m i = Ok (tt, i') ∧ service_ok k0 i').
  { intros A m (a & i' & E & S'). exists i'. split; [by eapply returns_ok|done]. }
  destruct c as [af ty pr|ty s|ec| | |what|b|b|level name value|n size|n data|n peer|n addr|c]; cbn [do_service service_call_ok] in *.
  - by apply R, open_call.
  - destruct Hc. by apply R, assign_call.
  - apply R. destruct (close_call k0 ec i S) as (e & i' & E & S' & _). by exists e, i'.
  - by apply R, release_call.
  - by apply R, cancel_call.
  - by apply R, shutdown_call.
  - by apply R, user_mode_call.
  - by apply R, internal_mode_call.
  - by apply R, option_call.
  - unfold async_receive. erewrite bind_ok by reflexivity. destruct Hc as [Hs Hz]. destruct (Z.eqb_spec size 0) as [->|Hn].
    + rewrite (Hz eq_refl). eexists. by apply (post_at_once_ok k0).
    + rewrite andb_false_r. apply service_started; try done. unfold op_ok. cbn. lia.
  - unfold async_send. erewrite bind_ok by reflexivity. destruct (_ && _); [eexists; by apply (post_at_once_ok k0)|by apply service_started].
  - unfold async_accept. erewrite bind_ok by reflexivity. unfold start_accept_op. destruct peer; [eexists; by apply (post_at_once_ok k0)|by apply service_started].
  - unfold async_connect. erewrite bind_ok by reflexivity. by apply connect_started.
  - destruct Hc. by apply background_sound.
Qed.

Lemma service_steps_sound k0 i i' : service_ok k0 i → rtc service_step i i' → service_ok k0 i'.
Proof.
  intros S Hs. induction Hs as [|i1 i2 i3 (c & Hc & E) _ IH]; [done|]. apply IH.
  destruct (service_call_sound k0 c i1 S Hc) as (i' & E' & S'). rewrite E in E'. by injection E' as <-.
Qed.

(** A socket that has not been opened. *)
Definition socket_make (k : K) : base_implementation_type K := mkImpl invalid_socket 0 (reactor_make k).

Lemma socket_make_ok k : service_ok k (socket_make k).
Proof.
  split; [|done|].
  - split; [split; try done|split; try done; split; by rewrite app_nil_r].
    + by intros j _ _ _ [Hq|[Ht _]].
    + by intros j o ?%not_elem_of_nil.
  - intros _. split; [|done]. split; [done|by right].
Qed.

(** ** What the service promises *)

Lemma idle_empty r : idle r → take_all (dstate r) = [].
Proof. intros [Hq _]. unfold take_all. unfold queue in Hq. by rewrite !Hq. Qed.

Lemma receive_closed k0 i id size :
  service_ok k0 i → is_open i = false →
  async_receive id size i = Ok (tt, set_reactor (post_now (set_ec (system_error bad_descriptor) (new_op id (Recv size) 0 0)) (impl_reactor i)) i).
Proof.
  intros S Ho. destruct (s_closed _ _ S Ho) as (_ & _ & Hf). unfold async_receive. erewrite bind_ok by reflexivity. rewrite Hf.
  change (stream_oriented 0 && (size =? 0)) with false. unfold start_op. erewrite bind_ok by (by apply (ensure_closed k0)). done.
Qed.

(** C28: After any calls of a socket's service, of the threads of its event loop, and of the world: every call
    returns; an open socket is registered with the reactor and not shut down; for a closed one no operation waits,
    and one that is started completes with bad_descriptor; and closing gives back every waiting
    operation as aborted, once and in order, performs none, and leaves nothing waiting. *)
Theorem socket_lifecycle k i :
  rtc service_step (socket_make k) i →
  let r := impl_reactor i in
  (∀ c, service_call_ok c i → ∃ i', do_service c i = Ok (tt, i')) ∧
  (is_open i = true → descriptor_data r = true ∧ shutdown_ (dstate r) = false) ∧
  (is_open i = false → take_all (dstate r) = [] ∧ descriptor_data r = false ∧
    ∀ id size, ∃ o i', async_receive id size i = Ok (tt, i') ∧ op_id o = id ∧ ec_ o = system_error bad_descriptor ∧
      posted (impl_reactor i') = posted r ++ [o]) ∧
  (∀ ec, ∃ e i', close ec i = Ok (e, i') ∧ is_open i' = false ∧ take_all (dstate (impl_reactor i')) = [] ∧
    posted (impl_reactor i') = posted r ++ given_back r ∧ performed (impl_reactor i') = performed r).
Proof.
  intros Hs r. pose proof (service_steps_sound k _ i (socket_make_ok k) Hs) as S. split_and!.
  - intros c Hc. destruct (service_call_sound k c i S Hc) as (i' & E & _). by exists i'.
  - apply S.
  - intros Ho. destruct (s_closed _ _ S Ho) as (I & Hd & _). split_and!; [by apply idle_empty|done|].
    intros n size. exists (set_ec (system_error bad_descriptor) (new_op n (Recv size) 0 0)). eexists. split; [by apply (receive_closed k)|]. by split_and!.
  - intros ec. destruct (is_open i) eqn:Ho.
    + destruct (close_when_open k i ec S Ho) as (e & r' & E & [Q1 Q2 Q3 [Q4 _]] & Hd). do 2 eexists. split; [exact E|]. split_and!; [done|by apply idle_empty|done|done].
    + unfold close. erewrite bind_ok by reflexivity. change (is_open (id i)) with (is_open i). rewrite Ho. do 2 eexists. split; [reflexivity|].
      destruct (s_closed _ _ S Ho) as (I & _ & _). unfold given_back. fold r in I. rewrite (idle_empty r I). cbn. rewrite app_nil_r. split_and!; [done|by apply idle_empty|done|done].
Qed.

(** A socket that cannot be registered stays closed, but the reactor keeps the state it has made for it:
    closing or destroying the socket does not give it back. *)
Lemma failed_open_leaks i af type protocol s e :
  is_open i = false → (sys_socket af type protocol (kernel_of i)).1 = SysOk s → e ≠ 0 → e ≠ op_not_permitted →
  (∀ m, (epoll_add m (sys_socket af type protocol (kernel_of i)).2).1 = SysErr e) →
  ∃ i', do_open af type protocol i = Ok (system_error e, i') ∧ is_open i' = false ∧
    descriptor_data (impl_reactor i') = true ∧ shutdown_ (dstate (impl_reactor i')) = false ∧
    destroy i' = Ok (tt, i') ∧ ∃ i'', close no_error i' = Ok (no_error, i'') ∧ descriptor_data (impl_reactor i'') = true.
Proof.
  intros Ho Es He Hp Ha. unfold do_open. erewrite bind_ok by reflexivity. change (is_open (id i)) with (is_open i). rewrite Ho.
  erewrite bind_ok by apply os_ok. rewrite Es. set (i1 := set_reactor _ i). set (k1 := (sys_socket af type protocol (kernel_of i)).2) in *.
  set (events := Z.lor EPOLLIN (Z.lor EPOLLERR (Z.lor EPOLLHUP (Z.lor EPOLLPRI EPOLLET)))).
  assert (Er : ∃ r', register_descriptor (impl_reactor i1) = Ok (e, r') ∧ descriptor_data r' = true ∧ shutdown_ (dstate r') = false).
  { unfold register_descriptor. do 2 (erewrite bind_ok by reflexivity). fold events. specialize (Ha events).
    destruct (epoll_add events k1) as [res k2] eqn:E. cbn in Ha. subst res. set (r1 := set_dstate _ _).
    erewrite bind_ok by (unfold on_kernel, syscall; change (kernel r1) with k1; rewrite E; reflexivity).
    cbn beta iota. apply Z.eqb_neq in Hp. rewrite Hp. eexists. by split; [reflexivity|]. }
  destruct Er as (r' & Er & Hd & Hsh). erewrite bind_ok by (apply on_reactor_ok; exact Er). apply Z.eqb_neq in He. rewrite He. cbn [negb].
  destruct (close_held_ok s (set_reactor r' i1)) as (k3 & E3). erewrite bind_ok by exact E3. eexists. split; [reflexivity|]. set (i' := set_reactor _ _).
  assert (Ho' : is_open i' = false) by done. pose proof (closed_socket i' Ho') as Hc. split_and!; try done.
  - unfold destroy. erewrite bind_ok by reflexivity. change (socket_ (id i')) with (socket_ i'). by rewrite Hc.
  - unfold close. erewrite bind_ok by reflexivity. change (is_open (id i')) with (is_open i'). rewrite Ho'. eexists. by split; [reflexivity|].
Qed.
End Using.
Arguments service_call : clear implicits.

(** ** The stream socket *)

#[global] Instance sock_calls : SocketCalls sock := {
  sys_socket af type protocol s := (SysOk 3, s);
  sys_non_blocking b s := (SysOk tt, s);
  sys_setsockopt level name value s := (SysOk tt, s);
  sys_close s := (SysOk tt, epoll_del s);
  sys_shutdown what s := (SysOk tt, peer_ends s);
  sys_connect addr s := (SysErr in_progress, s)
}.

#[global] Instance sock_call_laws : SocketCallLaws sock.
Proof.
  split; cbn; intros.
  - split; [split; by rewrite app_nil_r|done].
  - split; [apply calm_refl|split; by rewrite app_nil_r].
  - split; [apply calm_refl|split; by rewrite app_nil_r].
  - split; by rewrite app_nil_r.
  - right. constructor.
  - by left.
Qed.

Fixpoint do_services (cs : list (service_call sock)) : M (base_implementation_type sock) unit :=
  match cs with
  | [] => mret tt
  | c :: cs => do_service c;; do_services cs
  end.

(** A read and a write wait, and the socket is closed. *)
Lemma socket_lifecycle_witness :
  let sk := mkSock [] false false 0 0 [] [] false 0 in
  ∃ i, do_services [SOpen 2 SOCK_STREAM 0; SReceive 1 4; SSend 2 [x61]] (socket_make sk) = Ok (tt, i) ∧ is_open i = true ∧
    map op_id (take_all (dstate (impl_reactor i))) = [1%nat; 2%nat] ∧
    ∃ e i', close no_error i = Ok (e, i') ∧ is_open i' = false ∧
      map (λ o, (op_id o, ec_ o)) (posted (impl_reactor i')) = [(1%nat, system_error 125); (2%nat, system_error 125)].
Proof.
  intros sk. eexists. split; [vm_compute; reflexivity|]. split; [reflexivity|]. split; [reflexivity|].
  edestruct (socket_lifecycle sk) as (_ & _ & _ & Hc).
  - eapply rtc_l; [exists (SOpen 2 SOCK_STREAM 0); split; [intros m; by left|vm_compute; reflexivity]|].
    eapply rtc_l; [exists (SReceive 1 4); split; [by split|vm_compute; reflexivity]|].
    eapply rtc_l; [exists (SSend 2 [x61]); split; [done|vm_compute; reflexivity]|]. apply rtc_refl.
  - destruct (Hc no_error) as (e & i' & E & Ho & _ & Hp & _). exists e, i'. split; [exact E|]. split; [exact Ho|]. by rewrite Hp.
Defined.
