(* ===== verification/ReactorReads.v ===== *)
(** * One read at a time (asio/detail/impl/epoll_reactor.ipp, seen from a reader)

    A user who starts the next read when the last one has been handled finds his read in one of
    four places: there is none, it waits in the queue, it has been posted, or its handler is to run.
    Every call of the reactor keeps it there or takes it one step on, and what the reads have got is
    what the socket has passed on. *)

From Stdlib Require Import ZArith Lia Strings.Byte.
From stdpp Require Import base list numbers functions relations.
From S2P Require Import Prelude.
From S2P Require Import Along.
From S2P Require Import SocketOps.
From S2P Require Import Reactor.
From S2P Require Import ReactorRun.
From S2P Require Import SocketService.

#[local] Open Scope Z_scope.

(** What is documented of [recv] besides: it stores no more than there is room for, and [errno] is not 0. *)
Class RecvLaws (K : Type) `{Kernel K} : Prop := {
  recv_bounded size (k : K) data k' : sys_recv size k = (SysOk data, k') → zlen data ≤ Z.max 0 size;
  recv_errno size (k : K) e k' : sys_recv size k = (SysErr e, k') → e ≠ 0
}.

Definition is_recv (o : reactor_op) : bool := match op_kind o with Recv _ => true | _ => false end.
Definition recvs (l : list reactor_op) : list reactor_op := List.filter is_recv l.

(** Operations that are not reads. *)
Definition plain (o : reactor_op) : Prop := is_recv o = false ∧ op_data o = [].

(** An error after which the owner of the socket does not try again. *)
Definition final_error (e : asio_error) : Prop :=
  e = eof ∨ ∃ n, e = system_error n ∧ n ≠ 0 ∧ n ≠ interrupted ∧ n ≠ try_again.

(** A read of up to [size] bytes is done: it has got some, or ended with an error. *)
Definition finished (size : Z) (o : reactor_op) : Prop :=
  op_kind o = Recv size ∧ bytes_transferred_ o = zlen (op_data o) ∧
  ((ec_ o = no_error ∧ 1 ≤ zlen (op_data o) ≤ size) ∨ (final_error (ec_ o) ∧ op_data o = [])).

(** A read that has not got anything. *)
Definition unread (size : Z) (o : reactor_op) : Prop := op_kind o = Recv size ∧ fresh o ∧ stream_oriented (state_ o) = true.

Lemma recvs_app l1 l2 : recvs (l1 ++ l2) = recvs l1 ++ recvs l2.
Proof. apply List.filter_app. Qed.

Lemma recvs_plain l : Forall plain l → recvs l = [].
Proof. induction 1 as [|o l [Ho _] _ IH]; [done|]. cbn. by rewrite Ho. Qed.

Lemma data_plain l : Forall plain l → concat (map op_data l) = [].
Proof. induction 1 as [|o l [_ Ho] _ IH]; [done|]. cbn. by rewrite Ho. Qed.

(** ** Performing *)

Section Performs.
Context {K : Type} `{Kernel K} {recv_laws : RecvLaws K}.

Lemma recv_finished fuel size o (k : K) b o' k' :
  non_blocking_recv1 fuel size true o k = Ok ((b, o'), k') → unread size o →
  if b : bool then finished size o' else unread size o'.
Proof.
  revert o k. induction fuel as [|fuel IH]; intros o k E (Hk & Hf & Hst); [done|]. cbn [non_blocking_recv1] in E.
  apply bind_inv in E as (res & k1 & E1 & E). unfold syscall in E1. injection E1 as Es. destruct res as [data|e].
  - pose proof (recv_bounded size k data k1 Es) as Hb. pose proof (zlen_nonneg data).
    destruct (Z.eqb_spec (zlen data) 0) as [Hz|Hz]; cbn [andb] in E; injection E as <- <- <-; (split; [done|]); destruct Hf as [Hd Hbt].
    + split; [cbn; by rewrite Hd|]. right. by split; [left|].
    + split; [done|]. left. split; [done|]. cbn. lia.
  - pose proof (recv_errno size k e k1 Es). destruct (Z.eqb_spec e interrupted); [by apply (IH _ _ E)|].
    destruct (Z.eqb_spec e try_again); injection E as <- <- <-; [done|]. split; [done|]. destruct Hf as [Hd Hbt]. split; [cbn; by rewrite Hd|]. right. split; [right; by exists e|done].
Qed.

Lemma perform_read size o (k : K) st o' k' :
  do_perform o k = Ok ((st, o'), k') → unread size o → match st with not_done => unread size o' | _ => finished size o' end.
Proof.
  intros E Hu. pose proof Hu as (Hk & _ & Hst). unfold do_perform in E. erewrite bind_ok in E by reflexivity. rewrite Hk in E.
  apply bind_inv in E as ([b o1] & k1 & E1 & E). rewrite Hst in *. apply (recv_finished _ size) in E1; [|done]. cbn [fst snd] in E.
  injection E as <- <- <-. destruct b; cbn; [by destruct (_ =? _)|done].
Qed.

Lemma send_plain fuel data o (k : K) r k' : non_blocking_send1 fuel data o k = Ok (r, k') → plain o → plain r.2.
Proof.
  revert o k. induction fuel as [|fuel IH]; intros o k E Hp; [done|]. cbn [non_blocking_send1] in E.
  apply bind_inv in E as (res & k1 & _ & E). destruct res as [n|e]; [by injection E as <- _|].
  destruct (e =? interrupted); [by apply (IH _ _ E)|]. by destruct (e =? try_again); injection E as <- _.
Qed.

Lemma accept_plain fuel state o (k : K) r k' : non_blocking_accept fuel state o k = Ok (r, k') → plain o → plain r.2.
Proof.
  revert o k. induction fuel as [|fuel IH]; intros o k E Hp; [done|]. cbn [non_blocking_accept] in E.
  apply bind_inv in E as (res & k1 & _ & E). destruct res as [n|e]; [by injection E as <- _|].
  destruct (e =? interrupted); [by apply (IH _ _ E)|]. by repeat case_match; injection E as <- _.
Qed.

Lemma connect_plain o (k : K) r k' : non_blocking_connect o k = Ok (r, k') → plain o → plain r.2.
Proof.
  unfold non_blocking_connect. erewrite bind_ok by reflexivity. destruct (_ =? 0); [by intros [= <- _]|].
  intros (res & k1 & _ & E)%bind_inv. by destruct res; injection E as <- _.
Qed.

Lemma perform_plain o (k : K) r k' : do_perform o k = Ok (r, k') → plain o → plain r.2.
Proof.
  unfold do_perform. erewrite bind_ok by reflexivity. destruct (op_kind o) as [size|data| |] eqn:Hk.
  - intros _ [Hp _]. unfold is_recv in Hp. by rewrite Hk in Hp.
  - intros (x & k1 & E1 & E)%bind_inv Hp. injection E as <- _. by apply send_plain in E1.
  - intros (x & k1 & E1 & E)%bind_inv Hp. injection E as <- _. by apply accept_plain in E1.
  - intros (x & k1 & E1 & E)%bind_inv Hp. injection E as <- _. by apply connect_plain in E1.
Qed.
End Performs.

(** ** Where the read is *)

Inductive phase :=
  | Idle
  | Waits (size : Z)
  | Posted (size : Z) (o : reactor_op)
  | Called (size : Z) (o : reactor_op).

(** What it has got. *)
Definition in_transit (p : phase) : list byte := match p with Posted _ o | Called _ o => op_data o | _ => [] end.

(** On its way. *)
Inductive moves : phase → phase → Prop :=
  | stays p : moves p p
  | is_done size o : moves (Waits size) (Posted size o)
  | is_called size o : moves (Waits size) (Called size o)
  | is_next size o : moves (Posted size o) (Called size o).

Section Phases.
Context {K : Type} `{EdgeTriggered K} {laws : KernelLaws K} {recv_laws : RecvLaws K}.
Implicit Types (r : reactor K) (p : phase) (h ops : list reactor_op).

Definition queue_reads p r : Prop :=
  match p with Waits size => ∃ o, queue r read_op = [o] ∧ unread size o | _ => queue r read_op = [] end.

(** The reads in [h] have been handled. *)
Record reads h p r : Prop := {
  rd_queue : queue_reads p r;
  rd_posted : recvs (posted r) = match p with Posted _ o => [o] | _ => [] end;
  rd_called : recvs (called r) = h ++ match p with Called _ o => [o] | _ => [] end;
  rd_data : concat (map op_data (performed r)) = concat (map op_data h) ++ in_transit p;
  rd_done : match p with Posted size o | Called size o => finished size o | _ => True end
}.

(** The reads are as they were. *)
Record same_reads r r' : Prop := {
  sr_queue : queue r' read_op = queue r read_op;
  sr_posted : recvs (posted r') = recvs (posted r);
  sr_called : recvs (called r') = recvs (called r);
  sr_data : concat (map op_data (performed r')) = concat (map op_data (performed r))
}.

#[local] Instance same_reads_preorder : PreOrder same_reads.
Proof. split; [by split|]. intros x y z [] []. split; congruence. Qed.

Lemma reads_same h p r r' : same_reads r r' → reads h p r → reads h p r'.
Proof.
  intros [E1 E2 E3 E4] [R1 R2 R3 R4 R5]. split; [|congruence..|done]. unfold queue_reads in *. by rewrite E1.
Qed.

Lemma same_kernel {A} (m : M K A) : along same_reads (on_kernel m).
Proof. intros r a r'. unfold on_kernel. destruct (m (kernel r)) as [[b k]|]; [|done]. by intros [= _ <-]. Qed.

Ltac same := along_cases; try apply same_kernel; try (refine (along_modify _ _ _); intros ?; by split).

(** A write is performed. *)
Lemma perform_same o r st o' r' : perform o r = Ok ((st, o'), r') → plain o → same_reads r r' ∧ plain o' ∧ dstate r' = dstate r.
Proof.
  unfold perform. intros ([st1 o1] & r1 & E1 & E)%bind_inv Hp. unfold on_kernel in E1.
  destruct (do_perform o (kernel r)) as [[x k]|] eqn:Ed; [|done]. injection E1 as -> <-. apply perform_plain in Ed as Hp1; [|done].
  apply bind_inv in E as ([] & r2 & E2 & E). injection E as <- <- <-. cbn [fst snd] in *.
  destruct (bool_decide _); cbn in E2; injection E2 as <-; (split_and!; [|done|done]); [|by split]. split; try done. cbn. rewrite map_app, concat_app. cbn.
  destruct Hp1 as [_ ->]. by rewrite !app_nil_r.
Qed.

Lemma same_post o : is_recv o = false → along same_reads (post_immediate_completion o).
Proof.
  intros Ho. unfold post_immediate_completion, work_started. refine (along_bind _ _ _ _ _); [same|intros ?]. refine (along_modify _ _ _).
  intros r. split; try done. cbn. rewrite recvs_app. cbn. by rewrite Ho, app_nil_r.
Qed.

Lemma same_queue f : along same_reads (on_state (λ d, set_op_queue write_op (f d) d)).
Proof. refine (along_modify _ _ _). intros r. by split. Qed.

Lemma same_wait o : is_recv o = false → along same_reads (wait_in_queue write_op o).
Proof.
  intros Ho. unfold wait_in_queue, watch_output, fail_op, push_op, work_started. along_cases; try apply same_kernel; try (by apply same_post); try (apply same_queue);
    (refine (along_modify _ _ _); intros ?; by split).
Qed.

(** An operation that is not a read is posted by the service. *)
Lemma same_post_now o r : is_recv o = false → same_reads r (post_now o r).
Proof. intros Ho. split; try done. cbn. rewrite recvs_app. cbn. by rewrite Ho, app_nil_r. Qed.

Lemma same_start o allow : plain o → along same_reads (Reactor.start_op write_op o allow).
Proof.
  intros Hp. assert (Ho := proj1 Hp). unfold Reactor.start_op, fail_op, push_op, work_started. refine (along_bind _ _ _ _ _); [same|intros _]. refine (along_bind _ _ _ _ _); [same|intros present].
  destruct present; cbn [negb]; [|by apply same_post]. refine (along_bind _ _ _ _ _); [same|intros d]. destruct (shutdown_ d); [by apply same_post|].
  destruct (negb _); [along_cases; [apply same_queue|same]|]. destruct (allow && _).
  - intros r a r' ([st o'] & r1 & E1 & E)%bind_inv.
    assert (Hs : same_reads r r1 ∧ plain o').
    { destruct (try_speculative_ d write_op); [edestruct perform_same as (? & ? & _); [exact E1|done|by split]|]. by injection E1 as <- <- <-. }
    destruct Hs as [Hs Hp']. etrans; [exact Hs|]. assert (Ho' := proj1 Hp').
    destruct st; [by eapply (same_wait o')|..]; apply bind_inv in E as (u & r2 & E2 & E); (etrans; [|by eapply (same_post o')]);
      revert E2; generalize (set_dstate (set_speculative write_op false (dstate r1)) r1); intros _ E2;
      destruct (_ && _); injection E2 as _ <-; by split.
  - destruct (_ =? 0); [by apply same_post|]. along_cases; try apply same_kernel; try (apply same_queue);
      (refine (along_modify _ _ _); intros ?; by split).
Qed.

(** ** Performing the queues *)

Lemma write_queue fuel j ops r ops' r' :
  j ≠ read_op → perform_queue fuel j ops r = Ok (ops', r') → Forall plain (queue r j) →
  same_reads r r' ∧ recvs ops' = recvs ops ∧ ∀ i, i ≠ j → queue r' i = queue r i.
Proof.
  intros Hj. revert ops r. induction fuel as [|fuel IH]; intros ops r E Hp; cbn [perform_queue] in E; erewrite bind_ok in E by reflexivity;
    fold (queue r j) in E; [by injection E as <- <-|]. destruct (queue r j) as [|o rest] eqn:Hq; [by injection E as <- <-|].
  apply Forall_cons in Hp as [Ho Hrest]. apply bind_inv in E as ([st o'] & r1 & E1 & E). destruct (perform_same o r st o' r1 E1 Ho) as (Hs & [Ho' _] & Hd).
  assert (Hs1 : ∀ l d, (∀ i, i ≠ j → op_queue_ d i = queue r i) → op_queue_ d j = l → same_reads r (set_dstate d r1) ∧ ∀ i, i ≠ j → queue (set_dstate d r1) i = queue r i).
  { intros l d Hi Hl. split; [|done]. destruct Hs. split; [|done..]. by apply Hi. }
  assert (Hset : ∀ l i, i ≠ j → op_queue_ (set_op_queue j l (dstate r1)) i = queue r i) by (intros l i Hi; cbn; by rewrite fn_lookup_insert_ne, Hd).
  destruct st; apply bind_inv in E as (u & r2 & E2 & E); injection E2 as _ <-.
  - injection E as <- <-. destruct (Hs1 (o' :: rest) (set_op_queue j (o' :: rest) (dstate r1))); [apply Hset|cbn; by rewrite fn_lookup_insert|]. by split_and!.
  - destruct (Hs1 rest (set_op_queue j rest (dstate r1))) as [Hs2 Hi2]; [apply Hset|cbn; by rewrite fn_lookup_insert|].
    destruct (IH _ _ E) as (Hs3 & E' & Hi3); [unfold queue; cbn; by rewrite fn_lookup_insert|]. split_and!.
    + by etrans.
    + rewrite E', recvs_app. cbn. by rewrite Ho', app_nil_r.
    + intros i Hi. by rewrite Hi3, Hi2.
  - apply bind_inv in E as (u' & r3 & E3 & E). injection E3 as _ <-. injection E as <- <-.
    destruct (Hs1 rest (set_speculative j false (set_op_queue j rest (dstate r1)))) as [Hs2 Hi2]; [apply Hset|cbn; by rewrite fn_lookup_insert|].
    split_and!; [done| |done]. rewrite recvs_app. cbn. by rewrite Ho', app_nil_r.
Qed.

Lemma write_type e j ops r ops' r' :
  j ≠ read_op → perform_type e j ops r = Ok (ops', r') → Forall plain (queue r j) →
  same_reads r r' ∧ recvs ops' = recvs ops ∧ ∀ i, i ≠ j → queue r' i = queue r i.
Proof.
  intros Hj E Hp. unfold perform_type in E. destruct (covers e j); [|by injection E as <- <-].
  apply bind_inv in E as (u & r1 & E1 & E). injection E1 as _ <-. erewrite bind_ok in E by reflexivity.
  destruct (write_queue _ j ops _ ops' r' Hj E Hp) as ([] & E' & Hi). by split_and!.
Qed.

(** What performing the queue of reads does to the one in it. *)
Definition read_performed p ops r ops' r' : Prop :=
  posted r' = posted r ∧ called r' = called r ∧
  ((queue_reads p r' ∧ ops' = ops ∧ concat (map op_data (performed r')) = concat (map op_data (performed r))) ∨
   (∃ size o, p = Waits size ∧ finished size o ∧ ops' = ops ++ [o] ∧ queue r' read_op = [] ∧
      concat (map op_data (performed r')) = concat (map op_data (performed r)) ++ op_data o)).

Lemma read_queue fuel p ops r ops' r' :
  perform_queue fuel read_op ops r = Ok (ops', r') → (length (queue r read_op) ≤ fuel)%nat → queue_reads p r → read_performed p ops r ops' r'.
Proof.
  intros E Hf Hp. destruct (queue r read_op) as [|o rest] eqn:Hq.
  { destruct fuel as [|fuel]; cbn [perform_queue] in E; erewrite bind_ok in E by reflexivity; fold (queue r read_op) in E; rewrite ?Hq in E; injection E as <- <-;
      (split_and!; [done|done|by left]). }
  destruct p as [|size| |]; unfold queue_reads in Hp; try congruence. destruct Hp as (o1 & Hq1 & Hu). rewrite Hq in Hq1. injection Hq1 as -> ->.
  destruct fuel as [|fuel]; [cbn in Hf; lia|]. cbn [perform_queue] in E. erewrite bind_ok in E by reflexivity. fold (queue r read_op) in E. rewrite Hq in E.
  apply bind_inv in E as ([st o'] & r1 & E1 & E). unfold perform in E1. apply bind_inv in E1 as ([st1 o2] & r2 & E1 & E2). unfold on_kernel in E1.
  destruct (do_perform o1 (kernel r)) as [[x k]|] eqn:Ed; [|done]. injection E1 as -> <-. apply (perform_read size) in Ed; [|done].
  apply bind_inv in E2 as ([] & r3 & E3 & E2). injection E2 as -> -> ->. cbn [fst snd] in *.
  destruct st; cbn in E3; injection E3 as <-.
  - injection E as <- <-. split_and!; [done|done|left]. split_and!; [|done|done]. exists o'. by split; [unfold queue; cbn; rewrite fn_lookup_insert|].
  - apply bind_inv in E as ([] & r5 & E5 & E). injection E5 as <-.
    assert (Ee : ∀ n, perform_queue n read_op (ops ++ [o']) (set_dstate (set_op_queue read_op [] (dstate r)) (add_performed o' (set_kernel k r))) = 
      Ok (ops ++ [o'], (set_dstate (set_op_queue read_op [] (dstate r)) (add_performed o' (set_kernel k r))))).
    { intros n. by destruct n. }
    cbn in E. rewrite Ee in E. injection E as <- <-. split_and!; [done|done|right]. exists size, o'. split_and!; try done. cbn. rewrite map_app, concat_app. cbn. by rewrite app_nil_r.
  - injection E as <- <-. split_and!; [done|done|right]. exists size, o'. split_and!; try done. cbn. rewrite map_app, concat_app. cbn. by rewrite app_nil_r.
Qed.

Lemma read_type e p ops r ops' r' : perform_type e read_op ops r = Ok (ops', r') → queue_reads p r → read_performed p ops r ops' r'.
Proof.
  intros E Hp. unfold perform_type in E. destruct (covers e read_op); [|injection E as <- <-; split_and!; [done|done|by left]].
  apply bind_inv in E as (u & r1 & E1 & E). injection E1 as _ <-. erewrite bind_ok in E by reflexivity.
  by apply (read_queue _ p) in E.
Qed.

Lemma plain_queue P r j : attentive P r → j ≠ read_op → Forall plain (queue r j).
Proof.
  intros A Hj. apply Forall_forall. intros o Ho. destruct (a_ops _ _ A j o Ho) as ([Hd _] & _ & Ht). split; [|done].
  unfold is_recv. destruct (op_kind o); try done.
Qed.

(** ** Every call *)

Lemma reads_performed P h p r e first r' :
  attentive P r → reads h p r → perform_io e r = Ok (first, r') →
  ∃ p', moves p p' ∧ reads h p' (match first with Some o => add_called o r' | None => r' end).
Proof.
  intros A R E. unfold perform_io in E. apply bind_inv in E as (o2 & r2 & E2 & E). apply bind_inv in E as (o1 & r1 & E1 & E).
  apply bind_inv in E as (ops & r0 & E0 & E).
  destruct (write_type e 2 _ _ _ _ ltac:(done) E2 (plain_queue P r 2 A ltac:(done))) as (S2 & F2 & Q2).
  assert (P1 : Forall plain (queue r2 1)) by (rewrite Q2 by done; by apply (plain_queue P)).
  destruct (write_type e 1 _ _ _ _ ltac:(done) E1 P1) as (S1 & F1 & _). rewrite F2 in F1. cbn in F1. clear F2.
  destruct (reads_same h p r r1 (transitivity S2 S1) R) as [R1 R2 R3 R4 R5].
  destruct (read_type e p o1 r1 ops r0 E0 R1) as (Ep & Ec & [(Hq & -> & Ed)|(size & o & -> & Hf & -> & Hq & Ed)]).
  - exists p. split; [constructor|]. destruct o1 as [|first' rest]; cbn in E.
    + injection E as <- <-. split; [done|cbn; by rewrite Ep|cbn; by rewrite Ec|cbn; by rewrite Ed|done].
    + injection E as <- <-. cbn in F1. destruct (is_recv first') eqn:Hr; [done|]. change (recvs rest = []) in F1.
      split; [done|cbn; by rewrite recvs_app, F1, app_nil_r, Ep| |cbn; by rewrite Ed|done].
      cbn. rewrite recvs_app. cbn. by rewrite Hr, app_nil_r, Ec.
  - assert (Ho : is_recv o = true) by (unfold is_recv; by rewrite (proj1 Hf)).
    cbn [in_transit] in *. rewrite app_nil_r in *. destruct o1 as [|first' rest]; cbn in E.
    + injection E as <- <-. exists (Called size o). split; [constructor|]. split; [done| | | |done].
      * cbn. by rewrite app_nil_r, Ep.
      * cbn. rewrite recvs_app. cbn. by rewrite Ho, Ec, R3.
      * cbn. by rewrite Ed, R4.
    + injection E as <- <-. cbn in F1. destruct (is_recv first') eqn:Hr; [done|]. change (recvs rest = []) in F1. exists (Posted size o). split; [constructor|]. split; [done| | | |done].
      * cbn. rewrite !recvs_app, F1, Ep, R2. cbn. by rewrite Ho.
      * cbn. rewrite recvs_app. cbn. by rewrite Hr, !app_nil_r, Ec.
      * cbn. by rewrite Ed, R4.
Qed.

Lemma reads_complete k0 h p r i r' :
  sound k0 r → reads h p r → complete_descriptor i r = Ok (tt, r') → ∃ p', moves p p' ∧ reads h p' r'.
Proof.
  intros [A _] R E. unfold complete_descriptor in E. erewrite bind_ok in E by reflexivity. destruct (in_flight r !! i) as [e|] eqn:Ei.
  2:{ injection E as <-. exists p. by split; [constructor|]. }
  erewrite bind_ok in E by reflexivity. apply bind_inv in E as (first & r2 & E2 & E).
  destruct (reads_performed _ h p _ e first r2 (taken_event r i e A Ei)) as (p' & Hm & R'); [by destruct R; split|exact E2|].
  exists p'. split; [done|]. destruct first; cbn in E; injection E as <-; by destruct R'; split.
Qed.

Lemma recvs_delete (l : list reactor_op) i o : l !! i = Some o →
  recvs l = recvs (take i l) ++ recvs [o] ++ recvs (drop (S i) l) ∧ recvs (delete i l) = recvs (take i l) ++ recvs (drop (S i) l).
Proof.
  intros Hi. split.
  - rewrite <- (take_drop_middle l i o Hi) at 1. rewrite recvs_app. f_equal. apply (recvs_app [o]).
  - rewrite delete_take_drop. by rewrite recvs_app.
Qed.

Lemma reads_posted h p r i r' : reads h p r → run_posted i r = Ok (tt, r') → ∃ p', moves p p' ∧ reads h p' r'.
Proof.
  intros R E. unfold run_posted in E. erewrite bind_ok in E by reflexivity. destruct (posted r !! i) as [o|] eqn:Ei.
  2:{ injection E as <-. exists p. by split; [constructor|]. }
  injection E as <-. destruct (recvs_delete _ _ _ Ei) as [E1 E2]. destruct R as [R1 R2 R3 R4 R5]. cbn in E1. destruct (is_recv o) eqn:Ho.
  - rewrite R2 in E1. destruct p as [|size|size o1|size o1]; try (by destruct (recvs (take i (posted r)))).
    assert (Hone : recvs (take i (posted r)) = [] ∧ o = o1 ∧ recvs (drop (S i) (posted r)) = []).
    { destruct (recvs (take i (posted r))) as [|x l]; cbn in E1; injection E1 as -> E1; [by split_and!|]. by destruct l. }
    destruct Hone as (H1 & -> & H2). exists (Called size o1). split; [constructor|]. split; [done| | |done|done].
    + cbn [posted add_work add_called set_posted]. by rewrite E2, H1, H2.
    + cbn [called add_work add_called set_posted]. rewrite recvs_app. cbn. rewrite Ho, R3. by rewrite app_nil_r.
  - exists p. split; [constructor|]. split; [done| | |done|done].
    + cbn [posted add_work add_called set_posted]. by rewrite E2, <- R2, E1.
    + cbn [called add_work add_called set_posted]. rewrite recvs_app. cbn. by rewrite Ho, app_nil_r.
Qed.

Lemma reads_loop k0 h p r c r' :
  sound k0 r → reads h p r → background c → do_call c r = Ok (tt, r') → ∃ p', moves p p' ∧ reads h p' r'.
Proof.
  intros S R Hc E. assert (Hsame : same_reads r r' → ∃ p', moves p p' ∧ reads h p' r').
  { intros Hs. exists p. split; [constructor|]. by apply (reads_same h p r r'). }
  destruct c; cbn [background do_call] in *; try done.
  - apply Hsame. revert E. apply (along_bind same_reads); [apply same_kernel|]. intros e. destruct (e =? 0); [apply (along_ret _)|]. apply (along_modify _). by split.
  - apply Hsame. unfold take_descriptor in E. injection E as <-. destruct (queued_events r); by split.
  - by apply (reads_complete k0 h p r i).
  - by apply (reads_posted h p r i).
  - apply Hsame. by injection E as <-.
Qed.

(** ** The user's calls *)

(** A read is posted at once with an error. *)
Lemma reads_post h r size o : reads h Idle r → finished size o → op_data o = [] → reads h (Posted size o) (post_now o r).
Proof.
  intros [R1 R2 R3 R4 _] Hf Hd. assert (Ho : is_recv o = true) by (unfold is_recv; by rewrite (proj1 Hf)). split; [done| |done| |done].
  - cbn. rewrite recvs_app, R2. cbn. by rewrite Ho.
  - cbn. by rewrite R4, Hd.
Qed.

Lemma reads_start h r size o r' :
  attentive everywhere r → reads h Idle r → descriptor_data r = true → shutdown_ (dstate r) = false → unread size o →
  Reactor.start_op read_op o true r = Ok (tt, r') → ∃ p', reads h p' r' ∧ (p' = Waits size ∨ ∃ o', p' = Posted size o').
Proof.
  intros A R Hd Hs Hu E. pose proof R as [R1 R2 R3 R4 _]. cbn in R1, R2, R3, R4. rewrite app_nil_r in *.
  assert (Ho : is_recv o = true) by (unfold is_recv; by rewrite (proj1 Hu)).
  unfold Reactor.start_op in E. do 2 (erewrite bind_ok in E by reflexivity). cbn [descriptor_data add_started] in E. rewrite Hd in E. cbn [negb] in E.
  erewrite bind_ok in E by reflexivity. cbn [dstate add_started] in E. rewrite Hs in E. fold (queue r read_op) in E. fold (queue r except_op) in E.
  rewrite R1, (except_empty r A), orb_true_r in E. cbn [is_nil negb andb] in E.
  apply bind_inv in E as ([st o'] & r1 & E1 & E).
  assert (Hst : queue r1 read_op = [] ∧ posted r1 = posted r ∧ called r1 = called r ∧ dstate r1 = dstate r ∧
    match st with
    | not_done => unread size o' ∧ concat (map op_data (performed r1)) = concat (map op_data (performed r))
    | _ => finished size o' ∧ concat (map op_data (performed r1)) = concat (map op_data (performed r)) ++ op_data o'
    end).
  { destruct (try_speculative_ (dstate r) read_op); [|injection E1 as <- <- <-; by split_and!].
    unfold perform in E1. apply bind_inv in E1 as ([st1 o2] & r2 & E1 & E2). unfold on_kernel in E1. cbn [kernel add_started] in E1.
    destruct (do_perform o (kernel r)) as [[x k]|] eqn:Ed; [|done]. injection E1 as -> <-. apply (perform_read size) in Ed; [|done].
    apply bind_inv in E2 as ([] & r3 & E3 & E2). injection E2 as -> -> ->. cbn [fst snd] in *.
    destruct st; cbn in E3; injection E3 as <-; split_and!; try done; cbn; rewrite map_app, concat_app; cbn; by rewrite app_nil_r. }
  destruct Hst as (Hq & Hp & Hc & Hds & Hst). destruct st.
  - destruct Hst as [Hu' Hdata]. unfold wait_in_queue in E. erewrite bind_ok in E by reflexivity. destruct (_ =? 0).
    + injection E as <-. destruct Hu' as (Hk & [Hd1 Hd2] & Hs1). exists (Posted size (set_ec (system_error operation_not_supported) o')).
      split; [|right; by eexists]. split; [done| |cbn; by rewrite Hc, app_nil_r| |].
      * cbn. rewrite recvs_app, Hp, R2. cbn. unfold is_recv. cbn. by rewrite Hk.
      * cbn. by rewrite Hd1, app_nil_r, Hdata.
      * split; [done|]. split; [cbn; by rewrite Hd1, Hd2|]. right. split; [|done]. right. by exists operation_not_supported.
    + change (read_op =? write_op)%nat with false in E. injection E as <-. exists (Waits size). split; [|by left].
      split; [|cbn; by rewrite Hp|cbn; by rewrite Hc, app_nil_r|cbn; by rewrite app_nil_r, Hdata|done]. exists o'. split; [|done].
      unfold queue in *. cbn. rewrite fn_lookup_insert. by rewrite Hq.
  - destruct Hst as [Hf Hdata]. exists (Posted size o'). split; [|right; by eexists].
    assert (Ho' : is_recv o' = true) by (unfold is_recv; by rewrite (proj1 Hf)). apply bind_inv in E as ([] & r2 & E2 & E). cbn in E2. injection E2 as <-. injection E as <-.
    split; [done| |cbn; by rewrite Hc, app_nil_r|cbn; by rewrite Hdata, R4|done].
    cbn. rewrite recvs_app, Hp, R2. cbn. by rewrite Ho'.
  - destruct Hst as [Hf Hdata]. exists (Posted size o'). split; [|right; by eexists].
    assert (Ho' : is_recv o' = true) by (unfold is_recv; by rewrite (proj1 Hf)). apply bind_inv in E as ([] & r2 & E2 & E). injection E as <-.
    assert (Hr2 : posted r2 = posted r ∧ called r2 = called r ∧ performed r2 = performed r1 ∧ queue r2 read_op = []).
    { destruct (_ && _); injection E2 as <-; split_and!; done. }
    destruct Hr2 as (P2 & C2 & F2 & Q2). split; [done| |cbn; by rewrite C2, app_nil_r|cbn; by rewrite F2, Hdata, R4|done].
    cbn. rewrite recvs_app, P2, R2. cbn. by rewrite Ho'.
Qed.

(** The socket is closed. *)
Lemma reads_closed k0 h p r r' :
  sound k0 r → quiet_after k0 r r' → reads h p r → ∃ p', reads h p' r' ∧ in_transit p' = in_transit p ∧
    match p with Waits size => ∃ o, p' = Posted size o | _ => p' = p end.
Proof.
  intros [A _] [_ [Qi _] Qp (Qf & Qc & _)] [R1 R2 R3 R4 R5].
  assert (Hrest : recvs (aborted (op_queue_ (dstate r) 1 ++ op_queue_ (dstate r) 2)) = []).
  { unfold aborted. rewrite map_app. rewrite recvs_app.
    assert (Hpl : ∀ j, j ≠ read_op → recvs (map (set_ec (system_error operation_canceled)) (queue r j)) = []).
    { intros j Hj. pose proof (plain_queue everywhere r j A Hj) as Hpl. apply recvs_plain. clear -Hpl. induction Hpl; cbn; by constructor. }
    unfold queue in Hpl. by rewrite !Hpl. }
  assert (Hgb : given_back r = aborted (queue r read_op) ++ aborted (op_queue_ (dstate r) 1 ++ op_queue_ (dstate r) 2)).
  { unfold given_back, aborted, take_all, queue. by rewrite !map_app. }
  destruct p as [|size|size o|size o]; cbn [queue_reads] in R1.
  2:{ destruct R1 as (o & Hq & Hk & [Hd Hb] & Hst). exists (Posted size (set_ec (system_error operation_canceled) o)). split_and!; [|done|by eexists].
      split; [apply Qi| |by rewrite Qc|by rewrite Qf; cbn; rewrite Hd|].
      - rewrite Qp, recvs_app, R2, Hgb, Hq, recvs_app, Hrest. cbn. unfold is_recv. cbn. by rewrite Hk.
      - split; [done|]. split; [cbn; by rewrite Hd, Hb|]. right. split; [|done]. right. by exists operation_canceled. }
  all: eexists; split_and!; [|reflexivity|reflexivity]; (split; [apply Qi|rewrite Qp, recvs_app, R2, Hgb, R1, recvs_app, Hrest; by rewrite ?app_nil_r|by rewrite Qc|by rewrite Qf|done]).
Qed.
End Phases.
