(* ===== verification/Inbound.v ===== *)
(** * A server connection on the reactor (net/connection.cpp over asio)

    The connection of Connection and Server with the socket of SocketService in the place of the posted
    reads and writes: a completed operation runs the connection's handler, and the operations that it posts
    and the close it makes are those of the socket.  Messages are written and the timer of the connection ticks
    between its reads, and both may close it while a read is under way.  Result: whatever the network, the threads of the
    event loop, the writers and the timer do, the worker pool has got exactly the frames of the bytes
    that have been read, and as long as the connection is open one read is under way. *)

From Stdlib Require Import ZArith Lia Strings.Byte.
From stdpp Require Import base list numbers functions relations.
From S2P Require Import Prelude.
From S2P Require Import Along.
From S2P Require Import MsgBuffer.
From S2P Require Import ObjectPool.
From S2P Require Import RepeatTimer.
From S2P Require Import SocketOps.
From S2P Require Import StreamSocket.
From S2P Require Import Reactor.
From S2P Require Import ReactorRun.
From S2P Require Import SocketService.
From S2P Require Import ReactorReads.
From S2P Require Import Connection.
From S2P Require Import Framing.
From S2P Require Import Server.
From S2P Require Import Writing.

#[local] Open Scope Z_scope.

(** What the handler compares the error with: [ec.value()]. *)
Definition code (e : asio_error) : error_code :=
  match e with
  | system_error n => if n =? 0 then ec_ok else if n =? interrupted then ec_interrupted else if n =? try_again then ec_try_again else ec_other n
  | eof => ec_other 2
  | already_open => ec_other 1
  end.

(** [in_handled] and [in_written] count the reads and the writes whose handlers have run, [in_next] numbers the
    operations, [in_writing] has the numbers of the connection's posted writes. *)
Record inbound (K : Type) := mkInbound {
  in_conn : Connection;
  in_sock : base_implementation_type K;
  in_handled : nat;
  in_written : nat;
  in_writing : list nat;
  in_next : nat
}.
Arguments mkInbound {K}.
Arguments in_conn {K}.
Arguments in_sock {K}.
Arguments in_handled {K}.
Arguments in_written {K}.
Arguments in_writing {K}.
Arguments in_next {K}.

Definition shutdown_both : Z := 2.
Definition IPPROTO_TCP : Z := 6.
Definition TCP_NODELAY : Z := 1.

Section Inbound.
Context {K : Type} `{SocketCalls K}.

Abbreviation MN := (M (inbound K)).

Definition set_conn (c : Connection) (s : inbound K) : inbound K := mkInbound c (in_sock s) (in_handled s) (in_written s) (in_writing s) (in_next s).
Definition set_sock (i : base_implementation_type K) (s : inbound K) : inbound K := mkInbound (in_conn s) i (in_handled s) (in_written s) (in_writing s) (in_next s).
Definition next_op (s : inbound K) : inbound K := mkInbound (in_conn s) (in_sock s) (in_handled s) (in_written s) (in_writing s) (S (in_next s)).
Definition count_handled (s : inbound K) : inbound K := mkInbound (in_conn s) (in_sock s) (S (in_handled s)) (in_written s) (in_writing s) (in_next s).
Definition count_written (s : inbound K) : inbound K := mkInbound (in_conn s) (in_sock s) (in_handled s) (S (in_written s)) (in_writing s) (in_next s).
Definition set_writing (l : list nat) (s : inbound K) : inbound K := mkInbound (in_conn s) (in_sock s) (in_handled s) (in_written s) l (in_next s).

Definition on_sock {A} (m : M (base_implementation_type K) A) : MN A := λ s,
  match m (in_sock s) with
  | Ok (a, i) => Ok (a, set_sock i s)
  | Fault f => Fault f
  end.

Definition on_conn {A} (m : MC A) : MN A := λ s,
  match m (in_conn s) with
  | Ok (a, c) => Ok (a, set_conn c s)
  | Fault f => Fault f
  end.

Definition socket_open (s : inbound K) : bool := Connection.is_open (m_socket (in_conn s)).

(** The reads and writes that the connection has posted are the socket's. *)
Fixpoint post_reads (l : list Connection.read_op) : MN unit :=
  match l with
  | [] => mret tt
  | rd :: l =>
      n ← gets in_next;
      modify next_op;;
      on_sock (async_receive n (rd_len rd));;
      post_reads l
  end.

Fixpoint post_writes (l : list Connection.posted_write) : MN unit :=
  match l with
  | [] => mret tt
  | w :: l =>
      n ← gets in_next;
      modify next_op;;
      on_sock (async_send n (contents (wr_buffer w)));;
      modify (λ s, set_writing (in_writing s ++ [n]) s);;
      post_writes l
  end.

(** The connection closes its socket. *)
Definition close_socket : M (base_implementation_type K) unit := shutdown shutdown_both;; SocketService.close no_error;; mret tt.

(** Runs a function of the connection, with the calls it makes on its socket; the oldest [completed] of the
    connection's reads are not the socket's any more. *)
Definition with_socket (completed : nat) (m : MC unit) : MN unit :=
  was_open ← gets socket_open;
  before ← gets (λ s, length (s_reads (m_socket (in_conn s))));
  on_conn m;;
  still_open ← gets socket_open;
  when (was_open && negb still_open) (on_sock close_socket);;
  rds ← gets (λ s, drop (before - completed) (s_reads (m_socket (in_conn s))));
  post_reads rds;;
  wrs ← gets (λ s, drop (length (in_writing s)) (s_writes (m_socket (in_conn s))));
  post_writes wrs.

(** The handler of the oldest completed read, on the connection's strand. *)
Definition handle_completion (now : Z) : MN unit :=
  o ← gets (λ s, recvs (called (impl_reactor (in_sock s))) !! in_handled s);
  match o with
  | None => mret tt
  | Some o =>
      modify count_handled;;
      with_socket 1 (on_read (Server_handle_read now) (code (ec_ o)) (ztake (bytes_transferred_ o) (op_data o)))
  end.

Definition is_send (o : reactor_op) : bool := match op_kind o with Send _ => true | _ => false end.
Definition sends (l : list reactor_op) : list reactor_op := List.filter is_send l.

(** The handler of the oldest completed write: it has the buffer that the operation was started with. *)
Definition handle_written (now : Z) : MN unit :=
  o ← gets (λ s, sends (called (impl_reactor (in_sock s))) !! in_written s);
  match o with
  | None => mret tt
  | Some o =>
      modify count_written;;
      ids ← gets in_writing;
      match list_find (λ n, n = op_id o) ids with
      | None => mret tt
      | Some (k, _) =>
          modify (set_writing (delete k ids));;
          with_socket 0 (on_nth_write (Server_handle_write now) k (code (ec_ o)) (bytes_transferred_ o))
      end
  end.

(** The closure that [Connection::async_write] posts on the strand, for a message; the timer's handler. *)
Definition write_message (d : MsgBuffer) : MN unit := with_socket 0 (Server_async_write d).
Definition tick (now counts : Z) : MN unit := with_socket 0 (_ ← Server_handle_timeout now counts; mret tt).

Definition succeeded (e : asio_error) : bool := match e with system_error n => n =? 0 | _ => false end.

(** [Server::handle_accept], with what the socket reports of its ends; the error that it throws is its
    result.  The registration that it posts is Server's. *)
Definition handle_accepted (ends : sys (list byte * Z * list byte * Z)) : MN (option asio_error) :=
  match ends with
  | SysErr e => mret (Some (system_error e))
  | SysOk (remote_ip, remote_port, local_ip, local_port) =>
      handle ← gets (λ s, socket_ (in_sock s));
      on_conn (set_conn_info remote_ip local_ip remote_port local_port handle);;
      ec ← on_sock (setsockopt IPPROTO_TCP TCP_NODELAY [1]);
      if negb (succeeded ec) then mret (Some ec)
      else
        r ← on_sock (set_user_non_blocking true);
        if negb (succeeded (r : bool * asio_error).2) then mret (Some r.2)
        else with_socket 0 (Server_async_read g_proto_head_len);; mret None
  end.

(** A completed accept assigns the new socket to the connection; after an error
    the operation closes it, and there is nothing to handle. *)
Definition accepted (native_socket : Z) (ends : sys (list byte * Z * list byte * Z)) : MN (option asio_error) :=
  ec ← on_sock (do_assign SOCK_STREAM native_socket);
  if negb (succeeded ec) then on_sock (close_held native_socket);; mret (Some ec) else handle_accepted ends.

Definition inbound_make (c : Connection) (k : K) : inbound K := mkInbound c (socket_make k) 0 0 [] 0.
End Inbound.

(** ** Steps *)

Section Steps.
Context {K : Type} `{EdgeTriggered K} `{!SocketCalls K}.

(** The threads of the event loop and the world, the writers of messages, the handlers of completed reads and
    writes, and the timer.  A step returns: after the undefined behaviour of [Writing.message_written] there is none. *)
Inductive inbound_step (s s' : inbound K) : Prop :=
  | in_loop c : background c → call_ok c (impl_reactor (in_sock s)) → on_sock (on_reactor (do_call c)) s = Ok (tt, s') → inbound_step s s'
  | in_message d : write_message d s = Ok (tt, s') → inbound_step s s'
  | in_written_handler now : handle_written now s = Ok (tt, s') → inbound_step s s'
  | in_tick now counts : tick now counts s = Ok (tt, s') → inbound_step s s'
  | in_handler now : handle_completion now s = Ok (tt, s') → inbound_step s s'.

(** The mode of a descriptor can be set. *)
Class CanBlock : Prop := mode_is_set : ∀ b (k : K), (sys_non_blocking b k).1 = SysOk tt.

Context {laws : KernelLaws K} {call_laws : SocketCallLaws K} {recv_laws : RecvLaws K} {can_block : CanBlock}.
Implicit Types (s : inbound K) (i : base_implementation_type K) (r : reactor K).

(** ** The socket *)

Definition stream_socket i : Prop := SocketService.is_open i = true ∧ stream_oriented (impl_state_ i) = true.

Lemma ensure_stream k0 i o :
  service_ok k0 i → stream_socket i →
  ∃ e f k', ensure_non_blocking o i = Ok ((true, set_ec e o), mkImpl (socket_ i) f (set_kernel k' (impl_reactor i))) ∧
    service_ok k0 (mkImpl (socket_ i) f (set_kernel k' (impl_reactor i))) ∧ stream_oriented f = true.
Proof.
  intros S [Ho Hst]. destruct (ensure_open k0 i o S Ho) as (b & e & f & k' & E & _ & _ & S'). pose proof E as E'.
  unfold ensure_non_blocking in E. erewrite bind_ok in E by reflexivity. change (impl_state_ (id i)) with (impl_state_ i) in E.
  assert (Hb : b = true ∧ stream_oriented f = true); [|destruct Hb as [-> Hf]; by exists e, f, k'].
  destruct (negb (Z.land (impl_state_ i) non_blocking =? 0)); [injection E as <- _ Ei; split; [done|]; apply (f_equal impl_state_) in Ei; cbn in Ei; by rewrite <- Ei|].
  apply bind_inv in E as (x & i1 & E1 & E). unfold set_internal_non_blocking in E1. erewrite bind_ok in E1 by reflexivity.
  change (socket_ (id i)) with (socket_ i) in E1. rewrite (open_socket i Ho) in E1. cbn [negb andb] in E1.
  erewrite bind_ok in E1 by apply os_ok. rewrite (can_block true (kernel_of i)) in E1. cbn in E1. injection E1 as <- <-. cbn in E. injection E as <- _ <- _.
  split; [done|]. by apply stream_lor.
Qed.

Lemma receive_starts k0 h i n size :
  service_ok k0 i → stream_socket i → reads h Idle (impl_reactor i) → 0 < size →
  ∃ i' p', async_receive n size i = Ok (tt, i') ∧ service_ok k0 i' ∧ stream_socket i' ∧ reads h p' (impl_reactor i') ∧
    (p' = Waits size ∨ ∃ o, p' = Posted size o).
Proof.
  intros S [Ho Hst] R Hs. unfold async_receive. erewrite bind_ok by reflexivity. set (o := new_op n (Recv size) (impl_state_ i) 0).
  assert (Hz : (size =? 0) = false) by lia. rewrite Hz, andb_false_r. unfold start_op.
  destruct (ensure_stream k0 i o S (conj Ho Hst)) as (e & f & k' & E & S1 & Hf). erewrite bind_ok by exact E. cbn [fst snd].
  set (i1 := mkImpl (socket_ i) f (set_kernel k' (impl_reactor i))) in *. set (o1 := set_ec e o).
  destruct (reactor_started k0 i1 SocketOps.read_op o1 true S1 Ho) as (i' & E' & S').
  { unfold start_ok. split_and!; [done|by split|unfold op_ok; cbn; lia|done]. }
  unfold on_reactor in E'. destruct (Reactor.start_op SocketOps.read_op o1 true (impl_reactor i1)) as [[[] r']|] eqn:Er; [|done].
  injection E' as <-. destruct (s_open _ _ S1 Ho) as [Hd Hsh].
  destruct (reads_start h (impl_reactor i1) size o1 r' (proj1 (s_sound _ _ S1))) as (p' & R' & Hp'); [by destruct R; split|done|done|by split_and!|exact Er|].
  exists (set_reactor r' i1), p'. split_and!; [unfold on_reactor; by rewrite Er|done|by split|done|done].
Qed.

Lemma send_starts k0 h p i n data :
  service_ok k0 i → reads h p (impl_reactor i) →
  ∃ i', async_send n data i = Ok (tt, i') ∧ service_ok k0 i' ∧ reads h p (impl_reactor i') ∧
    SocketService.is_open i' = SocketService.is_open i ∧ (stream_socket i → stream_socket i').
Proof.
  intros S R. destruct (service_call_sound k0 (SSend n data) i S I) as (i' & E & S'). exists i'. cbn in E.
  split; [done|]. split; [done|]. unfold async_send in E. erewrite bind_ok in E by reflexivity.
  set (o := new_op n (Send data) (impl_state_ i) 0) in *. assert (Ho : is_recv o = false) by done.
  assert (Hpost : ∀ j e, post_at_once (set_ec e o) j = Ok (tt, i') → same_reads (impl_reactor j) (impl_reactor i') ∧ socket_ i' = socket_ j ∧ impl_state_ i' = impl_state_ j).
  { intros j e [= <-]. split; [by apply (same_post_now (set_ec e o))|done]. }
  unfold start_op in E. destruct (_ && _).
  { change o with (set_ec no_error o) in E. destruct (Hpost i no_error E) as (Hs & E1 & E2). split; [by apply (reads_same h p _ _ Hs)|].
    unfold stream_socket, SocketService.is_open. by rewrite E1, E2. }
  apply bind_inv in E as ([b o1] & i1 & E1 & E). destruct (SocketService.is_open i) eqn:Hop.
  - destruct (ensure_open k0 i o S Hop) as (b' & e & f & k' & E1' & _ & _ & S1). rewrite E1' in E1. injection E1 as <- <- <-. cbn [fst snd] in E.
    assert (Hs : same_reads (impl_reactor i) (impl_reactor i') ∧ socket_ i' = socket_ i ∧ impl_state_ i' = f).
    { destruct b'; [|destruct (Hpost _ e E) as (Hs & ? & ?); split; [|done]; by destruct Hs; split].
      unfold on_reactor in E. destruct (Reactor.start_op write_op (set_ec e o) true _) as [[[] r']|] eqn:Er; [|done]. injection E as <-. split; [|done].
      apply (same_start (set_ec e o) true (conj Ho eq_refl)) in Er. by destruct Er; split. }
    destruct Hs as (Hs & Es & Ef). split; [by apply (reads_same h p _ _ Hs)|]. split; [unfold SocketService.is_open in *; by rewrite Es|].
    intros Hstr. destruct (ensure_stream k0 i o S Hstr) as (e2 & f2 & k2 & E2 & _ & Hf2). rewrite E1' in E2. injection E2 as _ _ -> _.
    split; [unfold SocketService.is_open in *; by rewrite Es|by rewrite Ef].
  - rewrite (ensure_closed k0 i o S Hop) in E1. injection E1 as <- <- <-. cbn [fst snd] in E. destruct (Hpost i _ E) as (Hs & E1 & E2).
    split; [by apply (reads_same h p _ _ Hs)|]. split; [unfold SocketService.is_open in *; by rewrite E1|]. intros [Ht _]. congruence.
Qed.

(** The socket is closed with the read where it is: one that waits is given back. *)
Definition ended (p p' : phase) : Prop := in_transit p' = in_transit p ∧ match p with Waits size => ∃ o, p' = Posted size o | _ => p' = p end.

Lemma close_stops k0 h p i :
  service_ok k0 i → SocketService.is_open i = true → reads h p (impl_reactor i) →
  ∃ i' p', close_socket i = Ok (tt, i') ∧ service_ok k0 i' ∧ SocketService.is_open i' = false ∧ reads h p' (impl_reactor i') ∧ ended p p'.
Proof.
  intros S Ho R. unfold close_socket. destruct (shutdown_call k0 shutdown_both i S) as (a & i1 & E1 & S1). erewrite bind_ok by exact E1.
  assert (H1 : SocketService.is_open i1 = true ∧ reads h p (impl_reactor i1)).
  { unfold shutdown in E1. erewrite bind_ok in E1 by reflexivity. change (socket_ (id i)) with (socket_ i) in E1. rewrite (open_socket i Ho) in E1.
    erewrite bind_ok in E1 by apply os_ok. injection E1 as _ <-. split; [done|by destruct R; split]. }
  destruct H1 as [Ho1 R1]. destruct (close_when_open k0 i1 no_error S1 Ho1) as (e & r2 & E2 & Q & Hd). erewrite bind_ok by exact E2.
  destruct (reads_closed k0 h p _ r2 (s_sound _ _ S1) Q R1) as (p' & R' & Ht & Hp).
  eexists _, p'. split; [reflexivity|]. split; [by eapply closed_ok|]. by split.
Qed.

(** A read on a closed socket completes with an error. *)
Lemma receive_refused k0 h i n size :
  service_ok k0 i → SocketService.is_open i = false → reads h Idle (impl_reactor i) →
  ∃ i' o, async_receive n size i = Ok (tt, i') ∧ service_ok k0 i' ∧ SocketService.is_open i' = false ∧ reads h (Posted size o) (impl_reactor i').
Proof.
  intros S Ho R. set (o := set_ec (system_error bad_descriptor) (new_op n (Recv size) 0 0)). exists (set_reactor (post_now o (impl_reactor i)) i), o.
  split; [by apply (receive_closed k0)|]. split; [by apply post_at_once_ok|]. split; [done|]. apply reads_post; [done| |done].
  split; [done|]. split; [done|]. right. split; [|done]. right. by exists bad_descriptor.
Qed.

(** ** The socket beside the connection *)

(** The reads in [h] have been handled; the socket is open, or closed. *)
Record socket_at (k0 : K) (h : list reactor_op) (p : phase) (o : bool) s : Prop := {
  sa_service : service_ok k0 (in_sock s);
  sa_reads : reads h p (impl_reactor (in_sock s));
  sa_handled : length h = in_handled s;
  sa_open : if o then stream_socket (in_sock s) else SocketService.is_open (in_sock s) = false
}.

Lemma is_open_at k0 h p o s : socket_at k0 h p o s → SocketService.is_open (in_sock s) = o.
Proof. intros [_ _ _ Ho]. by destruct o; [destruct Ho|]. Qed.

Lemma writes_at k0 h p o l s :
  socket_at k0 h p o s → ∃ s', post_writes l s = Ok (tt, s') ∧ socket_at k0 h p o s' ∧ in_conn s' = in_conn s.
Proof.
  revert s. induction l as [|w l IH]; intros s A; [by exists s|]. cbn [post_writes]. do 2 (erewrite bind_ok by reflexivity).
  destruct A as [S R Hh Ho]. destruct (send_starts k0 h p _ (in_next s) (contents (wr_buffer w)) S R) as (i' & E & S' & R' & Hop & Hstr).
  erewrite bind_ok by (unfold on_sock; cbn [in_sock next_op]; rewrite E; reflexivity). erewrite bind_ok by reflexivity.
  match goal with |- context [post_writes l ?s1] => destruct (IH s1) as (s' & E' & A' & Hc) end; [|by exists s'].
  split; [done|done|done|]. cbn. destruct o; [by apply Hstr|congruence].
Qed.

Lemma closes_at k0 h p s :
  socket_at k0 h p true s → ∃ s' p', on_sock close_socket s = Ok (tt, s') ∧ socket_at k0 h p' false s' ∧ ended p p' ∧ in_conn s' = in_conn s.
Proof.
  intros [S R Hh [Ho _]]. destruct (close_stops k0 h p _ S Ho R) as (i' & p' & E & S' & Ho' & R' & Hp). eexists _, p'.
  split; [unfold on_sock; rewrite E; reflexivity|]. by split.
Qed.

Definition phase_size (p : phase) : option Z :=
  match p with Idle => None | Waits n | Posted n _ | Called n _ => Some n end.

Lemma reads_at k0 h o n s :
  socket_at k0 h Idle o s → 0 < n →
  ∃ s' p', (m ← gets in_next; modify next_op;; on_sock (async_receive m n)) s = Ok (tt, s') ∧ socket_at k0 h p' o s' ∧ in_conn s' = in_conn s ∧
    (p' = Waits n ∨ ∃ o, p' = Posted n o).
Proof.
  intros [S R Hh Ho] Hn. do 2 (erewrite bind_ok by reflexivity). unfold on_sock. cbn [in_sock next_op]. destruct o.
  - destruct (receive_starts k0 h _ (in_next s) n S Ho R Hn) as (i' & p' & E & S' & Hstr' & R' & Hp'). rewrite E. eexists _, p'. by split_and!.
  - destruct (receive_refused k0 h _ (in_next s) n S Ho R) as (i' & o & E & S' & Ho' & R'). rewrite E. eexists _, (Posted n o). split_and!; [done|done|done|].
    right. by eexists.
Qed.

(** A part of the connection that closes the socket or not and posts no read. *)
Lemma with_socket_at k0 h p o s done m c' :
  socket_at k0 h p o s → socket_open s = o → m (in_conn s) = Ok (tt, c') → (Connection.is_open (m_socket c') = true → o = true) →
  (length (s_reads (m_socket c')) ≤ length (s_reads (m_socket (in_conn s))) - done)%nat →
  ∃ s' p', with_socket done m s = Ok (tt, s') ∧ socket_at k0 h p' (Connection.is_open (m_socket c')) s' ∧ in_conn s' = c' ∧ (ended p p' ∨ p' = p).
Proof.
  intros A Hop Em Hle Hr. unfold with_socket. do 2 (erewrite bind_ok by reflexivity). erewrite bind_ok by (unfold on_conn; rewrite Em; reflexivity).
  erewrite bind_ok by reflexivity. rewrite Hop. unfold socket_open. cbn [in_conn set_conn]. set (s1 := set_conn c' s).
  assert (H1 : ∃ s2 p', when (o && negb (Connection.is_open (m_socket c'))) (on_sock close_socket) s1 = Ok (tt, s2) ∧
    socket_at k0 h p' (Connection.is_open (m_socket c')) s2 ∧ in_conn s2 = c' ∧ (ended p p' ∨ p' = p)).
  { destruct (Connection.is_open (m_socket c')) eqn:E'.
    - rewrite (Hle eq_refl) in *. cbn. exists s1, p. split_and!; [done| |done|by right]. by destruct A; split.
    - destruct o; cbn.
      + destruct (closes_at k0 h p s1) as (s2 & p' & E2 & A2 & Hp & Hc); [by destruct A; split|]. exists s2, p'. split_and!; [done|done|done|by left].
      + exists s1, p. split_and!; [done| |done|by right]. by destruct A; split. }
  destruct H1 as (s2 & p' & E2 & A2 & Hc & Hp). erewrite bind_ok by exact E2. erewrite bind_ok by reflexivity. cbn beta. rewrite Hc.
  rewrite drop_ge by done. erewrite bind_ok by reflexivity. erewrite bind_ok by reflexivity. cbn beta.
  destruct (writes_at k0 h p' _ (drop (length (in_writing s2)) (s_writes (m_socket (in_conn s2)))) s2 A2) as (s' & E' & A' & Hc').
  exists s', p'. split_and!; [exact E'|done|congruence|done].
Qed.

(** A handler that posts one read. *)
Lemma with_socket_reads k0 h o s done m c' n :
  socket_at k0 h Idle o s → socket_open s = o → m (in_conn s) = Ok (tt, c') → Connection.is_open (m_socket c') = o →
  length (s_reads (m_socket (in_conn s))) = done → (∃ pos, s_reads (m_socket c') = [mkRead pos n]) → 0 < n →
  ∃ s' p', with_socket done m s = Ok (tt, s') ∧ socket_at k0 h p' o s' ∧ in_conn s' = c' ∧ (p' = Waits n ∨ ∃ o, p' = Posted n o).
Proof.
  intros A Hop Em Ho Hd [pos Hr] Hn. unfold with_socket. do 2 (erewrite bind_ok by reflexivity).
  erewrite bind_ok by (unfold on_conn; rewrite Em; reflexivity). erewrite bind_ok by reflexivity. rewrite Hop.
  unfold socket_open. cbn [in_conn set_conn]. rewrite Ho. replace (o && negb o) with false by by destruct o. cbn [when]. do 2 (erewrite bind_ok by reflexivity).
  cbn [in_conn set_conn]. rewrite Hd, Nat.sub_diag, Hr. cbn [drop post_reads rd_len].
  destruct (reads_at k0 h o n (set_conn c' s)) as (s1 & p' & E1 & A1 & Hc1 & Hp); [by destruct A; split|done|].
  do 2 (erewrite bind_ok in E1 by reflexivity). erewrite bind_ok by (do 2 (erewrite bind_ok by reflexivity); erewrite bind_ok by exact E1; reflexivity).
  erewrite bind_ok by reflexivity. cbn beta.
  destruct (writes_at k0 h p' o (drop (length (in_writing s1)) (s_writes (m_socket (in_conn s1)))) s1 A1) as (s' & E' & A' & Hc').
  exists s', p'. split_and!; [exact E'|done|by rewrite Hc', Hc1|done].
Qed.

(** ** The invariant *)

Lemma moves_size p p' : moves p p' → phase_size p' = phase_size p.
Proof. by destruct 1. Qed.

Lemma ended_size p p' : ended p p' → phase_size p' = phase_size p.
Proof. intros [_ Hp]. destruct p; [by subst|by destruct Hp as [o ->]|by subst..]. Qed.

Definition socket_is (o : bool) i : Prop := if o then stream_socket i else SocketService.is_open i = false.

(** The connection waits for what the frame at hand still needs, with the socket open or closed, or has stopped. *)
Definition under_way (p : phase) i (rest : list byte) (c : Connection) : Prop :=
  (∃ o, waiting o rest (tasks c) c ∧ phase_size p = Some (needed rest) ∧ socket_is o i) ∨
  (stopped (tasks c) c ∧ p = Idle ∧ SocketService.is_open i = false).

(** [t] has been handled. *)
Record inbound_ok (k0 : K) (t : list byte) (p : phase) (h : list reactor_op) s : Prop := {
  io_service : service_ok k0 (in_sock s);
  io_reads : reads h p (impl_reactor (in_sock s));
  io_handled : length h = in_handled s;
  io_bytes : concat (map op_data h) = t;
  io_conn : ∃ fs rest, Forall is_frame fs ∧ Forall2 frame_buffer (tasks (in_conn s)) fs ∧ t = concat fs ++ rest ∧
    classify rest ≠ WHOLE ∧ under_way p (in_sock s) rest (in_conn s)
}.

Lemma under_way_moves p p' i i' rest c :
  moves p p' → socket_ i' = socket_ i → impl_state_ i' = impl_state_ i → under_way p i rest c → under_way p' i' rest c.
Proof.
  intros Hm E1 E2 [(o & Hw & Hp & Hs)|(Hs & -> & Ho)].
  - left. exists o. split; [done|]. rewrite (moves_size p p' Hm). split; [done|].
    unfold socket_is, stream_socket, SocketService.is_open in *. by destruct o; rewrite E1, ?E2.
  - right. split; [done|]. inversion Hm; subst. split; [done|]. unfold SocketService.is_open in *. by rewrite E1.
Qed.

(** The connection knows whether its socket is open. *)
Lemma under_way_at k0 t p h s :
  inbound_ok k0 t p h s → socket_at k0 h p (socket_open s) s.
Proof.
  intros [S R Hh Hb (fs & rest & _ & _ & _ & _ & [(o & [_ [_ _ Ho _ _]] & _ & Hs)|([_ Ho _] & -> & Hc)])]; (split; [done..|]);
    unfold socket_open; rewrite Ho; [by destruct o|done].
Qed.

Lemma inbound_loop k0 t p h s c :
  inbound_ok k0 t p h s → background c → call_ok c (impl_reactor (in_sock s)) →
  ∃ s' p', on_sock (on_reactor (do_call c)) s = Ok (tt, s') ∧ moves p p' ∧ inbound_ok k0 t p' h s' ∧ in_conn s' = in_conn s.
Proof.
  intros [S R Hh Hb (fs & rest & Hfs & Ht & E & Hc & U)] Hbg Hok.
  destruct (background_sound k0 c _ S Hbg Hok) as (i' & Ei & S'). assert (Hi : ∃ r', do_call c (impl_reactor (in_sock s)) = Ok (tt, r') ∧ i' = set_reactor r' (in_sock s)).
  { unfold on_reactor in Ei. destruct (do_call c _) as [[[] r']|]; [|done]. injection Ei as <-. by exists r'. }
  destruct Hi as (r' & Er & ->). destruct (reads_loop k0 h p _ c r' (s_sound _ _ S) R Hbg Er) as (p' & Hm & R').
  eexists _, p'. split; [unfold on_sock; rewrite Ei; reflexivity|]. split; [done|]. split; [|done]. split; try done.
  exists fs, rest. split_and!; try done. by apply (under_way_moves p p' (in_sock s)).
Qed.

(** What happens beside the read loop. *)
Lemma inbound_beside k0 t p h s m s' :
  inbound_ok k0 t p h s → along beside m → with_socket 0 m s = Ok (tt, s') → ∃ p', inbound_ok k0 t p' h s'.
Proof.
  intros I Hm E. pose proof (under_way_at _ _ _ _ _ I) as A. destruct I as [S R Hh Hb (fs & rest & Hfs & Ht & Et & Hc & U)].
  assert (Em : ∃ c', m (in_conn s) = Ok (tt, c')).
  { pose proof E as E1. unfold with_socket in E1. do 2 (erewrite bind_ok in E1 by reflexivity). apply bind_inv in E1 as ([] & s1 & E1 & _).
    unfold on_conn in E1. destruct (m (in_conn s)) as [[[] c']|]; [by exists c'|done]. }
  destruct Em as [c' Em]. pose proof (Hm _ _ _ Em) as B.
  destruct (with_socket_at k0 h p _ s 0 m c' A eq_refl Em (bs_open _ _ B)) as (s1 & p' & E1 & A1 & Ec & Hp); [rewrite (bs_reads _ _ B); lia|].
  rewrite E in E1. injection E1 as <-. exists p'. destruct A1 as [S1 R1 Hh1 Ho1]. split; [done..|]. exists fs, rest. rewrite Ec, (bs_tasks _ _ B).
  split_and!; [done..|]. destruct U as [(o & Hw & Hsz & Hs)|(Hst & -> & Hcl)].
  - left. exists (Connection.is_open (m_socket c')). split; [by apply (beside_waiting o rest (in_conn s))|]. split; [|done].
    by destruct Hp as [Hp| ->]; [rewrite (ended_size p p' Hp)|].
  - right. pose proof (beside_stopped _ _ B Hst) as Hst'. split; [done|]. split; [by destruct Hp as [[_ ->]| ->]|].
    by rewrite (stopped_closed _ _ Hst') in Ho1.
Qed.

Lemma inbound_same k0 t p h s s' :
  inbound_ok k0 t p h s → in_conn s' = in_conn s → in_sock s' = in_sock s → in_handled s' = in_handled s → inbound_ok k0 t p h s'.
Proof. intros [S R Hh Hb C] E1 E2 E3. split; [by rewrite E2|by rewrite E2|by rewrite E3|done|by rewrite E1, E2]. Qed.

Lemma inbound_written k0 t p h s now s' :
  inbound_ok k0 t p h s → handle_written now s = Ok (tt, s') → ∃ p', inbound_ok k0 t p' h s'.
Proof.
  intros I E. unfold handle_written in E. erewrite bind_ok in E by reflexivity. destruct (_ !! _) as [o|]; [|injection E as <-; by exists p].
  do 2 (erewrite bind_ok in E by reflexivity). cbn beta in E. destruct (list_find _ _) as [[k n]|]; [|injection E as <-; exists p; by apply (inbound_same _ _ _ _ s)].
  erewrite bind_ok in E by reflexivity. eapply inbound_beside; [|apply beside_write|exact E]. by apply (inbound_same _ _ _ _ s).
Qed.

(** ** The handler *)

Lemma reads_handled h n o r : reads h (Called n o) r → reads (h ++ [o]) Idle r.
Proof.
  intros [R1 R2 R3 R4 _]. split; [done|done|by rewrite app_nil_r| |done]. cbn in *. rewrite R4, map_app, concat_app. cbn. by rewrite !app_nil_r.
Qed.

Lemma code_final e : final_error e → ∃ v, code e = ec_other v.
Proof.
  intros [-> |(n & -> & N0 & N1 & N2)]; [by eexists|]. exists n. unfold code. apply Z.eqb_neq in N0, N1, N2. by rewrite N0, N1, N2.
Qed.

Lemma waiting_posted o rest out c : waiting o rest out c → s_reads (m_socket c) = [mkRead (zlen rest) (needed rest)] ∧ Connection.is_open (m_socket c) = o.
Proof. by intros [_ []]. Qed.

(** What a completed read makes of the connection. *)
Lemma chunk_handled now b t fs rest n o c :
  Forall is_frame fs → Forall2 frame_buffer (tasks c) fs → t = concat fs ++ rest → waiting b rest (tasks c) c → n = needed rest → finished n o →
  ∃ c' fs' rest', on_read (Server_handle_read now) (code (ec_ o)) (ztake (bytes_transferred_ o) (op_data o)) c = Ok (tt, c') ∧
    Forall is_frame fs' ∧ Forall2 frame_buffer (tasks c') fs' ∧ t ++ op_data o = concat fs' ++ rest' ∧ classify rest' ≠ WHOLE ∧
    (waiting b rest' (tasks c') c' ∧ op_data o ≠ [] ∨ stopped (tasks c') c').
Proof.
  intros Hfs Ht -> Hw -> (_ & Hbt & Hcase). rewrite Hbt, ztake_ge by done. rewrite <- app_assoc.
  destruct Hcase as [[-> [H1 Hn]]|[Hf Hd]].
  - assert (Hne : op_data o ≠ []) by (intros Hd; rewrite Hd in H1; done). change (code no_error) with ec_ok. destruct (on_read_chunk b (Server_handle_read now) rest (op_data o) (tasks c) c Hw Hn) as (c' & E & [[Hp Hw']|[(Hfr & d & Hb' & Hw')|(Hi & Hs)]]).
    + exists c', fs, (rest ++ op_data o). pose proof (waiting_tasks _ _ _ _ Hw') as Ec. rewrite Ec in Ht, Hw'.
      split_and!; [done|done|done|done|by eapply waiting_not_whole|by left].
    + exists c', (fs ++ [rest ++ op_data o]), []. rewrite <- (waiting_tasks _ _ _ _ Hw'). split_and!; [done|by apply Forall_app; auto|by apply Forall2_app; auto| |done|by left].
      rewrite concat_app. cbn. by rewrite !app_nil_r.
    + exists c', fs, (rest ++ op_data o). rewrite (stopped_tasks _ _ Hs). split_and!; [done|done|done|done|by rewrite Hi|by right].
  - destruct (code_final _ Hf) as [v ->]. rewrite Hd, app_nil_r. destruct (on_read_broken b (Server_handle_read now) rest (tasks c) v c Hw) as (c' & E & Hs).
    exists c', fs, rest. rewrite (stopped_tasks _ _ Hs). split_and!; [done|done|done|done|by eapply waiting_not_whole|by right].
Qed.

(** Nothing to handle. *)
Lemma nothing_called k0 t p h s now :
  inbound_ok k0 t p h s → (∀ n o, p ≠ Called n o) → handle_completion now s = Ok (tt, s).
Proof.
  intros [_ R Hh _ _] Hp. unfold handle_completion. erewrite bind_ok by reflexivity.
  assert (Hl : recvs (called (impl_reactor (in_sock s))) !! in_handled s = None).
  { rewrite (rd_called _ _ _ R), <- Hh. destruct p; try (rewrite app_nil_r; by apply lookup_ge_None_2). by destruct (Hp size o). }
  by rewrite Hl.
Qed.

Lemma inbound_handler k0 t h s now n o :
  inbound_ok k0 t (Called n o) h s →
  ∃ s' p', handle_completion now s = Ok (tt, s') ∧ inbound_ok k0 (t ++ op_data o) p' (h ++ [o]) s' ∧
    match p' with Idle => socket_open s' = false | Waits _ | Posted _ _ => op_data o ≠ [] | Called _ _ => False end.
Proof.
  intros I. pose proof (under_way_at _ _ _ _ _ I) as A. destruct I as [S R Hh Hb (fs & rest & Hfs & Ht & E & Hc & U)].
  destruct U as [(b & Hw & Hp & _)|(_ & [=] & _)]. injection Hp as Hn.
  unfold handle_completion. erewrite bind_ok by reflexivity.
  assert (Hl : recvs (called (impl_reactor (in_sock s))) !! in_handled s = Some o).
  { rewrite (rd_called _ _ _ R), <- Hh. by rewrite lookup_app_r, Nat.sub_diag by done. }
  rewrite Hl. erewrite bind_ok by reflexivity. set (s1 := count_handled s). destruct (waiting_posted _ _ _ _ Hw) as [Hr Ho].
  assert (A1 : socket_at k0 (h ++ [o]) Idle b s1).
  { rewrite <- Ho. destruct A as [_ _ _ Hop]. split; [done|by eapply reads_handled|rewrite length_app, Hh; cbn; lia|exact Hop]. }
  destruct (chunk_handled now b t fs rest n o (in_conn s) Hfs Ht E Hw Hn (rd_done _ _ _ R)) as (c' & fs' & rest' & Ec & Hfs' & Ht' & E' & Hc' & U').
  assert (Hb1 : concat (map op_data (h ++ [o])) = t ++ op_data o) by (rewrite map_app, concat_app, Hb; cbn; by rewrite app_nil_r).
  destruct U' as [[Hw' Hne]|Hs'].
  - destruct (waiting_posted _ _ _ _ Hw') as [Hr' Ho'].
    destruct (with_socket_reads k0 (h ++ [o]) b s1 1 _ c' (needed rest') A1 Ho Ec Ho') as (s' & p' & Es & [S' R' Hh' Hop'] & Ecn & Hcase);
      [by cbn; rewrite Hr|by eexists|destruct (needed_bounds rest' (proj1 Hw')); lia|].
    exists s', p'. split; [exact Es|]. split; [|by destruct Hcase as [-> |(? & ->)]]. split; [done..|].
    exists fs', rest'. rewrite Ecn. split_and!; try done. left. exists b. split; [done|]. split; [|done]. by destruct Hcase as [-> |(? & ->)].
  - destruct Hs' as [Hr' Ho' Hts].
    destruct (with_socket_at k0 (h ++ [o]) Idle b s1 1 _ c' A1 Ho Ec) as (s' & p' & Es & [S' R' Hh' Hop'] & Ecn & Hcase); [by rewrite Ho'|rewrite Hr'; cbn; lia|].
    assert (p' = Idle) as -> by by destruct Hcase as [[_ ->]| ->]. rewrite Ho' in Hop'.
    exists s', Idle. split; [exact Es|]. split; [|unfold socket_open; by rewrite Ecn]. split; [done..|].
    exists fs', rest'. rewrite Ecn. split_and!; try done. right. by split_and!.
Qed.

(** Any step. *)
Lemma inbound_steps_ok k0 t p h s s' :
  inbound_ok k0 t p h s → inbound_step s s' → ∃ t' p' h', inbound_ok k0 t' p' h' s' ∧ t `prefix_of` t'.
Proof.
  intros I [c Hb Hc E|d E|now E|now counts E|now E].
  - destruct (inbound_loop k0 t p h s c I Hb Hc) as (s1 & p' & E1 & _ & I1 & _). rewrite E in E1. injection E1 as <-. by exists t, p', h.
  - destruct (inbound_beside k0 t p h s _ s' I (beside_async_write d) E) as (p' & I'). by exists t, p', h.
  - destruct (inbound_written k0 t p h s now s' I E) as (p' & I'). by exists t, p', h.
  - assert (B : along beside (_ ← Server_handle_timeout now counts; mret tt)) by (beside; apply beside_timeout).
    destruct (inbound_beside k0 t p h s _ s' I B E) as (p' & I'). by exists t, p', h.
  - destruct p as [|n|n o|n o]; [rewrite (nothing_called k0 t _ h s now I) in E by done; injection E as <-; by do 3 eexists..|].
    destruct (inbound_handler k0 t h s now n o I) as (s1 & p' & E1 & I1 & _). rewrite E in E1. injection E1 as <-.
    exists (t ++ op_data o), p', (h ++ [o]). split; [done|]. by apply prefix_app_r.
Qed.

(** ** The beginning *)

Definition no_reads r : Prop := posted r = [] ∧ called r = [] ∧ performed r = [] ∧ queue r SocketOps.read_op = [].

Lemma no_reads_idle r : no_reads r → reads [] Idle r.
Proof. intros (Hp & Hc & Hf & Hq). split; [done|by rewrite Hp|by rewrite Hc|by rewrite Hf|done]. Qed.

Lemma register_no_reads r e r' : no_reads r → register_descriptor r = Ok (e, r') → no_reads r'.
Proof.
  intros (Hp & Hc & Hf & Hq) Er. unfold register_descriptor in Er. do 2 (erewrite bind_ok in Er by reflexivity). apply bind_inv in Er as (res & r2 & E2 & Er).
  unfold on_kernel in E2. destruct (syscall _ _) as [[x k']|]; [|done]. injection E2 as -> <-. destruct res as [u|e']; [by injection Er as _ <-|].
  destruct (e' =? _); by injection Er as _ <- || by injection Er as <-.
Qed.

(** A new connection's socket is assigned and the reactor watches it. *)
Lemma assign_fresh k native :
  native ≠ invalid_socket → registers k →
  ∃ i, do_assign SOCK_STREAM native (socket_make k) = Ok (no_error, i) ∧ service_ok k i ∧ stream_socket i ∧ no_reads (impl_reactor i).
Proof.
  intros Hn Hreg. pose proof (socket_make_ok k) as S.
  destruct (s_closed _ _ S eq_refl) as (I & _ & _). set (f := Z.lor (flags_of SOCK_STREAM) possible_dup).
  destruct (opened k (socket_make k) native f (s_sound _ _ S) I Hreg Hn) as (r' & E & S'). exists (mkImpl native f r'). split_and!; [|done| |].
  - unfold do_assign. erewrite bind_ok by reflexivity. change (SocketService.is_open (id (socket_make k))) with false. cbn iota. by erewrite bind_ok by exact E.
  - split; [|done]. unfold SocketService.is_open. cbn. by apply Z.eqb_neq in Hn as ->.
  - unfold on_reactor in E. destruct (register_descriptor (impl_reactor (socket_make k))) as [[e r1]|] eqn:Er; [|done]. injection E as -> <-.
    refine (register_no_reads _ _ _ _ Er). by unfold no_reads; split_and!.
Qed.

Lemma start_reading info n th ji t1 t2 :
  ∃ c0, Server_async_read g_proto_head_len (set_info info (Connection_make n th ji t1 t2)) = Ok (tt, c0) ∧ waiting true [] [] c0.
Proof.
  destruct (async_read_fresh true g_proto_head_len (set_info info (Connection_make n th ji t1 t2)) []) as (c0 & E & Hr); try done.
  - split; [|done]. simpl. induction (seq 0 n); simpl; by constructor.
  - exists c0. split; [done|]. split; [by left|done].
Qed.

Lemma accepted_ok k native ends n th ji t1 t2 s0 :
  native ≠ invalid_socket → registers k →
  accepted native ends (inbound_make (Connection_make n th ji t1 t2) k) = Ok (None, s0) → ∃ p, inbound_ok k [] p [] s0 ∧ p ≠ Idle.
Proof.
  intros Hn Hreg E. unfold accepted in E. set (c := Connection_make n th ji t1 t2) in *.
  destruct (assign_fresh k native Hn Hreg) as (i1 & Ea & S1 & [Ho1 Hst1] & N1).
  erewrite bind_ok in E by (unfold on_sock, inbound_make; cbn [in_sock]; rewrite Ea; reflexivity). change (negb (succeeded no_error)) with false in E. cbn iota in E.
  destruct ends as [[[[rip rport] lip] lport]|e]; [|done]. unfold handle_accepted in E. do 2 (erewrite bind_ok in E by reflexivity).
  destruct (option_open IPPROTO_TCP TCP_NODELAY [1] i1 Ho1) as (e2 & f2 & k2 & E2 & C2 & T2 & H2). pose proof (service_calm k i1 f2 k2 S1 Ho1 C2 T2) as S2.
  erewrite bind_ok in E by (unfold on_sock; cbn [in_sock set_conn set_sock]; rewrite E2; reflexivity). set (i2 := mkImpl _ f2 _) in *.
  destruct (negb (succeeded e2)) eqn:Hs; [done|].
  destruct (user_mode_open true i2 Ho1) as ([b e3] & f3 & k3 & E3 & C3 & T3 & H3). pose proof (service_calm k i2 f3 k3 S2 Ho1 C3 T3) as S3.
  erewrite bind_ok in E by (unfold on_sock; cbn [in_sock set_conn set_sock]; rewrite E3; reflexivity). set (i3 := mkImpl _ f3 _) in *.
  cbn [snd] in E. destruct (negb (succeeded e3)) eqn:Hs3; [done|].
  destruct (start_reading (mkConnInfo rip rport lip lport (socket_ i1)) n th ji t1 t2) as (c0 & Ec & Hw). destruct (waiting_posted _ _ _ _ Hw) as [Hrd Ho].
  pose proof (waiting_tasks _ _ _ _ Hw) as Ht. fold c in Ec. set (s3 := set_sock i3 _) in E.
  destruct (with_socket_reads k [] true s3 0 (Server_async_read g_proto_head_len) c0 (needed [])) as (s' & p' & Es & [S4 R4 Hh4 Hop4] & Ecn & Hcase);
    [split; [exact S3|by apply no_reads_idle|done|split; [done|by apply H3, H2]]|done|exact Ec|done|done|by eexists|by vm_compute|].
  erewrite bind_ok in E by exact Es. injection E as <-. exists p'. split; [|by destruct Hcase as [-> |(? & ->)]]. split; [done..|].
  exists [], []. rewrite Ecn, <- Ht. split_and!; [by constructor|by constructor|done|done|left]. exists true. rewrite <- Ht. split; [done|].
  split; [by destruct Hcase as [-> |(? & ->)]|done].
Qed.

(** ** What the worker pool gets *)

Lemma inbound_rtc k0 t p h s s' :
  inbound_ok k0 t p h s → rtc inbound_step s s' → ∃ t' p' h', inbound_ok k0 t' p' h' s'.
Proof.
  intros I Hs. revert t p h I. induction Hs as [s|s s1 s' Hst _ IH]; intros t p h I; [by do 3 eexists|].
  destruct (inbound_steps_ok k0 t p h s s1 I Hst) as (t1 & p1 & h1 & I1 & _). by eapply IH.
Qed.

(** The reads that are under way: in the queue, posted, or about to be handled; and the bytes that they have got. *)
Definition under_way_reads s : list reactor_op :=
  let r := impl_reactor (in_sock s) in
  drop (in_handled s) (recvs (called r)) ++ recvs (posted r) ++ queue r SocketOps.read_op.

Lemma under_way_one k0 t p h s :
  inbound_ok k0 t p h s →
  concat (map op_data (under_way_reads s)) = in_transit p ∧ length (under_way_reads s) = match p with Idle => 0%nat | _ => 1%nat end.
Proof.
  intros [_ [R1 R2 R3 _ _] Hh _ _]. unfold under_way_reads. rewrite R2, R3, <- Hh, drop_app_length.
  destruct p as [|n|n o|n o]; unfold queue_reads in R1.
  2:{ destruct R1 as (o & -> & _ & [Hd _] & _). cbn. by rewrite Hd. }
  all: rewrite R1; cbn; by rewrite ?app_nil_r.
Qed.

Lemma under_way_open k0 t p h s : inbound_ok k0 t p h s →
  socket_open s = SocketService.is_open (in_sock s) ∧ (socket_open s = true → p ≠ Idle).
Proof.
  intros I. split; [symmetry; by eapply is_open_at, under_way_at|].
  destruct I as [_ _ _ _ (fs & rest & _ & _ & _ & _ & [(o & Hw & Hp & _)|(Hst & -> & _)])]; unfold socket_open.
  - by intros _ ->.
  - by rewrite (stopped_closed _ _ Hst).
Qed.

Lemma received_so_far k0 t p h s : inbound_ok k0 t p h s → received (kernel (impl_reactor (in_sock s))) = received k0 ++ t ++ in_transit p.
Proof.
  intros [S R _ Hb _]. destruct (s_sound _ _ S) as [_ [_ _ _ [-> _]]]. by rewrite (rd_data _ _ _ R), Hb.
Qed.

(** C4: A connection is accepted on a socket that the reactor watches. At any time, whatever the network and signals have
    done, in whatever order threads of the event loop have performed and completed operations, and whatever has been
    written on the connection, completed of the writes and timed out on it between its reads, the closing of the connection by
    any of these included: the bytes the socket has passed on are those the connection has handled and then those of the one
    read under way; the worker pool has got exactly the frames of the former, in order; the connection
    and its socket are open or closed together; one read is under way if they are open, and at most one (which was
    under way when they were closed, or follows one that was) if not; and the handler of the read returns. *)
Theorem frames_from_socket k native ends n th ji t1 t2 s0 s :
  native ≠ invalid_socket → registers k →
  accepted native ends (inbound_make (Connection_make n th ji t1 t2) k) = Ok (None, s0) → rtc inbound_step s0 s →
  ∃ t, received (kernel (impl_reactor (in_sock s))) = received k ++ t ++ concat (map op_data (under_way_reads s)) ∧
    Forall2 frame_buffer (tasks (in_conn s)) (split_frames t).1 ∧
    socket_open s = SocketService.is_open (in_sock s) ∧
    (length (under_way_reads s) ≤ 1)%nat ∧ (socket_open s = true → length (under_way_reads s) = 1%nat) ∧
    ∀ now, ∃ s', handle_completion now s = Ok (tt, s').
Proof.
  intros Hn Hreg E Hs. destruct (accepted_ok k native ends n th ji t1 t2 s0 Hn Hreg E) as (p0 & I0 & _).
  destruct (inbound_rtc k [] p0 [] s0 s I0 Hs) as (t & p & h & I). exists t.
  destruct (under_way_one k t p h s I) as [Hd Hl]. destruct (under_way_open k t p h s I) as [Ho Hi]. split_and!.
  - rewrite Hd. by eapply received_so_far.
  - destruct I as [_ _ _ _ (fs & rest & Hfs & Ht & -> & Hc & _)]. by rewrite split_frames_concat.
  - done.
  - rewrite Hl. destruct p; lia.
  - intros Hop. rewrite Hl. by destruct p; [destruct (Hi Hop)|..].
  - intros now. destruct p as [|m|m o|m o]; [exists s; by eapply nothing_called..|].
    destruct (inbound_handler k t h s now m o I) as (s' & p' & E' & _). by exists s'.
Qed.
End Steps.

(** ** A connection on the stream socket *)

#[global] Instance sock_recv_laws : RecvLaws sock.
Proof.
  split; intros size k; cbn; unfold sock_recv; intros x k'; repeat case_match; intros [= <- _]; try done; rewrite ?zlen_take; change (zlen (@nil byte)) with 0; lia.
Qed.

#[global] Instance sock_can_block : CanBlock (K := sock).
Proof. done. Qed.

Definition inbound_result {A} (r : result (A * inbound sock)) : inbound sock :=
  match r with Ok (_, s) => s | Fault _ => inbound_make (Connection_make 0 None (mkConnInfo [] 0 [] 0 0) 0 0) sock0 end.

Definition kernel_in (s : inbound sock) : sock := kernel (impl_reactor (in_sock s)).
Definition call_in (c : call sock) (s : inbound sock) : inbound sock := inbound_result (on_sock (on_reactor (do_call c)) s).
Definition handler_in (s : inbound sock) : inbound sock := inbound_result (handle_completion 5 s).

(** 10.0.0.7:50000 at 10.0.0.1:9001. *)
Definition sample_ends : sys (list byte * Z * list byte * Z) := SysOk ([x31; x30; x2e; x30; x2e; x30; x2e; x37], 50000, [x31; x30; x2e; x30; x2e; x30; x2e; x31], 9001).

(** The first frame and a half arrive, and are read. *)
Definition sample_accepted : inbound sock := inbound_result (accepted 3 sample_ends (inbound_make (Connection_make 1 None (mkConnInfo [] 0 [] 0 0) 0 0) sock0)).
Definition sample_arrival : inbound sock := call_in (World (arrive (sample_frame ++ ztake 5 sample_frame) (kernel_in sample_accepted))) sample_accepted.
Definition sample_ready : inbound sock := call_in Take (call_in Run sample_arrival).
Definition sample_read : inbound sock := handler_in (call_in (Complete 0) sample_ready).
Definition sample_second : inbound sock := handler_in (call_in (RunPosted 0) sample_read).

(** Before the second of the reads is handled, a message that cannot be written closes the connection. *)
Definition sample_closed : inbound sock := inbound_result (write_message (MsgBuffer_chars 0 invalid [x61]) (call_in (RunPosted 0) sample_read)).
Definition sample_after : inbound sock := handler_in sample_closed.

Lemma frames_from_socket_witness :
  ∃ t, received (kernel (impl_reactor (in_sock sample_after))) = received sock0 ++ t ++ concat (map op_data (under_way_reads sample_after)) ∧
    Forall2 frame_buffer (tasks (in_conn sample_after)) (split_frames t).1 ∧
    socket_open sample_after = SocketService.is_open (in_sock sample_after) ∧
    (length (under_way_reads sample_after) ≤ 1)%nat ∧ (socket_open sample_after = true → length (under_way_reads sample_after) = 1%nat) ∧
    ∀ now, ∃ s', handle_completion now sample_after = Ok (tt, s').
Proof.
  apply (frames_from_socket sock0 3 sample_ends 1 None (mkConnInfo [] 0 [] 0 0) 0 0 sample_accepted sample_after); [done|intros m; by left|by vm_compute|].
  eapply rtc_l; [apply (in_loop _ sample_arrival (World (arrive (sample_frame ++ ztake 5 sample_frame) (kernel_in sample_accepted)))); [exact I|apply data_arrives|by vm_compute]|].
  eapply rtc_l; [apply (in_loop _ (call_in Run sample_arrival) Run); [exact I|exact I|by vm_compute]|].
  eapply rtc_l; [apply (in_loop _ sample_ready Take); [exact I|exact I|by vm_compute]|].
  eapply rtc_l; [apply (in_loop _ (call_in (Complete 0) sample_ready) (Complete 0)); [exact I|exact I|by vm_compute]|].
  eapply rtc_l; [apply (in_handler _ sample_read 5); by vm_compute|].
  eapply rtc_l; [apply (in_loop _ (call_in (RunPosted 0) sample_read) (RunPosted 0)); [exact I|exact I|by vm_compute]|].
  eapply rtc_l; [apply (in_message _ sample_closed (MsgBuffer_chars 0 invalid [x61])); by vm_compute|].
  eapply rtc_l; [apply (in_handler _ sample_after 5); by vm_compute|]. apply rtc_refl.
Defined.

(** Without the message: one frame has been handed on, and the rest of the next one is in a posted read. *)
Example second_read : length (tasks (in_conn sample_second)) = 1%nat ∧ map op_data (under_way_reads sample_second) = [ztake 5 sample_frame].
Proof. by vm_compute. Qed.

(** With it the read under way is handled all the same, and the next one, on the closed socket, has been refused. *)
Example read_after_close :
  socket_open sample_closed = false ∧ map op_data (under_way_reads sample_closed) = [zdrop 12 sample_frame] ∧
  length (tasks (in_conn sample_after)) = 1%nat ∧ map ec_ (under_way_reads sample_after) = [system_error bad_descriptor].
Proof. by vm_compute. Qed.

(** A message is written, its completion is handled, and the timer ticks. *)
Example message_and_tick :
  match (write_message (MsgBuffer_chars 0 valid [x61; x62]);; on_sock (on_reactor (run_posted 0));; handle_written 5;; tick 5 0) (call_in (World (acknowledge 9 (kernel_in sample_accepted))) sample_accepted) with
  | Ok (_, s) => tx (kernel_in s) = [x61; x62] ∧ get_send_bytes (in_conn s) = 2 ∧ in_writing s = [] ∧ s_writes (m_socket (in_conn s)) = []
  | Fault _ => False
  end.
Proof. by vm_compute. Qed.
