(* ===== verification/InboundLive.v ===== *)
(** * Everything that arrives is handled (net/connection.cpp over asio)

    Turns of the event loop on the connection of Inbound: posted completions run, epoll is asked, ready
    operations are performed, and the connection's handler runs.  Result: after a bounded number of turns
    nothing that has arrived is left, and every complete frame of it is with the worker
    pool, unless the connection has been closed on the way. *)

From Stdlib Require Import ZArith Lia Strings.Byte.
From stdpp Require Import base list numbers functions relations.
From S2P Require Import Prelude.
From S2P Require Import Along.
From S2P Require Import SocketOps.
From S2P Require Import StreamSocket.
From S2P Require Import Reactor.
From S2P Require Import ReactorRun.
From S2P Require Import SocketService.
From S2P Require Import ReactorReads.
From S2P Require Import Connection.
From S2P Require Import Framing.
From S2P Require Import Server.
From S2P Require Import Inbound.

#[local] Open Scope Z_scope.

(** The bytes of the peer that have arrived, those that have been passed on among them.  No call loses any, and
    when there is no news to read all have been passed on. *)
Class Lossless (K : Type) `{EdgeTriggered K} `{!SocketCalls K} := {
  arrived : K → list byte;
  arrived_received k : received k `prefix_of` arrived k;
  arrived_news k : news SocketOps.read_op k = false → arrived k = received k;
  arrived_recv size k : arrived (sys_recv size k).2 = arrived k;
  arrived_send data k : arrived (sys_send data k).2 = arrived k;
  arrived_accept k : arrived (sys_accept k).2 = arrived k;
  arrived_so_error k : arrived (sys_so_error k).2 = arrived k;
  arrived_add m k : arrived (epoll_add m k).2 = arrived k;
  arrived_mod m k : arrived (epoll_mod m k).2 = arrived k;
  arrived_del k : arrived (epoll_del k) = arrived k;
  arrived_events k : arrived (epoll_events k).2 = arrived k;
  arrived_non_blocking b k : arrived (sys_non_blocking b k).2 = arrived k;
  arrived_option level name value k : arrived (sys_setsockopt level name value k).2 = arrived k;
  arrived_close k : arrived (sys_close k).2 = arrived k;
  arrived_shutdown what k : arrived (sys_shutdown what k).2 = arrived k
}.

Section Live.
Context {K : Type} `{Lossless K}.

(** ** A turn of the event loop *)

(** The scheduler completes what is posted. *)
Fixpoint run_all (n : nat) : M (reactor K) unit :=
  match n with
  | O => mret tt
  | S n => run_posted 0;; run_all n
  end.

(** Neither do handlers of completed writes run in such a turn, nor the timer; both are steps of their own. *)
Definition loop_turn (now : Z) : M (inbound K) unit :=
  n ← gets (λ s, length (posted (impl_reactor (in_sock s))));
  on_sock (on_reactor (run_all n));;
  on_sock (on_reactor turn);;
  handle_completion now.

Fixpoint loop_turns (n : nat) (now : Z) : M (inbound K) unit :=
  match n with
  | O => mret tt
  | S n => loop_turn now;; loop_turns n now
  end.

(** ** No call loses a byte *)

Definition lossless (k k' : K) : Prop := arrived k' = arrived k.
#[local] Instance lossless_preorder : PreOrder lossless.
Proof. split; [done|]. intros x y z A B. unfold lossless in *. congruence. Qed.

Lemma lossless_call {A} (f : K → A * K) : (∀ k, arrived (f k).2 = arrived k) → along lossless (syscall f).
Proof. intros Hf k a k' E. unfold syscall in E. injection E as E. specialize (Hf k). by rewrite E in Hf. Qed.

Ltac lossless := along_cases; try (apply lossless_call; intros ?;
  first [apply arrived_recv | apply arrived_send | apply arrived_accept | apply arrived_so_error | apply arrived_add | apply arrived_mod | apply arrived_events]).

Lemma lossless_recv fuel size b o : along lossless (non_blocking_recv1 fuel size b o).
Proof. revert o. induction fuel as [|fuel IH]; intros o; cbn [non_blocking_recv1]; lossless; apply IH. Qed.
Lemma lossless_send fuel data o : along lossless (non_blocking_send1 fuel data o).
Proof. revert o. induction fuel as [|fuel IH]; intros o; cbn [non_blocking_send1]; lossless; apply IH. Qed.
Lemma lossless_accept fuel state o : along lossless (non_blocking_accept fuel state o).
Proof. revert o. induction fuel as [|fuel IH]; intros o; cbn [non_blocking_accept]; lossless; apply IH. Qed.
Lemma lossless_perform o : along lossless (do_perform o).
Proof. unfold do_perform, non_blocking_connect. lossless; try apply lossless_recv; try apply lossless_send; apply lossless_accept. Qed.

Definition keeps_arrived (r r' : reactor K) : Prop := lossless (kernel r) (kernel r').
#[local] Instance keeps_arrived_preorder : PreOrder keeps_arrived.
Proof. split; [done|]. intros x y z A B. unfold keeps_arrived, lossless in *. congruence. Qed.

Lemma arrived_kernel {A} (m : M K A) : along lossless m → along keeps_arrived (on_kernel m).
Proof. intros Hm r a r'. unfold on_kernel. destruct (m (kernel r)) as [[b k]|] eqn:E; [|done]. intros [= _ <-]. by apply (Hm _ _ _ E). Qed.

Ltac arrives := along_cases; try (apply arrived_kernel; lossless; fail); try (refine (along_modify _ _ _); intros ?; done).

Lemma arrived_perform o : along keeps_arrived (perform o).
Proof. unfold perform. arrives. apply arrived_kernel, lossless_perform. Qed.

Lemma arrived_queue fuel j ops : along keeps_arrived (perform_queue fuel j ops).
Proof. revert ops. induction fuel as [|fuel IH]; intros ops; cbn [perform_queue]; unfold on_state; arrives; try apply IH; apply arrived_perform. Qed.

Lemma arrived_start t o b : along keeps_arrived (Reactor.start_op t o b).
Proof.
  unfold Reactor.start_op, fail_op, push_op, wait_in_queue, watch_output, post_immediate_completion, work_started, on_state. arrives; apply arrived_perform.
Qed.

Definition not_world (c : call K) : Prop := match c with World _ => False | _ => True end.

Lemma arrived_loop c : background c → not_world c → along keeps_arrived (do_call c).
Proof.
  destruct c; cbn [background do_call not_world]; try done; intros _ _; unfold run, take_descriptor, complete_descriptor, perform_io, perform_type, run_posted, post_deferred_completions, on_state;
    arrives; try apply arrived_queue. refine (along_modify _ _ _). intros r. by destruct (queued_events r).
Qed.

(** *** The service and the connection *)

Definition sock_arrived (i i' : base_implementation_type K) : Prop := lossless (kernel_of i) (kernel_of i').
#[local] Instance sock_arrived_preorder : PreOrder sock_arrived.
Proof. split; [done|]. intros x y z A B. unfold sock_arrived, lossless in *. congruence. Qed.

Lemma arrived_on_reactor {A} (m : M (reactor K) A) : along keeps_arrived m → along sock_arrived (on_reactor m).
Proof. intros Hm i a i'. unfold on_reactor. destruct (m (impl_reactor i)) as [[b r]|] eqn:E; [|done]. intros [= _ <-]. by apply (Hm _ _ _ E). Qed.

Lemma arrived_os {A} (f : K → A * K) : (∀ k, arrived (f k).2 = arrived k) → along sock_arrived (os f).
Proof. intros Hf. by apply arrived_on_reactor, arrived_kernel, lossless_call. Qed.

Ltac sock_arrives := along_cases; try (apply arrived_os; intros ?;
  first [apply arrived_non_blocking | apply arrived_option | apply arrived_close | apply arrived_shutdown]); try (refine (along_modify _ _ _); intros ?; done).

Lemma arrived_deregister b : along keeps_arrived (deregister_descriptor b).
Proof.
  unfold deregister_descriptor, on_state, post_deferred_completions. arrives. refine (along_modify _ _ _). intros r. apply arrived_del.
Qed.

Lemma arrived_stop : along sock_arrived close_socket.
Proof.
  unfold close_socket, shutdown, SocketService.close, so_close, setsockopt, construct, cleanup_descriptor_data. sock_arrives; apply arrived_on_reactor, arrived_deregister.
Qed.

Lemma arrived_receive n size : along sock_arrived (async_receive n size).
Proof.
  unfold async_receive, start_op, ensure_non_blocking, set_internal_non_blocking, post_at_once, post_immediate_completion, work_started.
  sock_arrives; apply arrived_on_reactor; (apply arrived_start || arrives).
Qed.

Definition arrived_s (s : inbound K) : list byte := arrived (kernel_of (in_sock s)).
Definition conn_arrived (s s' : inbound K) : Prop := arrived_s s' = arrived_s s.
#[local] Instance conn_arrived_preorder : PreOrder conn_arrived.
Proof. split; [done|]. intros x y z A B. unfold conn_arrived in *. congruence. Qed.

Lemma arrived_on_sock {A} (m : M (base_implementation_type K) A) : along sock_arrived m → along conn_arrived (on_sock m).
Proof. intros Hm s a s'. unfold on_sock. destruct (m (in_sock s)) as [[b i]|] eqn:E; [|done]. intros [= _ <-]. by apply (Hm _ _ _ E). Qed.

Lemma arrived_on_conn {A} (m : M Connection A) : along conn_arrived (on_conn (K := K) m).
Proof. intros s a s'. unfold on_conn. destruct (m (in_conn s)) as [[b c]|]; [|done]. by intros [= _ <-]. Qed.

Lemma arrived_post_reads l : along conn_arrived (post_reads (K := K) l).
Proof.
  induction l as [|rd l IH]; cbn [post_reads]; along_cases; [by refine (along_modify _ _ _)| |apply IH]. apply arrived_on_sock, arrived_receive.
Qed.

Lemma arrived_send_op n data : along sock_arrived (async_send n data).
Proof.
  unfold async_send, start_op, ensure_non_blocking, set_internal_non_blocking, post_at_once, post_immediate_completion, work_started.
  sock_arrives; apply arrived_on_reactor; (apply arrived_start || arrives).
Qed.

Lemma arrived_post_writes l : along conn_arrived (post_writes (K := K) l).
Proof.
  induction l as [|w l IH]; cbn [post_writes]; along_cases; [by refine (along_modify _ _ _)| |by refine (along_modify _ _ _)|apply IH].
  apply arrived_on_sock, arrived_send_op.
Qed.

Lemma arrived_handler now : along conn_arrived (handle_completion (K := K) now).
Proof.
  unfold handle_completion, with_socket. along_cases; [by refine (along_modify _ _ _)|apply arrived_on_conn|apply arrived_on_sock, arrived_stop|apply arrived_post_reads|apply arrived_post_writes].
Qed.

(** ** Turns as calls *)

Lemma run_all_calls n r : run_all n r = do_calls (replicate n (RunPosted 0)) r.
Proof.
  revert r. induction n as [|n IH]; intros r; [done|]. cbn [run_all replicate do_calls do_call]. unfold mbind, M_bind.
  destruct (run_posted 0 r) as [[[] r1]|]; [apply IH|done].
Qed.

Lemma complete_all_calls n r : complete_all n r = do_calls (replicate n (Complete 0)) r.
Proof.
  revert r. induction n as [|n IH]; intros r; [done|]. cbn [complete_all replicate do_calls do_call]. unfold mbind, M_bind.
  destruct (complete_descriptor 0 r) as [[[] r1]|]; [apply IH|done].
Qed.

Lemma turn_calls r r' : turn r = Ok (tt, r') → ∃ n, do_calls (Run :: Take :: replicate n (Complete 0)) r = Ok (tt, r').
Proof.
  intros ([] & r1 & E1 & E)%bind_inv. apply bind_inv in E as ([] & r2 & E2 & E). erewrite bind_ok in E by reflexivity. cbn beta in E.
  rewrite complete_all_calls in E. eexists. cbn [do_calls do_call]. erewrite bind_ok by exact E1. erewrite bind_ok by exact E2. exact E.
Qed.

(** After a turn of the scheduler nothing is posted. *)
Lemma run_all_empty n r r' : run_all n r = Ok (tt, r') → n = length (posted r) → posted r' = [].
Proof.
  revert r. induction n as [|n IH]; intros r E Hn; cbn [run_all] in E.
  - injection E as <-. by destruct (posted r).
  - apply bind_inv in E as ([] & r1 & E1 & E). apply (IH r1 E). unfold run_posted in E1. erewrite bind_ok in E1 by reflexivity.
    destruct (posted r) as [|o l]; [done|]. cbn in E1. injection E1 as <-. cbn in *. lia.
Qed.

Context {laws : KernelLaws K} {call_laws : SocketCallLaws K} {recv_laws : RecvLaws K} {can_block : CanBlock (K := K)}.

Lemma moves_trans p1 p2 p3 : moves p1 p2 → moves p2 p3 → moves p1 p3.
Proof. destruct 1; inversion 1; subst; constructor. Qed.

Lemma calls_on_socket cs i :
  on_reactor (do_calls cs) i = match cs with [] => Ok (tt, i) | c :: cs => (on_reactor (do_call c);; on_reactor (do_calls cs)) i end.
Proof.
  destruct cs as [|c cs]; [by destruct i|]. unfold on_reactor at 1. cbn [do_calls]. unfold mbind, M_bind, on_reactor.
  destruct (do_call c (impl_reactor i)) as [[[] r1]|]; [|done]. cbn. by destruct (do_calls cs r1) as [[]|].
Qed.

Lemma calls_inbound k0 t h cs p s :
  inbound_ok k0 t p h s → Forall (λ c, background c ∧ not_world c) cs →
  ∃ s' p', on_sock (on_reactor (do_calls cs)) s = Ok (tt, s') ∧ moves p p' ∧ inbound_ok k0 t p' h s' ∧ in_conn s' = in_conn s ∧ conn_arrived s s'.
Proof.
  intros I Hcs. revert p s I. induction Hcs as [|c cs [Hb Hw] Hcs IH]; intros p s I.
  - exists s, p. split_and!; [|constructor|done|done|done]. unfold on_sock. rewrite calls_on_socket. by destruct s.
  - assert (Hok : call_ok c (impl_reactor (in_sock s))) by by destruct c.
    destruct (inbound_loop k0 t p h s c I Hb Hok) as (s1 & p1 & E1 & M1 & I1 & C1).
    destruct (IH p1 s1 I1) as (s2 & p2 & E2 & M2 & I2 & C2 & A2). exists s2, p2.
    split_and!; [|by eapply moves_trans|done|congruence|].
    + unfold on_sock in *. rewrite calls_on_socket. unfold mbind, M_bind. destruct (on_reactor (do_call c) (in_sock s)) as [[[] i1]|]; [|done]. injection E1 as <-.
      cbn in E2. destruct (on_reactor (do_calls cs) i1) as [[]|]; [|done]. by injection E2 as -> <-.
    + etrans; [|exact A2]. by apply (arrived_on_sock _ (arrived_on_reactor _ (arrived_loop c Hb Hw)) s tt s1 E1).
Qed.

(** ** A turn gets on *)

Lemma socket_call (m : M (reactor K) unit) cs s s' :
  do_calls cs (impl_reactor (in_sock s)) = m (impl_reactor (in_sock s)) → on_sock (on_reactor (do_calls cs)) s = Ok (tt, s') →
  on_sock (on_reactor m) s = Ok (tt, s').
Proof. intros E. unfold on_sock, on_reactor. by rewrite E. Qed.

Lemma reactor_after (m : M (reactor K) unit) s s' :
  on_sock (on_reactor m) s = Ok (tt, s') → m (impl_reactor (in_sock s)) = Ok (tt, impl_reactor (in_sock s')).
Proof.
  unfold on_sock, on_reactor. destruct (m (impl_reactor (in_sock s))) as [[[] r]|]; [|done]. by intros [= <-].
Qed.

(** What is posted runs. *)
Lemma posted_run k0 t p h s :
  inbound_ok k0 t p h s →
  ∃ s' p', on_sock (on_reactor (run_all (length (posted (impl_reactor (in_sock s)))))) s = Ok (tt, s') ∧ moves p p' ∧
    inbound_ok k0 t p' h s' ∧ conn_arrived s s' ∧ ∀ n o, p' ≠ Posted n o.
Proof.
  intros I. set (n := length _).
  destruct (calls_inbound k0 t h (replicate n (RunPosted 0)) p s I) as (s' & p' & E & M & I' & _ & A); [by apply Forall_replicate|].
  apply (socket_call (run_all n)) in E; [|by rewrite run_all_calls]. exists s', p'. split_and!; try done.
  intros m o ->. apply reactor_after in E. apply run_all_empty in E; [|done]. pose proof (rd_posted _ _ _ (io_reads _ _ _ _ _ I')) as Hp.
  by rewrite E in Hp.
Qed.

(** Epoll is asked, and what can be performed is. *)
Lemma turn_run k0 t p h s :
  inbound_ok k0 t p h s →
  ∃ s' p', on_sock (on_reactor turn) s = Ok (tt, s') ∧ moves p p' ∧ inbound_ok k0 t p' h s' ∧ conn_arrived s s' ∧
    drained SocketOps.read_op (impl_reactor (in_sock s')).
Proof.
  intros I. destruct (turn_ok k0 _ (s_sound _ _ (io_service _ _ _ _ _ I))) as (r' & Et & _ & D).
  destruct (turn_calls _ r' Et) as (n & Ec). set (cs := Run :: Take :: replicate n (Complete 0)) in *.
  destruct (calls_inbound k0 t h cs p s I) as (s' & p' & E & M & I' & _ & A); [by repeat constructor; apply Forall_replicate|].
  apply (socket_call turn) in E; [|congruence]. exists s', p'. split_and!; try done.
  apply reactor_after in E. rewrite Et in E. injection E as <-. apply D.
Qed.

Definition weight (p : phase) : Z := match p with Idle => 0 | Waits _ => 3 | Posted _ _ => 2 | Called _ _ => 1 end.

(** The read waits, and there is nothing for it. *)
Definition settled (p : phase) (s : inbound K) : Prop := (∃ n, p = Waits n) ∧ news SocketOps.read_op (kernel_of (in_sock s)) = false.

Lemma turn_progress k0 t p h s now :
  inbound_ok k0 t p h s → p ≠ Idle →
  ∃ s' t' p' h', loop_turn now s = Ok (tt, s') ∧ inbound_ok k0 t' p' h' s' ∧ conn_arrived s s' ∧
    (p' = Idle ∨ settled p' s' ∨ 4 * zlen t - weight p < 4 * zlen t' - weight p').
Proof.
  intros I Hp. destruct (posted_run k0 t p h s I) as (s1 & p1 & E1 & M1 & I1 & A1 & N1).
  destruct (turn_run k0 t p1 h s1 I1) as (s2 & p2 & E2 & M2 & I2 & A2 & D2).
  assert (E : ∀ x, handle_completion now s2 = x → loop_turn now s = x).
  { intros x Ex. unfold loop_turn. erewrite bind_ok by reflexivity. cbn beta. erewrite bind_ok by exact E1. erewrite bind_ok by exact E2. exact Ex. }
  assert (A12 : conn_arrived s s2) by by etrans.
  destruct p2 as [|n|n o|n o].
  - by inversion M2; subst; inversion M1; subst.
  - exists s2, t, (Waits n), h. split_and!; [apply E; by eapply nothing_called|done|done|right; left]. split; [by eexists|].
    destruct D2 as [Hq|Hn]; [|done]. destruct (rd_queue _ _ _ (io_reads _ _ _ _ _ I2)) as (o & Hq' & _). congruence.
  - exists s2, t, (Posted n o), h. split_and!; [apply E; by eapply nothing_called|done|done|right; right].
    assert (Hw : p1 = Waits n) by (inversion M2; subst; [by destruct (N1 n o)|done]). subst p1. inversion M1; subst. cbn. lia.
  - destruct (inbound_handler k0 t h s2 now n o I2) as (s3 & p3 & E3 & I3 & Hc). exists s3, (t ++ op_data o), p3, (h ++ [o]).
    split_and!; [by apply E|done|etrans; [exact A12|by eapply arrived_handler]|].
    assert (Hw : 1 ≤ weight p) by (destruct p; cbn; (lia || done)).
    destruct p3 as [|n3|n3 o3|]; [by left| | |done]; right; right; rewrite zlen_app; cbn [weight];
      (assert (zlen (op_data o) ≠ 0) by (intros Hz%zlen_0_inv; done)); pose proof (zlen_nonneg (op_data o)); lia.
Qed.

(** ** Everything is handled *)

Lemma all_bytes_bounded k0 t p h s : inbound_ok k0 t p h s → zlen (received k0) + zlen t ≤ zlen (arrived_s s).
Proof.
  intros I. pose proof (received_so_far k0 t p h s I) as Hr. destruct (arrived_received (kernel_of (in_sock s))) as [rest Ha].
  unfold arrived_s. rewrite Ha. change (kernel (impl_reactor (in_sock s))) with (kernel_of (in_sock s)) in Hr. rewrite Hr, !zlen_app.
  pose proof (zlen_nonneg rest). pose proof (zlen_nonneg (in_transit p)). lia.
Qed.

Lemma turns_settle k0 now fuel t p h s :
  inbound_ok k0 t p h s → p ≠ Idle → 4 * (zlen (arrived_s s) - zlen (received k0) - zlen t) + weight p < Z.of_nat fuel →
  ∃ n s' t' p' h', (n ≤ fuel)%nat ∧ loop_turns n now s = Ok (tt, s') ∧ inbound_ok k0 t' p' h' s' ∧ conn_arrived s s' ∧ (p' = Idle ∨ settled p' s').
Proof.
  revert t p h s. induction fuel as [|fuel IH]; intros t p h s I Hp Hf.
  { pose proof (all_bytes_bounded k0 t p h s I). assert (0 ≤ weight p) by by destruct p. lia. }
  destruct (turn_progress k0 t p h s now I Hp) as (s1 & t1 & p1 & h1 & E1 & I1 & A1 & Hcase).
  assert (Hd : (p1 = Idle ∨ settled p1 s1) ∨ (p1 ≠ Idle ∧ 4 * zlen t - weight p < 4 * zlen t1 - weight p1)).
  { destruct Hcase as [?|[?|?]]; [by left; left|by left; right|]. destruct p1; [by left; left|by right..]. }
  destruct Hd as [Hd|[Hp1 Hlt]].
  - exists 1%nat, s1, t1, p1, h1. split_and!; [lia|cbn; by erewrite bind_ok by exact E1|done|done|done].
  - destruct (IH t1 p1 h1 s1 I1 Hp1) as (n & s' & t' & p' & h' & Hn & E' & I' & A' & Hfin); [unfold conn_arrived in A1; rewrite A1; lia|].
    exists (S n), s', t', p', h'. split_and!; [lia|cbn; erewrite bind_ok by exact E1; exact E'|done|by etrans|done].
Qed.

Lemma turns_handled k native ends n th ji t1 t2 s0 s now :
  native ≠ invalid_socket → registers k →
  accepted native ends (inbound_make (Connection_make n th ji t1 t2) k) = Ok (None, s0) → rtc inbound_step s0 s → socket_open s = true →
  ∃ turns s' t p h, Z.of_nat turns ≤ 4 * (zlen (arrived_s s) - zlen (received k)) + 4 ∧ loop_turns turns now s = Ok (tt, s') ∧
    inbound_ok k t p h s' ∧ conn_arrived s s' ∧ (p = Idle ∨ settled p s').
Proof.
  intros Hn Hreg E Hs Ho. destruct (accepted_ok k native ends n th ji t1 t2 s0 Hn Hreg E) as (p0 & I0 & _).
  destruct (inbound_rtc k [] p0 [] s0 s I0 Hs) as (t & p & h & I). apply (under_way_open k t p h s I) in Ho.
  set (m := zlen (arrived_s s) - zlen (received k)). pose proof (zlen_nonneg t).
  assert (Hm : 0 ≤ m) by (pose proof (all_bytes_bounded k t p h s I); lia).
  destruct (turns_settle k now (Z.to_nat (4 * m + 4)) t p h s I Ho) as (turns & s' & t' & p' & h' & Ht & E' & I' & A' & Hfin).
  { assert (weight p ≤ 3) by by destruct p. fold m. lia. }
  exists turns, s', t', p', h'. split_and!; try done. lia.
Qed.

(** What has been handled, of what has arrived. *)
Lemma handled_of_arrived k t p h s :
  inbound_ok k t p h s → (p = Idle ∨ settled p s) →
  if socket_open s then arrived_s s = received k ++ t ∧ length (queue (impl_reactor (in_sock s)) SocketOps.read_op) = 1%nat
  else received k ++ t `prefix_of` arrived_s s.
Proof.
  intros I Hfin. destruct (under_way_open k t p h s I) as [_ Hop]. pose proof (received_so_far k t p h s I) as Hr.
  change (kernel (impl_reactor (in_sock s))) with (kernel_of (in_sock s)) in Hr. unfold arrived_s. destruct (socket_open s).
  - destruct Hfin as [Hi|[[m ->] Hnews]]; [by destruct (Hop eq_refl)|]. apply arrived_news in Hnews. rewrite Hnews, Hr. cbn. rewrite app_nil_r.
    split; [done|]. by destruct (rd_queue _ _ _ (io_reads _ _ _ _ _ I)) as (o & -> & _).
  - etrans; [|apply arrived_received]. rewrite Hr, (assoc_L (++)). by apply prefix_app_r.
Qed.

(** C3: From any state that Inbound's connection reaches, a number of turns of the event loop that is bounded by the
    bytes that have arrived and not been handled leads to one where either the connection has been closed (by a frame that
    is none, the end of the stream, or an error) and the pool has the frames of what it had read; or it is open and the read
    waits, all bytes that have arrived have been passed on, and the worker pool has exactly their frames.
    No byte is lost on the way. *)
Theorem arrived_frames_handled k native ends n th ji t1 t2 s0 s now :
  native ≠ invalid_socket → registers k →
  accepted native ends (inbound_make (Connection_make n th ji t1 t2) k) = Ok (None, s0) → rtc inbound_step s0 s → socket_open s = true →
  ∃ turns s' t, Z.of_nat turns ≤ 4 * (zlen (arrived (kernel_of (in_sock s))) - zlen (received k)) + 4 ∧ loop_turns turns now s = Ok (tt, s') ∧
    arrived (kernel_of (in_sock s')) = arrived (kernel_of (in_sock s)) ∧
    Forall2 frame_buffer (tasks (in_conn s')) (split_frames t).1 ∧
    if socket_open s' then arrived (kernel_of (in_sock s')) = received k ++ t ∧ length (queue (impl_reactor (in_sock s')) SocketOps.read_op) = 1%nat
    else received k ++ t `prefix_of` arrived (kernel_of (in_sock s')).
Proof.
  intros Hn Hreg E Hs Ho. destruct (turns_handled k native ends n th ji t1 t2 s0 s now Hn Hreg E Hs Ho) as (turns & s' & t & p & h & Ht & E' & I & A & Hfin).
  exists turns, s', t. split_and!; [exact Ht|done|exact A| |by apply (handled_of_arrived k t p h)].
  destruct I as [_ _ _ _ (fs & rest & Hfs & Hts & -> & Hc & _)]. by rewrite split_frames_concat.
Qed.
End Live.

(** ** On the stream socket *)

#[global] Instance sock_lossless : Lossless sock.
Proof.
  refine {| arrived := λ s : sock, got s ++ rx s |}.
  - intros k. by exists (rx k).
  - intros k Hn. cbn in *. unfold readable in Hn. destruct (zlen (rx k) =? 0) eqn:E; [|done]. apply Z.eqb_eq, zlen_0_inv in E. by rewrite E, app_nil_r.
  - intros size k. cbn. unfold sock_recv. destruct (negb (signals k =? 0)%nat); [done|]. destruct (zlen (rx k) =? 0) eqn:E; cbn [negb].
    + apply Z.eqb_eq, zlen_0_inv in E. destruct (fin k); cbn; by rewrite ?E.
    + cbn. by rewrite <- app_assoc, ztake_zdrop.
  - intros data k. cbn. unfold sock_send. by repeat case_match.
  - done.
  - done.
  - done.
  - done.
  - done.
  - intros k. cbn. by destruct (edge k).
  - done.
  - done.
  - done.
  - done.
Defined.

Lemma arrived_frames_handled_witness :
  let s := call_in (World (arrive (sample_frame ++ ztake 5 sample_frame) (kernel_in sample_accepted))) sample_accepted in
  ∃ turns s' t, Z.of_nat turns ≤ 84 ∧ loop_turns turns 5 s = Ok (tt, s') ∧
    Forall2 frame_buffer (tasks (in_conn s')) (split_frames t).1 ∧
    if socket_open s' then sample_frame ++ ztake 5 sample_frame = t else t `prefix_of` sample_frame ++ ztake 5 sample_frame.
Proof.
  intros s. destruct (arrived_frames_handled sock0 3 sample_ends 1 None (mkConnInfo [] 0 [] 0 0) 0 0 sample_accepted s 5) as (turns & s' & t & Hn & E & A & Ht & Hc).
  - done.
  - intros m. by left.
  - by vm_compute.
  - eapply rtc_l; [|apply rtc_refl]. apply (in_loop _ s (World (arrive (sample_frame ++ ztake 5 sample_frame) (kernel_in sample_accepted)))); [exact I|apply data_arrives|by vm_compute].
  - by vm_compute.
  - assert (Ha : arrived (kernel_of (in_sock s)) = sample_frame ++ ztake 5 sample_frame) by by vm_compute.
    rewrite A in Hc. rewrite Ha in Hn, Hc. exists turns, s', t. split_and!; [exact Hn|exact E|exact Ht|].
    destruct (socket_open s'); [by destruct Hc|exact Hc].
Defined.

(** After three turns the first frame is with the pool, the rest has been read, and the fourth read waits. *)
Example three_turns :
  match loop_turns 3 5 sample_arrival with
  | Ok (_, s) => length (tasks (in_conn s)) = 1%nat ∧ rx (kernel_in s) = [] ∧ map op_id (queue (impl_reactor (in_sock s)) SocketOps.read_op) = [3%nat]
  | Fault _ => False
  end.
Proof. by vm_compute. Qed.
