(* ===== verification/Delivery.v ===== *)
(** * From the socket to the requests

    The connection of InboundLive with the decoding of Application: the requests that a peer has written
    arrive, turns of the event loop hand their frames to the workers, and what the workers
    decode are these requests. *)

From Stdlib Require Import ZArith Lia Strings.Byte.
From stdpp Require Import base list numbers relations.
From S2P Require Import Prelude.
From S2P Require Import SocketOps.
From S2P Require Import StreamSocket.
From S2P Require Import Reactor.
From S2P Require Import ReactorRun.
From S2P Require Import SocketService.
From S2P Require Import ReactorReads.
From S2P Require Import Connection.
From S2P Require Import Proto.
From S2P Require Import Framing.
From S2P Require Import Server.
From S2P Require Import Application.
From S2P Require Import Inbound.
From S2P Require Import InboundLive.

#[local] Open Scope Z_scope.

(** The frames at the beginning of a stream are those of the stream. *)
Lemma frames_prefix fs gs x rest :
  Forall is_frame fs → Forall is_frame gs → classify rest ≠ WHOLE → concat fs ++ x = concat gs ++ rest → fs `prefix_of` gs.
Proof.
  intros Hfs. revert gs. induction Hfs as [|f fs Hf Hfs IH]; intros gs Hgs Hrest E; [apply prefix_nil|].
  cbn in E. rewrite <- (assoc_L (++)) in E. destruct (is_frame_app f (concat fs ++ x) Hf) as [Ew El].
  destruct Hgs as [|g gs Hg Hgs]; cbn in E; [by rewrite E in Ew|]. rewrite <- (assoc_L (++)) in E.
  destruct (is_frame_app g (concat gs ++ rest) Hg) as [_ El']. rewrite E, El' in El. apply app_inj_zlen in E as [-> E]; [|done].
  apply prefix_cons. by apply (IH gs).
Qed.

Section Delivery.
Context {K : Type} `{Lossless K} {laws : KernelLaws K} {call_laws : SocketCallLaws K} {recv_laws : RecvLaws K} {can_block : CanBlock (K := K)}.

(** C1: End to end, from the network to the workers: an accepted connection of the server, whatever has happened on it, and the
    requests that its peer has sent since the beginning, as they have arrived at the socket.  A number of turns of the event
    loop that is bounded by the bytes not handled yet leads to a state where the buffers that the workers have got are one per request, in order,
    and handling each yields the request with all its fields: of all the requests if the connection is still open, and
    of the first of them if the stream or the connection has ended on the way. *)
Theorem requests_delivered k native ends n th ji t1 t2 s0 s now rs rest :
  native ≠ invalid_socket → registers k →
  accepted native ends (inbound_make (Connection_make n th ji t1 t2) k) = Ok (None, s0) → rtc inbound_step s0 s → socket_open s = true →
  Forall request_ok rs → classify rest ≠ WHOLE → arrived (kernel_of (in_sock s)) = SocketOps.received k ++ concat (map request_frame rs) ++ rest →
  ∃ turns s' rs', Z.of_nat turns ≤ 4 * zlen (concat (map request_frame rs) ++ rest) + 4 ∧ loop_turns turns now s = Ok (tt, s') ∧
    Forall2 yields (tasks (in_conn s')) rs' ∧ rs' `prefix_of` rs ∧ (socket_open s' = true → rs' = rs).
Proof.
  intros Hn Hreg E Hs Ho Hok Hrest Ha. destruct (turns_handled k native ends n th ji t1 t2 s0 s now Hn Hreg E Hs Ho) as (turns & s' & t & p & h & Ht & E' & I & A & Hfin).
  pose proof (handled_of_arrived k t p h s' I Hfin) as Hh. unfold conn_arrived, arrived_s in *. rewrite A, Ha in Hh. rewrite Ha, zlen_app in Ht.
  destruct I as [_ _ _ _ (fs & x & Hfs & Hts & -> & Hc & _)]. pose proof (requests_are_frames rs Hok) as Hgs.
  assert (Hp : fs `prefix_of` map request_frame rs ∧ (socket_open s' = true → fs = map request_frame rs)).
  { destruct (socket_open s').
    - destruct Hh as [Hh _]. apply app_inv_head in Hh. assert (Efs : fs = map request_frame rs); [|by rewrite Efs].
      pose proof (split_frames_concat fs x Hfs Hc) as S1. by rewrite <- Hh, (split_frames_concat _ _ Hgs Hrest) in S1; injection S1.
    - destruct Hh as [u Hu]. split; [|done]. rewrite <- !(assoc_L (++)) in Hu. apply app_inv_head in Hu. by apply (frames_prefix fs _ (x ++ u) rest). }
  destruct Hp as [Hp Hall]. set (rs' := take (length fs) rs). assert (Efs : fs = map request_frame rs').
  { unfold rs'. destruct Hp as [u Hu]. rewrite <- List.firstn_map, Hu. by rewrite take_app_length. }
  exists turns, s', rs'. split_and!; [lia|done| |apply prefix_take|].
  - apply frames_yield; [by apply Forall_take|]. by rewrite <- Efs.
  - intros Hop. unfold rs'. rewrite (Hall Hop), List.length_map. by rewrite take_ge.
Qed.
End Delivery.

(** A request arrives with the beginning of the next one. *)
Definition request_arrival : inbound sock :=
  call_in (World (arrive (request_frame act_request ++ ztake 5 sample_frame) (kernel_in sample_accepted))) sample_accepted.

Lemma requests_delivered_witness :
  ∃ turns s' rs', Z.of_nat turns ≤ 80 ∧ loop_turns turns 5 request_arrival = Ok (tt, s') ∧
    Forall2 yields (tasks (in_conn s')) rs' ∧ rs' `prefix_of` [act_request] ∧ (socket_open s' = true → rs' = [act_request]).
Proof.
  destruct (requests_delivered sock0 3 sample_ends 1 None (mkConnInfo [] 0 [] 0 0) 0 0 sample_accepted request_arrival 5 [act_request] (ztake 5 sample_frame))
    as (turns & s' & rs' & Hn & E & Hy & Hp & Ho).
  - done.
  - intros m. by left.
  - by vm_compute.
  - eapply rtc_l; [|apply rtc_refl]. apply (in_loop _ request_arrival (World (arrive (request_frame act_request ++ ztake 5 sample_frame) (kernel_in sample_accepted)))); [exact I|apply data_arrives|by vm_compute].
  - by vm_compute.
  - by repeat constructor.
  - by vm_compute.
  - by vm_compute.
  - exists turns, s', rs'. by split_and!.
Defined.

(** All of it is handled within three turns. *)
Example delivered_in_three :
  match loop_turns 3 5 request_arrival with
  | Ok (_, s) => socket_open s = true ∧ length (tasks (in_conn s)) = 1%nat
  | Fault _ => False
  end.
Proof. by vm_compute. Qed.
