(* ===== verification/Chain.v ===== *)
(** * Neighbours in a linked list

    What the pointers of a linked list say about the list of its elements: [after] and
    [before] an element of a list without duplicates, and how they change when an
    element is put in or taken out.  Used for the lists of signal registrations. *)

From Stdlib Require Import ZArith Lia.
From stdpp Require Import base list.
From S2P Require Import Prelude.

Section Chain.
Context {A : Type} `{EqDecision A}.
Implicit Types (l : list A) (x y z : A).

(** The elements next to [x]. *)
Fixpoint after x l : option A :=
  match l with
  | y :: l => if decide (y = x) then head l else after x l
  | [] => None
  end.

Fixpoint before x l : option A :=
  match l with
  | y :: l => if decide (head l = Some x) then Some y else before x l
  | [] => None
  end.

(** All but [x]. *)
Fixpoint without x l : list A :=
  match l with
  | y :: l => if decide (y = x) then without x l else y :: without x l
  | [] => []
  end.

Lemma elem_of_without x y l : y ∈ without x l ↔ y ≠ x ∧ y ∈ l.
Proof.
  induction l as [|z l IH]; cbn; [rewrite elem_of_nil; tauto|]. case_decide; rewrite ?elem_of_cons, IH; intuition congruence.
Qed.

Lemma NoDup_without x l : NoDup l → NoDup (without x l).
Proof.
  induction 1 as [|z l Hz Hl IH]; cbn; [constructor|]. case_decide; [done|]. constructor; [|done]. rewrite elem_of_without. tauto.
Qed.

Lemma without_notin x l : x ∉ l → without x l = l.
Proof. induction l as [|y l IH]; [done|]. rewrite not_elem_of_cons. intros [Hy Hl]. cbn. rewrite decide_False, IH by congruence. done. Qed.

Lemma without_app x l1 l2 : without x (l1 ++ l2) = without x l1 ++ without x l2.
Proof. induction l1 as [|y l1 IH]; [done|]. cbn. case_decide; [done|]. cbn. by rewrite IH. Qed.

Lemma without_here x l1 l2 : NoDup (l1 ++ x :: l2) → without x (l1 ++ x :: l2) = l1 ++ l2.
Proof.
  intros (_ & H2 & [H3 _]%NoDup_cons)%NoDup_app. rewrite without_app. cbn. rewrite decide_True by done. rewrite !without_notin; try done.
  intros Hx. apply (H2 x Hx). by left.
Qed.

Lemma length_without x l : NoDup l → x ∈ l → length l = S (length (without x l)).
Proof.
  induction 1 as [|z l Hz Hl IH]; [by intros ?%not_elem_of_nil|]. cbn. intros [->|Hx]%elem_of_cons; [by rewrite decide_True, without_notin|].
  rewrite decide_False by (by intros ->). cbn. f_equal. by apply IH.
Qed.

Lemma after_in x l a : after x l = Some a → x ∈ l ∧ a ∈ l.
Proof.
  induction l as [|y l IH]; [done|]. cbn. case_decide as Hh.
  - intros Ha. subst. split; [by left|]. right. destruct l; [done|]. injection Ha as ->. by left.
  - intros [H1 H2]%IH. split; by right.
Qed.

Lemma before_in x l a : before x l = Some a → x ∈ l ∧ a ∈ l.
Proof.
  induction l as [|y l IH]; [done|]. cbn. case_decide as Hh.
  - intros [= ->]. split; [|by left]. right. destruct l; [done|]. injection Hh as ->. by left.
  - intros [H1 H2]%IH. split; by right.
Qed.

Lemma after_notin x l : x ∉ l → after x l = None.
Proof. intros Hx. destruct (after x l) eqn:E; [|done]. by apply after_in in E as [??]. Qed.

Lemma before_notin x l : x ∉ l → before x l = None.
Proof. intros Hx. destruct (before x l) eqn:E; [|done]. by apply before_in in E as [??]. Qed.

Lemma before_head x l : NoDup (x :: l) → before x (x :: l) = None.
Proof.
  intros [Hx Hl]%NoDup_cons. cbn. rewrite decide_False; [by apply before_notin|]. intros Hh. apply Hx.
  destruct l; [done|]. injection Hh as ->. by left.
Qed.

(** The two say the same. *)
Lemma after_before l x y : NoDup l → after x l = Some y ↔ before y l = Some x.
Proof.
  induction 1 as [|z l Hz Hl IH]; [done|]. cbn. destruct (decide (z = x)) as [->|Hzx].
  - destruct (decide (head l = Some y)) as [Hh|Hh]; [by rewrite Hh|]. split; [done|]. intros [_ Hx]%before_in. done.
  - destruct (decide (head l = Some y)) as [Hh|Hh]; [|by apply IH]. split; [|by intros [= ->]].
    intros Ha. exfalso. destruct l as [|w l]; [done|]. injection Hh as ->. apply IH in Ha. by rewrite before_head in Ha.
Qed.

Lemma after_here l1 x l2 : x ∉ l1 → after x (l1 ++ x :: l2) = head l2.
Proof.
  induction l1 as [|y l1 IH]; cbn; [by rewrite decide_True|]. rewrite not_elem_of_cons. intros [Hy Hl].
  rewrite decide_False by congruence. auto.
Qed.

Lemma before_here l1 x l2 : NoDup (l1 ++ x :: l2) → before x (l1 ++ x :: l2) = last l1.
Proof.
  induction l1 as [|y l1 IH]; intros Hnd; [by apply before_head|]. apply NoDup_cons in Hnd as [Hy Hnd].
  cbn [app before]. destruct l1 as [|z l1]; [by cbn; rewrite decide_True|]. rewrite decide_False; [by apply IH|]. cbn. intros [= ->].
  apply NoDup_cons in Hnd as [Hx _]. apply Hx. apply elem_of_app. right. by left.
Qed.

Lemma head_without x l : head (without x l) = if decide (head l = Some x) then head (without x (tail l)) else head l.
Proof. destruct l as [|y l]; [done|]. cbn. repeat case_decide; naive_solver. Qed.

(** Without its first element the list begins with the next. *)
Lemma head_without_after x l : NoDup l → head (without x l) = if decide (head l = Some x) then after x l else head l.
Proof.
  intros Hnd. rewrite head_without. case_decide as Hh; [|done]. destruct l as [|y l]; [done|]. injection Hh as ->.
  apply NoDup_cons in Hnd as [Hx _]. cbn. by rewrite decide_True, without_notin.
Qed.

(** The neighbours of [x] become each other's. *)
Lemma after_without x y l : NoDup l → y ≠ x → after y (without x l) = if decide (after y l = Some x) then after x l else after y l.
Proof.
  intros Hnd Hy. induction Hnd as [|z l Hz Hl IH]; [done|]. cbn. destruct (decide (z = x)) as [->|Hzx].
  - rewrite without_notin by done. rewrite (decide_False (P := x = y)) by done.
    rewrite decide_False; [done|]. intros [_ Ha]%after_in. done.
  - cbn. destruct (decide (z = y)) as [->|Hzy]; [|done]. by rewrite head_without_after.
Qed.

Lemma before_without x y l : NoDup l → y ≠ x → before y (without x l) = if decide (before y l = Some x) then before x l else before y l.
Proof.
  intros Hnd Hy. induction Hnd as [|z l Hz Hl IH]; [done|]. cbn. destruct (decide (z = x)) as [->|Hzx].
  - rewrite without_notin by done. rewrite (decide_False (P := head l = Some x)) by (intros Hh; apply Hz; destruct l; [done|]; injection Hh as ->; by left).
    rewrite (before_notin x l) by done. destruct (decide (head l = Some y)) as [Hh|Hh].
    + destruct l as [|w l]; [done|]. injection Hh as ->. rewrite before_head by done. by rewrite (decide_True (P := Some x = Some x)).
    + rewrite decide_False; [done|]. intros [_ Hb]%before_in. done.
  - cbn. rewrite head_without_after by done. rewrite IH. destruct (decide (head l = Some x)) as [Hhx|Hhx].
    + rewrite (decide_False (P := head l = Some y)) by congruence. destruct l as [|w l]; [done|]. injection Hhx as ->.
      assert (Hb : before y (x :: l) = Some x ↔ head l = Some y).
      { cbn. destruct (decide (head l = Some y)); [tauto|]. split; [|done]. intros [_ Hx]%before_in. by apply NoDup_cons in Hl as [? _]. }
      rewrite before_head by done. cbn [after]. rewrite (decide_True (P := x = x)) by done.
      destruct (decide (head l = Some y)) as [Hh|Hh]; [by rewrite decide_True by tauto|]. by rewrite !decide_False by tauto.
    + destruct (decide (head l = Some y)) as [Hh|Hh]; [|done]. rewrite decide_False; [done|]. naive_solver.
Qed.

End Chain.
