(* ===== verification/DescriptorPool.v ===== *)
(** * The pool of descriptor states (asio/detail/object_pool.hpp)

    Objects in a doubly linked list of those in use and a singly linked one of those that can be
    used again; the memory of none is given back before the pool is destroyed.
    Results: the pointers are those of two disjoint lists ([represents]), and the destructor deletes
    every object once. *)

From Stdlib Require Import ZArith Lia.
From stdpp Require Import base gmap list.
From S2P Require Import Prelude.
From S2P Require Import Chain.

Record node := mkNode { next_ : option nat; prev_ : option nat }.

(** [objects] has what is allocated, by its address. *)
Record object_pool := mkPool {
  objects : gmap nat node;
  unused : nat;
  live_list_ : option nat;
  free_list_ : option nat
}.

Definition object_pool_make : object_pool := mkPool ∅ 0 None None.

Definition set_objects (h : gmap nat node) (s : object_pool) : object_pool := mkPool h (unused s) (live_list_ s) (free_list_ s).
Definition set_unused (n : nat) (s : object_pool) : object_pool := mkPool (objects s) n (live_list_ s) (free_list_ s).
Definition set_live (p : option nat) (s : object_pool) : object_pool := mkPool (objects s) (unused s) p (free_list_ s).
Definition set_free (p : option nat) (s : object_pool) : object_pool := mkPool (objects s) (unused s) (live_list_ s) p.

Definition with_next (p : option nat) (n : node) : node := mkNode p (prev_ n).
Definition with_prev (p : option nat) (n : node) : node := mkNode (next_ n) p.

Abbreviation MP := (M object_pool).

Definition get_object (o : nat) : MP node := λ s,
  match objects s !! o with Some n => Ok (n, s) | None => Fault UseAfterFree end.
Definition on_object (o : nat) (f : node → node) : MP unit := λ s,
  match objects s !! o with Some n => Ok (tt, set_objects (<[o := f n]> (objects s)) s) | None => Fault UseAfterFree end.
Definition on_object' (o : option nat) (f : node → node) : MP unit :=
  match o with Some o => on_object o f | None => mret tt end.

Definition first : MP (option nat) := gets live_list_.

(** The pointers of a new object are set before they are read. *)
Definition create : MP nat :=
  o ← gets unused;
  modify (set_unused (S o));;
  modify (λ s, set_objects (<[o := mkNode None None]> (objects s)) s);;
  mret o.

Definition alloc : MP nat :=
  f ← gets free_list_;
  o ← match f with
      | Some o => n ← get_object o; modify (set_free (next_ n));; mret o
      | None => create
      end;
  live ← gets live_list_;
  on_object o (with_next live);;
  on_object o (with_prev None);;
  on_object' live (with_prev (Some o));;
  modify (set_live (Some o));;
  mret o.

Definition free (o : nat) : MP unit :=
  live ← gets live_list_;
  n ← get_object o;
  when (bool_decide (live = Some o)) (modify (set_live (next_ n)));;
  n ← get_object o;
  on_object' (prev_ n) (with_next (next_ n));;
  n ← get_object o;
  on_object' (next_ n) (with_prev (prev_ n));;
  f ← gets free_list_;
  on_object o (with_next f);;
  on_object o (with_prev None);;
  modify (set_free (Some o)).

Definition destroy (o : nat) : MP unit := λ s,
  match objects s !! o with Some _ => Ok (tt, set_objects (delete o (objects s)) s) | None => Fault UseAfterFree end.

(** A list has no more elements than there are objects. *)
Fixpoint destroy_list (fuel : nat) (list : option nat) : MP unit :=
  match list with
  | None => mret tt
  | Some o =>
      match fuel with
      | O => raise OutOfFuel
      | S fuel => n ← get_object o; destroy o;; destroy_list fuel (next_ n)
      end
  end.

(** The destructor. *)
Definition destroy_pool : MP unit :=
  fuel ← gets (λ s, size (objects s));
  live ← gets live_list_;
  destroy_list fuel live;;
  f ← gets free_list_;
  destroy_list fuel f.

(** ** What the pointers say *)

Definition linked (live fr : list nat) (o : nat) (n : node) : Prop :=
  (o ∈ live → next_ n = after o live ∧ prev_ n = before o live) ∧ (o ∈ fr → next_ n = after o fr).

Record represents (live fr : list nat) (s : object_pool) : Prop := {
  p_nodup : NoDup (live ++ fr);
  p_dom : ∀ o, o ∈ live ++ fr ↔ is_Some (objects s !! o);
  p_new : ∀ o, is_Some (objects s !! o) → (o < unused s)%nat;
  p_live : live_list_ s = head live;
  p_free : free_list_ s = head fr;
  p_links : ∀ o n, objects s !! o = Some n → linked live fr o n
}.

Lemma pool_represents_make : represents [] [] object_pool_make.
Proof.
  split; cbn; try done; try apply NoDup_nil_2; intros o; rewrite lookup_empty; [|by intros []].
  rewrite elem_of_nil. split; [done|by intros []].
Qed.

Lemma represents_get live fr s o : represents live fr s → o ∈ live ++ fr → ∃ n, objects s !! o = Some n ∧ linked live fr o n.
Proof. intros R Ho. apply (p_dom _ _ _ R) in Ho as [n Hn]. exists n. split; [done|]. by apply (p_links _ _ _ R). Qed.

Lemma get_ok o n s : objects s !! o = Some n → get_object o s = Ok (n, s).
Proof. intros E. unfold get_object. by rewrite E. Qed.

Lemma on_ok o n f s : objects s !! o = Some n → on_object o f s = Ok (tt, set_objects (<[o := f n]> (objects s)) s).
Proof. intros E. unfold on_object. by rewrite E. Qed.

(** An object that is in no list goes to the front of the live ones. *)
Definition lone (live fr : list nat) (o : nat) (s : object_pool) : Prop :=
  NoDup (o :: live ++ fr) ∧ (∀ x, x ∈ o :: live ++ fr ↔ is_Some (objects s !! x)) ∧ (∀ x, is_Some (objects s !! x) → (x < unused s)%nat) ∧
  live_list_ s = head live ∧ free_list_ s = head fr ∧ ∀ x n, objects s !! x = Some n → x ≠ o → linked live fr x n.

Lemma link_front live fr o s :
  lone live fr o s →
  ∃ s', (live ← gets live_list_; on_object o (with_next live);; on_object o (with_prev None);; on_object' live (with_prev (Some o));; modify (set_live (Some o));; mret o) s = Ok (o, s') ∧
    represents (o :: live) fr s'.
Proof.
  intros (Hnd & Hdom & Hnew & Hl & Hf & Hlinks). destruct (proj1 (Hdom o) ltac:(by left)) as [n En].
  erewrite bind_ok by reflexivity. rewrite Hl. erewrite bind_ok by (by apply on_ok).
  erewrite bind_ok by (apply on_ok; cbn; by rewrite lookup_insert_eq).
  set (s2 := set_objects _ _). assert (E2 : objects s2 = <[o := mkNode (head live) None]> (objects s)) by (cbn; by rewrite insert_insert_eq).
  pose proof Hnd as [Hol Hnd']%NoDup_cons. apply not_elem_of_app in Hol as [Hol Hof].
  assert (E3 : ∃ s3, on_object' (head live) (with_prev (Some o)) s2 = Ok (tt, s3) ∧ unused s3 = unused s ∧ free_list_ s3 = free_list_ s ∧
    (∀ x, is_Some (objects s3 !! x) ↔ is_Some (objects s !! x)) ∧
    ∀ x m, objects s3 !! x = Some m → linked (o :: live) fr x m).
  { destruct live as [|l live]; cbn [head on_object'] in *.
    - exists s2. split_and!; [done..| |]; rewrite E2.
      + intros x. rewrite lookup_insert_is_Some. destruct (decide (o = x)) as [->|]; [rewrite En; naive_solver|naive_solver].
      + intros x m [[<- <-]|[Hx Em]]%lookup_insert_Some; [split; [by cbn; rewrite decide_True|done]|].
        destruct (Hlinks x m Em ltac:(done)) as [_ L2]. split; [by intros ->%list_elem_of_singleton|done].
    - apply NoDup_app in Hnd' as (Hndl & Hdis & _). assert (Hlo : l ≠ o) by (intros ->; by destruct Hol; left).
      destruct (proj1 (Hdom l) ltac:(right; by left)) as [nl Enl].
      eexists. split; [apply on_ok; rewrite E2, lookup_insert_ne by done; exact Enl|]. split_and!; [done..| |]; cbn [objects set_objects]; rewrite E2.
      + intros x. rewrite !lookup_insert_is_Some. destruct (decide (o = x)) as [->|], (decide (l = x)) as [->|]; rewrite ?En, ?Enl; naive_solver.
      + intros x m [[<- <-]|[Hx [[<- <-]|[Hx' Em]]%lookup_insert_Some]]%lookup_insert_Some.
        * destruct (Hlinks l nl Enl Hlo) as [L1 L2]. split.
          -- intros _. cbn [next_ prev_ with_prev]. cbn [after before head]. rewrite (decide_False (P := o = l)) by done. rewrite (decide_True (P := Some l = Some l)) by done.
             split; [by apply L1; left|done].
          -- intros Hx. destruct (Hdis l ltac:(by left) Hx).
        * split; [|done]. intros _. cbn. rewrite decide_True by done. split; [done|]. rewrite (decide_False (P := Some l = Some o)) by congruence.
          destruct (decide (head live = Some o)) as [Hh|_]; [|symmetry; by apply before_notin; intros ?; apply Hol; right].
          exfalso. apply Hol. right. destruct live; [done|]. injection Hh as ->. by left.
        * destruct (Hlinks x m Em ltac:(done)) as [L1 L2]. split; [|done]. intros [->|Hin]%elem_of_cons; [done|]. destruct (L1 Hin) as [-> ->].
          cbn [after before head]. by rewrite (decide_False (P := o = x)), (decide_False (P := Some l = Some x)) by congruence. }
  destruct E3 as (s3 & E3 & Eu & Ef & Hd3 & Hl3). erewrite bind_ok by exact E3. eexists. split; [reflexivity|]. split.
  - exact Hnd.
  - intros x. cbn. rewrite Hd3. apply Hdom.
  - intros x. cbn. rewrite Hd3, Eu. apply Hnew.
  - done.
  - cbn. by rewrite Ef.
  - exact Hl3.
Qed.

(** [alloc] takes what is free, or else memory that has not been used. *)
Lemma alloc_ok live fr s :
  represents live fr s →
  ∃ o s', alloc s = Ok (o, s') ∧ o ∉ live ∧ represents (o :: live) (tail fr) s' ∧ (head fr = Some o ∨ fr = [] ∧ objects s !! o = None).
Proof.
  intros [Hnd Hdom Hnew Hl Hf Hlinks]. unfold alloc. erewrite bind_ok by reflexivity. rewrite Hf. destruct fr as [|o fr]; cbn [head tail].
  - set (o := unused s). assert (Eo : objects s !! o = None).
    { destruct (objects s !! o) eqn:E; [|done]. assert (Hlt : (o < unused s)%nat) by (apply Hnew; by eexists). unfold o in Hlt. lia. }
    erewrite bind_ok by (unfold create; erewrite bind_ok by reflexivity; reflexivity). set (s1 := set_objects _ _).
    destruct (link_front live [] o s1) as (s' & E & R).
    { split_and!; [constructor; [|done]; intros Hin; apply Hdom in Hin as [? Hs]; congruence| | |done|done|]; cbn.
      - intros x. rewrite elem_of_cons, Hdom, lookup_insert_is_Some'. fold o. naive_solver.
      - intros x. rewrite lookup_insert_is_Some'. intros [<-|Hx]; [lia|]. apply Hnew in Hx. lia.
      - intros x n [[<- _]|[_ En]]%lookup_insert_Some Hx; [done|]. by apply Hlinks. }
    exists o, s'. split_and!; [exact E| |exact R|by right]. intros Hin. assert (is_Some (objects s !! o)) as [? ?] by (apply Hdom, elem_of_app; by left). congruence.
  - pose proof (proj1 (Hdom o) ltac:(apply elem_of_app; right; by left)) as [n En].
    erewrite bind_ok by (erewrite bind_ok by (by apply get_ok); reflexivity).
    assert (Hno : NoDup (o :: live ++ fr)) by (by rewrite Permutation_middle). set (s1 := set_free _ s).
    destruct (link_front live fr o s1) as (s' & E & R).
    { split_and!; [done| |done|done| |].
      - intros x. rewrite Permutation_middle. apply Hdom.
      - cbn. rewrite (proj2 (Hlinks o n En) ltac:(by left)). cbn. by rewrite decide_True.
      - intros x m Em Hx. destruct (Hlinks x m Em) as [L1 L2]. split; [done|]. intros Hin. rewrite L2 by (by right). cbn. by rewrite decide_False. }
    exists o, s'. split_and!; [exact E| |exact R|by left]. apply NoDup_cons in Hno as [Hno _]. intros Hin. apply Hno, elem_of_app. by left.
Qed.

(** Changing an object, or none. *)
Lemma on_ok' p f s :
  (∀ x, p = Some x → is_Some (objects s !! x)) →
  ∃ s', on_object' p f s = Ok (tt, s') ∧ (unused s' = unused s ∧ live_list_ s' = live_list_ s ∧ free_list_ s' = free_list_ s) ∧
    ∀ x, objects s' !! x = if decide (p = Some x) then f <$> objects s !! x else objects s !! x.
Proof.
  intros Hp. destruct p as [o|]; [|by exists s]. destruct (Hp o eq_refl) as [n En]. eexists. split; [by apply on_ok|]. split; [done|].
  intros x. cbn. destruct (decide (Some o = Some x)) as [[= ->]|Hx]; [by rewrite lookup_insert_eq, En|]. rewrite lookup_insert_ne; [done|congruence].
Qed.

(** What [free] makes of the pointers of [x]. *)
Definition freed (live fr : list nat) (o x : nat) (n : node) : node :=
  if decide (x = o) then mkNode (head fr) None
  else mkNode (if decide (before o live = Some x) then after o live else next_ n) (if decide (after o live = Some x) then before o live else prev_ n).

Lemma free_pointers live fr o s :
  represents live fr s → o ∈ live →
  ∃ s', free o s = Ok (tt, s') ∧ unused s' = unused s ∧ live_list_ s' = head (without o live) ∧ free_list_ s' = Some o ∧
    ∀ x, objects s' !! x = freed live fr o x <$> objects s !! x.
Proof.
  intros R Ho. destruct (represents_get live fr s o R ltac:(apply elem_of_app; by left)) as (n & En & L & _). destruct (L Ho) as [Ln Lp].
  pose proof (p_nodup _ _ _ R) as (Hnl & _ & _)%NoDup_app. unfold free. do 1 (erewrite bind_ok by reflexivity). rewrite (p_live _ _ _ R).
  erewrite bind_ok by (by apply get_ok). set (w := when _ _).
  assert (E1 : ∃ s1, w s = Ok (tt, s1) ∧ objects s1 = objects s ∧ unused s1 = unused s ∧ free_list_ s1 = free_list_ s ∧ live_list_ s1 = head (without o live)).
  { unfold w. rewrite head_without_after by done. case_bool_decide as Hh; cbn [when].
    - eexists. split; [reflexivity|]. rewrite decide_True by done. by rewrite Ln.
    - exists s. split; [done|]. rewrite decide_False by done. split_and!; [done..|apply R]. }
  destruct E1 as (s1 & E1 & Eo1 & Eu1 & Ef1 & El1). erewrite bind_ok by exact E1. erewrite bind_ok by (apply get_ok; by rewrite Eo1).
  assert (Hin : ∀ x, x ∈ live → is_Some (objects s !! x)) by (intros x Hx; apply (p_dom _ _ _ R), elem_of_app; by left).
  assert (Hpo : before o live ≠ Some o ∧ after o live ≠ Some o).
  { split; [intros Hb; apply after_before in Hb; [|done]; rename Hb into Ha|intros Ha]; pose proof (proj1 (after_before live o o Hnl) Ha) as Hb;
      apply list_elem_of_split in Ho as (l1 & l2 & ->); apply NoDup_app in Hnl as (Hn1 & Hd & [Hx Hn2]%NoDup_cons); rewrite after_here in Ha by (intros H1; apply (Hd o H1); by left);
      (destruct l2; [done|]; injection Ha as ->; apply Hx; by left). }
  destruct (on_ok' (prev_ n) (with_next (next_ n)) s1) as (s2 & E2 & (Eu2 & El2 & Ef2) & H2).
  { rewrite Lp, Eo1. intros x Hx. by apply Hin, (before_in o live). }
  erewrite bind_ok by exact E2.
  assert (En2 : objects s2 !! o = Some n) by (rewrite H2, Eo1, Lp, decide_False by tauto; done).
  erewrite bind_ok by (by apply get_ok).
  destruct (on_ok' (next_ n) (with_prev (prev_ n)) s2) as (s3 & E3 & (Eu3 & El3 & Ef3) & H3).
  { rewrite Ln. intros x Hx. rewrite H2, Eo1. assert (is_Some (objects s !! x)) as [m ->] by (by apply Hin, (after_in o live)). case_decide; by eexists. }
  erewrite bind_ok by exact E3. erewrite bind_ok by reflexivity.
  assert (En3 : objects s3 !! o = Some n) by (rewrite H3, En2, Ln, decide_False by tauto; done).
  erewrite bind_ok by (by apply on_ok). erewrite bind_ok by (apply on_ok; cbn; by rewrite lookup_insert_eq).
  eexists. split; [reflexivity|]. cbn. split_and!; [congruence|congruence|done|]. intros x. rewrite insert_insert_eq. unfold freed.
  destruct (decide (x = o)) as [->|Hx].
  { rewrite lookup_insert_eq, En. cbn. unfold with_prev, with_next. cbn. by rewrite Ef3, Ef2, Ef1, (p_free _ _ _ R). }
  rewrite lookup_insert_ne, H3, H2, Eo1, Ln, Lp by done. destruct (objects s !! x) as [[nx px]|]; [|by repeat case_decide].
  by repeat case_decide.
Qed.

Lemma free_ok live fr o s :
  represents live fr s → o ∈ live → ∃ s', free o s = Ok (tt, s') ∧ represents (without o live) (o :: fr) s'.
Proof.
  intros R Ho. destruct (free_pointers live fr o s R Ho) as (s' & E & Eu & El & Ef & Hx). exists s'. split; [done|].
  pose proof (p_nodup _ _ _ R) as Hnd. pose proof Hnd as (Hnl & Hdis & Hnf)%NoDup_app.
  assert (Hof : o ∉ fr) by by apply Hdis.
  assert (Hd : ∀ x, is_Some (objects s' !! x) ↔ is_Some (objects s !! x)) by (intros x; rewrite Hx; apply fmap_is_Some).
  split; [| | |done|done|].
  - apply NoDup_app. split; [by apply NoDup_without|]. split; [|by constructor]. intros x [Hxo Hxl]%elem_of_without [->|Hxf]%elem_of_cons; [done|]. by apply (Hdis x).
  - intros x. rewrite Hd, <- (p_dom _ _ _ R), !elem_of_app, elem_of_cons, elem_of_without. destruct (decide (x = o)) as [->|]; tauto.
  - intros x. rewrite Hd, Eu. apply R.
  - intros x m. rewrite Hx. intros (n & En & ->)%fmap_Some. apply (p_links _ _ _ R) in En as [L1 L2]. unfold freed. split.
    + intros [Hxo Hxl]%elem_of_without. rewrite decide_False by done. rewrite after_without, before_without by done. destruct (L1 Hxl) as [-> ->]. cbn. split.
      * destruct (decide (before o live = Some x)) as [Hb|Hb], (decide (after x live = Some o)) as [Ha|Ha]; try done; by apply after_before in Ha || (apply after_before in Hb).
      * destruct (decide (after o live = Some x)) as [Hb|Hb], (decide (before x live = Some o)) as [Ha|Ha]; try done; by apply after_before in Ha || (apply after_before in Hb).
    + intros [->|Hxf]%elem_of_cons; [rewrite decide_True by done; cbn; by rewrite decide_True|].
      assert (Hxo : x ≠ o) by by intros ->. rewrite decide_False by done. cbn. rewrite (decide_False (P := o = x)) by done. rewrite decide_False; [by apply L2|].
      intros Hb. apply before_in in Hb as [_ Hxl]. by apply (Hdis x).
Qed.

(** ** The destructor *)

Lemma destroy_list_ok fuel l s :
  NoDup l → (length l ≤ fuel)%nat → (∀ x, x ∈ l → ∃ n, objects s !! x = Some n ∧ next_ n = after x l) →
  ∃ s', destroy_list fuel (head l) s = Ok (tt, s') ∧ free_list_ s' = free_list_ s ∧ ∀ x, objects s' !! x = if decide (x ∈ l) then None else objects s !! x.
Proof.
  intros Hnd. revert fuel s. induction Hnd as [|o l Ho Hl IH]; intros fuel s Hf Hx.
  - exists s. split; [by destruct fuel|]. split; [done|]. intros x. rewrite decide_False; [done|apply not_elem_of_nil].
  - destruct fuel as [|fuel]; [cbn in Hf; lia|]. destruct (Hx o ltac:(by left)) as (n & En & Hn). cbn in Hn. rewrite decide_True in Hn by done.
    cbn [head destroy_list]. erewrite bind_ok by (by apply get_ok). erewrite bind_ok by (unfold destroy; rewrite En; reflexivity). rewrite Hn.
    destruct (IH fuel (set_objects (delete o (objects s)) s)) as (s' & E & Ef & H); [cbn in Hf; lia| |].
    + intros x Hxl. assert (Hxo : o ≠ x) by by intros ->. destruct (Hx x ltac:(by right)) as (m & Em & Hm). exists m. cbn in Hm. rewrite decide_False in Hm by done.
      split; [cbn; by rewrite lookup_delete_ne|done].
    + exists s'. split; [exact E|]. split; [done|]. intros x. rewrite H. cbn. destruct (decide (x ∈ l)) as [Hin|Hin]; [by rewrite decide_True by (by right)|].
      destruct (decide (o = x)) as [->|Hxo]; [rewrite decide_True by (by left); apply lookup_delete_eq|].
      rewrite decide_False by (by intros [->|]%elem_of_cons). by apply lookup_delete_ne.
Qed.

Lemma length_le_size {A} (m : gmap nat A) l : NoDup l → (∀ x, x ∈ l → is_Some (m !! x)) → (length l ≤ size m)%nat.
Proof.
  intros Hnd Hl. assert (Hs : l ⊆+ (map_to_list m).*1).
  { apply NoDup_submseteq; [done|]. intros x [v Hv]%Hl. apply list_elem_of_fmap. exists (x, v). split; [done|]. by apply elem_of_map_to_list. }
  apply submseteq_length in Hs. by rewrite length_fmap, length_map_to_list in Hs.
Qed.

(** Every object is deleted, and once. *)
Lemma destroy_pool_ok live fr s : represents live fr s → ∃ s', destroy_pool s = Ok (tt, s') ∧ objects s' = ∅.
Proof.
  intros R. pose proof (p_nodup _ _ _ R) as (Hnl & Hdis & Hnf)%NoDup_app.
  assert (Hlen : (length live + length fr ≤ size (objects s))%nat).
  { rewrite <- length_app. apply length_le_size; [apply R|]. intros x. apply R. }
  unfold destroy_pool. do 2 (erewrite bind_ok by reflexivity). rewrite (p_live _ _ _ R).
  destruct (destroy_list_ok (size (objects s)) live s Hnl ltac:(lia)) as (s1 & E1 & Ef1 & H1).
  { intros x Hx. destruct (represents_get live fr s x R ltac:(apply elem_of_app; by left)) as (n & En & L & _). exists n. split; [done|]. by apply L. }
  erewrite bind_ok by exact E1. erewrite bind_ok by reflexivity. rewrite Ef1, (p_free _ _ _ R).
  destruct (destroy_list_ok (size (objects s)) fr s1 Hnf ltac:(lia)) as (s2 & E2 & _ & H2).
  { intros x Hx. destruct (represents_get live fr s x R ltac:(apply elem_of_app; by right)) as (n & En & _ & L). exists n.
    rewrite H1, decide_False by (intros Hxl; by apply (Hdis x)). split; [done|]. by apply L. }
  exists s2. split; [exact E2|]. apply map_empty. intros x. rewrite H2, H1. destruct (decide (x ∈ fr)) as [|Hf]; [done|]. destruct (decide (x ∈ live)) as [|Hl]; [done|].
  destruct (objects s !! x) eqn:E; [|done]. assert (Hin : x ∈ live ++ fr) by (apply (p_dom _ _ _ R); by eexists). apply elem_of_app in Hin. tauto.
Qed.
