(* ===== verification/ReactorTable.v ===== *)
(** * The reactor's descriptors (asio/detail/impl/epoll_reactor.ipp)

    All descriptors of a reactor with the pool of their states and the set of epoll: registering, moving,
    deregistering, the dispatch of events, forks and shutting down.  What happens to the operations of
    one descriptor is in Reactor, also the [EPOLL_CTL_MOD] with which an operation has it watched for more; here
    epoll's set only has which state each descriptor is watched with, and that does not change it.
    Results: epoll never reports a state that is not an open socket's, no state is used after
    its memory is given back or given back twice, and a child process watches what its parent did. *)

From Stdlib Require Import ZArith Lia.
From stdpp Require Import base gmap list functions relations.
From S2P Require Import Prelude.
From S2P Require Import Chain.
From S2P Require Import SocketOps.
From S2P Require Import Reactor.
From S2P Require Import DescriptorPool.

#[local] Open Scope Z_scope.

(** What [data.ptr] of an event points to. *)
Inductive target := Interrupter | Timer | Descriptor (p : nat).

(** The calls about epoll and file descriptors; [epoll_create] stands for a new epoll descriptor in the place of the old
    one, and [epoll_ctl] with [EPOLL_CTL_ADD] and [EPOLL_CTL_DEL]. *)
Class Epoll (K : Type) := {
  epoll_create : K → K;
  open_eventfd : K → Z * K;
  timerfd_create : K → Z * K;
  ctl_add : Z → Z → target → K → sys unit * K;
  ctl_del : Z → K → K;
  fd_close : Z → K → K;
  epoll_wait : K → list (Z * target) * K
}.

(** [descriptor_state], with the part that Reactor is about. *)
Record state_data := mkState { descriptor_ : Z; data_ : descriptor_state }.

(** [enqueued] are the states in the scheduler's queue, and [task_result_] the events that they have there.
    [states] is the memory of the pool's objects. *)
Record table (K : Type) := mkTable {
  os_ : K;
  registered_descriptors_ : object_pool;
  states : nat → state_data;
  interrupter_ : Z;
  timer_fd_ : Z;
  shutting_down : bool;
  enqueued : list nat;
  task_result_ : nat → Z;
  posted_ops : list reactor_op;
  abandoned : list reactor_op
}.
Arguments mkTable {K}.
Arguments os_ {K}.
Arguments registered_descriptors_ {K}.
Arguments states {K}.
Arguments interrupter_ {K}.
Arguments timer_fd_ {K}.
Arguments shutting_down {K}.
Arguments enqueued {K}.
Arguments task_result_ {K}.
Arguments posted_ops {K}.
Arguments abandoned {K}.

Section Table.
Context {K : Type} `{Epoll K}.

Abbreviation MT := (M (table K)).

Definition set_os (k : K) (t : table K) : table K :=
  mkTable k (registered_descriptors_ t) (states t) (interrupter_ t) (timer_fd_ t) (shutting_down t) (enqueued t) (task_result_ t) (posted_ops t) (abandoned t).
Definition set_descriptors (s : object_pool) (t : table K) : table K :=
  mkTable (os_ t) s (states t) (interrupter_ t) (timer_fd_ t) (shutting_down t) (enqueued t) (task_result_ t) (posted_ops t) (abandoned t).
Definition set_data (p : nat) (d : state_data) (t : table K) : table K :=
  mkTable (os_ t) (registered_descriptors_ t) (<[p := d]> (states t)) (interrupter_ t) (timer_fd_ t) (shutting_down t) (enqueued t) (task_result_ t) (posted_ops t) (abandoned t).
Definition set_fds (i tm : Z) (t : table K) : table K :=
  mkTable (os_ t) (registered_descriptors_ t) (states t) i tm (shutting_down t) (enqueued t) (task_result_ t) (posted_ops t) (abandoned t).
Definition set_shutting_down (t : table K) : table K :=
  mkTable (os_ t) (registered_descriptors_ t) (states t) (interrupter_ t) (timer_fd_ t) true (enqueued t) (task_result_ t) (posted_ops t) (abandoned t).
Definition set_enqueued (l : list nat) (r : nat → Z) (t : table K) : table K :=
  mkTable (os_ t) (registered_descriptors_ t) (states t) (interrupter_ t) (timer_fd_ t) (shutting_down t) l r (posted_ops t) (abandoned t).
Definition post_ops (l : list reactor_op) (t : table K) : table K :=
  mkTable (os_ t) (registered_descriptors_ t) (states t) (interrupter_ t) (timer_fd_ t) (shutting_down t) (enqueued t) (task_result_ t) (posted_ops t ++ l) (abandoned t).
Definition abandon_ops (l : list reactor_op) (t : table K) : table K :=
  mkTable (os_ t) (registered_descriptors_ t) (states t) (interrupter_ t) (timer_fd_ t) (shutting_down t) (enqueued t) (task_result_ t) (posted_ops t) (abandoned t ++ l).

Definition on_os {A} (f : K → A * K) : MT A := λ t, let '(a, k) := f (os_ t) in Ok (a, set_os k t).
Definition on_os' (f : K → K) : MT unit := modify (λ t, set_os (f (os_ t)) t).

Definition on_pool {A} (m : MP A) : MT A := λ t,
  match m (registered_descriptors_ t) with
  | Ok (a, s) => Ok (a, set_descriptors s t)
  | Fault f => Fault f
  end.

(** The state at an address. *)
Definition get_data (p : nat) : MT state_data := λ t,
  match objects (registered_descriptors_ t) !! p with Some _ => Ok (states t p, t) | None => Fault UseAfterFree end.
Definition on_data (p : nat) (f : state_data → state_data) : MT unit := s ← get_data p; modify (set_data p (f s)).

Definition on_desc (f : descriptor_state → descriptor_state) (s : state_data) : state_data := mkState (descriptor_ s) (f (data_ s)).
Definition with_descriptor (fd : Z) (s : state_data) : state_data := mkState fd (data_ s).

(** ** Registering *)

Definition all_events : Z := Z.lor EPOLLIN (Z.lor EPOLLERR (Z.lor EPOLLHUP (Z.lor EPOLLPRI EPOLLET))).

Definition begin_state (fd : Z) (s : state_data) : state_data :=
  mkState fd (mkDesc (registered_events_ (data_ s)) (op_queue_ (data_ s)) (λ _, true) false).

(** The error, and [descriptor_data]. *)
Definition table_register (fd : Z) : MT (Z * nat) :=
  p ← on_pool alloc;
  on_data p (begin_state fd);;
  on_data p (on_desc (set_registered all_events));;
  r ← on_os (ctl_add fd all_events (Descriptor p));
  match r with
  | SysOk _ => mret (0, p)
  | SysErr e => if e =? op_not_permitted then on_data p (on_desc (set_registered 0));; mret (0, p) else mret (e, p)
  end.

Definition table_register_internal (op_type : nat) (fd : Z) (o : reactor_op) : MT (Z * nat) :=
  p ← on_pool alloc;
  on_data p (begin_state fd);;
  on_data p (on_desc (λ d, set_op_queue op_type (op_queue_ d op_type ++ [o]) d));;
  on_data p (on_desc (set_registered all_events));;
  r ← on_os (ctl_add fd all_events (Descriptor p));
  match r with
  | SysOk _ => mret (0, p)
  | SysErr e => mret (e, p)
  end.

(** The new values of the target and the source. *)
Definition move_descriptor (source_descriptor_data : option nat) : option nat * option nat := (source_descriptor_data, None).

(** ** Deregistering *)

Definition end_state (s : state_data) : state_data :=
  let d := clear_queues (data_ s) in mkState (-1) (mkDesc (registered_events_ d) (op_queue_ d) (try_speculative_ d) true).

(** The result is the new [descriptor_data]. *)
Definition table_deregister (fd : Z) (descriptor_data : option nat) (closing : bool) : MT (option nat) :=
  match descriptor_data with
  | None => mret None
  | Some p =>
      s ← get_data p;
      if shutdown_ (data_ s) then mret None
      else
        when (negb closing && negb (registered_events_ (data_ s) =? 0)) (on_os' (ctl_del fd));;
        on_data p end_state;;
        modify (post_ops (aborted (take_all (data_ s))));;
        mret (Some p)
  end.

(** The operations are destroyed. *)
Definition table_deregister_internal (fd : Z) (descriptor_data : option nat) : MT (option nat) :=
  match descriptor_data with
  | None => mret None
  | Some p =>
      s ← get_data p;
      if shutdown_ (data_ s) then mret None
      else
        on_os' (ctl_del fd);;
        on_data p end_state;;
        modify (abandon_ops (take_all (data_ s)));;
        mret (Some p)
  end.

Definition table_cleanup (descriptor_data : option nat) : MT unit :=
  match descriptor_data with Some p => on_pool (free p) | None => mret tt end.

(** ** The reactor itself *)

Definition watch_own : MT unit :=
  i ← gets interrupter_;
  on_os (ctl_add i (Z.lor EPOLLIN (Z.lor EPOLLERR EPOLLET)) Interrupter);;
  tm ← gets timer_fd_;
  when (negb (tm =? -1)) (on_os (ctl_add tm (Z.lor EPOLLIN EPOLLERR) Timer);; mret tt).

(** The constructor. *)
Definition table_start : MT unit :=
  i ← on_os open_eventfd;
  on_os' epoll_create;;
  tm ← on_os timerfd_create;
  modify (set_fds i tm);;
  watch_own.

Definition table_make (k : K) : table K :=
  mkTable k object_pool_make (λ _, mkState (-1) (mkDesc 0 (λ _, []) (λ _, false) false)) (-1) (-1) false [] (λ _, 0) [] [].

(** The dispatch of [run]; the result is [check_timers]. *)
Fixpoint dispatch (events : list (Z * target)) (check_timers : bool) : MT bool :=
  match events with
  | [] => mret check_timers
  | (_, Interrupter) :: events => tm ← gets timer_fd_; dispatch events (check_timers || (tm =? -1))
  | (_, Timer) :: events => dispatch events true
  | (e, Descriptor p) :: events =>
      get_data p;;
      q ← gets enqueued;
      modify (λ t, if decide (p ∈ q) then set_enqueued q (<[p := Z.lor (task_result_ t p) e]> (task_result_ t)) t
                   else set_enqueued (q ++ [p]) (<[p := e]> (task_result_ t)) t);;
      dispatch events check_timers
  end.

Definition table_run : MT bool :=
  tm ← gets timer_fd_;
  events ← on_os epoll_wait;
  dispatch events (tm =? -1).

(** The scheduler takes a state out of its queue, and looks at it. *)
Definition table_take : MT (option (nat * Z)) :=
  q ← gets enqueued;
  match q with
  | [] => mret None
  | p :: q =>
      get_data p;;
      e ← gets (λ t, task_result_ t p);
      modify (λ t, set_enqueued q (task_result_ t) t);;
      mret (Some (p, e))
  end.

(** The loop ends when nothing is live. *)
Fixpoint free_all (fuel : nat) : MT unit :=
  f ← on_pool first;
  match f with
  | None => mret tt
  | Some p =>
      match fuel with
      | O => raise OutOfFuel
      | S fuel =>
          s ← get_data p;
          modify (abandon_ops (take_all (data_ s)));;
          on_data p (on_desc (λ d, let d := clear_queues d in mkDesc (registered_events_ d) (op_queue_ d) (try_speculative_ d) true));;
          on_pool (free p);;
          free_all fuel
      end
  end.

Definition table_shutdown : MT unit :=
  modify set_shutting_down;;
  fuel ← gets (λ t, size (objects (registered_descriptors_ t)));
  free_all fuel.

(** What is thrown. *)
Fixpoint register_again (fuel : nat) (state : option nat) : MT (option Z) :=
  match state with
  | None => mret None
  | Some p =>
      match fuel with
      | O => raise OutOfFuel
      | S fuel =>
          s ← get_data p;
          r ← on_os (ctl_add (descriptor_ s) (registered_events_ (data_ s)) (Descriptor p));
          match r with
          | SysErr e => mret (Some e)
          | SysOk _ => n ← on_pool (get_object p); register_again fuel (next_ n)
          end
      end
  end.

(** [notify_fork] in the child. *)
Definition fork_child : MT (option Z) :=
  on_os' epoll_create;;
  tm ← gets timer_fd_;
  when (negb (tm =? -1)) (on_os' (fd_close tm));;
  tm ← on_os timerfd_create;
  i ← gets interrupter_;
  on_os' (fd_close i);;
  i ← on_os open_eventfd;
  modify (set_fds i tm);;
  watch_own;;
  fuel ← gets (λ t, size (objects (registered_descriptors_ t)));
  f ← on_pool first;
  register_again fuel f.
End Table.

(** ** What is documented of these calls *)

(** [interest] is what is in the set of epoll, by file descriptor; no other descriptor refers to the open file
    of a [sole] one, which therefore leaves the set when it is closed. *)
Class EpollLaws (K : Type) `{Epoll K} := {
  interest : K → gmap Z (Z * target);
  sole : K → Z → Prop;
  add_law fd e tg k : let '(r, k') := ctl_add fd e tg k in
    match r with
    | SysOk _ => interest k !! fd = None ∧ interest k' = <[fd := (e, tg)]> (interest k)
    | SysErr n => n ≠ 0 ∧ interest k' = interest k
    end ∧ ∀ x, sole k x → sole k' x;
  del_law fd k : interest (ctl_del fd k) = delete fd (interest k) ∧ ∀ x, sole k x → sole (ctl_del fd k) x;
  close_law fd k : interest (fd_close fd k) ⊆ interest k ∧ (sole k fd → interest (fd_close fd k) !! fd = None) ∧ ∀ x, sole k x → sole (fd_close fd k) x;
  wait_law k : let '(l, k') := epoll_wait k in
    interest k' = interest k ∧ (∀ x, sole k x → sole k' x) ∧ ∀ e tg, (e, tg) ∈ l → ∃ fd ev, interest k !! fd = Some (ev, tg);
  create_law k : interest (epoll_create k) = ∅ ∧ ∀ x, sole k x → sole (epoll_create k) x;
  eventfd_law k : let '(_, k') := open_eventfd k in interest k' = interest k ∧ ∀ x, sole k x → sole k' x;
  timerfd_law k : let '(_, k') := timerfd_create k in interest k' = interest k ∧ ∀ x, sole k x → sole k' x
}.

(** ** The users *)

(** An open socket, or another descriptor ([s_internal]), with its [reactor_data_]; [s_dup] is [possible_dup]. *)
Record user := mkUser { s_fd : Z; s_data : option nat; s_dup : bool; s_internal : bool }.

(** [taken] has been taken out of the scheduler's queue by a thread. *)
Record users (K : Type) := mkUsers { tab : table K; socks : gmap nat user; taken : list (nat * Z) }.
Arguments mkUsers {K}.
Arguments tab {K}.
Arguments socks {K}.
Arguments taken {K}.

Section Users.
Context {K : Type} `{Epoll K}.

Abbreviation MU := (M (users K)).

Definition on_table {A} (m : M (table K) A) : MU A := λ c,
  match m (tab c) with
  | Ok (a, t) => Ok (a, mkUsers t (socks c) (taken c))
  | Fault f => Fault f
  end.
Definition set_socks (m : gmap nat user) (c : users K) : users K := mkUsers (tab c) m (taken c).
Definition set_taken (l : list (nat * Z)) (c : users K) : users K := mkUsers (tab c) (socks c) l.

(** [do_open] with a descriptor of its own, and [do_assign] ([dup]). *)
Definition open_user (i : nat) (fd : Z) (dup : bool) : MU Z :=
  r ← on_table (table_register fd);
  let '(err, p) := r : Z * nat in
  if negb (err =? 0) then when (negb dup) (on_table (on_os' (fd_close fd)));; mret err
  else modify (λ c, set_socks (<[i := mkUser fd (Some p) dup false]> (socks c)) c);; mret 0.

(** What a service does with its descriptor; the result is not looked at. *)
Definition open_internal (i : nat) (t : nat) (fd : Z) (o : reactor_op) : MU unit :=
  r ← on_table (table_register_internal t fd o);
  modify (λ c, set_socks (<[i := mkUser fd (Some (r : Z * nat).2) true true]> (socks c)) c).

Definition with_user (i : nat) (f : user → MU unit) : MU unit :=
  m ← gets socks;
  match m !! i with Some u => f u | None => mret tt end.

Definition forget (i : nat) : MU unit := modify (λ c, set_socks (delete i (socks c)) c).

(** [close] and [release], and the end of a service's descriptor. *)
Definition close_user (i : nat) : MU unit := with_user i (λ u,
  p ← on_table (if s_internal u then table_deregister_internal (s_fd u) (s_data u) else table_deregister (s_fd u) (s_data u) (negb (s_dup u)));
  when (negb (s_internal u)) (on_table (on_os' (fd_close (s_fd u))));;
  on_table (table_cleanup p);;
  forget i).

Definition release_user (i : nat) : MU unit := with_user i (λ u,
  p ← on_table (if s_internal u then table_deregister_internal (s_fd u) (s_data u) else table_deregister (s_fd u) (s_data u) false);
  on_table (table_cleanup p);;
  forget i).

(** [base_move_construct] into [j]. *)
Definition move_user (i j : nat) : MU unit := with_user i (λ u,
  forget i;;
  modify (λ c, set_socks (<[j := mkUser (s_fd u) (move_descriptor (s_data u)).1 (s_dup u) (s_internal u)]> (socks c)) c)).

Inductive table_call :=
  | TOpen (i : nat) (fd : Z)
  | TAssign (i : nat) (fd : Z)
  | TInternal (i : nat) (t : nat) (fd : Z) (o : reactor_op)
  | TClose (i : nat)
  | TRelease (i : nat)
  | TMove (i j : nat)
  | TUse (i : nat) (f : descriptor_state → descriptor_state)   (** operations are started or cancelled *)
  | TRun
  | TTake
  | TPerform (n : nat) (f : Z → descriptor_state → descriptor_state)
  | TShutdown
  | TWorld (k : K).

Definition do_table (c : table_call) : MU unit :=
  match c with
  | TOpen i fd => open_user i fd false;; mret tt
  | TAssign i fd => open_user i fd true;; mret tt
  | TInternal i t fd o => open_internal i t fd o
  | TClose i => close_user i
  | TRelease i => release_user i
  | TMove i j => move_user i j
  | TUse i f => with_user i (λ u, match s_data u with Some p => on_table (on_data p (on_desc f)) | None => mret tt end)
  | TRun => on_table table_run;; mret tt
  | TTake =>
      r ← on_table table_take;
      match r with Some x => modify (λ c, set_taken (taken c ++ [x]) c) | None => mret tt end
  | TPerform n f =>
      l ← gets taken;
      match l !! n with
      | Some (p, e) => modify (set_taken (delete n l));; on_table (on_data p (on_desc (f e)))
      | None => mret tt
      end
  | TShutdown => on_table table_shutdown
  | TWorld k => on_table (on_os' (λ _, k))
  end.

(** Functions of Reactor do not begin or end a registration, and performing operations adds none to a queue. *)
Definition keeps (f : descriptor_state → descriptor_state) : Prop :=
  ∀ d, shutdown_ (f d) = shutdown_ d ∧ (registered_events_ (f d) = 0 ↔ registered_events_ d = 0).

Definition empty_queues (d : descriptor_state) : Prop := take_all d = [].

Context `{!EpollLaws K}.

(** A descriptor that is opened is new, and places are free.  The reactor is not used when it has shut down. *)
Definition table_call_ok (c : table_call) (s : users K) : Prop :=
  match c with
  | TOpen i fd => shutting_down (tab s) = false ∧ socks s !! i = None ∧ sole (os_ (tab s)) fd
  | TAssign i fd | TInternal i _ fd _ => shutting_down (tab s) = false ∧ socks s !! i = None
  | TClose i | TRelease i => True
  | TMove i j => socks s !! j = None
  | TUse _ f => shutting_down (tab s) = false ∧ keeps f
  | TRun => shutting_down (tab s) = false
  | TTake => True
  | TPerform _ f => ∀ e, keeps (f e) ∧ ∀ d, empty_queues d → empty_queues (f e d)
  | TShutdown => shutting_down (tab s) = false
  | TWorld k => interest k ⊆ interest (os_ (tab s)) ∧ ∀ x, sole (os_ (tab s)) x → sole k x
  end.

Definition table_step (s s' : users K) : Prop := ∃ c, table_call_ok c s ∧ do_table c s = Ok (tt, s').

(** ** What holds at any time *)

(** The state of an open descriptor. *)
Record held (t : table K) (live : list nat) (u : user) (p : nat) : Prop := {
  h_live : p ∈ live;
  h_fd : descriptor_ (states t p) = s_fd u;
  h_open : shutdown_ (data_ (states t p)) = false;
  h_sole : s_dup u = false → sole (os_ t) (s_fd u)
}.

Definition allocated (t : table K) (p : nat) : Prop := is_Some (objects (registered_descriptors_ t) !! p).

Record table_ok (live fr : list nat) (s : users K) : Prop := {
  t_pool : represents live fr (registered_descriptors_ (tab s));
  t_down : shutting_down (tab s) = true → live = [];
  t_users : ∀ i u, socks s !! i = Some u → ∃ p, s_data u = Some p ∧ allocated (tab s) p ∧
    if shutting_down (tab s) then shutdown_ (data_ (states (tab s) p)) = true else held (tab s) live u p;
  t_apart : ∀ i j u v, socks s !! i = Some u → socks s !! j = Some v → s_data u = s_data v → i = j;
  t_interest : shutting_down (tab s) = false → ∀ fd e p, interest (os_ (tab s)) !! fd = Some (e, Descriptor p) →
    registered_events_ (data_ (states (tab s) p)) ≠ 0 ∧ ∃ i u, socks s !! i = Some u ∧ s_fd u = fd ∧ s_data u = Some p;
  t_free : ∀ p, p ∉ live → empty_queues (data_ (states (tab s) p));
  t_queued : ∀ p, p ∈ enqueued (tab s) ∨ p ∈ (taken s).*1 → allocated (tab s) p
}.

(** ** The pieces *)

Implicit Types (t : table K) (s : users K) (live fr : list nat).

Lemma allocated_in live fr t p : represents live fr (registered_descriptors_ t) → allocated t p ↔ p ∈ live ++ fr.
Proof. intros R. symmetry. apply R. Qed.

Lemma get_data_ok t p : allocated t p → get_data p t = Ok (states t p, t).
Proof. intros [n En]. unfold get_data. by rewrite En. Qed.

Lemma on_data_ok t p f : allocated t p → on_data p f t = Ok (tt, set_data p (f (states t p)) t).
Proof. intros Hp. unfold on_data. by erewrite bind_ok by (by apply get_data_ok). Qed.

Lemma on_os_ok {A} (f : K → A * K) t : on_os f t = Ok ((f (os_ t)).1, set_os (f (os_ t)).2 t).
Proof. unfold on_os. by destruct (f (os_ t)). Qed.

Lemma state_here t p d : states (set_data p d t) p = d.
Proof. cbn. by rewrite fn_lookup_insert. Qed.

Lemma state_else t p q d : q ≠ p → states (set_data p d t) q = states t q.
Proof. intros Hq. cbn. by rewrite fn_lookup_insert_ne. Qed.

(** What no call of the reactor changes but those that are about it. *)
Definition keeps_queue t t' : Prop := enqueued t' = enqueued t ∧ shutting_down t' = shutting_down t ∧ ∀ x, sole (os_ t) x → sole (os_ t') x.

(** A registration that has been begun, and its end. *)
Record begun live fr t (fd : Z) (p : nat) t' : Prop := {
  b_new : p ∉ live;
  b_pool : represents (p :: live) (tail fr) (registered_descriptors_ t');
  b_more : ∀ q, allocated t q → allocated t' q;
  b_here : descriptor_ (states t' p) = fd ∧ shutdown_ (data_ (states t' p)) = false;
  b_else : ∀ q, q ≠ p → states t' q = states t q;
  b_queue : keeps_queue t t'
}.

Lemma begin_ok live fr t fd :
  represents live fr (registered_descriptors_ t) →
  ∃ p t1 t', on_pool alloc t = Ok (p, t1) ∧ on_data p (begin_state fd) t1 = Ok (tt, t') ∧ begun live fr t fd p t' ∧ os_ t' = os_ t ∧
    op_queue_ (data_ (states t' p)) = op_queue_ (data_ (states t p)) ∧ registered_events_ (data_ (states t' p)) = registered_events_ (data_ (states t p)).
Proof.
  intros R. destruct (alloc_ok live fr _ R) as (p & s' & E & Hp & R' & Hfrom). set (t1 := set_descriptors s' t).
  assert (Hal : allocated t1 p) by (apply (allocated_in (p :: live) (tail fr)); [exact R'|by left]).
  eexists p, t1, _. split; [unfold on_pool; by rewrite E|]. split; [by apply on_data_ok|].
  split; [|split; [done|]; by rewrite state_here]. split.
  - done.
  - exact R'.
  - intros q Hq. apply (allocated_in _ _ _ _ R) in Hq. apply (allocated_in (p :: live) (tail fr) (set_data _ _ t1) q R').
    apply elem_of_app in Hq as [Hq|Hq]; [apply elem_of_cons; right; apply elem_of_app; by left|].
    destruct Hfrom as [Hh|[-> _]]; [|by apply not_elem_of_nil in Hq]. destruct fr as [|x fr]; [done|]. injection Hh as ->.
    apply elem_of_cons in Hq as [->|Hq]; [by left|]. apply elem_of_cons. right. apply elem_of_app. by right.
  - by rewrite state_here.
  - intros q Hq. by rewrite state_else.
  - by split_and!.
Qed.

(** The end of a registration. *)
Record registered_as live fr t (fd err : Z) (p : nat) t' : Prop := {
  g_begun : begun live fr t fd p t';
  g_interest : interest (os_ t') = interest (os_ t) ∨
    (err = 0 ∧ registered_events_ (data_ (states t' p)) ≠ 0 ∧ interest (os_ t') = <[fd := (all_events, Descriptor p)]> (interest (os_ t)))
}.

Lemma begun_data live fr t fd p t' f :
  begun live fr t fd p t' → (∀ x, shutdown_ (data_ (f x)) = shutdown_ (data_ x) ∧ descriptor_ (f x) = descriptor_ x) → begun live fr t fd p (set_data p (f (states t' p)) t').
Proof.
  intros [B1 B2 B3 [B4 B5] B6 B7] Hf. split; [done|done|done| | |done].
  - rewrite state_here. by destruct (Hf (states t' p)) as [-> ->].
  - intros q Hq. rewrite state_else by done. by apply B6.
Qed.

Lemma begun_os live fr t fd p t' k : begun live fr t fd p t' → (∀ x, sole (os_ t') x → sole k x) → begun live fr t fd p (set_os k t').
Proof. intros [B1 B2 B3 B4 B5 (B6 & B7 & B8)] Hk. split; [done|done|done|done|done|]. split_and!; [done|done|]. intros x Hx. by apply Hk, B8. Qed.

Lemma begun_allocated live fr t fd p t' : begun live fr t fd p t' → allocated t' p.
Proof. intros B. apply (allocated_in (p :: live) (tail fr)); [apply B|by left]. Qed.

Lemma table_register_ok live fr t fd :
  represents live fr (registered_descriptors_ t) →
  ∃ err p t', table_register fd t = Ok ((err, p), t') ∧ registered_as live fr t fd err p t' ∧ op_queue_ (data_ (states t' p)) = op_queue_ (data_ (states t p)).
Proof.
  intros R. destruct (begin_ok live fr t fd R) as (p & t0 & t1 & E0 & E1 & B1 & Ek & Eq & _). unfold table_register.
  erewrite bind_ok by exact E0. erewrite bind_ok by exact E1. erewrite bind_ok by (apply on_data_ok; by eapply begun_allocated).
  set (t2 := set_data p _ t1). assert (B2 : begun live fr t fd p t2) by by apply begun_data.
  assert (Eq2 : data_ (states t2 p) = set_registered all_events (data_ (states t1 p))) by (unfold t2; by rewrite state_here).
  erewrite bind_ok by apply on_os_ok. pose proof (add_law fd all_events (Descriptor p) (os_ t2)) as L. destruct (ctl_add fd all_events (Descriptor p) (os_ t2)) as [r k3]. cbn [fst snd].
  destruct L as [L Hs]. assert (B3 : begun live fr t fd p (set_os k3 t2)) by by apply begun_os. change (os_ t2) with (os_ t1) in L. rewrite Ek in L.
  destruct r as [u|e].
  - destruct L as [_ Hi]. exists 0, p, (set_os k3 t2). split; [done|]. split; [split; [done|right]|by rewrite <- Eq; change (states (set_os k3 t2)) with (states t2); rewrite Eq2].
    split; [done|]. split; [|done]. change (states (set_os k3 t2)) with (states t2). by rewrite Eq2.
  - destruct L as [He Hi]. destruct (e =? op_not_permitted).
    + eexists 0, p, _. split; [erewrite bind_ok by (apply on_data_ok; by eapply begun_allocated); reflexivity|]. split; [split; [by apply begun_data|by left]|].
      rewrite state_here. change (op_queue_ (data_ (states t2 p)) = op_queue_ (data_ (states t p))). by rewrite Eq2.
    + exists e, p, (set_os k3 t2). split; [done|]. split; [split; [done|by left]|]. change (states (set_os k3 t2)) with (states t2). by rewrite Eq2.
Qed.

Lemma register_internal_ok live fr t j fd o :
  represents live fr (registered_descriptors_ t) →
  ∃ err p t', table_register_internal j fd o t = Ok ((err, p), t') ∧ registered_as live fr t fd err p t'.
Proof.
  intros R. destruct (begin_ok live fr t fd R) as (p & t0 & t1 & E0 & E1 & B1 & Ek & _). unfold table_register_internal.
  erewrite bind_ok by exact E0. erewrite bind_ok by exact E1. erewrite bind_ok by (apply on_data_ok; by eapply begun_allocated).
  set (t2 := set_data p _ t1). assert (B2 : begun live fr t fd p t2) by by apply begun_data.
  erewrite bind_ok by (apply on_data_ok; by eapply begun_allocated). set (t3 := set_data p _ t2). assert (B3 : begun live fr t fd p t3) by by apply begun_data.
  assert (Er : registered_events_ (data_ (states t3 p)) = all_events) by (unfold t3; by rewrite state_here).
  erewrite bind_ok by apply on_os_ok. pose proof (add_law fd all_events (Descriptor p) (os_ t3)) as L. destruct (ctl_add fd all_events (Descriptor p) (os_ t3)) as [r k3]. cbn [fst snd].
  destruct L as [L Hs]. assert (B4 : begun live fr t fd p (set_os k3 t3)) by by apply begun_os. change (os_ t3) with (os_ t1) in L. rewrite Ek in L.
  destruct r as [u|e]; destruct L as [Hn Hi].
  - exists 0, p, (set_os k3 t3). split; [done|]. split; [done|]. right. split; [done|]. split; [by change (states (set_os k3 t3)) with (states t3); rewrite Er|done].
  - exists e, p, (set_os k3 t3). split; [done|]. split; [done|by left].
Qed.

(** The end of what a user has registered: nothing is left in the queues, and in epoll only if the descriptor
    is about to be closed. *)
Record ended t (fd : Z) (p : nat) t' : Prop := {
  e_pool : registered_descriptors_ t' = registered_descriptors_ t;
  e_else : ∀ q, q ≠ p → states t' q = states t q;
  e_here : empty_queues (data_ (states t' p));
  e_interest : interest (os_ t') ⊆ interest (os_ t);
  e_queue : keeps_queue t t'
}.

Lemma end_state_empty (x : state_data) : empty_queues (data_ (end_state x)).
Proof. done. Qed.

Definition deregister_any (u : user) (closing : bool) : M (table K) (option nat) :=
  if s_internal u then table_deregister_internal (s_fd u) (s_data u) else table_deregister (s_fd u) (s_data u) closing.

Lemma table_deregister_ok t u p closing :
  allocated t p → s_data u = Some p → shutdown_ (data_ (states t p)) = false →
  ∃ t', deregister_any u closing t = Ok (Some p, t') ∧ ended t (s_fd u) p t' ∧
    (s_internal u = true ∨ closing = false → registered_events_ (data_ (states t p)) ≠ 0 → interest (os_ t') !! s_fd u = None).
Proof.
  intros Hp Hu Ho. unfold deregister_any, table_deregister_internal, table_deregister. rewrite Hu.
  assert (Hdel : ended t (s_fd u) p (set_data p (end_state (states t p)) (set_os (ctl_del (s_fd u) (os_ t)) t)) ∧
    interest (os_ (set_data p (end_state (states t p)) (set_os (ctl_del (s_fd u) (os_ t)) t))) !! s_fd u = None).
  { destruct (del_law (s_fd u) (os_ t)) as [Hi Hs]. split; [split|]; cbn -[end_state].
    - done.
    - intros q Hq. by apply fn_lookup_insert_ne.
    - by rewrite fn_lookup_insert.
    - rewrite Hi. apply delete_subseteq.
    - by split_and!.
    - rewrite Hi. apply lookup_delete_eq. }
  destruct Hdel as [[D1 D2 D3 D4 D5] Hn].
  assert (Hd : ∀ t1 (l : option nat) f, objects (registered_descriptors_ t1) = objects (registered_descriptors_ t) →
    (on_data p end_state;; modify f;; mret l : M (table K) (option nat)) t1 = Ok (l, f (set_data p (end_state (states t1 p)) t1))).
  { intros t1 l f Eo. erewrite bind_ok by (apply on_data_ok; unfold allocated; by rewrite Eo). done. }
  destruct (s_internal u).
  - erewrite bind_ok by (by apply get_data_ok). rewrite Ho. erewrite bind_ok by reflexivity. erewrite Hd by done. eexists. split; [reflexivity|].
    split; [by split|]. by intros _ _.
  - erewrite bind_ok by (by apply get_data_ok). rewrite Ho. destruct (negb closing && negb (registered_events_ (data_ (states t p)) =? 0)) eqn:Hc; cbn [when].
    + erewrite bind_ok by reflexivity. erewrite Hd by done. eexists. split; [reflexivity|]. split; [by split|]. by intros _ _.
    + erewrite bind_ok by reflexivity. erewrite Hd by done. eexists. split; [reflexivity|]. split; [|intros [?| ->] Hr; [done|]; apply Z.eqb_neq in Hr; by rewrite Hr in Hc].
      split; cbn -[end_state]; [done|intros q Hq; by apply fn_lookup_insert_ne|by rewrite fn_lookup_insert|done|by split_and!].
Qed.

(** After the reactor's end there is nothing to deregister. *)
Lemma deregister_down t u p closing :
  allocated t p → s_data u = Some p → shutdown_ (data_ (states t p)) = true → deregister_any u closing t = Ok (None, t).
Proof.
  intros Hp Hu Ho. unfold deregister_any, table_deregister_internal, table_deregister. rewrite Hu. destruct (s_internal u); erewrite bind_ok by (by apply get_data_ok); by rewrite Ho.
Qed.

(** ** Every call keeps the invariant *)

Lemma holder live fr s i u : table_ok live fr s → shutting_down (tab s) = false → socks s !! i = Some u → ∃ p, s_data u = Some p ∧ allocated (tab s) p ∧ held (tab s) live u p.
Proof. intros T Hs Hu. destruct (t_users _ _ _ T i u Hu) as (p & Hp & Ha & Hh). rewrite Hs in Hh. by exists p. Qed.

Lemma leaked_ok live fr s fd p t' :
  table_ok live fr s → shutting_down (tab s) = false → begun live fr (tab s) fd p t' → interest (os_ t') = interest (os_ (tab s)) →
  table_ok (p :: live) (tail fr) (mkUsers t' (socks s) (taken s)).
Proof.
  intros T Hs [B1 B2 B3 B4 B5 (B6 & B7 & B8)] Hi. split; cbn [tab socks taken].
  - exact B2.
  - rewrite B7. congruence.
  - intros i u Hu. destruct (holder live fr s i u T Hs Hu) as (q & Hq & Ha & [H1 H2 H3 H4]). exists q. split; [done|]. split; [by apply B3|]. rewrite B7, Hs.
    assert (Hqp : q ≠ p) by (by intros ->). split; [by right|by rewrite B5|by rewrite B5|intros Hd; by apply B8, H4].
  - exact (t_apart _ _ _ T).
  - intros _ x e q Hx. rewrite Hi in Hx. destruct (t_interest _ _ _ T Hs x e q Hx) as (Hr & i & u & Hu & Hf & Hd). split; [|by exists i, u].
    rewrite B5; [done|]. intros ->. destruct (holder live fr s i u T Hs Hu) as (q & Hq & _ & [Hl _ _ _]). by simplify_eq.
  - intros q [Hqp Hq]%not_elem_of_cons. rewrite B5 by done. by apply T.
  - intros q. rewrite B6. intros Hq. by apply B3, (t_queued _ _ _ T).
Qed.

Lemma added_ok live fr s i fd err p t' u :
  table_ok live fr s → shutting_down (tab s) = false → registered_as live fr (tab s) fd err p t' → socks s !! i = None →
  s_fd u = fd → s_data u = Some p → (s_dup u = false → sole (os_ (tab s)) fd) →
  table_ok (p :: live) (tail fr) (mkUsers t' (<[i := u]> (socks s)) (taken s)).
Proof.
  intros T Hs [[B1 B2 B3 B4 B5 (B6 & B7 & B8)] G] Hi Hf Hp Hsole.
  assert (Hnew : ∀ j v, socks s !! j = Some v → s_data v ≠ Some p).
  { intros j v Hv Hd. destruct (holder live fr s j v T Hs Hv) as (q & Hq & _ & [Hl _ _ _]). congruence. }
  split; cbn [tab socks taken].
  - exact B2.
  - rewrite B7. congruence.
  - rewrite B7, Hs. intros j v [[<- <-]|[Hj Hv]]%lookup_insert_Some.
    + exists p. split; [done|]. split; [apply (allocated_in (p :: live) (tail fr)); [done|by left]|]. destruct B4 as [B4 B4']. split; [by left|congruence|done|].
      intros Hd. rewrite Hf. by apply B8, Hsole.
    + destruct (holder live fr s j v T Hs Hv) as (q & Hq & Ha & [H1 H2 H3 H4]). exists q. split; [done|]. split; [by apply B3|].
      assert (Hqp : q ≠ p) by (by intros ->). split; [by right|by rewrite B5|by rewrite B5|intros Hd; by apply B8, H4].
  - intros j1 j2 v1 v2 [[<- <-]|[Hj1 Hv1]]%lookup_insert_Some [[<- <-]|[Hj2 Hv2]]%lookup_insert_Some Hd; [done| | |by eapply (t_apart _ _ _ T)].
    + destruct (Hnew j2 v2 Hv2). congruence.
    + destruct (Hnew j1 v1 Hv1). congruence.
  - intros _ x e q Hx.
    assert (Hold : interest (os_ (tab s)) !! x = Some (e, Descriptor q) → registered_events_ (data_ (states t' q)) ≠ 0 ∧ ∃ j v, <[i := u]> (socks s) !! j = Some v ∧ s_fd v = x ∧ s_data v = Some q).
    { intros Hx'. destruct (t_interest _ _ _ T Hs x e q Hx') as (Hr & j & v & Hv & Hvf & Hd). rewrite B5 by (intros ->; by destruct (Hnew j v Hv)).
      split; [done|]. exists j, v. split; [|done]. rewrite lookup_insert_ne; [done|congruence]. }
    destruct G as [Hint|(_ & Hr & Hint)]; rewrite Hint in Hx; [by apply Hold|]. apply lookup_insert_Some in Hx as [[<- [= <- <-]]|[Hne Hx]]; [|by apply Hold].
    split; [done|]. exists i, u. by rewrite lookup_insert_eq.
  - intros q [Hqp Hq]%not_elem_of_cons. rewrite B5 by done. by apply T.
  - intros q. rewrite B6. intros Hq. by apply B3, (t_queued _ _ _ T).
Qed.

Lemma world_ok live fr s k :
  table_ok live fr s → interest k ⊆ interest (os_ (tab s)) → (∀ x, sole (os_ (tab s)) x → sole k x) → table_ok live fr (mkUsers (set_os k (tab s)) (socks s) (taken s)).
Proof.
  intros [T1 T2 T3 T4 T5 T6 T7] Hi Hs. split; cbn [tab socks taken]; [done|done| |done| |done|done].
  - intros i u Hu. destruct (T3 i u Hu) as (p & Hp & Ha & Hh). exists p. split; [done|]. split; [done|].
    cbn. destruct (shutting_down (tab s)); [done|]. destruct Hh as [H1 H2 H3 H4]. split; [done|done|done|]. intros Hd. by apply Hs, H4.
  - intros Hd fd e p Hx. apply (T5 Hd fd e p). by eapply lookup_weaken.
Qed.

Lemma closed_table_ok live fr s i u p t' k :
  table_ok live fr s → shutting_down (tab s) = false → socks s !! i = Some u → s_data u = Some p → held (tab s) live u p → ended (tab s) (s_fd u) p t' →
  interest k ⊆ interest (os_ t') → (∀ x, sole (os_ t') x → sole k x) → (registered_events_ (data_ (states (tab s) p)) ≠ 0 → interest k !! s_fd u = None) →
  ∃ t'', on_pool (free p) (set_os k t') = Ok (tt, t'') ∧ table_ok (without p live) (p :: fr) (mkUsers t'' (delete i (socks s)) (taken s)).
Proof.
  intros T Hs Hu Hp [Hl Hf Ho Hso] [E1 E2 E3 E4 (E5 & E6 & E7)] Hi Hk Hno. destruct (free_ok live fr p (registered_descriptors_ (tab s)) (t_pool _ _ _ T) Hl) as (s1 & Es & R').
  exists (set_descriptors s1 (set_os k t')). split; [unfold on_pool; cbn; by rewrite E1, Es|].
  assert (Hal : ∀ q, allocated (tab s) q → allocated (set_descriptors s1 (set_os k t')) q).
  { intros q Hq. apply (allocated_in _ _ _ _ (t_pool _ _ _ T)) in Hq. apply (allocated_in (without p live) (p :: fr)); [exact R'|].
    rewrite elem_of_app, elem_of_cons, elem_of_without. apply elem_of_app in Hq. destruct (decide (q = p)); tauto. }
  assert (Hother : ∀ j v, delete i (socks s) !! j = Some v → socks s !! j = Some v ∧ s_data v ≠ Some p).
  { intros j v [Hj Hv]%lookup_delete_Some. split; [done|]. intros Hd. apply Hj. symmetry. eapply (t_apart _ _ _ T); [done..|congruence]. }
  split; cbn [tab socks taken].
  - exact R'.
  - cbn. rewrite E6. congruence.
  - intros j v [Hv Hd]%Hother. destruct (holder live fr s j v T Hs Hv) as (q & Hq & Ha & [H1 H2 H3 H4]). exists q. split; [done|]. split; [by apply Hal|].
    cbn. rewrite E6, Hs. assert (Hqp : q ≠ p) by (intros ->; congruence). split; cbn; [by apply elem_of_without|by rewrite E2|by rewrite E2|intros Hdup; by apply Hk, E7, H4].
  - intros j1 j2 v1 v2 [Hv1 _]%Hother [Hv2 _]%Hother. by eapply (t_apart _ _ _ T).
  - intros _ x e q Hx. cbn in Hx. pose proof (lookup_weaken _ _ _ _ (lookup_weaken _ _ _ _ Hx Hi) E4) as Hx'.
    destruct (t_interest _ _ _ T Hs x e q Hx') as (Hr & j & v & Hv & Hvf & Hd). assert (Hqp : q ≠ p).
    { intros ->. assert (Hji : j = i) by (eapply (t_apart _ _ _ T); [done..|congruence]). rewrite Hji, Hu in Hv. injection Hv as <-. rewrite Hvf in Hno. rewrite Hno in Hx; done. }
    cbn. rewrite E2 by done. split; [done|]. exists j, v. split; [|done]. rewrite lookup_delete_ne; [done|]. intros <-. rewrite Hu in Hv. injection Hv as <-. congruence.
  - intros q Hq. cbn. destruct (decide (q = p)) as [->|Hqp]; [done|]. rewrite E2 by done. apply T. intros Hin. apply Hq. by apply elem_of_without.
  - intros q. cbn. rewrite E5. intros Hq. by apply Hal, (t_queued _ _ _ T).
Qed.

Definition well (s : users K) : Prop := ∃ live fr, table_ok live fr s.

Lemma on_table_ok {A} (m : M (table K) A) s a t' : m (tab s) = Ok (a, t') → on_table m s = Ok (a, mkUsers t' (socks s) (taken s)).
Proof. intros E. unfold on_table. by rewrite E. Qed.

Lemma open_user_call s i fd dup :
  well s → shutting_down (tab s) = false → socks s !! i = None → (dup = false → sole (os_ (tab s)) fd) → ∃ e s', open_user i fd dup s = Ok (e, s') ∧ well s'.
Proof.
  intros (live & fr & T) Hs Hi Hd. destruct (table_register_ok live fr (tab s) fd (t_pool _ _ _ T)) as (err & p & t' & E & G & _). unfold open_user.
  erewrite bind_ok by (by apply on_table_ok). cbn beta iota. destruct (err =? 0) eqn:He; cbn [negb].
  - do 2 eexists. split; [reflexivity|]. exists (p :: live), (tail fr). by apply (added_ok live fr s i fd err p t').
  - assert (Hint : interest (os_ t') = interest (os_ (tab s))) by (destruct (g_interest _ _ _ _ _ _ _ G) as [?|[-> _]]; done).
    pose proof (leaked_ok live fr s fd p t' T Hs (g_begun _ _ _ _ _ _ _ G) Hint) as T'. destruct (negb dup); cbn [when]; [|do 2 eexists; split; [reflexivity|]; by do 2 eexists].
    erewrite bind_ok by (by apply on_table_ok). do 2 eexists. split; [reflexivity|]. exists (p :: live), (tail fr).
    destruct (close_law fd (os_ t')) as (C1 & _ & C3). by apply (world_ok _ _ (mkUsers t' (socks s) (taken s)) (fd_close fd (os_ t'))).
Qed.

Lemma internal_call s i j fd o :
  well s → shutting_down (tab s) = false → socks s !! i = None → ∃ s', open_internal i j fd o s = Ok (tt, s') ∧ well s'.
Proof.
  intros (live & fr & T) Hs Hi. destruct (register_internal_ok live fr (tab s) j fd o (t_pool _ _ _ T)) as (err & p & t' & E & G). unfold open_internal.
  erewrite bind_ok by (by apply on_table_ok). eexists. split; [reflexivity|]. exists (p :: live), (tail fr). by apply (added_ok live fr s i fd err p t').
Qed.

Lemma user_forgotten live fr s i u :
  table_ok live fr s → socks s !! i = Some u → shutting_down (tab s) = true → table_ok live fr (mkUsers (tab s) (delete i (socks s)) (taken s)).
Proof.
  intros [T1 T2 T3 T4 T5 T6 T7] Hu Hs. split; cbn [tab socks taken]; [done|done| | |congruence|done|done].
  - intros j v [_ Hv]%lookup_delete_Some. by apply (T3 j).
  - intros j1 j2 v1 v2 [_ Hv1]%lookup_delete_Some [_ Hv2]%lookup_delete_Some. by eapply T4.
Qed.

(** Closing ([closes]) and releasing. *)
Lemma leave_call s i closing (closes : user → bool) :
  well s → (∀ u, socks s !! i = Some u → s_internal u = false → closing u = true → closes u = true ∧ s_dup u = false) →
  ∃ s', with_user i (λ u,
    p ← on_table (deregister_any u (closing u));
    when (closes u) (on_table (on_os' (fd_close (s_fd u))));;
    on_table (table_cleanup p);;
    forget i) s = Ok (tt, s') ∧ well s'.
Proof.
  intros (live & fr & T) Hcl. unfold with_user. erewrite bind_ok by reflexivity. destruct (socks s !! i) as [u|] eqn:Hu; [|exists s; split; [done|by exists live, fr]].
  specialize (Hcl u eq_refl). destruct (shutting_down (tab s)) eqn:Hs.
  - destruct (t_users _ _ _ T i u Hu) as (p & Hp & Ha & Hh). rewrite Hs in Hh. erewrite bind_ok by (by apply on_table_ok, (deregister_down _ u p)).
    destruct (close_law (s_fd u) (os_ (tab s))) as (C1 & _ & C3).
    assert (Hk : ∃ k, when (closes u) (on_table (on_os' (fd_close (s_fd u)))) (mkUsers (tab s) (socks s) (taken s)) = Ok (tt, mkUsers (set_os k (tab s)) (socks s) (taken s)) ∧
      interest k ⊆ interest (os_ (tab s)) ∧ ∀ x, sole (os_ (tab s)) x → sole k x).
    { destruct (closes u); cbn [when]; [by exists (fd_close (s_fd u) (os_ (tab s)))|]. exists (os_ (tab s)). by destruct (tab s). }
    destruct Hk as (k & Ek & K1 & K2). erewrite bind_ok by exact Ek. erewrite bind_ok by reflexivity. eexists. split; [reflexivity|]. exists live, fr.
    exact (world_ok live fr (mkUsers (tab s) (delete i (socks s)) (taken s)) k (user_forgotten live fr s i u T Hu Hs) K1 K2).
  - destruct (holder live fr s i u T Hs Hu) as (p & Hp & Ha & Hh). destruct (table_deregister_ok (tab s) u p (closing u) Ha Hp (h_open _ _ _ _ Hh)) as (t' & E & En & Hno).
    erewrite bind_ok by (by apply on_table_ok). cbn [socks taken].
    destruct (close_law (s_fd u) (os_ t')) as (C1 & C2 & C3).
    assert (Hk : ∃ k, when (closes u) (on_table (on_os' (fd_close (s_fd u)))) (mkUsers t' (socks s) (taken s)) = Ok (tt, mkUsers (set_os k t') (socks s) (taken s)) ∧
      interest k ⊆ interest (os_ t') ∧ (∀ x, sole (os_ t') x → sole k x) ∧ (registered_events_ (data_ (states (tab s) p)) ≠ 0 → interest k !! s_fd u = None)).
    { destruct (closes u) eqn:Hc; cbn [when].
      - exists (fd_close (s_fd u) (os_ t')). split; [done|]. split; [done|]. split; [done|]. intros Hr. destruct (decide (s_internal u = true ∨ closing u = false)) as [Hd|Hd].
        + eapply lookup_weaken_None; [|exact C1]. by apply Hno.
        + apply C2. destruct (e_queue _ _ _ _ En) as (_ & _ & Hso). apply Hso, (h_sole _ _ _ _ Hh).
          apply Hcl; [destruct (s_internal u); tauto|destruct (closing u); tauto].
      - exists (os_ t'). split; [by destruct t'|]. split; [done|]. split; [done|]. apply Hno. destruct (s_internal u); [by left|]. right. destruct (closing u); [by destruct Hcl|done]. }
    destruct Hk as (k & Ek & K1 & K2 & K3). erewrite bind_ok by exact Ek.
    destruct (closed_table_ok live fr s i u p t' k T Hs Hu Hp Hh En K1 K2 K3) as (t'' & Ef & T'). erewrite bind_ok by (by apply on_table_ok).
    eexists. split; [reflexivity|]. by exists (without p live), (p :: fr).
Qed.

Lemma close_user_call s i : well s → ∃ s', close_user i s = Ok (tt, s') ∧ well s'.
Proof. intros W. apply (leave_call s i (λ u, negb (s_dup u)) (λ u, negb (s_internal u)) W). intros u _ Hi Hd. rewrite Hi. split; [done|]. by destruct (s_dup u). Qed.

Lemma release_user_call s i : well s → ∃ s', release_user i s = Ok (tt, s') ∧ well s'.
Proof. intros W. by apply (leave_call s i (λ _, false) (λ _, false) W). Qed.

Lemma move_call s i j : well s → socks s !! j = None → ∃ s', move_user i j s = Ok (tt, s') ∧ well s'.
Proof.
  intros (live & fr & T) Hj. unfold move_user, with_user. erewrite bind_ok by reflexivity. destruct (socks s !! i) as [u|] eqn:Hu; [|exists s; split; [done|by exists live, fr]].
  eexists. split; [reflexivity|]. exists live, fr. assert (Hij : i ≠ j) by congruence.
  set (w := mkUser _ _ _ _). assert (Hw : w = u) by (by destruct u). clearbody w. subst w.
  assert (Hback : ∀ x v, <[j := u]> (delete i (socks s)) !! x = Some v → socks s !! (if decide (x = j) then i else x) = Some v ∧ x ≠ i).
  { intros x v [[<- <-]|[Hx [Hxi Hv]%lookup_delete_Some]]%lookup_insert_Some; [by rewrite decide_True|]. by rewrite decide_False by congruence. }
  destruct T as [T1 T2 T3 T4 T5 T6 T7]. split; cbn [tab socks taken set_socks]; [done|done| | | |done|done].
  - intros x v [Hv _]%Hback. by eapply T3.
  - intros x y v1 v2 [Hv1 Hx]%Hback [Hv2 Hy]%Hback Hd. pose proof (T4 _ _ _ _ Hv1 Hv2 Hd) as E. repeat case_decide; congruence.
  - intros Hs fd e p Hp. destruct (T5 Hs fd e p Hp) as (Hr & x & v & Hv & Hf & Hd). split; [done|]. destruct (decide (x = i)) as [->|Hx].
    + exists j, v. rewrite lookup_insert_eq. split; [congruence|done].
    + exists x, v. rewrite lookup_insert_ne, lookup_delete_ne by congruence. done.
Qed.

(** Operations change a state without beginning or ending its registration. *)
Lemma data_changed live fr s p f :
  table_ok live fr s → keeps f → (p ∈ live ∨ ∀ d, empty_queues d → empty_queues (f d)) →
  table_ok live fr (mkUsers (set_data p (on_desc f (states (tab s) p)) (tab s)) (socks s) (taken s)).
Proof.
  intros [T1 T2 T3 T4 T5 T6 T7] Hk He. set (t' := set_data _ _ _).
  assert (Hd : ∀ q, descriptor_ (states t' q) = descriptor_ (states (tab s) q) ∧ shutdown_ (data_ (states t' q)) = shutdown_ (data_ (states (tab s) q)) ∧
    (registered_events_ (data_ (states t' q)) = 0 ↔ registered_events_ (data_ (states (tab s) q)) = 0)).
  { intros q. unfold t'. destruct (decide (q = p)) as [->|Hq]; [rewrite state_here|by rewrite state_else]. split; [done|]. apply Hk. }
  split; cbn [tab socks taken]; [done|done| |done| | |done].
  - intros i u Hu. destruct (T3 i u Hu) as (q & Hq & Ha & Hh). destruct (Hd q) as (D1 & D2 & _). exists q. split; [done|]. split; [done|].
    change (shutting_down t') with (shutting_down (tab s)). destruct (shutting_down (tab s)); [by rewrite D2|]. destruct Hh as [H1 H2 H3 H4]. split; [done|by rewrite D1|by rewrite D2|done].
  - intros Hs fd e q Hq. destruct (T5 Hs fd e q Hq) as (Hr & Hu). split; [|done]. intros Hz. by apply Hd in Hz.
  - intros q Hq. unfold t'. destruct (decide (q = p)) as [->|Hqp]; [rewrite state_here|rewrite state_else by done; by apply T6].
    destruct He as [He|He]; [done|]. by apply He, T6.
Qed.

Lemma use_call s i f :
  well s → shutting_down (tab s) = false → keeps f →
  ∃ s', with_user i (λ u, match s_data u with Some p => on_table (on_data p (on_desc f)) | None => mret tt end) s = Ok (tt, s') ∧ well s'.
Proof.
  intros (live & fr & T) Hs Hk. unfold with_user. erewrite bind_ok by reflexivity. destruct (socks s !! i) as [u|] eqn:Hu; [|exists s; split; [done|by exists live, fr]].
  destruct (holder live fr s i u T Hs Hu) as (p & Hp & Ha & [Hl _ _ _]). rewrite Hp. eexists. split; [by apply on_table_ok, on_data_ok|].
  exists live, fr. apply data_changed; [done|done|by left].
Qed.

Lemma perform_call s n f :
  well s → (∀ e, keeps (f e) ∧ ∀ d, empty_queues d → empty_queues (f e d)) → ∃ s', do_table (TPerform n f) s = Ok (tt, s') ∧ well s'.
Proof.
  intros (live & fr & T) Hk. cbn [do_table]. erewrite bind_ok by reflexivity. destruct (taken s !! n) as [[p e]|] eqn:Hn; [|exists s; split; [done|by exists live, fr]].
  erewrite bind_ok by reflexivity. set (s1 := set_taken _ s). assert (T1 : table_ok live fr s1).
  { destruct T as [T1 T2 T3 T4 T5 T6 T7]. split; try done. cbn. intros q [Hq|Hq]; apply T7; [by left|right]. apply list_elem_of_fmap in Hq as (x & -> & Hx).
    apply list_elem_of_fmap. exists x. split; [done|]. rewrite (delete_Permutation _ _ _ Hn). by right. }
  eexists. split; [apply on_table_ok, on_data_ok|].
  - apply (t_queued _ _ _ T). right. apply list_elem_of_fmap. exists (p, e). split; [done|]. by eapply list_elem_of_lookup_2.
  - exists live, fr. apply (data_changed live fr s1); [done|apply Hk|right; apply Hk].
Qed.

Lemma queue_changed live fr s l r tk :
  table_ok live fr s → (∀ q, q ∈ l ∨ q ∈ tk.*1 → allocated (tab s) q) → table_ok live fr (mkUsers (set_enqueued l r (tab s)) (socks s) tk).
Proof.
  intros [T1 T2 T3 T4 T5 T6 T7] Hl. split; cbn [tab socks taken]; try done. intros i u Hu. destruct (T3 i u Hu) as (q & Hq & Ha & Hh).
  exists q. split; [done|]. split; [done|]. cbn. destruct (shutting_down (tab s)); [done|]. by destruct Hh; split.
Qed.

Lemma table_dispatch_ok events b t :
  (∀ e p, (e, Descriptor p) ∈ events → allocated t p) → (∀ q, q ∈ enqueued t → allocated t q) →
  ∃ b' l r, dispatch events b t = Ok (b', set_enqueued l r t) ∧ ∀ q, q ∈ l → allocated t q.
Proof.
  revert b t. induction events as [|[e tg] events IH]; intros b t He Hq; [exists b, (enqueued t), (task_result_ t); split; [by destruct t|done]|].
  assert (He' : ∀ e p, (e, Descriptor p) ∈ events → allocated t p) by (intros e' p Hp; apply (He e'); by right).
  destruct tg as [| |p]; cbn [dispatch]; [erewrite bind_ok by reflexivity; by apply IH|by apply IH|].
  assert (Hp : allocated t p) by (apply (He e); by left). erewrite bind_ok by (by apply get_data_ok). do 2 (erewrite bind_ok by reflexivity).
  destruct (decide (p ∈ enqueued t)) as [Hin|Hin].
  - destruct (IH b (set_enqueued (enqueued t) (<[p := Z.lor (task_result_ t p) e]> (task_result_ t)) t)) as (b' & l & r & E & Hl); [done|done|]. by exists b', l, r.
  - destruct (IH b (set_enqueued (enqueued t ++ [p]) (<[p := e]> (task_result_ t)) t)) as (b' & l & r & E & Hl); [done| |by exists b', l, r].
    cbn. intros q [Hx| ->%list_elem_of_singleton]%elem_of_app; [by apply Hq|done].
Qed.

(** What epoll reports is an open socket's. *)
Lemma reported live fr s : table_ok live fr s → shutting_down (tab s) = false → ∀ e p, (e, Descriptor p) ∈ (epoll_wait (os_ (tab s))).1 →
  ∃ i u, socks s !! i = Some u ∧ s_data u = Some p.
Proof.
  intros T Hs e p Hp. pose proof (wait_law (os_ (tab s))) as L. destruct (epoll_wait (os_ (tab s))) as [l k']. destruct L as (_ & _ & L).
  destruct (L e _ Hp) as (fd & ev & Hx). destruct (t_interest _ _ _ T Hs fd ev p Hx) as (_ & i & u & Hu & _ & Hd). by exists i, u.
Qed.

Lemma run_call s : well s → shutting_down (tab s) = false → ∃ b s', on_table table_run s = Ok (b, s') ∧ well s'.
Proof.
  intros (live & fr & T) Hs. pose proof (reported live fr s T Hs) as Hrep. pose proof (wait_law (os_ (tab s))) as L.
  destruct (epoll_wait (os_ (tab s))) as [l k'] eqn:Ew. destruct L as (L1 & L2 & _). cbn [fst] in Hrep.
  set (s1 := mkUsers (set_os k' (tab s)) (socks s) (taken s)).
  assert (T1 : table_ok live fr s1) by (apply world_ok; [done|by rewrite L1|done]).
  destruct (table_dispatch_ok l (timer_fd_ (tab s) =? -1) (tab s1)) as (b & q & r & E & Hq).
  - intros e p Hp. destruct (Hrep e p Hp) as (i & u & Hu & Hd). destruct (t_users _ _ _ T1 i u Hu) as (p' & Hp' & Ha & _). congruence.
  - intros q Hq. apply (t_queued _ _ _ T1). by left.
  - exists b, (mkUsers (set_enqueued q r (tab s1)) (socks s1) (taken s1)). split; [|exists live, fr; apply queue_changed; [done|]].
    + apply (on_table_ok table_run s). unfold table_run. erewrite bind_ok by reflexivity. erewrite bind_ok by apply on_os_ok. rewrite Ew. exact E.
    + intros x [Hx|Hx]; [by apply Hq|]. apply (t_queued _ _ _ T1). by right.
Qed.

Lemma take_call s : well s → ∃ s', do_table TTake s = Ok (tt, s') ∧ well s'.
Proof.
  intros (live & fr & T). cbn [do_table]. destruct (enqueued (tab s)) as [|p q] eqn:Eq.
  - erewrite bind_ok by (apply on_table_ok; unfold table_take; erewrite bind_ok by reflexivity; rewrite Eq; reflexivity). eexists. split; [reflexivity|]. exists live, fr. by destruct T.
  - assert (Hp : allocated (tab s) p) by (apply (t_queued _ _ _ T); left; rewrite Eq; by left).
    erewrite bind_ok by (apply on_table_ok; unfold table_take; erewrite bind_ok by reflexivity; rewrite Eq; erewrite bind_ok by (by apply get_data_ok); reflexivity).
    eexists. split; [reflexivity|]. exists live, fr. apply (queue_changed live fr s); [done|]. intros x. cbn [taken]. rewrite fmap_app, elem_of_app. cbn [fmap list_fmap fst]. rewrite list_elem_of_singleton.
    intros [Hx|[Hx| ->]]; [|by apply (t_queued _ _ _ T); right|done]. apply (t_queued _ _ _ T). left. rewrite Eq. by right.
Qed.

(** *** Shutting down *)

(** Every state is freed, and what waits is abandoned. *)
Lemma free_all_ok fuel live fr t :
  represents live fr (registered_descriptors_ t) → (length live ≤ fuel)%nat →
  ∃ t', free_all fuel t = Ok (tt, t') ∧ (∃ fr', represents [] fr' (registered_descriptors_ t')) ∧ (∀ p, allocated t p → allocated t' p) ∧
    (∀ p, p ∈ live → shutdown_ (data_ (states t' p)) = true ∧ empty_queues (data_ (states t' p))) ∧ (∀ p, p ∉ live → states t' p = states t p) ∧
    abandoned t' = abandoned t ++ concat (map (λ p, take_all (data_ (states t p))) live) ∧
    os_ t' = os_ t ∧ shutting_down t' = shutting_down t ∧ enqueued t' = enqueued t.
Proof.
  revert fuel fr t. induction live as [|p live IH]; intros fuel fr t R Hf.
  - exists t. split; [|split; [by exists fr|]; split_and!; try done; [intros p ?%not_elem_of_nil; done|by rewrite app_nil_r]].
    assert (Hl : live_list_ (registered_descriptors_ t) = None) by apply R.
    destruct fuel; cbn [free_all]; (erewrite bind_ok; [|unfold on_pool, first; cbn; by rewrite Hl]); by destruct t.
  - destruct fuel as [|fuel]; [cbn in Hf; lia|]. cbn [free_all]. pose proof (p_live _ _ _ R) as Hl. cbn in Hl.
    assert (Ht : set_descriptors (registered_descriptors_ t) t = t) by by destruct t.
    erewrite bind_ok; [|unfold on_pool, first; cbn; rewrite Hl, Ht; reflexivity].
    assert (Hp : allocated t p) by (apply (allocated_in _ _ _ _ R); by left). cbn beta iota. erewrite bind_ok by (by apply get_data_ok). erewrite bind_ok by reflexivity.
    set (t1 := abandon_ops _ t). erewrite bind_ok by (by apply on_data_ok). set (t2 := set_data p _ t1).
    destruct (free_ok (p :: live) fr p (registered_descriptors_ t) R ltac:(by left)) as (s' & Ef & R').
    pose proof (p_nodup _ _ _ R) as [Hnl _]%NoDup_cons. assert (Hpl : p ∉ live) by (intros Hin; apply Hnl, elem_of_app; by left).
    cbn [without] in R'. rewrite decide_True, without_notin in R' by done.
    erewrite bind_ok by (unfold on_pool; change (registered_descriptors_ t2) with (registered_descriptors_ t); rewrite Ef; reflexivity). set (t3 := set_descriptors s' t2).
    destruct (IH fuel (p :: fr) t3 R' ltac:(cbn in Hf; lia)) as (t' & E & Hr & Ha & Hs & Hel & Hab & Eo & Esd & Eq). exists t'. split_and!; try done.
    + intros q Hq. apply Ha. apply (allocated_in live (p :: fr) t3 q R'). apply (allocated_in _ _ _ _ R) in Hq. by rewrite (Permutation_middle live fr p) in Hq.
    + intros q [->|Hq]%elem_of_cons; [|by apply Hs]. rewrite Hel by done. unfold t3. cbn. by rewrite fn_lookup_insert.
    + intros q [Hqp Hq]%not_elem_of_cons. rewrite Hel by done. unfold t3. cbn. by rewrite fn_lookup_insert_ne.
    + rewrite Hab. cbn [map concat]. rewrite (assoc_L (++)). f_equal. f_equal. apply map_ext_in. intros q Hq. apply list_elem_of_In in Hq. unfold t3. cbn. rewrite fn_lookup_insert_ne; [done|]. by intros ->.
Qed.

Lemma table_shutdown_call s :
  well s → ∃ s' live, on_table table_shutdown s = Ok (tt, s') ∧ well s' ∧ socks s' = socks s ∧ shutting_down (tab s') = true ∧
    abandoned (tab s') = abandoned (tab s) ++ concat (map (λ p, take_all (data_ (states (tab s) p))) live) ∧ NoDup live ∧
    (shutting_down (tab s) = false → ∀ i u p, socks s !! i = Some u → s_data u = Some p → p ∈ live).
Proof.
  intros (live & fr & T). set (t1 := set_shutting_down (tab s)).
  assert (Hlen : (length live ≤ size (objects (registered_descriptors_ (tab s))))%nat).
  { apply length_le_size; [pose proof (p_nodup _ _ _ (t_pool _ _ _ T)) as (? & _ & _)%NoDup_app; done|]. intros p Hp. apply (p_dom _ _ _ (t_pool _ _ _ T)), elem_of_app. by left. }
  destruct (free_all_ok _ live fr t1 (t_pool _ _ _ T) Hlen) as (t' & E & (fr' & R') & Ha & Hs & Hel & Hab & Eo & Esd & Eq).
  eexists _, live. split; [apply on_table_ok; unfold table_shutdown; do 2 (erewrite bind_ok by reflexivity); exact E|]. cbn [socks tab].
  split; [|split_and!; [done|by rewrite Esd|exact Hab|pose proof (p_nodup _ _ _ (t_pool _ _ _ T)) as (? & _ & _)%NoDup_app; done|]].
  - exists [], fr'. destruct T as [T1 T2 T3 T4 T5 T6 T7]. split; cbn [tab socks taken]; try done.
    + intros i u Hu. destruct (T3 i u Hu) as (p & Hp & Hal & Hh). exists p. split; [done|]. split; [by apply Ha|]. rewrite Esd. cbn.
      destruct (shutting_down (tab s)) eqn:Hd; [|apply Hs, Hh]. rewrite Hel; [done|]. rewrite T2 by done. apply not_elem_of_nil.
    + rewrite Esd. done.
    + intros p _. destruct (decide (p ∈ live)) as [Hl|Hl]; [by apply Hs|]. rewrite Hel by done. by apply T6.
    + intros p. rewrite Eq. intros Hp. by apply Ha, T7.
  - intros Hd i u p Hu Hp. destruct (holder live fr s i u T Hd Hu) as (q & Hq & _ & [Hl _ _ _]). congruence.
Qed.

Lemma table_call_sound c s : well s → table_call_ok c s → ∃ s', do_table c s = Ok (tt, s') ∧ well s'.
Proof.
  intros W Hc. destruct c as [i fd|i fd|i j fd o|i|i|i j|i f| | |n f| |k]; cbn [do_table table_call_ok] in *.
  - destruct Hc as (Hs & Hi & Hd). destruct (open_user_call s i fd false W Hs Hi) as (e & s' & E & W'); [done|]. erewrite bind_ok by exact E. by exists s'.
  - destruct Hc as (Hs & Hi). destruct (open_user_call s i fd true W Hs Hi) as (e & s' & E & W'); [done|]. erewrite bind_ok by exact E. by exists s'.
  - destruct Hc. by apply internal_call.
  - by apply close_user_call.
  - by apply release_user_call.
  - by apply move_call.
  - destruct Hc. by apply use_call.
  - destruct (run_call s W Hc) as (b & s' & E & W'). erewrite bind_ok by exact E. by exists s'.
  - by apply take_call.
  - by apply perform_call.
  - destruct (table_shutdown_call s W) as (s' & _ & E & W' & _). by exists s'.
  - destruct Hc as [Hi Hs]. destruct W as (live & fr & T). eexists. split; [by apply on_table_ok|]. exists live, fr. by apply world_ok.
Qed.

(** ** The beginning *)

Lemma watch_own_ok t :
  ∃ k, watch_own t = Ok (tt, set_os k t) ∧ (∀ x, sole (os_ t) x → sole k x) ∧
    ∀ fd e p, interest k !! fd = Some (e, Descriptor p) ↔ interest (os_ t) !! fd = Some (e, Descriptor p).
Proof.
  assert (Hadd : ∀ fd0 ev tg k, (∀ p, tg ≠ Descriptor p) → (∀ x, sole k x → sole (ctl_add fd0 ev tg k).2 x) ∧
    ∀ fd e p, interest (ctl_add fd0 ev tg k).2 !! fd = Some (e, Descriptor p) ↔ interest k !! fd = Some (e, Descriptor p)).
  { intros fd0 ev tg k Htg. pose proof (add_law fd0 ev tg k) as L. destruct (ctl_add fd0 ev tg k) as [[u|n] k']; destruct L as [[L1 L2] L3]; (split; [done|]); intros fd e p; cbn; rewrite L2; [|done].
    rewrite lookup_insert_Some. split; [intros [[<- [= _ E]]|[_ ?]]; [by destruct (Htg p)|done]|]. intros Hx. right. split; [congruence|done]. }
  unfold watch_own. erewrite bind_ok by reflexivity. erewrite bind_ok by apply on_os_ok. erewrite bind_ok by reflexivity.
  destruct (Hadd (interrupter_ t) (Z.lor EPOLLIN (Z.lor EPOLLERR EPOLLET)) Interrupter (os_ t)) as [H1 H2]; [done|]. set (k1 := (ctl_add (interrupter_ t) _ _ _).2) in *.
  change (timer_fd_ (set_os k1 t)) with (timer_fd_ t). destruct (negb (timer_fd_ t =? -1)); cbn [when]; [|by exists k1].
  erewrite bind_ok by apply on_os_ok. destruct (Hadd (timer_fd_ t) (Z.lor EPOLLIN EPOLLERR) Timer k1) as [H3 H4]; [done|]. eexists. split; [reflexivity|].
  split; [auto|]. intros fd e p. by rewrite H4, H2.
Qed.

Lemma table_start_ok k : ∃ t, table_start (table_make k) = Ok (tt, t) ∧ well (mkUsers t ∅ []) ∧ shutting_down t = false.
Proof.
  unfold table_start. erewrite bind_ok by apply on_os_ok. erewrite bind_ok by reflexivity. erewrite bind_ok by apply on_os_ok. erewrite bind_ok by reflexivity.
  set (t := set_fds _ _ _). destruct (watch_own_ok t) as (k' & E & _ & Hi). eexists. split; [exact E|]. split; [|done]. exists [], []. split; cbn [tab socks taken].
  - apply pool_represents_make.
  - done.
  - intros i u Hu. by rewrite lookup_empty in Hu.
  - intros i j u v Hu. by rewrite lookup_empty in Hu.
  - intros _ fd e p Hx. apply Hi in Hx. unfold t in Hx. cbn in Hx. destruct (open_eventfd k) as [a k1] eqn:Ek. cbn in Hx.
    pose proof (timerfd_law (epoll_create k1)) as L. destruct (timerfd_create (epoll_create k1)) as [b k2]. cbn in Hx.
    destruct L as [L _], (create_law k1) as [L2 _]. rewrite L, L2, lookup_empty in Hx. done.
  - done.
  - intros p. cbn. intros [Hp|Hp]; by apply not_elem_of_nil in Hp.
Qed.

Lemma steps_well s s' : well s → rtc table_step s s' → well s'.
Proof.
  intros W Hs. induction Hs as [|s1 s2 s3 (c & Hc & E) _ IH]; [done|]. apply IH.
  destruct (table_call_sound c s1 W Hc) as (s' & E' & W'). rewrite E in E'. by injection E' as <-.
Qed.

(** ** Forks *)

Lemma register_again_ok l fuel t :
  NoDup l → (length l ≤ fuel)%nat → (∀ p, p ∈ l → ∃ n, objects (registered_descriptors_ t) !! p = Some n ∧ next_ n = after p l) →
  ∃ r k, register_again fuel (head l) t = Ok (r, set_os k t) ∧ (∀ x, sole (os_ t) x → sole k x) ∧ interest (os_ t) ⊆ interest k ∧
    (r = None → ∀ p, p ∈ l → interest k !! descriptor_ (states t p) = Some (registered_events_ (data_ (states t p)), Descriptor p)).
Proof.
  intros Hnd. revert fuel t. induction Hnd as [|p l Hp Hl IH]; intros fuel t Hf Hn.
  - exists None, (os_ t). split; [by destruct fuel, t|]. split; [done|]. split; [done|]. by intros _ p ?%not_elem_of_nil.
  - destruct fuel as [|fuel]; [cbn in Hf; lia|]. destruct (Hn p ltac:(by left)) as (n & En & Hnx). cbn in Hnx. rewrite decide_True in Hnx by done.
    cbn [head register_again]. erewrite bind_ok by (apply get_data_ok; by eexists). erewrite bind_ok by apply on_os_ok.
    pose proof (add_law (descriptor_ (states t p)) (registered_events_ (data_ (states t p))) (Descriptor p) (os_ t)) as L.
    destruct (ctl_add _ _ _ (os_ t)) as [[u|e] k1]; destruct L as [[L1 L2] L3]; cbn [fst snd].
    + erewrite bind_ok; [|unfold on_pool, get_object; cbn; rewrite En; reflexivity]. rewrite Hnx. set (t1 := set_descriptors _ _).
      assert (Et : t1 = set_os k1 t) by by destruct t. rewrite Et. clear t1 Et.
      destruct (IH fuel (set_os k1 t)) as (r & k & E & H1 & H2 & H3); [cbn in Hf; lia| |].
      * intros q Hq. destruct (Hn q ltac:(by right)) as (m & Em & Hm). exists m. split; [done|]. cbn in Hm. by rewrite decide_False in Hm by (by intros ->).
      * exists r, k. split; [exact E|]. split; [auto|]. cbn in H2. rewrite L2 in H2. split; [|intros Hr q [->|Hq]%elem_of_cons].
        -- etrans; [|exact H2]. by apply insert_subseteq.
        -- eapply lookup_weaken; [|exact H2]. apply lookup_insert_eq.
        -- by apply (H3 Hr).
    + exists (Some e), k1. split; [done|]. split; [done|]. split; [by rewrite L2|done].
Qed.

(** A child whose reactor does not throw watches the descriptors of all open sockets. *)
Lemma forked_child_watches s :
  well s → shutting_down (tab s) = false →
  ∃ r t', fork_child (tab s) = Ok (r, t') ∧
    (r = None → ∀ i u p, socks s !! i = Some u → s_data u = Some p → interest (os_ t') !! s_fd u = Some (registered_events_ (data_ (states (tab s) p)), Descriptor p)).
Proof.
  intros (live & fr & T) Hs. unfold fork_child. do 2 (erewrite bind_ok by reflexivity). set (w := when _ _).
  assert (Hw : ∀ t, ∃ k, w t = Ok (tt, set_os k t)) by (intros t; unfold w; destruct (negb _); cbn [when]; [by eexists|exists (os_ t); by destruct t]).
  destruct (Hw (set_os (epoll_create (os_ (tab s))) (tab s))) as (k1 & E1). erewrite bind_ok by exact E1. clear w Hw E1.
  erewrite bind_ok by apply on_os_ok. do 2 (erewrite bind_ok by reflexivity). erewrite bind_ok by apply on_os_ok. erewrite bind_ok by reflexivity.
  set (t := set_fds _ _ _). destruct (watch_own_ok t) as (k & E & _). erewrite bind_ok by exact E. erewrite bind_ok by reflexivity.
  set (t1 := set_os k t). pose proof (p_nodup _ _ _ (t_pool _ _ _ T)) as (Hnd & _ & _)%NoDup_app.
  assert (Er : registered_descriptors_ t1 = registered_descriptors_ (tab s)) by done. assert (Est : states t1 = states (tab s)) by done.
  erewrite bind_ok; [|unfold on_pool, first; cbn; reflexivity]. rewrite (p_live _ _ _ (t_pool _ _ _ T)).
  set (t2 := set_descriptors _ _). assert (E2 : t2 = t1) by done. rewrite E2. clear t2 E2.
  destruct (register_again_ok live (size (objects (registered_descriptors_ (tab s)))) t1 Hnd) as (r & k3 & E3 & _ & _ & H3).
  - apply length_le_size; [done|]. intros p Hp. apply (p_dom _ _ _ (t_pool _ _ _ T)), elem_of_app. by left.
  - intros p Hp. rewrite Er. destruct (represents_get live fr _ p (t_pool _ _ _ T) ltac:(apply elem_of_app; by left)) as (n & En & L & _). exists n. split; [done|]. by apply L.
  - exists r, (set_os k3 t1). split; [exact E3|]. intros Hr i u p Hu Hp. destruct (holder live fr s i u T Hs Hu) as (q & Hq & _ & [Hl Hf _ _]).
    assert (q = p) as -> by congruence. rewrite <- Hf. rewrite Est in H3. by apply (H3 Hr).
Qed.

(** ** What the reactor promises *)

Lemma opened_empty s i fd dup s' :
  well s → open_user i fd dup s = Ok (0, s') → ∃ p, socks s' !! i = Some (mkUser fd (Some p) dup false) ∧ empty_queues (data_ (states (tab s') p)).
Proof.
  intros (live & fr & T) E. destruct (table_register_ok live fr (tab s) fd (t_pool _ _ _ T)) as (err & p & t' & Er & [B _] & Eq). unfold open_user in E.
  erewrite bind_ok in E by (by apply on_table_ok). cbn beta iota in E. destruct (err =? 0) eqn:He; cbn [negb] in E.
  - injection E as <-. exists p. cbn. rewrite lookup_insert_eq. split; [done|]. pose proof (t_free _ _ _ T p (b_new _ _ _ _ _ _ B)) as Hf.
    unfold empty_queues, take_all in *. by rewrite Eq.
  - destruct (negb dup); cbn [when] in E; [erewrite bind_ok in E by (by apply on_table_ok)|]; injection E as E _; by rewrite E in He.
Qed.

(** C29: Whatever sockets and services are opened, moved and closed, whatever they do with their descriptors, and in whatever order
    events are reported, taken and performed: every call returns, without using memory that has been given back;
    two open descriptors never have the same state; an event of epoll is about a state that an open descriptor has, and
    that is registered for its file descriptor; one that is opened starts without operations, although states are used again; and
    in the end the reactor deletes all of them, each once. *)
Theorem reactor_table_safe k t0 s :
  table_start (table_make k) = Ok (tt, t0) → rtc table_step (mkUsers t0 ∅ []) s →
  (∀ c, table_call_ok c s → ∃ s', do_table c s = Ok (tt, s')) ∧
  (∀ i j u v p, socks s !! i = Some u → socks s !! j = Some v → s_data u = Some p → s_data v = Some p → i = j) ∧
  (shutting_down (tab s) = false → ∀ e p, (e, Descriptor p) ∈ (epoll_wait (os_ (tab s))).1 →
    ∃ i u, socks s !! i = Some u ∧ s_data u = Some p ∧ descriptor_ (states (tab s) p) = s_fd u ∧ shutdown_ (data_ (states (tab s) p)) = false) ∧
  (∀ i fd dup s', open_user i fd dup s = Ok (0, s') →
    ∃ p, socks s' !! i = Some (mkUser fd (Some p) dup false) ∧ empty_queues (data_ (states (tab s') p))) ∧
  ∃ pool, destroy_pool (registered_descriptors_ (tab s)) = Ok (tt, pool) ∧ objects pool = ∅.
Proof.
  intros E0 Hs. destruct (table_start_ok k) as (t & E & W0 & _). rewrite E0 in E. injection E as <-. pose proof (steps_well _ _ W0 Hs) as W.
  pose proof W as (live & fr & T). split_and!.
  - intros c Hc. destruct (table_call_sound c s W Hc) as (s' & E & _). by exists s'.
  - intros i j u v p Hu Hv Hp Hq. eapply (t_apart _ _ _ T); [done..|congruence].
  - intros Hd e p Hp. destruct (reported live fr s T Hd e p Hp) as (i & u & Hu & Hx). exists i, u.
    destruct (holder live fr s i u T Hd Hu) as (q & Hq & _ & [_ Hf Ho _]). assert (q = p) as -> by congruence. done.
  - intros i fd dup s' Eo. by eapply opened_empty.
  - apply (destroy_pool_ok live fr), T.
Qed.
End Users.

(** ** An epoll set *)

(** File descriptors from 1000 on are regular files here, of which epoll takes none. *)
Record epoll_set := mkEpoll { watched_fds : gmap Z (Z * target); next_fd : Z }.

Definition EEXIST : Z := 17.

Definition add_fd (fd e : Z) (tg : target) (k : epoll_set) : sys unit * epoll_set :=
  if 1000 <=? fd then (SysErr op_not_permitted, k)
  else match watched_fds k !! fd with
       | Some _ => (SysErr EEXIST, k)
       | None => (SysOk tt, mkEpoll (<[fd := (e, tg)]> (watched_fds k)) (next_fd k))
       end.

#[global] Instance epoll_set_calls : Epoll epoll_set := {
  epoll_create k := mkEpoll ∅ (next_fd k);
  open_eventfd k := (next_fd k, mkEpoll (watched_fds k) (next_fd k + 1));
  timerfd_create k := (next_fd k, mkEpoll (watched_fds k) (next_fd k + 1));
  ctl_add := add_fd;
  ctl_del fd k := mkEpoll (delete fd (watched_fds k)) (next_fd k);
  fd_close fd k := mkEpoll (delete fd (watched_fds k)) (next_fd k);
  epoll_wait k := ((map_to_list (watched_fds k)).*2, k)
}.

#[global] Instance epoll_set_laws : EpollLaws epoll_set.
Proof.
  refine {| interest := watched_fds; sole := λ _ _, True |}.
  - intros fd e tg k. cbn. unfold add_fd. destruct (1000 <=? fd); [done|]. by destruct (watched_fds k !! fd) eqn:E.
  - done.
  - intros fd k. cbn. split; [apply delete_subseteq|]. split; [|done]. intros _. apply lookup_delete_eq.
  - intros k. cbn. split; [done|]. split; [done|]. intros e tg ([fd [e' tg']] & [= -> ->] & Hx)%list_elem_of_fmap. exists fd, e'.
    by apply elem_of_map_to_list in Hx.
  - done.
  - done.
  - done.
Defined.

Definition epoll0 : epoll_set := mkEpoll ∅ 3.
Definition users0 : users epoll_set := mkUsers (match table_start (table_make epoll0) with Ok (_, t) => t | Fault _ => table_make epoll0 end) ∅ [].
Definition users_after (c : table_call (K := epoll_set)) (s : users epoll_set) : users epoll_set := match do_table c s with Ok (_, s) => s | Fault _ => s end.

(** Two sockets are opened, the first is closed, and a third one gets its state. *)
Definition sample_users : users epoll_set := users_after (TOpen 3 20) (users_after (TClose 1) (users_after (TOpen 2 11) (users_after (TOpen 1 10) users0))).

Lemma reactor_table_safe_witness :
  (∃ p u v, socks sample_users !! 2%nat = Some u ∧ socks sample_users !! 3%nat = Some v ∧ s_data u ≠ s_data v ∧ s_data v = Some p ∧ p = 0%nat) ∧
  (∀ c, table_call_ok c sample_users → ∃ s', do_table c sample_users = Ok (tt, s')) ∧
  ∃ pool, destroy_pool (registered_descriptors_ (tab sample_users)) = Ok (tt, pool) ∧ objects pool = ∅.
Proof.
  split; [by do 3 eexists; vm_compute|].
  destruct (reactor_table_safe epoll0 (tab users0) sample_users) as (H1 & _ & _ & _ & H5); [by vm_compute| |by split].
  eapply rtc_l; [exists (TOpen 1 10); split; [done|vm_compute; reflexivity]|].
  eapply rtc_l; [exists (TOpen 2 11); split; [done|vm_compute; reflexivity]|].
  eapply rtc_l; [exists (TClose 1); split; [done|vm_compute; reflexivity]|].
  eapply rtc_l; [exists (TOpen 3 20); split; [done|vm_compute; reflexivity]|]. vm_compute. apply rtc_refl.
Defined.

(** A child cannot watch again what epoll did not take in the parent: its reactor throws EPERM. *)
Example fork_with_file :
  match fork_child (tab (users_after (TOpen 1 10) (users_after (TOpen 2 1000) users0))) with
  | Ok (r, _) => r = Some op_not_permitted
  | Fault _ => False
  end.
Proof. by vm_compute. Qed.
