(* ===== verification/SignalSet.v ===== *)
(** * Signal sets (asio/detail/impl/signal_set_service.ipp)

    A registration of a signal is in two linked lists: that of its set, in the order of
    the signals, and that of its service for the signal.  A signal's handler writes the
    number into a pipe; a reactor that sees the pipe readable delivers it to the sets of
    all services.  The pointers are followed as the code does; the specification has, for every
    signal, the sets that it is registered with.  Every function is a critical section of the
    state's mutex. *)

From Stdlib Require Import ZArith Lia.
From stdpp Require Import base list gmap functions numbers.
From S2P Require Import Prelude.
From S2P Require Import Chain.

#[local] Open Scope Z_scope.

(** [NSIG] of Linux. *)
Definition max_signal_number : Z := 65.

Definition invalid_argument : Z := 22.
Definition operation_aborted : Z := 125.

(** A wait; [op_ec] is 0 if it has not been cancelled. *)
Record signal_op := mkSigOp { wait_id : nat; op_signal : Z; op_ec : Z }.

Definition new_wait (id : nat) : signal_op := mkSigOp id 0 0.
Definition set_signal (n : Z) (op : signal_op) : signal_op := mkSigOp (wait_id op) n (op_ec op).
Definition set_aborted (op : signal_op) : signal_op := mkSigOp (wait_id op) (op_signal op) operation_aborted.

(** [queue_] is the set whose queue it points to. *)
Record registration := mkReg {
  signal_number_ : Z;
  queue_ : nat;
  undelivered_ : Z;
  next_in_table_ : option nat;
  prev_in_table_ : option nat;
  next_in_set_ : option nat
}.

Record implementation_type := mkImpl { waits_ : list signal_op; signals_ : option nat }.

(** [posted] is in the scheduler's queue, [called] has completed; [reactor_data_] is whether
    the pipe is registered with the service's reactor; [locking] comes from the concurrency hint. *)
Record service := mkService {
  registrations_ : Z → option nat;
  next_ : option nat;
  prev_ : option nat;
  reactor_data_ : bool;
  locking : bool;
  posted : list signal_op;
  called : list signal_op;
  outstanding_work_ : Z
}.

(** [signal_state] with all registrations, sets and services by their address.
    [descriptors_] is whether the pipe is open, [pipe_] what is in it, and [handled]
    whether the system calls [asio_signal_handler] for a signal. *)
Record signal_state := mkSignals {
  heap : gmap nat registration;
  address : nat;
  impls : nat → implementation_type;
  services : gmap nat service;
  service_list_ : option nat;
  fork_prepared_ : bool;
  registration_count_ : Z → Z;
  descriptors_ : bool;
  pipe_ : list Z;
  handled : Z → bool
}.

Definition signal_state0 : signal_state :=
  mkSignals ∅ 0 (λ _, mkImpl [] None) ∅ None false (λ _, 0) false [] (λ _, false).

Definition set_heap (h : gmap nat registration) (st : signal_state) : signal_state :=
  mkSignals h (address st) (impls st) (services st) (service_list_ st) (fork_prepared_ st) (registration_count_ st) (descriptors_ st) (pipe_ st) (handled st).
Definition set_address (a : nat) (st : signal_state) : signal_state :=
  mkSignals (heap st) a (impls st) (services st) (service_list_ st) (fork_prepared_ st) (registration_count_ st) (descriptors_ st) (pipe_ st) (handled st).
Definition set_impl (i : nat) (im : implementation_type) (st : signal_state) : signal_state :=
  mkSignals (heap st) (address st) (<[i := im]> (impls st)) (services st) (service_list_ st) (fork_prepared_ st) (registration_count_ st) (descriptors_ st) (pipe_ st) (handled st).
Definition set_services (m : gmap nat service) (st : signal_state) : signal_state :=
  mkSignals (heap st) (address st) (impls st) m (service_list_ st) (fork_prepared_ st) (registration_count_ st) (descriptors_ st) (pipe_ st) (handled st).
Definition set_list (l : option nat) (st : signal_state) : signal_state :=
  mkSignals (heap st) (address st) (impls st) (services st) l (fork_prepared_ st) (registration_count_ st) (descriptors_ st) (pipe_ st) (handled st).
Definition set_fork (b : bool) (st : signal_state) : signal_state :=
  mkSignals (heap st) (address st) (impls st) (services st) (service_list_ st) b (registration_count_ st) (descriptors_ st) (pipe_ st) (handled st).
Definition set_count (n k : Z) (st : signal_state) : signal_state :=
  mkSignals (heap st) (address st) (impls st) (services st) (service_list_ st) (fork_prepared_ st) (<[n := k]> (registration_count_ st)) (descriptors_ st) (pipe_ st) (handled st).
Definition set_pipe (b : bool) (l : list Z) (st : signal_state) : signal_state :=
  mkSignals (heap st) (address st) (impls st) (services st) (service_list_ st) (fork_prepared_ st) (registration_count_ st) b l (handled st).
Definition set_handled (n : Z) (b : bool) (st : signal_state) : signal_state :=
  mkSignals (heap st) (address st) (impls st) (services st) (service_list_ st) (fork_prepared_ st) (registration_count_ st) (descriptors_ st) (pipe_ st) (<[n := b]> (handled st)).

Definition set_waits (l : list signal_op) (im : implementation_type) : implementation_type := mkImpl l (signals_ im).
Definition set_signals (p : option nat) (im : implementation_type) : implementation_type := mkImpl (waits_ im) p.

Definition with_undelivered (k : Z) (r : registration) : registration :=
  mkReg (signal_number_ r) (queue_ r) k (next_in_table_ r) (prev_in_table_ r) (next_in_set_ r).
Definition with_next_in_table (p : option nat) (r : registration) : registration :=
  mkReg (signal_number_ r) (queue_ r) (undelivered_ r) p (prev_in_table_ r) (next_in_set_ r).
Definition with_prev_in_table (p : option nat) (r : registration) : registration :=
  mkReg (signal_number_ r) (queue_ r) (undelivered_ r) (next_in_table_ r) p (next_in_set_ r).
Definition with_next_in_set (p : option nat) (r : registration) : registration :=
  mkReg (signal_number_ r) (queue_ r) (undelivered_ r) (next_in_table_ r) (prev_in_table_ r) p.

Definition with_registration (n : Z) (p : option nat) (s : service) : service :=
  mkService (<[n := p]> (registrations_ s)) (next_ s) (prev_ s) (reactor_data_ s) (locking s) (posted s) (called s) (outstanding_work_ s).
Definition with_next (p : option nat) (s : service) : service :=
  mkService (registrations_ s) p (prev_ s) (reactor_data_ s) (locking s) (posted s) (called s) (outstanding_work_ s).
Definition with_prev (p : option nat) (s : service) : service :=
  mkService (registrations_ s) (next_ s) p (reactor_data_ s) (locking s) (posted s) (called s) (outstanding_work_ s).
Definition with_reactor (b : bool) (s : service) : service :=
  mkService (registrations_ s) (next_ s) (prev_ s) b (locking s) (posted s) (called s) (outstanding_work_ s).
Definition with_posted (l : list signal_op) (s : service) : service :=
  mkService (registrations_ s) (next_ s) (prev_ s) (reactor_data_ s) (locking s) (posted s ++ l) (called s) (outstanding_work_ s).
Definition with_work (k : Z) (s : service) : service :=
  mkService (registrations_ s) (next_ s) (prev_ s) (reactor_data_ s) (locking s) (posted s) (called s) (outstanding_work_ s + k).

Abbreviation MS := (M signal_state).

(** ** Memory *)

Definition get_reg (p : nat) : MS registration := λ st,
  match heap st !! p with Some r => Ok (r, st) | None => Fault UseAfterFree end.
Definition on_reg (p : nat) (f : registration → registration) : MS unit := λ st,
  match heap st !! p with Some r => Ok (tt, set_heap (<[p := f r]> (heap st)) st) | None => Fault UseAfterFree end.
Definition on_reg' (p : option nat) (f : registration → registration) : MS unit :=
  match p with Some p => on_reg p f | None => mret tt end.
Definition get_service (s : nat) : MS service := λ st,
  match services st !! s with Some sv => Ok (sv, st) | None => Fault UseAfterFree end.
Definition on_service (s : nat) (f : service → service) : MS unit := λ st,
  match services st !! s with Some sv => Ok (tt, set_services (<[s := f sv]> (services st)) st) | None => Fault UseAfterFree end.
Definition on_service' (s : option nat) (f : service → service) : MS unit :=
  match s with Some s => on_service s f | None => mret tt end.
Definition on_impl (i : nat) (f : implementation_type → implementation_type) : MS unit :=
  modify (λ st, set_impl i (f (impls st i)) st).

Definition post_deferred_completions (s : nat) (ops : list signal_op) : MS unit := on_service s (with_posted ops).

(** The service that a set belongs to; the errno [sigaction] has for a signal, if it cannot be
    handled; and how many numbers the pipe holds. *)
Class Surroundings := {
  owner : nat → nat;
  sigaction_errno : Z → option Z;
  pipe_capacity : nat
}.

Section SignalSet.
Context `{W : Surroundings}.

Definition sigaction (n : Z) (handle : bool) : MS (option Z) :=
  match sigaction_errno n with
  | Some e => mret (Some e)
  | None => modify (set_handled n handle);; mret None
  end.

(** ** Sets *)

(** A pointer to a pointer of the list of a set. *)
Inductive place := AtSet (i : nat) | AtReg (p : nat).

Definition store (pl : place) (p : option nat) : MS unit :=
  match pl with
  | AtSet i => on_impl i (set_signals p)
  | AtReg q => on_reg q (with_next_in_set p)
  end.

(** A set has at most as many registrations as there are signals. *)
Fixpoint find_place (fuel : nat) (n : Z) (pl : place) (next : option nat) : MS (place * option nat) :=
  match next with
  | None => mret (pl, None)
  | Some p =>
      r ← get_reg p;
      if signal_number_ r <? n then
        match fuel with
        | O => raise OutOfFuel
        | S fuel => find_place fuel n (AtReg p) (next_in_set_ r)
        end
      else mret (pl, Some p)
  end.

Definition set_fuel : nat := Z.to_nat max_signal_number.

Definition in_range (n : Z) : bool := (0 <=? n) && (n <? max_signal_number).

Definition allocate : MS nat :=
  p ← gets address;
  modify (set_address (S p));;
  modify (λ st, set_heap (<[p := mkReg 0 0 0 None None None]> (heap st)) st);;
  mret p.

Definition free (p : nat) : MS unit := modify (λ st, set_heap (delete p (heap st)) st).

Definition found (next : option nat) (n : Z) : MS bool :=
  match next with
  | None => mret false
  | Some p => r ← get_reg p; mret (signal_number_ r =? n)
  end.

(** Into the set, the table and the count. *)
Definition link_registration (i : nat) (n : Z) (pl : place) (next : option nat) (p : nat) : MS unit :=
  on_reg p (λ _, mkReg n i 0 None None next);;
  store pl (Some p);;
  sv ← get_service (owner i);
  on_reg p (with_next_in_table (registrations_ sv n));;
  on_reg' (registrations_ sv n) (with_prev_in_table (Some p));;
  on_service (owner i) (with_registration n (Some p));;
  modify (λ st, set_count n (registration_count_ st n + 1) st).

Definition add (i : nat) (n : Z) : MS (option Z) :=
  if negb (in_range n) then mret (Some invalid_argument)
  else
    head ← gets (λ st, signals_ (impls st i));
    '(insertion_point, next) ← find_place set_fuel n (AtSet i) head;
    there ← found next n;
    if there : bool then mret None
    else
      new_registration ← allocate;
      count ← gets (λ st, registration_count_ st n);
      e ← (if count =? 0 then sigaction n true else mret None);
      match e with
      | Some e => free new_registration;; mret (Some e)
      | None => link_registration i n insertion_point next new_registration;; mret None
      end.

(** Out of the table and the count; [r] is what the registration has. *)
Definition unlink_registration (i : nat) (p : nat) (r : registration) : MS unit :=
  let n := signal_number_ r in
  sv ← get_service (owner i);
  when (bool_decide (registrations_ sv n = Some p)) (on_service (owner i) (with_registration n (next_in_table_ r)));;
  on_reg' (prev_in_table_ r) (with_next_in_table (next_in_table_ r));;
  on_reg' (next_in_table_ r) (with_prev_in_table (prev_in_table_ r));;
  modify (λ st, set_count n (registration_count_ st n - 1) st).

Definition default_if_last (n : Z) : MS (option Z) :=
  count ← gets (λ st, registration_count_ st n);
  if count =? 1 then sigaction n false else mret None.

Definition remove (i : nat) (n : Z) : MS (option Z) :=
  if negb (in_range n) then mret (Some invalid_argument)
  else
    head ← gets (λ st, signals_ (impls st i));
    '(deletion_point, reg) ← find_place set_fuel n (AtSet i) head;
    there ← found reg n;
    match reg with
    | Some p =>
        if there : bool then
          e ← default_if_last n;
          match e with
          | Some e => mret (Some e)
          | None =>
              r ← get_reg p;
              store deletion_point (next_in_set_ r);;
              unlink_registration i p r;;
              free p;;
              mret None
          end
        else mret None
    | None => mret None
    end.

(** Every turn frees one of at most [max_signal_number] registrations. *)
Fixpoint clear_loop (fuel : nat) (i : nat) : MS (option Z) :=
  reg ← gets (λ st, signals_ (impls st i));
  match reg with
  | None => mret None
  | Some p =>
      match fuel with
      | O => raise OutOfFuel
      | S fuel =>
          r ← get_reg p;
          e ← default_if_last (signal_number_ r);
          match e with
          | Some e => mret (Some e)
          | None =>
              unlink_registration i p r;;
              on_impl i (set_signals (next_in_set_ r));;
              free p;;
              clear_loop fuel i
          end
      end
  end.

Definition clear (i : nat) : MS (option Z) := clear_loop set_fuel i.

Definition cancel (i : nat) : MS unit :=
  ops ← gets (λ st, waits_ (impls st i));
  on_impl i (set_waits []);;
  post_deferred_completions (owner i) (map set_aborted ops).

Definition construct (i : nat) : MS unit := on_impl i (set_signals None).
Definition destroy (i : nat) : MS unit := clear i;; cancel i.

(** The registration of the lowest signal that has not been delivered. *)
Fixpoint undelivered_loop (fuel : nat) (reg : option nat) (op : signal_op) : MS (option signal_op) :=
  match reg with
  | None => mret None
  | Some p =>
      match fuel with
      | O => raise OutOfFuel
      | S fuel =>
          r ← get_reg p;
          if 0 <? undelivered_ r then
            on_reg p (with_undelivered (undelivered_ r - 1));;
            mret (Some (set_signal (signal_number_ r) op))
          else undelivered_loop fuel (next_in_set_ r) op
      end
  end.

Definition start_wait_op (i : nat) (op : signal_op) : MS unit :=
  on_service (owner i) (with_work 1);;
  reg ← gets (λ st, signals_ (impls st i));
  done ← undelivered_loop (S set_fuel) reg op;
  match done with
  | Some op => post_deferred_completions (owner i) [op]
  | None => on_impl i (λ im, set_waits (waits_ im ++ [op]) im)
  end.

(** ** Signals *)

(** [asio_signal_handler], as the system calls it; a write to a full or closed pipe is lost. *)
Definition asio_signal_handler (n : Z) : MS unit :=
  modify (λ st, if descriptors_ st && (length (pipe_ st) <? pipe_capacity)%nat then set_pipe true (pipe_ st ++ [n]) st else st).

(** A signal comes; [false] if the system takes its default action. *)
Definition signalled (n : Z) : MS bool :=
  h ← gets (λ st, handled st n);
  when h (asio_signal_handler n);;
  mret h.

(** The registrations of a service for a signal: each takes all the waits of its set. *)
Fixpoint deliver_loop (fuel : nat) (n : Z) (reg : option nat) (ops : list signal_op) : MS (list signal_op) :=
  match reg with
  | None => mret ops
  | Some p =>
      match fuel with
      | O => raise OutOfFuel
      | S fuel =>
          r ← get_reg p;
          waiting ← gets (λ st, waits_ (impls st (queue_ r)));
          match waiting with
          | [] => on_reg p (with_undelivered (undelivered_ r + 1))
          | _ => on_impl (queue_ r) (set_waits [])
          end;;
          r ← get_reg p;
          deliver_loop fuel n (next_in_table_ r) (ops ++ map (set_signal n) waiting)
      end
  end.

(** Bounded by the registrations and the services there are. *)
Fixpoint services_loop (fuel : nat) (n : Z) (s : option nat) : MS unit :=
  match s with
  | None => mret tt
  | Some s =>
      match fuel with
      | O => raise OutOfFuel
      | S fuel =>
          sv ← get_service s;
          regs ← gets (λ st, size (heap st));
          ops ← deliver_loop regs n (registrations_ sv n) [];
          post_deferred_completions s ops;;
          sv ← get_service s;
          services_loop fuel n (next_ sv)
      end
  end.

Definition deliver_signal (n : Z) : MS unit :=
  s ← gets service_list_;
  fuel ← gets (λ st, size (services st));
  services_loop fuel n s.

(** [pipe_read_op::do_perform]; every turn reads a number. *)
Fixpoint read_loop (fuel : nat) : MS unit :=
  l ← gets pipe_;
  match fuel, l with
  | S fuel, n :: rest =>
      modify (λ st, set_pipe (descriptors_ st) rest st);;
      when (in_range n) (deliver_signal n);;
      read_loop fuel
  | _, _ => mret tt
  end.

Definition pipe_read : MS unit :=
  fuel ← gets (λ st, length (pipe_ st));
  read_loop fuel.

(** ** Services *)

Definition open_descriptors : MS unit := modify (set_pipe true []).
Definition close_descriptors : MS unit := modify (set_pipe false []).

(** The exceptions of [add_service]. *)
Inductive failure := pipe_failed | thread_unsafe.

(** [pipe_ok] is whether the system has descriptors left. *)
Definition add_service (s : nat) (pipe_ok : bool) : MS (option failure) :=
  l ← gets service_list_;
  if bool_decide (l = None) && negb pipe_ok then mret (Some pipe_failed)
  else
    when (bool_decide (l = None)) open_descriptors;;
    sv ← get_service s;
    locks ← match l with
            | None => mret true
            | Some f => fv ← get_service f; mret (locking sv && locking fv)
            end;
    if negb locks then mret (Some thread_unsafe)
    else
      on_service s (with_next l);;
      on_service s (with_prev None);;
      on_service' l (with_prev (Some s));;
      modify (set_list (Some s));;
      on_service s (with_reactor true);;
      mret None.

Definition make_service (locks : bool) : service := mkService (λ _, None) None None false locks [] [] 0.

(** The constructor, at the address [s]. *)
Definition create_service (s : nat) (locks pipe_ok : bool) : MS (option failure) :=
  modify (λ st, set_services (<[s := make_service locks]> (services st)) st);;
  add_service s pipe_ok.

Definition remove_service (s : nat) : MS unit :=
  sv ← get_service s;
  l ← gets service_list_;
  if bool_decide (next_ sv ≠ None) || bool_decide (prev_ sv ≠ None) || bool_decide (l = Some s) then
    on_service s (with_reactor false);;
    when (bool_decide (l = Some s)) (modify (set_list (next_ sv)));;
    on_service' (prev_ sv) (with_next (next_ sv));;
    on_service' (next_ sv) (with_prev (prev_ sv));;
    on_service s (with_next None);;
    on_service s (with_prev None);;
    l ← gets service_list_;
    when (bool_decide (l = None)) close_descriptors
  else mret tt.

(** The destructor; the memory of the service is freed after it. *)
Definition destroy_service (s : nat) : MS unit :=
  remove_service s;;
  modify (λ st, set_services (delete s (services st)) st).

Fixpoint abandon_loop (fuel : nat) (reg : option nat) : MS unit :=
  match reg with
  | None => mret tt
  | Some p =>
      match fuel with
      | O => raise OutOfFuel
      | S fuel => r ← get_reg p; on_impl (queue_ r) (set_waits []);; abandon_loop fuel (next_in_table_ r)
      end
  end.

Fixpoint abandon_table (s : nat) (ns : list Z) : MS unit :=
  match ns with
  | [] => mret tt
  | n :: ns =>
      sv ← get_service s;
      regs ← gets (λ st, size (heap st));
      abandon_loop regs (registrations_ sv n);;
      abandon_table s ns
  end.

(** The waits of the sets that have signals are destroyed. *)
Definition shutdown (s : nat) : MS unit :=
  remove_service s;;
  abandon_table s (seqZ 0 max_signal_number).

Inductive fork_event := fork_prepare | fork_parent | fork_child.

Definition notify_fork (s : nat) (ev : fork_event) : MS unit :=
  prepared ← gets fork_prepared_;
  match ev with
  | fork_prepare => modify (set_fork true);; on_service s (with_reactor false)
  | fork_parent => when prepared (modify (set_fork false);; on_service s (with_reactor true))
  | fork_child =>
      when prepared
        (close_descriptors;; open_descriptors;; modify (set_fork false);; on_service s (with_reactor true))
  end.

(** The scheduler of [s] runs a completion. *)
Definition run_posted (s : nat) : MS (option signal_op) :=
  sv ← get_service s;
  match posted sv with
  | [] => mret None
  | op :: rest =>
      on_service s (λ sv, mkService (registrations_ sv) (next_ sv) (prev_ sv) (reactor_data_ sv) (locking sv) rest (called sv ++ [op]) (outstanding_work_ sv - 1));;
      mret (Some op)
  end.

End SignalSet.
