(* ===== verification/SignalSpec.v ===== *)
(** * What signal sets promise (asio/detail/impl/signal_set_service.ipp)

    The specification of the signal sets, without pointers: for every signal the sets
    that have it, the latest first.  The linked lists of [SignalSet] implement it. *)

From Stdlib Require Import ZArith Lia.
From stdpp Require Import base gmap functions numbers list.
From S2P Require Import Prelude.
From S2P Require Import Chain.
From S2P Require Import SignalSet.

#[local] Open Scope Z_scope.

#[global] Instance place_eq_dec : EqDecision place.
Proof. solve_decision. Defined.

Definition member_lists := Z → list nat.

(** [pending] has the signals that came while a set had no wait, [waiting] the waits of a
    set; [live] are the services in the list. *)
Record sigspec := mkSpec {
  members : member_lists;
  pending : nat → Z → Z;
  waiting : nat → list signal_op;
  live : list nat;
  in_pipe : list Z;
  forking : bool;
  known : gset nat;
  locks : nat → bool;
  watching : nat → bool;
  out : nat → list signal_op;
  ended : nat → list signal_op;
  work : nat → Z
}.

Definition sigspec0 : sigspec :=
  mkSpec (λ _, []) (λ _ _, 0) (λ _, []) [] [] false ∅ (λ _, true) (λ _, false) (λ _, []) (λ _, []) (λ _, 0).

Definition sp_members (m : member_lists) (sp : sigspec) : sigspec :=
  mkSpec m (pending sp) (waiting sp) (live sp) (in_pipe sp) (forking sp) (known sp) (locks sp) (watching sp) (out sp) (ended sp) (work sp).
Definition sp_pending (i : nat) (n k : Z) (sp : sigspec) : sigspec :=
  mkSpec (members sp) (<[i := <[n := k]> (pending sp i)]> (pending sp)) (waiting sp) (live sp) (in_pipe sp) (forking sp) (known sp) (locks sp) (watching sp) (out sp) (ended sp) (work sp).
Definition sp_waiting (i : nat) (l : list signal_op) (sp : sigspec) : sigspec :=
  mkSpec (members sp) (pending sp) (<[i := l]> (waiting sp)) (live sp) (in_pipe sp) (forking sp) (known sp) (locks sp) (watching sp) (out sp) (ended sp) (work sp).
Definition sp_live (l : list nat) (sp : sigspec) : sigspec :=
  mkSpec (members sp) (pending sp) (waiting sp) l (in_pipe sp) (forking sp) (known sp) (locks sp) (watching sp) (out sp) (ended sp) (work sp).
Definition sp_pipe (l : list Z) (sp : sigspec) : sigspec :=
  mkSpec (members sp) (pending sp) (waiting sp) (live sp) l (forking sp) (known sp) (locks sp) (watching sp) (out sp) (ended sp) (work sp).
Definition sp_forking (b : bool) (sp : sigspec) : sigspec :=
  mkSpec (members sp) (pending sp) (waiting sp) (live sp) (in_pipe sp) b (known sp) (locks sp) (watching sp) (out sp) (ended sp) (work sp).
Definition sp_known (s : nat) (b : bool) (sp : sigspec) : sigspec :=
  mkSpec (members sp) (pending sp) (waiting sp) (live sp) (in_pipe sp) (forking sp) ({[s]} ∪ known sp) (<[s := b]> (locks sp)) (<[s := false]> (watching sp)) (<[s := []]> (out sp)) (<[s := []]> (ended sp)) (<[s := 0]> (work sp)).
Definition sp_gone (s : nat) (sp : sigspec) : sigspec :=
  mkSpec (members sp) (pending sp) (waiting sp) (live sp) (in_pipe sp) (forking sp) (known sp ∖ {[s]}) (locks sp) (watching sp) (out sp) (ended sp) (work sp).
Definition sp_watching (s : nat) (b : bool) (sp : sigspec) : sigspec :=
  mkSpec (members sp) (pending sp) (waiting sp) (live sp) (in_pipe sp) (forking sp) (known sp) (locks sp) (<[s := b]> (watching sp)) (out sp) (ended sp) (work sp).
Definition sp_out (s : nat) (l : list signal_op) (sp : sigspec) : sigspec :=
  mkSpec (members sp) (pending sp) (waiting sp) (live sp) (in_pipe sp) (forking sp) (known sp) (locks sp) (watching sp) (<[s := out sp s ++ l]> (out sp)) (ended sp) (work sp).
Definition sp_work (s : nat) (k : Z) (sp : sigspec) : sigspec :=
  mkSpec (members sp) (pending sp) (waiting sp) (live sp) (in_pipe sp) (forking sp) (known sp) (locks sp) (watching sp) (out sp) (ended sp) (<[s := work sp s + k]> (work sp)).
Definition sp_ended (s : nat) (op : signal_op) (rest : list signal_op) (sp : sigspec) : sigspec :=
  mkSpec (members sp) (pending sp) (waiting sp) (live sp) (in_pipe sp) (forking sp) (known sp) (locks sp) (watching sp) (<[s := rest]> (out sp)) (<[s := ended sp s ++ [op]]> (ended sp)) (work sp).

(** The signals of a set, from the lowest. *)
Definition signals_of (m : member_lists) (i : nat) : list Z :=
  List.filter (λ n, bool_decide (i ∈ m n)) (seqZ 0 max_signal_number).

Section Spec.
Context `{W : Surroundings}.

(** The sets of a service that have the signal. *)
Definition table (m : member_lists) (s : nat) (n : Z) : list nat := List.filter (λ i, owner i =? s)%nat (m n).

(** ** The operations *)

Definition spec_add (i : nat) (n : Z) (sp : sigspec) : option Z * sigspec :=
  if negb (in_range n) then (Some invalid_argument, sp)
  else if decide (i ∈ members sp n) then (None, sp)
  else
    match (if decide (members sp n = []) then sigaction_errno n else None) with
    | Some e => (Some e, sp)
    | None => (None, sp_pending i n 0 (sp_members (<[n := i :: members sp n]> (members sp)) sp))
    end.

Definition spec_remove (i : nat) (n : Z) (sp : sigspec) : option Z * sigspec :=
  if negb (in_range n) then (Some invalid_argument, sp)
  else (None, sp_members (<[n := without i (members sp n)]> (members sp)) sp).

Definition spec_clear (i : nat) (sp : sigspec) : sigspec := sp_members (λ n, without i (members sp n)) sp.

Definition spec_cancel (i : nat) (sp : sigspec) : sigspec :=
  sp_out (owner i) (map set_aborted (waiting sp i)) (sp_waiting i [] sp).

Definition spec_destroy (i : nat) (sp : sigspec) : sigspec := spec_cancel i (spec_clear i sp).

Definition first_pending (i : nat) (sp : sigspec) : option Z := List.find (λ n, 0 <? pending sp i n) (signals_of (members sp) i).

Definition spec_wait (i : nat) (op : signal_op) (sp : sigspec) : sigspec :=
  let sp := sp_work (owner i) 1 sp in
  match first_pending i sp with
  | Some n => sp_out (owner i) [set_signal n op] (sp_pending i n (pending sp i n - 1) sp)
  | None => sp_waiting i (waiting sp i ++ [op]) sp
  end.

(** A set gets a signal: all its waits end with it, or it is kept for the next. *)
Definition touch (n : Z) (i : nat) (sp : sigspec) : sigspec :=
  match waiting sp i with
  | [] => sp_pending i n (pending sp i n + 1) sp
  | _ => sp_waiting i [] sp
  end.

Fixpoint touch_all (n : Z) (l : list nat) (sp : sigspec) : list signal_op * sigspec :=
  match l with
  | [] => ([], sp)
  | i :: l => let r := touch_all n l (touch n i sp) in (map (set_signal n) (waiting sp i) ++ r.1, r.2)
  end.

Definition deliver_to (n : Z) (s : nat) (sp : sigspec) : sigspec :=
  let r := touch_all n (table (members sp) s n) sp in sp_out s r.1 r.2.

Definition spec_deliver (n : Z) (sp : sigspec) : sigspec := foldl (λ sp s, deliver_to n s sp) sp (live sp).

Definition spec_signalled (n : Z) (sp : sigspec) : bool * sigspec :=
  if decide (members sp n = []) then (false, sp)
  else (true, if negb (bool_decide (live sp = [])) && (length (in_pipe sp) <? pipe_capacity)%nat then sp_pipe (in_pipe sp ++ [n]) sp else sp).

Fixpoint spec_read (l : list Z) (sp : sigspec) : sigspec :=
  match l with
  | [] => sp
  | n :: l => let sp := sp_pipe l sp in spec_read l (if in_range n then spec_deliver n sp else sp)
  end.

Definition spec_add_service (s : nat) (pipe_ok : bool) (sp : sigspec) : option failure * sigspec :=
  match live sp with
  | [] => if pipe_ok then (None, sp_watching s true (sp_live [s] (sp_pipe [] sp))) else (Some pipe_failed, sp)
  | f :: _ => if locks sp s && locks sp f then (None, sp_watching s true (sp_live (s :: live sp) sp)) else (Some thread_unsafe, sp)
  end.

Definition spec_create (s : nat) (b pipe_ok : bool) (sp : sigspec) : option failure * sigspec := spec_add_service s pipe_ok (sp_known s b sp).

Definition spec_remove_service (s : nat) (sp : sigspec) : sigspec :=
  if decide (s ∈ live sp) then
    let sp := sp_live (without s (live sp)) (sp_watching s false sp) in
    if decide (live sp = []) then sp_pipe [] sp else sp
  else sp.

(** The destructor, after which there is no service [s] any more. *)
Definition spec_unload (s : nat) (sp : sigspec) : sigspec := sp_gone s (spec_remove_service s sp).

(** No set of [s] has a signal. *)
Definition bare (s : nat) (sp : sigspec) : Prop := Forall (λ n, table (members sp) s n = []) (seqZ 0 max_signal_number).

(** The waits of the sets of [s] that have a signal are gone. *)
Definition spec_shutdown (s : nat) (sp : sigspec) : sigspec :=
  foldl (λ sp n, foldl (λ sp i, sp_waiting i [] sp) sp (table (members sp) s n)) (spec_remove_service s sp) (seqZ 0 max_signal_number).

Definition spec_fork (s : nat) (ev : fork_event) (sp : sigspec) : sigspec :=
  match ev with
  | fork_prepare => sp_watching s false (sp_forking true sp)
  | fork_parent => if forking sp then sp_watching s true (sp_forking false sp) else sp
  | fork_child => if forking sp then sp_watching s true (sp_forking false (sp_pipe [] sp)) else sp
  end.

Definition spec_run (s : nat) (sp : sigspec) : option signal_op * sigspec :=
  match out sp s with
  | [] => (None, sp)
  | op :: rest => (Some op, sp_work s (-1) (sp_ended s op rest sp))
  end.

(** ** The linked lists represent it *)

(** What the registration of [i] for [n] has, if [node] says where registrations are. *)
Definition reg_of (node : nat → Z → nat) (m : member_lists) (pend : nat → Z → Z) (i : nat) (n : Z) : registration :=
  mkReg n i (pend i n) ((λ j, node j n) <$> after i (table m (owner i) n)) ((λ j, node j n) <$> before i (table m (owner i) n))
    (node i <$> after n (signals_of m i)).

(** The registrations of [m], the table of its services, and the heads of its sets. *)
Record registered (node : nat → Z → nat) (m : member_lists) (pend : nat → Z → Z) (st : signal_state) : Prop := {
  h_nodup : ∀ n, NoDup (m n);
  h_range : ∀ i n, i ∈ m n → 0 ≤ n < max_signal_number;
  h_node : ∀ i n, i ∈ m n → heap st !! node i n = Some (reg_of node m pend i n);
  h_only : ∀ p r, heap st !! p = Some r → ∃ i n, i ∈ m n ∧ p = node i n;
  h_address : ∀ p, is_Some (heap st !! p) → (p < address st)%nat;
  h_set : ∀ i, signals_ (impls st i) = node i <$> head (signals_of m i);
  h_table : ∀ s sv n, services st !! s = Some sv → registrations_ sv n = (λ j, node j n) <$> head (table m s n);
  h_owned : ∀ i n, i ∈ m n → is_Some (services st !! owner i);
  h_count : ∀ n, registration_count_ st n = zlen (m n);
  h_handled : ∀ n, handled st n = bool_decide (m n ≠ []);
  h_sigaction : ∀ n, m n ≠ [] → sigaction_errno n = None
}.

(** What the specification says of a service. *)
Record service_as (sp : sigspec) (s : nat) (sv : service) : Prop := {
  v_next : next_ sv = after s (live sp);
  v_prev : prev_ sv = before s (live sp);
  v_reactor : reactor_data_ sv = watching sp s;
  v_locking : locking sv = locks sp s;
  v_posted : posted sv = out sp s;
  v_called : called sv = ended sp s;
  v_work : outstanding_work_ sv = work sp s
}.

Record represents_with (node : nat → Z → nat) (sp : sigspec) (st : signal_state) : Prop := {
  r_registered : registered node (members sp) (pending sp) st;
  r_waits : ∀ i, waits_ (impls st i) = waiting sp i;
  r_services : ∀ s sv, services st !! s = Some sv → service_as sp s sv;
  r_known : ∀ s, s ∈ known sp ↔ is_Some (services st !! s);
  r_live : NoDup (live sp) ∧ ∀ s, s ∈ live sp → s ∈ known sp;
  r_list : service_list_ st = head (live sp);
  r_fork : fork_prepared_ st = forking sp;
  r_open : descriptors_ st = negb (bool_decide (live sp = []));
  r_pipe : pipe_ st = in_pipe sp
}.

Definition represents (sp : sigspec) (st : signal_state) : Prop := ∃ node, represents_with node sp st.

(** ** Lists of signals and of sets *)

Implicit Types (m : member_lists) (i s : nat) (n k : Z).

Lemma in_range_spec n : in_range n = true ↔ 0 ≤ n < max_signal_number.
Proof. unfold in_range. rewrite andb_true_iff, Z.leb_le, Z.ltb_lt. done. Qed.

Lemma NoDup_bool_filter {A} (f : A → bool) (l : list A) : NoDup l → NoDup (List.filter f l).
Proof.
  induction 1 as [|x l Hx Hl IH]; cbn; [constructor|]. destruct (f x); [|done]. constructor; [|done].
  rewrite list_elem_of_In, List.filter_In, <- list_elem_of_In. tauto.
Qed.

Lemma bool_filter_ext {A} (f g : A → bool) (l : list A) : (∀ x, x ∈ l → f x = g x) → List.filter f l = List.filter g l.
Proof.
  induction l as [|x l IH]; intros H; [done|]. cbn. rewrite (H x), IH; [done| |by left]. intros y Hy. apply H. by right.
Qed.

Lemma without_filter `{EqDecision A} (f : A → bool) (l : list A) x : without x (List.filter f l) = List.filter f (without x l).
Proof. induction l as [|y l IH]; [done|]. cbn. destruct (f y) eqn:Ef, (decide (y = x)) eqn:Ey; cbn; rewrite ?Ef, ?Ey, IH; done. Qed.

Lemma elem_of_signals m i n : n ∈ signals_of m i ↔ 0 ≤ n < max_signal_number ∧ i ∈ m n.
Proof. unfold signals_of. rewrite list_elem_of_In, List.filter_In, <- list_elem_of_In, elem_of_seqZ, bool_decide_eq_true. intuition lia. Qed.

Lemma NoDup_signals m i : NoDup (signals_of m i).
Proof. apply NoDup_bool_filter, NoDup_seqZ. Qed.

Lemma length_signals m i : (length (signals_of m i) ≤ set_fuel)%nat.
Proof. unfold signals_of, set_fuel. etrans; [apply List.filter_length_le|]. by rewrite length_seqZ. Qed.

(** Around the place of [n] in the list of a set. *)
Lemma signals_split m i n : 0 ≤ n < max_signal_number →
  ∃ l1 l2, Forall (λ k, k < n) l1 ∧ Forall (λ k, n < k) l2 ∧
    ∀ m', (∀ k, k ≠ n → i ∈ m' k ↔ i ∈ m k) → signals_of m' i = l1 ++ (if decide (i ∈ m' n) then [n] else []) ++ l2.
Proof.
  intros Hn. set (P := λ k, bool_decide (i ∈ m k)).
  exists (List.filter P (seqZ 0 n)), (List.filter P (seqZ (n + 1) (max_signal_number - n - 1))). split_and!.
  - apply Forall_forall. intros k Hk. apply list_elem_of_In, List.filter_In in Hk as [Hk _]. apply list_elem_of_In, elem_of_seqZ in Hk. lia.
  - apply Forall_forall. intros k Hk. apply list_elem_of_In, List.filter_In in Hk as [Hk _]. apply list_elem_of_In, elem_of_seqZ in Hk. lia.
  - intros m' Hm. unfold signals_of. replace max_signal_number with (n + (max_signal_number - n)) at 1 by lia.
    rewrite seqZ_app by lia. rewrite List.filter_app, (seqZ_cons (0 + n)) by lia. replace (Z.succ (0 + n)) with (n + 1) by lia.
    replace (Z.pred (max_signal_number - n)) with (max_signal_number - n - 1) by lia. cbn [List.filter]. f_equal; [|].
    + apply bool_filter_ext. intros k Hk%elem_of_seqZ. unfold P. apply bool_decide_ext, Hm. lia.
    + rewrite Z.add_0_l. rewrite (bool_filter_ext (λ k, bool_decide (i ∈ m' k)) P).
      * case_decide; [by rewrite bool_decide_eq_true_2|by rewrite bool_decide_eq_false_2].
      * intros k Hk%elem_of_seqZ. unfold P. apply bool_decide_ext, Hm. lia.
Qed.

Lemma signals_ext m m' i : (∀ n, i ∈ m' n ↔ i ∈ m n) → signals_of m' i = signals_of m i.
Proof. intros H. apply bool_filter_ext. intros n _. apply bool_decide_ext, H. Qed.

(** Without [n] the list is [signals_of m]. *)
Lemma signals_without m m' i n : (∀ k, k ≠ n → i ∈ m' k ↔ i ∈ m k) → i ∉ m n → without n (signals_of m' i) = signals_of m i.
Proof.
  intros Hm Hi. unfold signals_of. rewrite without_filter. induction (seqZ 0 max_signal_number) as [|k l IH]; [done|]. cbn.
  case_decide as Hk.
  - subst. rewrite bool_decide_eq_false_2 by done. exact IH.
  - cbn. rewrite IH. rewrite (bool_decide_ext (i ∈ m' k) (i ∈ m k)); [done|by apply Hm].
Qed.

Lemma elem_of_table m s n i : i ∈ table m s n ↔ owner i = s ∧ i ∈ m n.
Proof. unfold table. rewrite list_elem_of_In, List.filter_In, <- list_elem_of_In, Nat.eqb_eq. tauto. Qed.

Lemma NoDup_table m s n : NoDup (m n) → NoDup (table m s n).
Proof. apply NoDup_bool_filter. Qed.

Lemma table_ext m m' s n : m' n = m n → table m' s n = table m s n.
Proof. unfold table. by intros ->. Qed.

(** ** Following the pointers *)

Implicit Types (st : signal_state) (sp : sigspec) (node : nat → Z → nat) (pend : nat → Z → Z).

Definition alter' {A} (f : A → A) (p : option nat) (h : gmap nat A) : gmap nat A :=
  match p with Some p => alter f p h | None => h end.

Lemma lookup_alter' {A} (f : A → A) p h q : alter' f p h !! q = (if decide (p = Some q) then f else id) <$> h !! q.
Proof.
  destruct p as [p|]; cbn; [|by rewrite decide_False, option_fmap_id].
  destruct (decide (p = q)) as [->|Hp]; [by rewrite lookup_alter_eq, decide_True|].
  rewrite lookup_alter_ne by done. rewrite decide_False, option_fmap_id by congruence. done.
Qed.

Lemma alter_some {A} (f : A → A) p (h : gmap nat A) r : h !! p = Some r → alter f p h = <[p := f r]> h.
Proof.
  intros Hp. apply map_eq. intros q. destruct (decide (p = q)) as [<-|Hq].
  - by rewrite lookup_alter_eq, lookup_insert_eq, Hp.
  - by rewrite lookup_alter_ne, lookup_insert_ne.
Qed.

Lemma on_reg_ok f p st : is_Some (heap st !! p) → on_reg p f st = Ok (tt, set_heap (alter' f (Some p) (heap st)) st).
Proof. intros [r Hr]. unfold on_reg. rewrite Hr. cbn. by rewrite (alter_some f p _ r). Qed.

Lemma on_reg'_ok f p st : (∀ q, p = Some q → is_Some (heap st !! q)) → on_reg' p f st = Ok (tt, set_heap (alter' f p (heap st)) st).
Proof.
  destruct p as [p|]; intros H; [by apply on_reg_ok, H|]. cbn. unfold mret, M_ret. by destruct st.
Qed.

Lemma on_service_there f s st sv : services st !! s = Some sv → on_service s f st = Ok (tt, set_services (<[s := f sv]> (services st)) st).
Proof. intros E. unfold on_service. by rewrite E. Qed.

Lemma get_reg_ok p st r : heap st !! p = Some r → get_reg p st = Ok (r, st).
Proof. intros E. unfold get_reg. by rewrite E. Qed.

Lemma get_service_ok s st sv : services st !! s = Some sv → get_service s st = Ok (sv, st).
Proof. intros E. unfold get_service. by rewrite E. Qed.

Section Registered.
Context (node : nat → Z → nat) (m : member_lists) (pend : nat → Z → Z) (st : signal_state) (R : registered node m pend st).

Lemma node_inj i n j k : i ∈ m n → j ∈ m k → node i n = node j k → i = j ∧ n = k.
Proof. intros Hi Hj E. pose proof (h_node _ _ _ _ R i n Hi) as H1. rewrite E, (h_node _ _ _ _ R j k Hj) in H1. by injection H1. Qed.

(** The pointer that points to the registration after those of [l]. *)
Definition place_of i (l : list Z) : place := match last l with Some n => AtReg (node i n) | None => AtSet i end.

Lemma signal_in_list i l1 n l2 : signals_of m i = l1 ++ n :: l2 → i ∈ m n ∧ after n (signals_of m i) = head l2 ∧ before n (signals_of m i) = last l1.
Proof.
  intros E. pose proof (NoDup_signals m i) as Hnd. rewrite E in *. split_and!.
  - assert (Hn : n ∈ signals_of m i) by (rewrite E; apply elem_of_app; right; by left). by apply elem_of_signals in Hn as [_ ?].
  - apply after_here. apply NoDup_app in Hnd as (_ & H & _). intros Hn. apply (H n Hn). by left.
  - by apply before_here.
Qed.

Lemma find_place_loop fuel n i done l1 l2 :
  (length l1 ≤ fuel)%nat → signals_of m i = done ++ l1 ++ l2 → Forall (λ k, k < n) l1 → (∀ k, head l2 = Some k → n ≤ k) →
  find_place fuel n (place_of i done) (node i <$> head (l1 ++ l2)) st = Ok ((place_of i (done ++ l1), node i <$> head l2), st).
Proof.
  revert fuel done. induction l1 as [|k l1 IH]; intros fuel done Hf E H1 H2.
  - rewrite app_nil_r. cbn [app]. destruct l2 as [|k l2]; [by destruct fuel|].
    destruct (signal_in_list i done k l2 E) as (Hk & _). assert (Hn : n ≤ k) by by apply H2.
    cbn [fmap option_fmap option_map head]. destruct fuel; cbn [find_place]; erewrite bind_ok by (apply get_reg_ok, (h_node _ _ _ _ R); exact Hk);
      cbn [signal_number_ reg_of]; by destruct (Z.ltb_spec k n); [lia|].
  - destruct fuel as [|fuel]; [cbn in Hf; lia|]. apply Forall_cons in H1 as [Hkn H1].
    destruct (signal_in_list i done k (l1 ++ l2) E) as (Hk & Ha & _). cbn [app fmap option_fmap option_map head find_place].
    erewrite bind_ok by (apply get_reg_ok, (h_node _ _ _ _ R); exact Hk). cbn [signal_number_ reg_of next_in_set_].
    destruct (Z.ltb_spec k n); [|lia]. rewrite Ha. replace (AtReg (node i k)) with (place_of i (done ++ [k])) by (unfold place_of; by rewrite last_snoc).
    rewrite IH; [by rewrite <- app_assoc| |by rewrite <- app_assoc|done|done]. cbn in Hf. lia.
Qed.

(** The place of a signal in the list of a set, and what is found there. *)
Lemma find_place_ok n i : 0 ≤ n < max_signal_number → ∃ l1 l2,
  find_place set_fuel n (AtSet i) (signals_ (impls st i)) st =
    Ok ((place_of i l1, if decide (i ∈ m n) then Some (node i n) else node i <$> head l2), st) ∧
  found (if decide (i ∈ m n) then Some (node i n) else node i <$> head l2) n st = Ok (bool_decide (i ∈ m n), st) ∧
  ∀ m', (∀ k, k ≠ n → i ∈ m' k ↔ i ∈ m k) → signals_of m' i = l1 ++ (if decide (i ∈ m' n) then [n] else []) ++ l2.
Proof.
  intros Hn. destruct (signals_split m i n Hn) as (l1 & l2 & H1 & H2 & Hm). exists l1, l2. pose proof (Hm m (λ k _, iff_refl _)) as E.
  rewrite (h_set _ _ _ _ R). pose proof (length_signals m i) as Hlen.
  set (l := (if decide (i ∈ m n) then [n] else []) ++ l2) in *.
  assert (Eh : (if decide (i ∈ m n) then Some (node i n) else node i <$> head l2) = node i <$> head l) by (unfold l; by case_decide).
  rewrite Eh. split_and!; [| |exact Hm].
  - replace (AtSet i) with (place_of i []) by done. rewrite E.
    rewrite (find_place_loop set_fuel n i [] l1 l); [done| |exact E|exact H1|].
    + rewrite E, length_app in Hlen. lia.
    + unfold l. case_decide; [intros k [= ->]; lia|]. cbn. intros k Hk. destruct l2 as [|k' l2]; [done|]. injection Hk as ->.
      apply Forall_cons in H2 as [? _]. lia.
  - unfold l. case_decide as Hi; cbn.
    + erewrite bind_ok by (apply get_reg_ok, (h_node _ _ _ _ R); exact Hi). cbn. by rewrite Z.eqb_refl, bool_decide_eq_true_2.
    + rewrite bool_decide_eq_false_2 by done. destruct l2 as [|k l2]; [done|]. cbn in *.
      destruct (signal_in_list i l1 k l2 E) as [Hk _]. erewrite bind_ok by (apply get_reg_ok, (h_node _ _ _ _ R); exact Hk). cbn.
      apply Forall_cons in H2 as [? _]. by destruct (Z.eqb_spec k n); [lia|].
Qed.
End Registered.

(** ** What changing the registrations leaves alone *)

Definition strip (sv : service) : service :=
  mkService (λ _, None) (next_ sv) (prev_ sv) (reactor_data_ sv) (locking sv) (posted sv) (called sv) (outstanding_work_ sv).

Record same_rest st st' : Prop := {
  e_waits : ∀ i, waits_ (impls st' i) = waits_ (impls st i);
  e_services : ∀ s, strip <$> services st' !! s = strip <$> services st !! s;
  e_list : service_list_ st' = service_list_ st;
  e_fork : fork_prepared_ st' = fork_prepared_ st;
  e_open : descriptors_ st' = descriptors_ st;
  e_pipe : pipe_ st' = pipe_ st
}.

Lemma same_rest_refl st : same_rest st st.
Proof. by split. Qed.

Lemma same_rest_trans st1 st2 st3 : same_rest st1 st2 → same_rest st2 st3 → same_rest st1 st3.
Proof. intros [] []. split; congruence || (intros; congruence). Qed.

Lemma same_some st st' s : same_rest st st' → is_Some (services st' !! s) ↔ is_Some (services st !! s).
Proof.
  intros E. pose proof (e_services _ _ E s) as Hs. destruct (services st' !! s), (services st !! s); done || (split; by intros [? [=]]).
Qed.

Lemma represents_rest node node' m pend sp st st' :
  represents_with node sp st → same_rest st st' → registered node' m pend st' →
  represents_with node' (mkSpec m pend (waiting sp) (live sp) (in_pipe sp) (forking sp) (known sp) (locks sp) (watching sp) (out sp) (ended sp) (work sp)) st'.
Proof.
  intros [R1 R2 R3 R4 R5 R6 R7 R8 R9] E R. pose proof E as [E1 E2 E3 E4 E5 E6]. split; cbn; try congruence; try done.
  - intros s sv Hs. specialize (E2 s). rewrite Hs in E2. destruct (services st !! s) as [sv0|] eqn:E0; [|done].
    pose proof (R3 s sv0 E0) as [V1 V2 V3 V4 V5 V6 V7]. cbn in E2. injection E2 as F1 F2 F3 F4 F5 F6 F7. split; cbn; congruence.
  - intros s. rewrite R4. symmetry. by apply same_some.
Qed.

(** ** Putting a registration in *)

Definition reg_at (pl : place) : option nat := match pl with AtReg q => Some q | AtSet _ => None end.

Lemma store_ok pl p st : (∀ q, reg_at pl = Some q → is_Some (heap st !! q)) →
  ∃ st', store pl p st = Ok (tt, st') ∧ heap st' = alter' (with_next_in_set p) (reg_at pl) (heap st) ∧ same_rest st st' ∧
    address st' = address st ∧ services st' = services st ∧ registration_count_ st' = registration_count_ st ∧ handled st' = handled st ∧
    ∀ i, signals_ (impls st' i) = if decide (pl = AtSet i) then p else signals_ (impls st i).
Proof.
  destruct pl as [i|q]; cbn; intros H.
  - eexists. split; [reflexivity|]. split_and!; try done.
    + split; try done. intros j. cbn. unfold insert, fn_insert. by case_decide; subst.
    + intros j. cbn. unfold insert, fn_insert. repeat case_decide; naive_solver.
  - eexists. split; [by apply on_reg_ok, H|]. split_and!; try done.
Qed.

(** The lists with [i] and without it. *)
Section Grown.
Context (m m' : member_lists) (i : nat) (n : Z).
Context (Hm : ∀ k, m' k = if decide (k = n) then i :: m n else m k) (Hi : i ∉ m n).

Lemma grown_members j k : j ∈ m' k ↔ (j = i ∧ k = n) ∨ j ∈ m k.
Proof. rewrite Hm. case_decide; [subst; rewrite elem_of_cons|]; naive_solver. Qed.

Lemma grown_table s k : table m' s k = if decide (s = owner i ∧ k = n) then i :: table m s k else table m s k.
Proof.
  unfold table. rewrite Hm. destruct (decide (k = n)) as [->|Hk]; [|by rewrite decide_False by tauto]. cbn.
  destruct (Nat.eqb_spec (owner i) s); [by rewrite decide_True|by rewrite decide_False by naive_solver].
Qed.

Lemma grown_signals j : j ≠ i → signals_of m' j = signals_of m j.
Proof. intros Hj. apply signals_ext. intros k. rewrite grown_members. naive_solver. Qed.

Lemma grown_without : without n (signals_of m' i) = signals_of m i.
Proof. apply signals_without; [|done]. intros k Hk. rewrite grown_members. naive_solver. Qed.
End Grown.

Lemma alter'_some {A} (f : A → A) p (h : gmap nat A) q : is_Some (alter' f p h !! q) ↔ is_Some (h !! q).
Proof. rewrite lookup_alter'. by rewrite fmap_is_Some. Qed.

Lemma heap_set h st : heap (set_heap h st) = h.
Proof. done. Qed.

(** What [link_registration] does to memory. *)
Lemma link_fields st i n pl next p sv :
  services st !! owner i = Some sv → is_Some (heap st !! p) → (∀ q, reg_at pl = Some q → is_Some (heap st !! q)) →
  (∀ q, registrations_ sv n = Some q → is_Some (heap st !! q)) →
  ∃ st', link_registration i n pl next p st = Ok (tt, st') ∧ same_rest st st' ∧
    heap st' = alter' (with_prev_in_table (Some p)) (registrations_ sv n) (alter' (with_next_in_table (registrations_ sv n)) (Some p)
      (alter' (with_next_in_set (Some p)) (reg_at pl) (alter' (λ _, mkReg n i 0 None None next) (Some p) (heap st)))) ∧
    address st' = address st ∧ services st' = <[owner i := with_registration n (Some p) sv]> (services st) ∧
    registration_count_ st' = <[n := registration_count_ st n + 1]> (registration_count_ st) ∧ handled st' = handled st ∧
    ∀ j, signals_ (impls st' j) = if decide (pl = AtSet j) then Some p else signals_ (impls st j).
Proof.
  intros Hsv Hp Hq Hh. unfold link_registration. erewrite bind_ok by (apply on_reg_ok; exact Hp). set (st1 := set_heap _ st).
  destruct (store_ok pl (Some p) st1) as (st2 & E2 & H2 & R2 & A2 & S2 & C2 & D2 & I2); [intros q Eq; unfold st1; rewrite heap_set; apply alter'_some; auto|].
  erewrite bind_ok by exact E2. assert (Hsv2 : services st2 !! owner i = Some sv) by by rewrite S2.
  erewrite bind_ok by (apply get_service_ok; exact Hsv2).
  erewrite bind_ok by (apply on_reg_ok; rewrite H2; unfold st1; rewrite heap_set; apply alter'_some, alter'_some; exact Hp). set (st3 := set_heap _ st2).
  erewrite bind_ok by (apply on_reg'_ok; intros q Eq; unfold st3; rewrite heap_set, H2; do 3 apply alter'_some; auto). set (st4 := set_heap _ st3).
  erewrite bind_ok by (apply on_service_there; exact Hsv2). eexists. split; [reflexivity|]. split_and!.
  - split; [intros j; apply (e_waits _ _ R2)| |apply R2..]. intros s. cbn. rewrite S2. destruct (decide (owner i = s)) as [<-|Hs].
    + by rewrite lookup_insert_eq, Hsv.
    + by rewrite lookup_insert_ne.
  - cbn. by rewrite H2.
  - exact A2.
  - cbn. by rewrite S2.
  - cbn. by rewrite C2.
  - exact D2.
  - intros j. apply I2.
Qed.

Lemma bool_decide_cons {A} (x : A) l : bool_decide (x :: l ≠ []) = true.
Proof. by apply bool_decide_eq_true_2. Qed.

Lemma option_fmap_eq {A B} (f g : A → B) (o : option A) : (∀ x, o = Some x → f x = g x) → f <$> o = g <$> o.
Proof. destruct o as [x|]; [|done]. intros H. cbn. by rewrite (H x). Qed.

Lemma place_at node i l : reg_at (place_of node i l) = node i <$> last l.
Proof. unfold place_of. by destruct (last l). Qed.

(** The new registration, at [p], has its place in both lists. *)
Section Growing.
Context (node : nat → Z → nat) (m : member_lists) (pend : nat → Z → Z) (st0 st' : signal_state) (i : nat) (n : Z) (p : nat) (l1 l2 : list Z) (sv : service).
Context (R : registered node m pend st0) (Hi : i ∉ m n) (Hn : 0 ≤ n < max_signal_number) (Hsv : services st0 !! owner i = Some sv).
Context (Hsig : sigaction_errno n = None) (Hp : p = address st0).

Definition grown_m : member_lists := <[n := i :: m n]> m.
Definition grown_node : nat → Z → nat := <[i := <[n := p]> (node i)]> node.
Definition grown_pend : nat → Z → Z := <[i := <[n := 0]> (pend i)]> pend.

Context (E1 : signals_of m i = l1 ++ l2) (E2 : signals_of grown_m i = l1 ++ n :: l2).
Context (Hheap : heap st' = alter' (with_prev_in_table (Some p)) (registrations_ sv n) (alter' (with_next_in_table (registrations_ sv n)) (Some p)
  (alter' (with_next_in_set (Some p)) (reg_at (place_of node i l1)) (alter' (λ _, mkReg n i 0 None None (node i <$> head l2)) (Some p)
  (<[p := mkReg 0 0 0 None None None]> (heap st0)))))).
Context (Haddr : address st' = S p) (Hserv : services st' = <[owner i := with_registration n (Some p) sv]> (services st0)).
Context (Hcount : registration_count_ st' = <[n := registration_count_ st0 n + 1]> (registration_count_ st0)).
Context (Hhand : ∀ k, handled st' k = bool_decide (k = n) || handled st0 k).
Context (Hset : ∀ j, signals_ (impls st' j) = if decide (place_of node i l1 = AtSet j) then Some p else signals_ (impls st0 j)).

Lemma grown_m_at k : grown_m k = if decide (k = n) then i :: m n else m k.
Proof. unfold grown_m, insert, fn_insert. repeat case_decide; congruence. Qed.

Lemma elem_of_grown j k : j ∈ grown_m k ↔ (j = i ∧ k = n) ∨ j ∈ m k.
Proof. apply grown_members, grown_m_at. Qed.

Lemma node_new : grown_node i n = p.
Proof. unfold grown_node. by rewrite !fn_lookup_insert. Qed.

Lemma node_old j k : j ∈ m k → grown_node j k = node j k.
Proof. intros Hj. unfold grown_node, insert, fn_insert. case_decide; [subst|done]. case_decide; [by subst|done]. Qed.

Lemma pend_old j k : j ∈ m k → grown_pend j k = pend j k.
Proof. intros Hj. unfold grown_pend, insert, fn_insert. case_decide; [subst|done]. case_decide; [by subst|done]. Qed.

Lemma node_not_new j k : j ∈ m k → node j k ≠ p.
Proof.
  intros Hj E. pose proof (h_address _ _ _ _ R (node j k)) as Ha. rewrite (h_node _ _ _ _ R j k Hj) in Ha. specialize (Ha (mk_is_Some _ _ eq_refl)). lia.
Qed.

Lemma head_in k s j : head (table m s k) = Some j → j ∈ m k.
Proof. intros E. apply (elem_of_table m s). destruct (table m s k); [done|]. injection E as ->. by left. Qed.

Lemma old_head : registrations_ sv n = (λ j, node j n) <$> head (table m (owner i) n).
Proof. apply (h_table _ _ _ _ R (owner i) sv n Hsv). Qed.

Lemma old_head_at j k : j ∈ m k → registrations_ sv n = Some (node j k) ↔ k = n ∧ head (table m (owner i) n) = Some j.
Proof.
  intros Hj. rewrite old_head, fmap_Some. split; [|intros [-> Hl]; by exists j]. intros (x & Hx & E).
  by destruct (node_inj node m pend st0 R j k x n Hj (head_in _ _ _ Hx) E) as [-> ->].
Qed.

Lemma old_place_at j k : j ∈ m k → reg_at (place_of node i l1) = Some (node j k) ↔ j = i ∧ last l1 = Some k.
Proof.
  intros Hj. rewrite place_at, fmap_Some. split; [|intros [-> Hl]; by exists k].
  intros (x & Hx & E). pose proof Hx as [l El]%last_Some. assert (Hix : i ∈ m x).
  { apply (signal_in_list m i l x l2). by rewrite E1, El, <- app_assoc. }
  by destruct (node_inj node m pend st0 R j k i x Hj Hix E) as [-> ->].
Qed.

Lemma grown_heads s sv' k : services st' !! s = Some sv' → registrations_ sv' k = (λ j, grown_node j k) <$> head (table grown_m s k).
Proof.
  intros Hs. rewrite (grown_table m grown_m i n grown_m_at). rewrite Hserv in Hs.
  assert (Hold : ∀ sv0, services st0 !! s = Some sv0 → registrations_ sv0 k = (λ j, grown_node j k) <$> head (table m s k)).
  { intros sv0 H0. rewrite (h_table _ _ _ _ R s sv0 k H0). apply option_fmap_eq. intros x Hx. symmetry. apply node_old. by apply head_in in Hx. }
  destruct (decide (s = owner i)) as [->|Hne].
  - rewrite lookup_insert_eq in Hs. injection Hs as <-. cbn. destruct (decide (k = n)) as [->|Hk].
    + rewrite fn_lookup_insert, decide_True by done. cbn. by rewrite node_new.
    + rewrite fn_lookup_insert_ne, decide_False by naive_solver. by apply Hold.
  - rewrite lookup_insert_ne in Hs by done. rewrite decide_False by naive_solver. by apply Hold.
Qed.

Lemma grown_sets j : signals_ (impls st' j) = grown_node j <$> head (signals_of grown_m j).
Proof.
  rewrite Hset. destruct (decide (j = i)) as [->|Hj].
  - rewrite E2. unfold place_of. destruct (last l1) as [x|] eqn:El.
    + rewrite decide_False by done. rewrite (h_set _ _ _ _ R), E1. apply last_Some in El as [l El]. rewrite El, <- !app_assoc.
      assert (Hh : ∃ y rest, l ++ [x] = y :: rest) by (destruct l; by do 2 eexists). destruct Hh as (y & rest & Ek).
      rewrite !app_assoc, Ek. cbn. rewrite node_old; [done|]. apply (signal_in_list m i [] y (rest ++ l2)). by rewrite E1, El, Ek.
    + apply last_None in El. rewrite El, decide_True by done. cbn. by rewrite node_new.
  - rewrite decide_False by (unfold place_of; destruct (last l1); congruence).
    rewrite (grown_signals m grown_m i n grown_m_at) by done. rewrite (h_set _ _ _ _ R). apply option_fmap_eq.
    intros k _. unfold grown_node. by rewrite fn_lookup_insert_ne.
Qed.

(** The registration itself, and the others. *)
Lemma grown_here : heap st' !! p = Some (reg_of grown_node grown_m grown_pend i n).
Proof.
  rewrite Hheap, !lookup_alter', lookup_insert_eq. rewrite (decide_False (P := registrations_ sv n = Some p)).
  2:{ rewrite old_head. intros (x & Hx & E)%fmap_Some. by apply (node_not_new x n); [by apply head_in in Hx|]. }
  rewrite (decide_False (P := reg_at _ = Some p)).
  2:{ rewrite place_at. intros (x & [l El]%last_Some & E)%fmap_Some. apply (node_not_new i x); [|done].
      apply (signal_in_list m i l x l2). by rewrite E1, El, <- app_assoc. }
  rewrite !decide_True by done. cbn. unfold reg_of, grown_pend, with_next_in_table. cbn. rewrite !fn_lookup_insert.
  pose proof (signal_in_list grown_m i l1 n l2 E2) as (_ & -> & _).
  rewrite (grown_table m grown_m i n grown_m_at), decide_True by done.
  assert (Ht : i ∉ table m (owner i) n) by (rewrite elem_of_table; tauto).
  rewrite before_head by (constructor; [done|apply NoDup_table, (h_nodup _ _ _ _ R)]). cbn [after]. rewrite decide_True by done.
  do 2 f_equal.
  - rewrite old_head. apply option_fmap_eq. intros x Hx. symmetry. apply node_old. by apply head_in in Hx.
  - apply option_fmap_eq. intros x Hx. symmetry. apply node_old. destruct l2 as [|y l]; [done|]. injection Hx as ->.
    apply (signal_in_list m i l1 x l E1).
Qed.

(** The tables of the others, and their sets. *)
Lemma grown_neighbours j k : j ∈ m k →
  after j (table grown_m (owner j) k) = after j (table m (owner j) k) ∧
  before j (table grown_m (owner j) k) =
    if decide (registrations_ sv n = Some (node j k)) then Some i else before j (table m (owner j) k).
Proof.
  intros Hj. rewrite (grown_table m grown_m i n grown_m_at). pose proof (old_head_at j k Hj) as Hh.
  destruct (decide (owner j = owner i ∧ k = n)) as [[Ho ->]|Hne].
  - assert (Hji : j ≠ i) by (by intros ->). assert (Ht : i ∉ table m (owner j) n) by (rewrite elem_of_table; tauto).
    split; [cbn; by rewrite decide_False|]. rewrite <- Ho in Hh. cbn. destruct (decide (head _ = Some j)) as [Hd|Hd].
    + by rewrite decide_True by tauto.
    + by rewrite decide_False by tauto.
  - split; [done|]. rewrite decide_False; [done|]. intros [-> Hd]%Hh. apply Hne. split; [|done].
    assert (Ht : j ∈ table m (owner i) n) by (destruct (table m (owner i) n); [done|]; injection Hd as ->; by left).
    by apply elem_of_table in Ht as [? _].
Qed.

Lemma grown_next j k : j ∈ m k →
  after k (signals_of grown_m j) = if decide (reg_at (place_of node i l1) = Some (node j k)) then Some n else after k (signals_of m j).
Proof.
  intros Hj. pose proof (old_place_at j k Hj) as Hl. destruct (decide (j = i)) as [->|Hji].
  - assert (Hkn : k ≠ n) by (by intros ->). pose proof (grown_without m grown_m i n grown_m_at Hi) as Hw.
    pose proof (after_without n k (signals_of grown_m i) (NoDup_signals _ _) Hkn) as Ha. rewrite Hw in Ha.
    pose proof (signal_in_list grown_m i l1 n l2 E2) as (_ & _ & Hb). pose proof (after_before (signals_of grown_m i) k n (NoDup_signals _ _)) as Hab.
    rewrite Hb in Hab. destruct (decide (reg_at (place_of node i l1) = Some (node i k))) as [Hd|Hd]; [apply Hl in Hd as [_ Hd]; by apply Hab|]. rewrite Ha, decide_False; [done|]. intros Hk%Hab. tauto.
  - rewrite (grown_signals m grown_m i n grown_m_at), decide_False; [done|tauto|done].
Qed.

Lemma grown_other j k : j ∈ m k → heap st' !! node j k = Some (reg_of grown_node grown_m grown_pend j k).
Proof.
  intros Hj. pose proof (node_not_new j k Hj) as Hne. destruct (grown_neighbours j k Hj) as [Ha Hb]. pose proof (grown_next j k Hj) as Hc.
  rewrite Hheap, !lookup_alter', lookup_insert_ne, (h_node _ _ _ _ R j k Hj) by done.
  rewrite !(decide_False (P := Some p = Some (node j k))) by congruence. cbn [fmap option_fmap option_map id].
  unfold reg_of. rewrite Ha, Hb, Hc, (pend_old j k Hj).
  assert (En : (λ x, grown_node x k) <$> after j (table m (owner j) k) = (λ x, node x k) <$> after j (table m (owner j) k)).
  { apply option_fmap_eq. intros x [_ Hx]%after_in. apply node_old. by apply elem_of_table in Hx as [_ ?]. }
  assert (Ep : (λ x, grown_node x k) <$> before j (table m (owner j) k) = (λ x, node x k) <$> before j (table m (owner j) k)).
  { apply option_fmap_eq. intros x [_ Hx]%before_in. apply node_old. by apply elem_of_table in Hx as [_ ?]. }
  assert (Es : grown_node j <$> after k (signals_of m j) = node j <$> after k (signals_of m j)).
  { apply option_fmap_eq. intros x [_ Hx]%after_in. apply node_old. by apply elem_of_signals in Hx as [_ ?]. }
  assert (F1 : registrations_ sv n = Some (node j k) → grown_node i k = p) by (intros [-> _]%old_head_at; [apply node_new|done]).
  assert (F2 : reg_at (place_of node i l1) = Some (node j k) → grown_node j n = p) by (intros [-> _]%old_place_at; [apply node_new|done]).
  rewrite En. destruct (decide (registrations_ sv n = Some (node j k))) as [Hd|Hd], (decide (reg_at (place_of node i l1) = Some (node j k))) as [Hd'|Hd'];
    unfold with_prev_in_table, with_next_in_set; cbn; by rewrite ?Ep, ?Es, ?F1, ?F2 by done.
Qed.

Lemma registered_grown : registered grown_node grown_m grown_pend st'.
Proof.
  split.
  - intros k. rewrite grown_m_at. case_decide; [constructor; [done|]|]; apply (h_nodup _ _ _ _ R).
  - intros j k [[-> ->]|Hj]%elem_of_grown; [done|by apply (h_range _ _ _ _ R j)].
  - intros j k [[-> ->]|Hj]%elem_of_grown; [rewrite node_new; apply grown_here|rewrite node_old by done; by apply grown_other].
  - intros q r. rewrite Hheap. destruct (decide (q = p)) as [->|Hq].
    + intros _. exists i, n. rewrite node_new, elem_of_grown. auto.
    + rewrite !lookup_alter', lookup_insert_ne by done. intros Hr. destruct (heap st0 !! q) as [r0|] eqn:E0; [|done].
      destruct (h_only _ _ _ _ R q r0 E0) as (j & k & Hj & ->). exists j, k. rewrite node_old, elem_of_grown by done. auto.
  - intros q. rewrite Hheap, Haddr, !alter'_some. destruct (decide (q = p)) as [->|Hq]; [lia|]. rewrite lookup_insert_ne by done.
    intros Ha. apply (h_address _ _ _ _ R) in Ha. lia.
  - apply grown_sets.
  - apply grown_heads.
  - intros j k Hj. rewrite Hserv. apply lookup_insert_is_Some'. apply elem_of_grown in Hj as [[-> ->]|Hj]; [by left|right].
    by apply (h_owned _ _ _ _ R j k).
  - intros k. rewrite Hcount, grown_m_at. unfold insert, fn_insert. rewrite !(h_count _ _ _ _ R). repeat case_decide; simplify_eq; zl.
  - intros k. rewrite Hhand, grown_m_at, (h_handled _ _ _ _ R). case_decide; [by rewrite bool_decide_cons, bool_decide_eq_true_2|].
    by rewrite (bool_decide_eq_false_2 (k = n)).
  - intros k. rewrite grown_m_at. case_decide; [by subst|]. apply (h_sigaction _ _ _ _ R).
Qed.
End Growing.

(** ** Taking a registration out *)

(** The lists without [i]. *)
Section Shrunk.
Context (m : member_lists) (i : nat) (n : Z).

Definition shrunk_m : member_lists := <[n := without i (m n)]> m.

Lemma shrunk_at k : shrunk_m k = if decide (k = n) then without i (m n) else m k.
Proof. unfold shrunk_m, insert, fn_insert. repeat case_decide; congruence. Qed.

Lemma elem_of_shrunk j k : j ∈ shrunk_m k ↔ j ∈ m k ∧ ¬ (j = i ∧ k = n).
Proof. rewrite shrunk_at. destruct (decide (k = n)) as [->|]; [rewrite elem_of_without|]; naive_solver. Qed.

Lemma shrunk_table s k : table shrunk_m s k = if decide (s = owner i ∧ k = n) then without i (table m s k) else table m s k.
Proof.
  unfold table. rewrite shrunk_at. destruct (decide (k = n)) as [->|Hk]; [|by rewrite decide_False by tauto].
  rewrite <- without_filter. destruct (decide (s = owner i ∧ n = n)) as [Hs|Hs]; [done|]. apply without_notin.
  rewrite list_elem_of_In, List.filter_In, Nat.eqb_eq. naive_solver.
Qed.

Lemma shrunk_signals j : signals_of shrunk_m j = if decide (j = i) then without n (signals_of m i) else signals_of m j.
Proof.
  destruct (decide (j = i)) as [Hj|Hj]; [subst j; symmetry; apply signals_without|apply signals_ext].
  - intros k Hk. rewrite elem_of_shrunk. tauto.
  - rewrite elem_of_shrunk. tauto.
  - intros k. rewrite elem_of_shrunk. tauto.
Qed.

End Shrunk.

(** The registration at [node i n] has left both lists. *)
Section Shrinking.
Context (node : nat → Z → nat) (m : member_lists) (pend : nat → Z → Z) (st0 st' : signal_state) (i : nat) (n : Z) (l1 l2 : list Z) (sv : service).
Context (R : registered node m pend st0) (Hi : i ∈ m n) (Hsv : services st0 !! owner i = Some sv).
Context (E1 : signals_of m i = l1 ++ n :: l2).

Notation shrunk_m := (shrunk_m m i n).

Context (next_r : option nat) (prev_r : option nat).
Context (Hnext : next_r = (λ j, node j n) <$> after i (table m (owner i) n)) (Hprev : prev_r = (λ j, node j n) <$> before i (table m (owner i) n)).
Context (Hheap : heap st' = delete (node i n) (alter' (with_prev_in_table prev_r) next_r (alter' (with_next_in_table next_r) prev_r
  (alter' (with_next_in_set (node i <$> head l2)) (reg_at (place_of node i l1)) (heap st0))))).
Context (Haddr : address st' = address st0).
Context (Hserv : services st' = <[owner i := if decide (registrations_ sv n = Some (node i n)) then with_registration n next_r sv else sv]> (services st0)).
Context (Hcount : registration_count_ st' = <[n := registration_count_ st0 n - 1]> (registration_count_ st0)).
Context (Hhand : ∀ k, handled st' k = if decide (k = n ∧ registration_count_ st0 n = 1) then false else handled st0 k).
Context (Hset : ∀ j, signals_ (impls st' j) = if decide (place_of node i l1 = AtSet j) then node i <$> head l2 else signals_ (impls st0 j)).

Lemma shrunk_list : signals_of shrunk_m i = l1 ++ l2.
Proof.
  rewrite shrunk_signals, decide_True, E1 by done. apply without_here. rewrite <- E1. apply NoDup_signals.
Qed.

Lemma shrunk_place_at j k : j ∈ m k → reg_at (place_of node i l1) = Some (node j k) ↔ j = i ∧ after k (signals_of m i) = Some n.
Proof.
  intros Hj. rewrite (after_before _ _ _ (NoDup_signals m i)). pose proof (signal_in_list m i l1 n l2 E1) as (_ & _ & ->).
  rewrite place_at, fmap_Some. split; [|intros [-> Hl]; by exists k].
  intros (x & Hx & E). pose proof Hx as [l El]%last_Some. assert (Hix : i ∈ m x).
  { apply (signal_in_list m i l x (n :: l2)). by rewrite E1, El, <- app_assoc. }
  by destruct (node_inj node m pend st0 R j k i x Hj Hix E) as [-> ->].
Qed.

(** The neighbours in the table. *)
Lemma shrunk_neighbour (near : nat → list nat → option nat) j k :
  (∀ x l a, near x l = Some a → x ∈ l ∧ a ∈ l) → j ∈ m k →
  (λ x, node x n) <$> near i (table m (owner i) n) = Some (node j k) ↔ k = n ∧ owner j = owner i ∧ near i (table m (owner j) k) = Some j.
Proof.
  intros Hnear Hj. rewrite fmap_Some. split.
  - intros (x & Hx & E). pose proof (Hnear _ _ _ Hx) as [_ Hxt]. apply elem_of_table in Hxt as [Ho Hxm].
    destruct (node_inj node m pend st0 R j k x n Hj Hxm E) as [-> ->]. by rewrite Ho.
  - intros (-> & Ho & Hx). exists j. by rewrite <- Ho.
Qed.

Lemma shrunk_after j k : j ∈ m k → ¬ (j = i ∧ k = n) →
  after j (table shrunk_m (owner j) k) = if decide (prev_r = Some (node j k)) then after i (table m (owner i) n) else after j (table m (owner j) k).
Proof.
  intros Hj Hne. pose proof (NoDup_table m (owner j) k (h_nodup _ _ _ _ R k)) as Hnd.
  rewrite shrunk_table. pose proof (shrunk_neighbour before j k before_in Hj) as Hb. rewrite <- Hprev, <- after_before in Hb by done.
  destruct (decide (prev_r = Some (node j k))) as [Hd|Hd].
  - apply Hb in Hd as (-> & Ho & Hd). rewrite decide_True by done. rewrite after_without by (done || naive_solver). by rewrite decide_True, Ho.
  - destruct (decide (owner j = owner i ∧ k = n)) as [[Ho ->]|Ht]; [|done]. rewrite after_without by (done || naive_solver).
    rewrite decide_False; [done|]. tauto.
Qed.

Lemma shrunk_before j k : j ∈ m k → ¬ (j = i ∧ k = n) →
  before j (table shrunk_m (owner j) k) = if decide (next_r = Some (node j k)) then before i (table m (owner i) n) else before j (table m (owner j) k).
Proof.
  intros Hj Hne. pose proof (NoDup_table m (owner j) k (h_nodup _ _ _ _ R k)) as Hnd.
  rewrite shrunk_table. pose proof (shrunk_neighbour after j k after_in Hj) as Hb. rewrite <- Hnext, after_before in Hb by done.
  destruct (decide (next_r = Some (node j k))) as [Hd|Hd].
  - apply Hb in Hd as (-> & Ho & Hd). rewrite decide_True by done. rewrite before_without by (done || naive_solver). by rewrite decide_True, Ho.
  - destruct (decide (owner j = owner i ∧ k = n)) as [[Ho ->]|Ht]; [|done]. rewrite before_without by (done || naive_solver).
    rewrite decide_False; [done|]. tauto.
Qed.

Lemma shrunk_next j k : j ∈ m k → ¬ (j = i ∧ k = n) →
  after k (signals_of shrunk_m j) = if decide (reg_at (place_of node i l1) = Some (node j k)) then head l2 else after k (signals_of m j).
Proof.
  intros Hj Hne. rewrite shrunk_signals. pose proof (shrunk_place_at j k Hj) as Hl. pose proof (signal_in_list m i l1 n l2 E1) as (_ & Hn & _).
  destruct (decide (j = i)) as [->|Hji]; [|by rewrite decide_False by tauto].
  rewrite after_without by (apply NoDup_signals || intuition congruence). rewrite Hn. repeat destruct (decide _); tauto || done.
Qed.

Lemma shrunk_other j k : j ∈ shrunk_m k → heap st' !! node j k = Some (reg_of node shrunk_m pend j k).
Proof.
  intros [Hj Hne]%elem_of_shrunk. assert (Hp : node i n ≠ node j k).
  { intros E. destruct (node_inj node m pend st0 R i n j k Hi Hj E) as [-> ->]. tauto. }
  rewrite Hheap, lookup_delete_ne, !lookup_alter', (h_node _ _ _ _ R j k Hj) by done. cbn [fmap option_fmap option_map]. f_equal.
  unfold reg_of. rewrite (shrunk_after j k Hj Hne), (shrunk_before j k Hj Hne), (shrunk_next j k Hj Hne).
  assert (G1 : prev_r = Some (node j k) → (λ x, node x k) <$> after i (table m (owner i) n) = next_r).
  { rewrite Hprev. intros [-> _]%(shrunk_neighbour before j k before_in Hj). by rewrite Hnext. }
  assert (G2 : next_r = Some (node j k) → (λ x, node x k) <$> before i (table m (owner i) n) = prev_r).
  { rewrite Hnext. intros [-> _]%(shrunk_neighbour after j k after_in Hj). by rewrite Hprev. }
  assert (G3 : reg_at (place_of node i l1) = Some (node j k) → node j <$> head l2 = node i <$> head l2).
  { by intros [-> _]%shrunk_place_at. }
  destruct (decide (next_r = Some (node j k))) as [D2|D2], (decide (prev_r = Some (node j k))) as [D1|D1],
    (decide (reg_at (place_of node i l1) = Some (node j k))) as [D3|D3];
    unfold with_prev_in_table, with_next_in_table, with_next_in_set; cbn; by rewrite ?(G1 D1), ?(G2 D2), ?(G3 D3).
Qed.

Lemma shrunk_heads s sv' k : services st' !! s = Some sv' → registrations_ sv' k = (λ j, node j k) <$> head (table shrunk_m s k).
Proof.
  intros Hs. rewrite shrunk_table. rewrite Hserv in Hs. pose proof (NoDup_table m (owner i) n (h_nodup _ _ _ _ R n)) as Hnd.
  pose proof (h_table _ _ _ _ R (owner i) sv n Hsv) as Hh.
  assert (Hit : registrations_ sv n = Some (node i n) ↔ head (table m (owner i) n) = Some i).
  { rewrite Hh, fmap_Some. split; [|intros Hx; by exists i]. intros (x & Hx & E).
    assert (Hxm : x ∈ table m (owner i) n) by (destruct (table m (owner i) n); [done|]; injection Hx as ->; by left).
    apply elem_of_table in Hxm as [_ Hxm]. by destruct (node_inj node m pend st0 R i n x n Hi Hxm E) as [-> _]. }
  destruct (decide (s = owner i)) as [->|Hne].
  2:{ rewrite lookup_insert_ne in Hs by done. rewrite decide_False by naive_solver. by apply (h_table _ _ _ _ R). }
  rewrite lookup_insert_eq in Hs. injection Hs as <-. destruct (decide (k = n)) as [->|Hk].
  - rewrite (decide_True (P := owner i = owner i ∧ n = n)) by done. rewrite head_without_after by done.
    destruct (decide (registrations_ sv n = Some (node i n))) as [Hd|Hd].
    + cbn. rewrite fn_lookup_insert, decide_True by tauto. exact Hnext.
    + rewrite decide_False by tauto. exact Hh.
  - rewrite (decide_False (P := owner i = owner i ∧ k = n)) by tauto. rewrite <- (h_table _ _ _ _ R (owner i) sv k Hsv).
    destruct (decide (registrations_ sv n = _)); [cbn; by rewrite fn_lookup_insert_ne|done].
Qed.

Lemma shrunk_sets j : signals_ (impls st' j) = node j <$> head (signals_of shrunk_m j).
Proof.
  rewrite Hset. destruct (decide (j = i)) as [->|Hj].
  - rewrite shrunk_list. unfold place_of. destruct (last l1) as [x|] eqn:El.
    + rewrite decide_False by done. rewrite (h_set _ _ _ _ R), E1. apply last_Some in El as [l El]. rewrite El. by destruct l.
    + apply last_None in El. rewrite El, decide_True by done. done.
  - rewrite decide_False by (unfold place_of; destruct (last l1); congruence). rewrite shrunk_signals, decide_False by done. apply (h_set _ _ _ _ R).
Qed.

Lemma registered_shrunk : registered node shrunk_m pend st'.
Proof.
  split.
  - intros k. rewrite shrunk_at. destruct (decide (k = n)); [apply NoDup_without|]; apply (h_nodup _ _ _ _ R).
  - intros j k [Hj _]%elem_of_shrunk. by apply (h_range _ _ _ _ R j).
  - apply shrunk_other.
  - intros q r. rewrite Hheap. destruct (decide (q = node i n)) as [->|Hq]; [by rewrite lookup_delete_eq|].
    rewrite lookup_delete_ne, !lookup_alter' by done. intros Hr. destruct (heap st0 !! q) as [r0|] eqn:E0; [|done].
    destruct (h_only _ _ _ _ R q r0 E0) as (j & k & Hj & ->). exists j, k. rewrite elem_of_shrunk. split; [|done]. split; [done|].
    by intros [-> ->].
  - intros q. rewrite Hheap, Haddr. destruct (decide (q = node i n)) as [->|Hq]; [rewrite lookup_delete_eq; by intros [? [=]]|].
    rewrite lookup_delete_ne, !alter'_some by done. apply (h_address _ _ _ _ R).
  - apply shrunk_sets.
  - apply shrunk_heads.
  - intros j k [Hj _]%elem_of_shrunk. rewrite Hserv. apply lookup_insert_is_Some'. right. by apply (h_owned _ _ _ _ R j k).
  - intros k. rewrite Hcount, shrunk_at. unfold insert, fn_insert. rewrite !(h_count _ _ _ _ R).
    destruct (decide (k = n)) as [->|Hk]; [|by rewrite decide_False]. rewrite decide_True by done.
    unfold zlen. rewrite (length_without i (m n) (h_nodup _ _ _ _ R n) Hi). lia.
  - intros k. rewrite Hhand, shrunk_at, (h_handled _ _ _ _ R), (h_count _ _ _ _ R). destruct (decide (k = n)) as [->|Hk]; [|by rewrite decide_False by tauto].
    unfold zlen. rewrite (length_without i (m n) (h_nodup _ _ _ _ R n) Hi). destruct (without i (m n)) as [|x l]; cbn.
    + by rewrite decide_True by done.
    + rewrite decide_False by lia. rewrite bool_decide_eq_true_2; [done|]. intros E. by rewrite E in Hi; apply not_elem_of_nil in Hi.
  - intros k. rewrite shrunk_at. destruct (decide (k = n)) as [->|Hk]; [|apply (h_sigaction _ _ _ _ R)]. intros _. apply (h_sigaction _ _ _ _ R).
    intros E. rewrite E in Hi. by apply not_elem_of_nil in Hi.
Qed.

End Shrinking.

End Spec.
