(* ===== verification/SignalRefine.v ===== *)
(** * The signal sets keep what they promise (asio/detail/impl/signal_set_service.ipp)

    Every function on the linked lists does what the specification says; and what follows
    from it: a signal of a set is handled, no wait stays beside a signal that has come,
    and a signal ends every wait of every set that has it. *)

From Stdlib Require Import ZArith Lia.
From stdpp Require Import base gmap functions numbers list.
From S2P Require Import Prelude.
From S2P Require Import Chain.
From S2P Require Import SignalSet.
From S2P Require Import SignalSpec.

#[local] Open Scope Z_scope.

(** A lemma on one member of a service. *)
Ltac service_member := try done;
  first [intros s' sv Hne [V1 V2 V3 V4 V5 V6 V7]; split; cbn; rewrite ?fn_lookup_insert_ne by done; done
        |intros sv [V1 V2 V3 V4 V5 V6 V7]; split; cbn; rewrite ?fn_lookup_insert; congruence].

Section Refine.
Context `{W : Surroundings}.
Implicit Types (m : member_lists) (i s : nat) (n k : Z) (st : signal_state) (sp : sigspec) (node : nat → Z → nat) (pend : nat → Z → Z).

(** ** Adding *)

(** Nothing but unused addresses and the system's handlers has changed. *)
Lemma registered_same node m pend st st' :
  registered node m pend st → heap st' = heap st → (address st ≤ address st')%nat → impls st' = impls st → services st' = services st →
  registration_count_ st' = registration_count_ st → (∀ k, handled st' k = handled st k) → registered node m pend st'.
Proof.
  intros [H1 H2 H3 H4 H5 H6 H7 H8 H9 H10 H11] Eh Ea Ei Es Ec Ed. split; try done.
  - intros i n. rewrite Eh. apply H3.
  - intros p r. rewrite Eh. apply H4.
  - intros p. rewrite Eh. intros Hp%H5. lia.
  - intros i. rewrite Ei. apply H6.
  - intros s sv n. rewrite Es. apply H7.
  - intros i n Hi. rewrite Es. by apply (H8 i n).
  - intros n. rewrite Ec. apply H9.
  - intros n. rewrite Ed. apply H10.
Qed.

Lemma represents_same node sp st st' :
  represents_with node sp st → same_rest st st' → registered node (members sp) (pending sp) st' → represents_with node sp st'.
Proof. intros Rep E R. pose proof (represents_rest node node _ _ sp st st' Rep E R) as H. by destruct sp. Qed.

Lemma fresh_address node m pend st : registered node m pend st → heap st !! address st = None.
Proof.
  intros R. destruct (heap st !! address st) eqn:E; [|done].
  pose proof (h_address _ _ _ _ R (address st)) as Hb. rewrite E in Hb. specialize (Hb (mk_is_Some _ _ eq_refl)). lia.
Qed.

Lemma place_some node m pend st i l1 l2 q : registered node m pend st → signals_of m i = l1 ++ l2 →
  reg_at (place_of node i l1) = Some q → is_Some (heap st !! q).
Proof.
  intros R E. rewrite place_at, fmap_Some. intros (x & [l El]%last_Some & ->). rewrite (h_node _ _ _ _ R i x); [by eexists|].
  apply (signal_in_list m i l x l2). by rewrite E, El, <- app_assoc.
Qed.

Lemma table_some node m pend st s sv n q : registered node m pend st → services st !! s = Some sv →
  registrations_ sv n = Some q → is_Some (heap st !! q).
Proof.
  intros R Hs. rewrite (h_table _ _ _ _ R s sv n Hs), fmap_Some. intros (x & Hx & ->). rewrite (h_node _ _ _ _ R x n); [by eexists|].
  by apply head_in in Hx.
Qed.

(** The registration that [add] makes, when the system lets it. *)
Lemma link_ok node sp st st1 i n l1 l2 :
  represents_with node sp st → i ∉ members sp n → 0 ≤ n < max_signal_number → is_Some (services st !! owner i) → sigaction_errno n = None →
  signals_of (members sp) i = l1 ++ l2 → signals_of (grown_m (members sp) i n) i = l1 ++ n :: l2 →
  heap st1 = <[address st := mkReg 0 0 0 None None None]> (heap st) → address st1 = S (address st) → impls st1 = impls st → services st1 = services st →
  registration_count_ st1 = registration_count_ st → (∀ k, handled st1 k = bool_decide (k = n) || handled st k) → same_rest st st1 →
  ∃ st' node', link_registration i n (place_of node i l1) (node i <$> head l2) (address st) st1 = Ok (tt, st') ∧
    represents_with node' (sp_pending i n 0 (sp_members (grown_m (members sp) i n) sp)) st'.
Proof.
  intros Rep Hi Hn [sv Hsv] Hsig E1 E2 Hh Ha Him Hse Hc Hd Hrest. pose proof (r_registered _ _ _ Rep) as R.
  assert (Hsome : ∀ q, is_Some (heap st !! q) → is_Some (heap st1 !! q)).
  { intros q Hq. rewrite Hh. apply lookup_insert_is_Some'. by right. }
  destruct (link_fields st1 i n (place_of node i l1) (node i <$> head l2) (address st) sv) as
    (st' & E & Hr & H1 & H2 & H3 & H4 & H5 & H6).
  - by rewrite Hse.
  - rewrite Hh, lookup_insert_eq. by eexists.
  - intros q Hq. apply Hsome. by apply (place_some node (members sp) (pending sp) st i l1 l2).
  - intros q Hq. apply Hsome. by apply (table_some node (members sp) (pending sp) st (owner i) sv n).
  - exists st', (grown_node node i n (address st)). split; [exact E|].
    apply (represents_rest node _ (grown_m (members sp) i n) (grown_pend (pending sp) i n) sp st st' Rep (same_rest_trans _ _ _ Hrest Hr)).
    apply (registered_grown node (members sp) (pending sp) st st' i n (address st) l1 l2 sv R); try done.
    + by rewrite H1, Hh.
    + by rewrite H2, Ha.
    + by rewrite H3, Hse.
    + by rewrite H4, Hc.
    + intros k. by rewrite H5, Hd.
    + intros j. by rewrite H6, Him.
Qed.

Lemma grown_split m i n l1 l2 : i ∉ m n →
  (∀ m', (∀ k, k ≠ n → i ∈ m' k ↔ i ∈ m k) → signals_of m' i = l1 ++ (if decide (i ∈ m' n) then [n] else []) ++ l2) →
  signals_of m i = l1 ++ l2 ∧ signals_of (grown_m m i n) i = l1 ++ n :: l2.
Proof.
  intros Hi H. split.
  - rewrite (H m); [|done]. by rewrite decide_False.
  - rewrite (H (grown_m m i n)); [|intros k Hk; rewrite elem_of_grown; tauto].
    rewrite decide_True; [done|]. rewrite elem_of_grown. tauto.
Qed.

Lemma add_ok node sp st i n : represents_with node sp st → is_Some (services st !! owner i) →
  ∃ st' node', add i n st = Ok ((spec_add i n sp).1, st') ∧ represents_with node' (spec_add i n sp).2 st'.
Proof.
  intros Rep Hs. pose proof (r_registered _ _ _ Rep) as R. unfold add, spec_add.
  destruct (in_range n) eqn:Hn; cbn [negb]; [|by exists st, node]. apply in_range_spec in Hn.
  destruct (find_place_ok node (members sp) (pending sp) st R n i Hn) as (l1 & l2 & E1 & E2 & Hl).
  erewrite bind_ok by reflexivity. erewrite bind_ok by exact E1. cbn beta iota. erewrite bind_ok by exact E2. cbn beta iota.
  destruct (decide (i ∈ members sp n)) as [Hi|Hi]; [rewrite bool_decide_eq_true_2 by done; by exists st, node|].
  rewrite bool_decide_eq_false_2 by done. destruct (grown_split (members sp) i n l1 l2 Hi Hl) as [S1 S2].
  set (st1 := set_heap (<[address st := mkReg 0 0 0 None None None]> (heap st)) (set_address (S (address st)) st)).
  assert (Ea : allocate st = Ok (address st, st1)) by done. erewrite bind_ok by exact Ea. erewrite bind_ok by reflexivity.
  change (registration_count_ st1 n) with (registration_count_ st n). rewrite (h_count _ _ _ _ R).
  assert (Hrest : same_rest st st1) by by split.
  destruct (decide (members sp n = [])) as [Hnil|Hnil].
  - rewrite Hnil. cbn [zlen length Z.of_nat Z.eqb]. change (0 =? 0) with true. cbn beta iota. unfold sigaction.
    destruct (sigaction_errno n) as [e|] eqn:Esig.
    + erewrite bind_ok by reflexivity. eexists _, node. split; [reflexivity|].
      apply (represents_same node sp st _ Rep); [by split|].
      apply (registered_same node _ _ st); try done; cbn; [|lia].
      rewrite delete_insert_id; [done|]. by apply (fresh_address node (members sp) (pending sp)).
    + erewrite bind_ok by reflexivity. cbn beta iota.
      destruct (link_ok node sp st (set_handled n true st1) i n l1 l2 Rep Hi Hn Hs Esig S1 S2) as (st' & node' & E & Rep'); try done.
      { intros k. cbn. unfold insert, fn_insert. destruct (decide (k = n)) as [->|Hk].
        - by rewrite decide_True, bool_decide_eq_true_2.
        - by rewrite decide_False, bool_decide_eq_false_2. }
      erewrite bind_ok by exact E. exists st', node'. split; [done|]. rewrite <- Hnil. exact Rep'.
  - destruct (Z.eqb_spec (zlen (members sp n)) 0) as [Hz|_]; [by apply zlen_0_inv in Hz|].
    erewrite bind_ok by reflexivity. cbn beta iota.
    destruct (link_ok node sp st st1 i n l1 l2 Rep Hi Hn Hs (h_sigaction _ _ _ _ R n Hnil) S1 S2) as (st' & node' & E & Rep'); try done.
    { intros k. cbn. rewrite (h_handled _ _ _ _ R). destruct (decide (k = n)) as [->|Hk].
      - by rewrite !bool_decide_eq_true_2.
      - by rewrite (bool_decide_eq_false_2 (k = n)). }
    erewrite bind_ok by exact E. by exists st', node'.
Qed.

(** ** Removing *)

Lemma default_ok node m pend st n i : registered node m pend st → i ∈ m n →
  ∃ st1, default_if_last n st = Ok (None, st1) ∧ heap st1 = heap st ∧ address st1 = address st ∧ impls st1 = impls st ∧ services st1 = services st ∧
    registration_count_ st1 = registration_count_ st ∧ same_rest st st1 ∧
    ∀ k, handled st1 k = if decide (k = n ∧ registration_count_ st n = 1) then false else handled st k.
Proof.
  intros R Hi. assert (Hn : m n ≠ []) by (intros E; rewrite E in Hi; by apply not_elem_of_nil in Hi).
  unfold default_if_last. erewrite bind_ok by reflexivity. destruct (Z.eqb_spec (registration_count_ st n) 1) as [E|E].
  - unfold sigaction. rewrite (h_sigaction _ _ _ _ R n Hn). eexists. split; [reflexivity|]. split_and!; try done.
    intros k. cbn. unfold insert, fn_insert. destruct (decide (k = n)) as [->|Hk]; [by rewrite !decide_True|by rewrite !decide_False by naive_solver].
  - exists st. split_and!; try done. intros k. by rewrite decide_False by tauto.
Qed.

(** What [unlink_registration] does to memory. *)
Lemma unlink_registration_fields i p r sv st :
  services st !! owner i = Some sv → (∀ q, prev_in_table_ r = Some q → is_Some (heap st !! q)) → (∀ q, next_in_table_ r = Some q → is_Some (heap st !! q)) →
  let n := signal_number_ r in
  ∃ st', unlink_registration i p r st = Ok (tt, st') ∧ same_rest st st' ∧
    heap st' = alter' (with_prev_in_table (prev_in_table_ r)) (next_in_table_ r)
      (alter' (with_next_in_table (next_in_table_ r)) (prev_in_table_ r) (heap st)) ∧
    address st' = address st ∧ impls st' = impls st ∧ handled st' = handled st ∧
    services st' = <[owner i := if decide (registrations_ sv n = Some p) then with_registration n (next_in_table_ r) sv else sv]> (services st) ∧
    registration_count_ st' = <[n := registration_count_ st n - 1]> (registration_count_ st).
Proof.
  intros Hsv Hp Hnx n. unfold unlink_registration. fold n. erewrite bind_ok by (apply get_service_ok; exact Hsv).
  set (sv' := if decide (registrations_ sv n = Some p) then with_registration n (next_in_table_ r) sv else sv).
  set (st1 := set_services (<[owner i := sv']> (services st)) st).
  assert (E1 : when (bool_decide (registrations_ sv n = Some p)) (on_service (owner i) (with_registration n (next_in_table_ r))) st = Ok (tt, st1)).
  { unfold st1, sv'. destruct (decide (registrations_ sv n = Some p)) as [Hd|Hd].
    - rewrite bool_decide_eq_true_2 by done. cbn [when]. by apply on_service_there.
    - rewrite bool_decide_eq_false_2 by done. rewrite insert_id by done. cbn. unfold mret, M_ret. by destruct st. }
  erewrite bind_ok by exact E1. erewrite bind_ok by (apply on_reg'_ok; exact Hp). set (st2 := set_heap _ st1).
  erewrite bind_ok by (apply on_reg'_ok; intros q Hq; unfold st2; rewrite heap_set; apply alter'_some; auto).
  eexists. split; [reflexivity|]. split_and!; try done. split; try done. intros s. cbn.
  destruct (decide (owner i = s)) as [<-|Hs]; [|by rewrite lookup_insert_ne]. rewrite lookup_insert_eq, Hsv. cbn. unfold sv'. by case_decide.
Qed.

(** The neighbours of a registration are in memory. *)
Lemma neighbour_some node m pend st (near : nat → list nat → option nat) i n q :
  registered node m pend st → (∀ x l a, near x l = Some a → x ∈ l ∧ a ∈ l) →
  (λ j, node j n) <$> near i (table m (owner i) n) = Some q → is_Some (heap st !! q).
Proof.
  intros R Hnear (x & Hx & ->)%fmap_Some. apply Hnear in Hx as [_ Hx]. apply elem_of_table in Hx as [_ Hx].
  rewrite (h_node _ _ _ _ R x n Hx). by eexists.
Qed.

(** The registration that [remove] and [clear] have found is taken out: [pl] is stored before or after. *)
Lemma shrink_ok node sp st st1 i n l1 l2 sv :
  represents_with node sp st → i ∈ members sp n → services st !! owner i = Some sv → signals_of (members sp) i = l1 ++ n :: l2 →
  heap st1 = alter' (with_next_in_set (node i <$> head l2)) (reg_at (place_of node i l1)) (heap st) →
  address st1 = address st → services st1 = services st → registration_count_ st1 = registration_count_ st → same_rest st st1 →
  (∀ k, handled st1 k = if decide (k = n ∧ registration_count_ st n = 1) then false else handled st k) →
  ∃ st2, unlink_registration i (node i n) (reg_of node (members sp) (pending sp) i n) st1 = Ok (tt, st2) ∧ impls st2 = impls st1 ∧
    ∀ st', heap st' = delete (node i n) (heap st2) → address st' = address st2 → services st' = services st2 →
      registration_count_ st' = registration_count_ st2 → handled st' = handled st2 → same_rest st2 st' →
      (∀ j, signals_ (impls st' j) = if decide (place_of node i l1 = AtSet j) then node i <$> head l2 else signals_ (impls st j)) →
      represents_with node (sp_members (shrunk_m (members sp) i n) sp) st'.
Proof.
  intros Rep Hi Hsv E1 Hh Ha Hse Hc Hr Hd. pose proof (r_registered _ _ _ Rep) as R. set (r := reg_of node (members sp) (pending sp) i n).
  destruct (unlink_registration_fields i (node i n) r sv st1) as (st2' & E & Hr2 & H1 & H2 & H3 & H4 & H5 & H6).
  - by rewrite Hse.
  - intros q Hq. rewrite Hh. apply alter'_some. by apply (neighbour_some node _ _ _ before i n q R before_in).
  - intros q Hq. rewrite Hh. apply alter'_some. by apply (neighbour_some node _ _ _ after i n q R after_in).
  - exists st2'. split_and!; [exact E|done|]. intros st' G1 G2 G3 G4 G5 G6 G7.
    apply (represents_rest node node (shrunk_m (members sp) i n) (pending sp) sp st st' Rep).
    { eapply same_rest_trans; [exact Hr|]. by eapply same_rest_trans. }
    apply (registered_shrunk node (members sp) (pending sp) st st' i n l1 l2 sv R Hi Hsv E1 (next_in_table_ r) (prev_in_table_ r) eq_refl eq_refl); try done.
    + by rewrite G1, H1, Hh.
    + by rewrite G2, H2, Ha.
    + by rewrite G3, H5, Hse.
    + by rewrite G4, H6, Hc.
    + intros k. by rewrite G5, H4, Hd.
Qed.

Lemma registered_ext node m m' pend st : (∀ n, m' n = m n) → registered node m pend st → registered node m' pend st.
Proof.
  intros Hm [H1 H2 H3 H4 H5 H6 H7 H8 H9 H10 H11].
  assert (Hs : ∀ i, signals_of m' i = signals_of m i) by (intros i; apply signals_ext; intros n; by rewrite Hm).
  assert (Ht : ∀ s n, table m' s n = table m s n) by (intros s n; by apply table_ext).
  split; try done.
  - intros n. by rewrite Hm.
  - intros i n. rewrite Hm. apply H2.
  - intros i n. rewrite Hm. intros Hi. rewrite (H3 i n Hi). unfold reg_of. by rewrite Hs, !Ht.
  - intros p r Hp. destruct (H4 p r Hp) as (i & n & Hi & ->). exists i, n. by rewrite Hm.
  - intros i. by rewrite Hs.
  - intros s sv n. rewrite Ht. apply H7.
  - intros i n. rewrite Hm. apply H8.
  - intros n. by rewrite Hm.
  - intros n. by rewrite Hm.
  - intros n. rewrite Hm. apply H11.
Qed.

Lemma represents_ext node sp m' st : (∀ n, m' n = members sp n) → represents_with node sp st → represents_with node (sp_members m' sp) st.
Proof.
  intros Hm Rep. apply (represents_rest node node m' (pending sp) sp st st Rep (same_rest_refl st)).
  by apply (registered_ext node (members sp)), (r_registered _ _ _ Rep).
Qed.

Lemma remove_ok node sp st i n : represents_with node sp st →
  ∃ st', remove i n st = Ok ((spec_remove i n sp).1, st') ∧ represents_with node (spec_remove i n sp).2 st'.
Proof.
  intros Rep. pose proof (r_registered _ _ _ Rep) as R. unfold remove, spec_remove.
  destruct (in_range n) eqn:Hn; cbn [negb]; [|by exists st]. apply in_range_spec in Hn.
  destruct (find_place_ok node (members sp) (pending sp) st R n i Hn) as (l1 & l2 & E1 & E2 & Hl).
  erewrite bind_ok by reflexivity. erewrite bind_ok by exact E1. cbn beta iota. erewrite bind_ok by exact E2.
  destruct (decide (i ∈ members sp n)) as [Hi|Hi].
  2:{ rewrite bool_decide_eq_false_2 by done. exists st. split; [by destruct (node i <$> head l2)|].
      apply represents_ext; [|done]. intros k. unfold insert, fn_insert. destruct (decide (n = k)) as [->|]; [by apply without_notin|done]. }
  rewrite bool_decide_eq_true_2 by done. cbn beta iota.
  assert (El : signals_of (members sp) i = l1 ++ n :: l2) by (rewrite (Hl (members sp)) by done; by rewrite decide_True).
  destruct (default_ok node _ _ st n i R Hi) as (st1 & D1 & Dh & Da & Di & Ds & Dc & Dr & Dd). erewrite bind_ok by exact D1. cbn beta iota.
  destruct (h_owned _ _ _ _ R i n Hi) as [sv Hsv]. set (r := reg_of node (members sp) (pending sp) i n).
  erewrite bind_ok by (apply get_reg_ok; rewrite Dh; exact (h_node _ _ _ _ R i n Hi)). fold r.
  assert (Hnext : next_in_set_ r = node i <$> head l2) by (unfold r; cbn; by rewrite (proj1 (proj2 (signal_in_list _ i l1 n l2 El)))).
  rewrite Hnext. destruct (store_ok (place_of node i l1) (node i <$> head l2) st1) as (st2 & F1 & Fh & Fr & Fa & Fs & Fc & Fd & Fi).
  { intros q. rewrite Dh. by apply (place_some node (members sp) (pending sp) st i l1 (n :: l2)). }
  erewrite bind_ok by exact F1.
  destruct (shrink_ok node sp st st2 i n l1 l2 sv Rep Hi Hsv El) as (st3 & U & Ui & Hrep).
  - by rewrite Fh, Dh.
  - by rewrite Fa, Da.
  - by rewrite Fs, Ds.
  - by rewrite Fc, Dc.
  - by eapply same_rest_trans.
  - intros k. by rewrite Fd, Dd.
  - erewrite bind_ok by exact U. eexists. split; [reflexivity|]. apply Hrep; try done. intros j. cbn. by rewrite Ui, Fi, Di.
Qed.

Lemma no_signals node m pend st i : registered node m pend st → signals_of m i = [] → ∀ n, without i (m n) = m n.
Proof.
  intros R E n. apply without_notin. intros Hi. assert (Hn : n ∈ signals_of m i) by (apply elem_of_signals; split; [by apply (h_range _ _ _ _ R i)|done]).
  rewrite E in Hn. by apply not_elem_of_nil in Hn.
Qed.

Lemma clear_loop_ok fuel node sp st i : represents_with node sp st → (length (signals_of (members sp) i) ≤ fuel)%nat →
  ∃ st', clear_loop fuel i st = Ok (None, st') ∧ represents_with node (spec_clear i sp) st'.
Proof.
  revert sp st. induction fuel as [|fuel IH]; intros sp st Rep Hf; pose proof (r_registered _ _ _ Rep) as R; cbn [clear_loop];
    erewrite bind_ok by reflexivity; rewrite (h_set _ _ _ _ R); destruct (signals_of (members sp) i) as [|n l2] eqn:El; [|cbn in Hf; lia|..].
  1, 2: exists st; (split; [done|]); apply represents_ext; [by apply (no_signals node _ (pending sp) st)|done].
  destruct (signal_in_list (members sp) i [] n l2 El) as (Hi & Ha & _). cbn [head fmap option_fmap option_map].
  destruct (h_owned _ _ _ _ R i n Hi) as [sv Hsv]. set (r := reg_of node (members sp) (pending sp) i n).
  erewrite bind_ok by (apply get_reg_ok; exact (h_node _ _ _ _ R i n Hi)). fold r. change (signal_number_ r) with n.
  destruct (default_ok node _ _ st n i R Hi) as (st1 & D1 & Dh & Da & Di & Ds & Dc & Dr & Dd). erewrite bind_ok by exact D1. cbn beta iota.
  destruct (shrink_ok node sp st st1 i n [] l2 sv Rep Hi Hsv El) as (st2 & U & Ui & Hrep); try done.
  erewrite bind_ok by exact U. assert (Hnext : next_in_set_ r = node i <$> head l2) by (unfold r; cbn; by rewrite Ha).
  rewrite Hnext. do 2 (erewrite bind_ok by reflexivity). set (st3 := set_heap _ _).
  assert (Rep3 : represents_with node (sp_members (shrunk_m (members sp) i n) sp) st3).
  { apply Hrep; try done.
    - split; try done. intros j. cbn. unfold insert, fn_insert. by destruct (decide (i = j)) as [->|].
    - intros j. cbn. rewrite Ui, Di. unfold insert, fn_insert. destruct (decide (i = j)) as [->|Hj]; [by rewrite decide_True|].
      by rewrite decide_False by (unfold place_of; cbn; congruence). }
  destruct (IH _ st3 Rep3) as (st' & E & Rep').
  { cbn. rewrite shrunk_signals, decide_True, El by done. cbn in Hf. cbn. rewrite decide_True by done.
    pose proof (NoDup_signals (members sp) i) as Hnd. rewrite El in Hnd. apply NoDup_cons in Hnd as [Hn _]. rewrite without_notin by done. lia. }
  exists st'. split; [exact E|]. assert (Hm : ∀ k, without i (members sp k) = without i (shrunk_m (members sp) i n k)).
  { intros k. rewrite shrunk_at. destruct (decide (k = n)) as [->|]; [|done]. symmetry. apply without_notin. rewrite elem_of_without. tauto. }
  apply (represents_ext node _ (λ k, without i (members sp k)) st') in Rep'; [exact Rep'|exact Hm].
Qed.

Lemma clear_ok node sp st i : represents_with node sp st → ∃ st', clear i st = Ok (None, st') ∧ represents_with node (spec_clear i sp) st'.
Proof. intros Rep. apply clear_loop_ok; [done|]. apply length_signals. Qed.

(** ** Waits, posts and counts *)

(** Nothing has changed that registrations are about. *)
Record same_sets st st' : Prop := {
  m_heap : heap st' = heap st;
  m_address : address st' = address st;
  m_signals : ∀ i, signals_ (impls st' i) = signals_ (impls st i);
  m_registrations : ∀ s, registrations_ <$> services st' !! s = registrations_ <$> services st !! s;
  m_count : registration_count_ st' = registration_count_ st;
  m_handled : handled st' = handled st
}.

Lemma registered_keep node m pend st st' : same_sets st st' → registered node m pend st → registered node m pend st'.
Proof.
  intros [Eh Ea Ei Es Ec Ed] [H1 H2 H3 H4 H5 H6 H7 H8 H9 H10 H11]. split; try done.
  - intros i n. rewrite Eh. apply H3.
  - intros p r. rewrite Eh. apply H4.
  - intros p. rewrite Eh, Ea. apply H5.
  - intros i. rewrite Ei. apply H6.
  - intros s sv n Hs. specialize (Es s). rewrite Hs in Es. destruct (services st !! s) as [sv0|] eqn:E0; [|done].
    cbn in Es. injection Es as ->. by apply (H7 s).
  - intros i n Hi. specialize (Es (owner i)). destruct (H8 i n Hi) as [sv Hsv]. rewrite Hsv in Es.
    destruct (services st' !! owner i); [by eexists|done].
  - intros n. rewrite Ec. apply H9.
  - intros n. rewrite Ed. apply H10.
Qed.

Lemma same_sets_service st s f sv : services st !! s = Some sv → registrations_ (f sv) = registrations_ sv →
  same_sets st (set_services (<[s := f sv]> (services st)) st).
Proof.
  intros Hs Hf. split; try done. intros s'. cbn. destruct (decide (s = s')) as [<-|Hne]; [|by rewrite lookup_insert_ne].
  rewrite lookup_insert_eq, Hs. cbn. by rewrite Hf.
Qed.

(** A member of a service other than its table and its place in the list changes. *)
Lemma on_service_ok' node sp sp' st s (f : service → service) :
  represents_with node sp st → s ∈ known sp →
  members sp' = members sp → pending sp' = pending sp → waiting sp' = waiting sp → live sp' = live sp → in_pipe sp' = in_pipe sp →
  forking sp' = forking sp → known sp' = known sp →
  (∀ sv, registrations_ (f sv) = registrations_ sv) → (∀ sv, service_as sp s sv → service_as sp' s (f sv)) →
  (∀ s' sv, s' ≠ s → service_as sp s' sv → service_as sp' s' sv) →
  ∃ st', on_service s f st = Ok (tt, st') ∧ represents_with node sp' st'.
Proof.
  intros [R1 R2 R3 R4 R5 R6 R7 R8 R9] Hs E1 E2 E3 E4 E5 E6 E7 Hf Hfs Hother. apply R4 in Hs as [sv Hsv].
  eexists. split; [by apply on_service_there|]. split; cbn; rewrite ?E1, ?E2, ?E3, ?E4, ?E5, ?E6, ?E7; try done.
  - apply (registered_keep _ _ _ st); [|done]. by apply same_sets_service.
  - intros s' sv' Hs'. destruct (decide (s = s')) as [<-|Hne].
    + rewrite lookup_insert_eq in Hs'. injection Hs' as <-. by apply Hfs, R3.
    + rewrite lookup_insert_ne in Hs' by done. apply Hother; [done|]. by apply R3.
  - intros s'. rewrite R4. rewrite lookup_insert_is_Some'. split; [by right|]. intros [<-|H]; [by eexists|done].
Qed.

Lemma post_ok node sp st s l : represents_with node sp st → s ∈ known sp →
  ∃ st', post_deferred_completions s l st = Ok (tt, st') ∧ represents_with node (sp_out s l sp) st'.
Proof. intros Rep Hs. apply (on_service_ok' node sp _ st s (with_posted l) Rep Hs); service_member. Qed.

Lemma work_ok node sp st s k : represents_with node sp st → s ∈ known sp →
  ∃ st', on_service s (with_work k) st = Ok (tt, st') ∧ represents_with node (sp_work s k sp) st'.
Proof. intros Rep Hs. apply (on_service_ok' node sp _ st s (with_work k) Rep Hs); service_member. Qed.

Lemma reactor_ok node sp st s b : represents_with node sp st → s ∈ known sp →
  ∃ st', on_service s (with_reactor b) st = Ok (tt, st') ∧ represents_with node (sp_watching s b sp) st'.
Proof. intros Rep Hs. apply (on_service_ok' node sp _ st s (with_reactor b) Rep Hs); service_member. Qed.

Lemma waiting_ok node sp st i l : represents_with node sp st →
  represents_with node (sp_waiting i l sp) (set_impl i (set_waits l (impls st i)) st).
Proof.
  intros [R1 R2 R3 R4 R5 R6 R7 R8 R9]. split; try done.
  - apply (registered_keep _ _ _ st); [|done]. split; try done. intros j. cbn. unfold insert, fn_insert. by destruct (decide (i = j)) as [->|].
  - intros j. cbn. unfold insert, fn_insert. destruct (decide (i = j)); [done|apply R2].
  - intros s sv Hs. destruct (R3 s sv Hs). by split.
Qed.

Lemma pending_ok node sp st i n k : represents_with node sp st → i ∈ members sp n →
  ∃ st', on_reg (node i n) (with_undelivered k) st = Ok (tt, st') ∧ represents_with node (sp_pending i n k sp) st'.
Proof.
  intros Rep Hi. pose proof (r_registered _ _ _ Rep) as R. pose proof (h_node _ _ _ _ R i n Hi) as Hr.
  eexists. split; [apply on_reg_ok; by eexists|].
  apply (represents_rest node node (members sp) _ sp st _ Rep); [by split|]. destruct R as [H1 H2 H3 H4 H5 H6 H7 H8 H9 H10 H11].
  split; [exact H1|exact H2| | | |exact H6|exact H7|exact H8|exact H9|exact H10|exact H11].
  - intros j k' Hj. rewrite heap_set, lookup_alter', (H3 j k' Hj). cbn. f_equal. unfold insert, fn_insert.
    destruct (decide (Some (node i n) = Some (node j k'))) as [E|E].
    + injection E as E. rewrite E, (H3 j k' Hj) in Hr. injection Hr as -> -> _. unfold reg_of, with_undelivered. cbn. by rewrite !decide_True.
    + unfold reg_of. cbn. destruct (decide (i = j)) as [->|]; [|done]. by rewrite decide_False by congruence.
  - intros p r. rewrite heap_set, lookup_alter'. intros Hp. destruct (heap st !! p) as [r0|] eqn:E0; [|done]. by apply (H4 p r0).
  - intros p. rewrite heap_set, alter'_some. apply H5.
Qed.

Lemma cancel_set_ok node sp st i : represents_with node sp st → owner i ∈ known sp →
  ∃ st', cancel i st = Ok (tt, st') ∧ represents_with node (spec_cancel i sp) st'.
Proof.
  intros Rep Hs. unfold cancel, spec_cancel. erewrite bind_ok by reflexivity. erewrite bind_ok by reflexivity. rewrite (r_waits _ _ _ Rep).
  apply post_ok; [by apply waiting_ok|done].
Qed.

Lemma destroy_ok node sp st i : represents_with node sp st → owner i ∈ known sp →
  ∃ st', destroy i st = Ok (tt, st') ∧ represents_with node (spec_destroy i sp) st'.
Proof.
  intros Rep Hs. unfold destroy, spec_destroy. destruct (clear_ok node sp st i Rep) as (st1 & E1 & Rep1). erewrite bind_ok by exact E1.
  by apply cancel_set_ok.
Qed.

Lemma undelivered_ok fuel node sp st i l1 l2 op : represents_with node sp st → signals_of (members sp) i = l1 ++ l2 → (length l2 ≤ fuel)%nat →
  let found := List.find (λ n, 0 <? pending sp i n) l2 in
  ∃ st', undelivered_loop fuel (node i <$> head l2) op st = Ok ((λ n, set_signal n op) <$> found, st') ∧
    represents_with node (match found with Some n => sp_pending i n (pending sp i n - 1) sp | None => sp end) st'.
Proof.
  intros Rep. revert fuel l1. induction l2 as [|n l2 IH]; intros fuel l1 El Hf; [exists st; by destruct fuel|].
  destruct fuel as [|fuel]; [cbn in Hf; lia|]. destruct (signal_in_list (members sp) i l1 n l2 El) as (Hi & Ha & _).
  pose proof (h_node _ _ _ _ (r_registered _ _ _ Rep) i n Hi) as Hr. cbn [undelivered_loop head fmap option_fmap option_map List.find].
  erewrite bind_ok by (apply get_reg_ok; exact Hr). cbn [undelivered_ reg_of].
  destruct (0 <? pending sp i n).
  - destruct (pending_ok node sp st i n (pending sp i n - 1) Rep Hi) as (st' & E & Rep'). erewrite bind_ok by exact E. by exists st'.
  - cbn [next_in_set_ reg_of]. rewrite Ha. apply (IH fuel (l1 ++ [n])); [by rewrite <- app_assoc|cbn in Hf; lia].
Qed.

Lemma wait_ok node sp st i op : represents_with node sp st → owner i ∈ known sp →
  ∃ st', start_wait_op i op st = Ok (tt, st') ∧ represents_with node (spec_wait i op sp) st'.
Proof.
  intros Rep Hs. unfold start_wait_op, spec_wait. destruct (work_ok node sp st (owner i) 1 Rep Hs) as (st1 & E1 & Rep1).
  erewrite bind_ok by exact E1. set (sp1 := sp_work (owner i) 1 sp) in *. erewrite bind_ok by reflexivity.
  rewrite (h_set _ _ _ _ (r_registered _ _ _ Rep1)). change (members sp) with (members sp1) in *.
  destruct (undelivered_ok (S set_fuel) node sp1 st1 i [] (signals_of (members sp1) i) op Rep1 eq_refl) as (st2 & E2 & Rep2).
  { pose proof (length_signals (members sp1) i). lia. }
  erewrite bind_ok by exact E2. fold (first_pending i sp1) in *. destruct (first_pending i sp1) as [n|]; cbn [fmap option_fmap option_map].
  - by apply post_ok.
  - eexists. split; [reflexivity|]. rewrite <- (r_waits _ _ _ Rep2). by apply waiting_ok.
Qed.

(** ** Delivering *)

Lemma touch_members n i sp : members (touch n i sp) = members sp ∧ known (touch n i sp) = known sp ∧ live (touch n i sp) = live sp.
Proof. unfold touch. by destruct (waiting sp i). Qed.

Lemma touch_all_pipe n l sp : in_pipe (touch_all n l sp).2 = in_pipe sp.
Proof. revert sp. induction l as [|i l IH]; intros sp; [done|]. cbn. rewrite IH. unfold touch. by destruct (waiting sp i). Qed.

Lemma spec_deliver_pipe n sp : in_pipe (spec_deliver n sp) = in_pipe sp.
Proof.
  unfold spec_deliver. generalize (live sp). intros l. revert sp. induction l as [|s l IH]; intros sp; [done|]. cbn [foldl]. rewrite IH.
  apply touch_all_pipe.
Qed.

Lemma touch_all_members n l sp : let sp' := (touch_all n l sp).2 in members sp' = members sp ∧ known sp' = known sp ∧ live sp' = live sp.
Proof.
  revert sp. induction l as [|i l IH]; intros sp; [done|]. cbn [touch_all snd]. destruct (IH (touch n i sp)) as (-> & -> & ->). apply touch_members.
Qed.

(** A registration of the table gets the signal. *)
Lemma touch_ok node sp st n i : represents_with node sp st → i ∈ members sp n →
  let r := reg_of node (members sp) (pending sp) i n in
  ∃ st', (match waiting sp i with
          | [] => on_reg (node i n) (with_undelivered (undelivered_ r + 1))
          | _ => on_impl i (set_waits [])
          end) st = Ok (tt, st') ∧ represents_with node (touch n i sp) st'.
Proof.
  intros Rep Hi. unfold touch. destruct (waiting sp i) as [|op ops]; [by apply pending_ok|]. eexists. split; [reflexivity|]. by apply waiting_ok.
Qed.

Lemma deliver_loop_ok fuel node sp st n s l1 l2 ops : represents_with node sp st → table (members sp) s n = l1 ++ l2 → (length l2 ≤ fuel)%nat →
  ∃ st', deliver_loop fuel n ((λ j, node j n) <$> head l2) ops st = Ok (ops ++ (touch_all n l2 sp).1, st') ∧
    represents_with node (touch_all n l2 sp).2 st'.
Proof.
  revert fuel sp st l1 ops. induction l2 as [|i l2 IH]; intros fuel sp st l1 ops Rep El Hf; [exists st; cbn; rewrite app_nil_r; by destruct fuel|].
  destruct fuel as [|fuel]; [cbn in Hf; lia|]. pose proof (r_registered _ _ _ Rep) as R.
  assert (Hi : owner i = s ∧ i ∈ members sp n) by (apply elem_of_table; rewrite El; apply elem_of_app; right; by left).
  destruct Hi as [Ho Hi]. set (r := reg_of node (members sp) (pending sp) i n).
  cbn [fmap option_fmap option_map head deliver_loop]. erewrite bind_ok by (apply get_reg_ok; exact (h_node _ _ _ _ R i n Hi)). fold r.
  erewrite bind_ok by reflexivity. change (queue_ r) with i. rewrite (r_waits _ _ _ Rep).
  destruct (touch_ok node sp st n i Rep Hi) as (st1 & E1 & Rep1). erewrite bind_ok by exact E1.
  destruct (touch_members n i sp) as (Hm & _ & _). assert (Hi1 : i ∈ members (touch n i sp) n) by by rewrite Hm.
  erewrite bind_ok by (apply get_reg_ok; exact (h_node _ _ _ _ (r_registered _ _ _ Rep1) i n Hi1)).
  cbn [next_in_table_ reg_of]. rewrite Hm, Ho. assert (Ha : after i (table (members sp) s n) = head l2).
  { rewrite El. apply after_here. pose proof (NoDup_table (members sp) s n (h_nodup _ _ _ _ R n)) as Hnd. rewrite El in Hnd.
    apply NoDup_app in Hnd as (_ & H & _). intros Hx. apply (H i Hx). by left. }
  rewrite Ha. destruct (IH fuel (touch n i sp) st1 (l1 ++ [i]) (ops ++ map (set_signal n) (waiting sp i)) Rep1) as (st' & E & Rep').
  - by rewrite Hm, <- app_assoc.
  - cbn in Hf. lia.
  - exists st'. cbn [touch_all fst snd]. by rewrite app_assoc.
Qed.

(** As many addresses as elements. *)
Lemma length_size {A} (h : gmap nat A) (l : list nat) : NoDup l → (∀ x, x ∈ l → is_Some (h !! x)) → (length l ≤ size h)%nat.
Proof.
  intros Hnd Hin. rewrite <- size_dom, <- (size_list_to_set (C := gset nat) l Hnd). apply subseteq_size.
  intros x Hx%elem_of_list_to_set. by apply elem_of_dom, Hin.
Qed.

Lemma length_table node m pend st s n : registered node m pend st → (length (table m s n) ≤ size (heap st))%nat.
Proof.
  intros R. rewrite <- (length_fmap (λ j, node j n)). apply length_size.
  - apply NoDup_fmap_2_strong; [|apply NoDup_table, (h_nodup _ _ _ _ R)].
    intros x y [_ Hx]%elem_of_table [_ Hy]%elem_of_table E. by apply (node_inj node m pend st R x n y n).
  - intros q (x & -> & [_ Hx]%elem_of_table)%list_elem_of_fmap. rewrite (h_node _ _ _ _ R x n Hx). by eexists.
Qed.

Lemma deliver_members n s sp : members (deliver_to n s sp) = members sp ∧ known (deliver_to n s sp) = known sp ∧ live (deliver_to n s sp) = live sp.
Proof. unfold deliver_to. cbn. apply touch_all_members. Qed.

Lemma services_loop_ok fuel node sp st n l1 l2 : represents_with node sp st → live sp = l1 ++ l2 → (length l2 ≤ fuel)%nat →
  ∃ st', services_loop fuel n (head l2) st = Ok (tt, st') ∧ represents_with node (foldl (λ sp s, deliver_to n s sp) sp l2) st'.
Proof.
  revert fuel sp st l1. induction l2 as [|s l2 IH]; intros fuel sp st l1 Rep El Hf; [exists st; by destruct fuel|].
  destruct fuel as [|fuel]; [cbn in Hf; lia|]. pose proof (r_registered _ _ _ Rep) as R.
  assert (Hs : s ∈ known sp) by (apply (r_live _ _ _ Rep); rewrite El; apply elem_of_app; right; by left).
  destruct (proj1 (r_known _ _ _ Rep s) Hs) as [sv Hsv]. cbn [head services_loop]. erewrite bind_ok by (apply get_service_ok; exact Hsv).
  erewrite bind_ok by reflexivity. rewrite (h_table _ _ _ _ R s sv n Hsv).
  destruct (deliver_loop_ok (size (heap st)) node sp st n s [] (table (members sp) s n) [] Rep eq_refl) as (st1 & E1 & Rep1);
    [by apply (length_table node _ (pending sp))|].
  erewrite bind_ok by exact E1. destruct (touch_all_members n (table (members sp) s n) sp) as (Em & Ek & Elv).
  destruct (post_ok node _ st1 s (touch_all n (table (members sp) s n) sp).1 Rep1) as (st2 & E2 & Rep2); [by rewrite Ek|].
  erewrite bind_ok by exact E2. fold (deliver_to n s sp) in Rep2.
  assert (Hs2 : s ∈ known (deliver_to n s sp)) by (by rewrite (proj1 (proj2 (deliver_members n s sp)))).
  destruct (proj1 (r_known _ _ _ Rep2 s) Hs2) as [sv2 Hsv2]. erewrite bind_ok by (apply get_service_ok; exact Hsv2).
  rewrite (v_next _ _ _ (r_services _ _ _ Rep2 s sv2 Hsv2)), (proj2 (proj2 (deliver_members n s sp))).
  assert (Ha : after s (live sp) = head l2).
  { rewrite El. apply after_here. pose proof (proj1 (r_live _ _ _ Rep)) as Hnd. rewrite El in Hnd.
    apply NoDup_app in Hnd as (_ & H & _). intros Hx. apply (H s Hx). by left. }
  rewrite Ha. apply (IH fuel (deliver_to n s sp) st2 (l1 ++ [s]) Rep2).
  - by rewrite (proj2 (proj2 (deliver_members n s sp))), <- app_assoc.
  - cbn in Hf. lia.
Qed.

Lemma deliver_ok node sp st n : represents_with node sp st →
  ∃ st', deliver_signal n st = Ok (tt, st') ∧ represents_with node (spec_deliver n sp) st'.
Proof.
  intros Rep. unfold deliver_signal, spec_deliver. do 2 (erewrite bind_ok by reflexivity). rewrite (r_list _ _ _ Rep).
  apply (services_loop_ok _ node sp st n []); [done|done|]. apply length_size; [apply (r_live _ _ _ Rep)|].
  intros s Hs. by apply (r_known _ _ _ Rep), (r_live _ _ _ Rep).
Qed.

(** ** The pipe *)

Lemma pipe_ok node sp st l : represents_with node sp st →
  represents_with node (sp_pipe l sp) (set_pipe (negb (bool_decide (live sp = []))) l st).
Proof.
  intros [R1 R2 R3 R4 R5 R6 R7 R8 R9]. split; try done.
  - by apply (registered_keep _ _ _ st).
  - intros s sv Hs. destruct (R3 s sv Hs). by split.
Qed.

Lemma signalled_ok node sp st n : represents_with node sp st →
  ∃ st', signalled n st = Ok ((spec_signalled n sp).1, st') ∧ represents_with node (spec_signalled n sp).2 st'.
Proof.
  intros Rep. unfold signalled, spec_signalled. erewrite bind_ok by reflexivity. rewrite (h_handled _ _ _ _ (r_registered _ _ _ Rep)).
  destruct (decide (members sp n = [])) as [Hn|Hn]; [rewrite bool_decide_eq_false_2 by tauto; by exists st|].
  rewrite bool_decide_eq_true_2 by done. cbn [when]. erewrite bind_ok by reflexivity. eexists. split; [reflexivity|].
  rewrite (r_open _ _ _ Rep), (r_pipe _ _ _ Rep). cbn [snd].
  destruct (negb (bool_decide (live sp = []))) eqn:Eo; [|done]. destruct (length (in_pipe sp) <? pipe_capacity)%nat; [|done]. cbn [andb].
  pose proof (pipe_ok node sp st (in_pipe sp ++ [n]) Rep) as H. by rewrite Eo in H.
Qed.

Lemma spec_deliver_live n sp : members (spec_deliver n sp) = members sp ∧ known (spec_deliver n sp) = known sp ∧ live (spec_deliver n sp) = live sp.
Proof.
  unfold spec_deliver. assert (H : ∀ l sp, let sp' := foldl (λ sp s, deliver_to n s sp) sp l in
    members sp' = members sp ∧ known sp' = known sp ∧ live sp' = live sp); [|apply H].
  clear sp. induction l as [|s l IH]; intros sp; [done|]. cbn [foldl]. destruct (IH (deliver_to n s sp)) as (-> & -> & ->). apply deliver_members.
Qed.

Lemma read_loop_ok l node sp st : represents_with node sp st → in_pipe sp = l →
  ∃ st', read_loop (length l) st = Ok (tt, st') ∧ represents_with node (spec_read l sp) st'.
Proof.
  revert sp st. induction l as [|n l IH]; intros sp st Rep El; cbn [length read_loop]; [by exists st|].
  erewrite bind_ok by reflexivity. rewrite (r_pipe _ _ _ Rep), El.
  cbn [spec_read]. erewrite bind_ok by reflexivity. rewrite (r_open _ _ _ Rep). pose proof (pipe_ok node sp st l Rep) as Rep1.
  set (st1 := set_pipe _ _ st) in *. destruct (in_range n); cbn [when]; [|by apply (IH (sp_pipe l sp) st1 Rep1)].
  destruct (deliver_ok node _ st1 n Rep1) as (st2 & E2 & Rep2). erewrite bind_ok by exact E2. apply (IH _ st2 Rep2).
  by rewrite spec_deliver_pipe.
Qed.

Lemma pipe_read_ok node sp st : represents_with node sp st →
  ∃ st', pipe_read st = Ok (tt, st') ∧ represents_with node (spec_read (in_pipe sp) sp) st'.
Proof.
  intros Rep. unfold pipe_read. erewrite bind_ok by reflexivity. rewrite (r_pipe _ _ _ Rep). by apply read_loop_ok.
Qed.

End Refine.
