(* ===== verification/SignalServices.v ===== *)
(** * The services of the signal sets (asio/detail/impl/signal_set_service.ipp)

    The doubly linked list of the services, what a fork does, and the completions that the
    schedulers run: as the specification says. *)

From Stdlib Require Import ZArith Lia.
From stdpp Require Import base gmap functions numbers list.
From S2P Require Import Prelude.
From S2P Require Import Chain.
From S2P Require Import SignalSet.
From S2P Require Import SignalSpec.
From S2P Require Import SignalRefine.

#[local] Open Scope Z_scope.

Section Services.
Context `{W : Surroundings}.
Implicit Types (i s : nat) (n k : Z) (st : signal_state) (sp : sigspec) (node : nat → Z → nat).

(** ** The list *)

Lemma on_service_some f s st : is_Some (services st !! s) → on_service s f st = Ok (tt, set_services (alter' f (Some s) (services st)) st).
Proof. intros [sv Hs]. unfold on_service. rewrite Hs. cbn. by rewrite (alter_some f s _ sv). Qed.

Lemma on_service'_ok f p st : (∀ s, p = Some s → is_Some (services st !! s)) →
  on_service' p f st = Ok (tt, set_services (alter' f p (services st)) st).
Proof.
  destruct p as [s|]; intros H; [by apply on_service_some, H|]. cbn. unfold mret, M_ret. by destruct st.
Qed.

Lemma services_set m st : services (set_services m st) = m.
Proof. done. Qed.

Lemma services_list l st : services (set_list l st) = services st.
Proof. done. Qed.

Ltac services_simpl := repeat first [rewrite services_set | rewrite services_list | rewrite alter'_some].

(** Nothing but the services, their list and the pipe has changed. *)
Lemma services_changed node sp st st' (g : nat → service → service) live' pipe' watching' :
  represents_with node sp st →
  heap st' = heap st → address st' = address st → impls st' = impls st → registration_count_ st' = registration_count_ st →
  handled st' = handled st → fork_prepared_ st' = fork_prepared_ st →
  (∀ s, services st' !! s = g s <$> services st !! s) → (∀ s sv, registrations_ (g s sv) = registrations_ sv) →
  NoDup live' → (∀ s, s ∈ live' → s ∈ known sp) → service_list_ st' = head live' →
  descriptors_ st' = negb (bool_decide (live' = [])) → pipe_ st' = pipe' →
  let sp' := mkSpec (members sp) (pending sp) (waiting sp) live' pipe' (forking sp) (known sp) (locks sp) watching' (out sp) (ended sp) (work sp) in
  (∀ s sv, service_as sp s sv → service_as sp' s (g s sv)) → represents_with node sp' st'.
Proof.
  intros [R1 R2 R3 R4 R5 R6 R7 R8 R9] Eh Ea Ei Ec Ed Ef Es Eg Hnd Hl El Eo Ep sp' Hv. split; cbn; try done.
  - apply (registered_keep _ _ _ st); [|done]. split; try done; [intros j; by rewrite Ei|]. intros s. rewrite Es.
    destruct (services st !! s); [cbn; by rewrite Eg|done].
  - intros j. rewrite Ei. apply R2.
  - intros s sv Hs. rewrite Es in Hs. apply fmap_Some in Hs as (sv0 & Hs & ->). by apply Hv, R3.
  - intros s. rewrite Es, fmap_is_Some. apply R4.
  - congruence.
Qed.

Lemma head_known node sp st f : represents_with node sp st → head (live sp) = Some f → is_Some (services st !! f).
Proof. intros Rep Hf. apply (r_known _ _ _ Rep), (r_live _ _ _ Rep). destruct (live sp); [done|]. injection Hf as ->. by left. Qed.

(** The service becomes the first. *)
Definition linked (s : nat) (l : option nat) (s' : nat) (sv : service) : service :=
  (if decide (Some s = Some s') then with_reactor true else id)
    ((if decide (l = Some s') then with_prev (Some s) else id)
      ((if decide (Some s = Some s') then with_prev None else id)
        ((if decide (Some s = Some s') then with_next l else id) sv))).

Lemma linked_as node sp st s s' sv pipe' : represents_with node sp st → s ∉ live sp → service_as sp s' sv →
  service_as (sp_watching s true (sp_live (s :: live sp) (sp_pipe pipe' sp))) s' (linked s (head (live sp)) s' sv).
Proof.
  intros Rep Hs [V1 V2 V3 V4 V5 V6 V7]. unfold linked, sp_watching. assert (Hh : head (live sp) ≠ Some s) by (intros E; apply Hs; destruct (live sp); [done|injection E as ->; by left]).
  destruct (decide (Some s = Some s')) as [E|E]; [injection E as <-; rewrite (decide_False (P := head (live sp) = Some s)) by done|].
  - split; cbn; try done; [by rewrite decide_True|rewrite decide_False by done; by apply eq_sym, before_notin|by rewrite fn_lookup_insert].
  - assert (Hne : s ≠ s') by congruence. destruct (decide (head (live sp) = Some s')) as [Eh|Eh]; split; cbn; try done.
    all: try by rewrite decide_False.
    all: try by rewrite decide_True.
    all: by rewrite fn_lookup_insert_ne.
Qed.

Definition link_service (s : nat) (l : option nat) : M signal_state (option failure) :=
  on_service s (with_next l);;
  on_service s (with_prev None);;
  on_service' l (with_prev (Some s));;
  modify (set_list (Some s));;
  on_service s (with_reactor true);;
  mret None.

Lemma link_service_ok node sp st s pipe' : represents_with node sp st → s ∈ known sp → s ∉ live sp →
  ∃ st', link_service s (head (live sp)) (set_pipe true pipe' st) = Ok (None, st') ∧
    represents_with node (sp_watching s true (sp_live (s :: live sp) (sp_pipe pipe' sp))) st'.
Proof.
  intros Rep Hk Hs. pose proof (proj1 (r_known _ _ _ Rep s) Hk) as Hsv. unfold link_service.
  erewrite bind_ok by (apply on_service_some; exact Hsv).
  erewrite bind_ok by (apply on_service_some; rewrite services_set, alter'_some; exact Hsv).
  erewrite bind_ok by (apply on_service'_ok; intros f Hf; rewrite !services_set, !alter'_some; exact (head_known node sp st f Rep Hf)).
  erewrite bind_ok by reflexivity.
  erewrite bind_ok by (apply on_service_some; rewrite services_list, !services_set, !alter'_some; exact Hsv).
  eexists. split; [reflexivity|]. apply (services_changed node sp st _ (linked s (head (live sp))) (s :: live sp) pipe'); try done.
  - intros s'. repeat rewrite services_set, ?services_list. by rewrite !lookup_alter', <- !option_fmap_compose.
  - intros s' sv. unfold linked. by repeat case_decide.
  - constructor; [done|]. apply (r_live _ _ _ Rep).
  - intros s' [-> |Hs']%elem_of_cons; [done|]. by apply (r_live _ _ _ Rep).
  - intros s' sv. by apply (linked_as node sp st).
Qed.

Lemma pipe_same sp st node : represents_with node sp st → live sp ≠ [] → set_pipe true (in_pipe sp) st = st.
Proof.
  intros Rep Hl. pose proof (r_open _ _ _ Rep) as Ho. rewrite bool_decide_eq_false_2 in Ho by done. rewrite <- (r_pipe _ _ _ Rep).
  destruct st; cbn in *. by subst.
Qed.

Lemma add_service_ok node sp st s p : represents_with node sp st → s ∈ known sp → s ∉ live sp →
  ∃ st', add_service s p st = Ok ((spec_add_service s p sp).1, st') ∧ represents_with node (spec_add_service s p sp).2 st'.
Proof.
  intros Rep Hk Hs. unfold add_service, spec_add_service. erewrite bind_ok by reflexivity. rewrite (r_list _ _ _ Rep).
  destruct (proj1 (r_known _ _ _ Rep s) Hk) as [sv Hsv]. destruct (live sp) as [|f l] eqn:El; cbn [head].
  - rewrite bool_decide_eq_true_2 by done. destruct p; cbn [andb negb]; [|by exists st].
    cbn [when]. erewrite bind_ok by reflexivity. erewrite bind_ok by (apply get_service_ok; exact Hsv). erewrite bind_ok by reflexivity.
    cbn [negb]. pose proof (link_service_ok node sp st s [] Rep Hk) as H. rewrite El in H. by apply H.
  - rewrite bool_decide_eq_false_2 by done. cbn [andb when]. erewrite bind_ok by reflexivity.
    erewrite bind_ok by (apply get_service_ok; exact Hsv). assert (Hf : f ∈ known sp) by (apply (r_live _ _ _ Rep); rewrite El; by left).
    destruct (proj1 (r_known _ _ _ Rep f) Hf) as [fv Hfv].
    assert (E : (fv ← get_service f; mret (locking sv && locking fv)) st = Ok (locks sp s && locks sp f, st)).
    { erewrite bind_ok by (apply get_service_ok; exact Hfv).
      by rewrite (v_locking _ _ _ (r_services _ _ _ Rep s sv Hsv)), (v_locking _ _ _ (r_services _ _ _ Rep f fv Hfv)). }
    erewrite bind_ok by exact E. destruct (locks sp s && locks sp f); cbn [negb]; [|by exists st].
    assert (Hl : live sp ≠ []) by by rewrite El. pose proof (link_service_ok node sp st s (in_pipe sp) Rep Hk) as H.
    rewrite (pipe_same sp st node Rep Hl), El in H. destruct (H Hs) as (st' & E' & Rep'). exists st'. split; [exact E'|]. by destruct sp.
Qed.

(** A service that the state does not know yet has no sets with signals. *)
Lemma known_ok node sp st s b : represents_with node sp st → s ∉ known sp →
  represents_with node (sp_known s b sp) (set_services (<[s := make_service b]> (services st)) st).
Proof.
  intros [R1 R2 R3 R4 R5 R6 R7 R8 R9] Hs. assert (Hl : s ∉ live sp) by (intros H; apply Hs; by apply R5).
  assert (Hn : services st !! s = None) by (apply eq_None_not_Some; by rewrite <- R4).
  split; try done.
  - destruct R1 as [H1 H2 H3 H4 H5 H6 H7 H8 H9 H10 H11]. split; try done.
    + intros s' sv n. rewrite services_set. change (members (sp_known s b sp)) with (members sp).
      destruct (decide (s = s')) as [<-|Hne]; [|rewrite lookup_insert_ne by done; apply H7].
      rewrite lookup_insert_eq. intros [= <-]. destruct (table (members sp) s n) as [|i l] eqn:Et; [done|].
      assert (Hi : i ∈ table (members sp) s n) by (rewrite Et; by left). apply elem_of_table in Hi as [Ho Hi].
      destruct (H8 i n Hi) as [sv Hsv]. by rewrite Ho, Hn in Hsv.
    + intros i n Hi. cbn. apply lookup_insert_is_Some'. right. by apply (H8 i n).
  - intros s' sv. cbn. destruct (decide (s = s')) as [<-|Hne].
    + rewrite lookup_insert_eq. intros [= <-]. split; cbn; rewrite ?fn_lookup_insert; try done; symmetry; [by apply after_notin|by apply before_notin].
    + rewrite lookup_insert_ne by done. intros H%R3. destruct H. split; cbn; by rewrite ?fn_lookup_insert_ne.
  - intros s'. cbn. rewrite lookup_insert_is_Some', <- R4. set_solver.
  - cbn. split; [apply R5|]. intros s' H%R5. set_solver.
Qed.

Lemma create_ok node sp st s b p : represents_with node sp st → s ∉ known sp →
  ∃ st', create_service s b p st = Ok ((spec_create s b p sp).1, st') ∧ represents_with node (spec_create s b p sp).2 st'.
Proof.
  intros Rep Hs. unfold create_service, spec_create. erewrite bind_ok by reflexivity.
  apply add_service_ok; [by apply known_ok|cbn; set_solver|]. intros H. apply Hs. by apply (r_live _ _ _ Rep).
Qed.

(** The neighbours of a service that leaves, and the service itself. *)
Definition unlinked (s : nat) (next prev : option nat) (s' : nat) (sv : service) : service :=
  (if decide (Some s = Some s') then with_prev None else id)
    ((if decide (Some s = Some s') then with_next None else id)
      ((if decide (next = Some s') then with_prev prev else id)
        ((if decide (prev = Some s') then with_next next else id)
          ((if decide (Some s = Some s') then with_reactor false else id) sv)))).

Lemma unlinked_as sp s s' sv pipe' : NoDup (live sp) → service_as sp s' sv →
  service_as (sp_pipe pipe' (sp_live (without s (live sp)) (sp_watching s false sp))) s' (unlinked s (after s (live sp)) (before s (live sp)) s' sv).
Proof.
  intros Hnd [V1 V2 V3 V4 V5 V6 V7]. unfold unlinked. destruct (decide (Some s = Some s')) as [E|E].
  - injection E as <-. assert (Hs : s ∉ without s (live sp)) by (rewrite elem_of_without; tauto).
    repeat case_decide; split; cbn; rewrite ?fn_lookup_insert, ?after_notin, ?before_notin; done.
  - assert (Hne : s' ≠ s) by congruence. pose proof (after_without s s' (live sp) Hnd Hne) as Ha. pose proof (before_without s s' (live sp) Hnd Hne) as Hb.
    rewrite (decide_ext _ _ _ _ (after_before (live sp) s' s Hnd)) in Ha.
    rewrite <- (decide_ext _ _ _ _ (after_before (live sp) s s' Hnd)) in Hb.
    destruct (decide (after s (live sp) = Some s')), (decide (before s (live sp) = Some s')); split; cbn;
      rewrite ?fn_lookup_insert_ne by done; congruence.
Qed.

Lemma in_list_neighbour s l : s ∈ l → NoDup l → head l = Some s ∨ before s l ≠ None.
Proof.
  intros (l1 & l2 & ->)%list_elem_of_split Hnd. destruct l1 as [|x l1]; [by left|right]. rewrite before_here by done.
  rewrite last_cons. by destruct (last l1).
Qed.

(** The steps of [remove_service] for a service of the list. *)
Definition unlink_service (s : nat) (next prev : option nat) : M signal_state unit :=
  on_service' prev (with_next next);;
  on_service' next (with_prev prev);;
  on_service s (with_next None);;
  on_service s (with_prev None);;
  l ← gets service_list_;
  when (bool_decide (l = None)) close_descriptors.

Lemma unlink_service_ok node sp st s : represents_with node sp st → s ∈ live sp →
  let sp' := sp_live (without s (live sp)) (sp_watching s false sp) in
  ∃ st', unlink_service s (after s (live sp)) (before s (live sp))
      (set_list (head (live sp')) (set_services (alter' (with_reactor false) (Some s) (services st)) st)) = Ok (tt, st') ∧
    represents_with node (if decide (live sp' = []) then sp_pipe [] sp' else sp') st'.
Proof.
  intros Rep Hs sp'. destruct (r_live _ _ _ Rep) as [Hnd Hlk]. assert (Hsv := proj1 (r_known _ _ _ Rep s) (Hlk s Hs)).
  assert (Hnear : ∀ q, after s (live sp) = Some q ∨ before s (live sp) = Some q → is_Some (services st !! q)).
  { intros q Hq. apply (r_known _ _ _ Rep), Hlk. destruct Hq as [Hq|Hq]; [by apply after_in in Hq as [_ ?]|by apply before_in in Hq as [_ ?]]. }
  unfold unlink_service.
  erewrite bind_ok by (apply on_service'_ok; intros q Hq; services_simpl; apply Hnear; by right).
  erewrite bind_ok by (apply on_service'_ok; intros q Hq; services_simpl; apply Hnear; by left).
  do 2 (erewrite bind_ok by (apply on_service_some; services_simpl; exact Hsv)). erewrite bind_ok by reflexivity.
  set (st5 := set_services _ (set_services _ _)).
  assert (Hch : ∀ pipe', represents_with node (sp_pipe pipe' sp') (set_pipe (negb (bool_decide (live sp' = []))) pipe' st5)).
  { intros pipe'. apply (services_changed node sp st _ (unlinked s (after s (live sp)) (before s (live sp)))); try done.
    - intros s'. unfold st5. cbn [set_pipe services]. repeat rewrite services_set, ?services_list. by rewrite !lookup_alter', <- !option_fmap_compose.
    - intros s' sv. unfold unlinked. by repeat case_decide.
    - by apply NoDup_without.
    - intros s' [_ H]%elem_of_without. by apply Hlk.
    - intros s' sv. by apply unlinked_as. }
  change (service_list_ st5) with (head (live sp')). destruct (live sp') as [|f l] eqn:El; cbn [head].
  - rewrite bool_decide_eq_true_2, decide_True by done. cbn [when]. eexists. split; [reflexivity|]. apply (Hch []).
  - rewrite bool_decide_eq_false_2, decide_False by done. cbn [when]. exists st5. split; [done|].
    assert (Hl : live sp ≠ []) by (intros E; rewrite E in Hs; by apply not_elem_of_nil in Hs).
    pose proof (Hch (in_pipe sp)) as H. cbn [bool_decide] in H. replace (set_pipe _ (in_pipe sp) st5) with st5 in H; [exact H|].
    unfold st5. rewrite <- (pipe_same sp st node Rep Hl). done.
Qed.

Lemma remove_service_ok node sp st s : represents_with node sp st → s ∈ known sp →
  ∃ st', remove_service s st = Ok (tt, st') ∧ represents_with node (spec_remove_service s sp) st'.
Proof.
  intros Rep Hk. destruct (proj1 (r_known _ _ _ Rep s) Hk) as [sv Hsv]. pose proof (r_services _ _ _ Rep s sv Hsv) as Has.
  destruct (r_live _ _ _ Rep) as [Hnd Hlk]. unfold remove_service, spec_remove_service.
  erewrite bind_ok by (apply get_service_ok; exact Hsv). erewrite bind_ok by reflexivity.
  rewrite (r_list _ _ _ Rep), (v_next _ _ _ Has), (v_prev _ _ _ Has). destruct (decide (s ∈ live sp)) as [Hs|Hs].
  2:{ rewrite after_notin, before_notin by done. rewrite (bool_decide_eq_false_2 (head (live sp) = Some s)); [by exists st|].
      intros E. apply Hs. destruct (live sp); [done|]. injection E as ->. by left. }
  replace (_ || _ || _) with true.
  2:{ symmetry. rewrite !orb_true_iff, !bool_decide_eq_true. destruct (in_list_neighbour s (live sp) Hs Hnd); tauto. }
  erewrite bind_ok by (apply on_service_some; rewrite Hsv; by eexists). set (st1 := set_services _ st).
  assert (E2 : when (bool_decide (head (live sp) = Some s)) (modify (set_list (after s (live sp)))) st1 =
    Ok (tt, set_list (head (without s (live sp))) st1)).
  { rewrite head_without_after by done. destruct (decide (head (live sp) = Some s)) as [Hd|Hd].
    - by rewrite bool_decide_eq_true_2.
    - rewrite bool_decide_eq_false_2 by done. rewrite <- (r_list _ _ _ Rep). by destruct st. }
  erewrite bind_ok by exact E2. by apply unlink_service_ok.
Qed.

(** The service goes, when none of its sets has a registration. *)
Lemma gone_ok node sp st s : represents_with node sp st → s ∉ live sp → bare s sp →
  represents_with node (sp_gone s sp) (set_services (delete s (services st)) st).
Proof.
  intros [R1 R2 R3 R4 R5 R6 R7 R8 R9] Hs Hb. split; try done.
  - destruct R1 as [H1 H2 H3 H4 H5 H6 H7 H8 H9 H10 H11]. split; try done.
    + intros s' sv n. rewrite services_set, lookup_delete_Some. intros [_ H]. by apply H7.
    + intros i n Hi. cbn. rewrite lookup_delete_ne; [by apply (H8 i n)|]. intros Ho. unfold bare in Hb. rewrite Forall_forall in Hb.
      assert (Hin : n ∈ seqZ 0 max_signal_number) by (apply elem_of_seqZ; pose proof (H2 i n Hi); lia).
      pose proof (Hb n Hin) as Et. apply (not_elem_of_nil i). rewrite <- Et. by apply elem_of_table.
  - intros s' sv. cbn. rewrite lookup_delete_Some. intros [_ H%R3]. destruct H. by split.
  - intros s'. cbn. rewrite elem_of_difference, elem_of_singleton, R4. destruct (decide (s' = s)) as [->|Hne].
    + rewrite lookup_delete_eq. split; [tauto|by intros [? ?]].
    + rewrite lookup_delete_ne by done. tauto.
  - cbn. split; [apply R5|]. intros s' Hs'. apply elem_of_difference. split; [by apply R5|]. rewrite elem_of_singleton. by intros ->.
Qed.

Lemma bare_removed s s' sp : bare s sp → bare s (spec_remove_service s' sp).
Proof. unfold bare, spec_remove_service. by repeat case_decide. Qed.

Lemma removed_live s sp : s ∉ live (spec_remove_service s sp).
Proof. unfold spec_remove_service. repeat case_decide; cbn; rewrite ?elem_of_without; tauto. Qed.

Lemma destroy_service_ok node sp st s : represents_with node sp st → s ∈ known sp → bare s sp →
  ∃ st', destroy_service s st = Ok (tt, st') ∧ represents_with node (spec_unload s sp) st'.
Proof.
  intros Rep Hk Hb. unfold destroy_service. destruct (remove_service_ok node sp st s Rep Hk) as (st1 & E1 & Rep1). erewrite bind_ok by exact E1.
  eexists. split; [reflexivity|]. apply gone_ok; [done|apply removed_live|by apply bare_removed].
Qed.

(** ** Shutting down *)

Lemma dropped_members l sp : let sp' := foldl (λ sp i, sp_waiting i [] sp) sp l in members sp' = members sp ∧ known sp' = known sp.
Proof. revert sp. induction l as [|i l IH]; intros sp; [done|]. apply (IH (sp_waiting i [] sp)). Qed.

Lemma abandon_loop_ok fuel node sp st n s l1 l2 : represents_with node sp st → table (members sp) s n = l1 ++ l2 → (length l2 ≤ fuel)%nat →
  ∃ st', abandon_loop fuel ((λ j, node j n) <$> head l2) st = Ok (tt, st') ∧
    represents_with node (foldl (λ sp i, sp_waiting i [] sp) sp l2) st'.
Proof.
  revert fuel sp st l1. induction l2 as [|i l2 IH]; intros fuel sp st l1 Rep El Hf; [exists st; by destruct fuel|].
  destruct fuel as [|fuel]; [cbn in Hf; lia|]. pose proof (r_registered _ _ _ Rep) as R.
  assert (Hi : owner i = s ∧ i ∈ members sp n) by (apply elem_of_table; rewrite El; apply elem_of_app; right; by left).
  destruct Hi as [Ho Hi]. cbn [fmap option_fmap option_map head abandon_loop].
  erewrite bind_ok by (apply get_reg_ok; exact (h_node _ _ _ _ R i n Hi)). cbn [queue_ next_in_table_ reg_of]. erewrite bind_ok by reflexivity.
  pose proof (NoDup_table (members sp) s n (h_nodup _ _ _ _ R n)) as Hnd. rewrite Ho, El in *. rewrite after_here.
  2:{ apply NoDup_app in Hnd as (_ & H & _). intros Hx. apply (H i Hx). by left. }
  apply (IH fuel (sp_waiting i [] sp) _ (l1 ++ [i]) (waiting_ok node sp st i [] Rep)).
  - by rewrite <- app_assoc.
  - cbn in Hf. lia.
Qed.

Lemma abandon_table_ok node sp st s ns : represents_with node sp st → s ∈ known sp →
  ∃ st', abandon_table s ns st = Ok (tt, st') ∧
    represents_with node (foldl (λ sp n, foldl (λ sp i, sp_waiting i [] sp) sp (table (members sp) s n)) sp ns) st'.
Proof.
  revert sp st. induction ns as [|n ns IH]; intros sp st Rep Hk; [by exists st|]. cbn [abandon_table foldl].
  destruct (proj1 (r_known _ _ _ Rep s) Hk) as [sv Hsv]. erewrite bind_ok by (apply get_service_ok; exact Hsv). erewrite bind_ok by reflexivity.
  pose proof (r_registered _ _ _ Rep) as R. rewrite (h_table _ _ _ _ R s sv n Hsv).
  destruct (abandon_loop_ok (size (heap st)) node sp st n s [] (table (members sp) s n) Rep eq_refl) as (st1 & E1 & Rep1).
  { by apply (length_table node _ (pending sp)). }
  erewrite bind_ok by exact E1. apply IH; [done|]. by rewrite (proj2 (dropped_members _ sp)).
Qed.

Lemma shutdown_ok node sp st s : represents_with node sp st → s ∈ known sp →
  ∃ st', shutdown s st = Ok (tt, st') ∧ represents_with node (spec_shutdown s sp) st'.
Proof.
  intros Rep Hk. unfold shutdown, spec_shutdown. destruct (remove_service_ok node sp st s Rep Hk) as (st1 & E1 & Rep1). erewrite bind_ok by exact E1.
  apply abandon_table_ok; [done|]. unfold spec_remove_service. by repeat case_decide.
Qed.

(** ** Forks and completions *)

Lemma forking_ok node sp st b : represents_with node sp st → represents_with node (sp_forking b sp) (set_fork b st).
Proof.
  intros [R1 R2 R3 R4 R5 R6 R7 R8 R9]. split; try done.
  - by apply (registered_keep _ _ _ st).
  - intros s sv Hs. destruct (R3 s sv Hs). by split.
Qed.

Lemma fork_ok node sp st s ev : represents_with node sp st → s ∈ live sp →
  ∃ st', notify_fork s ev st = Ok (tt, st') ∧ represents_with node (spec_fork s ev sp) st'.
Proof.
  intros Rep Hs. assert (Hk : s ∈ known sp) by by apply (r_live _ _ _ Rep). unfold notify_fork, spec_fork.
  erewrite bind_ok by reflexivity. rewrite (r_fork _ _ _ Rep). destruct ev; [|destruct (forking sp); [|by exists st]..].
  - erewrite bind_ok by reflexivity. apply reactor_ok; [by apply forking_ok|done].
  - cbn [when]. erewrite bind_ok by reflexivity. apply reactor_ok; [by apply forking_ok|done].
  - cbn [when]. do 3 (erewrite bind_ok by reflexivity). apply reactor_ok; [|done]. apply forking_ok.
    pose proof (pipe_ok node sp st [] Rep) as H. rewrite bool_decide_eq_false_2 in H; [exact H|].
    intros E. rewrite E in Hs. by apply not_elem_of_nil in Hs.
Qed.

Lemma run_signal_ok node sp st s : represents_with node sp st → s ∈ known sp →
  ∃ st', run_posted s st = Ok ((spec_run s sp).1, st') ∧ represents_with node (spec_run s sp).2 st'.
Proof.
  intros Rep Hk. destruct (proj1 (r_known _ _ _ Rep s) Hk) as [sv Hsv]. unfold run_posted, spec_run.
  erewrite bind_ok by (apply get_service_ok; exact Hsv). rewrite (v_posted _ _ _ (r_services _ _ _ Rep s sv Hsv)).
  destruct (out sp s) as [|op rest]; [by exists st|].
  destruct (on_service_ok' node sp (sp_work s (-1) (sp_ended s op rest sp)) st s (λ sv, mkService (registrations_ sv) (next_ sv) (prev_ sv)
    (reactor_data_ sv) (locking sv) rest (called sv ++ [op]) (outstanding_work_ sv - 1)) Rep Hk) as (st' & E & Rep'); try done.
  - intros sv' [V1 V2 V3 V4 V5 V6 V7]. split; cbn; rewrite ?fn_lookup_insert; try congruence. by rewrite V7.
  - intros s' sv' Hne [V1 V2 V3 V4 V5 V6 V7]. split; cbn; by rewrite ?fn_lookup_insert_ne.
  - erewrite bind_ok by exact E. by exists st'.
Qed.

End Services.
