(* ===== verification/SignalCalls.v ===== *)
(** * Any calls to the signal sets (asio/detail/impl/signal_set_service.ipp)

    The linked lists do what the specification says, whatever is called in whatever
    order; and what that means for the process: a signal of a set never takes its default
    action, no wait stays beside a signal that has come, and a signal reaches every set
    that has it. *)

From Stdlib Require Import ZArith Lia.
From stdpp Require Import base gmap functions numbers list.
From S2P Require Import Prelude.
From S2P Require Import Chain.
From S2P Require Import SignalSet.
From S2P Require Import SignalSpec.
From S2P Require Import SignalRefine.
From S2P Require Import SignalServices.

#[local] Open Scope Z_scope.

Inductive call :=
  | Create (s : nat) (locks pipe_ok : bool)
  | Shutdown (s : nat)
  | Unload (s : nat)
  | Fork (s : nat) (ev : fork_event)
  | Add (i : nat) (n : Z)
  | Remove (i : nat) (n : Z)
  | Clear (i : nat)
  | Cancel (i : nat)
  | Destroy (i : nat)
  | Wait (i id : nat)
  | Signal (n : Z)
  | ReadPipe
  | RunOne (s : nat).

Inductive answer :=
  | Errno (e : option Z)
  | Failed (f : option failure)
  | Handled (h : bool)
  | Completed (op : option signal_op)
  | Done.

Section Calls.
Context `{W : Surroundings}.

(** [Unload] is the destructor of a service, after which its memory is freed. *)
Definition do_call (c : call) : M signal_state answer :=
  match c with
  | Create s b p => f ← create_service s b p; mret (Failed f)
  | Shutdown s => shutdown s;; mret Done
  | Unload s => destroy_service s;; mret Done
  | Fork s ev => notify_fork s ev;; mret Done
  | Add i n => e ← add i n; mret (Errno e)
  | Remove i n => e ← remove i n; mret (Errno e)
  | Clear i => e ← clear i; mret (Errno e)
  | Cancel i => cancel i;; mret Done
  | Destroy i => destroy i;; mret Done
  | Wait i id => start_wait_op i (new_wait id);; mret Done
  | Signal n => h ← signalled n; mret (Handled h)
  | ReadPipe => pipe_read;; mret Done
  | RunOne s => op ← run_posted s; mret (Completed op)
  end.

Fixpoint do_calls (cs : list call) : M signal_state (list answer) :=
  match cs with
  | [] => mret []
  | c :: cs => a ← do_call c; l ← do_calls cs; mret (a :: l)
  end.

Definition spec_call (c : call) (sp : sigspec) : answer * sigspec :=
  match c with
  | Create s b p => let r := spec_create s b p sp in (Failed r.1, r.2)
  | Shutdown s => (Done, spec_shutdown s sp)
  | Unload s => (Done, spec_unload s sp)
  | Fork s ev => (Done, spec_fork s ev sp)
  | Add i n => let r := spec_add i n sp in (Errno r.1, r.2)
  | Remove i n => let r := spec_remove i n sp in (Errno r.1, r.2)
  | Clear i => (Errno None, spec_clear i sp)
  | Cancel i => (Done, spec_cancel i sp)
  | Destroy i => (Done, spec_destroy i sp)
  | Wait i id => (Done, spec_wait i (new_wait id) sp)
  | Signal n => let r := spec_signalled n sp in (Handled r.1, r.2)
  | ReadPipe => (Done, spec_read (in_pipe sp) sp)
  | RunOne s => let r := spec_run s sp in (Completed r.1, r.2)
  end.

Fixpoint spec_calls (cs : list call) (sp : sigspec) : list answer * sigspec :=
  match cs with
  | [] => ([], sp)
  | c :: cs => let r := spec_call c sp in let r' := spec_calls cs r.2 in (r.1 :: r'.1, r'.2)
  end.

(** What a caller has to keep to: a service is made where there is none, what is called is of a
    service that there is, a fork is told to the services of the list, and the sets of a service
    are destroyed, or cleared, before the service. *)
Definition legal (c : call) (sp : sigspec) : Prop :=
  match c with
  | Create s _ _ => s ∉ known sp
  | Shutdown s | RunOne s => s ∈ known sp
  | Unload s => s ∈ known sp ∧ bare s sp
  | Fork s _ => s ∈ live sp
  | Add i _ | Remove i _ | Clear i | Cancel i | Destroy i | Wait i _ => owner i ∈ known sp
  | Signal _ | ReadPipe => True
  end.

#[global] Instance legal_dec c sp : Decision (legal c sp).
Proof. destruct c; cbn; unfold bare; apply _. Defined.

Fixpoint legal_calls (cs : list call) (sp : sigspec) : Prop :=
  match cs with
  | [] => True
  | c :: cs => legal c sp ∧ legal_calls cs (spec_call c sp).2
  end.

Implicit Types (i s : nat) (n k : Z) (st : signal_state) (sp : sigspec).

(** ** Refinement *)

(** From what is called to the answer. *)
Lemma answered {A} (m : M signal_state A) (f : A → answer) (x : A) sp' node st :
  (∃ st', m st = Ok (x, st') ∧ represents_with node sp' st') → ∃ st', (x ← m; mret (f x)) st = Ok (f x, st') ∧ represents sp' st'.
Proof. intros (st' & E & Rep). exists st'. erewrite bind_ok by exact E. split; [done|by exists node]. Qed.

Lemma call_ok c sp st : represents sp st → legal c sp →
  ∃ st', do_call c st = Ok ((spec_call c sp).1, st') ∧ represents (spec_call c sp).2 st'.
Proof.
  intros [node Rep] Hc. destruct c; cbn [do_call spec_call legal fst snd] in *.
  - exact (answered _ Failed _ _ node st (create_ok node sp st s locks pipe_ok Rep Hc)).
  - exact (answered _ (λ _, Done) _ _ node st (shutdown_ok node sp st s Rep Hc)).
  - exact (answered _ (λ _, Done) _ _ node st (destroy_service_ok node sp st s Rep (proj1 Hc) (proj2 Hc))).
  - exact (answered _ (λ _, Done) _ _ node st (fork_ok node sp st s ev Rep Hc)).
  - destruct (add_ok node sp st i n Rep) as (st' & node' & H); [by apply (r_known _ _ _ Rep)|].
    exact (answered _ Errno _ _ node' st (ex_intro _ st' H)).
  - exact (answered _ Errno _ _ node st (remove_ok node sp st i n Rep)).
  - exact (answered _ Errno _ _ node st (clear_ok node sp st i Rep)).
  - exact (answered _ (λ _, Done) _ _ node st (cancel_set_ok node sp st i Rep Hc)).
  - exact (answered _ (λ _, Done) _ _ node st (destroy_ok node sp st i Rep Hc)).
  - exact (answered _ (λ _, Done) _ _ node st (wait_ok node sp st i (new_wait id) Rep Hc)).
  - exact (answered _ Handled _ _ node st (signalled_ok node sp st n Rep)).
  - exact (answered _ (λ _, Done) _ _ node st (pipe_read_ok node sp st Rep)).
  - exact (answered _ Completed _ _ node st (run_signal_ok node sp st s Rep Hc)).
Qed.

Lemma calls_ok cs sp st : represents sp st → legal_calls cs sp →
  ∃ st', do_calls cs st = Ok ((spec_calls cs sp).1, st') ∧ represents (spec_calls cs sp).2 st'.
Proof.
  revert sp st. induction cs as [|c cs IH]; intros sp st Rep; [by exists st|]. intros [Hc Hcs]. cbn [do_calls spec_calls fst snd].
  destruct (call_ok c sp st Rep Hc) as (st1 & E1 & Rep1). erewrite bind_ok by exact E1.
  destruct (IH _ st1 Rep1 Hcs) as (st2 & E2 & Rep2). erewrite bind_ok by exact E2. by exists st2.
Qed.

Lemma represents0 : represents sigspec0 signal_state0.
Proof.
  exists (λ _ _, 0%nat). split; try done; [split; try done|..].
  - intros n. constructor.
  - intros i n. cbn. by intros ?%not_elem_of_nil.
  - intros i n. cbn. by intros ?%not_elem_of_nil.
  - intros p. cbn. rewrite lookup_empty. by intros [? [=]].
  - intros i n. cbn. by intros ?%not_elem_of_nil.
  - intros s. cbn. rewrite lookup_empty. split; [set_solver|by intros [? [=]]].
  - cbn. split; [constructor|]. by intros s ?%not_elem_of_nil.
Qed.

(** C30: any calls to the signal services and their sets, in any order that keeps to what
    [legal] asks, return on the linked lists: no registration and no service is used after it
    has been freed, also not by the others of the lists that it was in, and no loop runs on.
    Every answer is the specification's, and the lists represent the specification's state in
    the end.  A signal ends all waits of a set, not one of them ([touch]). *)
Theorem signals_refine cs : legal_calls cs sigspec0 →
  ∃ st', do_calls cs signal_state0 = Ok ((spec_calls cs sigspec0).1, st') ∧ represents (spec_calls cs sigspec0).2 st'.
Proof. apply calls_ok, represents0. Qed.

(** ** No wait beside a signal *)

(** What holds of anything that is made of a call's steps. *)
Section Preserved.
Context (P : sigspec → Prop).
Context (Htouch : ∀ n i sp, P sp → P (touch n i sp)) (Hout : ∀ s l sp, P sp → P (sp_out s l sp)) (Hpipe : ∀ l sp, P sp → P (sp_pipe l sp)).

Lemma deliver_preserved n sp : P sp → P (spec_deliver n sp).
Proof.
  unfold spec_deliver. generalize (live sp). intros l. revert sp. induction l as [|s l IH]; intros sp Hsp; [done|]. cbn [foldl]. apply IH.
  unfold deliver_to. apply Hout. generalize (table (members sp) s n). intros l'. revert sp Hsp. induction l' as [|i l' IH']; intros sp Hsp; [done|].
  cbn. by apply IH', Htouch.
Qed.

Lemma read_preserved l sp : P sp → P (spec_read l sp).
Proof.
  revert sp. induction l as [|n l IH]; intros sp Hsp; [done|]. cbn [spec_read]. apply IH. apply (Hpipe l) in Hsp. destruct (in_range n); [|done].
  by apply deliver_preserved.
Qed.
End Preserved.

(** A set that waits has no signal that has not been delivered. *)
Record quiet (sp : sigspec) : Prop := {
  q_range : ∀ i n, i ∈ members sp n → 0 ≤ n < max_signal_number;
  q_pending : ∀ i n, 0 ≤ pending sp i n;
  q_quiet : ∀ i n, waiting sp i ≠ [] → i ∈ members sp n → pending sp i n = 0
}.

(** Fewer registrations and fewer waits. *)
Lemma quiet_less sp sp' : quiet sp → (∀ n i, i ∈ members sp' n → i ∈ members sp n) → pending sp' = pending sp →
  (∀ i, waiting sp' i = [] ∨ waiting sp' i = waiting sp i) → quiet sp'.
Proof.
  intros [H1 H2 H3] Hm Ep Hw. split; rewrite ?Ep; [intros i n Hi; by apply (H1 i), Hm|done|].
  intros i n Hi Hin. destruct (Hw i) as [E|E]; [done|]. apply H3; [by rewrite <- E|by apply Hm].
Qed.

Lemma quiet_waits sp i l : quiet sp → l = [] ∨ (∀ n, i ∈ members sp n → pending sp i n = 0) → quiet (sp_waiting i l sp).
Proof.
  intros [H1 H2 H3] Hl. split; cbn; [done|done|]. intros j n. unfold insert, fn_insert. destruct (decide (i = j)) as [<-|]; [|by apply H3].
  intros Hne Hj. destruct Hl as [->|Hl]; [done|by apply Hl].
Qed.

Lemma quiet_pending sp i n k : quiet sp → 0 ≤ k → (waiting sp i ≠ [] → i ∈ members sp n → k = 0) → quiet (sp_pending i n k sp).
Proof.
  intros [H1 H2 H3] Hk Hi. split; cbn; [done|..].
  - intros j k'. unfold insert, fn_insert. destruct (decide (i = j)); [|done]. by destruct (decide (n = k')); subst.
  - intros j k'. unfold insert, fn_insert. destruct (decide (i = j)) as [<-|]; [|by apply H3]. destruct (decide (n = k')) as [<-|]; [done|by apply H3].
Qed.

Lemma first_pending_none i sp n : quiet sp → first_pending i sp = None → i ∈ members sp n → pending sp i n = 0.
Proof.
  intros Q E Hi. pose proof (List.find_none _ _ E n) as H. rewrite <- list_elem_of_In, elem_of_signals in H.
  pose proof (q_pending _ Q i n). cbn in H. apply Z.ltb_ge in H; [lia|]. split; [by apply (q_range _ Q i)|done].
Qed.

Lemma quiet_wait i op sp : quiet sp → quiet (spec_wait i op sp).
Proof.
  intros Q. unfold spec_wait. set (sp1 := sp_work (owner i) 1 sp).
  assert (Q1 : quiet sp1) by (apply (quiet_less sp); [done..|by right]). destruct (first_pending i sp1) as [n|] eqn:E.
  - apply List.find_some in E as [Hn Hp]. apply Z.ltb_lt in Hp. apply (quiet_less (sp_pending i n (pending sp1 i n - 1) sp1)); [|done..|by right].
    apply quiet_pending; [done|lia|]. intros Hw Hi. pose proof (q_quiet _ Q1 i n Hw Hi). lia.
  - apply quiet_waits; [done|]. right. intros n. by apply first_pending_none.
Qed.

Lemma quiet_touch n i sp : quiet sp → quiet (touch n i sp).
Proof.
  intros Q. unfold touch. destruct (waiting sp i) eqn:E; [|apply quiet_waits; auto].
  apply quiet_pending; [done| |by rewrite E]. pose proof (q_pending _ Q i n). lia.
Qed.

Lemma quiet_out s l sp : quiet sp → quiet (sp_out s l sp).
Proof. intros Q. apply (quiet_less sp); [done..|by right]. Qed.

Lemma quiet_cancel i sp : quiet sp → quiet (spec_cancel i sp).
Proof. intros Q. apply quiet_out, quiet_waits; auto. Qed.

Lemma quiet_dropped s l sp : quiet sp →
  quiet (foldl (λ sp n, foldl (λ sp i, sp_waiting i [] sp) sp (table (members sp) s n)) sp l).
Proof.
  revert sp. induction l as [|n l IH]; intros sp Q; [done|]. cbn [foldl]. apply IH. generalize (table (members sp) s n). intros l'.
  revert sp Q. induction l' as [|i l' IH']; intros sp Q; [done|]. apply IH', quiet_waits; auto.
Qed.

Lemma quiet_added i n sp : quiet sp → 0 ≤ n < max_signal_number → quiet (sp_pending i n 0 (sp_members (<[n := i :: members sp n]> (members sp)) sp)).
Proof.
  intros [H1 H2 H3] Hn. split; cbn; unfold insert, fn_insert.
  - intros j k. destruct (decide (n = k)) as [<-|]; [done|]. apply H1.
  - intros j k. destruct (decide (i = j)); [|done]. destruct (decide (n = k)); [done|]. by subst.
  - intros j k. destruct (decide (i = j)) as [<-|], (decide (n = k)) as [<-|]; rewrite ?elem_of_cons; auto. naive_solver.
Qed.

Lemma quiet_call c sp : quiet sp → quiet (spec_call c sp).2.
Proof.
  intros Q. assert (Hsame : ∀ sp', members sp' = members sp → pending sp' = pending sp → waiting sp' = waiting sp → quiet sp').
  { intros sp' Em Ep Ew. apply (quiet_less sp); [done|by rewrite Em|done|by right; rewrite Ew]. }
  assert (Hrs : ∀ s, quiet (spec_remove_service s sp)) by (intros s; unfold spec_remove_service; repeat case_decide; by apply Hsame).
  destruct c; cbn [spec_call snd].
  - unfold spec_create, spec_add_service. cbn [live sp_known]. destruct (live sp); [destruct pipe_ok|case_match]; by apply Hsame.
  - unfold spec_shutdown. by apply quiet_dropped, Hrs.
  - apply (quiet_less (spec_remove_service s sp)); [apply Hrs|done..|by right].
  - destruct ev; cbn; repeat case_match; by apply Hsame.
  - unfold spec_add. destruct (in_range n) eqn:En; cbn [negb]; [|done]. apply in_range_spec in En.
    destruct (decide (i ∈ members sp n)); [done|]. case_match; [done|]. by apply quiet_added.
  - unfold spec_remove. case_match; [done|]. apply (quiet_less sp); [done| |done|by right]. intros k j. cbn. unfold insert, fn_insert.
    destruct (decide (n = k)) as [<-|]; [|done]. rewrite elem_of_without. tauto.
  - apply (quiet_less sp); [done| |done|by right]. intros n j. cbn. rewrite elem_of_without. tauto.
  - by apply quiet_cancel.
  - apply quiet_cancel. apply (quiet_less sp); [done| |done|by right]. intros n j. cbn. rewrite elem_of_without. tauto.
  - by apply quiet_wait.
  - unfold spec_signalled. case_decide; [done|]. cbn. case_match; [by apply Hsame|done].
  - apply read_preserved; [apply quiet_touch|apply quiet_out| |done]. intros l sp' Q'. apply (quiet_less sp'); [done..|by right].
  - unfold spec_run. case_match; [done|]. by apply Hsame.
Qed.

Lemma quiet_calls cs sp : quiet sp → quiet (spec_calls cs sp).2.
Proof. revert sp. induction cs as [|c cs IH]; intros sp Q; [done|]. cbn. by apply IH, quiet_call. Qed.

Lemma quiet0 : quiet sigspec0.
Proof. split; cbn; try done. by intros i n ?%not_elem_of_nil. Qed.

(** C32: after any calls, the process handles exactly the signals that a set has a registration for,
    and a set that waits has no registration with a signal that has not been delivered. *)
Theorem no_wait_beside_signal cs : legal_calls cs sigspec0 → ∃ l st, do_calls cs signal_state0 = Ok (l, st) ∧
  (∀ n, handled st n = true ↔ ∃ p r, heap st !! p = Some r ∧ signal_number_ r = n) ∧
  (∀ p r, heap st !! p = Some r → waits_ (impls st (queue_ r)) ≠ [] → undelivered_ r = 0).
Proof.
  intros Hl. destruct (calls_ok cs _ _ represents0 Hl) as (st & E & node & Rep). pose proof (quiet_calls cs _ quiet0) as Q.
  set (sp := (spec_calls cs sigspec0).2) in *. pose proof (r_registered _ _ _ Rep) as R. eexists _, st. split; [exact E|]. split.
  - intros n. rewrite (h_handled _ _ _ _ R), bool_decide_eq_true. split.
    + intros Hn. destruct (members sp n) as [|i l] eqn:Em; [done|]. assert (Hi : i ∈ members sp n) by (rewrite Em; by left).
      eexists _, _. by split; [exact (h_node _ _ _ _ R i n Hi)|].
    + intros (p & r & Hp & Hr) En. destruct (h_only _ _ _ _ R p r Hp) as (i & k & Hi & ->). rewrite (h_node _ _ _ _ R i k Hi) in Hp.
      injection Hp as <-. cbn in Hr. subst k. rewrite En in Hi. by apply not_elem_of_nil in Hi.
  - intros p r Hp. destruct (h_only _ _ _ _ R p r Hp) as (i & n & Hi & ->). rewrite (h_node _ _ _ _ R i n Hi) in Hp. injection Hp as <-.
    cbn. rewrite (r_waits _ _ _ Rep). intros Hw. by apply (q_quiet _ Q).
Qed.

(** ** Where a signal goes *)

(** What the sets of [G] make of a signal. *)
Record taken (n : Z) (G : nat → Prop) `{∀ j, Decision (G j)} sp sp' : Prop := {
  t_members : members sp' = members sp;
  t_waiting : ∀ j, waiting sp' j = if decide (G j) then [] else waiting sp j;
  t_pending : ∀ j k, pending sp' j k = pending sp j k + (if decide (G j ∧ k = n ∧ waiting sp j = []) then 1 else 0)
}.

Lemma taken_none n (G : nat → Prop) `{∀ j, Decision (G j)} sp : (∀ j, ¬ G j) → taken n G sp sp.
Proof. intros HG. split; [done|intros j; by rewrite decide_False|]. intros j k. rewrite decide_False; [lia|]. intros [Hj _]. by apply (HG j). Qed.

Lemma taken_more n (G1 G2 G : nat → Prop) `{∀ j, Decision (G1 j), ∀ j, Decision (G2 j), ∀ j, Decision (G j)} sp sp1 sp2 :
  taken n G1 sp sp1 → taken n G2 sp1 sp2 → (∀ j, G j ↔ G1 j ∨ G2 j) → (∀ j, G1 j → ¬ G2 j) → taken n G sp sp2.
Proof.
  intros [M1 W1 P1] [M2 W2 P2] HG Hd. split; [congruence|intros j; rewrite W2, W1|intros j k; rewrite P2, P1, W1].
  - specialize (HG j). repeat case_decide; tauto.
  - specialize (HG j). specialize (Hd j). repeat case_decide; naive_solver lia.
Qed.

Lemma touch_taken n i sp : taken n (λ j, j = i) sp (touch n i sp) ∧ out (touch n i sp) = out sp.
Proof.
  unfold touch. destruct (waiting sp i) eqn:Ew; split; try done; split; try done; cbn; unfold insert, fn_insert.
  - intros j. by destruct (decide (j = i)) as [->|].
  - intros j k. destruct (decide (i = j)) as [<-|]; [|rewrite decide_False by naive_solver; lia].
    destruct (decide (n = k)) as [<-|]; [by rewrite decide_True|rewrite decide_False by naive_solver; lia].
  - intros j. destruct (decide (i = j)) as [<-|]; [by rewrite decide_True|by rewrite decide_False].
  - intros j k. rewrite decide_False; [lia|]. intros (-> & _ & E). by rewrite Ew in E.
Qed.

(** The waits of the sets [l], that end with a signal. *)
Definition ended_by (n : Z) (sp : sigspec) (l : list nat) : list signal_op := concat (map (λ i, map (set_signal n) (waiting sp i)) l).

Lemma ended_by_ext n sp sp' l : (∀ i, i ∈ l → waiting sp' i = waiting sp i) → ended_by n sp' l = ended_by n sp l.
Proof.
  unfold ended_by. induction l as [|i l IH]; intros H; [done|]. cbn. rewrite (H i), IH; [done| |by left]. intros j Hj. apply H. by right.
Qed.

Lemma touch_all_taken n l sp : NoDup l →
  taken n (λ j, j ∈ l) sp (touch_all n l sp).2 ∧ out (touch_all n l sp).2 = out sp ∧ (touch_all n l sp).1 = ended_by n sp l.
Proof.
  intros Hnd. revert sp. induction Hnd as [|i l Hi Hnd IH]; intros sp.
  { split; [|done]. apply taken_none. by intros j ?%not_elem_of_nil. }
  cbn [touch_all fst snd]. destruct (touch_taken n i sp) as [T1 O1]. destruct (IH (touch n i sp)) as (T2 & O2 & E2). split_and!.
  - eapply (taken_more n _ _ _ sp _ _ T1 T2); [intros j; by rewrite elem_of_cons|]. by intros j ->.
  - congruence.
  - rewrite E2. change (ended_by n sp (i :: l)) with (map (set_signal n) (waiting sp i) ++ ended_by n sp l). f_equal. apply ended_by_ext.
    intros j Hj. rewrite (t_waiting _ _ _ _ T1), decide_False; [done|]. by intros ->.
Qed.

Lemma deliver_taken n l sp : NoDup l → NoDup (members sp n) → let sp' := foldl (λ sp s, deliver_to n s sp) sp l in
  taken n (λ j, owner j ∈ l ∧ j ∈ members sp n) sp sp' ∧
  ∀ s, out sp' s = out sp s ++ (if decide (s ∈ l) then ended_by n sp (table (members sp) s n) else []).
Proof.
  intros Hnd Hm. revert sp Hm. induction Hnd as [|s l Hs Hnd IH]; intros sp Hm.
  { split; [apply taken_none; intros j [?%not_elem_of_nil _]; done|]. intros s. by rewrite app_nil_r. }
  cbn [foldl]. destruct (touch_all_taken n (table (members sp) s n) sp) as (T1 & O1 & E1); [by apply NoDup_table|].
  assert (T1' : taken n (λ j, j ∈ table (members sp) s n) sp (deliver_to n s sp)) by (destruct T1 as [A B C]; by split).
  pose proof (t_members _ _ _ _ T1') as Em. destruct (IH (deliver_to n s sp)) as [T2 O2]; [by rewrite Em|]. split.
  - eapply (taken_more n _ _ _ sp _ _ T1' T2); intros j; rewrite Em, ?elem_of_cons, !elem_of_table; [naive_solver|].
    intros [-> _] [H _]. done.
  - intros s'. rewrite O2, Em. assert (Eo : out (deliver_to n s sp) s' = out sp s' ++ (if decide (s' = s) then ended_by n sp (table (members sp) s n) else [])).
    { unfold deliver_to. cbn. rewrite O1, E1. unfold insert, fn_insert. destruct (decide (s = s')) as [<-|]; [by rewrite decide_True|].
      by rewrite decide_False, app_nil_r. }
    rewrite Eo. destruct (decide (s' = s)) as [->|Hne].
    + rewrite (decide_False (P := s ∈ l)), (decide_True (P := s ∈ s :: l)) by (done || by left). by rewrite app_nil_r.
    + rewrite app_nil_r. rewrite (decide_ext (s' ∈ s :: l) (s' ∈ l)) by (rewrite elem_of_cons; naive_solver). f_equal.
      destruct (decide (s' ∈ l)); [|done]. apply ended_by_ext. intros i [Ho _]%elem_of_table.
      rewrite (t_waiting _ _ _ _ T1'), decide_False; [done|]. rewrite elem_of_table. intros [? _]. congruence.
Qed.

Lemma spec_deliver_taken n sp : NoDup (live sp) → NoDup (members sp n) →
  taken n (λ j, owner j ∈ live sp ∧ j ∈ members sp n) sp (spec_deliver n sp) ∧
  ∀ s, out (spec_deliver n sp) s = out sp s ++ (if decide (s ∈ live sp) then ended_by n sp (table (members sp) s n) else []).
Proof. intros Hl Hm. exact (deliver_taken n (live sp) sp Hl Hm). Qed.

(** A signal that the handler puts into the empty pipe, and then is read. *)
Lemma signal_read_ok node sp st n : represents_with node sp st → members sp n ≠ [] → live sp ≠ [] → in_pipe sp = [] → (0 < pipe_capacity)%nat →
  ∃ st', do_calls [Signal n; ReadPipe] st = Ok ([Handled true; Done], st') ∧ represents_with node (spec_deliver n (sp_pipe [] (sp_pipe [n] sp))) st'.
Proof.
  intros Rep Hm Hl Hp Hc. cbn [do_calls do_call]. destruct (signalled_ok node sp st n Rep) as (st1 & E1 & Rep1).
  assert (Es : spec_signalled n sp = (true, sp_pipe [n] sp)).
  { unfold spec_signalled. rewrite decide_False, bool_decide_eq_false_2, Hp by done. cbn [negb andb length].
    by destruct (Nat.ltb_spec 0 pipe_capacity); [|lia]. }
  rewrite Es in E1, Rep1. erewrite bind_ok by (erewrite bind_ok by exact E1; reflexivity).
  destruct (pipe_read_ok node _ st1 Rep1) as (st2 & E2 & Rep2). cbn beta iota delta [fst snd]. exists st2. split.
  - erewrite bind_ok; [reflexivity|]. erewrite bind_ok by (erewrite bind_ok by exact E2; reflexivity). reflexivity.
  - change (in_pipe (true, sp_pipe [n] sp).2) with [n] in Rep2. cbn [spec_read snd] in Rep2. assert (Hn : in_range n = true); [|by rewrite Hn in Rep2].
    destruct (members sp n) as [|i l] eqn:Em; [done|]. apply in_range_spec, (h_range _ _ _ _ (r_registered _ _ _ Rep) i). rewrite Em. by left.
Qed.

(** A signal that comes when the pipe is empty does not kill the process, and when the pipe has been read, every
    set of a service of the list that has it has ended all its waits with it, or, if it had
    none, keeps the signal for the next wait. *)
Theorem signal_reaches_sets cs n : legal_calls cs sigspec0 → let sp := (spec_calls cs sigspec0).2 in
  members sp n ≠ [] → live sp ≠ [] → in_pipe sp = [] → (0 < pipe_capacity)%nat →
  ∃ l st st', do_calls cs signal_state0 = Ok (l, st) ∧ do_calls [Signal n; ReadPipe] st = Ok ([Handled true; Done], st') ∧
    ∀ p r, heap st !! p = Some r → signal_number_ r = n → owner (queue_ r) ∈ live sp → let i := queue_ r in
      waits_ (impls st' i) = [] ∧
      (waits_ (impls st i) = [] → ∃ r', heap st' !! p = Some r' ∧ undelivered_ r' = undelivered_ r + 1) ∧
      ∀ op, op ∈ waits_ (impls st i) → ∃ sv, services st' !! owner i = Some sv ∧ set_signal n op ∈ posted sv.
Proof.
  intros Hl sp Hm Hlive Hp Hc. destruct (calls_ok cs _ _ represents0 Hl) as (st & E & node & Rep).
  change (spec_calls cs sigspec0).2 with sp in Rep. destruct (signal_read_ok node sp st n Rep Hm Hlive Hp Hc) as (st' & E' & Rep').
  eexists _, st, st'. split; [exact E|]. split; [exact E'|]. intros p r Hpr Hn Ho i. pose proof (r_registered _ _ _ Rep) as R.
  destruct (h_only _ _ _ _ R p r Hpr) as (j & k & Hj & ->). rewrite (h_node _ _ _ _ R j k Hj) in Hpr. injection Hpr as <-. cbn in Hn, Ho, i.
  subst k i. destruct (spec_deliver_taken n (sp_pipe [] (sp_pipe [n] sp))) as [T O]; [apply (r_live _ _ _ Rep)|apply (h_nodup _ _ _ _ R)|].
  set (sp' := spec_deliver n _) in *.
  assert (Hw : waits_ (impls st' j) = []) by (rewrite (r_waits _ _ _ Rep'), (t_waiting _ _ _ _ T); by rewrite decide_True).
  split; [exact Hw|]. rewrite (r_waits _ _ _ Rep). split.
  - intros Ew. assert (Hj' : j ∈ members sp' n) by by rewrite (t_members _ _ _ _ T).
    eexists. split; [exact (h_node _ _ _ _ (r_registered _ _ _ Rep') j n Hj')|]. cbn [undelivered_ reg_of].
    rewrite (t_pending _ _ _ _ T). by rewrite decide_True.
  - intros op Hop. destruct (h_owned _ _ _ _ (r_registered _ _ _ Rep') j n) as [sv Hsv]; [by rewrite (t_members _ _ _ _ T)|].
    exists sv. split; [exact Hsv|]. rewrite (v_posted _ _ _ (r_services _ _ _ Rep' _ sv Hsv)), O, decide_True by done.
    apply elem_of_app. right. apply list_elem_of_In, in_concat. exists (map (set_signal n) (waiting sp j)). split.
    + apply in_map_iff. exists j. split; [done|]. apply list_elem_of_In. by apply elem_of_table.
    + apply in_map, list_elem_of_In. done.
Qed.

End Calls.

(** ** A process *)

(** Sets of even number belong to service 0, others to 1; [SIGKILL] and [SIGSTOP] cannot be handled, and a
    pipe holds 65536 bytes. *)
Definition linux : Surroundings := {|
  owner := λ i, (i mod 2)%nat;
  sigaction_errno := λ n, if (n =? 9) || (n =? 19) then Some invalid_argument else None;
  pipe_capacity := Z.to_nat 16384
|}.

(** Two services, three sets, a signal before and after a wait, a signal that cannot be handled, and the end of a service. *)
Definition session : list call :=
  [Create 0 true true; Create 1 true true; Add 0 15; Add 0 2; Add 0 2; Add 2 2; Add 1 2; Add 0 9; Add 0 65; Wait 2 7; Wait 2 8; Signal 2; Signal 9; ReadPipe;
   Wait 0 3; RunOne 0; Signal 15; ReadPipe; Remove 0 2; Cancel 1; Clear 1; Shutdown 1; Signal 2; Destroy 2; Signal 2; RunOne 0;
   Unload 1; Signal 15; ReadPipe; Create 1 true true; Add 1 15; Destroy 1; Unload 1; Destroy 0; Unload 0]%nat.

Example session_answers : (λ r, (r.1 : list answer)) <$> (match do_calls (W := linux) session signal_state0 with Ok r => Some r | Fault _ => None end) =
  Some [Failed None; Failed None; Errno None; Errno None; Errno None; Errno None; Errno None; Errno (Some 22); Errno (Some 22); Done; Done; Handled true; Handled false; Done;
    Done; Completed (Some (mkSigOp 7 2 0)); Handled true; Done; Errno None; Done; Errno None; Done; Handled true; Done; Handled false; Completed (Some (mkSigOp 8 2 0));
    Done; Handled true; Done; Failed None; Errno None; Done; Done; Done; Done].
Proof. vm_compute. reflexivity. Qed.

Lemma session_legal : legal_calls (W := linux) session (sigspec0).
Proof. unfold session. repeat (split; [by apply (bool_decide_unpack _); vm_compute|]). exact I. Qed.

Lemma signals_refine_witness : ∃ st', do_calls (W := linux) session signal_state0 = Ok ((spec_calls (W := linux) session sigspec0).1, st') ∧
  represents (W := linux) (spec_calls (W := linux) session sigspec0).2 st'.
Proof. apply (signals_refine (W := linux) session). exact session_legal. Defined.

Lemma no_wait_beside_signal_witness : ∃ l st, do_calls (W := linux) session signal_state0 = Ok (l, st) ∧
  (∀ n, handled st n = true ↔ ∃ p r, heap st !! p = Some r ∧ signal_number_ r = n) ∧
  (∀ p r, heap st !! p = Some r → waits_ (impls st (queue_ r)) ≠ [] → undelivered_ r = 0).
Proof. apply (no_wait_beside_signal (W := linux) session). exact session_legal. Defined.

(** What [legal] leaves out: a service is destroyed before its set, which then clears its signals in freed memory,
    or waits. *)
Example set_outlives_service : do_calls (W := linux) [Create 0 true true; Add 0 2; Unload 0; Clear 0]%nat signal_state0 = Fault UseAfterFree ∧
  do_calls (W := linux) [Create 0 true true; Unload 0; Wait 0 1]%nat signal_state0 = Fault UseAfterFree.
Proof. by vm_compute. Qed.

(** A signal completes both waits of a set. *)
Example both_waits_end : match do_calls (W := linux) [Create 0 true true; Add 0 2; Wait 0 7; Wait 0 8; Signal 2; ReadPipe; RunOne 0; RunOne 0]%nat signal_state0 with
  | Ok (l, _) => drop 6 l = [Completed (Some (mkSigOp 7 2 0)); Completed (Some (mkSigOp 8 2 0))]
  | Fault _ => False
  end.
Proof. vm_compute. done. Qed.

(** Two services are told of a fork: the first that goes on resets [fork_prepared_], and the second does not watch the pipe again. *)
Definition forked : list call :=
  [Create 0 true true; Create 1 true true; Fork 0 fork_prepare; Fork 1 fork_prepare; Fork 0 fork_child; Fork 1 fork_child]%nat.

Example second_service_not_watched : match do_calls (W := linux) forked signal_state0 with
  | Ok (_, st) => reactor_data_ <$> services st !! 0%nat = Some true ∧ reactor_data_ <$> services st !! 1%nat = Some false
  | Fault _ => False
  end.
Proof. vm_compute. done. Qed.
