(* ===== verification/SignalClient.v ===== *)
(** * The signals of the application (src/application.cpp over signal_set_service.ipp)

    [Application::start] puts four signals into a set and waits; [handle_signals] waits
    again.  Composed with the signal sets: as long as the pipe does not fill up with unread
    signals, the process keeps running and every one of these signals is handled, exactly once. *)

From Stdlib Require Import ZArith Lia Permutation.
From stdpp Require Import base gmap functions numbers list.
From S2P Require Import Prelude.
From S2P Require Import Application.
From S2P Require Import Chain.
From S2P Require Import SignalSet.
From S2P Require Import SignalSpec.
From S2P Require Import SignalRefine.
From S2P Require Import SignalServices.
From S2P Require Import SignalCalls.

#[local] Open Scope Z_scope.

Definition SIGHUP : Z := 1.
Definition SIGINT : Z := 2.
Definition SIGPIPE : Z := 13.
Definition SIGTERM : Z := 15.

(** [log] are the signals that [handle_signals] has been called with, [posted_waits] how
    often the application has waited. *)
Record signal_app := mkApp { sets : signal_state; posted_waits : nat; log : list Z }.

Section Client.
Context `{W : Surroundings}.

(** [m_signals], and the service of its [io_service]. *)
Context (m_signals : nat).

Definition m_service : nat := owner m_signals.

Definition on_sets {A} (m : M signal_state A) : M signal_app A := λ a,
  match m (sets a) with Ok (x, st) => Ok (x, mkApp st (posted_waits a) (log a)) | Fault f => Fault f end.

Definition on_waits (m : M nat unit) : M signal_app unit := λ a,
  match m (posted_waits a) with Ok (x, k) => Ok (x, mkApp (sets a) k (log a)) | Fault f => Fault f end.

(** [basic_signal_set::add] throws the error; the value is what is thrown. *)
Fixpoint add_all (ns : list Z) : M signal_app (option Z) :=
  match ns with
  | [] => mret None
  | n :: ns =>
      e ← on_sets (add m_signals n);
      match e with Some e => mret (Some e) | None => add_all ns end
  end.

(** The part of [Application::start] on signals. *)
Definition start_signals : M signal_app (option Z) :=
  e ← add_all [SIGTERM; SIGINT; SIGPIPE; SIGHUP];
  match e with
  | Some e => mret (Some e)
  | None =>
      id ← gets posted_waits;
      on_waits (modify S);;
      on_sets (start_wait_op m_signals (new_wait id));;
      mret None
  end.

(** A completion of [m_service]; [async_wait] at the end of [handle_signals]. *)
Definition run_completion : M signal_app unit :=
  op ← on_sets (run_posted m_service);
  match op with
  | None => mret tt
  | Some op =>
      id ← gets posted_waits;
      on_waits (handle_signals (negb (op_ec op =? 0)) (op_signal op));;
      modify (λ a, mkApp (sets a) (posted_waits a) (log a ++ [op_signal op]));;
      on_sets (start_wait_op m_signals (new_wait id))
  end.

(** A signal comes, the reactor finds the pipe readable, or the scheduler takes a turn. *)
Inductive event := Came (n : Z) | Readable | Turn.

(** [false] if the process is killed. *)
Definition happens (ev : event) : M signal_app bool :=
  match ev with
  | Came n => on_sets (signalled n)
  | Readable => on_sets pipe_read;; mret true
  | Turn => run_completion;; mret true
  end.

Fixpoint events (evs : list event) : M signal_app bool :=
  match evs with
  | [] => mret true
  | ev :: evs => go ← happens ev; if go : bool then events evs else mret false
  end.

Definition came (evs : list event) : list Z := List.concat (map (λ ev, match ev with Came n => [n] | _ => [] end) evs).

(** No signal comes when the pipe is full; [unread] signals are in it at first. *)
Fixpoint fits (unread : nat) (evs : list event) : Prop :=
  match evs with
  | [] => True
  | Came _ :: evs => (unread < pipe_capacity)%nat ∧ fits (S unread) evs
  | Readable :: evs => fits 0 evs
  | Turn :: evs => fits unread evs
  end.

(** From the start of the process. *)
Definition signal_app0 : signal_app := mkApp signal_state0 0 [].

Definition application (evs : list event) : M signal_app (option bool) :=
  f ← on_sets (create_service m_service true true);
  e ← start_signals;
  match f, e with
  | None, None => go ← events evs; mret (Some go)
  | _, _ => mret None
  end.

(** ** It keeps waiting *)

Implicit Types (i s : nat) (n k : Z) (st : signal_state) (sp : sigspec) (a : signal_app) (l : list Z).
Notation i0 := m_signals (only parsing).
Notation s0 := m_service (only parsing).

(** Signals with how many of each. *)
Definition held (f : Z → Z) (ns : list Z) : list Z := List.concat (map (λ n, replicate (Z.to_nat (f n)) n) ns).

#[local] Arguments held : simpl never.

Lemma held_cons f n ns : held f (n :: ns) = replicate (Z.to_nat (f n)) n ++ held f ns.
Proof. done. Qed.

Lemma held_ext f g ns : (∀ n, n ∈ ns → f n = g n) → held f ns = held g ns.
Proof.
  induction ns as [|n ns IH]; intros H; [done|]. rewrite !held_cons, (H n), IH; [done| |by left]. intros k Hk. apply H. by right.
Qed.

Lemma held_more f g ns n : NoDup ns → n ∈ ns → 0 ≤ f n → g n = f n + 1 → (∀ k, k ≠ n → g k = f k) → held g ns ≡ₚ n :: held f ns.
Proof.
  intros Hnd Hn Hf Hg Hne. induction Hnd as [|k ns Hk Hnd IH]; [by apply not_elem_of_nil in Hn|]. rewrite !held_cons.
  apply elem_of_cons in Hn as [-> |Hn].
  - rewrite Hg. replace (Z.to_nat (f k + 1)) with (S (Z.to_nat (f k))) by lia. rewrite (held_ext g f); [done|].
    intros j Hj. apply Hne. by intros ->.
  - rewrite (Hne k) by (by intros ->). rewrite IH by done. by rewrite Permutation_middle.
Qed.

Lemma held_none f ns : (∀ n, n ∈ ns → f n = 0) → held f ns = [].
Proof. induction ns as [|n ns IH]; intros H; [done|]. rewrite held_cons, (H n), IH; [done| |by left]. intros k Hk. apply H. by right. Qed.

Definition four : list Z := [SIGHUP; SIGINT; SIGPIPE; SIGTERM].

(** The service and the set of the application, with the signals [ns]. *)
Record watches (ns : list Z) sp : Prop := {
  w_live : live sp = [s0];
  w_members : ∀ n, members sp n = if decide (n ∈ ns) then [i0] else []
}.

(** All signals that have come are handled, in a completion, not delivered or in the pipe;
    there is a completion, or there is a wait and no signal that has not been delivered. *)
Record looping sp (l sent : list Z) : Prop := {
  l_watches : watches four sp;
  l_wait : (∃ op, waiting sp i0 = [] ∧ out sp s0 = [op]) ∨ (∃ op, waiting sp i0 = [op] ∧ out sp s0 = [] ∧ ∀ n, n ∈ four → pending sp i0 n = 0);
  l_pending : ∀ n, 0 ≤ pending sp i0 n;
  l_all : l ++ map op_signal (out sp s0) ++ held (pending sp i0) four ++ in_pipe sp ≡ₚ sent
}.

Lemma four_range n : n ∈ four → in_range n = true.
Proof. intros Hn. apply in_range_spec. repeat (apply elem_of_cons in Hn as [-> |Hn]; [vm_compute; split; congruence|]). by apply not_elem_of_nil in Hn. Qed.

Lemma NoDup_four : NoDup four.
Proof. by apply (bool_decide_unpack _). Qed.

Lemma table_watched sp n : watches four sp → n ∈ four → table (members sp) s0 n = [i0].
Proof. intros [_ Hm] Hn. unfold table. rewrite Hm, decide_True by done. cbn. unfold m_service. by rewrite Nat.eqb_refl. Qed.

(** The specification's steps. *)
Lemma came_loops sp l sent n : looping sp l sent → n ∈ four → (length (in_pipe sp) < pipe_capacity)%nat →
  ∃ sp', spec_signalled n sp = (true, sp') ∧ looping sp' l (sent ++ [n]) ∧ in_pipe sp' = in_pipe sp ++ [n].
Proof.
  intros [Hw1 Hw Hp Hall] Hn Hlen. unfold spec_signalled. rewrite (w_members _ _ Hw1), (w_live _ _ Hw1), (decide_True (P := n ∈ four)) by done.
  rewrite (decide_False (P := [i0] = [])), (bool_decide_eq_false_2 ([s0] = [])) by done. cbn [negb andb].
  destruct (Nat.ltb_spec (length (in_pipe sp)) pipe_capacity); [|lia].
  eexists. split; [done|]. split; [|done]. split; [by destruct Hw1|done|done|]. cbn. rewrite <- Hall, <- !app_assoc. done.
Qed.

Lemma delivered_loops sp l sent n rest : looping sp l sent → in_pipe sp = n :: rest → n ∈ four →
  looping (spec_deliver n (sp_pipe rest sp)) l sent ∧ in_pipe (spec_deliver n (sp_pipe rest sp)) = rest.
Proof.
  intros [Hw1 Hw Hp Hall] Hpipe Hn. split; [|by rewrite spec_deliver_pipe]. set (sp1 := sp_pipe rest sp).
  assert (Hw2 : watches four sp1) by (by destruct Hw1).
  assert (E : spec_deliver n sp1 = sp_out s0 (map (set_signal n) (waiting sp i0)) (touch n i0 sp1)).
  { unfold spec_deliver. rewrite (w_live _ _ Hw2). cbn [foldl]. unfold deliver_to. rewrite table_watched by done. cbn. by rewrite app_nil_r. }
  rewrite E. destruct (touch_members n i0 sp1) as (Em & _ & El). unfold touch in *. change (waiting sp1 i0) with (waiting sp i0) in *.
  rewrite Hpipe in Hall. destruct Hw as [(op & Ew & Eo)|(op & Ew & Eo & Hz)]; rewrite Ew in *; cbn [map].
  - split; cbn.
    + by destruct Hw1.
    + left. exists op. rewrite fn_lookup_insert, app_nil_r. done.
    + intros k. rewrite fn_lookup_insert. unfold insert, fn_insert. destruct (decide (n = k)); [|done]. specialize (Hp n). lia.
    + rewrite !fn_lookup_insert, app_nil_r. rewrite (held_more (pending sp i0) _ four n NoDup_four Hn (Hp n)); [..|by rewrite fn_lookup_insert|].
      * rewrite <- Hall. cbn. by rewrite Permutation_middle.
      * intros k Hk. by rewrite fn_lookup_insert_ne.
  - split; cbn.
    + by destruct Hw1.
    + left. eexists. rewrite !fn_lookup_insert, Eo. done.
    + done.
    + rewrite fn_lookup_insert, Eo. rewrite <- Hall, Eo. cbn. rewrite (held_none _ _ Hz). done.
Qed.

Lemma read_loops l0 sp l sent : looping sp l sent → in_pipe sp = l0 → Forall (λ n, n ∈ four) l0 →
  looping (spec_read l0 sp) l sent ∧ in_pipe (spec_read l0 sp) = [].
Proof.
  revert sp. induction l0 as [|n l0 IH]; intros sp Hsp El; [done|]. intros [Hn Hl0]%Forall_cons. cbn [spec_read]. rewrite four_range by done.
  destruct (delivered_loops sp l sent n l0 Hsp El Hn) as [H1 H2]. by apply IH.
Qed.

Lemma signals_watched sp : watches four sp → signals_of (members sp) i0 = four.
Proof.
  intros [_ Hm]. unfold signals_of. rewrite (bool_filter_ext _ (λ n, bool_decide (n ∈ four))); [by vm_compute|].
  intros n _. apply bool_decide_ext. rewrite Hm. case_decide; [|by split; [intros ?%not_elem_of_nil|]]. split; [done|]. intros _. by left.
Qed.

Lemma wait_loops sp l sent op : watches four sp → waiting sp i0 = [] → out sp s0 = [] → (∀ n, 0 ≤ pending sp i0 n) →
  l ++ held (pending sp i0) four ++ in_pipe sp ≡ₚ sent →
  looping (spec_wait i0 op sp) l sent ∧ in_pipe (spec_wait i0 op sp) = in_pipe sp.
Proof.
  intros Hw1 Ew Eo Hp Hall. unfold spec_wait. fold s0. set (sp1 := sp_work s0 1 sp). assert (Hw2 : watches four sp1) by (by destruct Hw1).
  unfold first_pending. rewrite (signals_watched sp1 Hw2). change (pending sp1) with (pending sp). destruct (List.find _ four) as [n|] eqn:E.
  - apply List.find_some in E as [Hn Hk]. apply list_elem_of_In in Hn. apply Z.ltb_lt in Hk. split; [|done]. split; cbn.
    + by destruct Hw1.
    + left. eexists. rewrite fn_lookup_insert, Eo. done.
    + intros k. rewrite fn_lookup_insert. unfold insert, fn_insert. destruct (decide (n = k)); [lia|done].
    + rewrite !fn_lookup_insert, Eo. cbn. rewrite <- Hall.
      rewrite (held_more (<[n := pending sp i0 n - 1]> (pending sp i0)) (pending sp i0) four n NoDup_four Hn); rewrite ?fn_lookup_insert; try lia; [done|].
      intros k Hk'. by rewrite fn_lookup_insert_ne.
  - split; [|done]. split; cbn.
    + by destruct Hw1.
    + right. exists op. rewrite fn_lookup_insert, Ew. split_and!; [done|done|]. intros n Hn%list_elem_of_In.
      pose proof (List.find_none _ _ E n Hn) as Hk. cbn in Hk. apply Z.ltb_ge in Hk. specialize (Hp n). lia.
    + done.
    + rewrite Eo. exact Hall.
Qed.

(** ** The code *)

(** The application is where the specification is, in its loop. *)
Definition app_loops sp a (sent : list Z) : Prop := represents sp (sets a) ∧ looping sp (log a) sent.

Lemma on_sets_ok {A} (m : M signal_state A) (x : A) sp' a :
  (∃ st', m (sets a) = Ok (x, st') ∧ represents sp' st') → ∃ st', on_sets m a = Ok (x, mkApp st' (posted_waits a) (log a)) ∧ represents sp' st'.
Proof. intros (st' & E & Rep). exists st'. unfold on_sets. by rewrite E. Qed.

Lemma at_node {A} (m : M signal_state A) (x : A) sp' node st :
  (∃ st', m st = Ok (x, st') ∧ represents_with node sp' st') → ∃ st', m st = Ok (x, st') ∧ represents sp' st'.
Proof. intros (st' & E & Rep). exists st'. split; [done|by exists node]. Qed.

Lemma loop_known sp st : represents sp st → watches four sp → s0 ∈ known sp.
Proof. intros [node Rep] [Hl _]. apply (r_live _ _ _ Rep). rewrite Hl. by left. Qed.

Lemma run_completion_ok sp a sent : app_loops sp a sent → ∃ sp' a', run_completion a = Ok (tt, a') ∧ app_loops sp' a' sent ∧ in_pipe sp' = in_pipe sp ∧
  ((length (log a') = S (length (log a)))%nat ∨ out sp s0 = [] ∧ log a' = log a).
Proof.
  intros [Rep [Hw1 Hw Hp Hall]]. pose proof (loop_known _ _ Rep Hw1) as Hk. destruct Rep as [node Rep]. unfold run_completion.
  destruct (on_sets_ok (run_posted s0) _ _ a (at_node _ _ _ node _ (run_signal_ok node sp (sets a) s0 Rep Hk))) as (st1 & E1 & Rep1).
  erewrite bind_ok by exact E1. unfold spec_run in *. destruct Hw as [(op & Ew & Eo)|(op & Ew & Eo & Hz)]; rewrite Eo in *; cbn [fst snd] in *.
  - do 3 (erewrite bind_ok by reflexivity). cbn [sets posted_waits log]. set (sp1 := sp_work s0 (-1) (sp_ended s0 op [] sp)) in *.
    destruct Rep1 as [node1 Rep1].
    destruct (wait_loops sp1 (log a ++ [op_signal op]) sent (new_wait (posted_waits a))) as [H1 H2]; try done.
    + by destruct Hw1.
    + unfold sp1. cbn. by rewrite fn_lookup_insert.
    + rewrite <- Hall, <- app_assoc. done.
    + destruct (wait_ok node1 sp1 st1 i0 (new_wait (posted_waits a)) Rep1 Hk) as (st2 & E2 & Rep2).
      eexists _, (mkApp st2 (S (posted_waits a)) (log a ++ [op_signal op])). split; [unfold on_sets; cbn [sets]; by rewrite E2|].
      split; [split; [by exists node1|exact H1]|]. split; [exact H2|]. left. cbn. rewrite length_app. cbn. lia.
  - exists sp, (mkApp st1 (posted_waits a) (log a)). split; [done|]. split; [split; [done|]|by auto]. split; try done. right. by exists op.
    by rewrite Eo.
Qed.

Lemma looping_pipe sp l sent : looping sp l sent → Forall (λ n, n ∈ four) sent → Forall (λ n, n ∈ four) (in_pipe sp).
Proof.
  intros [_ _ _ Hall] Hs. rewrite Forall_forall in *. intros n Hn. apply Hs. rewrite <- Hall. rewrite !elem_of_app. auto.
Qed.

Lemma readable_ok sp a sent : app_loops sp a sent → Forall (λ n, n ∈ four) sent →
  ∃ sp' a', on_sets pipe_read a = Ok (tt, a') ∧ app_loops sp' a' sent ∧ in_pipe sp' = [].
Proof.
  intros [[node Rep] Hl] Hs. destruct (read_loops (in_pipe sp) sp (log a) sent Hl eq_refl) as [H1 H2]; [by eapply looping_pipe|].
  destruct (on_sets_ok pipe_read _ _ a (at_node _ _ _ node _ (pipe_read_ok node sp (sets a) Rep))) as (st1 & E1 & Rep1).
  eexists _, _. split; [exact E1|]. split; [split; [exact Rep1|exact H1]|exact H2].
Qed.

Lemma events_ok evs sp a sent : app_loops sp a sent → Forall (λ n, n ∈ four) (sent ++ came evs) → fits (length (in_pipe sp)) evs →
  ∃ sp' a', events evs a = Ok (true, a') ∧ app_loops sp' a' (sent ++ came evs).
Proof.
  revert sp a sent. induction evs as [|ev evs IH]; intros sp a sent Ha Hs Hlen; [rewrite app_nil_r; by exists sp, a|]. cbn [events].
  destruct ev as [n| |]; cbn [happens].
  - change (came (Came n :: evs)) with ([n] ++ came evs) in *. rewrite app_assoc in *.
    destruct Ha as [[node Rep] Hl]. destruct Hlen as [Hlen Hfits].
    destruct (came_loops sp (log a) sent n Hl) as (sp1 & Es & Hl1 & Hp1); [|done|].
    { rewrite Forall_forall in Hs. apply Hs. rewrite !elem_of_app. left. right. by left. }
    destruct (on_sets_ok (signalled n) _ _ a (at_node _ _ _ node _ (signalled_ok node sp (sets a) n Rep))) as (st1 & E1 & Rep1).
    rewrite Es in E1, Rep1. erewrite bind_ok by exact E1. cbn [fst]. apply (IH sp1); [done..|].
    rewrite Hp1, length_app, Nat.add_1_r. exact Hfits.
  - destruct (readable_ok sp a sent Ha) as (sp1 & a1 & E1 & Ha1 & Hp1); [by apply Forall_app in Hs as [? _]|].
    erewrite bind_ok by (erewrite bind_ok by exact E1; reflexivity). apply (IH sp1); [done..|]. by rewrite Hp1.
  - destruct (run_completion_ok sp a sent Ha) as (sp1 & a1 & E1 & Ha1 & Hp1 & _).
    erewrite bind_ok by (erewrite bind_ok by exact E1; reflexivity). apply (IH sp1); [done..|]. by rewrite Hp1.
Qed.

Lemma events_app e1 e2 a a1 : events e1 a = Ok (true, a1) → events (e1 ++ e2) a = events e2 a1.
Proof.
  revert a. induction e1 as [|ev e1 IH]; intros a E; [by injection E as <-|]. cbn [app events] in *.
  destruct (happens ev a) as [[go a']|f] eqn:Eh; [|by rewrite (bind_fault _ _ _ _ Eh) in E].
  rewrite (bind_ok _ _ _ _ _ Eh) in E. erewrite bind_ok by exact Eh. destruct go; [by apply IH|done].
Qed.

(** Without signals in the pipe, every turn handles one until none is left. *)
Lemma turns_ok (k : nat) sp a sent : app_loops sp a sent → in_pipe sp = [] → (length sent ≤ length (log a) + k)%nat →
  ∃ sp' a', events (replicate k Turn) a = Ok (true, a') ∧ app_loops sp' a' sent ∧ log a' ≡ₚ sent ∧ waiting sp' i0 ≠ [].
Proof.
  revert sp a. induction k as [|k IH]; intros sp a Ha Hp Hlen.
  - exists sp, a. split; [done|]. split; [done|]. destruct Ha as [_ [Hw1 Hw _ Hall]]. rewrite Hp, app_nil_r in Hall.
    pose proof (Permutation_length Hall) as Hl. rewrite !length_app in Hl. rewrite <- Hall.
    destruct (out sp s0) as [|op ops] eqn:Eo; [|cbn in Hl; lia]. destruct (held (pending sp i0) four) as [|n l]; [|cbn in Hl; lia]. split.
    + by rewrite app_nil_r.
    + destruct Hw as [(op & _ & E)|(op & E & _)]; [done|by rewrite E].
  - cbn [replicate events happens]. destruct (run_completion_ok sp a sent Ha) as (sp1 & a1 & E1 & Ha1 & Hp1 & Hlog).
    erewrite bind_ok by (erewrite bind_ok by exact E1; reflexivity). apply (IH sp1); [done|congruence|]. destruct Hlog as [Hlog|[Eo Hlog]]; [lia|].
    destruct Ha as [_ [Hw1 Hw _ Hall]]. destruct Hw as [(op & _ & E)|(op & E & _ & Hz)]; [congruence|].
    rewrite Hp, Eo, (held_none _ _ Hz) in Hall. cbn [map app] in Hall. rewrite app_nil_r in Hall. apply Permutation_length in Hall. rewrite Hlog. lia.
Qed.

(** ** The start *)

(** The set has the signals [ns] and does nothing yet. *)
Record ready (ns : list Z) sp : Prop := {
  y_watches : watches ns sp;
  y_waiting : waiting sp i0 = [];
  y_out : out sp s0 = [];
  y_pending : ∀ n, pending sp i0 n = 0;
  y_pipe : in_pipe sp = []
}.

Lemma add_ready ns n sp a : represents sp (sets a) → ready ns sp → n ∉ ns → in_range n = true → sigaction_errno n = None →
  ∃ sp' st', on_sets (add i0 n) a = Ok (None, mkApp st' (posted_waits a) (log a)) ∧ represents sp' st' ∧ ready (n :: ns) sp'.
Proof.
  intros [node Rep] [[Hl Hm] Hw Ho Hp Hpi] Hn Hr He. assert (Hk : s0 ∈ known sp) by (apply (r_live _ _ _ Rep); rewrite Hl; by left).
  destruct (add_ok node sp (sets a) i0 n Rep) as (st' & node' & E & Rep'); [by apply (r_known _ _ _ Rep)|]. unfold spec_add in *. rewrite Hr in *.
  cbn [negb] in *. rewrite Hm, (decide_False (P := n ∈ ns)), (decide_False (P := i0 ∈ [])), decide_True, He in * by (done || apply not_elem_of_nil).
  eexists _, st'. split; [unfold on_sets; by rewrite E|]. split; [by exists node'|]. split; try done; [split; [done|]|].
  - intros k. cbn. unfold insert, fn_insert. destruct (decide (n = k)) as [<-|Hne]; [by rewrite decide_True by by left|].
    rewrite Hm. apply decide_ext. rewrite elem_of_cons. naive_solver.
  - intros k. cbn. rewrite fn_lookup_insert. unfold insert, fn_insert. by destruct (decide (n = k)).
Qed.

Lemma add_all_ok todo ns sp a : represents sp (sets a) → ready ns sp → NoDup (todo ++ ns) →
  (∀ n, n ∈ todo → in_range n = true ∧ sigaction_errno n = None) →
  ∃ sp' st' ns', add_all todo a = Ok (None, mkApp st' (posted_waits a) (log a)) ∧ represents sp' st' ∧ ready ns' sp' ∧ ns' ≡ₚ todo ++ ns.
Proof.
  revert ns sp a. induction todo as [|n todo IH]; intros ns sp a Rep Hy Hnd Hn.
  { exists sp, (sets a), ns. split; [by destruct a|done]. }
  destruct (Hn n) as [Hr He]; [by left|]. apply NoDup_cons in Hnd as [Hnot Hnd]. rewrite elem_of_app in Hnot.
  destruct (add_ready ns n sp a Rep Hy) as (sp1 & st1 & E1 & Rep1 & Hy1); [tauto|done|done|]. cbn [add_all]. erewrite bind_ok by exact E1.
  destruct (IH (n :: ns) sp1 (mkApp st1 (posted_waits a) (log a)) Rep1 Hy1) as (sp2 & st2 & ns2 & E2 & Rep2 & Hy2 & Hns).
  - rewrite <- Permutation_middle. constructor; [rewrite elem_of_app; tauto|done].
  - intros k Hk. apply Hn. by right.
  - exists sp2, st2, ns2. split; [exact E2|]. split; [done|]. split; [done|]. by rewrite Hns, <- Permutation_middle.
Qed.

Lemma start_signals_ok a sp : represents sp (sets a) → ready [] sp → log a = [] → (∀ n, n ∈ four → sigaction_errno n = None) →
  ∃ sp' a', start_signals a = Ok (None, a') ∧ app_loops sp' a' [] ∧ in_pipe sp' = [].
Proof.
  intros Rep Hy Hlog He. unfold start_signals.
  destruct (add_all_ok [SIGTERM; SIGINT; SIGPIPE; SIGHUP] [] sp a Rep Hy) as (sp1 & st1 & ns & E1 & Rep1 & Hy1 & Hns).
  - by apply (bool_decide_unpack _).
  - intros n Hn. assert (Hf : n ∈ four) by (set_solver). split; [by apply four_range|by apply He].
  - erewrite bind_ok by exact E1. cbn beta iota. do 2 (erewrite bind_ok by reflexivity). destruct Hy1 as [[Hl Hm] Hw Ho Hp Hpi].
    assert (Hw1 : watches four sp1).
    { split; [done|]. intros n. rewrite Hm. apply decide_ext. rewrite Hns. set_solver. }
    destruct (wait_loops sp1 [] [] (new_wait (posted_waits a))) as [H1 H2]; try done; [intros n; by rewrite Hp| |].
    { rewrite Hpi, held_none; [done|]. intros n _. apply Hp. }
    pose proof (loop_known _ _ Rep1 Hw1) as Hk. destruct Rep1 as [node1 Rep1].
    destruct (wait_ok node1 sp1 st1 i0 (new_wait (posted_waits a)) Rep1 Hk) as (st2 & E2 & Rep2).
    eexists _, (mkApp st2 (S (posted_waits a)) (log a)).
    split; [erewrite bind_ok; [reflexivity|]; unfold on_sets; cbn [sets posted_waits log]; by rewrite E2|]. split; [split; [by exists node1|]|by rewrite H2].
    cbn [log]. by rewrite Hlog.
Qed.

(** C31: if [sigaction] takes the four signals of the application, only these come, and none comes when the pipe is
    full of unread ones: whenever the pipe is read and the scheduler takes a turn between them, the process is not
    killed; after the pipe has been read and as many turns as there were signals, [handle_signals] has been
    called once for every signal that came, and the application waits. *)
Theorem signals_all_handled evs : (∀ n, n ∈ four → sigaction_errno n = None) → Forall (λ n, n ∈ four) (came evs) →
  fits 0 evs →
  ∃ a, application (evs ++ Readable :: replicate (length (came evs)) Turn) signal_app0 = Ok (Some true, a) ∧
    log a ≡ₚ came evs ∧ waits_ (impls (sets a) m_signals) ≠ [].
Proof.
  intros He Hs Hlen. unfold application. destruct represents0 as [node0 Rep0].
  destruct (on_sets_ok (create_service s0 true true) _ _ signal_app0 (at_node _ _ _ node0 _ (create_ok node0 sigspec0 signal_state0 s0 true true Rep0 ltac:(set_solver))))
    as (st1 & E1 & Rep1). erewrite bind_ok by exact E1.
  destruct (start_signals_ok (mkApp st1 0 []) _ Rep1) as (sp2 & a2 & E2 & Ha2 & Hp2); [|done|done|].
  { split; [by split|done|cbn; by rewrite fn_lookup_insert|done|done]. }
  erewrite bind_ok by exact E2. change (spec_create s0 true true sigspec0).1 with (@None failure). cbn beta iota.
  destruct (events_ok evs sp2 a2 [] Ha2 Hs ltac:(by rewrite Hp2)) as (sp3 & a3 & E3 & Ha3). cbn [app] in Ha3.
  destruct (readable_ok sp3 a3 _ Ha3 Hs) as (sp4 & a4 & E4 & Ha4 & Hp4).
  destruct (turns_ok (length (came evs)) sp4 a4 _ Ha4 Hp4) as (sp5 & a5 & E5 & [[node5 Rep5] _] & Hlog & Hw); [lia|].
  exists a5. split; [|split; [done|by rewrite (r_waits _ _ _ Rep5)]].
  erewrite bind_ok; [reflexivity|]. rewrite (events_app evs _ _ _ E3). cbn [events happens].
  erewrite bind_ok by (erewrite bind_ok by exact E4; reflexivity). exact E5.
Qed.

End Client.

(** Signals before the first turn, twice the same, and one while a completion waits for its turn. *)
Definition busy : list event := [Came 15; Came 1; Readable; Came 2; Came 2; Readable; Turn; Came 13; Readable; Turn; Came 15].

Example busy_log : (match application (W := linux) 0%nat (busy ++ Readable :: replicate 6 Turn) signal_app0 with Ok (go, a) => Some (go, log a) | Fault _ => None end) =
  Some (Some true, [15; 1; 2; 2; 13; 15]).
Proof. vm_compute. reflexivity. Qed.

Lemma signals_all_handled_witness : ∃ a, application (W := linux) 0%nat (busy ++ Readable :: replicate (length (came busy)) Turn) signal_app0 = Ok (Some true, a) ∧
  log a ≡ₚ came busy ∧ waits_ (impls (sets a) 0%nat) ≠ [].
Proof.
  apply (signals_all_handled (W := linux) 0%nat busy).
  - intros n Hn. repeat (apply elem_of_cons in Hn as [-> | Hn]; [reflexivity|]). by apply not_elem_of_nil in Hn.
  - by apply (bool_decide_unpack _).
  - assert (Hc : (pipe_capacity (Surroundings := linux) = 3 + Z.to_nat 16381)%nat) by (cbn; lia). cbn -[pipe_capacity]. rewrite Hc. lia.
Defined.

(** A pipe that holds one number: [asio_signal_handler] loses the second of two signals, and nobody is told. *)
Definition small_pipe : Surroundings := {| owner := λ i, (i mod 2)%nat; sigaction_errno := λ _, None; pipe_capacity := 1 |}.

Example full_pipe_loses : (match application (W := small_pipe) 0%nat [Came 15; Came 2; Readable; Turn; Turn] signal_app0 with Ok (go, a) => Some (go, log a) | Fault _ => None end) =
  Some (Some true, [15]).
Proof. vm_compute. reflexivity. Qed.
